(* ===== verification/_CoqProject ===== *)
-Q . S2P
Prelude.v
Floats.v
Effects.v
Lru.v
Layout.v
Utf8.v
TensorHeader.v
Gguf.v
GgufShards.v
Numa.v
ExpertVram.v
ExpertArena.v
ArenaSteps.v
ArenaCreate.v
ArenaView.v
TieredResidency.v
BufferPool.v
BlockPool.v
Breaker.v
Packed.v
KvCache.v
Session.v
Rpc.v
Distributed.v
ExpertCache.v
GpuExpertCache.v
MultiLayerCache.v
Singleflight.v
Tokenizer.v
Sampling.v
Router.v
BatchScheduler.v
Scheduler.v
Pregate.v
Residency.v
Pinning.v
Admission.v
