(* ===== verification/Prelude.v ===== *)
(** * The micro-expert router: caches, pools and storage of a streamed MoE engine

    This library models the memory and storage core of the engine under
    [src/rust-engine/src]: how expert weights are laid out on the drive, how they
    are read in spite of failing drives, and how they move through the RAM and GPU
    tiers.  It is a library of executable definitions translated from the Rust
    sources, with the theorems that make each part correct.

    ** The parts and how they interact

    - [Floats.v], [Lru.v]: what the code uses of its environment.  IEEE arithmetic
      is the standard library's [SpecFloat]; the third-party [lru] crate is a
      class of operations with laws ([LruCache], [LruLaws]), met by a list.
    - [Effects.v]: the monad of methods that change a state, return a [Result] and can
      panic, and the weakest preconditions its users are verified with.
    - [Layout.v] ([inference.rs]): the byte sizes of an expert blob for every
      weight dtype, and the packing of Q4_K scales.
    - [TensorHeader.v] ([tensor_header.rs]): the two self-describing headers a
      blob starts with.
    - [Utf8.v]: UTF-8 decoding as the standard library does it, for the two parts
      below that keep text.
    - [Gguf.v], [GgufShards.v] ([gguf.rs]): the reader of the checkpoint format,
      over a buffer and streaming, and the sets of files a checkpoint is split in.
    - [ExpertVram.v], [ExpertArena.v], [ArenaSteps.v], [ArenaCreate.v]
      ([backend/gpu_native.rs], [gpu_native_residency.rs]): the expert slots of the
      native GPU path.  The first plans how many slots a layer and a model get from a
      budget and where a slot lies; the second is a layer's arena, its bytes, its table
      of slots and owners and the mapping the shaders resolve experts through; the third
      interleaves any number of installations and device reads over it; the last sets it
      up and runs it on examples.
    - [ArenaView.v], [TieredResidency.v] ([gpu_native_residency.rs]): what a caller sees
      of an arena, expert by expert, and the manager that keeps every layer's arena
      filled: it serves the demand sets of the layers, evicting what they do not need and
      staging the misses concurrently, and installs speculatively into what room is left.
    - [BufferPool.v] ([buffer_pool.rs], [aligned_buffer.rs]): the aligned buffers
      blobs are read into, in a primary and a shadow half.
    - [BlockPool.v] ([block_pool.rs]): the paged KV cache's shared blocks and the
      manager each request reads and writes through.
    - [Breaker.v] ([io_provider.rs]): the fault-tolerant read with its retry loop,
      and the circuit breakers of experts and drives.
    - [Packed.v] ([packed_storage.rs], the batched reads of [io_provider.rs]): all
      experts in one blob, its manifest, and batches coalesced into runs, read
      over the same drives and breakers.
    - [KvCache.v] ([transformer.rs]), [Session.v] ([session.rs]): the sliding
      window of keys and values a request keeps, and the table of sessions that
      hands such states out, takes them back, deletes and expires them.
    - [Rpc.v] ([rpc.rs]): the shard an expert lives on and the frames that route
      its inputs and outputs, with half-precision words.
    - [Tokenizer.v] ([tokenizer.rs], [stream_tokens] of [server.rs]): the byte tokenizer
      and the decoder that turns a stream of token ids into deltas of text.
    - [Router.v] ([router.rs]): the locality monitor, the affinity matrices and the
      disk neighbours that steer prefetching, and the controller of its depth.
    - [ExpertCache.v] ([expert_cache.rs], first part): the RAM cache of residents,
      with pins, reservations and two eviction policies; it holds guards of the
      buffer pool and exposes payloads through the headers.
    - [GpuExpertCache.v] ([expert_cache.rs], second part): the two-tier GPU cache,
      promotions and demand sets.
    - [MultiLayerCache.v] ([multi_layer_cache.rs], [fetch_once] of [engine.rs]):
      one RAM cache per layer, the exact-demand transaction over them and the
      sequential miss path it stands for.
    - [Singleflight.v] ([fetch_with_retry_inner], [fetch_once], [spawn_prefetch] and the
      batched foreground source of [engine.rs]): the claims on experts being read, over the
      per-layer caches and the buffer pool, as tasks whose accesses interleave.
    - [Distributed.v] ([distributed.rs]): which node serves an expert, behind the trait of
      shard routers.
    - [BatchScheduler.v], [Scheduler.v] ([batch_scheduler.rs]): the channels a batch is
      formed from and the registry its tasks advance requests in; then sessions, the
      memory-pressure ladder (over the block pool's levels and the router's controller)
      and the prefetching pre-pass (over the shard routers and [warm_with]).
    - [Pregate.v] ([pregate.rs]): the predictor that learns which experts follow which
      from one layer to the next.
    - [Residency.v] ([residency.rs]), [Pinning.v] ([engine.rs]): the hot set of a popularity
      profile; and the three reasons the engine pins experts for (the locality monitor,
      their count, static residency), over the per-layer caches.
    - [Sampling.v] ([sampling.rs]): the sampler of the next token.
    - [Numa.v] ([numa.rs]): CPU lists, and which mask the process asks for.
    - [Admission.v] ([middleware.rs], the layers of [build_router] in [server.rs]): API
      keys, the token bucket and admission, in their order.

    ** How state and operations correspond

    A struct is a record with the source's field names, a method a definition with
    the source's name that takes the state and returns the new one.  [HashMap] and
    [HashSet] are [gmap] and [gset]; [usize] is 64 bits wide and, like the other
    integers, an [N] with its wrapping or checked arithmetic written out; objects
    mutated behind an [Arc] live in an explicit heap.  A panic (an index out of
    range, a failed [assert!], an [expect]) is [None], a [Result] is [result].  The
    code under a mutex is one atomic step; where the code relies on atomics instead
    (the breakers), a second model interleaves them instruction by instruction.

    ** What the theorems show

    - Layout and headers: sizes add up for every dtype; encodings round-trip
      through padding, never mistake one another, and validation is exactly the
      documented contract.
    - GGUF: parsing ends on every input and accepts only what lies in the file;
      the streaming reader gives what the parser of the whole file gives, however
      the reads are cut; shard names round-trip, a set opens exactly when its
      shards are consistent, and reads every tensor from the shard that holds it.
    - VRAM plans: the planner of a layer finds the largest arena the budget pays for,
      that of the model spends the budget until no layer can grow, both always return;
      slots are numbered without gaps and lie inside their banks.
    - Expert arena: whatever the interleaving, a route that passes the device's epoch
      check reads the bytes staged for its expert; an install makes its expert readable
      at once; nothing panics, and the validation of an arena cannot begin to fail.
    - Residency manager: a demand set that succeeds is co-resident, with the generations
      and weights it brought, whatever is evicted, whatever the order of the staging
      workers and whatever the device, the queue and the logical cache do meanwhile; a
      speculative request never evicts, whatever error it ends with; probes are exact; and through any run of requests
      the device reads of every expert only weights brought for that expert and that
      generation.  The manager is proved against the view of the arena ([ArenaView]) and
      not against its tables; its invariant is that records, open permits and slots in
      use are the same experts.
    - Buffer pool: in every interleaving no buffer is lost or lent twice, halves
      only move one way, a drop serves the half it wakes.
    - Block pool: the paged cache implements, for every request, the list of tokens
      it appended, whatever blocks are shared, recycled, overflowed or reclaimed;
      blocks are conserved; refusals and pressure levels mean what they say.
    - Breakers: every read on every branch; counters are the consecutive failures;
      probes are rate limited, sequentially and in every interleaving; failing
      reads racing each other lose no count and open a breaker exactly once.
    - Packed blob: runs are the maximal contiguous stretches of a batch; a batch
      delivers to every buffer the bytes of its expert; packing then reading
      gives back the packed files.
    - KV cache and sessions: the paged cache implements the window of appended
      tokens; at most one request holds a session, a deleted session is not
      resumed, expiry removes exactly what is too old, in every interleaving.
    - RPC: frames round-trip and reject what is not a frame; the shards partition
      the requested experts; half-precision conversion rounds to nearest even.
    - Tokenizer: whatever the ids, deltas are well-formed text and the window stays
      bounded; streaming a completion gives its one-shot decoding, and text survives
      the round trip through byte tokens.
    - Router: heat and affinities are exact counts (of the window, and of pairs that
      fired together); neighbours are the strongest, or the nearest on disk; the
      prefetch depth stays in its range and survives a suspension.
    - RAM cache: both policies pick the documented victim, insertion on every
      branch, pins are respected by every operation, a reserved position is there
      when it is committed.
    - GPU cache: every operation keeps the budgets and never panics, anchored and
      protected admissions survive, a demand set is atomic.
    - Per-layer caches: the transaction is safe, and equivalent to fetching the
      experts one by one.
    - Singleflight: an expert has one reader at a time; every read made follows a miss
      seen under its claim; a request that ends has the residents it asked for; it makes
      a bounded number of accesses, and only a wait keeps it from its end; followers that
      registered before the leader's drop are woken, through failures, cancellations and
      panics (one that registers later can wait for ever).
    - Placement: a mesh assigns every expert to exactly one node, and routers agree.
    - Batches: each request is advanced as if it ran alone, whatever the batch it is put
      in; batches are first come, first served within a class, and the lower class is
      not starved when a batch has room for both.
    - Scheduler: sessions and the active count follow registrations and releases; idle
      eviction only frees idle sessions; under critical pressure speculation is off,
      and stays off until a batch sees less than high pressure; the pre-pass covers the predicted
      experts, local ones from the drive and remote ones from their nodes.
    - Pre-gate: the tables are the exact counts of the history, and a prediction is the
      experts with the most evidence in it.
    - Pinning: in every interleaving the last hot set is pinned, nothing is pinned without
      a reason, and locality alone leaves a slot of every layer evictable; a count pins
      once; a static pin that has been recorded stays.  The hot set of a profile is its
      most popular experts, as many as the budget.
    - Sampling: a token of the vocabulary is sampled whatever the logits, within both
      truncations unless the greedy choice stands in; greedy sampling is the first maximum; seeds of positions are distinct.
    - CPU lists: printing then parsing gives the list back; a mask shows what it pins.
    - Admission: the counter is the number of slots held and never above its limit; a lone
      request is decided in a few steps; a refused request costs nothing.

    ** Bounds and fuel

    Loops are structural or run on fuel.  The GPU cache's eviction loop takes the
    number of entries of the LRU tier plus one: each iteration removes one entry.
    The GGUF parser takes twice the number of bytes plus four: every value, table
    entry and dimension takes a byte at least, and [parse_sound] shows that the fuel
    is never exhausted; the streaming loop takes the number of bytes left, UTF-8
    decoding the number of bytes.  The recursion of nested arrays is bounded by the
    same fuel; the stack it needs in the program is not modelled.
    The search for a layer's plan halves an interval and takes the number of bits of its
    upper end; the model's plan adds a slot at each turn and takes layers times experts
    plus one.
    The eviction of a demand set takes the number of records plus one; the schedule of the
    staging workers is arbitrary and then gives each worker its two steps, which is all
    they need.
    A fetch makes at most [MAX_LEADER_ELECTIONS] elections of [MAX_ATTEMPTS] reads each,
    the constants of the code; schedules of tasks are arbitrary lists of steps.
    The block pool's theorems bound the number of operations by 2^31, the range of
    block ids; the storage's clock is 64 bits wide.

    ** What is not modelled

    The floating-point kernels and the dispatches of the GPU backend, asynchronous waiting (only the
    wake-ups are), file descriptors and system calls (those of CPU affinity included),
    metrics and telemetry, the prefetch governor (a floating-point average), and the HTTP, gRPC and command-line front ends (of the HTTP
    layers, the request ids; of the scheduler, the warm-up entry point).  Files are
    functions from names to contents; the allocator, the Hugging Face tokenizer, the
    exponential and unstable sort of the sampler, the clock and the RPC transport are
    parameters.  The softmax of the top-k
    router and the learned predictors are floating-point compute.  Of the residency
    manager, the observers and their timers, the fused source upload of the qualification
    treatment and the authorisation of the oracle's safe boundary are left out: they do
    not take part in what is resident.  In its run of requests each holds its layer's lock
    from its validation on, as one transaction; the demands of two layers do not share
    state but the counters. *)
From Stdlib Require Export NArith ZArith Lia.
From Stdlib Require Export Strings.Byte.
From stdpp Require Export base decidable option list list_numbers gmap fin_maps numbers sorting.

Declare Scope mer_scope.
Delimit Scope mer_scope with mer.

(** Facts the proofs of every component use automatically. *)
Create HintDb mer.

(** ** Results *)

(** Rust's [Result<A, E>]; the error type comes first so that [result E] is a
    monad in the sense of stdpp's [MBind]. *)
Inductive result (E A : Type) : Type :=
| Ok (a : A)
| Err (e : E).
Arguments Ok {E A} a.
Arguments Err {E A} e.

#[export] Instance result_ret E : MRet (result E) := fun A a => Ok a.
#[export] Instance result_bind E : MBind (result E) := fun A B f r =>
  match r with Ok a => f a | Err e => Err e end.
#[export] Instance result_fmap E : FMap (result E) := fun A B f r =>
  match r with Ok a => Ok (f a) | Err e => Err e end.

(** [Option::ok_or]. *)
Definition ok_or {E A} (o : option A) (e : E) : result E A :=
  match o with Some a => Ok a | None => Err e end.

Definition is_ok {E A} (r : result E A) : bool :=
  match r with Ok _ => true | Err _ => false end.

Lemma result_bind_ok {E A B} (r : result E A) (f : A -> result E B) b :
  r ≫= f = Ok b <-> exists a, r = Ok a /\ f a = Ok b.
Proof.
  destruct r; simpl; (split; [intros H|intros (a' & [= ?] & ?)]); subst; eauto; done.
Qed.

Lemma ok_or_ok {E A} (o : option A) (e : E) a : ok_or o e = Ok a <-> o = Some a.
Proof. destruct o; simpl; split; congruence. Qed.

(** ** Machine integers *)

(** An unsigned [w]-bit machine integer is an [N] below [2 ^ w]. *)
Definition umax (w : N) : N := 2 ^ w - 1.
Definition u8_max : N := 255.
Definition u16_max : N := 65535.
Definition u32_max : N := 4294967295.
Definition u64_max : N := 18446744073709551615.
(** The engine's targets are 64-bit: [usize] is [u64]. *)
Definition usize_max : N := u64_max.
(** The most bytes a [Vec] holds. *)
Definition isize_max : N := 9223372036854775807.

Definition fits (m x : N) : Prop := (x <= m)%N.

(** [checked_add], [checked_sub], [checked_mul], [saturating_add],
    [saturating_mul] and the wrapping [fetch_add] of atomics, at the width whose
    maximum is [m].  [saturating_sub] is [N.sub]. *)
Definition checked_add (m a b : N) : option N :=
  if (a + b <=? m)%N then Some (a + b)%N else None.
Definition checked_sub (a b : N) : option N :=
  if (b <=? a)%N then Some (a - b)%N else None.
Definition checked_mul (m a b : N) : option N :=
  if (a * b <=? m)%N then Some (a * b)%N else None.
Definition sat_add (m a b : N) : N := N.min m (a + b).
Definition sat_mul (m a b : N) : N := N.min m (a * b).
Definition sat_sub (a b : N) : N := (a - b)%N.
Definition wrap_add (m a b : N) : N := ((a + b) mod (m + 1))%N.
Definition wrap_mul (m a b : N) : N := ((a * b) mod (m + 1))%N.

(** Case analysis on every [N] comparison a checked operation tests. *)
Ltac case_N :=
  repeat match goal with
  | |- context [N.leb ?a ?b] => destruct (N.leb_spec a b)
  | |- context [N.ltb ?a ?b] => destruct (N.ltb_spec a b)
  | |- context [N.eqb ?a ?b] => destruct (N.eqb_spec a b)
  | H : context [N.leb ?a ?b] |- _ => destruct (N.leb_spec a b)
  | H : context [N.ltb ?a ?b] |- _ => destruct (N.ltb_spec a b)
  | H : context [N.eqb ?a ?b] |- _ => destruct (N.eqb_spec a b)
  end.

Ltac solve_checked :=
  case_N; split; intros; repeat match goal with
  | H : _ /\ _ |- _ => destruct H
  | H : Some _ = Some _ |- _ => injection H as H
  end; subst; try done; try split; try (f_equal; lia); lia.

Lemma checked_add_Some m a b c :
  checked_add m a b = Some c <-> (c = a + b /\ a + b <= m)%N.
Proof. unfold checked_add. solve_checked. Qed.

Lemma checked_add_None m a b : checked_add m a b = None <-> (m < a + b)%N.
Proof. unfold checked_add. solve_checked. Qed.

Lemma checked_sub_Some a b c :
  checked_sub a b = Some c <-> (c = a - b /\ b <= a)%N.
Proof. unfold checked_sub. solve_checked. Qed.

Lemma checked_mul_Some m a b c :
  checked_mul m a b = Some c <-> (c = a * b /\ a * b <= m)%N.
Proof. unfold checked_mul. solve_checked. Qed.

Lemma wrap_add_small m a b : (a + b <= m)%N -> wrap_add m a b = (a + b)%N.
Proof. intros. unfold wrap_add. apply N.mod_small. lia. Qed.

Lemma wrap_mul_small m a b : (a * b <= m)%N -> wrap_mul m a b = (a * b)%N.
Proof. intros. unfold wrap_mul. apply N.mod_small. lia. Qed.

(** ** Bytes *)

#[export] Instance byte_eq_dec : EqDecision byte := Byte.byte_eq_dec.
#[export] Instance byte_inhabited : Inhabited byte := populate x00.

(** [x as u8]. *)
Definition byte_of_N (n : N) : byte :=
  match Byte.of_N (n mod 256) with Some b => b | None => x00 end.

Lemma byte_to_of_N n : Byte.to_N (byte_of_N n) = (n mod 256)%N.
Proof.
  unfold byte_of_N. destruct (Byte.of_N (n mod 256)) as [b|] eqn:E.
  - by apply Byte.to_of_N.
  - apply Byte.of_N_None_iff in E.
    pose proof (N.mod_lt n 256 ltac:(lia)). lia.
Qed.

Lemma byte_of_to_N b : byte_of_N (Byte.to_N b) = b.
Proof. by destruct b. Qed.

Lemma byte_to_N_lt b : (Byte.to_N b < 256)%N.
Proof. pose proof (Byte.to_N_bounded b). lia. Qed.

(** [to_le_bytes] of an [8 * n]-bit integer, and [from_le_bytes]. *)
Fixpoint le_bytes (n : nat) (x : N) : list byte :=
  match n with
  | O => []
  | S n' => byte_of_N x :: le_bytes n' (x / 256)
  end.

Fixpoint le_val (l : list byte) : N :=
  match l with
  | [] => 0
  | b :: l' => Byte.to_N b + 256 * le_val l'
  end%N.

Lemma length_le_bytes n x : length (le_bytes n x) = n.
Proof. revert x; induction n; simpl; auto. Qed.

Lemma le_val_le_bytes n x : le_val (le_bytes n x) = (x mod 256 ^ N.of_nat n)%N.
Proof.
  revert x. induction n as [|n IH]; intros x.
  - simpl. by rewrite N.mod_1_r.
  - cbn [le_bytes le_val]. rewrite IH, byte_to_of_N, Nat2N.inj_succ, N.pow_succ_r'.
    rewrite (N.Div0.mod_mul_r x 256 (256 ^ N.of_nat n)). lia.
Qed.

Lemma le_val_le_bytes_small n x :
  (x < 256 ^ N.of_nat n)%N -> le_val (le_bytes n x) = x.
Proof. intros. rewrite le_val_le_bytes. by apply N.mod_small. Qed.

Lemma le_val_bound l : (le_val l < 256 ^ N.of_nat (length l))%N.
Proof.
  induction l as [|b l IH]; [simpl; lia|].
  cbn [le_val length]. rewrite Nat2N.inj_succ, N.pow_succ_r'.
  pose proof (byte_to_N_lt b). nia.
Qed.

Lemma le_bytes_le_val l : le_bytes (length l) (le_val l) = l.
Proof.
  induction l as [|b l IH]; [done|]. cbn [le_val length le_bytes].
  pose proof (byte_to_N_lt b). f_equal.
  - rewrite <-(byte_of_to_N b) at 2.
    unfold byte_of_N. rewrite (N.mul_comm 256), N.Div0.mod_add. done.
  - rewrite N.mul_comm, N.div_add, N.div_small, N.add_0_l by lia. done.
Qed.

(** [buf[off..off + src.len()].copy_from_slice(src)] for a range inside [buf]. *)
Definition splice {A} (off : nat) (src buf : list A) : list A :=
  take off buf ++ src ++ drop (off + length src) buf.

(** [buf[off..off + n]]. *)
Definition slice {A} (off n : nat) (buf : list A) : list A := take n (drop off buf).

Lemma length_splice {A} off (src buf : list A) :
  off + length src <= length buf -> length (splice off src buf) = length buf.
Proof. intros. unfold splice. rewrite !length_app, length_take, length_drop. lia. Qed.

Lemma slice_app_l {A} (n : nat) (l k : list A) :
  length l = n -> slice 0 n (l ++ k) = l.
Proof. intros <-. unfold slice. by rewrite drop_0, take_app_length. Qed.

Lemma slice_app_r {A} (off n : nat) (l k : list A) :
  length l <= off -> slice off n (l ++ k) = slice (off - length l) n k.
Proof. intros. unfold slice. by rewrite drop_app_ge. Qed.

Lemma slice_splice_same {A} off (src buf : list A) :
  off + length src <= length buf -> slice off (length src) (splice off src buf) = src.
Proof.
  intros. unfold slice, splice. rewrite drop_app_length' by (rewrite length_take; lia).
  by rewrite take_app_length.
Qed.

Lemma slice_splice_other {A} off off' n (src buf : list A) :
  off + length src <= length buf -> off' + n <= off \/ off + length src <= off' ->
  slice off' n (splice off src buf) = slice off' n buf.
Proof.
  intros Hb Hd. apply list_eq. intros i. unfold slice, splice.
  destruct (decide (i < n)); [|by rewrite !lookup_take_ge by lia].
  rewrite !lookup_take_lt, !lookup_drop by lia. destruct Hd.
  - rewrite lookup_app_l by (rewrite length_take; lia). by rewrite lookup_take_lt by lia.
  - rewrite !lookup_app_r; rewrite ?length_take; try lia. rewrite lookup_drop. f_equal. lia.
Qed.

Lemma slice_app_keep {A} off n (l k : list A) :
  off + n <= length l -> slice off n (l ++ k) = slice off n l.
Proof.
  intros. unfold slice. rewrite drop_app_le by lia. rewrite take_app_le; [done|].
  rewrite length_drop. lia.
Qed.

(** ** Padding to a block boundary

    [(align - (n % align)) % align], the expression every writer of this code
    uses, and [0] for [align = 0]. *)
Definition pad_to (align n : N) : N :=
  if (0 <? align)%N then ((align - n mod align) mod align)%N else 0%N.

Lemma pad_to_lt align n : (0 < align -> pad_to align n < align)%N.
Proof.
  intros. unfold pad_to. destruct (N.ltb_spec 0 align); [|lia].
  apply N.mod_lt. lia.
Qed.

Lemma pad_to_aligned align n : (0 < align -> (n + pad_to align n) mod align = 0)%N.
Proof.
  intros. unfold pad_to. destruct (N.ltb_spec 0 align); [|lia].
  pose proof (N.mod_lt n align ltac:(lia)).
  rewrite N.Div0.add_mod_idemp_r.
  rewrite (N.div_mod' n align) at 1.
  replace (align * (n / align) + n mod align + (align - n mod align))%N
    with (0 + (n / align + 1) * align)%N by lia.
  rewrite N.Div0.mod_add. apply N.Div0.mod_0_l.
Qed.

(** ** List lemmas *)

Lemma list_removelast_snoc {A} (l : list A) x : removelast (l ++ [x]) = l.
Proof. apply removelast_last. Qed.

Lemma filter_id {A} (f : A -> bool) (l : list A) :
  Forall (fun x => f x = true) l -> List.filter f l = l.
Proof. induction 1 as [|x l Hx _ IH]; simpl; [done|]. by rewrite Hx, IH. Qed.

Lemma filter_filter {A} (f g : A -> bool) (l : list A) :
  List.filter f (List.filter g l) = List.filter (fun x => g x && f x) l.
Proof. induction l as [|x l IH]; simpl; [done|]. destruct (g x); simpl; by rewrite IH. Qed.

Lemma filter_perm {A} (f : A -> bool) (l k : list A) :
  l ≡ₚ k -> List.filter f l ≡ₚ List.filter f k.
Proof.
  induction 1 as [|x l k _ IH|x y l|l1 l2 l3 _ IH1 _ IH2]; simpl; [done| | |by rewrite IH1].
  - destruct (f x); [by rewrite IH|done].
  - destruct (f x), (f y); try done. apply Permutation_swap.
Qed.

(** Sum of a list of sizes ([iter().sum()]). *)
Definition sumN (l : list N) : N := foldr N.add 0%N l.

Lemma sumN_app l k : sumN (l ++ k) = (sumN l + sumN k)%N.
Proof. induction l; simpl; lia. Qed.

Lemma sumN_perm l k : l ≡ₚ k -> sumN l = sumN k.
Proof. induction 1; simpl; lia. Qed.

#[export] Instance sumN_proper : Proper ((≡ₚ) ==> eq) sumN.
Proof. intros l k. apply sumN_perm. Qed.

Lemma sumN_sublist l k : sublist l k -> (sumN l <= sumN k)%N.
Proof. induction 1; simpl; lia. Qed.

Lemma sumN_insert {A} (f : A -> N) (l : list A) i x y :
  l !! i = Some x -> (sumN (f <$> <[i := y]> l) + f x = sumN (f <$> l) + f y)%N.
Proof.
  intros Hi. pose proof (lookup_lt_Some _ _ _ Hi).
  rewrite insert_take_drop by done. rewrite <-(take_drop_middle l i x Hi) at 3.
  rewrite !fmap_app, !sumN_app. csimpl. lia.
Qed.

Lemma sumN_elem x l : x ∈ l -> (x <= sumN l)%N.
Proof. induction 1; simpl; lia. Qed.

(** [(0..n).collect()]. *)
Definition rangeN (n : N) : list N := N.of_nat <$> seq 0 (N.to_nat n).

Lemma elem_of_rangeN n x : x ∈ rangeN n <-> (x < n)%N.
Proof.
  unfold rangeN. rewrite list_elem_of_fmap. split.
  - intros (i & -> & Hi). apply elem_of_seq in Hi. lia.
  - intros. exists (N.to_nat x). rewrite elem_of_seq. lia.
Qed.

Lemma rangeN_succ n : rangeN (n + 1) = rangeN n ++ [n].
Proof.
  unfold rangeN. rewrite N.add_1_r, N2Nat.inj_succ, seq_S, fmap_app. csimpl.
  by rewrite N2Nat.id.
Qed.

Lemma length_rangeN n : N.of_nat (length (rangeN n)) = n.
Proof. unfold rangeN. rewrite length_fmap, length_seq. lia. Qed.

Lemma NoDup_rangeN n : NoDup (rangeN n).
Proof. unfold rangeN. apply NoDup_fmap_2; [apply _|apply NoDup_seq]. Qed.

(** ** Stable sorting by a key ([slice::sort_by_key]) *)

Section sort_by_key.
Context {A : Type} (key : A -> N).

Fixpoint sort_insert (x : A) (l : list A) : list A :=
  match l with
  | [] => [x]
  | y :: l' => if (key x <=? key y)%N then x :: l else y :: sort_insert x l'
  end.

Definition sort_by_key (l : list A) : list A := foldr sort_insert [] l.

Definition key_le (x y : A) : Prop := (key x <= key y)%N.

Lemma sort_insert_perm x l : sort_insert x l ≡ₚ x :: l.
Proof.
  induction l as [|y l IH]; simpl; [done|].
  destruct (key x <=? key y)%N; [done|]. rewrite IH. apply Permutation_swap.
Qed.

Lemma sort_by_key_perm l : sort_by_key l ≡ₚ l.
Proof. induction l as [|x l IH]; simpl; [done|]. by rewrite sort_insert_perm, IH. Qed.

Lemma sort_insert_sorted x l :
  StronglySorted key_le l -> StronglySorted key_le (sort_insert x l).
Proof.
  induction 1 as [|y l Hs IH Hy]; simpl; [repeat constructor|].
  destruct (N.leb_spec (key x) (key y)).
  - constructor; [by constructor|]. constructor; [done|].
    eapply Forall_impl; [exact Hy|]. unfold key_le. simpl. lia.
  - constructor; [done|]. rewrite sort_insert_perm. constructor; [unfold key_le; lia|done].
Qed.

Lemma sort_by_key_sorted l : StronglySorted key_le (sort_by_key l).
Proof. induction l; simpl; [constructor|]. by apply sort_insert_sorted. Qed.
End sort_by_key.

(** The first [k] of a list sorted by a key. *)
Lemma top_of_sort {A} (key : A -> N) (l : list A) (k : nat) :
  let t := take k (sort_by_key key l) in
  length t = Nat.min k (length l) /\ (NoDup l -> NoDup t) /\ (forall x, x ∈ t -> x ∈ l) /\
  StronglySorted (key_le key) t /\ (forall x y, x ∈ t -> y ∈ l -> y ∉ t -> key x <= key y)%N /\
  ((length t < k)%nat -> t ≡ₚ l).
Proof.
  intros t. pose proof (sort_by_key_perm key l) as Hp. pose proof (sort_by_key_sorted key l) as Hs.
  unfold t. clear t. set (s := sort_by_key key l) in *. clearbody s. rewrite <-(take_drop k s) in Hs.
  split_and!.
  - by rewrite length_take, (Permutation_length Hp).
  - intros Hn. rewrite <-Hp, <-(take_drop k s) in Hn. by apply NoDup_app in Hn as (? & _ & _).
  - intros x Hx. rewrite <-Hp, <-(take_drop k s). apply elem_of_app. by left.
  - by apply StronglySorted_app_1_l in Hs.
  - intros x y Hx Hy Hny. rewrite <-Hp, <-(take_drop k s), elem_of_app in Hy. destruct Hy as [|Hy]; [done|].
    exact (StronglySorted_app_1_elem_of _ _ _ x y Hs Hx Hy).
  - rewrite length_take. intros Hlt. rewrite take_ge by lia. done.
Qed.

(** The elements of [slice::windows(2)]. *)
Fixpoint windows2 {A} (l : list A) : list (A * A) :=
  match l with
  | x :: (y :: _) as l' => (x, y) :: windows2 l'
  | _ => []
  end.

(** Little-endian words written as explicit bytes. *)
Lemma le16 x : (x < 65536)%N -> le_val [byte_of_N x; byte_of_N (x / 256)] = x.
Proof. intros. exact (le_val_le_bytes_small 2 x H). Qed.

Lemma le32 x : (x < 4294967296)%N ->
  le_val [byte_of_N x; byte_of_N (x / 256); byte_of_N (x / 256 / 256);
          byte_of_N (x / 256 / 256 / 256)] = x.
Proof. intros. exact (le_val_le_bytes_small 4 x H). Qed.

Lemma le64 x : (x < 18446744073709551616)%N ->
  le_val [byte_of_N x; byte_of_N (x / 256); byte_of_N (x / 256 / 256);
          byte_of_N (x / 256 / 256 / 256); byte_of_N (x / 256 / 256 / 256 / 256);
          byte_of_N (x / 256 / 256 / 256 / 256 / 256);
          byte_of_N (x / 256 / 256 / 256 / 256 / 256 / 256);
          byte_of_N (x / 256 / 256 / 256 / 256 / 256 / 256 / 256)] = x.
Proof. intros. exact (le_val_le_bytes_small 8 x H). Qed.

(** Disjoint bit fields. *)
Lemma lor_shiftl a b n : (b < 2 ^ n -> N.lor (N.shiftl a n) b = a * 2 ^ n + b)%N.
Proof.
  intros Hb. assert (Hland : N.land (N.shiftl a n) b = 0%N).
  { apply N.bits_inj. intros i. rewrite N.land_spec, N.bits_0. destruct (N.lt_ge_cases i n).
    - by rewrite N.shiftl_spec_low.
    - assert (N.testbit b i = false) as ->; [|by rewrite andb_false_r]. destruct (N.eq_dec b 0%N) as [->|]; [apply N.bits_0|].
      apply N.bits_above_log2. apply N.log2_lt_pow2; [lia|]. eapply N.lt_le_trans; [exact Hb|].
      apply N.pow_le_mono_r; lia. }
  rewrite <-N.lxor_lor, <-N.add_nocarry_lxor by done. by rewrite N.shiftl_mul_pow2.
Qed.
