(* ===== verification/Floats.v ===== *)
(** IEEE 754 arithmetic as the engine uses it: [f64] and [f32] are the standard
    library's [SpecFloat] numbers at precision 53 and 24, with the conversions
    Rust's [as] performs (round to nearest even from an integer, truncation
    with saturation to an integer) and the order of [<=]. *)
From Stdlib Require Export Floats.SpecFloat.
From S2P Require Import Prelude.

(** ** Double precision *)

Definition f64 : Type := spec_float.
Definition f64_add : f64 -> f64 -> f64 := SFadd 53 1024.
Definition f64_mul : f64 -> f64 -> f64 := SFmul 53 1024.
Definition f64_leb : f64 -> f64 -> bool := SFleb.
Definition f64_zero : f64 := S754_zero false.
Definition f64_one : f64 := SFone 53 1024.
Definition is_nan (x : f64) : bool := match x with S754_nan => true | _ => false end.

(** ** Single precision *)

Definition f32 : Type := spec_float.
Definition f32_mul : f32 -> f32 -> f32 := SFmul 24 128.
Definition f32_div : f32 -> f32 -> f32 := SFdiv 24 128.
Definition f32_add : f32 -> f32 -> f32 := SFadd 24 128.
Definition f32_zero : f32 := S754_zero false.
Definition f32_one : f32 := SFone 24 128.

(** [n as f32] and [n as f64]. *)
Definition f32_of_N (n : N) : f32 := binary_normalize 24 128 (Z.of_N n) 0 false.
Definition f64_of_N (n : N) : f64 := binary_normalize 53 1024 (Z.of_N n) 0 false.

(** [x as usize] (or [u64]): truncation towards zero, saturating; NaN is 0. *)
Definition float_to_usize (x : spec_float) : N :=
  match x with
  | S754_finite false m e =>
      N.min usize_max (Z.to_N (if (0 <=? e)%Z then Zpos m * 2 ^ e else Zpos m / 2 ^ (- e)))
  | S754_infinity false => usize_max
  | _ => 0%N
  end.

(** [f32::clamp]. *)
Definition f32_clamp (x lo hi : f32) : f32 :=
  if SFltb x lo then lo else if SFltb hi x then hi else x.

(** [f32::max]: a NaN operand gives the other one. *)
Definition f32_max (x y : f32) : f32 :=
  if is_nan x then y else if is_nan y then x else if SFltb x y then y else x.

Definition f64_max : f64 -> f64 -> f64 := f32_max.
Definition f64_clamp : f64 -> f64 -> f64 -> f64 := f32_clamp.
Definition f32_sub : f32 -> f32 -> f32 := SFsub 24 128.
Definition f64_sub : f64 -> f64 -> f64 := SFsub 53 1024.
Definition f64_div : f64 -> f64 -> f64 := SFdiv 53 1024.

(** ** The order *)

(** IEEE comparison is a total preorder away from NaN: it compares this key
    lexicographically. *)
Definition f64_class (x : f64) : Z :=
  match x with
  | S754_zero _ => 0 | S754_infinity s => if s then -2 else 2
  | S754_nan => 0 | S754_finite s _ _ => if s then -1 else 1
  end%Z.
Definition f64_exp (x : f64) : Z :=
  match x with S754_finite s _ e => if s then (- e)%Z else e | _ => 0%Z end.
Definition f64_mant (x : f64) : Z :=
  match x with S754_finite s m _ => if s then Zneg m else Zpos m | _ => 0%Z end.
Definition f64_key_le (x y : f64) : Prop :=
  (f64_class x < f64_class y \/ f64_class x = f64_class y /\
    (f64_exp x < f64_exp y \/ f64_exp x = f64_exp y /\ f64_mant x <= f64_mant y))%Z.

Lemma f64_leb_key x y :
  is_nan x = false -> is_nan y = false -> f64_leb x y = true <-> f64_key_le x y.
Proof.
  unfold f64_leb, SFleb, SFcompare, f64_key_le, f64_class, f64_exp, f64_mant.
  intros Hx Hy.
  destruct x as [s|s| |s m e]; try discriminate Hx;
    destruct y as [s'|s'| |s' m' e']; try discriminate Hy;
    try destruct s; try destruct s'; cbn; split; intros; first [reflexivity|discriminate|lia|idtac].
  all: change (Pos.compare_cont Eq m m') with (m ?= m')%positive in *.
  all: destruct (Z.compare_spec e e') in *; destruct (Pos.compare_spec m m') in *;
    cbn in *; first [reflexivity|discriminate|lia].
Qed.

Lemma f64_leb_refl x : is_nan x = false -> f64_leb x x = true.
Proof. intros. rewrite f64_leb_key by done. unfold f64_key_le. lia. Qed.

Lemma f64_leb_trans x y z :
  is_nan x = false -> is_nan y = false -> is_nan z = false ->
  f64_leb x y = true -> f64_leb y z = true -> f64_leb x z = true.
Proof. intros ???. rewrite !f64_leb_key by done. unfold f64_key_le. lia. Qed.

Lemma f64_leb_flip x y :
  is_nan x = false -> is_nan y = false -> f64_leb x y = false -> f64_leb y x = true.
Proof.
  intros ?? Hf. rewrite f64_leb_key by done.
  destruct (decide (f64_key_le x y)) as [Hk|Hk]; [|unfold f64_key_le in *; lia].
  apply f64_leb_key in Hk; congruence.
Qed.

(** Away from NaN, [<] is the negation of the converse [<=]. *)
Lemma f64_ltb_leb x y :
  is_nan x = false -> is_nan y = false -> SFltb y x = negb (SFleb x y).
Proof.
  unfold SFltb, SFleb, SFcompare. intros Hx Hy.
  destruct x as [s|s| |s m e]; try discriminate Hx;
    destruct y as [s'|s'| |s' m' e']; try discriminate Hy;
    try destruct s; try destruct s'; cbn; try reflexivity.
  all: change (Pos.compare_cont Eq m m') with (m ?= m')%positive;
    change (Pos.compare_cont Eq m' m) with (m' ?= m)%positive.
  all: rewrite (Pos.compare_antisym m m'), (Z.compare_antisym e e').
  all: destruct (e ?= e')%Z; cbn; try reflexivity; destruct (m ?= m')%positive; reflexivity.
Qed.
