(* ===== verification/Effects.v ===== *)
(** Operations that read and change a state, can return an error, and can panic: the
    shape of a Rust method that takes [&self], locks its state and returns a [Result].
    An error leaves the state it was raised in; [None] is a panic.

    [wp m Q s] says that [m], started in [s], does not panic and ends with a result and
    a state that satisfy [Q]; its rules follow the structure of the program. *)
From S2P Require Import Prelude.

Definition M (S E A : Type) : Type := S -> option (result E A * S).

Section effects.
Context {S E : Type}.

#[export] Instance M_ret : MRet (M S E) := fun A a s => Some (Ok a, s).
#[export] Instance M_bind : MBind (M S E) := fun A B f m s =>
  match m s with
  | None => None
  | Some (Err e, s) => Some (Err e, s)
  | Some (Ok a, s) => f a s
  end.

Definition throw {A} (e : E) : M S E A := fun s => Some (Err e, s).
Definition panic {A} : M S E A := fun _ => None.
Definition lift {A} (r : result E A) : M S E A := fun s => Some (r, s).
Definition get : M S E S := fun s => Some (Ok s, s).
Definition modify (f : S -> S) : M S E unit := fun s => Some (Ok tt, f s).

(** The result as a value: what a caller that looks at the [Result] sees. *)
Definition attempt {A} (m : M S E A) : M S E (result E A) := fun s =>
  match m s with
  | None => None
  | Some (r, s) => Some (Ok r, s)
  end.

(** When [m] fails, [cleanup] runs: the drops of what the caller owns. *)
Definition or_else {A} (cleanup : S -> option S) (m : M S E A) : M S E A := fun s =>
  match m s with
  | Some (Err e, s) => s ← cleanup s; Some (Err e, s)
  | r => r
  end.

Definition wp {A} (m : M S E A) (Q : result E A -> S -> Prop) (s : S) : Prop :=
  exists r s', m s = Some (r, s') /\ Q r s'.

(** What follows a step: on an error, nothing. *)
Definition bound {A B} (f : A -> M S E B) (Q : result E B -> S -> Prop) (r : result E A) (s : S) : Prop :=
  match r with Ok a => wp (f a) Q s | Err e => Q (Err e) s end.

Lemma wp_bind {A B} (m : M S E A) (f : A -> M S E B) Q s : wp m (bound f Q) s -> wp (m ≫= f) Q s.
Proof.
  intros (r & s' & Hm & Hr). unfold wp, mbind, M_bind. rewrite Hm. destruct r as [a|e]; [exact Hr|by exists (Err e), s'].
Qed.

Lemma wp_mono {A} (m : M S E A) (Q Q' : result E A -> S -> Prop) s :
  wp m Q s -> (forall r s', Q r s' -> Q' r s') -> wp m Q' s.
Proof. intros (r & s' & Hm & HQ) H. exists r, s'. auto. Qed.

(** A step with a known contract, then the rest. *)
Lemma wp_seq {A B} (m : M S E A) (f : A -> M S E B) (P : result E A -> S -> Prop) Q s :
  wp m P s -> (forall a s', P (Ok a) s' -> wp (f a) Q s') -> (forall e s', P (Err e) s' -> Q (Err e) s') -> wp (m ≫= f) Q s.
Proof. intros Hm Hok Herr. apply wp_bind. eapply wp_mono; [exact Hm|]. intros [a|e] s'; [apply Hok|apply Herr]. Qed.

Lemma wp_ret {A} (a : A) (Q : result E A -> S -> Prop) s : Q (Ok a) s -> wp (mret a) Q s.
Proof. intros H. by exists (Ok a), s. Qed.
Lemma wp_throw {A} e (Q : result E A -> S -> Prop) s : Q (Err e) s -> wp (throw e) Q s.
Proof. intros H. by exists (Err e), s. Qed.
Lemma wp_lift {A} (r : result E A) (Q : result E A -> S -> Prop) s : Q r s -> wp (lift r) Q s.
Proof. intros H. by exists r, s. Qed.
Lemma wp_get (Q : result E S -> S -> Prop) s : Q (Ok s) s -> wp get Q s.
Proof. intros H. by exists (Ok s), s. Qed.
Lemma wp_modify f (Q : result E unit -> S -> Prop) s : Q (Ok tt) (f s) -> wp (modify f) Q s.
Proof. intros H. by exists (Ok tt), (f s). Qed.

Lemma wp_attempt {A} (m : M S E A) Q s : wp m (fun r => Q (Ok r)) s -> wp (attempt m) Q s.
Proof. intros (r & s' & Hm & HQ). unfold wp, attempt. rewrite Hm. by exists (Ok r), s'. Qed.

Lemma wp_or_else {A} cleanup (m : M S E A) Q s :
  wp m (fun r s' => match r with Ok a => Q (Ok a) s' | Err e => exists s2, cleanup s' = Some s2 /\ Q (Err e) s2 end) s ->
  wp (or_else cleanup m) Q s.
Proof.
  intros (r & s' & Hm & HQ). unfold wp, or_else. rewrite Hm. destruct r as [a|e]; [by exists (Ok a), s'|].
  destruct HQ as (s2 & -> & HQ). by exists (Err e), s2.
Qed.

End effects.

(** One step of the program under the goal's [wp]. *)
Ltac wp_step :=
  lazymatch goal with
  | |- wp (_ ≫= _) _ _ => apply wp_bind
  | |- wp (mret _) _ _ => apply wp_ret
  | |- wp (throw _) _ _ => apply wp_throw
  | |- wp (lift _) _ _ => apply wp_lift
  | |- wp get _ _ => apply wp_get
  | |- wp (modify _) _ _ => apply wp_modify
  | |- wp (attempt _) _ _ => apply wp_attempt
  | |- wp (or_else _ _) _ _ => apply wp_or_else
  end; cbn [bound].
