(* ===== verification/Lru.v ===== *)
(** The interface of the third-party [lru] crate ([lru::LruCache]) that the
    expert caches are built on.

    The crate is not part of the repository, so the caches are proved against
    the class [LruCache] below: its fields are the methods the engine calls,
    and its laws state the crate's documented behaviour through [lru_iter], the
    documented iteration order (most recently used first).  [ListLru] at the end
    is a concrete instance, used by the witnesses only. *)
From S2P Require Import Prelude.

(** ** Association lists, most recently used entry first *)

Section assoc.
Context {V : Type}.
Implicit Types (l : list (N * V)) (k : N) (v : V).

Fixpoint aget k l : option V :=
  match l with
  | [] => None
  | (k', v) :: l' => if (k =? k')%N then Some v else aget k l'
  end.

Fixpoint adel k l : list (N * V) :=
  match l with
  | [] => []
  | (k', v) :: l' => if (k =? k')%N then adel k l' else (k', v) :: adel k l'
  end.

Lemma aget_Some_elem k v l : aget k l = Some v -> (k, v) ∈ l.
Proof.
  induction l as [|[k' v'] l IH]; simpl; [done|].
  destruct (N.eqb_spec k k') as [->|]; intros.
  - simplify_eq. by left.
  - right. auto.
Qed.

Lemma aget_elem k v l : NoDup l.*1 -> (k, v) ∈ l -> aget k l = Some v.
Proof.
  induction l as [|[k' v'] l IH]; simpl; intros Hnd Hin; [by inversion Hin|].
  apply NoDup_cons in Hnd as [Hni Hnd].
  apply elem_of_cons in Hin as [[= -> ->]|Hin].
  - by rewrite N.eqb_refl.
  - destruct (N.eqb_spec k k') as [->|]; [|auto].
    contradict Hni. by apply (list_elem_of_fmap_2 fst _ (k', v)).
Qed.

Lemma aget_None k l : aget k l = None <-> k ∉ l.*1.
Proof.
  induction l as [|[k' v'] l IH]; simpl; [split; [inversion 2|done]|].
  destruct (N.eqb_spec k k') as [->|].
  - split; [done|]. intros []. by left.
  - rewrite IH, not_elem_of_cons. tauto.
Qed.

Lemma aget_is_Some k l : is_Some (aget k l) <-> k ∈ l.*1.
Proof.
  destruct (aget k l) eqn:E; split; intros H; try done; try (by destruct H).
  - apply aget_Some_elem in E. by apply (list_elem_of_fmap_2 fst _ (k, v)).
  - by apply aget_None in E.
Qed.

Lemma adel_sublist k l : adel k l `sublist_of` l.
Proof. induction l as [|[k' v'] l]; simpl; [done|]. destruct (_ =? _)%N; by constructor. Qed.

Lemma adel_not_in k l : k ∉ (adel k l).*1.
Proof.
  induction l as [|[k' v'] l]; simpl; [inversion 1|].
  destruct (N.eqb_spec k k'); [done|]. simpl. by apply not_elem_of_cons.
Qed.

Lemma aget_adel k k' l :
  aget k' (adel k l) = if (k' =? k)%N then None else aget k' l.
Proof.
  induction l as [|[k0 v0] l IH]; simpl; [by destruct (_ =? _)%N|].
  destruct (N.eqb_spec k k0); subst; [rewrite IH|simpl; rewrite IH]; case_N; congruence.
Qed.

Lemma adel_absent k l : k ∉ l.*1 -> adel k l = l.
Proof.
  induction l as [|[k' v'] l IH]; simpl; [done|].
  rewrite not_elem_of_cons. intros [? ?].
  destruct (N.eqb_spec k k'); [done|]. by rewrite IH.
Qed.

Lemma NoDup_adel k l : NoDup l.*1 -> NoDup (adel k l).*1.
Proof.
  intros Hnd. eapply sublist_NoDup; [exact Hnd|].
  apply fmap_sublist, adel_sublist.
Qed.

Lemma adel_perm k v l : NoDup l.*1 -> aget k l = Some v -> l ≡ₚ (k, v) :: adel k l.
Proof.
  induction l as [|[k' v'] l IH]; simpl; [done|]. intros [Hni Hnd]%NoDup_cons Hg.
  destruct (N.eqb_spec k k') as [->|].
  - simplify_eq. by rewrite adel_absent.
  - rewrite (IH Hnd Hg) at 1. apply Permutation_swap.
Qed.

Lemma adel_app k l1 l2 : adel k (l1 ++ l2) = adel k l1 ++ adel k l2.
Proof. induction l1 as [|[k' v'] l1 IH]; simpl; [done|]. destruct (_ =? _)%N; simpl; by rewrite IH. Qed.

Lemma adel_middle k v l1 l2 :
  NoDup (l1 ++ (k, v) :: l2).*1 -> adel k (l1 ++ (k, v) :: l2) = l1 ++ l2.
Proof.
  rewrite fmap_app, fmap_cons. intros (_ & Hd & Hnd)%NoDup_app.
  apply NoDup_cons in Hnd as [Hni _]. simpl in *.
  rewrite adel_app. simpl. rewrite N.eqb_refl, !adel_absent; [done| |]; auto.
  intros Hin. by apply (Hd _ Hin); left.
Qed.

Lemma aget_middle k v l1 l2 :
  NoDup (l1 ++ (k, v) :: l2).*1 -> aget k (l1 ++ (k, v) :: l2) = Some v.
Proof. intros. apply aget_elem; [done|]. apply elem_of_app. right. by left. Qed.

Lemma split_key_unique k v v' l1 l1' l2 l2' :
  NoDup (l1 ++ (k, v) :: l2).*1 -> l1 ++ (k, v) :: l2 = l1' ++ (k, v') :: l2' ->
  v = v' /\ l1 ++ l2 = l1' ++ l2'.
Proof.
  intros Hnd He. split.
  - pose proof (aget_middle k v l1 l2 Hnd) as Hv. rewrite He in Hv, Hnd.
    rewrite aget_middle in Hv by done. congruence.
  - rewrite <-(adel_middle k v l1 l2) by done. rewrite He in Hnd |- *. by apply adel_middle.
Qed.

Lemma length_adel_present k v l :
  NoDup l.*1 -> aget k l = Some v -> length l = S (length (adel k l)).
Proof. intros Hnd Hg. by rewrite (Permutation_length (adel_perm k v l Hnd Hg)). Qed.
End assoc.

#[global] Hint Resolve NoDup_adel adel_not_in : mer.

(** ** The interface *)

(** [push] on a cache bounded by [cap]: an existing key is replaced and its old
    pair returned; otherwise a full cache drops its least recently used pair. *)
Definition push_spec {V} (cap : option N) (l : list (N * V)) (k : N) (v : V)
  : option (N * V) * list (N * V) :=
  match aget k l with
  | Some old => (Some (k, old), (k, v) :: adel k l)
  | None =>
      match cap with
      | Some c =>
          if (c <=? N.of_nat (length l))%N
          then (last l, (k, v) :: removelast l)
          else (None, (k, v) :: l)
      | None => (None, (k, v) :: l)
      end
  end.

Class LruCache (V : Type) := {
  lru : Type;
  lru_iter : lru -> list (N * V);
  lru_cap : lru -> option N;
  lru_new : N -> lru;
  lru_unbounded : lru;
  lru_get : N -> lru -> option V * lru;
  lru_peek : N -> lru -> option V;
  lru_push : N -> V -> lru -> option (N * V) * lru;
  lru_put : N -> V -> lru -> option V * lru;
  lru_pop : N -> lru -> option V * lru;
  lru_pop_lru : lru -> option (N * V) * lru;
}.
Arguments lru V {_}.

(** The documented behaviour the engine relies on. *)
Class LruLaws (V : Type) `{!LruCache V} : Prop := {
  lru_iter_nodup c : NoDup (lru_iter c).*1;
  lru_new_iter n : lru_iter (lru_new n) = [] /\ lru_cap (lru_new n) = Some n;
  lru_unbounded_iter : lru_iter lru_unbounded = [] /\ lru_cap lru_unbounded = None;
  lru_peek_law k c : lru_peek k c = aget k (lru_iter c);
  lru_get_law k c :
    fst (lru_get k c) = aget k (lru_iter c) /\
    lru_cap (snd (lru_get k c)) = lru_cap c /\
    lru_iter (snd (lru_get k c)) =
      match aget k (lru_iter c) with
      | Some v => (k, v) :: adel k (lru_iter c)
      | None => lru_iter c
      end;
  lru_push_law k v c :
    lru_cap (snd (lru_push k v c)) = lru_cap c /\
    fst (lru_push k v c) = fst (push_spec (lru_cap c) (lru_iter c) k v) /\
    lru_iter (snd (lru_push k v c)) = snd (push_spec (lru_cap c) (lru_iter c) k v);
  lru_put_law k v c :
    fst (lru_put k v c) = aget k (lru_iter c) /\
    lru_cap (snd (lru_put k v c)) = lru_cap c /\
    lru_iter (snd (lru_put k v c)) = snd (push_spec (lru_cap c) (lru_iter c) k v);
  lru_pop_law k c :
    fst (lru_pop k c) = aget k (lru_iter c) /\
    lru_cap (snd (lru_pop k c)) = lru_cap c /\
    lru_iter (snd (lru_pop k c)) = adel k (lru_iter c);
  lru_pop_lru_law c :
    fst (lru_pop_lru c) = last (lru_iter c) /\
    lru_cap (snd (lru_pop_lru c)) = lru_cap c /\
    lru_iter (snd (lru_pop_lru c)) = removelast (lru_iter c);
}.

Definition lru_len {V} `{!LruCache V} (c : lru V) : N := N.of_nat (length (lru_iter c)).
Definition lru_keys {V} `{!LruCache V} (c : lru V) : list N := (lru_iter c).*1.

Section laws.
Context {V : Type} `{!LruCache V, !LruLaws V}.
Implicit Types (c : lru V).

Lemma push_absent_room k v c :
  aget k (lru_iter c) = None ->
  (forall n, lru_cap c = Some n -> lru_len c < n)%N ->
  fst (lru_push k v c) = None /\
  lru_iter (snd (lru_push k v c)) = (k, v) :: lru_iter c.
Proof.
  intros Hg Hroom. destruct (lru_push_law k v c) as (_ & -> & ->).
  unfold push_spec. rewrite Hg. destruct (lru_cap c) as [n|] eqn:E; [|done].
  specialize (Hroom n eq_refl). unfold lru_len in Hroom.
  destruct (N.leb_spec n (N.of_nat (length (lru_iter c)))); [lia|done].
Qed.

Lemma push_present k v old c :
  aget k (lru_iter c) = Some old ->
  fst (lru_push k v c) = Some (k, old) /\
  lru_iter (snd (lru_push k v c)) = (k, v) :: adel k (lru_iter c).
Proof.
  intros Hg. destruct (lru_push_law k v c) as (_ & -> & ->).
  unfold push_spec. by rewrite Hg.
Qed.

Lemma put_absent_unbounded k v c :
  aget k (lru_iter c) = None -> lru_cap c = None ->
  fst (lru_put k v c) = None /\
  lru_iter (snd (lru_put k v c)) = (k, v) :: lru_iter c.
Proof.
  intros Hg Hcap. destruct (lru_put_law k v c) as (-> & _ & ->).
  unfold push_spec. by rewrite Hg, Hcap.
Qed.
End laws.

(** ** A concrete instance *)

Module ListLru.
Record t (V : Type) := Mk {
  items : list (N * V);
  cap : option N;
  items_ok : NoDup items.*1;
}.
Arguments Mk {V} _ _ _.
Arguments items {V} _.
Arguments cap {V} _.
Arguments items_ok {V} _.

Section ops.
Context {V : Type}.
Implicit Types (c : t V).

Lemma nil_ok : NoDup (@nil (N * V)).*1.
Proof. constructor. Qed.

Lemma touch_ok k v (l : list (N * V)) : NoDup l.*1 -> NoDup ((k, v) :: adel k l).*1.
Proof. intros. simpl. constructor; auto with mer. Qed.

Lemma removelast_sublist {A} (l : list A) : removelast l `sublist_of` l.
Proof.
  destruct l as [|x l _] using rev_ind; [done|].
  rewrite list_removelast_snoc. by apply sublist_inserts_r.
Qed.

Lemma removelast_ok (l : list (N * V)) : NoDup l.*1 -> NoDup (removelast l).*1.
Proof. intros H. eapply sublist_NoDup, fmap_sublist, removelast_sublist. exact H. Qed.

Lemma push_ok o (l : list (N * V)) k v : NoDup l.*1 -> NoDup (snd (push_spec o l k v)).*1.
Proof.
  intros H. unfold push_spec. destruct (aget k l) eqn:E; simpl.
  - constructor; auto with mer.
  - apply aget_None in E.
    assert (NoDup (k :: l.*1)) by by constructor.
    assert (NoDup (k :: (removelast l).*1)).
    { constructor; [|by apply removelast_ok].
      intros Hin. apply E. revert Hin.
      apply sublist_subseteq. apply fmap_sublist, removelast_sublist. }
    destruct o as [n|]; [|done]. by destruct (n <=? _)%N.
Qed.

Definition empty (o : option N) : t V := Mk [] o nil_ok.
Definition get k c : option V * t V :=
  match aget k (items c) with
  | Some v => (Some v, Mk ((k, v) :: adel k (items c)) (cap c) (touch_ok k v _ (items_ok c)))
  | None => (None, c)
  end.
Definition push k v c : option (N * V) * t V :=
  (fst (push_spec (cap c) (items c) k v),
   Mk (snd (push_spec (cap c) (items c) k v)) (cap c) (push_ok _ _ k v (items_ok c))).
Definition put k v c : option V * t V := (aget k (items c), snd (push k v c)).
Definition pop k c : option V * t V :=
  (aget k (items c), Mk (adel k (items c)) (cap c) (NoDup_adel k _ (items_ok c))).
Definition pop_lru c : option (N * V) * t V :=
  (last (items c), Mk (removelast (items c)) (cap c) (removelast_ok _ (items_ok c))).
End ops.

#[export] Instance list_lru V : LruCache V := {
  lru := t V; lru_iter := items; lru_cap := cap;
  lru_new n := empty (Some n); lru_unbounded := empty None;
  lru_get := get; lru_peek k c := aget k (items c);
  lru_push := push; lru_put := put; lru_pop := pop; lru_pop_lru := pop_lru;
}.

#[export] Instance list_lru_laws V : LruLaws V.
Proof.
  split; simpl; intros; try done.
  - apply items_ok.
  - unfold get. by destruct (aget k (items c)) eqn:E.
Qed.
End ListLru.
