(* ===== verification/Layout.v ===== *)
(** Weight dtypes and the on-disk size of an expert ([src/rust-engine/src/inference.rs]):
    [WeightDtype], the byte accounting every reader and writer of an expert
    blob uses, the INT8 scale header, and the bit packing of the twelve scale
    bytes of a Q4_K super-block. *)
From S2P Require Import Prelude.

Inductive WeightDtype : Set :=
| F32 | F16 | Int8 | Q4K | Q4_0 | Q8_0 | Q5K | Q6K | BF16 | MXFP4 | Mixed.

#[export] Instance WeightDtype_eq_dec : EqDecision WeightDtype.
Proof. solve_decision. Defined.

(** ** Block layout constants *)

Definition Q4K_BLOCK_ELEMS : N := 256.
Definition Q4K_BLOCK_BYTES : N := 2 + 2 + 12 + 128.
Definition Q4_0_BLOCK_ELEMS : N := 32.
Definition Q4_0_BLOCK_BYTES : N := 2 + Q4_0_BLOCK_ELEMS / 2.
Definition Q8_0_BLOCK_ELEMS : N := 32.
Definition Q8_0_BLOCK_BYTES : N := 2 + Q8_0_BLOCK_ELEMS.
Definition Q5K_BLOCK_ELEMS : N := 256.
Definition Q5K_BLOCK_BYTES : N := 2 + 2 + 12 + 32 + 128.
Definition Q6K_BLOCK_ELEMS : N := 256.
Definition Q6K_BLOCK_BYTES : N := 128 + 64 + 16 + 2.
Definition MXFP4_SCALE_BLOCK : N := 32.
Definition INT8_HEADER_BYTES : N := 3 * 4.

(** [usize::div_ceil]. *)
Definition div_ceil (a b : N) : N :=
  (if a mod b =? 0 then a / b else a / b + 1)%N.

Definition smul := sat_mul usize_max.
Definition sadd := sat_add usize_max.

Definition bytes_per_weight (d : WeightDtype) : N :=
  match d with
  | F32 => 4 | F16 => 2 | Int8 => 1 | Q4K => 1 | Q4_0 => 1 | Q8_0 => 2
  | Q5K | Q6K => 1 | BF16 => 2 | MXFP4 => 1 | Mixed => 0
  end.

Definition header_bytes (d : WeightDtype) : N :=
  match d with
  | F32 | F16 | Q4K | Q4_0 | Q8_0 | Q5K | Q6K | BF16 | MXFP4 | Mixed => 0
  | Int8 => INT8_HEADER_BYTES
  end.

Definition expert_weight_count (d_model d_ff : N) : N :=
  let one := smul d_model d_ff in
  smul one 3.

Definition expert_weight_bytes (d_model d_ff : N) : N :=
  smul (expert_weight_count d_model d_ff) 4.

Definition expert_weight_bytes_f16 (d_model d_ff : N) : N :=
  smul (expert_weight_count d_model d_ff) 2.

Definition mxfp4_projection_bytes (rows cols : N) : N :=
  let weight_bytes := smul rows (div_ceil cols 2) in
  let scale_bytes := smul rows (div_ceil cols MXFP4_SCALE_BLOCK) in
  sadd weight_bytes scale_bytes.

Definition projection_weight_bytes_for (weights : N) (dtype : WeightDtype) : option N :=
  match dtype with
  | F32 => checked_mul usize_max weights 4
  | F16 | BF16 => checked_mul usize_max weights 2
  | Int8 => Some weights
  | Q4K => checked_mul usize_max (div_ceil weights Q4K_BLOCK_ELEMS) Q4K_BLOCK_BYTES
  | Q4_0 => checked_mul usize_max (div_ceil weights Q4_0_BLOCK_ELEMS) Q4_0_BLOCK_BYTES
  | Q8_0 => checked_mul usize_max (div_ceil weights Q8_0_BLOCK_ELEMS) Q8_0_BLOCK_BYTES
  | Q5K => checked_mul usize_max (div_ceil weights Q5K_BLOCK_ELEMS) Q5K_BLOCK_BYTES
  | Q6K => checked_mul usize_max (div_ceil weights Q6K_BLOCK_ELEMS) Q6K_BLOCK_BYTES
  | MXFP4 | Mixed => None
  end.

Definition expert_weight_bytes_for (d_model d_ff : N) (dtype : WeightDtype) : N :=
  let per_tensor (elems bytes : N) :=
    let one := smul d_model d_ff in
    let one_blocks := div_ceil one elems in
    let total_blocks := smul one_blocks 3 in
    smul total_blocks bytes in
  match dtype with
  | Q4K =>
      let weights := expert_weight_count d_model d_ff in
      let blocks := div_ceil weights Q4K_BLOCK_ELEMS in
      smul blocks Q4K_BLOCK_BYTES
  | Q4_0 => per_tensor Q4_0_BLOCK_ELEMS Q4_0_BLOCK_BYTES
  | Q8_0 => per_tensor Q8_0_BLOCK_ELEMS Q8_0_BLOCK_BYTES
  | Q5K => per_tensor Q5K_BLOCK_ELEMS Q5K_BLOCK_BYTES
  | Q6K => per_tensor Q6K_BLOCK_ELEMS Q6K_BLOCK_BYTES
  | MXFP4 =>
      let gate := mxfp4_projection_bytes d_ff d_model in
      let up := mxfp4_projection_bytes d_ff d_model in
      let down := mxfp4_projection_bytes d_model d_ff in
      sadd (sadd gate up) down
  | Mixed => 0
  | _ =>
      let payload := smul (expert_weight_count d_model d_ff) (bytes_per_weight dtype) in
      sadd payload (header_bytes dtype)
  end.

(** ** The INT8 scale header

    The three [f32] scales are kept as their bit patterns ([f32::to_bits]). *)
Record Int8ExpertMeta := { gate_scale : N; up_scale : N; down_scale : N }.

Definition int8_read_from (bytes : list byte) : option Int8ExpertMeta :=
  if (length bytes <? 12)%nat then None
  else Some {| gate_scale := le_val (slice 0 4 bytes);
               up_scale := le_val (slice 4 4 bytes);
               down_scale := le_val (slice 8 4 bytes) |}.

Definition int8_to_bytes (m : Int8ExpertMeta) : list byte :=
  let out := replicate 12 x00 in
  let out := splice 0 (le_bytes 4 (gate_scale m)) out in
  let out := splice 4 (le_bytes 4 (up_scale m)) out in
  splice 8 (le_bytes 4 (down_scale m)) out.

(** ** Q4_K scale packing

    Bytes are [u8] values in [N]; [<<] on [u8] drops the bits above bit 7. *)
Definition shl8 (a k : N) : N := N.land (N.shiftl a k) 255.

Definition q4k_unpack_scales (scales : list N) : list (N * N) :=
  (fun j : nat =>
     if (j <? 4)%nat then
       (N.land (scales !!! j) 63, N.land (scales !!! (j + 4)%nat) 63)
     else
       let d := N.lor (N.land (scales !!! (j + 4)%nat) 15)
                      (shl8 (N.shiftr (scales !!! (j - 4)%nat) 6) 4) in
       let m := N.lor (N.shiftr (scales !!! (j + 4)%nat) 4)
                      (shl8 (N.shiftr (scales !!! j) 6) 4) in
       (N.land d 63, N.land m 63)) <$> seq 0 8.

Definition q4k_pack_scales (pairs : list (N * N)) : list N :=
  let s := replicate 12 0%N in
  let s := foldl (fun s (j : nat) =>
    let s := <[j := N.land (pairs !!! j).1 63]> s in
    <[(j + 4)%nat := N.land (pairs !!! j).2 63]> s) s (seq 0 4) in
  foldl (fun s (j : nat) =>
    let scale_j := N.land (pairs !!! j).1 63 in
    let min_j := N.land (pairs !!! j).2 63 in
    let s := <[(j + 4)%nat := N.lor (N.land scale_j 15) (shl8 (N.land min_j 15) 4)]> s in
    let s := <[(j - 4)%nat := N.lor (N.land (s !!! (j - 4)%nat) 63)
                              (shl8 (N.land (N.shiftr scale_j 4) 3) 6)]> s in
    <[j := N.lor (N.land (s !!! j) 63)
                 (shl8 (N.land (N.shiftr min_j 4) 3) 6)]> s) s (seq 4 4).

(** ** Sizes *)

Lemma div_ceil_spec a b :
  (0 < b -> a <= b * div_ceil a b /\ b * div_ceil a b < a + b)%N.
Proof.
  intros Hb. unfold div_ceil.
  pose proof (N.div_mod' a b) as Hdm. pose proof (N.mod_lt a b ltac:(lia)) as Hlt.
  revert Hdm Hlt. generalize (a / b)%N (a mod b)%N. intros q r -> Hr.
  destruct (N.eqb_spec r 0); rewrite ?N.mul_add_distr_l; lia.
Qed.

Lemma div_ceil_le_mul3 a b : (0 < b -> div_ceil (a * 3) b <= 3 * div_ceil a b)%N.
Proof.
  intros Hb. pose proof (div_ceil_spec a b Hb) as [].
  pose proof (div_ceil_spec (a * 3) b Hb) as [].
  enough (div_ceil (a * 3) b < 3 * div_ceil a b + 1)%N by lia.
  apply (N.mul_lt_mono_pos_l b); [done|]. lia.
Qed.

Lemma div_ceil_exact a b : (0 < b -> a mod b = 0 -> div_ceil a b = a / b)%N.
Proof. intros Hb Hm. unfold div_ceil. by rewrite Hm. Qed.

Lemma div_ceil_mul3_exact a b :
  (0 < b -> a mod b = 0 -> div_ceil (a * 3) b = 3 * div_ceil a b)%N.
Proof.
  intros Hb Hm. rewrite (div_ceil_exact a) by done.
  rewrite div_ceil_exact; [|done|by rewrite N.Div0.mul_mod, Hm, N.mul_0_l, N.Div0.mod_0_l].
  rewrite (N.div_mod' a b) at 1. rewrite Hm, N.add_0_r.
  rewrite <-N.mul_assoc, (N.mul_comm b), N.div_mul by lia. lia.
Qed.

Lemma sat_mul_small m a b : (a * b <= m -> sat_mul m a b = a * b)%N.
Proof. unfold sat_mul. lia. Qed.

Lemma sat_add_small m a b : (a + b <= m -> sat_add m a b = a + b)%N.
Proof. unfold sat_add. lia. Qed.

Lemma per_tensor_exact one elems bytes p :
  checked_mul usize_max (div_ceil one elems) bytes = Some p ->
  (0 < bytes -> 3 * p <= usize_max ->
   smul (smul (div_ceil one elems) 3) bytes = 3 * p)%N.
Proof.
  intros [-> Hle]%checked_mul_Some Hb H3. unfold smul.
  rewrite (sat_mul_small _ _ 3) by nia. rewrite sat_mul_small by nia. lia.
Qed.

(** The byte size of an expert blob is the size of its scale header plus
    three independent projections (gate, up, down), for every dtype with a
    projection stream, whenever nothing overflows.  Q4_K is the exception: its
    size rounds the three matrices up together, so the blob is at most three
    projections, and exactly three when a matrix is a whole number of
    super-blocks. *)
Theorem expert_bytes_are_three_projections d_model d_ff dtype p :
  projection_weight_bytes_for (d_model * d_ff) dtype = Some p ->
  (3 * (d_model * d_ff) <= usize_max)%N -> (3 * p + INT8_HEADER_BYTES <= usize_max)%N ->
  match dtype with
  | Q4K =>
      (expert_weight_bytes_for d_model d_ff Q4K <= 3 * p)%N /\
      ((d_model * d_ff) mod Q4K_BLOCK_ELEMS = 0 ->
       expert_weight_bytes_for d_model d_ff Q4K = 3 * p)%N
  | _ => expert_weight_bytes_for d_model d_ff dtype = (header_bytes dtype + 3 * p)%N
  end.
Proof.
  intros Hp Hw H3. unfold INT8_HEADER_BYTES in H3.
  assert (Hone : smul d_model d_ff = (d_model * d_ff)%N) by (apply sat_mul_small; lia).
  assert (Hcnt : expert_weight_count d_model d_ff = (d_model * d_ff * 3)%N).
  { unfold expert_weight_count. rewrite Hone. apply sat_mul_small. lia. }
  unfold expert_weight_bytes_for. rewrite Hone, Hcnt. clear Hone Hcnt.
  revert Hp. generalize (d_model * d_ff)%N as one. intros one Hp. 
  destruct dtype; cbn [projection_weight_bytes_for header_bytes bytes_per_weight] in *;
    try discriminate; try (by rewrite (per_tensor_exact _ _ _ p Hp ltac:(done) ltac:(lia)));
    unfold smul, sadd, INT8_HEADER_BYTES in *;
    try (apply checked_mul_Some in Hp as [-> Hp]; rewrite sat_mul_small by lia;
         rewrite sat_add_small by lia; lia).
  - simplify_eq. rewrite sat_mul_small by lia. rewrite sat_add_small by lia. lia.
  - apply checked_mul_Some in Hp as [-> Hp].
    pose proof (div_ceil_le_mul3 one Q4K_BLOCK_ELEMS ltac:(done)).
    unfold Q4K_BLOCK_BYTES in *. split.
    + rewrite sat_mul_small by lia. lia.
    + intros Hm. rewrite div_ceil_mul3_exact by done. rewrite sat_mul_small by lia. lia.
Qed.

Lemma expert_bytes_are_three_projections_witness :
  expert_weight_bytes_for 4096 14336 Q4_0 = 99090432%N /\
  (expert_weight_bytes_for 4096 14336 Q4_0 = header_bytes Q4_0 + 3 * 33030144)%N.
Proof.
  split; [reflexivity|].
  apply (expert_bytes_are_three_projections 4096 14336 Q4_0 33030144).
  - reflexivity.
  - vm_compute; discriminate.
  - vm_compute; discriminate.
Defined.

(** ** The scale packing is a bijection *)

(** A statement about two bytes is decided by trying every pair. *)
Definition all_below (n m : nat) (f : N -> N -> bool) : bool :=
  forallb (fun a => forallb (f (N.of_nat a)) (N.of_nat <$> seq 0 m)) (seq 0 n).

Lemma all_below_spec n m f a b :
  all_below n m f = true -> (a < N.of_nat n)%N -> (b < N.of_nat m)%N -> f a b = true.
Proof.
  unfold all_below. rewrite forallb_forall. intros H Ha Hb.
  specialize (H (N.to_nat a)). rewrite forallb_forall in H.
  rewrite N2Nat.id in H. apply H.
  - apply in_seq. lia.
  - apply list_elem_of_In, list_elem_of_fmap. exists (N.to_nat b).
    rewrite N2Nat.id. split; [done|]. apply elem_of_seq. lia.
Qed.

(** Discharge [forall a b, bounds -> e1 = e2] over all byte pairs. *)
Ltac by_all_bytes n m a b :=
  match goal with |- ?l = ?r =>
    pattern a, b;
    match goal with |- ?P a b =>
      let f := constr:(fun x y : N =>
        ltac:(let t := eval cbv beta in (P x y) in
              match t with ?u = ?v => exact (N.eqb u v) end)) in
      apply N.eqb_eq; apply (all_below_spec n m f a b); [vm_compute; reflexivity| |]
    end
  end.

Section q4k_bits.
Open Scope N_scope.
Implicit Types a b c : N.

(** *** Unpacking what was packed: [a], [b], [c] are 6-bit values. *)
Lemma packed_low a b : a < 64 -> b < 64 ->
  N.land (N.lor (N.land (N.land a 63) 63)
                (shl8 (N.land (N.shiftr (N.land b 63) 4) 3) 6)) 63 = a.
Proof. intros. by_all_bytes 64%nat 64%nat a b; done. Qed.

Lemma packed_top_bits a b : a < 64 -> b < 64 ->
  N.shiftr (N.lor (N.land (N.land a 63) 63)
                  (shl8 (N.land (N.shiftr (N.land b 63) 4) 3) 6)) 6 = N.shiftr b 4.
Proof. intros. by_all_bytes 64%nat 64%nat a b; done. Qed.

Lemma packed_high_scale a b c : a < 64 -> b < 64 -> c < 64 ->
  N.land (N.lor
    (N.land (N.lor (N.land (N.land b 63) 15) (shl8 (N.land (N.land c 63) 15) 4)) 15)
    (shl8 (N.shiftr (N.lor (N.land (N.land a 63) 63)
                           (shl8 (N.land (N.shiftr (N.land b 63) 4) 3) 6)) 6) 4)) 63 = b.
Proof.
  intros. rewrite packed_top_bits by done. by_all_bytes 64%nat 64%nat b c; done.
Qed.

Lemma packed_high_min a b c : a < 64 -> b < 64 -> c < 64 ->
  N.land (N.lor
    (N.shiftr (N.lor (N.land (N.land b 63) 15) (shl8 (N.land (N.land c 63) 15) 4)) 4)
    (shl8 (N.shiftr (N.lor (N.land (N.land a 63) 63)
                           (shl8 (N.land (N.shiftr (N.land c 63) 4) 3) 6)) 6) 4)) 63 = c.
Proof.
  intros. rewrite packed_top_bits by done. by_all_bytes 64%nat 64%nat b c; done.
Qed.

(** *** Packing what was unpacked: [a], [b], [c] are bytes. *)
Lemma unpacked_low_scale a b : a < 256 -> b < 256 ->
  N.lor (N.land (N.land (N.land a 63) 63) 63)
    (shl8 (N.land (N.shiftr (N.land (N.land
       (N.lor (N.land b 15) (shl8 (N.shiftr a 6) 4)) 63) 63) 4) 3) 6) = a.
Proof. intros. by_all_bytes 256%nat 256%nat a b; done. Qed.

Lemma unpacked_low_min a b : a < 256 -> b < 256 ->
  N.lor (N.land (N.land (N.land a 63) 63) 63)
    (shl8 (N.land (N.shiftr (N.land (N.land
       (N.lor (N.shiftr b 4) (shl8 (N.shiftr a 6) 4)) 63) 63) 4) 3) 6) = a.
Proof. intros. by_all_bytes 256%nat 256%nat a b; done. Qed.

Lemma unpacked_nibbles a b c : a < 256 -> b < 256 -> c < 256 ->
  N.lor
    (N.land (N.land (N.land (N.lor (N.land b 15) (shl8 (N.shiftr a 6) 4)) 63) 63) 15)
    (shl8 (N.land (N.land (N.land
       (N.lor (N.shiftr b 4) (shl8 (N.shiftr c 6) 4)) 63) 63) 15) 4) = b.
Proof.
  intros.
  assert (E1 : N.land (N.land (N.land (N.lor (N.land b 15) (shl8 (N.shiftr a 6) 4)) 63) 63) 15
          = N.land b 15) by (by_all_bytes 256%nat 256%nat a b; done).
  assert (E2 : N.land (N.land (N.land (N.lor (N.shiftr b 4) (shl8 (N.shiftr c 6) 4)) 63) 63) 15
          = N.shiftr b 4) by (by_all_bytes 256%nat 256%nat b c; done).
  rewrite E1, E2. by_all_bytes 256%nat 256%nat b c; done.
Qed.
End q4k_bits.

(** Split a list of known length into its elements. *)
Ltac explode l n :=
  lazymatch n with
  | O => destruct l; [|discriminate]
  | S ?m => let x := fresh "x" in destruct l as [|x l]; [discriminate|]; explode l m
  end.

Ltac split_Forall :=
  repeat match goal with
  | H : Forall _ (_ :: _) |- _ => apply Forall_cons in H as [? H]
  | H : Forall _ [] |- _ => clear H
  | H : (_ < _)%N /\ _ |- _ => destruct H
  | x : (N * N)%type |- _ => destruct x; simpl in *
  end.

(** The twelve scale bytes of a Q4_K super-block are a faithful encoding of
    its eight 6-bit (scale, min) pairs: unpacking what [q4k_pack_scales] wrote
    returns the pairs, and packing what [q4k_unpack_scales] read returns the
    bytes, so no bit of a block is lost in either direction. *)
Theorem q4k_scales_bijection pairs scales :
  length pairs = 8%nat -> Forall (fun p => p.1 < 64 /\ p.2 < 64)%N pairs ->
  length scales = 12%nat -> Forall (fun b => b < 256)%N scales ->
  q4k_unpack_scales (q4k_pack_scales pairs) = pairs /\
  q4k_pack_scales (q4k_unpack_scales scales) = scales.
Proof.
  intros Hl Hp Hl' Hs. split.
  - clear Hl' Hs. explode pairs 8%nat. split_Forall.
    lazy -[N.land N.lor shl8 N.shiftr].
    rewrite !packed_high_scale, !packed_high_min, !packed_low by done. done.
  - clear Hl Hp. explode scales 12%nat. split_Forall.
    lazy -[N.land N.lor shl8 N.shiftr].
    rewrite !unpacked_nibbles, !unpacked_low_scale, !unpacked_low_min by done. done.
Qed.

Lemma q4k_scales_bijection_witness :
  let pairs := [(1, 63); (2, 62); (3, 61); (4, 60); (50, 5); (40, 20); (33, 17); (63, 0)]%N in
  let scales := [255; 1; 2; 3; 200; 129; 77; 31; 90; 165; 15; 240]%N in
  q4k_unpack_scales (q4k_pack_scales pairs) = pairs /\
  q4k_pack_scales (q4k_unpack_scales scales) = scales.
Proof.
  apply q4k_scales_bijection; [reflexivity| |reflexivity|];
    repeat (apply Forall_cons; split); try apply Forall_nil; try split; vm_compute; reflexivity.
Defined.
