(* ===== verification/Utf8.v ===== *)
(** UTF-8 decoding as Rust's [String::from_utf8_lossy] and [str::from_utf8] do it: the
    well-formed sequences, and the maximal ill-formed prefixes that become one
    replacement character.  A [String] is its list of bytes. *)
From S2P Require Import Prelude.
Local Open Scope N_scope.

Definition in_range (lo hi : N) (b : byte) : bool := (lo <=? Byte.to_N b) && (Byte.to_N b <=? hi).
Definition is_cont : byte -> bool := in_range 128 191.

(** The length of a sequence by its first byte, and the range of its second byte;
    [None] is not a first byte. *)
Definition lead (b : byte) : option (nat * (byte -> bool)) :=
  if in_range 0 127 b then Some (1%nat, is_cont) else
  if in_range 194 223 b then Some (2%nat, is_cont) else
  if in_range 224 224 b then Some (3%nat, in_range 160 191) else
  if in_range 225 236 b || in_range 238 239 b then Some (3%nat, is_cont) else
  if in_range 237 237 b then Some (3%nat, in_range 128 159) else
  if in_range 240 240 b then Some (4%nat, in_range 144 191) else
  if in_range 241 243 b then Some (4%nat, is_cont) else
  if in_range 244 244 b then Some (4%nat, in_range 128 143) else None.

(** The first sequence of a non-empty input: whether it is well formed, and its
    length; an ill-formed one is as long as the part that could have been continued. *)
Definition first_sequence (b : byte) (rest : list byte) : bool * nat :=
  match lead b with
  | None => (false, 1%nat)
  | Some (1%nat, _) => (true, 1%nat)
  | Some (n, second) =>
      match rest with
      | [] => (false, 1%nat)
      | b1 :: rest =>
          if negb (second b1) then (false, 1%nat) else
          if (n =? 2)%nat then (true, 2%nat) else
          match rest with
          | [] => (false, 2%nat)
          | b2 :: rest =>
              if negb (is_cont b2) then (false, 2%nat) else
              if (n =? 3)%nat then (true, 3%nat) else
              match rest with
              | [] => (false, 3%nat)
              | b3 :: _ => if negb (is_cont b3) then (false, 3%nat) else (true, 4%nat)
              end
          end
      end
  end.

(** U+FFFD. *)
Definition REPLACEMENT : list byte := [xef; xbf; xbd].

(** The chunks of an input, each with its well-formedness; the fuel is the number of
    bytes. *)
Fixpoint chunks_aux (fuel : nat) (bs : list byte) : list (bool * list byte) :=
  match fuel, bs with
  | O, _ | _, [] => []
  | S fuel', b :: rest =>
      let '(ok, n) := first_sequence b rest in
      (ok, take n bs) :: chunks_aux fuel' (drop n bs)
  end.
Definition chunks (bs : list byte) : list (bool * list byte) := chunks_aux (length bs) bs.

Definition from_utf8_lossy (bs : list byte) : list byte :=
  chunks bs ≫= fun c => if fst c : bool then snd c else REPLACEMENT.

(** [str::from_utf8(bs).is_ok()]. *)
Definition is_utf8 (bs : list byte) : bool := forallb fst (chunks bs).

(** ** Chunks cover the input *)

Lemma first_sequence_len b rest :
  let '(_, n) := first_sequence b rest in (1 <= n <= S (length rest))%nat.
Proof. unfold first_sequence. repeat case_match; simplify_eq/=; lia. Qed.

Lemma chunks_aux_fuel f g bs : (length bs <= f)%nat -> (length bs <= g)%nat -> chunks_aux f bs = chunks_aux g bs.
Proof.
  revert g bs. induction f as [|f IH]; intros [|g] [|b bs] Hf Hg; simpl in *; try done; try lia.
  pose proof (first_sequence_len b bs) as Hn. destruct (first_sequence b bs) as [ok n]. f_equal.
  apply IH; rewrite length_drop; simpl; lia.
Qed.

Lemma chunks_cons b rest :
  chunks (b :: rest) = let '(ok, n) := first_sequence b rest in (ok, take n (b :: rest)) :: chunks (drop n (b :: rest)).
Proof.
  unfold chunks. cbn [chunks_aux length]. pose proof (first_sequence_len b rest) as Hn.
  destruct (first_sequence b rest) as [ok n]. f_equal. apply chunks_aux_fuel; rewrite ?length_drop; simpl; lia.
Qed.

Lemma concat_chunks bs : concat (chunks bs).*2 = bs.
Proof.
  induction bs as [bs IH] using (induction_ltof1 _ (@length byte)). unfold ltof in IH.
  destruct bs as [|b rest]; [done|]. rewrite chunks_cons.
  pose proof (first_sequence_len b rest) as Hn. destruct (first_sequence b rest) as [ok n]. csimpl.
  rewrite IH by (rewrite length_drop; simpl; lia). apply take_drop.
Qed.

Lemma lossy_id bs : is_utf8 bs = true -> from_utf8_lossy bs = bs.
Proof.
  unfold is_utf8, from_utf8_lossy. intros H. rewrite <-(concat_chunks bs) at 2.
  induction (chunks bs) as [|[ok c] cs IH]; [done|]. simpl in H. apply andb_prop in H as [-> H].
  cbn [mbind list_bind fst snd]. csimpl. by rewrite IH.
Qed.

(** ** Appending well-formed text *)

Lemma first_sequence_app b rest k n :
  first_sequence b rest = (true, n) -> first_sequence b (rest ++ k) = (true, n).
Proof.
  unfold first_sequence. intros H.
  destruct rest as [|b1 [|b2 [|b3 rest]]]; simpl in *; repeat case_match; simplify_eq/=; done.
Qed.

Lemma chunks_app bs k : is_utf8 bs = true -> chunks (bs ++ k) = chunks bs ++ chunks k.
Proof.
  induction bs as [bs IH] using (induction_ltof1 _ (@length byte)). unfold ltof in IH. intros H.
  destruct bs as [|b rest]; [done|]. unfold is_utf8 in H. rewrite chunks_cons in H. simpl. rewrite !chunks_cons.
  pose proof (first_sequence_len b rest) as Hn. destruct (first_sequence b rest) as [ok n] eqn:E.
  simpl in H. apply andb_prop in H as [-> H]. rewrite (first_sequence_app _ _ k _ E).
  rewrite !app_comm_cons. rewrite take_app_le, drop_app_le by (simpl; lia). simpl. f_equal.
  apply IH; [rewrite length_drop; simpl; lia|done].
Qed.

Lemma is_utf8_app bs k : is_utf8 bs = true -> is_utf8 (bs ++ k) = is_utf8 k.
Proof. intros H. unfold is_utf8 in *. by rewrite chunks_app, forallb_app, H. Qed.

Lemma lossy_app bs k : is_utf8 bs = true -> from_utf8_lossy (bs ++ k) = bs ++ from_utf8_lossy k.
Proof.
  intros H. unfold from_utf8_lossy at 1. rewrite chunks_app, bind_app by done.
  f_equal. by apply lossy_id.
Qed.

(** A well-formed chunk is well formed on its own. *)
Lemma first_sequence_take b rest n :
  first_sequence b rest = (true, n) -> is_utf8 (take n (b :: rest)) = true.
Proof.
  intros E. pose proof (first_sequence_len b rest) as Hn. rewrite E in Hn.
  assert (E' : first_sequence b (take (n - 1) rest) = (true, n)).
  { revert E. unfold first_sequence. intros E.
    destruct rest as [|b1 [|b2 [|b3 rest]]]; simpl in *; repeat case_match; simplify_eq/=; try done; congruence. }
  destruct n as [|n]; [lia|]. simpl in *. rewrite Nat.sub_0_r in E'. unfold is_utf8.
  rewrite chunks_cons, E'. rewrite drop_ge by (simpl; rewrite length_take; lia). done.
Qed.

(** Lossy decoding always yields well-formed UTF-8, and changes nothing that is
    well formed. *)
Theorem lossy_is_utf8 bs : is_utf8 (from_utf8_lossy bs) = true /\ (is_utf8 bs = true -> from_utf8_lossy bs = bs).
Proof.
  split; [|apply lossy_id]. induction bs as [bs IH] using (induction_ltof1 _ (@length byte)). unfold ltof in IH.
  destruct bs as [|b rest]; [done|]. unfold from_utf8_lossy. rewrite chunks_cons.
  pose proof (first_sequence_len b rest) as Hn. destruct (first_sequence b rest) as [ok n] eqn:E.
  cbn [mbind list_bind fst snd]. rewrite is_utf8_app.
  - apply IH. rewrite length_drop. simpl. lia.
  - destruct ok; [by eapply first_sequence_take|done].
Qed.
