(* ===== verification/TensorHeader.v ===== *)
(** The Unified Tensor Header ([src/rust-engine/src/tensor_header.rs]).

    [Uth1] is the 64-byte homogeneous header, [Uth2] the 128-byte header of an
    expert whose three projections have their own dtype and byte range.  A
    writer emits the header padded to the storage block; a reader probes the
    magic, strips the padded prefix and keeps the payload, or treats the blob
    as a legacy file without header. *)
From S2P Require Import Prelude Layout.

Definition UTH_MAGIC : list byte := [x55; x54; x48; x31].   (* "UTH1" *)
Definition UTH2_MAGIC : list byte := [x55; x54; x48; x32].  (* "UTH2" *)
Definition UTH_BYTES : N := 64.
Definition UTH_VERSION : N := 1.
Definition UTH2_VERSION : N := 2.
Definition UTH2_BYTES : N := 128.
Definition UTH_FLAG_PAGE_ALIGNED_PAYLOAD : N := 1.
Definition UTH_MAX_RANK : N := 4.

(** ** The wire-stable dtype tag *)

Inductive UthDtypeId : Set :=
| IdF32 | IdF16 | IdInt8 | IdQ4K | IdQ4_0 | IdQ8_0 | IdBF16 | IdMXFP4 | IdQ5K | IdQ6K | IdMixed.

#[export] Instance UthDtypeId_eq_dec : EqDecision UthDtypeId.
Proof. solve_decision. Defined.

(** [dtype as u8]: the enum's explicit discriminants. *)
Definition as_u8 (d : UthDtypeId) : N :=
  match d with
  | IdF32 => 0 | IdF16 => 1 | IdInt8 => 2 | IdQ4K => 3 | IdQ4_0 => 4 | IdQ8_0 => 5
  | IdBF16 => 6 | IdMXFP4 => 7 | IdQ5K => 8 | IdQ6K => 9 | IdMixed => 10
  end.

Definition from_weight (d : WeightDtype) : UthDtypeId :=
  match d with
  | F32 => IdF32 | F16 => IdF16 | Int8 => IdInt8 | Q4K => IdQ4K | Q4_0 => IdQ4_0
  | Q8_0 => IdQ8_0 | BF16 => IdBF16 | MXFP4 => IdMXFP4 | Q5K => IdQ5K | Q6K => IdQ6K
  | Mixed => IdMixed
  end.

Definition to_weight (d : UthDtypeId) : WeightDtype :=
  match d with
  | IdF32 => F32 | IdF16 => F16 | IdInt8 => Int8 | IdQ4K => Q4K | IdQ4_0 => Q4_0
  | IdQ8_0 => Q8_0 | IdBF16 => BF16 | IdMXFP4 => MXFP4 | IdQ5K => Q5K | IdQ6K => Q6K
  | IdMixed => Mixed
  end.

Definition from_u8 (b : N) : option UthDtypeId :=
  match b with
  | 0 => Some IdF32 | 1 => Some IdF16 | 2 => Some IdInt8 | 3 => Some IdQ4K
  | 4 => Some IdQ4_0 | 5 => Some IdQ8_0 | 6 => Some IdBF16 | 7 => Some IdMXFP4
  | 8 => Some IdQ5K | 9 => Some IdQ6K | 10 => Some IdMixed
  | _ => None
  end%N.

(** [(h.flags & UTH_FLAG_PAGE_ALIGNED_PAYLOAD) != 0 && block_align > 0]: the
    length of the header region in front of the payload. *)
Definition header_prefix (header_bytes flags block_align : N) : N :=
  if negb (N.land flags UTH_FLAG_PAGE_ALIGNED_PAYLOAD =? 0)%N && (0 <? block_align)%N
  then (header_bytes + pad_to block_align header_bytes)%N
  else header_bytes.

(** [write_padded]: append the header and zero padding up to the block. *)
Definition write_padded (hdr : list byte) (block_align : N) (dst : list byte) : list byte :=
  let start := N.of_nat (length dst) in
  let dst := dst ++ hdr in
  let after := (N.of_nat (length dst) - start)%N in
  dst ++ replicate (N.to_nat (pad_to block_align after)) x00.

(** ** UTH1 *)

Module Uth1.
Record t := Mk {
  version : N; dtype : UthDtypeId; shape : list N; shape_rank : N;
  quant_scale_offset : N; quant_scale_count : N;
  amx_tile_m : N; amx_tile_n : N; amx_tile_k : N; flags : N;
}.

Definition for_swiglu_expert (d : WeightDtype) (d_model d_ff : N) : t :=
  let '(off, cnt) := match d with
    | Int8 => (0, 3)
    | F32 | F16 | Q4K | Q4_0 | Q8_0 | Q5K | Q6K | BF16 | MXFP4 | Mixed => (0, 0)
    end%N in
  {| version := UTH_VERSION; dtype := from_weight d;
     shape := [(d_ff mod 2 ^ 32); (d_model mod 2 ^ 32); 3; 0]%N; shape_rank := 3;
     quant_scale_offset := off; quant_scale_count := cnt;
     amx_tile_m := 16; amx_tile_n := 16; amx_tile_k := 64;
     flags := UTH_FLAG_PAGE_ALIGNED_PAYLOAD |}.

Definition to_bytes (h : t) : list byte :=
  let buf := replicate 64 x00 in
  let buf := splice 0 UTH_MAGIC buf in
  let buf := splice 4 (le_bytes 2 (version h)) buf in
  let buf := splice 6 [byte_of_N (as_u8 (dtype h))] buf in
  let buf := splice 7 [byte_of_N (shape_rank h)] buf in
  let buf := foldl (fun buf (i : nat) =>
    splice (8 + i * 4) (le_bytes 4 (shape h !!! i)) buf) buf (seq 0 4) in
  let buf := splice 24 (le_bytes 4 (quant_scale_offset h)) buf in
  let buf := splice 28 (le_bytes 4 (quant_scale_count h)) buf in
  let buf := splice 32 (le_bytes 4 (amx_tile_m h)) buf in
  let buf := splice 36 (le_bytes 4 (amx_tile_n h)) buf in
  let buf := splice 40 (le_bytes 4 (amx_tile_k h)) buf in
  splice 44 (le_bytes 4 (flags h)) buf.

Definition probe (bytes : list byte) : option t :=
  if (length bytes <? 64)%nat then None else
  if negb (bool_decide (slice 0 4 bytes = UTH_MAGIC)) then None else
  let version := le_val (slice 4 2 bytes) in
  if (version =? 0)%N || (UTH_VERSION <? version)%N then None else
  dtype ← from_u8 (Byte.to_N (bytes !!! 6%nat));
  let shape_rank := Byte.to_N (bytes !!! 7%nat) in
  if (shape_rank =? 0)%N || (UTH_MAX_RANK <? shape_rank)%N then None else
  let shape := (fun i : nat => le_val (slice (8 + i * 4) 4 bytes)) <$> seq 0 4 in
  Some {| version := version; dtype := dtype; shape := shape; shape_rank := shape_rank;
          quant_scale_offset := le_val (slice 24 4 bytes);
          quant_scale_count := le_val (slice 28 4 bytes);
          amx_tile_m := le_val (slice 32 4 bytes);
          amx_tile_n := le_val (slice 36 4 bytes);
          amx_tile_k := le_val (slice 40 4 bytes);
          flags := le_val (slice 44 4 bytes) |}.

Definition strip (bytes : list byte) (block_align : N) : option t * list byte :=
  match probe bytes with
  | None => (None, bytes)
  | Some h =>
      let prefix := header_prefix UTH_BYTES (flags h) block_align in
      if (N.of_nat (length bytes) <? prefix)%N then (None, bytes)
      else (Some h, drop (N.to_nat prefix) bytes)
  end.

(** The Rust field types, and what a reader accepts. *)
Definition wf (h : t) : Prop :=
  (1 <= version h <= UTH_VERSION)%N /\ (1 <= shape_rank h <= UTH_MAX_RANK)%N /\
  length (shape h) = 4%nat /\ Forall (fun x => x < 2 ^ 32)%N (shape h) /\
  Forall (fun x => x < 2 ^ 32)%N
    [quant_scale_offset h; quant_scale_count h; amx_tile_m h; amx_tile_n h;
     amx_tile_k h; flags h].
End Uth1.

(** ** UTH2 *)

Module Uth2.
Record ProjectionRange := Range { dtype : UthDtypeId; offset : N; len : N; weights : N }.

(** [ProjectionRange::end]. *)
Definition range_end (r : ProjectionRange) : option N :=
  checked_add u64_max (offset r) (len r).

Record t := Mk {
  version : N; d_model : N; d_ff : N; flags : N;
  gate : ProjectionRange; up : ProjectionRange; down : ProjectionRange;
}.

Definition new (d_model d_ff : N) (gate up down : ProjectionRange) : t :=
  {| version := UTH2_VERSION; d_model := (d_model mod 2 ^ 32)%N; d_ff := (d_ff mod 2 ^ 32)%N;
     flags := UTH_FLAG_PAGE_ALIGNED_PAYLOAD; gate := gate; up := up; down := down |}.

(** The projections named in [validate]'s messages, and its errors. *)
Inductive role := Gate | Up | Down.
Inductive error :=
| UnsupportedVersion (v : N)
| ZeroDimension
| MixedDtype (r : role)
| ZeroLength (r : role)
| RangeOverflow (r : role)
| RangeExceedsPayload (r : role) (start end_ payload_len : N)
| RangesOverlap (left right : role).

Definition check_range (payload_len : N) (nr : role * ProjectionRange) : result error unit :=
  let '(name, r) := nr in
  if bool_decide (dtype r = IdMixed) then Err (MixedDtype name) else
  if (len r =? 0)%N then Err (ZeroLength name) else
  end_ ← ok_or (range_end r) (RangeOverflow name);
  if (payload_len <? end_)%N then Err (RangeExceedsPayload name (offset r) end_ payload_len)
  else Ok tt.

Fixpoint for_each {A} (f : A -> result error unit) (l : list A) : result error unit :=
  match l with
  | [] => Ok tt
  | x :: l' => _ ← f x; for_each f l'
  end.

Definition check_pair (p : (role * N * N) * (role * N * N)) : result error unit :=
  let '((left_name, _, left_end), (right_name, right_start, _)) := p in
  if (right_start <? left_end)%N then Err (RangesOverlap left_name right_name) else Ok tt.

Definition named_ranges (h : t) : list (role * ProjectionRange) :=
  [(Gate, gate h); (Up, up h); (Down, down h)].

(** The tuple [(name, start, end)] the overlap check sorts. *)
Definition span (nr : role * ProjectionRange) : role * N * N :=
  (nr.1, offset nr.2, default u64_max (range_end nr.2)).

Definition validate (h : t) (payload_len : N) : result error unit :=
  if negb (version h =? UTH2_VERSION)%N then Err (UnsupportedVersion (version h)) else
  if (d_model h =? 0)%N || (d_ff h =? 0)%N then Err ZeroDimension else
  _ ← for_each (check_range payload_len) (named_ranges h);
  let sorted := sort_by_key (fun x : role * N * N => x.1.2) (span <$> named_ranges h) in
  for_each check_pair (windows2 sorted).

Definition write_projection (buf : list byte) (irp : nat * (N * ProjectionRange)) : list byte :=
  let '(i, (role, p)) := irp in
  let off := (24 + i * 24)%nat in
  let buf := splice off [byte_of_N (as_u8 (dtype p))] buf in
  let buf := splice (off + 1) [byte_of_N role] buf in
  let buf := splice (off + 4) (le_bytes 8 (offset p)) buf in
  let buf := splice (off + 12) (le_bytes 8 (len p)) buf in
  splice (off + 20) (le_bytes 4 (weights p)) buf.

Definition to_bytes (h : t) : list byte :=
  let buf := replicate 128 x00 in
  let buf := splice 0 UTH2_MAGIC buf in
  let buf := splice 4 (le_bytes 2 (version h)) buf in
  let buf := splice 6 (le_bytes 2 3) buf in
  let buf := splice 8 (le_bytes 4 (d_model h)) buf in
  let buf := splice 12 (le_bytes 4 (d_ff h)) buf in
  let buf := splice 16 (le_bytes 4 (flags h)) buf in
  foldl write_projection buf
    [(0%nat, (0, gate h)); (1%nat, (1, up h)); (2%nat, (2, down h))]%N.

Definition read_projection (bytes : list byte) (idx : nat) (expected_role : N)
  : option ProjectionRange :=
  let off := (24 + idx * 24)%nat in
  if negb (Byte.to_N (bytes !!! (off + 1)%nat) =? expected_role)%N then None else
  dtype ← from_u8 (Byte.to_N (bytes !!! off));
  Some {| dtype := dtype;
          offset := le_val (slice (off + 4) 8 bytes);
          len := le_val (slice (off + 12) 8 bytes);
          weights := le_val (slice (off + 20) 4 bytes) |}.

Definition probe (bytes : list byte) : option t :=
  if (length bytes <? 128)%nat || negb (bool_decide (slice 0 4 bytes = UTH2_MAGIC)) then None else
  let version := le_val (slice 4 2 bytes) in
  if negb (version =? UTH2_VERSION)%N then None else
  let projection_count := le_val (slice 6 2 bytes) in
  if negb (projection_count =? 3)%N then None else
  gate ← read_projection bytes 0 0;
  up ← read_projection bytes 1 1;
  down ← read_projection bytes 2 2;
  Some {| version := version;
          d_model := le_val (slice 8 4 bytes);
          d_ff := le_val (slice 12 4 bytes);
          flags := le_val (slice 16 4 bytes);
          gate := gate; up := up; down := down |}.

Definition strip (bytes : list byte) (block_align : N) : option (t * list byte) :=
  h ← probe bytes;
  let prefix := header_prefix UTH2_BYTES (flags h) block_align in
  if (N.of_nat (length bytes) <? prefix)%N then None else
  let payload := drop (N.to_nat prefix) bytes in
  if is_ok (validate h (N.of_nat (length payload))) then Some (h, payload) else None.

(** The Rust field types. *)
Definition range_fits (r : ProjectionRange) : Prop :=
  (offset r <= u64_max /\ len r <= u64_max /\ weights r <= u32_max)%N.
Definition fits (h : t) : Prop :=
  (version h <= u16_max /\ d_model h <= u32_max /\ d_ff h <= u32_max /\ flags h <= u32_max)%N /\
  Forall range_fits [gate h; up h; down h].
End Uth2.

(** ** Dtype tags *)

Lemma from_u8_as_u8 d : from_u8 (as_u8 d) = Some d.
Proof. by destruct d. Qed.

Lemma as_u8_from_u8 b d : from_u8 b = Some d -> as_u8 d = b.
Proof.
  intros H. destruct b as [|p]; [by injection H as <-|].
  do 4 (destruct p as [p|p|]; try discriminate H; try (by injection H as <-)).
Qed.

Lemma to_from_weight d : to_weight (from_weight d) = d.
Proof. by destruct d. Qed.

Lemma as_u8_byte d : Byte.to_N (byte_of_N (as_u8 d)) = as_u8 d.
Proof. by destruct d. Qed.

(** ** Reading back what was written *)

Lemma header_prefix_padded hdr n flags align payload :
  length hdr = N.to_nat n ->
  (N.testbit flags 0 = true \/ align = 0%N) ->
  length (write_padded hdr align []) = N.to_nat (header_prefix n flags align) /\
  drop (N.to_nat (header_prefix n flags align)) (write_padded hdr align [] ++ payload) = payload.
Proof.
  intros Hn Hf.
  assert (Hlen : length (write_padded hdr align []) = N.to_nat (header_prefix n flags align)).
  { unfold write_padded, header_prefix. cbn [length app].
    rewrite length_app, length_replicate, Hn, N2Nat.id, N.sub_0_r.
    unfold UTH_FLAG_PAGE_ALIGNED_PAYLOAD.
    assert (Hl : N.land flags 1 = N.b2n (N.testbit flags 0)).
    { change 1%N with (N.ones 1). rewrite N.land_ones. change (2 ^ 1)%N with 2%N.
      symmetry. apply N.bit0_mod. }
    rewrite Hl. destruct Hf as [-> | ->]; simpl.
    - unfold pad_to. destruct (0 <? align)%N; simpl; lia.
    - rewrite andb_false_r. unfold pad_to. simpl. lia. }
  split; [done|]. rewrite <-Hlen. apply drop_app_length.
Qed.

Lemma Uth1_length_to_bytes h : length (Uth1.to_bytes h) = 64%nat.
Proof. reflexivity. Qed.

Lemma Uth2_length_to_bytes h : length (Uth2.to_bytes h) = 128%nat.
Proof. reflexivity. Qed.

(** Evaluate a probe of explicit header bytes, keeping the words symbolic. *)
Ltac eval_probe :=
  lazy -[le_val byte_of_N N.div Byte.to_N N.eqb N.ltb from_u8 as_u8 UTH_VERSION UTH2_VERSION
         UTH_MAX_RANK orb negb].

Lemma Uth1_probe_to_bytes h rest :
  Uth1.wf h -> Uth1.probe (Uth1.to_bytes h ++ rest) = Some h.
Proof.
  intros (Hv & Hr & Hl & Hs & Hw).
  destruct h as [v d s r qo qc tm tn tk f]. simpl in Hl, Hs, Hw, Hv, Hr.
  explode s 4%nat. split_Forall. unfold UTH_VERSION, UTH_MAX_RANK in Hv, Hr.
  eval_probe. rewrite le16 by lia.
  replace (v =? 0)%N with false by (symmetry; apply N.eqb_neq; lia).
  replace (UTH_VERSION <? v)%N with false by (symmetry; apply N.ltb_ge; unfold UTH_VERSION; lia).
  rewrite as_u8_byte, from_u8_as_u8, byte_to_of_N, N.mod_small by lia.
  replace (r =? 0)%N with false by (symmetry; apply N.eqb_neq; lia).
  replace (UTH_MAX_RANK <? r)%N with false by (symmetry; apply N.ltb_ge; unfold UTH_MAX_RANK; lia).
  rewrite !le32 by assumption. done.
Qed.

Lemma Uth2_probe_to_bytes h rest :
  Uth2.fits h -> Uth2.version h = UTH2_VERSION -> Uth2.probe (Uth2.to_bytes h ++ rest) = Some h.
Proof.
  intros [(Hv & Hm & Hf & Hfl) Hr] Hver.
  destruct h as [v dm df f [gd go gl gw] [ud uo ul uw] [dd do_ dl dw]].
  simpl in Hv, Hm, Hf, Hfl, Hver. subst v.
  apply Forall_cons in Hr as [(? & ? & ?) Hr]. apply Forall_cons in Hr as [(? & ? & ?) Hr].
  apply Forall_cons in Hr as [(? & ? & ?) _]. simpl in *.
  unfold u64_max, u32_max in *.
  eval_probe. rewrite le16 by done.
  rewrite !as_u8_byte, !from_u8_as_u8, !byte_to_of_N.
  rewrite !le32, !le64 by lia. reflexivity.
Qed.

Lemma Uth2_probe_Uth1 h rest : Uth2.probe (Uth1.to_bytes h ++ rest) = None.
Proof.
  unfold Uth2.probe.
  replace (slice 0 4 (Uth1.to_bytes h ++ rest)) with UTH_MAGIC by reflexivity.
  by rewrite orb_true_r.
Qed.

Lemma Uth1_probe_Uth2 h rest : Uth1.probe (Uth2.to_bytes h ++ rest) = None.
Proof.
  unfold Uth1.probe.
  replace (slice 0 4 (Uth2.to_bytes h ++ rest)) with UTH2_MAGIC by reflexivity.
  by destruct (_ <? 64)%nat.
Qed.

Lemma write_padded_app hdr align :
  write_padded hdr align [] = hdr ++ replicate (N.to_nat (pad_to align (N.of_nat (length hdr)))) x00.
Proof. unfold write_padded. cbn [app length]. by rewrite N.sub_0_r. Qed.

Lemma Uth1_strip_padded h align payload :
  Uth1.wf h -> (N.testbit (Uth1.flags h) 0 = true \/ align = 0%N) ->
  Uth1.strip (write_padded (Uth1.to_bytes h) align [] ++ payload) align = (Some h, payload).
Proof.
  intros Hwf Hf.
  destruct (header_prefix_padded (Uth1.to_bytes h) UTH_BYTES (Uth1.flags h) align payload)
    as [Hlen Hdrop]; [done..|].
  unfold Uth1.strip.
  rewrite write_padded_app, <-app_assoc, Uth1_probe_to_bytes, app_assoc, <-write_padded_app by done.
  rewrite Hdrop, length_app, Hlen. case_N; [lia|done].
Qed.

Lemma Uth2_strip_padded h align payload :
  Uth2.fits h -> (N.testbit (Uth2.flags h) 0 = true \/ align = 0%N) ->
  Uth2.validate h (N.of_nat (length payload)) = Ok tt ->
  Uth2.strip (write_padded (Uth2.to_bytes h) align [] ++ payload) align = Some (h, payload).
Proof.
  intros Hfit Hf Hval.
  assert (Hver : Uth2.version h = UTH2_VERSION).
  { unfold Uth2.validate in Hval. by destruct (N.eqb_spec (Uth2.version h) UTH2_VERSION). }
  destruct (header_prefix_padded (Uth2.to_bytes h) UTH2_BYTES (Uth2.flags h) align payload)
    as [Hlen Hdrop]; [done..|].
  unfold Uth2.strip.
  rewrite write_padded_app, <-app_assoc, Uth2_probe_to_bytes, app_assoc, <-write_padded_app by done.
  cbn [mbind option_bind]. rewrite Hdrop, Hval, length_app, Hlen. case_N; [lia|done].
Qed.

Lemma write_padded_aligned hdr align :
  (0 < align)%N -> (N.of_nat (length (write_padded hdr align [])) mod align = 0)%N.
Proof.
  intros. rewrite write_padded_app, length_app, length_replicate, Nat2N.inj_add, N2Nat.id.
  by apply pad_to_aligned.
Qed.

Lemma Uth2_strip_Uth1 h align payload :
  Uth2.strip (write_padded (Uth1.to_bytes h) align [] ++ payload) align = None.
Proof. unfold Uth2.strip. by rewrite write_padded_app, <-app_assoc, Uth2_probe_Uth1. Qed.

(** Round trip of the homogeneous header: for a well-formed header whose
    payload flag matches the padding used, stripping a blob that starts with
    the padded header returns the header and exactly the payload bytes, the
    payload starts on a block boundary, and a reader that tries the mixed
    header first (as the loader does) does not take the blob for one. *)
Theorem uth1_strip_write_padded h align payload :
  Uth1.wf h -> (N.testbit (Uth1.flags h) 0 = true \/ align = 0%N) ->
  let blob := write_padded (Uth1.to_bytes h) align [] ++ payload in
  Uth1.strip blob align = (Some h, payload) /\ Uth2.strip blob align = None /\
  (0 < align -> (N.of_nat (length blob) - N.of_nat (length payload)) mod align = 0)%N.
Proof.
  intros Hwf Hf blob. subst blob. split; [by apply Uth1_strip_padded|].
  split; [apply Uth2_strip_Uth1|]. intros.
  rewrite length_app, Nat2N.inj_add, N.add_sub. by apply write_padded_aligned.
Qed.

(** C29. Round trip of the mixed-projection header, under the validation the
    reader performs on the payload it found; the payload starts on a block
    boundary, and a reader of the homogeneous header leaves the blob alone. *)
Theorem uth2_strip_write_padded h align payload :
  Uth2.fits h -> (N.testbit (Uth2.flags h) 0 = true \/ align = 0%N) ->
  Uth2.validate h (N.of_nat (length payload)) = Ok tt ->
  let blob := write_padded (Uth2.to_bytes h) align [] ++ payload in
  Uth2.strip blob align = Some (h, payload) /\ Uth1.strip blob align = (None, blob) /\
  (0 < align -> (N.of_nat (length blob) - N.of_nat (length payload)) mod align = 0)%N.
Proof.
  intros Hfit Hf Hval blob. subst blob. split; [by apply Uth2_strip_padded|]. split.
  - unfold Uth1.strip. by rewrite write_padded_app, <-app_assoc, Uth1_probe_Uth2.
  - intros. rewrite length_app, Nat2N.inj_add, N.add_sub. by apply write_padded_aligned.
Qed.

(** ** What [validate] accepts *)

(** For a symmetric relation, "every ordered pair" does not depend on the order. *)
Lemma StronglySorted_perm {A} (R : A -> A -> Prop) (l k : list A) :
  (forall x y, R x y -> R y x) -> l ≡ₚ k -> StronglySorted R l -> StronglySorted R k.
Proof.
  intros Hsym. induction 1 as [|x l k Hlk IH|x y l|]; intros Hs; auto.
  - apply StronglySorted_inv in Hs as [Hs Hx]. constructor; [auto|]. by rewrite <-Hlk.
  - apply StronglySorted_inv in Hs as [Hs Hy]. apply StronglySorted_inv in Hs as [Hs Hx].
    apply Forall_cons in Hy as [Hyx Hy]. repeat constructor; auto.
Qed.

Module Uth2Spec.
Import Uth2.

Definition range_ok (payload_len : N) (r : ProjectionRange) : Prop :=
  dtype r <> IdMixed /\ (0 < len r)%N /\ (offset r + len r <= payload_len)%N.

Definition disjoint_ranges (a b : ProjectionRange) : Prop :=
  (offset a + len a <= offset b \/ offset b + len b <= offset a)%N.

(** The contract: a version-2 header with non-zero dimensions whose three
    projections are non-empty, lie inside the payload and do not overlap. *)
Definition valid (h : t) (payload_len : N) : Prop :=
  version h = UTH2_VERSION /\ (0 < d_model h)%N /\ (0 < d_ff h)%N /\
  Forall (range_ok payload_len) [gate h; up h; down h] /\
  disjoint_ranges (gate h) (up h) /\ disjoint_ranges (gate h) (down h) /\
  disjoint_ranges (up h) (down h).

Lemma for_each_ok {A} (f : A -> result error unit) l :
  for_each f l = Ok tt <-> Forall (fun x => f x = Ok tt) l.
Proof.
  induction l as [|x l IH]; simpl; [split; [constructor|done]|].
  rewrite Forall_cons, <-IH. destruct (f x) as [[]|]; simpl; naive_solver.
Qed.

Lemma check_range_ok n name r :
  (n <= u64_max)%N -> check_range n (name, r) = Ok tt <-> range_ok n r.
Proof.
  intros Hn. unfold check_range, range_ok, range_end.
  case_bool_decide; [naive_solver|].
  destruct (N.eqb_spec (len r) 0); [split; [done|lia]|].
  unfold checked_add. destruct (N.leb_spec (offset r + len r) u64_max); simpl.
  - case_N; split; try done; intros; repeat split; try done; lia.
  - split; [done|lia].
Qed.

(** A span is (name, start, end). *)
Definition span_disj (a b : role * N * N) : Prop := (a.2 <= b.1.2 \/ b.2 <= a.1.2)%N.

Lemma check_pairs_sorted (l : list (role * N * N)) :
  StronglySorted (key_le (fun x => x.1.2)) l -> Forall (fun x => x.1.2 < x.2)%N l ->
  for_each check_pair (windows2 l) = Ok tt <-> StronglySorted span_disj l.
Proof.
  induction l as [|x l IH]; intros Hs Hne; [split; [constructor|done]|].
  apply StronglySorted_inv in Hs as [Hs Hx]. apply Forall_cons in Hne as [Hnx Hne].
  destruct l as [|y l]; [split; [repeat constructor|done]|].
  specialize (IH Hs Hne). change (windows2 (x :: y :: l)) with ((x, y) :: windows2 (y :: l)).
  cbn [for_each]. destruct x as [[nx sx] ex], y as [[ny sy] ey]. simpl in Hnx.
  apply Forall_cons in Hx as [Hxy Hxl]. unfold key_le in Hxy; simpl in Hxy.
  apply Forall_cons in Hne as [Hny Hne]; simpl in Hny.
  cbn [check_pair]. destruct (N.ltb_spec sy ex); cbn [mbind result_bind].
  - split; [done|]. intros [_ Hd]%StronglySorted_inv.
    apply Forall_cons in Hd as [[Hd|Hd] _]; simpl in Hd; lia.
  - rewrite IH. split.
    + intros Hd. constructor; [done|].
      apply StronglySorted_inv in Hs as [_ Hsy].
      constructor; [by left|]. eapply Forall_impl; [exact Hsy|].
      unfold key_le, span_disj. simpl. lia.
    + by intros [Hd _]%StronglySorted_inv.
Qed.
Lemma ranges_checked h n :
  (n <= u64_max)%N ->
  for_each (check_range n) (named_ranges h) = Ok tt <->
  Forall (range_ok n) [gate h; up h; down h].
Proof.
  intros Hn. rewrite for_each_ok. unfold named_ranges.
  rewrite !Forall_cons, !check_range_ok by done. by rewrite !Forall_nil.
Qed.

Lemma span_ok n name r :
  (n <= u64_max)%N -> range_ok n r -> span (name, r) = (name, offset r, (offset r + len r)%N).
Proof.
  intros Hn (_ & _ & Hr). unfold span, range_end, checked_add; simpl. case_N; [done|lia].
Qed.

Lemma pairs_checked h n :
  (n <= u64_max)%N -> Forall (range_ok n) [gate h; up h; down h] ->
  for_each check_pair (windows2 (sort_by_key (fun x : role * N * N => x.1.2)
     (span <$> named_ranges h))) = Ok tt <->
  disjoint_ranges (gate h) (up h) /\ disjoint_ranges (gate h) (down h) /\
  disjoint_ranges (up h) (down h).
Proof.
  intros Hn Hr. rewrite !Forall_cons in Hr. destruct Hr as (Hg & Hu & Hd & _).
  unfold named_ranges. cbn [fmap list_fmap].
  rewrite !(span_ok n) by done. set (l := [_; _; _]).
  pose proof (sort_by_key_perm (fun x : role * N * N => x.1.2) l) as Hp.
  rewrite check_pairs_sorted; [|apply sort_by_key_sorted|].
  2:{ rewrite Hp. unfold range_ok in *. unfold l. rewrite !Forall_cons. simpl.
      repeat split; try lia. constructor. }
  assert (Hsym : forall x y, span_disj x y -> span_disj y x) by (unfold span_disj; tauto).
  trans (StronglySorted span_disj l).
  { split; (apply StronglySorted_perm; [done|]); [exact Hp|by symmetry]. }
  clear Hp. unfold l, disjoint_ranges. split.
  - intros [H2 H1]%StronglySorted_inv. apply StronglySorted_inv in H2 as [_ H2].
    rewrite !Forall_cons in H1. rewrite !Forall_cons in H2.
    unfold span_disj in *. simpl in *. tauto.
  - intros (? & ? & ?). unfold span_disj.
    repeat first [apply SSorted_nil | apply SSorted_cons | apply Forall_nil; exact I
                 | apply Forall_cons; split]; simpl; tauto.
Qed.
End Uth2Spec.

(** [validate] is exactly the header's contract: it accepts a header for a
    payload length precisely when the three projections are non-empty, typed,
    inside the payload and pairwise disjoint (the code sorts the three ranges by
    start and compares neighbours). *)
Theorem uth2_validate_spec h payload_len :
  (payload_len <= u64_max)%N ->
  Uth2.validate h payload_len = Ok tt <-> Uth2Spec.valid h payload_len.
Proof.
  intros Hn. unfold Uth2.validate, Uth2Spec.valid.
  destruct (N.eqb_spec (Uth2.version h) UTH2_VERSION) as [->|]; cbn [negb orb]; [|by split; [|intros []]].
  destruct (N.eqb_spec (Uth2.d_model h) 0); cbn [negb orb]; [split; [done|lia]|].
  destruct (N.eqb_spec (Uth2.d_ff h) 0); cbn [negb orb]; [split; [done|lia]|].
  rewrite <-(Uth2Spec.ranges_checked h) by done.
  destruct (Uth2.for_each _ (Uth2.named_ranges h)) as [[]|e] eqn:E; cbn [mbind result_bind].
  - apply Uth2Spec.ranges_checked in E; [|done].
    rewrite (Uth2Spec.pairs_checked h payload_len) by done. intuition lia.
  - split; [done|]. by intros (_ & _ & _ & ? & _).
Qed.

(** ** The headers the converter writes *)

Lemma for_swiglu_expert_wf d d_model d_ff : Uth1.wf (Uth1.for_swiglu_expert d d_model d_ff).
Proof.
  assert (Hm : forall x, (x mod 2 ^ 32 < 2 ^ 32)%N) by (intros; apply N.mod_lt; discriminate).
  unfold Uth1.wf, Uth1.for_swiglu_expert.
  destruct d; simpl; repeat split; try done; repeat constructor; auto; done.
Qed.

Definition sample_uth2 : Uth2.t :=
  Uth2.new 2 4 (Uth2.Range IdQ8_0 0 2 8) (Uth2.Range IdQ4_0 4 1 8) (Uth2.Range IdF16 2 2 8).

Lemma uth1_strip_write_padded_witness :
  let h := Uth1.for_swiglu_expert Q4_0 4096 14336 in
  Uth1.strip (write_padded (Uth1.to_bytes h) 4096 [] ++ [x01; x02]) 4096 = (Some h, [x01; x02]).
Proof.
  intros h. refine (proj1 (uth1_strip_write_padded h 4096 [x01; x02] _ _)).
  - apply for_swiglu_expert_wf.
  - left. reflexivity.
Defined.

Lemma uth2_strip_write_padded_witness :
  Uth2.strip (write_padded (Uth2.to_bytes sample_uth2) 512 [] ++ [x01; x02; x03; x04; x05]) 512
  = Some (sample_uth2, [x01; x02; x03; x04; x05]).
Proof.
  refine (proj1 (uth2_strip_write_padded sample_uth2 512 [x01; x02; x03; x04; x05] _ _ _)).
  - split; [vm_compute; repeat split; discriminate|].
    repeat (apply Forall_cons; split); try apply Forall_nil;
      vm_compute; repeat split; try discriminate.
  - left. reflexivity.
  - reflexivity.
Defined.

Lemma uth2_validate_spec_witness :
  Uth2.validate sample_uth2 5 = Ok tt /\ Uth2Spec.valid sample_uth2 5 /\
  ~ Uth2Spec.valid sample_uth2 4.
Proof.
  split; [reflexivity|]. split.
  - apply (proj1 (uth2_validate_spec sample_uth2 5 ltac:(vm_compute; discriminate))). reflexivity.
  - intros H. apply (proj2 (uth2_validate_spec sample_uth2 4 ltac:(vm_compute; discriminate))) in H.
    discriminate H.
Defined.
