(* ===== verification/Gguf.v ===== *)
(** The GGUF reader ([src/rust-engine/src/gguf.rs]): the header parser over a byte
    buffer, the streaming reader that feeds it a growing prefix of the file, tensor
    lookup, and shard sets.

    A parser is a function of the cursor.  [can_reserve] says whether a
    [with_capacity] call returns: the allocator's answer, [false] being a capacity
    overflow panic or an allocation failure.  Loops over a count read from the file
    run on fuel; [parse] takes twice the number of bytes, and never runs out. *)
From S2P Require Import Prelude Layout Utf8.
From stdpp Require Import strings.
Local Open Scope N_scope.

(** ** Data *)

Definition UINT8 : N := 0.
Definition INT8 : N := 1.
Definition UINT16 : N := 2.
Definition INT16 : N := 3.
Definition UINT32 : N := 4.
Definition INT32 : N := 5.
Definition FLOAT32 : N := 6.
Definition BOOL : N := 7.
Definition STRING : N := 8.
Definition ARRAY : N := 9.
Definition UINT64 : N := 10.
Definition INT64 : N := 11.
Definition FLOAT64 : N := 12.

Module ggml_dtype.
Definition F32 : N := 0.
Definition F16 : N := 1.
Definition Q4_0 : N := 2.
Definition Q8_0 : N := 8.
Definition Q4_K : N := 12.
Definition Q5_K : N := 13.
Definition Q6_K : N := 14.
Definition BF16 : N := 32.
End ggml_dtype.

Definition GGUF_MAGIC : list byte := String.list_byte_of_string "GGUF".

(** Floats are their bits; a [String] is its bytes. *)
Inductive GgufValue :=
| U8 (v : N) | I8 (v : Z) | U16 (v : N) | I16 (v : Z) | U32 (v : N) | I32 (v : Z)
| U64 (v : N) | I64 (v : Z) | F32 (bits : N) | F64 (bits : N) | Bool (b : bool)
| Str (s : list byte)
| Array (vs : list GgufValue).

Definition as_u64 (v : GgufValue) : option N :=
  match v with
  | U8 v | U16 v | U32 v | U64 v => Some v
  | I8 v | I16 v | I32 v | I64 v => if (0 <=? v)%Z then Some (Z.to_N v) else None
  | _ => None
  end.
Definition as_str (v : GgufValue) : option (list byte) := match v with Str s => Some s | _ => None end.

#[export] Instance byte_countable : Countable byte.
Proof. apply (inj_countable' Byte.to_N (fun n => byte_of_N n)). apply byte_of_to_N. Defined.

Record GgufTensorInfo := {
  name : list byte;
  shape : list N;
  dtype : N;
  offset : N;
  byte_len : N;
}.

Definition product_u64 (xs : list N) : N := foldl (wrap_mul u64_max) 1 xs.
Definition elem_count (t : GgufTensorInfo) : N := product_u64 (shape t).

Record GgufFile := {
  version : N;
  metadata : gmap (list byte) GgufValue;
  tensors : gmap (list byte) GgufTensorInfo;
  bytes : list byte;
  tensor_data_start : N;
}.

Definition ggml_to_weight_dtype (code : N) : option WeightDtype :=
  if code =? ggml_dtype.F32 then Some Layout.F32 else
  if code =? ggml_dtype.F16 then Some Layout.F16 else
  if code =? ggml_dtype.BF16 then Some Layout.BF16 else
  if code =? ggml_dtype.Q4_0 then Some Layout.Q4_0 else
  if code =? ggml_dtype.Q4_K then Some Layout.Q4K else
  if code =? ggml_dtype.Q5_K then Some Layout.Q5K else
  if code =? ggml_dtype.Q6_K then Some Layout.Q6K else
  if code =? ggml_dtype.Q8_0 then Some Layout.Q8_0 else None.

Definition blocks_bytes (elems block_elems block_bytes : N) : option N :=
  checked_mul u64_max (div_ceil elems block_elems) block_bytes.

Definition ggml_tensor_bytes (code : N) (shape : list N) : option N :=
  let elems := product_u64 shape in
  if code =? ggml_dtype.F32 then checked_mul u64_max elems 4 else
  if code =? ggml_dtype.F16 then checked_mul u64_max elems 2 else
  if code =? ggml_dtype.BF16 then checked_mul u64_max elems 2 else
  if code =? ggml_dtype.Q4_0 then blocks_bytes elems Q4_0_BLOCK_ELEMS Q4_0_BLOCK_BYTES else
  if code =? ggml_dtype.Q4_K then blocks_bytes elems Q4K_BLOCK_ELEMS Q4K_BLOCK_BYTES else
  if code =? ggml_dtype.Q5_K then blocks_bytes elems Q5K_BLOCK_ELEMS Q5K_BLOCK_BYTES else
  if code =? ggml_dtype.Q8_0 then blocks_bytes elems 32 34 else
  if code =? ggml_dtype.Q6_K then blocks_bytes elems Q6K_BLOCK_ELEMS Q6K_BLOCK_BYTES else None.

(** ** Parsers *)

Inductive perr := UnexpectedEof | InvalidData | Panicked | OutOfFuel.
(** The [with_capacity] calls. *)
Inductive alloc := MetadataMap | TensorMap | ShapeVec | ValueVec | ReaderVec.

Definition parser (A : Type) : Type := N -> result perr (A * N).
#[export] Instance parser_ret : MRet parser := fun A a pos => Ok (a, pos).
#[export] Instance parser_bind : MBind parser := fun A B f p pos =>
  match p pos with Ok (a, pos) => f a pos | Err e => Err e end.
Definition fail {A} (e : perr) : parser A := fun _ => Err e.

Section parser.
Context (can_reserve : alloc -> N -> bool) (buf : list byte).

(** [Cursor::advance] and [Cursor::read_bytes]. *)
Definition read_bytes (n : N) : parser (list byte) := fun pos =>
  match checked_add usize_max pos n with
  | Some p => if N.of_nat (length buf) <? p then Err UnexpectedEof
              else Ok (slice (N.to_nat pos) (N.to_nat n) buf, p)
  | None => Err UnexpectedEof
  end.
(** [read_u8] to [read_u64]. *)
Definition read_uint (w : N) : parser N := b ← read_bytes w; mret (le_val b).
Definition read_count (version : N) : parser N := if version =? 1 then read_uint 4 else read_uint 8.
Definition read_string (version : N) : parser (list byte) :=
  len ← read_count version; bs ← read_bytes len; mret (from_utf8_lossy bs).

Definition reserve (k : alloc) (n : N) : parser unit := if can_reserve k n then mret tt else fail Panicked.

(** [x as i8] and the like. *)
Definition to_signed (w x : N) : Z := if x <? 2 ^ (w - 1) then Z.of_N x else Z.of_N x - 2 ^ Z.of_N w.
Definition read_int (w : N) : parser Z := x ← read_uint w; mret (to_signed (8 * w) x).

Fixpoint read_value_typed (fuel : nat) (version ty : N) : parser GgufValue :=
  match fuel with
  | O => fail OutOfFuel
  | S fuel =>
      if ty =? UINT8 then v ← read_uint 1; mret (U8 v) else
      if ty =? INT8 then v ← read_int 1; mret (I8 v) else
      if ty =? UINT16 then v ← read_uint 2; mret (U16 v) else
      if ty =? INT16 then v ← read_int 2; mret (I16 v) else
      if ty =? UINT32 then v ← read_uint 4; mret (U32 v) else
      if ty =? INT32 then v ← read_int 4; mret (I32 v) else
      if ty =? UINT64 then v ← read_uint 8; mret (U64 v) else
      if ty =? INT64 then v ← read_int 8; mret (I64 v) else
      if ty =? FLOAT32 then v ← read_uint 4; mret (F32 v) else
      if ty =? FLOAT64 then v ← read_uint 8; mret (F64 v) else
      if ty =? BOOL then v ← read_uint 1; mret (Bool (negb (v =? 0))) else
      if ty =? STRING then v ← read_string version; mret (Str v) else
      if ty =? ARRAY then
        inner_ty ← read_uint 4;
        n ← read_count version;
        _ ← reserve ValueVec n;
        out ← read_values fuel version inner_ty n;
        mret (Array out)
      else fail InvalidData
  end
(** The loop over an array's elements. *)
with read_values (fuel : nat) (version ty n : N) : parser (list GgufValue) :=
  match fuel with
  | O => fail OutOfFuel
  | S fuel =>
      if n =? 0 then mret [] else
      v ← read_value_typed fuel version ty;
      vs ← read_values fuel version ty (n - 1);
      mret (v :: vs)
  end.

Definition read_value (fuel : nat) (version : N) : parser GgufValue :=
  ty ← read_uint 4; read_value_typed fuel version ty.

(** [for _ in 0..n { .. }] on an accumulator. *)
Fixpoint loop {A} (fuel : nat) (step : A -> parser A) (n : N) (a : A) : parser A :=
  match fuel with
  | O => fail OutOfFuel
  | S fuel => if n =? 0 then mret a else a ← step a; loop fuel step (n - 1) a
  end.

Definition read_kv (fuel : nat) (version : N) (m : gmap (list byte) GgufValue) : parser (gmap (list byte) GgufValue) :=
  key ← read_string version;
  val ← read_value fuel version;
  mret (<[key := val]> m).

Definition read_dim (version : N) (shape : list N) : parser (list N) :=
  d ← (if version =? 1 then read_uint 4 else read_uint 8);
  mret (shape ++ [d]).

Definition read_tensor (fuel : nat) (version : N) (m : gmap (list byte) GgufTensorInfo)
    : parser (gmap (list byte) GgufTensorInfo) :=
  name ← read_string version;
  n_dims ← read_uint 4;
  _ ← reserve ShapeVec n_dims;
  shape ← loop fuel (read_dim version) n_dims [];
  dtype ← read_uint 4;
  offset ← read_uint 8;
  match ggml_tensor_bytes dtype shape with
  | None => fail InvalidData
  | Some byte_len =>
      mret (<[name := {| name := name; shape := shape; dtype := dtype; offset := offset; byte_len := byte_len |}]> m)
  end.

(** [general.alignment], 32 by default, at least 1. *)
Definition alignment_of (m : gmap (list byte) GgufValue) : N :=
  N.max (default 32 (m !! String.list_byte_of_string "general.alignment" ≫= as_u64)) 1.

(** The cursor's position, padded. *)
Definition data_start (alignment after_header : N) : N :=
  wrap_add usize_max after_header ((alignment - after_header mod alignment) mod alignment).

(** The metadata table and the tensor table. *)
Definition read_tables (fuel : nat) (version tensor_count kv_count : N)
    : parser (gmap (list byte) GgufValue * gmap (list byte) GgufTensorInfo) :=
  _ ← reserve MetadataMap kv_count;
  metadata ← loop fuel (read_kv fuel version) kv_count ∅;
  _ ← reserve TensorMap tensor_count;
  tensors ← loop fuel (read_tensor fuel version) tensor_count ∅;
  mret (metadata, tensors).

(** The parser's body, up to the size check. *)
Definition read_header (fuel : nat)
    : parser (N * gmap (list byte) GgufValue * gmap (list byte) GgufTensorInfo) :=
  magic ← read_bytes 4;
  if negb (bool_decide (magic = GGUF_MAGIC)) then fail InvalidData else
  version ← read_uint 4;
  if (version =? 0) || (3 <? version) then fail InvalidData else
  tensor_count ← read_count version;
  kv_count ← read_count version;
  '(metadata, tensors) ← read_tables fuel version tensor_count kv_count;
  mret (version, metadata, tensors).
End parser.

Definition parse_with (can_reserve : alloc -> N -> bool) (fuel : nat) (bytes : list byte) : result perr GgufFile :=
  match read_header can_reserve bytes fuel 0 with
  | Err e => Err e
  | Ok (version, metadata, tensors, after_header) =>
      let start := data_start (alignment_of metadata) after_header in
      if N.of_nat (length bytes) <? start then Err UnexpectedEof else
      Ok {| version := version; metadata := metadata; tensors := tensors; bytes := bytes; tensor_data_start := start |}
  end.

Definition fuel_for (bytes : list byte) : nat := 2 * length bytes + 4.
(** [GgufFile::parse]. *)
Definition parse (can_reserve : alloc -> N -> bool) (bytes : list byte) : result perr GgufFile :=
  parse_with can_reserve (fuel_for bytes) bytes.

(** ** Tensor bodies *)

Definition tensor_data (f : GgufFile) (name : list byte) : option (list byte) :=
  info ← tensors f !! name;
  start ← checked_add usize_max (tensor_data_start f) (offset info);
  end_ ← checked_add usize_max start (byte_len info);
  if N.of_nat (length (bytes f)) <? end_ then None else
  Some (slice (N.to_nat start) (N.to_nat (end_ - start)) (bytes f)).

Definition tensor_dtype (f : GgufFile) (name : list byte) : option WeightDtype :=
  info ← tensors f !! name; ggml_to_weight_dtype (dtype info).
Definition architecture (f : GgufFile) : option (list byte) :=
  metadata f !! String.list_byte_of_string "general.architecture" ≫= as_str.

(** ** The streaming reader *)

(** What a reader keeps of a parsed file. *)
Record header := {
  h_version : N;
  h_metadata : gmap (list byte) GgufValue;
  h_tensors : gmap (list byte) GgufTensorInfo;
  h_data_start : N;
}.
Definition header_of (f : GgufFile) : header :=
  {| h_version := version f; h_metadata := metadata f; h_tensors := tensors f; h_data_start := tensor_data_start f |}.

Definition CHUNK : N := 4 * 1024 * 1024.
Definition HEADER_CAP : N := 10 * 1024 * 1024 * 1024.

(** [try_parse_header]: [Ok None] asks for more bytes. *)
Definition try_parse_header (can_reserve : alloc -> N -> bool) (bs : list byte) : result perr (option header) :=
  match parse can_reserve bs with
  | Ok p => Ok (Some (header_of p))
  | Err UnexpectedEof => Ok None
  | Err e => Err e
  end.

(** The reading loop; [reads] are the sizes the system would like to return, each at
    least one byte and at most a chunk or what is left.  The fuel is the number of
    bytes left. *)
Fixpoint stream_loop (can_reserve : alloc -> N -> bool) (fuel : nat) (reads : list N) (header_bytes rest : list byte)
    : result perr header :=
  match fuel, rest with
  | _, [] => Err UnexpectedEof
  | O, _ => Err OutOfFuel
  | S fuel, _ =>
      let n := N.to_nat (N.min CHUNK (N.max 1 (hd 1 reads))) in
      let header_bytes := header_bytes ++ take n rest in
      match try_parse_header can_reserve header_bytes with
      | Err e => Err e
      | Ok (Some h) => Ok h
      | Ok None =>
          if HEADER_CAP <? N.of_nat (length header_bytes) then Err InvalidData
          else stream_loop can_reserve fuel (tl reads) header_bytes (drop n rest)
      end
  end.

(** [GgufStreamReader::open], with the preamble's [read_exact]s. *)
Definition stream_open (can_reserve : alloc -> N -> bool) (reads : list N) (file : list byte) : result perr header :=
  if N.of_nat (length file) <? 4 then Err UnexpectedEof else
  if negb (bool_decide (slice 0 4 file = GGUF_MAGIC)) then Err InvalidData else
  if N.of_nat (length file) <? 8 then Err UnexpectedEof else
  let version := le_val (slice 4 4 file) in
  if (version =? 0) || (3 <? version) then Err InvalidData else
  let preamble := if version =? 1 then 16%nat else 24%nat in
  if (length file <? preamble)%nat then Err UnexpectedEof else
  stream_loop can_reserve (length file) reads (take preamble file) (drop preamble file).

(** [read_tensor_data]: the body of a tensor, read from the file by its range.
    [Ok None] is an unknown tensor. *)
Definition read_tensor_data (h : header) (file : list byte) (name : list byte) : result perr (option (list byte)) :=
  match h_tensors h !! name with
  | None => Ok None
  | Some info =>
      match checked_add u64_max (h_data_start h) (offset info) with
      | None => Err InvalidData
      | Some start =>
          match checked_add u64_max start (byte_len info) with
          | None => Err InvalidData
          | Some end_ =>
              if N.of_nat (length file) <? end_ then Err InvalidData
              else Ok (Some (slice (N.to_nat start) (N.to_nat (byte_len info)) file))
          end
      end
  end.

Create HintDb ext.

(** ** A parser on a longer buffer, with more fuel

    The answer stands unless it was for want of bytes or of fuel. *)
Section extension.
Context (can_reserve : alloc -> N -> bool) (buf more : list byte) (weak : perr -> Prop).
Hypothesis weak_fuel : weak OutOfFuel.
Hypothesis weak_eof : weak UnexpectedEof \/ more = [].

Definition ext {A} (r r' : result perr A) : Prop :=
  match r with Err e => weak e \/ r' = r | _ => r' = r end.
Definition ext_parser {A} (p p' : parser A) : Prop := forall pos, ext (p pos) (p' pos).

Lemma ext_refl {A} (p : parser A) : ext_parser p p.
Proof. intros pos. unfold ext. destruct (p pos); auto. Qed.

Lemma ext_bind {A B} (p p' : parser A) (f f' : A -> parser B) :
  ext_parser p p' -> (forall a, ext_parser (f a) (f' a)) -> ext_parser (p ≫= f) (p' ≫= f').
Proof.
  intros Hp Hf pos. specialize (Hp pos). unfold ext, mbind, parser_bind in *.
  destruct (p pos) as [[a pos']|e].
  - rewrite Hp. apply Hf.
  - destruct Hp as [Hw| ->]; auto.
Qed.

Lemma ext_read_bytes n : ext_parser (read_bytes buf n) (read_bytes (buf ++ more) n).
Proof.
  intros pos. unfold ext, read_bytes. destruct (checked_add usize_max pos n) as [p|] eqn:Hp; [|by right].
  apply checked_add_Some in Hp as [-> _]. destruct weak_eof as [Hw| ->]; [|rewrite app_nil_r; case_match; auto].
  rewrite length_app. destruct (N.ltb_spec (N.of_nat (length buf)) (pos + n)); [by left|].
  destruct (N.ltb_spec (N.of_nat (length buf + length more)) (pos + n)); [lia|].
  by rewrite slice_app_keep by lia.
Qed.

Hint Resolve ext_refl ext_bind ext_read_bytes : ext.
Hint Extern 1 (ext_parser _ _) => progress unfold read_uint, read_int, read_count, read_string : ext.
Hint Extern 1 (ext_parser (if ?b then _ else _) (if ?b then _ else _)) => destruct b : ext.
Hint Extern 2 (ext_parser (_ ≫= _) (_ ≫= _)) => apply ext_bind; [|intros ?] : ext.

Lemma ext_count version : ext_parser (read_count buf version) (read_count (buf ++ more) version).
Proof. eauto 10 with ext. Qed.
Lemma ext_string version : ext_parser (read_string buf version) (read_string (buf ++ more) version).
Proof. eauto 10 using ext_count with ext. Qed.
Lemma ext_uint w : ext_parser (read_uint buf w) (read_uint (buf ++ more) w).
Proof. eauto 10 with ext. Qed.
Lemma ext_int w : ext_parser (read_int buf w) (read_int (buf ++ more) w).
Proof. eauto 10 using ext_uint with ext. Qed.
Hint Resolve ext_count ext_string ext_uint ext_int : ext.

Lemma ext_fuel {A} (p : parser A) : ext_parser (fail OutOfFuel) p.
Proof. intros pos. by left. Qed.
Hint Resolve ext_fuel : ext.

Lemma ext_values fuel fuel' version :
  (fuel <= fuel')%nat ->
  (forall ty, ext_parser (read_value_typed can_reserve buf fuel version ty)
                         (read_value_typed can_reserve (buf ++ more) fuel' version ty)) /\
  (forall ty n, ext_parser (read_values can_reserve buf fuel version ty n)
                           (read_values can_reserve (buf ++ more) fuel' version ty n)).
Proof.
  revert fuel'. induction fuel as [|fuel IH]; intros [|fuel'] Hf; try lia; try (split; intros; apply ext_fuel).
  destruct (IH fuel') as [IHv IHs]; [lia|]. split.
  - intros ty. cbn [read_value_typed].
    repeat match goal with |- ext_parser (if ?b then _ else _) _ => destruct b end; eauto 8 with ext.
  - intros ty n. cbn [read_values]. destruct (n =? 0); [auto with ext|].
    apply ext_bind; [auto|intros v]. apply ext_bind; auto with ext.
Qed.

Lemma ext_loop {A} fuel fuel' (step step' : A -> parser A) n a :
  (fuel <= fuel')%nat -> (forall a, ext_parser (step a) (step' a)) ->
  ext_parser (loop fuel step n a) (loop fuel' step' n a).
Proof.
  intros Hf Hs. revert fuel' n a Hf. induction fuel as [|fuel IH]; intros [|fuel'] n a Hf; try lia; [apply ext_fuel..|].
  cbn [loop]. destruct (n =? 0); [auto with ext|]. apply ext_bind; [done|intros a']. apply IH. lia.
Qed.

Lemma ext_tables fuel fuel' version tc kc :
  (fuel <= fuel')%nat ->
  ext_parser (read_tables can_reserve buf fuel version tc kc) (read_tables can_reserve (buf ++ more) fuel' version tc kc).
Proof.
  intros Hf. unfold read_tables.
  apply ext_bind; [auto with ext|intros _]. apply ext_bind; [apply ext_loop; [done|]|intros m].
  - intros m. unfold read_kv, read_value. apply ext_bind; [auto with ext|intros key].
    apply ext_bind; [|auto with ext]. apply ext_bind; [auto with ext|intros ty].
    by apply ext_values.
  - apply ext_bind; [auto with ext|intros _]. apply ext_bind; [|auto with ext]. apply ext_loop; [done|]. intros t.
    unfold read_tensor. apply ext_bind; [auto with ext|intros nm]. apply ext_bind; [auto with ext|intros dims].
    apply ext_bind; [auto with ext|intros _]. apply ext_bind.
    + apply ext_loop; [done|]. intros sh. unfold read_dim. apply ext_bind; [|auto with ext]. destruct (version =? 1); auto with ext.
    + intros sh. apply ext_bind; [auto with ext|intros dt]. apply ext_bind; [auto with ext|intros off].
      destruct (ggml_tensor_bytes dt sh); auto with ext.
Qed.

Lemma ext_header fuel fuel' :
  (fuel <= fuel')%nat ->
  ext_parser (read_header can_reserve buf fuel) (read_header can_reserve (buf ++ more) fuel').
Proof.
  intros Hf. unfold read_header.
  apply ext_bind; [auto with ext|intros magic]. destruct (negb _); [auto with ext|].
  apply ext_bind; [auto with ext|intros version]. destruct (_ || _); [auto with ext|].
  apply ext_bind; [auto with ext|intros tensor_count]. apply ext_bind; [auto with ext|intros kv_count].
  apply ext_bind; [by apply ext_tables|]. intros [m t]. auto with ext.
Qed.
End extension.

(** ** What a parser establishes

    [wp E p pos Q]: from [pos] the parser ends in [Q], or fails with an error in [E]. *)
Section wp.
Context (E : perr -> Prop).

Definition wp {A} (p : parser A) (pos : N) (Q : A -> N -> Prop) : Prop :=
  match p pos with Ok (a, pos') => Q a pos' | Err e => E e end.

Lemma parser_wp_bind {A B} (p : parser A) (f : A -> parser B) pos Q :
  wp p pos (fun a pos' => wp (f a) pos' Q) -> wp (p ≫= f) pos Q.
Proof. unfold wp, mbind, parser_bind. by destruct (p pos) as [[a pos']|e]. Qed.

Lemma parser_wp_mono {A} (p : parser A) pos (Q Q' : A -> N -> Prop) :
  wp p pos Q -> (forall a pos', Q a pos' -> Q' a pos') -> wp p pos Q'.
Proof. unfold wp. destruct (p pos) as [[a pos']|e]; auto. Qed.

Lemma parser_wp_ret {A} (a : A) pos (Q : A -> N -> Prop) : Q a pos -> wp (mret a) pos Q.
Proof. done. Qed.

Ltac wp_use H := apply parser_wp_bind; eapply parser_wp_mono; [apply H|cbv beta].

Context (can_reserve : alloc -> N -> bool) (buf : list byte).
Hypothesis E_eof : E UnexpectedEof.
Hypothesis E_data : E InvalidData.
Hypothesis E_panic : forall k n, can_reserve k n = false -> E Panicked.

Abbreviation len := (N.of_nat (length buf)).

Lemma wp_bytes n pos Q :
  (pos <= len -> pos + n <= len -> Q (slice (N.to_nat pos) (N.to_nat n) buf) (pos + n)) -> wp (read_bytes buf n) pos Q.
Proof.
  intros H. unfold wp, read_bytes. destruct (checked_add usize_max pos n) as [p|] eqn:Hp; [|done].
  apply checked_add_Some in Hp as [-> _]. destruct (N.ltb_spec len (pos + n)); [done|]. apply H; lia.
Qed.

Lemma wp_uint w pos Q : (forall x, x < 256 ^ w -> pos + w <= len -> Q x (pos + w)) -> wp (read_uint buf w) pos Q.
Proof.
  intros H. unfold read_uint. apply parser_wp_bind, wp_bytes. intros Hp Hw. apply parser_wp_ret, H; [|done].
  pose proof (le_val_bound (slice (N.to_nat pos) (N.to_nat w) buf)) as Hb. eapply N.lt_le_trans; [exact Hb|].
  apply N.pow_le_mono_r; [lia|]. unfold slice. rewrite length_take. lia.
Qed.

Lemma wp_int w pos Q :
  0 < w -> (forall z, (z < 256 ^ Z.of_N w)%Z -> pos + w <= len -> Q z (pos + w)) -> wp (read_int buf w) pos Q.
Proof.
  intros Hw H. unfold read_int. apply parser_wp_bind, wp_uint. intros x Hx Hp. apply parser_wp_ret, H; [|done].
  unfold to_signed. assert (Z.of_N x < 256 ^ Z.of_N w)%Z by (rewrite <-(N2Z.inj_pow 256); lia).
  destruct (x <? _); [done|]. pose proof (Z.pow_pos_nonneg 2 (Z.of_N (8 * w))). lia.
Qed.

Lemma wp_count version pos Q :
  (forall n k, 4 <= k -> pos + k <= len -> Q n (pos + k)) -> wp (read_count buf version) pos Q.
Proof. intros H. unfold read_count. destruct (version =? 1); apply wp_uint; intros; apply H; lia. Qed.

Lemma wp_string version pos Q :
  (forall s k, 4 <= k -> pos + k <= len -> Q s (pos + k)) -> wp (read_string buf version) pos Q.
Proof.
  intros H. unfold read_string. apply parser_wp_bind, wp_count. intros n k Hk Hp. apply parser_wp_bind, wp_bytes.
  intros _ Hn. apply parser_wp_ret. rewrite <-N.add_assoc. apply H; lia.
Qed.

Lemma wp_reserve k n pos (Q : unit -> N -> Prop) : Q tt pos -> wp (reserve can_reserve k n) pos Q.
Proof. intros H. unfold reserve. destruct (can_reserve k n) eqn:Hk; [done|]. by eapply E_panic. Qed.

(** A value takes at least a byte, and its integers fit in 64 bits. *)
Definition value_ok (v : GgufValue) : Prop := forall n, as_u64 v = Some n -> n <= u64_max.

Lemma wp_values fuel version :
  (forall ty pos, (2 * N.to_nat (len - pos) + 2 <= fuel)%nat ->
     wp (read_value_typed can_reserve buf fuel version ty) pos (fun v pos' => pos + 1 <= pos' <= len /\ value_ok v)) /\
  (forall ty n pos, pos <= len -> (2 * N.to_nat (len - pos) + 3 <= fuel)%nat ->
     wp (read_values can_reserve buf fuel version ty n) pos (fun _ pos' => pos <= pos' <= len)).
Proof.
  induction fuel as [|fuel [IHv IHs]]; [split; intros; lia|]. split.
  - intros ty pos Hf. cbn [read_value_typed].
    repeat match goal with |- wp (if ?b then _ else _) _ _ => destruct b end; try done; apply parser_wp_bind;
      first [apply wp_int; [lia|] | apply wp_string | idtac]; intros;
      try (apply parser_wp_ret; split; [lia|intros m Hm; simpl in Hm; repeat case_match; simplify_eq; unfold u64_max; lia]).
    8: { apply wp_uint. intros inner _ Hp. apply parser_wp_bind, wp_count. intros n k Hk Hp'. apply parser_wp_bind, wp_reserve.
      wp_use IHs; [lia..|]. intros vs pos' Hv. apply parser_wp_ret. split; [lia|done]. }
    all: apply wp_uint; intros x Hx Hp; apply parser_wp_ret; split; [lia|intros m Hm; simplify_eq/=; unfold u64_max; lia].
  - intros ty n pos Hp Hf. cbn [read_values]. destruct (n =? 0); [apply parser_wp_ret; lia|].
    wp_use IHv; [lia|]. intros v pos' [Hv _]. wp_use IHs; [lia..|]. intros vs pos'' Hv'. apply parser_wp_ret. lia.
Qed.

(** A loop whose body keeps [I] and takes at least a byte. *)
Lemma wp_loop {A} (I : A -> Prop) (step : A -> parser A) fuel n a pos :
  (forall a pos, I a -> pos <= len -> wp (step a) pos (fun a' pos' => pos + 1 <= pos' <= len /\ I a')) ->
  I a -> pos <= len -> (N.to_nat (len - pos) + 1 <= fuel)%nat ->
  wp (loop fuel step n a) pos (fun a' pos' => pos <= pos' <= len /\ I a').
Proof.
  intros Hs. revert n a pos. induction fuel as [|fuel IH]; intros n a pos Ha Hp Hf; [lia|]. cbn [loop].
  destruct (n =? 0); [apply parser_wp_ret; split; [lia|done]|]. wp_use Hs; [done..|].
  intros a' pos' [Hp' Ha']. eapply parser_wp_mono; [apply IH; [done|lia..]|]. cbv beta. intros a'' pos'' [? ?]. split; [lia|done].
Qed.

Definition metadata_ok (m : gmap (list byte) GgufValue) : Prop := map_Forall (fun _ => value_ok) m.
Definition tensors_ok (m : gmap (list byte) GgufTensorInfo) : Prop :=
  map_Forall (fun n t => name t = n /\ ggml_tensor_bytes (dtype t) (shape t) = Some (byte_len t)) m.

Lemma wp_kv fuel version m pos :
  (2 * N.to_nat (len - pos) + 4 <= fuel)%nat -> metadata_ok m ->
  wp (read_kv can_reserve buf fuel version m) pos (fun m' pos' => pos + 1 <= pos' <= len /\ metadata_ok m').
Proof.
  intros Hf Hm. unfold read_kv, read_value. apply parser_wp_bind, wp_string. intros key k Hk Hp.
  apply parser_wp_bind, parser_wp_bind, wp_uint. intros ty _ Hp'.
  eapply parser_wp_mono; [apply wp_values; lia|cbv beta]. intros v pos' [Hv Hok]. apply parser_wp_ret. split; [lia|].
  by apply map_Forall_insert_2.
Qed.

Lemma wp_tensor fuel version m pos :
  (2 * N.to_nat (len - pos) + 4 <= fuel)%nat -> tensors_ok m ->
  wp (read_tensor can_reserve buf fuel version m) pos (fun m' pos' => pos + 1 <= pos' <= len /\ tensors_ok m').
Proof.
  intros Hf Hm. unfold read_tensor. apply parser_wp_bind, wp_string. intros nm k Hk Hp.
  apply parser_wp_bind, wp_uint. intros n_dims _ Hp'. apply parser_wp_bind, wp_reserve.
  wp_use (wp_loop (fun _ : list N => True)); [|done|lia..|].
  - intros sh p _ Hp''. unfold read_dim. apply parser_wp_bind. destruct (version =? 1); apply wp_uint; intros; apply parser_wp_ret; split; lia || done.
  - intros sh p [Hp'' _]. apply parser_wp_bind, wp_uint. intros dt _ Hd. apply parser_wp_bind, wp_uint. intros off _ Ho.
    destruct (ggml_tensor_bytes dt sh) as [l|] eqn:Hl; [|done]. apply parser_wp_ret. split; [lia|]. by apply map_Forall_insert_2.
Qed.

Lemma wp_header fuel :
  (2 * length buf + 4 <= fuel)%nat ->
  wp (read_header can_reserve buf fuel) 0 (fun '(version, m, t) pos' =>
    1 <= version <= 3 /\ pos' <= len /\ metadata_ok m /\ tensors_ok t).
Proof.
  intros Hf. unfold read_header. apply parser_wp_bind, wp_bytes. intros _ H4. destruct (negb _); [done|].
  apply parser_wp_bind, wp_uint. intros version _ Hp. case_N; try done. simpl. apply parser_wp_bind, wp_count. intros tc k Hk Hp1.
  apply parser_wp_bind, wp_count. intros kc k' Hk' Hp2. apply parser_wp_bind. unfold read_tables. apply parser_wp_bind, wp_reserve.
  wp_use (wp_loop metadata_ok); [|apply map_Forall_empty|lia..|].
  { intros m p Hm Hp3. apply wp_kv; [lia|done]. }
  intros m p [Hp3 Hm]. apply parser_wp_bind, wp_reserve. wp_use (wp_loop tensors_ok); [|apply map_Forall_empty|lia..|].
  { intros t p' Ht Hp4. apply wp_tensor; [lia|done]. }
  intros t p' [Hp4 Ht]. apply parser_wp_ret. split_and!; [lia..|done|done].
Qed.
End wp.

Lemma parse_wp can_reserve bs :
  match read_header can_reserve bs (fuel_for bs) 0 with
  | Ok (version, m, t, pos) => 1 <= version <= 3 /\ pos <= N.of_nat (length bs) /\ metadata_ok m /\ tensors_ok t
  | Err e => e <> OutOfFuel /\ (e = Panicked -> exists k n, can_reserve k n = false)
  end.
Proof.
  pose proof (wp_header (fun e => e <> OutOfFuel /\ (e = Panicked -> exists k n, can_reserve k n = false)) can_reserve bs) as H.
  unfold wp in H. specialize (H ltac:(split; done) ltac:(split; done)
    ltac:(intros k n Hk; split; [done|intros _; by exists k, n]) (fuel_for bs) ltac:(unfold fuel_for; lia)).
  destruct (read_header _ _ _ _) as [[[[version m] t] pos]|e]; exact H.
Qed.

Lemma alignment_bounds m : metadata_ok m -> 1 <= alignment_of m <= u64_max.
Proof.
  intros Hm. unfold alignment_of. set (key := String.list_byte_of_string _).
  destruct (m !! key) as [v|] eqn:Hv; [|done]. cbn [mbind option_bind].
  destruct (as_u64 v) as [n|] eqn:Hn; [|done]. pose proof (Hm _ _ Hv n Hn). simpl. unfold u64_max in *. lia.
Qed.

(** The data section starts at the first multiple of the alignment, without wrapping. *)
Lemma data_start_aligned a pos :
  1 <= a <= u64_max -> pos <= isize_max ->
  data_start a pos mod a = 0 /\ pos <= data_start a pos < pos + a.
Proof.
  intros Ha Hp. pose proof (pad_to_lt a pos ltac:(lia)). pose proof (pad_to_aligned a pos ltac:(lia)) as Hal.
  unfold data_start. assert (Hpad : (a - pos mod a) mod a = pad_to a pos).
  { unfold pad_to. by destruct (N.ltb_spec 0 a); [|lia]. }
  rewrite Hpad. assert (pos + pad_to a pos <= usize_max); [|rewrite wrap_add_small by done; split; [done|lia]].
  unfold usize_max, isize_max, u64_max in *. destruct (N.lt_ge_cases pos a); [|lia].
  pose proof (N.div_mod' (pos + pad_to a pos) a). rewrite Hal in *.
  assert ((pos + pad_to a pos) / a <= 1) by (apply N.lt_succ_r, N.Div0.div_lt_upper_bound; lia). nia.
Qed.

(** C35. Parsing ends on every file: it never runs out, and it panics only when the
    allocator refuses a [with_capacity].  What it accepts has a supported version, the
    tables the header reader returned, a data section inside the file that starts at the
    first multiple of the alignment at or after the position where the header reader
    stopped, and tensors under their own names with the size of their type and shape.
    (Arrays in arrays recurse; the depth of the stack is not modelled.) *)
Theorem parse_sound can_reserve (bs : list byte) (Hlen : N.of_nat (length bs) <= isize_max) :
  match parse can_reserve bs with
  | Ok f =>
      bytes f = bs /\ 1 <= version f <= 3 /\
      tensor_data_start f <= N.of_nat (length bs) /\
      (exists header_end,
         read_header can_reserve bs (fuel_for bs) 0 = Ok (version f, metadata f, tensors f, header_end) /\
         tensor_data_start f mod alignment_of (metadata f) = 0 /\
         header_end <= tensor_data_start f < header_end + alignment_of (metadata f)) /\
      forall n t, tensors f !! n = Some t -> name t = n /\ ggml_tensor_bytes (dtype t) (shape t) = Some (byte_len t)
  | Err e => e <> OutOfFuel /\ (e = Panicked -> exists k n, can_reserve k n = false)
  end.
Proof.
  unfold parse, parse_with. pose proof (parse_wp can_reserve bs) as H.
  destruct (read_header _ _ _ _) as [[[[version m] t] pos]|e]; [|exact H].
  destruct H as (Hv & Hp & Hm & Ht).
  destruct (data_start_aligned (alignment_of m) pos) as [Ha Hs]; [by apply alignment_bounds|lia|].
  destruct (N.ltb_spec (N.of_nat (length bs)) (data_start (alignment_of m) pos)); [done|].
  cbn [bytes Gguf.version tensor_data_start metadata tensors]. split_and!; try done; try lia. by exists pos.
Qed.

(** ** The streaming reader agrees with the parser *)

(** What a prefix of a file parses to, its file parses to, unless it was too short. *)
Lemma parse_prefix can_reserve bs more :
  match parse can_reserve bs with
  | Ok f => exists f', parse can_reserve (bs ++ more) = Ok f' /\ header_of f' = header_of f
  | Err UnexpectedEof => True
  | Err e => parse can_reserve (bs ++ more) = Err e
  end.
Proof.
  pose proof (ext_header can_reserve bs more (fun e => e = OutOfFuel \/ e = UnexpectedEof) ltac:(by left) ltac:(left; by right)
    (fuel_for bs) (fuel_for (bs ++ more)) ltac:(unfold fuel_for; rewrite length_app; lia) 0) as H.
  pose proof (parse_wp can_reserve bs) as Hw. unfold parse, parse_with, ext in *.
  destruct (read_header can_reserve bs (fuel_for bs) 0) as [[[[version m] t] pos]|e].
  - destruct (N.ltb_spec (N.of_nat (length bs)) (data_start (alignment_of m) pos)); [done|]. rewrite H.
    destruct (N.ltb_spec (N.of_nat (length (bs ++ more))) (data_start (alignment_of m) pos)) as [Hl|].
    { rewrite length_app in Hl. lia. } by eexists.
  - destruct Hw as [Hw _]. destruct H as [[->| ->]| ->]; [done..|]. by destruct e.
Qed.

Lemma stream_loop_spec can_reserve fuel reads pre rest :
  N.of_nat (length pre + length rest) <= HEADER_CAP -> (length rest <= fuel)%nat -> rest <> [] ->
  stream_loop can_reserve fuel reads pre rest =
    match parse can_reserve (pre ++ rest) with Ok f => Ok (header_of f) | Err e => Err e end.
Proof.
  revert reads pre rest. induction fuel as [|fuel IH]; intros reads pre rest Hc Hf Hne.
  { destruct rest; [done|simpl in Hf; lia]. }
  destruct rest as [|b rest']; [done|]. set (rest := b :: rest') in *. cbn [stream_loop]. subst rest. cbv match.
  set (rest := b :: rest') in *. set (n := N.to_nat _). assert (1 <= n)%nat by (unfold n, CHUNK; lia).
  replace (pre ++ rest) with ((pre ++ take n rest) ++ drop n rest) by (by rewrite <-app_assoc, take_drop).
  unfold try_parse_header.
  pose proof (parse_prefix can_reserve (pre ++ take n rest) (drop n rest)) as Hp.
  destruct (parse can_reserve (pre ++ take n rest)) as [f|[]] eqn:Hpre.
  - destruct Hp as (f' & -> & ->). done.
  - destruct (N.ltb_spec HEADER_CAP (N.of_nat (length (pre ++ take n rest)))) as [Hl|].
    { rewrite length_app, length_take in Hl. lia. }
    destruct (decide (drop n rest = [])) as [Hd|Hd].
    + rewrite Hd, app_nil_r, Hpre. by destruct fuel.
    + apply IH; [|rewrite length_drop; lia|done]. rewrite length_app, <-Nat.add_assoc, <-length_app, take_drop. lia.
  - by rewrite Hp.
  - by rewrite Hp.
  - by rewrite Hp.
Qed.

Lemma read_bytes_at buf n pos :
  pos + n <= 24 ->
  read_bytes buf n pos = if N.of_nat (length buf) <? pos + n then Err UnexpectedEof
                         else Ok (slice (N.to_nat pos) (N.to_nat n) buf, pos + n).
Proof.
  intros H. unfold read_bytes. destruct (checked_add usize_max pos n) as [p|] eqn:Hp.
  - by apply checked_add_Some in Hp as [-> _].
  - apply checked_add_None in Hp. unfold usize_max, u64_max in Hp. lia.
Qed.

Lemma loop_at_end {A} fuel (step : A -> parser A) n a pos :
  (forall a, step a pos = Err UnexpectedEof) ->
  loop (S fuel) step n a pos = if n =? 0 then Ok (a, pos) else Err UnexpectedEof.
Proof. intros H. cbn [loop]. destruct (n =? 0); [done|]. unfold mbind, parser_bind. by rewrite H. Qed.

Lemma bind_at {A B} (p : parser A) (f : A -> parser B) pos :
  (p ≫= f) pos = match p pos with Ok (a, pos') => f a pos' | Err e => Err e end.
Proof. done. Qed.

Lemma read_uint_at buf w pos :
  pos + w <= 24 ->
  read_uint buf w pos = if N.of_nat (length buf) <? pos + w then Err UnexpectedEof
                        else Ok (le_val (slice (N.to_nat pos) (N.to_nat w) buf), pos + w).
Proof. intros H. unfold read_uint. rewrite bind_at, read_bytes_at by done. by destruct (_ <? _). Qed.

Lemma read_string_at_end buf version :
  read_string buf version (N.of_nat (length buf)) = Err UnexpectedEof.
Proof.
  assert (H : forall w, 0 < w -> read_uint buf w (N.of_nat (length buf)) = Err UnexpectedEof).
  { intros w Hw. unfold read_uint. rewrite bind_at. unfold read_bytes.
    destruct (checked_add usize_max _ _) as [p|] eqn:Hp; [|done]. apply checked_add_Some in Hp as [-> _].
    by destruct (N.ltb_spec (N.of_nat (length buf)) (N.of_nat (length buf) + w)); [|lia]. }
  unfold read_string, read_count. rewrite bind_at. by destruct (version =? 1); rewrite H.
Qed.

(** The preamble: what [open] checks before its loop is what the parser checks first. *)
Lemma header_preamble can_reserve (file : list byte) fuel :
  let version := le_val (slice 4 4 file) in
  let w := if version =? 1 then 4 else 8 in
  read_header can_reserve file fuel 0 =
    if N.of_nat (length file) <? 4 then Err UnexpectedEof else
    if negb (bool_decide (slice 0 4 file = GGUF_MAGIC)) then Err InvalidData else
    if N.of_nat (length file) <? 8 then Err UnexpectedEof else
    if (version =? 0) || (3 <? version) then Err InvalidData else
    if N.of_nat (length file) <? 8 + w + w then Err UnexpectedEof else
    match read_tables can_reserve file fuel version (le_val (slice 8 (N.to_nat w) file))
            (le_val (slice (N.to_nat (8 + w)) (N.to_nat w) file)) (8 + w + w) with
    | Ok (m, t, pos) => Ok (version, m, t, pos)
    | Err e => Err e
    end.
Proof.
  intros version w. unfold read_header.
  rewrite bind_at, read_bytes_at by done. change (0 + 4) with 4. destruct (_ <? 4); [done|]. cbv iota beta.
  change (slice (N.to_nat 0) (N.to_nat 4) file) with (slice 0 4 file). destruct (negb _); [done|].
  rewrite bind_at, read_uint_at by done. change (4 + 4) with 8. destruct (_ <? 8); [done|]. cbv iota beta.
  change (slice (N.to_nat 4) (N.to_nat 4) file) with (slice 4 4 file). fold version.
  destruct (_ || _); [done|]. assert (Hw : w <= 8) by (unfold w; case_match; done).
  assert (Hc : read_count file version = read_uint file w) by (unfold read_count, w; by case_match).
  rewrite Hc, bind_at, read_uint_at by lia. destruct (N.ltb_spec (N.of_nat (length file)) (8 + w)).
  { destruct (N.ltb_spec (N.of_nat (length file)) (8 + w + w)); [done|lia]. }
  rewrite bind_at, read_uint_at by lia. destruct (_ <? 8 + w + w); [done|]. rewrite bind_at.
  by destruct (read_tables _ _ _ _ _ _ _) as [[[m t] pos]|e].
Qed.

Lemma tables_at_end can_reserve buf fuel version tc kc :
  match read_tables can_reserve buf (S fuel) version tc kc (N.of_nat (length buf)) with
  | Ok (m, t, pos) => m = ∅ /\ pos = N.of_nat (length buf)
  | Err e => e = UnexpectedEof \/ e = Panicked
  end.
Proof.
  unfold read_tables, reserve. rewrite bind_at. destruct (can_reserve MetadataMap kc); [|by right].
  cbn [mret parser_ret]. rewrite bind_at, loop_at_end.
  - destruct (kc =? 0); [|by left]. rewrite bind_at. destruct (can_reserve TensorMap tc); [|by right].
    cbn [mret parser_ret]. rewrite bind_at, loop_at_end; [by destruct (tc =? 0); [|left]|].
    intros t. unfold read_tensor. by rewrite bind_at, read_string_at_end.
  - intros m. unfold read_kv. by rewrite bind_at, read_string_at_end.
Qed.

(** A file that ends with its preamble is too short. *)
Lemma preamble_only can_reserve (file : list byte) :
  let version := le_val (slice 4 4 file) in
  length file = (if (version =? 1)%N then 16%nat else 24%nat) -> slice 0 4 file = GGUF_MAGIC ->
  (version =? 0) || (3 <? version) = false -> parse can_reserve file <> Err Panicked ->
  parse can_reserve file = Err UnexpectedEof.
Proof.
  intros version Hl Hm Hv Hok. unfold parse, parse_with in *. rewrite header_preamble in *. fold version in Hok |- *.
  rewrite Hm, bool_decide_eq_true_2, Hv in * by done. cbn [negb] in *.
  set (w := if (version =? 1) then 4 else 8) in *.
  assert (Hw : N.of_nat (length file) = 8 + w + w) by (rewrite Hl; unfold w; by destruct (version =? 1)).
  rewrite Hw in *. destruct (N.ltb_spec (8 + w + w) 4); [lia|]. destruct (N.ltb_spec (8 + w + w) 8); [lia|].
  rewrite N.ltb_irrefl in *. rewrite <-Hw in *. unfold fuel_for in *. rewrite Nat.add_comm in *. cbn [Nat.add] in *.
  match goal with |- context [read_tables ?a ?b (S ?f) ?v ?t ?k ?p] => pose proof (tables_at_end a b f v t k) as Ht end.
  destruct (read_tables _ _ _ _ _ _ _) as [[[m t] pos]|e]; [|destruct Ht as [->| ->]; done].
  destruct Ht as [-> ->]. rewrite Hw. change (alignment_of ∅) with 32. unfold w. by destruct (version =? 1).
Qed.

Lemma stream_open_spec can_reserve reads (file : list byte) :
  N.of_nat (length file) <= HEADER_CAP -> parse can_reserve file <> Err Panicked ->
  stream_open can_reserve reads file =
    match parse can_reserve file with Ok f => Ok (header_of f) | Err e => Err e end.
Proof.
  intros Hcap Hok.
  unfold stream_open. set (version := le_val (slice 4 4 file)). cbv zeta.
  set (preamble := if version =? 1 then 16%nat else 24%nat).
  assert (Hpre : (length file <? preamble)%nat = (N.of_nat (length file) <? 8 + (if version =? 1 then 4 else 8) + (if version =? 1 then 4 else 8))).
  { unfold preamble. destruct (version =? 1), (Nat.ltb_spec (length file) 16), (Nat.ltb_spec (length file) 24); case_N; try done; lia. }
  rewrite Hpre. destruct (decide (length file = preamble /\ slice 0 4 file = GGUF_MAGIC /\ (version =? 0) || (3 <? version) = false))
    as [(Hl & Hm & Hv)|Hne].
  - rewrite (preamble_only can_reserve file) by done. rewrite <-Hpre, Hv, Hm, Hl, Nat.ltb_irrefl, drop_ge by lia.
    unfold preamble. by destruct (version =? 1).
  - destruct (parse can_reserve file) as [f|e] eqn:Hp.
    all: pose proof Hp as Hp'; unfold parse, parse_with in Hp'; rewrite header_preamble in Hp'; fold version in Hp'; revert Hp'.
    all: destruct (_ <? 4); [intros Hp'; by simplify_eq|]; destruct (bool_decide_reflect (slice 0 4 file = GGUF_MAGIC));
      [|intros Hp'; by simplify_eq/=]; cbn [negb]; destruct (_ <? 8); [intros Hp'; by simplify_eq|];
      destruct (_ || _) eqn:Hv; [intros Hp'; by simplify_eq|]; rewrite <-Hpre;
      destruct (Nat.ltb_spec (length file) preamble); [intros Hp'; by simplify_eq|]; intros _.
    all: assert (length file <> preamble) by naive_solver.
    all: rewrite stream_loop_spec; rewrite ?length_take, ?length_drop, ?take_drop, ?Hp; try done; try lia.
    all: intros Hd; apply (f_equal length) in Hd; rewrite length_drop in Hd; simpl in Hd; lia.
Qed.

(** C36. The streaming reader gives, for every file within the header cap on which the
    parser of the whole file does not panic (no [with_capacity] it reaches is refused) and
    whatever sizes the reads return, the header that parser gives, or its error; and a
    tensor read from the file is the parser's slice of it, except that a range past the
    end is [None] of one and an error of the other.  The side condition is needed: see
    [preamble_panics_only_eagerly]. *)
Theorem streaming_equals_eager can_reserve reads (file : list byte)
    (Hcap : N.of_nat (length file) <= HEADER_CAP) (Hok : parse can_reserve file <> Err Panicked) :
  match parse can_reserve file with
  | Err e => stream_open can_reserve reads file = Err e
  | Ok f =>
      stream_open can_reserve reads file = Ok (header_of f) /\
      forall n, read_tensor_data (header_of f) file n =
        match tensors f !! n with
        | None => Ok None
        | Some _ => match tensor_data f n with Some d => Ok (Some d) | None => Err InvalidData end
        end
  end.
Proof.
  rewrite stream_open_spec by done. destruct (parse can_reserve file) as [f|e] eqn:Hp; [|done]. split; [done|]. intros n.
  assert (Hb : bytes f = file).
  { revert Hp. unfold parse, parse_with. repeat case_match; intros; by simplify_eq. }
  unfold read_tensor_data, tensor_data. cbn [h_tensors header_of h_data_start].
  destruct (tensors f !! n) as [info|]; [|done]. cbn [mbind option_bind].
  unfold usize_max. destruct (checked_add u64_max (tensor_data_start f) (offset info)) as [start|]; [|done]. cbn [mbind option_bind].
  destruct (checked_add u64_max start (byte_len info)) as [e|] eqn:He; [|done]. cbn [mbind option_bind].
  apply checked_add_Some in He as [-> _]. rewrite Hb. destruct (_ <? _); [done|]. by rewrite N.add_comm, N.add_sub.
Qed.

(** ** A small file, and two that the format checks do not stop *)

Module Witness.
Definition text (s : String.string) : list byte := le_bytes 8 (N.of_nat (String.length s)) ++ String.list_byte_of_string s.
(** Version 3, one tensor [w] of two [f32]s, one metadata entry. *)
Definition header_bytes (kvs : N) : list byte :=
  GGUF_MAGIC ++ le_bytes 4 3 ++ le_bytes 8 1 ++ le_bytes 8 kvs ++
  text "general.alignment" ++ le_bytes 4 UINT32 ++ le_bytes 4 64 ++
  text "w" ++ le_bytes 4 1 ++ le_bytes 8 2 ++ le_bytes 4 ggml_dtype.F32 ++ le_bytes 8 0.
Definition body : list byte := [x01; x02; x03; x04; x05; x06; x07; x08].
Definition file : list byte := header_bytes 1 ++ repeat x00 38 ++ body.
(** [with_capacity] returns for what could be held in a [Vec]. *)
Definition heap (k : alloc) (n : N) : bool := n * 64 <=? isize_max.
Definition w : list byte := String.list_byte_of_string "w".

Example parses : match parse heap file with Ok f => tensor_data f w = Some body | Err _ => False end.
Proof. vm_compute. reflexivity. Qed.

Lemma within_cap : N.of_nat (length file) <= HEADER_CAP.
Proof. by vm_compute. Qed.

Lemma not_panicked {A} (r : result perr A) :
  (match r with Err Panicked => false | _ => true end) = true -> r <> Err Panicked.
Proof. by intros H ->. Qed.

Lemma no_panic : parse heap file <> Err Panicked.
Proof. apply not_panicked. vm_compute. reflexivity. Qed.

(** A count of 2^64 - 1 metadata entries in a well-formed header: the table is reserved
    before any entry is read, and the process panics, in either reader, where the rest of
    the parser would have found that the file ends. *)
Example declared_count_panics :
  parse heap (header_bytes u64_max) = Err Panicked /\
  stream_open heap [] (header_bytes u64_max) = Err Panicked /\
  parse (fun _ _ => true) (header_bytes u64_max) = Err UnexpectedEof.
Proof. vm_compute. done. Qed.

(** The two readers differ on a file that ends with its preamble and declares 2^64 - 1
    metadata entries: the parser of the whole file panics, the streaming reader finds the
    end of the file before it parses anything. *)
Example preamble_panics_only_eagerly :
  let preamble := GGUF_MAGIC ++ le_bytes 4 3 ++ le_bytes 8 0 ++ le_bytes 8 u64_max in
  parse heap preamble = Err Panicked /\ stream_open heap [] preamble = Err UnexpectedEof.
Proof. vm_compute. done. Qed.

(** The number of elements is a wrapping product: a tensor of 2^64 elements has no
    bytes, and every file holds its data. *)
Example wrapping_shape_has_no_bytes :
  ggml_tensor_bytes ggml_dtype.F32 [2 ^ 32; 2 ^ 32] = Some 0 /\
  ggml_tensor_bytes ggml_dtype.F32 [2 ^ 32; 2 ^ 31] = None.
Proof. vm_compute. done. Qed.
End Witness.

Lemma parse_sound_witness :
  N.of_nat (length Witness.file) <= isize_max /\
  match parse Witness.heap Witness.file with
  | Ok f =>
      exists header_end,
        read_header Witness.heap Witness.file (fuel_for Witness.file) 0 = Ok (version f, metadata f, tensors f, header_end) /\
        tensor_data_start f mod alignment_of (metadata f) = 0 /\
        header_end <= tensor_data_start f < header_end + alignment_of (metadata f)
  | Err e => e <> OutOfFuel
  end /\
  match parse Witness.heap Witness.file with Ok f => tensor_data_start f = 128 | Err _ => False end.
Proof.
  split; [by vm_compute|]. split; [|vm_compute; reflexivity].
  pose proof (parse_sound Witness.heap Witness.file ltac:(by vm_compute)) as H.
  destruct (parse Witness.heap Witness.file); [apply H|by destruct H].
Defined.

Lemma agreement_reads (r : result perr GgufFile) (opened : result perr header) (file n d : list byte) :
  match r with
  | Err e => opened = Err e
  | Ok f =>
      opened = Ok (header_of f) /\
      forall n, read_tensor_data (header_of f) file n =
        match tensors f !! n with
        | None => Ok None
        | Some _ => match tensor_data f n with Some d => Ok (Some d) | None => Err InvalidData end
        end
  end ->
  match r with Ok f => tensor_data f n = Some d | Err _ => False end ->
  exists h, opened = Ok h /\ read_tensor_data h file n = Ok (Some d).
Proof.
  destruct r as [f|e]; [|done]. intros [H Hr] Hp. exists (header_of f). split; [done|]. rewrite Hr, Hp.
  unfold tensor_data in Hp. by destruct (tensors f !! n).
Qed.

Lemma streaming_equals_eager_witness :
  exists h, stream_open Witness.heap [30; 1; 7] Witness.file = Ok h /\
            read_tensor_data h Witness.file Witness.w = Ok (Some Witness.body).
Proof.
  exact (agreement_reads (parse Witness.heap Witness.file) (stream_open Witness.heap [30; 1; 7] Witness.file)
    Witness.file Witness.w Witness.body
    (streaming_equals_eager Witness.heap [30; 1; 7] Witness.file Witness.within_cap Witness.no_panic) Witness.parses).
Defined.
