(* ===== verification/GgufShards.v ===== *)
(** Shard sets of GGUF files ([src/rust-engine/src/gguf.rs]): the file-name convention
    [<prefix>-<index>-of-<count>.gguf], opening every shard, validating that they agree,
    and the unified tensor table that reads through to the owning shard.

    Paths are file names in one directory; [fs] gives the files.  Opening a file is the
    streaming reader of Gguf.v, with [reads] the sizes its reads return. *)
From S2P Require Import Prelude Layout Utf8 Gguf.
From stdpp Require Import strings.
Local Open Scope N_scope.

(** ** File names *)

Inductive serr := NotFound | InvalidInput | Io (e : perr).

(** [parent] is the directory all the names are in. *)
Record GgufShardSpec := {
  prefix : list byte;
  count : N;
  index_width : nat;
  count_width : nat;
}.

Abbreviation str := String.list_byte_of_string.

(** [str::strip_suffix], and [str::rsplit_once] at the last occurrence of the separator. *)
Definition strip_suffix (suf s : list byte) : option (list byte) :=
  let n := (length s - length suf)%nat in
  if bool_decide (drop n s = suf /\ (length suf <= length s)%nat) then Some (take n s) else None.
Fixpoint rsplit_once (sep s : list byte) : option (list byte * list byte) :=
  match s with
  | [] => if bool_decide (sep = []) then Some ([], []) else None
  | c :: s' =>
      match rsplit_once sep s' with
      | Some (a, b) => Some (c :: a, b)
      | None => if bool_decide (take (length sep) s = sep) then Some ([], drop (length sep) s) else None
      end
  end.

Definition is_ascii_digit (b : byte) : bool := (48 <=? Byte.to_N b) && (Byte.to_N b <=? 57).
Definition digit_val (b : byte) : N := Byte.to_N b - 48.
(** [str::parse::<usize>] of digits; [None] is out of range. *)
Definition digits_val (s : list byte) : N := foldl (fun n b => n * 10 + digit_val b) 0 s.
Definition parse_usize (s : list byte) : option N :=
  if digits_val s <=? usize_max then Some (digits_val s) else None.

(** [format!("{n:0width$}")]. *)
Fixpoint digits (w : nat) (n : N) : list byte :=
  match w with
  | O => []
  | S w' => digits w' (n / 10) ++ [byte_of_N (48 + n mod 10)]
  end.
Fixpoint num_digits_aux (fuel : nat) (n : N) : nat :=
  match fuel with
  | O => 1
  | S fuel => if n <? 10 then 1%nat else S (num_digits_aux fuel (n / 10))
  end.
(** A [usize] has at most twenty digits. *)
Definition num_digits (n : N) : nat := num_digits_aux 20 n.
Definition zero_padded (width : nat) (n : N) : list byte := digits (Nat.max width (num_digits n)) n.

Definition path_for (s : GgufShardSpec) (shard_number : N) : list byte :=
  prefix s ++ str "-" ++ zero_padded (index_width s) shard_number ++ str "-of-" ++
  zero_padded (count_width s) (count s) ++ str ".gguf".

(** [parse_shard_filename]; [Ok None] is a name of another form. *)
Definition parse_shard_filename (file_name : list byte) : result serr (option GgufShardSpec) :=
  match strip_suffix (str ".gguf") file_name with
  | None => Ok None
  | Some stem =>
  match rsplit_once (str "-of-") stem with
  | None => Ok None
  | Some (before_count, count_str) =>
  match rsplit_once (str "-") before_count with
  | None => Ok None
  | Some (pre, index_str) =>
      if bool_decide (pre = []) || bool_decide (index_str = []) || bool_decide (count_str = [])
         || negb (forallb is_ascii_digit index_str) || negb (forallb is_ascii_digit count_str)
      then Ok None else
      match parse_usize index_str with
      | None => Err InvalidInput
      | Some index =>
      match parse_usize count_str with
      | None => Err InvalidInput
      | Some count =>
          if (count =? 0) || (index =? 0) || (count <? index) then Err InvalidInput else
          Ok (Some {| prefix := pre; count := count;
                      index_width := length index_str; count_width := length count_str |})
      end end
  end end end.

(** ** Opening and validating the shards *)

Definition io {A} (r : result perr A) : result serr A := match r with Ok a => Ok a | Err e => Err (Io e) end.

Definition metadata_u64 (m : gmap (list byte) GgufValue) (key : list byte) : result serr (option N) :=
  match m !! key with
  | None => Ok None
  | Some v => match as_u64 v with Some n => Ok (Some n) | None => Err (Io InvalidData) end
  end.
Definition metadata_str (m : gmap (list byte) GgufValue) (key : list byte) : result serr (option (list byte)) :=
  match m !! key with
  | None => Ok None
  | Some v => match as_str v with Some s => Ok (Some s) | None => Err (Io InvalidData) end
  end.

(** [GgufStreamReader]: the parsed header and the open file. *)
Definition reader : Type := header * list byte.

(** The body of [validate_shards]'s loop for the shard at [idx]. *)
Definition validate_shard (expected_version : N) (expected_arch : list byte) (expected_count : N)
    (idx : nat) (r : reader) : result serr unit :=
  let m := h_metadata (fst r) in
  if negb (h_version (fst r) =? expected_version) then Err (Io InvalidData) else
  arch ← metadata_str m (str "general.architecture");
  _ ← match arch with
      | Some arch => if bool_decide (arch = expected_arch) then Ok tt else Err (Io InvalidData)
      | None => if (idx =? 0)%nat then Err (Io InvalidData) else Ok tt
      end;
  split_no ← metadata_u64 m (str "split.no");
  _ ← match split_no with
      | Some n => if n =? N.of_nat idx then Ok tt else Err (Io InvalidData)
      | None => Ok tt
      end;
  split_count ← metadata_u64 m (str "split.count");
  match split_count with
  | Some n => if n =? expected_count then Ok tt else Err (Io InvalidData)
  | None => Ok tt
  end.

(** [for (idx, reader) in readers.iter().enumerate()]. *)
Fixpoint for_each (f : nat -> reader -> result serr unit) (idx : nat) (rs : list reader) : result serr unit :=
  match rs with [] => Ok tt | r :: rs => _ ← f idx r; for_each f (S idx) rs end.

Definition validate_shards (readers : list reader) (expected_count : N) : result serr unit :=
  match readers with
  | [] => Err (Io InvalidData)
  | r0 :: _ =>
      arch ← metadata_str (h_metadata (fst r0)) (str "general.architecture");
      match arch with
      | None => Err (Io InvalidData)
      | Some arch => for_each (validate_shard (h_version (fst r0)) arch expected_count) 0 readers
      end
  end.

Fixpoint declared_from (declared : option N) (readers : list reader) : result serr (option N) :=
  match readers with
  | [] => Ok declared
  | r :: rs =>
      count ← metadata_u64 (h_metadata (fst r)) (str "split.tensors.count");
      match count, declared with
      | Some c, Some previous => if previous =? c then declared_from declared rs else Err (Io InvalidData)
      | Some c, None => declared_from (Some c) rs
      | None, _ => declared_from declared rs
      end
  end.
Definition declared_split_tensor_count (readers : list reader) : result serr (option N) := declared_from None readers.

(** The unified table: tensors and their owners. *)
Definition table : Type := gmap (list byte) GgufTensorInfo * gmap (list byte) nat.

Definition add_tensor (owner : nat) (name : list byte) (info : GgufTensorInfo) (t : table) : result serr table :=
  match snd t !! name with
  | Some _ => Err (Io InvalidData)
  | None => Ok (<[name := info]> (fst t), <[name := owner]> (snd t))
  end.
(** The loop over one reader's tensors. *)
Fixpoint add_tensors (owner : nat) (l : list (list byte * GgufTensorInfo)) (t : table) : result serr table :=
  match l with
  | [] => Ok t
  | (name, info) :: l => t ← add_tensor owner name info t; add_tensors owner l t
  end.
Fixpoint merge (owner : nat) (readers : list reader) (t : table) : result serr table :=
  match readers with
  | [] => Ok t
  | r :: rs => t ← add_tensors owner (map_to_list (h_tensors (fst r))) t; merge (S owner) rs t
  end.

Record GgufShardSet := {
  readers : list reader;
  set_metadata : gmap (list byte) GgufValue;
  set_tensors : gmap (list byte) GgufTensorInfo;
  owners : gmap (list byte) nat;
}.

Section open.
Context (can_reserve : alloc -> N -> bool) (reads : list N) (fs : list byte -> option (list byte)).

(** [for shard_number in 1..=spec.count]; [n] shards are left. *)
Fixpoint open_readers (spec : GgufShardSpec) (n : nat) (shard_number : N) : result serr (list reader) :=
  match n with
  | O => Ok []
  | S n =>
      match fs (path_for spec shard_number) with
      | None => Err NotFound
      | Some file =>
          h ← io (stream_open can_reserve reads file);
          rs ← open_readers spec n (shard_number + 1);
          Ok ((h, file) :: rs)
      end
  end.

Definition open_from_spec (spec : GgufShardSpec) : result serr GgufShardSet :=
  if negb (can_reserve ReaderVec (count spec)) then Err (Io Panicked) else
  readers ← open_readers spec (N.to_nat (count spec)) 1;
  _ ← validate_shards readers (count spec);
  '(tensors, owners) ← merge 0 readers (∅, ∅);
  declared ← declared_split_tensor_count readers;
  _ ← match declared with
      | Some d => if d =? N.of_nat (size tensors) then Ok tt else Err (Io InvalidData)
      | None => Ok tt
      end;
  Ok {| readers := readers;
        set_metadata := match readers with r :: _ => h_metadata (fst r) | [] => ∅ end;
        set_tensors := tensors; owners := owners |}.

(** [GgufShardSet::open]. *)
Definition open (file_name : list byte) : result serr GgufShardSet :=
  spec ← parse_shard_filename file_name;
  match spec with
  | None => Err InvalidInput
  | Some spec => open_from_spec spec
  end.

(** [Box<dyn GgufSource>]: the three implementations of the trait. *)
Inductive GgufSource := Eager (f : GgufFile) | Streaming (r : reader) | Sharded (set : GgufShardSet).

Definition open_gguf_source (file_name : list byte) (legacy_eager : bool) : result serr GgufSource :=
  spec ← parse_shard_filename file_name;
  match spec with
  | Some spec => set ← open_from_spec spec; Ok (Sharded set)
  | None =>
      match fs file_name with
      | None => Err NotFound
      | Some bytes =>
          if legacy_eager then f ← io (parse can_reserve bytes); Ok (Eager f)
          else h ← io (stream_open can_reserve reads bytes); Ok (Streaming (h, bytes))
      end
  end.
End open.

(** [read_tensor_owned] of a set; [readers[owner]] is always in range. *)
Definition read_tensor_owned (s : GgufShardSet) (name : list byte) : option (result perr (option (list byte))) :=
  match owners s !! name with
  | None => Some (Ok None)
  | Some owner => r ← readers s !! owner; Some (read_tensor_data (fst r) (snd r) name)
  end.
Definition tensor_info (s : GgufShardSet) (name : list byte) : option GgufTensorInfo := set_tensors s !! name.

(** The trait's methods. *)
Definition source_metadata (s : GgufSource) : gmap (list byte) GgufValue :=
  match s with Eager f => metadata f | Streaming r => h_metadata (fst r) | Sharded set => set_metadata set end.
Definition source_tensor_info (s : GgufSource) (name : list byte) : option GgufTensorInfo :=
  match s with
  | Eager f => tensors f !! name
  | Streaming r => h_tensors (fst r) !! name
  | Sharded set => tensor_info set name
  end.
Definition source_read (s : GgufSource) (name : list byte) : option (result perr (option (list byte))) :=
  match s with
  | Eager f => Some (Ok (tensor_data f name))
  | Streaming r => Some (read_tensor_data (fst r) (snd r) name)
  | Sharded set => read_tensor_owned set name
  end.
Definition source_tensor_dtype (s : GgufSource) (name : list byte) : option Layout.WeightDtype :=
  info ← source_tensor_info s name; ggml_to_weight_dtype (dtype info).
Definition source_architecture (s : GgufSource) : option (list byte) :=
  source_metadata s !! str "general.architecture" ≫= as_str.

Example parse_name : parse_shard_filename (str "mix-of-tral-00002-of-00005.gguf") =
  Ok (Some {| prefix := str "mix-of-tral"; count := 5; index_width := 5; count_width := 5 |}).
Proof. vm_compute. reflexivity. Qed.
Example print_name : path_for {| prefix := str "m"; count := 12; index_width := 1; count_width := 2 |} 10 = str "m-10-of-12.gguf".
Proof. vm_compute. reflexivity. Qed.

(** ** Decimal numbers *)

Lemma digit_val_lt b : is_ascii_digit b = true -> digit_val b < 10 /\ byte_of_N (48 + digit_val b) = b.
Proof.
  unfold is_ascii_digit, digit_val. intros H. apply andb_prop in H as [H1 H2].
  apply N.leb_le in H1, H2. split; [lia|]. rewrite <-(byte_of_to_N b) at 2. f_equal. lia.
Qed.

Lemma digits_val_snoc s b : digits_val (s ++ [b]) = digits_val s * 10 + digit_val b.
Proof. unfold digits_val. by rewrite foldl_app. Qed.

Lemma digits_of_val s : forallb is_ascii_digit s = true -> digits (length s) (digits_val s) = s.
Proof.
  induction s as [|b s IH] using rev_ind; [done|]. rewrite forallb_app. simpl. intros H.
  apply andb_prop in H as [Hs H]. rewrite andb_true_r in H. destruct (digit_val_lt b H) as [Hlt Hb].
  rewrite length_app, Nat.add_comm, digits_val_snoc. cbn [Nat.add length digits].
  rewrite N.div_add_l, N.div_small, N.add_0_r, IH by done. f_equal.
  replace ((digits_val s * 10 + digit_val b) mod 10) with (digit_val b); [by rewrite Hb|].
  by rewrite N.add_comm, N.Div0.mod_add, N.mod_small.
Qed.

Lemma digits_val_bound s : forallb is_ascii_digit s = true -> digits_val s < 10 ^ N.of_nat (length s).
Proof.
  induction s as [|b s IH] using rev_ind; [done|]. rewrite forallb_app. simpl. intros H.
  apply andb_prop in H as [Hs H]. rewrite andb_true_r in H. destruct (digit_val_lt b H) as [Hlt _].
  rewrite digits_val_snoc, length_app, Nat.add_comm. cbn [length Nat.add].
  rewrite Nat2N.inj_succ, N.pow_succ_r'. specialize (IH Hs). lia.
Qed.

Lemma digits_are_digits w n : forallb is_ascii_digit (digits w n) = true.
Proof.
  revert n. induction w as [|w IH]; intros n; [done|]. cbn [digits]. rewrite forallb_app, IH. cbn [forallb andb].
  unfold is_ascii_digit. rewrite byte_to_of_N. pose proof (N.mod_lt n 10 ltac:(lia)).
  rewrite (N.mod_small (48 + n mod 10)) by lia. rewrite andb_true_r. apply andb_true_intro.
  pose proof (N.le_0_l (n mod 10)). split; apply N.leb_le; lia.
Qed.

Lemma length_digits w n : length (digits w n) = w.
Proof. revert n. induction w as [|w IH]; intros n; [done|]. cbn [digits]. rewrite length_app, IH. simpl. lia. Qed.

Lemma val_of_digits w n : n < 10 ^ N.of_nat w -> digits_val (digits w n) = n.
Proof.
  revert n. induction w as [|w IH]; intros n Hn; [simpl in *; unfold digits_val; simpl; lia|].
  cbn [digits]. rewrite digits_val_snoc. rewrite Nat2N.inj_succ, N.pow_succ_r' in Hn.
  rewrite IH by (apply N.Div0.div_lt_upper_bound; lia). unfold digit_val. rewrite byte_to_of_N.
  pose proof (N.mod_lt n 10 ltac:(lia)). rewrite (N.mod_small (48 + n mod 10)) by lia.
  pose proof (N.div_mod' n 10). rewrite (N.add_comm 48), N.add_sub, N.mul_comm. done.
Qed.

Lemma num_digits_aux_le fuel n w : n < 10 ^ N.of_nat w -> (1 <= w)%nat -> (w <= S fuel)%nat -> (num_digits_aux fuel n <= w)%nat.
Proof.
  revert n w. induction fuel as [|fuel IH]; intros n w Hn Hw Hf; [simpl; lia|]. cbn [num_digits_aux].
  destruct (N.ltb_spec n 10) as [|Hge]; [lia|]. destruct w as [|[|w]]; [lia|simpl in Hn; lia|].
  apply le_n_S, IH; [|lia..]. rewrite Nat2N.inj_succ, N.pow_succ_r' in Hn. apply N.Div0.div_lt_upper_bound. lia.
Qed.

Lemma num_digits_le n w : n < 10 ^ N.of_nat w -> (1 <= w)%nat -> n <= usize_max -> (num_digits n <= w)%nat.
Proof.
  intros Hn Hw Hm. destruct (decide (w <= 20)%nat) as [|Hge]; [apply num_digits_aux_le; [done|lia..]|].
  assert (num_digits_aux 20 n <= 20)%nat; [|unfold num_digits; lia].
  apply num_digits_aux_le; [|lia..]. change (10 ^ N.of_nat 20) with 100000000000000000000. unfold usize_max, u64_max in Hm. lia.
Qed.

Lemma num_digits_aux_enough fuel n : n < 10 ^ N.of_nat (S fuel) -> n < 10 ^ N.of_nat (num_digits_aux fuel n).
Proof.
  revert n. induction fuel as [|fuel IH]; intros n Hn; [done|]. cbn [num_digits_aux].
  destruct (N.ltb_spec n 10) as [|Hge]; [simpl; lia|]. rewrite Nat2N.inj_succ, N.pow_succ_r'.
  rewrite Nat2N.inj_succ, N.pow_succ_r' in Hn. specialize (IH (n / 10) ltac:(apply N.Div0.div_lt_upper_bound; lia)).
  pose proof (N.div_mod' n 10). pose proof (N.mod_lt n 10 ltac:(lia)). lia.
Qed.

Lemma num_digits_ge_1 n : (1 <= num_digits n)%nat.
Proof. unfold num_digits. cbn [num_digits_aux]. case_N; lia. Qed.

Lemma num_digits_enough n : n <= usize_max -> n < 10 ^ N.of_nat (num_digits n).
Proof.
  intros Hn. apply num_digits_aux_enough. change (10 ^ N.of_nat 21) with 1000000000000000000000.
  unfold usize_max, u64_max in Hn. lia.
Qed.

Lemma val_of_padded w n : n <= usize_max -> digits_val (zero_padded w n) = n.
Proof.
  intros Hn. apply val_of_digits. eapply N.lt_le_trans; [by apply num_digits_enough|].
  apply N.pow_le_mono_r; lia.
Qed.

Lemma padded_of_val s :
  forallb is_ascii_digit s = true -> s <> [] -> digits_val s <= usize_max -> zero_padded (length s) (digits_val s) = s.
Proof.
  intros Hd Hs Hm. unfold zero_padded. rewrite Nat.max_l; [by apply digits_of_val|].
  apply num_digits_le; [by apply digits_val_bound| |done]. destruct s; [done|simpl; lia].
Qed.

(** ** Splitting names *)

Lemma strip_suffix_Some suf s a : strip_suffix suf s = Some a -> s = a ++ suf.
Proof.
  unfold strip_suffix. destruct (bool_decide_reflect (drop (length s - length suf) s = suf /\ (length suf <= length s)%nat)) as [[H _]|]; [|done].
  intros [= <-]. rewrite <-H at 2. by rewrite take_drop.
Qed.

Lemma strip_suffix_app suf a : strip_suffix suf (a ++ suf) = Some a.
Proof.
  unfold strip_suffix. rewrite length_app, Nat.add_sub, drop_app_length, take_app_length.
  rewrite bool_decide_eq_true_2; [done|]. split; [done|lia].
Qed.

Lemma rsplit_once_Some sep s a b : rsplit_once sep s = Some (a, b) -> s = a ++ sep ++ b.
Proof.
  revert a b. induction s as [|c s IH]; intros a b.
  - cbn [rsplit_once]. destruct (bool_decide_reflect (sep = [])); [|done]. by intros [= <- <-]; subst.
  - cbn [rsplit_once]. destruct (rsplit_once sep s) as [[a' b']|].
    + intros [= <- <-]. by rewrite (IH a' b').
    + destruct (bool_decide_reflect (take (length sep) (c :: s) = sep)) as [H|]; [|done].
      intros [= <- <-]. simpl. rewrite <-H at 1. by rewrite take_drop.
Qed.

(** The separator's own occurrence is the last one when what follows its first byte has none. *)
Lemma rsplit_once_app sep c a b :
  rsplit_once (c :: sep) (sep ++ b) = None -> rsplit_once (c :: sep) (a ++ (c :: sep) ++ b) = Some (a, b).
Proof.
  intros H. induction a as [|x a IH]; [|cbn [app rsplit_once] in *; by rewrite IH].
  cbn [app rsplit_once]. rewrite H. cbn [length take drop]. rewrite take_app_length, drop_app_length.
  by rewrite bool_decide_eq_true_2.
Qed.

Lemma rsplit_once_absent sep c s : Forall (fun x => x <> c) s -> rsplit_once (c :: sep) s = None.
Proof.
  induction 1 as [|x s Hx _ IH]; [done|]. cbn [rsplit_once]. rewrite IH, bool_decide_eq_false_2; [done|].
  intros H. cbn [length take] in H. by simplify_eq.
Qed.

Definition dash : byte := x2d.

Lemma digits_no_dash s : forallb is_ascii_digit s = true -> Forall (fun x => x <> dash) s.
Proof.
  intros H. apply List.Forall_forall. intros x Hx -> . rewrite forallb_forall in H. by specialize (H _ Hx).
Qed.

Lemma split_index pre idx :
  forallb is_ascii_digit idx = true -> rsplit_once (str "-") (pre ++ str "-" ++ idx) = Some (pre, idx).
Proof. intros H. apply (rsplit_once_app []), rsplit_once_absent, digits_no_dash, H. Qed.

Lemma split_count pre cnt :
  forallb is_ascii_digit cnt = true -> cnt <> [] -> rsplit_once (str "-of-") (pre ++ str "-of-" ++ cnt) = Some (pre, cnt).
Proof.
  intros H Hne. apply (rsplit_once_app (str "of-")). pose proof (digits_no_dash cnt H) as Hd.
  assert (Hn : rsplit_once [x2d; x6f; x66; x2d] cnt = None) by by apply rsplit_once_absent.
  change (str "of-") with [x6f; x66; x2d]. cbn [app rsplit_once].
  change (Ascii.byte_of_ascii _) with x2d. rewrite Hn.
  destruct cnt as [|d cnt]; [done|]. simpl in H. apply andb_prop in H as [H _].
  rewrite !bool_decide_eq_false_2; [done|..]; intros E; simpl in E; simplify_eq; done.
Qed.

(** The name of a shard and the description parsed from it agree: the description
    gives back the name it was parsed from, at the number of that shard; and when the
    index is written wide enough for the count, every name of the set is parsed to the
    same description, so that the set can be opened from any of its shards. *)
Theorem shard_names_round_trip (file_name : list byte) (spec : GgufShardSpec)
    (Hparse : parse_shard_filename file_name = Ok (Some spec)) :
  (exists index, 1 <= index <= count spec /\ path_for spec index = file_name) /\
  ((num_digits (count spec) <= index_width spec)%nat ->
     forall index, 1 <= index <= count spec -> parse_shard_filename (path_for spec index) = Ok (Some spec)).
Proof.
  unfold parse_shard_filename in Hparse.
  destruct (strip_suffix _ file_name) as [stem|] eqn:Hs; [|done]. apply strip_suffix_Some in Hs as ->.
  destruct (rsplit_once (str "-of-") stem) as [[before cnt]|] eqn:Hc; [|done]. apply rsplit_once_Some in Hc as ->.
  destruct (rsplit_once (str "-") before) as [[pre idx]|] eqn:Hi; [|done]. apply rsplit_once_Some in Hi as ->.
  destruct (bool_decide_reflect (pre = [])); [done|]. destruct (bool_decide_reflect (idx = [])); [done|].
  destruct (bool_decide_reflect (cnt = [])); [done|].
  destruct (forallb is_ascii_digit idx) eqn:Hid; [|done]. destruct (forallb is_ascii_digit cnt) eqn:Hcd; [|done].
  cbn [orb negb] in Hparse. unfold parse_usize in Hparse.
  destruct (N.leb_spec (digits_val idx) usize_max); [|done]. destruct (N.leb_spec (digits_val cnt) usize_max); [|done].
  case_N; try done. cbn [orb] in Hparse. injection Hparse as <-. unfold path_for. cbn [prefix count index_width count_width].
  rewrite (padded_of_val cnt) by done. split.
  - exists (digits_val idx). split; [lia|]. by rewrite padded_of_val, <-!app_assoc by done.
  - intros Hw index Hindex. set (i := zero_padded (length idx) index).
    assert (Hin : forallb is_ascii_digit i = true) by apply digits_are_digits.
    assert (Hil : length i = length idx).
    { unfold i, zero_padded. rewrite length_digits. apply Nat.max_l. etrans; [|exact Hw].
      apply num_digits_le; [|apply num_digits_ge_1|lia]. eapply N.le_lt_trans; [apply Hindex|]. by apply num_digits_enough. }
    unfold parse_shard_filename.
    replace (pre ++ _) with (((pre ++ str "-" ++ i) ++ str "-of-" ++ cnt) ++ str ".gguf") by by rewrite <-!app_assoc.
    rewrite strip_suffix_app, split_count, split_index by done.
    rewrite !bool_decide_eq_false_2 by (done || (intros E; rewrite E in Hil; by destruct idx)).
    rewrite Hin, Hcd. cbn [orb negb]. unfold parse_usize, i. rewrite val_of_padded by lia.
    destruct (N.leb_spec index usize_max); [|lia]. destruct (N.leb_spec (digits_val cnt) usize_max); [|lia].
    case_N; try lia. cbn [orb]. fold i. by rewrite Hil.
Qed.

(** An index that is not padded: the set named by the first shard cannot be found from
    the tenth. *)
Example narrow_index :
  let first := {| prefix := str "m"; count := 10; index_width := 1; count_width := 2 |} in
  let tenth := {| prefix := str "m"; count := 10; index_width := 2; count_width := 2 |} in
  parse_shard_filename (str "m-1-of-10.gguf") = Ok (Some first) /\ path_for first 10 = str "m-10-of-10.gguf" /\
  parse_shard_filename (str "m-10-of-10.gguf") = Ok (Some tenth) /\ path_for tenth 1 = str "m-01-of-10.gguf".
Proof. vm_compute. done. Qed.

(** ** The unified table *)

(** What the shards from number [k] on say of a name. *)
Definition holds (rs : list reader) (k : nat) (n : list byte) (i : nat) (info : GgufTensorInfo) : Prop :=
  exists j r, rs !! j = Some r /\ i = (k + j)%nat /\ h_tensors (fst r) !! n = Some info.

Lemma holds_cons r rs k n i info :
  holds (r :: rs) k n i info <-> (i = k /\ h_tensors (fst r) !! n = Some info) \/ holds rs (S k) n i info.
Proof.
  split.
  - intros ([|j] & r' & Hr & -> & Hi); simplify_eq/=; [left; split; [lia|done]|].
    right. exists j, r'. split_and!; [done|lia|done].
  - intros [[-> Hi]|(j & r' & Hr & -> & Hi)]; [exists 0%nat, r; split_and!; [done|lia|done]|].
    exists (S j), r'. split_and!; [done|lia|done].
Qed.

(** The table after adding [l], when none of it is there. *)
Lemma add_tensors_spec owner (l : list (list byte * GgufTensorInfo)) (t : table) :
  NoDup l.*1 ->
  (Forall (fun k => snd t !! k = None) l.*1 ->
     add_tensors owner l t = Ok (list_to_map l ∪ fst t, ((fun _ => owner) <$> list_to_map (M:=gmap (list byte) GgufTensorInfo) l) ∪ snd t)) /\
  (~ Forall (fun k => snd t !! k = None) l.*1 -> add_tensors owner l t = Err (Io InvalidData)).
Proof.
  revert t. induction l as [|[k info] l IH]; intros [ts os] Hnd.
  { split; [|intros H; by destruct H]. intros _. simpl. by rewrite fmap_empty, !(left_id_L ∅ (∪)). }
  csimpl in *. apply NoDup_cons in Hnd as [Hk Hnd]. cbn [add_tensors]. unfold add_tensor. simpl.
  destruct (IH (<[k := info]> ts, <[k := owner]> os) Hnd) as [IHok IHerr]. simpl in *.
  assert (Hl : list_to_map (M:=gmap _ _) l !! k = None) by by apply not_elem_of_list_to_map.
  assert (Heq : Forall (fun n => <[k := owner]> os !! n = None) l.*1 <-> Forall (fun n => os !! n = None) l.*1).
  { rewrite !Forall_forall. split; intros H n Hn; specialize (H n Hn); rewrite lookup_insert_ne in *; try done; by intros ->. }
  rewrite Forall_cons. split.
  - intros [Hos Hf]. rewrite Hos. cbn [mbind result_bind]. rewrite IHok by by apply Heq.
    rewrite fmap_insert, <-!insert_union_l, !insert_union_r by (rewrite ?lookup_fmap, Hl; done). done.
  - intros Hn. destruct (os !! k) eqn:Hos; [done|]. cbn [mbind result_bind]. apply IHerr. rewrite Heq. tauto.
Qed.

Definition table_ok (t : table) : Prop := forall n, fst t !! n = None <-> snd t !! n = None.

(** The table after a reader whose names are all new. *)
Definition with_reader (owner : nat) (r : reader) (t : table) : table :=
  (h_tensors (fst r) ∪ fst t, ((fun _ => owner) <$> h_tensors (fst r)) ∪ snd t).
Definition fresh (r : reader) (t : table) : Prop := forall n, is_Some (h_tensors (fst r) !! n) -> snd t !! n = None.

Lemma add_reader owner r t :
  (fresh r t /\ add_tensors owner (map_to_list (h_tensors (fst r))) t = Ok (with_reader owner r t)) \/
  (~ fresh r t /\ add_tensors owner (map_to_list (h_tensors (fst r))) t = Err (Io InvalidData)).
Proof.
  destruct (add_tensors_spec owner (map_to_list (h_tensors (fst r))) t) as [Hok Herr]; [apply NoDup_fst_map_to_list|].
  rewrite !list_to_map_to_list in Hok.
  assert (Hf : Forall (fun k => snd t !! k = None) (map_to_list (h_tensors (fst r))).*1 <-> fresh r t).
  { rewrite Forall_forall. split.
    - intros H n [info Hn]. apply H, list_elem_of_fmap. exists (n, info). split; [done|]. by apply elem_of_map_to_list.
    - intros H n Hn. apply list_elem_of_fmap in Hn as ([n' info] & -> & Hn). apply elem_of_map_to_list in Hn. by apply H. }
  destruct (decide (Forall (fun k => snd t !! k = None) (map_to_list (h_tensors (fst r))).*1)) as [Hd|Hd];
    [left|right]; (split; [by rewrite <-Hf|auto]).
Qed.

Lemma with_reader_lookup owner r t n :
  table_ok t -> fresh r t ->
  (forall info, fst (with_reader owner r t) !! n = Some info <-> h_tensors (fst r) !! n = Some info \/ fst t !! n = Some info) /\
  (forall i, snd (with_reader owner r t) !! n = Some i <-> (i = owner /\ is_Some (h_tensors (fst r) !! n)) \/ snd t !! n = Some i).
Proof.
  intros Hok Hf. specialize (Hf n). specialize (Hok n). unfold with_reader. simpl.
  split; intros x; rewrite ?lookup_union_Some_raw, ?lookup_fmap.
  - destruct (h_tensors (fst r) !! n) as [info|]; [|naive_solver]. rewrite (proj2 Hok) by eauto. naive_solver.
  - destruct (h_tensors (fst r) !! n) as [info|]; simpl; [|rewrite is_Some_alt; naive_solver].
    rewrite Hf by eauto. rewrite is_Some_alt. naive_solver.
Qed.

Lemma with_reader_ok owner r t : table_ok t -> fresh r t -> table_ok (with_reader owner r t).
Proof.
  intros Hok Hf n. destruct (with_reader_lookup owner r t n Hok Hf) as [H1 H2]. specialize (Hok n).
  rewrite !eq_None_not_Some. unfold is_Some. setoid_rewrite H1. setoid_rewrite H2. unfold is_Some.
  destruct (fst t !! n), (snd t !! n); naive_solver.
Qed.

(** No name is in two shards, or in the table already. *)
Definition disjoint_names (rs : list reader) (k : nat) (t : table) : Prop :=
  (forall n i i' info info', holds rs k n i info -> holds rs k n i' info' -> i = i') /\
  (forall n i info, holds rs k n i info -> snd t !! n = None).

Lemma holds_ge rs k n i info : holds rs k n i info -> (k <= i)%nat.
Proof. intros (j & r & _ & -> & _). lia. Qed.

Lemma disjoint_names_cons r rs k t :
  table_ok t ->
  disjoint_names (r :: rs) k t <-> fresh r t /\ disjoint_names rs (S k) (with_reader k r t).
Proof.
  intros Hok. split.
  - intros [Hu Hn]. assert (Hf : fresh r t).
    { intros n [info Hi]. eapply Hn, holds_cons. by left. }
    split; [done|]. split.
    + intros n i i' info info' H H'. by eapply Hu; apply holds_cons; right.
    + intros n i info H. apply eq_None_not_Some. intros [i' Hi].
      apply (with_reader_lookup k r t n Hok Hf) in Hi as [[-> [info' Hi]]|Hi].
      * assert (i = k); [|apply holds_ge in H; lia]. eapply Hu; [apply holds_cons; by right|apply holds_cons; by left].
      * rewrite (Hn n i info) in Hi; [done|]. apply holds_cons. by right.
  - intros (Hf & Hu & Hn). assert (Hno : forall n i info, holds rs (S k) n i info -> h_tensors (fst r) !! n = None /\ snd t !! n = None).
    { intros n i info H. specialize (Hn n i info H). rewrite eq_None_not_Some in Hn. unfold is_Some in Hn.
      setoid_rewrite (proj2 (with_reader_lookup k r t n Hok Hf)) in Hn. rewrite !eq_None_not_Some. split; intros [x Hx]; apply Hn; eauto. }
    split.
    + intros n i i' info info'. rewrite !holds_cons. intros [[-> H]|H] [[-> H']|H']; [done|..].
      * destruct (Hno _ _ _ H') as [E _]. by rewrite E in H.
      * destruct (Hno _ _ _ H) as [E _]. by rewrite E in H'.
      * by eapply Hu.
    + intros n i info. rewrite holds_cons. intros [[-> H]|H]; [by apply Hf|by eapply Hno].
Qed.

Lemma merge_spec rs k t :
  table_ok t ->
  (disjoint_names rs k t /\ exists t', merge k rs t = Ok t' /\ table_ok t' /\
     (forall n i, snd t' !! n = Some i <-> snd t !! n = Some i \/ exists info, holds rs k n i info) /\
     (forall n info, fst t' !! n = Some info <-> fst t !! n = Some info \/ exists i, holds rs k n i info) /\
     size (fst t') = (size (fst t) + list_sum ((fun r => size (h_tensors (fst r))) <$> rs))%nat) \/
  (~ disjoint_names rs k t /\ merge k rs t = Err (Io InvalidData)).
Proof.
  revert k t. induction rs as [|r rs IH]; intros k t Hok.
  { left. assert (Hh : forall n i info, ~ holds [] k n i info) by (intros n i info (j & r & Hr & _); by destruct j).
    split; [split; naive_solver|]. exists t. split_and!; [done|done|naive_solver..|simpl; lia]. }
  rewrite disjoint_names_cons by done. cbn [merge].
  destruct (add_reader k r t) as [[Hf ->]|[Hf ->]]; [|right; split; [tauto|done]]. cbn [mbind result_bind].
  destruct (IH (S k) (with_reader k r t)) as [[Hd (t' & -> & Hok' & Hs & Ht & Hz)]|[Hd ->]];
    [by apply with_reader_ok| |right; split; [tauto|done]].
  left. split; [done|]. exists t'. split_and!; [done|done|..].
  - intros n i. rewrite Hs, (proj2 (with_reader_lookup k r t n Hok Hf)). setoid_rewrite holds_cons. unfold is_Some. naive_solver.
  - intros n info. rewrite Ht, (proj1 (with_reader_lookup k r t n Hok Hf)). setoid_rewrite holds_cons. naive_solver.
  - rewrite Hz. csimpl. rewrite map_size_disj_union; [lia|].
    apply map_disjoint_spec. intros n x y Hx Hy. specialize (Hok n). rewrite Hf in Hok by eauto. destruct Hok as [_ Hok].
    rewrite Hok in Hy; done.
Qed.

(** ** What validation accepts *)

Definition says (m : gmap (list byte) GgufValue) (key : list byte) (n : N) : Prop :=
  forall v, m !! key = Some v -> as_u64 v = Some n.

Lemma metadata_u64_says m key n :
  match metadata_u64 m key with Ok None => True | Ok (Some k) => k = n | Err _ => False end <-> says m key n.
Proof.
  unfold metadata_u64, says. destruct (m !! key) as [v|]; [|naive_solver].
  destruct (as_u64 v) eqn:E; split; [intros -> v' [= <-]; done|intros H; specialize (H v eq_refl); congruence|done|].
  intros H. specialize (H v eq_refl). congruence.
Qed.

(** The shards agree: one version, the architecture of the first, and numbers and count
    as the names have them, where declared. *)
Definition shard_agrees (r0 : reader) (arch : list byte) (total : N) (i : nat) (r : reader) : Prop :=
  let m := h_metadata (fst r) in
  h_version (fst r) = h_version (fst r0) /\
  (i = 0%nat -> is_Some (m !! str "general.architecture")) /\
  (forall v, m !! str "general.architecture" = Some v -> as_str v = Some arch) /\
  says m (str "split.no") (N.of_nat i) /\ says m (str "split.count") total.

Lemma validate_shard_ok r0 arch total i r :
  (validate_shard (h_version (fst r0)) arch total i r = Ok tt /\ shard_agrees r0 arch total i r) \/
  (validate_shard (h_version (fst r0)) arch total i r = Err (Io InvalidData) /\ ~ shard_agrees r0 arch total i r).
Proof.
  unfold validate_shard, shard_agrees. set (m := h_metadata (fst r)).
  destruct (N.eqb_spec (h_version (fst r)) (h_version (fst r0))) as [Hv|Hv]; [|right; split; [done|tauto]]. cbn [negb].
  rewrite <-!metadata_u64_says. unfold metadata_str, metadata_u64.
  destruct (m !! str "general.architecture") as [v|].
  2: { cbn [mbind result_bind]. destruct (Nat.eqb_spec i 0) as [->|Hi].
       { right. split; [done|]. intros (_ & H & _). by destruct (H eq_refl). }
       cbn [mbind result_bind]. repeat (case_match; cbn [mbind result_bind] in * ); simplify_eq; rewrite ?N.eqb_eq, ?N.eqb_neq in *; subst;
         first [left; split; [done|split_and!; done] | right; split; [done|naive_solver]]. }
  destruct (as_str v) as [s|] eqn:Hs; cbn [mbind result_bind];
    [|right; split; [done|]; intros (_ & _ & H & _); specialize (H v eq_refl); congruence].
  destruct (bool_decide_reflect (s = arch)) as [->|Hne]; cbn [mbind result_bind];
    [|right; split; [done|]; intros (_ & _ & H & _); specialize (H v eq_refl); congruence].
  repeat (case_match; cbn [mbind result_bind] in * ); simplify_eq; rewrite ?N.eqb_eq, ?N.eqb_neq in *; subst;
    first [left; split; [done|split_and!; naive_solver] | right; split; [done|naive_solver]].
Qed.

Lemma each_shard_ok (f : nat -> reader -> result serr unit) (P : nat -> reader -> Prop) rs k :
  (forall i r, (f i r = Ok tt /\ P i r) \/ (f i r = Err (Io InvalidData) /\ ~ P i r)) ->
  (for_each f k rs = Ok tt /\ forall j r, rs !! j = Some r -> P (k + j)%nat r) \/
  (for_each f k rs = Err (Io InvalidData) /\ ~ forall j r, rs !! j = Some r -> P (k + j)%nat r).
Proof.
  intros Hf. revert k. induction rs as [|r rs IH]; intros k; [by left|]. cbn [for_each].
  destruct (Hf k r) as [[-> Hp]|[-> Hp]]; cbn [mbind result_bind].
  - destruct (IH (S k)) as [[-> H]|[-> H]]; [left|right]; (split; [done|]).
    + intros [|j] r' Hr; simplify_eq/=; [by rewrite Nat.add_0_r|]. rewrite <-Nat.add_succ_comm. by apply H.
    + intros H'. apply H. intros j r' Hr. rewrite Nat.add_succ_comm. by apply (H' (S j)).
  - right. split; [done|]. intros H. apply Hp. rewrite <-(Nat.add_0_r k). by apply H.
Qed.

Definition shards_agree (rs : list reader) (total : N) : Prop :=
  exists r0 arch, rs !! 0%nat = Some r0 /\
    forall i r, rs !! i = Some r -> shard_agrees r0 arch total i r.

Lemma validate_shards_ok rs total :
  (validate_shards rs total = Ok tt /\ shards_agree rs total) \/
  (validate_shards rs total = Err (Io InvalidData) /\ ~ shards_agree rs total).
Proof.
  unfold validate_shards. destruct rs as [|r0 rs']; [right; split; [done|]; by intros (? & ? & ? & _)|].
  set (rs := r0 :: rs'). unfold metadata_str.
  assert (Hno : ~ (exists s, h_metadata (fst r0) !! str "general.architecture" ≫= as_str = Some s) -> ~ shards_agree rs total).
  { intros Hn (r & arch & [= <-] & H). destruct (H 0%nat r0 eq_refl) as (_ & Hv & Ha & _).
    destruct (Hv eq_refl) as [v Hv']. apply Hn. exists arch. rewrite Hv'. by apply Ha. }
  destruct (h_metadata (fst r0) !! str "general.architecture") as [v|] eqn:Hv; cbn [mbind result_bind option_bind] in *.
  2: { right. split; [done|]. apply Hno. by intros [s ?]. }
  destruct (as_str v) as [arch|] eqn:Ha; cbn [mbind result_bind].
  2: { right. split; [done|]. apply Hno. by intros [s ?]. }
  destruct (each_shard_ok (validate_shard (h_version (fst r0)) arch total) (shard_agrees r0 arch total) rs 0) as [[-> H]|[-> H]].
  { intros i r. apply validate_shard_ok. }
  - left. split; [done|]. by exists r0, arch.
  - right. split; [done|]. intros (r & arch' & [= <-] & H'). apply H.
    destruct (H' 0%nat r0 eq_refl) as (_ & _ & Ha' & _). specialize (Ha' v Hv). assert (arch' = arch) as -> by congruence. exact H'.
Qed.

(** The declared number of tensors is [total], where there is one. *)
Definition declares_total (total : N) (r : reader) : Prop :=
  says (h_metadata (fst r)) (str "split.tensors.count") total.

Lemma declared_spec d rs total :
  match declared_from d rs with
  | Ok o => (o = None \/ o = Some total) <->
            (d = None \/ d = Some total) /\ Forall (declares_total total) rs
  | Err e => e = Io InvalidData /\ ~ Forall (declares_total total) rs
             \/ e = Io InvalidData /\ d <> None /\ d <> Some total
  end.
Proof.
  revert d. induction rs as [|r rs IH]; intros d; [simpl; rewrite Forall_nil; tauto|]. cbn [declared_from].
  pose proof (metadata_u64_says (h_metadata (fst r)) (str "split.tensors.count") total) as Hs.
  pose proof (Forall_cons (declares_total total) r rs) as HF.
  unfold declares_total at 2 in HF. rewrite <-Hs in HF. clear Hs.
  set (P := Forall (declares_total total) (r :: rs)) in *. set (Q := Forall (declares_total total) rs) in *. clearbody P Q.
  destruct (metadata_u64 _ _) as [[c|]|e] eqn:Hm; cbn [mbind result_bind].
  - destruct d as [p|].
    + destruct (N.eqb_spec p c) as [->|Hne].
      * specialize (IH (Some c)). destruct (declared_from (Some c) rs); naive_solver.
      * destruct (decide (p = total)); [left|right]; naive_solver.
    + specialize (IH (Some c)). destruct (declared_from (Some c) rs); naive_solver.
  - specialize (IH d). destruct (declared_from d rs); naive_solver.
  - left. unfold metadata_u64 in Hm. repeat case_match; naive_solver.
Qed.

(** ** Opening *)

Section specs.
Context (can_reserve : alloc -> N -> bool) (reads : list N) (fs : list byte -> option (list byte)).

(** The file of every shard is there and opens; [k] is the first number. *)
Definition opened (spec : GgufShardSpec) (k : N) (rs : list reader) : Prop :=
  forall i r, rs !! i = Some r ->
    fs (path_for spec (k + N.of_nat i)) = Some (snd r) /\ stream_open can_reserve reads (snd r) = Ok (fst r).

Lemma open_readers_ok spec n k rs :
  open_readers can_reserve reads fs spec n k = Ok rs <-> length rs = n /\ opened spec k rs.
Proof.
  revert k rs. induction n as [|n IH]; intros k rs; cbn [open_readers].
  - split; [by intros [= <-]|]. intros [H _]. by destruct rs.
  - destruct rs as [|[h file] rs].
    { split; [|by intros [? _]]. destruct (fs _); [|done]. intros H. apply result_bind_ok in H as (h & _ & H).
      by apply result_bind_ok in H as (rs & _ & H). }
    split.
    + destruct (fs (path_for spec k)) as [f|] eqn:Hf; [|done]. intros H. apply result_bind_ok in H as (h' & Ho & H).
      apply result_bind_ok in H as (rs' & Hr & [= <- <- <-]). apply IH in Hr as [Hl Hr].
      split; [simpl; by f_equal|]. intros [|i] r Hi; simplify_eq/=.
      * rewrite N.add_0_r. split; [done|]. unfold io in Ho. by destruct (stream_open _ _ _); simplify_eq.
      * specialize (Hr i r Hi). replace (k + N.of_nat (S i)) with (k + 1 + N.of_nat i) by lia. done.
    + intros [Hl Hr]. destruct (Hr 0%nat _ eq_refl) as [Hf Ho]. simpl in Hf, Ho. rewrite N.add_0_r in Hf. rewrite Hf, Ho.
      cbn [io mbind result_bind]. rewrite (proj2 (IH (k + 1) rs)); [done|]. split; [by simplify_eq/=|].
      intros i r Hi. specialize (Hr (S i) r Hi). replace (k + 1 + N.of_nat i) with (k + N.of_nat (S i)) by lia. done.
Qed.

Definition total_tensors (rs : list reader) : N := N.of_nat (list_sum ((fun r => size (h_tensors (fst r))) <$> rs)).

(** The unified table and the readers it was built from. *)
Definition unifies (set : GgufShardSet) : Prop :=
  (forall n i, owners set !! n = Some i <-> exists info, holds (readers set) 0 n i info) /\
  (forall n info, set_tensors set !! n = Some info <-> exists i, holds (readers set) 0 n i info).

Lemma merge_empty rs :
  (disjoint_names rs 0 (∅, ∅) /\ exists ts os, merge 0 rs (∅, ∅) = Ok (ts, os) /\ N.of_nat (size ts) = total_tensors rs /\
     forall m, unifies {| readers := rs; set_metadata := m; set_tensors := ts; owners := os |}) \/
  (~ disjoint_names rs 0 (∅, ∅) /\ merge 0 rs (∅, ∅) = Err (Io InvalidData)).
Proof.
  destruct (merge_spec rs 0 (∅, ∅)) as [(Hd & [ts os] & Hm & _ & Ho & Ht & Hz)|]; [done| |by right].
  left. split; [done|]. exists ts, os. split_and!; [done| |].
  - unfold total_tensors. simpl in Hz. rewrite map_size_empty in Hz. lia.
  - intros m. split; intros n x; simpl in *; [rewrite Ho|rewrite Ht]; rewrite lookup_empty; naive_solver.
Qed.

(** What opening a set requires of its shards. *)
Definition consistent (spec : GgufShardSpec) (rs : list reader) : Prop :=
  N.of_nat (length rs) = count spec /\ opened spec 1 rs /\ shards_agree rs (count spec) /\
  disjoint_names rs 0 (∅, ∅) /\ Forall (declares_total (total_tensors rs)) rs.

Lemma open_from_spec_ok spec set :
  open_from_spec can_reserve reads fs spec = Ok set ->
  consistent spec (readers set) /\ unifies set.
Proof.
  unfold open_from_spec. destruct (can_reserve ReaderVec (count spec)); [|done]. cbn [negb]. intros H.
  apply result_bind_ok in H as (rs & Hr & H). apply open_readers_ok in Hr as [Hl Hr].
  destruct (validate_shards_ok rs (count spec)) as [[E Hv]|[E _]]; rewrite E in H; [|done]. cbn [mbind result_bind] in H.
  destruct (merge_empty rs) as [(Hd & ts & os & Hm & Hz & Hu)|[_ Hm]]; rewrite Hm in H; [|done]. cbn [mbind result_bind] in H.
  pose proof (declared_spec None rs (total_tensors rs)) as Hs. unfold declared_split_tensor_count in H.
  destruct (declared_from None rs) as [o|e]; [|done]. cbn [mbind result_bind] in H.
  assert (Ho : o = None \/ o = Some (total_tensors rs)).
  { destruct o as [d|]; [|by left]. rewrite Hz in H. destruct (N.eqb_spec d (total_tensors rs)); [subst; by right|done]. }
  assert (set = {| readers := rs; set_metadata := match rs with r :: _ => h_metadata (fst r) | [] => ∅ end; set_tensors := ts; owners := os |}) as ->.
  { destruct Ho as [->| ->]; [by simplify_eq/=|]. rewrite Hz, N.eqb_refl in H. by simplify_eq/=. }
  split; [|apply Hu]. unfold consistent. cbn [readers]. split_and!; [lia|done..|by apply Hs].
Qed.

Lemma consistent_opens spec rs :
  can_reserve ReaderVec (count spec) = true -> consistent spec rs ->
  exists set, open_from_spec can_reserve reads fs spec = Ok set /\ readers set = rs.
Proof.
  intros Hc (Hl & Hr & Hv & Hd & Ht). unfold open_from_spec. rewrite Hc. cbn [negb].
  rewrite (proj2 (open_readers_ok spec (N.to_nat (count spec)) 1 rs)) by (split; [lia|done]). cbn [mbind result_bind].
  destruct (validate_shards_ok rs (count spec)) as [[-> _]|[_ Hn]]; [|done]. cbn [mbind result_bind].
  destruct (merge_empty rs) as [(_ & ts & os & -> & Hz & _)|[Hn _]]; [|done]. cbn [mbind result_bind].
  pose proof (declared_spec None rs (total_tensors rs)) as Hs. unfold declared_split_tensor_count.
  destruct (declared_from None rs) as [o|e]; [|destruct Hs as [[_ Hn]|(_ & Hn & _)]; done]. cbn [mbind result_bind].
  assert (Ho : o = None \/ o = Some (total_tensors rs)) by (apply Hs; auto).
  destruct Ho as [->| ->]; [by eexists|]. rewrite Hz, N.eqb_refl. by eexists.
Qed.

(** A shard set opens exactly when every shard is there, they agree with one another
    and with their names, no tensor is in two of them, and the declared number of tensors
    is the number there is. *)
Theorem shard_set_opens_iff (spec : GgufShardSpec) (Hc : can_reserve ReaderVec (count spec) = true) :
  (exists set, open_from_spec can_reserve reads fs spec = Ok set) <-> (exists rs, consistent spec rs).
Proof.
  split.
  - intros [set H]. apply open_from_spec_ok in H as [H _]. by eexists.
  - intros [rs H]. destruct (consistent_opens spec rs Hc H) as (set & Ho & _). by exists set.
Qed.

(** An open set reads every tensor of every shard, once, from the shard that holds it:
    a name is in the set exactly when one shard has it, with that shard's description,
    and its data is what that shard's reader gives. *)
Theorem shard_set_reads_through (spec : GgufShardSpec) (set : GgufShardSet)
    (Hopen : open_from_spec can_reserve reads fs spec = Ok set) (n : list byte) :
  match tensor_info set n with
  | None =>
      read_tensor_owned set n = Some (Ok None) /\ forall i r, readers set !! i = Some r -> h_tensors (fst r) !! n = None
  | Some info =>
      exists i r, readers set !! i = Some r /\ fs (path_for spec (1 + N.of_nat i)) = Some (snd r) /\
        h_tensors (fst r) !! n = Some info /\ read_tensor_owned set n = Some (read_tensor_data (fst r) (snd r) n) /\
        forall j r', readers set !! j = Some r' -> is_Some (h_tensors (fst r') !! n) -> j = i
  end.
Proof.
  apply open_from_spec_ok in Hopen as [(_ & Hf & _ & [Hd _] & _) [Ho Ht]].
  unfold tensor_info, read_tensor_owned. destruct (set_tensors set !! n) as [info|] eqn:Hn.
  - apply Ht in Hn as (i & j & r & Hr & -> & Hi). exists j, r. simpl in *.
    rewrite (proj2 (Ho n j)) by (by exists info, j, r). cbn [mbind option_bind]. rewrite Hr.
    destruct (Hf j r Hr) as [Hp _]. split_and!; [done..|]. intros j' r' Hr' [info' Hi'].
    apply (Hd n j' j info' info); [by exists j', r'|by exists j, r].
  - assert (Hno : forall i info, ~ holds (readers set) 0 n i info).
    { intros i info H. assert (set_tensors set !! n = Some info) by (apply Ht; eauto). congruence. }
    destruct (owners set !! n) as [i|] eqn:Ho'; [apply Ho in Ho' as [info H]; by apply Hno in H|].
    split; [done|]. intros i r Hr. apply eq_None_not_Some. intros [info Hi]. apply (Hno i info). by exists i, r.
Qed.
End specs.

(** ** A set of two files *)

Module Witness.
Definition kv_u32 (key : String.string) (n : N) : list byte := Gguf.Witness.text key ++ le_bytes 4 UINT32 ++ le_bytes 4 n.
(** Shard [i] of two, with one tensor of two [f32]s. *)
Definition shard (i : N) (tensor : String.string) (body : list byte) : list byte :=
  let h := GGUF_MAGIC ++ le_bytes 4 3 ++ le_bytes 8 1 ++ le_bytes 8 4 ++
    Gguf.Witness.text "general.architecture" ++ le_bytes 4 STRING ++ Gguf.Witness.text "llama" ++
    kv_u32 "split.no" i ++ kv_u32 "split.count" 2 ++ kv_u32 "split.tensors.count" 2 ++
    Gguf.Witness.text tensor ++ le_bytes 4 1 ++ le_bytes 8 2 ++ le_bytes 4 ggml_dtype.F32 ++ le_bytes 8 0 in
  h ++ repeat x00 (N.to_nat (pad_to 32 (N.of_nat (length h)))) ++ body.
Definition spec : GgufShardSpec := {| prefix := str "m"; count := 2; index_width := 5; count_width := 5 |}.
Definition body_a : list byte := repeat x0a 8.
Definition body_b : list byte := repeat x0b 8.
Definition disk (second : String.string) (name : list byte) : option (list byte) :=
  if bool_decide (name = str "m-00001-of-00002.gguf") then Some (shard 0 "a" body_a) else
  if bool_decide (name = str "m-00002-of-00002.gguf") then Some (shard 1 second body_b) else None.
Abbreviation opening second := (open_from_spec Gguf.Witness.heap [100] (disk second) spec).

Definition reads_well (set : GgufShardSet) : Prop :=
  read_tensor_owned set (str "a") = Some (Ok (Some body_a)) /\ read_tensor_owned set (str "b") = Some (Ok (Some body_b)).

Example reads_both : match opening "b" with Ok set => reads_well set | Err _ => False end.
Proof. vm_compute. done. Qed.

Example duplicate_refused : match opening "a" with Ok _ => False | Err e => e = Io InvalidData end.
Proof. vm_compute. done. Qed.

Lemma opens : exists set, opening "b" = Ok set.
Proof.
  assert (H : is_ok (opening "b") = true) by (vm_compute; reflexivity).
  destruct (opening "b") as [set|e]; [by exists set|done].
Qed.

Lemma on_ok {A} (r : result serr A) (a : A) (P : A -> Prop) :
  r = Ok a -> match r with Ok a => P a | Err _ => False end -> P a.
Proof. by intros ->. Qed.

Lemma shard_names_round_trip_witness :
  parse_shard_filename (str "m-00002-of-00002.gguf") = Ok (Some spec) /\
  parse_shard_filename (path_for spec 1) = Ok (Some spec).
Proof.
  assert (H : parse_shard_filename (str "m-00002-of-00002.gguf") = Ok (Some spec)) by (vm_compute; reflexivity).
  split; [exact H|]. apply (shard_names_round_trip _ _ H); [vm_compute; lia|simpl; lia].
Defined.

Lemma shard_set_opens_iff_witness : exists rs, consistent Gguf.Witness.heap [100] (disk "b") spec rs.
Proof. exact (proj1 (shard_set_opens_iff Gguf.Witness.heap [100] (disk "b") spec eq_refl) opens). Defined.

Lemma shard_set_reads_through_witness :
  exists set i r, opening "b" = Ok set /\ readers set !! i = Some r /\
    read_tensor_owned set (str "a") = Some (read_tensor_data (fst r) (snd r) (str "a")).
Proof.
  destruct opens as [set H]. destruct (on_ok (opening "b") set reads_well H reads_both) as [Hb _].
  pose proof (shard_set_reads_through Gguf.Witness.heap [100] (disk "b") spec set H (str "a")) as Ht.
  destruct (tensor_info set (str "a")); [|discriminate (eq_trans (eq_sym Hb) (proj1 Ht))].
  destruct Ht as (i & r & Hr & _ & _ & Hd & _). exists set, i, r. exact (conj H (conj Hr Hd)).
Defined.
End Witness.
