(* ===== verification/Numa.v ===== *)
(** CPU lists ([src/rust-engine/src/numa.rs]): parsing and printing of the kernel's list
    format, and which of the three sources of a mask applies.

    Text is the list of its characters, by code point.  The kernel's node-0 list and the
    number of online CPUs are parameters; setting and reading the affinity are system
    calls. *)
From S2P Require Import Prelude Gguf GgufShards.
From stdpp Require Import strings.
Local Open Scope N_scope.

Abbreviation text := (list N).

(** [libc::CPU_SETSIZE]. *)
Definition MAX_CPULIST_CPUS : N := 1024.

(** ** What the standard library does with text *)

(** [char::is_whitespace]. *)
Definition is_whitespace (c : N) : bool :=
  (9 <=? c) && (c <=? 13) || bool_decide (c ∈ [32; 133; 160; 5760]) || (8192 <=? c) && (c <=? 8202)
  || bool_decide (c ∈ [8232; 8233; 8239; 8287; 12288]).

Fixpoint trim_start (s : text) : text :=
  match s with [] => [] | c :: s' => if is_whitespace c then trim_start s' else s end.
Definition trim (s : text) : text := rev (trim_start (rev (trim_start s))).

(** [split(c)]: one part more than there are separators. *)
Fixpoint split (sep : N) (s : text) : list text :=
  match s with
  | [] => [[]]
  | c :: s =>
      if c =? sep then [] :: split sep s
      else match split sep s with [] => [[c]] | p :: ps => (c :: p) :: ps end
  end.

Fixpoint split_once (sep : N) (s : text) : option (text * text) :=
  match s with
  | [] => None
  | c :: s =>
      if c =? sep then Some ([], s) else
      match split_once sep s with Some (a, b) => Some (c :: a, b) | None => None end
  end.

(** [parse::<usize>]: an optional plus sign, then digits; overflow is an error. *)
Fixpoint parse_digits (acc : N) (s : text) : option N :=
  match s with
  | [] => Some acc
  | c :: s =>
      if (48 <=? c) && (c <=? 57) then
        let acc := acc * 10 + (c - 48) in
        if usize_max <? acc then None else parse_digits acc s
      else None
  end.
Definition parse_number (s : text) : option N :=
  match s with
  | [] => None
  | c :: s' => if (c =? 43) && negb (bool_decide (s' = [])) then parse_digits 0 s' else parse_digits 0 s
  end.

(** [to_string]. *)
Definition show (n : N) : text := Byte.to_N <$> zero_padded 0 n.

Definition comma : N := 44.
Definition dash : N := 45.

Fixpoint join (parts : list text) : text :=
  match parts with
  | [] => []
  | [p] => p
  | p :: ps => p ++ comma :: join ps
  end.

(** ** The list format *)

Inductive cpulist_error :=
| BadRangeStart | BadRangeEnd | Descending | RangeTooLarge | RangeTooLong | CpuTooBig | BadCpu
| EmptyMask | BadPinCores | ZeroPinCores.

Definition parse_range (a b : text) : result cpulist_error (list N) :=
  match parse_number (trim a) with
  | None => Err BadRangeStart
  | Some a =>
      match parse_number (trim b) with
      | None => Err BadRangeEnd
      | Some b =>
          if b <? a then Err Descending else
          if usize_max <? b - a + 1 then Err RangeTooLarge else
          if MAX_CPULIST_CPUS <? b - a + 1 then Err RangeTooLong else
          if MAX_CPULIST_CPUS <=? b then Err CpuTooBig else
          Ok ((fun i => a + i) <$> rangeN (b - a + 1))
      end
  end.

Definition parse_part (part : text) : result cpulist_error (list N) :=
  let part := trim part in
  if bool_decide (part = []) then Ok [] else
  match split_once dash part with
  | Some (a, b) => parse_range a b
  | None =>
      match parse_number part with
      | None => Err BadCpu
      | Some c => if MAX_CPULIST_CPUS <=? c then Err CpuTooBig else Ok [c]
      end
  end.

Fixpoint parse_parts (parts : list text) : result cpulist_error (list N) :=
  match parts with
  | [] => Ok []
  | p :: ps => l ← parse_part p; r ← parse_parts ps; Ok (l ++ r)
  end.

Definition parse_cpulist (s : text) : result cpulist_error (list N) :=
  parse_parts (split comma (trim s)).

(** [dedup]: consecutive repetitions. *)
Fixpoint dedup (l : list N) : list N :=
  match l with
  | x :: (y :: _) as l' => if x =? y then dedup l' else x :: dedup l'
  | l => l
  end.

Definition normalize_cpus (cpus : list N) : list N := dedup (sort_by_key (fun c => c) cpus).

Definition push_cpulist_range (start end_ : N) : text :=
  if start =? end_ then show start else show start ++ dash :: show end_.

(** The loop of [format_cpulist], from the second CPU on. *)
Fixpoint format_ranges (start prev : N) (cpus : list N) : list text :=
  match cpus with
  | [] => [push_cpulist_range start prev]
  | cpu :: cpus =>
      if cpu =? prev + 1 then format_ranges start cpu cpus
      else push_cpulist_range start prev :: format_ranges cpu cpu cpus
  end.

Definition format_cpulist (cpus : list N) : text :=
  match normalize_cpus cpus with
  | [] => []
  | c :: cpus => join (format_ranges c c cpus)
  end.

(** ** Which mask applies *)

Inductive CpuMaskSource := Cli | Config | LegacyMerPinCores.

Record CpuMaskRequest := { source : CpuMaskSource; cpus : list N; display : text }.

Definition nonempty (s : text) : option text :=
  if bool_decide (trim s = []) then None else Some (trim s).

Definition parse_explicit_cpu_mask (mask : text) (src : CpuMaskSource) : result cpulist_error CpuMaskRequest :=
  l ← parse_cpulist mask;
  let l := normalize_cpus l in
  if bool_decide (l = []) then Err EmptyMask
  else Ok {| source := src; cpus := l; display := format_cpulist l |}.

Section resolve.
(** [/sys/devices/system/node/node0/cpulist], and the number of CPUs online. *)
Variables (node0 : option text) (online : N).

Definition first_n_node0_or_online_cpus (n : N) : list N :=
  let found := match node0 with
               | Some s => match parse_cpulist s with Ok l => l | Err _ => rangeN online end
               | None => rangeN online
               end in
  take (N.to_nat n) (normalize_cpus found).

Definition resolve_cpu_mask_request (cli config legacy : option text)
  : result cpulist_error (option CpuMaskRequest) :=
  match cli ≫= nonempty with
  | Some mask => r ← parse_explicit_cpu_mask mask Cli; Ok (Some r)
  | None =>
      match config ≫= nonempty with
      | Some mask => r ← parse_explicit_cpu_mask mask Config; Ok (Some r)
      | None =>
          match legacy ≫= nonempty with
          | None => Ok None
          | Some raw =>
              match parse_number raw with
              | None => Err BadPinCores
              | Some n =>
                  if n =? 0 then Err ZeroPinCores else
                  let l := first_n_node0_or_online_cpus n in
                  if bool_decide (l = []) then Err EmptyMask
                  else Ok (Some {| source := LegacyMerPinCores; cpus := l; display := format_cpulist l |})
              end
          end
      end
  end.
End resolve.

(** ** Text lemmas *)

Definition plain (c : N) : Prop := c <> comma /\ is_whitespace c = false.

Lemma trim_start_plain s : Forall plain s -> trim_start s = s.
Proof. destruct 1 as [|c s [_ Hw] _]; simpl; [done|]. by rewrite Hw. Qed.

Lemma trim_plain s : Forall plain s -> trim s = s.
Proof.
  intros Hs. unfold trim. rewrite (trim_start_plain s Hs), trim_start_plain, rev_involutive; [done|].
  by apply Forall_rev.
Qed.

Lemma split_plain s : Forall plain s -> split comma s = [s].
Proof.
  induction 1 as [|c s [Hc _] _ IH]; simpl; [done|].
  by rewrite (proj2 (N.eqb_neq _ _)), IH.
Qed.

Lemma split_app s t : Forall plain s -> split comma (s ++ comma :: t) = s :: split comma t.
Proof.
  induction 1 as [|c s [Hc _] _ IH]; simpl; [done|].
  by rewrite (proj2 (N.eqb_neq _ _)), IH.
Qed.

Lemma split_join parts : parts <> [] -> Forall (Forall plain) parts -> split comma (join parts) = parts.
Proof.
  intros Hne Hp. induction Hp as [|p parts Hpl Hp IH]; [done|]. destruct parts as [|q parts]; simpl.
  - by apply split_plain.
  - rewrite split_app by done. f_equal. by apply IH.
Qed.

Lemma trim_join parts : Forall (Forall plain) parts -> Forall (fun p => p <> []) parts -> trim (join parts) = join parts.
Proof.
  intros Hp Hne. assert (Hstart : forall l, Forall (Forall plain) l -> Forall (fun p => p <> []) l -> trim_start (join l) = join l).
  { intros l Hl Hn. destruct Hl as [|p l Hpl Hl]; [done|]. apply Forall_cons in Hn as [Hpn _].
    destruct p as [|c p]; [done|]. apply Forall_cons in Hpl as [[_ Hw] _].
    destruct l; simpl; by rewrite Hw. }
  assert (Hend : forall l, l <> [] -> Forall (Forall plain) l -> Forall (fun p => p <> []) l ->
    exists s c, join l = s ++ [c] /\ is_whitespace c = false).
  { intros l Hln Hl. induction Hl as [|p l Hpl Hl IH]; [done|]. intros [Hpn Hn]%Forall_cons.
    destruct l as [|q l].
    - destruct p as [|c p] using rev_ind; [done|]. apply Forall_app in Hpl as [_ [[_ Hw] _]%Forall_cons].
      by exists p, c.
    - destruct IH as (s & c & Hj & Hw); [done..|]. exists (p ++ comma :: s), c. split; [|done].
      change (join (p :: q :: l)) with (p ++ comma :: join (q :: l)). by rewrite Hj, <-app_assoc. }
  unfold trim. rewrite Hstart by done. destruct (decide (parts = [])) as [->|Hne']; [done|].
  destruct (Hend parts Hne' Hp Hne) as (s & c & -> & Hw). rewrite rev_app_distr. simpl. rewrite Hw.
  simpl. by rewrite rev_involutive.
Qed.

Lemma split_once_none s : dash ∉ s -> split_once dash s = None.
Proof.
  induction s as [|c s IH]; intros Hn; simpl; [done|]. apply not_elem_of_cons in Hn as [Hc Hn].
  rewrite (proj2 (N.eqb_neq _ _)), IH by done. done.
Qed.

Lemma split_once_app s t : dash ∉ s -> split_once dash (s ++ dash :: t) = Some (s, t).
Proof.
  induction s as [|c s IH]; intros Hn; simpl; [done|]. apply not_elem_of_cons in Hn as [Hc Hn].
  rewrite (proj2 (N.eqb_neq _ _)), IH by done. done.
Qed.

(** ** Numbers *)

Definition is_digit (c : N) : Prop := 48 <= c <= 57.

Lemma digit_plain c : is_digit c -> plain c /\ c <> dash.
Proof.
  unfold is_digit, plain, is_whitespace, comma, dash. intros Hc. split_and!; try lia.
  rewrite !orb_false_iff, !andb_false_iff, !N.leb_gt, !bool_decide_eq_false.
  split_and!; [right; lia|set_solver by lia|left; lia|set_solver by lia].
Qed.

Lemma show_digits n : Forall is_digit (show n).
Proof.
  unfold show, zero_padded. apply Forall_fmap. pose proof (digits_are_digits (Nat.max 0 (num_digits n)) n) as Hd.
  rewrite forallb_forall in Hd. apply Forall_forall. intros b Hb%list_elem_of_In. specialize (Hd b Hb).
  unfold is_ascii_digit in Hd. apply andb_true_iff in Hd as [?%N.leb_le ?%N.leb_le]. by split.
Qed.

Lemma show_plain n : Forall plain (show n) /\ dash ∉ show n.
Proof.
  pose proof (show_digits n) as Hd. split.
  - eapply Forall_impl; [exact Hd|]. intros c Hc. by apply digit_plain.
  - intros Hin. rewrite Forall_forall in Hd. by destruct (digit_plain _ (Hd _ Hin)).
Qed.

Lemma show_nonempty n : show n <> [].
Proof.
  unfold show, zero_padded. intros He%(f_equal length). rewrite length_fmap, length_digits in He.
  pose proof (num_digits_ge_1 n). simpl in He. lia.
Qed.

Lemma fold_digits_ge s acc : acc <= foldl (fun n b => n * 10 + digit_val b) acc s.
Proof. revert acc. induction s as [|b s IH]; intros acc; simpl; [done|]. etrans; [|apply IH]. lia. Qed.

Lemma parse_digits_fold s : forall acc,
  forallb is_ascii_digit s = true -> foldl (fun n b => n * 10 + digit_val b) acc s <= usize_max ->
  parse_digits acc (Byte.to_N <$> s) = Some (foldl (fun n b => n * 10 + digit_val b) acc s).
Proof.
  induction s as [|b s IH]; intros acc Hs Hm; simpl in *; [done|].
  apply andb_true_iff in Hs as [Hb Hs]. unfold is_ascii_digit in Hb. rewrite Hb.
  pose proof (fold_digits_ge s (acc * 10 + digit_val b)) as Hge. unfold digit_val in *.
  rewrite (proj2 (N.ltb_ge _ _)) by lia. by apply IH.
Qed.

Lemma parse_show n : n <= usize_max -> parse_number (show n) = Some n.
Proof.
  intros Hn. pose proof (show_digits n) as Hd. unfold parse_number.
  destruct (show n) as [|c s] eqn:E; [by destruct (show_nonempty n)|].
  apply Forall_cons in Hd as [[Hc _] _]. rewrite (proj2 (N.eqb_neq c 43)) by lia. cbn [andb]. rewrite <-E.
  unfold show. pose proof (val_of_padded 0 n Hn) as Hv. unfold digits_val in Hv.
  rewrite parse_digits_fold, Hv; [done|apply digits_are_digits|by rewrite Hv].
Qed.

(** ** Sorted sets of CPUs *)

Lemma dedup_sorted l :
  StronglySorted N.le l -> StronglySorted N.lt (dedup l) /\ forall x, x ∈ dedup l <-> x ∈ l.
Proof.
  induction 1 as [|x l Hs [IHs IHe] Hx]; [by split; [constructor|]|].
  destruct l as [|y l]; [simpl; split; [by repeat constructor|done]|].
  change (dedup (x :: y :: l)) with (if x =? y then dedup (y :: l) else x :: dedup (y :: l)).
  apply Forall_cons in Hx as [Hxy Hx]. destruct (N.eqb_spec x y) as [->|Hne].
  - split; [done|]. intros z. rewrite IHe. set_solver.
  - split; [|intros z; rewrite !elem_of_cons, IHe; set_solver].
    constructor; [done|]. apply Forall_forall. intros z [->|Hz]%IHe%elem_of_cons; [lia|].
    assert (x <= z) by (rewrite Forall_forall in Hx; by apply Hx).
    apply StronglySorted_inv in Hs as [_ Hy]. rewrite Forall_forall in Hy. specialize (Hy z Hz). lia.
Qed.

Lemma normalize_sorted l :
  StronglySorted N.lt (normalize_cpus l) /\ forall x, x ∈ normalize_cpus l <-> x ∈ l.
Proof.
  destruct (dedup_sorted (sort_by_key (fun c => c) l)) as [Hs He].
  { pose proof (sort_by_key_sorted (fun c : N => c) l) as Hs. unfold key_le in Hs. exact Hs. }
  split; [done|]. intros x. unfold normalize_cpus. by rewrite He, sort_by_key_perm.
Qed.

Lemma sorted_unique (l k : list N) :
  StronglySorted N.lt l -> StronglySorted N.lt k -> (forall x, x ∈ l <-> x ∈ k) -> l = k.
Proof.
  intros Hl. revert k. induction Hl as [|x l Hl IH Hx]; intros k Hk He.
  - destruct k as [|y k]; [done|]. destruct (He y) as [_ Hy]. specialize (Hy ltac:(by left)). by apply elem_of_nil in Hy.
  - destruct k as [|y k]; [destruct (He x) as [Hin _]; specialize (Hin ltac:(by left)); by apply elem_of_nil in Hin|].
    apply StronglySorted_inv in Hk as [Hk Hy]. rewrite Forall_forall in Hx, Hy.
    assert (x = y) as ->.
    { destruct (He x) as [Hxk _]. destruct (He y) as [_ Hyl].
      specialize (Hxk ltac:(by left)). specialize (Hyl ltac:(by left)).
      apply elem_of_cons in Hxk as [->|Hxk]; [done|]. apply elem_of_cons in Hyl as [->|Hyl]; [done|].
      specialize (Hx _ Hyl). specialize (Hy _ Hxk). lia. }
    f_equal. apply IH; [done|]. intros z. specialize (He z). rewrite !elem_of_cons in He.
    split; intros Hz; [destruct He as [[->|] _]; [by right| |done]|destruct He as [_ [->|]]; [by right| |done]].
    + specialize (Hx _ Hz). lia.
    + specialize (Hy _ Hz). lia.
Qed.

Lemma normalize_id l : StronglySorted N.lt l -> normalize_cpus l = l.
Proof. intros Hl. destruct (normalize_sorted l). by apply sorted_unique. Qed.

(** ** Printing then parsing *)

Definition span (a b : N) : list N := (fun i => a + i) <$> rangeN (b - a + 1).

Lemma span_snoc a b : a <= b -> span a (b + 1) = span a b ++ [b + 1].
Proof.
  intros Hab. unfold span. replace (b + 1 - a + 1) with (b - a + 1 + 1) by lia.
  rewrite rangeN_succ, fmap_app. cbn. f_equal. f_equal. lia.
Qed.

Lemma span_one a : span a a = [a].
Proof. unfold span. rewrite N.sub_diag. change (rangeN (0 + 1)) with [0]. simpl. by rewrite N.add_0_r. Qed.

Lemma parse_part_range a b : a <= b < MAX_CPULIST_CPUS -> parse_part (push_cpulist_range a b) = Ok (span a b).
Proof.
  intros Hab. unfold push_cpulist_range, parse_part, MAX_CPULIST_CPUS in *.
  destruct (show_plain a) as [Ha Hda]. destruct (show_plain b) as [Hb Hdb].
  assert (Hu : 1024 <= usize_max) by done. destruct (N.eqb_spec a b) as [->|Hne].
  - rewrite trim_plain, bool_decide_false, split_once_none, parse_show by (done || apply show_nonempty || lia).
    rewrite (proj2 (N.leb_gt _ _)) by lia. by rewrite span_one.
  - assert (Hp : Forall plain (show a ++ dash :: show b))
      by (apply Forall_app; split; [done|by constructor]).
    rewrite trim_plain, bool_decide_false, split_once_app by (done || intros [? ?]%app_eq_nil; done).
    unfold parse_range. rewrite !trim_plain, !parse_show by (done || lia).
    unfold MAX_CPULIST_CPUS. repeat rewrite (proj2 (N.ltb_ge _ _)) by lia. by rewrite (proj2 (N.leb_gt _ _)) by lia.
Qed.

Lemma parse_ranges cpus : forall start prev,
  start <= prev -> StronglySorted N.lt (prev :: cpus) -> Forall (fun c => c < MAX_CPULIST_CPUS) (prev :: cpus) ->
  parse_parts (format_ranges start prev cpus) = Ok (span start prev ++ cpus).
Proof.
  induction cpus as [|c cpus IH]; intros start prev Hsp Hs Hb.
  - simpl. rewrite parse_part_range by (apply Forall_cons in Hb as [Hb _]; lia). simpl. by rewrite app_nil_r.
  - apply StronglySorted_inv in Hs as [Hs Hlt]. apply Forall_cons in Hb as [Hp Hb].
    apply Forall_cons in Hlt as [Hpc _]. cbn [format_ranges]. destruct (N.eqb_spec c (prev + 1)) as [->|Hne].
    + rewrite IH by (done || lia). by rewrite span_snoc, <-app_assoc.
    + cbn [parse_parts]. rewrite parse_part_range, IH by (done || lia). cbn. by rewrite span_one.
Qed.

Lemma format_ranges_plain cpus : forall start prev,
  Forall (Forall plain) (format_ranges start prev cpus) /\ Forall (fun p => p <> []) (format_ranges start prev cpus) /\
  format_ranges start prev cpus <> [].
Proof.
  assert (Hpush : forall a b, Forall plain (push_cpulist_range a b) /\ push_cpulist_range a b <> []).
  { intros a b. unfold push_cpulist_range. destruct (show_plain a) as [Ha _]. destruct (show_plain b) as [Hb _].
    pose proof (show_nonempty a) as Hn. destruct (a =? b); [done|]. split.
    - apply Forall_app. split; [done|by constructor].
    - by intros [? ?]%app_eq_nil. }
  induction cpus as [|c cpus IH]; intros start prev; cbn [format_ranges].
  - destruct (Hpush start prev). split_and!; [by constructor|by constructor|done].
  - destruct (c =? prev + 1); [apply IH|]. destruct (Hpush start prev). destruct (IH c c) as (H1 & H2 & _).
    split_and!; [by constructor|by constructor|done].
Qed.

(** C21. Printing a set of CPUs and parsing the text gives the set back, sorted and without
    repetitions, for every list of CPUs the machine can have. *)
Theorem cpulist_round_trip (l : list N) :
  Forall (fun c => c < MAX_CPULIST_CPUS) l ->
  parse_cpulist (format_cpulist l) = Ok (normalize_cpus l).
Proof.
  intros Hl. unfold format_cpulist, parse_cpulist. destruct (normalize_sorted l) as [Hs He].
  assert (Hb : Forall (fun c => c < MAX_CPULIST_CPUS) (normalize_cpus l))
    by (rewrite Forall_forall in *; intros x Hx; by apply Hl, He).
  destruct (normalize_cpus l) as [|c cpus]; [done|].
  destruct (format_ranges_plain cpus c c) as (Hp & Hne & Hn).
  rewrite trim_join, split_join, parse_ranges, span_one by (done || lia). done.
Qed.

(** ** Masks *)

Lemma parse_part_bounds p l : parse_part p = Ok l -> Forall (fun c => c < MAX_CPULIST_CPUS) l.
Proof.
  unfold parse_part, parse_range. repeat case_match; intros [= <-]; try done.
  all: repeat match goal with
    | H : (_ <=? _) = false |- _ => apply N.leb_gt in H
    | H : (_ <? _) = false |- _ => apply N.ltb_ge in H
    end.
  - apply Forall_fmap, Forall_forall. intros x Hx%elem_of_rangeN. simpl. lia.
  - by repeat constructor.
Qed.

Lemma parse_cpulist_bounds s l : parse_cpulist s = Ok l -> Forall (fun c => c < MAX_CPULIST_CPUS) l.
Proof.
  unfold parse_cpulist. generalize (split comma (trim s)). intros ps. revert l.
  induction ps as [|p ps IH]; intros l; simpl; [by intros [= <-]|].
  destruct (parse_part p) as [l1|] eqn:E1; simpl; [|done].
  destruct (parse_parts ps) as [l2|]; simpl; [|done]. intros [= <-].
  apply Forall_app. split; [by eapply parse_part_bounds|by apply IH].
Qed.

Lemma display_parses l :
  StronglySorted N.lt l -> Forall (fun c => c < MAX_CPULIST_CPUS) l -> parse_cpulist (format_cpulist l) = Ok l.
Proof.
  intros Hs Hb. unfold format_cpulist, parse_cpulist. rewrite normalize_id by done.
  destruct l as [|c cpus]; [done|]. destruct (format_ranges_plain cpus c c) as (Hp & Hne & Hn).
  rewrite trim_join, split_join, parse_ranges, span_one by (done || lia). done.
Qed.

Definition mask_ok (r : CpuMaskRequest) : Prop :=
  cpus r <> [] /\ StronglySorted N.lt (cpus r) /\ Forall (fun c => c < MAX_CPULIST_CPUS) (cpus r) /\
  parse_cpulist (display r) = Ok (cpus r).

Lemma explicit_mask_ok mask src r : parse_explicit_cpu_mask mask src = Ok r -> mask_ok r /\ source r = src.
Proof.
  unfold parse_explicit_cpu_mask. destruct (parse_cpulist mask) as [l|] eqn:E; simpl; [|done].
  destruct (normalize_sorted l) as [Hs He].
  assert (Hb : Forall (fun c => c < MAX_CPULIST_CPUS) (normalize_cpus l)).
  { pose proof (parse_cpulist_bounds _ _ E) as Hl. rewrite Forall_forall in *. intros x Hx. by apply Hl, He. }
  case_bool_decide; [done|]. intros [= <-]. split; [|done]. split_and!; simpl; [done..|by apply display_parses].
Qed.

(** Whichever source a mask comes from, what is applied is a non-empty set of CPUs the
    kernel mask can hold, sorted, and the text that is displayed denotes exactly that
    set.  The command line takes precedence over the configuration and that over
    MER_PIN_CORES; a source that is present decides, with its errors, whatever the
    later ones say. *)
Theorem resolved_masks_are_displayed node0 online cli config legacy :
  online <= MAX_CPULIST_CPUS ->
  let res := resolve_cpu_mask_request node0 online cli config legacy in
  match res with Ok (Some r) => mask_ok r | _ => True end /\
  match cli ≫= nonempty, config ≫= nonempty with
  | Some mask, _ => res = (r ← parse_explicit_cpu_mask mask Cli; Ok (Some r))
  | None, Some mask => res = (r ← parse_explicit_cpu_mask mask Config; Ok (Some r))
  | None, None => legacy ≫= nonempty = None -> res = Ok None
  end.
Proof.
  intros Hon res. unfold res, resolve_cpu_mask_request. clear res.
  destruct (cli ≫= nonempty) as [mask|].
  { split; [|done]. destruct (parse_explicit_cpu_mask mask Cli) as [r|] eqn:E; [|done]. by apply explicit_mask_ok in E as [? _]. }
  destruct (config ≫= nonempty) as [mask|].
  { split; [|done]. destruct (parse_explicit_cpu_mask mask Config) as [r|] eqn:E; [|done]. by apply explicit_mask_ok in E as [? _]. }
  split; [|by intros ->]. destruct (legacy ≫= nonempty) as [raw|]; [|done].
  destruct (parse_number raw) as [n|]; [|done]. destruct (n =? 0); [done|]. case_bool_decide as Hne; [done|].
  unfold first_n_node0_or_online_cpus in *. set (found := match node0 with Some _ => _ | None => _ end) in *.
  assert (Hf : Forall (fun c => c < MAX_CPULIST_CPUS) found).
  { assert (Hr : Forall (fun c => c < MAX_CPULIST_CPUS) (rangeN online))
      by (apply Forall_forall; intros x Hx%elem_of_rangeN; lia).
    unfold found. destruct node0 as [s|]; [|done].
    destruct (parse_cpulist s) as [l|] eqn:E; [by apply (parse_cpulist_bounds s)|done]. }
  destruct (normalize_sorted found) as [Hs He].
  assert (Hb : Forall (fun c => c < MAX_CPULIST_CPUS) (normalize_cpus found))
    by (rewrite Forall_forall in *; intros x Hx; by apply Hf, He).
  assert (Hst : StronglySorted N.lt (take (N.to_nat n) (normalize_cpus found))).
  { clear -Hs. generalize (N.to_nat n). induction Hs as [|x l Hl IH Hx]; intros [|k]; simpl; try constructor.
    - apply IH.
    - by apply Forall_take. }
  assert (Hbt := Forall_take _ (N.to_nat n) _ Hb). split_and!; simpl; [done..|by apply display_parses].
Qed.

Module Witness.
Definition text_of (s : String.string) : text := Byte.to_N <$> str s.

Lemma cpulist_round_trip_witness :
  format_cpulist [5; 0; 1; 2; 9; 1] = text_of "0-2,5,9"%string /\
  parse_cpulist (text_of "0-2,5,9"%string) = Ok [0; 1; 2; 5; 9].
Proof.
  assert (E : format_cpulist [5; 0; 1; 2; 9; 1] = text_of "0-2,5,9"%string) by (vm_compute; reflexivity).
  split; [exact E|]. rewrite <-E.
  assert (Hb : Forall (fun c => c < MAX_CPULIST_CPUS) [5; 0; 1; 2; 9; 1]) by (repeat constructor).
  exact (cpulist_round_trip _ Hb).
Defined.

Lemma resolved_masks_are_displayed_witness :
  exists r, resolve_cpu_mask_request (Some (text_of "0-3"%string)) 8 None (Some (text_of "  "%string)) (Some (text_of "2"%string))
    = Ok (Some r) /\ cpus r = [0; 1] /\ mask_ok r.
Proof.
  assert (Hon : 8 <= MAX_CPULIST_CPUS) by (vm_compute; discriminate).
  pose proof (resolved_masks_are_displayed (Some (text_of "0-3"%string)) 8 None (Some (text_of "  "%string))
    (Some (text_of "2"%string)) Hon) as [Hok _].
  destruct (resolve_cpu_mask_request _ _ _ _ _) as [[r|]|] eqn:E; [|vm_compute in E; discriminate E..].
  exists r. split; [reflexivity|]. split; [|exact Hok]. vm_compute in E. by injection E as <-.
Defined.
End Witness.
