(* ===== verification/ExpertVram.v ===== *)
(** The VRAM plan of the native GPU path ([src/rust-engine/src/backend/gpu_native.rs]
    and [gpu_native_residency.rs]): the geometry of a Q4_0 expert slot, slot locations,
    the banks an arena is allocated in, the largest arena within a budget, the
    model-wide plan, and the namespace of layers and experts.

    [wgpu::Limits] is a record of the limits the code reads.  Error values keep their
    constructor; the numbers they carry only feed messages. *)
From S2P Require Import Prelude Layout.
Local Open Scope N_scope.

(** ** Constants *)

Definition MAX_GPU_NATIVE_ROUTER_EXPERTS : N := 128.
Definition MAX_GPU_NATIVE_ROUTER_TOP_K : N := 8.
Definition MAX_GPU_NATIVE_EXPERT_BANKS : N := 4.
Definition GPU_NATIVE_EXPERT_LOCATION_BANK_SHIFT : N := 30.
Definition GPU_NATIVE_EXPERT_LOCATION_SLOT_MASK : N := 2 ^ 30 - 1.
Definition GPU_NATIVE_EXPERT_UNMAPPED : N := u32_max.
Definition GPU_NATIVE_EXPERT_SLOT_EPOCH_BYTES : N := 4.
Definition GPU_NATIVE_EXPERT_MAPPING_ENTRY_BYTES : N := 8.
Definition GPU_NATIVE_EXPERT_REQUIRED_STORAGE_BUFFERS : N := 8.
Definition GPU_NATIVE_EXPERT_PUSH_CONSTANT_BYTES : N := 32.
Definition GPU_NATIVE_EXPERT_WORKGROUP_SIZE : N := 64.

(** ** Errors *)

(** The variants of the router geometry, of the Q4_0 experts and of a lost device. *)
Inductive GpuNativeBootstrapError :=
| InvalidDModel | InvalidRouterExpertCount | InvalidRouterTopK | RouterGeometryOverflow
| InvalidExpertDff | ExpertQ4GeometryIncompatible | ExpertGeometryOverflow
| ExpertLocationUnrepresentable | InvalidExpertSlotEpoch
| InvalidExpertSlotCapacity | ExpertArenaBankCapacity | ExpertArenaBankLimit
| ExpertArenaBudgetOverflow | ExpertArenaBudgetTooSmall | ExpertResidentCountExceedsCapacity
| ExpertBankOutOfRange | ExpertSlotOutOfRange
| ExpertStorageBuffersUnsupported | ExpertPushConstantsUnsupported | ExpertWorkgroupUnsupported
| ExpertPayloadTooShort | ExpertPayloadTrailingBytes | ExpertPayloadNonZeroPadding
| ExpertPhysicalSlotDestinationLength | ExpertLogicalIdOutOfRange | InvalidExpertLogicalGeneration
| DuplicateExpertLogicalId | DuplicateExpertPhysicalLocation | ExpertLayerMismatch
| ExpertInstallReservationLost | ExpertSlotEpochExhausted | ExpertInstallTicketExhausted
| ExpertDirectStagingUnavailable | ExpertDModelMismatch | ForeignExpertArena
| ExpertRouterGeometryMismatch | ForeignExpertScratch
| StartupAllocation | DeviceLost.

Abbreviation gres := (result GpuNativeBootstrapError).

(** ** Geometry *)

Record GpuNativeRouterGeometry := { r_d_model : N; r_num_experts : N; r_top_k : N }.

Definition router_geometry (d_model num_experts top_k : N) : gres GpuNativeRouterGeometry :=
  if d_model =? 0 then Err InvalidDModel else
  if (num_experts =? 0) || (MAX_GPU_NATIVE_ROUTER_EXPERTS <? num_experts) then Err InvalidRouterExpertCount else
  if (top_k =? 0) || (MAX_GPU_NATIVE_ROUTER_TOP_K <? top_k) || (num_experts <? top_k) then Err InvalidRouterTopK else
  gate_elements ← ok_or (checked_mul usize_max d_model num_experts) RouterGeometryOverflow;
  if (u32_max <? d_model) || (u32_max <? num_experts) || (u32_max <? top_k) || (u32_max <? gate_elements)
  then Err RouterGeometryOverflow
  else Ok {| r_d_model := d_model; r_num_experts := num_experts; r_top_k := top_k |}.

Record GpuNativeQ4ExpertGeometry := {
  d_model : N;
  d_ff : N;
  num_experts : N;
  top_k : N;
  blocks_per_projection : N;
  logical_expert_bytes : N;
  slot_stride_bytes : N;
}.
#[export] Instance geometry_eq_dec : EqDecision GpuNativeQ4ExpertGeometry.
Proof. solve_decision. Defined.

Definition geometry_try_new (d_model d_ff num_experts top_k : N) : gres GpuNativeQ4ExpertGeometry :=
  _ ← router_geometry d_model num_experts top_k;
  if d_ff =? 0 then Err InvalidExpertDff else
  if negb (d_model mod Q4_0_BLOCK_ELEMS =? 0) || negb (d_ff mod Q4_0_BLOCK_ELEMS =? 0)
  then Err ExpertQ4GeometryIncompatible else
  projection_elements ← ok_or (checked_mul usize_max d_model d_ff) ExpertGeometryOverflow;
  let blocks_per_projection := projection_elements / Q4_0_BLOCK_ELEMS in
  logical_expert_bytes ← ok_or (blocks ← checked_mul usize_max blocks_per_projection 3;
                                checked_mul usize_max blocks Q4_0_BLOCK_BYTES) ExpertGeometryOverflow;
  slot_stride_bytes ← ok_or (bytes ← checked_add usize_max GPU_NATIVE_EXPERT_SLOT_EPOCH_BYTES logical_expert_bytes;
                             bytes ← checked_add usize_max bytes 3;
                             Some (N.ldiff bytes 3)) ExpertGeometryOverflow;
  route_output_elements ← ok_or (checked_mul usize_max top_k d_model) ExpertGeometryOverflow;
  if (u32_max <? d_ff) || (u32_max <? projection_elements) || (u32_max <? blocks_per_projection)
     || (u32_max <? logical_expert_bytes) || (u32_max <? slot_stride_bytes) || (u32_max <? route_output_elements)
  then Err ExpertGeometryOverflow
  else Ok {| d_model := d_model; d_ff := d_ff; num_experts := num_experts; top_k := top_k;
             blocks_per_projection := blocks_per_projection;
             logical_expert_bytes := logical_expert_bytes; slot_stride_bytes := slot_stride_bytes |}.

Definition payload_offset_bytes : N := GPU_NATIVE_EXPERT_SLOT_EPOCH_BYTES.
Definition physical_payload_bytes (g : GpuNativeQ4ExpertGeometry) : N :=
  slot_stride_bytes g - GPU_NATIVE_EXPERT_SLOT_EPOCH_BYTES.

(** ** Slot locations *)

Record GpuNativeQ4ExpertLocation := { bank : N; slot : N }.
#[export] Instance location_eq_dec : EqDecision GpuNativeQ4ExpertLocation.
Proof. solve_decision. Defined.

Definition pack (l : GpuNativeQ4ExpertLocation) : gres N :=
  if (MAX_GPU_NATIVE_EXPERT_BANKS <=? bank l) || (GPU_NATIVE_EXPERT_LOCATION_SLOT_MASK <? slot l)
  then Err ExpertLocationUnrepresentable else
  let packed := N.lor (N.shiftl (bank l) GPU_NATIVE_EXPERT_LOCATION_BANK_SHIFT) (slot l) in
  if packed =? GPU_NATIVE_EXPERT_UNMAPPED then Err ExpertLocationUnrepresentable else Ok packed.
Definition location_try_new (b s : N) : gres GpuNativeQ4ExpertLocation :=
  let location := {| bank := b; slot := s |} in
  _ ← pack location; Ok location.
Definition unpack (packed : N) : option GpuNativeQ4ExpertLocation :=
  if packed =? GPU_NATIVE_EXPERT_UNMAPPED then None else
  Some {| bank := N.shiftr packed GPU_NATIVE_EXPERT_LOCATION_BANK_SHIFT;
          slot := N.land packed GPU_NATIVE_EXPERT_LOCATION_SLOT_MASK |}.

(** ** Banks *)

Record Limits := {
  max_buffer_size : N;
  max_storage_buffer_binding_size : N;
  max_storage_buffers_per_shader_stage : N;
  max_push_constant_size : N;
  max_compute_workgroup_size_x : N;
  max_compute_invocations_per_workgroup : N;
}.

Record GpuNativeQ4ExpertBankLayout := { b_slot_capacity : N; allocation_bytes : N }.
#[export] Instance bank_layout_eq_dec : EqDecision GpuNativeQ4ExpertBankLayout.
Proof. solve_decision. Defined.

(** [banks] has four entries. *)
Record GpuNativeQ4ExpertArenaLayout := {
  slot_capacity : N;
  active_banks : N;
  banks : list GpuNativeQ4ExpertBankLayout;
  mapping_bytes : N;
}.
#[export] Instance layout_eq_dec : EqDecision GpuNativeQ4ExpertArenaLayout.
Proof. solve_decision. Defined.

Definition maximum_bank_bytes (l : Limits) : N :=
  N.min (N.min (max_buffer_size l) (max_storage_buffer_binding_size l)) (N.ldiff u32_max 3).
Definition maximum_slots_per_bank (g : GpuNativeQ4ExpertGeometry) (l : Limits) : N :=
  N.min (maximum_bank_bytes l / slot_stride_bytes g) GPU_NATIVE_EXPERT_LOCATION_SLOT_MASK.

Definition unused_bank : GpuNativeQ4ExpertBankLayout := {| b_slot_capacity := 0; allocation_bytes := 4 |}.

(** The loop over the banks in use; [n] of them are left. *)
Fixpoint fill_banks (stride maximum_slots maximum_bytes : N) (n : nat) (remaining : N)
    : gres (list GpuNativeQ4ExpertBankLayout) :=
  match n with
  | O => Ok []
  | S n =>
      let slots := N.min remaining maximum_slots in
      bytes ← ok_or (checked_mul u64_max slots stride) ExpertArenaBankCapacity;
      if maximum_bytes <? bytes then Err ExpertArenaBankCapacity else
      rest ← fill_banks stride maximum_slots maximum_bytes n (remaining - slots);
      Ok ({| b_slot_capacity := slots; allocation_bytes := bytes |} :: rest)
  end.

Definition layout_try_new (g : GpuNativeQ4ExpertGeometry) (slot_capacity : N) (l : Limits)
    : gres GpuNativeQ4ExpertArenaLayout :=
  if slot_capacity =? 0 then Err InvalidExpertSlotCapacity else
  let maximum_slots := maximum_slots_per_bank g l in
  if maximum_slots =? 0 then Err ExpertArenaBankCapacity else
  let required_banks := div_ceil slot_capacity maximum_slots in
  if MAX_GPU_NATIVE_EXPERT_BANKS <? required_banks then Err ExpertArenaBankLimit else
  used ← fill_banks (slot_stride_bytes g) maximum_slots (maximum_bank_bytes l) (N.to_nat required_banks) slot_capacity;
  mapping_bytes ← ok_or (checked_mul usize_max (num_experts g) GPU_NATIVE_EXPERT_MAPPING_ENTRY_BYTES) ExpertGeometryOverflow;
  Ok {| slot_capacity := slot_capacity; active_banks := required_banks;
        banks := used ++ replicate (4 - N.to_nat required_banks) unused_bank;
        mapping_bytes := mapping_bytes |}.

(** [try_fold] with [checked_add]. *)
Fixpoint checked_sum (total : N) (xs : list N) : gres N :=
  match xs with
  | [] => Ok total
  | x :: xs => total ← ok_or (checked_add u64_max total x) ExpertArenaBudgetOverflow; checked_sum total xs
  end.
Definition layout_physical_bytes (l : GpuNativeQ4ExpertArenaLayout) : gres N :=
  checked_sum 0 (allocation_bytes <$> banks l).
Definition layout_active_bytes (l : GpuNativeQ4ExpertArenaLayout) : gres N :=
  checked_sum 0 (allocation_bytes <$> take (N.to_nat (active_banks l)) (banks l)).
Definition total_allocation_bytes (l : GpuNativeQ4ExpertArenaLayout) : gres N :=
  physical ← layout_physical_bytes l;
  ok_or (checked_add u64_max physical (mapping_bytes l)) ExpertArenaBudgetOverflow.

Fixpoint locate (bs : list GpuNativeQ4ExpertBankLayout) (bank remaining : N) : gres GpuNativeQ4ExpertLocation :=
  match bs with
  | [] => Err ExpertResidentCountExceedsCapacity
  | b :: bs =>
      if remaining <? b_slot_capacity b then location_try_new bank remaining
      else locate bs (bank + 1) (remaining - b_slot_capacity b)
  end.
Definition location_for_flat_slot (l : GpuNativeQ4ExpertArenaLayout) (flat_slot : N) : gres GpuNativeQ4ExpertLocation :=
  if slot_capacity l <=? flat_slot then Err ExpertResidentCountExceedsCapacity
  else locate (take (N.to_nat (active_banks l)) (banks l)) 0 flat_slot.

Definition flat_slot_for_location (l : GpuNativeQ4ExpertArenaLayout) (loc : GpuNativeQ4ExpertLocation) : gres N :=
  if active_banks l <=? bank loc then Err ExpertBankOutOfRange else
  match banks l !! N.to_nat (bank loc) with
  | None => Err ExpertBankOutOfRange
  | Some b =>
      if b_slot_capacity b <=? slot loc then Err ExpertSlotOutOfRange else
      before ← checked_sum 0 (b_slot_capacity <$> take (N.to_nat (bank loc)) (banks l));
      ok_or (checked_add usize_max before (slot loc)) ExpertArenaBudgetOverflow
  end.

(** ** The plan of one layer *)

Definition validate_q4_expert_pipeline_limits (l : Limits) : gres unit :=
  if max_storage_buffers_per_shader_stage l <? GPU_NATIVE_EXPERT_REQUIRED_STORAGE_BUFFERS
  then Err ExpertStorageBuffersUnsupported else
  if max_push_constant_size l <? GPU_NATIVE_EXPERT_PUSH_CONSTANT_BYTES
  then Err ExpertPushConstantsUnsupported else
  if (max_compute_workgroup_size_x l <? GPU_NATIVE_EXPERT_WORKGROUP_SIZE)
     || (max_compute_invocations_per_workgroup l <? GPU_NATIVE_EXPERT_WORKGROUP_SIZE)
  then Err ExpertWorkgroupUnsupported else Ok tt.

Record GpuNativeQ4ExpertVramPlan := {
  geometry : GpuNativeQ4ExpertGeometry;
  requested_expert_budget_bytes : N;
  layout : GpuNativeQ4ExpertArenaLayout;
  active_bank_allocation_bytes : N;
  physical_bank_allocation_bytes : N;
  total_arena_allocation_bytes : N;
}.
#[export] Instance plan_eq_dec : EqDecision GpuNativeQ4ExpertVramPlan.
Proof. solve_decision. Defined.

(** The common end of both constructors. *)
Definition plan_of (g : GpuNativeQ4ExpertGeometry) (requested : option N) (lay : GpuNativeQ4ExpertArenaLayout)
    : gres GpuNativeQ4ExpertVramPlan :=
  active ← layout_active_bytes lay;
  physical ← layout_physical_bytes lay;
  total ← total_allocation_bytes lay;
  Ok {| geometry := g; requested_expert_budget_bytes := default total requested; layout := lay;
        active_bank_allocation_bytes := active; physical_bank_allocation_bytes := physical;
        total_arena_allocation_bytes := total |}.

Definition plan_for_slot_capacity (g : GpuNativeQ4ExpertGeometry) (slot_capacity : N) (l : Limits)
    : gres GpuNativeQ4ExpertVramPlan :=
  _ ← validate_q4_expert_pipeline_limits l;
  if num_experts g <? slot_capacity then Err ExpertResidentCountExceedsCapacity else
  lay ← layout_try_new g slot_capacity l;
  plan_of g None lay.

Definition fits (g : GpuNativeQ4ExpertGeometry) (l : Limits) (budget slots : N) : bool :=
  match lay ← layout_try_new g slots l; total_allocation_bytes lay with
  | Ok bytes => bytes <=? budget
  | Err _ => false
  end.

(** [while low < high]; [None] is out of fuel. *)
Fixpoint search (ok : N -> bool) (fuel : nat) (low high : N) : option N :=
  if low <? high then
    match fuel with
    | O => None
    | S fuel =>
        let midpoint := low + div_ceil (high - low) 2 in
        if ok midpoint then search ok fuel midpoint high else search ok fuel low (midpoint - 1)
    end
  else Some low.
(** The distance halves at each step. *)
Definition search_fuel (high : N) : nat := N.to_nat (N.size high).

Definition maximum_slots (g : GpuNativeQ4ExpertGeometry) (l : Limits) : option N :=
  slots ← checked_mul u64_max (maximum_slots_per_bank g l) MAX_GPU_NATIVE_EXPERT_BANKS;
  Some (N.min slots (num_experts g)).

(** [None] is out of fuel. *)
Definition plan_try_new (g : GpuNativeQ4ExpertGeometry) (budget : N) (l : Limits)
    : option (gres GpuNativeQ4ExpertVramPlan) :=
  match (_ ← validate_q4_expert_pipeline_limits l;
         one ← layout_try_new g 1 l;
         minimum ← total_allocation_bytes one;
         if budget <? minimum then Err ExpertArenaBudgetTooSmall else
         ok_or (maximum_slots g l) ExpertArenaBudgetOverflow) with
  | Err e => Some (Err e)
  | Ok high =>
      low ← search (fits g l budget) (search_fuel high) 1 high;
      Some (lay ← layout_try_new g low l; plan_of g (Some budget) lay)
  end.

(** ** The model-wide plan *)

Inductive GpuNativeTieredResidencyError :=
| InvalidModelLayerCount | InvalidExpertsPerLayer | ExpertNamespaceOverflow
| GlobalExpertOutOfRange | LayerOutOfRange | LocalExpertOutOfRange
| ModelBudgetOverflow | ModelBudgetTooSmall
| DuplicateDemandExpert | DemandLayerMismatch | DemandSetExceedsLayerCapacity
| DemandSourceMissing | DemandSourceIdentityMismatch | LogicalAdmissionStale
| InstallInProgress | NoPhysicalSlot | NoEvictablePhysicalSlot | StalePhysicalRequester
| PhysicalIdentityCorrupt | UnsafeOracleBoundary | ResidencyPriorityMismatch
| Backend (e : GpuNativeBootstrapError).

Abbreviation tres := (result GpuNativeTieredResidencyError).
Definition backend {A} (r : gres A) : tres A := match r with Ok a => Ok a | Err e => Err (Backend e) end.

Definition validate_namespace (num_layers experts_per_layer : N) : tres unit :=
  if num_layers =? 0 then Err InvalidModelLayerCount else
  if experts_per_layer =? 0 then Err InvalidExpertsPerLayer else
  if u32_max + 1 <? num_layers * experts_per_layer then Err ExpertNamespaceOverflow else Ok tt.

Record GpuNativeLayerExpertId := { layer_index : N; local_expert_id : N }.

Definition global_to_layer_local (global_id num_layers experts_per_layer : N) : tres GpuNativeLayerExpertId :=
  _ ← validate_namespace num_layers experts_per_layer;
  let layer := global_id / experts_per_layer in
  if num_layers <=? layer then Err GlobalExpertOutOfRange else
  Ok {| layer_index := layer; local_expert_id := global_id mod experts_per_layer |}.

Definition layer_local_to_global (layer local_id num_layers experts_per_layer : N) : tres N :=
  _ ← validate_namespace num_layers experts_per_layer;
  if num_layers <=? layer then Err LayerOutOfRange else
  if experts_per_layer <=? local_id then Err LocalExpertOutOfRange else
  ok_or (base ← checked_mul u64_max layer experts_per_layer;
         id ← checked_add u64_max base local_id;
         if id <=? u32_max then Some id else None) ExpertNamespaceOverflow.

Record GpuNativeModelExpertVramPlan := {
  m_geometry : GpuNativeQ4ExpertGeometry;
  total_expert_budget_bytes : N;
  minimum_executable_budget_bytes : N;
  layer_plans : list GpuNativeQ4ExpertVramPlan;
  model_arena_allocation_bytes : N;
}.

Definition plan_slot_capacity (p : GpuNativeQ4ExpertVramPlan) : N := slot_capacity (layout p).

(** The inner loop: the cheapest extension by a slot, of the first layer among equals. *)
Fixpoint best_extension (g : GpuNativeQ4ExpertGeometry) (l : Limits) (remaining : N) (i : nat)
    (plans : list GpuNativeQ4ExpertVramPlan) (best : option (N * nat * GpuNativeQ4ExpertVramPlan))
    : tres (option (N * nat * GpuNativeQ4ExpertVramPlan)) :=
  match plans with
  | [] => Ok best
  | current :: plans =>
      if num_experts g <=? plan_slot_capacity current then best_extension g l remaining (S i) plans best else
      candidate ← backend (plan_for_slot_capacity g (plan_slot_capacity current + 1) l);
      increment ← ok_or (checked_sub (total_arena_allocation_bytes candidate) (total_arena_allocation_bytes current))
                        ModelBudgetOverflow;
      if remaining <? increment then best_extension g l remaining (S i) plans best else
      best_extension g l remaining (S i) plans
        (match best with
         | Some (best_increment, best_layer, _) =>
             if (increment <? best_increment) || ((increment =? best_increment) && (i <? best_layer)%nat)
             then Some (increment, i, candidate) else best
         | None => Some (increment, i, candidate)
         end)
  end.

(** The outer loop; [None] is out of fuel. *)
Fixpoint extend_plans (g : GpuNativeQ4ExpertGeometry) (l : Limits) (budget : N) (fuel : nat)
    (plans : list GpuNativeQ4ExpertVramPlan) (total : N) : option (tres (list GpuNativeQ4ExpertVramPlan * N)) :=
  match fuel with
  | O => None
  | S fuel =>
      match best_extension g l (budget - total) 0 plans None with
      | Err e => Some (Err e)
      | Ok None => Some (Ok (plans, total))
      | Ok (Some (increment, layer, candidate)) =>
          match checked_add u64_max total increment with
          | None => Some (Err ModelBudgetOverflow)
          | Some total => extend_plans g l budget fuel (<[layer := candidate]> plans) total
          end
      end
  end.

(** Every step adds a slot, and no layer has more than [num_experts]. *)
Definition model_fuel (g : GpuNativeQ4ExpertGeometry) (num_layers : N) : nat :=
  S (N.to_nat (num_layers * num_experts g)).

Definition model_plan_try_new (num_layers : N) (g : GpuNativeQ4ExpertGeometry) (budget : N) (l : Limits)
    : option (tres GpuNativeModelExpertVramPlan) :=
  match (_ ← validate_namespace num_layers (num_experts g);
         minimum_layer ← backend (plan_for_slot_capacity g (top_k g) l);
         minimum ← ok_or (checked_mul u64_max (total_arena_allocation_bytes minimum_layer) num_layers) ModelBudgetOverflow;
         if budget <? minimum then Err ModelBudgetTooSmall else Ok (minimum_layer, minimum)) with
  | Err e => Some (Err e)
  | Ok (minimum_layer, minimum) =>
      r ← extend_plans g l budget (model_fuel g num_layers) (replicate (N.to_nat num_layers) minimum_layer) minimum;
      Some ('(plans, total) ← r;
            Ok {| m_geometry := g; total_expert_budget_bytes := budget; minimum_executable_budget_bytes := minimum;
                  layer_plans := plans; model_arena_allocation_bytes := total |})
  end.

Definition model_slot_capacity (p : GpuNativeModelExpertVramPlan) : N := sumN (plan_slot_capacity <$> layer_plans p).
Definition unused_remainder_bytes (p : GpuNativeModelExpertVramPlan) : N :=
  total_expert_budget_bytes p - model_arena_allocation_bytes p.

(** ** What a geometry guarantees *)

Definition geometry_ok (g : GpuNativeQ4ExpertGeometry) : Prop :=
  geometry_try_new (d_model g) (d_ff g) (num_experts g) (top_k g) = Ok g.

Lemma ldiff3 n : n mod 4 = 0 -> N.ldiff (n + 3) 3 = n.
Proof.
  intros Hn. apply N.bits_inj. intros i. rewrite N.ldiff_spec.
  replace n with (n / 4 * 2 ^ 2) at 1 by (change (2 ^ 2) with 4; pose proof (N.div_mod' n 4); lia).
  destruct (N.lt_ge_cases i 2) as [Hi|Hi].
  - assert (i = 0 \/ i = 1) as [->| ->] by lia.
    + rewrite andb_false_r. change 0 with (0 mod 2 ^ 1). symmetry.
      rewrite (N.div_mod' n 4), Hn, N.add_0_r. change (4 * (n / 4)) with (2 ^ 2 * (n / 4)).
      rewrite N.mul_comm. by apply N.mul_pow2_bits_low.
    + rewrite andb_false_r. symmetry. rewrite (N.div_mod' n 4), Hn, N.add_0_r. change 4 with (2 ^ 2) at 1.
      rewrite N.mul_comm. by apply N.mul_pow2_bits_low.
  - assert (Hd : forall m, N.testbit m i = N.testbit (m / 4) (i - 2)).
    { intros m. change 4 with (2 ^ 2). rewrite <-N.shiftr_div_pow2, N.shiftr_spec'. f_equal. lia. }
    rewrite (Hd n), (Hd (n / 4 * 2 ^ 2 + 3)), (Hd 3). change (3 / 4) with 0. rewrite N.bits_0, andb_true_r.
    f_equal. change (2 ^ 2) with 4. rewrite N.div_add_l by done. change (3 / 4) with 0. lia.
Qed.

(** Inverting a chain of fallible steps. *)
Ltac inv_ok :=
  repeat match goal with
  | H : (_ ≫= _) = Ok _ |- _ => apply result_bind_ok in H as (? & ? & H)
  | H : (_ ≫= _) = Some _ |- _ => apply bind_Some in H as (? & ? & H)
  | H : ok_or _ _ = Ok _ |- _ => apply ok_or_ok in H
  | H : checked_mul _ _ _ = Some _ |- _ => apply checked_mul_Some in H as [-> ?]
  | H : checked_add _ _ _ = Some _ |- _ => apply checked_add_Some in H as [-> ?]
  | H : checked_sub _ _ = Some _ |- _ => apply checked_sub_Some in H as [-> ?]
  | H : (if ?b then Err _ else _) = Ok _ |- _ => destruct b eqn:?; [done|]
  | H : Ok _ = Ok _ |- _ => injection H as H
  | H : Some _ = Some _ |- _ => injection H as H
  | H : (_ || _) = false |- _ => apply orb_false_elim in H as [? ?]
  | H : negb _ = false |- _ => apply negb_false_iff in H
  | H : (_ =? _) = false |- _ => apply N.eqb_neq in H
  | H : (_ =? _) = true |- _ => apply N.eqb_eq in H
  | H : (_ <? _) = false |- _ => apply N.ltb_ge in H
  | H : (_ <=? _) = false |- _ => apply N.leb_gt in H
  end.

Lemma blocks_aligned dm df :
  dm mod Q4_0_BLOCK_ELEMS = 0 -> df mod Q4_0_BLOCK_ELEMS = 0 -> (dm * df / Q4_0_BLOCK_ELEMS * 3 * Q4_0_BLOCK_BYTES) mod 4 = 0.
Proof.
  unfold Q4_0_BLOCK_ELEMS. intros Hd Hf. rewrite (N.div_mod' dm 32), (N.div_mod' df 32), Hd, Hf, !N.add_0_r.
  replace (32 * (dm / 32) * (32 * (df / 32))) with (32 * (dm / 32) * (df / 32) * 32) by lia.
  rewrite N.div_mul by done.
  replace (32 * (dm / 32) * (df / 32) * 3 * Q4_0_BLOCK_BYTES) with ((dm / 32) * (df / 32) * 8 * 3 * Q4_0_BLOCK_BYTES * 4) by lia.
  by apply N.Div0.mod_mul.
Qed.

Lemma geometry_facts g :
  geometry_ok g ->
  1 <= num_experts g <= 128 /\ 1 <= top_k g <= num_experts g /\
  slot_stride_bytes g = 4 + logical_expert_bytes g /\ slot_stride_bytes g mod 4 = 0 /\
  8 <= slot_stride_bytes g <= u32_max /\
  logical_expert_bytes g = blocks_per_projection g * 54.
Proof.
  destruct g as [dm df ne tk bp lb ss]. unfold geometry_ok, geometry_try_new, router_geometry.
  cbn [d_model d_ff num_experts top_k blocks_per_projection logical_expert_bytes slot_stride_bytes]. intros H.
  inv_ok. pose proof (blocks_aligned dm df ltac:(done) ltac:(done)) as Hal. subst.
  unfold GPU_NATIVE_EXPERT_SLOT_EPOCH_BYTES in *.
  assert (Hb : 1 <= dm * df / Q4_0_BLOCK_ELEMS).
  { change Q4_0_BLOCK_ELEMS with 32 in *. apply N.div_le_lower_bound; [done|].
    pose proof (N.div_mod' dm 32). pose proof (N.div_mod' df 32). nia. }
  set (b := dm * df / Q4_0_BLOCK_ELEMS) in *. set (n := b * 3 * Q4_0_BLOCK_BYTES) in *.
  assert (Hm : (4 + n) mod 4 = 0) by (rewrite N.Div0.add_mod, Hal; done).
  rewrite (ldiff3 _ Hm) in *. change MAX_GPU_NATIVE_ROUTER_EXPERTS with 128 in *.
  assert (n = b * 54) by (unfold n; change Q4_0_BLOCK_BYTES with 18; lia). clearbody n. clearbody b. split_and!; lia || done.
Qed.

(** ** Slot locations *)

Lemma pack_ok l :
  (bank l < MAX_GPU_NATIVE_EXPERT_BANKS /\ slot l < GPU_NATIVE_EXPERT_LOCATION_SLOT_MASK) ->
  exists p, pack l = Ok p /\ unpack p = Some l /\ p < u32_max.
Proof.
  destruct l as [b s]. unfold pack, unpack. simpl. intros [Hb Hs].
  change MAX_GPU_NATIVE_EXPERT_BANKS with 4 in *. change GPU_NATIVE_EXPERT_LOCATION_SLOT_MASK with (N.ones 30) in *.
  assert (Hs' : s < 2 ^ 30) by (change (N.ones 30) with 1073741823 in Hs; change (2 ^ 30) with 1073741824; lia).
  destruct (N.leb_spec 4 b); [lia|]. destruct (N.ltb_spec (N.ones 30) s); [lia|]. cbn [orb].
  set (p := N.lor _ s).
  assert (Hp : p = b * 2 ^ 30 + s) by by apply lor_shiftl.
  assert (Hlt : p < u32_max).
  { rewrite Hp. change (N.ones 30) with 1073741823 in Hs. change (2 ^ 30) with 1073741824. unfold u32_max. lia. }
  change GPU_NATIVE_EXPERT_UNMAPPED with u32_max. destruct (N.eqb_spec p u32_max); [lia|]. exists p.
  destruct (N.eqb_spec p u32_max); [lia|]. split_and!; [done| |done].
  rewrite N.land_ones, N.shiftr_div_pow2, Hp. change GPU_NATIVE_EXPERT_LOCATION_BANK_SHIFT with 30.
  by rewrite N.div_add_l, N.div_small, N.add_0_r, N.add_comm, N.Div0.mod_add, N.mod_small.
Qed.

(** ** The layout of a number of slots *)

(** Bank [i] of an arena of [c] slots, with at most [m] in each. *)
Definition nth_bank (stride m c : N) (i : nat) : GpuNativeQ4ExpertBankLayout :=
  let slots := N.min (c - N.of_nat i * m) m in {| b_slot_capacity := slots; allocation_bytes := slots * stride |}.

Lemma fill_banks_ok stride m maximum n c :
  m * stride <= maximum -> maximum <= u64_max ->
  fill_banks stride m maximum n c = Ok (nth_bank stride m c <$> seq 0 n).
Proof.
  intros Hm Hu. revert c. induction n as [|n IH]; intros c; [done|]. cbn [fill_banks].
  assert (N.min c m * stride <= m * stride) by (apply N.mul_le_mono_r; lia).
  rewrite (proj2 (checked_mul_Some u64_max _ _ _)) by (split; [done|lia]). cbn [ok_or mbind result_bind].
  destruct (N.ltb_spec maximum (N.min c m * stride)); [lia|]. rewrite IH. cbn [mbind result_bind seq fmap list_fmap].
  f_equal. f_equal; [unfold nth_bank; f_equal; [f_equal; lia|f_equal; f_equal; lia]|].
  rewrite <-fmap_S_seq, <-list_fmap_compose. apply list_fmap_ext. intros _ i _. unfold nth_bank. simpl.
  replace (c - N.min c m - N.of_nat i * m) with (c - N.of_nat (S i) * m) by lia. done.
Qed.

Section layouts.
Context (g : GpuNativeQ4ExpertGeometry) (l : Limits) (Hg : geometry_ok g).

Abbreviation stride := (slot_stride_bytes g).
Abbreviation M := (maximum_slots_per_bank g l).

Definition layout_of (c : N) : GpuNativeQ4ExpertArenaLayout :=
  {| slot_capacity := c; active_banks := div_ceil c M;
     banks := (nth_bank stride M c <$> seq 0 (N.to_nat (div_ceil c M))) ++ replicate (4 - N.to_nat (div_ceil c M)) unused_bank;
     mapping_bytes := num_experts g * 8 |}.

(** Slots of [c] fit in four banks. *)
Definition feasible (c : N) : Prop := 1 <= c <= 4 * M.

Definition total_bytes (c : N) : N := c * stride + 4 * (4 - div_ceil c M) + num_experts g * 8.

Lemma stride_facts : 8 <= stride <= u32_max /\ 1 <= num_experts g <= 128.
Proof. by destruct (geometry_facts g Hg) as (? & ? & ? & ? & ? & ?). Qed.

Lemma bank_bound : M * stride <= maximum_bank_bytes l /\ maximum_bank_bytes l <= u32_max /\ M < 2 ^ 30.
Proof.
  pose proof stride_facts. unfold maximum_slots_per_bank.
  pose proof (N.Div0.mul_div_le (maximum_bank_bytes l) stride).
  assert (maximum_bank_bytes l <= u32_max).
  { unfold maximum_bank_bytes. change (N.ldiff u32_max 3) with 4294967292. unfold u32_max. lia. }
  change GPU_NATIVE_EXPERT_LOCATION_SLOT_MASK with 1073741823. change (2 ^ 30) with 1073741824. split_and!; [nia|done|lia].
Qed.

Lemma banks_needed c : 0 < M -> (div_ceil c M <= 4 <-> c <= 4 * M).
Proof. intros HM. pose proof (div_ceil_spec c M HM) as [H1 H2]. split; intros H; nia. Qed.

Lemma layout_try_new_spec c :
  layout_try_new g c l =
    if c =? 0 then Err InvalidExpertSlotCapacity else
    if M =? 0 then Err ExpertArenaBankCapacity else
    if 4 * M <? c then Err ExpertArenaBankLimit else Ok (layout_of c).
Proof.
  pose proof stride_facts. pose proof bank_bound as (Hb & Hb' & _). unfold layout_try_new.
  destruct (c =? 0); [done|]. destruct (N.eqb_spec M 0) as [|HM]; [done|].
  pose proof (banks_needed c ltac:(lia)). change MAX_GPU_NATIVE_EXPERT_BANKS with 4.
  destruct (N.ltb_spec 4 (div_ceil c M)); destruct (N.ltb_spec (4 * M) c); try (exfalso; lia); [done|].
  rewrite fill_banks_ok by (unfold u32_max, u64_max in *; lia). cbn [mbind result_bind].
  rewrite (proj2 (checked_mul_Some usize_max (num_experts g) GPU_NATIVE_EXPERT_MAPPING_ENTRY_BYTES (num_experts g * 8))); [done|].
  split; [done|]. change GPU_NATIVE_EXPERT_MAPPING_ENTRY_BYTES with 8. unfold usize_max, u64_max. lia.
Qed.

Lemma layout_ok_iff c lay : layout_try_new g c l = Ok lay <-> feasible c /\ lay = layout_of c.
Proof.
  rewrite layout_try_new_spec. unfold feasible. case_N; try lia; (split; [intros [= <-]|intros [? ->]]); try done; try lia.
  all: split; [lia|done].
Qed.

Lemma checked_sum_ok total xs : total + sumN xs <= u64_max -> checked_sum total xs = Ok (total + sumN xs).
Proof.
  revert total. induction xs as [|x xs IH]; intros total H; simpl in *; [by rewrite N.add_0_r|].
  rewrite (proj2 (checked_add_Some u64_max _ _ _)) by (split; [done|lia]). cbn [ok_or mbind result_bind].
  rewrite IH by lia. f_equal. lia.
Qed.

Lemma used_bytes c n :
  sumN (allocation_bytes <$> (nth_bank stride M c <$> seq 0 n)) = N.min c (N.of_nat n * M) * stride.
Proof. induction n as [|n IH]; [simpl; lia|]. rewrite seq_S, !fmap_app, sumN_app, IH. simpl. nia. Qed.
Lemma used_slots c n :
  sumN (b_slot_capacity <$> (nth_bank stride M c <$> seq 0 n)) = N.min c (N.of_nat n * M).
Proof. induction n as [|n IH]; [simpl; lia|]. rewrite seq_S, !fmap_app, sumN_app, IH. simpl. lia. Qed.

Lemma unused_bytes n : sumN (allocation_bytes <$> replicate n unused_bank) = 4 * N.of_nat n.
Proof. induction n as [|n IH]; [done|]. cbn [replicate fmap list_fmap sumN foldr]. fold (sumN (allocation_bytes <$> replicate n unused_bank)). simpl. lia. Qed.

Lemma feasible_banks c : feasible c -> 1 <= div_ceil c M <= 4.
Proof.
  intros [H1 H2]. assert (HM : 0 < M) by lia. pose proof (banks_needed c HM). pose proof (div_ceil_spec c M HM). nia.
Qed.

Lemma feasible_cover c : feasible c -> N.min c (N.of_nat (N.to_nat (div_ceil c M)) * M) = c.
Proof. intros [H1 H2]. pose proof (div_ceil_spec c M ltac:(lia)). lia. Qed.

Lemma total_bound c : feasible c -> c * stride + 16 + num_experts g * 8 <= u64_max.
Proof.
  intros [H1 H2]. pose proof stride_facts. pose proof bank_bound as (Hb & Hb' & _).
  assert (c * stride <= 4 * u32_max) by nia. unfold u64_max, u32_max in *. lia.
Qed.

Lemma layout_bytes c :
  feasible c ->
  layout_physical_bytes (layout_of c) = Ok (c * stride + 4 * (4 - div_ceil c M)) /\
  layout_active_bytes (layout_of c) = Ok (c * stride) /\
  total_allocation_bytes (layout_of c) = Ok (total_bytes c).
Proof.
  intros Hc. pose proof (feasible_banks c Hc). pose proof (feasible_cover c Hc) as Hcov. pose proof (total_bound c Hc).
  assert (Hp : layout_physical_bytes (layout_of c) = Ok (c * stride + 4 * (4 - div_ceil c M))).
  { unfold layout_physical_bytes, layout_of. cbn [banks].
    assert (Hs : sumN (allocation_bytes <$> ((nth_bank stride M c <$> seq 0 (N.to_nat (div_ceil c M))) ++
              replicate (4 - N.to_nat (div_ceil c M)) unused_bank)) = c * stride + 4 * (4 - div_ceil c M)).
    { rewrite fmap_app, sumN_app, used_bytes, unused_bytes, Hcov. lia. }
    rewrite checked_sum_ok; rewrite Hs, N.add_0_l; [done|lia]. }
  split_and!; [done| |].
  - unfold layout_active_bytes, layout_of. cbn [banks active_banks].
    rewrite take_app_length' by (rewrite length_fmap, length_seq; done).
    rewrite checked_sum_ok; rewrite used_bytes, Hcov, N.add_0_l; [done|lia].
  - unfold total_allocation_bytes. rewrite Hp. cbn [mbind result_bind mapping_bytes layout_of].
    rewrite (proj2 (checked_add_Some u64_max _ _ (total_bytes c))); [done|]. unfold total_bytes. split; [done|lia].
Qed.

(** A slot more costs its stride, less the dummy of the bank it opens. *)
Lemma total_bytes_mono c c' : feasible c' -> 1 <= c < c' -> total_bytes c + 4 * (c' - c) <= total_bytes c'.
Proof.
  intros [H1 H2] Hc. pose proof stride_facts. assert (HM : 0 < M) by lia. unfold total_bytes.
  pose proof (div_ceil_spec c M HM) as [L1 U1]. pose proof (div_ceil_spec c' M HM) as [L2 U2].
  pose proof (proj2 (banks_needed c' HM) ltac:(lia)). pose proof (proj2 (banks_needed c HM) ltac:(lia)).
  assert (div_ceil c' M <= div_ceil c M + (c' - c)).
  { destruct (N.le_gt_cases (div_ceil c' M) (div_ceil c M + (c' - c))) as [|Hgt]; [done|]. exfalso.
    assert (M * (div_ceil c M + (c' - c) + 1) <= M * div_ceil c' M) by (apply N.mul_le_mono_l; lia). nia. }
  assert (c' * stride = c * stride + (c' - c) * stride) by nia.
  assert ((c' - c) * 8 <= (c' - c) * stride) by (apply N.mul_le_mono_l; lia). lia.
Qed.

Lemma plan_of_ok requested c :
  feasible c -> plan_of g requested (layout_of c) =
    Ok {| geometry := g; requested_expert_budget_bytes := default (total_bytes c) requested; layout := layout_of c;
          active_bank_allocation_bytes := c * stride;
          physical_bank_allocation_bytes := c * stride + 4 * (4 - div_ceil c M);
          total_arena_allocation_bytes := total_bytes c |}.
Proof. intros Hc. destruct (layout_bytes c Hc) as (Hp & Ha & Ht). unfold plan_of. by rewrite Ha, Hp, Ht. Qed.

(** The plan of [c] slots for a requested budget. *)
Definition the_plan (requested c : N) : GpuNativeQ4ExpertVramPlan :=
  {| geometry := g; requested_expert_budget_bytes := requested; layout := layout_of c;
     active_bank_allocation_bytes := c * stride;
     physical_bank_allocation_bytes := c * stride + 4 * (4 - div_ceil c M);
     total_arena_allocation_bytes := total_bytes c |}.

Lemma plan_for_slot_capacity_ok c p :
  plan_for_slot_capacity g c l = Ok p <->
  validate_q4_expert_pipeline_limits l = Ok tt /\ c <= num_experts g /\ feasible c /\ p = the_plan (total_bytes c) c.
Proof.
  unfold plan_for_slot_capacity. destruct (validate_q4_expert_pipeline_limits l) as [[]|]; [|naive_solver]. cbn [mbind result_bind].
  destruct (N.ltb_spec (num_experts g) c); [split; [done|intros (_ & ? & _); lia]|].
  destruct (layout_try_new g c l) as [lay|] eqn:Hlay; cbn [mbind result_bind].
  - apply layout_ok_iff in Hlay as [Hc ->]. rewrite plan_of_ok by done. split; [intros [= <-]; done|by intros (_ & _ & _ & ->)].
  - split; [done|]. intros (_ & _ & Hc & _). assert (layout_try_new g c l = Ok (layout_of c)) by by apply layout_ok_iff. congruence.
Qed.

Lemma fits_iff budget c : fits g l budget c = true <-> feasible c /\ total_bytes c <= budget.
Proof.
  unfold fits. destruct (layout_try_new g c l) as [lay|] eqn:Hlay; cbn [mbind result_bind].
  - apply layout_ok_iff in Hlay as [Hc ->]. destruct (layout_bytes c Hc) as (_ & _ & ->). rewrite N.leb_le. tauto.
  - split; [done|]. intros [Hc _]. assert (layout_try_new g c l = Ok (layout_of c)) by by apply layout_ok_iff. congruence.
Qed.

Lemma fits_down budget c c' : fits g l budget c' = true -> 1 <= c <= c' -> fits g l budget c = true.
Proof.
  rewrite !fits_iff. intros [Hc' Ht] H. destruct (N.eq_dec c c') as [->|]; [done|].
  pose proof (total_bytes_mono c c' Hc' ltac:(lia)). unfold feasible in *. split; lia.
Qed.

(** The binary search finds the largest admissible value. *)
Lemma search_spec (ok : N -> bool) fuel low high :
  (forall i j, ok j = true -> low <= i <= j -> ok i = true) -> ok low = true -> low <= high -> high - low < 2 ^ N.of_nat fuel ->
  exists r, search ok fuel low high = Some r /\ low <= r <= high /\ ok r = true /\ forall j, r < j <= high -> ok j = false.
Proof.
  revert low high. induction fuel as [|fuel IH]; intros low high Hd Hl Hh Hf; cbn [search].
  all: destruct (N.ltb_spec low high) as [Hlt|Hge]; [|exists low; split_and!; [done|lia|lia|done|intros; lia]].
  { simpl in Hf. lia. }
  pose proof (div_ceil_spec (high - low) 2 ltac:(lia)). rewrite Nat2N.inj_succ, N.pow_succ_r' in Hf.
  set (mid := low + div_ceil (high - low) 2) in *. destruct (ok mid) eqn:Hm.
  - destruct (IH mid high) as (r & -> & Hr & Hok & Hmax); [intros i j Hj Hij; apply (Hd i j Hj); lia|done|lia|lia|].
    exists r. split_and!; [done|lia|lia|done|done].
  - destruct (IH low (mid - 1)) as (r & -> & Hr & Hok & Hmax); [done|done|lia|lia|].
    exists r. split_and!; [done|lia|lia|done|]. intros j Hj. destruct (N.le_gt_cases j (mid - 1)); [apply Hmax; lia|].
    destruct (ok j) eqn:Hj'; [|done]. rewrite (Hd mid j) in Hm; [done|done|lia].
Qed.

Lemma maximum_slots_ok : maximum_slots g l = Some (N.min (4 * M) (num_experts g)).
Proof.
  pose proof bank_bound as (_ & _ & HM). change (2 ^ 30) with 1073741824 in HM. unfold maximum_slots.
  rewrite (proj2 (checked_mul_Some u64_max M MAX_GPU_NATIVE_EXPERT_BANKS (4 * M))); [done|].
  change MAX_GPU_NATIVE_EXPERT_BANKS with 4. split; [lia|]. unfold u64_max. lia.
Qed.

Lemma fits_beyond budget c : N.min (4 * M) (num_experts g) < c <= num_experts g -> fits g l budget c = false.
Proof. intros Hc. destruct (fits g l budget c) eqn:Hf; [|done]. apply fits_iff in Hf as [[H1 H2] _]. lia. Qed.

Lemma search_fits budget :
  fits g l budget 1 = true ->
  exists c, search (fits g l budget) (search_fuel (N.min (4 * M) (num_experts g))) 1 (N.min (4 * M) (num_experts g)) = Some c /\
    1 <= c <= num_experts g /\ fits g l budget c = true /\ forall c', c < c' <= num_experts g -> fits g l budget c' = false.
Proof.
  intros H1. pose proof stride_facts. apply fits_iff in H1 as Hf. destruct Hf as [[_ HM] _].
  destruct (search_spec (fits g l budget) (search_fuel (N.min (4 * M) (num_experts g))) 1 (N.min (4 * M) (num_experts g)))
    as (c & Hs & Hc & Hok & Hmax); [intros i j Hj Hij; by apply (fits_down budget i j)|done|lia| |].
  { unfold search_fuel. rewrite N2Nat.id. pose proof (N.size_gt (N.min (4 * M) (num_experts g))). lia. }
  exists c. split_and!; [done|lia|lia|done|]. intros c' Hc'.
  destruct (N.le_gt_cases c' (N.min (4 * M) (num_experts g))); [apply Hmax; lia|apply fits_beyond; lia].
Qed.

Lemma plan_try_new_ok budget :
  exists r, plan_try_new g budget l = Some r /\
    match validate_q4_expert_pipeline_limits l with
    | Err e => r = Err e
    | Ok _ =>
        if M =? 0 then r = Err ExpertArenaBankCapacity
        else if fits g l budget 1 then
          exists p, r = Ok p /\ geometry p = g /\ requested_expert_budget_bytes p = budget /\
            1 <= plan_slot_capacity p <= num_experts g /\
            layout_try_new g (plan_slot_capacity p) l = Ok (layout p) /\
            total_allocation_bytes (layout p) = Ok (total_arena_allocation_bytes p) /\
            total_arena_allocation_bytes p <= budget /\
            forall c, plan_slot_capacity p < c <= num_experts g -> fits g l budget c = false
        else r = Err ExpertArenaBudgetTooSmall
    end.
Proof.
  unfold plan_try_new. destruct (validate_q4_expert_pipeline_limits l); [|by eexists]. cbn [mbind result_bind].
  rewrite layout_try_new_spec. change (1 =? 0) with false. cbv iota. destruct (N.eqb_spec M 0) as [|HM]; [by eexists|].
  destruct (N.ltb_spec (4 * M) 1); [lia|]. cbn [mbind result_bind].
  assert (H1 : feasible 1) by (unfold feasible; lia). destruct (layout_bytes 1 H1) as (_ & _ & ->). cbn [mbind result_bind].
  destruct (fits g l budget 1) eqn:Hf.
  - apply fits_iff in Hf as Hb. destruct (N.ltb_spec budget (total_bytes 1)); [lia|]. rewrite maximum_slots_ok. cbn [ok_or].
    destruct (search_fits budget Hf) as (c & Hs & Hc & Hok & Hmax). cbn [mbind option_bind]. rewrite Hs. cbn [mbind option_bind].
    apply fits_iff in Hok as [Hfe Hle]. rewrite (proj2 (layout_ok_iff c (layout_of c))) by done. cbn [mbind result_bind].
    rewrite plan_of_ok by done. eexists. split; [done|]. eexists. split; [done|]. unfold plan_slot_capacity. simpl.
    destruct (layout_bytes c Hfe) as (_ & _ & Ht). split_and!; try done; [lia|lia|]. by apply layout_ok_iff.
  - assert (~ (feasible 1 /\ total_bytes 1 <= budget)) by (rewrite <-fits_iff, Hf; done).
    destruct (N.ltb_spec budget (total_bytes 1)); [by eexists|]. exfalso. tauto.
Qed.

(** C38. Planning a layer always returns.  It reports the missing device feature, then
    that not even one slot fits in a bank, then that the budget does not pay for one
    slot; in every other case the arena has the most slots, up to one per expert, that
    four banks can hold and the budget can pay for. *)
Theorem plan_is_largest budget :
  exists r, plan_try_new g budget l = Some r /\
    match validate_q4_expert_pipeline_limits l with
    | Err e => r = Err e
    | Ok _ =>
        if M =? 0 then r = Err ExpertArenaBankCapacity
        else if fits g l budget 1 then
          exists p, r = Ok p /\ geometry p = g /\ requested_expert_budget_bytes p = budget /\
            1 <= plan_slot_capacity p <= num_experts g /\
            layout_try_new g (plan_slot_capacity p) l = Ok (layout p) /\
            total_allocation_bytes (layout p) = Ok (total_arena_allocation_bytes p) /\
            total_arena_allocation_bytes p <= budget /\
            forall c, plan_slot_capacity p < c <= num_experts g -> fits g l budget c = false
        else r = Err ExpertArenaBudgetTooSmall
    end.
Proof. apply plan_try_new_ok. Qed.

Lemma plan_for_capacity c :
  validate_q4_expert_pipeline_limits l = Ok tt -> c <= num_experts g -> feasible c ->
  plan_try_new g (total_bytes c) l = Some (Ok (the_plan (total_bytes c) c)).
Proof.
  intros Hv Hn Hc. unfold plan_try_new. rewrite Hv. cbn [mbind result_bind].
  assert (H1 : feasible 1) by (unfold feasible in *; lia).
  rewrite (proj2 (layout_ok_iff 1 (layout_of 1))) by done. cbn [mbind result_bind].
  destruct (layout_bytes 1 H1) as (_ & _ & ->). cbn [mbind result_bind].
  assert (H1c : total_bytes 1 <= total_bytes c).
  { destruct (N.eq_dec c 1) as [->|]; [lia|]. destruct Hc. pose proof (total_bytes_mono 1 c ltac:(done) ltac:(lia)). lia. }
  destruct (N.ltb_spec (total_bytes c) (total_bytes 1)); [lia|]. rewrite maximum_slots_ok. cbn [ok_or].
  assert (Hf : fits g l (total_bytes c) c = true) by (by apply fits_iff).
  destruct (search_fits (total_bytes c)) as (c' & Hs & Hc' & Hok & Hmax); [apply fits_iff; done|].
  assert (c' = c) as ->.
  { destruct (N.lt_trichotomy c' c) as [Hlt|[|Hgt]]; [|done|].
    - rewrite Hmax in Hf by lia. done.
    - apply fits_iff in Hok as [Hfe Hle]. pose proof (total_bytes_mono c c' Hfe ltac:(destruct Hc; lia)). lia. }
  cbn [mbind option_bind]. rewrite Hs. cbn [mbind option_bind].
  rewrite (proj2 (layout_ok_iff c (layout_of c))) by done. cbn [mbind result_bind]. by rewrite plan_of_ok.
Qed.

(** A plan made for a number of slots replays: planning again for the budget it
    records gives the same plan.  Creating and validating an arena rely on it. *)
Theorem plan_replays c p :
  plan_for_slot_capacity g c l = Ok p -> plan_try_new g (requested_expert_budget_bytes p) l = Some (Ok p).
Proof. intros (Hv & Hn & Hc & ->)%plan_for_slot_capacity_ok. by apply plan_for_capacity. Qed.

(** ** Flat slots *)

Lemma location_try_new_ok b s :
  b < 4 -> s < M -> location_try_new b s = Ok {| bank := b; slot := s |}.
Proof.
  intros Hb Hs. pose proof bank_bound as (_ & _ & HM). unfold location_try_new.
  destruct (pack_ok {| bank := b; slot := s |}) as (p & -> & _); [|done]. simpl.
  change GPU_NATIVE_EXPERT_LOCATION_SLOT_MASK with 1073741823. change (2 ^ 30) with 1073741824 in HM.
  change MAX_GPU_NATIVE_EXPERT_BANKS with 4. lia.
Qed.

Lemma locate_ok c n i remaining :
  0 < M -> N.of_nat i * M + remaining < c -> remaining < N.of_nat n * M -> N.of_nat (i + n) <= 4 ->
  locate (nth_bank stride M c <$> seq i n) (N.of_nat i) remaining =
    Ok {| bank := N.of_nat i + remaining / M; slot := remaining mod M |}.
Proof.
  intros HM. revert i remaining. induction n as [|n IH]; intros i remaining Hc Hn Hi; [simpl in Hn; lia|].
  cbn [seq fmap list_fmap locate]. unfold nth_bank at 1. cbn [b_slot_capacity].
  destruct (N.ltb_spec remaining (N.min (c - N.of_nat i * M) M)) as [Hlt|Hge].
  - rewrite location_try_new_ok by lia. rewrite N.div_small, N.mod_small, N.add_0_r by lia. done.
  - assert (Hr : M <= remaining) by lia. unfold nth_bank at 2. cbn [b_slot_capacity].
    rewrite N.min_r by lia. replace (N.of_nat i + 1) with (N.of_nat (S i)) by lia. rewrite IH by nia.
    replace remaining with (remaining - M + 1 * M) at 3 4 by lia.
    rewrite N.div_add, N.Div0.mod_add by lia. do 2 f_equal. lia.
Qed.

Lemma take_banks c b :
  (b <= N.to_nat (div_ceil c M))%nat -> take b (banks (layout_of c)) = nth_bank stride M c <$> seq 0 b.
Proof.
  intros Hb. unfold layout_of. cbn [banks]. rewrite take_app_le by (rewrite length_fmap, length_seq; lia).
  rewrite <-fmap_take, take_seq. do 2 f_equal. lia.
Qed.

Lemma nth_banks c b :
  (b < N.to_nat (div_ceil c M))%nat -> banks (layout_of c) !! b = Some (nth_bank stride M c b).
Proof.
  intros Hb. unfold layout_of. cbn [banks]. rewrite lookup_app_l by (rewrite length_fmap, length_seq; lia).
  by rewrite list_lookup_fmap, lookup_seq_lt.
Qed.

Lemma location_of_flat c flat :
  feasible c -> location_for_flat_slot (layout_of c) flat =
    if c <=? flat then Err ExpertResidentCountExceedsCapacity else Ok {| bank := flat / M; slot := flat mod M |}.
Proof.
  intros Hc. pose proof (feasible_banks c Hc). pose proof (div_ceil_spec c M ltac:(destruct Hc; lia)).
  unfold location_for_flat_slot. cbn [slot_capacity active_banks banks layout_of]. destruct (N.leb_spec c flat); [done|].
  pose proof (take_banks c (N.to_nat (div_ceil c M)) ltac:(lia)) as Ht. cbn [banks layout_of] in Ht. rewrite Ht.
  pose proof (locate_ok c (N.to_nat (div_ceil c M)) 0 flat ltac:(destruct Hc; lia) ltac:(lia)
    ltac:(rewrite N2Nat.id; lia) ltac:(lia)) as Hl. exact Hl.
Qed.

Lemma flat_of_location c loc :
  feasible c -> flat_slot_for_location (layout_of c) loc =
    if div_ceil c M <=? bank loc then Err ExpertBankOutOfRange else
    if N.min (c - bank loc * M) M <=? slot loc then Err ExpertSlotOutOfRange else Ok (bank loc * M + slot loc).
Proof.
  intros Hc. pose proof (feasible_banks c Hc). pose proof bank_bound as (_ & _ & HM).
  unfold flat_slot_for_location. change (active_banks (layout_of c)) with (div_ceil c M).
  destruct (N.leb_spec (div_ceil c M) (bank loc)) as [|Hb]; [done|].
  rewrite nth_banks by lia. rewrite take_banks by lia. unfold nth_bank at 1. cbn [b_slot_capacity]. rewrite N2Nat.id.
  destruct (N.leb_spec (N.min (c - bank loc * M) M) (slot loc)) as [|Hs]; [done|].
  change (2 ^ 30) with 1073741824 in HM.
  assert (bank loc * M <= 4 * M) by (apply N.mul_le_mono_r; lia).
  rewrite checked_sum_ok by (rewrite used_slots, N2Nat.id; unfold u64_max; lia).
  rewrite used_slots, N2Nat.id, N.add_0_l, N.min_r by lia. cbn [mbind result_bind].
  rewrite (proj2 (checked_add_Some usize_max _ _ (bank loc * M + slot loc))); [done|].
  split; [done|]. unfold usize_max, u64_max. lia.
Qed.

(** The place of a numbered slot. *)
Lemma flat_slot_place c flat :
  feasible c -> flat < c ->
  exists loc b p,
    location_for_flat_slot (layout_of c) flat = Ok loc /\ flat_slot_for_location (layout_of c) loc = Ok flat /\
    bank loc < active_banks (layout_of c) /\ banks (layout_of c) !! N.to_nat (bank loc) = Some b /\
    slot loc < b_slot_capacity b /\ (slot loc + 1) * stride <= allocation_bytes b /\
    pack loc = Ok p /\ p <> GPU_NATIVE_EXPERT_UNMAPPED /\ unpack p = Some loc.
Proof.
  intros Hc Hf. pose proof (feasible_banks c Hc). pose proof bank_bound as (_ & _ & HB).
  assert (HM : 0 < M) by (destruct Hc; lia). pose proof (div_ceil_spec c M HM) as [Hlo Hhi].
  rewrite location_of_flat by done. destruct (N.leb_spec c flat); [lia|].
  pose proof (N.div_mod' flat M) as Hd. pose proof (N.mod_lt flat M ltac:(lia)) as Hm.
  set (q := flat / M) in *. set (r := flat mod M) in *.
  assert (Hq : q < div_ceil c M) by nia.
  destruct (pack_ok {| bank := q; slot := r |}) as (p & Hp & Hu & Hlt).
  { simpl. change GPU_NATIVE_EXPERT_LOCATION_SLOT_MASK with 1073741823. change (2 ^ 30) with 1073741824 in HB.
    change MAX_GPU_NATIVE_EXPERT_BANKS with 4. lia. }
  exists {| bank := q; slot := r |}, (nth_bank stride M c (N.to_nat q)), p. rewrite flat_of_location by done. cbn [bank slot].
  destruct (N.leb_spec (div_ceil c M) q); [lia|]. destruct (N.leb_spec (N.min (c - q * M) M) r); [lia|].
  split_and!; try done.
  - f_equal. lia.
  - apply nth_banks. lia.
  - unfold nth_bank. cbn [b_slot_capacity]. rewrite N2Nat.id. lia.
  - unfold nth_bank. cbn [allocation_bytes]. rewrite N2Nat.id. apply N.mul_le_mono_r. lia.
  - intros ->. change GPU_NATIVE_EXPERT_UNMAPPED with u32_max in Hlt. lia.
Qed.

Lemma layout_slot_place c lay flat :
  layout_try_new g c l = Ok lay -> flat < slot_capacity lay ->
  exists loc b p,
    location_for_flat_slot lay flat = Ok loc /\ flat_slot_for_location lay loc = Ok flat /\
    bank loc < active_banks lay /\ banks lay !! N.to_nat (bank loc) = Some b /\
    slot loc < b_slot_capacity b /\ (slot loc + 1) * stride <= allocation_bytes b /\
    pack loc = Ok p /\ p <> GPU_NATIVE_EXPERT_UNMAPPED /\ unpack p = Some loc.
Proof. intros [Hc ->]%layout_ok_iff Hf. by apply flat_slot_place. Qed.

(** A location that is accepted is that of its number. *)
Lemma layout_flat_back c lay loc flat :
  layout_try_new g c l = Ok lay -> flat_slot_for_location lay loc = Ok flat ->
  flat < slot_capacity lay /\ location_for_flat_slot lay flat = Ok loc.
Proof.
  intros [Hc ->]%layout_ok_iff. destruct loc as [b s]. rewrite flat_of_location by done. cbn [bank slot].
  assert (HM : 0 < M) by (destruct Hc; lia). case_N; try done. intros [= <-]. cbn [slot_capacity layout_of].
  rewrite location_of_flat by done. assert (Hlt : b * M + s < c) by lia. split; [done|].
  destruct (N.leb_spec c (b * M + s)); [lia|].
  rewrite N.div_add_l, N.div_small, N.add_0_r, N.add_comm, N.Div0.mod_add, N.mod_small by lia. done.
Qed.

Lemma layout_bank_lookup c lay b :
  layout_try_new g c l = Ok lay -> b < active_banks lay -> exists bk, banks lay !! N.to_nat b = Some bk.
Proof.
  intros [Hc ->]%layout_ok_iff Hb. exists (nth_bank stride M c (N.to_nat b)). apply nth_banks. cbn in Hb. lia.
Qed.

(** The slots of an arena are numbered without gaps or repetition: every number
    below the capacity is a location, whose bytes lie inside its bank and whose packed
    word is not the "unmapped" word and unpacks to it; the number is recovered from
    the location, and the locations accepted are exactly the numbered ones. *)
Theorem flat_slots_are_locations c lay :
  layout_try_new g c l = Ok lay ->
  (forall flat, flat < c -> exists loc b p,
     location_for_flat_slot lay flat = Ok loc /\ flat_slot_for_location lay loc = Ok flat /\
     bank loc < active_banks lay /\ banks lay !! N.to_nat (bank loc) = Some b /\
     slot loc < b_slot_capacity b /\ (slot loc + 1) * stride <= allocation_bytes b /\
     pack loc = Ok p /\ p <> GPU_NATIVE_EXPERT_UNMAPPED /\ unpack p = Some loc) /\
  (forall loc flat, flat_slot_for_location lay loc = Ok flat -> flat < c /\ location_for_flat_slot lay flat = Ok loc).
Proof.
  intros Hl. pose proof (proj1 (layout_ok_iff c lay) Hl) as [Hc Heq]. split.
  - subst lay. intros flat. by apply flat_slot_place.
  - intros loc flat Hf. destruct (layout_flat_back c lay loc flat Hl Hf) as [H1 H2]. split; [|done]. by subst lay.
Qed.

(** ** The model-wide plan *)

Abbreviation Ne := (num_experts g).

Definition plan_at (c : N) : GpuNativeQ4ExpertVramPlan := the_plan (total_bytes c) c.
Definition increment (c : N) : N := total_bytes (c + 1) - total_bytes c.
Definition admissible (c : N) : Prop := feasible c /\ top_k g <= c <= Ne.

(** A step that the inner loop may have picked, from layer [i] of [cs]. *)
Definition step_ok (cs : list N) (remaining : N) (r : N * nat * GpuNativeQ4ExpertVramPlan) : Prop :=
  exists c, cs !! r.1.2 = Some c /\ c < Ne /\ feasible (c + 1) /\ r.1.1 = increment c /\ increment c <= remaining /\ r.2 = plan_at (c + 1).

Lemma best_extension_spec cs remaining pre rest best :
  validate_q4_expert_pipeline_limits l = Ok tt -> cs = pre ++ rest -> Forall admissible cs ->
  (forall r, best = Some r -> step_ok cs remaining r) ->
  (best = None -> forall c, c ∈ pre -> c < Ne -> remaining < increment c) ->
  match best_extension g l remaining (length pre) (plan_at <$> rest) best with
  | Err e => e = Backend ExpertArenaBankLimit /\ 4 * M < Ne
  | Ok r => (forall s, r = Some s -> step_ok cs remaining s) /\
            (r = None -> forall c, c ∈ cs -> c < Ne -> remaining < increment c)
  end.
Proof.
  intros Hv. revert pre best. induction rest as [|c rest IH]; intros pre best Hcs Hall Hs Hn.
  { rewrite app_nil_r in Hcs. subst. by cbn [fmap list_fmap best_extension]. }
  assert (Hc : admissible c) by (rewrite Hcs, Forall_app, Forall_cons in Hall; tauto).
  assert (Hpre : cs = (pre ++ [c]) ++ rest) by by rewrite Hcs, <-app_assoc.
  assert (Hlen : S (length pre) = length (pre ++ [c])) by (rewrite length_app; simpl; lia).
  assert (Hnth : cs !! length pre = Some c) by by rewrite Hcs, list_lookup_middle.
  cbn [fmap list_fmap best_extension]. unfold plan_slot_capacity. cbn [plan_at layout the_plan slot_capacity layout_of].
  destruct (N.leb_spec Ne c) as [Hfull|Hless].
  { rewrite Hlen. apply IH; [done|done|done|]. intros Hb d [Hd|Hd%list_elem_of_singleton]%elem_of_app ?; [by apply Hn|lia]. }
  destruct (decide (feasible (c + 1))) as [Hf|Hf].
  2:{ unfold plan_for_slot_capacity. rewrite Hv. cbn [mbind result_bind]. destruct (N.ltb_spec Ne (c + 1)); [lia|].
      destruct Hc as [Hfc _]. unfold feasible in *. rewrite layout_try_new_spec.
      destruct (N.eqb_spec (c + 1) 0); [lia|]. destruct (N.eqb_spec M 0); [lia|].
      destruct (N.ltb_spec (4 * M) (c + 1)); [|lia]. cbn. split; [done|lia]. }
  rewrite (proj2 (plan_for_slot_capacity_ok (c + 1) (plan_at (c + 1)))) by (split_and!; [done|lia|done|done]).
  cbn [backend mbind result_bind total_arena_allocation_bytes plan_at the_plan].
  pose proof (total_bytes_mono c (c + 1) Hf ltac:(destruct Hc as [[] _]; lia)).
  rewrite (proj2 (checked_sub_Some _ _ (increment c))) by (split; [done|lia]). cbn [ok_or mbind result_bind].
  assert (Hstep : increment c <= remaining -> step_ok cs remaining (increment c, length pre, plan_at (c + 1))).
  { intros Hle. by exists c. }
  destruct (N.ltb_spec remaining (increment c)) as [Hbig|Hsmall].
  { rewrite Hlen. apply IH; [done|done|done|]. intros Hb d [Hd|Hd%list_elem_of_singleton]%elem_of_app ?; [by apply Hn|by subst]. }
  rewrite Hlen. apply IH; [done|done| |]; rewrite <-?Hlen.
  - intros r Hr. destruct best as [[[bi bl] bp]|]; [|injection Hr as <-; by apply Hstep].
    destruct (_ || _); injection Hr as <-; [by apply Hstep|by apply Hs].
  - destruct best as [[[bi bl] bp]|]; [|done]. by destruct (_ || _).
Qed.

Lemma sumN_id cs : sumN (id <$> cs) = sumN cs.
Proof. by rewrite list_fmap_id. Qed.

Lemma sum_bounded cs : Forall admissible cs -> sumN cs <= N.of_nat (length cs) * Ne.
Proof. induction 1 as [|c cs [_ [_ Hc]] _ IH]; [done|]. simpl in *. lia. Qed.

(** Each layer's share, and no layer can be given a slot more. *)
Definition spent (budget : N) (cs : list N) : Prop :=
  Forall admissible cs /\ sumN (total_bytes <$> cs) <= budget.

Lemma extend_plans_spec budget fuel cs :
  validate_q4_expert_pipeline_limits l = Ok tt -> budget <= u64_max -> spent budget cs ->
  N.of_nat (length cs) * Ne < N.of_nat fuel + sumN cs ->
  exists r, extend_plans g l budget fuel (plan_at <$> cs) (sumN (total_bytes <$> cs)) = Some r /\
    match r with
    | Err e => e = Backend ExpertArenaBankLimit /\ 4 * M < Ne
    | Ok (plans, total) => exists cs', plans = plan_at <$> cs' /\ length cs' = length cs /\ spent budget cs' /\
        total = sumN (total_bytes <$> cs') /\ forall c, c ∈ cs' -> c < Ne -> budget - total < increment c
    end.
Proof.
  intros Hv Hbu. revert cs. induction fuel as [|fuel IH]; intros cs [Hall Hsum] Hfuel.
  { pose proof (sum_bounded cs Hall). simpl in Hfuel. lia. }
  cbn [extend_plans].
  pose proof (best_extension_spec cs (budget - sumN (total_bytes <$> cs)) [] cs None Hv eq_refl Hall
    ltac:(done) ltac:(intros _ c Hc; by apply elem_of_nil in Hc)) as Hb. cbn [length] in Hb.
  destruct (best_extension _ _ _ _ _ _) as [[[[inc i] p]|]|e]; [| |by eexists].
  2:{ exists (Ok (plan_at <$> cs, sumN (total_bytes <$> cs))). split; [done|]. exists cs. destruct Hb as [_ Hb].
      split_and!; [done|done|by split|done|by apply Hb]. }
  destruct Hb as [Hb _]. destruct (Hb _ eq_refl) as (c & Hi & Hlt & Hf & Heq & Hle & Hp). cbn in Hi, Heq, Hp. subst inc p.
  pose proof (proj1 (Forall_lookup _ _) Hall i c Hi) as [Hfc Hk].
  pose proof (total_bytes_mono c (c + 1) Hf ltac:(destruct Hfc; lia)) as Hmono.
  assert (Hnew : sumN (total_bytes <$> <[i := c + 1]> cs) = sumN (total_bytes <$> cs) + increment c)
    by (pose proof (sumN_insert total_bytes cs i c (c + 1) Hi); unfold increment; lia).
  assert (Hslots : sumN (<[i := c + 1]> cs) = sumN cs + 1).
  { pose proof (sumN_insert id cs i c (c + 1) Hi) as Hins. rewrite !sumN_id in Hins. unfold id in Hins. lia. }
  rewrite (proj2 (checked_add_Some u64_max _ _ (sumN (total_bytes <$> cs) + increment c))) by (split; [done|lia]).
  rewrite <-list_fmap_insert, <-Hnew. specialize (IH (<[i := c + 1]> cs)). rewrite length_insert in IH. apply IH.
  - split; [|rewrite Hnew; lia]. apply Forall_insert; [done|]. split; [done|lia].
  - rewrite Hslots. lia.
Qed.

Lemma sum_replicate n c : sumN (total_bytes <$> replicate n c) = total_bytes c * N.of_nat n.
Proof. rewrite fmap_replicate. induction n as [|n IH]; [simpl; lia|]. simpl in *. lia. Qed.

(** The plan once the preconditions hold. *)
Lemma model_plan_cases num_layers budget q :
  budget <= u64_max -> validate_namespace num_layers Ne = Ok tt -> plan_for_slot_capacity g (top_k g) l = Ok q ->
  total_arena_allocation_bytes q * num_layers <= budget ->
  exists r, model_plan_try_new num_layers g budget l = Some r /\
    match r with
    | Err e => e = Backend ExpertArenaBankLimit /\ 4 * M < Ne
    | Ok p => exists cs, layer_plans p = plan_at <$> cs /\ N.of_nat (length cs) = num_layers /\ spent budget cs /\
        model_arena_allocation_bytes p = sumN (total_bytes <$> cs) /\
        forall c, c ∈ cs -> c < Ne -> budget - model_arena_allocation_bytes p < increment c
    end.
Proof.
  intros Hbu Hn Hq Hmin. apply plan_for_slot_capacity_ok in Hq as Hq'. destruct Hq' as (Hv & Hk & Hf & ->).
  unfold model_plan_try_new. rewrite Hn, Hq. cbn [backend mbind result_bind].
  cbn [total_arena_allocation_bytes the_plan] in *.
  rewrite (proj2 (checked_mul_Some u64_max _ _ (total_bytes (top_k g) * num_layers))) by (split; [done|lia]). cbn [ok_or mbind result_bind].
  destruct (N.ltb_spec budget (total_bytes (top_k g) * num_layers)); [lia|].
  set (cs := replicate (N.to_nat num_layers) (top_k g)).
  assert (Hsum : sumN (total_bytes <$> cs) = total_bytes (top_k g) * num_layers) by (unfold cs; rewrite sum_replicate; lia).
  pose proof (extend_plans_spec budget (model_fuel g num_layers) cs Hv Hbu) as Hext.
  destruct Hext as (r & Hr & Hcases).
  - split; [|lia]. apply Forall_replicate. split; [done|]. pose proof (geometry_facts g Hg). lia.
  - unfold model_fuel, cs. rewrite length_replicate. lia.
  - unfold cs in Hr. rewrite fmap_replicate in Hr. fold cs in Hr. rewrite Hsum in Hr. change (the_plan _ (top_k g)) with (plan_at (top_k g)).
    rewrite Hr. cbn [mbind option_bind].
    destruct r as [[plans total]|e]; cbn [mbind result_bind]; eexists; (split; [done|]); [|done].
    destruct Hcases as (cs' & -> & Hlen & Hspent & -> & Hmax). exists cs'. cbn. split_and!; try done.
    rewrite Hlen. unfold cs. rewrite length_replicate. lia.
Qed.

(** Planning the whole model always returns.  It succeeds only when every layer's
    minimum is paid for, and fails only for the namespace, for the minimum layer, for a
    budget below the sum of the minimums, or with the bank limit when four banks cannot
    hold all the experts of a layer. *)
Theorem model_plan_returns num_layers budget :
  budget <= u64_max ->
  exists r, model_plan_try_new num_layers g budget l = Some r /\
    match r with
    | Ok p => validate_namespace num_layers Ne = Ok tt /\
        exists q, plan_for_slot_capacity g (top_k g) l = Ok q /\ total_arena_allocation_bytes q * num_layers <= budget
    | Err e =>
        validate_namespace num_layers Ne = Err e \/ backend (plan_for_slot_capacity g (top_k g) l) = Err e \/
        (exists q, plan_for_slot_capacity g (top_k g) l = Ok q /\ budget < total_arena_allocation_bytes q * num_layers /\
                   (e = ModelBudgetTooSmall \/ e = ModelBudgetOverflow)) \/
        e = Backend ExpertArenaBankLimit /\ 4 * M < Ne
    end.
Proof.
  intros Hbu. destruct (validate_namespace num_layers Ne) as [[]|e] eqn:Hn.
  2:{ exists (Err e). unfold model_plan_try_new. rewrite Hn. cbn [mbind result_bind]. auto. }
  destruct (plan_for_slot_capacity g (top_k g) l) as [q|e] eqn:Hq.
  2:{ exists (Err (Backend e)). unfold model_plan_try_new. rewrite Hn, Hq. cbn [mbind result_bind backend]. auto. }
  destruct (N.le_gt_cases (total_arena_allocation_bytes q * num_layers) budget) as [Hle|Hgt].
  - destruct (model_plan_cases num_layers budget q Hbu Hn Hq Hle) as (r & Hr & Hc). exists r. split; [done|].
    destruct r as [p|e]; [|by auto]. split; [done|]. by exists q.
  - unfold model_plan_try_new. rewrite Hn, Hq. cbn [mbind result_bind backend].
    destruct (checked_mul u64_max (total_arena_allocation_bytes q) num_layers) as [m|] eqn:Hm; cbn [ok_or mbind result_bind].
    + apply checked_mul_Some in Hm as [-> _]. destruct (N.ltb_spec budget (total_arena_allocation_bytes q * num_layers)); [|lia].
      eexists. split; [done|]. right; right; left. exists q. auto.
    + eexists. split; [done|]. right; right; left. exists q. auto.
Qed.

(** A plan is only made when every layer's minimum is paid for. *)
Lemma model_plan_affords num_layers budget p :
  model_plan_try_new num_layers g budget l = Some (Ok p) ->
  exists q, validate_namespace num_layers Ne = Ok tt /\ plan_for_slot_capacity g (top_k g) l = Ok q /\
    total_arena_allocation_bytes q * num_layers <= budget.
Proof.
  intros Hp. unfold model_plan_try_new in Hp. destruct (validate_namespace num_layers Ne) as [[]|]; cbn [mbind result_bind] in Hp; [|done].
  destruct (plan_for_slot_capacity g (top_k g) l) as [q|]; cbn [mbind result_bind backend] in Hp; [|done].
  destruct (checked_mul _ _ _) as [m|] eqn:Hm; cbn [ok_or mbind result_bind] in Hp; [|done].
  apply checked_mul_Some in Hm as [-> _]. destruct (N.ltb_spec budget (total_arena_allocation_bytes q * num_layers)); [done|].
  by exists q.
Qed.

Lemma model_plan_geometry num_layers budget p :
  budget <= u64_max -> model_plan_try_new num_layers g budget l = Some (Ok p) ->
  N.of_nat (length (layer_plans p)) = num_layers /\ Forall (fun q => geometry q = g) (layer_plans p).
Proof.
  intros Hbu Hp. destruct (model_plan_affords num_layers budget p Hp) as (q & Hn & Hq & Hle).
  destruct (model_plan_cases num_layers budget q Hbu Hn Hq Hle) as (r & Hr & Hc). rewrite Hp in Hr. injection Hr as <-.
  destruct Hc as (cs & -> & Hlen & _). split; [by rewrite length_fmap|]. apply Forall_fmap, Forall_forall. by intros c _.
Qed.

(** The model plan has one plan for each layer, each the plan of its own number of
    slots, between the number of experts a token uses and the number of experts; the
    recorded total is the sum of the layers' allocations and within the budget; and
    no layer could have been given one slot more with what is left. *)
Theorem model_plan_spends_budget num_layers budget p :
  budget <= u64_max -> model_plan_try_new num_layers g budget l = Some (Ok p) ->
  N.of_nat (length (layer_plans p)) = num_layers /\
  Forall (fun q => top_k g <= plan_slot_capacity q <= num_experts g /\
                   plan_for_slot_capacity g (plan_slot_capacity q) l = Ok q) (layer_plans p) /\
  model_arena_allocation_bytes p = sumN (total_arena_allocation_bytes <$> layer_plans p) /\
  model_arena_allocation_bytes p <= budget /\
  (forall q q', q ∈ layer_plans p -> plan_for_slot_capacity g (plan_slot_capacity q + 1) l = Ok q' ->
     budget < model_arena_allocation_bytes p + (total_arena_allocation_bytes q' - total_arena_allocation_bytes q)).
Proof.
  intros Hbu Hp. destruct (model_plan_affords num_layers budget p Hp) as (q & Hn & Hq & Hle). apply plan_for_slot_capacity_ok in Hq as Hv. destruct Hv as [Hv _].
  destruct (model_plan_cases num_layers budget q Hbu Hn Hq Hle) as (r & Hr & Hc). rewrite Hp in Hr. injection Hr as <-.
  destruct Hc as (cs & Hpl & Hlen & [Hall Hsum] & Htot & Hmax). rewrite Hpl. rewrite Htot in Hmax. rewrite Htot. clear Hpl Htot. split_and!.
  - by rewrite length_fmap.
  - apply Forall_fmap. eapply Forall_impl; [exact Hall|]. intros c [Hf Hk]. split; [exact Hk|].
    apply plan_for_slot_capacity_ok. split_and!; [done|exact (proj2 Hk)|exact Hf|reflexivity].
  - rewrite <-list_fmap_compose. reflexivity.
  - done.
  - intros q1 q2 (c & -> & Hc)%list_elem_of_fmap (_ & Hk & Hf & ->)%plan_for_slot_capacity_ok.
    change (plan_slot_capacity (plan_at c)) with c in *. cbn [plan_at the_plan total_arena_allocation_bytes].
    specialize (Hmax c Hc ltac:(lia)). unfold increment in Hmax. lia.
Qed.

End layouts.

(** ** The namespace of layers and experts *)

Lemma validate_namespace_ok L ne :
  validate_namespace L ne = Ok tt <-> 0 < L /\ 0 < ne /\ L * ne <= u32_max + 1.
Proof.
  unfold validate_namespace. case_N; (split; [intros Hx; try done; lia|intros (? & ? & ?); try done; lia]).
Qed.

(** In a valid namespace the global numbers below layers times experts and the
    pairs of a layer and an expert in range correspond one to one, and every number or
    pair out of range is refused; the global number always fits in 32 bits, so the
    overflow branch is dead. *)
Theorem namespace_round_trip L ne :
  validate_namespace L ne = Ok tt ->
  (forall g, if g <? L * ne
     then exists id, global_to_layer_local g L ne = Ok id /\
            layer_local_to_global (layer_index id) (local_expert_id id) L ne = Ok g
     else global_to_layer_local g L ne = Err GlobalExpertOutOfRange) /\
  (forall layer local, match layer_local_to_global layer local L ne with
     | Ok g => layer < L /\ local < ne /\ g < L * ne /\ g <= u32_max /\
         global_to_layer_local g L ne = Ok {| layer_index := layer; local_expert_id := local |}
     | Err e => e = (if L <=? layer then LayerOutOfRange else LocalExpertOutOfRange) /\ (L <= layer \/ ne <= local)
     end).
Proof.
  intros Hv. apply validate_namespace_ok in Hv as Hb. destruct Hb as (HL & Hne & Hmax).
  assert (Hglobal : forall layer local, layer < L -> local < ne ->
            layer_local_to_global layer local L ne = Ok (layer * ne + local) /\ layer * ne + local < L * ne).
  { intros layer local Hla Hlo. assert (Hlt : layer * ne + local < L * ne) by nia. split; [|done].
    unfold layer_local_to_global. rewrite Hv. cbn [mbind result_bind].
    destruct (N.leb_spec L layer); [lia|]. destruct (N.leb_spec ne local); [lia|].
    rewrite (proj2 (checked_mul_Some u64_max layer ne (layer * ne))) by (unfold u64_max, u32_max in *; split; [done|lia]).
    cbn [mbind option_bind].
    rewrite (proj2 (checked_add_Some u64_max (layer * ne) local (layer * ne + local))) by (unfold u64_max, u32_max in *; split; [done|lia]).
    cbn [mbind option_bind]. destruct (N.leb_spec (layer * ne + local) u32_max); [done|lia]. }
  assert (Hlocal : forall g, global_to_layer_local g L ne =
            if L <=? g / ne then Err GlobalExpertOutOfRange else Ok {| layer_index := g / ne; local_expert_id := g mod ne |}).
  { intros g. unfold global_to_layer_local. by rewrite Hv. }
  split.
  - intros g. rewrite Hlocal. pose proof (N.div_mod' g ne) as Hd. pose proof (N.mod_lt g ne ltac:(lia)) as Hm.
    set (q := g / ne) in *. set (r := g mod ne) in *.
    destruct (N.ltb_spec g (L * ne)); destruct (N.leb_spec L q); try nia; try done.
    eexists. split; [done|]. cbn. destruct (Hglobal q r ltac:(lia) ltac:(lia)) as [-> _]. f_equal. lia.
  - intros layer local. destruct (N.le_gt_cases L layer) as [Hla|Hla].
    { unfold layer_local_to_global. rewrite Hv. cbn [mbind result_bind]. destruct (N.leb_spec L layer); [|lia]. auto. }
    destruct (N.le_gt_cases ne local) as [Hlo|Hlo].
    { unfold layer_local_to_global. rewrite Hv. cbn [mbind result_bind]. destruct (N.leb_spec L layer); [lia|].
      destruct (N.leb_spec ne local); [|lia]. auto. }
    destruct (Hglobal layer local Hla Hlo) as [-> Hlt]. split_and!; [done|done|done|lia|].
    rewrite Hlocal, N.div_add_l, N.div_small, N.add_0_r, N.add_comm, N.Div0.mod_add, N.mod_small by lia.
    by destruct (N.leb_spec L layer); [lia|].
Qed.

Module Witness.

(** Eight experts of 1728 bytes, two per token. *)
Definition g : GpuNativeQ4ExpertGeometry :=
  {| d_model := 32; d_ff := 32; num_experts := 8; top_k := 2; blocks_per_projection := 32;
     logical_expert_bytes := 1728; slot_stride_bytes := 1732 |}.
Lemma g_ok : geometry_ok g.
Proof. reflexivity. Qed.

(** A device whose buffers hold three slots, and one whose buffers hold a single one. *)
Definition device (buffer : N) : Limits :=
  {| max_buffer_size := buffer; max_storage_buffer_binding_size := buffer; max_storage_buffers_per_shader_stage := 8;
     max_push_constant_size := 128; max_compute_workgroup_size_x := 256; max_compute_invocations_per_workgroup := 256 |}.

Lemma plan_is_largest_witness :
  exists p, plan_try_new g 10000 (device 6000) = Some (Ok p) /\ plan_slot_capacity p = 5 /\
    exists r, plan_try_new g 10000 (device 6000) = Some r /\
      exists p', r = Ok p' /\ forall c, plan_slot_capacity p' < c <= 8 -> fits g (device 6000) 10000 c = false.
Proof.
  destruct (plan_is_largest g (device 6000) g_ok 10000) as (r & Hr & Hc).
  assert (Hp : exists p, plan_try_new g 10000 (device 6000) = Some (Ok p) /\ plan_slot_capacity p = 5)
    by (eexists; split; vm_compute; reflexivity).
  destruct Hp as (p & Hp & Hcap). exists p. split; [exact Hp|]. split; [exact Hcap|]. exists r. split; [exact Hr|].
  rewrite Hp in Hr. injection Hr as <-.
  change (exists p', (Ok p : gres _) = Ok p' /\ geometry p' = g /\ requested_expert_budget_bytes p' = 10000 /\
            1 <= plan_slot_capacity p' <= 8 /\ layout_try_new g (plan_slot_capacity p') (device 6000) = Ok (layout p') /\
            total_allocation_bytes (layout p') = Ok (total_arena_allocation_bytes p') /\
            total_arena_allocation_bytes p' <= 10000 /\
            forall c, plan_slot_capacity p' < c <= 8 -> fits g (device 6000) 10000 c = false) in Hc.
  destruct Hc as (p' & Hp' & _ & _ & _ & _ & _ & _ & Hmax). exists p'. split; [exact Hp'|exact Hmax].
Defined.

Lemma plan_replays_witness :
  exists p, plan_for_slot_capacity g 5 (device 6000) = Ok p /\
            plan_try_new g (requested_expert_budget_bytes p) (device 6000) = Some (Ok p).
Proof.
  eexists. split; [vm_compute; reflexivity|]. apply (plan_replays g (device 6000) g_ok 5). vm_compute. reflexivity.
Defined.

Lemma flat_slots_are_locations_witness :
  exists lay, layout_try_new g 5 (device 6000) = Ok lay /\
    location_for_flat_slot lay 4 = Ok {| bank := 1; slot := 1 |} /\
    forall loc flat, flat_slot_for_location lay loc = Ok flat -> flat < 5 /\ location_for_flat_slot lay flat = Ok loc.
Proof.
  eexists. split; [vm_compute; reflexivity|]. split; [vm_compute; reflexivity|].
  refine (proj2 (flat_slots_are_locations g (device 6000) g_ok 5 _ _)). vm_compute. reflexivity.
Defined.

Lemma model_plan_returns_witness :
  10000 <= u64_max /\ exists r, model_plan_try_new 2 g 10000 (device 6000) = Some r.
Proof.
  split; [done|]. destruct (model_plan_returns g (device 6000) g_ok 2 10000 ltac:(done)) as (r & Hr & _). by exists r.
Defined.

Lemma model_plan_spends_budget_witness :
  exists p, model_plan_try_new 2 g 10000 (device 6000) = Some (Ok p) /\ plan_slot_capacity <$> layer_plans p = [3; 2] /\
            model_arena_allocation_bytes p <= 10000.
Proof.
  eexists. split; [vm_compute; reflexivity|]. split; [vm_compute; reflexivity|].
  refine (proj1 (proj2 (proj2 (proj2 (model_plan_spends_budget g (device 6000) g_ok 2 10000 _ ltac:(done) _))))).
  vm_compute. reflexivity.
Defined.

Lemma namespace_round_trip_witness :
  validate_namespace 3 8 = Ok tt /\ global_to_layer_local 24 3 8 = Err GlobalExpertOutOfRange.
Proof. split; [done|]. exact (proj1 (namespace_round_trip 3 8 ltac:(done)) 24). Defined.

(** A larger budget is refused where a smaller one is accepted: once a layer fills its
    four banks the extension by one more slot fails, and the failure is not taken as
    "this layer is full".  The single layer's planner uses the same budget in full. *)
Example larger_budget_refused :
  (exists p, model_plan_try_new 1 g 6991 (device 2000) = Some (Ok p) /\ plan_slot_capacity <$> layer_plans p = [3]) /\
  model_plan_try_new 1 g 6992 (device 2000) = Some (Err (Backend ExpertArenaBankLimit)) /\
  (exists p, plan_try_new g 6992 (device 2000) = Some (Ok p) /\ plan_slot_capacity p = 4).
Proof. split_and!; [eexists; split; vm_compute; reflexivity|vm_compute; reflexivity|eexists; split; vm_compute; reflexivity]. Qed.

End Witness.
