(* ===== verification/ExpertArena.v ===== *)
(** The arena of Q4_0 expert slots of one layer ([src/rust-engine/src/backend/gpu_native.rs]):
    the bytes of a slot, the table of slots and its owners, reservation, installation,
    publication and retirement, and how the shaders resolve and read a route.

    A queue write takes effect where it is issued: the queue keeps the order of writes
    and of the passes that read them.  A bank is a list of bytes, the mapping buffer the
    list of its eight-byte entries.  A permit is consumed by every operation that takes
    it; an operation that gives it up runs its [Drop].  [None] is an index out of range
    (a panic). *)
From S2P Require Import Prelude Layout ExpertVram.
Local Open Scope N_scope.

(** ** The bytes of a slot *)

Definition lenN {A} (xs : list A) : N := N.of_nat (length xs).

Definition validate_q4_expert_payload (g : GpuNativeQ4ExpertGeometry) (payload : list byte) : gres unit :=
  if lenN payload <? logical_expert_bytes g then Err ExpertPayloadTooShort else
  if physical_payload_bytes g <? lenN payload then Err ExpertPayloadTrailingBytes else
  if existsb (fun b => negb (Byte.eqb b x00)) (drop (N.to_nat (logical_expert_bytes g)) payload)
  then Err ExpertPayloadNonZeroPadding else Ok tt.

Record CheckedPhysicalQ4ExpertSlot := { c_geometry : GpuNativeQ4ExpertGeometry; c_epoch : N; c_payload : list byte }.

Definition checked_new (g : GpuNativeQ4ExpertGeometry) (slot_epoch : N) (payload : list byte)
    : gres CheckedPhysicalQ4ExpertSlot :=
  _ ← validate_q4_expert_payload g payload;
  if slot_epoch =? 0 then Err InvalidExpertSlotEpoch
  else Ok {| c_geometry := g; c_epoch := slot_epoch; c_payload := payload |}.

Definition logical_payload (c : CheckedPhysicalQ4ExpertSlot) : list byte :=
  take (N.to_nat (logical_expert_bytes (c_geometry c))) (c_payload c).

Definition fill (c : CheckedPhysicalQ4ExpertSlot) (destination : list byte) : gres (list byte) :=
  if negb (lenN destination =? slot_stride_bytes (c_geometry c)) then Err ExpertPhysicalSlotDestinationLength else
  let destination := replicate (length destination) x00 in
  let destination := splice 0 (le_bytes 4 (c_epoch c)) destination in
  _ ← ok_or (checked_add usize_max payload_offset_bytes (logical_expert_bytes (c_geometry c))) ExpertArenaBudgetOverflow;
  Ok (splice (N.to_nat payload_offset_bytes) (logical_payload c) destination).

Definition complete_overwrite_range (c : CheckedPhysicalQ4ExpertSlot) (destination_len : N) : gres (N * N) :=
  if negb (destination_len =? slot_stride_bytes (c_geometry c)) then Err ExpertPhysicalSlotDestinationLength else
  let payload_start := payload_offset_bytes in
  payload_end ← ok_or (checked_add usize_max payload_start (logical_expert_bytes (c_geometry c))) ExpertArenaBudgetOverflow;
  if negb (payload_end =? destination_len) then Err ExpertPhysicalSlotDestinationLength
  else Ok (payload_start, payload_end).

Definition fill_complete_overwrite_no_zero (c : CheckedPhysicalQ4ExpertSlot) (destination : list byte) : gres (list byte) :=
  range ← complete_overwrite_range c (lenN destination);
  let destination := splice 0 (le_bytes 4 (c_epoch c)) destination in
  Ok (splice (N.to_nat range.1) (logical_payload c) destination).

Definition physical_q4_expert_slot (g : GpuNativeQ4ExpertGeometry) (slot_epoch : N) (payload : list byte) : gres (list byte) :=
  c ← checked_new g slot_epoch payload;
  fill c (replicate (N.to_nat (slot_stride_bytes g)) x00).

(** ** Identities *)

Record GpuNativeQ4ExpertKey := { key_layer : N; expert_id : N; logical_generation : N }.
#[export] Instance key_eq_dec : EqDecision GpuNativeQ4ExpertKey.
Proof. solve_decision. Defined.

Record GpuNativeQ4ExpertResidency := { r_key : GpuNativeQ4ExpertKey; r_location : GpuNativeQ4ExpertLocation; r_epoch : N }.
#[export] Instance residency_eq_dec : EqDecision GpuNativeQ4ExpertResidency.
Proof. solve_decision. Defined.

Record GpuNativeQ4ExpertMappingEntry := { m_location : N; m_epoch : N }.
#[export] Instance entry_eq_dec : EqDecision GpuNativeQ4ExpertMappingEntry.
Proof. solve_decision. Defined.

Definition UNMAPPED : GpuNativeQ4ExpertMappingEntry := {| m_location := GPU_NATIVE_EXPERT_UNMAPPED; m_epoch := 0 |}.
Definition entry_try_new (location : GpuNativeQ4ExpertLocation) (slot_epoch : N) : gres GpuNativeQ4ExpertMappingEntry :=
  if slot_epoch =? 0 then Err InvalidExpertSlotEpoch else
  packed ← pack location; Ok {| m_location := packed; m_epoch := slot_epoch |}.
Definition mapping_entry (r : GpuNativeQ4ExpertResidency) : gres GpuNativeQ4ExpertMappingEntry :=
  entry_try_new (r_location r) (r_epoch r).

Inductive GpuNativeQ4ExpertSlotOwner :=
| Free
| Installing (key : GpuNativeQ4ExpertKey) (slot_epoch install_ticket : N)
| Resident (r : GpuNativeQ4ExpertResidency).
#[export] Instance owner_eq_dec : EqDecision GpuNativeQ4ExpertSlotOwner.
Proof. solve_decision. Defined.

Record GpuNativeQ4ExpertPhysicalSlot := {
  s_location : GpuNativeQ4ExpertLocation;
  last_epoch : N;
  ever_installed : bool;
  owner : GpuNativeQ4ExpertSlotOwner;
}.

Record GpuNativeQ4ExpertResidencyCounters := {
  expert_slot_installs : N;
  expert_slot_retires : N;
  expert_slot_reuses : N;
  expert_mapping_publications : N;
  expert_mapping_unpublications : N;
  expert_stale_install_rejections : N;
  expert_install_cancellations : N;
}.

Record GpuNativeQ4ExpertArenaState := {
  slots : list GpuNativeQ4ExpertPhysicalSlot;
  logical_slots : list (option nat);
  latest_generations : list (option N);
  next_install_ticket : N;
  counters : GpuNativeQ4ExpertResidencyCounters;
}.

(** [geometry] is the plan's. *)
Record GpuNativeQ4ExpertArena := {
  context_id : N;
  arena_layer : N;
  plan : GpuNativeQ4ExpertVramPlan;
  bank_memory : list (list byte);
  mapping_memory : list GpuNativeQ4ExpertMappingEntry;
  state : GpuNativeQ4ExpertArenaState;
}.
Definition arena_geometry (a : GpuNativeQ4ExpertArena) : GpuNativeQ4ExpertGeometry := geometry (plan a).
Definition arena_layout (a : GpuNativeQ4ExpertArena) : GpuNativeQ4ExpertArenaLayout := layout (plan a).

(** ** Updates *)

Definition with_state (f : GpuNativeQ4ExpertArenaState -> GpuNativeQ4ExpertArenaState) (a : GpuNativeQ4ExpertArena) : GpuNativeQ4ExpertArena :=
  {| context_id := context_id a; arena_layer := arena_layer a; plan := plan a;
     bank_memory := bank_memory a; mapping_memory := mapping_memory a; state := f (state a) |}.
Definition with_mapping (m : list GpuNativeQ4ExpertMappingEntry) (a : GpuNativeQ4ExpertArena) : GpuNativeQ4ExpertArena :=
  {| context_id := context_id a; arena_layer := arena_layer a; plan := plan a;
     bank_memory := bank_memory a; mapping_memory := m; state := state a |}.
Definition with_banks (b : list (list byte)) (a : GpuNativeQ4ExpertArena) : GpuNativeQ4ExpertArena :=
  {| context_id := context_id a; arena_layer := arena_layer a; plan := plan a;
     bank_memory := b; mapping_memory := mapping_memory a; state := state a |}.

Definition set_slots (v : list GpuNativeQ4ExpertPhysicalSlot) (s : GpuNativeQ4ExpertArenaState) : GpuNativeQ4ExpertArenaState :=
  {| slots := v; logical_slots := logical_slots s; latest_generations := latest_generations s;
     next_install_ticket := next_install_ticket s; counters := counters s |}.
Definition set_logical (v : list (option nat)) (s : GpuNativeQ4ExpertArenaState) : GpuNativeQ4ExpertArenaState :=
  {| slots := slots s; logical_slots := v; latest_generations := latest_generations s;
     next_install_ticket := next_install_ticket s; counters := counters s |}.
Definition set_latest (v : list (option N)) (s : GpuNativeQ4ExpertArenaState) : GpuNativeQ4ExpertArenaState :=
  {| slots := slots s; logical_slots := logical_slots s; latest_generations := v;
     next_install_ticket := next_install_ticket s; counters := counters s |}.
Definition set_ticket (v : N) (s : GpuNativeQ4ExpertArenaState) : GpuNativeQ4ExpertArenaState :=
  {| slots := slots s; logical_slots := logical_slots s; latest_generations := latest_generations s;
     next_install_ticket := v; counters := counters s |}.

(** Counters to be increased by one, saturating. *)
Record Bump := { b_installs : bool; b_retires : bool; b_reuses : bool; b_publications : bool;
                 b_unpublications : bool; b_stale : bool; b_cancellations : bool }.
Definition nothing : Bump :=
  {| b_installs := false; b_retires := false; b_reuses := false; b_publications := false;
     b_unpublications := false; b_stale := false; b_cancellations := false |}.
Definition stale : Bump :=
  {| b_installs := false; b_retires := false; b_reuses := false; b_publications := false;
     b_unpublications := false; b_stale := true; b_cancellations := false |}.
Definition cancelled : Bump :=
  {| b_installs := false; b_retires := false; b_reuses := false; b_publications := false;
     b_unpublications := false; b_stale := false; b_cancellations := true |}.
Definition retired : Bump :=
  {| b_installs := false; b_retires := true; b_reuses := false; b_publications := false;
     b_unpublications := true; b_stale := false; b_cancellations := false |}.
Definition installed (reused : bool) : Bump :=
  {| b_installs := true; b_retires := false; b_reuses := reused; b_publications := true;
     b_unpublications := false; b_stale := false; b_cancellations := false |}.
Definition saturating (b : bool) (n : N) : N := if b then sat_add u64_max n 1 else n.
Definition count (b : Bump) (s : GpuNativeQ4ExpertArenaState) : GpuNativeQ4ExpertArenaState :=
  let c := counters s in
  {| slots := slots s; logical_slots := logical_slots s; latest_generations := latest_generations s;
     next_install_ticket := next_install_ticket s;
     counters := {|
       expert_slot_installs := saturating (b_installs b) (expert_slot_installs c);
       expert_slot_retires := saturating (b_retires b) (expert_slot_retires c);
       expert_slot_reuses := saturating (b_reuses b) (expert_slot_reuses c);
       expert_mapping_publications := saturating (b_publications b) (expert_mapping_publications c);
       expert_mapping_unpublications := saturating (b_unpublications b) (expert_mapping_unpublications c);
       expert_stale_install_rejections := saturating (b_stale b) (expert_stale_install_rejections c);
       expert_install_cancellations := saturating (b_cancellations b) (expert_install_cancellations c) |} |}.

Definition set_owner (o : GpuNativeQ4ExpertSlotOwner) (s : GpuNativeQ4ExpertPhysicalSlot) : GpuNativeQ4ExpertPhysicalSlot :=
  {| s_location := s_location s; last_epoch := last_epoch s; ever_installed := ever_installed s; owner := o |}.

(** [state.slots[flat].owner = Free; state.logical_slots[id] = None;] *)
Definition release (flat id : nat) (s : GpuNativeQ4ExpertArenaState) : GpuNativeQ4ExpertArenaState :=
  set_logical (<[id := None]> (logical_slots s)) (set_slots (alter (set_owner Free) flat (slots s)) s).

(** [write_buffer(&arena.mapping, offset, entry)]: the offsets are multiples of eight. *)
Definition write_mapping (offset : N) (entry : GpuNativeQ4ExpertMappingEntry) (a : GpuNativeQ4ExpertArena) : GpuNativeQ4ExpertArena :=
  with_mapping (<[N.to_nat (offset / GPU_NATIVE_EXPERT_MAPPING_ENTRY_BYTES) := entry]> (mapping_memory a)) a.
Definition mapping_offset_of (id : N) : gres N :=
  ok_or (checked_mul u64_max id GPU_NATIVE_EXPERT_MAPPING_ENTRY_BYTES) ExpertArenaBudgetOverflow.

(** ** Reservation *)

Record GpuNativeQ4ExpertInstallPermit := {
  p_key : GpuNativeQ4ExpertKey;
  flat_slot : nat;
  p_residency : GpuNativeQ4ExpertResidency;
  install_ticket : N;
  reused : bool;
}.

Inductive GpuNativeQ4ExpertAcquire :=
| Hit (r : GpuNativeQ4ExpertResidency)
| Install (p : GpuNativeQ4ExpertInstallPermit)
| InstallInProgress
| StaleRequester
| NoPhysicalSlot.

Definition is_free (s : GpuNativeQ4ExpertPhysicalSlot) : bool := bool_decide (owner s = Free).

(** The search for a free slot, with the first exhausted one it passed. *)
Fixpoint find_free (index : nat) (exhausted : option GpuNativeQ4ExpertLocation) (ss : list GpuNativeQ4ExpertPhysicalSlot)
    : option nat * option GpuNativeQ4ExpertLocation :=
  match ss with
  | [] => (None, exhausted)
  | s :: ss =>
      if negb (is_free s) then find_free (S index) exhausted ss
      else if last_epoch s =? u32_max
      then find_free (S index) (match exhausted with Some l => Some l | None => Some (s_location s) end) ss
      else (Some index, exhausted)
  end.

(** From [state.latest_generations[logical_id] = ..] to the permit. *)
Definition reserve (key : GpuNativeQ4ExpertKey) (a : GpuNativeQ4ExpertArena)
    : option (gres GpuNativeQ4ExpertAcquire * GpuNativeQ4ExpertArena) :=
  let id := N.to_nat (expert_id key) in
  let a := with_state (fun s => set_latest (<[id := Some (logical_generation key)]> (latest_generations s)) s) a in
  match find_free 0 None (slots (state a)) with
  | (None, Some _) => Some (Err ExpertSlotEpochExhausted, a)
  | (None, None) => Some (Ok NoPhysicalSlot, a)
  | (Some flat, _) =>
      let ticket := next_install_ticket (state a) in
      match checked_add u64_max ticket 1 with
      | None => Some (Err ExpertInstallTicketExhausted, a)
      | Some next =>
          let a := with_state (set_ticket next) a in
          slot ← slots (state a) !! flat;
          match checked_add u32_max (last_epoch slot) 1 with
          | None => Some (Err ExpertSlotEpochExhausted, a)
          | Some slot_epoch =>
              let residency := {| r_key := key; r_location := s_location slot; r_epoch := slot_epoch |} in
              let slot' := {| s_location := s_location slot; last_epoch := slot_epoch; ever_installed := ever_installed slot;
                              owner := Installing key slot_epoch ticket |} in
              Some (Ok (Install {| p_key := key; flat_slot := flat; p_residency := residency;
                                   install_ticket := ticket; reused := ever_installed slot |}),
                    with_state (fun s => set_logical (<[id := Some flat]> (logical_slots s))
                                           (set_slots (<[flat := slot']> (slots s)) s)) a)
          end
      end
  end.

Definition acquire_with_unpublish (key : GpuNativeQ4ExpertKey) (a : GpuNativeQ4ExpertArena)
    : option (gres GpuNativeQ4ExpertAcquire * GpuNativeQ4ExpertArena) :=
  if negb (key_layer key =? arena_layer a) then Some (Err ExpertLayerMismatch, a) else
  if num_experts (arena_geometry a) <=? expert_id key then Some (Err ExpertLogicalIdOutOfRange, a) else
  if logical_generation key =? 0 then Some (Err InvalidExpertLogicalGeneration, a) else
  let id := N.to_nat (expert_id key) in
  latest ← latest_generations (state a) !! id;
  match latest with
  | None => reserve key a
  | Some latest =>
      if logical_generation key <? latest then Some (Ok StaleRequester, with_state (count stale) a) else
      current ← logical_slots (state a) !! id;
      match current with
      | None => reserve key a
      | Some flat =>
          slot ← slots (state a) !! flat;
          if logical_generation key =? latest then
            Some (match owner slot with
                  | Resident r => if bool_decide (r_key r = key) then Ok (Hit r) else Err ExpertInstallReservationLost
                  | Installing k _ _ => if bool_decide (k = key) then Ok InstallInProgress else Err ExpertInstallReservationLost
                  | Free => Err ExpertInstallReservationLost
                  end, a)
          else
            match owner slot with
            | Resident _ =>
                match mapping_offset_of (expert_id key) with
                | Err e => Some (Err e, a)
                | Ok offset => reserve key (with_state (fun s => release flat id (count retired s)) (write_mapping offset UNMAPPED a))
                end
            | Installing _ _ _ => reserve key (with_state (fun s => release flat id (count cancelled s)) a)
            | Free => Some (Err ExpertInstallReservationLost, a)
            end
      end
  end.

(** ** Giving up and retiring *)

Definition cancel_install (flat : nat) (ticket : N) (a : GpuNativeQ4ExpertArena) : option GpuNativeQ4ExpertArena :=
  match owner <$> slots (state a) !! flat with
  | Some (Installing key _ current) =>
      if negb (current =? ticket) then Some a else
      let id := N.to_nat (expert_id key) in
      let freed := set_slots (alter (set_owner Free) flat (slots (state a))) (state a) in
      let cleared := if bool_decide (mjoin (logical_slots freed !! id) = Some flat)
                     then set_logical (<[id := None]> (logical_slots freed)) freed else freed in
      Some (with_state (fun _ => count cancelled cleared) a)
  | _ => Some a
  end.

(** [Drop] of an active permit. *)
Definition drop_permit (p : GpuNativeQ4ExpertInstallPermit) (a : GpuNativeQ4ExpertArena) : option GpuNativeQ4ExpertArena :=
  cancel_install (flat_slot p) (install_ticket p) a.

Inductive GpuNativeQ4ExpertRetire := Retired | CancelledInstall | NotResident | RetireStaleRequester.

Definition retire_with_unpublish (key : GpuNativeQ4ExpertKey) (a : GpuNativeQ4ExpertArena)
    : option (gres GpuNativeQ4ExpertRetire * GpuNativeQ4ExpertArena) :=
  if negb (key_layer key =? arena_layer a) then Some (Err ExpertLayerMismatch, a) else
  if num_experts (arena_geometry a) <=? expert_id key then Some (Err ExpertLogicalIdOutOfRange, a) else
  let id := N.to_nat (expert_id key) in
  latest ← latest_generations (state a) !! id;
  match latest with
  | None => Some (Ok NotResident, a)
  | Some latest =>
      if logical_generation key <? latest then Some (Ok RetireStaleRequester, a) else
      if negb (logical_generation key =? latest) then Some (Ok NotResident, a) else
      current ← logical_slots (state a) !! id;
      match current with
      | None => Some (Ok NotResident, a)
      | Some flat =>
          slot ← slots (state a) !! flat;
          match owner slot with
          | Resident r =>
              if negb (bool_decide (r_key r = key)) then Some (Err ExpertInstallReservationLost, a) else
              match mapping_offset_of (expert_id key) with
              | Err e => Some (Err e, a)
              | Ok offset => Some (Ok Retired, with_state (fun s => count retired (release flat id s)) (write_mapping offset UNMAPPED a))
              end
          | Installing k _ _ =>
              if negb (bool_decide (k = key)) then Some (Err ExpertInstallReservationLost, a) else
              Some (Ok CancelledInstall, with_state (fun s => count cancelled (release flat id s)) a)
          | Free => Some (Err ExpertInstallReservationLost, a)
          end
      end
  end.

(** ** Installation *)

Definition reservation_current (p : GpuNativeQ4ExpertInstallPermit) (s : GpuNativeQ4ExpertArenaState) : bool :=
  let id := N.to_nat (expert_id (p_key p)) in
  bool_decide (mjoin (latest_generations s !! id) = Some (logical_generation (p_key p))) &&
  bool_decide (mjoin (logical_slots s !! id) = Some (flat_slot p)) &&
  match owner <$> slots s !! flat_slot p with
  | Some (Installing key slot_epoch ticket) =>
      bool_decide (key = p_key p) && (slot_epoch =? r_epoch (p_residency p)) && (ticket =? install_ticket p)
  | _ => false
  end.

(** Writing into a bank; [None] is a bank index out of range. *)
Definition write_bank (bank offset : N) (bytes : list byte) (a : GpuNativeQ4ExpertArena) : option GpuNativeQ4ExpertArena :=
  memory ← bank_memory a !! N.to_nat bank;
  Some (with_banks (<[N.to_nat bank := splice (N.to_nat offset) bytes memory]> (bank_memory a)) a).

Record Offsets := { o_mapping : GpuNativeQ4ExpertMappingEntry; o_physical_offset : N; o_mapping_offset : N }.

(** What both installers compute before they take the lock. *)
Definition offsets (p : GpuNativeQ4ExpertInstallPermit) (a : GpuNativeQ4ExpertArena) : gres Offsets :=
  mapping ← mapping_entry (p_residency p);
  physical_offset ← ok_or (checked_mul u64_max (slot (r_location (p_residency p))) (slot_stride_bytes (arena_geometry a)))
                      ExpertArenaBudgetOverflow;
  mapping_offset ← mapping_offset_of (expert_id (p_key p));
  Ok {| o_mapping := mapping; o_physical_offset := physical_offset; o_mapping_offset := mapping_offset |}.

(** The end of both installers: publish and commit. *)
Definition publish (p : GpuNativeQ4ExpertInstallPermit) (o : Offsets) (a : GpuNativeQ4ExpertArena) : GpuNativeQ4ExpertArena :=
  with_state (fun s => count (installed (reused p))
    (set_slots (alter (fun slot => {| s_location := s_location slot; last_epoch := last_epoch slot; ever_installed := true;
                                      owner := Resident (p_residency p) |}) (flat_slot p) (slots s)) s))
    (write_mapping (o_mapping_offset o) (o_mapping o) a).

(** The writer of the callers: [view] is the staging memory the queue hands out, if
    any.  It is copied into the bank when it goes out of scope, filled or not. *)
Definition physical_write (no_zero_fill : bool) (c : CheckedPhysicalQ4ExpertSlot) (view : option (list byte))
    (bank offset : N) (a : GpuNativeQ4ExpertArena) : option (gres unit * GpuNativeQ4ExpertArena) :=
  match view with
  | None => Some (Err ExpertDirectStagingUnavailable, a)
  | Some view =>
      match (if no_zero_fill then fill_complete_overwrite_no_zero c view else fill c view) with
      | Ok bytes => a ← write_bank bank offset bytes a; Some (Ok tt, a)
      | Err e => a ← write_bank bank offset view a; Some (Err e, a)
      end
  end.

(** [stage_with_checked_physical_writer] up to the end of its locked section: what the
    write outside the lock needs. *)
Record Staged := { w_permit : GpuNativeQ4ExpertInstallPermit; w_checked : CheckedPhysicalQ4ExpertSlot; w_offsets : Offsets }.

Definition stage_check (p : GpuNativeQ4ExpertInstallPermit) (payload : list byte) (a : GpuNativeQ4ExpertArena)
    : option (gres Staged * GpuNativeQ4ExpertArena) :=
  match (c ← checked_new (arena_geometry a) (r_epoch (p_residency p)) payload;
         o ← offsets p a; Ok {| w_permit := p; w_checked := c; w_offsets := o |}) with
  | Err e => a ← drop_permit p a; Some (Err e, a)
  | Ok w =>
      if negb (reservation_current p (state a))
      then a ← drop_permit p (with_state (count stale) a); Some (Err ExpertInstallReservationLost, a)
      else Some (Ok w, a)
  end.

Record GpuNativeQ4ExpertPreparedInstall := { permit : GpuNativeQ4ExpertInstallPermit; prepared : Offsets }.

(** ... and its write. *)
Definition stage_write (no_zero_fill : bool) (w : Staged) (view : option (list byte)) (a : GpuNativeQ4ExpertArena)
    : option (gres GpuNativeQ4ExpertPreparedInstall * GpuNativeQ4ExpertArena) :=
  '(r, a) ← physical_write no_zero_fill (w_checked w) view (bank (r_location (p_residency (w_permit w))))
              (o_physical_offset (w_offsets w)) a;
  match r with
  | Ok _ => Some (Ok {| permit := w_permit w; prepared := w_offsets w |}, a)
  | Err e => a ← drop_permit (w_permit w) a; Some (Err e, a)
  end.

Definition commit_with_mapping_writer (i : GpuNativeQ4ExpertPreparedInstall) (a : GpuNativeQ4ExpertArena)
    : option (gres GpuNativeQ4ExpertResidency * GpuNativeQ4ExpertArena) :=
  let p := permit i in
  if negb (reservation_current p (state a))
  then a ← drop_permit p (with_state (count stale) a); Some (Err ExpertInstallReservationLost, a)
  else Some (Ok (p_residency p), publish p (prepared i) a).

(** The sequential install: check, write and publication in one locked section. *)
Definition install (p : GpuNativeQ4ExpertInstallPermit) (payload : list byte) (view : option (list byte))
    (a : GpuNativeQ4ExpertArena) : option (gres GpuNativeQ4ExpertResidency * GpuNativeQ4ExpertArena) :=
  match (c ← checked_new (arena_geometry a) (r_epoch (p_residency p)) payload;
         o ← offsets p a; Ok (c, o)) with
  | Err e => a ← drop_permit p a; Some (Err e, a)
  | Ok (c, o) =>
      if negb (reservation_current p (state a))
      then Some (Err ExpertInstallReservationLost, with_state (count stale) a)
      else
        '(r, a) ← physical_write false c view (bank (r_location (p_residency p))) (o_physical_offset o) a;
        match r with
        | Ok _ => Some (Ok (p_residency p), publish p o a)
        | Err e => a ← drop_permit p a; Some (Err e, a)
        end
  end.

(** ** Queries *)

Definition is_resident (s : GpuNativeQ4ExpertPhysicalSlot) : bool := match owner s with Resident _ => true | _ => false end.
Definition is_installing (s : GpuNativeQ4ExpertPhysicalSlot) : bool := match owner s with Installing _ _ _ => true | _ => false end.

Definition resident_experts (a : GpuNativeQ4ExpertArena) : N := lenN (List.filter is_resident (slots (state a))).

Definition contains_exact_residency (context : N) (r : GpuNativeQ4ExpertResidency) (a : GpuNativeQ4ExpertArena) : bool :=
  if negb (context_id a =? context) || negb (key_layer (r_key r) =? arena_layer a) then false else
  let id := N.to_nat (expert_id (r_key r)) in
  match mjoin (logical_slots (state a) !! id) with
  | None => false
  | Some flat =>
      bool_decide (mjoin (latest_generations (state a) !! id) = Some (logical_generation (r_key r))) &&
      match slots (state a) !! flat with
      | Some s => bool_decide (s_location s = r_location r) && (last_epoch s =? r_epoch r) && bool_decide (owner s = Resident r)
      | None => false
      end
  end.

(** The counts of the snapshot; its other fields copy the plan and the counters. *)
Record GpuNativeQ4ExpertResidencySnapshot := {
  resident_slots : N; installing_slots : N; free_slots : N; resident_logical_payload_bytes : N
}.
Definition residency_snapshot (a : GpuNativeQ4ExpertArena) : GpuNativeQ4ExpertResidencySnapshot :=
  let resident := lenN (List.filter is_resident (slots (state a))) in
  let installing := lenN (List.filter is_installing (slots (state a))) in
  {| resident_slots := resident; installing_slots := installing;
     free_slots := sat_sub (sat_sub (lenN (slots (state a))) resident) installing;
     resident_logical_payload_bytes := default u64_max (checked_mul u64_max resident (logical_expert_bytes (arena_geometry a))) |}.

(** Every buffer of an arena is a storage buffer. *)
Definition validate_startup_buffer (size : N) (l : Limits) : gres unit :=
  if max_buffer_size l <? size then Err StartupAllocation else
  if max_storage_buffer_binding_size l <? size then Err StartupAllocation else Ok tt.
Fixpoint validate_startup_buffers (sizes : list N) (l : Limits) : gres unit :=
  match sizes with [] => Ok tt | size :: sizes => _ ← validate_startup_buffer size l; validate_startup_buffers sizes l end.

(** [None] is the search for the plan out of fuel. *)
Definition validate_q4_expert_arena (context : N) (l : Limits) (a : GpuNativeQ4ExpertArena) : option (gres unit) :=
  if negb (context_id a =? context) then Some (Err ForeignExpertArena) else
  let g := arena_geometry a in
  match geometry_try_new (d_model g) (d_ff g) (num_experts g) (top_k g) with
  | Err e => Some (Err e)
  | Ok g =>
      r ← plan_try_new g (requested_expert_budget_bytes (plan a)) l;
      Some (expected ← r;
            let residency := residency_snapshot a in
            let used := (used ← checked_add usize_max (resident_slots residency) (installing_slots residency);
                         checked_add usize_max used (free_slots residency)) in
            if negb (bool_decide (plan a = expected)) || negb (bool_decide (used = Some (plan_slot_capacity (plan a))))
            then Err ExpertResidentCountExceedsCapacity else
            _ ← validate_startup_buffers (allocation_bytes <$> banks (arena_layout a)) l;
            validate_startup_buffer (mapping_bytes (arena_layout a)) l)
  end.

(** ** Creation *)

Record GpuNativeQ4ExpertUpload := { u_logical_id : N; u_generation : N; u_location : GpuNativeQ4ExpertLocation; u_payload : list byte }.
Record GpuNativeQ4ExpertPreparedUploads := {
  u_mapping : list GpuNativeQ4ExpertMappingEntry;
  u_physical : list (GpuNativeQ4ExpertLocation * list byte);
  u_state : GpuNativeQ4ExpertArenaState;
}.

Definition state_new (g : GpuNativeQ4ExpertGeometry) (lay : GpuNativeQ4ExpertArenaLayout) : gres GpuNativeQ4ExpertArenaState :=
  slots ← foldr (fun flat rest =>
      location ← location_for_flat_slot lay flat; rest ← rest;
      Ok ({| s_location := location; last_epoch := 0; ever_installed := false; owner := Free |} :: rest))
    (Ok []) (rangeN (slot_capacity lay));
  Ok {| slots := slots; logical_slots := replicate (N.to_nat (num_experts g)) None;
        latest_generations := replicate (N.to_nat (num_experts g)) None; next_install_ticket := 1;
        counters := {| expert_slot_installs := 0; expert_slot_retires := 0; expert_slot_reuses := 0; expert_mapping_publications := 0;
                       expert_mapping_unpublications := 0; expert_stale_install_rejections := 0; expert_install_cancellations := 0 |} |}.

(** One upload; [seen] is the set of packed locations. *)
Definition place_upload (layer : N) (g : GpuNativeQ4ExpertGeometry) (lay : GpuNativeQ4ExpertArenaLayout)
    (u : GpuNativeQ4ExpertUpload) (seen : list N) (acc : GpuNativeQ4ExpertPreparedUploads)
    : option (gres (list N * GpuNativeQ4ExpertPreparedUploads)) :=
  let id := N.to_nat (u_logical_id u) in
  if num_experts g <=? u_logical_id u then Some (Err ExpertLogicalIdOutOfRange) else
  if u_generation u =? 0 then Some (Err InvalidExpertLogicalGeneration) else
  entry ← u_mapping acc !! id;
  if negb (bool_decide (entry = UNMAPPED)) then Some (Err DuplicateExpertLogicalId) else
  if active_banks lay <=? bank (u_location u) then Some (Err ExpertBankOutOfRange) else
  b ← banks lay !! N.to_nat (bank (u_location u));
  if b_slot_capacity b <=? slot (u_location u) then Some (Err ExpertSlotOutOfRange) else
  match pack (u_location u) with Err e => Some (Err e) | Ok packed =>
  if bool_decide (packed ∈ seen) then Some (Err DuplicateExpertPhysicalLocation) else
  let slot_epoch := 1 in
  let residency := {| r_key := {| key_layer := layer; expert_id := u_logical_id u; logical_generation := u_generation u |};
                      r_location := u_location u; r_epoch := slot_epoch |} in
  match flat_slot_for_location lay (u_location u) with Err e => Some (Err e) | Ok flat =>
  s ← slots (u_state acc) !! N.to_nat flat;
  let s' := {| s_location := s_location s; last_epoch := slot_epoch; ever_installed := true; owner := Resident residency |} in
  Some (entry ← mapping_entry residency;
        bytes ← physical_q4_expert_slot g slot_epoch (u_payload u);
        Ok (packed :: seen,
            {| u_mapping := <[id := entry]> (u_mapping acc); u_physical := u_physical acc ++ [(u_location u, bytes)];
               u_state := set_latest (<[id := Some (u_generation u)]> (latest_generations (u_state acc)))
                            (set_logical (<[id := Some (N.to_nat flat)]> (logical_slots (u_state acc)))
                              (set_slots (<[N.to_nat flat := s']> (slots (u_state acc))) (u_state acc))) |}))
  end end.

Fixpoint place_uploads (layer : N) (g : GpuNativeQ4ExpertGeometry) (lay : GpuNativeQ4ExpertArenaLayout)
    (us : list GpuNativeQ4ExpertUpload) (seen : list N) (acc : GpuNativeQ4ExpertPreparedUploads)
    : option (gres GpuNativeQ4ExpertPreparedUploads) :=
  match us with
  | [] => Some (Ok acc)
  | u :: us =>
      r ← place_upload layer g lay u seen acc;
      match r with
      | Err e => Some (Err e)
      | Ok (seen, acc) => place_uploads layer g lay us seen acc
      end
  end.

Definition with_installs (n : N) (s : GpuNativeQ4ExpertArenaState) : GpuNativeQ4ExpertArenaState :=
  let c := counters s in
  {| slots := slots s; logical_slots := logical_slots s; latest_generations := latest_generations s; next_install_ticket := next_install_ticket s;
     counters := {| expert_slot_installs := n; expert_slot_retires := expert_slot_retires c; expert_slot_reuses := expert_slot_reuses c;
                    expert_mapping_publications := n; expert_mapping_unpublications := expert_mapping_unpublications c;
                    expert_stale_install_rejections := expert_stale_install_rejections c;
                    expert_install_cancellations := expert_install_cancellations c |} |}.

Definition validate_q4_expert_uploads (layer : N) (g : GpuNativeQ4ExpertGeometry) (lay : GpuNativeQ4ExpertArenaLayout)
    (us : list GpuNativeQ4ExpertUpload) : option (gres GpuNativeQ4ExpertPreparedUploads) :=
  if slot_capacity lay <? lenN us then Some (Err ExpertResidentCountExceedsCapacity) else
  match state_new g lay with
  | Err e => Some (Err e)
  | Ok state =>
      r ← place_uploads layer g lay us []
            {| u_mapping := replicate (N.to_nat (num_experts g)) UNMAPPED; u_physical := []; u_state := state |};
      Some (acc ← r; Ok {| u_mapping := u_mapping acc; u_physical := u_physical acc;
                           u_state := with_installs (lenN us) (u_state acc) |})
  end.

(** The setup writes; the product is an [expect]. *)
Fixpoint write_slots (g : GpuNativeQ4ExpertGeometry) (writes : list (GpuNativeQ4ExpertLocation * list byte)) (a : GpuNativeQ4ExpertArena)
    : option GpuNativeQ4ExpertArena :=
  match writes with
  | [] => Some a
  | (loc, bytes) :: writes =>
      offset ← checked_mul u64_max (slot loc) (slot_stride_bytes g);
      a ← write_bank (bank loc) offset bytes a; write_slots g writes a
  end.

(** A new buffer is filled with zeroes; [device_d_model] is that of the bound model. *)
Definition create_q4_expert_arena (context device_d_model : N) (l : Limits) (layer : N) (p : GpuNativeQ4ExpertVramPlan)
    (us : list GpuNativeQ4ExpertUpload) : option (gres GpuNativeQ4ExpertArena) :=
  let g := geometry p in
  if negb (d_model g =? device_d_model) then Some (Err ExpertDModelMismatch) else
  match validate_q4_expert_pipeline_limits l with Err e => Some (Err e) | Ok _ =>
  expected ← plan_try_new g (requested_expert_budget_bytes p) l;
  match expected with Err e => Some (Err e) | Ok expected =>
  if negb (bool_decide (p = expected)) then Some (Err ExpertArenaBudgetOverflow) else
  r ← validate_q4_expert_uploads layer g (layout p) us;
  match (u ← r;
         _ ← validate_startup_buffers (allocation_bytes <$> banks (layout p)) l;
         _ ← validate_startup_buffer (mapping_bytes (layout p)) l; Ok u) with
  | Err e => Some (Err e)
  | Ok u =>
      a ← write_slots g (u_physical u)
            {| context_id := context; arena_layer := layer; plan := p;
               bank_memory := (fun b => replicate (N.to_nat (allocation_bytes b)) x00) <$> banks (layout p);
               mapping_memory := u_mapping u; state := u_state u |};
      Some (Ok a)
  end end end.

(** ** The device side *)

(** [read_bank_word] of the epoch, and the bytes a route's blocks are read from. *)
Definition slot_bytes (a : GpuNativeQ4ExpertArena) (loc : GpuNativeQ4ExpertLocation) : option (list byte) :=
  memory ← bank_memory a !! N.to_nat (bank loc);
  Some (slice (N.to_nat (slot loc * slot_stride_bytes (arena_geometry a))) (N.to_nat (slot_stride_bytes (arena_geometry a))) memory).

Definition bank_capacity (a : GpuNativeQ4ExpertArena) (b : N) : N :=
  default 0 (b_slot_capacity <$> banks (arena_layout a) !! N.to_nat (if b <? 3 then b else 3)).

(** [expert_route_resolve_main] for one selected expert, with no failure latched:
    the route, or a residency miss. *)
Definition resolve (id : N) (a : GpuNativeQ4ExpertArena) : option GpuNativeQ4ExpertMappingEntry :=
  if num_experts (arena_geometry a) <=? id then None else
  e ← mapping_memory a !! N.to_nat id;
  if (m_location e =? GPU_NATIVE_EXPERT_UNMAPPED) || (m_epoch e =? 0) then None else
  let b := N.shiftr (m_location e) GPU_NATIVE_EXPERT_LOCATION_BANK_SHIFT in
  let s := N.land (m_location e) GPU_NATIVE_EXPERT_LOCATION_SLOT_MASK in
  if (active_banks (arena_layout a) <=? b) || (bank_capacity a b <=? s) then None else Some e.

(** The expert passes: the epoch in the slot must be the route's; the payload they
    read, or a residency miss. *)
Definition execute (e : GpuNativeQ4ExpertMappingEntry) (a : GpuNativeQ4ExpertArena) : option (list byte) :=
  if m_location e =? GPU_NATIVE_EXPERT_UNMAPPED then None else
  let b := N.shiftr (m_location e) GPU_NATIVE_EXPERT_LOCATION_BANK_SHIFT in
  let s := N.land (m_location e) GPU_NATIVE_EXPERT_LOCATION_SLOT_MASK in
  bytes ← slot_bytes a {| bank := b; slot := s |};
  let current := le_val (take 4 bytes) in
  if (current =? 0) || negb (current =? m_epoch e) then None
  else Some (take (N.to_nat (logical_expert_bytes (arena_geometry a))) (drop 4 bytes)).

(** ** The invariant of the slot table *)

Definition owner_key (o : GpuNativeQ4ExpertSlotOwner) : option GpuNativeQ4ExpertKey :=
  match o with Free => None | Installing k _ _ => Some k | Resident r => Some (r_key r) end.

(** What the mapping says of an expert: its resident slot. *)
Definition published (s : GpuNativeQ4ExpertArenaState) (id : nat) : GpuNativeQ4ExpertMappingEntry :=
  match mjoin (logical_slots s !! id) with
  | None => UNMAPPED
  | Some f => match owner <$> slots s !! f with
              | Some (Resident r) => match mapping_entry r with Ok e => e | Err _ => UNMAPPED end
              | _ => UNMAPPED
              end
  end.

(** The key [k] is the latest of its expert, and slot [f] is the expert's. *)
Definition holds (layer : N) (s : GpuNativeQ4ExpertArenaState) (k : GpuNativeQ4ExpertKey) (f : nat) : Prop :=
  key_layer k = layer /\ logical_generation k <> 0 /\
  logical_slots s !! N.to_nat (expert_id k) = Some (Some f) /\
  latest_generations s !! N.to_nat (expert_id k) = Some (Some (logical_generation k)).

Definition owner_ok (layer : N) (s : GpuNativeQ4ExpertArenaState) (f : nat) (sl : GpuNativeQ4ExpertPhysicalSlot) : Prop :=
  match owner sl with
  | Free => True
  | Installing k e t => e = last_epoch sl /\ 1 <= e /\ t < next_install_ticket s /\ holds layer s k f
  | Resident r => r_location r = s_location sl /\ r_epoch r = last_epoch sl /\ 1 <= r_epoch r /\ holds layer s (r_key r) f
  end.

Record state_ok (layer ne : N) (lay : GpuNativeQ4ExpertArenaLayout) (s : GpuNativeQ4ExpertArenaState) : Prop := {
  ok_slots : length (slots s) = N.to_nat (slot_capacity lay);
  ok_logical_length : length (logical_slots s) = N.to_nat ne;
  ok_latest_length : length (latest_generations s) = N.to_nat ne;
  ok_location f sl : slots s !! f = Some sl -> location_for_flat_slot lay (N.of_nat f) = Ok (s_location sl) /\ last_epoch sl <= u32_max;
  ok_owner f sl : slots s !! f = Some sl -> owner_ok layer s f sl;
  ok_logical id f : logical_slots s !! id = Some (Some f) ->
    exists sl k, slots s !! f = Some sl /\ owner_key (owner sl) = Some k /\ expert_id k = N.of_nat id;
}.

(** Slots keep their place, and their epochs only grow. *)
Definition advances (s s' : GpuNativeQ4ExpertArenaState) : Prop :=
  forall f sl, slots s !! f = Some sl ->
    exists sl', slots s' !! f = Some sl' /\ s_location sl' = s_location sl /\ last_epoch sl <= last_epoch sl'.
(** Every resident was one before. *)
Definition residents_from (s s' : GpuNativeQ4ExpertArenaState) : Prop :=
  forall f sl' r, slots s' !! f = Some sl' -> owner sl' = Resident r -> exists sl, slots s !! f = Some sl /\ owner sl = Resident r.

#[export] Instance advances_preorder : PreOrder advances.
Proof.
  split.
  - intros s f sl Hf. exists sl. split_and!; [done|done|lia].
  - intros s1 s2 s3 H12 H23 f sl Hf. destruct (H12 f sl Hf) as (sl2 & Hf2 & Hl2 & He).
    destruct (H23 f sl2 Hf2) as (sl3 & Hf3 & Hl & He'). exists sl3. split_and!; [done|congruence|lia].
Qed.
#[export] Instance residents_from_preorder : PreOrder residents_from.
Proof.
  split; [intros s f sl r; eauto|]. intros s1 s2 s3 H12 H23 f sl r Hf Ho.
  destruct (H23 f sl r Hf Ho) as (sl2 & Hf2 & Ho2). by apply (H12 f sl2 r).
Qed.

Lemma count_advances b s : advances s (count b s).
Proof. exact (PreOrder_Reflexive (R := advances) s). Qed.
Lemma count_residents b s : residents_from s (count b s).
Proof. exact (PreOrder_Reflexive (R := residents_from) s). Qed.

Section state.
Context (layer ne : N) (lay : GpuNativeQ4ExpertArenaLayout).
Implicit Types (s : GpuNativeQ4ExpertArenaState) (k : GpuNativeQ4ExpertKey).

Lemma count_ok b s : state_ok layer ne lay s -> state_ok layer ne lay (count b s).
Proof. intros [H1 H2 H3 H4 H5 H6]. by split. Qed.

Lemma owner_unique s f sl k :
  state_ok layer ne lay s -> slots s !! f = Some sl -> owner_key (owner sl) = Some k -> holds layer s k f.
Proof.
  intros Hok Hf Hk. pose proof (ok_owner _ _ _ _ Hok f sl Hf) as Ho. unfold owner_ok in Ho.
  destruct (owner sl); simplify_eq/=; tauto.
Qed.

(** An expert's slot is held with its latest generation. *)
Lemma logical_holds s id f :
  state_ok layer ne lay s -> logical_slots s !! id = Some (Some f) ->
  exists sl k, slots s !! f = Some sl /\ owner_key (owner sl) = Some k /\ expert_id k = N.of_nat id /\ holds layer s k f.
Proof.
  intros Hok Hl. destruct (ok_logical _ _ _ _ Hok id f Hl) as (sl & k & Hf & Hk & Hid).
  exists sl, k. split_and!; [done|done|done|by apply (owner_unique s f sl)].
Qed.

Lemma release_slot_ok s f id :
  state_ok layer ne lay s -> logical_slots s !! id = Some (Some f) ->
  state_ok layer ne lay (release f id s) /\ advances s (release f id s) /\ residents_from s (release f id s) /\
  logical_slots (release f id s) !! id = Some None /\
  forall id', published (release f id s) id' = if decide (id' = id) then UNMAPPED else published s id'.
Proof.
  intros Hok Hl. pose proof (lookup_lt_Some _ _ _ Hl) as Hlt.
  assert (Hslot : forall f' sl', slots (release f id s) !! f' = Some sl' ->
            exists sl, slots s !! f' = Some sl /\ s_location sl' = s_location sl /\ last_epoch sl' = last_epoch sl /\
                       owner sl' = if decide (f' = f) then Free else owner sl).
  { intros f' sl'. cbn [release set_logical set_slots slots]. rewrite list_lookup_alter. case_decide as Hff.
    - subst f'. destruct (slots s !! f) as [sl|]; [|done]. cbn. intros [= <-]. exists sl. rewrite decide_True by done. done.
    - intros Hf. exists sl'. rewrite decide_False by done. done. }
  assert (Hlog : forall id', logical_slots (release f id s) !! id' = if decide (id' = id) then Some None else logical_slots s !! id').
  { intros id'. cbn [release set_logical logical_slots]. case_decide; [subst id'; by apply list_lookup_insert_eq|by apply list_lookup_insert_ne]. }
  assert (Hkeep : forall f' sl k, slots s !! f' = Some sl -> f' <> f -> owner_key (owner sl) = Some k -> N.to_nat (expert_id k) <> id).
  { intros f' sl k Hf' Hne Hk <-. pose proof (owner_unique s f' sl k Hok Hf' Hk) as (_ & _ & Hl' & _). congruence. }
  split_and!.
  - destruct Hok as [H1 H2 H3 H4 H5 H6]. split.
    + cbn. by rewrite length_alter.
    + cbn. by rewrite length_insert.
    + done.
    + intros f' sl' Hf'. destruct (Hslot f' sl' Hf') as (sl & Hf & -> & -> & _). by apply H4.
    + intros f' sl' Hf'. destruct (Hslot f' sl' Hf') as (sl & Hf & Hloc & Hep & Ho). unfold owner_ok. rewrite Ho, Hloc, Hep.
      case_decide as Hff; [done|]. pose proof (H5 f' sl Hf) as Hown. unfold owner_ok in Hown.
      pose proof (Hkeep f' sl) as Hne. destruct (owner sl) as [|k e t|r]; [done| |]; cbn in Hne.
      * specialize (Hne k Hf Hff eq_refl). unfold holds in *. rewrite Hlog, decide_False by done. done.
      * specialize (Hne (r_key r) Hf Hff eq_refl). unfold holds in *. rewrite Hlog, decide_False by done. done.
    + intros id' f'. rewrite Hlog. case_decide as Hid; [done|]. intros Hl'.
      destruct (H6 id' f' Hl') as (sl & k & Hf' & Hk & Hid').
      assert (f' <> f).
      { intros Hff. subst f'. destruct (H6 id f Hl) as (sl2 & k2 & Hf2 & Hk2 & Hid2). simplify_eq. lia. }
      exists sl, k. split_and!; [|done|done]. cbn. by rewrite list_lookup_alter_ne.
  - intros f' sl Hf'. cbn. rewrite list_lookup_alter. case_decide as Hff; [subst f'; rewrite Hf'|]; cbn; eexists; (split; [done|]); done.
  - intros f' sl' r Hf' Hr. destruct (Hslot f' sl' Hf') as (sl & Hf & _ & _ & Ho). exists sl. split; [done|].
    rewrite Ho in Hr. by case_decide.
  - by rewrite Hlog, decide_True.
  - intros id'. unfold published. rewrite Hlog. case_decide as Hid; [done|].
    destruct (logical_slots s !! id') as [[f'|]|] eqn:Hl'; [|done|done]. cbn [mjoin option_join].
    assert (f' <> f).
    { intros Hff. subst f'. destruct (ok_logical _ _ _ _ Hok id f Hl) as (sl2 & k2 & Hf2 & Hk2 & Hid2).
      destruct (ok_logical _ _ _ _ Hok id' f Hl') as (sl3 & k3 & Hf3 & Hk3 & Hid3). simplify_eq. lia. }
    cbn. by rewrite list_lookup_alter_ne.
Qed.

Lemma set_latest_ok s id g :
  state_ok layer ne lay s -> logical_slots s !! id = Some None ->
  state_ok layer ne lay (set_latest (<[id := g]> (latest_generations s)) s).
Proof.
  intros [H1 H2 H3 H4 H5 H6] Hl. split; [done|done|cbn; by rewrite length_insert|done| |done].
  intros f sl Hf. pose proof (H5 f sl Hf) as Ho. unfold owner_ok in *. destruct (owner sl) as [|k e t|r]; [done| |]; cbn.
  all: unfold holds in *; cbn; rewrite list_lookup_insert_ne; [done|]; intros Heq; rewrite <-Heq in Ho;
    rewrite Hl in Ho; destruct Ho as (_ & _ & _ & _ & _ & Hx & _); done.
Qed.

Lemma find_free_spec i ex ss :
  match find_free i ex ss with
  | (Some f, _) => exists j sl, f = (i + j)%nat /\ ss !! j = Some sl /\ owner sl = Free /\ last_epoch sl <> u32_max
  | (None, None) => ex = None /\ Forall (fun sl => owner sl <> Free) ss
  | (None, Some _) => Forall (fun sl => owner sl = Free -> last_epoch sl = u32_max) ss
  end.
Proof.
  revert i ex. induction ss as [|sl ss IH]; intros i ex; cbn [find_free].
  { destruct ex; [constructor|by split; [|constructor]]. }
  unfold is_free. destruct (bool_decide_reflect (owner sl = Free)) as [Hfree|Hused]; cbn [negb].
  - destruct (N.eqb_spec (last_epoch sl) u32_max) as [Hmax|Hmax]; [|by exists 0%nat, sl; split; [lia|]].
    specialize (IH (S i) (match ex with Some l => Some l | None => Some (s_location sl) end)).
    destruct (find_free _ _ ss) as [[f|] [e|]].
    1,2: destruct IH as (j & sl' & -> & ? & ? & ?); exists (S j), sl'; split; [lia|done].
    + constructor; [done|exact IH].
    + by destruct ex, IH.
  - specialize (IH (S i) ex). destruct (find_free _ _ ss) as [[f|] [e|]].
    1,2: destruct IH as (j & sl' & -> & ? & ? & ?); exists (S j), sl'; split; [lia|done].
    + constructor; [done|exact IH].
    + destruct IH as [? IH]. split; [done|]. by constructor.
Qed.

Lemma published_same s s' :
  logical_slots s' = logical_slots s -> slots s' = slots s -> forall id, published s' id = published s id.
Proof. intros Hl Hs id. unfold published. by rewrite Hl, Hs. Qed.

(** What the mapping says of a slot with this owner. *)
Definition owner_entry (o : GpuNativeQ4ExpertSlotOwner) : GpuNativeQ4ExpertMappingEntry :=
  match o with Resident r => match mapping_entry r with Ok e => e | Err _ => UNMAPPED end | _ => UNMAPPED end.

(** Slot [f], which is free, passes to the expert of [k], which holds none, at the
    slot's next epoch. *)
Definition occupies s (sl sl' : GpuNativeQ4ExpertPhysicalSlot) k : Prop :=
  s_location sl' = s_location sl /\ last_epoch sl' = last_epoch sl + 1 /\ owner_key (owner sl') = Some k /\
  match owner sl' with
  | Free => False
  | Installing _ e t => e = last_epoch sl' /\ t < next_install_ticket s
  | Resident r => r_location r = s_location sl' /\ r_epoch r = last_epoch sl'
  end.

Lemma occupy_ok s f sl sl' k :
  state_ok layer ne lay s -> slots s !! f = Some sl -> owner sl = Free -> last_epoch sl + 1 <= u32_max -> occupies s sl sl' k ->
  key_layer k = layer -> logical_generation k <> 0 -> logical_slots s !! N.to_nat (expert_id k) = Some None ->
  latest_generations s !! N.to_nat (expert_id k) = Some (Some (logical_generation k)) ->
  let s' := set_logical (<[N.to_nat (expert_id k) := Some f]> (logical_slots s)) (set_slots (<[f := sl']> (slots s)) s) in
  state_ok layer ne lay s' /\ advances s s' /\
  forall id, published s' id = if decide (id = N.to_nat (expert_id k)) then owner_entry (owner sl') else published s id.
Proof.
  intros Hok Hf Hfree He (Hloc & Hep & Hkey & Hown) Hk Hg Hl Hlat s'.
  pose proof (lookup_lt_Some _ _ _ Hf) as Hlt. pose proof (lookup_lt_Some _ _ _ Hl) as Hlt'. set (id := N.to_nat (expert_id k)) in *.
  assert (Hslots : forall f', slots s' !! f' = if decide (f' = f) then Some sl' else slots s !! f').
  { intros f'. cbn. case_decide; [subst f'; by apply list_lookup_insert_eq|by apply list_lookup_insert_ne]. }
  assert (Hlog : forall id', logical_slots s' !! id' = if decide (id' = id) then Some (Some f) else logical_slots s !! id').
  { intros id'. cbn. case_decide; [subst id'; by apply list_lookup_insert_eq|by apply list_lookup_insert_ne]. }
  destruct Hok as [H1 H2 H3 H4 H5 H6].
  assert (Hother : forall f' sl2 k2, slots s !! f' = Some sl2 -> owner_key (owner sl2) = Some k2 -> N.to_nat (expert_id k2) <> id).
  { intros f' sl2 k2 Hf' Hk2 Heq. assert (Hh : holds layer s k2 f') by (apply (owner_unique s f' sl2); [by split|done|done]).
    destruct Hh as (_ & _ & Hx & _). rewrite Heq in Hx. congruence. }
  assert (Hh' : holds layer s' k f) by (unfold holds; rewrite Hlog, decide_True by done; done).
  split_and!.
  - split.
    + cbn. by rewrite length_insert.
    + cbn. by rewrite length_insert.
    + done.
    + intros f' sl2. rewrite Hslots. case_decide; [|by apply H4]. intros [= <-]. subst f'. rewrite Hloc, Hep. split; [by apply (H4 f sl)|lia].
    + intros f' sl2. rewrite Hslots. case_decide as Hff.
      * intros [= <-]. subst f'. unfold owner_ok. destruct (owner sl') as [|k' e t|r]; [done| |]; cbn in Hkey; injection Hkey as ->.
        -- destruct Hown as [Hoe Hot]. split_and!; [done|lia|done|done].
        -- destruct Hown as [Hol Hoe]. split_and!; [done|done|lia|done].
      * intros Hf'. pose proof (H5 f' sl2 Hf') as Ho. pose proof (Hother f' sl2) as Hne. unfold owner_ok in *.
        destruct (owner sl2) as [|k2 e2 t2|r2]; [done| |]; unfold holds in *; rewrite Hlog, decide_False by (by apply Hne); done.
    + intros id' f'. rewrite Hlog. case_decide as Hid.
      * intros [= <-]. exists sl', k. rewrite Hslots, decide_True by done. subst id'. split_and!; [done|done|unfold id; lia].
      * intros Hl'. destruct (H6 id' f' Hl') as (sl2 & k2 & Hf' & Hk2 & Hid2). exists sl2, k2. rewrite Hslots.
        rewrite decide_False; [done|]. intros ->. rewrite Hf in Hf'. injection Hf' as <-. by rewrite Hfree in Hk2.
  - intros f' sl2 Hf'. rewrite Hslots. case_decide; [|eexists; split; [done|]; done]. subst f'. rewrite Hf in Hf'. injection Hf' as <-.
    exists sl'. split_and!; [done|done|lia].
  - intros id'. unfold published. rewrite Hlog. case_decide as Hid.
    + cbn [mjoin option_join]. rewrite Hslots, decide_True by done. cbn. unfold owner_entry. by destruct (owner sl').
    + destruct (logical_slots s !! id') as [[f'|]|] eqn:Hl'; cbn [mjoin option_join]; [|done|done]. rewrite Hslots.
      case_decide; [|done]. subst f'. destruct (H6 id' f Hl') as (sl2 & k2 & Hf' & Hk2 & _). rewrite Hf in Hf'. injection Hf' as <-.
      by rewrite Hfree in Hk2.
Qed.

(** The slot as a reservation leaves it. *)
Definition reserved (f : nat) (sl : GpuNativeQ4ExpertPhysicalSlot) k (e t : N) : GpuNativeQ4ExpertPhysicalSlot :=
  {| s_location := s_location sl; last_epoch := e; ever_installed := ever_installed sl; owner := Installing k e t |}.

Lemma reserve_ok s f sl k t :
  state_ok layer ne lay s -> slots s !! f = Some sl -> owner sl = Free -> last_epoch sl + 1 <= u32_max ->
  key_layer k = layer -> logical_generation k <> 0 -> logical_slots s !! N.to_nat (expert_id k) = Some None ->
  latest_generations s !! N.to_nat (expert_id k) = Some (Some (logical_generation k)) -> t < next_install_ticket s ->
  let s' := set_logical (<[N.to_nat (expert_id k) := Some f]> (logical_slots s))
              (set_slots (<[f := reserved f sl k (last_epoch sl + 1) t]> (slots s)) s) in
  state_ok layer ne lay s' /\ advances s s' /\ residents_from s s' /\ (forall id, published s' id = published s id).
Proof.
  intros Hok Hf Hfree He Hk Hg Hl Hlat Ht s'.
  destruct (occupy_ok s f sl (reserved f sl k (last_epoch sl + 1) t) k) as (H1 & H2 & H3); try done. split_and!; [done|done| |].
  - intros f' sl2 r Hf'. destruct (decide (f' = f)) as [->|Hne].
    + unfold s' in Hf'. cbn in Hf'. rewrite list_lookup_insert_eq in Hf' by (by eapply lookup_lt_Some). by injection Hf' as <-.
    + unfold s' in Hf'. cbn in Hf'. rewrite list_lookup_insert_ne in Hf' by done. eauto.
  - intros id. rewrite H3. case_decide; [|done]. subst id. unfold published. by rewrite Hl.
Qed.

End state.

(** ** The invariant of an arena *)

Record arena_ok (a : GpuNativeQ4ExpertArena) : Prop := {
  ok_layout : exists l c, geometry_ok (arena_geometry a) /\ layout_try_new (arena_geometry a) c l = Ok (arena_layout a);
  ok_state : state_ok (arena_layer a) (num_experts (arena_geometry a)) (arena_layout a) (state a);
  ok_mapping : mapping_memory a = published (state a) <$> seq 0 (N.to_nat (num_experts (arena_geometry a)));
  ok_memory : length <$> bank_memory a = (fun b => N.to_nat (allocation_bytes b)) <$> banks (arena_layout a);
}.

(** The same arena object. *)
Definition same_arena (a a' : GpuNativeQ4ExpertArena) : Prop :=
  context_id a' = context_id a /\ arena_layer a' = arena_layer a /\ plan a' = plan a.
#[export] Instance same_arena_preorder : PreOrder same_arena.
Proof. split; unfold same_arena; [by intros|]. intros a b c (?&?&?) (?&?&?). split_and!; congruence. Qed.

Lemma seq_insert (f f' : nat -> GpuNativeQ4ExpertMappingEntry) n i :
  (i < n)%nat -> (forall j, j <> i -> f' j = f j) -> <[i := f' i]> (f <$> seq 0 n) = f' <$> seq 0 n.
Proof.
  intros Hi Hf. apply list_eq. intros j. destruct (decide (j = i)) as [->|Hj].
  - rewrite list_lookup_insert_eq by (by rewrite length_fmap, length_seq). rewrite list_lookup_fmap, lookup_seq_lt by done. done.
  - rewrite list_lookup_insert_ne by done. rewrite !list_lookup_fmap. destruct (seq 0 n !! j) as [m|] eqn:Hm; [|done].
    apply lookup_seq in Hm as [-> _]. cbn. by rewrite Hf.
Qed.

Lemma mapping_offset_ok ne id : ne <= 128 -> id < ne -> mapping_offset_of id = Ok (id * 8).
Proof.
  intros Hne Hid. unfold mapping_offset_of.
  rewrite (proj2 (checked_mul_Some u64_max id GPU_NATIVE_EXPERT_MAPPING_ENTRY_BYTES (id * 8))); [done|].
  change GPU_NATIVE_EXPERT_MAPPING_ENTRY_BYTES with 8. unfold u64_max. split; [done|lia].
Qed.

Lemma write_mapping_at id e a : mapping_memory (write_mapping (id * 8) e a) = <[N.to_nat id := e]> (mapping_memory a).
Proof.
  unfold write_mapping. cbn [mapping_memory with_mapping]. change GPU_NATIVE_EXPERT_MAPPING_ENTRY_BYTES with 8.
  by rewrite N.div_mul.
Qed.

Lemma geometry_experts g : geometry_ok g -> 1 <= num_experts g <= 128.
Proof. intros Hg. by destruct (geometry_facts g Hg). Qed.

(** Changing the state without changing what is published. *)
Lemma arena_ok_state a s :
  arena_ok a -> state_ok (arena_layer a) (num_experts (arena_geometry a)) (arena_layout a) s ->
  (forall id, published s id = published (state a) id) -> arena_ok (with_state (fun _ => s) a).
Proof.
  intros [H1 H2 H3 H4] Hs Hp. split; [done|exact Hs| |done]. cbn. rewrite H3. apply list_fmap_ext. intros _ id _. symmetry. apply Hp.
Qed.

(** Withdrawing the mapping of an expert whose slot is released. *)
Lemma arena_ok_unpublish a id f s :
  arena_ok a -> id < num_experts (arena_geometry a) -> logical_slots (state a) !! N.to_nat id = Some (Some f) ->
  slots s = slots (release f (N.to_nat id) (state a)) -> logical_slots s = logical_slots (release f (N.to_nat id) (state a)) ->
  state_ok (arena_layer a) (num_experts (arena_geometry a)) (arena_layout a) s ->
  arena_ok (with_state (fun _ => s) (write_mapping (id * 8) UNMAPPED a)).
Proof.
  intros [H1 H2 H3 H4] Hid Hl Hss Hls Hs. split; [done|exact Hs| |done].
  destruct (release_slot_ok _ _ _ _ f (N.to_nat id) H2 Hl) as (_ & _ & _ & _ & Hp).
  change (mapping_memory (write_mapping (id * 8) UNMAPPED a) = published s <$> seq 0 (N.to_nat (num_experts (arena_geometry a)))).
  assert (Hp' : forall i, published s i = if decide (i = N.to_nat id) then UNMAPPED else published (state a) i).
  { intros i. rewrite (published_same _ _ Hls Hss i). apply Hp. }
  rewrite write_mapping_at, H3. rewrite <-(seq_insert (published (state a)) (published s) _ (N.to_nat id)).
  - f_equal. rewrite Hp', decide_True by done. done.
  - lia.
  - intros j Hj. by rewrite Hp', decide_False.
Qed.

(** The same, when there was no mapping to withdraw. *)
Lemma published_installing layer ne lay s id f k e t sl :
  state_ok layer ne lay s -> logical_slots s !! id = Some (Some f) -> slots s !! f = Some sl -> owner sl = Installing k e t ->
  forall i, published (release f id s) i = published s i.
Proof.
  intros Hok Hl Hf Ho i. destruct (release_slot_ok _ _ _ _ f id Hok Hl) as (_ & _ & _ & _ & Hp). rewrite Hp.
  case_decide; [|done]. subst i. unfold published. rewrite Hl. cbn. rewrite Hf. cbn. by rewrite Ho.
Qed.

(** The place of a slot in the memory of its bank. *)
Lemma slot_place a f sl :
  arena_ok a -> slots (state a) !! f = Some sl ->
  exists b p memory,
    flat_slot_for_location (arena_layout a) (s_location sl) = Ok (N.of_nat f) /\
    bank (s_location sl) < active_banks (arena_layout a) /\ banks (arena_layout a) !! N.to_nat (bank (s_location sl)) = Some b /\
    slot (s_location sl) < b_slot_capacity b /\ (slot (s_location sl) + 1) * slot_stride_bytes (arena_geometry a) <= allocation_bytes b /\
    pack (s_location sl) = Ok p /\ p <> GPU_NATIVE_EXPERT_UNMAPPED /\ unpack p = Some (s_location sl) /\
    bank_memory a !! N.to_nat (bank (s_location sl)) = Some memory /\ length memory = N.to_nat (allocation_bytes b).
Proof.
  intros Hok Hf. destruct (ok_layout a Hok) as (l & c & Hg & Hl). pose proof (lookup_lt_Some _ _ _ Hf) as Hlt.
  rewrite (ok_slots _ _ _ _ (ok_state a Hok)) in Hlt.
  destruct (ok_location _ _ _ _ (ok_state a Hok) f sl Hf) as [Hloc _].
  destruct (layout_slot_place _ l Hg c _ (N.of_nat f) Hl ltac:(lia)) as (loc & b & p & Hloc' & Hflat & Hb & Hbk & Hs & Hal & Hp & Hpu & Hu).
  rewrite Hloc in Hloc'. injection Hloc' as <-. pose proof (f_equal (lookup (N.to_nat (bank (s_location sl)))) (ok_memory a Hok)) as Hm.
  rewrite !list_lookup_fmap, Hbk in Hm. destruct (bank_memory a !! N.to_nat (bank (s_location sl))) as [memory|] eqn:Hmem; [|done].
  injection Hm as Hm. exists b, p, memory. split_and!; done.
Qed.

Lemma slots_apart a f f' sl sl' :
  arena_ok a -> slots (state a) !! f = Some sl -> slots (state a) !! f' = Some sl' -> s_location sl = s_location sl' -> f = f'.
Proof.
  intros Hok Hf Hf' Hl. destruct (slot_place a f sl Hok Hf) as (b & p & m & H1 & _). destruct (slot_place a f' sl' Hok Hf') as (b' & p' & m' & H2 & _).
  rewrite Hl in H1. rewrite H1 in H2. injection H2 as H2. lia.
Qed.

Lemma mapping_entry_of a f sl r :
  arena_ok a -> slots (state a) !! f = Some sl -> r_location r = s_location sl -> 1 <= r_epoch r ->
  exists e, mapping_entry r = Ok e /\ m_epoch e = r_epoch r /\ unpack (m_location e) = Some (r_location r).
Proof.
  intros Hok Hf Hr He. destruct (slot_place a f sl Hok Hf) as (b & p & m & _ & _ & _ & _ & _ & Hp & _ & Hu & _). unfold mapping_entry, entry_try_new.
  destruct (N.eqb_spec (r_epoch r) 0); [lia|]. rewrite Hr, Hp. cbn. by eexists.
Qed.

Lemma mapping_entry_ok a f sl r :
  arena_ok a -> slots (state a) !! f = Some sl -> owner sl = Resident r ->
  exists e, mapping_entry r = Ok e /\ mapping_memory a !! N.to_nat (expert_id (r_key r)) = Some e.
Proof.
  intros Hok Hf Ho. pose proof (ok_owner _ _ _ _ (ok_state a Hok) f sl Hf) as Hown. unfold owner_ok in Hown. rewrite Ho in Hown.
  destruct Hown as (Hloc & _ & He & _ & _ & Hl & _). destruct (mapping_entry_of a f sl r Hok Hf Hloc He) as (e & Hme & _).
  exists e. split; [done|]. pose proof (lookup_lt_Some _ _ _ Hl) as Hlt. rewrite (ok_logical_length _ _ _ _ (ok_state a Hok)) in Hlt.
  rewrite (ok_mapping a Hok), list_lookup_fmap, lookup_seq_lt by done. cbn. f_equal. unfold published. rewrite Hl. cbn. rewrite Hf. cbn.
  by rewrite Ho, Hme.
Qed.

(** ** Reservation, on every branch *)

(** The permit of a reservation: a free slot, at its next epoch. *)
Definition granted (key : GpuNativeQ4ExpertKey) (before after : GpuNativeQ4ExpertArenaState) (p : GpuNativeQ4ExpertInstallPermit) : Prop :=
  p_key p = key /\ r_key (p_residency p) = key /\
  exists sl, slots before !! flat_slot p = Some sl /\ owner sl = Free /\ last_epoch sl < u32_max /\
    r_location (p_residency p) = s_location sl /\ r_epoch (p_residency p) = last_epoch sl + 1 /\ reused p = ever_installed sl /\
    slots after !! flat_slot p = Some (reserved (flat_slot p) sl key (last_epoch sl + 1) (install_ticket p)) /\
    reservation_current p after = true.

Definition reserve_outcome (key : GpuNativeQ4ExpertKey) (s : GpuNativeQ4ExpertArenaState) (r : gres GpuNativeQ4ExpertAcquire)
    (s' : GpuNativeQ4ExpertArenaState) : Prop :=
  match r with
  | Ok (Install p) => granted key s s' p
  | Ok NoPhysicalSlot => Forall (fun sl => owner sl <> Free) (slots s)
  | Err ExpertSlotEpochExhausted => Forall (fun sl => owner sl = Free -> last_epoch sl = u32_max) (slots s)
  | Err ExpertInstallTicketExhausted => u64_max <= next_install_ticket s
  | _ => False
  end.

Lemma reservation_current_true p s :
  reservation_current p s = true <->
  latest_generations s !! N.to_nat (expert_id (p_key p)) = Some (Some (logical_generation (p_key p))) /\
  logical_slots s !! N.to_nat (expert_id (p_key p)) = Some (Some (flat_slot p)) /\
  exists sl, slots s !! flat_slot p = Some sl /\ owner sl = Installing (p_key p) (r_epoch (p_residency p)) (install_ticket p).
Proof.
  unfold reservation_current. rewrite !andb_true_iff, !bool_decide_eq_true.
  destruct (latest_generations s !! _) as [[g|]|]; destruct (logical_slots s !! _) as [[f|]|];
    destruct (slots s !! flat_slot p) as [[l e i [|k e' t|r]]|]; cbn; try naive_solver.
  rewrite !andb_true_iff, bool_decide_eq_true, !N.eqb_eq. naive_solver.
Qed.

Lemma reserve_spec key a :
  arena_ok a -> key_layer key = arena_layer a -> logical_generation key <> 0 -> expert_id key < num_experts (arena_geometry a) ->
  logical_slots (state a) !! N.to_nat (expert_id key) = Some None ->
  exists r a', reserve key a = Some (r, a') /\ arena_ok a' /\ same_arena a a' /\ bank_memory a' = bank_memory a /\
    advances (state a) (state a') /\ residents_from (state a) (state a') /\ reserve_outcome key (state a) r (state a').
Proof.
  intros Hok Hk Hg Hid Hl. pose proof (ok_state a Hok) as Hst.
  assert (Hst1 := set_latest_ok _ _ _ _ (N.to_nat (expert_id key)) (Some (logical_generation key)) Hst Hl).
  set (s1 := set_latest _ (state a)) in *.
  assert (Hadv1 : advances (state a) s1) by (intros f sl Hf; exists sl; split_and!; [done|done|lia]).
  assert (Hres1 : residents_from (state a) s1) by (intros f sl r; eauto).
  assert (Hlat : latest_generations s1 !! N.to_nat (expert_id key) = Some (Some (logical_generation key))).
  { cbn. apply list_lookup_insert_eq. rewrite (ok_latest_length _ _ _ _ Hst). lia. }
  unfold reserve. change (state (with_state _ a)) with s1.
  pose proof (find_free_spec 0 None (slots s1)) as Hfree. destruct (find_free 0 None (slots s1)) as [[f|] ex].
  - destruct Hfree as (j & sl & Hj & Hf & Hfr & He). simpl in Hj. subst j.
    pose proof (proj2 (ok_location _ _ _ _ Hst1 f sl Hf)) as Hmax.
    destruct (checked_add u64_max (next_install_ticket s1) 1) as [next|] eqn:Ht.
    2:{ exists (Err ExpertInstallTicketExhausted), (with_state (fun _ => s1) a). split_and!; try done; [by apply arena_ok_state|].
        apply checked_add_None in Ht. cbn in Ht. cbn. lia. }
    apply checked_add_Some in Ht as [-> Ht].
    change (slots (state (with_state _ (with_state _ a)))) with (slots s1). rewrite Hf. cbn [mbind option_bind].
    rewrite (proj2 (checked_add_Some u32_max (last_epoch sl) 1 (last_epoch sl + 1))) by (split; [done|lia]).
    set (s2 := set_ticket (next_install_ticket s1 + 1) s1).
    assert (Hst2 : state_ok (arena_layer a) (num_experts (arena_geometry a)) (arena_layout a) s2).
    { destruct Hst1 as [I1 I2 I3 I4 I5 I6]. split; [done|done|done|done| |done]. intros f' sl' Hf'. pose proof (I5 f' sl' Hf') as Ho.
      unfold owner_ok in *. destruct (owner sl') as [|k e t|r]; [done| |done]. destruct Ho as (? & ? & ? & ?). split_and!; [done|done|cbn in *; lia|done]. }
    destruct (reserve_ok _ _ _ s2 f sl key (next_install_ticket s1) Hst2 Hf Hfr) as (Hst3 & Hadv3 & Hres3 & Hpub3);
      [lia|done|done|done|done|cbn; lia|].
    eexists _, _. split; [reflexivity|]. split_and!.
    + apply (arena_ok_state a _ Hok Hst3). intros i. rewrite Hpub3. done.
    + done.
    + done.
    + exact Hadv3.
    + exact Hres3.
    + unfold reserve_outcome, granted. cbn [p_key p_residency r_key flat_slot install_ticket r_location r_epoch reused]. split_and!; [done|done|].
      exists sl. split_and!; try done; [lia|apply list_lookup_insert_eq; by eapply lookup_lt_Some|].
      apply reservation_current_true. cbn [p_key flat_slot p_residency r_epoch install_ticket]. split_and!.
      * exact Hlat.
      * apply list_lookup_insert_eq. exact (lookup_lt_Some _ _ _ Hl).
      * exists (reserved f sl key (last_epoch sl + 1) (next_install_ticket s1)). split; [|done].
        apply list_lookup_insert_eq. exact (lookup_lt_Some _ _ _ Hf).
  - assert (Hok1 : arena_ok (with_state (fun _ => s1) a)) by (by apply arena_ok_state).
    destruct ex as [loc|]; eexists _, _; (split; [reflexivity|]); split_and!; try done. by destruct Hfree.
Qed.

(** The state a reservation starts from: the older slot of the expert, if any, is
    released. *)
Definition vacated (key : GpuNativeQ4ExpertKey) (s s1 : GpuNativeQ4ExpertArenaState) : Prop :=
  let id := N.to_nat (expert_id key) in
  match logical_slots s !! id with
  | Some (Some f) =>
      (exists g, latest_generations s !! id = Some (Some g) /\ g < logical_generation key) /\
      slots s1 = slots (release f id s) /\ logical_slots s1 = logical_slots (release f id s)
  | _ => s1 = s /\ (forall g, latest_generations s !! id = Some (Some g) -> g <= logical_generation key)
  end.

Definition acquire_outcome (key : GpuNativeQ4ExpertKey) (a : GpuNativeQ4ExpertArena) (r : gres GpuNativeQ4ExpertAcquire)
    (a' : GpuNativeQ4ExpertArena) : Prop :=
  let id := N.to_nat (expert_id key) in
  match r with
  | Ok (Hit r) => a' = a /\ r_key r = key /\ (exists f sl, slots (state a) !! f = Some sl /\ owner sl = Resident r) /\
                  exists e, mapping_entry r = Ok e /\ mapping_memory a !! id = Some e
  | Ok InstallInProgress => a' = a /\ exists f sl e t, slots (state a) !! f = Some sl /\ owner sl = Installing key e t
  | Ok StaleRequester => a' = with_state (count stale) a /\
                         exists g, latest_generations (state a) !! id = Some (Some g) /\ logical_generation key < g
  | Err ExpertLayerMismatch => a' = a /\ key_layer key <> arena_layer a
  | Err ExpertLogicalIdOutOfRange => a' = a /\ num_experts (arena_geometry a) <= expert_id key
  | Err InvalidExpertLogicalGeneration => a' = a /\ logical_generation key = 0
  | _ => latest_generations (state a') !! id = Some (Some (logical_generation key)) /\ mapping_memory a' !! id = Some UNMAPPED /\
         exists s1, vacated key (state a) s1 /\ reserve_outcome key s1 r (state a')
  end.

Lemma reserve_latest key a r a' :
  reserve key a = Some (r, a') -> (N.to_nat (expert_id key) < length (latest_generations (state a)))%nat ->
  latest_generations (state a') !! N.to_nat (expert_id key) = Some (Some (logical_generation key)) /\
  mapping_memory a' = mapping_memory a.
Proof.
  unfold reserve. set (a1 := with_state _ a). intros H Hlt.
  assert (Hl : latest_generations (state a1) !! N.to_nat (expert_id key) = Some (Some (logical_generation key)))
    by (by apply list_lookup_insert_eq).
  assert (Hm : mapping_memory a1 = mapping_memory a) by done. clearbody a1.
  destruct (find_free 0 None _) as [[f|] [ex|]]; [| | by simplify_eq..].
  all: destruct (checked_add u64_max _ 1); [|by simplify_eq]; cbn [mbind option_bind] in H;
    destruct (slots (state (with_state _ a1)) !! f) as [sl|]; cbn [mbind option_bind] in H; [|done];
    destruct (checked_add u32_max _ 1); by simplify_eq.
Qed.

(** The branch that reserves, once the expert holds no slot. *)
Lemma acquire_reserve key a a1 s1 :
  arena_ok a1 -> same_arena a a1 -> bank_memory a1 = bank_memory a -> state a1 = s1 ->
  advances (state a) s1 -> residents_from (state a) s1 -> vacated key (state a) s1 ->
  key_layer key = arena_layer a -> logical_generation key <> 0 -> expert_id key < num_experts (arena_geometry a) ->
  logical_slots s1 !! N.to_nat (expert_id key) = Some None ->
  exists r a', reserve key a1 = Some (r, a') /\ arena_ok a' /\ same_arena a a' /\ bank_memory a' = bank_memory a /\
    advances (state a) (state a') /\ residents_from (state a) (state a') /\ acquire_outcome key a r a'.
Proof.
  intros Hok Hsame Hbank <- Hadv Hres Hvac Hk Hg Hid Hl. destruct Hsame as (Hc & Hlay & Hplan).
  assert (Hgeo : arena_geometry a1 = arena_geometry a) by (unfold arena_geometry; by rewrite Hplan).
  destruct (reserve_spec key a1) as (r & a' & Hr & Hok' & Hs' & Hb' & Hadv' & Hres' & Hout); [done|congruence|done|by rewrite Hgeo|done|].
  exists r, a'. split; [done|]. split; [done|]. split; [by transitivity a1|]. split; [congruence|].
  split; [by transitivity (state a1)|]. split; [by transitivity (state a1)|].
  destruct (reserve_latest key a1 r a' Hr) as [Hlat Hm].
  { rewrite (ok_latest_length _ _ _ _ (ok_state a1 Hok)), Hgeo. lia. }
  assert (Hun : mapping_memory a' !! N.to_nat (expert_id key) = Some UNMAPPED).
  { rewrite Hm, (ok_mapping a1 Hok), list_lookup_fmap, lookup_seq_lt by (rewrite Hgeo; lia). cbn. f_equal. unfold published. by rewrite Hl. }
  assert (Hgen : latest_generations (state a') !! N.to_nat (expert_id key) = Some (Some (logical_generation key)) /\
    mapping_memory a' !! N.to_nat (expert_id key) = Some UNMAPPED /\ exists s1, vacated key (state a) s1 /\ reserve_outcome key s1 r (state a'))
    by (split_and!; [done|done|by exists (state a1)]).
  unfold acquire_outcome. destruct r as [[]|[]]; first [exact Hgen|by destruct Hout].
Qed.

Lemma acquire_ok key a :
  arena_ok a ->
  exists r a', acquire_with_unpublish key a = Some (r, a') /\ arena_ok a' /\ same_arena a a' /\ bank_memory a' = bank_memory a /\
    advances (state a) (state a') /\ residents_from (state a) (state a') /\ acquire_outcome key a r a'.
Proof.
  intros Hok. pose proof (ok_state a Hok) as Hst. unfold acquire_with_unpublish.
  destruct (N.eqb_spec (key_layer key) (arena_layer a)) as [Hk|Hk]; cbn [negb]; [|by exists (Err ExpertLayerMismatch), a].
  destruct (N.leb_spec (num_experts (arena_geometry a)) (expert_id key)) as [|Hid]; [by exists (Err ExpertLogicalIdOutOfRange), a|].
  destruct (N.eqb_spec (logical_generation key) 0) as [|Hg]; [by exists (Err InvalidExpertLogicalGeneration), a|].
  destruct (lookup_lt_is_Some_2 (latest_generations (state a)) (N.to_nat (expert_id key))) as [latest Hlat];
    [rewrite (ok_latest_length _ _ _ _ Hst); lia|].
  destruct (lookup_lt_is_Some_2 (logical_slots (state a)) (N.to_nat (expert_id key))) as [current Hcur];
    [rewrite (ok_logical_length _ _ _ _ Hst); lia|].
  rewrite Hlat. cbn [mbind option_bind].
  assert (Hself : (forall g, latest = Some g -> g <= logical_generation key) -> current = None ->
    exists r a', reserve key a = Some (r, a') /\ arena_ok a' /\ same_arena a a' /\ bank_memory a' = bank_memory a /\
      advances (state a) (state a') /\ residents_from (state a) (state a') /\ acquire_outcome key a r a').
  { intros Hle ->. apply (acquire_reserve key a a (state a)); try done. unfold vacated. rewrite Hcur. split; [done|].
    intros g Hg'. apply Hle. congruence. }
  destruct latest as [latest|].
  2:{ apply Hself; [done|]. destruct current as [f|]; [|done]. exfalso.
      destruct (logical_holds _ _ _ _ _ f Hst Hcur) as (sl & k & _ & _ & Hke & _ & _ & _ & Hx). rewrite Hke, Nat2N.id in Hx. congruence. }
  destruct (N.ltb_spec (logical_generation key) latest) as [Hlt|Hge].
  { exists (Ok StaleRequester), (with_state (count stale) a). split; [done|]. split; [exact (arena_ok_state a _ Hok (count_ok _ _ _ _ _ Hst) (fun _ => eq_refl))|].
    split; [done|]. split; [done|]. split; [apply count_advances|]. split; [apply count_residents|]. split; [done|by exists latest]. }
  rewrite Hcur. cbn [mbind option_bind]. destruct current as [f|]; [|apply Hself; [naive_solver|done]].
  destruct (logical_holds _ _ _ _ _ f Hst Hcur) as (sl & k & Hf & Hown & Hke & Hh). rewrite Hf. cbn [mbind option_bind].
  destruct Hh as (Hkl & Hkg & _ & Hklat). rewrite Hke, Nat2N.id, Hlat in Hklat. injection Hklat as ->.
  assert (Hkid : expert_id k = expert_id key) by lia.
  assert (Hsame : logical_generation key = logical_generation k -> k = key).
  { intros Hgg. destruct k, key. cbn in *. congruence. }
  destruct (N.eqb_spec (logical_generation key) (logical_generation k)) as [Heq|Hne].
  - specialize (Hsame Heq). subst k.
    destruct (owner sl) as [|k e t|r] eqn:Ho; cbn in Hown; [done| |]; injection Hown as Hk'; subst; rewrite bool_decide_eq_true_2 by done.
    + exists (Ok InstallInProgress), a. do 6 (split; [done|]). split; [done|]. by exists f, sl, e, t.
    + exists (Ok (Hit r)), a. do 6 (split; [done|]). split; [done|]. split; [done|]. split; [by exists f, sl|].
      destruct (mapping_entry_ok a f sl r Hok Hf Ho) as (e & He & Hm). by exists e.
  - assert (Hvac : forall s1, slots s1 = slots (release f (N.to_nat (expert_id key)) (state a)) ->
      logical_slots s1 = logical_slots (release f (N.to_nat (expert_id key)) (state a)) -> vacated key (state a) s1).
    { intros s1 H1 H2. unfold vacated. rewrite Hcur. split_and!; [|done|done]. eexists. split; [done|lia]. }
    destruct (release_slot_ok _ _ _ _ f _ Hst Hcur) as (Hst1 & Hadv1 & Hres1 & Hl1 & _).
    destruct (owner sl) as [|k' e t|r] eqn:Ho; [done| |].
    + apply (acquire_reserve key a _ (release f (N.to_nat (expert_id key)) (count cancelled (state a)))); try done; [|by apply Hvac].
      apply (arena_ok_state a); [done|exact (count_ok _ _ _ cancelled _ Hst1)|]. exact (published_installing _ _ _ _ _ _ _ _ _ _ Hst Hcur Hf Ho).
    + rewrite (mapping_offset_ok (num_experts (arena_geometry a))) by (destruct (ok_layout a Hok) as (l & c & Hgeo & _); pose proof (geometry_experts _ Hgeo); lia).
      apply (acquire_reserve key a _ (release f (N.to_nat (expert_id key)) (count retired (state a)))); try done; [|by apply Hvac].
      apply (arena_ok_unpublish a (expert_id key) f); try done. exact (count_ok _ _ _ retired _ Hst1).
Qed.

(** ** Giving up and retiring *)

(** A step that leaves the banks alone and withdraws at most. *)
Definition withdraws (a a' : GpuNativeQ4ExpertArena) : Prop :=
  arena_ok a' /\ same_arena a a' /\ bank_memory a' = bank_memory a /\ advances (state a) (state a') /\ residents_from (state a) (state a').

Lemma withdraws_count a b : arena_ok a -> withdraws a (with_state (count b) a).
Proof.
  intros Hok. split; [exact (arena_ok_state a _ Hok (count_ok _ _ _ b _ (ok_state a Hok)) (fun _ => eq_refl))|].
  split; [done|]. split; [done|]. split; [apply count_advances|apply count_residents].
Qed.

Lemma withdraws_trans a b c : withdraws a b -> withdraws b c -> withdraws a c.
Proof.
  intros (_ & H2 & H3 & H4 & H5) (K1 & K2 & K3 & K4 & K5). split; [done|]. split; [by transitivity b|]. split; [congruence|].
  split; by etransitivity.
Qed.

(** Releasing the slot of an installation in progress. *)
Lemma withdraws_installing a f id sl k e t b :
  arena_ok a -> logical_slots (state a) !! id = Some (Some f) -> slots (state a) !! f = Some sl -> owner sl = Installing k e t ->
  withdraws a (with_state (fun _ => count b (release f id (state a))) a).
Proof.
  intros Hok Hl Hf Ho. destruct (release_slot_ok _ _ _ _ f id (ok_state a Hok) Hl) as (Hst1 & Hadv1 & Hres1 & _ & _).
  split; [|by split_and!]. apply (arena_ok_state a); [done|by apply count_ok|].
  exact (published_installing _ _ _ _ _ _ _ _ _ _ (ok_state a Hok) Hl Hf Ho).
Qed.

(** What cancelling does: a reservation with this ticket is released, otherwise nothing. *)
Lemma cancel_install_ok a f t :
  arena_ok a -> exists a', cancel_install f t a = Some a' /\ withdraws a a' /\
    match owner <$> slots (state a) !! f with
    | Some (Installing k e t') => if t' =? t then owner <$> slots (state a') !! f = Some Free else a' = a
    | _ => a' = a
    end.
Proof.
  intros Hok. unfold cancel_install.
  assert (Hself : withdraws a a) by (split_and!; done || reflexivity).
  destruct (slots (state a) !! f) as [sl|] eqn:Hf; cbn [fmap option_fmap option_map]; [|by eexists].
  destruct (owner sl) as [|k e t'|r] eqn:Ho; [by eexists| |by eexists].
  destruct (N.eqb_spec t' t) as [->|Ht]; cbn [negb]; [|by eexists].
  assert (Hl : logical_slots (state a) !! N.to_nat (expert_id k) = Some (Some f)).
  { apply (owner_unique _ _ _ (state a) f sl k (ok_state a Hok) Hf). by rewrite Ho. }
  change (logical_slots (set_slots _ (state a))) with (logical_slots (state a)). rewrite Hl. cbn [mjoin option_join].
  rewrite bool_decide_eq_true_2 by done. eexists. split; [reflexivity|]. split.
  - exact (withdraws_installing a f _ sl k e t cancelled Hok Hl Hf Ho).
  - cbn. rewrite list_lookup_alter, decide_True by done. by rewrite Hf.
Qed.

Definition retire_outcome (key : GpuNativeQ4ExpertKey) (a : GpuNativeQ4ExpertArena) (r : gres GpuNativeQ4ExpertRetire)
    (a' : GpuNativeQ4ExpertArena) : Prop :=
  let id := N.to_nat (expert_id key) in
  match r with
  | Ok Retired => (exists f sl r, slots (state a) !! f = Some sl /\ owner sl = Resident r /\ r_key r = key /\ owner <$> slots (state a') !! f = Some Free) /\
                  logical_slots (state a') !! id = Some None /\ mapping_memory a' !! id = Some UNMAPPED
  | Ok CancelledInstall => (exists f sl e t, slots (state a) !! f = Some sl /\ owner sl = Installing key e t /\ owner <$> slots (state a') !! f = Some Free) /\
                           logical_slots (state a') !! id = Some None /\ mapping_memory a' = mapping_memory a
  | Ok NotResident => a' = a /\ forall f sl, slots (state a) !! f = Some sl -> owner_key (owner sl) <> Some key
  | Ok RetireStaleRequester => a' = a /\ exists g, latest_generations (state a) !! id = Some (Some g) /\ logical_generation key < g
  | Err ExpertLayerMismatch => a' = a /\ key_layer key <> arena_layer a
  | Err ExpertLogicalIdOutOfRange => a' = a /\ num_experts (arena_geometry a) <= expert_id key
  | Err _ => False
  end.

Lemma retire_ok key a :
  arena_ok a -> exists r a', retire_with_unpublish key a = Some (r, a') /\ withdraws a a' /\ retire_outcome key a r a'.
Proof.
  intros Hok. pose proof (ok_state a Hok) as Hst. unfold retire_with_unpublish.
  assert (Hself : withdraws a a) by (split_and!; done || reflexivity).
  destruct (N.eqb_spec (key_layer key) (arena_layer a)) as [Hk|Hk]; cbn [negb]; [|by exists (Err ExpertLayerMismatch), a].
  destruct (N.leb_spec (num_experts (arena_geometry a)) (expert_id key)) as [|Hid]; [by exists (Err ExpertLogicalIdOutOfRange), a|].
  destruct (lookup_lt_is_Some_2 (latest_generations (state a)) (N.to_nat (expert_id key))) as [latest Hlat];
    [rewrite (ok_latest_length _ _ _ _ Hst); lia|].
  destruct (lookup_lt_is_Some_2 (logical_slots (state a)) (N.to_nat (expert_id key))) as [current Hcur];
    [rewrite (ok_logical_length _ _ _ _ Hst); lia|].
  assert (Hnot : latest <> Some (logical_generation key) \/ current = None ->
            forall f sl, slots (state a) !! f = Some sl -> owner_key (owner sl) <> Some key).
  { intros Hor f sl Hf Hk'. destruct (owner_unique _ _ _ (state a) f sl key Hst Hf Hk') as (_ & _ & H1 & H2). naive_solver. }
  rewrite Hlat. cbn [mbind option_bind]. destruct latest as [latest|];
    [|by exists (Ok NotResident), a; split; [done|]; split; [done|]; split; [done|]; apply Hnot; left].
  destruct (N.ltb_spec (logical_generation key) latest) as [Hlt|Hge];
    [by exists (Ok RetireStaleRequester), a; split; [done|]; split; [done|]; split; [done|]; exists latest|].
  destruct (N.eqb_spec (logical_generation key) latest) as [Hgen|Hgen]; cbn [negb];
    [|by exists (Ok NotResident), a; split; [done|]; split; [done|]; split; [done|]; apply Hnot; left; congruence].
  rewrite Hcur. cbn [mbind option_bind]. destruct current as [f|];
    [|by exists (Ok NotResident), a; split; [done|]; split; [done|]; split; [done|]; apply Hnot; right].
  destruct (logical_holds _ _ _ _ _ f Hst Hcur) as (sl & k & Hf & Hown & Hke & Hkl & Hkg & _ & Hklat). rewrite Hf. cbn [mbind option_bind].
  rewrite Hke, Nat2N.id, Hlat in Hklat. injection Hklat as Hkgen.
  assert (k = key) as -> by (destruct k, key; cbn in *; f_equal; lia).
  destruct (release_slot_ok _ _ _ _ f _ Hst Hcur) as (Hst1 & Hadv1 & Hres1 & Hl1 & _).
  assert (Hfree : owner <$> slots (release f (N.to_nat (expert_id key)) (state a)) !! f = Some Free).
  { cbn. rewrite list_lookup_alter, decide_True by done. by rewrite Hf. }
  destruct (owner sl) as [|k' e t|r] eqn:Ho; [done| |]; cbn in Hown; injection Hown as Hk'; rewrite bool_decide_eq_true_2 by done; cbn [negb].
  - subst k'. eexists (Ok CancelledInstall), _. split; [reflexivity|].
    split; [exact (withdraws_installing a f _ sl key e t cancelled Hok Hcur Hf Ho)|]. split; [by exists f, sl, e, t|]. by split.
  - rewrite (mapping_offset_ok (num_experts (arena_geometry a))) by (destruct (ok_layout a Hok) as (l & c & Hgeo & _); pose proof (geometry_experts _ Hgeo); lia).
    eexists (Ok Retired), _. split; [reflexivity|]. split.
    + split; [|by split_and!]. apply (arena_ok_unpublish a (expert_id key) f); try done. exact (count_ok _ _ _ retired _ Hst1).
    + split; [by exists f, sl, r|]. split; [done|]. cbn [mapping_memory with_state]. rewrite write_mapping_at.
      apply list_lookup_insert_eq. rewrite (ok_mapping a Hok), length_fmap, length_seq. lia.
Qed.

(** ** The bytes written *)

(** The content of a slot. *)
Definition physical_bytes (g : GpuNativeQ4ExpertGeometry) (e : N) (payload : list byte) : list byte :=
  le_bytes 4 e ++ take (N.to_nat (logical_expert_bytes g)) payload.

Lemma checked_new_ok g e payload c :
  checked_new g e payload = Ok c ->
  c = {| c_geometry := g; c_epoch := e; c_payload := payload |} /\ 1 <= e /\ logical_expert_bytes g <= lenN payload.
Proof.
  unfold checked_new, validate_q4_expert_payload. destruct (N.ltb_spec (lenN payload) (logical_expert_bytes g)); [done|].
  destruct (_ <? _); [done|]. destruct (existsb _ _); [done|]. cbn [mbind result_bind]. destruct (N.eqb_spec e 0); [done|].
  intros [= <-]. split_and!; [done|lia|done].
Qed.

Lemma length_physical_bytes g e payload :
  geometry_ok g -> logical_expert_bytes g <= lenN payload -> lenN (physical_bytes g e payload) = slot_stride_bytes g.
Proof.
  intros Hg Hl. destruct (geometry_facts g Hg) as (_ & _ & Hs & _). unfold physical_bytes, lenN in *.
  rewrite length_app, length_le_bytes, length_take. lia.
Qed.

(** Writing the epoch and then the payload leaves nothing of the destination. *)
Lemma splice_all g e payload (d : list byte) :
  geometry_ok g -> logical_expert_bytes g <= lenN payload -> lenN d = slot_stride_bytes g ->
  splice (N.to_nat payload_offset_bytes) (take (N.to_nat (logical_expert_bytes g)) payload) (splice 0 (le_bytes 4 e) d) = physical_bytes g e payload.
Proof.
  intros Hg Hl Hd. destruct (geometry_facts g Hg) as (_ & _ & Hs & _). unfold lenN in *. change (N.to_nat payload_offset_bytes) with 4%nat.
  unfold splice, physical_bytes. rewrite length_le_bytes, length_take, take_0. cbn [app Nat.add].
  rewrite take_app_length' by (by rewrite length_le_bytes). f_equal.
  rewrite drop_ge; [by rewrite app_nil_r|]. rewrite length_app, length_le_bytes, length_drop. lia.
Qed.

(** The two ways of filling a slot agree: whatever the destination held, both
    the zero-filling one and the complete overwrite leave exactly the epoch's four
    bytes and the expert's bytes, and they refuse the same destinations (those that
    are not a slot long); what the shader reads back is the epoch and the expert. *)
Theorem fills_agree g e payload c destination :
  geometry_ok g -> e <= u32_max -> checked_new g e payload = Ok c ->
  fill_complete_overwrite_no_zero c destination = fill c destination /\
  if lenN destination =? slot_stride_bytes g then
    exists bytes, fill c destination = Ok bytes /\ lenN bytes = slot_stride_bytes g /\ le_val (take 4 bytes) = e /\
      take (N.to_nat (logical_expert_bytes g)) (drop 4 bytes) = take (N.to_nat (logical_expert_bytes g)) payload
  else fill c destination = Err ExpertPhysicalSlotDestinationLength.
Proof.
  intros Hg He (-> & _ & Hl)%checked_new_ok. destruct (geometry_facts g Hg) as (_ & _ & Hs & _ & [_ Hmax] & _).
  unfold fill_complete_overwrite_no_zero, complete_overwrite_range, fill. cbn [c_geometry c_epoch].
  destruct (N.eqb_spec (lenN destination) (slot_stride_bytes g)) as [Hd|Hd]; cbn [negb mbind result_bind]; [|done].
  rewrite (proj2 (checked_add_Some usize_max payload_offset_bytes (logical_expert_bytes g) (slot_stride_bytes g)))
    by (rewrite Hs; split; [done|]; change payload_offset_bytes with 4; unfold usize_max, u64_max, u32_max in *; lia).
  cbn [ok_or mbind result_bind]. rewrite Hd, N.eqb_refl. cbn [negb mbind result_bind fst logical_payload c_geometry c_payload].
  assert (Hr : lenN (replicate (length destination) x00) = slot_stride_bytes g) by (unfold lenN in *; by rewrite length_replicate).
  unfold logical_payload. cbn [c_geometry c_payload]. rewrite !splice_all by done. split; [done|]. exists (physical_bytes g e payload). split; [done|].
  split; [by apply length_physical_bytes|]. unfold physical_bytes.
  rewrite take_app_length' by (by rewrite length_le_bytes). rewrite drop_app_length' by (by rewrite length_le_bytes).
  split; [apply le_val_le_bytes_small; change (256 ^ N.of_nat 4) with 4294967296; unfold u32_max in He; lia|].
  rewrite take_take. by rewrite Nat.min_id.
Qed.

Lemma fill_ok (no_zero : bool) g e payload c view :
  geometry_ok g -> checked_new g e payload = Ok c -> lenN view = slot_stride_bytes g ->
  (if no_zero then fill_complete_overwrite_no_zero c view else fill c view) = Ok (physical_bytes g e payload).
Proof.
  intros Hg (-> & _ & Hl)%checked_new_ok Hd. destruct (geometry_facts g Hg) as (_ & _ & Hs & _ & [_ Hmax] & _).
  assert (Hadd : checked_add usize_max payload_offset_bytes (logical_expert_bytes g) = Some (slot_stride_bytes g)).
  { apply checked_add_Some. rewrite Hs. split; [done|]. change payload_offset_bytes with 4. unfold usize_max, u64_max, u32_max in *. lia. }
  assert (Hr : lenN (replicate (length view) x00) = slot_stride_bytes g) by (unfold lenN in *; by rewrite length_replicate).
  destruct no_zero; unfold fill_complete_overwrite_no_zero, complete_overwrite_range, fill; cbn [c_geometry c_epoch]; rewrite Hd, N.eqb_refl, Hadd;
    cbn [negb ok_or mbind result_bind]; rewrite ?N.eqb_refl; cbn [negb mbind result_bind fst]; unfold logical_payload; cbn [c_geometry c_payload];
    f_equal; by apply splice_all.
Qed.

(** ** Writing a slot *)

Lemma write_slot a f sl bytes :
  arena_ok a -> slots (state a) !! f = Some sl -> lenN bytes = slot_stride_bytes (arena_geometry a) ->
  exists a', write_bank (bank (s_location sl)) (slot (s_location sl) * slot_stride_bytes (arena_geometry a)) bytes a = Some a' /\
    arena_ok a' /\ same_arena a a' /\ state a' = state a /\ mapping_memory a' = mapping_memory a /\
    slot_bytes a' (s_location sl) = Some bytes /\
    forall f' sl', slots (state a) !! f' = Some sl' -> f' <> f -> slot_bytes a' (s_location sl') = slot_bytes a (s_location sl').
Proof.
  intros Hok Hf Hlen. set (w := slot_stride_bytes (arena_geometry a)) in *.
  destruct (slot_place a f sl Hok Hf) as (b & p & m & Hflat & Hb & Hbk & Hs & Hal & Hp & _ & _ & Hm & Hml). fold w in Hal.
  unfold write_bank. rewrite Hm. cbn [mbind option_bind].
  set (m' := splice (N.to_nat (slot (s_location sl) * w)) bytes m).
  assert (Hin : (N.to_nat (slot (s_location sl) * w) + length bytes <= length m)%nat) by (unfold lenN in Hlen; lia).
  assert (Hlm : length m' = length m) by (by apply length_splice).
  eexists. split; [reflexivity|]. split_and!; try done.
  - destruct Hok as [H1 H2 H3 H4]. split; [done|done|done|]. etransitivity; [|exact H4]. cbn. rewrite list_fmap_insert.
    apply list_insert_id. by rewrite list_lookup_fmap, Hm, Hlm.
  - unfold slot_bytes. cbn [bank_memory with_banks]. change (arena_geometry (with_banks _ a)) with (arena_geometry a). fold w.
    rewrite list_lookup_insert_eq by (by eapply lookup_lt_Some). cbn [mbind option_bind]. f_equal.
    replace (N.to_nat w) with (length bytes) by (unfold lenN in Hlen; lia). by apply slice_splice_same.
  - intros f' sl' Hf' Hne. unfold slot_bytes. cbn [bank_memory with_banks]. change (arena_geometry (with_banks _ a)) with (arena_geometry a). fold w.
    destruct (decide (N.to_nat (bank (s_location sl')) = N.to_nat (bank (s_location sl)))) as [Hbeq|Hbne]; [|by rewrite list_lookup_insert_ne].
    rewrite Hbeq, list_lookup_insert_eq by (by eapply lookup_lt_Some). rewrite Hm. cbn [mbind option_bind]. f_equal.
    apply slice_splice_other; [done|].
    assert (Hsl : slot (s_location sl') <> slot (s_location sl)).
    { intros Hseq. apply Hne. apply (slots_apart a f' f sl' sl Hok Hf' Hf). destruct (s_location sl), (s_location sl'). cbn in *. f_equal; [lia|done]. }
    assert (slot (s_location sl') + 1 <= slot (s_location sl) \/ slot (s_location sl) + 1 <= slot (s_location sl')) as [Ho|Ho] by lia.
    + left. apply (N.mul_le_mono_r _ _ w) in Ho. lia.
    + right. apply (N.mul_le_mono_r _ _ w) in Ho. unfold lenN in Hlen. lia.
Qed.

(** ** Installation *)

(** A permit of this arena: its slot, at an epoch the slot has reached. *)
Definition permit_ok (a : GpuNativeQ4ExpertArena) (p : GpuNativeQ4ExpertInstallPermit) : Prop :=
  r_key (p_residency p) = p_key p /\ expert_id (p_key p) < num_experts (arena_geometry a) /\
  exists sl, slots (state a) !! flat_slot p = Some sl /\ r_location (p_residency p) = s_location sl /\ 1 <= r_epoch (p_residency p) <= last_epoch sl.

Lemma permit_ok_advances a a' p :
  permit_ok a p -> same_arena a a' -> advances (state a) (state a') -> permit_ok a' p.
Proof.
  intros (Hk & Hid & sl & Hf & Hl & He) (_ & _ & Hplan) Hadv. destruct (Hadv _ _ Hf) as (sl' & Hf' & Hl' & He').
  split; [done|]. split; [unfold arena_geometry in *; by rewrite Hplan|]. exists sl'. split_and!; [done|congruence|lia|lia].
Qed.

(** The offsets of a permit. *)
Definition offsets_of (a : GpuNativeQ4ExpertArena) (p : GpuNativeQ4ExpertInstallPermit) (o : Offsets) : Prop :=
  mapping_entry (p_residency p) = Ok (o_mapping o) /\
  o_physical_offset o = slot (r_location (p_residency p)) * slot_stride_bytes (arena_geometry a) /\
  o_mapping_offset o = expert_id (p_key p) * 8.

Lemma slot_offset_bound a f sl :
  arena_ok a -> slots (state a) !! f = Some sl -> slot (s_location sl) * slot_stride_bytes (arena_geometry a) <= u64_max.
Proof.
  intros Hok Hf. destruct (ok_layout a Hok) as (l & c & Hg & Hlay).
  destruct (slot_place a _ sl Hok Hf) as (b & pk & m & _ & _ & Hbk & Hs & Hal & _ & _ & _ & _ & _).
  destruct (geometry_facts _ Hg) as (_ & _ & _ & _ & Hst & _). destruct (bank_bound _ l Hg) as (Hbb & Hbm & _).
  apply (layout_ok_iff _ l Hg) in Hlay as [Hc Hlay]. rewrite Hlay in *. unfold layout_of in Hbk. cbn [banks] in Hbk.
  apply lookup_app_Some in Hbk as [Hbk|[_ Hbk]].
  - apply list_lookup_fmap_Some in Hbk as (i & -> & _). unfold nth_bank in *. cbn [allocation_bytes b_slot_capacity] in *.
    assert (slot (s_location sl) * slot_stride_bytes (arena_geometry a) <= maximum_slots_per_bank (arena_geometry a) l * slot_stride_bytes (arena_geometry a))
      by (apply N.mul_le_mono_r; lia). unfold u64_max, u32_max in *. lia.
  - apply lookup_replicate in Hbk as [-> _]. cbn in Hs. lia.
Qed.

Lemma offsets_ok a p : arena_ok a -> permit_ok a p -> exists o, offsets p a = Ok o /\ offsets_of a p o.
Proof.
  intros Hok (Hk & Hid & sl & Hf & Hl & He). destruct (ok_layout a Hok) as (l & c & Hg & Hlay).
  destruct (mapping_entry_of a _ sl (p_residency p) Hok Hf Hl ltac:(lia)) as (e & Hm & _).
  destruct (geometry_facts _ Hg) as (Hne & _). pose proof (slot_offset_bound a _ sl Hok Hf) as Hsz.
  unfold offsets. rewrite Hm, Hl, (proj2 (checked_mul_Some u64_max _ _ (slot (s_location sl) * slot_stride_bytes (arena_geometry a)))) by done.
  cbn [ok_or mbind result_bind]. rewrite (mapping_offset_ok (num_experts (arena_geometry a))) by lia. cbn [mbind result_bind].
  eexists. split; [reflexivity|]. unfold offsets_of. by rewrite Hl.
Qed.

Lemma publish_entry_ok a p o :
  arena_ok a -> permit_ok a p -> offsets_of a p o -> reservation_current p (state a) = true ->
  arena_ok (publish p o a) /\ same_arena a (publish p o a) /\ bank_memory (publish p o a) = bank_memory a /\
  advances (state a) (state (publish p o a)) /\
  mapping_memory (publish p o a) !! N.to_nat (expert_id (p_key p)) = Some (o_mapping o) /\
  forall f sl, slots (state (publish p o a)) !! f = Some sl -> exists sl0, slots (state a) !! f = Some sl0 /\
    (if decide (f = flat_slot p) then owner sl = Resident (p_residency p) else sl = sl0).
Proof.
  intros Hok (Hk & Hid & sl & Hf & Hl & He) (Hme & _ & Ho) (Hlat & Hlog & sl0 & Hf0 & Hown)%reservation_current_true.
  rewrite Hf in Hf0. injection Hf0 as <-. pose proof (ok_state a Hok) as Hst.
  pose proof (ok_owner _ _ _ _ Hst _ _ Hf) as How. unfold owner_ok in How. rewrite Hown in How. destruct How as (Hep & _ & _ & Hh).
  set (s' := state (publish p o a)).
  assert (Hslots : forall f', slots s' !! f' = if decide (f' = flat_slot p)
            then Some {| s_location := s_location sl; last_epoch := last_epoch sl; ever_installed := true; owner := Resident (p_residency p) |}
            else slots (state a) !! f').
  { intros f'. unfold s'. cbn. destruct (decide (f' = flat_slot p)) as [->|Hff]; [by rewrite list_lookup_alter_eq, Hf|by rewrite list_lookup_alter_ne]. }
  assert (Hlen : length (slots s') = length (slots (state a))) by (cbn; by rewrite length_alter).
  assert (Hls : logical_slots s' = logical_slots (state a)) by done.
  assert (Hgs : latest_generations s' = latest_generations (state a)) by done.
  assert (Hts : next_install_ticket s' = next_install_ticket (state a)) by done.
  assert (Hholds : forall k f', holds (arena_layer a) (state a) k f' -> holds (arena_layer a) s' k f') by done.
  assert (Hst' : state_ok (arena_layer a) (num_experts (arena_geometry a)) (arena_layout a) s').
  { destruct Hst as [I1 I2 I3 I4 I5 I6]. split.
    - by rewrite Hlen.
    - done.
    - done.
    - intros f' sl'. rewrite Hslots. case_decide; [|by apply I4]. intros [= <-]. subst f'. cbn. by apply (I4 _ sl).
    - intros f' sl'. rewrite Hslots. case_decide as Hff.
      + intros [= <-]. subst f'. unfold owner_ok. cbn [owner s_location last_epoch]. rewrite Hk. split_and!; [done|done|lia|by apply Hholds].
      + intros Hf'. pose proof (I5 f' sl' Hf') as Hx. unfold owner_ok in *. destruct (owner sl'); [done| |]; rewrite ?Hts; naive_solver.
    - intros id f'. rewrite Hls, Hslots. intros Hl'. destruct (I6 id f' Hl') as (sl' & k & Hf' & Hk' & Hid'). case_decide as Hff; [|by exists sl', k].
      subst f'. rewrite Hf in Hf'. injection Hf' as <-. rewrite Hown in Hk'. injection Hk' as <-. eexists _, (p_key p). split; [reflexivity|]. cbn. by rewrite Hk. }
  assert (Hlt : (N.to_nat (expert_id (p_key p)) < N.to_nat (num_experts (arena_geometry a)))%nat) by lia.
  assert (Hmap : mapping_memory (publish p o a) = <[N.to_nat (expert_id (p_key p)) := o_mapping o]> (mapping_memory a)).
  { unfold publish. cbn [mapping_memory with_state]. by rewrite Ho, write_mapping_at. }
  split_and!.
  - split; [by apply (ok_layout a)|exact Hst'| |by apply (ok_memory a)].
    change (mapping_memory (publish p o a) = published s' <$> seq 0 (N.to_nat (num_experts (arena_geometry a)))).
    rewrite Hmap, (ok_mapping a Hok), <-(seq_insert (published (state a)) (published s') _ (N.to_nat (expert_id (p_key p)))).
    + f_equal. unfold published. rewrite Hls, Hlog. cbn [mjoin option_join]. rewrite Hslots, decide_True by done. cbn. by rewrite Hme.
    + done.
    + intros j Hj. unfold published. rewrite Hls. destruct (logical_slots (state a) !! j) as [[f'|]|] eqn:Hl'; [|done|done]. cbn [mjoin option_join].
      rewrite Hslots. case_decide as Hff; [|done]. subst f'. exfalso. destruct (ok_logical _ _ _ _ Hst j _ Hl') as (sl' & k' & Hf' & Hk' & Hid').
      rewrite Hf in Hf'. injection Hf' as <-. rewrite Hown in Hk'. injection Hk' as <-. lia.
  - done.
  - done.
  - intros f' sl' Hf'. rewrite Hslots. case_decide; [|eexists; split; [done|]; done]. subst f'. rewrite Hf in Hf'. injection Hf' as <-.
    eexists. split; [done|]. cbn. split; [done|lia].
  - rewrite Hmap. apply list_lookup_insert_eq. rewrite (ok_mapping a Hok), length_fmap, length_seq. lia.
  - intros f' sl'. rewrite Hslots. case_decide as Hff; [|by exists sl']. subst f'. intros [= <-]. by exists sl.
Qed.

(** The operations of a permit. *)

Lemma drop_ok a p : arena_ok a -> exists a', drop_permit p a = Some a' /\ withdraws a a'.
Proof. intros Hok. destruct (cancel_install_ok a (flat_slot p) (install_ticket p) Hok) as (a' & H1 & H2 & _). by exists a'. Qed.

Lemma stage_check_ok a p payload :
  arena_ok a -> permit_ok a p ->
  exists r a', stage_check p payload a = Some (r, a') /\ withdraws a a' /\
    match r with
    | Ok w => a' = a /\ w_permit w = p /\ reservation_current p (state a) = true /\
              checked_new (arena_geometry a) (r_epoch (p_residency p)) payload = Ok (w_checked w) /\ offsets_of a p (w_offsets w)
    | Err ExpertInstallReservationLost => reservation_current p (state a) = false
    | Err e => checked_new (arena_geometry a) (r_epoch (p_residency p)) payload = Err e
    end.
Proof.
  intros Hok Hp. destruct (offsets_ok a p Hok Hp) as (o & Ho & Hof). unfold stage_check.
  destruct (checked_new _ _ payload) as [c|e] eqn:Hc; cbn [mbind result_bind].
  - rewrite Ho. cbn [mbind result_bind]. destruct (reservation_current p (state a)) eqn:Hcur; cbn [negb].
    + eexists (Ok _), a. split; [reflexivity|]. split; [split_and!; done || reflexivity|]. by split_and!.
    + destruct (drop_ok _ p (proj1 (withdraws_count a stale Hok))) as (a' & -> & Hw). cbn [mbind option_bind].
      eexists _, a'. split; [reflexivity|]. split; [|done]. eapply withdraws_trans; [by apply withdraws_count|done].
  - destruct (drop_ok a p Hok) as (a' & -> & Hw). cbn [mbind option_bind]. eexists _, a'. split; [reflexivity|]. split; [done|].
    unfold checked_new, validate_q4_expert_payload in Hc. repeat (case_match; cbn in Hc; try done).
Qed.

(** A view is one slot long; the write is that of the permit's location. *)
Lemma physical_write_ok a p nz payload c view :
  arena_ok a -> permit_ok a p -> checked_new (arena_geometry a) (r_epoch (p_residency p)) payload = Ok c ->
  (forall v, view = Some v -> lenN v = slot_stride_bytes (arena_geometry a)) ->
  match view with
  | None => physical_write nz c view (bank (r_location (p_residency p))) (slot (r_location (p_residency p)) * slot_stride_bytes (arena_geometry a)) a
              = Some (Err ExpertDirectStagingUnavailable, a)
  | Some _ => exists a',
      physical_write nz c view (bank (r_location (p_residency p))) (slot (r_location (p_residency p)) * slot_stride_bytes (arena_geometry a)) a
        = Some (Ok tt, a') /\ arena_ok a' /\ same_arena a a' /\ state a' = state a /\ mapping_memory a' = mapping_memory a /\
      slot_bytes a' (r_location (p_residency p)) = Some (physical_bytes (arena_geometry a) (r_epoch (p_residency p)) payload) /\
      forall f sl, slots (state a) !! f = Some sl -> f <> flat_slot p -> slot_bytes a' (s_location sl) = slot_bytes a (s_location sl)
  end.
Proof.
  intros Hok (Hk & Hid & sl & Hf & Hl & He) Hc Hv. destruct view as [v|]; [|done]. specialize (Hv v eq_refl).
  destruct (ok_layout a Hok) as (l & cap & Hg & _). unfold physical_write. rewrite (fill_ok nz _ _ payload _ _ Hg Hc Hv), Hl.
  destruct (checked_new_ok _ _ _ _ Hc) as (_ & _ & Hlen).
  destruct (write_slot a _ sl (physical_bytes (arena_geometry a) (r_epoch (p_residency p)) payload) Hok Hf) as (a' & -> & Hrest);
    [by apply length_physical_bytes|]. cbn [mbind option_bind]. by exists a'.
Qed.

Lemma same_state_advances a a' : state a' = state a -> advances (state a) (state a').
Proof. by intros ->. Qed.

Lemma permit_ok_state a a' p : permit_ok a p -> same_arena a a' -> state a' = state a -> permit_ok a' p.
Proof. intros Hp Hs Hst. eapply permit_ok_advances; [done|done|by apply same_state_advances]. Qed.

Lemma offsets_of_same a a' p o : offsets_of a p o -> same_arena a a' -> offsets_of a' p o.
Proof. intros H (_ & _ & Hp). unfold offsets_of, arena_geometry in *. by rewrite Hp. Qed.

(** The result of publishing the permit's residency. *)
Definition publishes (a a' : GpuNativeQ4ExpertArena) (p : GpuNativeQ4ExpertInstallPermit) : Prop :=
  arena_ok a' /\ same_arena a a' /\ advances (state a) (state a') /\
  ((exists e, mapping_entry (p_residency p) = Ok e /\ mapping_memory a' !! N.to_nat (expert_id (p_key p)) = Some e) /\
   exists sl, slots (state a') !! flat_slot p = Some sl /\ owner sl = Resident (p_residency p)) /\
  forall f sl r, slots (state a') !! f = Some sl -> owner sl = Resident r ->
    (f = flat_slot p /\ r = p_residency p) \/ exists sl0, slots (state a) !! f = Some sl0 /\ owner sl0 = Resident r.

Lemma publish_publishes a p o :
  arena_ok a -> permit_ok a p -> offsets_of a p o -> reservation_current p (state a) = true ->
  publishes a (publish p o a) p /\ bank_memory (publish p o a) = bank_memory a.
Proof.
  intros Hok Hp Ho Hc. destruct (publish_entry_ok a p o Hok Hp Ho Hc) as (H1 & H2 & H3 & H4 & H5 & H6). split; [|done].
  split; [done|]. split; [done|]. split; [done|]. split; [split; [exists (o_mapping o); split; [apply Ho|done]|]|].
  { destruct Hp as (_ & _ & sl & Hf & _). destruct (H4 _ _ Hf) as (sl' & Hf' & _). exists sl'. split; [done|].
    destruct (H6 _ _ Hf') as (sl0 & _ & Hx). by rewrite decide_True in Hx. }
  intros f sl r Hf Hr. destruct (H6 f sl Hf) as (sl0 & Hf0 & Hx). case_decide; [left; split; [done|congruence]|right; exists sl0; by subst].
Qed.

Lemma commit_ok a i :
  arena_ok a -> permit_ok a (permit i) -> offsets_of a (permit i) (prepared i) ->
  exists r a', commit_with_mapping_writer i a = Some (r, a') /\ bank_memory a' = bank_memory a /\
    match r with
    | Ok r => r = p_residency (permit i) /\ reservation_current (permit i) (state a) = true /\ publishes a a' (permit i)
    | Err e => e = ExpertInstallReservationLost /\ reservation_current (permit i) (state a) = false /\ withdraws a a'
    end.
Proof.
  intros Hok Hp Ho. unfold commit_with_mapping_writer. destruct (reservation_current (permit i) (state a)) eqn:Hcur; cbn [negb].
  - destruct (publish_publishes a _ _ Hok Hp Ho Hcur) as [H1 H2]. eexists (Ok _), _. split; [reflexivity|]. by split_and!.
  - destruct (drop_ok _ (permit i) (proj1 (withdraws_count a stale Hok))) as (a' & -> & Hw). cbn [mbind option_bind].
    assert (Hwa : withdraws a a') by (eapply withdraws_trans; [by apply withdraws_count|done]).
    eexists (Err _), a'. split; [reflexivity|]. split; [by apply Hwa|]. by split_and!.
Qed.

Lemma install_ok a p payload view :
  arena_ok a -> permit_ok a p -> (forall v, view = Some v -> lenN v = slot_stride_bytes (arena_geometry a)) ->
  exists r a', install p payload view a = Some (r, a') /\
    match r with
    | Ok r => r = p_residency p /\ reservation_current p (state a) = true /\ publishes a a' p /\ logical_expert_bytes (arena_geometry a) <= lenN payload /\
        slot_bytes a' (r_location r) = Some (physical_bytes (arena_geometry a) (r_epoch r) payload) /\
        forall f sl, slots (state a) !! f = Some sl -> f <> flat_slot p -> slot_bytes a' (s_location sl) = slot_bytes a (s_location sl)
    | Err e => withdraws a a' /\
        match e with
        | ExpertInstallReservationLost => reservation_current p (state a) = false
        | ExpertDirectStagingUnavailable => view = None
        | e => checked_new (arena_geometry a) (r_epoch (p_residency p)) payload = Err e
        end
    end.
Proof.
  intros Hok Hp Hv. destruct (offsets_ok a p Hok Hp) as (o & Ho & Hof). unfold install.
  destruct (checked_new _ _ payload) as [c|e] eqn:Hc; cbn [mbind result_bind].
  2:{ destruct (drop_ok a p Hok) as (a' & -> & Hw). cbn [mbind option_bind]. eexists (Err e), a'. split; [reflexivity|]. split; [done|].
      unfold checked_new, validate_q4_expert_payload in Hc. repeat (case_match; cbn in Hc; try done). }
  rewrite Ho. cbn [mbind result_bind]. destruct (reservation_current p (state a)) eqn:Hcur; cbn [negb].
  2:{ eexists (Err _), _. split; [reflexivity|]. split; [by apply withdraws_count|done]. }
  destruct Hof as (Hm & Hpo & Hmo). rewrite Hpo. pose proof (physical_write_ok a p false payload c view Hok Hp Hc Hv) as Hw.
  destruct view as [v|].
  - destruct Hw as (a1 & -> & Hok1 & Hs1 & Hst1 & _ & Hb1 & Hother). cbn [mbind option_bind].
    assert (Hp1 : permit_ok a1 p) by (by eapply permit_ok_state).
    assert (Ho1 : offsets_of a1 p o) by (by apply (offsets_of_same a)).
    rewrite <-Hst1 in Hcur. destruct (publish_publishes a1 p o Hok1 Hp1 Ho1 Hcur) as [Hpub Hbk]. rewrite Hst1 in Hcur.
    eexists (Ok _), _. split; [reflexivity|]. split; [done|]. split; [done|].
    assert (Hsb : forall loc, slot_bytes (publish p o a1) loc = slot_bytes a1 loc) by (intros loc; unfold slot_bytes; by rewrite Hbk).
    split; [|split; [by apply (checked_new_ok _ _ _ _ Hc)|split; [by rewrite Hsb|intros f sl Hf Hne; rewrite Hsb; by apply (Hother f)]]].
    destruct Hpub as (K1 & K2 & K3 & K4 & K5). rewrite Hst1 in *. split; [done|]. split; [by transitivity a1|]. split; [done|]. split; [exact K4|exact K5].
  - rewrite Hw. cbn [mbind option_bind]. destruct (drop_ok a p Hok) as (a' & -> & Hwd). cbn [mbind option_bind].
    eexists (Err _), a'. split; [reflexivity|]. by split.
Qed.

Module Witness.

Import ExpertVram.Witness.

Definition payload : list byte := replicate 1728 x05.

Lemma fills_agree_witness :
  exists c, checked_new g 1 payload = Ok c /\ fill_complete_overwrite_no_zero c payload = fill c payload.
Proof.
  eexists. split; [vm_compute; reflexivity|]. refine (proj1 (fills_agree g 1 payload _ payload g_ok _ _)); vm_compute; [discriminate|reflexivity].
Defined.

End Witness.
