(* ===== verification/ArenaSteps.v ===== *)
(** The arena under concurrent use ([src/rust-engine/src/backend/gpu_native.rs]): any
    number of permits held by different threads, each between its reservation and its
    publication, while routes are resolved and read on the device.

    A step is one locked section, one queue write, or one device read.  Staging takes
    two: the check of the reservation is made under the lock, the bytes are written
    outside it, so a write can land after its reservation is lost.  The system keeps a
    ghost [log] of the slots written, latest first, and the routes resolved so far,
    each of which may be executed at any later time. *)
From S2P Require Import Prelude Layout ExpertVram ExpertArena.
Local Open Scope N_scope.

(** Where the holder of a permit is. *)
Inductive Phase :=
| Reserved (p : GpuNativeQ4ExpertInstallPermit)
| Checked (w : Staged)
| Prepared (i : GpuNativeQ4ExpertPreparedInstall).

Definition permit_of (ph : Phase) : GpuNativeQ4ExpertInstallPermit :=
  match ph with Reserved p => p | Checked w => w_permit w | Prepared i => permit i end.
Definition is_prepared (ph : Phase) : bool := match ph with Prepared _ => true | _ => false end.

Record System := {
  arena : GpuNativeQ4ExpertArena;
  open : list Phase;
  log : list (GpuNativeQ4ExpertResidency * list byte);
  routes : list (N * GpuNativeQ4ExpertMappingEntry);
}.

(** The staging memory the queue hands out, if any, is as long as asked for. *)
Definition view_ok (a : GpuNativeQ4ExpertArena) (view : option (list byte)) : Prop :=
  forall v, view = Some v -> lenN v = slot_stride_bytes (arena_geometry a).

Inductive step (s : System) : System -> Prop :=
| step_acquire key r a' :
    acquire_with_unpublish key (arena s) = Some (r, a') ->
    step s {| arena := a'; open := match r with Ok (Install p) => Reserved p :: open s | _ => open s end;
              log := log s; routes := routes s |}
| step_check i p payload r a' :
    open s !! i = Some (Reserved p) -> stage_check p payload (arena s) = Some (r, a') ->
    step s {| arena := a'; open := match r with Ok w => <[i := Checked w]> (open s) | Err _ => delete i (open s) end;
              log := log s; routes := routes s |}
| step_write i w no_zero_fill view r a' :
    open s !! i = Some (Checked w) -> view_ok (arena s) view -> stage_write no_zero_fill w view (arena s) = Some (r, a') ->
    step s {| arena := a'; open := match r with Ok pr => <[i := Prepared pr]> (open s) | Err _ => delete i (open s) end;
              log := match r with Ok _ => (p_residency (w_permit w), c_payload (w_checked w)) :: log s | Err _ => log s end;
              routes := routes s |}
| step_commit i pr r a' :
    open s !! i = Some (Prepared pr) -> commit_with_mapping_writer pr (arena s) = Some (r, a') ->
    step s {| arena := a'; open := delete i (open s); log := log s; routes := routes s |}
| step_install i p payload view r a' :
    open s !! i = Some (Reserved p) -> view_ok (arena s) view -> install p payload view (arena s) = Some (r, a') ->
    step s {| arena := a'; open := delete i (open s); log := match r with Ok r => (r, payload) :: log s | Err _ => log s end;
              routes := routes s |}
| step_drop i ph a' :
    open s !! i = Some ph -> drop_permit (permit_of ph) (arena s) = Some a' ->
    step s {| arena := a'; open := delete i (open s); log := log s; routes := routes s |}
| step_retire key r a' :
    retire_with_unpublish key (arena s) = Some (r, a') ->
    step s {| arena := a'; open := open s; log := log s; routes := routes s |}
| step_resolve id e :
    resolve id (arena s) = Some e ->
    step s {| arena := arena s; open := open s; log := log s; routes := (id, e) :: routes s |}.

Definition steps : System -> System -> Prop := rtc step.

(** ** The invariant *)

(** What tells one write from another. *)
Definition ident (r : GpuNativeQ4ExpertResidency) : GpuNativeQ4ExpertLocation * N := (r_location r, r_epoch r).

(** The identities of the writes made and to be made. *)
Definition pending (phs : list Phase) : list (GpuNativeQ4ExpertLocation * N) :=
  (fun ph => ident (p_residency (permit_of ph))) <$> List.filter (fun ph => negb (is_prepared ph)) phs.
Definition written (l : list (GpuNativeQ4ExpertResidency * list byte)) : list (GpuNativeQ4ExpertLocation * N) :=
  (fun w => ident w.1) <$> l.

Definition phase_ok (a : GpuNativeQ4ExpertArena) (l : list (GpuNativeQ4ExpertResidency * list byte)) (ph : Phase) : Prop :=
  permit_ok a (permit_of ph) /\
  match ph with
  | Reserved _ => True
  | Checked w => offsets_of a (w_permit w) (w_offsets w) /\
      checked_new (arena_geometry a) (r_epoch (p_residency (w_permit w))) (c_payload (w_checked w)) = Ok (w_checked w)
  | Prepared i => offsets_of a (permit i) (prepared i) /\ exists payload, (p_residency (permit i), payload) ∈ l
  end.

(** A residency of this arena, at an epoch its slot has reached. *)
Definition of_arena (a : GpuNativeQ4ExpertArena) (r : GpuNativeQ4ExpertResidency) : Prop :=
  exists f sl, slots (state a) !! f = Some sl /\ r_location r = s_location sl /\ 1 <= r_epoch r <= last_epoch sl.

Definition written_ok (a : GpuNativeQ4ExpertArena) (w : GpuNativeQ4ExpertResidency * list byte) : Prop :=
  of_arena a w.1 /\ logical_expert_bytes (arena_geometry a) <= lenN w.2.

(** The content of a slot is its latest write, or it was never written. *)
Definition memory_ok (a : GpuNativeQ4ExpertArena) (l : list (GpuNativeQ4ExpertResidency * list byte)) (loc : GpuNativeQ4ExpertLocation) : Prop :=
  match List.find (fun w => bool_decide (r_location w.1 = loc)) l with
  | Some (r, payload) => slot_bytes a loc = Some (physical_bytes (arena_geometry a) (r_epoch r) payload)
  | None => exists bytes, slot_bytes a loc = Some bytes /\ le_val (take 4 bytes) = 0
  end.

Definition route_ok (l : list (GpuNativeQ4ExpertResidency * list byte)) (route : N * GpuNativeQ4ExpertMappingEntry) : Prop :=
  exists r payload, (r, payload) ∈ l /\ expert_id (r_key r) = route.1 /\ mapping_entry r = Ok route.2.

Record inv (s : System) : Prop := {
  inv_arena : arena_ok (arena s);
  inv_open : Forall (phase_ok (arena s) (log s)) (open s);
  inv_log : Forall (written_ok (arena s)) (log s);
  inv_once : NoDup (pending (open s) ++ written (log s));
  inv_memory f sl : slots (state (arena s)) !! f = Some sl -> memory_ok (arena s) (log s) (s_location sl);
  inv_resident f sl r : slots (state (arena s)) !! f = Some sl -> owner sl = Resident r -> exists payload, (r, payload) ∈ log s;
  inv_routes : Forall (route_ok (log s)) (routes s);
}.

(** Nothing is open and nothing resolved; every slot is free and was never written, or
    is resident at the epoch and with the bytes of its entry of the log. *)
Definition starts (s : System) : Prop := inv s /\ open s = [] /\ routes s = [].

(** ** Changing the arena *)

(** The arena moves on: same object, and epochs grow. *)
Definition moves (a a' : GpuNativeQ4ExpertArena) : Prop := same_arena a a' /\ advances (state a) (state a').

Lemma of_arena_moves a a' r : of_arena a r -> moves a a' -> of_arena a' r.
Proof.
  intros (f & sl & Hf & Hl & He) [_ Hadv]. destruct (Hadv f sl Hf) as (sl' & Hf' & Hl' & He'). exists f, sl'. split_and!; [done|congruence|lia|lia].
Qed.

Lemma same_geometry a a' : same_arena a a' -> arena_geometry a' = arena_geometry a.
Proof. intros (_ & _ & Hp). unfold arena_geometry. by rewrite Hp. Qed.

Lemma written_ok_moves a a' l : Forall (written_ok a) l -> moves a a' -> Forall (written_ok a') l.
Proof.
  intros Hl Hm. eapply Forall_impl; [exact Hl|]. intros w [H1 H2]. split; [by eapply of_arena_moves|].
  rewrite (same_geometry a a'); [done|by destruct Hm].
Qed.

Lemma phase_ok_moves a a' l l' phs :
  Forall (phase_ok a l) phs -> moves a a' -> (forall w, w ∈ l -> w ∈ l') -> Forall (phase_ok a' l') phs.
Proof.
  intros Hp [Hs Hadv] Hl. eapply Forall_impl; [exact Hp|]. intros ph [H1 H2]. split; [by eapply permit_ok_advances|].
  destruct ph as [p|w|i]; [done| |].
  - destruct H2 as [H2 H3]. split; [by eapply offsets_of_same|]. by rewrite (same_geometry a a').
  - destruct H2 as [H2 (payload & H3)]. split; [by eapply offsets_of_same|]. exists payload. by apply Hl.
Qed.

Lemma memory_same a a' l :
  same_arena a a' -> bank_memory a' = bank_memory a -> advances (state a) (state a') ->
  length (slots (state a')) = length (slots (state a)) ->
  (forall f sl, slots (state a) !! f = Some sl -> memory_ok a l (s_location sl)) ->
  forall f sl, slots (state a') !! f = Some sl -> memory_ok a' l (s_location sl).
Proof.
  intros Hs Hb Hadv Hlen Hm f sl Hf. destruct (lookup_lt_is_Some_2 (slots (state a)) f) as [sl0 Hf0].
  { rewrite <-Hlen. by eapply lookup_lt_Some. }
  destruct (Hadv f sl0 Hf0) as (sl' & Hf' & Hl & _). rewrite Hf in Hf'. injection Hf' as <-. rewrite Hl.
  specialize (Hm f sl0 Hf0). unfold memory_ok, slot_bytes in *. by rewrite (same_geometry a a' Hs), Hb.
Qed.

Lemma length_slots a a' : arena_ok a -> arena_ok a' -> same_arena a a' -> length (slots (state a')) = length (slots (state a)).
Proof.
  intros H H' (_ & _ & Hp). rewrite (ok_slots _ _ _ _ (ok_state a H)), (ok_slots _ _ _ _ (ok_state a' H')).
  unfold arena_layout. by rewrite Hp.
Qed.

(** ** Bookkeeping of the open permits *)

Definition one (ph : Phase) : list (GpuNativeQ4ExpertLocation * N) := if is_prepared ph then [] else [ident (p_residency (permit_of ph))].

Lemma pending_cons ph phs : pending (ph :: phs) = one ph ++ pending phs.
Proof. unfold pending, one. cbn. by destruct (is_prepared ph). Qed.
Lemma pending_app phs phs' : pending (phs ++ phs') = pending phs ++ pending phs'.
Proof. induction phs as [|ph phs IH]; [done|]. cbn [app]. by rewrite !pending_cons, IH, (assoc (++)). Qed.

Lemma pending_at phs i ph : phs !! i = Some ph -> pending phs ≡ₚ one ph ++ pending (delete i phs).
Proof.
  intros Hi. rewrite delete_take_drop, <-(take_drop_middle phs i ph Hi) at 1.
  rewrite !pending_app, pending_cons. by rewrite !(assoc (++)), (comm (++) (one ph)).
Qed.
Lemma pending_set phs i ph ph' : phs !! i = Some ph -> pending (<[i := ph']> phs) ≡ₚ one ph' ++ pending (delete i phs).
Proof.
  intros Hi. rewrite delete_take_drop, insert_take_drop by (by eapply lookup_lt_Some).
  rewrite !pending_app, pending_cons. by rewrite !(assoc (++)), (comm (++) (one ph')).
Qed.

Lemma NoDup_delete phs i ph l : phs !! i = Some ph -> NoDup (pending phs ++ l) -> NoDup (pending (delete i phs) ++ l).
Proof.
  intros Hi. rewrite (pending_at phs i ph Hi), <-(assoc (++)). intros H. by apply NoDup_app in H as (_ & _ & H).
Qed.

(** ** Preservation *)

(** A step that writes no bank. *)
Lemma inv_quiet s a' open' routes' :
  inv s -> arena_ok a' -> moves (arena s) a' -> bank_memory a' = bank_memory (arena s) ->
  (forall f sl r, slots (state a') !! f = Some sl -> owner sl = Resident r -> exists payload, (r, payload) ∈ log s) ->
  Forall (phase_ok a' (log s)) open' -> NoDup (pending open' ++ written (log s)) -> Forall (route_ok (log s)) routes' ->
  inv {| arena := a'; open := open'; log := log s; routes := routes' |}.
Proof.
  intros [I1 I2 I3 I4 I5 I6 I7] Hok Hm Hb Hr Hp Hn Hrt. split; [done|done|by eapply written_ok_moves|done| |done|done].
  destruct Hm as [Hs Hadv]. apply (memory_same (arena s) a'); try done. by apply length_slots.
Qed.

Lemma inv_withdraws s a' open' :
  inv s -> withdraws (arena s) a' -> Forall (phase_ok a' (log s)) open' -> NoDup (pending open' ++ written (log s)) ->
  inv {| arena := a'; open := open'; log := log s; routes := routes s |}.
Proof.
  intros Hi (Hok & Hs & Hb & Hadv & Hres) Hp Hn. apply inv_quiet; try done.
  - intros f sl r Hf Ho. destruct (Hres f sl r Hf Ho) as (sl0 & Hf0 & Ho0). by apply (inv_resident s Hi f sl0).
  - by apply inv_routes.
Qed.

Lemma inv_withdraws_delete s i ph a' :
  inv s -> open s !! i = Some ph -> withdraws (arena s) a' ->
  inv {| arena := a'; open := delete i (open s); log := log s; routes := routes s |}.
Proof.
  intros Hi Hp Hw. apply inv_withdraws; [done|done| |].
  - apply Forall_delete. destruct Hw as (_ & Hs & _ & Hadv & _). by eapply phase_ok_moves; [apply (inv_open s Hi)|split|].
  - eapply NoDup_delete; [done|apply (inv_once s Hi)].
Qed.

(** Every identity of a write, made or to come, is of a slot that has reached it. *)
Lemma ident_reached s x :
  inv s -> x ∈ pending (open s) ++ written (log s) ->
  exists f sl, slots (state (arena s)) !! f = Some sl /\ x.1 = s_location sl /\ x.2 <= last_epoch sl.
Proof.
  intros Hi [Hx|Hx]%elem_of_app.
  - unfold pending in Hx. apply list_elem_of_fmap in Hx as (ph & -> & Hph). apply list_elem_of_In, filter_In in Hph as [Hph _].
    apply list_elem_of_In in Hph. pose proof (proj1 (Forall_forall _ _) (inv_open s Hi) ph Hph) as ((_ & _ & sl & Hf & Hl & He) & _).
    exists (flat_slot (permit_of ph)), sl. cbn. split_and!; [done|done|lia].
  - apply list_elem_of_fmap in Hx as (w & -> & Hw).
    pose proof (proj1 (Forall_forall _ _) (inv_log s Hi) w Hw) as ((f & sl & Hf & Hl & He) & _). exists f, sl. cbn. split_and!; [done|done|lia].
Qed.

Lemma vacated_slots key s s1 f sl :
  vacated key s s1 -> slots s1 !! f = Some sl ->
  exists sl0, slots s !! f = Some sl0 /\ s_location sl0 = s_location sl /\ last_epoch sl0 = last_epoch sl.
Proof.
  unfold vacated. destruct (logical_slots s !! _) as [[f0|]|]; [|intros [-> _]; eauto..].
  intros (_ & Hs & _) Hf. rewrite Hs in Hf. cbn in Hf. rewrite list_lookup_alter in Hf. case_decide; [subst f0|by exists sl].
  destruct (slots s !! f) as [sl0|] eqn:Hf0; [|done]. cbn in Hf. injection Hf as <-. by exists sl0.
Qed.

Lemma granted_ok key s a' p :
  inv s -> arena_ok a' -> same_arena (arena s) a' -> acquire_outcome key (arena s) (Ok (Install p)) a' ->
  permit_ok a' p /\ ident (p_residency p) ∉ pending (open s) ++ written (log s).
Proof.
  intros Hi Hok Hs (Hlat & _ & s1 & Hvac & Hk & Hrk & sl & Hf & _ & Hmax & Hloc & Hep & _ & Hf' & _). split.
  - split; [congruence|]. split.
    + apply lookup_lt_Some in Hlat. rewrite (ok_latest_length _ _ _ _ (ok_state a' Hok)) in Hlat. rewrite Hk. lia.
    + exists (reserved (flat_slot p) sl key (last_epoch sl + 1) (install_ticket p)). cbn. split_and!; [done|done|lia|lia].
  - intros Hx. destruct (ident_reached s _ Hi Hx) as (f2 & sl2 & Hf2 & Hl2 & He2). cbn in Hl2, He2.
    destruct (vacated_slots key _ s1 _ sl Hvac Hf) as (sl0 & Hf0 & Hl0 & He0).
    assert (f2 = flat_slot p) as -> by (apply (slots_apart (arena s) _ _ sl2 sl0 (inv_arena s Hi) Hf2 Hf0); congruence).
    rewrite Hf0 in Hf2. injection Hf2 as <-. lia.
Qed.

Lemma inv_acquire s key r a' :
  inv s -> acquire_with_unpublish key (arena s) = Some (r, a') ->
  inv {| arena := a'; open := match r with Ok (Install p) => Reserved p :: open s | _ => open s end; log := log s; routes := routes s |}.
Proof.
  intros Hi Ha. destruct (acquire_ok key (arena s) (inv_arena s Hi)) as (r0 & a0 & Ha0 & Hok & Hs & Hb & Hadv & Hres & Hout).
  rewrite Ha in Ha0. injection Ha0 as <- <-.
  assert (Hw : withdraws (arena s) a') by (by split_and!).
  assert (Hp : Forall (phase_ok a' (log s)) (open s)) by (by eapply phase_ok_moves; [apply (inv_open s Hi)|split|]).
  destruct r as [[r|p| | |]|e]; try (apply inv_withdraws; [done|done|done|apply (inv_once s Hi)]).
  destruct (granted_ok key s a' p Hi Hok Hs Hout) as [Hpo Hfresh]. apply inv_withdraws; [done|done| |].
  - constructor; [by split|done].
  - rewrite pending_cons. cbn [one is_prepared permit_of]. cbn [app]. constructor; [done|apply (inv_once s Hi)].
Qed.

(** ** The writes *)

Lemma memory_log a a' l f sl r payload :
  arena_ok a -> slots (state a) !! f = Some sl -> r_location r = s_location sl ->
  same_arena a a' -> advances (state a) (state a') -> length (slots (state a')) = length (slots (state a)) ->
  slot_bytes a' (r_location r) = Some (physical_bytes (arena_geometry a) (r_epoch r) payload) ->
  (forall f' sl', slots (state a) !! f' = Some sl' -> f' <> f -> slot_bytes a' (s_location sl') = slot_bytes a (s_location sl')) ->
  (forall f' sl', slots (state a) !! f' = Some sl' -> memory_ok a l (s_location sl')) ->
  forall f' sl', slots (state a') !! f' = Some sl' -> memory_ok a' ((r, payload) :: l) (s_location sl').
Proof.
  intros Hok Hf Hr Hs Hadv Hlen Hnew Hold Hm f' sl' Hf'.
  destruct (lookup_lt_is_Some_2 (slots (state a)) f') as [sl0 Hf0]; [rewrite <-Hlen; by eapply lookup_lt_Some|].
  destruct (Hadv f' sl0 Hf0) as (sl1 & Hf1 & Hl & _). rewrite Hf' in Hf1. injection Hf1 as <-. rewrite Hl.
  unfold memory_ok. cbn [List.find fst]. rewrite (same_geometry a a' Hs). destruct (bool_decide_reflect (r_location r = s_location sl0)) as [Heq|Hne].
  - by rewrite <-Heq.
  - rewrite (Hold f' sl0 Hf0); [by apply (Hm f')|]. intros ->. rewrite Hf in Hf0. injection Hf0 as <-. done.
Qed.

Lemma checked_long g e payload c : checked_new g e payload = Ok c -> logical_expert_bytes g <= lenN payload.
Proof. intros H. by destruct (checked_new_ok _ _ _ _ H) as (_ & _ & ?). Qed.

Lemma in_cons_log (l : list (GpuNativeQ4ExpertResidency * list byte)) x w : w ∈ l -> w ∈ x :: l.
Proof. by right. Qed.

Lemma route_ok_cons l x rt : route_ok l rt -> route_ok (x :: l) rt.
Proof. intros (r & payload & Hin & H). exists r, payload. split; [by right|done]. Qed.

(** A write made under permit [p], which is then in phase [ph'] or gone. *)
Lemma inv_wrote s i ph a' open' payload :
  inv s -> open s !! i = Some ph -> is_prepared ph = false -> arena_ok a' -> moves (arena s) a' ->
  logical_expert_bytes (arena_geometry (arena s)) <= lenN payload ->
  slot_bytes a' (r_location (p_residency (permit_of ph))) =
    Some (physical_bytes (arena_geometry (arena s)) (r_epoch (p_residency (permit_of ph))) payload) ->
  (forall f sl, slots (state (arena s)) !! f = Some sl -> f <> flat_slot (permit_of ph) -> slot_bytes a' (s_location sl) = slot_bytes (arena s) (s_location sl)) ->
  (forall f sl r, slots (state a') !! f = Some sl -> owner sl = Resident r ->
     r = p_residency (permit_of ph) \/ exists sl0, slots (state (arena s)) !! f = Some sl0 /\ owner sl0 = Resident r) ->
  (open' = delete i (open s) \/ exists o, open' = <[i := Prepared {| permit := permit_of ph; prepared := o |}]> (open s) /\ offsets_of (arena s) (permit_of ph) o) ->
  inv {| arena := a'; open := open'; log := (p_residency (permit_of ph), payload) :: log s; routes := routes s |}.
Proof.
  intros Hi Hph Hun Hok Hm Hlen Hnew Hold Hres Hopen. set (p := permit_of ph) in *. pose proof Hm as [Hs Hadv].
  pose proof (proj1 (Forall_lookup _ _) (inv_open s Hi) i ph Hph) as [Hp _]. fold p in Hp. pose proof Hp as (Hk & Hid & sl & Hf & Hl & He).
  assert (Hall : Forall (phase_ok a' ((p_residency p, payload) :: log s)) (open s)).
  { eapply phase_ok_moves; [apply (inv_open s Hi)|done|]. intros w. apply in_cons_log. }
  assert (Hpend : pending open' ≡ₚ pending (delete i (open s))).
  { destruct Hopen as [->|(o & -> & _)]; [done|]. by rewrite (pending_set _ _ _ _ Hph). }
  split; cbn [arena open log routes].
  - done.
  - destruct Hopen as [->|(o & -> & Ho)]; [by apply Forall_delete|]. apply Forall_insert; [done|].
    split; cbn [permit_of permit prepared]; [by eapply permit_ok_advances|].
    split; [by eapply offsets_of_same|]. exists payload. left.
  - constructor; [|by eapply written_ok_moves; [apply (inv_log s Hi)|]]. split; cbn [fst snd]; [|by rewrite (same_geometry _ _ Hs)].
    eapply of_arena_moves; [|done]. by exists (flat_slot p), sl.
  - rewrite Hpend. pose proof (inv_once s Hi) as Hn. rewrite (pending_at _ _ _ Hph) in Hn. unfold one in Hn. rewrite Hun in Hn.
    cbn [written fmap list_fmap fst]. rewrite <-Permutation_middle. exact Hn.
  - eapply memory_log; [apply (inv_arena s Hi)|exact Hf|exact Hl|done|done|by apply length_slots; [apply inv_arena|..]|exact Hnew|exact Hold|].
    apply (inv_memory s Hi).
  - intros f' sl' r Hf' Ho'. destruct (Hres f' sl' r Hf' Ho') as [->|(sl0 & Hf0 & Ho0)]; [exists payload; left|].
    destruct (inv_resident s Hi f' sl0 r Hf0 Ho0) as [pl Hin]. exists pl. by right.
  - eapply Forall_impl; [apply (inv_routes s Hi)|]. intros rt. apply route_ok_cons.
Qed.

Lemma inv_write s i w nz view r a' :
  inv s -> open s !! i = Some (Checked w) -> view_ok (arena s) view -> stage_write nz w view (arena s) = Some (r, a') ->
  inv {| arena := a'; open := match r with Ok pr => <[i := Prepared pr]> (open s) | Err _ => delete i (open s) end;
         log := match r with Ok _ => (p_residency (w_permit w), c_payload (w_checked w)) :: log s | Err _ => log s end; routes := routes s |}.
Proof.
  intros Hi Hph Hv Hw. pose proof (proj1 (Forall_lookup _ _) (inv_open s Hi) i _ Hph) as (Hp & Hof & Hck). cbn [permit_of] in Hp.
  pose proof (inv_arena s Hi) as Hok. unfold stage_write in Hw. rewrite (proj1 (proj2 Hof)) in Hw.
  pose proof (physical_write_ok (arena s) (w_permit w) nz _ _ view Hok Hp Hck Hv) as Hpw. destruct view as [v|].
  - destruct Hpw as (a1 & Hpw & Hok1 & Hs1 & Hst1 & _ & Hb1 & Hother). rewrite Hpw in Hw. cbn in Hw. injection Hw as <- <-.
    apply (inv_wrote s i (Checked w)); try done; [|by apply (checked_long _ _ _ _ Hck)| |].
    + split; [done|by apply same_state_advances].
    + intros f sl r Hf Ho. right. rewrite Hst1 in Hf. by exists sl.
    + right. exists (w_offsets w). by split.
  - rewrite Hpw in Hw. cbn in Hw. destruct (drop_ok (arena s) (w_permit w) Hok) as (a2 & Hd & Hwd). rewrite Hd in Hw. cbn in Hw.
    injection Hw as <- <-. by apply (inv_withdraws_delete s i (Checked w)).
Qed.

(** A route resolved is the published entry of a resident. *)
Lemma resolved_resident a id e :
  arena_ok a -> resolve id a = Some e ->
  exists f sl r, slots (state a) !! f = Some sl /\ owner sl = Resident r /\ expert_id (r_key r) = id /\ mapping_entry r = Ok e.
Proof.
  intros Hok. unfold resolve. destruct (N.leb_spec (num_experts (arena_geometry a)) id) as [|Hid]; [done|].
  rewrite (ok_mapping a Hok), list_lookup_fmap, lookup_seq_lt by lia. cbn [fmap option_fmap option_map mbind option_bind Nat.add].
  unfold published. destruct (logical_slots (state a) !! N.to_nat id) as [[f|]|] eqn:Hl; cbn [mjoin option_join]; [|done|done].
  destruct (ok_logical _ _ _ _ (ok_state a Hok) _ f Hl) as (sl & k & Hf & Hk & Hke). rewrite Hf. cbn [fmap option_fmap option_map].
  destruct (owner sl) as [|k' e' t|r] eqn:Ho; cbn in Hk; [done|by cbn|]. injection Hk as <-.
  destruct (mapping_entry r) as [e0|] eqn:He; [|by cbn]. intros H. exists f, sl, r. split_and!; [done|done|lia|].
  repeat case_match; simplify_eq. done.
Qed.

Lemma inv_commit s i pr r a' :
  inv s -> open s !! i = Some (Prepared pr) -> commit_with_mapping_writer pr (arena s) = Some (r, a') ->
  inv {| arena := a'; open := delete i (open s); log := log s; routes := routes s |}.
Proof.
  intros Hi Hph Hc. pose proof (proj1 (Forall_lookup _ _) (inv_open s Hi) i _ Hph) as (Hp & Hof & payload & Hin). cbn [permit_of] in Hp.
  destruct (commit_ok (arena s) pr (inv_arena s Hi) Hp Hof) as (r0 & a0 & Hc0 & Hb & Hout). rewrite Hc in Hc0. injection Hc0 as <- <-.
  destruct r as [r|e]; [|by apply (inv_withdraws_delete s i (Prepared pr)); [| |apply Hout]].
  destruct Hout as (-> & _ & Hok & Hs & Hadv & _ & Hres). apply inv_quiet; try done.
  - intros f sl r Hf Ho. destruct (Hres f sl r Hf Ho) as [[_ ->]|(sl0 & Hf0 & Ho0)]; [by exists payload|by apply (inv_resident s Hi f sl0)].
  - apply Forall_delete. by eapply phase_ok_moves; [apply (inv_open s Hi)|split|].
  - eapply NoDup_delete; [done|apply (inv_once s Hi)].
  - by apply inv_routes.
Qed.

Lemma inv_install s i p payload view r a' :
  inv s -> open s !! i = Some (Reserved p) -> view_ok (arena s) view -> install p payload view (arena s) = Some (r, a') ->
  inv {| arena := a'; open := delete i (open s); log := match r with Ok r => (r, payload) :: log s | Err _ => log s end; routes := routes s |}.
Proof.
  intros Hi Hph Hv Hins. pose proof (proj1 (Forall_lookup _ _) (inv_open s Hi) i _ Hph) as (Hp & _). cbn [permit_of] in Hp.
  destruct (install_ok (arena s) p payload view (inv_arena s Hi) Hp Hv) as (r0 & a0 & Hins0 & Hout). rewrite Hins in Hins0. injection Hins0 as <- <-.
  destruct r as [r|e]; [|by apply (inv_withdraws_delete s i (Reserved p)); [| |apply Hout]].
  destruct Hout as (-> & _ & (Hok & Hs & Hadv & _ & Hres) & Hlen & Hnew & Hold).
  apply (inv_wrote s i (Reserved p)); try done; [|by left].
  intros f sl r Hf Ho. destruct (Hres f sl r Hf Ho) as [[_ ->]|Hr]; [by left|by right].
Qed.

Lemma inv_step s s' : inv s -> step s s' -> inv s'.
Proof.
  intros Hi Hstep. destruct Hstep.
  - by apply (inv_acquire s key).
  - pose proof (proj1 (Forall_lookup _ _) (inv_open s Hi) i _ H) as (Hp & _). cbn [permit_of] in Hp.
    destruct (stage_check_ok (arena s) p payload (inv_arena s Hi) Hp) as (r0 & a0 & Hc & Hw & Hout). rewrite H0 in Hc. injection Hc as <- <-.
    destruct r as [w|e]; [|by apply (inv_withdraws_delete s i (Reserved p))].
    destruct Hout as (-> & Hwp & _ & Hck & Hof). apply inv_withdraws; [done|done| |].
    + apply Forall_insert; [apply (inv_open s Hi)|]. split; cbn [permit_of]; rewrite Hwp; [done|]. split; [done|].
      destruct (checked_new_ok _ _ _ _ Hck) as (Hc & _). by rewrite Hc in Hck |- *.
    + rewrite (pending_set _ _ _ (Checked w) H), <-(assoc (++)). cbn [one is_prepared permit_of]. rewrite Hwp, (assoc (++)).
      pose proof (inv_once s Hi) as Hn. by rewrite (pending_at _ _ _ H) in Hn.
  - by eapply inv_write.
  - by eapply inv_commit.
  - by eapply inv_install.
  - destruct (drop_ok (arena s) (permit_of ph) (inv_arena s Hi)) as (a0 & Hd & Hw). rewrite H0 in Hd. injection Hd as <-.
    by apply (inv_withdraws_delete s i ph).
  - destruct (retire_ok key (arena s) (inv_arena s Hi)) as (r0 & a0 & Hr & Hw & _). rewrite H in Hr. injection Hr as <- <-.
    apply inv_withdraws; [done|done| |apply (inv_once s Hi)]. destruct Hw as (_ & Hs & _ & Hadv & _).
    by eapply phase_ok_moves; [apply (inv_open s Hi)|split|].
  - destruct Hi as [I1 I2 I3 I4 I5 I6 I7] eqn:Hi'. split; try done. constructor; [|done]. cbn [fst snd].
    destruct (resolved_resident _ _ _ I1 H) as (f & sl & r & Hf & Ho & Hid & He). destruct (I6 f sl r Hf Ho) as [payload Hin].
    by exists r, payload.
Qed.

Lemma inv_steps s s' : inv s -> steps s s' -> inv s'.
Proof. intros Hi Hs. induction Hs as [|s1 s2 s3 H12 _ IH]; [done|]. apply IH. by eapply inv_step. Qed.

(** ** What the device reads *)

Lemma entry_place a r e :
  arena_ok a -> of_arena a r -> mapping_entry r = Ok e ->
  m_epoch e = r_epoch r /\ m_location e <> GPU_NATIVE_EXPERT_UNMAPPED /\
  {| bank := N.shiftr (m_location e) GPU_NATIVE_EXPERT_LOCATION_BANK_SHIFT;
     slot := N.land (m_location e) GPU_NATIVE_EXPERT_LOCATION_SLOT_MASK |} = r_location r.
Proof.
  intros Hok (f & sl & Hf & Hl & He) Hm. destruct (mapping_entry_of a f sl r Hok Hf Hl ltac:(lia)) as (e' & Hm' & Hep & Hu).
  rewrite Hm in Hm'. injection Hm' as <-. split; [done|]. unfold unpack in Hu.
  destruct (N.eqb_spec (m_location e) GPU_NATIVE_EXPERT_UNMAPPED); [done|]. injection Hu as <-. done.
Qed.

Lemma written_unique s r r' payload payload' :
  inv s -> (r, payload) ∈ log s -> (r', payload') ∈ log s -> ident r = ident r' -> r' = r /\ payload' = payload.
Proof.
  intros Hi H1 H2 Hid. pose proof (inv_once s Hi) as Hn. apply NoDup_app in Hn as (_ & _ & Hn).
  apply list_elem_of_lookup in H1 as [i Hi1]. apply list_elem_of_lookup in H2 as [j Hj1].
  assert (Hw : forall k w, log s !! k = Some w -> written (log s) !! k = Some (ident w.1))
    by (intros k w Hk; unfold written; by rewrite list_lookup_fmap, Hk).
  pose proof (Hw i _ Hi1) as Hi2. pose proof (Hw j _ Hj1) as Hj2. cbn in Hi2, Hj2. rewrite <-Hid in Hj2.
  assert (i = j) as -> by (eapply NoDup_lookup; eauto). rewrite Hi1 in Hj1. by injection Hj1 as -> ->.
Qed.

(** The slot of a residency of the log holds the bytes of some write to it. *)
Lemma slot_content s r payload :
  inv s -> (r, payload) ∈ log s ->
  exists r' payload', (r', payload') ∈ log s /\ r_location r' = r_location r /\ 1 <= r_epoch r' <= u32_max /\
    slot_bytes (arena s) (r_location r) = Some (physical_bytes (arena_geometry (arena s)) (r_epoch r') payload').
Proof.
  intros Hi Hin. pose proof (proj1 (Forall_forall _ _) (inv_log s Hi) _ Hin) as ((f & sl & Hf & Hl & He) & _). cbn in Hl.
  pose proof (inv_memory s Hi f sl Hf) as Hm. unfold memory_ok in Hm. rewrite <-Hl in Hm.
  destruct (List.find _ (log s)) as [[r' payload']|] eqn:Hfind.
  - apply find_some in Hfind as [Hin' Hloc]. apply list_elem_of_In in Hin'. apply bool_decide_eq_true in Hloc. cbn in Hloc.
    exists r', payload'. pose proof (proj1 (Forall_forall _ _) (inv_log s Hi) _ Hin') as ((f' & sl' & Hf' & Hl' & He') & _).
    pose proof (proj2 (ok_location _ _ _ _ (ok_state _ (inv_arena s Hi)) f' sl' Hf')). cbn in He'. split_and!; [done|done|lia|lia|done].
  - exfalso. apply list_elem_of_In in Hin. pose proof (find_none _ _ Hfind _ Hin) as Hn. cbn in Hn. by rewrite bool_decide_eq_true_2 in Hn.
Qed.

Lemma read_physical g e payload :
  e <= u32_max -> le_val (take 4 (physical_bytes g e payload)) = e /\
  take (N.to_nat (logical_expert_bytes g)) (drop 4 (physical_bytes g e payload)) = take (N.to_nat (logical_expert_bytes g)) payload.
Proof.
  intros He. unfold physical_bytes. rewrite take_app_length' by (by rewrite length_le_bytes). rewrite drop_app_length' by (by rewrite length_le_bytes).
  split; [apply le_val_le_bytes_small; change (256 ^ N.of_nat 4) with 4294967296; unfold u32_max in He; lia|].
  rewrite take_take. by rewrite Nat.min_id.
Qed.

Lemma executed s id e bytes :
  inv s -> (id, e) ∈ routes s -> execute e (arena s) = Some bytes ->
  exists r payload, (r, payload) ∈ log s /\ expert_id (r_key r) = id /\ mapping_entry r = Ok e /\
    bytes = take (N.to_nat (logical_expert_bytes (arena_geometry (arena s)))) payload /\
    forall r' payload', (r', payload') ∈ log s -> mapping_entry r' = Ok e -> r' = r /\ payload' = payload.
Proof.
  intros Hi Hrt Hex. pose proof (proj1 (Forall_forall _ _) (inv_routes s Hi) _ Hrt) as (r & payload & Hin & Hid & Hm). cbn in Hid, Hm.
  assert (Hof : forall r' payload', (r', payload') ∈ log s -> of_arena (arena s) r').
  { intros r' pl' Hin'. by destruct (proj1 (Forall_forall _ _) (inv_log s Hi) _ Hin') as [H _]. }
  destruct (entry_place _ _ _ (inv_arena s Hi) (Hof _ _ Hin) Hm) as (Hep & Hun & Hloc).
  unfold execute in Hex. destruct (N.eqb_spec (m_location e) GPU_NATIVE_EXPERT_UNMAPPED); [done|]. cbv zeta in Hex. rewrite Hloc in Hex.
  destruct (slot_content s r payload Hi Hin) as (r' & payload' & Hin' & Hl' & He' & Hb). rewrite Hb in Hex. cbn [mbind option_bind] in Hex.
  destruct (read_physical (arena_geometry (arena s)) (r_epoch r') payload' ltac:(lia)) as [Hre Hrp]. rewrite Hre, Hrp in Hex.
  destruct ((r_epoch r' =? 0) || negb (r_epoch r' =? m_epoch e)) eqn:Hc; [done|]. injection Hex as <-.
  apply orb_false_elim in Hc as [_ Hc]. apply negb_false_iff, N.eqb_eq in Hc.
  destruct (written_unique s r r' payload payload' Hi Hin Hin') as [-> ->]; [unfold ident; by rewrite Hl', Hc, Hep|].
  exists r, payload. split_and!; try done. intros r2 payload2 Hin2 Hm2.
  destruct (entry_place _ _ _ (inv_arena s Hi) (Hof _ _ Hin2) Hm2) as (Hep2 & _ & Hloc2).
  apply (written_unique s r r2 payload payload2 Hi Hin Hin2). unfold ident. by rewrite <-Hloc, <-Hloc2, <-Hep, <-Hep2.
Qed.

(** C37. Whatever the interleaving, a route that passes the device's epoch check reads
    the bytes staged for the expert it was resolved for: one write of the log, the
    only one its entry stands for.  In every other case (the slot reused, retired and
    overwritten, or hit by a stale write) the check fails and nothing is read. *)
Theorem routes_read_their_expert s0 s id e bytes :
  starts s0 -> steps s0 s -> (id, e) ∈ routes s -> execute e (arena s) = Some bytes ->
  exists r payload, (r, payload) ∈ log s /\ expert_id (r_key r) = id /\ mapping_entry r = Ok e /\
    bytes = take (N.to_nat (logical_expert_bytes (arena_geometry (arena s)))) payload /\
    forall r' payload', (r', payload') ∈ log s -> mapping_entry r' = Ok e -> r' = r /\ payload' = payload.
Proof. intros [Hi _] Hs. apply executed. by apply (inv_steps s0). Qed.

(** ** Publication *)

Lemma resolve_published a f sl r :
  arena_ok a -> slots (state a) !! f = Some sl -> owner sl = Resident r ->
  exists e, mapping_entry r = Ok e /\ resolve (expert_id (r_key r)) a = Some e.
Proof.
  intros Hok Hf Ho. destruct (mapping_entry_ok a f sl r Hok Hf Ho) as (e & Hm & Hmem). exists e. split; [done|].
  pose proof (ok_owner _ _ _ _ (ok_state a Hok) f sl Hf) as How. unfold owner_ok in How. rewrite Ho in How.
  destruct How as (Hl & Hep & He & _ & _ & Hlog & _). apply lookup_lt_Some in Hlog. rewrite (ok_logical_length _ _ _ _ (ok_state a Hok)) in Hlog.
  unfold resolve. destruct (N.leb_spec (num_experts (arena_geometry a)) (expert_id (r_key r))); [lia|].
  rewrite Hmem. cbn [mbind option_bind].
  assert (Hof : of_arena a r) by (exists f, sl; split_and!; [done|done|lia|lia]).
  destruct (entry_place a r e Hok Hof Hm) as (Hee & Hun & Hloc).
  destruct (N.eqb_spec (m_location e) GPU_NATIVE_EXPERT_UNMAPPED); [done|]. destruct (N.eqb_spec (m_epoch e) 0); [lia|]. cbn [orb].
  destruct (slot_place a f sl Hok Hf) as (b & p & m & _ & Hb & Hbk & Hs & _ & Hp & _). rewrite <-Hl in *.
  pose proof (f_equal bank Hloc) as Hlb. pose proof (f_equal slot Hloc) as Hls. cbn in Hlb, Hls. cbv zeta. rewrite Hlb, Hls.
  assert (Hb4 : bank (r_location r) < 4).
  { unfold pack in Hp. change MAX_GPU_NATIVE_EXPERT_BANKS with 4 in Hp. destruct (N.leb_spec 4 (bank (r_location r))); [done|lia]. }
  assert (Hcap : bank_capacity a (bank (r_location r)) = b_slot_capacity b).
  { unfold bank_capacity. replace (if bank (r_location r) <? 3 then bank (r_location r) else 3) with (bank (r_location r)); [by rewrite Hbk|].
    destruct (N.ltb_spec (bank (r_location r)) 3); lia. }
  rewrite Hcap. destruct (N.leb_spec (active_banks (arena_layout a)) (bank (r_location r))); [lia|].
  by destruct (N.leb_spec (b_slot_capacity b) (slot (r_location r))); [lia|].
Qed.

(** Installing makes the expert readable: when an install succeeds, at any moment
    of any interleaving, the expert resolves at once and the device reads exactly the
    payload given, whatever staged writes are still to land. *)
Theorem installed_expert_is_read s0 s i p payload view r a' :
  starts s0 -> steps s0 s -> open s !! i = Some (Reserved p) -> view_ok (arena s) view ->
  install p payload view (arena s) = Some (Ok r, a') ->
  r_key r = p_key p /\
  exists e, resolve (expert_id (p_key p)) a' = Some e /\
            execute e a' = Some (take (N.to_nat (logical_expert_bytes (arena_geometry a'))) payload).
Proof.
  intros [Hi0 _] Hs Hp Hv Hins. pose proof (inv_steps s0 s Hi0 Hs) as Hi.
  pose proof (proj1 (Forall_lookup _ _) (inv_open s Hi) i _ Hp) as (Hpo & _). cbn [permit_of] in Hpo.
  destruct (install_ok (arena s) p payload view (inv_arena s Hi) Hpo Hv) as (r0 & a0 & Hins0 & Hout). rewrite Hins in Hins0. injection Hins0 as <- <-.
  destruct Hout as (-> & Hcur & (Hok & Hsame & Hadv & ((e & Hm & Hmem) & Hres) & _) & _ & Hb & _). split; [apply Hpo|].
  assert (Hof : of_arena a' (p_residency p)).
  { eapply of_arena_moves; [|split; [exact Hsame|exact Hadv]]. destruct Hpo as (_ & _ & sl & Hf & Hl & He). by exists (flat_slot p), sl. }
  destruct Hres as (sl & Hf & Ho). destruct (resolve_published a' _ sl _ Hok Hf Ho) as (e' & Hm' & Hr). rewrite Hm in Hm'. injection Hm' as <-.
  exists e. split; [by rewrite <-(proj1 Hpo)|]. destruct (entry_place a' _ e Hok Hof Hm) as (Hep & Hun & Hloc).
  unfold execute. destruct (N.eqb_spec (m_location e) GPU_NATIVE_EXPERT_UNMAPPED); [done|]. cbv zeta. rewrite Hloc, Hb. cbn [mbind option_bind].
  destruct Hof as (f' & sl' & Hf' & _ & He'). pose proof (proj2 (ok_location _ _ _ _ (ok_state a' Hok) f' sl' Hf')).
  rewrite <-(same_geometry _ _ Hsame). destruct (read_physical (arena_geometry a') (r_epoch (p_residency p)) payload ltac:(lia)) as [-> ->].
  rewrite Hep, N.eqb_refl. destruct (N.eqb_spec (r_epoch (p_residency p)) 0); [lia|done].
Qed.

(** The arena's own test of a residency is exact: it holds of the residencies
    that own their slot, in this context, and of no other; and an expert whose
    residency passes it resolves, to the entry of that residency. *)
Theorem exact_residency_iff a context r :
  arena_ok a ->
  (contains_exact_residency context r a = true <->
     context_id a = context /\ exists f sl, slots (state a) !! f = Some sl /\ owner sl = Resident r) /\
  (contains_exact_residency context r a = true ->
     exists e, mapping_entry r = Ok e /\ resolve (expert_id (r_key r)) a = Some e).
Proof.
  intros Hok.
  assert (Hiff : contains_exact_residency context r a = true <->
    context_id a = context /\ exists f sl, slots (state a) !! f = Some sl /\ owner sl = Resident r).
  { unfold contains_exact_residency. split.
    - destruct (N.eqb_spec (context_id a) context); destruct (N.eqb_spec (key_layer (r_key r)) (arena_layer a)); cbn [negb orb]; try done.
      destruct (mjoin (logical_slots (state a) !! _)) as [f|]; [|done]. intros [_ H]%andb_true_iff.
      destruct (slots (state a) !! f) as [sl|] eqn:Hf; [|done]. apply andb_true_iff in H as [_ H]. apply bool_decide_eq_true in H.
      split; [done|]. by exists f, sl.
    - intros (Hc & f & sl & Hf & Ho). pose proof (ok_owner _ _ _ _ (ok_state a Hok) f sl Hf) as How. unfold owner_ok in How. rewrite Ho in How.
      destruct How as (Hl & He & _ & Hk & _ & Hlog & Hlat). rewrite Hc, Hk, !N.eqb_refl. cbn [negb orb].
      rewrite Hlog, Hlat. cbn [mjoin option_join]. rewrite Hf, bool_decide_eq_true_2 by done.
      rewrite bool_decide_eq_true_2 by done. by rewrite He, N.eqb_refl, bool_decide_eq_true_2. }
  split; [exact Hiff|]. intros (_ & f & sl & Hf & Ho)%Hiff. by apply (resolve_published a f sl).
Qed.

(** ** Never stuck *)

Lemma step_same s s' : inv s -> step s s' -> same_arena (arena s) (arena s').
Proof.
  intros Hi Hstep. pose proof (inv_arena s Hi) as Hok. destruct Hstep; cbn [arena].
  - destruct (acquire_ok key _ Hok) as (r0 & a0 & Ha & _ & Hs & _). rewrite H in Ha. by injection Ha as <- <-.
  - pose proof (proj1 (Forall_lookup _ _) (inv_open s Hi) i _ H) as (Hp & _).
    destruct (stage_check_ok _ p payload Hok Hp) as (r0 & a0 & Ha & (_ & Hs & _) & _). rewrite H0 in Ha. by injection Ha as <- <-.
  - pose proof (proj1 (Forall_lookup _ _) (inv_open s Hi) i _ H) as (Hp & Hof & Hck). cbn [permit_of] in Hp.
    unfold stage_write in H1. rewrite (proj1 (proj2 Hof)) in H1.
    pose proof (physical_write_ok _ (w_permit w) no_zero_fill _ _ view Hok Hp Hck H0) as Hpw. destruct view as [v|].
    + destruct Hpw as (a1 & Hpw & _ & Hs1 & _). rewrite Hpw in H1. cbn in H1. by injection H1 as <- <-.
    + rewrite Hpw in H1. cbn in H1. destruct (drop_ok _ (w_permit w) Hok) as (a2 & Hd & (_ & Hs & _)). rewrite Hd in H1. cbn in H1. by injection H1 as <- <-.
  - pose proof (proj1 (Forall_lookup _ _) (inv_open s Hi) i _ H) as (Hp & Hof & _). cbn [permit_of] in Hp.
    destruct (commit_ok _ pr Hok Hp Hof) as (r0 & a0 & Hc & _ & Hout). rewrite H0 in Hc. injection Hc as <- <-.
    destruct r; [by destruct Hout as (_ & _ & _ & Hs & _)|by destruct Hout as (_ & _ & _ & Hs & _)].
  - pose proof (proj1 (Forall_lookup _ _) (inv_open s Hi) i _ H) as (Hp & _). cbn [permit_of] in Hp.
    destruct (install_ok _ p payload view Hok Hp H0) as (r0 & a0 & Hc & Hout). rewrite H1 in Hc. injection Hc as <- <-.
    destruct r; [by destruct Hout as (_ & _ & (_ & Hs & _) & _)|by destruct Hout as ((_ & Hs & _) & _)].
  - destruct (drop_ok _ (permit_of ph) Hok) as (a0 & Hd & (_ & Hs & _)). rewrite H0 in Hd. by injection Hd as <-.
  - destruct (retire_ok key _ Hok) as (r0 & a0 & Hr & (_ & Hs & _) & _). rewrite H in Hr. by injection Hr as <- <-.
  - done.
Qed.

Lemma steps_same s s' : inv s -> steps s s' -> same_arena (arena s) (arena s').
Proof.
  intros Hi Hs. induction Hs as [|s1 s2 s3 H12 _ IH]; [done|]. transitivity (arena s2); [by apply step_same|].
  apply IH. by eapply inv_step.
Qed.

(** No operation panics in any interleaving, and a caller never sees the error
    that a slot table and its owners disagree: reserving and retiring never lose a
    reservation, and an open permit loses its own only when it is no longer current. *)
Theorem arena_never_panics s0 s :
  starts s0 -> steps s0 s ->
  (forall key, exists r a', acquire_with_unpublish key (arena s) = Some (r, a') /\ r <> Err ExpertInstallReservationLost) /\
  (forall key, exists r a', retire_with_unpublish key (arena s) = Some (r, a') /\ r <> Err ExpertInstallReservationLost) /\
  forall i ph, open s !! i = Some ph ->
    (exists a', drop_permit (permit_of ph) (arena s) = Some a') /\
    match ph with
    | Reserved p => forall payload view, view_ok (arena s) view ->
        exists rc ac ri ai, stage_check p payload (arena s) = Some (rc, ac) /\ install p payload view (arena s) = Some (ri, ai) /\
          (rc = Err ExpertInstallReservationLost -> reservation_current p (state (arena s)) = false) /\
          (ri = Err ExpertInstallReservationLost -> reservation_current p (state (arena s)) = false)
    | Checked w => forall nz view, view_ok (arena s) view -> exists r a', stage_write nz w view (arena s) = Some (r, a') /\
        (r = Err ExpertDirectStagingUnavailable \/ exists pr, r = Ok pr)
    | Prepared pr => exists r a', commit_with_mapping_writer pr (arena s) = Some (r, a') /\
        is_ok r = reservation_current (permit pr) (state (arena s))
    end.
Proof.
  intros [Hi0 _] Hs. pose proof (inv_steps s0 s Hi0 Hs) as Hi. pose proof (inv_arena s Hi) as Hok. split_and!.
  - intros key. destruct (acquire_ok key _ Hok) as (r & a' & H & _ & _ & _ & _ & _ & Hout). exists r, a'. split; [done|]. intros ->.
    by destruct Hout as (_ & _ & s1 & _ & Hout).
  - intros key. destruct (retire_ok key _ Hok) as (r & a' & H & _ & Hout). exists r, a'. split; [done|]. by intros ->.
  - intros i ph Hph. pose proof (proj1 (Forall_lookup _ _) (inv_open s Hi) i _ Hph) as (Hp & Hph').
    split; [destruct (drop_ok _ (permit_of ph) Hok) as (a' & H & _); by exists a'|]. destruct ph as [p|w|pr]; cbn [permit_of] in Hp.
    + intros payload view Hv. destruct (stage_check_ok _ p payload Hok Hp) as (rc & ac & Hc & _ & Houtc).
      destruct (install_ok _ p payload view Hok Hp Hv) as (ri & ai & Hc' & Houti). exists rc, ac, ri, ai.
      split_and!; [done|done|by intros ->|intros ->; apply Houti].
    + intros nz view Hv. destruct Hph' as [Hof Hck]. unfold stage_write. rewrite (proj1 (proj2 Hof)).
      pose proof (physical_write_ok _ (w_permit w) nz _ _ view Hok Hp Hck Hv) as Hpw. destruct view as [v|].
      * destruct Hpw as (a1 & -> & _). cbn. eexists _, _. split; [done|]. right. by eexists.
      * rewrite Hpw. cbn. destruct (drop_ok _ (w_permit w) Hok) as (a2 & -> & _). cbn. eexists _, _. split; [done|]. by left.
    + destruct Hph' as [Hof _]. destruct (commit_ok _ pr Hok Hp Hof) as (r & a' & Hc & _ & Hout). exists r, a'. split; [done|].
      destruct r; [by destruct Hout as (_ & -> & _)|by destruct Hout as (_ & -> & _)].
Qed.

(** ** The arena stays valid *)

Lemma slots_partition ss :
  (length (List.filter is_resident ss) + length (List.filter is_installing ss) <= length ss)%nat.
Proof.
  induction ss as [|sl ss IH]; [done|]. cbn [List.filter]. unfold is_resident at 1, is_installing at 1. destruct (owner sl); cbn; lia.
Qed.

Lemma snapshot_sums a :
  arena_ok a ->
  (used ← checked_add usize_max (resident_slots (residency_snapshot a)) (installing_slots (residency_snapshot a));
   checked_add usize_max used (free_slots (residency_snapshot a))) = Some (plan_slot_capacity (plan a)).
Proof.
  intros Hok. pose proof (slots_partition (slots (state a))) as Hp. pose proof (ok_slots _ _ _ _ (ok_state a Hok)) as Hl.
  destruct (ok_layout a Hok) as (l & c & Hg & Hlay). apply (layout_ok_iff _ l Hg) in Hlay as [Hc Hlay].
  destruct (bank_bound _ l Hg) as (_ & _ & HM). change (2 ^ 30) with 1073741824 in HM. unfold feasible in Hc.
  assert (Hcap : slot_capacity (arena_layout a) = c) by by rewrite Hlay.
  unfold residency_snapshot, sat_sub, lenN. cbn [resident_slots installing_slots free_slots].
  set (x := length (List.filter is_resident _)) in *. set (y := length (List.filter is_installing _)) in *.
  rewrite (proj2 (checked_add_Some usize_max (N.of_nat x) (N.of_nat y) (N.of_nat x + N.of_nat y))) by (unfold usize_max, u64_max; split; [done|lia]).
  cbn [mbind option_bind]. apply checked_add_Some. change (plan_slot_capacity (plan a)) with (slot_capacity (arena_layout a)).
  unfold usize_max, u64_max. split; lia.
Qed.

Lemma validate_same context l a a' :
  arena_ok a -> arena_ok a' -> same_arena a a' -> validate_q4_expert_arena context l a' = validate_q4_expert_arena context l a.
Proof.
  intros H H' Hs. pose proof (snapshot_sums a H) as Hsum. pose proof (snapshot_sums a' H') as Hsum'.
  destruct Hs as (Hc & _ & Hp). unfold validate_q4_expert_arena. rewrite Hc. destruct (negb _); [done|]. unfold arena_geometry, arena_layout.
  rewrite Hp in *. destruct (geometry_try_new _ _ _ _) as [g|e]; [|done]. destruct (plan_try_new g _ l) as [[ex|e]|]; [|done|done].
  cbn [mbind option_bind result_bind]. cbv zeta. rewrite Hsum, Hsum'. done.
Qed.

(** The validation every operation starts with cannot begin to fail: an arena
    that passes it when it is set up passes it after any interleaving of operations. *)
Theorem arena_stays_valid s0 s context l :
  starts s0 -> steps s0 s -> validate_q4_expert_arena context l (arena s) = validate_q4_expert_arena context l (arena s0).
Proof.
  intros [Hi _] Hs. apply validate_same; [by apply inv_arena|by apply inv_arena, (inv_steps s0)|by apply steps_same].
Qed.

(** ** Executable runs *)

Inductive Operation :=
| OpAcquire (key : GpuNativeQ4ExpertKey)
| OpCheck (i : nat) (payload : list byte)
| OpWrite (i : nat) (no_zero_fill : bool) (view : option (list byte))
| OpCommit (i : nat)
| OpInstall (i : nat) (payload : list byte) (view : option (list byte))
| OpDrop (i : nat)
| OpRetire (key : GpuNativeQ4ExpertKey)
| OpResolve (id : N).

Definition viewb (a : GpuNativeQ4ExpertArena) (view : option (list byte)) : bool :=
  match view with Some v => lenN v =? slot_stride_bytes (arena_geometry a) | None => true end.

(** One step, or nothing when the operation does not apply. *)
Definition run1 (o : Operation) (s : System) : System :=
  let a := arena s in
  match o with
  | OpAcquire key =>
      match acquire_with_unpublish key a with
      | Some (r, a') => {| arena := a'; open := match r with Ok (Install p) => Reserved p :: open s | _ => open s end; log := log s; routes := routes s |}
      | None => s
      end
  | OpCheck i payload =>
      match open s !! i with
      | Some (Reserved p) =>
          match stage_check p payload a with
          | Some (r, a') => {| arena := a'; open := match r with Ok w => <[i := Checked w]> (open s) | Err _ => delete i (open s) end; log := log s; routes := routes s |}
          | None => s
          end
      | _ => s
      end
  | OpWrite i nz view =>
      match open s !! i with
      | Some (Checked w) =>
          if viewb a view then
            match stage_write nz w view a with
            | Some (r, a') => {| arena := a'; open := match r with Ok pr => <[i := Prepared pr]> (open s) | Err _ => delete i (open s) end;
                                 log := match r with Ok _ => (p_residency (w_permit w), c_payload (w_checked w)) :: log s | Err _ => log s end; routes := routes s |}
            | None => s
            end
          else s
      | _ => s
      end
  | OpCommit i =>
      match open s !! i with
      | Some (Prepared pr) =>
          match commit_with_mapping_writer pr a with
          | Some (r, a') => {| arena := a'; open := delete i (open s); log := log s; routes := routes s |}
          | None => s
          end
      | _ => s
      end
  | OpInstall i payload view =>
      match open s !! i with
      | Some (Reserved p) =>
          if viewb a view then
            match install p payload view a with
            | Some (r, a') => {| arena := a'; open := delete i (open s); log := match r with Ok r => (r, payload) :: log s | Err _ => log s end; routes := routes s |}
            | None => s
            end
          else s
      | _ => s
      end
  | OpDrop i =>
      match open s !! i with
      | Some ph => match drop_permit (permit_of ph) a with
                   | Some a' => {| arena := a'; open := delete i (open s); log := log s; routes := routes s |}
                   | None => s
                   end
      | None => s
      end
  | OpRetire key =>
      match retire_with_unpublish key a with
      | Some (r, a') => {| arena := a'; open := open s; log := log s; routes := routes s |}
      | None => s
      end
  | OpResolve id =>
      match resolve id a with
      | Some e => {| arena := a; open := open s; log := log s; routes := (id, e) :: routes s |}
      | None => s
      end
  end.
Definition run (os : list Operation) (s : System) : System := foldl (fun s o => run1 o s) s os.

Lemma viewb_ok a view : viewb a view = true -> view_ok a view.
Proof. intros H v ->. by apply N.eqb_eq in H. Qed.

Lemma run1_steps o s : steps s (run1 o s).
Proof.
  destruct o as [key|i payload|i nz view|i|i payload view|i|key|id]; cbn [run1].
  - destruct (acquire_with_unpublish key (arena s)) as [[r a']|] eqn:H; [|apply rtc_refl]. by eapply rtc_once, step_acquire.
  - destruct (open s !! i) as [[p|w|pr]|] eqn:Hi; try apply rtc_refl.
    destruct (stage_check p payload (arena s)) as [[r a']|] eqn:H; [|apply rtc_refl]. by eapply rtc_once, step_check.
  - destruct (open s !! i) as [[p|w|pr]|] eqn:Hi; try apply rtc_refl. destruct (viewb (arena s) view) eqn:Hv; [|apply rtc_refl].
    destruct (stage_write nz w view (arena s)) as [[r a']|] eqn:H; [|apply rtc_refl]. by eapply rtc_once, step_write; [|apply viewb_ok|].
  - destruct (open s !! i) as [[p|w|pr]|] eqn:Hi; try apply rtc_refl.
    destruct (commit_with_mapping_writer pr (arena s)) as [[r a']|] eqn:H; [|apply rtc_refl]. by eapply rtc_once, step_commit.
  - destruct (open s !! i) as [[p|w|pr]|] eqn:Hi; try apply rtc_refl. destruct (viewb (arena s) view) eqn:Hv; [|apply rtc_refl].
    destruct (install p payload view (arena s)) as [[r a']|] eqn:H; [|apply rtc_refl]. by eapply rtc_once, step_install; [|apply viewb_ok|].
  - destruct (open s !! i) as [ph|] eqn:Hi; [|apply rtc_refl].
    destruct (drop_permit (permit_of ph) (arena s)) as [a'|] eqn:H; [|apply rtc_refl]. by eapply rtc_once, step_drop.
  - destruct (retire_with_unpublish key (arena s)) as [[r a']|] eqn:H; [|apply rtc_refl]. by eapply rtc_once, step_retire.
  - destruct (resolve id (arena s)) as [e|] eqn:H; [|apply rtc_refl]. by eapply rtc_once, step_resolve.
Qed.

Lemma run_steps os s : steps s (run os s).
Proof. revert s. induction os as [|o os IH]; intros s; [apply rtc_refl|]. cbn. etransitivity; [apply run1_steps|apply IH]. Qed.
