(* ===== verification/ArenaCreate.v ===== *)
(** Setting an arena up ([create_q4_expert_arena] of
    [src/rust-engine/src/backend/gpu_native.rs]): the arena it returns satisfies the
    invariants of [ExpertArena] and starts the interleaved system of [ArenaSteps], with
    one write of the log for each upload. *)
From S2P Require Import Prelude Layout ExpertVram ExpertArena ArenaSteps.
Local Open Scope N_scope.

(** The residency an upload becomes. *)
Definition residency_of (layer : N) (u : GpuNativeQ4ExpertUpload) : GpuNativeQ4ExpertResidency :=
  {| r_key := {| key_layer := layer; expert_id := u_logical_id u; logical_generation := u_generation u |};
     r_location := u_location u; r_epoch := 1 |}.

Section create.
Context (g : GpuNativeQ4ExpertGeometry) (lim : Limits) (c layer : N) (lay : GpuNativeQ4ExpertArenaLayout).
Context (Hg : geometry_ok g) (Hlay : layout_try_new g c lim = Ok lay).

Abbreviation Ne := (num_experts g).
Abbreviation entry := (GpuNativeQ4ExpertResidency * list byte)%type.

(** ** The empty table *)

Definition free_slot (loc : GpuNativeQ4ExpertLocation) : GpuNativeQ4ExpertPhysicalSlot :=
  {| s_location := loc; last_epoch := 0; ever_installed := false; owner := Free |}.

Definition slots_of (fs : list N) : gres (list GpuNativeQ4ExpertPhysicalSlot) :=
  foldr (fun flat rest => location ← location_for_flat_slot lay flat; rest ← rest; Ok (free_slot location :: rest)) (Ok []) fs.

Lemma slots_of_ok fs :
  (forall f, f ∈ fs -> f < slot_capacity lay) ->
  exists ss, slots_of fs = Ok ss /\ length ss = length fs /\
    forall i sl, ss !! i = Some sl -> exists f, fs !! i = Some f /\ location_for_flat_slot lay f = Ok (s_location sl) /\ sl = free_slot (s_location sl).
Proof.
  induction fs as [|f fs IH]; intros Hf; [by exists []|]. destruct IH as (ss & Hss & Hlen & Hall); [intros f' H; apply Hf; by right|].
  destruct (layout_slot_place g lim Hg c lay f Hlay) as (loc & b & p & Hloc & _); [apply Hf; left|].
  exists (free_slot loc :: ss). cbn [slots_of foldr]. fold (slots_of fs). rewrite Hloc, Hss. cbn [mbind result_bind]. split; [done|].
  split; [cbn; by rewrite Hlen|]. intros [|i] sl Hi; cbn in Hi; [|by apply Hall]. injection Hi as <-. by exists f.
Qed.

Lemma state_new_ok :
  exists s, state_new g lay = Ok s /\ state_ok layer Ne lay s /\
    (forall f sl, slots s !! f = Some sl -> sl = free_slot (s_location sl)) /\
    (forall id, published s id = UNMAPPED).
Proof.
  destruct (slots_of_ok (rangeN (slot_capacity lay))) as (ss & Hss & Hlen & Hall); [intros f; apply elem_of_rangeN|].
  unfold state_new. change (foldr _ _ _) with (slots_of (rangeN (slot_capacity lay))). rewrite Hss. cbn [mbind result_bind].
  eexists. split; [reflexivity|].
  assert (Hnone : forall id f, replicate (N.to_nat Ne) (@None nat) !! id <> Some (Some f)).
  { intros id f H. by apply lookup_replicate in H as [H _]. }
  split_and!.
  - split; cbn [slots logical_slots latest_generations].
    + rewrite Hlen. pose proof (length_rangeN (slot_capacity lay)). lia.
    + by rewrite length_replicate.
    + by rewrite length_replicate.
    + intros f sl Hf. destruct (Hall f sl Hf) as (f' & Hf' & Hloc & Hsl). unfold rangeN in Hf'.
      rewrite list_lookup_fmap in Hf'. destruct (seq 0 _ !! f) as [m|] eqn:Hm; [|done]. apply lookup_seq in Hm as [-> _].
      cbn in Hf'. injection Hf' as <-. split; [done|]. rewrite Hsl. cbn. unfold u32_max. lia.
    + intros f sl Hf. destruct (Hall f sl Hf) as (_ & _ & _ & ->). done.
    + intros id f H. by apply Hnone in H.
  - intros f sl Hf. by destruct (Hall f sl Hf) as (_ & _ & _ & Hsl).
  - intros id. unfold published. cbn [logical_slots]. destruct (_ !! id) as [[f|]|] eqn:H; [by apply Hnone in H|done|done].
Qed.

(** ** The uploads, one by one *)

Lemma slot_location_ok s f sl :
  state_ok layer Ne lay s -> slots s !! f = Some sl ->
  exists p, pack (s_location sl) = Ok p /\ p <> GPU_NATIVE_EXPERT_UNMAPPED.
Proof.
  intros Hs Hf. pose proof (lookup_lt_Some _ _ _ Hf) as Hlt. rewrite (ok_slots _ _ _ _ Hs) in Hlt.
  destruct (ok_location _ _ _ _ Hs f sl Hf) as [Hloc _].
  destruct (layout_slot_place g lim Hg c lay (N.of_nat f) Hlay ltac:(lia)) as (loc & b & p & Hloc' & _ & _ & _ & _ & _ & Hp & Hun & _).
  rewrite Hloc in Hloc'. injection Hloc' as <-. by exists p.
Qed.

Lemma state_locations_differ s f f' sl sl' :
  state_ok layer Ne lay s -> slots s !! f = Some sl -> slots s !! f' = Some sl' -> s_location sl = s_location sl' -> f = f'.
Proof.
  intros Hs Hf Hf' Heq. pose proof (lookup_lt_Some _ _ _ Hf) as Hlt. pose proof (lookup_lt_Some _ _ _ Hf') as Hlt'.
  rewrite (ok_slots _ _ _ _ Hs) in Hlt, Hlt'.
  destruct (ok_location _ _ _ _ Hs f sl Hf) as [Hloc _]. destruct (ok_location _ _ _ _ Hs f' sl' Hf') as [Hloc' _].
  destruct (layout_slot_place g lim Hg c lay (N.of_nat f) Hlay ltac:(lia)) as (l1 & _ & _ & H1 & H1' & _).
  destruct (layout_slot_place g lim Hg c lay (N.of_nat f') Hlay ltac:(lia)) as (l2 & _ & _ & H2 & H2' & _).
  rewrite Hloc in H1. injection H1 as <-. rewrite Hloc' in H2. injection H2 as <-. rewrite Heq in H1'. rewrite H1' in H2'. injection H2' as H. lia.
Qed.

(** After some uploads, with the log [l] of the slots placed, latest first. *)
Record placed (seen : list N) (acc : GpuNativeQ4ExpertPreparedUploads) (l : list entry) : Prop := {
  pl_state : state_ok layer Ne lay (u_state acc);
  pl_mapping : u_mapping acc = published (u_state acc) <$> seq 0 (N.to_nat Ne);
  pl_slots f sl : slots (u_state acc) !! f = Some sl ->
    sl = free_slot (s_location sl) \/
    exists r payload p, owner sl = Resident r /\ (r, payload) ∈ l /\ pack (s_location sl) = Ok p /\ p ∈ seen;
  pl_log r payload : (r, payload) ∈ l -> exists f sl, slots (u_state acc) !! f = Some sl /\ owner sl = Resident r /\
    r_location r = s_location sl /\ r_epoch r = 1 /\ last_epoch sl = 1 /\ logical_expert_bytes g <= lenN payload;
  pl_once : NoDup (written l);
  pl_physical : u_physical acc = (fun w => (r_location w.1, physical_bytes g 1 w.2)) <$> rev l;
}.

Lemma unmapped_vacant s id :
  state_ok layer Ne lay s -> (id < N.to_nat Ne)%nat -> published s id = UNMAPPED ->
  (forall f sl k e t, slots s !! f = Some sl -> owner sl <> Installing k e t) -> logical_slots s !! id = Some None.
Proof.
  intros Hs Hid Hp Hni. destruct (lookup_lt_is_Some_2 (logical_slots s) id) as [cur Hcur]; [by rewrite (ok_logical_length _ _ _ _ Hs)|].
  destruct cur as [f|]; [|done]. exfalso. destruct (ok_logical _ _ _ _ Hs id f Hcur) as (sl & k & Hf & Hk & _).
  unfold published in Hp. rewrite Hcur in Hp. cbn [mjoin option_join] in Hp. rewrite Hf in Hp. cbn [fmap option_fmap option_map] in Hp.
  pose proof (ok_owner _ _ _ _ Hs f sl Hf) as Ho. unfold owner_ok in Ho. destruct (owner sl) as [|k' e t|r] eqn:Hown; [done| |].
  - by apply (Hni f sl k' e t).
  - destruct (slot_location_ok s f sl Hs Hf) as (p & Hpk & _). destruct Ho as (Hl & He & Hone & _).
    unfold mapping_entry, entry_try_new in Hp. destruct (N.eqb_spec (r_epoch r) 0); [lia|]. rewrite Hl, Hpk in Hp. cbn in Hp.
    injection Hp as _ Hep. done.
Qed.

Lemma physical_slot_ok e payload bytes :
  physical_q4_expert_slot g e payload = Ok bytes -> bytes = physical_bytes g e payload /\ logical_expert_bytes g <= lenN payload.
Proof.
  unfold physical_q4_expert_slot. intros H. apply result_bind_ok in H as (ck & Hck & H).
  destruct (checked_new_ok _ _ _ _ Hck) as (_ & _ & Hl). split; [|done].
  rewrite (fill_ok false g e payload ck _ Hg Hck) in H; [by injection H|]. unfold lenN. rewrite length_replicate. lia.
Qed.

Lemma place_ok seen acc l u :
  placed seen acc l -> exists r, place_upload layer g lay u seen acc = Some r /\
    match r with
    | Ok (seen', acc') => placed seen' acc' ((residency_of layer u, u_payload u) :: l)
    | Err _ => True
    end.
Proof.
  intros [P1 P2 P3 P4 P5 P6]. unfold place_upload.
  destruct (N.leb_spec Ne (u_logical_id u)) as [|Hid]; [by eexists|].
  destruct (N.eqb_spec (u_generation u) 0) as [|Hgen]; [by eexists|].
  rewrite P2, list_lookup_fmap, lookup_seq_lt by lia. cbn [fmap option_fmap option_map mbind option_bind Nat.add].
  destruct (bool_decide_reflect (published (u_state acc) (N.to_nat (u_logical_id u)) = UNMAPPED)) as [Hun|]; cbn [negb]; [|by eexists].
  destruct (N.leb_spec (active_banks lay) (bank (u_location u))) as [|Hb]; [by eexists|].
  destruct (layout_bank_lookup g lim Hg c lay _ Hlay Hb) as [bk ->]. cbn [mbind option_bind].
  destruct (_ <=? slot (u_location u)); [by eexists|]. destruct (pack (u_location u)) as [packed|e] eqn:Hpack; [|by eexists].
  destruct (bool_decide_reflect (packed ∈ seen)) as [|Hseen]; [by eexists|].
  destruct (flat_slot_for_location lay (u_location u)) as [flat|e] eqn:Hflat; [|by eexists].
  destruct (layout_flat_back g lim Hg c lay _ flat Hlay Hflat) as [Hfl Hloc].
  destruct (lookup_lt_is_Some_2 (slots (u_state acc)) (N.to_nat flat)) as [sl Hsl]; [rewrite (ok_slots _ _ _ _ P1); lia|].
  rewrite Hsl. cbn [mbind option_bind]. eexists. split; [reflexivity|]. fold (residency_of layer u).
  destruct (mapping_entry (residency_of layer u)) as [en|] eqn:Hen; [|done]. cbn [mbind result_bind].
  destruct (physical_q4_expert_slot g 1 (u_payload u)) as [bytes|] eqn:Hbytes; [|done]. cbn [mbind result_bind].
  destruct (physical_slot_ok _ _ _ Hbytes) as [-> Hlen].
  destruct (ok_location _ _ _ _ P1 _ _ Hsl) as [Hsloc _]. rewrite N2Nat.id, Hloc in Hsloc. injection Hsloc as Hsloc.
  assert (Hfree : sl = free_slot (s_location sl)).
  { destruct (P3 _ _ Hsl) as [|(r & payload & p & _ & _ & Hp & Hin)]; [done|]. rewrite <-Hsloc, Hpack in Hp. injection Hp as <-. done. }
  assert (Hvac : logical_slots (u_state acc) !! N.to_nat (u_logical_id u) = Some None).
  { apply unmapped_vacant; [done|lia|done|]. intros f sl2 k e t Hf Ho. destruct (P3 f sl2 Hf) as [H|(r & pl & p & H & _)].
    - rewrite H in Ho. done.
    - by rewrite H in Ho. }
  set (k := r_key (residency_of layer u)). set (id := N.to_nat (u_logical_id u)) in *.
  set (s1 := set_latest (<[id := Some (u_generation u)]> (latest_generations (u_state acc))) (u_state acc)).
  assert (Hs1 : state_ok layer Ne lay s1) by (by apply set_latest_ok).
  set (sl' := {| s_location := s_location sl; last_epoch := 1; ever_installed := true; owner := Resident (residency_of layer u) |}).
  assert (Hlast : last_epoch sl = 0) by (by rewrite Hfree). assert (Hown : owner sl = Free) by (by rewrite Hfree).
  destruct (occupy_ok layer Ne lay s1 (N.to_nat flat) sl sl' k Hs1 Hsl Hown) as (Hst & Hadv & Hpub);
    [rewrite Hlast; unfold u32_max; lia| |done|exact Hgen|exact Hvac| |].
  { unfold occupies. cbn. rewrite Hlast. split_and!; done. }
  { cbn. apply list_lookup_insert_eq. rewrite (ok_latest_length _ _ _ _ P1). unfold id. lia. }
  set (s' := set_logical _ (set_slots _ s1)) in *.
  assert (Hfresh : forall r payload, (r, payload) ∈ l -> r_location r <> u_location u).
  { intros r payload Hin Heq. destruct (P4 r payload Hin) as (f & sl2 & Hf & Ho & Hl & _).
    assert (f = N.to_nat flat) as -> by (apply (state_locations_differ (u_state acc) _ _ sl2 sl P1 Hf Hsl); congruence).
    rewrite Hsl in Hf. injection Hf as <-. by rewrite Hown in Ho. }
  change (set_latest _ (set_logical _ (set_slots _ (u_state acc)))) with s'.
  split; cbn [u_state u_mapping u_physical].
  - exact Hst.
  - rewrite <-(seq_insert (published (u_state acc)) (published s') _ id).
    + f_equal. rewrite Hpub, decide_True by done. unfold owner_entry, sl'. cbn [owner]. by rewrite Hen.
    + unfold id. lia.
    + intros j Hj. rewrite Hpub, decide_False by done. done.
  - intros f sl2 Hf. cbn in Hf. destruct (decide (f = N.to_nat flat)) as [->|Hne].
    + rewrite list_lookup_insert_eq in Hf by (by eapply lookup_lt_Some). injection Hf as <-. right.
      exists (residency_of layer u), (u_payload u), packed. cbn. rewrite <-Hsloc. split_and!; [done|left|done|left].
    + rewrite list_lookup_insert_ne in Hf by done. destruct (P3 f sl2 Hf) as [H|(r & pl & p & H1 & H2 & H3 & H4)]; [by left|right].
      exists r, pl, p. split_and!; [done|by right|done|by right].
  - intros r payload [Heq|Hin]%elem_of_cons.
    + injection Heq as -> ->. exists (N.to_nat flat), sl'. cbn. rewrite list_lookup_insert_eq by (by eapply lookup_lt_Some). split_and!; done.
    + destruct (P4 r payload Hin) as (f & sl2 & Hf & Ho & Hr). exists f, sl2. split; [|by split]. cbn. rewrite list_lookup_insert_ne; [done|].
      intros <-. rewrite Hsl in Hf. injection Hf as <-. by rewrite Hown in Ho.
  - cbn [written fmap list_fmap]. constructor; [|done]. intros Hin. unfold written in Hin. apply list_elem_of_fmap in Hin as ([r pl] & Heq & Hin).
    unfold ident in Heq. cbn in Heq. injection Heq as Heq _. by apply (Hfresh r pl Hin).
  - rewrite P6. cbn [rev]. rewrite fmap_app. done.
Qed.

Lemma places_ok us seen acc l :
  placed seen acc l -> exists r, place_uploads layer g lay us seen acc = Some r /\
    match r with
    | Ok acc' => exists seen', placed seen' acc' (rev ((fun u => (residency_of layer u, u_payload u)) <$> us) ++ l)
    | Err _ => True
    end.
Proof.
  revert seen acc l. induction us as [|u us IH]; intros seen acc l Hp; cbn [place_uploads].
  { eexists. split; [reflexivity|]. by exists seen. }
  destruct (place_ok seen acc l u Hp) as (r & -> & Hr). cbn [mbind option_bind]. destruct r as [[seen' acc']|e]; [|by eexists].
  destruct (IH seen' acc' _ Hr) as (r & Hr' & Hout). exists r. split; [done|]. destruct r as [acc2|]; [|done]. destruct Hout as [seen2 Hout].
  exists seen2. cbn [fmap list_fmap rev]. by rewrite <-(assoc (++)).
Qed.

(** ** The setup writes *)

Lemma write_slots_ok ws a done_ :
  arena_ok a -> arena_geometry a = g ->
  (forall w, w ∈ ws -> exists f sl, slots (state a) !! f = Some sl /\ r_location w.1 = s_location sl /\
                                   r_epoch w.1 = 1 /\ logical_expert_bytes g <= lenN w.2) ->
  (forall f sl, slots (state a) !! f = Some sl -> memory_ok a done_ (s_location sl)) ->
  exists a', write_slots g ((fun w : entry => (r_location w.1, physical_bytes g 1 w.2)) <$> ws) a = Some a' /\
    arena_ok a' /\ same_arena a a' /\ state a' = state a /\
    forall f sl, slots (state a') !! f = Some sl -> memory_ok a' (rev ws ++ done_) (s_location sl).
Proof.
  revert a done_. induction ws as [|[r payload] ws IH]; intros a done_ Hok Hgeo Hws Hm; [by exists a|].
  destruct (Hws (r, payload)) as (f & sl & Hf & Hl & He & Hlen); [left|]. cbn [fst snd] in *.
  cbn [fmap list_fmap write_slots fst snd]. pose proof (slot_offset_bound a f sl Hok Hf) as Hb. rewrite Hgeo in Hb. rewrite Hl.
  rewrite (proj2 (checked_mul_Some u64_max _ _ (slot (s_location sl) * slot_stride_bytes g))) by done. cbn [mbind option_bind].
  destruct (write_slot a f sl (physical_bytes g 1 payload) Hok Hf) as (a1 & Hw & Hok1 & Hs1 & Hst1 & _ & Hnew & Hold);
    [rewrite Hgeo; by apply length_physical_bytes|]. rewrite Hgeo in Hw. rewrite Hw. cbn [mbind option_bind].
  destruct (IH a1 ((r, payload) :: done_) Hok1) as (a' & Hw' & Hok' & Hs' & Hst' & Hm').
  - by rewrite (same_geometry a a1 Hs1).
  - intros w Hin. rewrite Hst1. apply Hws. by right.
  - eapply memory_log; [exact Hok|exact Hf|exact Hl|exact Hs1|by apply same_state_advances|by rewrite Hst1| |exact Hold|exact Hm].
    rewrite Hl, Hnew, Hgeo, He. done.
  - exists a'. split; [done|]. split; [done|]. split; [by transitivity a1|]. split; [congruence|].
    intros f' sl' Hf'. cbn [rev]. rewrite <-(assoc (++)). by apply (Hm' f').
Qed.

Lemma le_val_zero (bs : list byte) : Forall (eq x00) bs -> le_val bs = 0.
Proof. induction 1 as [|b bs <- _ IH]; [done|]. cbn [le_val]. by rewrite IH. Qed.

Lemma fresh_memory a f sl :
  arena_ok a -> slots (state a) !! f = Some sl ->
  bank_memory a = (fun b => replicate (N.to_nat (allocation_bytes b)) x00) <$> banks (arena_layout a) ->
  memory_ok a [] (s_location sl).
Proof.
  intros Hok Hf Hmem. destruct (slot_place a f sl Hok Hf) as (b & p & m & _ & _ & Hbk & _ & _ & _ & _ & _ & Hm & _).
  unfold memory_ok. cbn [List.find]. unfold slot_bytes. rewrite Hm. cbn [mbind option_bind]. eexists. split; [reflexivity|].
  rewrite Hmem, list_lookup_fmap, Hbk in Hm. cbn in Hm. injection Hm as <-. apply le_val_zero, Forall_take. unfold slice.
  apply Forall_take, Forall_drop, Forall_replicate. done.
Qed.

Lemma uploads_ok us :
  exists r, validate_q4_expert_uploads layer g lay us = Some r /\
    match r with
    | Ok u => exists seen, placed seen u (rev ((fun u => (residency_of layer u, u_payload u)) <$> us))
    | Err _ => True
    end.
Proof.
  unfold validate_q4_expert_uploads. destruct (_ <? _); [by eexists|]. destruct state_new_ok as (s & -> & Hst & Hfree & Hun).
  destruct (places_ok us [] {| u_mapping := replicate (N.to_nat Ne) UNMAPPED; u_physical := []; u_state := s |} []) as (r & -> & Hr).
  { split; cbn [u_state u_mapping u_physical].
    - done.
    - apply list_eq. intros i. rewrite list_lookup_fmap. destruct (decide (i < N.to_nat Ne)%nat) as [Hi|Hi].
      + rewrite lookup_replicate_2, lookup_seq_lt by done. cbn. by rewrite Hun.
      + rewrite !lookup_ge_None_2; [done|rewrite length_seq; lia|rewrite length_replicate; lia].
    - intros f sl Hf. left. by apply (Hfree f).
    - intros r payload H. by apply elem_of_nil in H.
    - constructor.
    - done. }
  cbn [mbind option_bind]. eexists. split; [reflexivity|]. destruct r as [acc|e]; [|done]. cbn [mbind result_bind]. destruct Hr as [seen Hr].
  rewrite app_nil_r in Hr. exists seen. destruct Hr as [P1 P2 P3 P4 P5 P6]. split; try done. destruct P1 as [I1 I2 I3 I4 I5 I6]. by split.
Qed.

End create.

Lemma created context device_d_model l layer p us :
  geometry_ok (geometry p) ->
  exists r, create_q4_expert_arena context device_d_model l layer p us = Some r /\
    match r with
    | Ok a => starts {| arena := a; open := []; log := rev ((fun u => (residency_of layer u, u_payload u)) <$> us); routes := [] |} /\
        context_id a = context /\ arena_layer a = layer /\ plan a = p /\ validate_q4_expert_arena context l a = Some (Ok tt) /\
        (forall u, u ∈ us -> exists f sl, slots (state a) !! f = Some sl /\ owner sl = Resident (residency_of layer u)) /\
        forall f sl k e t, slots (state a) !! f = Some sl -> owner sl <> Installing k e t
    | Err _ => True
    end.
Proof.
  intros Hg. unfold create_q4_expert_arena. destruct (negb _); [by eexists|].
  destruct (validate_q4_expert_pipeline_limits l) as [[]|e] eqn:Hlim; [|by eexists].
  destruct (plan_try_new_ok (geometry p) l Hg (requested_expert_budget_bytes p)) as (r & Hplan & Hr). rewrite Hplan. cbn [mbind option_bind].
  destruct r as [expected|e]; [|by eexists].
  destruct (bool_decide_reflect (p = expected)) as [<-|]; cbn [negb]; [|by eexists].
  assert (Hlay : layout_try_new (geometry p) (plan_slot_capacity p) l = Ok (layout p)).
  { rewrite Hlim in Hr. destruct (_ =? 0); [done|]. destruct (fits _ _ _ 1); [|done]. by destruct Hr as (p' & [= <-] & _ & _ & _ & H & _). }
  destruct (uploads_ok (geometry p) l (plan_slot_capacity p) layer (layout p) Hg Hlay us) as (ru & -> & Hru). cbn [mbind option_bind].
  destruct ru as [u|e]; cbn [mbind result_bind]; [|by eexists].
  destruct (validate_startup_buffers _ l) as [[]|e] eqn:Hb1; cbn [mbind result_bind]; [|by eexists].
  destruct (validate_startup_buffer _ l) as [[]|e] eqn:Hb2; cbn [mbind result_bind]; [|by eexists].
  destruct Hru as [seen [P1 P2 P3 P4 P5 P6]]. set (lg := rev ((fun u => (residency_of layer u, u_payload u)) <$> us)) in *.
  set (a0 := {| context_id := context; arena_layer := layer; plan := p;
                bank_memory := (fun b => replicate (N.to_nat (allocation_bytes b)) x00) <$> banks (layout p);
                mapping_memory := u_mapping u; state := u_state u |}).
  assert (Hok0 : arena_ok a0).
  { split; [by exists l, (plan_slot_capacity p)|exact P1|exact P2|]. cbn. rewrite <-list_fmap_compose. apply list_fmap_ext.
    intros _ b _. cbn. by rewrite length_replicate. }
  rewrite P6. destruct (write_slots_ok (geometry p) Hg (rev lg) a0 []) as (a & -> & Hok & Hs & Hst & Hm); [done|done| | |].
  { intros [r payload] Hin. apply list_elem_of_In, in_rev, list_elem_of_In in Hin. destruct (P4 r payload Hin) as (f & sl & Hf & _ & Hl & He & _ & Hlen).
    by exists f, sl. }
  { intros f sl Hf. by apply (fresh_memory a0 f sl). }
  cbn [mbind option_bind]. eexists. split; [reflexivity|]. rewrite rev_involutive, app_nil_r in Hm.
  destruct Hs as (Hc & Hla & Hpl). change (plan a = p) in Hpl. change (context_id a = context) in Hc. split; [|split; [done|split; [done|split; [done|split; [|split]]]]].
  - split; [|done]. split; cbn [arena open log routes]; [done|constructor| |done|exact Hm| |constructor].
    + apply Forall_forall. intros [r payload] Hin. destruct (P4 r payload Hin) as (f & sl & Hf & _ & Hl & He & Hla1 & Hlen).
      split; cbn [fst snd]; [exists f, sl; rewrite Hst; split_and!; [done|done|lia|lia]|]. unfold arena_geometry. by rewrite Hpl.
    + intros f sl r Hf Ho. rewrite Hst in Hf. destruct (P3 f sl Hf) as [H|(r' & payload & pk & Ho' & Hin & _)]; [by rewrite H in Ho|].
      rewrite Ho in Ho'. injection Ho' as <-. by exists payload.
  - unfold validate_q4_expert_arena. rewrite Hc, N.eqb_refl. cbn [negb]. pose proof (snapshot_sums a Hok) as Hsum.
    assert (Hga : arena_geometry a = geometry p) by (unfold arena_geometry; by rewrite Hpl). rewrite Hga.
    rewrite Hpl in Hsum. unfold geometry_ok in Hg. rewrite Hg, Hpl. rewrite Hplan. cbn [mbind option_bind result_bind]. cbv zeta. rewrite Hsum.
    rewrite !bool_decide_eq_true_2 by done. cbn [negb orb]. unfold arena_layout. rewrite Hpl, Hb1. cbn [mbind result_bind]. by rewrite Hb2.
  - intros up Hup. assert (Hin : (residency_of layer up, u_payload up) ∈ lg).
    { unfold lg. apply list_elem_of_In, in_rev, list_elem_of_In. rewrite rev_involutive. apply list_elem_of_fmap. by exists up. }
    destruct (P4 _ _ Hin) as (f & sl & Hf & Ho & _). exists f, sl. by rewrite Hst.
  - intros f sl k e t. rewrite Hst. intros Hf Ho. destruct (P3 f sl Hf) as [H|(r & payload & pk & H & _)]; [by rewrite H in Ho|congruence].
Qed.

(** Creating an arena ends without a panic; when it succeeds, the arena passes the
    validation every operation starts with, meets the conditions under which the
    theorems on interleavings hold, and every expert uploaded resolves and is read back
    byte for byte. *)
Theorem created_arena_starts context device_d_model l layer p us :
  geometry_ok (geometry p) ->
  exists r, create_q4_expert_arena context device_d_model l layer p us = Some r /\
    match r with
    | Ok a => starts {| arena := a; open := []; log := rev ((fun u => (residency_of layer u, u_payload u)) <$> us); routes := [] |} /\
        validate_q4_expert_arena context l a = Some (Ok tt) /\
        forall u, u ∈ us -> exists e, resolve (u_logical_id u) a = Some e /\
          execute e a = Some (take (N.to_nat (logical_expert_bytes (geometry p))) (u_payload u))
    | Err _ => True
    end.
Proof.
  intros Hg. destruct (created context device_d_model l layer p us Hg) as (r & Hr & Hout). exists r. split; [done|].
  destruct r as [a|]; [|done]. destruct Hout as (Hs & _ & _ & Hpl & Hval & Hup & _). split; [done|]. split; [done|]. intros u Hu.
  destruct (Hup u Hu) as (f & sl & Hf & Ho). pose proof Hs as [Hi _].
  destruct (resolve_published a f sl _ (inv_arena _ Hi) Hf Ho) as (e & Hm & Hres). exists e. split; [exact Hres|].
  set (lg := rev ((fun u => (residency_of layer u, u_payload u)) <$> us)) in *.
  assert (Hlog : forall w, w ∈ lg -> exists u, w = (residency_of layer u, u_payload u)).
  { intros w Hw. unfold lg in Hw. apply list_elem_of_In, in_rev, list_elem_of_In, list_elem_of_fmap in Hw as (u' & -> & _). by exists u'. }
  assert (Hin : (residency_of layer u, u_payload u) ∈ lg).
  { unfold lg. apply list_elem_of_In, in_rev. rewrite rev_involutive. apply list_elem_of_In, list_elem_of_fmap. by exists u. }
  destruct (slot_content _ _ _ Hi Hin) as (r' & payload' & Hin' & Hl' & He' & Hb). cbn [arena log] in *.
  destruct (Hlog _ Hin') as [u' Hu'].
  destruct (written_unique _ _ _ _ _ Hi Hin Hin') as [Hr1 Hr2]; [unfold ident; rewrite Hl'; f_equal; by injection Hu' as ->|].
  subst r' payload'. pose proof (proj1 (Forall_forall _ _) (inv_log _ Hi) _ Hin) as [Hof _]. cbn [arena fst] in Hof.
  destruct (entry_place a _ e (inv_arena _ Hi) Hof Hm) as (Hep & Hun & Hloc).
  unfold execute. destruct (N.eqb_spec (m_location e) GPU_NATIVE_EXPERT_UNMAPPED); [done|]. cbv zeta. rewrite Hloc, Hb. cbn [mbind option_bind].
  assert (Hga : arena_geometry a = geometry p) by (unfold arena_geometry; by rewrite Hpl). rewrite Hga.
  destruct (read_physical (geometry p) 1 (u_payload u) ltac:(done)) as [Hrd Hrp].
  cbn [residency_of r_epoch] in *. rewrite Hrd, Hrp, Hep. done.
Qed.

(** ** Concrete runs *)

Module Witness.

Import ExpertVram.Witness.

Definition get {A} (d : A) (o : option A) : A := match o with Some a => a | None => d end.
Definition ok {A} (r : gres A) : option A := match r with Ok a => Some a | Err _ => None end.

Definition nowhere : GpuNativeQ4ExpertLocation := {| bank := 0; slot := 0 |}.
Definition no_layout : GpuNativeQ4ExpertArenaLayout := {| slot_capacity := 0; active_banks := 0; banks := []; mapping_bytes := 0 |}.
Definition no_plan : GpuNativeQ4ExpertVramPlan :=
  {| geometry := g; requested_expert_budget_bytes := 0; layout := no_layout; active_bank_allocation_bytes := 0;
     physical_bank_allocation_bytes := 0; total_arena_allocation_bytes := 0 |}.

(** A plan of [n] slots, and the arena of layer 3 with expert 4 uploaded, if asked. *)
Definition small_plan (n : N) : GpuNativeQ4ExpertVramPlan := get no_plan (ok (plan_for_slot_capacity g n (device 6000))).
Definition bytes_of (b : byte) : list byte := replicate 1728 b.
Definition upload : GpuNativeQ4ExpertUpload := {| u_logical_id := 4; u_generation := 1; u_location := nowhere; u_payload := bytes_of x04 |}.

Definition no_state : GpuNativeQ4ExpertArenaState :=
  {| slots := []; logical_slots := []; latest_generations := []; next_install_ticket := 1;
     counters := {| expert_slot_installs := 0; expert_slot_retires := 0; expert_slot_reuses := 0; expert_mapping_publications := 0;
                    expert_mapping_unpublications := 0; expert_stale_install_rejections := 0; expert_install_cancellations := 0 |} |}.
Definition no_arena : GpuNativeQ4ExpertArena :=
  {| context_id := 0; arena_layer := 0; plan := no_plan; bank_memory := []; mapping_memory := []; state := no_state |}.
Definition new (n : N) (us : list GpuNativeQ4ExpertUpload) : GpuNativeQ4ExpertArena :=
  match create_q4_expert_arena 7 32 (device 6000) 3 (small_plan n) us with Some (Ok a) => a | _ => no_arena end.
Definition key (id gen : N) : GpuNativeQ4ExpertKey := {| key_layer := 3; expert_id := id; logical_generation := gen |}.
Definition system (a : GpuNativeQ4ExpertArena) (us : list GpuNativeQ4ExpertUpload) : System :=
  {| arena := a; open := []; log := rev ((fun u => (residency_of 3 u, u_payload u)) <$> us); routes := [] |}.

Lemma created_arena_starts_witness :
  geometry_ok (geometry (small_plan 2)) /\ starts (system (new 2 [upload]) [upload]).
Proof.
  assert (Hg : geometry_ok (geometry (small_plan 2))) by (vm_compute; reflexivity). split; [exact Hg|].
  destruct (created_arena_starts 7 32 (device 6000) 3 (small_plan 2) [upload] Hg) as (r & Hr & Hout).
  unfold system, new. rewrite Hr. destruct r as [a|e]; [exact (proj1 Hout)|]. exfalso. revert Hr. vm_compute. discriminate.
Defined.

Definition view : option (list byte) := Some (replicate 1732 xff).
Definition init (n : N) : System := system (new n []) [].

Lemma init_starts n : match create_q4_expert_arena 7 32 (device 6000) 3 (small_plan n) [] with Some (Ok _) => True | _ => False end ->
  geometry_ok (geometry (small_plan n)) -> starts (init n).
Proof.
  intros Hc Hg. destruct (created 7 32 (device 6000) 3 (small_plan n) [] Hg) as (r & Hr & Hout). unfold init, system, new.
  rewrite Hr in Hc |- *. destruct r as [a|e]; [exact (proj1 Hout)|done].
Qed.
Lemma init1_starts : starts (init 1).
Proof. apply init_starts; vm_compute; [exact I|reflexivity]. Qed.
Lemma init2_starts : starts (init 2).
Proof. apply init_starts; vm_compute; [exact I|reflexivity]. Qed.

(** Expert 5 is installed in two locked steps, expert 6 in one; both are read. *)
Definition both : System :=
  run [OpAcquire (key 5 1); OpAcquire (key 6 1); OpCheck 1 (bytes_of x05); OpInstall 0 (bytes_of x06) view;
       OpWrite 0 true view; OpCommit 0; OpResolve 5; OpResolve 6] (init 2).

Lemma routes_read_their_expert_witness :
  exists e, (5, e) ∈ routes both /\ execute e (arena both) = Some (bytes_of x05) /\ exists r payload, (r, payload) ∈ log both /\ expert_id (r_key r) = 5 /\ mapping_entry r = Ok e /\ bytes_of x05 = take (N.to_nat (logical_expert_bytes (arena_geometry (arena both)))) payload.
Proof.
  assert (Hr : exists e, routes both !! 1%nat = Some (5, e) /\ execute e (arena both) = Some (bytes_of x05))
    by (eexists; split; vm_compute; reflexivity).
  destruct Hr as (e & He & Hx). exists e. apply list_elem_of_lookup_2 in He. split; [exact He|]. split; [exact Hx|].
  destruct (routes_read_their_expert (init 2) both 5 e (bytes_of x05) init2_starts (run_steps _ _) He Hx) as (r & payload & H1 & H2 & H3 & H4 & _).
  exists r, payload. exact (conj H1 (conj H2 (conj H3 H4))).
Defined.

Definition opened : System := run [OpAcquire (key 5 1)] (init 2).
Definition opened_install : option (gres GpuNativeQ4ExpertResidency * GpuNativeQ4ExpertArena) :=
  match open opened with [Reserved p] => install p (bytes_of x05) view (arena opened) | _ => None end.

Lemma installed_expert_is_read_witness :
  exists r a', opened_install = Some (Ok r, a') /\ exists e, resolve 5 a' = Some e /\ execute e a' = Some (take (N.to_nat (logical_expert_bytes (arena_geometry a'))) (bytes_of x05)).
Proof.
  assert (Ho : exists p, open opened = [Reserved p] /\ expert_id (p_key p) = 5) by (eexists; split; vm_compute; reflexivity).
  destruct Ho as (p & Ho & Hp).
  assert (Hi : exists r a', opened_install = Some (Ok r, a')) by (eexists _, _; vm_compute; reflexivity).
  destruct Hi as (r & a' & Hi). exists r, a'. split; [exact Hi|].
  assert (Hv : view_ok (arena opened) view) by (apply viewb_ok; vm_compute; reflexivity).
  unfold opened_install in Hi. rewrite Ho in Hi.
  assert (Ho0 : open opened !! 0%nat = Some (Reserved p)) by (rewrite Ho; reflexivity).
  destruct (installed_expert_is_read (init 2) opened 0 p (bytes_of x05) view r a' init2_starts (run_steps _ _) Ho0 Hv Hi) as (_ & e & H1 & H2).
  rewrite Hp in H1. exists e. exact (conj H1 H2).
Defined.

Lemma exact_residency_iff_witness :
  exists r, contains_exact_residency 7 r (arena both) = true /\ exists e, mapping_entry r = Ok e /\ resolve (expert_id (r_key r)) (arena both) = Some e.
Proof.
  assert (Hok : arena_ok (arena both)) by exact (inv_arena _ (inv_steps _ _ (proj1 init2_starts) (run_steps _ _))).
  assert (Hr : exists r, contains_exact_residency 7 r (arena both) = true).
  { exists {| r_key := key 6 1; r_location := {| bank := 0; slot := 1 |}; r_epoch := 1 |}. vm_compute. reflexivity. }
  destruct Hr as [r' Hr]. exists r'. split; [exact Hr|]. exact (proj2 (exact_residency_iff (arena both) 7 r' Hok) Hr).
Defined.

Lemma arena_never_panics_witness :
  exists r a', acquire_with_unpublish (key 4 1) (arena both) = Some (r, a') /\ r <> Err ExpertInstallReservationLost.
Proof. exact (proj1 (arena_never_panics (init 2) both init2_starts (run_steps _ _)) (key 4 1)). Defined.

Lemma arena_stays_valid_witness :
  validate_q4_expert_arena 7 (device 6000) (arena both) = Some (Ok tt).
Proof.
  refine (eq_trans (arena_stays_valid (init 2) both 7 (device 6000) init2_starts (run_steps _ _)) _). vm_compute. reflexivity.
Defined.

(** A write staged before its reservation was lost can land after the slot has been
    given to another expert: that expert stays resident and mapped, but the device's
    epoch check refuses it.  Only the callers' own locking rules this out. *)
Definition overtaken : System :=
  run [OpAcquire (key 5 1); OpCheck 0 (bytes_of x05); OpRetire (key 5 1); OpAcquire (key 6 1); OpInstall 0 (bytes_of x06) view;
       OpWrite 0 true view; OpResolve 6] (init 1).
Example stale_write_hides_a_resident :
  steps (init 1) overtaken /\ contains_exact_residency 7 {| r_key := key 6 1; r_location := nowhere; r_epoch := 2 |} (arena overtaken) = true /\ exists e, resolve 6 (arena overtaken) = Some e /\ execute e (arena overtaken) = None.
Proof. split; [apply run_steps|]. split; [vm_compute; reflexivity|]. eexists. split; vm_compute; reflexivity. Qed.

End Witness.
