(* ===== verification/ArenaView.v ===== *)
(** What a caller sees of an arena: for every expert, the slot that is its own, whether it
    is being installed or resident, and the bytes the slot holds.  Every operation of
    [ExpertArena] is an update of this view at one expert, which is what the residency
    manager is verified against. *)
From S2P Require Import Prelude Layout ExpertVram ExpertArena ArenaSteps.
Local Open Scope N_scope.

Record Held := { h_slot : nat; h_owner : GpuNativeQ4ExpertSlotOwner; h_bytes : list byte }.

Definition holder (a : GpuNativeQ4ExpertArena) (id : nat) : option Held :=
  f ← mjoin (logical_slots (state a) !! id);
  sl ← slots (state a) !! f;
  bytes ← slot_bytes a (s_location sl);
  Some {| h_slot := f; h_owner := owner sl; h_bytes := bytes |}.

(** The view of [a'] is that of [a], with expert [id] changed to [h]. *)
Definition changes (id : nat) (h : option Held) (a a' : GpuNativeQ4ExpertArena) : Prop :=
  arena_ok a' /\ same_arena a a' /\ forall i, holder a' i = if decide (i = id) then h else holder a i.

(** The view stays. *)
Definition keeps (a a' : GpuNativeQ4ExpertArena) : Prop :=
  arena_ok a' /\ same_arena a a' /\ forall i, holder a' i = holder a i.

(** The expert of a key, as an index of the tables. *)
Definition expert_of (k : GpuNativeQ4ExpertKey) : nat := N.to_nat (expert_id k).

(** The permit is of this arena, and its slot is reserved for it. *)
Definition sound (a : GpuNativeQ4ExpertArena) (p : GpuNativeQ4ExpertInstallPermit) : Prop :=
  r_key (p_residency p) = p_key p /\ key_layer (p_key p) = arena_layer a /\ expert_id (p_key p) < num_experts (arena_geometry a) /\
  location_for_flat_slot (arena_layout a) (N.of_nat (flat_slot p)) = Ok (r_location (p_residency p)).
Definition reserves (p : GpuNativeQ4ExpertInstallPermit) (b : list byte) : Held :=
  {| h_slot := flat_slot p; h_owner := Installing (p_key p) (r_epoch (p_residency p)) (install_ticket p); h_bytes := b |}.
Definition resides (p : GpuNativeQ4ExpertInstallPermit) (b : list byte) : Held :=
  {| h_slot := flat_slot p; h_owner := Resident (p_residency p); h_bytes := b |}.

Section view.
Implicit Types (a : GpuNativeQ4ExpertArena) (p : GpuNativeQ4ExpertInstallPermit) (id : nat).

Lemma slot_has_bytes a f sl : arena_ok a -> slots (state a) !! f = Some sl -> is_Some (slot_bytes a (s_location sl)).
Proof.
  intros Hok Hf. destruct (slot_place a f sl Hok Hf) as (b & p & m & _ & _ & _ & _ & _ & _ & _ & _ & Hm & _).
  unfold slot_bytes. rewrite Hm. by eexists.
Qed.

Lemma holder_Some a id h :
  arena_ok a -> holder a id = Some h <->
  logical_slots (state a) !! id = Some (Some (h_slot h)) /\
  exists sl, slots (state a) !! h_slot h = Some sl /\ owner sl = h_owner h /\ slot_bytes a (s_location sl) = Some (h_bytes h).
Proof.
  intros Hok. unfold holder. split.
  - destruct (logical_slots (state a) !! id) as [[f|]|]; cbn; [|done..]. destruct (slots (state a) !! f) as [sl|] eqn:Hf; cbn; [|done].
    destruct (slot_bytes a (s_location sl)) as [b|] eqn:Hb; cbn; [|done]. intros [= <-]. split; [done|]. by exists sl.
  - intros (-> & sl & Hf & Ho & Hb). cbn. rewrite Hf. cbn. rewrite Hb. cbn. destruct h. cbn in *. by subst.
Qed.

(** An expert without a slot. *)
Lemma holder_None a id :
  arena_ok a -> holder a id = None <-> forall f, logical_slots (state a) !! id <> Some (Some f).
Proof.
  intros Hok. split.
  - intros Hh f Hl. destruct (logical_holds _ _ _ _ _ _ (ok_state a Hok) Hl) as (sl & k & Hf & _).
    destruct (slot_has_bytes a f sl Hok Hf) as [b Hb]. unfold holder in Hh. rewrite Hl in Hh. cbn in Hh. rewrite Hf in Hh. cbn in Hh.
    by rewrite Hb in Hh.
  - intros Hn. unfold holder. destruct (logical_slots (state a) !! id) as [[f|]|]; [by destruct (Hn f)|done..].
Qed.

Lemma holder_vacant a id :
  arena_ok a -> N.of_nat id < num_experts (arena_geometry a) -> holder a id = None -> logical_slots (state a) !! id = Some None.
Proof.
  intros Hok Hid Hh. destruct (lookup_lt_is_Some_2 (logical_slots (state a)) id) as [[f|] Hl]; [|by destruct (proj1 (holder_None a id Hok) Hh f)|done].
  rewrite (ok_logical_length _ _ _ _ (ok_state a Hok)). lia.
Qed.

(** What is held is held for the expert, by its latest generation. *)
Lemma holder_key a id h :
  arena_ok a -> holder a id = Some h ->
  exists k, owner_key (h_owner h) = Some k /\ expert_of k = id /\ holds (arena_layer a) (state a) k (h_slot h).
Proof.
  intros Hok (Hl & sl & Hf & Ho & _)%holder_Some; [|done]. destruct (logical_holds _ _ _ _ _ _ (ok_state a Hok) Hl) as (sl' & k & Hf' & Hk & Hid & Hh).
  rewrite Hf in Hf'. injection Hf' as <-. exists k. rewrite <-Ho. split_and!; [done|unfold expert_of; lia|done].
Qed.

(** Different experts have different slots. *)
Lemma holder_slot_inj a i j h h' : arena_ok a -> holder a i = Some h -> holder a j = Some h' -> h_slot h = h_slot h' -> i = j.
Proof.
  intros Hok Hi Hj Heq. destruct (holder_key a i h Hok Hi) as (k & Hk & Hki & _). destruct (holder_key a j h' Hok Hj) as (k' & Hk' & Hkj & _).
  apply (holder_Some a _ _ Hok) in Hi as (_ & sl & Hf & Ho & _). apply (holder_Some a _ _ Hok) in Hj as (_ & sl' & Hf' & Ho' & _).
  rewrite Heq, Hf' in Hf. injection Hf as ->. rewrite <-Ho in Hk. rewrite <-Ho' in Hk'. congruence.
Qed.

(** A slot in use is held by some expert. *)
Lemma used_slot_held a f sl :
  arena_ok a -> slots (state a) !! f = Some sl -> owner sl <> Free ->
  exists k b, owner_key (owner sl) = Some k /\ holder a (expert_of k) = Some {| h_slot := f; h_owner := owner sl; h_bytes := b |}.
Proof.
  intros Hok Hf Ho. assert (exists k, owner_key (owner sl) = Some k) as [k Hk] by (destruct (owner sl); [done|by eexists..]).
  destruct (owner_unique _ _ _ _ _ _ _ (ok_state a Hok) Hf Hk) as (_ & _ & Hl & _). destruct (slot_has_bytes a f sl Hok Hf) as [b Hb].
  exists k, b. split; [done|]. apply (holder_Some a _ _ Hok). cbn. split; [done|]. by exists sl.
Qed.

(** A full table has no more slots than there are experts that hold one. *)
Lemma full_holders a (ids : list nat) :
  arena_ok a -> Forall (fun sl => owner sl <> Free) (slots (state a)) -> (forall i, is_Some (holder a i) -> i ∈ ids) ->
  (length (slots (state a)) <= length ids)%nat.
Proof.
  intros Hok Hfull Hids.
  assert (Hall : forall f, (f < length (slots (state a)))%nat -> exists i h, holder a i = Some h /\ h_slot h = f).
  { intros f Hlt. destruct (lookup_lt_is_Some_2 _ _ Hlt) as [sl Hf].
    destruct (used_slot_held a f sl Hok Hf) as (k & b & _ & Hh); [by eapply Forall_lookup_1 in Hfull|]. by eexists _, _. }
  set (slot_of := fun i => match holder a i with Some h => h_slot h | None => length (slots (state a)) end).
  assert (Hsub : seq 0 (length (slots (state a))) ⊆+ (slot_of <$> ids)); [|by apply submseteq_length in Hsub; rewrite length_seq, length_fmap in Hsub].
  apply NoDup_submseteq; [apply NoDup_seq|]. intros f [_ Hf]%elem_of_seq. destruct (Hall f Hf) as (i & h & Hh & Hs). apply list_elem_of_fmap. exists i. unfold slot_of. rewrite Hh.
  split; [done|]. apply Hids. by eexists.
Qed.

(** ** Frames *)

(** An expert whose entry and slot are as before. *)
Lemma holder_same a a' id :
  logical_slots (state a') !! id = logical_slots (state a) !! id ->
  (forall f sl, logical_slots (state a) !! id = Some (Some f) -> slots (state a) !! f = Some sl ->
     slots (state a') !! f = Some sl /\ slot_bytes a' (s_location sl) = slot_bytes a (s_location sl)) ->
  (forall f, logical_slots (state a) !! id = Some (Some f) -> is_Some (slots (state a) !! f)) ->
  holder a' id = holder a id.
Proof.
  intros Hl Hs Hsome. unfold holder. rewrite Hl. destruct (logical_slots (state a) !! id) as [[f|]|] eqn:Hlo; cbn; [|done..].
  destruct (Hsome f eq_refl) as [sl Hf]. destruct (Hs f sl eq_refl Hf) as [-> Hb]. rewrite Hf. cbn. by rewrite Hb.
Qed.

(** Changes of the table at one expert and its slot. *)
Lemma changes_slot a a' id f h :
  arena_ok a -> arena_ok a' -> same_arena a a' -> holder a' id = h ->
  (forall i, i <> id -> logical_slots (state a') !! i = logical_slots (state a) !! i) ->
  (forall i, i <> id -> logical_slots (state a) !! i <> Some (Some f)) ->
  (forall f' sl, f' <> f -> slots (state a) !! f' = Some sl -> slots (state a') !! f' = Some sl /\ slot_bytes a' (s_location sl) = slot_bytes a (s_location sl)) ->
  changes id h a a'.
Proof.
  intros Hok Hok' Hsame Hh Hl Hf Hs. split; [done|]. split; [done|]. intros i. case_decide as Hi; [by subst|].
  apply holder_same; [by apply Hl| |].
  - intros f' sl Hl' Hf'. apply Hs; [|done]. intros ->. by apply (Hf i).
  - intros f' Hl'. destruct (logical_holds _ _ _ _ _ _ (ok_state a Hok) Hl') as (sl & _ & Hf' & _). by eexists.
Qed.

Lemma bytes_same a a' loc : same_arena a a' -> bank_memory a' = bank_memory a -> slot_bytes a' loc = slot_bytes a loc.
Proof. intros Hs Hb. unfold slot_bytes. by rewrite (same_geometry a a' Hs), Hb. Qed.

(** Nothing the view shows has changed. *)
Lemma keeps_tables a a' :
  arena_ok a' -> same_arena a a' -> bank_memory a' = bank_memory a ->
  logical_slots (state a') = logical_slots (state a) -> slots (state a') = slots (state a) -> keeps a a'.
Proof.
  intros Hok' Hsame Hb Hl Hs. split; [done|]. split; [done|]. intros i. unfold holder. rewrite Hl, Hs.
  destruct (mjoin (logical_slots (state a) !! i)) as [f|]; cbn; [|done]. destruct (slots (state a) !! f) as [sl|]; cbn; [|done].
  by rewrite (bytes_same a a').
Qed.

Lemma view_kept a : arena_ok a -> keeps a a.
Proof. intros Hok. by split_and!. Qed.

Lemma other_slot a i id h :
  arena_ok a -> holder a id = Some h -> i <> id -> logical_slots (state a) !! i <> Some (Some (h_slot h)).
Proof.
  intros Hok Hh Hne Hl. apply Hne. destruct (logical_holds _ _ _ _ _ _ (ok_state a Hok) Hl) as (sl & k & Hf & Hk & _).
  destruct (slot_has_bytes a _ sl Hok Hf) as [b Hb].
  apply (holder_slot_inj a i id {| h_slot := h_slot h; h_owner := owner sl; h_bytes := b |} h); [done| |done|done].
  apply (holder_Some a _ _ Hok). split; [done|]. by exists sl.
Qed.

(** ** Reservations *)

Lemma current_view a p :
  arena_ok a -> reservation_current p (state a) = true <-> exists b, holder a (expert_of (p_key p)) = Some (reserves p b).
Proof.
  intros Hok. rewrite reservation_current_true. split.
  - intros (_ & Hl & sl & Hf & Ho). destruct (slot_has_bytes a _ sl Hok Hf) as [b Hb]. exists b. apply (holder_Some a _ _ Hok).
    split; [done|]. by exists sl.
  - intros [b Hh]. destruct (holder_key a _ _ Hok Hh) as (k & [= <-] & _ & _ & _ & Hl & Hlat). split; [done|]. split; [done|].
    apply (holder_Some a _ _ Hok) in Hh as (_ & sl & Hf & Ho & _). by exists sl.
Qed.

(** The slot of a live permit. *)
Lemma held_slot a p b :
  arena_ok a -> holder a (expert_of (p_key p)) = Some (reserves p b) ->
  exists sl, slots (state a) !! flat_slot p = Some sl /\ owner sl = Installing (p_key p) (r_epoch (p_residency p)) (install_ticket p) /\
    r_epoch (p_residency p) = last_epoch sl /\ 1 <= last_epoch sl /\
    logical_slots (state a) !! expert_of (p_key p) = Some (Some (flat_slot p)).
Proof.
  intros Hok (Hl & sl & Hf & Ho & _)%holder_Some; [|done]. cbn in *. exists sl. pose proof (ok_owner _ _ _ _ (ok_state a Hok) _ _ Hf) as How.
  unfold owner_ok in How. rewrite Ho in How. destruct How as (He & H1 & _). split_and!; [done|done|done|lia|done].
Qed.

Lemma sound_permit a p b : arena_ok a -> sound a p -> holder a (expert_of (p_key p)) = Some (reserves p b) -> permit_ok a p.
Proof.
  intros Hok (Hk & _ & Hid & Hloc) Hh. destruct (held_slot a p b Hok Hh) as (sl & Hf & _ & He & H1 & _). split; [done|]. split; [done|].
  exists sl. destruct (ok_location _ _ _ _ (ok_state a Hok) _ _ Hf) as [Hloc' _]. rewrite Hloc in Hloc'. injection Hloc' as ->.
  split_and!; [done|done|lia|lia].
Qed.

Lemma sound_same a a' p : same_arena a a' -> sound a p -> sound a' p.
Proof. intros (_ & Hl & Hp) (H1 & H2 & H3 & H4). unfold sound, arena_geometry, arena_layout in *. rewrite Hl, Hp. by split_and!. Qed.

(** What a reservation does to the tables. *)
Lemma reserve_tables key a r a' :
  reserve key a = Some (r, a') ->
  match r with
  | Ok (Install p) => p_key p = key /\ r_key (p_residency p) = key /\ exists sl sl',
      slots (state a) !! flat_slot p = Some sl /\ s_location sl' = s_location sl /\ r_location (p_residency p) = s_location sl /\
      owner sl' = Installing key (r_epoch (p_residency p)) (install_ticket p) /\
      slots (state a') = <[flat_slot p := sl']> (slots (state a)) /\
      logical_slots (state a') = <[expert_of key := Some (flat_slot p)]> (logical_slots (state a))
  | _ => slots (state a') = slots (state a) /\ logical_slots (state a') = logical_slots (state a)
  end.
Proof.
  unfold reserve. set (a1 := with_state _ a).
  assert (Hs : slots (state a1) = slots (state a)) by done. assert (Hl : logical_slots (state a1) = logical_slots (state a)) by done. clearbody a1.
  destruct (find_free 0 None _) as [[f|] [ex|]]; [| |by intros [= <- <-]..].
  all: destruct (checked_add u64_max _ 1) as [next|]; [|by intros [= <- <-]]; change (slots (state (with_state _ a1))) with (slots (state a1));
    rewrite Hs; destruct (slots (state a) !! f) as [sl|] eqn:Hf; cbn [mbind option_bind]; [|done];
    (destruct (checked_add u32_max _ 1) as [e|]; [|by intros [= <- <-]]); intros [= <- <-]; cbn [p_key p_residency r_key flat_slot]; split; [done|];
    split; [done|]; exists sl, (reserved f sl key e (next_install_ticket (state a1))); split; [done|]; cbn; rewrite ?Hs, ?Hl; split_and!; reflexivity.
Qed.

(** The errors of a reservation. *)
Definition acquire_error a (key : GpuNativeQ4ExpertKey) (e : GpuNativeBootstrapError) : Prop :=
  e = ExpertLayerMismatch /\ key_layer key <> arena_layer a \/
  e = ExpertLogicalIdOutOfRange /\ num_experts (arena_geometry a) <= expert_id key \/
  e = InvalidExpertLogicalGeneration /\ logical_generation key = 0 \/
  e = ExpertSlotEpochExhausted \/ e = ExpertInstallTicketExhausted.

(** An expert without a slot is refused as stale or out of range, or reserved. *)
Lemma acquire_vacant key a r a' :
  arena_ok a -> holder a (expert_of key) = None -> acquire_with_unpublish key a = Some (r, a') ->
  (a' = a /\ exists e, r = Err e /\ acquire_error a key e) \/ (r = Ok StaleRequester /\ a' = with_state (count stale) a) \/
  (key_layer key = arena_layer a /\ expert_id key < num_experts (arena_geometry a) /\ logical_generation key <> 0 /\ reserve key a = Some (r, a')).
Proof.
  intros Hok Hh. unfold acquire_with_unpublish, acquire_error. fold (expert_of key).
  destruct (N.eqb_spec (key_layer key) (arena_layer a)) as [Hk|]; cbn [negb]; [|intros [= <- <-]; left; split; [done|]; eexists; split; [done|tauto]].
  destruct (N.leb_spec (num_experts (arena_geometry a)) (expert_id key)) as [|Hid]; [intros [= <- <-]; left; split; [done|]; eexists; split; [done|tauto]|].
  destruct (N.eqb_spec (logical_generation key) 0) as [|Hg]; [intros [= <- <-]; left; split; [done|]; eexists; split; [done|tauto]|].
  destruct (latest_generations (state a) !! expert_of key) as [[latest|]|]; cbn [mbind option_bind]; [|intros H; right; by right|done].
  destruct (logical_generation key <? latest); [intros [= <- <-]; right; by left|].
  rewrite (holder_vacant a) by (first [done|unfold expert_of; lia]). intros H. right. by right.
Qed.

Lemma acquire_view key a :
  arena_ok a -> holder a (expert_of key) = None ->
  exists r a', acquire_with_unpublish key a = Some (r, a') /\
    match r with
    | Ok (Install p) => p_key p = key /\ sound a p /\ exists b, changes (expert_of key) (Some (reserves p b)) a a'
    | Ok NoPhysicalSlot => keeps a a' /\ Forall (fun sl => owner sl <> Free) (slots (state a))
    | Ok StaleRequester => keeps a a'
    | Ok _ => False
    | Err e => keeps a a' /\ acquire_error a key e
    end.
Proof.
  intros Hok Hh. destruct (acquire_ok key a Hok) as (r & a' & Ha & Hok' & Hsame & Hbank & _ & _ & Hout). exists r, a'. split; [done|].
  destruct (acquire_vacant key a r a' Hok Hh Ha) as [(-> & e & -> & He)|[[-> ->]|(Hk & Hid & Hg & Hr)]];
    [by split; [apply view_kept|]|by apply keeps_tables|].
  assert (Hvac := holder_vacant a (expert_of key) Hok ltac:(unfold expert_of; lia) Hh).
  destruct (reserve_spec key a Hok Hk Hg Hid Hvac) as (r2 & a2 & Hr2 & _ & _ & _ & _ & _ & Hres). rewrite Hr in Hr2. injection Hr2 as <- <-.
  pose proof (reserve_tables key a r a' Hr) as Htab.
  destruct r as [[r|p| | |]|e]; [done| |done|done|by destruct Htab; split; [apply keeps_tables|]|].
  2:{ destruct Htab. split; [by apply keeps_tables|]. unfold acquire_error. destruct e; first [done|tauto]. }
  destruct Htab as (Hpk & Hrk & sl & sl' & Hf & Hloc & Hrl & Ho & Hs & Hl). split; [done|].
  destruct (slot_has_bytes a _ sl Hok Hf) as [b Hb]. split.
  - split; [congruence|]. rewrite Hpk, Hrl. split; [done|]. split; [done|]. apply (ok_location _ _ _ _ (ok_state a Hok) _ _ Hf).
  - exists b. apply (changes_slot a a' _ (flat_slot p)); try done.
    + apply (holder_Some a' _ _ Hok'). cbn. rewrite Hl, Hs. split; [apply list_lookup_insert_eq; by eapply lookup_lt_Some|].
      exists sl'. rewrite Hpk, Ho, Hloc, (bytes_same a a') by done. split; [apply list_lookup_insert_eq; by eapply lookup_lt_Some|done].
    + intros i Hi. rewrite Hl. by apply list_lookup_insert_ne.
    + intros i Hi Hli. destruct Hres as (_ & _ & sl2 & Hf2 & Hfree & _).
      destruct (logical_holds _ _ _ _ _ _ (ok_state a Hok) Hli) as (sl3 & k & Hf3 & Hk3 & _). rewrite Hf2 in Hf3. injection Hf3 as <-. by rewrite Hfree in Hk3.
    + intros f' sl2 Hf' Hf2. rewrite Hs, list_lookup_insert_ne by done. split; [done|by apply bytes_same].
Qed.

(** ** Giving up and retiring *)

(** Freeing the slot an expert holds. *)
Lemma freed_view a a' id h :
  arena_ok a -> arena_ok a' -> same_arena a a' -> bank_memory a' = bank_memory a -> holder a id = Some h ->
  logical_slots (state a') = <[id := None]> (logical_slots (state a)) ->
  slots (state a') = alter (set_owner Free) (h_slot h) (slots (state a)) -> changes id None a a'.
Proof.
  intros Hok Hok' Hsame Hbank Hh Hl Hs. apply (changes_slot a a' id (h_slot h)); try done.
  - apply (holder_None a' _ Hok'). intros f. rewrite Hl, list_lookup_insert_eq; [done|].
    apply (holder_Some a _ _ Hok) in Hh as [Hh _]. by eapply lookup_lt_Some.
  - intros i Hi. rewrite Hl. by apply list_lookup_insert_ne.
  - intros i Hi. by apply (other_slot a i id h).
  - intros f' sl Hf' Hf. rewrite Hs, list_lookup_alter_ne by done. split; [done|by apply bytes_same].
Qed.

Lemma drop_view a p b :
  arena_ok a -> holder a (expert_of (p_key p)) = Some (reserves p b) ->
  exists a', drop_permit p a = Some a' /\ changes (expert_of (p_key p)) None a a'.
Proof.
  intros Hok Hh. destruct (drop_ok a p Hok) as (a' & Hd & Hok' & Hsame & Hbank & _). exists a'. split; [done|].
  destruct (held_slot a p b Hok Hh) as (sl & Hf & Ho & _ & _ & Hl). unfold drop_permit, cancel_install in Hd. rewrite Hf in Hd. cbn in Hd.
  rewrite Ho, N.eqb_refl in Hd. cbn [negb] in Hd. fold (expert_of (p_key p)) in Hd. rewrite Hl in Hd. cbn [mjoin option_join] in Hd.
  rewrite bool_decide_eq_true_2 in Hd by done. injection Hd as <-. by apply (freed_view a _ _ (reserves p b)).
Qed.

Lemma retire_view a r f b :
  arena_ok a -> holder a (expert_of (r_key r)) = Some {| h_slot := f; h_owner := Resident r; h_bytes := b |} ->
  exists a', retire_with_unpublish (r_key r) a = Some (Ok Retired, a') /\ changes (expert_of (r_key r)) None a a'.
Proof.
  intros Hok Hh. destruct (retire_ok (r_key r) a Hok) as (o & a' & Hr & (Hok' & Hsame & Hbank & _) & _).
  destruct (holder_key a _ _ Hok Hh) as (k & [= <-] & _ & Hk & _ & Hl & Hlat). pose proof Hh as Hslot.
  apply (holder_Some a _ _ Hok) in Hslot as (_ & sl & Hf & Ho & _). cbn in *.
  pose proof (lookup_lt_Some _ _ _ Hl) as Hid. rewrite (ok_logical_length _ _ _ _ (ok_state a Hok)) in Hid.
  unfold retire_with_unpublish in Hr |- *. rewrite Hk, N.eqb_refl in Hr |- *. cbn [negb] in Hr |- *.
  rewrite (proj2 (N.leb_gt _ _)) in Hr |- * by lia. rewrite Hlat in Hr |- *. cbn [mbind option_bind] in Hr |- *.
  rewrite N.ltb_irrefl, N.eqb_refl in Hr |- *. cbn [negb] in Hr |- *. rewrite Hl in Hr |- *. cbn [mbind option_bind] in Hr |- *.
  rewrite Hf in Hr |- *. cbn [mbind option_bind] in Hr |- *. rewrite Ho, bool_decide_eq_true_2 in Hr |- * by done. cbn [negb] in Hr |- *.
  rewrite (mapping_offset_ok (num_experts (arena_geometry a))) in Hr |- *
    by (destruct (ok_layout a Hok) as (l & c & Hgeo & _); pose proof (geometry_experts _ Hgeo); lia).
  injection Hr as <- <-. eexists. split; [reflexivity|]. by apply (freed_view a _ _ {| h_slot := f; h_owner := Resident r; h_bytes := b |}).
Qed.

(** ** Installation *)

(** The refusals of a payload. *)
Definition payload_error (e : GpuNativeBootstrapError) : Prop :=
  e = ExpertPayloadTooShort \/ e = ExpertPayloadTrailingBytes \/ e = ExpertPayloadNonZeroPadding.

Lemma checked_new_error g e payload err : 1 <= e -> checked_new g e payload = Err err -> payload_error err.
Proof.
  intros He. unfold checked_new, validate_q4_expert_payload, payload_error.
  destruct (lenN payload <? _); [intros [= <-]; tauto|]. destruct (_ <? lenN payload); [intros [= <-]; tauto|].
  destruct (existsb _ _); [intros [= <-]; tauto|]. cbn. destruct (N.eqb_spec e 0); [lia|done].
Qed.

Lemma stage_check_view a p b payload :
  arena_ok a -> sound a p -> holder a (expert_of (p_key p)) = Some (reserves p b) ->
  exists r a', stage_check p payload a = Some (r, a') /\
    match r with
    | Ok w => a' = a /\ w_permit w = p /\ c_payload (w_checked w) = payload /\
        checked_new (arena_geometry a) (r_epoch (p_residency p)) payload = Ok (w_checked w) /\ offsets_of a p (w_offsets w)
    | Err e => changes (expert_of (p_key p)) None a a' /\ payload_error e
    end.
Proof.
  intros Hok Hs Hh. pose proof (sound_permit a p b Hok Hs Hh) as Hp. destruct (offsets_ok a p Hok Hp) as (o & Ho & Hof).
  destruct (held_slot a p b Hok Hh) as (sl & _ & _ & He & H1 & _). unfold stage_check.
  destruct (checked_new _ _ payload) as [c|e] eqn:Hc; cbn [mbind result_bind].
  - rewrite Ho. cbn [mbind result_bind]. rewrite (proj2 (current_view a p Hok)) by eauto. cbn [negb]. eexists (Ok _), a. split; [reflexivity|].
    cbn [w_permit w_checked w_offsets]. split; [done|]. split; [done|]. split; [by destruct (checked_new_ok _ _ _ _ Hc) as [-> _]|done].
  - destruct (drop_view a p b Hok Hh) as (a' & -> & Hch). cbn [mbind option_bind]. eexists (Err e), a'. split; [reflexivity|].
    split; [done|]. eapply checked_new_error; [|exact Hc]. lia.
Qed.

(** Writing the slot of a permit. *)
Lemma wrote_view a a' p b bytes :
  arena_ok a -> arena_ok a' -> same_arena a a' -> state a' = state a -> holder a (expert_of (p_key p)) = Some (reserves p b) ->
  sound a p -> slot_bytes a' (r_location (p_residency p)) = Some bytes ->
  (forall f sl, slots (state a) !! f = Some sl -> f <> flat_slot p -> slot_bytes a' (s_location sl) = slot_bytes a (s_location sl)) ->
  changes (expert_of (p_key p)) (Some (reserves p bytes)) a a'.
Proof.
  intros Hok Hok' Hsame Hst Hh (_ & _ & _ & Hloc) Hb Hother. destruct (held_slot a p b Hok Hh) as (sl & Hf & Ho & _ & _ & Hl).
  destruct (ok_location _ _ _ _ (ok_state a Hok) _ _ Hf) as [Hloc' _]. rewrite Hloc in Hloc'. injection Hloc' as Hloc'.
  apply (changes_slot a a' _ (flat_slot p)); try done.
  - apply (holder_Some a' _ _ Hok'). rewrite Hst. split; [done|]. exists sl. by rewrite <-Hloc'.
  - intros i _. by rewrite Hst.
  - intros i Hi. by apply (other_slot a i (expert_of (p_key p)) (reserves p b)).
  - intros f' sl' Hf' Hsl. rewrite Hst. split; [done|]. by apply (Hother f').
Qed.

Lemma stage_write_view a w b nz payload view :
  arena_ok a -> sound a (w_permit w) -> holder a (expert_of (p_key (w_permit w))) = Some (reserves (w_permit w) b) ->
  checked_new (arena_geometry a) (r_epoch (p_residency (w_permit w))) payload = Ok (w_checked w) -> offsets_of a (w_permit w) (w_offsets w) ->
  view_ok a view ->
  exists r a', stage_write nz w view a = Some (r, a') /\
    match r with
    | Ok i => permit i = w_permit w /\ prepared i = w_offsets w /\
        changes (expert_of (p_key (w_permit w)))
          (Some (reserves (w_permit w) (physical_bytes (arena_geometry a) (r_epoch (p_residency (w_permit w))) payload))) a a'
    | Err e => changes (expert_of (p_key (w_permit w))) None a a' /\ e = ExpertDirectStagingUnavailable /\ view = None
    end.
Proof.
  intros Hok Hs Hh Hc (_ & Hpo & _) Hv. unfold stage_write. rewrite Hpo.
  pose proof (physical_write_ok a (w_permit w) nz payload (w_checked w) view Hok (sound_permit a _ b Hok Hs Hh) Hc Hv) as Hw. destruct view as [v|].
  - destruct Hw as (a' & -> & Hok' & Hsame & Hst & _ & Hb & Hother). cbn [mbind option_bind]. eexists (Ok _), a'. split; [reflexivity|].
    split; [done|]. split; [done|]. by apply (wrote_view a a' _ b).
  - rewrite Hw. cbn [mbind option_bind]. destruct (drop_view a _ b Hok Hh) as (a' & -> & Hch). cbn [mbind option_bind].
    eexists (Err _), a'. by split.
Qed.

(** Publishing a permit's residency. *)
Lemma publish_view a p o b :
  arena_ok a -> sound a p -> offsets_of a p o -> holder a (expert_of (p_key p)) = Some (reserves p b) ->
  changes (expert_of (p_key p)) (Some (resides p b)) a (publish p o a).
Proof.
  intros Hok Hs Ho Hh. pose proof (sound_permit a p b Hok Hs Hh) as Hp.
  destruct (publish_publishes a p o Hok Hp Ho) as [(Hok' & Hsame & _) Hbank]; [apply (current_view a p Hok); by exists b|].
  destruct (held_slot a p b Hok Hh) as (sl & Hf & _ & _ & _ & Hl). apply (changes_slot a _ _ (flat_slot p)); try done.
  - apply (holder_Some _ _ _ Hok'). split; [done|]. cbn. rewrite list_lookup_alter_eq, Hf. eexists. split; [reflexivity|]. cbn.
    split; [done|]. rewrite (bytes_same a) by done. apply (holder_Some a _ _ Hok) in Hh as (_ & sl' & Hf' & _ & Hb). cbn in *. congruence.
  - intros i Hi. by apply (other_slot a i (expert_of (p_key p)) (reserves p b)).
  - intros f' sl' Hf' Hsl. split; [cbn; by rewrite list_lookup_alter_ne|by apply bytes_same].
Qed.

Lemma commit_view a i b :
  arena_ok a -> sound a (permit i) -> offsets_of a (permit i) (prepared i) -> holder a (expert_of (p_key (permit i))) = Some (reserves (permit i) b) ->
  exists a', commit_with_mapping_writer i a = Some (Ok (p_residency (permit i)), a') /\
    changes (expert_of (p_key (permit i))) (Some (resides (permit i) b)) a a'.
Proof.
  intros Hok Hs Ho Hh. unfold commit_with_mapping_writer. rewrite (proj2 (current_view a (permit i) Hok)) by eauto. cbn [negb].
  eexists. split; [reflexivity|]. by apply publish_view.
Qed.

(** Changing one expert twice. *)
Lemma changes_twice id h h' a b c : changes id h a b -> changes id h' b c -> changes id h' a c.
Proof.
  intros (_ & Hs & Hb) (Hc & Hs' & Hc'). split; [done|]. split; [by transitivity b|]. intros i. rewrite Hc', Hb. by case_decide.
Qed.

Lemma changes_at id h a a' : changes id h a a' -> holder a' id = h.
Proof. intros (_ & _ & H). by rewrite H, decide_True. Qed.

Lemma install_view a p b payload view :
  arena_ok a -> sound a p -> holder a (expert_of (p_key p)) = Some (reserves p b) -> view_ok a view ->
  exists r a', install p payload view a = Some (r, a') /\
    match r with
    | Ok r => r = p_residency p /\
        changes (expert_of (p_key p)) (Some (resides p (physical_bytes (arena_geometry a) (r_epoch (p_residency p)) payload))) a a'
    | Err e => changes (expert_of (p_key p)) None a a' /\ (payload_error e \/ e = ExpertDirectStagingUnavailable /\ view = None)
    end.
Proof.
  intros Hok Hs Hh Hv. destruct (stage_check_view a p b payload Hok Hs Hh) as (r & a' & Hsc & Hr). unfold stage_check in Hsc. unfold install.
  pose proof (sound_permit a p b Hok Hs Hh) as Hp. destruct (offsets_ok a p Hok Hp) as (o & Ho & Hof).
  destruct (checked_new _ _ payload) as [c|e] eqn:Hc; cbn [mbind result_bind] in Hsc |- *.
  2:{ destruct (drop_permit p a) as [a2|] eqn:Hd; cbn in Hsc |- *; [|done]. injection Hsc as <- <-. eexists (Err e), a2. split; [done|].
      destruct Hr. split; [done|by left]. }
  clear Hsc Hr. rewrite Ho. cbn [mbind result_bind]. rewrite (proj2 (current_view a p Hok)) by eauto. cbn [negb]. rewrite (proj1 (proj2 Hof)).
  pose proof (physical_write_ok a p false payload c view Hok Hp Hc Hv) as Hw. destruct view as [v|].
  - destruct Hw as (a1 & -> & Hok1 & Hsame & Hst & _ & Hb & Hother). cbn [mbind option_bind]. eexists (Ok _), _. split; [reflexivity|].
    split; [done|]. pose proof (wrote_view a a1 p b _ Hok Hok1 Hsame Hst Hh Hs Hb Hother) as Hch. eapply changes_twice; [exact Hch|].
    apply publish_view; [done|by apply (sound_same a)|by eapply offsets_of_same|by apply changes_at in Hch].
  - rewrite Hw. cbn [mbind option_bind]. destruct (drop_view a p b Hok Hh) as (a2 & -> & Hch). cbn [mbind option_bind].
    eexists (Err _), a2. split; [done|]. split; [done|by right].
Qed.

(** ** Queries *)

Lemma exact_view context a r :
  arena_ok a -> context_id a = context ->
  contains_exact_residency context r a = true <-> exists f b, holder a (expert_of (r_key r)) = Some {| h_slot := f; h_owner := Resident r; h_bytes := b |}.
Proof.
  intros Hok Hctx. rewrite (proj1 (exact_residency_iff a context r Hok)). split.
  - intros (_ & f & sl & Hf & Ho). destruct (used_slot_held a f sl Hok Hf) as (k & b & Hk & Hh); [by rewrite Ho|]. exists f, b.
    rewrite Ho in *. cbn in Hk. by injection Hk as <-.
  - intros (f & b & (_ & sl & Hf & Ho & _)%holder_Some); [|done]. split; [done|]. by exists f, sl.
Qed.

(** What the device reads of a resident expert whose slot has a payload's physical form. *)
Lemma resident_read a id f r payload :
  arena_ok a ->
  holder a id = Some {| h_slot := f; h_owner := Resident r; h_bytes := physical_bytes (arena_geometry a) (r_epoch r) payload |} ->
  exists e, resolve (N.of_nat id) a = Some e /\ execute e a = Some (take (N.to_nat (logical_expert_bytes (arena_geometry a))) payload).
Proof.
  intros Hok Hh. destruct (holder_key a id _ Hok Hh) as (k & [= <-] & Hid & _). apply (holder_Some a id _ Hok) in Hh as (_ & sl & Hf & Ho & Hb).
  cbn [h_slot h_owner h_bytes] in *. destruct (resolve_published a f sl r Hok Hf Ho) as (e & Hm & Hr). exists e. unfold expert_of in Hid.
  split; [by rewrite <-Hid, N2Nat.id|].
  pose proof (ok_owner _ _ _ _ (ok_state a Hok) f sl Hf) as How. unfold owner_ok in How. rewrite Ho in How. destruct How as (Hl & Hep & He & _).
  pose proof (proj2 (ok_location _ _ _ _ (ok_state a Hok) f sl Hf)) as Hmax.
  assert (Hof : of_arena a r) by (exists f, sl; split_and!; [done|done|lia|lia]).
  destruct (entry_place a r e Hok Hof Hm) as (Hee & Hun & Hloc). unfold execute.
  destruct (N.eqb_spec (m_location e) GPU_NATIVE_EXPERT_UNMAPPED); [done|]. cbv zeta. rewrite Hloc, Hl, Hb. cbn [mbind option_bind].
  destruct (read_physical (arena_geometry a) (r_epoch r) payload) as [-> ->]; [lia|]. rewrite Hee, N.eqb_refl.
  by destruct (N.eqb_spec (r_epoch r) 0); [lia|].
Qed.

(** Only residents resolve. *)
Lemma resolved_held a (id : N) e :
  arena_ok a -> resolve id a = Some e ->
  exists f r b, holder a (N.to_nat id) = Some {| h_slot := f; h_owner := Resident r; h_bytes := b |} /\ mapping_entry r = Ok e.
Proof.
  intros Hok Hr. destruct (resolved_resident a id e Hok Hr) as (f & sl & r & Hf & Ho & Hid & Hm).
  destruct (used_slot_held a f sl Hok Hf) as (k & b & Hk & Hh); [by rewrite Ho|]. rewrite Ho in *. injection Hk as <-. exists f, r, b.
  split; [|done]. unfold expert_of in Hh. by rewrite Hid in Hh.
Qed.

End view.
