(* ===== verification/TieredResidency.v ===== *)
(** The tiered residency manager of the native GPU path
    ([src/rust-engine/src/gpu_native_residency.rs], and the executor's calls of
    [backend/gpu_native.rs] it makes): for one layer, the records of what is resident in
    the layer's arena, the demand sets that evict, reserve, stage and commit, the
    speculative installs that never evict, and the logical generations that make an
    install stale.

    An operation holds its layer's lock, so it is one transaction over the layer's arena
    and records; what other threads and the device do meanwhile is its environment [env],
    asked at every query of the device, of the logical cache and of the queue.  Staging
    runs on several threads: the schedule [sched] says in which order their steps are
    made, anew each time.  A permit that goes out of scope is dropped where the code drops it.

    Observers, timers and the telemetry of the executor are not modelled, nor is the
    fused source upload of the qualification treatment. *)
From S2P Require Import Prelude Effects Lru Layout ExpertVram ExpertArena ArenaSteps ArenaCreate ArenaView.
Local Open Scope N_scope.

(** ** Data *)

#[export] Instance bootstrap_error_eq_dec : EqDecision GpuNativeBootstrapError.
Proof. solve_decision. Defined.
#[export] Instance tiered_error_eq_dec : EqDecision GpuNativeTieredResidencyError.
Proof. solve_decision. Defined.

Record PhysicalRecord := { pr_key : GpuNativeQ4ExpertKey; pr_residency : GpuNativeQ4ExpertResidency }.

Record ExpertResident := { res_id : N; res_data : list byte }.
Record GpuAdmission := { adm_resident_id : N; adm_generation : N }.

Inductive GpuNativeDemandExpert :=
| Current (global_id : N)
| InstallSource (global_id : N) (resident : ExpertResident) (admission : GpuAdmission).

Definition demand_global_id (d : GpuNativeDemandExpert) : N :=
  match d with Current id | InstallSource id _ _ => id end.

Inductive GpuNativeResidencyPriority := Demand | OracleSafeBoundary | Speculative.
#[export] Instance priority_eq_dec : EqDecision GpuNativeResidencyPriority.
Proof. solve_decision. Defined.

Inductive DemandPhysicalInstallPath :=
| ProductionConcurrentDirectStaging
| QualificationConcurrentDirectStagingFullZero
| QualificationConcurrentDirectStagingNoZeroFill
| SequentialDirectStagingControl
| LegacyFullSlotVecControl.

Definition is_concurrent (p : DemandPhysicalInstallPath) : bool :=
  match p with SequentialDirectStagingControl | LegacyFullSlotVecControl => false | _ => true end.

(** The host fill of the staged paths. *)
Definition no_zero_fill (p : DemandPhysicalInstallPath) : bool :=
  match p with QualificationConcurrentDirectStagingFullZero => false | _ => true end.

Inductive TieredResidencyCounter :=
| vram_hits | vram_misses | physical_current_hits | physical_source_acquisitions
| logical_admissions_for_physical_misses | ram_to_vram_installs | c_physical_evictions
| physical_reinstalls | stale_generation_rejections | demand_requests
| speculative_requests | speculative_vram_hits | speculative_ram_to_vram_installs
| speculative_dropped_capacity_or_pressure.
#[export] Instance counter_eq_dec : EqDecision TieredResidencyCounter.
Proof. solve_decision. Defined.

Inductive GpuNativeSpeculativeProbe := ProbeHit (r : GpuNativeQ4ExpertResidency) | ProbeMiss | DroppedPressure.
Inductive GpuNativeSpeculativeInstall :=
| SpecHit (r : GpuNativeQ4ExpertResidency)
| SpecInstalled (r : GpuNativeQ4ExpertResidency)
| StaleLogicalGeneration
| DroppedCapacityOrPressure.

(** What a query finds: whether the device is lost, which generations the logical cache
    holds, and the content of the staging memory the queue hands out, if any. *)
Record Env := {
  env_lost : bool;
  env_contains : N -> N -> bool;
  env_view : option (nat -> byte)
}.

(** The counters, and how many queries the environment has answered. *)
Record Shared := { counter : TieredResidencyCounter -> N; clock : nat }.

(** A state the counters are part of. *)
Class Shares (S : Type) := { shared : S -> Shared; with_shared : Shared -> S -> S }.


Section manager.
Context `{!LruCache PhysicalRecord}.

Record LayerResidencyState := {
  residents : lru PhysicalRecord;
  last_installed_generations : gmap N N;
  physical_evictions : N
}.

Definition layer_state_default : LayerResidencyState :=
  {| residents := lru_unbounded; last_installed_generations := ∅; physical_evictions := 0 |}.

Record LayerResidency := { arena : GpuNativeQ4ExpertArena; records : LayerResidencyState }.

(** What a transaction works on. *)
Record Txn := { layer : LayerResidency; t_shared : Shared }.
#[export] Instance txn_shares : Shares Txn :=
  {| shared := t_shared; with_shared := fun s t => {| layer := layer t; t_shared := s |} |}.

Record GpuNativeTieredResidencyManager := { layers : list LayerResidency; m_shared : Shared }.
#[export] Instance manager_shares : Shares GpuNativeTieredResidencyManager :=
  {| shared := m_shared; with_shared := fun s m => {| layers := layers m; m_shared := s |} |}.

Abbreviation op S := (M S GpuNativeTieredResidencyError).

Definition with_arena (a : GpuNativeQ4ExpertArena) (t : Txn) : Txn :=
  {| layer := {| arena := a; records := records (layer t) |}; t_shared := t_shared t |}.
Definition with_records (r : LayerResidencyState) (t : Txn) : Txn :=
  {| layer := {| arena := arena (layer t); records := r |}; t_shared := t_shared t |}.
Definition with_residents (r : lru PhysicalRecord) (s : LayerResidencyState) : LayerResidencyState :=
  {| residents := r; last_installed_generations := last_installed_generations s; physical_evictions := physical_evictions s |}.

Definition slot_capacity_of (t : Txn) : N := plan_slot_capacity (plan (arena (layer t))).

(** A call of the arena. *)
Definition on_arena {A} (f : GpuNativeQ4ExpertArena -> option (gres A * GpuNativeQ4ExpertArena)) : op Txn A := fun t =>
  match f (arena (layer t)) with
  | None => None
  | Some (r, a) => Some (backend r, with_arena a t)
  end.

(** The drops of the permits [ps], in order. *)
Fixpoint cancel (ps : list GpuNativeQ4ExpertInstallPermit) (t : Txn) : option Txn :=
  match ps with
  | [] => Some t
  | p :: ps => a ← drop_permit p (arena (layer t)); cancel ps (with_arena a t)
  end.

(** When [m] fails, the permits [ps] the caller still owns are dropped. *)
Definition guarded {A} (ps : list GpuNativeQ4ExpertInstallPermit) (m : op Txn A) : op Txn A := or_else (cancel ps) m.

(** [fetch_add] on a counter. *)
Definition add {St} `{!Shares St} (c : TieredResidencyCounter) (n : N) : op St unit := modify (fun t =>
  with_shared {| counter := fun c' => if decide (c = c') then wrap_add u64_max (counter (shared t) c') n else counter (shared t) c';
                 clock := clock (shared t) |} t).

Section operations.
(** The executor's context and device limits, and the plan's namespace. *)
Variables (context : N) (limits : Limits) (num_layers experts_per_layer : N).
Variables (env : nat -> Env) (sched : nat -> list nat).

(** A query of the environment. *)
Definition ask {St} `{!Shares St} : op St Env :=
  s ← get;
  _ ← modify (with_shared {| counter := counter (shared s); clock := S (clock (shared s)) |});
  mret (env (clock (shared s))).

Definition authoritative_gpu {St} `{!Shares St} : op St unit :=
  e ← ask; if env_lost e then throw (Backend DeviceLost) else mret tt.

Definition contains_generation {St} `{!Shares St} (global_id generation : N) : op St bool :=
  e ← ask; mret (env_contains e global_id generation).

Definition validate : op Txn unit := on_arena (fun a => r ← validate_q4_expert_arena context limits a; Some (r, a)).

Definition acquire_q4_expert_residency (key : GpuNativeQ4ExpertKey) : op Txn GpuNativeQ4ExpertAcquire :=
  _ ← authoritative_gpu; _ ← validate; on_arena (acquire_with_unpublish key).

Definition retire_q4_expert_residency (key : GpuNativeQ4ExpertKey) : op Txn GpuNativeQ4ExpertRetire :=
  _ ← authoritative_gpu; _ ← validate; on_arena (retire_with_unpublish key).

(** What an executor call that is handed a permit checks first. *)
Definition permit_checks : op Txn unit :=
  _ ← authoritative_gpu;
  t ← get;
  if context_id (arena (layer t)) =? context then mret tt else throw (Backend ForeignExpertArena).

Definition identity (global_id : N) : tres GpuNativeLayerExpertId :=
  global_to_layer_local global_id num_layers experts_per_layer.

Definition global_to_q4_expert_key (global_id generation : N) : tres GpuNativeQ4ExpertKey :=
  id ← identity global_id;
  Ok {| key_layer := layer_index id; expert_id := local_expert_id id; logical_generation := generation |}.

(** ** Records *)

Definition current_record_locked (global_id : N) (touch : bool) : op Txn (option PhysicalRecord) :=
  t ← get;
  match lru_peek global_id (residents (records (layer t))) with
  | None => mret None
  | Some record =>
      id ← lift (identity global_id);
      if negb (key_layer (pr_key record) =? layer_index id) || negb (expert_id (pr_key record) =? local_expert_id id) ||
         negb (bool_decide (r_key (pr_residency record) = pr_key record)) || negb (arena_layer (arena (layer t)) =? layer_index id) ||
         negb (contains_exact_residency context (pr_residency record) (arena (layer t)))
      then throw PhysicalIdentityCorrupt
      else if touch then
        let '(record, r) := lru_get global_id (residents (records (layer t))) in
        _ ← modify (with_records (with_residents r (records (layer t))));
        match record with Some record => mret (Some record) | None => panic end
      else mret (Some record)
  end.

Definition retire_metadata_record_locked (global_id : N) (capacity_eviction : bool) : op Txn unit :=
  t ← get;
  match lru_peek global_id (residents (records (layer t))) with
  | None => mret tt
  | Some record =>
      _ ← retire_q4_expert_residency (pr_key record);
      let s := with_residents (snd (lru_pop global_id (residents (records (layer t))))) (records (layer t)) in
      if capacity_eviction then
        _ ← modify (with_records {| residents := residents s; last_installed_generations := last_installed_generations s;
                                    physical_evictions := sat_add u64_max (physical_evictions s) 1 |});
        add c_physical_evictions 1
      else modify (with_records s)
  end.

(** [iter().rev()] starts at the least recently used. *)
Definition oldest_unprotected (r : lru PhysicalRecord) (protected : list N) : option N :=
  List.find (fun id => negb (bool_decide (id ∈ protected))) (reverse (lru_keys r)).

Definition validate_source {St} `{!Shares St} (global_id : N) (resident : ExpertResident) (admission : GpuAdmission) : op St unit :=
  if negb (res_id resident =? global_id) || negb (adm_resident_id admission =? global_id)
  then throw DemandSourceIdentityMismatch
  else
    live ← contains_generation global_id (adm_generation admission);
    if live : bool then mret tt
    else _ ← add stale_generation_rejections 1; throw LogicalAdmissionStale.

(** The bookkeeping of an install that is still current. *)
Definition record_install (global_id generation : N) (record : PhysicalRecord) (installed : bool) : op Txn unit :=
  t ← get;
  let s := records (layer t) in
  let reinstall := installed && bool_decide (last_installed_generations s !! global_id = Some generation) in
  _ ← modify (with_records {| residents := snd (lru_put global_id record (residents s));
                              last_installed_generations :=
                                (if installed then <[global_id := generation]> (last_installed_generations s) else last_installed_generations s);
                              physical_evictions := physical_evictions s |});
  if installed then _ ← add ram_to_vram_installs 1; if reinstall then add physical_reinstalls 1 else mret tt else mret tt.

(** An install whose admission went stale: it is retired. *)
Definition reject_stale (key : GpuNativeQ4ExpertKey) {A} : op Txn A :=
  _ ← retire_q4_expert_residency key; _ ← add stale_generation_rejections 1; throw LogicalAdmissionStale.

(** ** The concurrent install of a demand set's misses *)

Record ReservedPhysicalInstall := {
  ri_index : nat;
  ri_id : N;
  ri_resident : ExpertResident;
  ri_admission : GpuAdmission;
  ri_key : GpuNativeQ4ExpertKey;
  ri_permit : GpuNativeQ4ExpertInstallPermit
}.

Definition reserve_one (index : nat) (global_id : N) (resident : ExpertResident) (admission : GpuAdmission)
    : op Txn ReservedPhysicalInstall :=
  _ ← lift (identity global_id);
  key ← lift (global_to_q4_expert_key global_id (adm_generation admission));
  acquired ← acquire_q4_expert_residency key;
  match acquired with
  | Install permit => mret {| ri_index := index; ri_id := global_id; ri_resident := resident; ri_admission := admission;
                              ri_key := key; ri_permit := permit |}
  | Hit _ => throw PhysicalIdentityCorrupt
  | InstallInProgress => throw ExpertVram.InstallInProgress
  | StaleRequester => _ ← add stale_generation_rejections 1; throw StalePhysicalRequester
  | NoPhysicalSlot => throw ExpertVram.NoPhysicalSlot
  end.

Fixpoint reserve_all (demands : list GpuNativeDemandExpert) (misses : list nat) (reserved : list ReservedPhysicalInstall)
    : op Txn (list ReservedPhysicalInstall) :=
  match misses with
  | [] => mret reserved
  | index :: misses =>
      match demands !! index with
      | Some (InstallSource global_id resident admission) =>
          r ← guarded (ri_permit <$> reserved) (reserve_one index global_id resident admission);
          reserve_all demands misses (reserved ++ [r])
      | _ => panic
      end
  end.

(** Where the worker of a reserved install is: [stage_one], cut where it releases the
    arena's lock. *)
Inductive StageTask :=
| Waiting (p : GpuNativeQ4ExpertInstallPermit) (payload : list byte)
| Filling (w : Staged)
| StagedOk (i : GpuNativeQ4ExpertPreparedInstall)
| StagedErr (e : GpuNativeTieredResidencyError).

Definition staging_view (e : Env) (a : GpuNativeQ4ExpertArena) : option (list byte) :=
  (fun f => f <$> seq 0 (N.to_nat (slot_stride_bytes (arena_geometry a)))) <$> env_view e.

Definition stage_step (nz : bool) (task : StageTask) : op Txn StageTask :=
  match task with
  | Waiting p payload =>
      r ← attempt (_ ← guarded [p] permit_checks; on_arena (stage_check p payload));
      mret (match r with Ok w => Filling w | Err e => StagedErr e end)
  | Filling w =>
      e ← ask; t ← get;
      r ← attempt (on_arena (stage_write nz w (staging_view e (arena (layer t)))));
      mret (match r with Ok i => StagedOk i | Err e => StagedErr e end)
  | done => mret done
  end.

(** The workers make their steps in the order of the schedule, and then the rest. *)
Fixpoint run_schedule (nz : bool) (steps : list nat) (tasks : list StageTask) : op Txn (list StageTask) :=
  match steps with
  | [] => mret tasks
  | i :: steps =>
      match tasks !! i with
      | None => run_schedule nz steps tasks
      | Some task => task ← stage_step nz task; run_schedule nz steps (<[i := task]> tasks)
      end
  end.

Definition collect_physical_stage_results_in_request_order (parallel nz : bool) (tasks : list StageTask) : op Txn (list StageTask) :=
  let in_order := seq 0 (length tasks) ≫= (fun i => [i; i]) in
  t ← get;
  run_schedule nz (if parallel then sched (clock (t_shared t)) ++ in_order else in_order) tasks.

Definition staged_permits (tasks : list StageTask) : list GpuNativeQ4ExpertInstallPermit :=
  omap (fun t => match t with StagedOk i => Some (permit i) | _ => None end) tasks.

(** The ordered commits, up to the first failed stage. *)
Fixpoint commit_all (reserved : list ReservedPhysicalInstall) (tasks : list StageTask)
    (resolved : list (option GpuNativeQ4ExpertResidency)) : op Txn (list (option GpuNativeQ4ExpertResidency)) :=
  match reserved, tasks with
  | [], [] => mret resolved
  | r :: reserved, StagedOk i :: tasks =>
      let rest := staged_permits tasks in
      residency ← guarded rest (_ ← guarded [permit i] permit_checks; on_arena (commit_with_mapping_writer i));
      live ← contains_generation (ri_id r) (adm_generation (ri_admission r));
      if negb live then guarded rest (reject_stale (ri_key r))
      else
        _ ← record_install (ri_id r) (adm_generation (ri_admission r)) {| pr_key := ri_key r; pr_residency := residency |} true;
        if (ri_index r <? length resolved)%nat
        then commit_all reserved tasks (<[ri_index r := Some residency]> resolved) else panic
  | _ :: _, StagedErr e :: tasks => guarded (staged_permits tasks) (throw e)
  | _, _ => panic
  end.

Definition install_parallel_physical_misses_locked (nz : bool) (demands : list GpuNativeDemandExpert) (misses : list nat)
    (resolved : list (option GpuNativeQ4ExpertResidency)) : op Txn (list (option GpuNativeQ4ExpertResidency)) :=
  match misses with
  | [] => mret resolved
  | _ =>
      reserved ← reserve_all demands misses [];
      tasks ← collect_physical_stage_results_in_request_order (2 <=? length misses)%nat nz
                ((fun r => Waiting (ri_permit r) (res_data (ri_resident r))) <$> reserved);
      commit_all reserved tasks resolved
  end.

(** ** The sequential install *)

(** The full-slot vector of the legacy path is a view of zeroes; its memory is always
    there. *)
Definition install_q4_expert_residency (path : DemandPhysicalInstallPath) (p : GpuNativeQ4ExpertInstallPermit) (payload : list byte)
    : op Txn GpuNativeQ4ExpertResidency :=
  _ ← guarded [p] permit_checks;
  t ← get;
  match path with
  | LegacyFullSlotVecControl =>
      on_arena (install p payload (Some (replicate (N.to_nat (slot_stride_bytes (arena_geometry (arena (layer t))))) x00)))
  | SequentialDirectStagingControl => e ← ask; on_arena (install p payload (staging_view e (arena (layer t))))
  | _ => panic
  end.

Definition record_speculative_drop {St} `{!Shares St} : op St unit := add speculative_dropped_capacity_or_pressure 1.

Definition install_locked (global_id : N) (resident : ExpertResident) (admission : GpuAdmission) (speculative : bool)
    (path : DemandPhysicalInstallPath) : op Txn GpuNativeQ4ExpertResidency :=
  _ ← lift (identity global_id);
  key ← lift (global_to_q4_expert_key global_id (adm_generation admission));
  acquired ← acquire_q4_expert_residency key;
  '(residency, installed) ←
    match acquired with
    | Hit hit => mret (hit, false)
    | Install permit => r ← install_q4_expert_residency path permit (res_data resident); mret (r, true)
    | InstallInProgress => throw ExpertVram.InstallInProgress
    | StaleRequester => _ ← add stale_generation_rejections 1; throw StalePhysicalRequester
    | NoPhysicalSlot =>
        _ ← (if speculative : bool then record_speculative_drop else mret tt); throw ExpertVram.NoPhysicalSlot
    end;
  live ← contains_generation global_id (adm_generation admission);
  if negb live then reject_stale key
  else
    _ ← record_install global_id (adm_generation admission) {| pr_key := key; pr_residency := residency |} installed;
    _ ← (if installed && speculative then add speculative_ram_to_vram_installs 1 else mret tt);
    mret residency.

(** ** Demand sets *)

Fixpoint check_demands (layer_index : N) (demands : list GpuNativeDemandExpert) (protected : list N) : op Txn (list N) :=
  match demands with
  | [] => mret protected
  | demand :: demands =>
      let global_id := demand_global_id demand in
      if bool_decide (global_id ∈ protected) then throw DuplicateDemandExpert else
      id ← lift (identity global_id);
      if negb (ExpertVram.layer_index id =? layer_index) then throw DemandLayerMismatch else
      _ ← match demand with
          | InstallSource global_id resident admission => validate_source global_id resident admission
          | Current _ => mret tt
          end;
      check_demands layer_index demands (global_id :: protected)
  end.

(** The hits, touched in order, and the indices of the misses. *)
Fixpoint resolve_demands (index : nat) (demands : list GpuNativeDemandExpert)
    : op Txn (list (option GpuNativeQ4ExpertResidency) * list nat) :=
  match demands with
  | [] => mret ([], [])
  | demand :: demands =>
      record ← current_record_locked (demand_global_id demand) true;
      match record with
      | Some record =>
          _ ← add vram_hits 1; _ ← add physical_current_hits 1;
          '(resolved, misses) ← resolve_demands (S index) demands;
          mret (Some (pr_residency record) :: resolved, misses)
      | None =>
          _ ← add vram_misses 1;
          match demand with
          | InstallSource _ _ _ =>
              '(resolved, misses) ← resolve_demands (S index) demands;
              mret (None :: resolved, index :: misses)
          | Current _ => throw DemandSourceMissing
          end
      end
  end.

(** Every turn evicts a resident. *)
Fixpoint evict (fuel : nat) (misses : N) (protected : list N) : op Txn unit :=
  match fuel with
  | O => panic
  | S fuel =>
      t ← get;
      let r := residents (records (layer t)) in
      if slot_capacity_of t <? sat_add usize_max (lru_len r) misses then
        match oldest_unprotected r protected with
        | None => throw NoEvictablePhysicalSlot
        | Some victim => _ ← retire_metadata_record_locked victim true; evict fuel misses protected
        end
      else mret tt
  end.

Fixpoint install_sequential (path : DemandPhysicalInstallPath) (demands : list GpuNativeDemandExpert) (misses : list nat)
    (resolved : list (option GpuNativeQ4ExpertResidency)) : op Txn (list (option GpuNativeQ4ExpertResidency)) :=
  match misses with
  | [] => mret resolved
  | index :: misses =>
      match demands !! index with
      | Some (InstallSource global_id resident admission) =>
          residency ← install_locked global_id resident admission false path;
          if (index <? length resolved)%nat
          then install_sequential path demands misses (<[index := Some residency]> resolved) else panic
      | _ => panic
      end
  end.

Fixpoint all_resolved (resolved : list (option GpuNativeQ4ExpertResidency)) : tres (list GpuNativeQ4ExpertResidency) :=
  match resolved with
  | [] => Ok []
  | None :: _ => Err DemandSourceMissing
  | Some r :: resolved => rs ← all_resolved resolved; Ok (r :: rs)
  end.

(** From the lookup of the layer on. *)
Definition ensure_demand_set_on (priority : GpuNativeResidencyPriority) (layer_index : N) (demands : list GpuNativeDemandExpert)
    (path : DemandPhysicalInstallPath) : op Txn (list GpuNativeQ4ExpertResidency) :=
  t ← get;
  if slot_capacity_of t <? lenN demands then throw DemandSetExceedsLayerCapacity else
  protected ← check_demands layer_index demands [];
  _ ← (if decide (priority = Demand) then add demand_requests (lenN demands) else mret tt);
  '(resolved, misses) ← resolve_demands 0 demands;
  t ← get;
  _ ← evict (S (length (lru_iter (residents (records (layer t)))))) (lenN misses) protected;
  resolved ← (if is_concurrent path then install_parallel_physical_misses_locked (no_zero_fill path) demands misses resolved
              else install_sequential path demands misses resolved);
  lift (all_resolved resolved).

(** ** The manager *)

(** A transaction on layer [i], whose lookup does not fail. *)
Definition on_layer {A} (i : N) (m : op Txn A) : op GpuNativeTieredResidencyManager A := fun mgr =>
  l ← layers mgr !! N.to_nat i;
  '(r, t) ← m {| layer := l; t_shared := m_shared mgr |};
  Some (r, {| layers := <[N.to_nat i := layer t]> (layers mgr); m_shared := t_shared t |}).

Definition ensure_demand_set_inner (priority : GpuNativeResidencyPriority) (layer_index : N) (demands : list GpuNativeDemandExpert)
    (path : DemandPhysicalInstallPath) : op GpuNativeTieredResidencyManager (list GpuNativeQ4ExpertResidency) :=
  if decide (priority = Speculative) then throw ResidencyPriorityMismatch else
  mgr ← get;
  if lenN (layers mgr) <=? layer_index then throw LayerOutOfRange
  else on_layer layer_index (ensure_demand_set_on priority layer_index demands path).

Definition ensure_demand_set (priority : GpuNativeResidencyPriority) (layer_index : N) (demands : list GpuNativeDemandExpert) :=
  ensure_demand_set_inner priority layer_index demands ProductionConcurrentDirectStaging.

Definition record_physical_source_acquisition : op GpuNativeTieredResidencyManager unit := add physical_source_acquisitions 1.
Definition record_logical_admissions_for_physical_misses (count : N) : op GpuNativeTieredResidencyManager unit :=
  add logical_admissions_for_physical_misses count.

Definition has_current_for_demand (global_id : N) : op GpuNativeTieredResidencyManager bool :=
  id ← lift (identity global_id);
  record ← on_layer (layer_index id) (current_record_locked global_id false);
  mret (bool_decide (is_Some record)).

(** [contended]: another thread holds the layer's lock. *)
Definition probe_speculative (global_id : N) (priority : GpuNativeResidencyPriority) (contended : bool)
    : op GpuNativeTieredResidencyManager GpuNativeSpeculativeProbe :=
  if decide (priority <> Speculative) then throw ResidencyPriorityMismatch else
  _ ← add speculative_requests 1;
  id ← lift (identity global_id);
  if contended then _ ← record_speculative_drop; mret DroppedPressure
  else
    record ← on_layer (layer_index id) (current_record_locked global_id true);
    match record with
    | Some record => _ ← add vram_hits 1; _ ← add speculative_vram_hits 1; mret (ProbeHit (pr_residency record))
    | None => _ ← add vram_misses 1; mret ProbeMiss
    end.

(** [ensure_speculative_resident] once it holds the lock. *)
Definition speculative_locked (global_id : N) (resident : ExpertResident) (admission : GpuAdmission) : op Txn GpuNativeSpeculativeInstall :=
  record ← current_record_locked global_id true;
  match record with
  | Some record => _ ← add vram_hits 1; _ ← add speculative_vram_hits 1; mret (SpecHit (pr_residency record))
  | None =>
      live ← contains_generation global_id (adm_generation admission);
      if negb live then _ ← add stale_generation_rejections 1; mret StaleLogicalGeneration else
      t ← get;
      if slot_capacity_of t <=? lru_len (residents (records (layer t)))
      then _ ← record_speculative_drop; mret DroppedCapacityOrPressure
      else
        r ← attempt (install_locked global_id resident admission true LegacyFullSlotVecControl);
        match r with
        | Ok residency => mret (SpecInstalled residency)
        | Err ExpertVram.NoPhysicalSlot => mret DroppedCapacityOrPressure
        | Err e => throw e
        end
  end.

Definition ensure_speculative_resident (global_id : N) (resident : ExpertResident) (admission : GpuAdmission)
    (priority : GpuNativeResidencyPriority) (contended : bool) : op GpuNativeTieredResidencyManager GpuNativeSpeculativeInstall :=
  if decide (priority <> Speculative) then throw ResidencyPriorityMismatch else
  checked ← attempt (validate_source global_id resident admission);
  match checked with
  | Err LogicalAdmissionStale => mret StaleLogicalGeneration
  | Err e => throw e
  | Ok _ =>
      id ← lift (identity global_id);
      if contended then _ ← record_speculative_drop; mret DroppedCapacityOrPressure
      else on_layer (layer_index id) (speculative_locked global_id resident admission)
  end.


(** ** Creation and snapshots *)

#[export] Instance shared_shares : Shares Shared := {| shared := fun s => s; with_shared := fun s _ => s |}.

Definition create_arena (device_d_model : N) (index : N) (p : GpuNativeQ4ExpertVramPlan) : op Shared GpuNativeQ4ExpertArena :=
  _ ← (if negb (d_model (geometry p) =? device_d_model) then throw (Backend ExpertDModelMismatch) else authoritative_gpu);
  match create_q4_expert_arena context device_d_model limits index p [] with
  | None => panic
  | Some r => lift (backend r)
  end.

Fixpoint create_layers (device_d_model : N) (index : N) (plans : list GpuNativeQ4ExpertVramPlan) : op Shared (list LayerResidency) :=
  match plans with
  | [] => mret []
  | p :: plans =>
      a ← create_arena device_d_model index p;
      ls ← create_layers device_d_model (index + 1) plans;
      mret ({| arena := a; records := layer_state_default |} :: ls)
  end.

(** The layers of a new manager, whose counters are zero. *)
Definition try_new (device_d_model : N) (g : GpuNativeQ4ExpertGeometry) (budget : N) : op Shared (list LayerResidency) :=
  _ ← authoritative_gpu;
  match model_plan_try_new num_layers g budget limits with
  | None => panic
  | Some r => p ← lift r; create_layers device_d_model 0 (layer_plans p)
  end.

Record GpuNativeTieredLayerSnapshot := {
  sn_slot_capacity : N; sn_resident_slots : N; sn_free_slots : N; sn_physical_evictions : N
}.

Definition layer_snapshot (l : LayerResidency) : GpuNativeTieredLayerSnapshot :=
  let a := residency_snapshot (arena l) in
  {| sn_slot_capacity := plan_slot_capacity (plan (arena l)); sn_resident_slots := resident_slots a; sn_free_slots := free_slots a;
     sn_physical_evictions := physical_evictions (records l) |}.


(** ** What the records say of the arena *)

Context `{!LruLaws PhysicalRecord}.

Lemma identity_inj g g' id : identity g = Ok id -> identity g' = Ok id -> g = g'.
Proof.
  unfold identity, global_to_layer_local, validate_namespace. destruct (num_layers =? 0); [done|].
  destruct (N.eqb_spec experts_per_layer 0); [done|]. destruct (_ <? _); [done|]. cbn [mbind result_bind].
  destruct (num_layers <=? g / experts_per_layer); [done|]. destruct (num_layers <=? g' / experts_per_layer); [done|]. intros [= <-] [= Hl Hm].
  rewrite (N.div_mod g experts_per_layer), (N.div_mod g' experts_per_layer) by done. by rewrite Hl, Hm.
Qed.

Section contents.
(** The payloads the layers may hold, by expert and generation: the specification is
    proved for every choice that contains what the requests supply. *)
Context (written : N -> N -> list byte -> Prop).

(** What a demand brings may be held. *)
Definition supplied (d : GpuNativeDemandExpert) : Prop :=
  match d with Current _ => True | InstallSource g res adm => written g (adm_generation adm) (res_data res) end.

Section layer.
(** The index of the layer. *)
Context (li : N).

Definition recs (l : LayerResidency) : list (N * PhysicalRecord) := lru_iter (residents (records l)).

(** The arena is the layer's, of this executor, and passes its validation. *)
Record layer_ok (l : LayerResidency) : Prop := {
  lk_arena : arena_ok (arena l);
  lk_context : context_id (arena l) = context;
  lk_layer : arena_layer (arena l) = li;
  lk_experts : num_experts (arena_geometry (arena l)) = experts_per_layer;
  lk_valid : validate_q4_expert_arena context limits (arena l) = Some (Ok tt);
  lk_cap : lru_cap (residents (records l)) = None
}.

(** A record is of an expert of the layer, and its residency is in the arena, with a
    payload of that expert and generation. *)
Definition rec_ok (a : GpuNativeQ4ExpertArena) (g : N) (rec : PhysicalRecord) : Prop :=
  identity g = Ok {| layer_index := li; local_expert_id := expert_id (pr_key rec) |} /\ r_key (pr_residency rec) = pr_key rec /\
  exists f payload, holder a (expert_of (pr_key rec)) = Some {| h_slot := f; h_owner := Resident (pr_residency rec);
      h_bytes := physical_bytes (arena_geometry a) (r_epoch (pr_residency rec)) payload |} /\
    written g (logical_generation (pr_key rec)) payload.

(** An open permit's slot is reserved for it. *)
Definition open_ok (a : GpuNativeQ4ExpertArena) (p : GpuNativeQ4ExpertInstallPermit) : Prop :=
  sound a p /\ exists b, holder a (expert_of (p_key p)) = Some (reserves p b).

Definition permit_experts (ps : list GpuNativeQ4ExpertInstallPermit) : list nat := (fun p => expert_of (p_key p)) <$> ps.

(** An expert is accounted for by a permit or by a record. *)
Definition covered (ps : list GpuNativeQ4ExpertInstallPermit) (rs : list (N * PhysicalRecord)) (i : nat) : Prop :=
  i ∈ permit_experts ps \/ exists g rec, aget g rs = Some rec /\ expert_of (pr_key rec) = i.

(** The invariant, with the permits [ps] open: the slots in use are exactly those of the
    records and of the open permits. *)
Record tracks (ps : list GpuNativeQ4ExpertInstallPermit) (l : LayerResidency) : Prop := {
  tr_layer : layer_ok l;
  tr_records g rec : aget g (recs l) = Some rec -> rec_ok (arena l) g rec;
  tr_open : Forall (open_ok (arena l)) ps;
  tr_distinct : NoDup (permit_experts ps);
  tr_all i : is_Some (holder (arena l) i) -> covered ps (recs l) i
}.

Lemma layer_ok_same l a r :
  layer_ok l -> arena_ok a -> same_arena (arena l) a -> lru_cap (residents r) = None -> layer_ok {| arena := a; records := r |}.
Proof.
  intros [H1 H2 H3 H4 H5 H6] Hok Hs Hc. pose proof Hs as (Hctx & Hlay & Hp). split; cbn; [done|congruence|congruence| | |done].
  - unfold arena_geometry in *. by rewrite Hp.
  - by rewrite (validate_same context limits (arena l) a).
Qed.

(** Two records are of different experts. *)
Lemma rec_expert_inj a g g' rec rec' : rec_ok a g rec -> rec_ok a g' rec' -> expert_of (pr_key rec) = expert_of (pr_key rec') -> g = g'.
Proof.
  intros (H & _) (H' & _) Heq. assert (expert_id (pr_key rec) = expert_id (pr_key rec')) as He by (unfold expert_of in Heq; lia).
  rewrite He in H. by eapply identity_inj.
Qed.

Lemma rec_not_open a g rec p : rec_ok a g rec -> open_ok a p -> expert_of (pr_key rec) <> expert_of (p_key p).
Proof. intros (_ & _ & f & b & Hh & _) (_ & b' & Hh') Heq. rewrite Heq, Hh' in Hh. done. Qed.

(** The general step: the arena changes at expert [e], and the permits and records with
    it. *)
Lemma tracks_change ps ps' l l' e h :
  tracks ps l -> changes e h (arena l) (arena l') -> lru_cap (residents (records l')) = None ->
  (forall g rec, aget g (recs l') = Some rec -> aget g (recs l) = Some rec /\ expert_of (pr_key rec) <> e \/ rec_ok (arena l') g rec) ->
  Forall (fun p => p ∈ ps /\ expert_of (p_key p) <> e \/ open_ok (arena l') p) ps' -> NoDup (permit_experts ps') ->
  (forall i, i <> e -> covered ps (recs l) i -> covered ps' (recs l') i) -> (is_Some h -> covered ps' (recs l') e) ->
  tracks ps' l'.
Proof.
  intros [H1 H2 H3 H4 H5] (Hok & Hs & Hh) Hc Hr Hp Hn Hcov He. destruct l' as [a' r']; cbn [arena records] in *. split.
  - by apply (layer_ok_same l).
  - intros g rec Hg. destruct (Hr g rec Hg) as [[Hg' Hne]|]; [|done]. destruct (H2 g rec Hg') as (? & ? & f & b & Hf & ?).
    split; [done|]. split; [done|]. exists f, b. cbn. by rewrite Hh, decide_False, (same_geometry _ _ Hs).
  - eapply Forall_impl; [exact Hp|]. intros p [[Hp' Hne]|]; [|done]. destruct (proj1 (Forall_forall _ _) H3 p Hp') as (Hsd & b & Hf).
    split; [by eapply sound_same|]. exists b. cbn. by rewrite Hh, decide_False.
  - done.
  - intros i. cbn. rewrite Hh. case_decide as Hi; [by subst|]. intros Hsome. apply Hcov; [done|by apply H5].
Qed.

Lemma tracks_perm ps ps' l : ps ≡ₚ ps' -> tracks ps l -> tracks ps' l.
Proof.
  intros Hp [H1 H2 H3 H4 H5]. split; [done|done|by rewrite <-Hp| |]; unfold covered, permit_experts in *; [by rewrite <-Hp|].
  intros i Hi. destruct (H5 i Hi) as [H|H]; [left|by right]. by rewrite <-Hp.
Qed.

Lemma tracks_keeps ps l a : tracks ps l -> keeps (arena l) a -> tracks ps {| arena := a; records := records l |}.
Proof.
  intros [H1 H2 H3 H4 H5] (Hok & Hs & Hh). split; cbn.
  - apply (layer_ok_same l); try done. apply H1.
  - intros g rec Hg. destruct (H2 g rec Hg) as (? & ? & f & b & Hf & ?). split; [done|]. split; [done|]. exists f, b. by rewrite Hh, (same_geometry _ _ Hs).
  - eapply Forall_impl; [exact H3|]. intros p (Hsd & b & Hf). split; [by eapply sound_same|]. exists b. by rewrite Hh.
  - done.
  - intros i. rewrite Hh. apply H5.
Qed.

(** The experts of the other permits. *)
Lemma other_permits p ps : NoDup (permit_experts (p :: ps)) -> forall q, q ∈ ps -> expert_of (p_key q) <> expert_of (p_key p).
Proof. intros [Hni _]%NoDup_cons q Hq Heq. apply Hni. apply list_elem_of_fmap. by exists q. Qed.

(** A reservation opens a permit. *)
Lemma tracks_reserve ps l p a b :
  tracks ps l -> sound (arena l) p -> holder (arena l) (expert_of (p_key p)) = None -> changes (expert_of (p_key p)) (Some (reserves p b)) (arena l) a ->
  tracks (p :: ps) {| arena := a; records := records l |}.
Proof.
  intros Ht Hs Hn Hch. pose proof Ht as [H1 H2 H3 H4 H5].
  assert (Hopen : forall q, q ∈ ps -> expert_of (p_key q) <> expert_of (p_key p)).
  { intros q Hq Heq. destruct (proj1 (Forall_forall _ _) H3 q Hq) as (_ & b' & Hf). rewrite Heq in Hf. congruence. }
  apply (tracks_change ps _ l _ (expert_of (p_key p)) (Some (reserves p b))); try done.
  - apply H1.
  - intros g rec Hg. left. split; [done|]. destruct (H2 g rec Hg) as (_ & _ & f & b' & Hf & _). intros Heq. rewrite Heq in Hf. congruence.
  - constructor; [right; split; [by eapply sound_same; [apply Hch|]|]; exists b; by apply changes_at in Hch|]. apply Forall_forall. intros q Hq. left. split; [done|by apply Hopen].
  - constructor; [|done]. intros (q & Heq & Hq)%list_elem_of_fmap. by apply (Hopen q).
  - intros i _ [Hi|Hi]; [left; by right|by right].
  - intros _. left. left.
Qed.

(** A write under a permit. *)
Lemma tracks_write ps l p a b :
  tracks (p :: ps) l -> changes (expert_of (p_key p)) (Some (reserves p b)) (arena l) a -> tracks (p :: ps) {| arena := a; records := records l |}.
Proof.
  intros Ht Hch. pose proof Ht as [H1 H2 H3 H4 H5]. apply (tracks_change (p :: ps) _ l _ (expert_of (p_key p)) (Some (reserves p b))); try done.
  - apply H1.
  - intros g rec Hg. left. split; [done|]. apply (rec_not_open (arena l) g); [by apply H2|by apply Forall_cons in H3 as [? _]].
  - constructor.
    + right. apply Forall_cons in H3 as [[Hs _] _]. split; [by eapply sound_same; [apply Hch|]|]. exists b. by apply changes_at in Hch.
    + apply Forall_forall. intros q Hq. left. split; [by right|by apply (other_permits p ps)].
  - intros _. left. left.
Qed.

(** A permit is given up. *)
Lemma tracks_give_up ps l p a :
  tracks (p :: ps) l -> changes (expert_of (p_key p)) None (arena l) a -> tracks ps {| arena := a; records := records l |}.
Proof.
  intros Ht Hch. pose proof Ht as [H1 H2 H3 H4 H5]. apply (tracks_change (p :: ps) _ l _ (expert_of (p_key p)) None); try done.
  - apply H1.
  - intros g rec Hg. left. split; [done|]. apply (rec_not_open (arena l) g); [by apply H2|by apply Forall_cons in H3 as [? _]].
  - apply Forall_forall. intros q Hq. left. split; [by right|by apply (other_permits p ps)].
  - by apply NoDup_cons in H4 as [_ H4].
  - intros i Hi [[Hi'|Hi']%elem_of_cons|Hi']; [done|by left|by right].
Qed.

(** A permit's residency is published and recorded. *)
Lemma tracks_publish ps l p a b g v :
  tracks (p :: ps) l ->
  changes (expert_of (p_key p)) (Some (resides p (physical_bytes (arena_geometry (arena l)) (r_epoch (p_residency p)) b))) (arena l) a ->
  identity g = Ok {| layer_index := li; local_expert_id := expert_id (p_key p) |} -> written g (logical_generation (p_key p)) b ->
  lru_iter (residents v) = (g, {| pr_key := p_key p; pr_residency := p_residency p |}) :: recs l -> lru_cap (residents v) = None ->
  tracks ps {| arena := a; records := v |}.
Proof.
  intros Ht Hch Hg Hw Hi Hc. pose proof Ht as [H1 H2 H3 H4 H5]. pose proof (proj1 (Forall_cons _ _ _) H3) as [[Hs _] _].
  eapply (tracks_change (p :: ps) _ l _ (expert_of (p_key p))); try done; unfold recs; cbn [records arena]; rewrite ?Hi.
  - intros g' rec. cbn. destruct (N.eqb_spec g' g) as [->|Hne]; [intros [= <-]; right|intros Hg'; left; split; [done|]].
    + split; [done|]. split; [apply Hs|]. exists (flat_slot p), b. split; [|done]. rewrite (same_geometry (arena l) a) by apply Hch. by apply changes_at in Hch.
    + apply (rec_not_open (arena l) g'); [by apply H2|by apply Forall_cons in H3 as [? _]].
  - apply Forall_forall. intros q Hq. left. split; [by right|by apply (other_permits p ps)].
  - by apply NoDup_cons in H4 as [_ H4].
  - intros i Hne [[Hi'|Hi']%elem_of_cons|(g' & rec & Hg' & He)]; [done|by left|]. right. exists g', rec. split; [|done]. cbn.
    destruct (N.eqb_spec g' g) as [->|]; [|done]. exfalso. apply Hne. rewrite <-He. destruct (H2 g rec Hg') as (Hid & _).
    rewrite Hg in Hid. injection Hid as Hid. unfold expert_of. by rewrite Hid.
  - intros _. right. exists g, {| pr_key := p_key p; pr_residency := p_residency p |}. cbn. by rewrite N.eqb_refl.
Qed.

(** A record is retired. *)
Lemma tracks_retire ps l g rec a v :
  tracks ps l -> aget g (recs l) = Some rec -> changes (expert_of (pr_key rec)) None (arena l) a ->
  lru_iter (residents v) = adel g (recs l) -> lru_cap (residents v) = None -> tracks ps {| arena := a; records := v |}.
Proof.
  intros Ht Hg Hch Hi Hc. pose proof Ht as [H1 H2 H3 H4 H5].
  apply (tracks_change ps _ l _ (expert_of (pr_key rec)) None); try done; unfold recs in *; cbn [records arena]; rewrite ?Hi.
  - intros g' rec'. rewrite aget_adel. destruct (N.eqb_spec g' g) as [->|Hne]; [done|]. intros Hg'. left. split; [done|].
    intros Heq. apply Hne. eapply rec_expert_inj; [by apply H2|by apply H2|done].
  - apply Forall_forall. intros q Hq. left. split; [done|]. intros Heq. symmetry in Heq. revert Heq. apply (rec_not_open (arena l) g); [by apply H2|].
    by apply (proj1 (Forall_forall _ _) H3).
  - intros i Hne [Hi'|(g' & rec' & Hg' & He)]; [by left|]. right. exists g', rec'. split; [|done]. rewrite aget_adel.
    destruct (N.eqb_spec g' g) as [->|]; [congruence|done].
Qed.

(** Moving a record to the front. *)
Lemma tracks_same_records ps l v :
  tracks ps l -> (forall g, aget g (lru_iter (residents v)) = aget g (recs l)) -> lru_cap (residents v) = None ->
  tracks ps {| arena := arena l; records := v |}.
Proof.
  intros [H1 H2 H3 H4 H5] Hi Hc. split; cbn; [|intros g rec; unfold recs; cbn; rewrite Hi; apply H2|done|done|].
  - apply (layer_ok_same l); [done|apply H1|done|done].
  - intros i Hh. destruct (H5 i Hh) as [H|(g & rec & Hg & He)]; [by left|right]. exists g, rec. unfold recs. cbn. by rewrite Hi.
Qed.

(** The slots in use are no more than the records and the permits. *)
Lemma tracks_full ps l :
  tracks ps l -> Forall (fun sl => owner sl <> Free) (slots (state (arena l))) ->
  plan_slot_capacity (plan (arena l)) <= lenN (recs l) + lenN ps.
Proof.
  intros [H1 H2 H3 H4 H5] Hfull. pose proof (full_holders (arena l) (permit_experts ps ++ ((fun r => expert_of (pr_key r.2)) <$> recs l)) (lk_arena l H1) Hfull) as Hlen.
  rewrite (ok_slots _ _ _ _ (ok_state _ (lk_arena l H1))), length_app in Hlen. unfold permit_experts in Hlen. rewrite !length_fmap in Hlen.
  unfold lenN. change (slot_capacity (arena_layout (arena l))) with (plan_slot_capacity (plan (arena l))) in Hlen.
  enough (N.to_nat (plan_slot_capacity (plan (arena l))) <= length ps + length (recs l))%nat by lia.
  apply Hlen. intros i Hi. apply elem_of_app. destruct (H5 i Hi) as [H|(g & rec & Hg & He)]; [by left|right].
  apply list_elem_of_fmap. exists (g, rec). split; [done|by apply aget_Some_elem].
Qed.

(** ** What the steps of a transaction do *)

(** The errors an operation can end with.  Those of a corrupt table are not among
    them. *)
Definition may_fail (e : GpuNativeTieredResidencyError) : Prop :=
  match e with
  | Backend e => e = DeviceLost \/ e = InvalidExpertLogicalGeneration \/ e = ExpertSlotEpochExhausted \/ e = ExpertInstallTicketExhausted \/
                 payload_error e \/ e = ExpertDirectStagingUnavailable
  | PhysicalIdentityCorrupt | ExpertVram.InstallInProgress | ExpertVram.NoPhysicalSlot | NoEvictablePhysicalSlot => False
  | _ => True
  end.

(** After an error the permits [ps] are the ones still open, unless the device is lost. *)
Definition fails (ps : list GpuNativeQ4ExpertInstallPermit) (e : GpuNativeTieredResidencyError) (l : LayerResidency) : Prop :=
  may_fail e /\ arena_ok (arena l) /\ (e <> Backend DeviceLost -> tracks ps l).

(** Only experts in [E] may have changed in the arena. *)
Definition touches (E : nat -> Prop) (l l' : LayerResidency) : Prop :=
  same_arena (arena l) (arena l') /\ forall i, ~ E i -> holder (arena l') i = holder (arena l) i.

#[export] Instance touches_preorder E : PreOrder (touches E).
Proof.
  split; [done|]. intros l1 l2 l3 [H1 H2] [H3 H4]. split; [by transitivity (arena l2)|]. intros i Hi. by rewrite H4, H2.
Qed.

Lemma touches_mono (E E' : nat -> Prop) l l' : touches E l l' -> (forall i, E i -> E' i) -> touches E' l l'.
Proof. intros [H1 H2] H. split; [done|]. intros i Hi. apply H2. auto. Qed.

Lemma touches_changes e h l a r : changes e h (arena l) a -> touches (eq e) l {| arena := a; records := r |}.
Proof. intros (_ & Hs & Hh). split; [done|]. intros i Hi. cbn. by rewrite Hh, decide_False. Qed.

Lemma touches_keeps E l a r : keeps (arena l) a -> touches E l {| arena := a; records := r |}.
Proof. intros (_ & Hs & Hh). split; [done|]. intros i _. apply Hh. Qed.

Lemma tracks_fails ps e l : may_fail e -> tracks ps l -> fails ps e l.
Proof. intros H Ht. split_and!; [done|apply Ht|done]. Qed.

Lemma with_arena_layer a t : layer (with_arena a t) = {| arena := a; records := records (layer t) |}.
Proof. done. Qed.

Lemma wp_on_arena {A} (f : GpuNativeQ4ExpertArena -> option (gres A * GpuNativeQ4ExpertArena)) Q t r a :
  f (arena (layer t)) = Some (r, a) -> Q (backend r) (with_arena a t) -> wp (on_arena f) Q t.
Proof. intros Hf HQ. unfold wp, on_arena. rewrite Hf. by eexists _, _. Qed.

(** Steps that leave the layer alone. *)
Lemma add_spec c n Q (t : Txn) : (forall t', layer t' = layer t -> Q (Ok tt) t') -> wp (add c n) Q t.
Proof. intros H. apply wp_modify. by apply H. Qed.

Lemma ask_shared {St} `{!Shares St} Q (s : St) :
  (forall e sh, Q (Ok e) (with_shared sh s)) -> wp ask Q s.
Proof. intros H. unfold ask. wp_step. wp_step. cbn [bound]. wp_step. wp_step. cbn [bound]. wp_step. apply H. Qed.

Lemma ask_spec Q (t : Txn) : (forall e t', layer t' = layer t -> Q (Ok e) t') -> wp ask Q t.
Proof. intros H. apply ask_shared. intros e sh. by apply H. Qed.

Lemma gpu_spec Q (t : Txn) :
  (forall t', layer t' = layer t -> Q (Ok tt) t') -> (forall t', layer t' = layer t -> Q (Err (Backend DeviceLost)) t') -> wp authoritative_gpu Q t.
Proof.
  intros H1 H2. unfold authoritative_gpu. wp_step. apply ask_spec. intros e t' Ht. cbn.
  destruct (env_lost e); wp_step; [by apply H2|by apply H1].
Qed.

Lemma contains_spec g n Q (t : Txn) : (forall b t', layer t' = layer t -> Q (Ok b) t') -> wp (contains_generation g n) Q t.
Proof. intros H. unfold contains_generation. wp_step. apply ask_spec. intros e t' Ht. cbn. wp_step. by apply H. Qed.

Lemma validate_spec Q t : layer_ok (layer t) -> Q (Ok tt) (with_arena (arena (layer t)) t) -> wp validate Q t.
Proof. intros Hl HQ. eapply wp_on_arena; [by rewrite (lk_valid _ Hl)|]. exact HQ. Qed.

Lemma permit_checks_spec Q t :
  layer_ok (layer t) -> (forall t', layer t' = layer t -> Q (Ok tt) t') -> (forall t', layer t' = layer t -> Q (Err (Backend DeviceLost)) t') ->
  wp permit_checks Q t.
Proof.
  intros Hl H1 H2. unfold permit_checks. wp_step. apply gpu_spec; [|done]. intros t' Ht. cbn. wp_step. wp_step. cbn.
  rewrite Ht, (lk_context _ Hl), N.eqb_refl. wp_step. by apply H1.
Qed.

(** The drop of permits. *)
Lemma cancel_total ps t : arena_ok (arena (layer t)) -> exists t', cancel ps t = Some t' /\ arena_ok (arena (layer t')).
Proof.
  revert t. induction ps as [|p ps IH]; intros t Hok; [by exists t|]. destruct (drop_ok _ p Hok) as (a & Hd & (Hok' & _)).
  cbn [cancel]. rewrite Hd. cbn [mbind option_bind]. by apply IH.
Qed.

Lemma cancel_spec ps qs t : tracks (ps ++ qs) (layer t) -> exists t', cancel ps t = Some t' /\ tracks qs (layer t').
Proof.
  revert t. induction ps as [|p ps IH]; intros t Ht; [by exists t|]. pose proof (tr_open _ _ Ht) as [[_ [b Hh]] _]%Forall_cons.
  destruct (drop_view (arena (layer t)) p b) as (a & Hd & Hch); [apply Ht|done|]. cbn [cancel]. rewrite Hd. cbn [mbind option_bind].
  apply IH. exact (tracks_give_up _ _ _ _ Ht Hch).
Qed.

Lemma cancel_fails ps qs e t : fails (ps ++ qs) e (layer t) -> exists t', cancel ps t = Some t' /\ fails qs e (layer t').
Proof.
  intros (Hm & Hok & Ht). destruct (decide (e = Backend DeviceLost)) as [->|Hne].
  - destruct (cancel_total ps t Hok) as (t' & Hc & Hok'). exists t'. split; [done|]. split; [done|]. by split.
  - destruct (cancel_spec ps qs t (Ht Hne)) as (t' & Hc & Ht'). exists t'. split; [done|by apply tracks_fails].
Qed.

(** What ends by succeeding with [P], or by failing with the permits [ps] open. *)
Definition outcome {A} (ps : list GpuNativeQ4ExpertInstallPermit) (P : A -> Txn -> Prop) (r : tres A) (t : Txn) : Prop :=
  match r with Ok a => P a t | Err e => fails ps e (layer t) end.

Lemma guarded_spec {A} ps qs (m : op Txn A) P t : wp m (outcome (ps ++ qs) P) t -> wp (guarded ps m) (outcome qs P) t.
Proof.
  intros Hm. unfold guarded. wp_step. eapply wp_mono; [exact Hm|]. intros [a|e] t'; [done|]. apply cancel_fails.
Qed.

(** A step, then the rest. *)
Lemma outcome_bind {A B} ps (m : op Txn A) (f : A -> op Txn B) P Q t :
  wp m (outcome ps P) t -> (forall a t', P a t' -> wp (f a) (outcome ps Q) t') -> wp (m ≫= f) (outcome ps Q) t.
Proof. intros Hm Hf. eapply wp_seq; [exact Hm|exact Hf|done]. Qed.

(** An outcome that has changed the arena at expert [e] at most, errors included. *)
Definition settles {A} (e : nat) (t0 : Txn) (ps : list GpuNativeQ4ExpertInstallPermit) (P : A -> Txn -> Prop) (r : tres A) (t : Txn) : Prop :=
  outcome ps P r t /\ touches (eq e) (layer t0) (layer t).

Lemma settles_outcome {A} e ps (m : op Txn A) P t0 t : wp m (settles e t0 ps P) t -> wp m (outcome ps P) t.
Proof. intros H. eapply wp_mono; [exact H|]. by intros r t' [Hr _]. Qed.

Lemma settles_bind {A B} e t0 ps (m : op Txn A) (f : A -> op Txn B) P Q t :
  wp m (settles e t0 ps P) t -> (forall a t', P a t' -> touches (eq e) (layer t0) (layer t') -> wp (f a) (settles e t0 ps Q) t') ->
  wp (m ≫= f) (settles e t0 ps Q) t.
Proof. intros Hm Hf. eapply wp_seq; [exact Hm|by intros a t' [HP Hto]; apply Hf|done]. Qed.

(** A failure under one permit drops it, and nothing else. *)
Lemma guarded_one {A} p ps (m : op Txn A) Q t :
  wp m (fun r t1 => match r with
    | Ok a => Q (Ok a) t1
    | Err er => tracks (p :: ps) (layer t1) /\
        forall t2, tracks ps (layer t2) -> touches (eq (expert_of (p_key p))) (layer t1) (layer t2) -> Q (Err er) t2
    end) t -> wp (guarded [p] m) Q t.
Proof.
  intros Hm. unfold guarded. wp_step. eapply wp_mono; [exact Hm|]. intros [a|er] t1; [done|]. intros [Ht HQ].
  pose proof (tr_open _ _ Ht) as [[_ [b Hh]] _]%Forall_cons.
  destruct (drop_view (arena (layer t1)) p b) as (a & Hd & Hch); [apply Ht|done|]. exists (with_arena a t1). cbn [cancel].
  rewrite Hd. split; [done|]. apply HQ; [exact (tracks_give_up _ _ _ _ Ht Hch)|by eapply touches_changes].
Qed.

(** ** Acquiring and retiring *)

(** A key of an expert of the layer. *)
Definition key_ok (k : GpuNativeQ4ExpertKey) : Prop := key_layer k = li /\ expert_id k < experts_per_layer.

Lemma acquire_refused l key e : layer_ok l -> key_ok key -> acquire_error (arena l) key e -> may_fail (Backend e).
Proof.
  intros Hl [H1 H2] Hc. unfold acquire_error in Hc. rewrite (lk_layer l Hl), (lk_experts l Hl) in Hc. cbn.
  destruct Hc as [[_ ?]|[[_ ?]|[[? _]|[?|?]]]]; [done|lia|tauto..].
Qed.

(** What acquiring for an expert without a slot leads to. *)
Definition acquired (ps : list GpuNativeQ4ExpertInstallPermit) (key : GpuNativeQ4ExpertKey) (t0 : Txn) (r : GpuNativeQ4ExpertAcquire) (t : Txn) : Prop :=
  records (layer t) = records (layer t0) /\ touches (eq (expert_of key)) (layer t0) (layer t) /\
  match r with
  | Install p => p_key p = key /\ tracks (p :: ps) (layer t)
  | StaleRequester => tracks ps (layer t)
  | NoPhysicalSlot => tracks ps (layer t) /\ slot_capacity_of t <= lenN (recs (layer t)) + lenN ps
  | _ => False
  end.

Lemma acquire_settles ps t key :
  tracks ps (layer t) -> key_ok key -> holder (arena (layer t)) (expert_of key) = None ->
  wp (acquire_q4_expert_residency key) (settles (expert_of key) t ps (acquired ps key t)) t.
Proof.
  intros Ht Hk Hh. unfold acquire_q4_expert_residency. wp_step.
  apply gpu_spec; [intros t1 H1; cbn|intros t1 H1; split; cbn; rewrite H1; [apply tracks_fails; [by left|done]|done]].
  wp_step. apply validate_spec; [rewrite H1; apply Ht|]. cbn [bound]. set (t2 := with_arena _ t1).
  assert (layer t2 = layer t) as H2 by (unfold t2; rewrite with_arena_layer, <-H1; by destruct (layer t1)). clearbody t2.
  assert (Hok : arena_ok (arena (layer t2))) by (rewrite H2; apply Ht).
  destruct (acquire_view key (arena (layer t2)) Hok) as (r & a & Ha & Hr); [by rewrite H2|]. eapply wp_on_arena; [exact Ha|]. rewrite H2 in Hr.
  assert (Hboth : forall P : Txn -> Prop, (P (with_arena a t2) /\ touches (eq (expert_of key)) (layer t) {| arena := a; records := records (layer t) |}) ->
    P (with_arena a t2) /\ touches (eq (expert_of key)) (layer t) (layer (with_arena a t2))) by (intros P HP; by rewrite with_arena_layer, H2).
  apply Hboth. clear Hboth.
  destruct r as [[r|p| | |]|e]; cbn [backend outcome]; try (by destruct Hr); unfold acquired, slot_capacity_of;
    rewrite with_arena_layer, H2; cbn [arena records].
  - destruct Hr as (Hpk & Hs & b & Hch). assert (Hto := touches_changes _ _ _ _ (records (layer t)) Hch). split_and!; try done.
    rewrite <-Hpk in *. by eapply tracks_reserve.
  - split_and!; [done|by apply touches_keeps|by apply tracks_keeps|by apply touches_keeps].
  - destruct Hr as [Hr Hf]. split_and!; [done|by apply touches_keeps|by apply tracks_keeps| |by apply touches_keeps].
    pose proof (tracks_full ps (layer t) Ht Hf) as Hfull. destruct Hr as (_ & (_ & _ & Hp) & _). by rewrite Hp.
  - destruct Hr as [Hr He]. split; [|by apply touches_keeps]. apply tracks_fails; [|by apply tracks_keeps].
    eapply acquire_refused; [apply Ht|done|done].
Qed.

Lemma acquire_spec ps t key :
  tracks ps (layer t) -> key_ok key -> holder (arena (layer t)) (expert_of key) = None ->
  wp (acquire_q4_expert_residency key) (outcome ps (acquired ps key t)) t.
Proof. intros. by eapply settles_outcome, acquire_settles. Qed.

(** Retiring a residency of the arena. *)
Lemma retire_spec t r f b Q :
  layer_ok (layer t) -> holder (arena (layer t)) (expert_of (r_key r)) = Some {| h_slot := f; h_owner := Resident r; h_bytes := b |} ->
  (forall a t', changes (expert_of (r_key r)) None (arena (layer t)) a -> layer t' = {| arena := a; records := records (layer t) |} ->
     Q (Ok Retired) t') ->
  (forall t', layer t' = layer t -> Q (Err (Backend DeviceLost)) t') ->
  wp (retire_q4_expert_residency (r_key r)) Q t.
Proof.
  intros Hl Hh HQ Hlost. unfold retire_q4_expert_residency. wp_step. apply gpu_spec; [intros t1 H1; cbn|done].
  wp_step. apply validate_spec; [by rewrite H1|]. cbn [bound]. set (t2 := with_arena _ t1).
  assert (layer t2 = layer t) as H2 by (unfold t2; rewrite with_arena_layer, <-H1; by destruct (layer t1)). clearbody t2.
  destruct (retire_view (arena (layer t)) r f b (lk_arena _ Hl) Hh) as (a & Ha & Hch). eapply wp_on_arena; [rewrite H2; exact Ha|].
  cbn [backend]. eapply HQ; [exact Hch|]. by rewrite with_arena_layer, H2.
Qed.

(** ** Records *)

Lemma tracks_touch ps l g :
  tracks ps l -> let v := with_residents (snd (lru_get g (residents (records l)))) (records l) in
  tracks ps {| arena := arena l; records := v |} /\ (forall g', aget g' (lru_iter (residents v)) = aget g' (recs l)) /\
  length (lru_iter (residents v)) = length (recs l).
Proof.
  intros Ht v. destruct (lru_get_law g (residents (records l))) as (_ & Hc & Hi).
  assert (Hnd := lru_iter_nodup (residents (records l))).
  assert (Hsame : forall g', aget g' (lru_iter (residents v)) = aget g' (recs l)).
  { intros g'. unfold v. cbn. rewrite Hi. fold (recs l). destruct (aget g (recs l)) as [r|] eqn:Hg; [|done]. cbn. rewrite aget_adel.
    by destruct (N.eqb_spec g' g) as [->|]. }
  split; [|split; [done|]].
  - apply tracks_same_records; [done|done|]. cbn. rewrite Hc. apply Ht.
  - unfold v. cbn. rewrite Hi. fold (recs l) in *. destruct (aget g (recs l)) as [r|] eqn:Hg; [|done]. cbn. by rewrite (length_adel_present g r (recs l)).
Qed.

(** A record is always found to be current. *)
Definition record_found (ps : list GpuNativeQ4ExpertInstallPermit) (g : N) (t0 : Txn) (r : option PhysicalRecord) (t : Txn) : Prop :=
  r = aget g (recs (layer t0)) /\ arena (layer t) = arena (layer t0) /\ tracks ps (layer t) /\
  (forall g', aget g' (recs (layer t)) = aget g' (recs (layer t0))) /\ length (recs (layer t)) = length (recs (layer t0)).

Lemma current_record_total ps g touch t :
  tracks ps (layer t) -> wp (current_record_locked g touch) (fun r t' => exists v, r = Ok v /\ record_found ps g t v t') t.
Proof.
  intros Ht. unfold current_record_locked. wp_step. wp_step. cbn. rewrite lru_peek_law. fold (recs (layer t)).
  unfold record_found. destruct (aget g (recs (layer t))) as [rec|] eqn:Hg; [|by wp_step; eexists]. wp_step. wp_step.
  destruct (tr_records _ _ Ht g rec Hg) as (Hid & Hrk & f & b & Hh & _). rewrite Hid. cbn [bound layer_index local_expert_id].
  destruct (holder_key _ _ _ (lk_arena _ (tr_layer _ _ Ht)) Hh) as (k & [= <-] & _ & Hkl & _). rewrite Hrk in Hkl.
  rewrite (lk_layer _ (tr_layer _ _ Ht)) in Hkl |- *. rewrite Hkl, !N.eqb_refl, bool_decide_eq_true_2 by done.
  rewrite (proj2 (exact_view context _ _ (lk_arena _ (tr_layer _ _ Ht)) (lk_context _ (tr_layer _ _ Ht)))) by (rewrite Hrk; by eexists _, _).
  cbn [negb orb]. destruct touch; [|by wp_step; eexists]. destruct (lru_get_law g (residents (records (layer t)))) as (Hgv & _).
  destruct (tracks_touch ps (layer t) g Ht) as (H1 & H2 & H3).
  destruct (lru_get g (residents (records (layer t)))) as [v r] eqn:Hget. cbn [fst snd] in *. subst v. fold (recs (layer t)). rewrite Hg.
  wp_step. wp_step. cbn [bound]. wp_step. eexists. split; [done|]. by split_and!.
Qed.

Lemma current_record_spec ps g touch t :
  tracks ps (layer t) -> wp (current_record_locked g touch) (outcome ps (record_found ps g t)) t.
Proof. intros Ht. eapply wp_mono; [by apply current_record_total|]. by intros r t' (v & -> & Hv). Qed.

(** ** Eviction *)

(** Records dropped, none of them protected, with the slots they held. *)
Definition evicted (protected : list N) (l l' : LayerResidency) : Prop :=
  same_arena (arena l) (arena l') /\
  (forall g, aget g (recs l') = aget g (recs l) \/ aget g (recs l') = None /\ (g ∉ protected)) /\
  (forall i, holder (arena l') i = holder (arena l) i \/
     holder (arena l') i = None /\ exists g rec, (g ∉ protected) /\ aget g (recs l) = Some rec /\ expert_of (pr_key rec) = i).

#[export] Instance evicted_preorder protected : PreOrder (evicted protected).
Proof.
  split.
  - intros l. split; [done|]. split; intros; by left.
  - intros l1 l2 l3 (A1 & B1 & C1) (A2 & B2 & C2). split; [by transitivity (arena l2)|]. split.
    + intros g. destruct (B2 g) as [->|]; [apply B1|by right].
    + intros i. destruct (C2 i) as [->|(H & g & rec & Hg & Hr & He)]; [apply C1|]. right. split; [done|]. exists g, rec. split; [done|].
      split; [|done]. destruct (B1 g) as [<-|[Hn _]]; [done|congruence].
Qed.

Lemma retire_record_spec ps g rec t :
  tracks ps (layer t) -> aget g (recs (layer t)) = Some rec ->
  wp (retire_metadata_record_locked g true)
    (outcome ps (fun _ t' => tracks ps (layer t') /\ recs (layer t') = adel g (recs (layer t)) /\
       changes (expert_of (pr_key rec)) None (arena (layer t)) (arena (layer t')))) t.
Proof.
  intros Ht Hg. unfold retire_metadata_record_locked. wp_step. wp_step. cbn [bound]. rewrite lru_peek_law. fold (recs (layer t)). rewrite Hg.
  destruct (tr_records _ _ Ht g rec Hg) as (_ & Hrk & f & b & Hh & _). rewrite <-Hrk in *. wp_step.
  eapply retire_spec; [apply Ht|exact Hh| |].
  2:{ intros t' Ht'. cbn. rewrite Ht'. apply tracks_fails; [by left|done]. }
  intros a t' Hch Ht'. cbn [bound]. wp_step. wp_step. cbn [bound]. apply add_spec. intros t2 Ht2. cbn [outcome]. rewrite Ht2. cbn [layer with_records].
  rewrite Ht'. cbn [arena records]. destruct (lru_pop_law g (residents (records (layer t)))) as (_ & Hc & Hi). split; [|split; [exact Hi|done]].
  rewrite Hrk in Hch. eapply (tracks_retire ps (layer t) g rec); [done|done|exact Hch|exact Hi|]. cbn. rewrite Hc. apply Ht.
Qed.

Lemma oldest_spec (r : lru PhysicalRecord) protected :
  match oldest_unprotected r protected with
  | Some g => is_Some (aget g (lru_iter r)) /\ g ∉ protected
  | None => forall g, is_Some (aget g (lru_iter r)) -> g ∈ protected
  end.
Proof.
  unfold oldest_unprotected, lru_keys. destruct (List.find _ _) as [g|] eqn:Hf.
  - apply List.find_some in Hf as [Hin Hp]. rewrite <-list_elem_of_In, elem_of_reverse in Hin.
    apply negb_true_iff, bool_decide_eq_false in Hp. split; [by apply aget_is_Some|done].
  - intros g Hg. rewrite aget_is_Some, <-elem_of_reverse, list_elem_of_In in Hg. pose proof (List.find_none _ _ Hf g Hg) as Hn.
    by apply negb_false_iff, bool_decide_eq_true in Hn.
Qed.

Lemma capacity_bound a : arena_ok a -> plan_slot_capacity (plan a) < usize_max.
Proof.
  intros Hok. destruct (ok_layout a Hok) as (l & c & Hg & Hlay). apply (layout_ok_iff _ l Hg) in Hlay as [Hc Hlay].
  destruct (bank_bound _ l Hg) as (_ & _ & HM). change (2 ^ 30) with 1073741824 in HM. unfold feasible in Hc.
  change (plan_slot_capacity (plan a)) with (slot_capacity (arena_layout a)). rewrite Hlay. cbn [slot_capacity layout_of].
  unfold usize_max, u64_max. lia.
Qed.

(** The records of the protected experts. *)
Definition protected_records (protected : list N) (l : LayerResidency) : list N := filter (fun g => g ∈ protected) (recs l).*1.

Lemma adel_keys g (l : list (N * PhysicalRecord)) : (adel g l).*1 = filter (fun k => k <> g) l.*1.
Proof.
  induction l as [|[k v] l IH]; [done|]. rewrite fmap_cons. cbn [adel fst]. destruct (N.eqb_spec g k) as [->|Hne].
  - by rewrite filter_cons_False by naive_solver.
  - by rewrite filter_cons_True, fmap_cons, IH by naive_solver.
Qed.

Lemma filter_all (P : N -> Prop) `{!forall x, Decision (P x)} (l : list N) : Forall P l -> filter P l = l.
Proof. induction 1 as [|x l Hx _ IH]; [done|]. by rewrite filter_cons_True, IH. Qed.

Lemma evict_spec fuel misses protected t :
  tracks [] (layer t) -> (length (recs (layer t)) < fuel)%nat ->
  lenN (protected_records protected (layer t)) + misses <= slot_capacity_of t ->
  wp (evict fuel misses protected) (outcome [] (fun _ t' => tracks [] (layer t') /\ evicted protected (layer t) (layer t') /\
    lenN (recs (layer t')) + misses <= slot_capacity_of t')) t.
Proof.
  revert t. induction fuel as [|fuel IH]; intros t Ht Hfuel Hcap; [lia|]. cbn [evict]. wp_step. wp_step. cbn [bound].
  pose proof (capacity_bound (arena (layer t)) (lk_arena _ (tr_layer _ _ Ht))) as Hbound. unfold slot_capacity_of in *.
  unfold lru_len. fold (recs (layer t)). fold (lenN (recs (layer t))). unfold sat_add.
  destruct (N.ltb_spec (plan_slot_capacity (plan (arena (layer t)))) (N.min usize_max (lenN (recs (layer t)) + misses))) as [Hover|Hfits].
  2:{ wp_step. cbn. split; [done|]. split; [reflexivity|]. lia. }
  pose proof (oldest_spec (residents (records (layer t))) protected) as Hold.
  destruct (oldest_unprotected _ _) as [g|].
  2:{ exfalso. unfold protected_records in Hcap. rewrite filter_all in Hcap; [unfold lenN in *; rewrite length_fmap in Hcap; lia|].
      apply Forall_forall. intros g Hg. apply Hold. by apply aget_is_Some. }
  destruct Hold as [[rec Hg] Hp]. fold (recs (layer t)) in Hg. eapply outcome_bind; [by apply retire_record_spec|].
  intros [] t' (Ht' & Hr' & Hch). cbn beta in *. pose proof (lru_iter_nodup (residents (records (layer t)))) as Hnd. fold (recs (layer t)) in Hnd.
  assert (Hplan : plan (arena (layer t')) = plan (arena (layer t))) by apply Hch.
  assert (Hev : evicted protected (layer t) (layer t')).
  { split; [apply Hch|]. rewrite Hr'. split.
    - intros g'. rewrite aget_adel. destruct (N.eqb_spec g' g) as [->|]; [by right|by left].
    - intros i. destruct Hch as (_ & _ & ->). case_decide as Hi; [|by left]. right. split; [done|]. by exists g, rec. }
  eapply wp_mono; [apply IH; [done| |]|].
  - rewrite Hr'. pose proof (length_adel_present g rec (recs (layer t)) Hnd Hg). lia.
  - rewrite Hplan. etransitivity; [|exact Hcap]. unfold protected_records. rewrite Hr', adel_keys, list_filter_filter.
    rewrite (list_filter_iff _ (fun k => k ∈ protected)); [done|]. intros k. split; [naive_solver|]. intros Hk. split; [done|by intros ->].
  - intros [[]|e] t2; cbn; [|done]. intros (? & ? & ?). split; [done|]. split; [by transitivity (layer t')|done].
Qed.

(** ** The demands of a set *)

Definition is_install (d : GpuNativeDemandExpert) : bool := match d with InstallSource _ _ _ => true | Current _ => false end.

(** What the lookups of a demand set give, from the records [look] finds. *)
Definition resolved_of (look : N -> option PhysicalRecord) (ds : list GpuNativeDemandExpert) : list (option GpuNativeQ4ExpertResidency) :=
  (fun d => pr_residency <$> look (demand_global_id d)) <$> ds.
Fixpoint misses_of (look : N -> option PhysicalRecord) (k : nat) (ds : list GpuNativeDemandExpert) : list nat :=
  match ds with
  | [] => []
  | d :: ds => match look (demand_global_id d) with Some _ => misses_of look (S k) ds | None => k :: misses_of look (S k) ds end
  end.

Lemma resolve_spec look k ds t :
  tracks [] (layer t) -> (forall g, aget g (recs (layer t)) = look g) ->
  wp (resolve_demands k ds) (outcome [] (fun r t' => r = (resolved_of look ds, misses_of look k ds) /\
    arena (layer t') = arena (layer t) /\ tracks [] (layer t') /\ (forall g, aget g (recs (layer t')) = look g) /\
    Forall (fun d => look (demand_global_id d) = None -> is_install d = true) ds)) t.
Proof.
  revert k t. induction ds as [|d ds IH]; intros k t Ht Hl; cbn [resolve_demands]; [by wp_step; cbn; split_and!|].
  eapply outcome_bind; [by apply current_record_spec|]. intros r t1 (-> & Ha & Ht1 & Hl1 & _). rewrite Hl. cbn [resolved_of misses_of fmap list_fmap].
  assert (Hl1' : forall g, aget g (recs (layer t1)) = look g) by (intros g; by rewrite Hl1).
  destruct (look (demand_global_id d)) as [rec|] eqn:Hd.
  - wp_step. apply add_spec. intros t2 H2. cbn [bound]. wp_step. apply add_spec. intros t3 H3. cbn [bound]. rewrite <-H2, <-H3 in *.
    eapply outcome_bind; [by apply IH|]. intros [res mis] t4 (Hr & Ha4 & Ht4 & Hl4 & Hf). injection Hr as -> ->. wp_step. cbn.
    split; [done|]. split; [congruence|]. split; [done|]. split; [done|]. constructor; [by rewrite Hd|done].
  - wp_step. apply add_spec. intros t2 H2. cbn [bound]. rewrite <-H2 in *. destruct d as [g|g res adm].
    { wp_step. cbn. by apply tracks_fails. }
    eapply outcome_bind; [by apply IH|]. intros [rs mis] t4 (Hr & Ha4 & Ht4 & Hl4 & Hf). injection Hr as -> ->. wp_step. cbn.
    split; [done|]. split; [congruence|]. split; [done|]. split; [done|]. by constructor.
Qed.

Lemma misses_lookup look k ds i :
  i ∈ misses_of look k ds <-> (k <= i)%nat /\ exists d, ds !! (i - k)%nat = Some d /\ look (demand_global_id d) = None.
Proof.
  revert k. induction ds as [|d ds IH]; intros k; cbn [misses_of].
  { split; [by intros ?%elem_of_nil|]. intros (_ & d & Hd & _). by rewrite lookup_nil in Hd. }
  assert (Hs : i ∈ misses_of look (S k) ds <-> (S k <= i)%nat /\ exists d', (d :: ds) !! (i - k)%nat = Some d' /\ look (demand_global_id d') = None).
  { rewrite IH. split; intros (Hle & d' & Hd & Hn); (split; [done|]); exists d'; (split; [|done]);
      replace (i - k)%nat with (S (i - S k)) in * by lia; done. }
  destruct (look (demand_global_id d)) eqn:Hd; [|rewrite elem_of_cons]; rewrite Hs.
  - split; [intros (? & ?); split; [lia|done]|]. intros (Hle & d' & Hd' & Hn). split; [|by exists d'].
    destruct (decide (i = k)) as [->|]; [|lia]. rewrite Nat.sub_diag in Hd'. injection Hd' as <-. congruence.
  - split.
    + intros [->|(? & ?)]; [|split; [lia|done]]. split; [lia|]. exists d. by rewrite Nat.sub_diag.
    + intros (Hle & Hex). destruct (decide (i = k)) as [->|]; [by left|right]. split; [lia|done].
Qed.

Lemma misses_nodup look k ds : NoDup (misses_of look k ds).
Proof.
  revert k. induction ds as [|d ds IH]; intros k; cbn [misses_of]; [constructor|]. destruct (look _); [done|]. constructor; [|done].
  intros (? & _)%misses_lookup. lia.
Qed.

(** The hits and the misses make up the set. *)
Lemma misses_count look k ds :
  length ds = (length (misses_of look k ds) + length (filter (fun g => is_Some (look g)) (demand_global_id <$> ds)))%nat.
Proof.
  revert k. induction ds as [|d ds IH]; intros k; [done|]. rewrite fmap_cons. cbn [misses_of length]. rewrite (IH (S k)).
  destruct (look (demand_global_id d)) eqn:Hd.
  - rewrite filter_cons_True by (rewrite Hd; done). cbn. lia.
  - rewrite filter_cons_False by (rewrite Hd; by intros []). cbn. lia.
Qed.

(** The demands are of distinct experts of the layer. *)
Record demands_ok (ds : list GpuNativeDemandExpert) : Prop := {
  dm_distinct : NoDup (demand_global_id <$> ds);
  dm_layer d : d ∈ ds -> exists id, identity (demand_global_id d) = Ok id /\ layer_index id = li;
  dm_supplied d : d ∈ ds -> supplied d
}.

Definition local_of (g : N) : nat := N.to_nat (g mod experts_per_layer).

Lemma identity_ok g id :
  identity g = Ok id -> local_expert_id id < experts_per_layer /\ N.to_nat (local_expert_id id) = local_of g.
Proof.
  unfold identity, global_to_layer_local, validate_namespace. destruct (num_layers =? 0); [done|].
  destruct (N.eqb_spec experts_per_layer 0); [done|]. destruct (_ <? _); [done|]. cbn [mbind result_bind].
  destruct (num_layers <=? g / experts_per_layer); [done|]. intros [= <-]. cbn. split; [by apply N.mod_lt|done].
Qed.

Lemma check_spec ds protected t :
  tracks [] (layer t) -> NoDup protected ->
  wp (check_demands li ds protected) (outcome [] (fun r t' => layer t' = layer t /\ r ≡ₚ (demand_global_id <$> ds) ++ protected /\
    NoDup r /\ forall d, d ∈ ds -> exists id, identity (demand_global_id d) = Ok id /\ layer_index id = li)) t.
Proof.
  revert protected t. induction ds as [|d ds IH]; intros protected t Ht Hn; cbn [check_demands].
  { wp_step. cbn. split_and!; try done. by intros d ?%elem_of_nil. }
  destruct (bool_decide_reflect (demand_global_id d ∈ protected)) as [|Hni]; [by wp_step; apply tracks_fails|]. wp_step. wp_step.
  destruct (identity (demand_global_id d)) as [id|e] eqn:Hid; cbn [bound outcome].
  2:{ apply tracks_fails; [|done]. clear -Hid. unfold identity, global_to_layer_local, validate_namespace in Hid.
      repeat (case_match; cbn in Hid; simplify_eq; try done). }
  destruct (N.eqb_spec (layer_index id) li) as [Hli|]; cbn [negb]; [|by wp_step; apply tracks_fails].
  apply outcome_bind with (P := fun _ t' => layer t' = layer t).
  - destruct d as [g|g res adm]; [by wp_step; cbn|]. unfold validate_source. destruct (_ || _); [wp_step; by apply tracks_fails|].
    wp_step. apply contains_spec. intros b t1 H1. cbn [bound]. destruct b; [by wp_step; cbn|]. wp_step. apply add_spec. intros t2 H2.
    cbn [bound]. wp_step. cbn. rewrite H2, H1. by apply tracks_fails.
  - intros [] t1 H1. eapply wp_mono; [apply (IH (demand_global_id d :: protected)); [by rewrite H1|by constructor]|].
    intros [r|e] t2; cbn [outcome]; [|done]. intros (H2 & Hp & Hnd & Hall). split; [by rewrite H2|]. split.
    { rewrite Hp. cbn. by rewrite Permutation_middle. }
    split; [done|]. intros d' [->|Hd']%elem_of_cons; [by exists id|by apply Hall].
Qed.

(** ** Reservations *)

(** The reservation is of the demand at its index. *)
Definition reserved_for (ds : list GpuNativeDemandExpert) (r : ReservedPhysicalInstall) : Prop :=
  ds !! ri_index r = Some (InstallSource (ri_id r) (ri_resident r) (ri_admission r)) /\
  identity (ri_id r) = Ok {| layer_index := li; local_expert_id := expert_id (ri_key r) |} /\
  logical_generation (ri_key r) = adm_generation (ri_admission r) /\ p_key (ri_permit r) = ri_key r /\ expert_of (ri_key r) = local_of (ri_id r).

(** The experts of the demands at some indices. *)
Definition experts_at (ds : list GpuNativeDemandExpert) (indices : list nat) (e : nat) : Prop :=
  exists i d, i ∈ indices /\ ds !! i = Some d /\ e = local_of (demand_global_id d).

Lemma key_spec g n id :
  identity g = Ok id -> layer_index id = li ->
  exists key, global_to_q4_expert_key g n = Ok key /\ key_ok key /\ expert_of key = local_of g /\ logical_generation key = n /\
    identity g = Ok {| layer_index := li; local_expert_id := expert_id key |}.
Proof.
  intros Hid Hli. destruct (identity_ok g id Hid) as [Hlt Hloc]. unfold global_to_q4_expert_key. rewrite Hid. cbn [mbind result_bind].
  eexists. split; [reflexivity|]. split; [by split|]. split; [exact Hloc|]. split; [done|]. cbn. destruct id. cbn in *. by subst.
Qed.

Lemma reserve_one_spec ps i g res adm id t :
  tracks ps (layer t) -> identity g = Ok id -> layer_index id = li -> holder (arena (layer t)) (local_of g) = None ->
  lenN (recs (layer t)) + lenN ps < slot_capacity_of t ->
  wp (reserve_one i g res adm) (outcome ps (fun r t' => ri_index r = i /\ tracks (ri_permit r :: ps) (layer t') /\
    records (layer t') = records (layer t) /\ touches (eq (local_of g)) (layer t) (layer t') /\
    forall ds, ds !! i = Some (InstallSource g res adm) -> reserved_for ds r)) t.
Proof.
  intros Ht Hid Hli Hh Hcap. unfold reserve_one. wp_step. wp_step. rewrite Hid. cbn [bound]. wp_step. wp_step.
  destruct (key_spec g (adm_generation adm) id Hid Hli) as (key & Hkey & Hkok & Hloc & Hgen & Hid'). rewrite Hkey. cbn [bound].
  eapply outcome_bind; [apply acquire_spec; [done|done|by rewrite Hloc]|]. intros a t1 (Hr & Hto & Ha). rewrite Hloc in Hto.
  destruct a as [hit|p| | |]; [done| |done| |].
  - destruct Ha as [Hpk Ht1]. wp_step. cbn. split; [done|]. split; [done|]. split; [done|]. split; [done|].
    intros ds Hd. unfold reserved_for. cbn. by split_and!.
  - wp_step. apply add_spec. intros t2 H2. cbn [bound]. wp_step. cbn. rewrite H2. by apply tracks_fails.
  - destruct Ha as [Ht1 Hc]. exfalso. unfold slot_capacity_of, recs in *. rewrite Hr in Hc. destruct Hto as [(_ & _ & Hp) _]. rewrite Hp in Hc. lia.
Qed.

Lemma tracks_snoc ps p l : tracks (p :: ps) l -> tracks (ps ++ [p]) l.
Proof. apply tracks_perm. apply Permutation_cons_append. Qed.

Lemma distinct_experts ds i j d d' :
  demands_ok ds -> ds !! i = Some d -> ds !! j = Some d' -> local_of (demand_global_id d) = local_of (demand_global_id d') -> i = j.
Proof.
  intros [Hn Hd] Hi Hj Heq. destruct (Hd d) as (id & Hid & Hl); [by eapply list_elem_of_lookup_2|].
  destruct (Hd d') as (id' & Hid' & Hl'); [by eapply list_elem_of_lookup_2|]. destruct (identity_ok _ _ Hid) as [_ H1]. destruct (identity_ok _ _ Hid') as [_ H2].
  assert (id = id') as <- by (destruct id, id'; cbn in *; f_equal; [congruence|lia]).
  eapply NoDup_lookup; [exact Hn| |]; rewrite list_lookup_fmap; [by rewrite Hi|]. rewrite Hj. cbn. f_equal. by eapply identity_inj.
Qed.

Lemma reserve_all_spec ds misses rs t :
  demands_ok ds -> tracks (ri_permit <$> rs) (layer t) -> Forall (reserved_for ds) rs -> NoDup misses ->
  (forall i, i ∈ misses -> exists d, ds !! i = Some d /\ is_install d = true /\ holder (arena (layer t)) (local_of (demand_global_id d)) = None) ->
  lenN (recs (layer t)) + lenN rs + lenN misses <= slot_capacity_of t ->
  wp (reserve_all ds misses rs) (outcome [] (fun rs' t' => ri_index <$> rs' = (ri_index <$> rs) ++ misses /\ Forall (reserved_for ds) rs' /\
    tracks (ri_permit <$> rs') (layer t') /\ records (layer t') = records (layer t) /\ touches (experts_at ds misses) (layer t) (layer t'))) t.
Proof.
  intros Hds. revert rs t. induction misses as [|i misses IH]; intros rs t Ht Hrs Hn Hm Hcap; cbn [reserve_all].
  { wp_step. cbn. rewrite app_nil_r. by split_and!. }
  destruct (Hm i) as (d & Hd & Hinst & Hh); [left|]. rewrite Hd. destruct d as [g|g res adm]; [done|]. apply NoDup_cons in Hn as [Hni Hn].
  destruct (dm_layer ds Hds (InstallSource g res adm)) as (id & Hid & Hli); [by eapply list_elem_of_lookup_2|]. cbn [demand_global_id] in *.
  unfold lenN in *. cbn [length] in Hcap.
  apply outcome_bind with (P := fun r t' => ri_index r = i /\ tracks (ri_permit r :: (ri_permit <$> rs)) (layer t') /\
    records (layer t') = records (layer t) /\ touches (eq (local_of g)) (layer t) (layer t') /\
    forall ds, ds !! i = Some (InstallSource g res adm) -> reserved_for ds r).
  { apply guarded_spec. rewrite app_nil_r. eapply reserve_one_spec; [done|done|done|done|]. unfold lenN. rewrite length_fmap. lia. }
  intros r t1 (Hi & Ht1 & Hr & Hto & Hres). eapply wp_mono; [apply IH|].
  - rewrite fmap_app. by apply tracks_snoc.
  - apply Forall_app. split; [done|]. constructor; [by apply Hres|done].
  - done.
  - intros j Hj. destruct (Hm j) as (d & Hdj & Hdi & Hdh); [by right|]. exists d. split; [done|]. split; [done|].
    rewrite (proj2 Hto); [done|]. intros Heq. apply Hni. by rewrite (distinct_experts ds i j _ _ Hds Hd Hdj Heq).
  - unfold recs, slot_capacity_of in *. rewrite Hr. destruct Hto as [(_ & _ & ->) _]. rewrite length_app. cbn. lia.
  - intros [rs'|e] t2; [|done]. cbn [outcome]. intros (Hidx & Hall & Ht2 & Hr2 & Hto2). split; [rewrite Hidx, fmap_app; cbn; by rewrite Hi, <-(assoc (++))|].
    split; [done|]. split; [done|]. split; [congruence|]. etransitivity.
    + eapply touches_mono; [exact Hto|]. intros e <-. exists i, (InstallSource g res adm). split; [left|done].
    + eapply touches_mono; [exact Hto2|]. intros e (j & d & Hj & Hrest). exists j, d. split; [by right|done].
Qed.

(** ** Staging *)

Definition stage_bytes (a : GpuNativeQ4ExpertArena) (r : ReservedPhysicalInstall) : list byte :=
  physical_bytes (arena_geometry a) (r_epoch (p_residency (ri_permit r))) (res_data (ri_resident r)).

(** Where the worker of [r] is. *)
Definition task_ok (a : GpuNativeQ4ExpertArena) (r : ReservedPhysicalInstall) (task : StageTask) : Prop :=
  match task with
  | Waiting p payload => p = ri_permit r /\ payload = res_data (ri_resident r)
  | Filling w => w_permit w = ri_permit r /\ offsets_of a (ri_permit r) (w_offsets w) /\
      checked_new (arena_geometry a) (r_epoch (p_residency (ri_permit r))) (res_data (ri_resident r)) = Ok (w_checked w)
  | StagedOk i => permit i = ri_permit r /\ offsets_of a (ri_permit r) (prepared i) /\
      holder a (expert_of (p_key (ri_permit r))) = Some (reserves (ri_permit r) (stage_bytes a r))
  | StagedErr e => may_fail e
  end.

(** A failed worker has dropped its permit. *)
Definition opens (r : ReservedPhysicalInstall) (task : StageTask) : list GpuNativeQ4ExpertInstallPermit :=
  match task with StagedErr _ => [] | _ => [ri_permit r] end.
Definition rank (task : StageTask) : nat := match task with Waiting _ _ => 2 | Filling _ => 1 | _ => 0 end.

Lemma task_ok_same a a' r task :
  task_ok a r task -> same_arena a a' -> holder a' (expert_of (p_key (ri_permit r))) = holder a (expert_of (p_key (ri_permit r))) -> task_ok a' r task.
Proof.
  intros Ht Hs Hh. pose proof (same_geometry a a' Hs) as Hg.
  destruct task as [p payload|w|i|e]; cbn in *; unfold stage_bytes in *; rewrite ?Hg, ?Hh; [done| | |done].
  - destruct Ht as (? & ? & ?). split_and!; [done|by eapply offsets_of_same|done].
  - destruct Ht as (? & ? & ?). split_and!; [done|by eapply offsets_of_same|done].
Qed.

Lemma staging_view_ok e a : view_ok a (staging_view e a).
Proof.
  intros v. unfold staging_view. destruct (env_view e) as [f|]; [|done]. cbn. intros [= <-]. unfold lenN. rewrite length_fmap, length_seq. lia.
Qed.

(** One step of a worker. *)
Definition stepped (ps : list GpuNativeQ4ExpertInstallPermit) (r : ReservedPhysicalInstall) (task : StageTask) (t0 : Txn)
    (res : tres StageTask) (t : Txn) : Prop :=
  exists task', res = Ok task' /\ records (layer t) = records (layer t0) /\ task_ok (arena (layer t)) r task' /\
    tracks (opens r task' ++ ps) (layer t) /\ touches (eq (expert_of (p_key (ri_permit r)))) (layer t0) (layer t) /\ (rank task' <= rank task - 1)%nat.

Lemma stage_waiting ps r t nz :
  tracks (ri_permit r :: ps) (layer t) ->
  wp (stage_step nz (Waiting (ri_permit r) (res_data (ri_resident r)))) (stepped ps r (Waiting (ri_permit r) (res_data (ri_resident r))) t) t.
Proof.
  intros Ht. pose proof (tr_open _ _ Ht) as [[Hs [b Hh]] _]%Forall_cons. cbn [stage_step]. wp_step. wp_step.
  assert (Hfail : forall e t', may_fail e -> records (layer t') = records (layer t) -> tracks ps (layer t') ->
    touches (eq (expert_of (p_key (ri_permit r)))) (layer t) (layer t') -> stepped ps r (Waiting (ri_permit r) (res_data (ri_resident r))) t (Ok (StagedErr e)) t').
  { intros e t' He Hr Ht' Hto. exists (StagedErr e). do 5 (split; [done|]); cbn; lia. }
  eapply wp_seq with (P := fun r1 t1 => match r1 with Ok _ => layer t1 = layer t | Err e => may_fail e /\ records (layer t1) = records (layer t) /\
    tracks ps (layer t1) /\ touches (eq (expert_of (p_key (ri_permit r)))) (layer t) (layer t1) end).
  { unfold guarded. wp_step. apply permit_checks_spec; [apply Ht|done|]. intros t1 H1.
    destruct (drop_view (arena (layer t)) (ri_permit r) b) as (a & Hd & Hch); [apply Ht|done|]. cbn [cancel]. rewrite H1, Hd. cbn.
    eexists. split; [done|]. split; [by left|]. rewrite with_arena_layer, H1. cbn. split; [done|]. split; [exact (tracks_give_up _ _ _ _ Ht Hch)|by eapply touches_changes]. }
  - intros [] t1 H1. destruct (stage_check_view (arena (layer t)) (ri_permit r) b (res_data (ri_resident r))) as (w & a & Hc & Hw); [apply Ht|done|done|].
    eapply wp_on_arena; [rewrite H1; exact Hc|]. destruct w as [w|e]; cbn [backend bound]; wp_step.
    + destruct Hw as (-> & Hwp & Hpl & Hck & Hof). exists (Filling w). split; [done|]. rewrite with_arena_layer, H1. cbn.
      split; [done|]. split; [by split_and!|]. split; [by destruct (layer t)|]. split; [by destruct (layer t)|lia].
    + destruct Hw as [Hch He]. apply Hfail; [cbn; tauto|by rewrite with_arena_layer, H1| |].
      * rewrite with_arena_layer, H1. exact (tracks_give_up _ _ _ _ Ht Hch).
      * rewrite with_arena_layer, H1. by eapply touches_changes.
  - intros e t1 (He & Hr1 & Ht1 & Hto). cbn [bound]. wp_step. by apply Hfail.
Qed.

Lemma stage_filling ps r w t nz :
  tracks (ri_permit r :: ps) (layer t) -> task_ok (arena (layer t)) r (Filling w) -> wp (stage_step nz (Filling w)) (stepped ps r (Filling w) t) t.
Proof.
  intros Ht (Hwp & Hof & Hck). pose proof (tr_open _ _ Ht) as [[Hs [b Hh]] _]%Forall_cons. cbn [stage_step]. wp_step. apply ask_spec.
  intros e t1 H1. cbn [bound]. wp_step. wp_step. cbn [bound]. wp_step. wp_step. rewrite H1.
  destruct (stage_write_view (arena (layer t)) w b nz (res_data (ri_resident r)) (staging_view e (arena (layer t)))) as (i & a & Hw & Hi);
    [apply Ht|by rewrite Hwp..|apply staging_view_ok|].
  eapply wp_on_arena; [rewrite H1; exact Hw|]. rewrite Hwp in Hi. unfold stepped. destruct i as [i|err]; cbn [backend bound]; wp_step; rewrite with_arena_layer, H1; cbn [arena records].
  - destruct Hi as (Hp & Hpr & Hch). exists (StagedOk i). split; [done|]. split; [done|]. split.
    + cbn. rewrite Hp, Hpr. split; [done|]. split; [eapply offsets_of_same; [done|apply Hch]|]. unfold stage_bytes.
      rewrite (same_geometry (arena (layer t)) a) by apply Hch. by apply changes_at in Hch.
    + split; [exact (tracks_write _ _ _ _ _ Ht Hch)|]. split; [by eapply touches_changes|cbn; lia].
  - destruct Hi as (Hch & -> & _). exists (StagedErr (Backend ExpertDirectStagingUnavailable)). split; [done|]. split; [done|]. split; [cbn; tauto|].
    split; [exact (tracks_give_up _ _ _ _ Ht Hch)|]. split; [by eapply touches_changes|cbn; lia].
Qed.

Lemma stage_step_spec ps r task t nz :
  tracks (opens r task ++ ps) (layer t) -> task_ok (arena (layer t)) r task -> wp (stage_step nz task) (stepped ps r task t) t.
Proof.
  intros Ht Hok. destruct task as [p payload|w|i|e]; cbn [opens app] in Ht.
  - destruct Hok as [-> ->]. by apply stage_waiting.
  - by apply stage_filling.
  - cbn [stage_step]. wp_step. exists (StagedOk i). do 5 (split; [done|]); cbn; lia.
  - cbn [stage_step]. wp_step. exists (StagedErr e). do 5 (split; [done|]); cbn; lia.
Qed.

Definition still_open (rs : list ReservedPhysicalInstall) (tasks : list StageTask) : list GpuNativeQ4ExpertInstallPermit :=
  concat (zip_with opens rs tasks).
Definition reserved_experts (rs : list ReservedPhysicalInstall) : list nat := (fun r => expert_of (p_key (ri_permit r))) <$> rs.

Record staging (rs : list ReservedPhysicalInstall) (t0 : Txn) (tasks : list StageTask) (t : Txn) : Prop := {
  st_tasks : Forall2 (task_ok (arena (layer t))) rs tasks;
  st_tracks : tracks (still_open rs tasks) (layer t);
  st_records : records (layer t) = records (layer t0);
  st_touches : touches (fun e => e ∈ reserved_experts rs) (layer t0) (layer t)
}.

(** The permits besides that of task [i]. *)
Lemma still_open_at rs tasks i r x :
  rs !! i = Some r -> tasks !! i = Some x -> exists rest, forall x', still_open rs (<[i := x']> tasks) ≡ₚ opens r x' ++ rest.
Proof.
  unfold still_open. revert tasks i. induction rs as [|r0 rs IH]; intros [|x0 tasks] [|i] Hr Hx; simplify_eq/=.
  - by exists (concat (zip_with opens rs tasks)).
  - destruct (IH tasks i Hr Hx) as [rest Hrest]. exists (opens r0 x0 ++ rest). intros x'. rewrite Hrest.
    by rewrite !(assoc (++)), (comm (++) (opens r x')).
Qed.

Lemma staging_step rs t0 tasks t i r x nz :
  staging rs t0 tasks t -> NoDup (reserved_experts rs) -> rs !! i = Some r -> tasks !! i = Some x ->
  wp (stage_step nz x) (fun res t' => exists x', res = Ok x' /\ staging rs t0 (<[i := x']> tasks) t' /\ (rank x' <= rank x - 1)%nat) t.
Proof.
  intros [H1 H2 H3 H4] Hn Hr Hx. destruct (still_open_at rs tasks i r x Hr Hx) as [rest Hrest].
  eapply wp_mono; [apply (stage_step_spec rest r x t nz)|].
  - eapply tracks_perm; [|exact H2]. rewrite <-Hrest. by rewrite list_insert_id.
  - by eapply Forall2_lookup_lr in H1.
  - intros res t' (x' & -> & Hr' & Hok & Ht & Hto & Hrank). exists x'. split; [done|]. split; [|done]. split.
    + apply Forall2_same_length_lookup. split; [rewrite length_insert; by eapply Forall2_length|]. intros j rj xj Hrj Hxj.
      destruct (decide (i = j)) as [<-|Hij].
      * rewrite list_lookup_insert_eq in Hxj by (by eapply lookup_lt_Some). congruence.
      * rewrite list_lookup_insert_ne in Hxj by done. eapply task_ok_same; [by eapply Forall2_lookup_lr in H1|apply Hto|].
        apply Hto. intros Heq. apply Hij. eapply NoDup_lookup; [exact Hn| |]; unfold reserved_experts; rewrite list_lookup_fmap; [by rewrite Hr|].
        rewrite Hrj. cbn. by f_equal.
    + eapply tracks_perm; [|exact Ht]. by rewrite Hrest.
    + congruence.
    + etransitivity; [exact H4|]. eapply touches_mono; [exact Hto|]. intros e <-. apply list_elem_of_fmap. exists r. split; [done|by eapply list_elem_of_lookup_2].
Qed.

Lemma schedule_spec rs t0 steps tasks t nz :
  staging rs t0 tasks t -> NoDup (reserved_experts rs) ->
  wp (run_schedule nz steps tasks) (fun res t' => exists tasks', res = Ok tasks' /\ staging rs t0 tasks' t' /\
    forall i x x', tasks !! i = Some x -> tasks' !! i = Some x' -> (rank x' <= rank x - count_occ Nat.eq_dec steps i)%nat) t.
Proof.
  revert tasks t. induction steps as [|i steps IH]; intros tasks t Hst Hn; cbn [run_schedule].
  { wp_step. exists tasks. split; [done|]. split; [done|]. intros i x x' Hx Hx'. rewrite Hx in Hx'. injection Hx' as <-. cbn. lia. }
  destruct (tasks !! i) as [x|] eqn:Hx.
  - pose proof (Forall2_length _ _ _ (st_tasks _ _ _ _ Hst)) as Hlen. pose proof (lookup_lt_Some _ _ _ Hx) as Hlt.
    destruct (lookup_lt_is_Some_2 rs i) as [r Hr]; [lia|]. eapply wp_seq; [by apply (staging_step rs t0 tasks t i r x)|..].
    + intros x' t1 (x1 & [= <-] & Hst1 & Hrank). eapply wp_mono; [by apply IH|]. intros res t2 (tasks' & -> & Hst2 & Hall). exists tasks'.
      split; [done|]. split; [done|]. intros j y y' Hy Hy'. cbn [count_occ]. destruct (Nat.eq_dec i j) as [<-|Hne].
      * rewrite Hx in Hy. injection Hy as <-. specialize (Hall i x' y'). rewrite list_lookup_insert_eq in Hall by done. specialize (Hall eq_refl Hy'). lia.
      * specialize (Hall j y y'). rewrite list_lookup_insert_ne in Hall by done. by apply Hall.
    + by intros e t1 (x1 & ? & _).
  - eapply wp_mono; [by apply IH|]. intros res t2 (tasks' & -> & Hst2 & Hall). exists tasks'. split; [done|]. split; [done|].
    intros j y y' Hy Hy'. cbn [count_occ]. destruct (Nat.eq_dec i j) as [<-|Hne]; [congruence|]. by apply Hall.
Qed.

Lemma in_order_twice n i : (i < n)%nat -> (2 <= count_occ Nat.eq_dec (seq 0 n ≫= (fun i => [i; i])) i)%nat.
Proof.
  intros Hi. assert (Hin : i ∈ seq 0 n) by (apply elem_of_seq; lia). revert Hin. generalize (seq 0 n) as l. intros l. induction l as [|j l IH]; intros Hin.
  - by apply elem_of_nil in Hin.
  - change ((j :: l) ≫= (fun i => [i; i])) with (j :: j :: (l ≫= (fun i => [i; i]))). cbn [count_occ].
    apply elem_of_cons in Hin as [->|Hin]; [destruct (Nat.eq_dec j j); [lia|done]|]. specialize (IH Hin). destruct (Nat.eq_dec j i); lia.
Qed.

Lemma still_open_waiting rs :
  still_open rs ((fun r => Waiting (ri_permit r) (res_data (ri_resident r))) <$> rs) = ri_permit <$> rs.
Proof. unfold still_open. induction rs as [|r rs IH]; [done|]. cbn. by rewrite IH. Qed.

(** Whatever the schedule, every worker ends. *)
Lemma collect_spec rs t parallel nz :
  tracks (ri_permit <$> rs) (layer t) ->
  wp (collect_physical_stage_results_in_request_order parallel nz ((fun r => Waiting (ri_permit r) (res_data (ri_resident r))) <$> rs))
    (fun res t' => exists tasks, res = Ok tasks /\ staging rs t tasks t' /\ Forall (fun x => rank x = 0%nat) tasks) t.
Proof.
  intros Ht. unfold collect_physical_stage_results_in_request_order. set (tasks0 := _ <$> rs).
  assert (Hn : NoDup (reserved_experts rs)).
  { pose proof (tr_distinct _ _ Ht) as Hn. unfold permit_experts in Hn. by rewrite <-list_fmap_compose in Hn. }
  assert (Hst : staging rs t tasks0 t).
  { split; [|by unfold tasks0; rewrite still_open_waiting|done|done]. unfold tasks0. apply Forall2_fmap_r, Forall_Forall2_diag, Forall_forall. by intros r _. }
  wp_step. wp_step. cbn [bound]. set (steps := sched _). clearbody steps.
  eapply wp_mono; [by apply (schedule_spec rs t)|]. intros res t' (tasks & -> & Hst' & Hrank). exists tasks. split; [done|]. split; [done|].
  apply Forall_lookup. intros i x' Hx'. pose proof (Forall2_length _ _ _ (st_tasks _ _ _ _ Hst')) as Hlen. pose proof (lookup_lt_Some _ _ _ Hx') as Hlt.
  assert (length tasks0 = length rs) as Hl0 by apply length_fmap. destruct (lookup_lt_is_Some_2 tasks0 i) as [x Hx]; [lia|].
  specialize (Hrank i x x' Hx Hx'). pose proof (in_order_twice (length tasks0) i ltac:(lia)) as H2.
  assert ((2 <= count_occ Nat.eq_dec (if parallel then steps ++ (seq 0 (length tasks0) ≫= (fun i => [i; i])) else seq 0 (length tasks0) ≫= (fun i => [i; i])) i)%nat)
    by (destruct parallel; [rewrite count_occ_app|]; lia).
  assert ((rank x <= 2)%nat) by (destruct x; cbn; lia). lia.
Qed.

(** ** Commits *)

Lemma record_install_spec g n rec installed t Q :
  aget g (recs (layer t)) = None -> lru_cap (residents (records (layer t))) = None ->
  (forall v t', layer t' = {| arena := arena (layer t); records := v |} -> lru_iter (residents v) = (g, rec) :: recs (layer t) ->
     lru_cap (residents v) = None -> Q (Ok tt) t') ->
  wp (record_install g n rec installed) Q t.
Proof.
  intros Hg Hc HQ. destruct (put_absent_unbounded g rec (residents (records (layer t))) Hg Hc) as [_ Hi].
  destruct (lru_put_law g rec (residents (records (layer t)))) as (_ & Hc' & _). rewrite Hc in Hc'.
  unfold record_install. wp_step. wp_step. cbn [bound]. wp_step. wp_step. cbn [bound]. set (v := {| residents := _ |}).
  set (t1 := with_records v t). assert (H1 : layer t1 = {| arena := arena (layer t); records := v |}) by done. clearbody t1.
  destruct installed; [|wp_step; by apply (HQ v)]. wp_step. apply add_spec. intros t2 H2. cbn [bound].
  destruct (_ && _); [apply add_spec; intros t3 H3; apply (HQ v); [congruence|done|done]|wp_step; apply (HQ v); [congruence|done|done]].
Qed.

(** An open expert has no record. *)
Lemma open_unrecorded ps l p g :
  tracks (p :: ps) l -> identity g = Ok {| layer_index := li; local_expert_id := expert_id (p_key p) |} -> aget g (recs l) = None.
Proof.
  intros Ht Hg. destruct (aget g (recs l)) as [rec|] eqn:Hr; [|done]. exfalso. pose proof (tr_records _ _ Ht g rec Hr) as Hok.
  pose proof (tr_open _ _ Ht) as [Ho _]%Forall_cons. apply (rec_not_open _ _ _ _ Hok Ho). destruct Hok as (Hid & _). rewrite Hg in Hid.
  injection Hid as Hid. unfold expert_of. by rewrite Hid.
Qed.

Lemma staged_permits_open a rs tasks :
  Forall2 (task_ok a) rs tasks -> Forall (fun x => rank x = 0%nat) tasks -> staged_permits tasks = still_open rs tasks.
Proof.
  unfold still_open. induction 1 as [|r x rs tasks Hx _ IH]; [done|]. intros [Hr Hrest]%Forall_cons. cbn. rewrite <-(IH Hrest).
  destruct x as [| |i|]; [done|done| |done]. destruct Hx as (-> & _). done.
Qed.

(** The published residency of an admission that went stale is withdrawn. *)
Lemma reject_spec {A} ps l p b t P :
  tracks (p :: ps) l -> changes (expert_of (p_key p)) (Some (resides p b)) (arena l) (arena (layer t)) -> records (layer t) = records l ->
  wp (reject_stale (p_key p)) (settles (expert_of (p_key p)) t ps (P : A -> Txn -> Prop)) t.
Proof.
  intros Ht Hch Hr. pose proof (tr_open _ _ Ht) as [[(Hrk & _) _] _]%Forall_cons. unfold reject_stale. wp_step. rewrite <-Hrk in *.
  assert (Hl : layer_ok (layer t)).
  { destruct (layer t) as [a r]. cbn in Hch, Hr. subst r. apply (layer_ok_same l); [apply Ht|apply Hch|apply Hch|apply Ht]. }
  eapply (retire_spec t (p_residency p)); [done|by apply changes_at in Hch| |].
  - intros a t1 Hch1 H1. cbn [bound]. wp_step. apply add_spec. intros t2 H2. cbn [bound]. wp_step. rewrite Hrk in *.
    split; cbn; rewrite H2, H1; [|by eapply touches_changes]. rewrite Hr. apply tracks_fails; [done|].
    exact (tracks_give_up _ _ _ _ Ht (changes_twice _ _ _ _ _ _ Hch Hch1)).
  - intros t1 H1. split; cbn; rewrite H1; [|done]. split; [by left|]. by split; [apply Hch|].
Qed.

Lemma commit_one_spec ps r i t :
  tracks (ri_permit r :: ps) (layer t) -> task_ok (arena (layer t)) r (StagedOk i) ->
  wp (guarded ps (_ ← guarded [permit i] permit_checks; on_arena (commit_with_mapping_writer i)))
    (outcome [] (fun residency t' => residency = p_residency (ri_permit r) /\ records (layer t') = records (layer t) /\
       changes (expert_of (p_key (ri_permit r))) (Some (resides (ri_permit r) (stage_bytes (arena (layer t)) r))) (arena (layer t)) (arena (layer t')))) t.
Proof.
  intros Ht (Hp & Hof & Hh). rewrite Hp. pose proof (tr_open _ _ Ht) as [[Hs _] _]%Forall_cons. apply guarded_spec. rewrite app_nil_r.
  apply outcome_bind with (P := fun _ t' => layer t' = layer t).
  - apply guarded_spec. apply permit_checks_spec; [apply Ht|done|]. intros t1 H1. cbn. rewrite H1. apply tracks_fails; [by left|done].
  - intros [] t1 H1. destruct (commit_view (arena (layer t)) i (stage_bytes (arena (layer t)) r)) as (a & Hc & Hch); [apply Ht|by rewrite Hp..|].
    eapply wp_on_arena; [rewrite H1; exact Hc|]. cbn [backend outcome]. rewrite Hp in *. split; [done|]. by rewrite with_arena_layer, H1.
Qed.

(** The residencies of [rs] are resident, with the bytes of their demands, and recorded in
    [res] at the demands' indices; nothing else of [res] or of the other experts changed. *)
Definition committed (rs : list ReservedPhysicalInstall) (resolved : list (option GpuNativeQ4ExpertResidency)) (t0 : Txn)
    (res : list (option GpuNativeQ4ExpertResidency)) (t : Txn) : Prop :=
  tracks [] (layer t) /\ length res = length resolved /\
  (forall r, r ∈ rs -> res !! ri_index r = Some (Some (p_residency (ri_permit r))) /\
     holder (arena (layer t)) (expert_of (p_key (ri_permit r))) = Some (resides (ri_permit r) (stage_bytes (arena (layer t)) r))) /\
  (forall i, i ∉ (ri_index <$> rs) -> res !! i = resolved !! i) /\
  touches (fun e => e ∈ reserved_experts rs) (layer t0) (layer t).

Lemma stage_bytes_same a a' r : same_arena a a' -> stage_bytes a' r = stage_bytes a r.
Proof. intros Hs. unfold stage_bytes. by rewrite (same_geometry a a' Hs). Qed.

Lemma committed_cons r rs resolved t t1 res t2 :
  NoDup (reserved_experts (r :: rs)) -> NoDup (ri_index <$> r :: rs) -> (ri_index r < length resolved)%nat ->
  changes (expert_of (p_key (ri_permit r))) (Some (resides (ri_permit r) (stage_bytes (arena (layer t)) r))) (arena (layer t)) (arena (layer t1)) ->
  committed rs (<[ri_index r := Some (p_residency (ri_permit r))]> resolved) t1 res t2 -> committed (r :: rs) resolved t res t2.
Proof.
  intros [Hn _]%NoDup_cons [Hi _]%NoDup_cons Hlt Hch (H1 & H2 & H3 & H4 & H5).
  assert (Hs : same_arena (arena (layer t)) (arena (layer t2))) by (transitivity (arena (layer t1)); [apply Hch|apply H5]).
  split; [done|]. split; [by rewrite H2, length_insert|]. split; [|split].
  - intros q [->|Hq]%elem_of_cons; [|by apply H3]. split; [rewrite H4 by done; by apply list_lookup_insert_eq|].
    rewrite (proj2 H5) by done. rewrite (stage_bytes_same _ _ r Hs). by apply changes_at in Hch.
  - intros i Hi'. rewrite fmap_cons, not_elem_of_cons in Hi'. rewrite H4 by tauto. by rewrite list_lookup_insert_ne by (destruct Hi'; congruence).
  - split; [done|]. intros e He. unfold reserved_experts in He. rewrite fmap_cons, not_elem_of_cons in He. rewrite (proj2 H5) by tauto.
    destruct Hch as (_ & _ & ->). by rewrite decide_False by tauto.
Qed.

Lemma commit_all_spec ds rs tasks resolved t :
  Forall2 (task_ok (arena (layer t))) rs tasks -> Forall (fun x => rank x = 0%nat) tasks -> tracks (still_open rs tasks) (layer t) ->
  Forall supplied ds -> Forall (reserved_for ds) rs -> NoDup (reserved_experts rs) -> NoDup (ri_index <$> rs) -> Forall (fun r => (ri_index r < length resolved)%nat) rs ->
  wp (commit_all rs tasks resolved) (outcome [] (committed rs resolved t)) t.
Proof.
  revert tasks resolved t. induction rs as [|r rs IH]; intros tasks resolved t Htasks; inversion Htasks as [|? x ? tasks' Hx Hxs]; subst; cbn [commit_all].
  { intros _ Ht _ _ _ _ _. wp_step. cbn. split; [done|]. split; [done|]. split; [by intros r ?%elem_of_nil|]. by split. }
  rename tasks' into tasks.
  intros [Hrank Hranks]%Forall_cons Ht Hds [Hr Hrs]%Forall_cons Hn Hi [Hlt Hlts]%Forall_cons.
  destruct x as [| |i|e]; [done|done| |].
  2:{ rewrite (staged_permits_open _ rs tasks Hxs Hranks). apply guarded_spec. wp_step. rewrite app_nil_r. by apply tracks_fails. }
  rewrite (staged_permits_open _ rs tasks Hxs Hranks). change (still_open (r :: rs) (StagedOk i :: tasks)) with (ri_permit r :: still_open rs tasks) in Ht.
  eapply outcome_bind; [by apply commit_one_spec|]. intros residency t1 (-> & Hr1 & Hch). wp_step. apply contains_spec. intros b t2 H2. cbn [bound].
  destruct Hr as (Hd & Hid & Hgen & Hpk & Hloc). rewrite <-H2 in Hch, Hr1. destruct b; cbn [negb].
  2:{ apply guarded_spec. rewrite app_nil_r, <-Hpk. eapply settles_outcome, reject_spec; [exact Ht|exact Hch|exact Hr1]. }
  rewrite <-Hpk in Hid |- *. wp_step. unfold recs in *.
  eapply record_install_spec; [unfold recs; rewrite Hr1; by eapply open_unrecorded|rewrite Hr1; apply Ht|].
  intros v t3 H3 Hiter Hcap. cbn [bound]. rewrite (proj2 (Nat.ltb_lt _ _)) by done.
  assert (Ht3 : tracks (still_open rs tasks) (layer t3)).
  { rewrite H3. eapply tracks_publish; [exact Ht|exact Hch|exact Hid| | |done]; [|rewrite Hiter; unfold recs; by rewrite Hr1].
    rewrite Hpk, Hgen. apply (proj1 (Forall_lookup _ _) Hds _ _ Hd). }
  eapply wp_mono; [apply (IH tasks (<[ri_index r := Some (p_residency (ri_permit r))]> resolved) t3)|]; try done.
  - rewrite H3. cbn [arena]. apply Forall2_same_length_lookup. split; [by eapply Forall2_length|]. intros j rj xj Hrj Hxj.
    eapply task_ok_same; [by eapply Forall2_lookup_lr in Hxs|apply Hch|]. destruct Hch as (_ & _ & ->). rewrite decide_False; [done|].
    apply NoDup_cons in Hn as [Hn _]. intros Heq. apply Hn. apply list_elem_of_fmap. exists rj. split; [done|by eapply list_elem_of_lookup_2].
  - by apply NoDup_cons in Hn as [_ Hn].
  - by apply NoDup_cons in Hi as [_ Hi].
  - eapply Forall_impl; [exact Hlts|]. intros q Hq. by rewrite length_insert.
  - intros [res|e] t4; [|done]. cbn [outcome]. apply committed_cons; [done|done|done|]. by rewrite H3.
Qed.

(** ** The misses of a demand set *)

(** The demand is served by a fresh install, with its bytes. *)
Definition installed_for (a : GpuNativeQ4ExpertArena) (d : GpuNativeDemandExpert) (r : GpuNativeQ4ExpertResidency) : Prop :=
  exists g res adm f, d = InstallSource g res adm /\ identity g = Ok {| layer_index := li; local_expert_id := expert_id (r_key r) |} /\
    logical_generation (r_key r) = adm_generation adm /\
    holder a (local_of g) = Some {| h_slot := f; h_owner := Resident r; h_bytes := physical_bytes (arena_geometry a) (r_epoch r) (res_data res) |}.

Definition misses_installed (ds : list GpuNativeDemandExpert) (misses : list nat) (resolved : list (option GpuNativeQ4ExpertResidency)) (t0 : Txn)
    (res : list (option GpuNativeQ4ExpertResidency)) (t : Txn) : Prop :=
  tracks [] (layer t) /\ length res = length resolved /\
  (forall i, i ∈ misses -> exists d r, ds !! i = Some d /\ res !! i = Some (Some r) /\ installed_for (arena (layer t)) d r) /\
  (forall i, i ∉ misses -> res !! i = resolved !! i) /\
  touches (experts_at ds misses) (layer t0) (layer t).

(** What an installer needs of the misses: their experts hold no slot, and there is
    room for all of them. *)
Record installable (ds : list GpuNativeDemandExpert) (misses : list nat) (resolved : list (option GpuNativeQ4ExpertResidency)) (t : Txn) : Prop := {
  in_tracks : tracks [] (layer t);
  in_nodup : NoDup misses;
  in_misses i : i ∈ misses -> exists d, ds !! i = Some d /\ is_install d = true /\ holder (arena (layer t)) (local_of (demand_global_id d)) = None;
  in_length i : i ∈ misses -> (i < length resolved)%nat;
  in_room : lenN (recs (layer t)) + lenN misses <= slot_capacity_of t
}.

Lemma reserved_experts_at ds rs misses e :
  ri_index <$> rs = misses -> Forall (reserved_for ds) rs -> e ∈ reserved_experts rs -> experts_at ds misses e.
Proof.
  intros Hi Hrs (r & -> & Hr)%list_elem_of_fmap. pose proof (proj1 (Forall_forall _ _) Hrs r Hr) as (Hd & _ & _ & Hpk & Hloc).
  exists (ri_index r), (InstallSource (ri_id r) (ri_resident r) (ri_admission r)). split; [rewrite <-Hi; apply list_elem_of_fmap; by exists r|].
  split; [done|]. cbn. congruence.
Qed.

Lemma parallel_spec ds misses resolved nz t :
  demands_ok ds -> installable ds misses resolved t ->
  wp (install_parallel_physical_misses_locked nz ds misses resolved) (outcome [] (misses_installed ds misses resolved t)) t.
Proof.
  intros Hds [H1 H2 H3 H4 H5]. unfold install_parallel_physical_misses_locked. destruct misses as [|m ms].
  { wp_step. cbn. split; [done|]. split; [done|]. split; [by intros i ?%elem_of_nil|]. by split. }
  set (misses := m :: ms) in *. eapply outcome_bind; [apply (reserve_all_spec ds misses [] t Hds); try done; by rewrite N.add_0_r|].
  intros rs t1 (Hidx & Hrs & Ht1 & Hr1 & Hto1). cbn [fmap list_fmap app] in Hidx.
  assert (Hn : NoDup (reserved_experts rs)).
  { pose proof (tr_distinct _ _ Ht1) as Hn. unfold permit_experts in Hn. by rewrite <-list_fmap_compose in Hn. }
  eapply wp_seq; [by apply (collect_spec rs t1)| |by intros e t2 (? & ? & _)].
  intros tasks t2 (tasks' & [= <-] & [S1 S2 S3 S4] & Hranks).
  eapply wp_mono; [apply (commit_all_spec ds rs tasks resolved t2); try done|].
  - apply Forall_forall. apply Hds.
  - by rewrite Hidx.
  - apply Forall_forall. intros r Hr. apply H4. rewrite <-Hidx. apply list_elem_of_fmap. by exists r.
  - intros [res|e] t3; [|done]. cbn [outcome]. intros (C1 & C2 & C3 & C4 & C5). split; [done|]. split; [done|]. split; [|split].
    + intros i Hi. rewrite <-Hidx in Hi. apply list_elem_of_fmap in Hi as (r & -> & Hr). destruct (C3 r Hr) as [Hres Hh].
      pose proof (proj1 (Forall_forall _ _) Hrs r Hr) as (Hd & Hid & Hgen & Hpk & Hloc).
      pose proof (tr_open _ _ Ht1) as Hopen. rewrite Forall_fmap in Hopen. destruct (proj1 (Forall_forall _ _) Hopen r Hr) as [(Hrk & _) _].
      eexists _, _. split; [exact Hd|]. split; [exact Hres|]. exists (ri_id r), (ri_resident r), (ri_admission r), (flat_slot (ri_permit r)).
      split; [done|]. rewrite Hrk, Hpk, <-Hloc. split; [done|]. split; [done|]. rewrite <-Hpk. exact Hh.
    + intros i Hi. apply C4. by rewrite Hidx.
    + etransitivity; [exact Hto1|]. etransitivity; (eapply touches_mono; [first [exact S4|exact C5]|]); intros e He; by eapply reserved_experts_at.
Qed.

Lemma install_call_spec ps path p payload t :
  is_concurrent path = false -> tracks (p :: ps) (layer t) ->
  wp (install_q4_expert_residency path p payload) (settles (expert_of (p_key p)) t ps (fun r t' => r = p_residency p /\ records (layer t') = records (layer t) /\
    changes (expert_of (p_key p)) (Some (resides p (physical_bytes (arena_geometry (arena (layer t))) (r_epoch (p_residency p)) payload)))
      (arena (layer t)) (arena (layer t')))) t.
Proof.
  intros Hpath Ht. pose proof (tr_open _ _ Ht) as [[Hs [b Hh]] _]%Forall_cons.
  assert (Hinstall : forall view t', layer t' = layer t -> view_ok (arena (layer t)) view ->
    wp (on_arena (install p payload view)) (settles (expert_of (p_key p)) t ps (fun r t' => r = p_residency p /\ records (layer t') = records (layer t) /\
      changes (expert_of (p_key p)) (Some (resides p (physical_bytes (arena_geometry (arena (layer t))) (r_epoch (p_residency p)) payload)))
        (arena (layer t)) (arena (layer t')))) t').
  { intros view t' H' Hv. destruct (install_view (arena (layer t)) p b payload view) as (r & a & Hi & Hr); [apply Ht|done|done|done|].
    eapply wp_on_arena; [rewrite H'; exact Hi|]. destruct r as [r|e]; cbn [backend]; (split; [cbn [outcome]|]); rewrite with_arena_layer, H'; cbn [arena records].
    - destruct Hr as [-> Hch]. by split.
    - by eapply touches_changes; apply Hr.
    - destruct Hr as [Hch He]. apply tracks_fails; [cbn; tauto|]. exact (tracks_give_up _ _ _ _ Ht Hch).
    - by eapply touches_changes; apply Hr. }
  unfold install_q4_expert_residency. apply settles_bind with (P := fun _ t' => layer t' = layer t).
  { eapply guarded_one. apply permit_checks_spec; [apply Ht| |]; intros t1 H1; (split; [|rewrite H1; done]) || (rewrite H1; split; [done|]).
    - done.
    - intros t2 Ht2 Hto. split; [|done]. cbn. apply tracks_fails; [by left|done]. }
  intros [] t1 H1 _. wp_step. wp_step. cbn [bound]. rewrite H1. destruct path; try done.
  - wp_step. apply ask_spec. intros e t2 H2. cbn [bound]. apply Hinstall; [congruence|apply staging_view_ok].
  - apply Hinstall; [done|]. intros v [= <-]. unfold lenN. rewrite length_replicate. lia.
Qed.

Lemma install_locked_spec g res adm id speculative path t :
  is_concurrent path = false -> tracks [] (layer t) -> identity g = Ok id -> layer_index id = li -> holder (arena (layer t)) (local_of g) = None ->
  lenN (recs (layer t)) < slot_capacity_of t -> written g (adm_generation adm) (res_data res) ->
  wp (install_locked g res adm speculative path) (settles (local_of g) t [] (fun r t' => tracks [] (layer t') /\ installed_for (arena (layer t')) (InstallSource g res adm) r /\
    touches (eq (local_of g)) (layer t) (layer t') /\ exists rec, recs (layer t') = (g, rec) :: recs (layer t))) t.
Proof.
  intros Hpath Ht Hid Hli Hh Hroom Hw. unfold install_locked. wp_step. wp_step. rewrite Hid. cbn [bound]. wp_step. wp_step.
  destruct (key_spec g (adm_generation adm) id Hid Hli) as (key & Hkey & Hkok & Hloc & Hgen & Hid'). rewrite Hkey. cbn [bound].
  eapply settles_bind; [rewrite <-Hloc; apply acquire_settles; [done|done|by rewrite Hloc]|].
  intros a t1 (Hr & Hto & Ha) _. rewrite Hloc in Hto.
  destruct a as [hit|p| | |]; [done| |done| |].
  2:{ wp_step. wp_step. apply add_spec. intros t2 H2. cbn [bound]. wp_step. split; cbn; rewrite H2; [by apply tracks_fails|done]. }
  2:{ exfalso. destruct Ha as [_ Hc]. unfold slot_capacity_of, recs in *. rewrite Hr in Hc. destruct Hto as [(_ & _ & Hp) _]. rewrite Hp in Hc.
      unfold lenN in *. cbn in Hc. lia. }
  destruct Ha as [Hpk Ht1]. pose proof (tr_open _ _ Ht1) as [[(Hrk & _) _] _]%Forall_cons. wp_step.
  assert (Hthen : forall t', touches (eq (expert_of (p_key p))) (layer t1) (layer t') -> touches (eq (local_of g)) (layer t) (layer t')).
  { rewrite Hpk, Hloc. intros t' Hto'. by etransitivity. }
  eapply wp_seq; [by apply install_call_spec| |by intros e t' [Hf Hto']; split; [exact Hf|apply Hthen]].
  intros r t2 [(-> & Hr2 & Hch) _]. wp_step. wp_step. apply contains_spec. intros b t3 H3. cbn [bound].
  rewrite <-H3 in Hch, Hr2. rewrite <-Hpk in Hid', Hgen |- *. destruct b; cbn [negb].
  2:{ eapply wp_mono; [eapply reject_spec; [exact Ht1|exact Hch|exact Hr2]|]. intros r t4 [Hrej Hto']. split; [exact Hrej|]. apply Hthen.
      etransitivity; [|exact Hto']. pose proof (touches_changes _ _ (layer t1) _ (records (layer t3)) Hch) as Hto3. by destruct (layer t3). }
  wp_step. eapply record_install_spec; [unfold recs; rewrite Hr2; by eapply open_unrecorded|rewrite Hr2; apply Ht1|].
  intros v t4 H4 Hiter Hcap. cbn [bound].
  assert (Hdone : forall t5, layer t5 = layer t4 -> tracks [] (layer t5) /\ installed_for (arena (layer t5)) (InstallSource g res adm) (p_residency p) /\
    touches (eq (local_of g)) (layer t) (layer t5) /\ exists rec, recs (layer t5) = (g, rec) :: recs (layer t)).
  { intros t5 ->. rewrite H4. split; [|split; [|split]].
    - eapply tracks_publish; [exact Ht1|exact Hch|exact Hid'|by rewrite Hgen| |done]. rewrite Hiter. unfold recs. by rewrite Hr2.
    - exists g, res, adm, (flat_slot p). split; [done|]. rewrite Hrk. split; [done|]. split; [done|]. cbn [arena].
      rewrite (same_geometry (arena (layer t1)) (arena (layer t3))) by apply Hch. rewrite <-Hloc, <-Hpk. by apply changes_at in Hch.
    - etransitivity; [exact Hto|]. rewrite <-Hloc, <-Hpk. by eapply touches_changes.
    - eexists. unfold recs. cbn [records]. rewrite Hiter. unfold recs. by rewrite Hr2, Hr. }
  assert (Hend : forall t5, layer t5 = layer t4 -> settles (local_of g) t [] (fun r t' => tracks [] (layer t') /\
      installed_for (arena (layer t')) (InstallSource g res adm) r /\ touches (eq (local_of g)) (layer t) (layer t') /\
      exists rec, recs (layer t') = (g, rec) :: recs (layer t)) (Ok (p_residency p)) t5).
  { intros t5 H5. pose proof (Hdone t5 H5) as Hd. split; [exact Hd|apply Hd]. }
  destruct speculative; cbn [andb]; wp_step; [apply add_spec; intros t5 H5; cbn [bound]|wp_step]; wp_step; by apply Hend.
Qed.

Lemma installed_same a a' d r e :
  installed_for a d r -> same_arena a a' -> holder a' e = holder a e -> e = local_of (demand_global_id d) -> installed_for a' d r.
Proof.
  intros (g & res & adm & f & -> & H2 & H3 & H4) Hs Hh ->. exists g, res, adm, f. split; [done|]. split; [done|]. split; [done|]. cbn in Hh.
  by rewrite Hh, (same_geometry a a' Hs).
Qed.

Lemma sequential_spec path ds misses resolved t :
  is_concurrent path = false -> demands_ok ds -> installable ds misses resolved t ->
  wp (install_sequential path ds misses resolved) (outcome [] (misses_installed ds misses resolved t)) t.
Proof.
  intros Hpath Hds. revert resolved t. induction misses as [|i misses IH]; intros resolved t [H1 H2 H3 H4 H5]; cbn [install_sequential].
  { wp_step. cbn. split; [done|]. split; [done|]. split; [by intros i ?%elem_of_nil|]. by split. }
  destruct (H3 i) as (d & Hd & Hinst & Hh); [left|]. rewrite Hd. destruct d as [g|g res adm]; [done|]. apply NoDup_cons in H2 as [Hni Hn].
  destruct (dm_layer ds Hds (InstallSource g res adm)) as (id & Hid & Hli); [by eapply list_elem_of_lookup_2|]. cbn [demand_global_id] in *.
  unfold lenN in H5. cbn [length] in H5.
  assert (Hsup : supplied (InstallSource g res adm)) by (by eapply (dm_supplied ds Hds), list_elem_of_lookup_2).
  eapply outcome_bind; [eapply settles_outcome, install_locked_spec; [done|done|exact Hid|done|done|unfold lenN; lia|exact Hsup]|].
  intros r t1 (Ht1 & Hfor & Hto & rec & Hrec). assert ((i < length resolved)%nat) as Hlt by (apply H4; left). rewrite (proj2 (Nat.ltb_lt _ _) Hlt).
  assert (Hother : forall j d, j ∈ misses -> ds !! j = Some d -> holder (arena (layer t1)) (local_of (demand_global_id d)) = holder (arena (layer t)) (local_of (demand_global_id d))).
  { intros j d Hj Hdj. apply Hto. intros Heq. apply Hni. by rewrite (distinct_experts ds i j _ _ Hds Hd Hdj Heq). }
  eapply wp_mono; [apply IH|].
  - split; [done|done| | |].
    + intros j Hj. destruct (H3 j) as (dj & Hdj & ? & ?); [by right|]. exists dj. split; [done|]. split; [done|]. by rewrite (Hother j).
    + intros j Hj. rewrite length_insert. apply H4. by right.
    + unfold slot_capacity_of in *. rewrite Hrec. destruct Hto as [(_ & _ & ->) _]. unfold lenN. cbn [length]. lia.
  - intros [res'|e] t2; [|done]. cbn [outcome]. intros (M1 & M2 & M3 & M4 & M5). split; [done|]. split; [by rewrite M2, length_insert|]. split; [|split].
    + intros j [->|Hj]%elem_of_cons; [|by apply M3]. exists (InstallSource g res adm), r. split; [done|].
      split; [rewrite M4 by done; by apply list_lookup_insert_eq|]. eapply installed_same; [exact Hfor|apply M5| |done]. apply M5.
      intros (j & d & Hj & Hdj & Heq). apply Hni. by rewrite (distinct_experts ds i j _ _ Hds Hd Hdj Heq).
    + intros j Hj. rewrite not_elem_of_cons in Hj. rewrite M4 by tauto. by rewrite list_lookup_insert_ne by (destruct Hj; congruence).
    + etransitivity; [eapply touches_mono; [exact Hto|]|eapply touches_mono; [exact M5|]].
      * intros e <-. exists i, (InstallSource g res adm). split; [left|done].
      * intros e (j & d & Hj & Hrest). exists j, d. split; [by right|done].
Qed.

(** ** Demand sets *)

(** A demand's residency was in the arena already, with the bytes it had, or it is freshly
    installed. *)
Definition served_by (a0 a : GpuNativeQ4ExpertArena) (d : GpuNativeDemandExpert) (r : GpuNativeQ4ExpertResidency) : Prop :=
  let e := local_of (demand_global_id d) in
  (exists f b, holder a0 e = Some {| h_slot := f; h_owner := Resident r; h_bytes := b |} /\ holder a e = holder a0 e) \/
  holder a0 e = None /\ installed_for a d r.

(** The whole set is in the arena, and every other expert is as it was or evicted. *)
Definition served (ds : list GpuNativeDemandExpert) (l0 : LayerResidency) (rs : list GpuNativeQ4ExpertResidency) (l : LayerResidency) : Prop :=
  demands_ok ds /\ tracks [] l /\ same_arena (arena l0) (arena l) /\ Forall2 (served_by (arena l0) (arena l)) ds rs /\
  forall e, (forall d, d ∈ ds -> e <> local_of (demand_global_id d)) -> holder (arena l) e = holder (arena l0) e \/ holder (arena l) e = None.

(** An expert of the layer without a record holds no slot. *)
Lemma unrecorded_vacant l g id :
  tracks [] l -> identity g = Ok id -> layer_index id = li -> aget g (recs l) = None -> holder (arena l) (local_of g) = None.
Proof.
  intros Ht Hid Hli Hg. destruct (holder (arena l) (local_of g)) as [h|] eqn:Hh; [|done]. exfalso.
  destruct (tr_all _ _ Ht (local_of g)) as [Hin|(g' & rec & Hg' & He)]; [by rewrite Hh|by apply elem_of_nil in Hin|].
  destruct (tr_records _ _ Ht g' rec Hg') as (Hid' & _). destruct (identity_ok g id Hid) as [_ Hloc].
  assert (id = {| layer_index := li; local_expert_id := expert_id (pr_key rec) |}) as ->.
  { destruct id. cbn in *. f_equal; [done|]. unfold expert_of in He. lia. }
  rewrite (identity_inj g g' _ Hid Hid') in Hg. congruence.
Qed.

Lemma recorded_holder l g rec id :
  tracks [] l -> identity g = Ok id -> aget g (recs l) = Some rec ->
  expert_of (pr_key rec) = local_of g /\
  exists f payload, holder (arena l) (local_of g) = Some {| h_slot := f; h_owner := Resident (pr_residency rec);
      h_bytes := physical_bytes (arena_geometry (arena l)) (r_epoch (pr_residency rec)) payload |} /\
    written g (logical_generation (pr_key rec)) payload.
Proof.
  intros Ht Hid Hg. destruct (tr_records _ _ Ht g rec Hg) as (Hid' & _ & f & b & Hh & Hw). destruct (identity_ok g _ Hid') as [_ Hloc]. cbn in Hloc.
  split; [exact Hloc|]. exists f, b. by rewrite <-Hloc.
Qed.

(** Demanded experts survive the eviction. *)
Lemma evicted_demand ds protected l l' d :
  tracks [] l -> demands_ok ds -> protected ≡ₚ (demand_global_id <$> ds) -> evicted protected l l' -> d ∈ ds ->
  holder (arena l') (local_of (demand_global_id d)) = holder (arena l) (local_of (demand_global_id d)).
Proof.
  intros Ht Hds Hp (_ & _ & Hev) Hd. destruct (Hev (local_of (demand_global_id d))) as [|(_ & g & rec & Hg & Hr & He)]; [done|]. exfalso.
  destruct (dm_layer ds Hds d Hd) as (id & Hid & Hli). destruct (identity_ok _ _ Hid) as [_ Hloc].
  destruct (tr_records _ _ Ht g rec Hr) as (Hid' & _).
  assert (id = {| layer_index := li; local_expert_id := expert_id (pr_key rec) |}) as ->.
  { destruct id. cbn in *. f_equal; [done|]. unfold expert_of in He. lia. }
  apply Hg. rewrite Hp. apply list_elem_of_fmap. exists d. split; [by apply (identity_inj g _ _ Hid')|done].
Qed.

Lemma protected_bound ds protected look l :
  (forall g, aget g (recs l) = look g) -> protected ≡ₚ (demand_global_id <$> ds) ->
  lenN (protected_records protected l) + lenN (misses_of look 0 ds) <= lenN ds.
Proof.
  intros Hlook Hp. unfold lenN. rewrite (misses_count look 0 ds).
  assert (length (protected_records protected l) <= length (filter (fun g => is_Some (look g)) (demand_global_id <$> ds)))%nat; [|lia].
  apply submseteq_length, NoDup_submseteq; [apply NoDup_filter, lru_iter_nodup|]. intros g [Hin Hg]%list_elem_of_filter.
  apply list_elem_of_filter. rewrite <-Hp, <-Hlook. split; [by apply aget_is_Some|done].
Qed.

Lemma all_resolved_ok resolved :
  (forall i x, resolved !! i = Some x -> is_Some x) -> exists rs, all_resolved resolved = Ok rs /\ resolved = Some <$> rs.
Proof.
  induction resolved as [|[r|] resolved IH]; intros Hall; [by exists []| |by destruct (Hall 0%nat None eq_refl)].
  destruct IH as (rs & Hrs & Heq); [intros i; apply (Hall (S i))|]. exists (r :: rs). cbn. rewrite Hrs. cbn. by rewrite Heq.
Qed.

(** What the installs leave is what the set asked for. *)
Lemma installs_serve ds look protected l0 t1 t2 res t3 :
  demands_ok ds -> tracks [] l0 -> (forall g, aget g (recs l0) = look g) -> tracks [] (layer t1) -> arena (layer t1) = arena l0 ->
  (forall g, aget g (recs (layer t1)) = look g) -> protected ≡ₚ (demand_global_id <$> ds) -> evicted protected (layer t1) (layer t2) ->
  misses_installed ds (misses_of look 0 ds) (resolved_of look ds) t2 res t3 ->
  exists rs, all_resolved res = Ok rs /\ served ds l0 rs (layer t3).
Proof.
  intros Hds Ht0 Hl0 Ht1 Ha1 Hl1 Hp Hev (M1 & M2 & M3 & M4 & M5).
  assert (Hserve : forall i d, ds !! i = Some d -> exists r, res !! i = Some (Some r) /\ served_by (arena l0) (arena (layer t3)) d r).
  { intros i d Hd. assert (Hin : d ∈ ds) by (by eapply list_elem_of_lookup_2). destruct (dm_layer ds Hds d Hin) as (id & Hid & Hli).
    destruct (look (demand_global_id d)) as [rec|] eqn:Hk.
    - assert (Hni : i ∉ misses_of look 0 ds).
      { intros (_ & d' & Hd' & Hn)%misses_lookup. rewrite Nat.sub_0_r, Hd in Hd'. congruence. }
      exists (pr_residency rec). split; [rewrite M4 by done; unfold resolved_of; rewrite list_lookup_fmap, Hd; cbn; by rewrite Hk|]. left.
      rewrite <-Hl0 in Hk. destruct (recorded_holder l0 _ rec id Ht0 Hid Hk) as (_ & f & b & Hh & _). eexists f, _. split; [exact Hh|].
      rewrite (proj2 M5); [rewrite (evicted_demand ds protected (layer t1)) by done; by rewrite Ha1|].
      intros (j & d' & Hj & Hd' & Heq). apply Hni. by rewrite (distinct_experts ds i j d d' Hds Hd Hd' Heq).
    - destruct (M3 i) as (d' & r & Hd' & Hr & Hfor); [apply misses_lookup; split; [lia|]; exists d; by rewrite Nat.sub_0_r|].
      rewrite Hd in Hd'. injection Hd' as <-. exists r. split; [done|]. right. split; [|done]. eapply unrecorded_vacant; [done|exact Hid|done|by rewrite Hl0]. }
  assert (Hlen : length res = length ds) by (rewrite M2; apply length_fmap).
  destruct (all_resolved_ok res) as (rs & Hrs & Heq).
  { intros i x Hx. destruct (lookup_lt_is_Some_2 ds i) as [d Hd]; [rewrite <-Hlen; by eapply lookup_lt_Some|].
    destruct (Hserve i d Hd) as (r & Hr & _). rewrite Hr in Hx. injection Hx as <-. done. }
  exists rs. split; [done|]. split; [done|]. split; [done|]. split; [rewrite <-Ha1; transitivity (arena (layer t2)); [apply Hev|apply M5]|]. split.
  - apply Forall2_same_length_lookup. split; [by rewrite <-Hlen, Heq, length_fmap|]. intros i d r Hd Hr.
    destruct (Hserve i d Hd) as (r' & Hr' & Hs). rewrite Heq, list_lookup_fmap, Hr in Hr'. injection Hr' as <-. done.
  - intros e He. rewrite (proj2 M5).
    + destruct Hev as (_ & _ & Hev). rewrite <-Ha1. destruct (Hev e) as [->|[-> _]]; [by left|by right].
    + intros (j & d & Hj & Hd & Hjd). apply (He d); [by eapply list_elem_of_lookup_2|done].
Qed.

Lemma ensure_on_spec priority ds path t :
  tracks [] (layer t) -> Forall supplied ds -> wp (ensure_demand_set_on priority li ds path) (outcome [] (fun rs t' => served ds (layer t) rs (layer t'))) t.
Proof.
  intros Ht Hsup. unfold ensure_demand_set_on. wp_step. wp_step. cbn [bound].
  destruct (N.ltb_spec (slot_capacity_of t) (lenN ds)) as [|Hcap]; [by wp_step; apply tracks_fails|].
  eapply outcome_bind; [apply check_spec; [done|constructor]|]. intros protected t1 (H1 & Hp & Hnd & Hall). rewrite app_nil_r in Hp.
  assert (Hds : demands_ok ds) by (split; [by rewrite <-Hp|done|by apply Forall_forall]).
  apply outcome_bind with (P := fun _ t2 => layer t2 = layer t).
  { destruct (decide _); [apply add_spec; intros t2 H2; cbn; congruence|by wp_step; cbn]. }
  intros _ t2 H2. eapply outcome_bind; [apply (resolve_spec (fun g => aget g (recs (layer t)))); rewrite ?H2; done|].
  intros [resolved misses] t3 (Hr & Ha3 & Ht3 & Hl3 & Hinst). injection Hr as -> ->. set (look := fun g => aget g (recs (layer t))) in *.
  rewrite H2 in Ha3. wp_step. wp_step. cbn [bound].
  eapply outcome_bind; [apply evict_spec; [done|unfold recs; lia|]|].
  { unfold slot_capacity_of. rewrite Ha3. etransitivity; [by apply (protected_bound ds protected look)|exact Hcap]. }
  intros _ t4 (Ht4 & Hev & Hroom).
  assert (Hin : installable ds (misses_of look 0 ds) (resolved_of look ds) t4).
  { split; [done|apply misses_nodup| | |done].
    - intros i (_ & d & Hd & Hk)%misses_lookup. rewrite Nat.sub_0_r in Hd. exists d. split; [done|].
      assert (Hind : d ∈ ds) by (by eapply list_elem_of_lookup_2). split; [by apply (proj1 (Forall_forall _ _) Hinst d Hind)|].
      rewrite (evicted_demand ds protected (layer t3)), Ha3 by done. destruct (Hall d Hind) as (id & Hid & Hli).
      eapply unrecorded_vacant; [done|exact Hid|done|exact Hk].
    - intros i (_ & d & Hd & _)%misses_lookup. rewrite Nat.sub_0_r in Hd. unfold resolved_of. rewrite length_fmap. by eapply lookup_lt_Some. }
  apply outcome_bind with (P := misses_installed ds (misses_of look 0 ds) (resolved_of look ds) t4).
  { destruct (is_concurrent path) eqn:Hpath; [by apply parallel_spec|by apply sequential_spec]. }
  intros res t5 Hres. destruct (installs_serve ds look protected (layer t) t3 t4 res t5) as (rs & Hrs & Hs); try done. wp_step. by rewrite Hrs.
Qed.

(** ** Speculative installs *)

(** What a speculative request may do to its layer: every slot held keeps its owner and its
    bytes, and at most the requested expert is new. *)
Definition undisturbed (l l' : LayerResidency) : Prop :=
  same_arena (arena l) (arena l') /\ forall e h, holder (arena l) e = Some h -> holder (arena l') e = Some h.

Lemma same_undisturbed l l' : arena l' = arena l -> undisturbed l l'.
Proof. unfold undisturbed. intros ->. by split. Qed.

Definition speculated (g : N) (res : ExpertResident) (adm : GpuAdmission) (l0 : LayerResidency) (r : GpuNativeSpeculativeInstall) (l : LayerResidency) : Prop :=
  tracks [] l /\ undisturbed l0 l /\
  match r with
  | SpecHit r => arena l = arena l0 /\ exists f b, holder (arena l0) (local_of g) = Some {| h_slot := f; h_owner := Resident r; h_bytes := b |}
  | SpecInstalled r => holder (arena l0) (local_of g) = None /\ installed_for (arena l) (InstallSource g res adm) r /\ touches (eq (local_of g)) l0 l
  | _ => arena l = arena l0
  end.

(** Nothing is disturbed, whatever the answer. *)
Definition answers (g : N) (res : ExpertResident) (adm : GpuAdmission) (t0 : Txn) (r : tres GpuNativeSpeculativeInstall) (t : Txn) : Prop :=
  undisturbed (layer t0) (layer t) /\ outcome [] (fun r t' => speculated g res adm (layer t0) r (layer t')) r t.

Lemma vacant_undisturbed g l0 l l' :
  arena l = arena l0 -> holder (arena l) (local_of g) = None -> touches (eq (local_of g)) l l' -> undisturbed l0 l'.
Proof.
  intros Ha Hv [Hs Hh]. rewrite Ha in *. split; [done|]. intros e h He. rewrite Hh; [done|]. intros <-. congruence.
Qed.

Lemma speculative_spec g res adm id t :
  tracks [] (layer t) -> identity g = Ok id -> layer_index id = li -> written g (adm_generation adm) (res_data res) ->
  wp (speculative_locked g res adm) (answers g res adm t) t.
Proof.
  intros Ht Hid Hli Hw. unfold speculative_locked. eapply wp_seq; [by apply current_record_total| |by intros e t' (? & ? & _)].
  intros rec t1 (? & [= <-] & -> & Ha & Ht1 & Hl1 & Hlen). destruct (aget g (recs (layer t))) as [rec|] eqn:Hg.
  { wp_step. apply add_spec. intros t2 H2. cbn [bound]. wp_step. apply add_spec. intros t3 H3. cbn [bound]. wp_step.
    split; cbn; rewrite H3, H2; [by apply same_undisturbed|]. split; [done|]. split; [by apply same_undisturbed|]. split; [done|]. destruct (recorded_holder _ g rec id Ht Hid Hg) as (_ & f & b & Hh & _). by eexists _, _. }
  assert (Hsame : forall t', layer t' = layer t1 -> undisturbed (layer t) (layer t') /\ tracks [] (layer t') /\
    undisturbed (layer t) (layer t') /\ arena (layer t') = arena (layer t)).
  { intros t' ->. split_and!; try done; by apply same_undisturbed. }
  wp_step. apply contains_spec. intros b t2 H2. cbn [bound]. destruct b; cbn [negb].
  2:{ wp_step. apply add_spec. intros t3 H3. cbn [bound]. wp_step. apply (Hsame t3). congruence. }
  wp_step. wp_step. cbn [bound]. unfold lru_len. fold (recs (layer t2)). fold (lenN (recs (layer t2))).
  destruct (N.leb_spec (slot_capacity_of t2) (lenN (recs (layer t2)))) as [|Hroom].
  { wp_step. apply add_spec. intros t3 H3. cbn [bound]. wp_step. apply (Hsame t3). congruence. }
  assert (Hvac : holder (arena (layer t2)) (local_of g) = None) by (rewrite H2, Ha; by eapply unrecorded_vacant).
  wp_step. wp_step. eapply wp_mono; [eapply (install_locked_spec g res adm id true LegacyFullSlotVecControl t2); [done|by rewrite H2|exact Hid|done|done|done|done]|].
  intros r t3 [Hr Hto]. assert (Hun : undisturbed (layer t) (layer t3)) by (eapply vacant_undisturbed; [|exact Hvac|exact Hto]; by rewrite H2).
  destruct r as [r|e]; cbn [outcome bound] in *.
  - destruct Hr as (Ht3 & Hfor & _ & _). rewrite H2 in Hto. wp_step. split; [done|]. rewrite H2, Ha in Hvac. split; [done|]. split; [done|].
    split; [done|]. split; [done|]. unfold touches in *. by rewrite Ha in Hto.
  - assert (Hne : e <> ExpertVram.NoPhysicalSlot) by (intros ->; apply Hr). destruct e; try done; wp_step; by split.
Qed.

End layer.

(** ** The manager *)

(** Every layer's records track its arena. *)
Definition manager_ok (m : GpuNativeTieredResidencyManager) : Prop :=
  lenN (layers m) = num_layers /\ forall i l, layers m !! N.to_nat i = Some l -> tracks i [] l.

(** The state after an error: the invariant, unless the device is lost. *)
Definition failed (m : GpuNativeTieredResidencyManager) (e : GpuNativeTieredResidencyError) (m' : GpuNativeTieredResidencyManager) : Prop :=
  may_fail e /\ (e <> Backend DeviceLost -> manager_ok m').

(** Layer [i] goes from [l] to [l'], the others stay. *)
Definition at_layer (i : N) (l l' : LayerResidency) (m m' : GpuNativeTieredResidencyManager) : Prop :=
  layers m !! N.to_nat i = Some l /\ layers m' = <[N.to_nat i := l']> (layers m).

Lemma manager_ok_set m m' i l l' :
  manager_ok m -> layers m' = <[N.to_nat i := l']> (layers m) -> layers m !! N.to_nat i = Some l -> tracks i [] l' -> manager_ok m'.
Proof.
  intros [Hlen Hall] Hl Hi Ht. split; [unfold lenN; by rewrite Hl, length_insert|]. intros j lj Hj. rewrite Hl in Hj.
  destruct (decide (N.to_nat i = N.to_nat j)) as [Heq|Hne].
  - assert (i = j) as -> by lia. rewrite list_lookup_insert_eq in Hj by (by eapply lookup_lt_Some). by injection Hj as <-.
  - rewrite list_lookup_insert_ne in Hj by done. by apply Hall.
Qed.

(** A transaction on a layer, as an operation of the manager. *)
Lemma on_layer_wp {A} i (m : op Txn A) (R : LayerResidency -> tres A -> LayerResidency -> Prop) mgr Q :
  manager_ok mgr -> i < num_layers ->
  (forall t, tracks i [] (layer t) -> wp m (fun r t' => R (layer t) r (layer t')) t) ->
  (forall l r l' mgr', at_layer i l l' mgr mgr' -> R l r l' -> tracks i [] l -> Q r mgr') ->
  wp (on_layer i m) Q mgr.
Proof.
  intros Hm Hi Hw HQ. destruct (lookup_lt_is_Some_2 (layers mgr) (N.to_nat i)) as [l Hl]; [destruct Hm as [Hlen _]; unfold lenN in Hlen; lia|].
  destruct (Hw {| layer := l; t_shared := m_shared mgr |}) as (r & t' & Hrun & Hr); [by apply Hm|]. unfold wp, on_layer. rewrite Hl. cbn [mbind option_bind].
  rewrite Hrun. cbn [mbind option_bind]. eexists _, _. split; [reflexivity|]. eapply HQ; [by split|exact Hr|by apply Hm].
Qed.

Lemma failed_layer i l l' e m m' : manager_ok m -> at_layer i l l' m m' -> fails i [] e l' -> failed m e m'.
Proof. intros Hm [Hl Hl'] (He & _ & Ht). split; [done|]. intros Hne. by eapply manager_ok_set; [exact Hm| | |by apply Ht]. Qed.

Lemma on_layer_spec {A} i (m : op Txn A) (P : LayerResidency -> A -> LayerResidency -> Prop) mgr Q :
  manager_ok mgr -> i < num_layers ->
  (forall t, tracks i [] (layer t) -> wp m (outcome i [] (fun a t' => P (layer t) a (layer t'))) t) ->
  (forall l a l' mgr', at_layer i l l' mgr mgr' -> P l a l' -> tracks i [] l -> Q (Ok a) mgr') ->
  (forall e mgr', failed mgr e mgr' -> Q (Err e) mgr') ->
  wp (on_layer i m) Q mgr.
Proof.
  intros Hm Hi Hw Hok Herr.
  eapply (on_layer_wp i m (fun l r l' => match r with Ok a => P l a l' | Err e => fails i [] e l' end)); [done|done|exact Hw|].
  intros l [a|e] l' mgr' Hat Hr Ht; [by eapply Hok|]. apply Herr. by eapply failed_layer.
Qed.

Lemma identity_layer g id : identity g = Ok id -> layer_index id < num_layers.
Proof.
  unfold identity, global_to_layer_local, validate_namespace. destruct (num_layers =? 0); [done|].
  destruct (N.eqb_spec experts_per_layer 0); [done|]. destruct (_ <? _); [done|]. cbn [mbind result_bind].
  destruct (N.leb_spec num_layers (g / experts_per_layer)); [done|]. intros [= <-]. done.
Qed.

Lemma identity_error g e : identity g = Err e -> may_fail e.
Proof.
  unfold identity, global_to_layer_local, validate_namespace. intros H. repeat (case_match; cbn in H; simplify_eq; try done).
Qed.

Lemma manager_shared m s : manager_ok (with_shared s m) <-> manager_ok m.
Proof. done. Qed.


Lemma ensure_spec priority i ds path m :
  manager_ok m -> Forall supplied ds ->
  wp (ensure_demand_set_inner priority i ds path) (fun r m' => match r with
    | Ok rs => manager_ok m' /\ exists l l', at_layer i l l' m m' /\ served i ds l rs l'
    | Err e => failed m e m'
    end) m.
Proof.
  intros Hm Hsup. unfold ensure_demand_set_inner. destruct (decide _); [by wp_step; split|]. wp_step. wp_step. cbn [bound].
  destruct (N.leb_spec (lenN (layers m)) i) as [|Hi]; [by wp_step; split|].
  eapply (on_layer_spec i _ (fun l rs l' => served i ds l rs l')); [done|destruct Hm as [Hlen _]; lia|intros t Ht; by apply ensure_on_spec| |done].
  intros l rs l' m' [Hl Hl'] Hs _. split; [|by exists l, l']. eapply manager_ok_set; [exact Hm|exact Hl'|exact Hl|apply Hs].
Qed.

(** Of the layers, one at most has changed, and what it held it still holds. *)
Definition kept (m m' : GpuNativeTieredResidencyManager) : Prop :=
  layers m' = layers m \/ exists i l l', at_layer i l l' m m' /\ arena_ok (arena l') /\ undisturbed l l'.

Lemma speculate_spec g res adm priority contended m :
  manager_ok m -> written g (adm_generation adm) (res_data res) ->
  wp (ensure_speculative_resident g res adm priority contended) (fun r m' => kept m m' /\ match r with
    | Ok r => manager_ok m' /\ (layers m' = layers m /\ (r = StaleLogicalGeneration \/ r = DroppedCapacityOrPressure) \/
        exists i l l', at_layer i l l' m m' /\ (exists id, identity g = Ok id /\ layer_index id = i) /\ speculated i g res adm l r l')
    | Err e => failed m e m'
    end) m.
Proof.
  intros Hm Hw. unfold ensure_speculative_resident. destruct (decide _); [by wp_step; split; [left|]|].
  eapply wp_seq with (P := fun r m1 => layers m1 = layers m /\ match r with Ok (Err e) => may_fail e | Ok (Ok _) => True | Err _ => False end).
  { wp_step. unfold validate_source. destruct (_ || _); [by wp_step|]. wp_step. unfold contains_generation. wp_step. apply ask_shared.
    intros e sh. cbn [bound]. wp_step. destruct (env_contains _ _ _); [by wp_step|]. wp_step. apply wp_modify. cbn [bound]. by wp_step. }
  2:{ intros e m1 [_ []]. }
  intros checked m1 [Hl1 Hc]. assert (Hm1 : manager_ok m1) by (destruct Hm as [H1 H2]; unfold manager_ok; by rewrite Hl1).
  assert (Hk1 : kept m m1) by (by left).
  destruct checked as [[]|e]; [|destruct e; wp_step; (split; [done|]); try (by split); split; [done|left; split; [done|by left]]].
  wp_step. wp_step. destruct (identity g) as [id|e] eqn:Hid; cbn [bound]; [|split; [done|split; [by eapply identity_error|done]]].
  destruct contended.
  { wp_step. apply wp_modify. cbn [bound]. wp_step. split; [by left|]. split; [done|]. left. split; [done|by right]. }
  eapply (on_layer_wp (layer_index id) _ (fun l r l' => undisturbed l l' /\ match r with
    | Ok r => speculated (layer_index id) g res adm l r l'
    | Err e => fails (layer_index id) [] e l'
    end)); [exact Hm1|by eapply identity_layer|intros t Ht; by eapply speculative_spec|].
  intros l r l' m' Hat [Hun Hr] _. assert (Hat' : at_layer (layer_index id) l l' m m') by (unfold at_layer; by rewrite <-Hl1). split.
  - right. exists (layer_index id), l, l'. split; [done|split; [|done]]. destruct r as [r|e]; [apply (lk_arena _ _ (tr_layer _ _ _ (proj1 Hr)))|exact (proj1 (proj2 Hr))].
  - destruct r as [r|e]; [|exact (failed_layer _ _ _ _ _ _ Hm Hat' Hr)]. split; [exact (manager_ok_set _ _ _ _ _ Hm1 (proj2 Hat) (proj1 Hat) (proj1 Hr))|].
    right. exists (layer_index id), l, l'. split; [done|split; [by exists id|done]].
Qed.

(** ** Probes *)

Lemma lookup_spec g touch id m :
  manager_ok m -> identity g = Ok id ->
  wp (on_layer (layer_index id) (current_record_locked g touch)) (fun r m' => exists l l', r = Ok (aget g (recs l)) /\
    at_layer (layer_index id) l l' m m' /\ arena l' = arena l /\ tracks (layer_index id) [] l /\ tracks (layer_index id) [] l') m.
Proof.
  intros Hm Hid. destruct (lookup_lt_is_Some_2 (layers m) (N.to_nat (layer_index id))) as [l Hl].
  { destruct Hm as [Hlen _]. pose proof (identity_layer g id Hid). unfold lenN in Hlen. lia. }
  assert (Ht : tracks (layer_index id) [] l) by (by apply Hm).
  destruct (current_record_total (layer_index id) [] g touch {| layer := l; t_shared := m_shared m |} Ht) as (r & t' & Hrun & v & -> & -> & Ha & Ht' & _).
  unfold wp, on_layer. rewrite Hl. cbn [mbind option_bind]. rewrite Hrun. cbn [mbind option_bind]. eexists _, _. split; [reflexivity|].
  exists l, (layer t'). by split_and!.
Qed.

(** The expert is resident in its layer's arena, as [r]. *)
Definition current (m : GpuNativeTieredResidencyManager) (g : N) (r : GpuNativeQ4ExpertResidency) : Prop :=
  exists id l f b, identity g = Ok id /\ layers m !! N.to_nat (layer_index id) = Some l /\
    holder (arena l) (local_of g) = Some {| h_slot := f; h_owner := Resident r; h_bytes := b |}.

Lemma record_current g id l m :
  manager_ok m -> identity g = Ok id -> layers m !! N.to_nat (layer_index id) = Some l ->
  forall r, current m g r <-> exists rec, aget g (recs l) = Some rec /\ pr_residency rec = r.
Proof.
  intros Hm Hid Hl r. assert (Ht : tracks (layer_index id) [] l) by (by apply Hm). split.
  - intros (id' & l' & f & b & Hid' & Hl' & Hh). rewrite Hid in Hid'. injection Hid' as <-. rewrite Hl in Hl'. injection Hl' as <-.
    destruct (aget g (recs l)) as [rec|] eqn:Hg; [|by rewrite (unrecorded_vacant (layer_index id) l g id Ht Hid eq_refl Hg) in Hh].
    destruct (recorded_holder (layer_index id) l g rec id Ht Hid Hg) as (_ & f' & b' & Hh' & _). exists rec. split; [done|]. congruence.
  - intros (rec & Hg & <-). destruct (recorded_holder (layer_index id) l g rec id Ht Hid Hg) as (_ & f & b & Hh & _). by eexists id, l, f, _.
Qed.

Lemma manager_ok_same m m' i l l' :
  manager_ok m -> at_layer i l l' m m' -> tracks i [] l' -> manager_ok m'.
Proof. intros Hm [Hl Hl'] Ht. by eapply manager_ok_set. Qed.

(** The arenas, which is all a route can see. *)
Definition arenas (m : GpuNativeTieredResidencyManager) : list GpuNativeQ4ExpertArena := arena <$> layers m.

Lemma arenas_same i l l' m m' : at_layer i l l' m m' -> arena l' = arena l -> arenas m' = arenas m.
Proof.
  intros [Hl Hl'] Ha. unfold arenas. rewrite Hl', list_fmap_insert, Ha. apply list_insert_id. by rewrite list_lookup_fmap, Hl.
Qed.

Lemma has_current_spec g m :
  manager_ok m ->
  wp (has_current_for_demand g) (fun r m' => manager_ok m' /\ arenas m' = arenas m /\ match r with
    | Ok b => b = true <-> exists r, current m g r
    | Err e => identity g = Err e
    end) m.
Proof.
  intros Hm. unfold has_current_for_demand. wp_step. wp_step. destruct (identity g) as [id|e] eqn:Hid; cbn [bound]; [|done].
  eapply wp_seq; [by apply lookup_spec| |by intros e m1 (? & ? & ? & _)]. intros v m1 (l & l' & [= ->] & Hat & Ha & Ht & Ht'). wp_step.
  split; [by eapply manager_ok_same|]. split; [by eapply arenas_same|]. rewrite bool_decide_eq_true. split.
  - intros [rec Hg]. exists (pr_residency rec). apply (record_current g id l m Hm Hid (proj1 Hat)). by exists rec.
  - intros [r Hr]. apply (record_current g id l m Hm Hid (proj1 Hat)) in Hr as (rec & Hg & _). by exists rec.
Qed.

Lemma probe_spec g priority contended m :
  manager_ok m ->
  wp (probe_speculative g priority contended) (fun r m' => manager_ok m' /\ arenas m' = arenas m /\ match r with
    | Ok (ProbeHit r) => current m g r
    | Ok ProbeMiss => forall r, ~ current m g r
    | Ok DroppedPressure => contended = true
    | Err e => e = ResidencyPriorityMismatch \/ identity g = Err e
    end) m.
Proof.
  intros Hm. unfold probe_speculative. destruct (decide _); [wp_step; split_and!; by try left|]. wp_step. apply wp_modify. cbn [bound].
  wp_step. wp_step. set (m1 := with_shared _ m). assert (Hm1 : manager_ok m1) by done. assert (Hl1 : layers m1 = layers m) by done. clearbody m1.
  assert (Ha1 : arenas m1 = arenas m) by (unfold arenas; by rewrite Hl1).
  destruct (identity g) as [id|e] eqn:Hid; cbn [bound]; [|split_and!; [apply Hm1..|done|by right]]. destruct contended.
  { wp_step. apply wp_modify. cbn [bound]. by wp_step. }
  eapply wp_seq; [by apply lookup_spec| |by intros e m2 (? & ? & ? & _)]. intros v m2 (l & l' & [= ->] & Hat & Ha & Ht & Ht').
  assert (Hm2 : manager_ok m2) by (by eapply manager_ok_same). assert (Ha2 : arenas m2 = arenas m) by (rewrite <-Ha1; by eapply arenas_same).
  assert (Hl : layers m !! N.to_nat (layer_index id) = Some l) by (rewrite <-Hl1; apply Hat).
  pose proof (record_current g id l m Hm Hid Hl) as Hcur. destruct (aget g (recs l)) as [rec|].
  - wp_step. apply wp_modify. cbn [bound]. wp_step. apply wp_modify. cbn [bound]. wp_step. split; [done|]. split; [done|]. apply Hcur. by exists rec.
  - wp_step. apply wp_modify. cbn [bound]. wp_step. split; [done|]. split; [done|]. intros r (rec & ? & _)%Hcur. done.
Qed.

(** ** Creation *)

Lemma fresh_layer i p d a :
  geometry_ok (geometry p) -> num_experts (geometry p) = experts_per_layer ->
  create_q4_expert_arena context d limits i p [] = Some (Ok a) ->
  tracks i [] {| arena := a; records := layer_state_default |}.
Proof.
  intros Hg Hn Hc. destruct (created context d limits i p [] Hg) as (r & Hr & Hout). rewrite Hc in Hr. injection Hr as <-.
  destruct Hout as ([Hi _] & Hctx & Hli & Hpl & Hval & _ & Hni). pose proof (inv_arena _ Hi) as Hok. cbn [ArenaSteps.arena] in Hok.
  destruct lru_unbounded_iter as [Hiter Hcap]. split; cbn [arena records].
  - split; cbn; try done. unfold arena_geometry. by rewrite Hpl.
  - intros g rec. unfold recs. cbn. by rewrite Hiter.
  - constructor.
  - constructor.
  - intros e [h Hh]. exfalso. destruct (holder_key a e h Hok Hh) as (k & Hk & _). apply (holder_Some a e h Hok) in Hh as (_ & sl & Hf & Ho & _).
    destruct (h_owner h) as [|k' e' t'|r] eqn:Hown; [done|by eapply Hni|].
    destruct (inv_resident _ Hi _ sl r Hf Ho) as [payload Hin]. cbn in Hin. by apply elem_of_nil in Hin.
Qed.

(** ** What the device reads *)

(** The expert passes' read of a global expert: its layer's mapping is resolved and the
    slot's epoch checked. *)
Definition device_read (m : GpuNativeTieredResidencyManager) (g : N) : option (list byte) :=
  match identity g with
  | Err _ => None
  | Ok id => l ← layers m !! N.to_nat (layer_index id); e ← resolve (local_expert_id id) (arena l); execute e (arena l)
  end.

(** The weights of an expert in a payload: all but the padding after them. *)
Definition weights (m : GpuNativeTieredResidencyManager) (i : N) (payload : list byte) : list byte :=
  match layers m !! N.to_nat i with
  | Some l => take (N.to_nat (logical_expert_bytes (arena_geometry (arena l)))) payload
  | None => []
  end.

Definition layer_of (g : N) : N := g / experts_per_layer.

Lemma identity_layer_of g id : identity g = Ok id -> layer_index id = layer_of g.
Proof.
  unfold identity, global_to_layer_local, validate_namespace. destruct (num_layers =? 0); [done|].
  destruct (experts_per_layer =? 0); [done|]. destruct (_ <? _); [done|]. cbn [mbind result_bind].
  destruct (num_layers <=? g / experts_per_layer); [done|]. by intros [= <-].
Qed.

Lemma held_reads i l g id :
  tracks i [] l -> identity g = Ok id -> layer_index id = i ->
  match holder (arena l) (local_of g) with
  | None => resolve (local_expert_id id) (arena l) = None
  | Some h => exists r e payload, h_owner h = Resident r /\ resolve (local_expert_id id) (arena l) = Some e /\
      execute e (arena l) = Some (take (N.to_nat (logical_expert_bytes (arena_geometry (arena l)))) payload) /\
      h_bytes h = physical_bytes (arena_geometry (arena l)) (r_epoch r) payload /\ written g (logical_generation (r_key r)) payload
  end.
Proof.
  intros Ht Hid Hli. destruct (identity_ok g id Hid) as [_ Hloc]. pose proof (lk_arena _ _ (tr_layer _ _ _ Ht)) as Hok.
  destruct (holder (arena l) (local_of g)) as [h|] eqn:Hh.
  - destruct (aget g (recs l)) as [rec|] eqn:Hg; [|by rewrite (unrecorded_vacant i l g id Ht Hid Hli Hg) in Hh].
    destruct (tr_records _ _ _ Ht g rec Hg) as (_ & Hrk & _). destruct (recorded_holder i l g rec id Ht Hid Hg) as (_ & f & payload & Hh' & Hw).
    rewrite Hh in Hh'. injection Hh' as ->. destruct (resident_read _ _ _ _ _ Hok Hh) as (e & Hr & Hx). rewrite <-Hloc, N2Nat.id in Hr.
    exists (pr_residency rec), e, payload. by rewrite Hrk.
  - destruct (resolve _ _) as [e|] eqn:Hr; [|done]. destruct (resolved_held _ _ _ Hok Hr) as (f & r & b & Hh' & _). rewrite Hloc in Hh'. congruence.
Qed.

(** A read is of what the expert's slot holds, whose weights were supplied for it. *)
Lemma device_read_held m i l g id :
  tracks i [] l -> layers m !! N.to_nat i = Some l -> identity g = Ok id -> layer_index id = i ->
  device_read m g = (fun h => take (N.to_nat (logical_expert_bytes (arena_geometry (arena l)))) (drop 4 (h_bytes h))) <$> holder (arena l) (local_of g).
Proof.
  intros Ht Hl Hid Hli. unfold device_read. rewrite Hid, Hli, Hl. cbn [mbind option_bind]. pose proof (held_reads i l g id Ht Hid Hli) as Hr.
  destruct (holder (arena l) (local_of g)) as [h|]; [|by rewrite Hr]. destruct Hr as (r & e & payload & _ & -> & Hx & Hb & _).
  cbn [mbind option_bind fmap option_fmap option_map]. rewrite Hx, Hb. unfold physical_bytes. rewrite drop_app_length' by (by rewrite length_le_bytes).
  rewrite take_take. by rewrite Nat.min_id.
Qed.

Lemma current_held m g id l r :
  identity g = Ok id -> layers m !! N.to_nat (layer_index id) = Some l ->
  current m g r <-> exists f b, holder (arena l) (local_of g) = Some {| h_slot := f; h_owner := Resident r; h_bytes := b |}.
Proof.
  intros Hid Hl. split; [|intros (f & b & Hh); by exists id, l, f, b]. intros (id' & l' & f & b & Hid' & Hl' & Hh).
  rewrite Hid in Hid'. injection Hid' as <-. rewrite Hl in Hl'. injection Hl' as <-. by exists f, b.
Qed.

(** For the device and for every caller, the expert is as before. *)
Definition unchanged (m m' : GpuNativeTieredResidencyManager) (g : N) : Prop :=
  (forall r, current m' g r <-> current m g r) /\ device_read m' g = device_read m g.

Lemma unchanged_elsewhere m m' i l l' g : at_layer i l l' m m' -> layer_of g <> i -> unchanged m m' g.
Proof.
  intros [Hl Hl'] Hne. unfold unchanged, current, device_read. destruct (identity g) as [id|e] eqn:Hid.
  - pose proof (identity_layer_of g id Hid) as Hli.
    assert (Hsame : layers m' !! N.to_nat (layer_index id) = layers m !! N.to_nat (layer_index id)).
    { rewrite Hl', list_lookup_insert_ne; [done|]. rewrite Hli. lia. }
    split; [|by rewrite Hsame]. intros r.
    split; intros (id' & l0 & f & b & [= <-] & Hl0 & Hh); exists id, l0, f, b; split_and!; congruence.
  - split; [|done]. intros r. by split; intros (id' & l0 & f & b & ? & _).
Qed.

(** A current expert is read with weights supplied for its generation; one that is not
    current is not read. *)
Lemma current_read m g r :
  manager_ok m -> current m g r ->
  exists payload, written g (logical_generation (r_key r)) payload /\ device_read m g = Some (weights m (layer_of g) payload).
Proof.
  intros Hm Hc. pose proof Hc as (id & l & f & b & Hid & Hl & Hh). pose proof (identity_layer_of g id Hid) as Hli.
  assert (Ht : tracks (layer_index id) [] l) by (by apply Hm). pose proof (held_reads _ l g id Ht Hid eq_refl) as Hr. rewrite Hh in Hr.
  destruct Hr as (r' & e & payload & [= <-] & He & Hx & _ & Hw). exists payload. split; [done|]. unfold device_read, weights.
  rewrite Hid, <-Hli, Hl. cbn [mbind option_bind]. by rewrite He.
Qed.

Lemma not_current_not_read m g : manager_ok m -> (forall r, ~ current m g r) -> device_read m g = None.
Proof.
  intros Hm Hno. unfold device_read. destruct (identity g) as [id|e] eqn:Hid; [|done]. destruct (layers m !! N.to_nat (layer_index id)) as [l|] eqn:Hl; [|done].
  assert (Ht : tracks (layer_index id) [] l) by (by apply Hm). pose proof (held_reads _ l g id Ht Hid eq_refl) as Hr.
  destruct (holder (arena l) (local_of g)) as [[f o b]|] eqn:Hh; cbn [mbind option_bind]; [|by rewrite Hr].
  destruct Hr as (r & e & payload & Ho & _). cbn in Ho. subst o. destruct (Hno r). by exists id, l, f, b.
Qed.

Section change.
Context (m m' : GpuNativeTieredResidencyManager) (i : N) (l l' : LayerResidency).
Context (Hat : at_layer i l l' m m') (Hl : tracks i [] l) (Hl' : tracks i [] l').

Lemma changed_layer : layers m' !! N.to_nat i = Some l'.
Proof. destruct Hat as [Hi ->]. by apply list_lookup_insert_eq; eapply lookup_lt_Some. Qed.

Lemma unchanged_held g : same_arena (arena l) (arena l') -> holder (arena l') (local_of g) = holder (arena l) (local_of g) -> unchanged m m' g.
Proof.
  intros Hs Hh. destruct (decide (layer_of g = i)) as [Hg|Hne]; [|by eapply unchanged_elsewhere].
  destruct (identity g) as [id|e] eqn:Hid.
  - assert (Hli : layer_index id = i) by (by rewrite (identity_layer_of g id Hid)). pose proof changed_layer as Hi'. split.
    + intros r. rewrite (current_held m g id l), (current_held m' g id l') by (rewrite ?Hli; first [done|apply Hat]). by rewrite Hh.
    + rewrite (device_read_held m' i l' g id), (device_read_held m i l g id) by (first [done|apply Hat]). by rewrite Hh, (same_geometry _ _ Hs).
  - unfold unchanged, current, device_read. rewrite Hid. split; [|done]. intros r. by split; intros (? & ? & ? & ? & ? & _).
Qed.

(** A fresh install is current, and the device reads its weights. *)
Lemma installed_current g res adm r :
  installed_for i (arena l') (InstallSource g res adm) r -> holder (arena l) (local_of g) = None ->
  current m' g r /\ (forall r', ~ current m g r') /\ logical_generation (r_key r) = adm_generation adm /\
  device_read m' g = Some (weights m' (layer_of g) (res_data res)).
Proof.
  intros (? & ? & ? & f & [= <- <- <-] & Hid & Hgen & Hh) Hn. set (id := {| layer_index := i; local_expert_id := _ |}) in Hid.
  pose proof changed_layer as Hi'. split; [by eexists id, l', f, _|]. split; [|split; [done|]].
  - intros r' Hc. apply (current_held m g id l) in Hc as (f' & b & Hc); [|done|apply Hat]. congruence.
  - rewrite (device_read_held m' i l' g id), Hh by done. cbn [fmap option_fmap option_map h_bytes]. unfold weights.
    rewrite <-(identity_layer_of g id Hid). cbn [layer_index id]. rewrite Hi'. unfold physical_bytes.
    rewrite drop_app_length' by (by rewrite length_le_bytes). by rewrite take_take, Nat.min_id.
Qed.

End change.

(** A demand's residency is current: as it was, or freshly installed with the weights the
    demand brought. *)
Definition answered (m m' : GpuNativeTieredResidencyManager) (d : GpuNativeDemandExpert) (r : GpuNativeQ4ExpertResidency) : Prop :=
  let g := demand_global_id d in
  current m' g r /\
  (unchanged m m' g \/
   (forall r', ~ current m g r') /\ exists res adm, d = InstallSource g res adm /\ logical_generation (r_key r) = adm_generation adm /\
      device_read m' g = Some (weights m' (layer_of g) (res_data res))).

Lemma served_answered m m' i l l' ds rs :
  at_layer i l l' m m' -> manager_ok m -> served i ds l rs l' -> Forall2 (answered m m') ds rs.
Proof.
  intros Hat Hm (Hds & Ht' & Hs & Hall & _). assert (Ht : tracks i [] l) by (apply Hm, Hat). apply Forall2_same_length_lookup.
  split; [by eapply Forall2_length|]. intros j d r Hd Hr. destruct (dm_layer i ds Hds d) as (id & Hid & Hli); [by eapply list_elem_of_lookup_2|].
  destruct (Forall2_lookup_lr _ _ _ _ _ _ Hall Hd Hr) as [(f & b & Hh & Heq)|(Hn & Hfor)]; unfold answered; cbv zeta.
  - split; [|left; by eapply (unchanged_held m m' i l l')]. rewrite Hh in Heq. exists id, l', f, b. rewrite Hli.
    split_and!; [done|by eapply changed_layer|done].
  - pose proof Hfor as (g & res & adm & f & -> & _). cbn [demand_global_id] in *.
    destruct (installed_current m m' i l l' Hat Ht' g res adm r Hfor Hn) as (Hc & Hno & Hgen & Hread). split; [done|]. right. split; [done|]. by exists res, adm.
Qed.

(** The experts outside the set. *)
Lemma others_kept m m' i l l' ds rs g :
  at_layer i l l' m m' -> manager_ok m -> served i ds l rs l' -> g ∉ (demand_global_id <$> ds) ->
  unchanged m m' g \/ (layer_of g = i /\ forall r, ~ current m' g r).
Proof.
  intros Hat Hm (Hds & Ht' & Hs & _ & Hothers) Hg. assert (Ht : tracks i [] l) by (apply Hm, Hat).
  destruct (decide (layer_of g = i)) as [Hli|]; [|left; by eapply unchanged_elsewhere].
  destruct (identity g) as [id|e] eqn:Hid.
  2:{ left. unfold unchanged, current, device_read. rewrite Hid. split; [|done]. intros r. by split; intros (? & ? & ? & ? & ? & _). }
  destruct (Hothers (local_of g)) as [Hh|Hh].
  - intros d Hd Heq. apply Hg. apply list_elem_of_fmap. exists d. split; [|done]. destruct (dm_layer i ds Hds d Hd) as (id' & Hid' & Hli').
    apply (identity_inj g _ id Hid). rewrite Hid'. f_equal. pose proof (identity_layer_of g id Hid).
    pose proof (proj2 (identity_ok g id Hid)). pose proof (proj2 (identity_ok _ id' Hid')). destruct id, id'. cbn in *. f_equal; lia.
  - left. by eapply unchanged_held.
  - right. split; [done|]. intros r Hc. pose proof (changed_layer m m' i l l' Hat) as Hi'.
    apply (current_held m' g id l') in Hc as (f & b & Hc); [congruence|done|]. by rewrite (identity_layer_of g id Hid), Hli.
Qed.

(** What was current still is, errors included. *)
Lemma kept_current m m' :
  manager_ok m -> kept m m' -> forall g r, current m g r -> current m' g r /\ device_read m' g = device_read m g.
Proof.
  intros Hm [Hl|(i & l & l' & Hat & Hok & Hs & Hkeep)] g r Hc; [by unfold current, device_read in *; rewrite Hl|].
  destruct (decide (layer_of g = i)) as [Hli|]; [|destruct (unchanged_elsewhere m m' i l l' g) as [Hu Hd]; [done..|split; [by apply Hu|done]]].
  pose proof Hc as (id & _ & _ & _ & Hid & _). pose proof (identity_layer_of g id Hid) as Hli'. rewrite Hli in Hli'.
  assert (Ht : tracks i [] l) by (apply Hm, Hat). assert (Hi : layers m !! N.to_nat (layer_index id) = Some l) by (rewrite Hli'; apply Hat).
  assert (Hi' : layers m' !! N.to_nat (layer_index id) = Some l') by (rewrite Hli'; by eapply changed_layer).
  apply (current_held m g id l) in Hc as (f & b & Hh); [|done..]. pose proof (Hkeep _ _ Hh) as Hh'. split; [by exists id, l', f, b|].
  pose proof (held_reads i l g id Ht Hid Hli') as Hr.
  unfold device_read. rewrite Hid, Hi, Hi'. cbn [mbind option_bind].
  rewrite Hh in Hr. destruct Hr as (r' & e & payload & [= <-] & -> & Hx & Hb & _). cbn [h_bytes] in Hb. subst b.
  rewrite <-(same_geometry _ _ Hs) in Hh'. destruct (resident_read _ _ _ _ _ Hok Hh') as (e' & He' & Hx').
  destruct (identity_ok g id Hid) as [_ Hloc]. rewrite <-Hloc, N2Nat.id in He'. rewrite He'. cbn [mbind option_bind].
  by rewrite Hx, Hx', (same_geometry _ _ Hs).
Qed.

Lemma untouched_expert m m' i l l' (Hat : at_layer i l l' m m') (Ht : tracks i [] l) (Ht' : tracks i [] l') g id g' :
  identity g = Ok id -> layer_index id = i -> touches (eq (local_of g)) l l' -> g' <> g -> unchanged m m' g'.
Proof.
  intros Hid Hli [Hs Hto] Hne. destruct (decide (layer_of g' = i)) as [Hl|]; [|by eapply unchanged_elsewhere].
  destruct (identity g') as [id'|e] eqn:Hid'.
  2:{ unfold unchanged, current, device_read. rewrite Hid'. split; [|done]. intros r. by split; intros (? & ? & ? & ? & ? & _). }
  eapply unchanged_held; try done. apply Hto. intros Heq. apply Hne. apply (identity_inj g' g id'); [done|]. rewrite Hid. f_equal.
  pose proof (identity_layer_of g' id' Hid'). pose proof (proj2 (identity_ok g id Hid)). pose proof (proj2 (identity_ok g' id' Hid')).
  destruct id, id'. cbn in *. f_equal; lia.
Qed.

(** ** The contracts *)

(** C3. Asking for a demand set never panics.  When it succeeds, every demanded expert is
    current at once, as it was before or freshly installed with the generation and the
    weights the demand brought, and the device reads them; every other expert is as it was
    or, in this layer, evicted.  When it fails, it is for one of the named reasons, never
    for a corrupt table or for want of a slot, and the records still track the arena
    unless the device is lost. *)
Theorem demand_set_becomes_resident priority i ds path m :
  manager_ok m -> Forall supplied ds ->
  exists r m', ensure_demand_set_inner priority i ds path m = Some (r, m') /\
    match r with
    | Ok rs => manager_ok m' /\ Forall2 (answered m m') ds rs /\
        forall g, g ∉ (demand_global_id <$> ds) -> unchanged m m' g \/ (layer_of g = i /\ forall r, ~ current m' g r)
    | Err e => failed m e m'
    end.
Proof.
  intros Hm Hsup. destruct (ensure_spec priority i ds path m Hm Hsup) as (r & m' & Hrun & Hr). exists r, m'. split; [done|].
  destruct r as [rs|e]; [|done]. destruct Hr as (Hm' & l & l' & Hat & Hs). split; [done|]. split; [by eapply served_answered|].
  intros g Hg. by eapply others_kept.
Qed.

(** C7. A speculative request never disturbs what is resident: whatever it answers, every
    error and the loss of the device included, every expert that was current still is, as
    the same residency and with the same weights for the device.  An install makes the
    requested expert current, with the weights of the request, and no other; a hit is the
    current residency; a drop or a stale generation changes no arena.  An error is one of
    the named reasons, and leaves the records tracking the arenas unless the device is
    lost. *)
Theorem speculation_never_evicts g res adm priority contended m :
  manager_ok m -> written g (adm_generation adm) (res_data res) ->
  exists r m', ensure_speculative_resident g res adm priority contended m = Some (r, m') /\
    (forall g' r', current m g' r' -> current m' g' r' /\ device_read m' g' = device_read m g') /\
    match r with
    | Ok answer => manager_ok m' /\
        match answer with
        | SpecInstalled r => (forall g', g' <> g -> unchanged m m' g') /\ (forall r', ~ current m g r') /\ current m' g r /\
            logical_generation (r_key r) = adm_generation adm /\ device_read m' g = Some (weights m' (layer_of g) (res_data res))
        | SpecHit r => current m g r /\ arenas m' = arenas m
        | StaleLogicalGeneration | DroppedCapacityOrPressure => arenas m' = arenas m
        end
    | Err e => failed m e m'
    end.
Proof.
  intros Hm Hw. destruct (speculate_spec g res adm priority contended m Hm Hw) as (r & m' & Hrun & Hk & Hr). exists r, m'.
  split; [done|]. split; [by apply kept_current|].
  destruct r as [answer|e]; [|done]. destruct Hr as (Hm' & [(Hl & Ha)|(i & l & l' & Hat & Hid & Hs)]); (split; [done|]).
  - unfold arenas. rewrite Hl. by destruct Ha as [-> | ->].
  - assert (Ht : tracks i [] l) by (apply Hm, Hat). destruct Hs as (Ht' & Hun & Hans). destruct answer as [r|r| |].
    + destruct Hans as (Ha & f & b & Hh). split; [|by eapply arenas_same]. destruct Hid as (id & Hid & Hli). exists id, l, f, b. rewrite Hli. split_and!; [done|apply Hat|done].
    + destruct Hans as (Hn & Hfor & Hs & Hto). destruct Hid as (id & Hid & Hli).
      destruct (installed_current m m' i l l' Hat Ht' g res adm r Hfor Hn) as (Hc & Hno & Hgen & Hread). split; [|done].
      intros g' Hne. by eapply (untouched_expert m m' i l l' Hat Ht Ht' g id).
    + by eapply arenas_same.
    + by eapply arenas_same.
Qed.

(** The tests of residency are exact.  [has_current_for_demand] is true of the current
    experts and of no other, and [probe_speculative] returns the current residency or,
    when it could take the lock, that there is none; neither changes an arena. *)
Theorem probes_are_exact g priority contended m :
  manager_ok m ->
  (exists r m', has_current_for_demand g m = Some (r, m') /\ manager_ok m' /\ arenas m' = arenas m /\
     match r with Ok b => b = true <-> exists r, current m g r | Err e => identity g = Err e end) /\
  (exists r m', probe_speculative g priority contended m = Some (r, m') /\ manager_ok m' /\ arenas m' = arenas m /\
     match r with
     | Ok (ProbeHit r) => current m g r
     | Ok ProbeMiss => forall r, ~ current m g r
     | Ok DroppedPressure => contended = true
     | Err e => e = ResidencyPriorityMismatch \/ identity g = Err e
     end).
Proof. intros Hm. split; [by apply has_current_spec|by apply probe_spec]. Qed.

Lemma gpu_asked {St} `{!Shares St} (s : St) : wp authoritative_gpu (fun _ _ => True) s.
Proof. unfold authoritative_gpu. wp_step. apply ask_shared. intros e sh. cbn [bound]. destruct (env_lost e); by wp_step. Qed.

Lemma create_layers_spec d i plans s :
  Forall (fun p => geometry_ok (geometry p) /\ num_experts (geometry p) = experts_per_layer) plans ->
  wp (create_layers d i plans) (fun r _ => match r with
    | Ok ls => length ls = length plans /\ forall j l, ls !! j = Some l -> tracks (i + N.of_nat j) [] l
    | Err _ => True
    end) s.
Proof.
  intros Hp. revert i s. induction Hp as [|p plans [Hg Hn] _ IH]; intros i s; cbn [create_layers]; [wp_step; split; [done|by intros j l]|].
  eapply wp_seq with (P := fun r _ => match r with Ok a => tracks i [] {| arena := a; records := layer_state_default |} | Err _ => True end); [| |done].
  - unfold create_arena. eapply wp_seq with (P := fun _ _ => True); [| |done].
    { destruct (negb _); [by wp_step|apply gpu_asked]. }
    intros _ s1 _. destruct (created context d limits i p [] Hg) as (r & Hr & _). rewrite Hr. wp_step. destruct r as [a|e]; cbn; [|done].
    by eapply fresh_layer.
  - intros a s1 Ha. wp_step. eapply wp_mono; [apply IH|]. intros [ls|e] s2; [|done]. intros [Hlen Hls]. cbn [bound]. wp_step. split; [cbn; lia|].
    intros [|j] l; cbn; [intros [= <-]; by rewrite N.add_0_r|]. intros Hj. replace (i + N.of_nat (S j)) with (i + 1 + N.of_nat j) by lia. by apply Hls.
Qed.

Lemma try_new_spec d g budget s sh :
  geometry_ok g -> num_experts g = experts_per_layer -> budget <= u64_max ->
  wp (try_new d g budget) (fun r _ => match r with Ok ls => manager_ok {| layers := ls; m_shared := sh |} | Err _ => True end) s.
Proof.
  intros Hg Hn Hb. unfold try_new. eapply wp_seq with (P := fun _ _ => True); [| |done].
  { apply gpu_asked. }
  intros _ s1 _. destruct (model_plan_returns g limits Hg num_layers budget Hb) as (r & Hr & _). rewrite Hr. wp_step. wp_step.
  destruct r as [p|e]; cbn [bound]; [|done]. destruct (model_plan_geometry g limits Hg num_layers budget p Hb Hr) as [Hlen Hgeo].
  eapply wp_mono; [apply create_layers_spec; eapply Forall_impl; [exact Hgeo|]; by intros q ->|].
  intros [ls|e] s2; [|done]. intros [Hls Hall]. split; [unfold lenN; cbn; lia|]. intros i l Hi. cbn in Hi. specialize (Hall _ l Hi).
  by rewrite N2Nat.id in Hall.
Qed.

Lemma try_new_ok d g budget s ls s1 sh :
  geometry_ok g -> num_experts g = experts_per_layer -> budget <= u64_max -> try_new d g budget s = Some (Ok ls, s1) ->
  manager_ok {| layers := ls; m_shared := sh |}.
Proof. intros Hg Hn Hb Hnew. destruct (try_new_spec d g budget s sh Hg Hn Hb) as (r & s2 & Hr & Hm). rewrite Hnew in Hr. by injection Hr as <- <-. Qed.

(** A new manager is valid: planning and creating the arenas never panics, and when it
    succeeds there is one arena for each layer of the model and every layer's records,
    which are none, are its arena's. *)
Theorem new_manager_tracks d geo budget s sh :
  geometry_ok geo -> num_experts geo = experts_per_layer -> budget <= u64_max ->
  exists r s', try_new d geo budget s = Some (r, s') /\
    match r with Ok ls => manager_ok {| layers := ls; m_shared := sh |} | Err _ => True end.
Proof. intros Hg Hn Hb. by apply try_new_spec. Qed.

End contents.

Lemma tracks_mono (W W' : N -> N -> list byte -> Prop) i ps l : (forall g n p, W g n p -> W' g n p) -> tracks W i ps l -> tracks W' i ps l.
Proof.
  intros HW [H1 H2 H3 H4 H5]. split; try done. intros g rec Hg. destruct (H2 g rec Hg) as (? & ? & f & p & ? & ?).
  split; [done|]. split; [done|]. exists f, p. auto.
Qed.

(** ** A run of requests *)

Inductive Request :=
| ReqDemandSet (priority : GpuNativeResidencyPriority) (layer : N) (ds : list GpuNativeDemandExpert) (path : DemandPhysicalInstallPath)
| ReqHasCurrent (g : N)
| ReqProbe (g : N) (priority : GpuNativeResidencyPriority) (contended : bool)
| ReqSpeculative (g : N) (res : ExpertResident) (adm : GpuAdmission) (priority : GpuNativeResidencyPriority) (contended : bool).

Definition request (q : Request) : op GpuNativeTieredResidencyManager unit :=
  match q with
  | ReqDemandSet priority i ds path => _ ← ensure_demand_set_inner priority i ds path; mret tt
  | ReqHasCurrent g => _ ← has_current_for_demand g; mret tt
  | ReqProbe g priority contended => _ ← probe_speculative g priority contended; mret tt
  | ReqSpeculative g res adm priority contended => _ ← ensure_speculative_resident g res adm priority contended; mret tt
  end.

(** The requests in turn, whatever they answer, until the device is lost. *)
Fixpoint requests (qs : list Request) : op GpuNativeTieredResidencyManager unit :=
  match qs with
  | [] => mret tt
  | q :: qs => r ← attempt (request q); match r with
      | Err e => if decide (e = Backend DeviceLost) then throw e else requests qs
      | Ok _ => requests qs
      end
  end.

(** The request brings the payload, for the expert and the generation. *)
Definition brings (q : Request) (g generation : N) (payload : list byte) : Prop :=
  match q with
  | ReqDemandSet _ _ ds _ => exists res adm, InstallSource g res adm ∈ ds /\ adm_generation adm = generation /\ res_data res = payload
  | ReqSpeculative g' res adm _ _ => g' = g /\ adm_generation adm = generation /\ res_data res = payload
  | _ => False
  end.

Lemma request_spec W q m :
  manager_ok W m -> (forall g n p, brings q g n p -> W g n p) ->
  wp (request q) (fun r m' => match r with Err e => e <> Backend DeviceLost -> manager_ok W m' | Ok _ => manager_ok W m' end) m.
Proof.
  intros Hm HW. destruct q as [priority i ds path|g|g priority c|g res adm priority c]; cbn [request].
  - eapply wp_seq; [apply (ensure_spec W); [done|]| |].
    + apply Forall_forall. intros [g|g res adm] Hd; [done|]. apply HW. by exists res, adm.
    + intros rs m' [Hm' _]. by wp_step.
    + by intros e m' [_ He].
  - eapply wp_seq; [by apply (has_current_spec W)| |]; [intros b m' [Hm' _]; by wp_step|]. by intros e m' [Hm' _].
  - eapply wp_seq; [by apply (probe_spec W)| |]; [intros b m' [Hm' _]; by wp_step|]. by intros e m' [Hm' _].
  - eapply wp_seq; [apply (speculate_spec W); [done|by apply HW]| |].
    + intros a m' [_ [Hm' _]]. by wp_step.
    + by intros e m' [_ [_ He]].
Qed.

Lemma requests_spec W qs m :
  manager_ok W m -> (forall q g n p, q ∈ qs -> brings q g n p -> W g n p) ->
  wp (requests qs) (fun r m' => match r with Ok _ => manager_ok W m' | Err e => e = Backend DeviceLost end) m.
Proof.
  revert m. induction qs as [|q qs IH]; intros m Hm HW; cbn [requests]; [by wp_step|]. wp_step. wp_step.
  eapply wp_mono; [apply (request_spec W q m Hm); intros; eapply HW; [left|done]|]. intros r m' Hr. cbn [bound].
  assert (Hrest : manager_ok W m' -> wp (requests qs) (fun r m' => match r with Ok _ => manager_ok W m' | Err e => e = Backend DeviceLost end) m').
  { intros Hm'. apply IH; [done|]. intros. eapply HW; [by right|done]. }
  destruct r as [[]|e]; [by apply Hrest|]. destruct (decide _); [by wp_step|by apply Hrest, Hr].
Qed.

(** C6. Whatever is asked of a manager, in whatever order, and whatever the device, the
    logical cache, the queue and the other workers do, it never panics and stops only when
    the device is lost; and until then the device reads, of every current expert, weights
    that a request brought for that expert and that generation, and of no other expert
    anything. *)
Theorem device_reads_what_was_brought d geo budget s ls s1 sh qs :
  geometry_ok geo -> num_experts geo = experts_per_layer -> budget <= u64_max -> try_new d geo budget s = Some (Ok ls, s1) ->
  exists r m, requests qs {| layers := ls; m_shared := sh |} = Some (r, m) /\
    match r with
    | Ok _ => forall g, (forall r, current m g r -> exists q payload, q ∈ qs /\ brings q g (logical_generation (r_key r)) payload /\
                                     device_read m g = Some (weights m (layer_of g) payload)) /\
                        ((forall r, ~ current m g r) -> device_read m g = None)
    | Err e => e = Backend DeviceLost
    end.
Proof.
  intros Hg Hn Hb Hnew. set (W := fun g n p => exists q, q ∈ qs /\ brings q g n p).
  pose proof (try_new_ok W d geo budget s ls s1 sh Hg Hn Hb Hnew) as Hm.
  destruct (requests_spec W qs _ Hm) as (r & m & Hrun & Hr); [intros q ? ? ? ? ?; by exists q|]. exists r, m. split; [done|].
  destruct r as [[]|e]; [|done]. intros g'. split; [|by apply (not_current_not_read W)].
  intros r Hc. destruct (current_read W m g' r Hr Hc) as (payload & (q & Hq & Hbr) & Hread). by exists q, payload.
Qed.

End operations.
End manager.

(** ** Examples *)

Module Witness.

Import ExpertVram.Witness.

#[local] Existing Instances ListLru.list_lru ListLru.list_lru_laws.

(** Two layers of eight experts, with room for three and for two; every admission is live
    and the queue always finds staging memory.  Workers run in the order 1, 0, 0, 1. *)
Definition calm (_ : nat) : Env := {| env_lost := false; env_contains := fun _ _ => true; env_view := Some (fun _ => xff) |}.
Definition order (_ : nat) : list nat := [1; 0; 0; 1]%nat.
Definition start : Shared := {| counter := fun _ => 0; clock := 0 |}.
Definition created := try_new 7 (device 6000) 2 calm 32 g 10000 start.
Definition manager : GpuNativeTieredResidencyManager :=
  match created with Some (Ok ls, s) => {| layers := ls; m_shared := s |} | _ => {| layers := []; m_shared := start |} end.
Definition succeeds {A S} (r : option (tres A * S)) : bool := match r with Some (Ok _, _) => true | _ => false end.
Lemma created_layers : created = Some (Ok (layers manager), m_shared manager).
Proof.
  assert (H : succeeds created = true) by (vm_compute; reflexivity). unfold manager. destruct created as [[[ls|e] s]|]; [done|discriminate H..].
Qed.

Definition expert (id : N) (b : byte) : ExpertResident := {| res_id := id; res_data := replicate 1728 b |}.
Definition admission (id gen : N) : GpuAdmission := {| adm_resident_id := id; adm_generation := gen |}.
Definition bring (id gen : N) (b : byte) : GpuNativeDemandExpert := InstallSource id (expert id b) (admission id gen).
Definition anything (_ _ : N) (_ : list byte) : Prop := True.

Definition after (qs : list Request) : GpuNativeTieredResidencyManager :=
  match requests 7 (device 6000) 2 8 calm order qs manager with Some (_, m) => m | None => manager end.

Lemma manager_eta : manager = {| layers := layers manager; m_shared := m_shared manager |}.
Proof. by destruct manager. Qed.
Lemma manager_is_ok : manager_ok 7 (device 6000) 2 8 anything manager.
Proof.
  rewrite manager_eta.
  apply (try_new_ok 7 (device 6000) 2 8 calm anything 32 g 10000 start _ (m_shared manager)); [exact g_ok|done|vm_compute; discriminate|exact created_layers].
Qed.

Lemma new_manager_tracks_witness :
  geometry_ok g /\ exists r s, try_new 7 (device 6000) 2 calm 32 g 10000 start = Some (r, s) /\
    (fun l => plan_slot_capacity (plan (arena l))) <$> layers manager = [3; 2].
Proof.
  split; [exact g_ok|].
  destruct (new_manager_tracks 7 (device 6000) 2 8 calm anything 32 g 10000 start start g_ok eq_refl ltac:(vm_compute; discriminate)) as (r & s & Hr & _).
  exists r, s. split; [exact Hr|]. vm_compute. reflexivity.
Defined.

Lemma demand_set_becomes_resident_witness :
  exists rs m', ensure_demand_set_inner 7 (device 6000) 2 8 calm order Demand 0 [bring 4 1 x04; bring 5 1 x05] ProductionConcurrentDirectStaging manager
    = Some (Ok rs, m') /\ Forall2 (answered 2 8 manager m') [bring 4 1 x04; bring 5 1 x05] rs.
Proof.
  destruct (demand_set_becomes_resident 7 (device 6000) 2 8 calm order anything Demand 0 [bring 4 1 x04; bring 5 1 x05]
    ProductionConcurrentDirectStaging manager manager_is_ok) as (r & m' & Hr & Hc).
  { repeat constructor. }
  assert (H : succeeds (ensure_demand_set_inner 7 (device 6000) 2 8 calm order Demand 0 [bring 4 1 x04; bring 5 1 x05]
    ProductionConcurrentDirectStaging manager) = true) by (vm_compute; reflexivity). rewrite Hr in H.
  destruct r as [rs|e]; [exists rs, m'; exact (conj Hr (proj1 (proj2 Hc)))|discriminate H].
Defined.

(** The manager with experts 4 and 5, and a device that is lost from the [k]th look at it. *)
Definition occupied : GpuNativeTieredResidencyManager :=
  after [ReqDemandSet Demand 0 [bring 4 1 x04; bring 5 1 x05] ProductionConcurrentDirectStaging].
Definition lost_from (k n : nat) : Env := {| env_lost := (k <=? n)%nat; env_contains := fun _ _ => true; env_view := env_view (calm n) |}.

Lemma occupied_ok : manager_ok 7 (device 6000) 2 8 anything occupied.
Proof.
  unfold occupied, after. destruct (requests_spec 7 (device 6000) 2 8 calm order anything
    [ReqDemandSet Demand 0 [bring 4 1 x04; bring 5 1 x05] ProductionConcurrentDirectStaging] manager manager_is_ok) as (r & m & Hr & Hm); [done|].
  rewrite Hr. destruct r as [u|e]; [exact Hm|exfalso].
  assert (H : succeeds (requests 7 (device 6000) 2 8 calm order
    [ReqDemandSet Demand 0 [bring 4 1 x04; bring 5 1 x05] ProductionConcurrentDirectStaging] manager) = true) by (vm_compute; reflexivity).
  rewrite Hr in H. discriminate H.
Qed.

Definition held_by (m : GpuNativeTieredResidencyManager) (layer_index local : nat) : option Held := l ← layers m !! layer_index; holder (arena l) local.
Definition resident_at (m : GpuNativeTieredResidencyManager) (layer_index local : nat) : bool :=
  match held_by m layer_index local with Some h => match h_owner h with Resident _ => true | _ => false end | None => false end.
Lemma resident_current m : resident_at m 0 4 = true -> exists r, current 2 8 m 4 r.
Proof.
  unfold resident_at, held_by. intros H. destruct (layers m !! 0%nat) as [l|] eqn:Hl; [|discriminate H]. cbn [mbind option_bind] in H.
  destruct (holder (arena l) 4) as [[f o b]|] eqn:Hh; [|discriminate H]. cbn [h_owner] in H. destruct o as [|k e t|r]; try discriminate H.
  exists r, {| layer_index := 0; local_expert_id := 4 |}, l, f, b. split; [reflexivity|]. split; [exact Hl|exact Hh].
Qed.

Lemma occupied_current : exists r, current 2 8 occupied 4 r.
Proof. apply resident_current. vm_compute. reflexivity. Qed.

Lemma speculation_never_evicts_witness :
  (exists r m', ensure_speculative_resident 7 (device 6000) 2 8 calm 6 (expert 6 x06) (admission 6 1) Speculative false occupied = Some (Ok (SpecInstalled r), m') /\
     current 2 8 m' 6 r /\ device_read 2 8 m' 4 = device_read 2 8 occupied 4) /\
  exists m' r, ensure_speculative_resident 7 (device 6000) 2 8 (lost_from (3 + clock (m_shared occupied))) 6 (expert 6 x06) (admission 6 1) Speculative false occupied
      = Some (Err (Backend DeviceLost), m') /\
    current 2 8 occupied 4 r /\ current 2 8 m' 4 r /\ device_read 2 8 m' 4 = device_read 2 8 occupied 4.
Proof.
  destruct occupied_current as [r4 H4]. split.
  - destruct (speculation_never_evicts 7 (device 6000) 2 8 calm anything 6 (expert 6 x06) (admission 6 1) Speculative false occupied occupied_ok I)
      as (r & m' & Hr & Hkeep & Hc).
    assert (H : match ensure_speculative_resident 7 (device 6000) 2 8 calm 6 (expert 6 x06) (admission 6 1) Speculative false occupied with
      Some (Ok (SpecInstalled _), _) => true | _ => false end = true) by (vm_compute; reflexivity). rewrite Hr in H.
    destruct r as [[r|r| |]|e]; try discriminate H. destruct Hc as (_ & _ & _ & Hcur & _).
    exists r, m'. exact (conj Hr (conj Hcur (proj2 (Hkeep 4 r4 H4)))).
  - destruct (speculation_never_evicts 7 (device 6000) 2 8 (lost_from (3 + clock (m_shared occupied))) anything 6 (expert 6 x06) (admission 6 1)
      Speculative false occupied occupied_ok I) as (r & m' & Hr & Hkeep & _).
    assert (H : match ensure_speculative_resident 7 (device 6000) 2 8 (lost_from (3 + clock (m_shared occupied))) 6 (expert 6 x06) (admission 6 1)
      Speculative false occupied with Some (Err (Backend DeviceLost), _) => true | _ => false end = true) by (vm_compute; reflexivity). rewrite Hr in H.
    destruct r as [a|e]; [discriminate H|]. destruct e as [| | | | | | | | | | | | | | | | | | | | |e]; try discriminate H. destruct e; try discriminate H.
    exists m', r4. exact (conj Hr (conj H4 (Hkeep 4 r4 H4))).
Defined.

Lemma probes_are_exact_witness : exists r m', probe_speculative 7 2 8 6 Speculative false manager = Some (r, m') /\ arenas m' = arenas manager.
Proof.
  destruct (probes_are_exact 7 (device 6000) 2 8 anything 6 Speculative false manager manager_is_ok) as [_ (r & m' & Hr & _ & Ha & _)].
  exists r, m'. exact (conj Hr Ha).
Defined.

(** Expert 4 and 5 are demanded, 6 speculated, 7 and 5 demanded: 4, the oldest, is evicted. *)
Definition wanted : list Request :=
  [ReqDemandSet Demand 0 [bring 4 1 x04; bring 5 1 x05] ProductionConcurrentDirectStaging;
   ReqSpeculative 6 (expert 6 x06) (admission 6 1) Speculative false;
   ReqDemandSet Demand 0 [bring 7 1 x07; Current 5] ProductionConcurrentDirectStaging;
   ReqDemandSet Demand 1 [bring 9 3 x09] LegacyFullSlotVecControl].

Example wanted_reads :
  device_read 2 8 (after wanted) <$> [4; 5; 6; 7; 9] =
  [None; Some (replicate 1728 x05); Some (replicate 1728 x06); Some (replicate 1728 x07); Some (replicate 1728 x09)].
Proof. vm_compute. reflexivity. Qed.

Lemma device_reads_what_was_brought_witness :
  exists r m, requests 7 (device 6000) 2 8 calm order wanted {| layers := layers manager; m_shared := m_shared manager |} = Some (r, m) /\
    forall g, (forall r, ~ current 2 8 m g r) -> device_read 2 8 m g = None.
Proof.
  destruct (device_reads_what_was_brought 7 (device 6000) 2 8 calm order 32 g 10000 start (layers manager) (m_shared manager) (m_shared manager)
    wanted g_ok eq_refl ltac:(vm_compute; discriminate) created_layers) as (r & m & Hr & Hc).
  exists r, m. split; [exact Hr|]. destruct r as [u|e]; [intros g'; exact (proj2 (Hc g'))|].
  assert (H : succeeds (requests 7 (device 6000) 2 8 calm order wanted manager) = true) by (vm_compute; reflexivity).
  rewrite manager_eta, Hr in H. discriminate H.
Defined.

End Witness.
