(* ===== verification/BufferPool.v ===== *)
(** The page-aligned buffer pool ([src/rust-engine/src/aligned_buffer.rs],
    [src/rust-engine/src/buffer_pool.rs]).

    A pool owns a primary and an optional shadow free list of aligned buffers
    and lends them out as RAII guards; dropping a guard returns its buffer to
    the list its slot tag names.  [step] is the relation of every interleaving
    of the pool's operations over the guards outstanding. *)
From S2P Require Import Prelude.

(** ** Aligned buffers *)

Record AlignedBuffer := { ptr : N; bytes : list byte; align : N }.

Definition is_power_of_two (n : N) : bool := negb (n =? 0)%N && (N.land n (n - 1) =? 0)%N.

(** [AlignedBuffer::new] asserts its arguments ([None] is the panic); [addr] is
    the address [alloc_zeroed] returned, a multiple of the requested alignment. *)
Definition AlignedBuffer_new (addr size align : N) : option AlignedBuffer :=
  if negb (is_power_of_two align) then None else
  if negb (0 <? size)%N then None else
  if negb (size mod align =? 0)%N then None else
  Some {| ptr := addr; bytes := replicate (N.to_nat size) x00; align := align |}.

(** ** Process-wide byte counters *)

Inductive BufferPoolOrigin := Production | QualificationOracleFutureSource.

#[export] Instance BufferPoolOrigin_eq_dec : EqDecision BufferPoolOrigin.
Proof. solve_decision. Defined.

Record PoolBytes := { primary_bytes : N; shadow_bytes : N; oracle_bytes : N }.

Definition fetch_add (a b : N) : N := wrap_add u64_max a b.
Definition fetch_sub (a b : N) : N := ((a + (u64_max + 1 - b mod (u64_max + 1))) mod (u64_max + 1))%N.

(** [expert_buffer_pool_allocated_bytes]. *)
Definition allocated_bytes_total (g : PoolBytes) : N :=
  sat_add u64_max (sat_add u64_max (primary_bytes g) (shadow_bytes g)) (oracle_bytes g).

(** ** The pool *)

(** The free lists are Rust [Vec]s used as stacks; the head of the list is the
    top of the stack. *)
Record BufferPool := {
  free : list AlignedBuffer;
  shadow : option (list AlignedBuffer);
  primary_slots : N;
  shadow_slots : N;
  buffer_size : N;
  pool_align : N;
  origin : BufferPoolOrigin;
}.

Inductive Slot := Primary | Shadow.

#[export] Instance Slot_eq_dec : EqDecision Slot.
Proof. solve_decision. Defined.

Record PooledBuffer := { buffer : AlignedBuffer; slot : Slot }.

(** Wakeups sent to waiters ([Notify::notify_one]). *)
Inductive Wakeup := NotifyPrimary | NotifyShadow.

Definition with_free (p : BufferPool) (l : list AlignedBuffer) : BufferPool :=
  {| free := l; shadow := shadow p; primary_slots := primary_slots p;
     shadow_slots := shadow_slots p; buffer_size := buffer_size p;
     pool_align := pool_align p; origin := origin p |}.

Definition with_shadow (p : BufferPool) (l : list AlignedBuffer) : BufferPool :=
  {| free := free p; shadow := Some l; primary_slots := primary_slots p;
     shadow_slots := shadow_slots p; buffer_size := buffer_size p;
     pool_align := pool_align p; origin := origin p |}.

(** [n] calls of [AlignedBuffer::new]; the allocator hands out [addrs]. *)
Fixpoint alloc_buffers (addrs : list N) (size align : N) : option (list AlignedBuffer) :=
  match addrs with
  | [] => Some []
  | a :: addrs' =>
      b ← AlignedBuffer_new a size align;
      l ← alloc_buffers addrs' size align;
      Some (b :: l)
  end.

(** [new_with_origin]; [None] is a failed assertion.  [paddrs] and [saddrs] are
    the addresses the allocator returns for the two halves. *)
Definition new_with_origin (paddrs saddrs : list N) (size align : N) (o : BufferPoolOrigin)
    (g : PoolBytes) : option (BufferPool * PoolBytes) :=
  let primary_slots := N.of_nat (length paddrs) in
  let shadow_slots := N.of_nat (length saddrs) in
  if negb (0 <? primary_slots)%N then None else
  if negb (bool_decide (o = Production) || (shadow_slots =? 0)%N) then None else
  free ← alloc_buffers paddrs size align;
  shadow ← (if (0 <? shadow_slots)%N
            then s ← alloc_buffers saddrs size align; Some (Some (reverse s))
            else Some None);
  let pb := sat_mul u64_max primary_slots size in
  let sb := sat_mul u64_max shadow_slots size in
  let g' := match o with
    | Production =>
        {| primary_bytes := fetch_add (primary_bytes g) pb;
           shadow_bytes := fetch_add (shadow_bytes g) sb; oracle_bytes := oracle_bytes g |}
    | QualificationOracleFutureSource =>
        {| primary_bytes := primary_bytes g; shadow_bytes := shadow_bytes g;
           oracle_bytes := fetch_add (oracle_bytes g) pb |}
    end in
  Some ({| free := reverse free; shadow := shadow; primary_slots := primary_slots;
           shadow_slots := shadow_slots; buffer_size := size; pool_align := align;
           origin := o |}, g').

Definition new_with_shadow (paddrs saddrs : list N) (size align : N) (g : PoolBytes) :=
  new_with_origin paddrs saddrs size align Production g.
Definition new (paddrs : list N) (size align : N) (g : PoolBytes) :=
  new_with_shadow paddrs [] size align g.
Definition new_qualification_oracle_future_source (paddrs : list N) (size align : N) (g : PoolBytes) :=
  new_with_origin paddrs [] size align QualificationOracleFutureSource g.

(** [Drop for Inner]. *)
Definition drop_inner (p : BufferPool) (g : PoolBytes) : PoolBytes :=
  let primary := sat_mul u64_max (primary_slots p) (buffer_size p) in
  let shadow := sat_mul u64_max (shadow_slots p) (buffer_size p) in
  match origin p with
  | Production =>
      {| primary_bytes := fetch_sub (primary_bytes g) primary;
         shadow_bytes := fetch_sub (shadow_bytes g) shadow; oracle_bytes := oracle_bytes g |}
  | QualificationOracleFutureSource =>
      {| primary_bytes := primary_bytes g; shadow_bytes := shadow_bytes g;
         oracle_bytes := fetch_sub (oracle_bytes g) primary |}
  end.

Definition capacity (p : BufferPool) : N := primary_slots p.
Definition shadow_capacity (p : BufferPool) : N := shadow_slots p.
Definition primary_allocated_bytes (p : BufferPool) : N :=
  sat_mul usize_max (capacity p) (buffer_size p).
Definition shadow_allocated_bytes (p : BufferPool) : N :=
  sat_mul usize_max (shadow_capacity p) (buffer_size p).
Definition allocated_bytes (p : BufferPool) : N :=
  sat_add usize_max (primary_allocated_bytes p) (shadow_allocated_bytes p).
Definition primary_available (p : BufferPool) : N := N.of_nat (length (free p)).

(** [raw_iovecs]: the free buffers, primary list first, each in [Vec] order. *)
Definition raw_iovecs (p : BufferPool) : list (N * N) :=
  (fun b => (ptr b, N.of_nat (length (bytes b)))) <$>
    (reverse (free p) ++ match shadow p with Some s => reverse s | None => [] end).

Definition try_acquire (p : BufferPool) : option (PooledBuffer * BufferPool) :=
  match free p with
  | [] => None
  | b :: l => Some ({| buffer := b; slot := Primary |}, with_free p l)
  end.

Definition try_acquire_shadow (p : BufferPool) : option (PooledBuffer * BufferPool) :=
  match shadow p with
  | None => None
  | Some [] => None
  | Some (b :: l) => Some ({| buffer := b; slot := Shadow |}, with_shadow p l)
  end.

Definition promote_shadow (buf : PooledBuffer) : PooledBuffer :=
  if bool_decide (slot buf = Shadow)
  then {| buffer := buffer buf; slot := Primary |}
  else buf.

Definition is_shadow (buf : PooledBuffer) : bool := bool_decide (slot buf = Shadow).

(** [Drop for PooledBuffer]. *)
Definition drop_buffer (buf : PooledBuffer) (p : BufferPool) : BufferPool * Wakeup :=
  match slot buf with
  | Primary => (with_free p (buffer buf :: free p), NotifyPrimary)
  | Shadow =>
      match shadow p with
      | Some s => (with_shadow p (buffer buf :: s), NotifyShadow)
      | None => (with_free p (buffer buf :: free p), NotifyPrimary)
      end
  end.

(** ** Interleavings

    The pool with the guards currently outstanding.  A client may acquire from
    either half, write into a guard's bytes, promote a guard, or drop it. *)
Record world := { pool : BufferPool; out : list PooledBuffer }.

Inductive step : world -> world -> Prop :=
| step_acquire w b p :
    try_acquire (pool w) = Some (b, p) ->
    step w {| pool := p; out := b :: out w |}
| step_acquire_shadow w b p :
    try_acquire_shadow (pool w) = Some (b, p) ->
    step w {| pool := p; out := b :: out w |}
| step_write w l1 b l2 data :
    out w = l1 ++ b :: l2 ->
    length data = length (bytes (buffer b)) ->
    step w {| pool := pool w;
              out := l1 ++ {| buffer := {| ptr := ptr (buffer b); bytes := data;
                                           align := align (buffer b) |};
                              slot := slot b |} :: l2 |}
| step_promote w l1 b l2 :
    out w = l1 ++ b :: l2 ->
    step w {| pool := pool w; out := l1 ++ promote_shadow b :: l2 |}
| step_drop w l1 b l2 :
    out w = l1 ++ b :: l2 ->
    step w {| pool := fst (drop_buffer b (pool w)); out := l1 ++ l2 |}.

Definition reachable (w0 w : world) : Prop := rtc step w0 w.

(** The buffers a world owns, free or lent out. *)
Definition shadow_list (p : BufferPool) : list AlignedBuffer := default [] (shadow p).
Definition owned (w : world) : list AlignedBuffer :=
  free (pool w) ++ shadow_list (pool w) ++ (buffer <$> out w).
Definition shape_of (b : AlignedBuffer) : N * N * N :=
  (ptr b, N.of_nat (length (bytes b)), align b).

(** ** Lemmas *)

Lemma step_owned w w' : step w w' -> shape_of <$> owned w' ≡ₚ shape_of <$> owned w.
Proof.
  destruct 1 as [w b p Hp|w b p Hp|w l1 b l2 data Hout Hlen|w l1 b l2 Hout|w l1 b l2 Hout];
    unfold owned, shadow_list in *; csimpl in *.
  - unfold try_acquire in Hp. destruct (free (pool w)) as [|b0 l] eqn:E; simplify_eq; csimpl.
    rewrite !fmap_app. csimpl. rewrite ?fmap_app. csimpl. solve_Permutation.
  - unfold try_acquire_shadow in Hp.
    destruct (shadow (pool w)) as [[|b0 l]|] eqn:E; simplify_eq; csimpl.
    rewrite !fmap_app. csimpl. rewrite ?fmap_app. csimpl. solve_Permutation.
  - rewrite Hout, !fmap_app. csimpl. unfold shape_of at 4; simpl. by rewrite Hlen.
  - rewrite Hout, !fmap_app. csimpl. unfold promote_shadow. by case_bool_decide.
  - rewrite Hout, !fmap_app. csimpl. unfold drop_buffer.
    destruct (slot b); csimpl; [|destruct (shadow (pool w)) eqn:E]; csimpl; rewrite ?E; csimpl;
      rewrite ?fmap_app; csimpl; solve_Permutation.
Qed.

Lemma reachable_owned w w' :
  reachable w w' -> shape_of <$> owned w' ≡ₚ shape_of <$> owned w.
Proof. induction 1 as [|x y z Hs _ IH]; [done|]. by rewrite IH, (step_owned _ _ Hs). Qed.

(** *** The two halves *)

Definition is_primary_b (b : PooledBuffer) : bool := negb (is_shadow b).
Definition lent_primary (l : list PooledBuffer) : nat := length (List.filter is_primary_b l).
Definition lent_shadow (l : list PooledBuffer) : nat := length (List.filter is_shadow l).

(** Buffers whose slot tag, now or once returned, is the primary (shadow) half. *)
Definition primary_side (w : world) : nat := length (free (pool w)) + lent_primary (out w).
Definition shadow_side (w : world) : nat := length (shadow_list (pool w)) + lent_shadow (out w).

(** Shadow guards exist only when the pool has a shadow half. *)
Definition shadow_ok (w : world) : Prop := shadow (pool w) = None -> lent_shadow (out w) = 0%nat.

Lemma lent_app f (l1 : list PooledBuffer) b l2 :
  length (List.filter f (l1 ++ b :: l2)) =
  (length (List.filter f (l1 ++ l2)) + if f b then 1 else 0)%nat.
Proof.
  rewrite !List.filter_app. simpl. destruct (f b); rewrite !length_app; simpl; lia.
Qed.

(** What one step does to the two halves: a buffer changes half only by being
    promoted. *)
Lemma step_sides w w' :
  step w w' -> shadow_ok w ->
  shadow_ok w' /\
  (primary_slots (pool w') = primary_slots (pool w) /\
   shadow_slots (pool w') = shadow_slots (pool w)) /\
  (primary_side w' + shadow_side w' = primary_side w + shadow_side w)%nat /\
  (primary_side w <= primary_side w')%nat.
Proof.
  unfold shadow_ok, primary_side, shadow_side, shadow_list, lent_primary, lent_shadow, is_primary_b.
  destruct 1 as [w b p Hp|w b p Hp|w l1 b l2 data Hout Hlen|w l1 b l2 Hout|w l1 b l2 Hout];
    simpl; intros Hok.
  - unfold try_acquire in Hp. destruct (free (pool w)) eqn:E; simplify_eq; simpl.
    split_and!; auto; lia.
  - unfold try_acquire_shadow in Hp. destruct (shadow (pool w)) as [[|]|] eqn:E; simplify_eq; simpl.
    split_and!; auto; try done; lia.
  - rewrite Hout, !lent_app in *. unfold is_shadow in *; simpl in *. auto.
  - rewrite Hout, !lent_app in *. unfold promote_shadow, is_shadow in *.
    destruct (slot b) eqn:Es; simpl in *; rewrite ?Es in *; simpl in *; split_and!; auto; try lia.
    intros HN. specialize (Hok HN). lia.
  - rewrite Hout, !lent_app in *. unfold drop_buffer, is_shadow in *.
    destruct (slot b) eqn:Es; simpl in *; [|destruct (shadow (pool w)) eqn:E; simpl in *];
      rewrite ?E; simpl; split_and!; auto; try done; try lia.
    + intros HN. specialize (Hok HN). lia.
    + specialize (Hok eq_refl). lia.
Qed.

Lemma reachable_sides w w' :
  reachable w w' -> shadow_ok w ->
  shadow_ok w' /\
  (primary_slots (pool w') = primary_slots (pool w) /\
   shadow_slots (pool w') = shadow_slots (pool w)) /\
  (primary_side w' + shadow_side w' = primary_side w + shadow_side w)%nat /\
  (primary_side w <= primary_side w')%nat.
Proof.
  induction 1 as [|x y z Hs _ IH]; intros Hok; [auto|].
  destruct (step_sides _ _ Hs Hok) as (Hok' & [Hp Hq] & Hsum & Hle).
  destruct (IH Hok') as (? & [] & ? & ?). split_and!; auto; [congruence..|lia|lia].
Qed.

Lemma alloc_buffers_shape addrs size al l :
  alloc_buffers addrs size al = Some l ->
  (fun b => (ptr b, N.of_nat (length (bytes b)), align b)) <$> l =
  (fun a => (a, size, al)) <$> addrs.
Proof.
  revert l; induction addrs as [|a addrs IH]; intros l Hl; cbn [alloc_buffers] in Hl; [by simplify_eq|].
  unfold AlignedBuffer_new in Hl. cbn [mbind option_bind] in Hl.
  destruct (is_power_of_two al), (0 <? size)%N, (size mod al =? 0)%N; try discriminate Hl.
  simpl in Hl. destruct (alloc_buffers addrs size al) as [l'|]; [|discriminate].
  injection Hl as <-. csimpl. rewrite IH by done. rewrite length_replicate, N2Nat.id. done.
Qed.

Lemma new_with_origin_shape paddrs saddrs size al o g p g' :
  new_with_origin paddrs saddrs size al o g = Some (p, g') ->
  shape_of <$> owned {| pool := p; out := [] |} ≡ₚ (fun a => (a, size, al)) <$> (paddrs ++ saddrs) /\
  length (free p) = length paddrs /\ length (shadow_list p) = length saddrs /\
  primary_slots p = N.of_nat (length paddrs) /\ shadow_slots p = N.of_nat (length saddrs) /\
  buffer_size p = size.
Proof.
  unfold new_with_origin. destruct (negb (0 <? _)%N); [done|]. destruct (negb _); [done|].
  destruct (alloc_buffers paddrs size al) as [pl|] eqn:Ep; simpl; [|done].
  apply alloc_buffers_shape in Ep.
  assert (Hpl : length pl = length paddrs) by (by apply (f_equal length) in Ep; rewrite !length_fmap in Ep).
  destruct (N.ltb_spec 0 (N.of_nat (length saddrs))) as [Hs|Hs].
  - destruct (alloc_buffers saddrs size al) as [sl|] eqn:Es; simpl; [|done].
    apply alloc_buffers_shape in Es.
    assert (length sl = length saddrs) by (by apply (f_equal length) in Es; rewrite !length_fmap in Es).
    intros ?; simplify_eq. unfold owned, shadow_list; simpl. rewrite !length_reverse.
    split; [|done]. rewrite app_nil_r, !reverse_Permutation, !fmap_app. by rewrite <-Ep, <-Es.
  - simpl. intros ?; simplify_eq. unfold owned, shadow_list; simpl. rewrite length_reverse.
    destruct saddrs; [|simpl in Hs; lia].
    split; [|done]. rewrite !app_nil_r, reverse_Permutation. by rewrite <-Ep.
Qed.

(** C28. No buffer is ever lost, duplicated or lent twice: in every interleaving of
    acquires, writes, promotions and drops from a fresh pool, the buffers free
    or lent out are exactly the ones allocated at start-up (pairwise distinct,
    each of the pool's size and alignment). *)
Theorem pool_conserves_buffers paddrs saddrs size al o g p g' w :
  new_with_origin paddrs saddrs size al o g = Some (p, g') ->
  NoDup (paddrs ++ saddrs) ->
  reachable {| pool := p; out := [] |} w ->
  NoDup (ptr <$> owned w) /\
  (ptr <$> owned w) ≡ₚ paddrs ++ saddrs /\
  Forall (fun b => N.of_nat (length (bytes b)) = size /\ align b = al) (owned w).
Proof.
  intros Hnew Hnd Hr. apply new_with_origin_shape in Hnew as [Hsh _].
  pose proof (reachable_owned _ _ Hr) as Ho. rewrite Hsh in Ho.
  assert (Hp : ptr <$> owned w ≡ₚ paddrs ++ saddrs).
  { transitivity ((fun x : N * N * N => x.1.1) <$> (shape_of <$> owned w)).
    - by rewrite <-list_fmap_compose.
    - rewrite Ho, <-list_fmap_compose. unfold compose; simpl. by rewrite list_fmap_id. }
  split; [by rewrite Hp|]. split; [done|].
  apply Forall_forall. intros b Hb.
  assert (Hin : shape_of b ∈ shape_of <$> owned w) by by apply list_elem_of_fmap_2.
  rewrite Ho in Hin. apply list_elem_of_fmap in Hin as (a & [= _ ? ?] & _). done.
Qed.

(** The halves only move one way: from a fresh pool the total number of slots is
    fixed, the primary half never falls below its configured capacity, and it
    exceeds it by exactly the number of shadow buffers promoted so far (nothing
    returns a slot to the shadow half). *)
Theorem pool_halves paddrs saddrs size al o g p g' w :
  new_with_origin paddrs saddrs size al o g = Some (p, g') ->
  reachable {| pool := p; out := [] |} w ->
  (N.of_nat (primary_side w) + N.of_nat (shadow_side w) =
     capacity (pool w) + shadow_capacity (pool w))%N /\
  (capacity (pool w) <= N.of_nat (primary_side w))%N /\
  (N.of_nat (primary_side w) - capacity (pool w) =
     shadow_capacity (pool w) - N.of_nat (shadow_side w))%N.
Proof.
  intros (_ & Hf & Hs & Hp & Hq & _)%new_with_origin_shape Hr.
  apply reachable_sides in Hr as (_ & [Hps Hss] & Hsum & Hle); [|done].
  unfold capacity, shadow_capacity. rewrite Hps, Hss. simpl in *. rewrite Hp, Hq.
  unfold primary_side, shadow_side, lent_primary, lent_shadow in *; simpl in *. lia.
Qed.

(** A dropped guard is immediately available to the half that was woken: after
    a drop the woken half's [try_acquire] succeeds with the very buffer that was
    returned (its bytes are not cleared), so no wakeup is sent to a half that
    still has nothing to offer. *)
Theorem drop_wakes_the_right_half (buf : PooledBuffer) (p : BufferPool) :
  match drop_buffer buf p with
  | (p', NotifyPrimary) =>
      try_acquire p' = Some ({| buffer := buffer buf; slot := Primary |}, with_free p (free p)) /\
      (is_shadow buf = true -> shadow p = None)
  | (p', NotifyShadow) =>
      is_shadow buf = true /\ exists s, shadow p = Some s /\
      try_acquire_shadow p' = Some ({| buffer := buffer buf; slot := Shadow |}, with_shadow p s)
  end.
Proof.
  unfold drop_buffer, is_shadow. destruct (slot buf) eqn:E; simpl; [done|].
  destruct (shadow p) as [s|] eqn:Es; simpl; [|done].
  split; [done|]. exists s. by unfold try_acquire_shadow, with_shadow.
Qed.


(** *** Witnesses *)

(** Two primary buffers and one shadow buffer of 4096 bytes; the shadow buffer is
    taken, promoted and dropped. *)
Definition sample_init : option (BufferPool * PoolBytes) :=
  new_with_shadow [4096; 16384]%N [65536]%N 4096 4096
    {| primary_bytes := 0; shadow_bytes := 0; oracle_bytes := 0 |}.

Definition sample_pool : BufferPool :=
  match sample_init with Some (p, _) => p
  | None => {| free := []; shadow := None; primary_slots := 0; shadow_slots := 0;
               buffer_size := 0; pool_align := 0; origin := Production |} end.

Definition sample_lent : PooledBuffer :=
  {| buffer := match shadow_list sample_pool with b :: _ => b
               | [] => {| ptr := 0; bytes := []; align := 0 |} end;
     slot := Shadow |}.

Definition sample_world : world :=
  {| pool := with_free (with_shadow sample_pool []) (buffer sample_lent :: free sample_pool);
     out := [] |}.

Lemma sample_reaches : reachable {| pool := sample_pool; out := [] |} sample_world.
Proof.
  eapply rtc_l; [apply (step_acquire_shadow _ sample_lent (with_shadow sample_pool [])); by vm_compute|].
  eapply rtc_l; [by apply (step_promote _ [] sample_lent [])|].
  eapply rtc_l; [by apply (step_drop _ [] (promote_shadow sample_lent) [])|].
  apply rtc_refl.
Qed.

Lemma sample_init_ok : exists g,
  new_with_origin [4096; 16384]%N [65536]%N 4096 4096 Production
    {| primary_bytes := 0; shadow_bytes := 0; oracle_bytes := 0 |} = Some (sample_pool, g).
Proof. eexists. vm_compute. reflexivity. Qed.

Lemma pool_conserves_buffers_witness :
  (ptr <$> owned sample_world) ≡ₚ ([4096; 16384] ++ [65536])%N.
Proof.
  destruct sample_init_ok as [g Hg].
  exact (proj1 (proj2 (pool_conserves_buffers _ _ _ _ _ _ _ _ _ Hg
    ltac:(vm_compute; repeat constructor; set_solver) sample_reaches))).
Defined.

Lemma pool_halves_witness :
  (N.of_nat (primary_side sample_world) + N.of_nat (shadow_side sample_world) =
     capacity (pool sample_world) + shadow_capacity (pool sample_world))%N /\
  primary_side sample_world = 3%nat.
Proof.
  destruct sample_init_ok as [g Hg]. split; [|reflexivity].
  exact (proj1 (pool_halves _ _ _ _ _ _ _ _ _ Hg sample_reaches)).
Defined.

(** A promoted shadow buffer is a slot the shadow half never gets back: the
    primary half then reports more free buffers than its capacity. *)
Example promotion_exceeds_capacity :
  (capacity (pool sample_world) < primary_available (pool sample_world))%N /\
  try_acquire_shadow (pool sample_world) = None.
Proof. vm_compute. auto. Qed.
