(* ===== verification/BlockPool.v ===== *)
(** The paged KV cache's shared block pool and the per-request block manager
    ([src/rust-engine/src/block_pool.rs]).

    A [Vec] used as a stack is modelled with its last element first.  The slabs
    are lists of [f32]; a range outside a slab and a failed [assert!] are [None].
    The manager's theorems are stated against the abstract cache it implements,
    the list of the tokens appended. *)
From S2P Require Import Prelude Floats.
Local Open Scope N_scope.

Definition POOL_BLOCK_TOKENS : N := 16.
Definition SOFT_CAP_RATIO : f32 := f32_div (f32_of_N 90) (f32_of_N 100).
Definition CRITICAL_PRESSURE_RATIO : f32 := f32_div (f32_of_N 98) (f32_of_N 100).

Inductive PressureLevel := Normal | High | Critical.

(** ** Block ids *)

Definition OVERFLOW_BIT : N := N.shiftl 1 31.
Abbreviation BlockId := N (only parsing).
Definition is_overflow (id : BlockId) : bool := negb (N.land id OVERFLOW_BIT =? 0).
Definition index (id : BlockId) : N := N.ldiff id OVERFLOW_BIT.

(** ** Thresholds *)

Record PressureThresholds := {
  high : f32;
  critical : f32;
  max_overflow_capacity : option N;
}.

Inductive ThresholdError := HighOutOfRange | CriticalOutOfRange | HighAboveCritical.

Definition default_thresholds : PressureThresholds :=
  {| high := SOFT_CAP_RATIO; critical := CRITICAL_PRESSURE_RATIO; max_overflow_capacity := None |}.

(** [x > 0.0 && x <= 1.0]. *)
Definition in_unit (x : f32) : bool := SFltb f32_zero x && SFleb x f32_one.

Definition try_new (high critical : f32) : result ThresholdError PressureThresholds :=
  if negb (in_unit high) then Err HighOutOfRange else
  if negb (in_unit critical) then Err CriticalOutOfRange else
  if SFltb critical high then Err HighAboveCritical else
  Ok {| high := high; critical := critical; max_overflow_capacity := None |}.

Definition with_max_overflow_capacity (max : option N) (t : PressureThresholds) : PressureThresholds :=
  {| high := high t; critical := critical t;
     max_overflow_capacity := n ← max; if 0 <? n then Some n else None |}.

(** ** The pool *)

Record BlockPool := {
  kv_dim : N;
  capacity : N;
  block_floats : N;
  keys : list f32;
  values : list f32;
  free : list N;
  overflow_keys : list f32;
  overflow_values : list f32;
  overflow_free : list N;
  overflow_capacity : N;
  thresholds : PressureThresholds;
}.

Definition with_thresholds (kv_dim capacity : N) (t : PressureThresholds) : option BlockPool :=
  if negb (0 <? kv_dim) then None else
  if negb (0 <? capacity) then None else
  let block_floats := wrap_mul usize_max POOL_BLOCK_TOKENS kv_dim in
  total ← checked_mul usize_max block_floats capacity;
  let capacity32 := capacity mod (u32_max + 1) in
  if negb (capacity32 <=? N.ldiff u32_max OVERFLOW_BIT) then None else
  Some {| kv_dim := kv_dim; capacity := capacity; block_floats := block_floats;
          keys := replicate (N.to_nat total) f32_zero; values := replicate (N.to_nat total) f32_zero;
          free := rangeN capacity32;
          overflow_keys := []; overflow_values := []; overflow_free := []; overflow_capacity := 0;
          thresholds := t |}.

Definition new (kv_dim capacity : N) : option BlockPool := with_thresholds kv_dim capacity default_thresholds.

Definition with_free (l : list N) (p : BlockPool) : BlockPool :=
  {| kv_dim := kv_dim p; capacity := capacity p; block_floats := block_floats p; keys := keys p;
     values := values p; free := l; overflow_keys := overflow_keys p;
     overflow_values := overflow_values p; overflow_free := overflow_free p;
     overflow_capacity := overflow_capacity p; thresholds := thresholds p |}.

Definition with_slabs (ks vs : list f32) (p : BlockPool) : BlockPool :=
  {| kv_dim := kv_dim p; capacity := capacity p; block_floats := block_floats p; keys := ks;
     values := vs; free := free p; overflow_keys := overflow_keys p;
     overflow_values := overflow_values p; overflow_free := overflow_free p;
     overflow_capacity := overflow_capacity p; thresholds := thresholds p |}.

Definition with_overflow (oks ovs : list f32) (ofree : list N) (ocap : N) (p : BlockPool) : BlockPool :=
  {| kv_dim := kv_dim p; capacity := capacity p; block_floats := block_floats p; keys := keys p;
     values := values p; free := free p; overflow_keys := oks; overflow_values := ovs;
     overflow_free := ofree; overflow_capacity := ocap; thresholds := thresholds p |}.

(** [max_overflow_capacity] reached. *)
Definition overflow_capped (p : BlockPool) : bool :=
  match max_overflow_capacity (thresholds p) with
  | Some max => max <=? overflow_capacity p
  | None => false
  end.

(** Outer [None]: the 31-bit assertion. *)
Definition allocate (p : BlockPool) : option (option BlockId * BlockPool) :=
  match free p with
  | idx :: free' => Some (Some idx, with_free free' p)
  | [] =>
  match overflow_free p with
  | idx :: free' =>
      Some (Some (N.lor idx OVERFLOW_BIT),
            with_overflow (overflow_keys p) (overflow_values p) free' (overflow_capacity p) p)
  | [] =>
  if overflow_capped p then Some (None, p) else
  let new_idx := overflow_capacity p mod (u32_max + 1) in
  if negb (N.land new_idx OVERFLOW_BIT =? 0) then None else
  let zeros := replicate (N.to_nat (block_floats p)) f32_zero in
  Some (Some (N.lor new_idx OVERFLOW_BIT),
        with_overflow (overflow_keys p ++ zeros) (overflow_values p ++ zeros) []
          (overflow_capacity p + 1) p)
  end end.

(** The [debug_assert!]s of [release]. *)
Definition release_in_range (id : BlockId) (p : BlockPool) : bool :=
  if is_overflow id then index id <? overflow_capacity p else id <? capacity p.

Definition release (id : BlockId) (p : BlockPool) : BlockPool :=
  if is_overflow id
  then with_overflow (overflow_keys p) (overflow_values p) (index id :: overflow_free p)
         (overflow_capacity p) p
  else with_free (id :: free p) p.

Definition free_blocks (p : BlockPool) : N := N.of_nat (length (free p)).
Definition overflow_in_use (p : BlockPool) : N :=
  sat_sub (overflow_capacity p) (N.of_nat (length (overflow_free p))).

Definition utilization (p : BlockPool) : f32 :=
  if capacity p =? 0 then f32_zero else
  let used_primary := sat_sub (capacity p) (N.of_nat (length (free p))) in
  f32_div (f32_of_N (used_primary + overflow_in_use p)) (f32_of_N (capacity p)).

Definition pressure_level (p : BlockPool) : PressureLevel :=
  let u := utilization p in
  if SFleb (critical (thresholds p)) u then Critical
  else if SFleb (high (thresholds p)) u then High else Normal.

Definition above_soft_cap (p : BlockPool) : bool := SFleb (high (thresholds p)) (utilization p).

(** [slab[off..off + src.len()].copy_from_slice(src)] and [slab[off..off + n]]. *)
Definition slab_write (off : N) (src slab : list f32) : option (list f32) :=
  if (N.to_nat off + length src <=? length slab)%nat then Some (splice (N.to_nat off) src slab) else None.
Definition slab_read (off n : N) (slab : list f32) : option (list f32) :=
  if off + n <=? N.of_nat (length slab) then Some (slice (N.to_nat off) (N.to_nat n) slab) else None.

Definition block_off (id : BlockId) (in_block : N) (p : BlockPool) : N :=
  index id * block_floats p + in_block * kv_dim p.

Definition write_token (id : BlockId) (in_block : N) (k v : list f32) (p : BlockPool) : option BlockPool :=
  if negb (N.of_nat (length k) =? kv_dim p) then None else
  if negb (N.of_nat (length v) =? kv_dim p) then None else
  if negb (in_block <? POOL_BLOCK_TOKENS) then None else
  let off := block_off id in_block p in
  if is_overflow id then
    ks ← slab_write off k (overflow_keys p);
    vs ← slab_write off v (overflow_values p);
    Some (with_overflow ks vs (overflow_free p) (overflow_capacity p) p)
  else
    ks ← slab_write off k (keys p);
    vs ← slab_write off v (values p);
    Some (with_slabs ks vs p).

Definition read_key (id : BlockId) (in_block : N) (p : BlockPool) : option (list f32) :=
  if negb (in_block <? POOL_BLOCK_TOKENS) then None else
  slab_read (block_off id in_block p) (kv_dim p) (if is_overflow id then overflow_keys p else keys p).
Definition read_value (id : BlockId) (in_block : N) (p : BlockPool) : option (list f32) :=
  if negb (in_block <? POOL_BLOCK_TOKENS) then None else
  slab_read (block_off id in_block p) (kv_dim p) (if is_overflow id then overflow_values p else values p).

(** [read_key_into] and [read_value_into]: the destination's length is asserted. *)
Definition read_key_into (id : BlockId) (in_block : N) (dst : list f32) (p : BlockPool) : option (list f32) :=
  if negb (N.of_nat (length dst) =? kv_dim p) then None else read_key id in_block p.
Definition read_value_into (id : BlockId) (in_block : N) (dst : list f32) (p : BlockPool) : option (list f32) :=
  if negb (N.of_nat (length dst) =? kv_dim p) then None else read_value id in_block p.

Definition shrink_overflow_to_fit (p : BlockPool) : N * BlockPool :=
  if N.of_nat (length (overflow_free p)) <? overflow_capacity p then (0, p) else
  let reclaimed := overflow_capacity p in
  if reclaimed =? 0 then (0, p) else
  (reclaimed, with_overflow [] [] [] 0 p).

(** ** The per-request manager *)

Record BlockManager := { block_table : list BlockId; seq_len : N }.
Inductive BlockAllocError := Exhausted.

Definition manager_new : BlockManager := {| block_table := []; seq_len := 0 |}.

Definition append (k v : list f32) (m : BlockManager) (p : BlockPool)
  : option (result BlockAllocError unit * BlockManager * BlockPool) :=
  let pos := seq_len m in
  let block_idx := pos / POOL_BLOCK_TOKENS in
  let in_block := pos mod POOL_BLOCK_TOKENS in
  '(r, table, p) ← (if in_block =? 0 then
      '(o, p) ← allocate p;
      match o with
      | Some id => Some (Ok tt, block_table m ++ [id], p)
      | None => Some (Err Exhausted, block_table m, p)
      end
    else Some (Ok tt, block_table m, p));
  match r with
  | Err e => Some (Err e, m, p)
  | Ok _ =>
      id ← table !! N.to_nat block_idx;
      p ← write_token id in_block k v p;
      Some (Ok tt, {| block_table := table; seq_len := seq_len m + 1 |}, p)
  end.

Definition num_blocks (m : BlockManager) : N := N.of_nat (length (block_table m)).

Definition physical_addr (i : N) (m : BlockManager) : option (BlockId * N) :=
  if negb (i <? seq_len m) then None else
  id ← block_table m !! N.to_nat (i / POOL_BLOCK_TOKENS);
  Some (id, i mod POOL_BLOCK_TOKENS).

Definition key (i : N) (m : BlockManager) (p : BlockPool) : option (list f32) :=
  '(id, in_block) ← physical_addr i m; read_key id in_block p.
Definition value (i : N) (m : BlockManager) (p : BlockPool) : option (list f32) :=
  '(id, in_block) ← physical_addr i m; read_value id in_block p.

(** [release_all], and [Drop]. *)
Definition release_all (m : BlockManager) (p : BlockPool) : BlockManager * BlockPool :=
  (manager_new, foldl (fun p id => release id p) p (block_table m)).

(** ** Ids and offsets *)

Lemma testbit_overflow i : N.testbit OVERFLOW_BIT i = (i =? 31).
Proof. unfold OVERFLOW_BIT. rewrite N.shiftl_1_l, N.pow2_bits_eqb. apply N.eqb_sym. Qed.

Lemma testbit_small x i : x < OVERFLOW_BIT -> 31 <= i -> N.testbit x i = false.
Proof.
  intros Hx Hi. destruct (N.eq_dec x 0) as [->|]; [apply N.bits_0|].
  apply N.bits_above_log2. apply N.log2_lt_pow2; [lia|]. eapply N.lt_le_trans; [exact Hx|].
  change OVERFLOW_BIT with (2 ^ 31). apply N.pow_le_mono_r; lia.
Qed.

Lemma primary_id x : x < OVERFLOW_BIT -> is_overflow x = false /\ index x = x.
Proof.
  intros Hx. unfold is_overflow, index. split.
  - assert (N.land x OVERFLOW_BIT = 0) as ->; [|done]. apply N.bits_inj. intros i.
    rewrite N.land_spec, N.bits_0, testbit_overflow. destruct (N.eqb_spec i 31) as [->|]; [|by rewrite andb_false_r].
    by rewrite testbit_small.
  - apply N.bits_inj. intros i. rewrite N.ldiff_spec, testbit_overflow.
    destruct (N.eqb_spec i 31) as [->|]; [by rewrite testbit_small|]. apply andb_true_r.
Qed.

Lemma overflow_id x : x < OVERFLOW_BIT ->
  is_overflow (N.lor x OVERFLOW_BIT) = true /\ index (N.lor x OVERFLOW_BIT) = x.
Proof.
  intros Hx. unfold is_overflow, index. split.
  - apply negb_true_iff, N.eqb_neq. intros H. apply (f_equal (fun y => N.testbit y 31)) in H.
    rewrite N.land_spec, N.lor_spec, testbit_overflow, N.bits_0, orb_true_r in H. discriminate H.
  - apply N.bits_inj. intros i. rewrite N.ldiff_spec, N.lor_spec, testbit_overflow.
    destruct (N.eqb_spec i 31) as [->|]; [by rewrite testbit_small, andb_false_r|].
    by rewrite orb_false_r, andb_true_r.
Qed.

(** Two token slots of a slab do not overlap. *)
Lemma slots_disjoint kv i j i' j' :
  j < 16 -> j' < 16 -> (i, j) <> (i', j') ->
  i * (16 * kv) + j * kv + kv <= i' * (16 * kv) + j' * kv \/
  i' * (16 * kv) + j' * kv + kv <= i * (16 * kv) + j * kv.
Proof.
  intros Hj Hj' Hne. assert (i * 16 + j <> i' * 16 + j') by (intros ?; apply Hne; f_equal; lia).
  replace (i * (16 * kv) + j * kv + kv) with ((i * 16 + j + 1) * kv) by lia.
  replace (i' * (16 * kv) + j' * kv + kv) with ((i' * 16 + j' + 1) * kv) by lia.
  replace (i * (16 * kv) + j * kv) with ((i * 16 + j) * kv) by lia.
  replace (i' * (16 * kv) + j' * kv) with ((i' * 16 + j') * kv) by lia.
  destruct (N.lt_ge_cases (i * 16 + j) (i' * 16 + j')); [left|right]; apply N.mul_le_mono_r; lia.
Qed.

Lemma slot_in_slab kv i j n : i < n -> j < 16 -> i * (16 * kv) + j * kv + kv <= 16 * kv * n.
Proof.
  intros. replace (i * (16 * kv) + j * kv + kv) with ((i * 16 + j + 1) * kv) by lia.
  replace (16 * kv * n) with ((n * 16) * kv) by lia. apply N.mul_le_mono_r. lia.
Qed.

(** ** Slab accesses *)

Lemma slab_write_some off src slab :
  off + N.of_nat (length src) <= N.of_nat (length slab) ->
  slab_write off src slab = Some (splice (N.to_nat off) src slab).
Proof. intros. unfold slab_write. destruct (Nat.leb_spec (N.to_nat off + length src) (length slab)); [done|lia]. Qed.

Lemma slab_read_same off n src slab :
  N.of_nat (length src) = n -> off + n <= N.of_nat (length slab) ->
  slab_read off n (splice (N.to_nat off) src slab) = Some src.
Proof.
  intros <- ?. unfold slab_read. rewrite length_splice by lia. case_N; [|lia].
  by rewrite Nat2N.id, slice_splice_same by lia.
Qed.

Lemma slab_read_other off off' n src slab :
  off + N.of_nat (length src) <= N.of_nat (length slab) ->
  off' + n <= off \/ off + N.of_nat (length src) <= off' ->
  slab_read off' n (splice (N.to_nat off) src slab) = slab_read off' n slab.
Proof. intros. unfold slab_read. rewrite length_splice by lia. by rewrite slice_splice_other by lia. Qed.

Lemma slab_read_grow off n slab zs :
  off + n <= N.of_nat (length slab) -> slab_read off n (slab ++ zs) = slab_read off n slab.
Proof.
  intros. unfold slab_read. rewrite length_app. case_N; try lia. by rewrite slice_app_keep by lia.
Qed.

(** ** The pool's books *)

Definition free_ids (p : BlockPool) : list BlockId :=
  free p ++ ((fun x => N.lor x OVERFLOW_BIT) <$> overflow_free p).
Definition minted (p : BlockPool) : list BlockId :=
  rangeN (capacity p) ++ ((fun x => N.lor x OVERFLOW_BIT) <$> rangeN (overflow_capacity p)).

(** [ids] are lent; every id ever minted is lent or free, exactly once. *)
Record pool_ok (p : BlockPool) (ids : list BlockId) : Prop := {
  po_floats : block_floats p = 16 * kv_dim p;
  po_capacity : 0 < capacity p < OVERFLOW_BIT /\ overflow_capacity p <= OVERFLOW_BIT;
  po_slabs : N.of_nat (length (keys p)) = block_floats p * capacity p /\
             N.of_nat (length (values p)) = block_floats p * capacity p;
  po_overflow : N.of_nat (length (overflow_keys p)) = block_floats p * overflow_capacity p /\
                N.of_nat (length (overflow_values p)) = block_floats p * overflow_capacity p;
  po_ids : ids ++ free_ids p ≡ₚ minted p;
  po_free : Forall (fun x => is_overflow x = false) (free p) /\
            Forall (fun x => x < OVERFLOW_BIT) (overflow_free p);
  po_max : forall n, max_overflow_capacity (thresholds p) = Some n -> overflow_capacity p <= n;
}.

#[export] Instance pool_ok_proper p : Proper ((≡ₚ) ==> iff) (pool_ok p).
Proof. intros l k Hlk. split; intros [??????]; split; auto; [by rewrite <-Hlk|by rewrite Hlk]. Qed.

Lemma elem_of_minted p id :
  overflow_capacity p <= OVERFLOW_BIT -> capacity p < OVERFLOW_BIT -> id ∈ minted p ->
  (is_overflow id = false /\ index id = id /\ id < capacity p) \/
  (is_overflow id = true /\ id = N.lor (index id) OVERFLOW_BIT /\ index id < overflow_capacity p).
Proof.
  intros Ho Hc [Hin|Hin]%elem_of_app.
  - apply elem_of_rangeN in Hin. left. destruct (primary_id id) as [??]; [lia|]. done.
  - apply list_elem_of_fmap in Hin as (x & -> & Hin). apply elem_of_rangeN in Hin. right.
    destruct (overflow_id x) as [? Hx]; [lia|]. by rewrite Hx.
Qed.

Lemma minted_NoDup p :
  overflow_capacity p <= OVERFLOW_BIT -> capacity p < OVERFLOW_BIT -> NoDup (minted p).
Proof.
  intros Ho Hc. apply NoDup_app. split_and!.
  - apply NoDup_rangeN.
  - intros x Hx Hy. apply elem_of_rangeN in Hx.
    apply list_elem_of_fmap in Hy as (y & -> & Hy). apply elem_of_rangeN in Hy.
    destruct (overflow_id y) as [H1 _]; [lia|]. destruct (primary_id (N.lor y OVERFLOW_BIT)) as [H2 _]; [lia|].
    congruence.
  - eapply NoDup_fmap_2_strong; [|apply NoDup_rangeN]. intros x y Hx Hy Hxy.
    apply elem_of_rangeN in Hx, Hy. destruct (overflow_id x) as [_ <-]; [lia|].
    rewrite Hxy. apply overflow_id. lia.
Qed.

Section pool_ok.
Context (p : BlockPool) (ids : list BlockId) (Hok : pool_ok p ids).

Lemma minted_facts : NoDup (ids ++ free_ids p).
Proof. rewrite (po_ids _ _ Hok). apply minted_NoDup; apply Hok. Qed.

Lemma lent_id id : id ∈ ids ->
  (is_overflow id = false /\ index id = id /\ id < capacity p) \/
  (is_overflow id = true /\ id = N.lor (index id) OVERFLOW_BIT /\ index id < overflow_capacity p).
Proof.
  intros Hin. apply elem_of_minted; [apply Hok..|].
  rewrite <-(po_ids _ _ Hok). apply elem_of_app. by left.
Qed.

Lemma lent_inj id id' : id ∈ ids -> id' ∈ ids ->
  is_overflow id = is_overflow id' -> index id = index id' -> id = id'.
Proof.
  intros [(?&?&?)|(?&Hi&?)]%lent_id [(?&?&?)|(?&Hi'&?)]%lent_id Ho Hx; congruence.
Qed.

(** A lent slot lies inside its slab. *)
Lemma lent_slot id j (ks oks : list f32) :
  id ∈ ids -> j < 16 ->
  N.of_nat (length ks) = block_floats p * capacity p ->
  N.of_nat (length oks) = block_floats p * overflow_capacity p ->
  block_off id j p + kv_dim p <= N.of_nat (length (if is_overflow id then oks else ks)).
Proof.
  intros Hin Hj Hk Ho. unfold block_off. rewrite (po_floats _ _ Hok) in *.
  destruct (lent_id id Hin) as [(->&->&?)|(->&_&?)]; [rewrite Hk|rewrite Ho]; by apply slot_in_slab.
Qed.

Lemma lent_disjoint id j id' j' : id ∈ ids -> id' ∈ ids -> is_overflow id = is_overflow id' ->
  j < 16 -> j' < 16 -> (id, j) <> (id', j') ->
  block_off id' j' p + kv_dim p <= block_off id j p \/ block_off id j p + kv_dim p <= block_off id' j' p.
Proof.
  intros Hin Hin' Ho Hj Hj' Hne. unfold block_off. rewrite (po_floats _ _ Hok).
  apply slots_disjoint; [done..|]. intros [= Hi ->]. apply Hne. f_equal. by apply lent_inj.
Qed.
End pool_ok.

(** [p'] reads like [p] in the blocks [ids]. *)
Definition keeps (p p' : BlockPool) (ids : list BlockId) : Prop :=
  kv_dim p' = kv_dim p /\ block_floats p' = block_floats p /\
  forall id j, id ∈ ids -> j < 16 ->
    read_key id j p' = read_key id j p /\ read_value id j p' = read_value id j p.

Lemma keeps_refl p ids : keeps p p ids.
Proof. done. Qed.
Lemma keeps_trans p1 p2 p3 ids : keeps p1 p2 ids -> keeps p2 p3 ids -> keeps p1 p3 ids.
Proof.
  intros (Hk1 & Hb1 & H1) (Hk2 & Hb2 & H2). split_and!; [congruence..|]. intros id j Hi Hj.
  destruct (H1 id j Hi Hj), (H2 id j Hi Hj). split; congruence.
Qed.
Lemma keeps_subseteq p p' ids ids' : ids' ⊆ ids -> keeps p p' ids -> keeps p p' ids'.
Proof. intros Hs (? & ? & H). split_and!; auto. Qed.
#[export] Hint Resolve keeps_refl : mer.

Lemma is_overflow_lor x : is_overflow (N.lor x OVERFLOW_BIT) = true.
Proof.
  unfold is_overflow. apply negb_true_iff, N.eqb_neq. intros H.
  apply (f_equal (fun y => N.testbit y 31)) in H.
  rewrite N.land_spec, N.lor_spec, testbit_overflow, N.bits_0, orb_true_r in H. discriminate H.
Qed.

Definition count_overflow (ids : list BlockId) : N := N.of_nat (length (List.filter is_overflow ids)).

#[export] Instance count_overflow_proper : Proper ((≡ₚ) ==> eq) count_overflow.
Proof. intros l k Hlk. unfold count_overflow. by rewrite (filter_perm _ _ _ Hlk). Qed.

Lemma count_overflow_app l k : count_overflow (l ++ k) = count_overflow l + count_overflow k.
Proof. unfold count_overflow. rewrite List.filter_app, length_app. lia. Qed.

Lemma count_overflow_lor l : count_overflow ((fun x => N.lor x OVERFLOW_BIT) <$> l) = N.of_nat (length l).
Proof.
  unfold count_overflow. rewrite filter_id, length_fmap; [done|].
  apply Forall_fmap, Forall_true. intros x. apply is_overflow_lor.
Qed.

Lemma count_overflow_none l : Forall (fun x => is_overflow x = false) l -> count_overflow l = 0.
Proof. unfold count_overflow. induction 1 as [|x l Hx _ IH]; simpl; [done|]. by rewrite Hx. Qed.

(** What the overflow counter reads. *)
Lemma overflow_in_use_lent p ids :
  pool_ok p ids -> overflow_capacity p = count_overflow ids + N.of_nat (length (overflow_free p)).
Proof.
  intros [_ [Hc _] _ _ Hids [Hf _] _]. apply count_overflow_proper in Hids.
  unfold free_ids, minted in Hids. rewrite !count_overflow_app, !count_overflow_lor, length_rangeN in Hids.
  rewrite (count_overflow_none (free p)), (count_overflow_none (rangeN _)) in Hids; [lia| |done].
  apply Forall_forall. intros x Hx. apply elem_of_rangeN in Hx. apply primary_id. lia.
Qed.

Lemma allocate_ok p ids :
  pool_ok p ids -> overflow_capacity p < OVERFLOW_BIT ->
  exists o p', allocate p = Some (o, p') /\ overflow_capacity p' <= overflow_capacity p + 1 /\
    match o with
    | Some id => pool_ok p' (id :: ids) /\ keeps p p' ids
    | None => p' = p /\ free_ids p = [] /\ overflow_capped p = true
    end.
Proof.
  intros Hok Hcap. pose proof Hok as [Hbf [Hc Ho] [Hk Hv] [Hok1 Hov1] Hids [Hf Hof] Hmax].
  unfold allocate, free_ids, minted in *. destruct (free p) as [|x fr] eqn:Ef.
  2: { do 2 eexists. split; [reflexivity|]. simpl. split; [lia|]. split; [|done].
       split; auto; unfold free_ids, minted; simpl; [|by inversion Hf].
       rewrite <-Hids. solve_Permutation. }
  destruct (overflow_free p) as [|x fr] eqn:Eof.
  2: { do 2 eexists. split; [reflexivity|]. simpl. split; [lia|]. split; [|done].
       split; auto; unfold free_ids, minted; simpl; [|split; [by rewrite Ef|by inversion Hof]].
       rewrite Ef, <-Hids. simpl. solve_Permutation. }
  destruct (overflow_capped p) eqn:Ecap.
  { do 2 eexists. split; [reflexivity|]. split; [lia|done]. }
  assert (overflow_capacity p mod (u32_max + 1) = overflow_capacity p) as ->.
  { apply N.mod_small. change OVERFLOW_BIT with 2147483648 in Hcap. unfold u32_max. lia. }
  destruct (primary_id (overflow_capacity p) Hcap) as [Hno _]. unfold is_overflow in Hno.
  rewrite Hno. do 2 eexists. split; [reflexivity|]. split; [simpl; lia|].
  split.
  - split; simpl; auto.
    + split; [done|]. lia.
    + rewrite !length_app, !length_replicate. split; lia.
    + unfold free_ids, minted. simpl in *. rewrite Ef, rangeN_succ, fmap_app, (app_assoc (rangeN _)), <-Hids.
      csimpl. solve_Permutation.
    + rewrite Ef. by split.
    + unfold overflow_capped in Ecap. intros n Hn. rewrite Hn in Ecap. apply N.leb_gt in Ecap. lia.
  - split; [done|]. split; [done|]. intros id j Hin Hj.
    pose proof (lent_slot p ids Hok id j (keys p) (overflow_keys p) Hin Hj Hk Hok1) as H1.
    pose proof (lent_slot p ids Hok id j (values p) (overflow_values p) Hin Hj Hv Hov1) as H2.
    unfold read_key, read_value, block_off in *. simpl. destruct (is_overflow id); [|done].
    by rewrite !slab_read_grow by done.
Qed.

Lemma release_ok id p ids :
  pool_ok p (id :: ids) ->
  release_in_range id p = true /\ pool_ok (release id p) ids /\ keeps p (release id p) ids /\
  overflow_capacity (release id p) = overflow_capacity p.
Proof.
  intros Hok. pose proof (lent_id _ _ Hok id ltac:(left)) as Hid.
  destruct Hok as [Hbf Hc Hs Ho Hids [Hf Hof] Hmax]. unfold release_in_range, release.
  destruct Hid as [(Hov & Hi & Hlt)|(Hov & Hi & Hlt)]; rewrite Hov; (split; [by apply N.ltb_lt|]);
    (split; [|by repeat split]); split; auto; unfold free_ids, minted in *; simpl.
  - rewrite <-Hids. simpl. solve_Permutation.
  - split; [by constructor|done].
  - rewrite <-Hids. rewrite <-Hi. simpl. solve_Permutation.
  - split; [done|]. constructor; [lia|done].
Qed.

Lemma release_table l p ids :
  pool_ok p (l ++ ids) ->
  let p' := foldl (fun p id => release id p) p l in
  pool_ok p' ids /\ keeps p p' ids /\ overflow_capacity p' = overflow_capacity p.
Proof.
  revert p. induction l as [|id l IH]; intros p Hok; simpl in *; [auto with mer|].
  destruct (release_ok id p (l ++ ids) Hok) as (_ & Hok' & Hk & Hc).
  destruct (IH _ Hok') as (? & Hk' & Hc'). split_and!; [done| |congruence].
  eapply keeps_trans; [|exact Hk']. eapply keeps_subseteq; [|exact Hk]. set_solver.
Qed.

Lemma shrink_ok p ids :
  pool_ok p ids ->
  let p' := snd (shrink_overflow_to_fit p) in
  pool_ok p' ids /\ keeps p p' ids /\ overflow_capacity p' <= overflow_capacity p.
Proof.
  intros Hok. pose proof (overflow_in_use_lent _ _ Hok) as Hcount. unfold shrink_overflow_to_fit.
  destruct (N.ltb_spec (N.of_nat (length (overflow_free p))) (overflow_capacity p)) as [|Hall]; simpl; [auto with mer|].
  destruct (N.eqb_spec (overflow_capacity p) 0) as [|Hpos]; simpl; [auto with mer|].
  assert (Hnil : List.filter is_overflow ids = []).
  { apply nil_length_inv. unfold count_overflow in Hcount. lia. }
  assert (Hprim : forall id, id ∈ ids -> is_overflow id = false).
  { intros id Hin. destruct (is_overflow id) eqn:E; [|done]. exfalso.
    apply list_elem_of_In in Hin. assert (HF : In id (List.filter is_overflow ids)) by by apply List.filter_In.
    by rewrite Hnil in HF. }
  destruct Hok as [Hbf Hc Hs Ho Hids [Hf Hof] Hmax]. split; [|split; [|lia]].
  - split; simpl; auto.
    { split; [lia|apply N.le_0_l]. } { lia. } 2: { intros. apply N.le_0_l. }
    unfold free_ids, minted in *. simpl. rewrite !app_nil_r.
    apply (filter_perm (fun x => negb (is_overflow x))) in Hids.
    assert (Hlor : forall l, List.filter (fun x => negb (is_overflow x)) ((fun x => N.lor x OVERFLOW_BIT) <$> l) = []).
    { induction l as [|x l IH]; [done|]. csimpl. by rewrite is_overflow_lor. }
    rewrite !List.filter_app, !Hlor, !app_nil_r, !filter_id in Hids; [done| | |].
    + apply Forall_forall. intros x Hx. apply elem_of_rangeN in Hx. apply negb_true_iff, primary_id. lia.
    + eapply Forall_impl; [exact Hf|]. simpl. by intros x ->.
    + apply Forall_forall. intros x Hx. by rewrite Hprim.
  - split_and!; [done..|]. intros id j Hin Hj. unfold read_key, read_value, block_off. simpl.
    by rewrite (Hprim id Hin).
Qed.

(** A write to a lent slot: read back there, invisible everywhere else. *)
Lemma write_token_ok p ids id j k v :
  pool_ok p ids -> id ∈ ids -> j < 16 ->
  N.of_nat (length k) = kv_dim p -> N.of_nat (length v) = kv_dim p ->
  exists p', write_token id j k v p = Some p' /\ pool_ok p' ids /\
    kv_dim p' = kv_dim p /\ block_floats p' = block_floats p /\
    overflow_capacity p' = overflow_capacity p /\
    read_key id j p' = Some k /\ read_value id j p' = Some v /\
    forall id' j', id' ∈ ids -> j' < 16 -> (id, j) <> (id', j') ->
      read_key id' j' p' = read_key id' j' p /\ read_value id' j' p' = read_value id' j' p.
Proof.
  intros Hok Hin Hj Hk Hv. pose proof Hok as [Hbf Hc [Hs1 Hs2] [Ho1 Ho2] Hids Hf Hmax].
  pose proof (lent_slot p ids Hok id j _ _ Hin Hj Hs1 Ho1) as Hb1.
  pose proof (lent_slot p ids Hok id j _ _ Hin Hj Hs2 Ho2) as Hb2.
  unfold write_token, POOL_BLOCK_TOKENS. rewrite Hk, Hv, N.eqb_refl. simpl.
  destruct (N.ltb_spec j 16) as [_|]; [|lia]. simpl.
  assert (Hread : forall id' j' src slab, id' ∈ ids -> j' < 16 -> (id, j) <> (id', j') ->
    is_overflow id = is_overflow id' -> N.of_nat (length src) = kv_dim p ->
    block_off id j p + kv_dim p <= N.of_nat (length slab) ->
    slab_read (block_off id' j' p) (kv_dim p) (splice (N.to_nat (block_off id j p)) src slab)
    = slab_read (block_off id' j' p) (kv_dim p) slab).
  { intros id' j' src slab Hin' Hj' Hne Hov Hsrc Hb. apply slab_read_other; rewrite Hsrc; [done|].
    by apply (lent_disjoint p ids). }
  destruct (is_overflow id) eqn:Eov; rewrite (slab_write_some _ k), (slab_write_some _ v) by lia; simpl;
    (eexists; split; [reflexivity|]).
  all: split; [split; simpl; rewrite ?length_splice by lia; auto|].
  all: do 3 (split; [done|]); unfold read_key, read_value, POOL_BLOCK_TOKENS, block_off in *; simpl.
  all: rewrite Eov; (destruct (N.ltb_spec j 16); [|lia]); simpl.
  all: split; [apply slab_read_same; lia|].
  all: split; [apply slab_read_same; lia|].
  all: intros id' j' Hin' Hj' Hne; (destruct (N.ltb_spec j' 16); [|lia]); simpl;
    destruct (is_overflow id') eqn:Eov'; try done; split; apply Hread; auto; congruence.
Qed.

(** ** A manager implements the list of its tokens *)

(** Token [i] of a block table holds the pair [tk]. *)
Definition stored (table : list BlockId) (i : N) (tk : list f32 * list f32) (p : BlockPool) : Prop :=
  exists id, table !! N.to_nat (i / 16) = Some id /\
    read_key id (i mod 16) p = Some (fst tk) /\ read_value id (i mod 16) p = Some (snd tk).

(** [m] holds the tokens [toks], the pair [(k, v)] of each. *)
Definition holds (m : BlockManager) (toks : list (list f32 * list f32)) (p : BlockPool) : Prop :=
  seq_len m = N.of_nat (length toks) /\
  num_blocks m = (seq_len m + 15) / 16 /\
  forall i tk, toks !! i = Some tk -> stored (block_table m) (N.of_nat i) tk p.

Lemma holds_new p : holds manager_new [] p.
Proof. split_and!; done. Qed.

Lemma holds_read m toks p i tk :
  holds m toks p -> toks !! i = Some tk ->
  key (N.of_nat i) m p = Some (fst tk) /\ value (N.of_nat i) m p = Some (snd tk).
Proof.
  intros (Hlen & _ & Ht) Hi. destruct (Ht i tk Hi) as (id & Hid & Hk & Hv).
  apply lookup_lt_Some in Hi. unfold key, value, physical_addr, POOL_BLOCK_TOKENS.
  case_N; [|lia]. simpl. rewrite Hid. done.
Qed.

Lemma read_past_end m toks p i :
  holds m toks p -> N.of_nat (length toks) <= i -> key i m p = None /\ value i m p = None.
Proof.
  intros (Hlen & _) Hi. unfold key, value, physical_addr. case_N; [lia|done].
Qed.

Lemma mod16 i : i mod 16 < 16.
Proof. by apply N.mod_lt. Qed.
#[export] Hint Resolve mod16 : mer.

Lemma stored_keeps table table' i tk p p' ids :
  table `prefix_of` table' -> table ⊆ ids -> keeps p p' ids -> stored table i tk p -> stored table' i tk p'.
Proof.
  intros [l ->] Hsub (_ & _ & Hk) (id & Hid & H1 & H2). exists id.
  assert (Hin : id ∈ ids) by (apply Hsub; by eapply list_elem_of_lookup_2).
  destruct (Hk id (i mod 16) Hin (mod16 i)) as [-> ->]. split; [by apply lookup_app_l_Some|done].
Qed.

Lemma holds_keeps m toks p p' ids :
  block_table m ⊆ ids -> keeps p p' ids -> holds m toks p -> holds m toks p'.
Proof. intros Hsub Hk (? & ? & ?). split_and!; eauto using stored_keeps. Qed.

Ltac div_lia := zify; Z.to_euclidean_division_equations; lia.

(** The write that ends [append], once the table has its block. *)
Lemma append_write p table rest toks k v :
  pool_ok p (table ++ rest) -> N.of_nat (length table) = N.of_nat (length toks) / 16 + 1 ->
  (forall i tk, toks !! i = Some tk -> stored table (N.of_nat i) tk p) ->
  N.of_nat (length k) = kv_dim p -> N.of_nat (length v) = kv_dim p ->
  let pos := N.of_nat (length toks) in
  let m' := {| block_table := table; seq_len := pos + 1 |} in
  exists id p', table !! N.to_nat (pos / 16) = Some id /\ write_token id (pos mod 16) k v p = Some p' /\
    holds m' (toks ++ [(k, v)]) p' /\ pool_ok p' (table ++ rest) /\ keeps p p' rest /\
    overflow_capacity p' = overflow_capacity p.
Proof.
  intros Hok Hlen Ht Hk Hv. simpl. set (pos := N.of_nat (length toks)) in *.
  destruct (lookup_lt_is_Some_2 table (N.to_nat (pos / 16))) as [id Hid]; [lia|].
  assert (Hin : id ∈ table) by by eapply list_elem_of_lookup_2.
  destruct (write_token_ok p (table ++ rest) id (pos mod 16) k v) as
    (p' & Hw & Hok' & Hkv & Hbf & Hoc & Hrk & Hrv & Hother); auto with mer; [set_solver|].
  exists id, p'. do 2 (split; [done|]). split; [|split; [done|split; [|done]]].
  - split; [simpl; rewrite length_app; simpl; lia|]. split; [unfold num_blocks; simpl; div_lia|].
    intros i tk [Hi|[Hi Htk]]%lookup_app_Some.
    + destruct (Ht i tk Hi) as (id' & Hid' & H1 & H2). exists id'. split; [done|].
      destruct (Hother id' (N.of_nat i mod 16)) as [-> ->]; auto with mer.
      { apply elem_of_app. left. by eapply list_elem_of_lookup_2. }
      apply lookup_lt_Some in Hi. intros [= -> Hmod].
      pose proof (minted_facts _ _ Hok) as Hnd. rewrite <-app_assoc in Hnd. apply NoDup_app in Hnd as [Hnd _].
      pose proof (NoDup_lookup _ _ _ _ Hnd Hid Hid') as Hdiv. div_lia.
    + apply list_lookup_singleton_Some in Htk as [Hz <-]. exists id.
      replace (N.of_nat i) with pos by lia. done.
  - split; [done|]. split; [done|]. intros id' j Hin' Hj. apply Hother; [set_solver|done|].
    intros [= -> _]. pose proof (minted_facts _ _ Hok) as Hnd. rewrite <-app_assoc in Hnd.
    apply NoDup_app in Hnd as (_ & Hd & _). apply (Hd id' Hin). set_solver.
Qed.

Lemma append_ok k v m toks p rest :
  pool_ok p (block_table m ++ rest) -> holds m toks p -> overflow_capacity p < OVERFLOW_BIT ->
  N.of_nat (length k) = kv_dim p -> N.of_nat (length v) = kv_dim p ->
  exists r m' p', append k v m p = Some (r, m', p') /\
    overflow_capacity p' <= overflow_capacity p + 1 /\
    match r with
    | Ok _ => holds m' (toks ++ [(k, v)]) p' /\ pool_ok p' (block_table m' ++ rest) /\ keeps p p' rest
    | Err _ => m' = m /\ p' = p /\ free_ids p = [] /\ overflow_capped p = true
    end.
Proof.
  intros Hok (Hlen & Hnb & Ht) Hoc Hk Hv. unfold append, POOL_BLOCK_TOKENS, num_blocks in *. rewrite Hlen in *.
  destruct (N.eqb_spec (N.of_nat (length toks) mod 16) 0) as [E|E].
  - destruct (allocate_ok _ _ Hok Hoc) as ([id|] & p1 & -> & Hoc1 & Hp1); simpl.
    2: { destruct Hp1 as (-> & ? & ?). by do 3 eexists. }
    destruct Hp1 as [Hok1 Hk1]. pose proof Hk1 as (Hkv & _).
    assert (Hok2 : pool_ok p1 ((block_table m ++ [id]) ++ rest)).
    { eapply pool_ok_proper; [|exact Hok1]. solve_Permutation. }
    destruct (append_write p1 (block_table m ++ [id]) rest toks k v Hok2) as
      (id' & p2 & -> & Hw & Hh & Hok3 & Hk3 & Hoc2); try congruence.
    { rewrite length_app. simpl. div_lia. }
    { intros i tk Hi. eapply stored_keeps; [by eexists| |exact Hk1|by apply Ht]. set_solver. }
    cbn [mbind option_bind]. rewrite Hw. simpl. do 3 eexists. split; [reflexivity|]. split; [lia|].
    split_and!; [done..|]. eapply keeps_trans; [|exact Hk3]. eapply keeps_subseteq; [|exact Hk1]. set_solver.
  - cbn [mbind option_bind]. destruct (append_write p (block_table m) rest toks k v Hok) as
      (id' & p2 & -> & Hw & Hh & Hok3 & Hk3 & Hoc2); auto; [div_lia|].
    cbn [mbind option_bind]. rewrite Hw. simpl. do 3 eexists. split; [reflexivity|]. split; [lia|done].
Qed.

(** ** Requests sharing a pool *)

Record world := { pool : BlockPool; managers : gmap N BlockManager }.

Inductive op :=
| NewManager (m : N)                    (** [BlockManager::new(pool.clone())]; replaces (drops) [m] *)
| Append (m : N) (k v : list f32)
| ReleaseAll (m : N)
| DropManager (m : N)
| Shrink.

Definition drop_manager (m : N) (w : world) : world :=
  match managers w !! m with
  | Some mg => {| pool := snd (release_all mg (pool w)); managers := delete m (managers w) |}
  | None => w
  end.

(** One operation; [None] is a panic, the flag whether an append was refused. *)
Definition run_op (o : op) (w : world) : option (bool * world) :=
  match o with
  | NewManager m =>
      let w := drop_manager m w in
      Some (false, {| pool := pool w; managers := <[m := manager_new]> (managers w) |})
  | Append m k v =>
      match managers w !! m with
      | None => Some (false, w)
      | Some mg =>
          '(r, mg, p) ← append k v mg (pool w);
          Some (negb (is_ok r), {| pool := p; managers := <[m := mg]> (managers w) |})
      end
  | ReleaseAll m =>
      match managers w !! m with
      | None => Some (false, w)
      | Some mg => let '(mg, p) := release_all mg (pool w) in
                   Some (false, {| pool := p; managers := <[m := mg]> (managers w) |})
      end
  | DropManager m => Some (false, drop_manager m w)
  | Shrink => Some (false, {| pool := snd (shrink_overflow_to_fit (pool w)); managers := managers w |})
  end.

Fixpoint run (ops : list op) (w : world) : option (list bool * world) :=
  match ops with
  | [] => Some ([], w)
  | o :: ops' => '(b, w) ← run_op o w; '(bs, w) ← run ops' w; Some (b :: bs, w)
  end.

(** The specification: each request owns the list of the tokens it appended. *)
Abbreviation caches := (gmap N (list (list f32 * list f32))).

Definition spec_op (o : op) (refused : bool) (s : caches) : caches :=
  match o with
  | NewManager m => <[m := []]> s
  | Append m k v => if refused then s else alter (fun toks => toks ++ [(k, v)]) m s
  | ReleaseAll m => alter (fun _ => []) m s
  | DropManager m => delete m s
  | Shrink => s
  end.

Fixpoint spec_run (ops : list op) (refused : list bool) (s : caches) : caches :=
  match ops, refused with
  | o :: ops', b :: bs => spec_run ops' bs (spec_op o b s)
  | _, _ => s
  end.

(** The vectors appended have the cache's dimension. *)
Definition op_dim (kv : N) (o : op) : Prop :=
  match o with
  | Append _ k v => N.of_nat (length k) = kv /\ N.of_nat (length v) = kv
  | _ => True
  end.

(** Every block lent to some request. *)
Definition owned (ms : gmap N BlockManager) : list BlockId := map_to_list ms ≫= fun kv => block_table (snd kv).

Lemma owned_take ms n m : ms !! n = Some m -> owned ms ≡ₚ block_table m ++ owned (delete n ms).
Proof. intros H. unfold owned. by rewrite <-(map_to_list_delete ms n m H). Qed.

Lemma owned_insert ms n m : owned (<[n := m]> ms) ≡ₚ block_table m ++ owned (delete n ms).
Proof. rewrite (owned_take (<[n:=m]> ms) n m), delete_insert_eq by apply lookup_insert_eq. done. Qed.

Lemma owned_elem ms n m : ms !! n = Some m -> block_table m ⊆ owned ms.
Proof.
  intros H id Hid. apply list_elem_of_bind. exists (n, m). split; [done|]. by apply elem_of_map_to_list.
Qed.

(** The refinement relation. *)
Record world_ok (w : world) (s : caches) : Prop := {
  wo_pool : pool_ok (pool w) (owned (managers w));
  wo_dom : forall n, is_Some (managers w !! n) <-> is_Some (s !! n);
  wo_holds : forall n m toks, managers w !! n = Some m -> s !! n = Some toks -> holds m toks (pool w);
}.

(** Replacing one request's manager. *)
Lemma world_ok_update w s n m' toks' p' :
  world_ok w s -> pool_ok p' (block_table m' ++ owned (delete n (managers w))) ->
  keeps (pool w) p' (owned (delete n (managers w))) -> holds m' toks' p' ->
  world_ok {| pool := p'; managers := <[n := m']> (managers w) |} (<[n := toks']> s).
Proof.
  intros [Hp Hd Hh] Hp' Hk Hm. split; simpl.
  - by rewrite owned_insert.
  - intros n2. rewrite !lookup_insert_is_Some'. naive_solver.
  - intros n2 m2 toks2. destruct (decide (n = n2)) as [<-|Hne].
    + rewrite !lookup_insert_eq. by intros [= <-] [= <-].
    + rewrite !lookup_insert_ne by done. intros Hm2 Ht2. eapply holds_keeps; [|exact Hk|by eapply Hh].
      eapply owned_elem. by rewrite lookup_delete_ne.
Qed.

Lemma world_ok_drop w s n :
  world_ok w s -> world_ok (drop_manager n w) (delete n s) /\
  managers (drop_manager n w) = delete n (managers w) /\ kv_dim (pool (drop_manager n w)) = kv_dim (pool w) /\
  overflow_capacity (pool (drop_manager n w)) <= overflow_capacity (pool w).
Proof.
  intros [Hp Hd Hh]. unfold drop_manager. destruct (managers w !! n) as [m|] eqn:E.
  - rewrite (owned_take _ _ _ E) in Hp. destruct (release_table _ _ _ Hp) as (Hp' & Hk & Hc). simpl.
    split_and!; [|done|by destruct Hk|lia]. split; simpl; [done| |].
    + intros n2. rewrite !lookup_delete_is_Some. naive_solver.
    + intros n2 m2 toks2. rewrite !lookup_delete_Some. intros [Hne Hm2] [_ Ht2].
      eapply holds_keeps; [|exact Hk|by eapply Hh]. eapply owned_elem. by rewrite lookup_delete_ne.
  - assert (s !! n = None) by (apply eq_None_not_Some; intros ?%Hd; destruct (managers w !! n); naive_solver).
    rewrite !delete_id by done. done.
Qed.

Lemma pool_op_ok o w s :
  world_ok w s -> op_dim (kv_dim (pool w)) o -> overflow_capacity (pool w) < OVERFLOW_BIT ->
  exists b w', run_op o w = Some (b, w') /\ world_ok w' (spec_op o b s) /\
    kv_dim (pool w') = kv_dim (pool w) /\ overflow_capacity (pool w') <= overflow_capacity (pool w) + 1.
Proof.
  intros Hw Hdim Hoc. pose proof Hw as [Hp Hd Hh]. destruct o as [n|n k v|n|n|]; simpl.
  - destruct (world_ok_drop _ _ n Hw) as (Hw' & Hms & Hkv & Hc). do 2 eexists. split; [reflexivity|].
    split; [|simpl; split; [done|lia]]. rewrite <-(insert_delete_eq s).
    apply world_ok_update; [done| |apply keeps_refl|apply holds_new]. simpl. rewrite delete_id; [apply Hw'|].
    by rewrite Hms, lookup_delete_eq.
  - destruct (managers w !! n) as [m|] eqn:E.
    2: { do 2 eexists. split; [reflexivity|]. simpl. split; [|split; [done|lia]].
         rewrite alter_id; [done|]. intros toks Ht. assert (is_Some (managers w !! n)) as [? ?] by (apply Hd; eauto). congruence. }
    destruct (Hd n) as [[toks Ht] _]; [eauto|]. rewrite (owned_take _ _ _ E) in Hp. destruct Hdim as [Hk Hv].
    destruct (append_ok k v m toks (pool w) _ Hp (Hh _ _ _ E Ht) Hoc Hk Hv) as (r & m' & p' & -> & Hoc' & Hr).
    simpl. do 2 eexists. split; [reflexivity|]. simpl. destruct r as [[]|e]; simpl.
    + destruct Hr as (Hhold & Hp' & Hkeep). split; [|split; [by destruct Hkeep|done]].
      assert (alter (fun toks => toks ++ [(k, v)]) n s = <[n := toks ++ [(k, v)]]> s) as ->.
      { apply map_eq. intros i. destruct (decide (i = n)) as [->|].
        - by rewrite lookup_alter_eq, Ht, lookup_insert_eq.
        - by rewrite lookup_alter_ne, lookup_insert_ne by done. }
      by apply world_ok_update.
    + destruct Hr as (-> & -> & _). split; [|split; [done|lia]]. rewrite insert_id by done. by destruct w.
  - destruct (managers w !! n) as [m|] eqn:E.
    2: { do 2 eexists. split; [reflexivity|]. split; [|split; [done|lia]].
         rewrite alter_id; [done|]. intros toks Ht. assert (is_Some (managers w !! n)) as [? ?] by (apply Hd; eauto). congruence. }
    destruct (Hd n) as [[toks Ht] _]; [eauto|]. rewrite (owned_take _ _ _ E) in Hp.
    destruct (release_table _ _ _ Hp) as (Hp' & Hk & Hc). do 2 eexists. split; [reflexivity|]. simpl.
    split; [|split; [by destruct Hk|lia]].
    assert (alter (fun _ => []) n s = <[n := []]> s) as ->.
    { apply map_eq. intros i. destruct (decide (i = n)) as [->|].
      - by rewrite lookup_alter_eq, Ht, lookup_insert_eq.
      - by rewrite lookup_alter_ne, lookup_insert_ne by done. }
    apply world_ok_update; [done..|apply holds_new].
  - destruct (world_ok_drop _ _ n Hw) as (Hw' & _ & Hkv & Hc). do 2 eexists. split; [reflexivity|].
    split_and!; [done..|lia].
  - destruct (shrink_ok _ _ Hp) as (Hp' & Hk & Hc). do 2 eexists. split; [reflexivity|]. simpl.
    split; [|split; [by destruct Hk|lia]]. split; [done|done|]. simpl. intros n m toks Hm Ht.
    eapply holds_keeps; [by eapply owned_elem|exact Hk|by eapply Hh].
Qed.

Lemma pool_run_ok ops w s :
  world_ok w s -> Forall (op_dim (kv_dim (pool w))) ops ->
  overflow_capacity (pool w) + N.of_nat (length ops) <= OVERFLOW_BIT ->
  exists bs w', run ops w = Some (bs, w') /\ world_ok w' (spec_run ops bs s).
Proof.
  revert w s. induction ops as [|o ops IH]; intros w s Hw Hdim Hoc; [by exists [], w|].
  inversion Hdim as [|?? Ho Hops]; subst. simpl in Hoc.
  destruct (pool_op_ok o w s Hw Ho) as (b & w1 & H1 & Hw1 & Hkv & Hc); [lia|].
  destruct (IH w1 (spec_op o b s) Hw1) as (bs & w2 & H2 & Hw2); [by rewrite Hkv|lia|].
  exists (b :: bs), w2. split; [|done]. simpl. rewrite H1. simpl. by rewrite H2.
Qed.

Lemma fresh_pool_ok kv cap t p :
  POOL_BLOCK_TOKENS * kv <= usize_max -> cap <= u32_max -> with_thresholds kv cap t = Some p ->
  pool_ok p [] /\ kv_dim p = kv /\ capacity p = cap /\ overflow_capacity p = 0 /\ thresholds p = t.
Proof.
  intros Hkv Hcap. unfold with_thresholds. rewrite wrap_mul_small by done.
  destruct (N.ltb_spec 0 kv); [|done]. destruct (N.ltb_spec 0 cap); [|done]. simpl.
  destruct (checked_mul usize_max (POOL_BLOCK_TOKENS * kv) cap) as [total|] eqn:Et; [|done].
  apply checked_mul_Some in Et as [-> _]. cbn [mbind option_bind].
  rewrite (N.mod_small cap) by (unfold u32_max in *; lia).
  change (N.ldiff u32_max OVERFLOW_BIT) with 2147483647. destruct (N.leb_spec cap 2147483647); [|done].
  simpl. intros [= <-]. split_and!; [|done..]. split; simpl.
  - done.
  - change OVERFLOW_BIT with 2147483648. lia.
  - rewrite !length_replicate. lia.
  - lia.
  - unfold free_ids, minted. done.
  - split; [|done]. apply Forall_forall. intros x Hx. apply elem_of_rangeN in Hx. apply primary_id.
    change OVERFLOW_BIT with 2147483648. lia.
  - intros. lia.
Qed.

(** What no operation changes. *)
Definition config (p : BlockPool) : N * PressureThresholds := (capacity p, thresholds p).

Lemma write_token_config id j k v p p' : write_token id j k v p = Some p' -> config p' = config p.
Proof.
  unfold write_token. intros H. repeat case_match; try done; simplify_option_eq; done.
Qed.

Lemma allocate_config p o p' : allocate p = Some (o, p') -> config p' = config p.
Proof. unfold allocate. intros H. repeat case_match; simplify_eq; done. Qed.

Lemma append_config k v m p r m' p' : append k v m p = Some (r, m', p') -> config p' = config p.
Proof.
  unfold append. intros H. destruct (seq_len m mod POOL_BLOCK_TOKENS =? 0).
  - destruct (allocate p) as [[[id|] p1]|] eqn:E; simplify_option_eq; try (by eapply allocate_config).
    erewrite write_token_config by done. by eapply allocate_config.
  - simplify_option_eq. by eapply write_token_config.
Qed.

Lemma release_config l p : config (foldl (fun p id => release id p) p l) = config p.
Proof. revert p. induction l as [|id l IH]; intros p; simpl; [done|]. rewrite IH. unfold release. by case_match. Qed.

Lemma drop_manager_config n w : config (pool (drop_manager n w)) = config (pool w).
Proof. unfold drop_manager. case_match; [apply release_config|done]. Qed.

Lemma run_config ops w bs w' : run ops w = Some (bs, w') -> config (pool w') = config (pool w).
Proof.
  revert w bs. induction ops as [|o ops IH]; intros w bs H; simpl in H; [by simplify_eq|].
  destruct (run_op o w) as [[b w1]|] eqn:E; [|done]. simpl in H.
  destruct (run ops w1) as [[bs1 w2]|] eqn:E2; [|done]. simplify_eq/=. rewrite (IH _ _ E2).
  destruct o as [n|n k v|n|n|]; simpl in E.
  - simplify_eq/=. apply drop_manager_config.
  - destruct (managers w !! n); [|by simplify_eq]. destruct (append k v b0 (pool w)) as [[[r m'] p']|] eqn:Ea; [|done].
    simplify_eq/=. by eapply append_config.
  - destruct (managers w !! n); simplify_eq/=; [apply release_config|done].
  - simplify_eq. apply drop_manager_config.
  - simplify_eq/=. unfold shrink_overflow_to_fit. by repeat case_match.
Qed.

(** The operations of any number of requests, from a fresh pool. *)
Definition reaches (kv cap : N) (t : PressureThresholds) (ops : list op) (refused : list bool) (w : world) : Prop :=
  exists p, with_thresholds kv cap t = Some p /\ run ops {| pool := p; managers := ∅ |} = Some (refused, w).

(** What configurations and inputs are in scope: [usize] sizes, vectors of the
    cache's dimension, fewer than 2^31 operations. *)
Definition admissible (kv cap : N) (ops : list op) : Prop :=
  POOL_BLOCK_TOKENS * kv <= usize_max /\ cap <= u32_max /\ Forall (op_dim kv) ops /\
  N.of_nat (length ops) <= OVERFLOW_BIT.

Lemma fresh_world_ok p : pool_ok p [] -> world_ok {| pool := p; managers := ∅ |} ∅.
Proof.
  intros Hp. split; simpl.
  - unfold owned. by rewrite map_to_list_empty.
  - intros n. rewrite !lookup_empty. by split; intros [? ?].
  - intros n m toks. by rewrite lookup_empty.
Qed.

Lemma reaches_ok kv cap t p ops :
  admissible kv cap ops -> with_thresholds kv cap t = Some p ->
  exists refused w, run ops {| pool := p; managers := ∅ |} = Some (refused, w) /\
    world_ok w (spec_run ops refused ∅).
Proof.
  intros (Hkv & Hcap & Hdim & Hlen) Hp. destruct (fresh_pool_ok _ _ _ _ Hkv Hcap Hp) as (Hok & Hk & _ & Ho & _).
  apply pool_run_ok; [by apply fresh_world_ok|simpl; by rewrite Hk|simpl; by rewrite Ho].
Qed.

(** C9. The paged cache implements, for every request, the plain list of the
    tokens it appended.  From a fresh pool, no sequence of operations by any
    number of requests sharing it panics, whatever blocks they recycle, overflow
    into or give back; afterwards each live request reads, at every position,
    exactly the key and the value it appended there, and the read past its end
    is the caught out-of-range access. *)
Theorem paged_cache_refines_lists kv cap t p ops :
  admissible kv cap ops -> with_thresholds kv cap t = Some p ->
  exists refused w, run ops {| pool := p; managers := ∅ |} = Some (refused, w) /\
    length refused = length ops /\
    forall n, match managers w !! n, spec_run ops refused ∅ !! n with
              | Some m, Some toks =>
                  seq_len m = N.of_nat (length toks) /\
                  forall i, key (N.of_nat i) m (pool w) = fst <$> toks !! i /\
                            value (N.of_nat i) m (pool w) = snd <$> toks !! i
              | None, None => True
              | _, _ => False
              end.
Proof.
  intros Hadm Hp. destruct (reaches_ok kv cap t p ops Hadm Hp) as (bs & w & Hrun & [Hpool Hd Hh]).
  exists bs, w. split; [done|]. split.
  { clear -Hrun. revert Hrun. generalize {| pool := p; managers := ∅ |}. revert bs.
    induction ops as [|o ops IH]; intros bs w0 H; simpl in H; [by injection H as <- <-|].
    destruct (run_op o w0) as [[b w1]|]; [|done]. simpl in H.
    destruct (run ops w1) as [[bs' w2]|] eqn:E; [|done]. injection H as <- <-. simpl. f_equal. by eapply IH. }
  intros n. specialize (Hd n). destruct (managers w !! n) as [m|] eqn:Em, (spec_run ops bs ∅ !! n) as [toks|] eqn:Et.
  - pose proof (Hh n m toks Em Et) as Hm. split; [apply Hm|]. intros i. destruct (toks !! i) as [tk|] eqn:Ei; simpl.
    + by apply (holds_read m toks).
    + apply (read_past_end m toks); [done|]. apply lookup_ge_None in Ei. lia.
  - destruct Hd as [Hd _]. destruct Hd; by eauto.
  - destruct Hd as [_ Hd]. destruct Hd; by eauto.
  - done.
Qed.

(** C27. No block is lent twice or lost: in every reachable state the lent blocks
    are distinct and within the ranges the release assertions test, the two
    counters the scheduler reads are exactly the blocks not lent and lent, and
    once every request is gone the primary slab is free again. *)
Theorem blocks_are_conserved kv cap t ops refused w :
  admissible kv cap ops -> reaches kv cap t ops refused w ->
  NoDup (owned (managers w)) /\
  Forall (fun id => release_in_range id (pool w) = true) (owned (managers w)) /\
  overflow_in_use (pool w) = count_overflow (owned (managers w)) /\
  N.of_nat (length (owned (managers w))) + free_blocks (pool w) =
    cap + overflow_in_use (pool w).
Proof.
  intros Hadm (p & Hp & Hrun). destruct (reaches_ok kv cap t p ops Hadm Hp) as (bs & w' & Hrun' & [Hok _ _]).
  rewrite Hrun in Hrun'. injection Hrun' as <- <-.
  apply run_config in Hrun. destruct (fresh_pool_ok _ _ _ _ (proj1 Hadm) (proj1 (proj2 Hadm)) Hp) as (_ & _ & Hcap & _).
  injection Hrun as Hc _. simpl in Hc. rewrite Hcap in Hc.
  pose proof (minted_facts _ _ Hok) as Hnd. apply NoDup_app in Hnd as [Hnd _].
  pose proof (overflow_in_use_lent _ _ Hok) as Hcount.
  pose proof (Permutation_length (po_ids _ _ Hok)) as Hlen. unfold free_ids, minted in Hlen.
  rewrite !length_app, !length_fmap in Hlen.
  pose proof (length_rangeN (capacity (pool w))). pose proof (length_rangeN (overflow_capacity (pool w))).
  unfold overflow_in_use, sat_sub, free_blocks. split_and!; [done| |lia|lia].
  apply Forall_forall. intros id Hid. unfold release_in_range.
  destruct (lent_id _ _ Hok id Hid) as [(-> & _ & ?)|(-> & _ & ?)]; by apply N.ltb_lt.
Qed.

(** C30. Appending is refused exactly for lack of memory: in every reachable state a
    fresh block is denied if and only if the primary slab has no free block and a
    configured overflow cap is fully in flight; the state is then unchanged.  (The
    documentation of [BlockManager::append] says it is refused only when the global
    allocator fails; the configured cap is what refuses it.) *)
Theorem refused_exactly_at_the_cap kv cap t ops refused w :
  admissible kv cap ops -> reaches kv cap t ops refused w -> overflow_capacity (pool w) < OVERFLOW_BIT ->
  (allocate (pool w) = Some (None, pool w) <->
     free_blocks (pool w) = 0 /\
     exists n, max_overflow_capacity t = Some n /\ n <= overflow_in_use (pool w)) /\
  (forall k v m r m' p', append k v m (pool w) = Some (r, m', p') -> is_ok r = false ->
     m' = m /\ p' = pool w /\ allocate (pool w) = Some (None, pool w)).
Proof.
  intros Hadm (p & Hp & Hrun) Hoc. destruct (reaches_ok kv cap t p ops Hadm Hp) as (bs & w' & Hrun' & [Hok _ _]).
  rewrite Hrun in Hrun'. injection Hrun' as <- <-.
  apply run_config in Hrun. destruct (fresh_pool_ok _ _ _ _ (proj1 Hadm) (proj1 (proj2 Hadm)) Hp) as (_ & _ & _ & _ & Ht).
  injection Hrun as _ Hth. simpl in Hth. rewrite Ht in Hth. clear p Hp Ht Hadm.
  destruct (allocate_ok _ _ Hok Hoc) as (o & p' & Ha & _ & Ho). rewrite Ha.
  pose proof (po_max _ _ Hok) as Hmax. rewrite Hth in Hmax. split.
  - split.
    + intros [= -> ->]. destruct Ho as (_ & Hfree & Hcap). unfold free_ids in Hfree.
      apply app_nil in Hfree as [Hf Hof]. apply fmap_nil_inv in Hof. unfold free_blocks, overflow_in_use, sat_sub.
      rewrite Hf, Hof. split; [done|]. unfold overflow_capped in Hcap. rewrite Hth in Hcap.
      destruct (max_overflow_capacity t) as [n|]; [|done]. apply N.leb_le in Hcap. exists n. simpl. split; [done|lia].
    + intros (Hf & n & Hn & Hle). specialize (Hmax n Hn). unfold overflow_in_use, sat_sub in Hle.
      assert (free (pool w) = []) as Hf' by (apply nil_length_inv; unfold free_blocks in Hf; lia).
      unfold allocate in Ha. rewrite Hf' in Ha.
      destruct (overflow_free (pool w)) as [|x l] eqn:Eof; simpl in Hle; [|exfalso].
      * unfold overflow_capped in Ha. rewrite Hth, Hn, (proj2 (N.leb_le n _)) in Ha by lia. by injection Ha as <- <-.
      * pose proof (overflow_in_use_lent _ _ Hok) as Hc. rewrite Eof in Hc. simpl in Hc. lia.
  - intros k v m r m' p2 Happ Hr. unfold append in Happ.
    destruct (seq_len m mod POOL_BLOCK_TOKENS =? 0).
    + rewrite Ha in Happ. destruct o as [id|]; simplify_option_eq. by destruct Ho as [-> _].
    + by simplify_option_eq.
Qed.

(** The back-pressure ladder is consistent for every validated pair of
    thresholds: whatever the utilization, the soft cap is crossed exactly when the
    level is above [Normal], so [Critical] (no speculation) never occurs without
    the idle reclamation that the soft cap triggers. *)
Theorem pressure_ladder_consistent h c t max p :
  try_new h c = Ok t -> thresholds p = with_max_overflow_capacity max t ->
  above_soft_cap p = true <-> pressure_level p <> Normal.
Proof.
  unfold try_new. destruct (in_unit h) eqn:Hh; [|done]. destruct (in_unit c) eqn:Hc; [|done]. simpl.
  destruct (SFltb c h) eqn:Hch; [done|]. intros [= <-] Ht. unfold above_soft_cap, pressure_level. rewrite Ht. simpl.
  generalize (utilization p). intros u. destruct (SFleb c u) eqn:Ecu.
  - split; [done|intros _].
    assert (Hnan : forall x, in_unit x = true -> is_nan x = false) by (by intros []).
    assert (Hu : is_nan u = false) by (destruct u; try done; by destruct c as [[]|[]| |[]]).
    apply (f64_leb_trans h c u); auto. rewrite f64_ltb_leb in Hch by auto. by apply negb_false_iff.
  - destruct (SFleb h u); naive_solver.
Qed.

(** The 31-bit sanity check tests [capacity as u32]: a capacity above 2^32 passes it,
    with the truncated number of blocks free. *)
Example truncated_capacity_accepted :
  exists p, with_thresholds 1 4294967297 default_thresholds = Some p /\ capacity p = 4294967297 /\
    free_blocks p = 1.
Proof. eexists. split; [reflexivity|]. split; reflexivity. Qed.

Module Witness.
Definition sample_thresholds : PressureThresholds :=
  with_max_overflow_capacity (Some 1) default_thresholds.

(** One primary block, one overflow block at most. *)
Definition sample_pool : BlockPool := Eval vm_compute in
  match with_thresholds 1 1 sample_thresholds as o
    return match o with Some _ => BlockPool | None => unit end with
  | Some p => p | None => tt end.

Definition sample_ops : list op :=
  [NewManager 1; NewManager 2; NewManager 3; Append 1 [f32_one] [f32_zero];
   Append 2 [f32_zero] [f32_one]; Append 3 [f32_one] [f32_one]].

Lemma sample_admissible : admissible 1 1 sample_ops.
Proof.
  split; [vm_compute; discriminate|]. split; [vm_compute; discriminate|].
  split; [repeat constructor|vm_compute; discriminate].
Qed.

Definition sample_world : world := Eval vm_compute in
  match run sample_ops {| pool := sample_pool; managers := ∅ |} as o
    return match o with Some _ => world | None => unit end with
  | Some (_, w) => w | None => tt end.

Lemma sample_run_reaches :
  reaches 1 1 sample_thresholds sample_ops [false; false; false; false; false; true] sample_world.
Proof. exists sample_pool. split; vm_compute; reflexivity. Qed.

(** The third request is refused; the second reads its own value back. *)
Lemma paged_cache_refines_lists_witness :
  exists m w, managers w !! 2 = Some m /\ value 0 m (pool w) = Some [f32_one] /\
    fst <$> run sample_ops {| pool := sample_pool; managers := ∅ |} =
      Some [false; false; false; false; false; true].
Proof.
  assert (E : fst <$> run sample_ops {| pool := sample_pool; managers := ∅ |} =
    Some [false; false; false; false; false; true]) by (vm_compute; reflexivity).
  destruct (paged_cache_refines_lists 1 1 sample_thresholds sample_pool sample_ops sample_admissible)
    as (refused & w & Hr & _ & Hn); [vm_compute; reflexivity|].
  rewrite Hr in E |- *. simpl in E. injection E as ->. specialize (Hn 2).
  assert (Es : spec_run sample_ops [false; false; false; false; false; true] ∅ !! 2
               = Some [([f32_zero], [f32_one])]) by (vm_compute; reflexivity).
  rewrite Es in Hn. destruct (managers w !! 2) as [m|] eqn:Em; [|destruct Hn].
  exists m, w. destruct Hn as [_ Hi]. destruct (Hi 0%nat) as [_ Hv].
  split; [exact Em|]. split; [exact Hv|reflexivity].
Defined.

Lemma blocks_are_conserved_witness :
  NoDup (owned (managers sample_world)) /\ overflow_in_use (pool sample_world) = 1.
Proof.
  destruct (blocks_are_conserved 1 1 sample_thresholds sample_ops _ sample_world sample_admissible sample_run_reaches)
    as (Hnd & _). split; [exact Hnd|vm_compute; reflexivity].
Defined.

Lemma refused_exactly_at_the_cap_witness :
  allocate (pool sample_world) = Some (None, pool sample_world).
Proof.
  apply (refused_exactly_at_the_cap 1 1 sample_thresholds sample_ops _ sample_world
    sample_admissible sample_run_reaches); [vm_compute; reflexivity|].
  split; [vm_compute; reflexivity|]. exists 1. split; vm_compute; [reflexivity|discriminate].
Defined.

(** One of one block in use is above both thresholds. *)
Lemma pressure_ladder_consistent_witness :
  above_soft_cap (pool sample_world) = true /\ pressure_level (pool sample_world) = Critical.
Proof.
  split; [|vm_compute; reflexivity].
  apply (pressure_ladder_consistent SOFT_CAP_RATIO CRITICAL_PRESSURE_RATIO default_thresholds (Some 1));
    [vm_compute; reflexivity|vm_compute; reflexivity|vm_compute; discriminate].
Defined.
End Witness.
