(* ===== verification/Breaker.v ===== *)
(** The fault-tolerant read path of the storage layer
    ([src/rust-engine/src/io_provider.rs]): the retry loop, and the per-expert and
    per-drive circuit breakers with their half-open probe gate.

    The handlers are modelled twice.  The first part runs one call at a time,
    with the device's answers and the clock's readings as inputs.  The second
    part runs the breaker's operations as threads of atomic instructions in every
    interleaving. *)
From S2P Require Import Prelude.
Local Open Scope N_scope.

Definition STORAGE_RETRY_ATTEMPTS : N := 3.
Definition STORAGE_RETRY_BACKOFF : N := 5.
Definition STORAGE_RETRY_MAX_BACKOFF : N := 50.
Definition STORAGE_BREAKER_THRESHOLD : N := 3.
Definition STORAGE_DRIVE_BREAKER_THRESHOLD : N := 3.
Definition STORAGE_BREAKER_PROBE_INTERVAL : N := 500.

(** [breaker_now_ms], of the milliseconds elapsed since the clock's origin. *)
Definition breaker_now_ms (elapsed : N) : N := N.max (elapsed mod (u64_max + 1)) 1.

(** ** Errors *)

(** The kinds the code tests; [OtherKind] is any other. *)
Inductive ErrorKind := Interrupted | WouldBlock | TimedOut | UnexpectedEof | Other | OtherKind (n : N).
#[export] Instance ErrorKind_eq_dec : EqDecision ErrorKind.
Proof. solve_decision. Defined.

Inductive io_error :=
| IoError (kind : ErrorKind) (raw_os_error : option Z) (inner : option HardwareFailure)
with HardwareFailure :=
| Transient (expert_id attempts : N) (last_error : io_error)
| ExpertUnavailable (expert_id consecutive_failures : N)
| DriveUnavailable (drive_index consecutive_failures : N).

(** [impl From<HardwareFailure> for io::Error]. *)
Definition from_failure (e : HardwareFailure) : io_error := IoError Other None (Some e).

(** [libc] on Linux. *)
Definition EIO : Z := 5.
Definition EAGAIN : Z := 11.
Definition EBUSY : Z := 16.

Definition is_transient_io_error (e : io_error) : bool :=
  let '(IoError kind raw _) := e in
  bool_decide (kind = Interrupted) || bool_decide (kind = WouldBlock) || bool_decide (kind = TimedOut)
  || bool_decide (raw = Some EIO) || bool_decide (raw = Some EAGAIN) || bool_decide (raw = Some EBUSY).

(** ** Breaker state *)

Record BreakerState := { consecutive_failures : N; tripped : bool; tripped_at_ms : N }.
Definition breaker_default : BreakerState :=
  {| consecutive_failures := 0; tripped := false; tripped_at_ms := 0 |}.

(** The fields of [NvmeStorage] the read path uses; [num_striped] is
    [striped_paths.len()]. *)
Record NvmeStorage := {
  num_striped : N;
  breakers : gmap N BreakerState;
  drive_breakers : list BreakerState;
}.

Definition storage_new : NvmeStorage :=
  {| num_striped := 0; breakers := ∅; drive_breakers := [breaker_default] |}.
Definition striped (dirs : N) : option NvmeStorage :=
  if dirs =? 0 then None (* Err *) else
  Some {| num_striped := dirs; breakers := ∅;
          drive_breakers := replicate (N.to_nat dirs) breaker_default |}.

Definition num_drives (s : NvmeStorage) : N := N.max (num_striped s) 1.

Definition drive_index_for (id : N) (s : NvmeStorage) : nat :=
  if num_striped s =? 0 then 0%nat else N.to_nat (id mod num_striped s).

Definition with_breakers (b : gmap N BreakerState) (s : NvmeStorage) : NvmeStorage :=
  {| num_striped := num_striped s; breakers := b; drive_breakers := drive_breakers s |}.
Definition with_drives (d : list BreakerState) (s : NvmeStorage) : NvmeStorage :=
  {| num_striped := num_striped s; breakers := breakers s; drive_breakers := d |}.

(** [breaker]: created on first access. *)
Definition breaker (id : N) (s : NvmeStorage) : BreakerState * NvmeStorage :=
  let b := default breaker_default (breakers s !! id) in (b, with_breakers (<[id := b]> (breakers s)) s).

Definition is_expert_unavailable (id : N) (s : NvmeStorage) : bool :=
  match breakers s !! id with Some b => tripped b | None => false end.
(** [None] is the out-of-range index panic, here and below. *)
Definition is_drive_unavailable (id : N) (s : NvmeStorage) : option bool :=
  tripped <$> drive_breakers s !! drive_index_for id s.

Definition saturating_increment_u32 (c : N) : N := if c =? u32_max then u32_max else c + 1.

(** Failure counter to zero, [tripped] swapped to false, the stamp cleared if it was set. *)
Definition reset (b : BreakerState) : BreakerState :=
  {| consecutive_failures := 0; tripped := false;
     tripped_at_ms := if tripped b then 0 else tripped_at_ms b |}.

Definition note_read_success (id : N) (s : NvmeStorage) : option NvmeStorage :=
  let s := match breakers s !! id with
           | Some b => with_breakers (<[id := reset b]> (breakers s)) s
           | None => s end in
  let i := drive_index_for id s in
  db ← drive_breakers s !! i;
  Some (with_drives (<[i := reset db]> (drive_breakers s)) s).

(** One breaker's share of [note_read_failure]: whether it just opened, and the count. *)
Definition fail_one (threshold elapsed : N) (b : BreakerState) : bool * N * BreakerState :=
  let n := saturating_increment_u32 (consecutive_failures b) in
  if threshold <=? n then
    (negb (tripped b), n,
     {| consecutive_failures := n; tripped := true; tripped_at_ms := breaker_now_ms elapsed |})
  else
    (false, n, {| consecutive_failures := n; tripped := tripped b; tripped_at_ms := tripped_at_ms b |}).

Record failure_note := { just_tripped : bool; count : N; drive_just_tripped : bool; drive_count : N }.

(** The two clock readings are the expert's and the drive's. *)
Definition note_read_failure (id t_expert t_drive : N) (s : NvmeStorage)
  : option (failure_note * NvmeStorage) :=
  let '(b, s) := breaker id s in
  let '(jt, n, b) := fail_one STORAGE_BREAKER_THRESHOLD t_expert b in
  let s := with_breakers (<[id := b]> (breakers s)) s in
  let i := drive_index_for id s in
  db ← drive_breakers s !! i;
  let '(djt, dn, db) := fail_one STORAGE_DRIVE_BREAKER_THRESHOLD t_drive db in
  Some ({| just_tripped := jt; count := n; drive_just_tripped := djt; drive_count := dn |},
        with_drives (<[i := db]> (drive_breakers s)) s).

(** The half-open gate: whether one read is admitted, with the stamp advanced. *)
Definition try_admit_probe (elapsed : N) (b : BreakerState) : bool * BreakerState :=
  let now := breaker_now_ms elapsed in
  let last := tripped_at_ms b in
  if negb (last =? 0) && (sat_sub now last <? STORAGE_BREAKER_PROBE_INTERVAL) then (false, b)
  else (true, {| consecutive_failures := consecutive_failures b; tripped := tripped b; tripped_at_ms := now |}).

(** ** The read *)

(** What a call sees: the answers of [file.read_at] to its attempts, and the clock
    (elapsed milliseconds) at the drive's gate, the expert's gate, and the two
    stamps of a recorded failure. *)
Record call := {
  c_id : N;
  c_len : N;
  c_device : N -> result io_error N;
  t_drive_gate : N;
  t_expert_gate : N;
  t_expert_fail : N;
  t_drive_fail : N;
}.

Inductive event := DeviceRead | Sleep (ms : N).

(** A call's answer, what it did, and the storage it leaves. *)
Definition answer : Type := result io_error N * list event * NvmeStorage.

(** The error for a recorded failure: the breaker it tripped, else [err]. *)
Definition failure_error (id : N) (note : failure_note) (err : io_error) (s : NvmeStorage) : io_error :=
  if drive_just_tripped note
  then from_failure (DriveUnavailable (N.of_nat (drive_index_for id s)) (drive_count note))
  else if just_tripped note then from_failure (ExpertUnavailable id (count note))
  else err.

Definition fail_call (c : call) (err : io_error) (tr : list event) (s : NvmeStorage) : option answer :=
  '(note, s) ← note_read_failure (c_id c) (t_expert_fail c) (t_drive_fail c) s;
  Some (Err (failure_error (c_id c) note err s), tr, s).

Definition short_read : io_error := IoError UnexpectedEof None None.
(** [io::Error::other("retry loop exited ..")]. *)
Definition retry_bug : io_error := IoError Other None None.

Fixpoint retry_loop (c : call) (attempts : list N) (last_err : option io_error) (backoff : N)
    (tr : list event) (s : NvmeStorage) : option answer :=
  match attempts with
  | [] =>
      let err := default retry_bug last_err in
      fail_call c (from_failure (Transient (c_id c) STORAGE_RETRY_ATTEMPTS err)) tr s
  | attempt :: attempts' =>
      let tr := tr ++ [DeviceRead] in
      match c_device c attempt with
      | Ok n =>
          if n =? c_len c then s ← note_read_success (c_id c) s; Some (Ok n, tr, s)
          else fail_call c short_read tr s
      | Err e =>
          if is_transient_io_error e then
            if attempt + 1 <? STORAGE_RETRY_ATTEMPTS
            then retry_loop c attempts' (Some e) (N.min (backoff * 2) STORAGE_RETRY_MAX_BACKOFF)
                   (tr ++ [Sleep backoff]) s
            else retry_loop c attempts' (Some e) backoff tr s
          else fail_call c e tr s
      end
  end.

(** The drive's gate, then the expert's: [Err] is the short circuit. *)
Definition drive_gate (c : call) (s : NvmeStorage) : option (result io_error unit * NvmeStorage) :=
  let i := drive_index_for (c_id c) s in
  db ← drive_breakers s !! i;
  if tripped db then
    let '(admitted, db') := try_admit_probe (t_drive_gate c) db in
    if admitted : bool then Some (Ok tt, with_drives (<[i := db']> (drive_breakers s)) s)
    else Some (Err (from_failure (DriveUnavailable (N.of_nat i) (consecutive_failures db))), s)
  else Some (Ok tt, s).

Definition expert_gate (c : call) (s : NvmeStorage) : result io_error unit * NvmeStorage :=
  if is_expert_unavailable (c_id c) s then
    let '(b, s) := breaker (c_id c) s in
    let '(admitted, b') := try_admit_probe (t_expert_gate c) b in
    if admitted : bool then (Ok tt, with_breakers (<[c_id c := b']> (breakers s)) s)
    else (Err (from_failure (ExpertUnavailable (c_id c) (consecutive_failures b))), s)
  else (Ok tt, s).

Definition read_at_with_retries (c : call) (s : NvmeStorage) : option answer :=
  '(r, s) ← drive_gate c s;
  match r with
  | Err e => Some (Err e, [], s)
  | Ok _ =>
      let '(r, s) := expert_gate c s in
      match r with
      | Err e => Some (Err e, [], s)
      | Ok _ => retry_loop c (rangeN STORAGE_RETRY_ATTEMPTS) None STORAGE_RETRY_BACKOFF [] s
      end
  end.

(** ** One call on the two breakers it concerns *)

(** Attempt [a] ends the retries: success, a short read or a fatal error. *)
Definition decided (c : call) (a : N) : bool :=
  match c_device c a with Ok _ => true | Err e => negb (is_transient_io_error e) end.
Definition last_attempt (c : call) : N := if decided c 0 then 0 else if decided c 1 then 1 else 2.
Definition call_ok (c : call) : bool :=
  match c_device c (last_attempt c) with Ok n => n =? c_len c | Err _ => false end.
(** What a failing call reports when it trips no breaker. *)
Definition call_error (c : call) : io_error :=
  match c_device c (last_attempt c) with
  | Ok _ => short_read
  | Err e => if is_transient_io_error e
             then from_failure (Transient (c_id c) STORAGE_RETRY_ATTEMPTS e) else e
  end.
Definition attempt_trace (k : N) : list event :=
  if k =? 0 then [DeviceRead]
  else if k =? 1 then [DeviceRead; Sleep 5; DeviceRead]
  else [DeviceRead; Sleep 5; DeviceRead; Sleep 10; DeviceRead].

Lemma retry_loop_eq c s :
  retry_loop c (rangeN STORAGE_RETRY_ATTEMPTS) None STORAGE_RETRY_BACKOFF [] s =
  if call_ok c then s ← note_read_success (c_id c) s; Some (Ok (c_len c), attempt_trace (last_attempt c), s)
  else fail_call c (call_error c) (attempt_trace (last_attempt c)) s.
Proof.
  change (rangeN STORAGE_RETRY_ATTEMPTS) with [0; 1; 2].
  unfold call_ok, call_error, last_attempt, decided, attempt_trace.
  cbn [retry_loop]. destruct (c_device c 0) as [n|e] eqn:E0.
  { cbn. rewrite E0. destruct (n =? c_len c) eqn:En; [|done]. apply N.eqb_eq in En. by subst. }
  destruct (is_transient_io_error e) eqn:T0; cbn; [|rewrite E0, T0; done].
  destruct (c_device c 1) as [n|e1] eqn:E1.
  { cbn. rewrite E1. destruct (n =? c_len c) eqn:En; [|done]. apply N.eqb_eq in En. by subst. }
  destruct (is_transient_io_error e1) eqn:T1; cbn; [|rewrite E1, T1; done].
  destruct (c_device c 2) as [n|e2] eqn:E2.
  { cbn. destruct (n =? c_len c) eqn:En; [|done]. apply N.eqb_eq in En. by subst. }
  destruct (is_transient_io_error e2) eqn:T2; cbn; done.
Qed.

Definition gate (elapsed : N) (b : BreakerState) : bool * BreakerState :=
  if tripped b then try_admit_probe elapsed b else (true, b).

(** Whether the device is read, and the expert's and the drive's breakers after. *)
Definition pair_step (c : call) (b db : BreakerState) : bool * BreakerState * BreakerState :=
  let '(gd, db1) := gate (t_drive_gate c) db in
  if negb gd then (false, b, db) else
  let '(ge, b1) := gate (t_expert_gate c) b in
  if negb ge then (false, b, db1) else
  if call_ok c then (true, reset b1, reset db1)
  else (true, snd (fail_one STORAGE_BREAKER_THRESHOLD (t_expert_fail c) b1),
        snd (fail_one STORAGE_DRIVE_BREAKER_THRESHOLD (t_drive_fail c) db1)).

(** The answer: a short circuit's error with the counter of the breaker that
    refuses, the read's length, or the failure's error: the breaker it opens (the
    drive's first), else what the device answered. *)
Definition expected_answer (c : call) (i : nat) (b db : BreakerState) : result io_error N :=
  if negb (fst (gate (t_drive_gate c) db))
  then Err (from_failure (DriveUnavailable (N.of_nat i) (consecutive_failures db))) else
  if negb (fst (gate (t_expert_gate c) b))
  then Err (from_failure (ExpertUnavailable (c_id c) (consecutive_failures b))) else
  if call_ok c then Ok (c_len c) else
  let n := saturating_increment_u32 (consecutive_failures b) in
  let dn := saturating_increment_u32 (consecutive_failures db) in
  if (STORAGE_DRIVE_BREAKER_THRESHOLD <=? dn) && negb (tripped db)
  then Err (from_failure (DriveUnavailable (N.of_nat i) dn))
  else if (STORAGE_BREAKER_THRESHOLD <=? n) && negb (tripped b)
  then Err (from_failure (ExpertUnavailable (c_id c) n))
  else Err (call_error c).

Lemma gate_fields t b :
  consecutive_failures (snd (gate t b)) = consecutive_failures b /\ tripped (snd (gate t b)) = tripped b.
Proof. unfold gate, try_admit_probe. by repeat case_match. Qed.

Definition expert_view (id : N) (s : NvmeStorage) : BreakerState := default breaker_default (breakers s !! id).

Definition storage_ok (s : NvmeStorage) : Prop := N.of_nat (length (drive_breakers s)) = num_drives s.

(** [s'] is [s] but for the breakers of [id], now [b], and of its drive, now [db]. *)
Record becomes (id : N) (b db : BreakerState) (s s' : NvmeStorage) : Prop := {
  bc_striped : num_striped s' = num_striped s;
  bc_expert : forall id', expert_view id' s' = if decide (id' = id) then b else expert_view id' s;
  bc_drive : drive_breakers s' = <[drive_index_for id s := db]> (drive_breakers s);
}.

Lemma drive_index_lt id s : storage_ok s -> (drive_index_for id s < length (drive_breakers s))%nat.
Proof.
  unfold storage_ok, num_drives, drive_index_for. intros H. destruct (N.eqb_spec (num_striped s) 0) as [E|E]; [lia|].
  pose proof (N.mod_lt id (num_striped s) E). lia.
Qed.

Lemma becomes_id id s db :
  drive_breakers s !! drive_index_for id s = Some db -> becomes id (expert_view id s) db s s.
Proof.
  intros H. split; [done| |by rewrite list_insert_id]. intros id'. by case_decide; subst.
Qed.

Lemma becomes_trans id b1 db1 b2 db2 s s1 s2 :
  becomes id b1 db1 s s1 -> becomes id b2 db2 s1 s2 -> becomes id b2 db2 s s2.
Proof.
  intros [H1 H2 H3] [H4 H5 H6].
  assert (Hi : drive_index_for id s1 = drive_index_for id s) by (unfold drive_index_for; by rewrite H1).
  split; [congruence| |].
  - intros id'. rewrite H5, H2. by case_decide.
  - by rewrite H6, H3, Hi, list_insert_insert_eq.
Qed.

Lemma becomes_ok id b db s s' : becomes id b db s s' -> storage_ok s -> storage_ok s'.
Proof. intros [H1 _ H3]. unfold storage_ok, num_drives. by rewrite H1, H3, length_insert. Qed.

Section views.
Context (id : N) (s : NvmeStorage) (db : BreakerState).
Context (Hdb : drive_breakers s !! drive_index_for id s = Some db).

Lemma note_read_success_becomes :
  exists s', note_read_success id s = Some s' /\ becomes id (reset (expert_view id s)) (reset db) s s'.
Proof.
  unfold note_read_success, expert_view. destruct (breakers s !! id) as [b|] eqn:E.
  - change (drive_index_for id (with_breakers _ s)) with (drive_index_for id s). simpl. rewrite Hdb. simpl.
    eexists. split; [reflexivity|]. split; simpl; [done| |done]. intros id'. unfold expert_view. simpl.
    case_decide; subst; [by rewrite lookup_insert_eq|by rewrite lookup_insert_ne].
  - rewrite Hdb. simpl. eexists. split; [reflexivity|]. split; simpl; [done| |done].
    intros id'. unfold expert_view. simpl. case_decide; subst; by rewrite ?E.
Qed.

Lemma note_read_failure_becomes te td :
  exists note s', note_read_failure id te td s = Some (note, s') /\
    becomes id (snd (fail_one STORAGE_BREAKER_THRESHOLD te (expert_view id s)))
      (snd (fail_one STORAGE_DRIVE_BREAKER_THRESHOLD td db)) s s' /\
    count note = saturating_increment_u32 (consecutive_failures (expert_view id s)) /\
    just_tripped note = (STORAGE_BREAKER_THRESHOLD <=? count note) && negb (tripped (expert_view id s)) /\
    drive_count note = saturating_increment_u32 (consecutive_failures db) /\
    drive_just_tripped note = (STORAGE_DRIVE_BREAKER_THRESHOLD <=? drive_count note) && negb (tripped db).
Proof.
  unfold note_read_failure, breaker. fold (expert_view id s).
  destruct (fail_one STORAGE_BREAKER_THRESHOLD te (expert_view id s)) as [[jt n] b] eqn:Eb.
  change (drive_index_for id (with_breakers _ _)) with (drive_index_for id s). simpl. rewrite Hdb. simpl.
  destruct (fail_one STORAGE_DRIVE_BREAKER_THRESHOLD td db) as [[djt dn] db'] eqn:Ed.
  do 2 eexists. split; [reflexivity|]. simpl. split.
  - split; simpl; [done| |done]. intros id'. unfold expert_view. simpl. rewrite insert_insert_eq.
    case_decide; subst; [by rewrite lookup_insert_eq|by rewrite lookup_insert_ne].
  - unfold fail_one in Eb, Ed.
    destruct (STORAGE_BREAKER_THRESHOLD <=? _) eqn:E1 in Eb; destruct (STORAGE_DRIVE_BREAKER_THRESHOLD <=? _) eqn:E2 in Ed;
      simplify_eq/=; by rewrite E1, E2.
Qed.

Lemma expert_gate_becomes c :
  c_id c = id ->
  let '(r, s') := expert_gate c s in
  let '(ge, b1) := gate (t_expert_gate c) (expert_view id s) in
  r = (if ge then Ok tt
       else Err (from_failure (ExpertUnavailable id (consecutive_failures (expert_view id s))))) /\
  becomes id (if ge then b1 else expert_view id s) db s s'.
Proof.
  intros Hc. unfold expert_gate, gate, is_expert_unavailable, breaker. rewrite Hc. fold (expert_view id s).
  assert (Ht : match breakers s !! id with Some b => tripped b | None => false end = tripped (expert_view id s))
    by (unfold expert_view; by destruct (breakers s !! id)). rewrite Ht.
  pose proof (becomes_id _ _ _ Hdb) as Hid.
  destruct (tripped (expert_view id s)) eqn:Et; [|done].
  destruct (try_admit_probe (t_expert_gate c) (expert_view id s)) as [[] b1]; (split; [done|]);
    (split; simpl; [done| |by rewrite list_insert_id]); intros id'; unfold expert_view; simpl;
    rewrite ?insert_insert_eq; (case_decide; subst; [by rewrite lookup_insert_eq|by rewrite lookup_insert_ne]).
Qed.
End views.

Lemma drive_gate_becomes c s db :
  drive_breakers s !! drive_index_for (c_id c) s = Some db ->
  let '(gd, db1) := gate (t_drive_gate c) db in
  exists s1, drive_gate c s =
    Some (if gd then Ok tt
          else Err (from_failure (DriveUnavailable (N.of_nat (drive_index_for (c_id c) s)) (consecutive_failures db))),
          s1) /\
    becomes (c_id c) (expert_view (c_id c) s) (if gd then db1 else db) s s1.
Proof.
  intros Hdb. unfold drive_gate, gate. rewrite Hdb. cbn [mbind option_bind].
  pose proof (becomes_id _ _ _ Hdb) as Hid. destruct (tripped db); [|by eexists].
  destruct (try_admit_probe (t_drive_gate c) db) as [[] db1]; (eexists; split; [reflexivity|]); [|done].
  split; simpl; [done| |done]. intros id'. by case_decide; subst.
Qed.

(** The drive's breaker after a step. *)
Lemma becomes_lookup id b db db' s s' :
  drive_breakers s !! drive_index_for id s = Some db -> becomes id b db' s s' ->
  drive_index_for id s' = drive_index_for id s /\ drive_breakers s' !! drive_index_for id s' = Some db' /\
  expert_view id s' = b.
Proof.
  intros Hdb [Hn He Hd].
  assert (Hi : drive_index_for id s' = drive_index_for id s) by (unfold drive_index_for; by rewrite Hn).
  split; [done|]. split; [|rewrite He; by case_decide]. rewrite Hi, Hd. apply list_lookup_insert_eq.
  by eapply lookup_lt_Some.
Qed.

(** Every call is [pair_step] on its expert's and its drive's breaker, and touches no other. *)
Lemma read_becomes c s db :
  drive_breakers s !! drive_index_for (c_id c) s = Some db ->
  exists tr s', read_at_with_retries c s =
      Some (expected_answer c (drive_index_for (c_id c) s) (expert_view (c_id c) s) db, tr, s') /\
    let '(touched, b', db') := pair_step c (expert_view (c_id c) s) db in
    becomes (c_id c) b' db' s s' /\
    tr = (if touched then attempt_trace (last_attempt c) else []).
Proof.
  intros Hdb. unfold read_at_with_retries, pair_step, expected_answer.
  pose proof (drive_gate_becomes c s db Hdb) as Hg. pose proof (gate_fields (t_drive_gate c) db) as [Hcf Htr].
  destruct (gate (t_drive_gate c) db) as [gd db1] eqn:Hgd. destruct Hg as (s1 & -> & Hs1).
  cbn [mbind option_bind fst snd] in *. destruct gd; cbn [negb]; [|by do 2 eexists].
  destruct (becomes_lookup _ _ _ _ _ _ Hdb Hs1) as (Hi1 & Hdb1 & Hv1).
  pose proof (expert_gate_becomes _ _ _ Hdb1 c eq_refl) as He. rewrite Hv1 in He.
  pose proof (gate_fields (t_expert_gate c) (expert_view (c_id c) s)) as [Hcfb Htrb].
  destruct (expert_gate c s1) as [r2 s2]. destruct (gate (t_expert_gate c) (expert_view (c_id c) s)) as [ge b1].
  cbn [fst snd] in *. destruct He as [-> Hs2]. pose proof (becomes_trans _ _ _ _ _ _ _ _ Hs1 Hs2) as Hs02.
  destruct ge; cbn [negb]; [|by do 2 eexists].
  destruct (becomes_lookup _ _ _ _ _ _ Hdb Hs02) as (Hi2 & Hdb2 & Hv2).
  rewrite retry_loop_eq. destruct (call_ok c).
  - destruct (note_read_success_becomes _ _ _ Hdb2) as (s3 & -> & Hs3). rewrite Hv2 in Hs3.
    do 2 eexists. split; [reflexivity|]. split; [by eapply becomes_trans|done].
  - unfold fail_call. destruct (note_read_failure_becomes _ _ _ Hdb2 (t_expert_fail c) (t_drive_fail c))
      as (note & s3 & -> & Hs3 & Hn & Hj & Hdn & Hdj). rewrite Hv2 in Hs3, Hn, Hj.
    rewrite Hcfb in Hn. rewrite Htrb in Hj. rewrite Hcf in Hdn. rewrite Htr in Hdj.
    cbn [mbind option_bind]. do 2 eexists. split; [|split; [by eapply becomes_trans|done]].
    destruct (becomes_lookup _ _ _ _ _ _ Hdb2 Hs3) as (Hi3 & _).
    unfold failure_error. rewrite Hi3, Hi2, Hj, Hdj, Hn, Hdn. by repeat case_match.
Qed.

(** C26. One read, on every branch.  A call never panics; it acts as [pair_step] on
    the breakers of its expert and of its drive and leaves every other breaker
    alone; it answers the expected error or the full length; and it reads the
    device at most three times, sleeping 5 then 10 ms, or not at all when one of
    the two gates refuses it. *)
Theorem read_at_with_retries_spec c s :
  storage_ok s ->
  exists db r tr s', drive_breakers s !! drive_index_for (c_id c) s = Some db /\
    read_at_with_retries c s = Some (r, tr, s') /\
    r = expected_answer c (drive_index_for (c_id c) s) (expert_view (c_id c) s) db /\
    let '(touched, b', db') := pair_step c (expert_view (c_id c) s) db in
    becomes (c_id c) b' db' s s' /\ storage_ok s' /\
    tr = (if touched then attempt_trace (last_attempt c) else []).
Proof.
  intros Hok. destruct (lookup_lt_is_Some_2 _ _ (drive_index_lt (c_id c) s Hok)) as [db Hdb].
  destruct (read_becomes c s db Hdb) as (tr & s' & Hr & Hp). do 4 eexists. split; [done|]. split; [done|].
  split; [done|]. destruct (pair_step _ _ _) as [[touched b'] db']. destruct Hp as [Hb Ht].
  split; [done|]. split; [by eapply becomes_ok|done].
Qed.

(** ** Sequences of calls *)

(** A call, whether its drive's breaker was open at its start, whether it read the device. *)
Record entry := { l_call : call; l_open : bool; l_touched : bool }.

Fixpoint run_calls (cs : list call) (s : NvmeStorage) : option (list entry * NvmeStorage) :=
  match cs with
  | [] => Some ([], s)
  | c :: cs' =>
      open ← is_drive_unavailable (c_id c) s;
      '(_, tr, s) ← read_at_with_retries c s;
      '(log, s) ← run_calls cs' s;
      Some ({| l_call := c; l_open := open;
               l_touched := match tr with [] => false | _ => true end |} :: log, s)
  end.

(** One step of a run in the terms of [pair_step]. *)
Lemma run_calls_cons c cs s :
  storage_ok s ->
  exists db, drive_breakers s !! drive_index_for (c_id c) s = Some db /\
  let '(touched, b', db') := pair_step c (expert_view (c_id c) s) db in
  exists s1, becomes (c_id c) b' db' s s1 /\ storage_ok s1 /\
    run_calls (c :: cs) s =
      '(log, s') ← run_calls cs s1;
      Some ({| l_call := c; l_open := tripped db; l_touched := touched |} :: log, s').
Proof.
  intros Hok. destruct (lookup_lt_is_Some_2 _ _ (drive_index_lt (c_id c) s Hok)) as [db Hdb].
  exists db. split; [done|]. destruct (read_becomes c s db Hdb) as (tr & s1 & Hr & Hp).
  destruct (pair_step _ _ _) as [[touched b'] db']. destruct Hp as [Hb ->]. exists s1. split; [done|].
  split; [by eapply becomes_ok|]. cbn [run_calls]. unfold is_drive_unavailable. rewrite Hdb. simpl. rewrite Hr.
  simpl. destruct touched; [|done]. unfold attempt_trace. by repeat case_match.
Qed.

(** A breaker that has seen [n] failures since its last success. *)
Definition closed_form (b : BreakerState) (n : N) : Prop :=
  consecutive_failures b = n /\ tripped b = (3 <=? n) /\ (tripped_at_ms b = 0 <-> tripped b = false).

Lemma breaker_now_ms_pos t : 1 <= breaker_now_ms t.
Proof. unfold breaker_now_ms. lia. Qed.

Lemma closed_form_default : closed_form breaker_default 0.
Proof. by repeat split. Qed.

Lemma closed_form_gate t b n : closed_form b n -> closed_form (snd (gate t b)) n.
Proof.
  intros (Hf & Ht & Ha). destruct (gate_fields t b) as [Hf' Ht']. split; [congruence|]. split; [congruence|].
  rewrite Ht'. revert Ha. unfold gate, try_admit_probe. destruct (tripped b); [|done].
  case_match; [done|]. simpl. pose proof (breaker_now_ms_pos t). split; [lia|done].
Qed.

Lemma closed_form_reset b n : closed_form b n -> closed_form (reset b) 0.
Proof. intros (_ & _ & Ha). unfold closed_form, reset. simpl. destruct (tripped b); naive_solver. Qed.

Lemma closed_form_fail t b n :
  closed_form b n -> closed_form (snd (fail_one 3 t b)) (saturating_increment_u32 n).
Proof.
  intros (<- & Ht & Ha). unfold fail_one. pose proof (breaker_now_ms_pos t).
  assert (Hinc : (3 <=? consecutive_failures b) = true -> (3 <=? saturating_increment_u32 (consecutive_failures b)) = true).
  { unfold saturating_increment_u32. rewrite !N.leb_le. destruct (_ =? _); unfold u32_max; lia. }
  destruct (3 <=? saturating_increment_u32 (consecutive_failures b)) eqn:E; unfold closed_form; simpl.
  - rewrite E. split_and!; [done..|]. split; [lia|done].
  - rewrite E. rewrite Ht in Ha |- *.
    destruct (3 <=? consecutive_failures b) eqn:En; [discriminate (Hinc eq_refl)|done].
Qed.

(** What a call adds to a tally of consecutive failures it concerns. *)
Definition tally (concerned : call -> bool) (n : N) (e : entry) : N :=
  if l_touched e && concerned (l_call e)
  then if call_ok (l_call e) then 0 else saturating_increment_u32 n
  else n.
Definition expert_tally (id : N) : list entry -> N -> N := fun log n => foldl (tally (fun c => c_id c =? id)) n log.
Definition drive_tally (s : NvmeStorage) (i : nat) : list entry -> N -> N :=
  fun log n => foldl (tally (fun c => bool_decide (drive_index_for (c_id c) s = i))) n log.

Lemma pair_step_tally c b db n dn touched b' db' open :
  closed_form b n -> closed_form db dn -> pair_step c b db = (touched, b', db') ->
  let e := {| l_call := c; l_open := open; l_touched := touched |} in
  closed_form b' (tally (fun _ => true) n e) /\ closed_form db' (tally (fun _ => true) dn e).
Proof.
  intros Hb Hdb. unfold pair_step, tally. rewrite andb_true_r. simpl.
  pose proof (closed_form_gate (t_drive_gate c) db dn Hdb) as Hd1.
  pose proof (closed_form_gate (t_expert_gate c) b n Hb) as Hb1.
  destruct (gate (t_drive_gate c) db) as [[] db1], (gate (t_expert_gate c) b) as [[] b1]; simpl in *;
    destruct (call_ok c); intros [= <- <- <-]; simpl;
    eauto using closed_form_reset, closed_form_fail.
Qed.

Lemma run_calls_tally s0 cs s (fe : N -> N) (fd : nat -> N) :
  storage_ok s -> num_striped s = num_striped s0 ->
  (forall id, closed_form (expert_view id s) (fe id)) ->
  (forall i db, drive_breakers s !! i = Some db -> closed_form db (fd i)) ->
  exists log s', run_calls cs s = Some (log, s') /\ l_call <$> log = cs /\
    (forall id, closed_form (expert_view id s') (expert_tally id log (fe id))) /\
    (forall i db, drive_breakers s' !! i = Some db -> closed_form db (drive_tally s0 i log (fd i))).
Proof.
  revert s fe fd. induction cs as [|c cs IH]; intros s fe fd Hok Hn He Hd; [by exists [], s|].
    destruct (run_calls_cons c cs s Hok) as (db & Hdb & Hstep).
    destruct (pair_step c (expert_view (c_id c) s) db) as [[touched b'] db'] eqn:Ep.
    destruct Hstep as (s1 & Hb & Hok1 & ->).
    destruct (pair_step_tally _ _ _ _ _ _ _ _ (tripped db) (He (c_id c)) (Hd _ _ Hdb) Ep) as [Hb' Hdb'].
    set (e := {| l_call := c; l_open := tripped db; l_touched := touched |}) in *.
    assert (Hidx : forall id, drive_index_for id s0 = drive_index_for id s)
      by (intros id; unfold drive_index_for; by rewrite Hn).
    destruct (IH s1 (fun id => tally (fun c => c_id c =? id) (fe id) e)
      (fun i => tally (fun c => bool_decide (drive_index_for (c_id c) s0 = i)) (fd i) e)) as (log & s' & -> & Hc & H1 & H2).
    - done.
    - by rewrite (bc_striped _ _ _ _ _ Hb).
    - intros id. rewrite (bc_expert _ _ _ _ _ Hb). unfold tally in *. simpl in *.
      case_decide as Ei; [subst id; by rewrite N.eqb_refl|].
      assert ((c_id c =? id) = false) as -> by (apply N.eqb_neq; congruence). by rewrite andb_false_r.
    - intros i dbi. rewrite (bc_drive _ _ _ _ _ Hb). intros [(<- & <- & _)|[Hne Hi]]%list_lookup_insert_Some.
      + unfold tally in *. simpl in *. rewrite bool_decide_true by apply Hidx. done.
      + unfold tally in *. simpl in *. rewrite Hidx, bool_decide_false by done. rewrite andb_false_r. by apply Hd.
    - exists (e :: log), s'. split; [done|]. split; [csimpl; by rewrite Hc|]. done.
Qed.

Lemma fresh_storage dirs :
  let s0 := default storage_new (striped dirs) in
  storage_ok s0 /\ (forall id, expert_view id s0 = breaker_default) /\
  Forall (fun db => db = breaker_default) (drive_breakers s0).
Proof.
  unfold striped, storage_ok, num_drives, expert_view. destruct (N.eqb_spec dirs 0); simpl.
  - split_and!; [done| |by repeat constructor]. intros id. by rewrite lookup_empty.
  - rewrite length_replicate. split_and!; [lia| |]. + intros id. by rewrite lookup_empty.
    + by apply Forall_replicate.
Qed.

(** C23. The breakers count consecutive failures.  From a new storage over any number of
    drives, every sequence of calls runs without a panic, and afterwards each
    expert's counter is the number of its failed device reads since its last good
    one (saturating), each drive's counter the same over all the experts it
    serves, a breaker is open exactly when its counter is at least 3, and its
    stamp is zero exactly while it is closed. *)
Theorem breakers_count_failures dirs cs :
  let s0 := default storage_new (striped dirs) in
  exists log s, run_calls cs s0 = Some (log, s) /\ l_call <$> log = cs /\
    (forall id, closed_form (expert_view id s) (expert_tally id log 0) /\
       is_expert_unavailable id s = (3 <=? expert_tally id log 0)) /\
    (forall i db, drive_breakers s !! i = Some db -> closed_form db (drive_tally s0 i log 0)).
Proof.
  intros s0. destruct (fresh_storage dirs) as (Hok & He & Hd). fold s0 in Hok, He, Hd.
  destruct (run_calls_tally s0 cs s0 (fun _ => 0) (fun _ => 0)) as (log & s & Hrun & Hc & H1 & H2); try done.
  - intros id. rewrite He. apply closed_form_default.
  - intros i db Hi. rewrite (Forall_lookup_1 _ _ _ _ Hd Hi). apply closed_form_default.
  - exists log, s. do 2 (split; [done|]). split; [|done]. intros id. split; [done|].
    destruct (H1 id) as (_ & <- & _). unfold is_expert_unavailable, expert_view. by destruct (breakers s !! id).
Qed.

(** ** The probe gate over time *)

(** The readings of a call's clock: in order, and 64-bit. *)
Definition clock_ok (c : call) : Prop := t_drive_gate c <= t_drive_fail c <= u64_max.

Lemma breaker_now_ms_eq t : t <= u64_max -> breaker_now_ms t = N.max t 1.
Proof. intros. unfold breaker_now_ms. by rewrite N.mod_small by lia. Qed.

(** An open drive breaker that is stamped [T] or later: the next read is 500 ms after. *)
Lemma pair_step_gate c b db touched b' db' T :
  clock_ok c -> 1 <= T -> tripped db = true -> T <= tripped_at_ms db ->
  pair_step c b db = (touched, b', db') ->
  (touched = true -> T + 500 <= t_drive_gate c) /\ (tripped db' = true -> T <= tripped_at_ms db').
Proof.
  intros [Hck1 Hck2] HT Ht Ha. unfold pair_step, gate at 1, try_admit_probe, sat_sub, STORAGE_BREAKER_PROBE_INTERVAL.
  rewrite Ht, (breaker_now_ms_eq (t_drive_gate c)) by lia.
  destruct (N.eqb_spec (tripped_at_ms db) 0); [lia|]. simpl.
  destruct (N.ltb_spec (N.max (t_drive_gate c) 1 - tripped_at_ms db) 500); simpl.
  { intros [= <- <- <-]. split; [done|lia]. }
  destruct (gate (t_expert_gate c) b) as [[] b1]; simpl.
  2: { intros [= <- <- <-]. simpl. split; [done|lia]. }
  destruct (call_ok c); intros [= <- <- <-]; simpl; (split; [lia|]); [done|].
  unfold fail_one. case_match; simpl; [|lia]. rewrite breaker_now_ms_eq by lia. lia.
Qed.

(** A drive that is open only since [T], or whose next calls find it closed. *)
Definition stamped (T : N) (d : nat) (s : NvmeStorage) : Prop :=
  forall db, drive_breakers s !! d = Some db -> tripped db = true -> T <= tripped_at_ms db.

Lemma becomes_stamped id b db' s s1 T d :
  becomes id b db' s s1 -> stamped T d s ->
  (drive_index_for id s = d -> tripped db' = true -> T <= tripped_at_ms db') -> stamped T d s1.
Proof.
  intros [_ _ Hd] Hs Hnew db Hdb. rewrite Hd in Hdb.
  apply list_lookup_insert_Some in Hdb as [(<- & <- & _)|[_ Hdb]]; [by apply Hnew|by apply Hs].
Qed.

Lemma later_read cs s log s' d T j e :
  storage_ok s -> Forall clock_ok cs -> 1 <= T -> stamped T d s -> run_calls cs s = Some (log, s') ->
  log !! j = Some e -> drive_index_for (c_id (l_call e)) s = d -> l_touched e = true ->
  (forall m em, (m <= j)%nat -> log !! m = Some em -> drive_index_for (c_id (l_call em)) s = d -> l_open em = true) ->
  T + 500 <= t_drive_gate (l_call e).
Proof.
  intros Hok Hck HT. revert s log j Hok. induction Hck as [|c cs Hc _ IH]; intros s log j Hok Hst Hrun Hj Hd Hte Hopen.
  { injection Hrun as <- <-. done. }
  destruct (run_calls_cons c cs s Hok) as (db & Hdb & Hstep).
  destruct (pair_step c (expert_view (c_id c) s) db) as [[touched b'] db'] eqn:Ep.
  destruct Hstep as (s1 & Hb & Hok1 & Hrun'). rewrite Hrun' in Hrun.
  destruct (run_calls cs s1) as [[log1 s2]|] eqn:E1; [|done]. injection Hrun as <- <-.
  assert (Hhere : drive_index_for (c_id c) s = d ->
    (touched = true -> T + 500 <= t_drive_gate c) /\ (tripped db' = true -> T <= tripped_at_ms db')).
  { intros Hcd. pose proof (Hopen 0%nat _ ltac:(lia) eq_refl Hcd) as Ho. simpl in Ho.
    eapply pair_step_gate; eauto. apply Hst; [by rewrite <-Hcd|done]. }
  destruct j as [|j]; simpl in Hj.
  - injection Hj as <-. by apply Hhere.
  - assert (Hidx : forall id, drive_index_for id s1 = drive_index_for id s)
      by (intros id; unfold drive_index_for; by rewrite (bc_striped _ _ _ _ _ Hb)).
    eapply (IH s1 log1 j); eauto.
    + eapply becomes_stamped; [exact Hb|exact Hst|]. intros Hcd. by apply Hhere.
    + by rewrite Hidx.
    + intros m em Hm Hem Hdm. apply (Hopen (S m) em); [lia|done|]. by rewrite <-Hidx.
Qed.

(** A read that leaves the drive open has just stamped it. *)
Lemma pair_step_drive c b db n touched b' db' :
  closed_form db n -> pair_step c b db = (touched, b', db') ->
  (exists n', closed_form db' n') /\
  (touched = true -> tripped db' = true -> tripped_at_ms db' = breaker_now_ms (t_drive_fail c)).
Proof.
  intros Hdb. unfold pair_step. pose proof (closed_form_gate (t_drive_gate c) db n Hdb) as Hd1.
  destruct (gate (t_drive_gate c) db) as [[] db1], (gate (t_expert_gate c) b) as [[] b1]; simpl in *;
    [|intros [= <- <- <-]; split; [eauto|done]..].
  destruct (call_ok c); intros [= <- <- <-]; (split; [eauto using closed_form_reset, closed_form_fail|]); [done|].
  intros _. pose proof (closed_form_fail (t_drive_fail c) db1 n Hd1) as (Hcf & Htr & _). revert Hcf Htr.
  change STORAGE_DRIVE_BREAKER_THRESHOLD with 3. unfold fail_one.
  destruct (3 <=? saturating_increment_u32 (consecutive_failures db1)) eqn:E; simpl; [done|].
  intros <- ->. congruence.
Qed.

(** While a drive's breaker stays open, its device is probed at most once per
    interval: in every sequence of calls on a new storage, when two calls to the
    same drive both reach the device and every call to that drive after the first
    finds its breaker open, the second passes the gate at least 500 ms after the
    first one's failure was recorded, whatever other experts or drives are read in
    between. *)
Theorem probes_are_rate_limited dirs cs log s i j ei ej :
  let s0 := default storage_new (striped dirs) in
  Forall clock_ok cs -> run_calls cs s0 = Some (log, s) ->
  (i < j)%nat -> log !! i = Some ei -> log !! j = Some ej ->
  l_touched ei = true -> l_touched ej = true ->
  drive_index_for (c_id (l_call ei)) s0 = drive_index_for (c_id (l_call ej)) s0 ->
  (forall m em, (i < m <= j)%nat -> log !! m = Some em ->
     drive_index_for (c_id (l_call em)) s0 = drive_index_for (c_id (l_call ej)) s0 -> l_open em = true) ->
  t_drive_fail (l_call ei) + 500 <= t_drive_gate (l_call ej).
Proof.
  intros s0 Hck Hrun Hij Hi Hj Hti Htj Hd Hopen. destruct (fresh_storage dirs) as (Hok & _ & Hdef). fold s0 in Hok, Hdef.
  assert (Hcf : forall i db, drive_breakers s0 !! i = Some db -> exists n, closed_form db n).
  { intros k db Hk. exists 0. rewrite (Forall_lookup_1 _ _ _ _ Hdef Hk). apply closed_form_default. }
  clear Hdef. clearbody s0. revert i j s0 log Hij Hi Hj Hok Hcf Hrun Hd Hopen.
  induction Hck as [|c cs Hc Hcs IH]; intros i j s0 log Hij Hi Hj Hok Hcf Hrun Hd Hopen.
  { injection Hrun as <- <-. done. }
  destruct (run_calls_cons c cs s0 Hok) as (db & Hdb & Hstep).
  destruct (pair_step c (expert_view (c_id c) s0) db) as [[touched b'] db'] eqn:Ep.
  destruct Hstep as (s1 & Hb & Hok1 & Hrun'). rewrite Hrun' in Hrun.
  destruct (run_calls cs s1) as [[log1 s2]|] eqn:E1; [|done]. injection Hrun as <- <-.
  assert (Hidx : forall id, drive_index_for id s1 = drive_index_for id s0)
    by (intros id; unfold drive_index_for; by rewrite (bc_striped _ _ _ _ _ Hb)).
  destruct (Hcf _ _ Hdb) as [n Hn].
  destruct i as [|i], j as [|j]; try lia; simpl in Hi, Hj.
  - injection Hi as <-. simpl in *. subst touched.
    pose proof (later_read cs s1 log1 s2 (drive_index_for (c_id (l_call ej)) s1) (breaker_now_ms (t_drive_fail c)) j ej Hok1 Hcs
      (breaker_now_ms_pos _)) as Hl.
    pose proof (breaker_now_ms_eq (t_drive_fail c) (proj2 Hc)) as Hnow.
    assert (breaker_now_ms (t_drive_fail c) + 500 <= t_drive_gate (l_call ej)); [|lia].
    eapply Hl; [|done|exact Hj|reflexivity|done|].
    + intros dbj. rewrite (bc_drive _ _ _ _ _ Hb), Hidx, <-Hd.
      rewrite list_lookup_insert_eq by (by eapply lookup_lt_Some). intros [= <-] Ht.
      destruct (pair_step_drive _ _ _ _ _ _ _ Hn Ep) as [_ ->]; done.
    + intros m em Hm Hem Hdm. rewrite !Hidx in Hdm. apply (Hopen (S m) em); [lia|done|done].
  - eapply (IH i j s1 log1); eauto; try lia.
    + intros k dbk. rewrite (bc_drive _ _ _ _ _ Hb).
      intros [(_ & <- & _)|[_ Hk]]%list_lookup_insert_Some; [|by eapply Hcf].
      by apply (pair_step_drive _ _ _ _ _ _ _ Hn Ep).
    + rewrite !Hidx. done.
    + intros m em Hm Hem Hdm. rewrite !Hidx in Hdm. apply (Hopen (S m) em); [lia|done|done].
Qed.

(** ** The breaker's atomics under concurrency

    One breaker, shared by any number of threads.  A thread runs one of
    [note_read_success], [note_read_failure] and the gate of a reader that found
    the breaker open; each of its program points is one atomic instruction or one
    reading of the clock. *)

Inductive outcome := Succeeded | Failed (n : N) (just : bool) | Granted (now : N) | Refused | Closed.

Inductive point :=
| FailLoad                       (** [c.load] in [saturating_increment_u32] *)
| FailCas (cur : N)              (** the compare-exchange of its loop *)
| FailClock (n : N)              (** [breaker_now_ms()], the count having reached the threshold *)
| FailStamp (n now : N)          (** [tripped_at_ms.store(now)] *)
| FailSwap (n : N)               (** [tripped.swap(true)] *)
| SuccCount                      (** [consecutive_failures.store(0)] *)
| SuccSwap                       (** [tripped.swap(false)] *)
| SuccClear                      (** [tripped_at_ms.store(0)] *)
| ProbeTripped                   (** [tripped.load()] *)
| ProbeClock                     (** [breaker_now_ms()] *)
| ProbeLoad (now : N)            (** [tripped_at_ms.load()] *)
| ProbeCas (now last : N)        (** the check passed: the compare-exchange *)
| Done (o : outcome).

Definition with_count (n : N) (b : BreakerState) : BreakerState :=
  {| consecutive_failures := n; tripped := tripped b; tripped_at_ms := tripped_at_ms b |}.
Definition with_tripped (t : bool) (b : BreakerState) : BreakerState :=
  {| consecutive_failures := consecutive_failures b; tripped := t; tripped_at_ms := tripped_at_ms b |}.
Definition with_stamp (at_ms : N) (b : BreakerState) : BreakerState :=
  {| consecutive_failures := consecutive_failures b; tripped := tripped b; tripped_at_ms := at_ms |}.

(** What [note_read_failure] does with the incremented count. *)
Definition after_count (n : N) : point :=
  if STORAGE_BREAKER_THRESHOLD <=? n then FailClock n else Done (Failed n false).

(** The gate's early return. *)
Definition after_load (now last : N) : point :=
  if negb (last =? 0) && (sat_sub now last <? STORAGE_BREAKER_PROBE_INTERVAL)
  then Done Refused else ProbeCas now last.

Inductive thread_step (elapsed : N) : BreakerState -> point -> BreakerState -> point -> Prop :=
| do_fail_load b : thread_step elapsed b FailLoad b (FailCas (consecutive_failures b))
| do_fail_full b : thread_step elapsed b (FailCas u32_max) b (after_count u32_max)
| do_fail_cas b cur : cur <> u32_max -> consecutive_failures b = cur ->
    thread_step elapsed b (FailCas cur) (with_count (cur + 1) b) (after_count (cur + 1))
| do_fail_retry b cur : cur <> u32_max ->     (* lost the race, or a spurious failure *)
    thread_step elapsed b (FailCas cur) b (FailCas (consecutive_failures b))
| do_fail_clock b n : thread_step elapsed b (FailClock n) b (FailStamp n (breaker_now_ms elapsed))
| do_fail_stamp b n now : thread_step elapsed b (FailStamp n now) (with_stamp now b) (FailSwap n)
| do_fail_swap b n :
    thread_step elapsed b (FailSwap n) (with_tripped true b) (Done (Failed n (negb (tripped b))))
| do_succ_count b : thread_step elapsed b SuccCount (with_count 0 b) SuccSwap
| do_succ_swap b :
    thread_step elapsed b SuccSwap (with_tripped false b) (if tripped b then SuccClear else Done Succeeded)
| do_succ_clear b : thread_step elapsed b SuccClear (with_stamp 0 b) (Done Succeeded)
| do_probe_tripped b :
    thread_step elapsed b ProbeTripped b (if tripped b then ProbeClock else Done Closed)
| do_probe_clock b : thread_step elapsed b ProbeClock b (ProbeLoad (breaker_now_ms elapsed))
| do_probe_load b now :
    thread_step elapsed b (ProbeLoad now) b (after_load now (tripped_at_ms b))
| do_probe_win b now last : tripped_at_ms b = last ->
    thread_step elapsed b (ProbeCas now last) (with_stamp now b) (Done (Granted now))
| do_probe_lose b now last : tripped_at_ms b <> last ->
    thread_step elapsed b (ProbeCas now last) b (Done Refused).

(** [admissions]: the stamps of the probes admitted, the most recent first. *)
Record shared := { cell : BreakerState; elapsed : N; threads : list point; admissions : list N }.

Inductive shared_step : shared -> shared -> Prop :=
| tick w t : elapsed w <= t ->
    shared_step w {| cell := cell w; elapsed := t; threads := threads w; admissions := admissions w |}
| run_thread w i p b' p' :
    threads w !! i = Some p -> thread_step (elapsed w) (cell w) p b' p' ->
    shared_step w {| cell := b'; elapsed := elapsed w; threads := <[i := p']> (threads w);
                     admissions := match p' with Done (Granted now) => now :: admissions w
                                            | _ => admissions w end |}.

Definition start (b : BreakerState) (ps : list point) : shared :=
  {| cell := b; elapsed := 0; threads := ps; admissions := [] |}.

(** Rule induction for an invariant of the steps. *)
Lemma shared_invariant (I : shared -> Prop) w w' :
  I w -> (forall w w', I w -> shared_step w w' -> I w') -> rtc shared_step w w' -> I w'.
Proof. intros H0 Hstep H. induction H; eauto. Qed.

Lemma Forall_set {A} (P : A -> Prop) (l : list A) i x : Forall P l -> P x -> Forall P (<[i := x]> l).
Proof. intros. by apply Forall_insert. Qed.

(** *** Readers only *)

Definition probing (p : point) : Prop :=
  match p with
  | ProbeTripped | ProbeClock => True
  | ProbeLoad now => 1 <= now
  | ProbeCas now last => 1 <= now /\ (last = 0 \/ last + 500 <= now)
  | Done Refused | Done Closed => True
  | Done (Granted now) => 1 <= now
  | _ => False
  end.

Record probing_inv (at0 : N) (w : shared) : Prop := {
  pr_threads : Forall probing (threads w);
  pr_stamp : tripped_at_ms (cell w) = hd at0 (admissions w);
  pr_log : StronglySorted (fun x y => y + 500 <= x) (admissions w) /\
           Forall (fun x => 1 <= x /\ (at0 = 0 \/ at0 + 500 <= x)) (admissions w);
}.

Lemma probing_step at0 w w' : probing_inv at0 w -> shared_step w w' -> probing_inv at0 w'.
Proof.
  intros [Ht Hs [Hl Hf]] Hstep. destruct Hstep as [w t|w i p b' p' Hi Hst]; [by split|].
  pose proof (Forall_lookup_1 _ _ _ _ Ht Hi) as Hp.
  inversion Hst; subst; try done; simpl in Hp.
  - split; simpl; [apply Forall_set; [done|by case_match]|by case_match|by case_match].
  - split; simpl; [apply Forall_set; [done|apply breaker_now_ms_pos]|done|done].
  - unfold after_load, sat_sub, STORAGE_BREAKER_PROBE_INTERVAL.
    destruct (N.eqb_spec (tripped_at_ms (cell w)) 0), (N.ltb_spec (now - tripped_at_ms (cell w)) 500);
      (split; simpl; [apply Forall_set; [done|simpl; try done; lia]|done|done]).
  - destruct Hp as [Hnow Hgap]. split; simpl; [by apply Forall_set|done|].
    rewrite Hs in Hgap. clear Hs. destruct (admissions w) as [|x l]; simpl in *.
    + split; [by repeat constructor|]. by apply Forall_singleton.
    + inversion Hl as [|?? Hl' Hx]; subst. inversion Hf as [|?? [Hx1 Hx2] Hf']; subst.
      assert (x + 500 <= now) by lia. split; constructor; auto; [|lia].
      constructor; [done|]. eapply Forall_impl; [exact Hx|]. simpl. lia.
  - split; simpl; [by apply Forall_set|done|done].
Qed.

(** At most one probe per interval, whatever the interleaving: when any number of
    readers race through the gate of an open breaker (no read completing in the
    meantime), the stamps of the admitted ones are at least 500 ms apart, and the
    first is at least 500 ms after the trip. *)
Theorem concurrent_probes_spaced b n w :
  rtc shared_step (start b (replicate n ProbeTripped)) w ->
  StronglySorted (fun x y => y + 500 <= x) (admissions w) /\
  (tripped_at_ms b <> 0 -> Forall (fun x => tripped_at_ms b + 500 <= x) (admissions w)).
Proof.
  intros Hrtc. apply (shared_invariant (probing_inv (tripped_at_ms b))) in Hrtc.
  - destruct Hrtc as [_ _ [Hl Hf]]. split; [done|]. intros Hb. eapply Forall_impl; [exact Hf|]. simpl. intros x [_ [?|?]]; done.
  - split; simpl; [by apply Forall_replicate|done|by repeat constructor].
  - intros. by eapply probing_step.
Qed.

(** *** Failing reads and readers, no success *)

Definition sumf (f : point -> N) (l : list point) : N := sumN (f <$> l).

Lemma sumf_set f (l : list point) i p p' :
  l !! i = Some p -> sumf f (<[i := p']> l) + f p = sumf f l + f p'.
Proof. apply sumN_insert. Qed.

(** Threads past their increment, pending openings, and reports of an opening. *)
Definition counted (p : point) : N :=
  match p with FailClock _ | FailStamp _ _ | FailSwap _ | Done (Failed _ _) => 1 | _ => 0 end.
Definition pending (p : point) : N := match p with FailClock _ | FailStamp _ _ | FailSwap _ => 1 | _ => 0 end.
Definition reported (p : point) : N := match p with Done (Failed _ true) => 1 | _ => 0 end.

(** What the points reached without a success know of the breaker. *)
Definition failing (b : BreakerState) (p : point) : Prop :=
  match p with
  | FailCas cur => cur <= consecutive_failures b
  | FailClock n => 3 <= n <= consecutive_failures b
  | FailStamp n now => 3 <= n <= consecutive_failures b /\ 1 <= now
  | FailSwap n => 3 <= n <= consecutive_failures b /\ tripped_at_ms b <> 0
  | SuccCount | SuccSwap | SuccClear | Done Succeeded => False
  | ProbeLoad now | ProbeCas now _ => 1 <= now
  | _ => True
  end.

Record failing_inv (c0 : N) (w : shared) : Prop := {
  fi_threads : Forall (failing (cell w)) (threads w);
  fi_count : consecutive_failures (cell w) = N.min u32_max (c0 + sumf counted (threads w));
  fi_report : sumf reported (threads w) = if tripped (cell w) then 1 else 0;
  fi_stamp : tripped (cell w) = true -> tripped_at_ms (cell w) <> 0 /\ 3 <= consecutive_failures (cell w);
  fi_pending : 3 <= consecutive_failures (cell w) ->
    tripped (cell w) = true \/ 0 < sumf pending (threads w);
}.

(** The knowledge survives a larger counter and a stamp that stays non-zero. *)
Lemma failing_mono b b' p :
  consecutive_failures b <= consecutive_failures b' ->
  (tripped_at_ms b <> 0 -> tripped_at_ms b' <> 0) -> failing b p -> failing b' p.
Proof. intros Hc Hs. destruct p as [| | | | | | | | | | | |[]]; simpl; intros; try done; try lia; naive_solver lia. Qed.

Lemma Forall_failing b b' l i p' :
  consecutive_failures b <= consecutive_failures b' ->
  (tripped_at_ms b <> 0 -> tripped_at_ms b' <> 0) ->
  Forall (failing b) l -> failing b' p' -> Forall (failing b') (<[i := p']> l).
Proof.
  intros Hc Hs Hl Hp. apply Forall_set; [|done]. eapply Forall_impl; [exact Hl|]. intros q. by apply failing_mono.
Qed.

Ltac sums Hi p' :=
  pose proof (sumf_set counted _ _ _ p' Hi); pose proof (sumf_set pending _ _ _ p' Hi);
  pose proof (sumf_set reported _ _ _ p' Hi).

Lemma failing_step c0 w w' : failing_inv c0 w -> shared_step w w' -> failing_inv c0 w'.
Proof.
  intros [Ht Hc Hr Hs Hp] Hstep. destruct Hstep as [w t|w i p b' p' Hi Hst]; [by split|].
  pose proof (Forall_lookup_1 _ _ _ _ Ht Hi) as Hq. sums Hi p'.
  pose proof (Forall_failing (cell w) b' (threads w) i p') as Hset.
  assert (Hsat : consecutive_failures (cell w) <= u32_max) by lia.
  inversion Hst; subst; clear Hst; simpl in *; try done.
  all: unfold after_count, after_load, STORAGE_BREAKER_THRESHOLD, u32_max in *; try case_match; simpl in *; try done.
  all: pose proof (breaker_now_ms_pos (elapsed w)); rewrite ?N.leb_le, ?N.leb_gt in *.
  all: destruct (tripped (cell w)) eqn:Et; split; simpl in *; unfold u32_max in *; rewrite ?Et; try done.
  all: match goal with |- Forall _ _ => try (apply Hset; simpl; auto; naive_solver lia)
       | _ => try lia; try naive_solver lia end.
Qed.

(** [k] failing reads, then [n] readers. *)
Definition failing_threads (k n : nat) : list point := replicate k FailLoad ++ replicate n ProbeTripped.

Lemma sumf_replicate f k p : sumf f (replicate k p) = N.of_nat k * f p.
Proof. unfold sumf. induction k as [|k IH]; [done|]. cbn [replicate]. csimpl. rewrite IH. lia. Qed.

Lemma sumf_app f l k : sumf f (l ++ k) = sumf f l + sumf f k.
Proof. unfold sumf. by rewrite fmap_app, sumN_app. Qed.

Lemma failing_start c0 k n :
  c0 < 3 ->
  failing_inv c0 (start {| consecutive_failures := c0; tripped := false; tripped_at_ms := 0 |} (failing_threads k n)).
Proof.
  intros Hc. unfold failing_threads. split; simpl.
  - apply Forall_app. split; by apply Forall_replicate.
  - rewrite sumf_app, !sumf_replicate. simpl. unfold u32_max. lia.
  - rewrite sumf_app, !sumf_replicate. simpl. lia.
  - done.
  - lia.
Qed.

(** C24. Failures are never lost and the breaker opens exactly once, whatever the
    interleaving of any number of failing reads with any number of readers at the
    gate, starting from a closed breaker: no update of the counter is lost; an
    open breaker always carries a real stamp, so that no reader is let through at
    the instant of the trip; and when every failing read is done the breaker is
    open exactly if the counter reached the threshold, and exactly one of them
    reports having opened it. *)
Theorem concurrent_failures_exact c0 k n w :
  c0 < 3 ->
  rtc shared_step
    (start {| consecutive_failures := c0; tripped := false; tripped_at_ms := 0 |} (failing_threads k n)) w ->
  consecutive_failures (cell w) = N.min u32_max (c0 + sumf counted (threads w)) /\
  (tripped (cell w) = true -> tripped_at_ms (cell w) <> 0) /\
  (sumf counted (threads w) = N.of_nat k -> sumf pending (threads w) = 0 ->
     tripped (cell w) = (3 <=? c0 + N.of_nat k) /\
     sumf reported (threads w) = if 3 <=? c0 + N.of_nat k then 1 else 0).
Proof.
  intros Hc0 Hrtc. apply (shared_invariant (failing_inv c0)) in Hrtc.
  - destruct Hrtc as [_ Hc Hr Hs Hp]. split; [done|]. split; [naive_solver|]. intros Hk Hpend.
    rewrite Hk in Hc. rewrite Hr. unfold u32_max in Hc.
    destruct (N.leb_spec 3 (c0 + N.of_nat k)), (tripped (cell w)); try done.
    + destruct Hp as [?|?]; [lia|done|lia].
    + destruct Hs as [_ ?]; [done|lia].
  - by apply failing_start.
  - intros. by eapply failing_step.
Qed.

(** Running one thread, the state in normal form. *)
Lemma run_thread_then i w p b' p' w2 w3 :
  threads w !! i = Some p -> thread_step (elapsed w) (cell w) p b' p' ->
  {| cell := b'; elapsed := elapsed w; threads := <[i := p']> (threads w);
     admissions := match p' with Done (Granted now) => now :: admissions w | _ => admissions w end |} = w2 ->
  rtc shared_step w2 w3 -> rtc shared_step w w3.
Proof. intros Hi Hs <- Hr. eapply rtc_l; [by eapply run_thread|done]. Qed.

Lemma tick_then t w w2 w3 :
  elapsed w <= t -> {| cell := cell w; elapsed := t; threads := threads w; admissions := admissions w |} = w2 ->
  rtc shared_step w2 w3 -> rtc shared_step w w3.
Proof. intros Ht <- Hr. eapply rtc_l; [by apply tick|done]. Qed.

Ltac ticks t := eapply (tick_then t); [vm_compute; discriminate|vm_compute; reflexivity|].
Tactic Notation "thread" constr(i) "by" tactic1(tac) :=
  eapply (run_thread_then i); [reflexivity|tac|vm_compute; reflexivity|].

(** *** A success racing with a failure

    The stamp is cleared after [tripped] is: a failing read that opens the breaker
    between the two stores is left open with the stamp 0, the value that means
    "admit at once". *)
Example reset_can_clear_a_fresh_stamp :
  exists w, rtc shared_step
      (start {| consecutive_failures := 3; tripped := true; tripped_at_ms := 1 |}
         [SuccCount; FailLoad; ProbeTripped]) w /\
    elapsed w = 1000 /\ tripped (cell w) = true /\ tripped_at_ms (cell w) = 0 /\
    exists w', rtc shared_step w w' /\ elapsed w' = 1000 /\ admissions w' = [1000].
Proof.
  eexists. split.
  { ticks 1000.
    thread 1%nat by (apply do_fail_load).
    thread 1%nat by (apply do_fail_cas; [discriminate|reflexivity]).
    thread 1%nat by (apply do_fail_clock).
    thread 1%nat by (apply do_fail_stamp).
    thread 0%nat by (apply do_succ_count).
    thread 0%nat by (apply do_succ_swap).
    thread 1%nat by (apply do_fail_swap).
    thread 0%nat by (apply do_succ_clear).
    apply rtc_refl. }
  simpl. do 3 (split; [reflexivity|]). eexists. split.
  { thread 2%nat by (apply do_probe_tripped).
    thread 2%nat by (apply do_probe_clock).
    thread 2%nat by (apply do_probe_load).
    thread 2%nat by (apply do_probe_win; reflexivity).
    apply rtc_refl. }
  split; vm_compute; reflexivity.
Qed.

(** ** Examples *)

Module Witness.
Definition sample_call (id t : N) (dev : N -> result io_error N) : call :=
  {| c_id := id; c_len := 8; c_device := dev; t_drive_gate := t; t_expert_gate := t;
     t_expert_fail := t + 20; t_drive_fail := t + 20 |}.
Definition dead : N -> result io_error N := fun _ => Err (IoError TimedOut None None).
Definition broken : N -> result io_error N := fun _ => Err (IoError (OtherKind 1) None None).

(** Three failures open the drive of experts 0, 2, 4; the fourth call is refused,
    the fifth is the probe, the sixth is refused again. *)
Definition sample_calls : list call :=
  [sample_call 0 0 dead; sample_call 2 100 broken; sample_call 4 200 broken; sample_call 6 300 dead;
   sample_call 1 400 broken; sample_call 6 800 dead; sample_call 8 1000 dead].

Definition sample_run : list entry * NvmeStorage := Eval vm_compute in
  match run_calls sample_calls (default storage_new (striped 2)) with
  | Some r => r | None => ([], storage_new) end.

Lemma read_at_with_retries_spec_witness :
  exists s', read_at_with_retries (sample_call 3 0 dead) storage_new =
    Some (Err (from_failure (Transient 3 3 (IoError TimedOut None None))),
          [DeviceRead; Sleep 5; DeviceRead; Sleep 10; DeviceRead], s').
Proof.
  destruct (read_at_with_retries_spec (sample_call 3 0 dead) storage_new) as (db & r & tr & s' & Hdb & Hr & He & Hp);
    [reflexivity|].
  injection Hdb as <-. exists s'. rewrite Hr, He. destruct Hp as (_ & _ & ->). vm_compute. reflexivity.
Defined.

Lemma probes_are_rate_limited_witness :
  l_touched <$> fst sample_run = [true; true; true; false; true; true; false] /\
  220 + 500 <= t_drive_gate (sample_call 6 800 dead).
Proof.
  split; [vm_compute; reflexivity|].
  change (t_drive_fail (l_call {| l_call := sample_call 4 200 broken; l_open := false; l_touched := true |}) + 500
    <= t_drive_gate (l_call {| l_call := sample_call 6 800 dead; l_open := true; l_touched := true |})).
  apply (probes_are_rate_limited 2 sample_calls (fst sample_run) (snd sample_run) 2 5).
  - repeat apply Forall_cons_2; try apply Forall_nil_2; split; vm_compute; discriminate.
  - vm_compute. reflexivity.
  - lia.
  - vm_compute. reflexivity.
  - vm_compute. reflexivity.
  - reflexivity.
  - reflexivity.
  - vm_compute. reflexivity.
  - intros [|[|[|[|[|[|m]]]]]] em Hm Hem; try lia; injection Hem as <-; vm_compute; congruence.
Defined.

Lemma concurrent_probes_spaced_witness :
  exists w, admissions w = [600] /\ StronglySorted (fun x y => y + 500 <= x) (admissions w).
Proof.
  assert (H : exists w, rtc shared_step
    (start {| consecutive_failures := 3; tripped := true; tripped_at_ms := 100 |} (replicate 2 ProbeTripped)) w /\
    admissions w = [600]).
  { eexists. split.
    { ticks 600.
      do 2 (thread 0%nat by (constructor)).
      do 2 (thread 1%nat by (constructor)).
      thread 0%nat by (apply do_probe_load).
      thread 1%nat by (apply do_probe_load).
      thread 0%nat by (apply do_probe_win; reflexivity).
      thread 1%nat by (apply do_probe_lose; vm_compute; discriminate).
      apply rtc_refl. }
    vm_compute. reflexivity. }
  destruct H as (w & Hw & Ha). exists w. split; [exact Ha|]. exact (proj1 (concurrent_probes_spaced _ 2 w Hw)).
Defined.

Lemma concurrent_failures_exact_witness :
  exists w, consecutive_failures (cell w) = 4294967295 `min` (2 + sumf counted (threads w)) /\
    tripped (cell w) = true.
Proof.
  assert (H : exists w, rtc shared_step
    (start {| consecutive_failures := 2; tripped := false; tripped_at_ms := 0 |} (failing_threads 1 0)) w /\
    tripped (cell w) = true).
  { eexists. split.
    { thread 0%nat by (apply do_fail_load).
      thread 0%nat by (apply do_fail_cas; [discriminate|reflexivity]).
      thread 0%nat by (apply do_fail_clock).
      thread 0%nat by (apply do_fail_stamp).
      thread 0%nat by (apply do_fail_swap).
      apply rtc_refl. }
    reflexivity. }
  destruct H as (w & Hw & Ht). exists w. split; [|exact Ht].
  exact (proj1 (concurrent_failures_exact 2 1 0 w eq_refl Hw)).
Defined.

(** The drive's probe interval is spent on an expert whose own gate refuses: the
    device is not read, yet the drive's stamp advances. *)
Definition both_open : NvmeStorage :=
  {| num_striped := 0;
     breakers := {[ 7 := {| consecutive_failures := 3; tripped := true; tripped_at_ms := 900 |} ]};
     drive_breakers := [{| consecutive_failures := 3; tripped := true; tripped_at_ms := 400 |}] |}.

Example drive_probe_spent_without_a_read :
  exists s', read_at_with_retries (sample_call 7 1000 dead) both_open =
      Some (Err (from_failure (ExpertUnavailable 7 3)), [], s') /\
    tripped_at_ms <$> drive_breakers s' = [1000].
Proof. eexists. split; [reflexivity|]. vm_compute. reflexivity. Qed.
End Witness.
