(* ===== verification/Packed.v ===== *)
(** The packed blob ([src/rust-engine/src/packed_storage.rs]) and the batched reads
    that go through it ([pack_experts], [read_experts_batch_packed], [read_run] of
    [src/rust-engine/src/io_provider.rs]).

    The blob is the byte list of its file.  What the system answers to [preadv] and
    to the attempts of a [pread] is an input of the definitions; a successful answer
    delivers the file's bytes, a failed one may leave anything in the buffer. *)
From S2P Require Import Prelude Breaker.
Local Open Scope N_scope.

(** ** The manifest *)

Record PackedEntry := { offset : N; len : N }.
#[export] Instance PackedEntry_eq_dec : EqDecision PackedEntry.
Proof. solve_decision. Defined.

Record PackedManifest := {
  block_align : N;
  expert_size : N;
  entries : gmap N PackedEntry;
  order : list N;
}.

(** The [u64] products wrap. *)
Definition uniform (order : list N) (expert_size block_align : N) : PackedManifest :=
  {| block_align := block_align; expert_size := expert_size;
     entries := foldl (fun es p => <[snd p := {| offset := wrap_mul u64_max (N.of_nat (fst p)) expert_size;
                                                 len := expert_size |}]> es)
                  ∅ (imap pair order);
     order := order |}.

Definition blob_len (m : PackedManifest) : N :=
  foldr N.max 0 ((fun e => wrap_add u64_max (offset (snd e)) (len (snd e))) <$> map_to_list (entries m)).

Inductive ManifestError :=
| ZeroExpertSize
| BadLen (id : N)
| BadOffset (id : N)
| Truncated.

Fixpoint validate_entries (size : N) (es : list (N * PackedEntry)) : result ManifestError unit :=
  match es with
  | [] => Ok tt
  | (id, e) :: es' =>
      if negb (len e =? size) then Err (BadLen id) else
      if negb (offset e mod size =? 0) then Err (BadOffset id) else
      validate_entries size es'
  end.

(** The entries are met in the map's iteration order, which [map_to_list] fixes. *)
Definition validate (m : PackedManifest) : result ManifestError unit :=
  match map_to_list (entries m) with
  | [] => Ok tt
  | es => if expert_size m =? 0 then Err ZeroExpertSize else validate_entries (expert_size m) es
  end.

Record PackedBlob := { file : list byte; manifest : PackedManifest }.

Definition blob_validate (b : PackedBlob) : result ManifestError unit :=
  match validate (manifest b) with
  | Err e => Err e
  | Ok _ => if N.of_nat (length (file b)) <? blob_len (manifest b) then Err Truncated else Ok tt
  end.

(** [PackedBlob::entry]. *)
Definition entry (b : PackedBlob) (id : N) : option PackedEntry := entries (manifest b) !! id.

(** ** Contiguous runs *)

Record ContiguousRun := { start_offset : N; total_len : N; members : list (N * nat) }.

Definition request : Type := N * nat * PackedEntry.
Definition r_entry (r : request) : PackedEntry := snd r.
Definition r_member (r : request) : N * nat := fst r.
Definition entry_end (e : PackedEntry) : N := wrap_add u64_max (offset e) (len e).

Definition run_of (r : request) : ContiguousRun :=
  {| start_offset := offset (r_entry r); total_len := len (r_entry r); members := [r_member r] |}.

(** One iteration: the closed runs, the current one and its end. *)
Definition coalesce_step (st : list ContiguousRun * ContiguousRun * N) (r : request)
    : list ContiguousRun * ContiguousRun * N :=
  let '(runs, cur, cur_end) := st in
  if offset (r_entry r) =? cur_end then
    (runs,
     {| start_offset := start_offset cur; total_len := wrap_add u64_max (total_len cur) (len (r_entry r));
        members := members cur ++ [r_member r] |},
     entry_end (r_entry r))
  else (runs ++ [cur], run_of r, entry_end (r_entry r)).

Definition coalesce_runs (requested : list request) : list ContiguousRun :=
  match sort_by_key (fun r => offset (r_entry r)) requested with
  | [] => []
  | r :: rest =>
      let '(runs, cur, _) := foldl coalesce_step ([], run_of r, entry_end (r_entry r)) rest in
      runs ++ [cur]
  end.

(** ** Reading *)

(** What a per-expert read meets: the device's answers and the clock's readings of
    [Breaker.call], and the bytes a failed read leaves behind. *)
Record pread_env := { p_call : call; p_left : list byte }.

(** What the system does with a batch: the answer of [preadv] at an offset ([None]
    is -1), the bytes a failed one leaves in a buffer, and the per-expert reads by
    request index. *)
Record batch_env := {
  preadv : N -> option N;
  preadv_left : nat -> list byte;
  preads : nat -> pread_env;
}.

(** Overwrite a buffer, whose length is fixed. *)
Definition overwrite (src buf : list byte) : list byte := take (length buf) (src ++ drop (length src) buf).

(** [read_at_with_retries] on the blob at [off] into [bufs[idx]]. *)
Definition read_member (b : PackedBlob) (env : pread_env) (id off : N) (idx : nat)
    (bufs : list (list byte)) (s : NvmeStorage) : option (result io_error N * list (list byte) * NvmeStorage) :=
  buf ← bufs !! idx;
  let c := {| c_id := id; c_len := N.of_nat (length buf); c_device := c_device (p_call env);
              t_drive_gate := t_drive_gate (p_call env); t_expert_gate := t_expert_gate (p_call env);
              t_expert_fail := t_expert_fail (p_call env); t_drive_fail := t_drive_fail (p_call env) |} in
  '(r, _, s) ← read_at_with_retries c s;
  let buf' := match r with
              | Ok n => overwrite (slice (N.to_nat off) (N.to_nat n) (file b)) buf
              | Err _ => overwrite (p_left env) buf
              end in
  Some (r, <[idx := buf']> bufs, s).

Definition packed_offset (b : PackedBlob) (id : N) : N :=
  match entry b id with Some e => offset e | None => u64_max end.

(** The loop over a run's members; [?] leaves at the first error. *)
Fixpoint read_members (b : PackedBlob) (env : batch_env) (ms : list (N * nat)) (total : N)
    (bufs : list (list byte)) (s : NvmeStorage) : option (result io_error N * list (list byte) * NvmeStorage) :=
  match ms with
  | [] => Some (Ok total, bufs, s)
  | (id, idx) :: ms' =>
      '(r, bufs, s) ← read_member b (preads env idx) id (packed_offset b id) idx bufs s;
      match r with
      | Ok n => read_members b env ms' (wrap_add usize_max total n) bufs s
      | Err e => Some (Err e, bufs, s)
      end
  end.

(** What a [preadv] that transfers [n] bytes from [pos] leaves in the buffers of the
    iovecs. *)
Fixpoint scatter (blob : list byte) (pos n : nat) (ms : list (N * nat)) (bufs : list (list byte))
    : option (list (list byte)) :=
  match ms with
  | [] => Some bufs
  | (_, idx) :: ms' =>
      buf ← bufs !! idx;
      let k := Nat.min n (length buf) in
      scatter blob (pos + k) (n - k) ms' (<[idx := overwrite (slice pos k blob) buf]> bufs)
  end.

(** What a failed [preadv] leaves there. *)
Definition scribble (env : batch_env) (ms : list (N * nat)) (bufs : list (list byte)) : list (list byte) :=
  foldl (fun bufs m => alter (overwrite (preadv_left env (snd m))) (snd m) bufs) bufs ms.

Definition IOV_MAX_SAFE : nat := 512.

Fixpoint note_all (ms : list (N * nat)) (s : NvmeStorage) : option NvmeStorage :=
  match ms with
  | [] => Some s
  | (id, _) :: ms' => s ← note_read_success id s; note_all ms' s
  end.

Definition read_run (b : PackedBlob) (env : batch_env) (run : ContiguousRun)
    (bufs : list (list byte)) (s : NvmeStorage) : option (result io_error N * list (list byte) * NvmeStorage) :=
  if (length (members run) =? 1)%nat || (IOV_MAX_SAFE <? length (members run))%nat
  then read_members b env (members run) 0 bufs s else
  let want := total_len run in
  match preadv env (start_offset run) with
  | Some n =>
      bufs ← scatter (file b) (N.to_nat (start_offset run)) (N.to_nat n) (members run) bufs;
      if n =? want then s ← note_all (members run) s; Some (Ok want, bufs, s)
      else read_members b env (members run) 0 bufs s
  | None => read_members b env (members run) 0 (scribble env (members run) bufs) s
  end.

Fixpoint read_runs (b : PackedBlob) (env : batch_env) (runs : list ContiguousRun) (total : N)
    (bufs : list (list byte)) (s : NvmeStorage) : option (result io_error N * list (list byte) * NvmeStorage) :=
  match runs with
  | [] => Some (Ok total, bufs, s)
  | run :: runs' =>
      '(r, bufs, s) ← read_run b env run bufs s;
      match r with
      | Ok n => read_runs b env runs' (wrap_add usize_max total n) bufs s
      | Err e => Some (Err e, bufs, s)
      end
  end.

(** [io::ErrorKind::NotFound]. *)
Definition not_found : io_error := IoError (OtherKind 0) None None.

Definition resolve (b : PackedBlob) (ids : list N) : option (list request) :=
  mapM (fun p => e ← entry b (snd p); Some (snd p, fst p, e)) (imap pair ids).

Definition read_experts_batch_packed (b : PackedBlob) (env : batch_env) (ids : list N)
    (bufs : list (list byte)) (s : NvmeStorage) : option (result io_error N * list (list byte) * NvmeStorage) :=
  match resolve b ids with
  | None => Some (Err not_found, bufs, s)
  | Some requested => read_runs b env (coalesce_runs requested) 0 bufs s
  end.

(** [read_experts_batch] of a packed storage; [None] is the failed [assert_eq!]. *)
Definition read_experts_batch (b : PackedBlob) (env : batch_env) (ids : list N)
    (bufs : list (list byte)) (s : NvmeStorage) : option (result io_error N * list (list byte) * NvmeStorage) :=
  if negb (length ids =? length bufs)%nat then None else
  match ids with
  | [] => Some (Ok 0, bufs, s)
  | _ => read_experts_batch_packed b env ids bufs s
  end.

(** [read_expert] of a packed storage. *)
Definition read_expert (b : PackedBlob) (env : pread_env) (id : N) (buf : list byte) (s : NvmeStorage)
    : option (result io_error N * list (list byte) * NvmeStorage) :=
  match entry b id with
  | None => Some (Err not_found, [buf], s)
  | Some e => read_member b env id (offset e) 0 [buf] s
  end.

(** ** Packing *)

Inductive PackError := DuplicateExpert (id : N) | SourceError (e : io_error).

(** The loop of [pack_experts], over what [source.read_expert] answers. *)
Fixpoint pack_loop (source : N -> result io_error (list byte)) (ids : list N) (seen : gset N) (blob : list byte)
    : result PackError (list byte) :=
  match ids with
  | [] => Ok blob
  | id :: ids' =>
      if decide (id ∈ seen) then Err (DuplicateExpert id) else
      match source id with
      | Err e => Err (SourceError e)
      | Ok payload => pack_loop source ids' ({[id]} ∪ seen) (blob ++ payload)
      end
  end.

Definition pack_experts (source : N -> result io_error (list byte)) (ids : list N) (size align : N)
    : result PackError PackedBlob :=
  match pack_loop source ids ∅ [] with
  | Err e => Err e
  | Ok blob => Ok {| file := blob; manifest := uniform ids size align |}
  end.

(** ** The manifest, validated *)

Lemma validate_entries_ok size es :
  validate_entries size es = Ok tt <-> Forall (fun p => len (snd p) = size /\ offset (snd p) mod size = 0) es.
Proof.
  induction es as [|[id e] es IH]; simpl; [done|]. rewrite Forall_cons, <-IH. simpl.
  case_N; simpl; intuition congruence.
Qed.

Lemma elem_le_max x (l : list N) : x ∈ l -> x <= foldr N.max 0 l.
Proof. induction 1; simpl; lia. Qed.

Lemma max_le_all (l : list N) b : Forall (fun x => x <= b) l -> foldr N.max 0 l <= b.
Proof. induction 1; simpl; lia. Qed.

(** Every slot lies in the file and holds one expert, where no slot's end wraps. *)
Definition slots_fit (m : PackedManifest) : Prop :=
  forall id e, entries m !! id = Some e -> offset e + len e <= u64_max.

Lemma blob_validate_slots b id e :
  blob_validate b = Ok tt -> slots_fit (manifest b) -> entry b id = Some e ->
  len e = expert_size (manifest b) /\ offset e mod expert_size (manifest b) = 0 /\
  offset e + len e <= N.of_nat (length (file b)) /\ 0 < expert_size (manifest b).
Proof.
  unfold blob_validate, validate, entry. intros Hv Hfit He.
  assert (Hin : (id, e) ∈ map_to_list (entries (manifest b))) by by apply elem_of_map_to_list.
  assert (Hmax : offset e + len e <= blob_len (manifest b)).
  { unfold blob_len. apply elem_le_max, list_elem_of_fmap. exists (id, e). split; [|done]. simpl.
    symmetry. apply wrap_add_small. by eapply Hfit. }
  destruct (map_to_list (entries (manifest b))) as [|p es] eqn:El; [by apply elem_of_nil in Hin|].
  rewrite <-El in *. destruct (N.eqb_spec (expert_size (manifest b)) 0); [done|].
  destruct (validate_entries _ _) as [[]|] eqn:Hes; [|done]. apply validate_entries_ok in Hes.
  destruct (N.ltb_spec (N.of_nat (length (file b))) (blob_len (manifest b))); [done|].
  rewrite Forall_forall in Hes. destruct (Hes (id, e) Hin) as [Hl Ho]. simpl in *.
  split_and!; [done|done|lia|lia].
Qed.

Lemma slots_fit_check m :
  forallb (fun p => offset (snd p) + len (snd p) <=? u64_max) (map_to_list (entries m)) = true -> slots_fit m.
Proof.
  rewrite forallb_forall. intros H id e He. apply N.leb_le, (H (id, e)).
  by apply list_elem_of_In, elem_of_map_to_list.
Qed.

(** Without that bound the check passes: a slot that ends past 2^64 counts as short. *)
Example wrapping_manifest_accepted :
  let e := {| offset := 18446744073709547520; len := 4096 |} in
  blob_validate {| file := []; manifest :=
    {| block_align := 4096; expert_size := 4096; entries := {[7 := e]}; order := [7] |} |} = Ok tt.
Proof. vm_compute. reflexivity. Qed.

(** *** Uniform manifests *)

Lemma uniform_entries ids size align id e :
  NoDup ids -> N.of_nat (length ids) * size <= u64_max ->
  entries (uniform ids size align) !! id = Some e <->
  exists i, ids !! i = Some id /\ e = {| offset := N.of_nat i * size; len := size |}.
Proof.
  intros Hnd. unfold uniform. cbn [entries]. revert id e. induction ids as [|x ids IH] using rev_ind; intros id e Hb.
  { simpl. split; [by intros ?%lookup_empty_Some|intros (i & Hi & _); by rewrite lookup_nil in Hi]. }
  apply NoDup_app in Hnd as (Hnd & Hx & _). rewrite length_app in Hb. simpl in Hb.
  rewrite imap_app, foldl_app. simpl. rewrite Nat.add_0_r, wrap_mul_small by lia.
  destruct (decide (id = x)) as [->|Hne].
  - rewrite lookup_insert_eq. split.
    + intros [= <-]. exists (length ids). by rewrite lookup_app_r, Nat.sub_diag.
    + intros (i & [Hi|[Hi1 Hi2]]%lookup_app_Some & ->); [|apply list_lookup_singleton_Some in Hi2 as [Hi2 _]; by assert (i = length ids) as -> by lia].
      exfalso. apply (Hx x); [by eapply list_elem_of_lookup_2|by apply list_elem_of_singleton].
  - rewrite lookup_insert_ne by done. rewrite IH by (done || lia). split; intros (i & Hi & ->); exists i; (split; [|done]).
    + by apply lookup_app_l_Some.
    + apply lookup_app_Some in Hi as [Hi|[Hi1 Hi2]]; [done|]. by apply list_lookup_singleton_Some in Hi2 as [_ ->].
Qed.

(** ** Coalescing *)

(** Two requests whose slots touch. *)
Definition touches (r r' : request) : Prop := offset (r_entry r') = entry_end (r_entry r).
(** Two groups that cannot be one run. *)
Definition apart (g g' : list request) : Prop :=
  forall r r', last g = Some r -> head g' = Some r' -> ~ touches r r'.

Definition run_of_group (g : list request) : ContiguousRun :=
  {| start_offset := match g with r :: _ => offset (r_entry r) | [] => 0 end;
     total_len := sumN ((fun r => len (r_entry r)) <$> g) mod (u64_max + 1);
     members := r_member <$> g |}.

Lemma Sorted_snoc_last {A} (R : A -> A -> Prop) l x :
  Sorted R l -> (forall y, last l = Some y -> R y x) -> Sorted R (l ++ [x]).
Proof.
  intros Hs Hl. apply Sorted_snoc; [done|]. destruct l as [|y l] using rev_ind; [constructor|].
  constructor. apply Hl. by rewrite last_snoc.
Qed.

Lemma Sorted_snoc_inv {A} (R : A -> A -> Prop) l x :
  Sorted R (l ++ [x]) -> Sorted R l /\ (forall y, last l = Some y -> R y x).
Proof.
  induction l as [|z l IH]; intros Hs; [split; [constructor|done]|].
  simpl in Hs. apply Sorted_inv in Hs as [Hs Hz]. destruct (IH Hs) as [Hl Hlast].
  destruct l as [|w l].
  - split; [by repeat constructor|]. intros y [= <-]. by inversion Hz.
  - split; [|exact Hlast]. constructor; [done|]. constructor. by inversion Hz.
Qed.

Record groups_ok (rs : list request) (gs : list (list request)) : Prop := {
  go_concat : concat gs = rs;
  go_groups : Forall (fun g => g <> [] /\ Sorted touches g) gs;
  go_apart : Sorted apart gs;
}.

Lemma run_of_group_snoc g r :
  g <> [] -> run_of_group (g ++ [r]) =
  {| start_offset := start_offset (run_of_group g);
     total_len := wrap_add u64_max (total_len (run_of_group g)) (len (r_entry r));
     members := members (run_of_group g) ++ [r_member r] |}.
Proof.
  intros Hg. unfold run_of_group, wrap_add. cbn [start_offset total_len members]. f_equal.
  - by destruct g.
  - rewrite fmap_app, sumN_app. simpl. rewrite N.add_0_r. by rewrite N.Div0.add_mod_idemp_l.
  - by rewrite fmap_app.
Qed.

Lemma coalesce_fold r rest :
  Forall (fun r => len (r_entry r) <= u64_max) (r :: rest) ->
  exists gs g, foldl coalesce_step ([], run_of r, entry_end (r_entry r)) rest =
      (run_of_group <$> gs, run_of_group g, default 0 ((fun r => entry_end (r_entry r)) <$> last g)) /\
    groups_ok (r :: rest) (gs ++ [g]).
Proof.
  induction rest as [|x rest IH] using rev_ind; intros Hlen.
  { exists [], [r]. split; [|split; simpl; [done|apply Forall_singleton; split; [done|by repeat constructor]|by repeat constructor]].
    apply Forall_cons_1 in Hlen as [Hr _]. simpl. unfold run_of, run_of_group. simpl.
    rewrite N.add_0_r, N.mod_small by lia. done. }
  rewrite app_comm_cons in *. apply Forall_app in Hlen as [Hlen [Hx _]%Forall_cons_1].
  destruct (IH Hlen) as (gs & g & Hf & [Hc Hg Ha]). clear IH.
  apply Forall_app in Hg as [Hgs [[Hgne Hgs'] _]%Forall_cons_1].
  destruct (exists_last Hgne) as (g' & y & ->). rewrite last_snoc in Hf. simpl in Hf.
  rewrite foldl_app, Hf. cbn [foldl]. unfold coalesce_step. cbn [r_entry snd].
  destruct (N.eqb_spec (offset (r_entry x)) (entry_end (r_entry y))) as [Ht|Ht].
  - exists gs, ((g' ++ [y]) ++ [x]). rewrite (run_of_group_snoc (g' ++ [y]) x), last_snoc by (by destruct g'). split; [done|].
    split.
    + rewrite <-Hc, !concat_app. simpl. by rewrite !app_nil_r, !app_assoc.
    + apply Forall_app. split; [done|]. apply Forall_singleton. split; [by destruct g'|].
      apply Sorted_snoc_last; [done|]. rewrite last_snoc. by intros ? [= <-].
    + apply Sorted_snoc_last.
      * apply (Sorted_snoc_inv _ _ _ Ha).
      * intros h Hh a b Hla Hhd. apply (proj2 (Sorted_snoc_inv _ _ _ Ha) h Hh a b Hla). by destruct g'.
  - exists (gs ++ [g' ++ [y]]), [x]. split.
    { simpl. rewrite fmap_app. do 2 f_equal. unfold run_of, run_of_group. simpl.
      rewrite N.add_0_r. by rewrite N.mod_small by lia. }
    split.
    + rewrite concat_app, Hc. simpl. done.
    + apply Forall_app. split; [apply Forall_app; by rewrite Forall_singleton|]. apply Forall_singleton.
      split; [done|by repeat constructor].
    + apply Sorted_snoc_last; [done|]. intros h Hh. rewrite last_snoc in Hh. injection Hh as <-.
      intros a b Hla [= <-]. rewrite last_snoc in Hla. injection Hla as <-. done.
Qed.

(** Coalescing a batch.  The runs are the requests in ascending order of offset,
    requests of one offset in request order, cut into groups: in a group every slot
    starts where the one before it ends, and no group could be joined to the next.
    A run starts at its first slot and spans the sum of its lengths. *)
Theorem coalesce_runs_spec requested :
  Forall (fun r => len (r_entry r) <= u64_max) requested ->
  exists gs, coalesce_runs requested = run_of_group <$> gs /\
    concat gs = sort_by_key (fun r => offset (r_entry r)) requested /\
    concat gs ≡ₚ requested /\ StronglySorted (key_le (fun r => offset (r_entry r))) (concat gs) /\
    Forall (fun g => g <> [] /\ Sorted touches g) gs /\ Sorted apart gs.
Proof.
  intros Hlen. pose proof (sort_by_key_perm (fun r => offset (r_entry r)) requested) as Hp.
  pose proof (sort_by_key_sorted (fun r => offset (r_entry r)) requested) as Hs.
  rewrite <-Hp in Hlen. unfold coalesce_runs.
  destruct (sort_by_key _ requested) as [|r rest] eqn:E.
  - exists []. simpl. split_and!; try done; constructor.
  - destruct (coalesce_fold r rest Hlen) as (gs & g & -> & [Hc Hg Ha]). exists (gs ++ [g]).
    rewrite fmap_app, Hc. done.
Qed.

(** ** Reading a validated blob *)

(** The bytes of an expert's slot. *)
Definition slot (b : PackedBlob) (id : N) : list byte :=
  match entry b id with Some e => slice (N.to_nat (offset e)) (N.to_nat (len e)) (file b) | None => [] end.

(** No breaker is open. *)
Definition all_closed (s : NvmeStorage) : Prop :=
  (forall id, tripped (expert_view id s) = false) /\ Forall (fun db => tripped db = false) (drive_breakers s).

(** Every per-expert read the batch may make delivers a whole slot at its first attempt. *)
Definition healthy (size : nat) (env : batch_env) : Prop :=
  forall idx, c_device (p_call (preads env idx)) 0 = Ok (N.of_nat size).

Lemma length_overwrite src buf : length (overwrite src buf) = length buf.
Proof. unfold overwrite. rewrite length_take, length_app, length_drop. lia. Qed.

Lemma overwrite_all src buf : length src = length buf -> overwrite src buf = src.
Proof. intros H. unfold overwrite. rewrite drop_ge by lia. rewrite app_nil_r. apply take_ge. lia. Qed.

Lemma all_closed_becomes id b db s s' :
  becomes id b db s s' -> tripped b = false -> tripped db = false -> all_closed s -> all_closed s'.
Proof.
  intros [_ He Hd] Hb Hdb [Hc1 Hc2]. split.
  - intros id'. rewrite He. case_decide; [done|apply Hc1].
  - rewrite Hd. by apply Forall_insert.
Qed.

Lemma note_read_success_closed id s :
  storage_ok s -> exists s', note_read_success id s = Some s' /\ storage_ok s' /\ (all_closed s -> all_closed s').
Proof.
  intros Hok. destruct (lookup_lt_is_Some_2 _ _ (drive_index_lt id s Hok)) as [db Hdb].
  destruct (note_read_success_becomes id s db Hdb) as (s' & Hs & Hb). exists s'. split; [done|].
  split; [by eapply becomes_ok|]. by apply (all_closed_becomes _ _ _ _ _ Hb).
Qed.

Lemma note_all_closed ms s :
  storage_ok s -> exists s', note_all ms s = Some s' /\ storage_ok s' /\ (all_closed s -> all_closed s').
Proof.
  revert s. induction ms as [|[id idx] ms IH]; intros s Hok; simpl; [by exists s|].
  destruct (note_read_success_closed id s Hok) as (s1 & -> & Hok1 & Hc1). simpl.
  destruct (IH s1 Hok1) as (s2 & -> & Hok2 & Hc2). exists s2. auto.
Qed.

(** One read through the breakers: a full length or an error, and a full length when
    nothing stands in the way. *)
Lemma read_call_length c s :
  storage_ok s ->
  exists r tr s', read_at_with_retries c s = Some (r, tr, s') /\ storage_ok s' /\
    (forall n, r = Ok n -> n = c_len c) /\
    (c_device c 0 = Ok (c_len c) -> all_closed s -> is_ok r = true /\ all_closed s').
Proof.
  intros Hok. destruct (lookup_lt_is_Some_2 _ _ (drive_index_lt (c_id c) s Hok)) as [db Hdb].
  destruct (read_becomes c s db Hdb) as (tr & s' & -> & Hp). do 3 eexists. split; [done|].
  split; [destruct (pair_step _ _ _) as [[touched b'] db']; destruct Hp as [Hb _]; by eapply becomes_ok|].
  split; [clear Hp; unfold expected_answer; intros n; repeat case_match; congruence|].
  intros Hdev [Hc1 Hc2].
  assert (Ht : tripped db = false) by exact (Forall_lookup_1 _ _ _ _ Hc2 Hdb).
  unfold pair_step, expected_answer, gate, call_ok, last_attempt, decided in *.
  rewrite Hdev, (Hc1 (c_id c)), Ht in *. cbn [negb fst snd] in *. rewrite Hdev, N.eqb_refl in *.
  destruct Hp as [Hb _]. split; [done|]. by apply (all_closed_becomes _ _ _ _ _ Hb).
Qed.

Section reading.
Context (b : PackedBlob) (env : batch_env) (size : nat).
Hypothesis slots_in_file : forall id e,
  entry b id = Some e -> len e = N.of_nat size /\ offset e + N.of_nat size <= N.of_nat (length (file b)).
Hypothesis file_fits : N.of_nat (length (file b)) <= u64_max.

Local Definition outcome : Type := option (result io_error N * list (list byte) * NvmeStorage).

Definition sized (bufs : list (list byte)) : Prop := Forall (fun buf => length buf = size) bufs.

(** A request that can be read into [bufs]. *)
Definition readable (bufs : list (list byte)) (m : N * nat) : Prop :=
  is_Some (entry b (fst m)) /\ (snd m < length bufs)%nat.

(** [o] is what reading [ms] may end in, having transferred [total] bytes before: no
    panic, no other buffer touched, and on success every slot in its buffer. *)
Definition reads_ok (ms : list (N * nat)) (total : N) (bufs : list (list byte)) (s : NvmeStorage) (o : outcome) : Prop :=
  exists r bufs' s', o = Some (r, bufs', s') /\ storage_ok s' /\ sized bufs' /\ length bufs' = length bufs /\
    (forall i, i ∉ ms.*2 -> bufs' !! i = bufs !! i) /\
    (forall n, r = Ok n -> n = total + N.of_nat (size * length ms) /\
       forall id idx, (id, idx) ∈ ms -> bufs' !! idx = Some (slot b id)) /\
    (healthy size env -> all_closed s -> is_ok r = true /\ all_closed s').

Lemma slot_eq id e : entry b id = Some e -> slot b id = slice (N.to_nat (offset e)) size (file b).
Proof. intros He. unfold slot. rewrite He. destruct (slots_in_file id e He) as [-> _]. by rewrite Nat2N.id. Qed.

Lemma length_slot id : is_Some (entry b id) -> length (slot b id) = size.
Proof.
  intros [e He]. rewrite (slot_eq id e He). destruct (slots_in_file id e He).
  unfold slice. rewrite length_take, length_drop. lia.
Qed.

(** Two batches one after the other. *)
Lemma reads_ok_bind ms1 ms2 total bufs s o (k : N -> list (list byte) -> NvmeStorage -> outcome) :
  NoDup (ms1 ++ ms2).*2 ->
  total + N.of_nat (size * length (ms1 ++ ms2)) <= usize_max ->
  reads_ok ms1 0 bufs s o ->
  (forall bufs' s', storage_ok s' -> sized bufs' -> length bufs' = length bufs ->
     let total' := total + N.of_nat (size * length ms1) in reads_ok ms2 total' bufs' s' (k total' bufs' s')) ->
  reads_ok (ms1 ++ ms2) total bufs s
    ('(r, bufs, s) ← o; match r with Ok n => k (wrap_add usize_max total n) bufs s | Err e => Some (Err e, bufs, s) end).
Proof.
  intros Hnd Hb (r & bufs1 & s1 & -> & Hok1 & Hsz1 & Hl1 & Hf1 & Hr1 & Hh1) Hk. cbn [mbind option_bind].
  rewrite fmap_app in Hnd. rewrite length_app, Nat.mul_add_distr_l in Hb.
  destruct r as [n|e]; [destruct (Hr1 n eq_refl) as [-> Hg1]|exists (Err e), bufs1, s1; split_and!; try done].
  2: { intros i Hi. apply Hf1. rewrite fmap_app in Hi. set_solver. }
  rewrite N.add_0_l, wrap_add_small by lia.
  destruct (Hk bufs1 s1 Hok1 Hsz1 Hl1) as (r2 & bufs2 & s2 & -> & Hok2 & Hsz2 & Hl2 & Hf2 & Hr2 & Hh2).
  exists r2, bufs2, s2. split_and!; try done; [congruence| | |].
  - intros i Hi. rewrite fmap_app in Hi. rewrite Hf2, Hf1; set_solver.
  - intros n Hn. destruct (Hr2 n Hn) as [-> Hg2]. split; [rewrite length_app; lia|].
    intros id idx [Hin|Hin]%elem_of_app; [|by apply Hg2]. rewrite Hf2; [by apply Hg1|].
    apply NoDup_app in Hnd as (_ & Hd & _). apply Hd. apply list_elem_of_fmap. by exists (id, idx).
  - intros Hh Hc. destruct (Hh1 Hh Hc) as [_ Hc1]. by apply Hh2.
Qed.

Lemma read_member_ok id off idx bufs s e :
  entry b id = Some e -> off = offset e -> (idx < length bufs)%nat -> storage_ok s -> sized bufs ->
  reads_ok [(id, idx)] 0 bufs s (read_member b (preads env idx) id off idx bufs s).
Proof.
  intros He -> Hidx Hok Hsz. unfold read_member. destruct (lookup_lt_is_Some_2 bufs idx Hidx) as [buf Hbuf].
  rewrite Hbuf. cbn [mbind option_bind]. pose proof (Forall_lookup_1 _ _ _ _ Hsz Hbuf) as Hlb. cbn in Hlb.
  set (c := {| c_id := id |}). destruct (read_call_length c s Hok) as (r & tr & s' & -> & Hok' & Hr & Hh).
  do 3 eexists. split; [reflexivity|]. split_and!.
  - done.
  - apply Forall_insert; [done|]. destruct r; by rewrite length_overwrite.
  - apply length_insert.
  - intros i Hi. apply list_lookup_insert_ne. intros ->. apply Hi. set_solver.
  - intros n ->. rewrite (Hr n eq_refl). cbn [c_len c]. split; [simpl; lia|].
    intros id' idx' [= -> ->]%list_elem_of_singleton. rewrite list_lookup_insert_eq by done.
    rewrite Nat2N.id, Hlb, <-(slot_eq id e He). f_equal. apply overwrite_all. by rewrite length_slot by eauto.
  - intros Hhe Hc. apply Hh; [|done]. cbn. by rewrite Hhe, Hlb.
Qed.

Lemma read_members_ok ms total bufs s :
  NoDup ms.*2 -> Forall (readable bufs) ms -> total + N.of_nat (size * length ms) <= usize_max ->
  storage_ok s -> sized bufs ->
  reads_ok ms total bufs s (read_members b env ms total bufs s).
Proof.
  revert total bufs s. induction ms as [|[id idx] ms IH]; intros total bufs s Hnd Hr Hb Hok Hsz.
  { exists (Ok total), bufs, s. split_and!; try done. intros n [= <-]. split; [simpl; lia|].
    by intros ? ? ?%elem_of_nil. }
  apply Forall_cons_1 in Hr as [[[e He] Hidx] Hr]. cbn [read_members fst snd] in *.
  apply (reads_ok_bind [(id, idx)] ms total bufs s _ (read_members b env ms)); [done|done| |].
  - eapply read_member_ok; [exact He|unfold packed_offset; by rewrite He|done..].
  - intros bufs' s' Hok' Hsz' Hl' total'. apply IH; [by apply NoDup_cons in Hnd as [_ ?]| |unfold total'; simpl in *; lia|done|done].
    eapply Forall_impl; [exact Hr|]. intros m [? ?]. split; [done|lia].
Qed.

(** *** Vectored reads *)

Lemma scatter_frame ms pos n bufs :
  Forall (fun m => (snd m < length bufs)%nat) ms -> sized bufs ->
  exists bufs', scatter (file b) pos n ms bufs = Some bufs' /\ sized bufs' /\ length bufs' = length bufs /\
    forall i, i ∉ ms.*2 -> bufs' !! i = bufs !! i.
Proof.
  revert pos n bufs. induction ms as [|[id idx] ms IH]; intros pos n bufs Hi Hsz; [by exists bufs|].
  apply Forall_cons_1 in Hi as [Hidx Hi]. cbn [scatter snd] in *.
  destruct (lookup_lt_is_Some_2 bufs idx Hidx) as [buf Hbuf]. rewrite Hbuf. cbn [mbind option_bind].
  edestruct (IH (pos + Nat.min n (length buf))%nat (n - Nat.min n (length buf))%nat
    (<[idx := overwrite (slice pos (Nat.min n (length buf)) (file b)) buf]> bufs)) as (bufs' & -> & Hsz' & Hl' & Hf').
  - by rewrite length_insert.
  - apply Forall_insert; [done|]. rewrite length_overwrite. exact (Forall_lookup_1 _ _ _ _ Hsz Hbuf).
  - exists bufs'. rewrite length_insert in Hl'. split_and!; try done. intros i Hin. csimpl in Hin.
    apply not_elem_of_cons in Hin as [? ?]. rewrite Hf' by done. by apply list_lookup_insert_ne.
Qed.

(** The members' slots, one after the other from [pos]. *)
Definition laid_out (pos : N) (ms : list (N * nat)) : Prop :=
  forall j id idx, ms !! j = Some (id, idx) ->
  exists e, entry b id = Some e /\ offset e = pos + N.of_nat (j * size).

Lemma scatter_full ms pos bufs bufs' :
  scatter (file b) (N.to_nat pos) (size * length ms) ms bufs = Some bufs' ->
  laid_out pos ms -> NoDup ms.*2 -> Forall (fun m => (snd m < length bufs)%nat) ms -> sized bufs ->
  forall id idx, (id, idx) ∈ ms -> bufs' !! idx = Some (slot b id).
Proof.
  revert pos bufs. induction ms as [|[id0 idx0] ms IH]; intros pos bufs Hs Hlay Hnd Hi Hsz id idx Hin;
    [by apply elem_of_nil in Hin|].
  apply Forall_cons_1 in Hi as [Hidx Hi]. csimpl in *. apply NoDup_cons in Hnd as [Hn Hnd].
  destruct (lookup_lt_is_Some_2 bufs idx0 Hidx) as [buf Hbuf]. rewrite Hbuf in Hs. cbn [mbind option_bind] in Hs.
  pose proof (Forall_lookup_1 _ _ _ _ Hsz Hbuf) as Hlb. cbn in Hlb. rewrite Hlb in Hs.
  destruct (Hlay 0%nat id0 idx0 eq_refl) as (e0 & He0 & Ho0).
  assert (Hbuf' : overwrite (slice (N.to_nat pos) size (file b)) buf = slot b id0).
  { rewrite (slot_eq id0 e0 He0), Ho0, N.add_0_r. apply overwrite_all.
    pose proof (length_slot id0 ltac:(eauto)) as Hl. rewrite (slot_eq id0 e0 He0), Ho0, N.add_0_r in Hl. congruence. }
  rewrite Nat.min_r in Hs by (rewrite Nat.mul_succ_r; lia). rewrite Hbuf' in Hs.
  assert (Hi' : Forall (fun m => (snd m < length (<[idx0:=slot b id0]> bufs))%nat) ms) by by rewrite length_insert.
  assert (Hsz' : sized (<[idx0:=slot b id0]> bufs)) by (apply Forall_insert; [done|apply length_slot; eauto]).
  apply elem_of_cons in Hin as [[= -> ->]|Hin].
  - destruct (scatter_frame ms (N.to_nat pos + size) (size * S (length ms) - size)
      (<[idx0:=slot b id0]> bufs) Hi' Hsz') as (bufs2 & Hs2 & _ & _ & Hf2).
    rewrite Hs in Hs2. injection Hs2 as <-. rewrite Hf2 by done. by apply list_lookup_insert_eq.
  - apply (IH (pos + N.of_nat size) (<[idx0:=slot b id0]> bufs)); try done.
    + rewrite <-Hs, Nat.mul_succ_r. f_equal; lia.
    + intros j id' idx' Hj. destruct (Hlay (S j) id' idx' Hj) as (e & He & Ho). exists e. split; [done|]. lia.
Qed.

Lemma scribble_frame ms bufs :
  sized bufs -> let bufs' := scribble env ms bufs in
  sized bufs' /\ length bufs' = length bufs /\ forall i, i ∉ ms.*2 -> bufs' !! i = bufs !! i.
Proof.
  unfold scribble. revert bufs. induction ms as [|m ms IH]; intros bufs Hsz; [done|]. csimpl.
  destruct (IH (alter (overwrite (preadv_left env (snd m))) (snd m) bufs)) as (Hsz' & Hl' & Hf').
  { apply Forall_alter; [done|]. intros buf _ Hb. by rewrite length_overwrite. }
  rewrite length_alter in Hl'. split_and!; [done|done|]. intros i [Hne Hin]%not_elem_of_cons.
  rewrite Hf' by done. by apply list_lookup_alter_ne.
Qed.

(** The members read one by one, after a vectored read that was not complete. *)
Lemma read_members_after ms bufs bufs1 s :
  NoDup ms.*2 -> Forall (readable bufs) ms -> N.of_nat (size * length ms) <= usize_max -> storage_ok s ->
  sized bufs1 -> length bufs1 = length bufs -> (forall i, i ∉ ms.*2 -> bufs1 !! i = bufs !! i) ->
  reads_ok ms 0 bufs s (read_members b env ms 0 bufs1 s).
Proof.
  intros Hnd Hr Hb Hok Hsz Hl Hf. destruct (read_members_ok ms 0 bufs1 s) as (r & bufs2 & s2 & Ho & H1 & H2 & H3 & H4 & H5 & H6).
  - done.
  - eapply Forall_impl; [exact Hr|]. intros m [? ?]. split; [done|lia].
  - lia.
  - done.
  - done.
  - exists r, bufs2, s2. split_and!; try done; [congruence|]. intros i Hi. rewrite H4, Hf; done.
Qed.

Lemma read_run_ok run bufs s :
  NoDup (members run).*2 -> Forall (readable bufs) (members run) ->
  laid_out (start_offset run) (members run) -> total_len run = N.of_nat (size * length (members run)) ->
  total_len run <= usize_max -> storage_ok s -> sized bufs ->
  reads_ok (members run) 0 bufs s (read_run b env run bufs s).
Proof.
  intros Hnd Hr Hlay Htot Hb Hok Hsz. unfold read_run. rewrite Htot in Hb.
  destruct (_ || _); [by apply read_members_ok|].
  assert (Hi : Forall (fun m => (snd m < length bufs)%nat) (members run)) by (eapply Forall_impl; [exact Hr|]; by intros m [_ ?]).
  destruct (preadv env (start_offset run)) as [n|].
  - destruct (scatter_frame (members run) (N.to_nat (start_offset run)) (N.to_nat n) bufs Hi Hsz)
      as (bufs1 & Hs & Hsz1 & Hl1 & Hf1). rewrite Hs. cbn [mbind option_bind].
    destruct (N.eqb_spec n (total_len run)) as [->|]; [|by apply read_members_after].
    destruct (note_all_closed (members run) s Hok) as (s1 & -> & Hok1 & Hc1). cbn [mbind option_bind].
    exists (Ok (total_len run)), bufs1, s1. split_and!; try done.
    + intros n [= <-]. split; [lia|]. rewrite Htot, Nat2N.id in Hs. by eapply scatter_full.
    + auto.
  - destruct (scribble_frame (members run) bufs Hsz) as (Hsz1 & Hl1 & Hf1). by apply read_members_after.
Qed.

(** *** Runs *)

Definition packed_request (r : request) : Prop := entry b (fst (r_member r)) = Some (r_entry r).

Lemma group_laid_out g :
  Sorted touches g -> Forall packed_request g -> laid_out (start_offset (run_of_group g)) (r_member <$> g).
Proof.
  induction g as [|r g IH]; intros Hs Hp; [by intros j id idx ?|].
  apply Sorted_inv in Hs as [Hs Hh]. apply Forall_cons_1 in Hp as [Hr Hp]. intros [|j] id idx Hj; csimpl in Hj.
  - injection Hj as Hj. exists (r_entry r). unfold packed_request in Hr. rewrite Hj in Hr. simpl. split; [done|lia].
  - destruct (IH Hs Hp j id idx Hj) as (e & He & Ho). exists e. split; [done|]. rewrite Ho.
    destruct g as [|r' g]; [done|]. inversion Hh as [|? ? Ht]; subst. simpl in *.
    destruct (slots_in_file _ _ Hr) as [Hl Hf]. unfold touches, entry_end in Ht. rewrite Ht, Hl, wrap_add_small by lia. lia.
Qed.

Lemma group_total g :
  Forall packed_request g -> N.of_nat (size * length g) <= u64_max ->
  total_len (run_of_group g) = N.of_nat (size * length g).
Proof.
  intros Hp Hb. simpl. assert (Hsum : sumN ((fun r => len (r_entry r)) <$> g) = N.of_nat (size * length g)).
  { clear Hb. induction Hp as [|r g Hr _ IH]; [simpl; lia|]. destruct (slots_in_file _ _ Hr) as [Hl _].
    csimpl. rewrite IH, Hl, Nat.mul_succ_r. lia. }
  rewrite Hsum. apply N.mod_small. lia.
Qed.

Lemma read_runs_ok gs total bufs s :
  let ms := r_member <$> concat gs in
  Forall (fun g => Sorted touches g) gs -> Forall packed_request (concat gs) ->
  NoDup ms.*2 -> Forall (readable bufs) ms -> total + N.of_nat (size * length ms) <= usize_max ->
  storage_ok s -> sized bufs ->
  reads_ok ms total bufs s (read_runs b env (run_of_group <$> gs) total bufs s).
Proof.
  intros ms. subst ms. revert total bufs s. induction gs as [|g gs IH]; intros total bufs s Hs Hp Hnd Hr Hb Hok Hsz.
  { exists (Ok total), bufs, s. split_and!; try done. intros n [= <-]. split; [simpl; lia|].
    by intros ? ? ?%elem_of_nil. }
  apply Forall_cons_1 in Hs as [Hg Hs]. simpl concat in *. apply Forall_app in Hp as [Hpg Hp].
  rewrite fmap_app in *. apply Forall_app in Hr as [Hrg Hr]. csimpl.
  assert (Hb2 : N.of_nat (size * length (r_member <$> g)) <= usize_max).
  { rewrite length_app, Nat.mul_add_distr_l in Hb. lia. }
  apply (reads_ok_bind (r_member <$> g) (r_member <$> concat gs) total bufs s _ (read_runs b env (run_of_group <$> gs)));
    [done|done| |].
  - rewrite length_fmap in Hb2. pose proof (group_total g Hpg Hb2) as Ht.
    change (r_member <$> g) with (members (run_of_group g)) in *. apply read_run_ok; try done.
    + rewrite fmap_app in Hnd. by apply NoDup_app in Hnd as [? _].
    + by apply group_laid_out.
    + rewrite Ht. simpl. by rewrite length_fmap.
    + by rewrite Ht.
  - intros bufs' s' Hok' Hsz' Hl' total'. apply IH; try done.
    + rewrite fmap_app in Hnd. by apply NoDup_app in Hnd as (_ & _ & ?).
    + eapply Forall_impl; [exact Hr|]. intros m [? ?]. split; [done|lia].
    + unfold total'. rewrite length_app, Nat.mul_add_distr_l in Hb. lia.
Qed.
End reading.

(** ** Whole batches *)

Lemma resolve_Some b ids reqs :
  resolve b ids = Some reqs -> Forall (packed_request b) reqs /\ r_member <$> reqs = imap (fun i id => (id, i)) ids.
Proof.
  unfold resolve. intros H. apply mapM_Some in H. split.
  - apply Forall_lookup. intros i r Hi. destruct (Forall2_lookup_r _ _ _ _ _ H Hi) as ([j id] & _ & Hr).
    simpl in Hr. destruct (entry b id) eqn:He; [|done]. by injection Hr as <-.
  - apply list_eq. intros i. rewrite list_lookup_fmap. pose proof (Forall2_length _ _ _ H) as Hl.
    rewrite length_imap in Hl. rewrite list_lookup_imap. destruct (reqs !! i) as [r|] eqn:Hi.
    + destruct (Forall2_lookup_r _ _ _ _ _ H Hi) as ([j id] & Hj & Hr). rewrite list_lookup_imap in Hj.
      destruct (ids !! i) as [id'|]; [|done]. simpl in *. injection Hj as <- <-.
      destruct (entry b id'); [|done]. by injection Hr as <-.
    + apply lookup_ge_None in Hi. destruct (ids !! i) eqn:Hx; [|done]. apply lookup_lt_Some in Hx. lia.
Qed.

Lemma resolve_None b ids : resolve b ids = None <-> exists id, id ∈ ids /\ entry b id = None.
Proof.
  unfold resolve. rewrite mapM_None, Exists_exists. split.
  - intros ([i id] & Hin & Hn). apply list_elem_of_lookup in Hin as [j Hj]. rewrite list_lookup_imap in Hj.
    destruct (ids !! j) as [id'|] eqn:Hid; [|done]. injection Hj as <- <-. simpl in Hn.
    exists id'. split; [by eapply list_elem_of_lookup_2|]. by destruct (entry b id').
  - intros (id & [i Hi]%list_elem_of_lookup & He). exists (i, id). split; [|simpl; by rewrite He].
    apply list_elem_of_lookup. exists i. by rewrite list_lookup_imap, Hi.
Qed.

Lemma NoDup_numbered (ids : list N) : NoDup (imap (fun i id => (id, i)) ids).*2.
Proof.
  rewrite fmap_imap. replace (imap _ ids) with (seq 0 (length ids)); [apply NoDup_seq|].
  apply list_eq. intros i. rewrite list_lookup_imap. destruct (ids !! i) eqn:Hi; simpl.
  - apply lookup_seq. apply lookup_lt_Some in Hi. lia.
  - apply lookup_ge_None in Hi. apply lookup_ge_None. by rewrite length_seq.
Qed.

Lemma batch_reads_ok b env size ids bufs s reqs :
  (forall id e, entry b id = Some e -> len e = N.of_nat size /\ offset e + N.of_nat size <= N.of_nat (length (file b))) ->
  N.of_nat (length (file b)) <= u64_max -> length bufs = length ids -> sized size bufs ->
  N.of_nat (size * length ids) <= usize_max -> storage_ok s -> resolve b ids = Some reqs ->
  reads_ok b env size (r_member <$> sort_by_key (fun r => offset (r_entry r)) reqs) 0 bufs s
    (read_experts_batch_packed b env ids bufs s).
Proof.
  intros Hslots Hfile Hlen Hsz Hb Hok Hres. destruct (resolve_Some b ids reqs Hres) as [Hp Hm].
  unfold read_experts_batch_packed. rewrite Hres.
  pose proof (sort_by_key_perm (fun r => offset (r_entry r)) reqs) as Hperm.
  assert (Hperm' : r_member <$> sort_by_key (fun r => offset (r_entry r)) reqs ≡ₚ imap (fun i id => (id, i)) ids)
    by (rewrite <-Hm; by apply fmap_Permutation).
  rewrite <-Hperm in Hp. unfold coalesce_runs. destruct (sort_by_key _ reqs) as [|r rest] eqn:E.
  { exists (Ok 0), bufs, s. split_and!; try done. intros n [= <-]. split; [simpl; lia|]. by intros ? ? ?%elem_of_nil. }
  destruct (coalesce_fold r rest) as (gs & g & -> & [Hc Hg Ha]).
  { eapply Forall_impl; [exact Hp|]. intros r' Hr'. destruct (Hslots _ _ Hr') as [-> ?]. lia. }
  replace ((run_of_group <$> gs) ++ [run_of_group g]) with (run_of_group <$> (gs ++ [g])) by by rewrite fmap_app.
  rewrite <-Hc in Hperm', Hp |- *. apply read_runs_ok; try done.
  - eapply Forall_impl; [exact Hg|]. by intros ? [_ ?].
  - rewrite Hperm'. apply NoDup_numbered.
  - apply Forall_forall. intros [id idx] Hin. split.
    + apply list_elem_of_fmap in Hin as (r' & E' & Hr'). rewrite Forall_forall in Hp. specialize (Hp r' Hr').
      unfold packed_request in Hp. rewrite <-E' in Hp. simpl in *. by eexists.
    + rewrite Hperm' in Hin. apply list_elem_of_lookup in Hin as [i Hi]. rewrite list_lookup_imap in Hi.
      destruct (ids !! i) eqn:Hi'; [|done]. injection Hi as <- <-. simpl. apply lookup_lt_Some in Hi'. lia.
  - rewrite (Permutation_length Hperm'), length_imap. lia.
Qed.

Lemma batch_delivers b env size ids bufs s :
  (forall id e, entry b id = Some e -> len e = N.of_nat size /\ offset e + N.of_nat size <= N.of_nat (length (file b))) ->
  N.of_nat (length (file b)) <= u64_max -> length ids = length bufs -> sized size bufs ->
  N.of_nat (size * length ids) <= usize_max -> storage_ok s ->
  exists r bufs' s', read_experts_batch b env ids bufs s = Some (r, bufs', s') /\ storage_ok s' /\
    (forall n, r = Ok n -> n = N.of_nat (size * length ids) /\ bufs' = slot b <$> ids) /\
    ((forall id, id ∈ ids -> is_Some (entry b id)) -> healthy size env -> all_closed s -> is_ok r = true) /\
    (forall id, id ∈ ids -> entry b id = None -> r = Err not_found /\ bufs' = bufs /\ s' = s).
Proof.
  intros Hslots Hfile Hl Hsz Hb Hok. unfold read_experts_batch. rewrite (proj2 (Nat.eqb_eq _ _) Hl). cbn [negb].
  destruct ids as [|id0 ids]; [|set (all := id0 :: ids) in *].
  { exists (Ok 0), bufs, s. destruct bufs; [|done]. split_and!; try done.
    - intros n [= <-]. by rewrite Nat.mul_0_r.
    - by intros id ?%elem_of_nil. }
  destruct (resolve b all) as [reqs|] eqn:Hres.
  2: { unfold read_experts_batch_packed. rewrite Hres. apply resolve_None in Hres as (id & Hin & He).
       exists (Err not_found), bufs, s. split_and!; try done. intros Hall. destruct (Hall id Hin) as [e He']. congruence. }
  destruct (batch_reads_ok b env size all bufs s reqs Hslots Hfile ltac:(done) Hsz Hb Hok Hres)
    as (r & bufs' & s' & Ho & Hok' & Hsz1 & Hl1 & _ & Hr & Hh).
  destruct (resolve_Some b all reqs Hres) as [Hp Hm]. pose proof (sort_by_key_perm (fun r => offset (r_entry r)) reqs) as Hperm.
  exists r, bufs', s'. split; [exact Ho|]. split; [done|]. split_and!.
  - intros n Hn. destruct (Hr n Hn) as [-> Hgot].
    rewrite Hperm, Hm, length_imap. split; [done|]. apply list_eq. intros i. rewrite list_lookup_fmap.
    destruct (all !! i) as [id|] eqn:Hi; simpl.
    + apply Hgot. rewrite Hperm, Hm. apply list_elem_of_lookup. exists i. by rewrite list_lookup_imap, Hi.
    + apply lookup_ge_None in Hi. apply lookup_ge_None. lia.
  - intros _ Hhe Hc. by apply Hh.
  - intros id Hin He. assert (Hn : resolve b all = None) by (apply resolve_None; eauto). congruence.
Qed.

(** C31. A batch of experts read from a validated blob.  Whatever the system answers,
    short and failed vectored reads included, the batch does not panic, and when it
    succeeds every buffer holds exactly the slot of the expert asked for, in request
    order; with no breaker open and a device that answers, it succeeds; an expert
    the manifest does not know fails it before any read. *)
Theorem batched_reads_deliver b env ids bufs s :
  let size := N.to_nat (expert_size (manifest b)) in
  blob_validate b = Ok tt -> slots_fit (manifest b) -> N.of_nat (length (file b)) <= u64_max ->
  length ids = length bufs -> sized size bufs -> N.of_nat (size * length ids) <= usize_max -> storage_ok s ->
  exists r bufs' s', read_experts_batch b env ids bufs s = Some (r, bufs', s') /\ storage_ok s' /\
    (forall n, r = Ok n -> n = N.of_nat (size * length ids) /\ bufs' = slot b <$> ids) /\
    ((forall id, id ∈ ids -> is_Some (entry b id)) -> healthy size env -> all_closed s -> is_ok r = true) /\
    (forall id, id ∈ ids -> entry b id = None -> r = Err not_found /\ bufs' = bufs /\ s' = s).
Proof.
  intros size Hv Hfit Hfile Hl Hsz Hb Hok. apply batch_delivers; try done.
  intros id e He. destruct (blob_validate_slots b id e Hv Hfit He) as (H1 & _ & H2 & _). subst size. lia.
Qed.

(** ** Packing, then reading *)

Lemma pack_loop_ok source payload ids seen blob :
  (forall id, id ∈ ids -> source id = Ok (payload id)) -> NoDup ids -> (forall id, id ∈ ids -> id ∉ seen) ->
  pack_loop source ids seen blob = Ok (blob ++ (ids ≫= payload)).
Proof.
  revert seen blob. induction ids as [|id ids IH]; intros seen blob Hsrc Hnd Hseen; cbn [pack_loop mbind list_bind].
  { by rewrite app_nil_r. }
  apply NoDup_cons in Hnd as [Hid Hnd]. rewrite decide_False by (apply Hseen; left). rewrite Hsrc by left.
  rewrite IH; [by rewrite <-app_assoc|intros; apply Hsrc; by right|done|].
  intros x Hx. apply not_elem_of_union. split; [|by apply Hseen; right]. intros ->%elem_of_singleton. done.
Qed.

Lemma pack_loop_distinct source ids seen blob blob' :
  pack_loop source ids seen blob = Ok blob' -> NoDup ids /\ forall id, id ∈ ids -> id ∉ seen.
Proof.
  revert seen blob. induction ids as [|x ids IH]; intros seen blob; cbn [pack_loop].
  { intros _. split; [constructor|]. by intros ? ?%elem_of_nil. }
  case_decide as Hx; [done|]. destruct (source x) as [p|]; [|done]. intros [Hnd Hs]%IH. split.
  - constructor; [|done]. intros Hin. apply (Hs x Hin). set_solver.
  - intros id [->|Hin]%elem_of_cons; [done|]. specialize (Hs id Hin). set_solver.
Qed.

Lemma slice_bind {A B} (f : A -> list B) (l : list A) n i x :
  (forall y, y ∈ l -> length (f y) = n) -> l !! i = Some x -> slice (i * n) n (l ≫= f) = f x.
Proof.
  revert i. induction l as [|y l IH]; intros i Hn Hi; [done|]. cbn [mbind list_bind].
  pose proof (Hn y ltac:(left)) as Hy. destruct i as [|i].
  - injection Hi as ->. by rewrite slice_app_l.
  - rewrite slice_app_r by lia. rewrite Hy. replace (S i * n - n)%nat with (i * n)%nat by lia.
    apply IH; [intros; apply Hn; by right|done].
Qed.

Lemma length_bind {A B} (f : A -> list B) (l : list A) n :
  (forall y, y ∈ l -> length (f y) = n) -> length (l ≫= f) = (length l * n)%nat.
Proof.
  induction l as [|y l IH]; intros Hn; [done|]. cbn [mbind list_bind]. rewrite length_app, IH, Hn;
    [done|left|intros; apply Hn; by right].
Qed.

(** What [pack_experts] writes, batched reads bring back.  Packing distinct experts
    gives a blob that validates, whose file is their payloads in the order chosen;
    then any batch of packed experts that succeeds delivers the payloads the source
    had, whatever the order, the runs it coalesces into and the system's answers,
    and a healthy system makes it succeed.  A repeated id is refused. *)
Theorem packed_experts_round_trip source payload ids size align :
  (forall id, id ∈ ids -> source id = Ok (payload id) /\ length (payload id) = size) ->
  (0 < size)%nat -> N.of_nat (length ids * size) <= u64_max ->
  (NoDup ids -> exists b, pack_experts source ids (N.of_nat size) align = Ok b /\
     blob_validate b = Ok tt /\ file b = ids ≫= payload /\
     forall env wanted bufs s, wanted ⊆ ids -> length wanted = length bufs -> sized size bufs ->
       N.of_nat (size * length wanted) <= usize_max -> storage_ok s ->
       exists r bufs' s', read_experts_batch b env wanted bufs s = Some (r, bufs', s') /\ storage_ok s' /\
         (forall n, r = Ok n -> bufs' = payload <$> wanted) /\
         (healthy size env -> all_closed s -> is_ok r = true)) /\
  (~ NoDup ids -> is_ok (pack_experts source ids (N.of_nat size) align) = false).
Proof.
  intros Hsrc Hsize Hb. split.
  - intros Hnd. set (b := {| file := ids ≫= payload; manifest := uniform ids (N.of_nat size) align |}).
    assert (Hlen : length (file b) = (length ids * size)%nat) by (apply length_bind; intros; by apply Hsrc).
    assert (He : forall id e, entry b id = Some e <->
      exists i, ids !! i = Some id /\ e = {| offset := N.of_nat i * N.of_nat size; len := N.of_nat size |})
      by (intros; apply uniform_entries; [done|lia]).
    assert (Hslots : forall id e, entry b id = Some e ->
      len e = N.of_nat size /\ offset e + N.of_nat size <= N.of_nat (length (file b))).
    { intros id e (i & Hi & ->)%He. split; [done|]. apply lookup_lt_Some in Hi. rewrite Hlen. simpl.
      assert ((i + 1) * size <= length ids * size)%nat by (apply Nat.mul_le_mono_r; lia). lia. }
    exists b. split_and!; [unfold pack_experts; by rewrite (pack_loop_ok source payload) by (done || intros; by apply Hsrc)| |done|].
    + unfold blob_validate, validate. destruct (map_to_list (entries (manifest b))) as [|p es] eqn:El.
      { unfold blob_len. rewrite El. simpl. case_N; [lia|done]. }
      rewrite <-El. simpl expert_size. destruct (N.eqb_spec (N.of_nat size) 0); [lia|].
      rewrite (proj2 (validate_entries_ok _ _)).
      2: { apply Forall_forall. intros [id e] (i & Hi & ->)%elem_of_map_to_list%He. simpl. split; [done|by apply N.Div0.mod_mul]. }
      assert (blob_len (manifest b) <= N.of_nat (length (file b))); [|by case_N; [lia|]].
      unfold blob_len. apply max_le_all. apply Forall_fmap, Forall_forall. intros [id e] Hin%elem_of_map_to_list.
      destruct (Hslots id e Hin) as [Hl Ho].
      change (wrap_add u64_max (offset e) (len e) <= N.of_nat (length (file b))). rewrite Hl, wrap_add_small by lia. exact Ho.
    + intros env wanted bufs s Hsub Hl Hsz Hbw Hok.
      destruct (batch_delivers b env size wanted bufs s Hslots ltac:(lia) Hl Hsz Hbw Hok) as (r & bufs' & s' & Ho & Hok' & Hr & Hh & _).
      assert (Hent : forall id, id ∈ wanted -> exists i, ids !! i = Some id) by (intros id Hin%Hsub; by apply list_elem_of_lookup).
      exists r, bufs', s'. split_and!; [done|done| |].
      * intros n Hn. destruct (Hr n Hn) as [_ ->]. apply list_fmap_ext. intros j id Hj.
        destruct (Hent id) as [i Hi]; [by eapply list_elem_of_lookup_2|]. unfold slot. rewrite (proj2 (He id _)) by eauto.
        simpl. rewrite <-Nat2N.inj_mul, !Nat2N.id. apply (slice_bind payload); [intros; by apply Hsrc|done].
      * intros Hhe Hc. apply Hh; try done. intros id Hin. destruct (Hent id Hin) as [i Hi]. eexists. apply He. eauto.
  - intros Hd. unfold pack_experts. destruct (pack_loop source ids ∅ []) as [blob|] eqn:E; [|done].
    by apply pack_loop_distinct in E as [? _].
Qed.

Module Witness.

Definition slow : call :=
  {| c_id := 0; c_len := 0; c_device := fun _ => Ok 1; t_drive_gate := 100; t_expert_gate := 100;
     t_expert_fail := 100; t_drive_fail := 100 |}.
(** A device that answers every read; the vectored read at 0 transfers [n] bytes. *)
Definition env (n : N) : batch_env :=
  {| preadv := fun _ => Some n; preadv_left := fun _ => [];
     preads := fun _ => {| p_call := slow; p_left := [] |} |}.

Definition payload (id : N) : list byte := [byte_of_N (id + 7)].
Definition blob : PackedBlob :=
  {| file := [3; 1; 2] ≫= payload; manifest := uniform [3; 1; 2] 1 1 |}.
Definition bufs : list (list byte) := replicate 3 [x00].

(** Expert 1 has an open breaker, probed a moment ago. *)
Definition tripped_storage : NvmeStorage :=
  {| num_striped := 0;
     breakers := {[1 := {| consecutive_failures := 3; tripped := true; tripped_at_ms := 99 |}]};
     drive_breakers := [breaker_default] |}.

(** A coalesced read does not ask the breakers: it reads an expert whose breaker
    refuses the single read, and closes it. *)
Example coalesced_read_bypasses_breakers :
  (exists s, read_expert blob (preads (env 2) 0) 1 [x00] tripped_storage =
     Some (Err (from_failure (ExpertUnavailable 1 3)), [[x00]], s)) /\
  exists s, read_experts_batch blob (env 2) [1; 3] [[x00]; [x00]] tripped_storage =
    Some (Ok 2, [payload 1; payload 3], s) /\ is_expert_unavailable 1 s = false.
Proof. split; eexists; [vm_compute; reflexivity|]. split; vm_compute; reflexivity. Qed.

Lemma coalesce_runs_spec_witness :
  let rs := [(5, 0%nat, {| offset := 8; len := 4 |}); (6, 1%nat, {| offset := 0; len := 4 |});
             (7, 2%nat, {| offset := 4; len := 4 |})] in
  exists gs, coalesce_runs rs = run_of_group <$> gs /\
    concat gs = sort_by_key (fun r => offset (r_entry r)) rs /\
    concat gs ≡ₚ rs /\ StronglySorted (key_le (fun r => offset (r_entry r))) (concat gs) /\
    Forall (fun g => g <> [] /\ Sorted touches g) gs /\ Sorted apart gs.
Proof. apply coalesce_runs_spec. repeat constructor; done. Defined.

Lemma batched_reads_deliver_witness :
  exists r bufs' s', read_experts_batch blob (env 1) [2; 3; 1] bufs storage_new = Some (r, bufs', s') /\ storage_ok s' /\
    (forall n, r = Ok n -> n = 3 /\ bufs' = slot blob <$> [2; 3; 1]) /\
    ((forall id, id ∈ [2; 3; 1] -> is_Some (entry blob id)) -> healthy 1 (env 1) -> all_closed storage_new -> is_ok r = true) /\
    (forall id, id ∈ [2; 3; 1] -> entry blob id = None -> r = Err not_found /\ bufs' = bufs /\ s' = storage_new).
Proof.
  apply (batched_reads_deliver blob (env 1) [2; 3; 1] bufs storage_new).
  - vm_compute. reflexivity.
  - apply slots_fit_check. vm_compute. reflexivity.
  - done.
  - done.
  - repeat constructor.
  - done.
  - done.
Defined.

Lemma packed_experts_round_trip_witness :
  exists b, pack_experts (fun id => Ok (payload id)) [3; 1; 2] 1 1 = Ok b /\
    blob_validate b = Ok tt /\ file b = [3; 1; 2] ≫= payload /\
    forall env wanted bufs s, wanted ⊆ [3; 1; 2] -> length wanted = length bufs -> sized 1 bufs ->
      N.of_nat (1 * length wanted) <= usize_max -> storage_ok s ->
      exists r bufs' s', read_experts_batch b env wanted bufs s = Some (r, bufs', s') /\ storage_ok s' /\
        (forall n, r = Ok n -> bufs' = payload <$> wanted) /\
        (healthy 1 env -> all_closed s -> is_ok r = true).
Proof.
  apply (packed_experts_round_trip (fun id => Ok (payload id)) payload [3; 1; 2] 1 1); try done.
  - lia.
  - apply (bool_decide_unpack _). vm_compute. done.
Defined.

End Witness.
