(* ===== verification/KvCache.v ===== *)
(** The request-local KV cache ([KvCache] of [src/rust-engine/src/transformer.rs]):
    keys and values in blocks of 16 tokens, sliding-window eviction with a free list
    of recycled blocks, and the zeroization a session ends with.

    A float is its 32-bit pattern: the cache only copies floats and writes zeros.
    Sizes and positions are naturals; a [usize] would wrap after 2^64 appended
    tokens.  Blocks the code hands back to the allocator are part of an operation's
    result. *)
From S2P Require Import Prelude.
From Stdlib Require Import ZifyNat.

#[local] Abbreviation f32 := N.
#[local] Abbreviation block := (list f32).
#[local] Abbreviation row := (list f32).

Definition PAGED_BLOCK_TOKENS : nat := 16.
Definition FREE_BLOCKS_CAP : nat := 8.

Record KvCache := {
  keys_blocks : list block;
  values_blocks : list block;
  free_keys : list block;
  free_values : list block;
  evicted_blocks : nat;
  seq_len : nat;
  kv_dim : nat;
  v_dim : nat;
}.

Definition new_kv (k_dim v_dim : nat) : KvCache :=
  {| keys_blocks := []; values_blocks := []; free_keys := []; free_values := [];
     evicted_blocks := 0; seq_len := 0; kv_dim := k_dim; v_dim := v_dim |}.
Definition new (kv_dim : nat) : KvCache := new_kv kv_dim kv_dim.

(** ** Appending *)

(** A recycled block, zero-filled, or a fresh one, and the free list left. *)
Definition take_block (dim : nat) (free : list block) : block * list block :=
  match last free with
  | Some b => (replicate (length b) 0%N, removelast free)
  | None => (replicate (PAGED_BLOCK_TOKENS * dim) 0%N, free)
  end.

(** [b[in_block * dim..in_block * dim + dim].copy_from_slice(r)]; [None] is a range
    outside the block or a length mismatch. *)
Definition write_row (dim in_block : nat) (r : row) (b : block) : option block :=
  if ((in_block * dim + dim <=? length b) && (length r =? dim))%nat
  then Some (splice (in_block * dim) r b) else None.

(** One half of [append], keys or values. *)
Definition append_half (dim pos : nat) (r : row) (blocks free : list block) : option (list block * list block) :=
  let in_block := pos mod PAGED_BLOCK_TOKENS in
  let '(blocks, free) :=
    if (in_block =? 0)%nat then let '(b, free) := take_block dim free in (blocks ++ [b], free)
    else (blocks, free) in
  b ← last blocks;
  b ← write_row dim in_block r b;
  Some (removelast blocks ++ [b], free).

Definition append (k v : row) (c : KvCache) : option KvCache :=
  let pos := seq_len c in
  '(kb, fk) ← append_half (kv_dim c) pos k (keys_blocks c) (free_keys c);
  '(vb, fv) ← append_half (v_dim c) pos v (values_blocks c) (free_values c);
  Some {| keys_blocks := kb; values_blocks := vb; free_keys := fk; free_values := fv;
          evicted_blocks := evicted_blocks c; seq_len := seq_len c + 1;
          kv_dim := kv_dim c; v_dim := v_dim c |}.

(** ** Eviction *)

(** [n] times: the front block goes to the free list, or is freed when that is full. *)
Fixpoint evict_half (n : nat) (blocks free freed : list block) : list block * list block * list block :=
  match n with
  | O => (blocks, free, freed)
  | S n' =>
      match blocks with
      | [] => evict_half n' [] free freed
      | b :: blocks' =>
          if (length free <? FREE_BLOCKS_CAP)%nat
          then evict_half n' blocks' (free ++ [b]) freed
          else evict_half n' blocks' free (freed ++ [b])
      end
  end.

(** The cache, and the blocks it gave back to the allocator. *)
Definition evict_before (pos : nat) (c : KvCache) : KvCache * list block :=
  let pos := Nat.min pos (seq_len c) in
  let target_evicted := (pos / PAGED_BLOCK_TOKENS)%nat in
  if (target_evicted <=? evicted_blocks c)%nat then (c, []) else
  let blocks_to_drop := Nat.min (target_evicted - evicted_blocks c) (length (keys_blocks c)) in
  if (blocks_to_drop =? 0)%nat then (c, []) else
  let '(kb, fk, freed_k) := evict_half blocks_to_drop (keys_blocks c) (free_keys c) [] in
  let '(vb, fv, freed_v) := evict_half blocks_to_drop (values_blocks c) (free_values c) [] in
  ({| keys_blocks := kb; values_blocks := vb; free_keys := fk; free_values := fv;
      evicted_blocks := evicted_blocks c + blocks_to_drop; seq_len := seq_len c;
      kv_dim := kv_dim c; v_dim := v_dim c |}, freed_k ++ freed_v).

(** ** Reset and zeroization *)

Definition all_blocks (c : KvCache) : list block :=
  keys_blocks c ++ values_blocks c ++ free_keys c ++ free_values c.

Definition reset (c : KvCache) : KvCache * list block :=
  ({| keys_blocks := []; values_blocks := []; free_keys := []; free_values := [];
      evicted_blocks := 0; seq_len := 0; kv_dim := kv_dim c; v_dim := v_dim c |}, all_blocks c).

Definition zeroize_block (b : block) : block := (fun _ => 0%N) <$> b.
Definition zeroize_blocks (bs : list block) : list block := zeroize_block <$> bs.

Definition zeroize (c : KvCache) : KvCache * list block :=
  reset {| keys_blocks := zeroize_blocks (keys_blocks c); values_blocks := zeroize_blocks (values_blocks c);
           free_keys := zeroize_blocks (free_keys c); free_values := zeroize_blocks (free_values c);
           evicted_blocks := evicted_blocks c; seq_len := seq_len c; kv_dim := kv_dim c; v_dim := v_dim c |}.

(** ** Reading *)

Definition num_blocks (c : KvCache) : nat := length (keys_blocks c).
Definition free_blocks (c : KvCache) : nat := length (free_keys c).

(** [blocks[abs_block - evicted][start..start + dim]]; an evicted position wraps the
    subtraction and is out of range. *)
Definition read_row (dim evicted i : nat) (blocks : list block) : option row :=
  let abs_block := (i / PAGED_BLOCK_TOKENS)%nat in
  if (abs_block <? evicted)%nat then None else
  b ← blocks !! (abs_block - evicted)%nat;
  let start := (i mod PAGED_BLOCK_TOKENS * dim)%nat in
  if (start + dim <=? length b)%nat then Some (slice start dim b) else None.

Definition key (c : KvCache) (i : nat) : option row := read_row (kv_dim c) (evicted_blocks c) i (keys_blocks c).
Definition value (c : KvCache) (i : nat) : option row := read_row (v_dim c) (evicted_blocks c) i (values_blocks c).
Definition key_at (c : KvCache) (i : nat) : option row := key c i.

(** ** What one half stores *)

Ltac div_lia := zify; Z.to_euclidean_division_equations; lia.

(** [blocks] holds the rows of the positions from [16 * evicted] on; whatever follows
    the last row in its block is zero. *)
Record half_ok (dim evicted : nat) (rows : list row) (blocks free : list block) : Prop := {
  ho_count : evicted + length blocks = (length rows + 15) / 16;
  ho_evicted : evicted <= length rows / 16;
  ho_sizes : Forall (fun b => length b = 16 * dim) (blocks ++ free);
  ho_free : length free <= FREE_BLOCKS_CAP;
  ho_rows : Forall (fun r => length r = dim) rows;
  ho_content : forall j b n, blocks !! j = Some b -> n < 16 ->
    slice (n * dim) dim b = default (replicate dim 0%N) (rows !! (16 * (evicted + j) + n));
}.

Lemma slice_zeros start dim n : start + dim <= n -> slice start dim (replicate n 0%N) = replicate dim 0%N.
Proof. intros. unfold slice. rewrite drop_replicate, take_replicate. f_equal. lia. Qed.

Lemma take_block_spec dim free :
  Forall (fun b => length b = 16 * dim) free -> length free <= FREE_BLOCKS_CAP ->
  exists free', take_block dim free = (replicate (16 * dim) 0%N, free') /\
    Forall (fun b => length b = 16 * dim) free' /\ length free' <= FREE_BLOCKS_CAP.
Proof.
  intros Hs Hl. unfold take_block. destruct free as [|b free _] using rev_ind.
  { by exists []. }
  rewrite last_snoc, list_removelast_snoc. apply Forall_app in Hs as [Hs [Hb _]%Forall_cons_1].
  exists free. rewrite Hb. rewrite length_app in Hl. split; [done|]. split; [done|]. simpl in Hl. lia.
Qed.

Lemma read_row_ok dim evicted rows blocks free i r :
  half_ok dim evicted rows blocks free -> rows !! i = Some r -> 16 * evicted <= i ->
  read_row dim evicted i blocks = Some r.
Proof.
  intros [Hc He Hs _ _ Hx] Hi Hge. pose proof (lookup_lt_Some _ _ _ Hi) as Hlt. unfold read_row, PAGED_BLOCK_TOKENS.
  destruct (Nat.ltb_spec (i / 16) evicted); [div_lia|].
  destruct (lookup_lt_is_Some_2 blocks (i / 16 - evicted)) as [b Hb]; [div_lia|]. rewrite Hb. cbn [mbind option_bind].
  pose proof (Forall_lookup_1 _ _ _ _ (proj1 (proj1 (Forall_app _ _ _) Hs)) Hb) as Hlb. cbn in Hlb.
  pose proof (Nat.mod_upper_bound i 16 ltac:(lia)) as Hm.
  destruct (Nat.leb_spec (i mod 16 * dim + dim) (length b)); [|nia].
  rewrite (Hx _ b (i mod 16) Hb Hm). replace (16 * (evicted + (i / 16 - evicted)) + i mod 16) with i by div_lia.
  by rewrite Hi.
Qed.

(** Writing the next row into the last block. *)
Lemma write_last dim evicted rows pre b free r :
  let n := length rows in
  evicted + length pre = n / 16 ->
  Forall (fun b => length b = 16 * dim) ((pre ++ [b]) ++ free) -> length free <= FREE_BLOCKS_CAP ->
  Forall (fun r => length r = dim) rows -> length r = dim -> evicted <= n / 16 ->
  (forall j b' k, (pre ++ [b]) !! j = Some b' -> k < 16 ->
     slice (k * dim) dim b' = default (replicate dim 0%N) (rows !! (16 * (evicted + j) + k))) ->
  exists b', write_row dim (n mod 16) r b = Some b' /\ half_ok dim evicted (rows ++ [r]) (pre ++ [b']) free.
Proof.
  intros n Hpre Hs Hf Hrows Hr Hev Hx. unfold write_row.
  apply Forall_app in Hs as [[Hsp [Hb _]%Forall_cons_1]%Forall_app Hsf].
  pose proof (Nat.mod_upper_bound n 16 ltac:(lia)) as Hm. pose proof (Nat.div_mod_eq n 16) as Hdm.
  generalize dependent (n mod 16). intros m Hm Hdm.
  rewrite (proj2 (Nat.leb_le _ _)) by nia. rewrite (proj2 (Nat.eqb_eq _ _) Hr). cbn [andb].
  eexists. split; [reflexivity|]. split.
  - rewrite !length_app. cbn [length]. fold n. div_lia.
  - rewrite length_app. cbn [length]. fold n. div_lia.
  - rewrite !Forall_app. split; [split; [done|]|done]. apply Forall_singleton.
    rewrite length_splice; [done|nia].
  - done.
  - apply Forall_app. by rewrite Forall_singleton.
  - intros j b' k Hj Hk. assert (Hold : forall i, i <> n -> (rows ++ [r]) !! i = rows !! i).
    { intros i Hi. destruct (decide (i < n)); [by rewrite lookup_app_l|].
      rewrite !lookup_ge_None_2; [done|subst n; lia|rewrite length_app; simpl; subst n; lia]. }
    destruct (decide (j = length pre)) as [->|Hne].
    + rewrite lookup_app_r, Nat.sub_diag in Hj by done. injection Hj as <-.
      assert (Hlast : (pre ++ [b]) !! length pre = Some b) by by rewrite lookup_app_r, Nat.sub_diag.
      destruct (decide (k = m)) as [->|Hk'].
      * replace (16 * (evicted + length pre) + m) with n by lia.
        rewrite lookup_app_r, Nat.sub_diag by done. simpl. rewrite <-Hr at 2. apply slice_splice_same. nia.
      * rewrite Hold by lia. rewrite <-(Hx _ _ _ Hlast Hk). apply slice_splice_other; [nia|].
        destruct (decide (k < m)).
        { pose proof (Nat.mul_le_mono_r (k + 1) m dim ltac:(lia)). lia. }
        { pose proof (Nat.mul_le_mono_r (m + 1) k dim ltac:(lia)). lia. }
    + assert (j < length pre) as Hlt.
      { apply lookup_lt_Some in Hj. rewrite length_app in Hj. simpl in Hj. lia. }
      rewrite lookup_app_l in Hj by done. rewrite Hold by div_lia. apply Hx; [|done]. by apply lookup_app_l_Some.
Qed.

Lemma append_half_ok dim evicted rows blocks free r :
  half_ok dim evicted rows blocks free -> length r = dim ->
  exists blocks' free', append_half dim (length rows) r blocks free = Some (blocks', free') /\
    half_ok dim evicted (rows ++ [r]) blocks' free'.
Proof.
  intros [Hc He Hs Hf Hrows Hx] Hr. unfold append_half, PAGED_BLOCK_TOKENS.
  apply Forall_app in Hs as [Hsb Hsf]. destruct (Nat.eqb_spec (length rows mod 16) 0) as [Hm|Hm].
  - destruct (take_block_spec dim free Hsf Hf) as (free' & -> & Hsf' & Hf').
    destruct (write_last dim evicted rows blocks (replicate (16 * dim) 0%N) free' r) as (b' & Hw & Hok); try done.
    + div_lia.
    + rewrite !Forall_app, Forall_singleton, length_replicate. done.
    + intros j b' k [Hj|[Hj Hj']]%lookup_app_Some Hk; [by apply Hx|].
      apply list_lookup_singleton_Some in Hj' as [Hj' <-]. rewrite slice_zeros by nia.
      by rewrite lookup_ge_None_2 by div_lia.
    + rewrite last_snoc. cbn [mbind option_bind]. rewrite Hw. cbn [mbind option_bind].
      rewrite list_removelast_snoc. eauto.
  - destruct blocks as [|b pre _] using rev_ind; [cbn [length] in Hc; div_lia|].
    rewrite length_app in Hc. cbn [length] in Hc.
    destruct (write_last dim evicted rows pre b free r) as (b' & Hw & Hok); try done.
    + div_lia.
    + by apply Forall_app.
    + rewrite last_snoc. cbn [mbind option_bind]. rewrite Hw. cbn [mbind option_bind].
      rewrite list_removelast_snoc. eauto.
Qed.

(** Dropping whole blocks from the front. *)
Lemma evict_half_spec n blocks free freed :
  n <= length blocks -> length free <= FREE_BLOCKS_CAP ->
  exists free' freed', evict_half n blocks free freed = (drop n blocks, free', freed ++ freed') /\
    length free' <= FREE_BLOCKS_CAP /\ free' ++ freed' ≡ₚ free ++ take n blocks /\
    (freed' = [] \/ length free' = FREE_BLOCKS_CAP).
Proof.
  revert blocks free freed. induction n as [|n IH]; intros blocks free freed Hn Hf.
  { exists free, []. simpl. rewrite !app_nil_r, drop_0. auto. }
  destruct blocks as [|b blocks]; [simpl in Hn; lia|]. cbn [evict_half]. simpl in Hn.
  destruct (Nat.ltb_spec (length free) FREE_BLOCKS_CAP).
  - destruct (IH blocks (free ++ [b]) freed) as (free' & freed' & -> & Hf' & Hp & Hor); [lia|rewrite length_app; simpl; lia|].
    exists free', freed'. split_and!; try done. rewrite Hp, <-app_assoc. done.
  - destruct (IH blocks free (freed ++ [b])) as (free' & freed' & -> & Hf' & Hp & Hor); [lia|done|].
    exists free', (b :: freed'). rewrite <-app_assoc. split_and!; try done.
    + rewrite Permutation_app_comm. simpl. rewrite (Permutation_app_comm freed'), Hp. simpl. solve_Permutation.
    + right. assert (length free <= length free'); [|lia].
      apply Permutation_length in Hp. rewrite !length_app in Hp. destruct Hor as [->|]; [simpl in Hp; lia|lia].
Qed.

Lemma evict_half_ok dim evicted rows blocks free n :
  half_ok dim evicted rows blocks free -> evicted + n <= length rows / 16 ->
  exists free' freed, evict_half n blocks free [] = (drop n blocks, free', freed) /\
    half_ok dim (evicted + n) rows (drop n blocks) free' /\ (freed = [] \/ length free' = FREE_BLOCKS_CAP).
Proof.
  intros [Hc He Hs Hf Hrows Hx] Hn.
  destruct (evict_half_spec n blocks free []) as (free' & freed & Heq & Hf' & Hp & Hor); [div_lia|done|].
  exists free', freed. split; [exact Heq|]. split; [|done]. split.
  - rewrite length_drop. div_lia.
  - done.
  - apply Forall_app in Hs as [Hsb Hsf]. apply Forall_app. split; [by apply Forall_drop|].
    assert (Hall : Forall (fun b => length b = 16 * dim) (free' ++ freed)).
    { rewrite Hp. apply Forall_app. split; [done|by apply Forall_take]. }
    by apply Forall_app in Hall as [? _].
  - done.
  - done.
  - intros j b k Hj Hk. rewrite lookup_drop in Hj. rewrite (Hx _ _ _ Hj Hk). do 2 f_equal. lia.
Qed.

(** ** The whole cache *)

(** What a cache promises: the tokens appended since the last reset, and the first
    position still stored. *)
Record window := { tokens : list (row * row); floor : nat }.

Inductive op := Append (k v : row) | EvictBefore (pos : nat) | Reset.

Definition exec (o : op) (c : KvCache) : option (KvCache * list block) :=
  match o with
  | Append k v => c ← append k v c; Some (c, [])
  | EvictBefore pos => Some (evict_before pos c)
  | Reset => Some (reset c)
  end.

(** The cache after a sequence of operations, and the blocks freed by evictions. *)
Fixpoint run (ops : list op) (c : KvCache) : option (KvCache * list block) :=
  match ops with
  | [] => Some (c, [])
  | o :: ops' => '(c, freed) ← exec o c; '(c, freed') ← run ops' c; Some (c, freed ++ freed')
  end.

(** Eviction at [pos] forgets the whole blocks below it. *)
Definition spec_step (w : window) (o : op) : window :=
  match o with
  | Append k v => {| tokens := tokens w ++ [(k, v)]; floor := floor w |}
  | EvictBefore pos => {| tokens := tokens w; floor := Nat.max (floor w) (16 * (Nat.min pos (length (tokens w)) / 16)) |}
  | Reset => {| tokens := []; floor := 0 |}
  end.
Definition spec_run (ops : list op) : window := foldl spec_step {| tokens := []; floor := 0 |} ops.

Definition op_ok (dk dv : nat) (o : op) : Prop :=
  match o with Append k v => length k = dk /\ length v = dv | _ => True end.

Record holds (dk dv : nat) (w : window) (c : KvCache) : Prop := {
  hd_dims : kv_dim c = dk /\ v_dim c = dv;
  hd_len : seq_len c = length (tokens w);
  hd_floor : floor w = 16 * evicted_blocks c;
  hd_keys : half_ok dk (evicted_blocks c) (tokens w).*1 (keys_blocks c) (free_keys c);
  hd_values : half_ok dv (evicted_blocks c) (tokens w).*2 (values_blocks c) (free_values c);
}.

Lemma half_ok_empty dim : half_ok dim 0 [] [] [].
Proof. split; try done; simpl; lia. Qed.

Lemma window_holds_new dk dv : holds dk dv {| tokens := []; floor := 0 |} (new_kv dk dv).
Proof. split; try done; apply half_ok_empty. Qed.

Lemma evict_before_holds dk dv w c pos :
  holds dk dv w c ->
  holds dk dv (spec_step w (EvictBefore pos)) (fst (evict_before pos c)) /\
  (snd (evict_before pos c) <> [] -> length (free_keys (fst (evict_before pos c))) = FREE_BLOCKS_CAP \/
                                     length (free_values (fst (evict_before pos c))) = FREE_BLOCKS_CAP).
Proof.
  intros [Hd Hl Hf Hk Hv]. unfold evict_before, PAGED_BLOCK_TOKENS. rewrite Hl.
  set (target := Nat.min pos (length (tokens w)) / 16).
  assert (Ht : target <= length (tokens w) / 16) by (subst target; apply Nat.Div0.div_le_mono; lia).
  pose proof (ho_count _ _ _ _ _ Hk) as Hck. rewrite length_fmap in Hck.
  destruct (Nat.leb_spec target (evicted_blocks c)) as [Hle|Hlt]; cbn [fst snd].
  { split; [|done]. split; try done. cbn [spec_step floor tokens]. rewrite Hf. fold target. lia. }
  rewrite Nat.min_l by div_lia. destruct (Nat.eqb_spec (target - evicted_blocks c) 0); [lia|].
  destruct (evict_half_ok _ _ _ _ _ (target - evicted_blocks c) Hk) as (fk & dk' & -> & Hk' & Ok'); [rewrite length_fmap; lia|].
  destruct (evict_half_ok _ _ _ _ _ (target - evicted_blocks c) Hv) as (fv & dv' & -> & Hv' & Ov'); [rewrite length_fmap; lia|].
  cbn [fst snd]. split.
  - split; try done. cbn [spec_step floor tokens evicted_blocks]. rewrite Hf. fold target. lia.
  - intros Hne. cbn [free_keys free_values]. destruct Ok' as [->|]; [|by left]. destruct Ov' as [->|]; [done|by right].
Qed.

Lemma exec_holds dk dv w c o :
  holds dk dv w c -> op_ok dk dv o ->
  exists c' freed, exec o c = Some (c', freed) /\ holds dk dv (spec_step w o) c'.
Proof.
  intros Hh Ho. destruct o as [k v|pos|].
  - destruct Hh as [[Hdk Hdv] Hl Hf Hk Hv]. destruct Ho as [Hlk Hlv]. cbn [exec]. unfold append.
    destruct (append_half_ok _ _ _ _ _ k Hk Hlk) as (kb & fk & Ek & Hk'). rewrite length_fmap in Ek.
    destruct (append_half_ok _ _ _ _ _ v Hv Hlv) as (vb & fv & Ev & Hv'). rewrite length_fmap in Ev.
    rewrite Hdk, Hdv, Hl, Ek. cbn [mbind option_bind]. rewrite Ev. cbn [mbind option_bind].
    do 2 eexists. split; [reflexivity|]. split; cbn [kv_dim v_dim seq_len evicted_blocks keys_blocks values_blocks
      free_keys free_values spec_step tokens floor]; [done|rewrite length_app; simpl; lia|done|by rewrite fmap_app|by rewrite fmap_app].
  - cbn [exec]. destruct (evict_before_holds dk dv w c pos Hh) as [Hh' _].
    destruct (evict_before pos c) as [c' freed]. eauto.
  - destruct Hh as [Hd _ _ _ _]. cbn [exec]. do 2 eexists. split; [reflexivity|].
    split; try done; apply half_ok_empty.
Qed.

Lemma run_holds dk dv w c ops :
  holds dk dv w c -> Forall (op_ok dk dv) ops ->
  exists c' freed, run ops c = Some (c', freed) /\ holds dk dv (foldl spec_step w ops) c'.
Proof.
  intros Hh Ho. revert w c Hh. induction Ho as [|o ops Ho _ IH]; intros w c Hh; cbn [run foldl]; [eauto|].
  destruct (exec_holds dk dv w c o Hh Ho) as (c1 & f1 & -> & Hh1). cbn [mbind option_bind].
  destruct (IH _ _ Hh1) as (c2 & f2 & -> & Hh2). cbn [mbind option_bind]. eauto.
Qed.

(** C32. The paged cache is the list of tokens appended since the last reset, seen
    through a window.  Any sequence of appends of the right widths, evictions and
    resets runs without a panic; every position from the floor on reads back
    exactly what was appended there, recycled blocks or not, and a position below
    it is never served; memory is bounded by the window and the free list by its
    cap. *)
Theorem kv_cache_refines_window dk dv ops :
  Forall (op_ok dk dv) ops ->
  exists c freed, run ops (new_kv dk dv) = Some (c, freed) /\
    let w := spec_run ops in
    seq_len c = length (tokens w) /\ floor w <= seq_len c /\
    (forall i k v, tokens w !! i = Some (k, v) -> floor w <= i -> key c i = Some k /\ value c i = Some v) /\
    (forall i, i < floor w -> key c i = None /\ value c i = None) /\
    16 * num_blocks c <= seq_len c - floor w + 15 /\
    free_blocks c <= FREE_BLOCKS_CAP.
Proof.
  intros Ho. destruct (run_holds dk dv _ _ ops (window_holds_new dk dv) Ho) as (c & freed & Hr & [[Hdk Hdv] Hl Hf Hk Hv]).
  fold (spec_run ops) in *. exists c, freed. split; [done|]. cbn zeta.
  pose proof (ho_count _ _ _ _ _ Hk) as Hc. pose proof (ho_evicted _ _ _ _ _ Hk) as He. rewrite length_fmap in Hc, He.
  split_and!.
  - done.
  - rewrite Hf, Hl. div_lia.
  - intros i k v Hi Hge. unfold key, value. rewrite Hdk, Hdv.
    split; (eapply read_row_ok; [done|by rewrite list_lookup_fmap, Hi|lia]).
  - intros i Hi. unfold key, value, read_row, PAGED_BLOCK_TOKENS.
    destruct (Nat.ltb_spec (i / 16) (evicted_blocks c)); [done|div_lia].
  - unfold num_blocks. rewrite Hf, Hl. div_lia.
  - apply (ho_free _ _ _ _ _ Hk).
Qed.

(** ** Zeroization *)

Definition scrubbed (b : block) : Prop := Forall (fun x => x = 0%N) b.

Lemma zeroize_block_scrubbed b : scrubbed (zeroize_block b) /\ length (zeroize_block b) = length b.
Proof.
  unfold zeroize_block. split; [|apply length_fmap]. apply Forall_fmap, Forall_true. done.
Qed.

(** [zeroize] gives back every block the cache holds, recycled ones included, each
    overwritten in full, and leaves an empty cache. *)
Lemma zeroize_spec c :
  let '(c', freed) := zeroize c in
  c' = fst (reset c) /\ freed = zeroize_block <$> all_blocks c /\ Forall scrubbed freed.
Proof.
  unfold zeroize, reset, all_blocks. cbn. split; [done|].
  assert (H : zeroize_blocks (keys_blocks c) ++ zeroize_blocks (values_blocks c) ++
    zeroize_blocks (free_keys c) ++ zeroize_blocks (free_values c) =
    zeroize_block <$> (keys_blocks c ++ values_blocks c ++ free_keys c ++ free_values c)) by (unfold zeroize_blocks; by rewrite !fmap_app).
  rewrite H. split; [done|]. apply Forall_fmap, Forall_true. intros b. apply zeroize_block_scrubbed.
Qed.

(** Eviction hands blocks back without zeroizing them once the free list is full: nine
    blocks dropped at once free the last pair with the request's rows in it. *)
Definition nine_blocks : list op := replicate 144 (Append [7%N] [8%N]) ++ [EvictBefore 144].

Example eviction_frees_unscrubbed : exists c,
  run nine_blocks (new_kv 1 1) = Some (c, [replicate 16 7%N; replicate 16 8%N]).
Proof. eexists. vm_compute. reflexivity. Qed.

Module Witness.

Lemma kv_cache_refines_window_witness :
  let ops := replicate 40 (Append [7%N] [8%N]) ++ [EvictBefore 35; Append [9%N] [10%N]] in
  exists c freed, run ops (new_kv 1 1) = Some (c, freed) /\
    let w := spec_run ops in
    seq_len c = length (tokens w) /\ floor w <= seq_len c /\
    (forall i k v, tokens w !! i = Some (k, v) -> floor w <= i -> key c i = Some k /\ value c i = Some v) /\
    (forall i, i < floor w -> key c i = None /\ value c i = None) /\
    16 * num_blocks c <= seq_len c - floor w + 15 /\
    free_blocks c <= FREE_BLOCKS_CAP.
Proof. apply (kv_cache_refines_window 1 1). repeat constructor. Defined.

End Witness.
