(* ===== verification/Session.v ===== *)
(** The session store ([src/rust-engine/src/session.rs]): KV caches kept between the
    requests of a conversation, checked out by one request at a time.

    A method is a program over atomic operations of the shared maps (one [DashMap] or
    atomic operation each).  Run alone, a program is a function on the store; run
    by several threads, the operations interleave.  [freed] is a ghost log of the KV
    blocks given back to the allocator. *)
From stdpp Require Import strings.
From S2P Require Import Prelude KvCache.
Local Open Scope N_scope.

Record SessionState := {
  kv : list KvCache;
  position : N;
  pending_token : option N;
  last_used : N;
}.

Definition session_new (kv : list KvCache) (now : N) : SessionState :=
  {| kv := kv; position := 0; pending_token := None; last_used := now |}.

Record SessionStore := {
  inner : gmap string SessionState;
  in_flight : gmap string N;
  tombstones : gset string;
  next_checkout : N;
  freed : list (list N);
}.

Definition store_new : SessionStore :=
  {| inner := ∅; in_flight := ∅; tombstones := ∅; next_checkout := 1; freed := [] |}.

Record SessionCheckout := { c_id : string; token : N }.

Definition with_inner (m : gmap string SessionState) (s : SessionStore) : SessionStore :=
  {| inner := m; in_flight := in_flight s; tombstones := tombstones s; next_checkout := next_checkout s; freed := freed s |}.
Definition with_in_flight (m : gmap string N) (s : SessionStore) : SessionStore :=
  {| inner := inner s; in_flight := m; tombstones := tombstones s; next_checkout := next_checkout s; freed := freed s |}.
Definition with_tombstones (t : gset string) (s : SessionStore) : SessionStore :=
  {| inner := inner s; in_flight := in_flight s; tombstones := t; next_checkout := next_checkout s; freed := freed s |}.
Definition free (bs : list (list N)) (s : SessionStore) : SessionStore :=
  {| inner := inner s; in_flight := in_flight s; tombstones := tombstones s; next_checkout := next_checkout s;
     freed := freed s ++ bs |}.

(** ** Programs *)

Inductive prog (A : Type) : Type :=
| Ret (a : A)
| Atomic (R : Type) (f : SessionStore -> R * SessionStore) (k : R -> prog A).
Arguments Ret {A} a.
Arguments Atomic {A R} f k.

Fixpoint prog_bind {A B} (f : A -> prog B) (p : prog A) : prog B :=
  match p with
  | Ret a => f a
  | Atomic op k => Atomic op (fun r => prog_bind f (k r))
  end.
#[export] Instance prog_mbind : MBind prog := fun A B => prog_bind.
#[export] Instance prog_mret : MRet prog := fun A => Ret.

(** One thread alone. *)
Fixpoint run {A} (p : prog A) (s : SessionStore) : A * SessionStore :=
  match p with
  | Ret a => (a, s)
  | Atomic f k => let '(r, s) := f s in run (k r) s
  end.

Definition atomic {R} (f : SessionStore -> R * SessionStore) : prog R := Atomic f Ret.

(** ** The operations of the maps *)

Definition tombstones_contains (id : string) : prog bool :=
  atomic (fun s => (bool_decide (id ∈ tombstones s), s)).
Definition tombstones_insert (id : string) : prog unit :=
  atomic (fun s => (tt, with_tombstones ({[id]} ∪ tombstones s) s)).
Definition tombstones_remove (id : string) : prog unit :=
  atomic (fun s => (tt, with_tombstones (tombstones s ∖ {[id]}) s)).
(** [fetch_add], which wraps. *)
Definition next_checkout_fetch_add : prog N :=
  atomic (fun s => (next_checkout s,
    {| inner := inner s; in_flight := in_flight s; tombstones := tombstones s;
       next_checkout := wrap_add u64_max (next_checkout s) 1; freed := freed s |})).
(** The vacant arm of [in_flight.entry(key)]: whether [t] was inserted. *)
Definition in_flight_insert_vacant (id : string) (t : N) : prog bool :=
  atomic (fun s => match in_flight s !! id with
                   | Some _ => (false, s)
                   | None => (true, with_in_flight (<[id := t]> (in_flight s)) s) end).
Definition in_flight_get (id : string) : prog (option N) := atomic (fun s => (in_flight s !! id, s)).
Definition in_flight_contains (id : string) : prog bool :=
  atomic (fun s => (bool_decide (is_Some (in_flight s !! id)), s)).
Definition in_flight_remove (id : string) : prog unit :=
  atomic (fun s => (tt, with_in_flight (delete id (in_flight s)) s)).
(** [remove_if(&id, |_, v| *v == token)]. *)
Definition in_flight_remove_if (id : string) (t : N) : prog unit :=
  atomic (fun s => (tt, if decide (in_flight s !! id = Some t)
                        then with_in_flight (delete id (in_flight s)) s else s)).
Definition inner_remove (id : string) : prog (option SessionState) :=
  atomic (fun s => (inner s !! id, with_inner (delete id (inner s)) s)).
Definition state_blocks (st : SessionState) : list (list N) := kv st ≫= all_blocks.
(** A replaced value is dropped as it is. *)
Definition inner_insert (id : string) (st : SessionState) : prog unit :=
  atomic (fun s => (tt, free (from_option state_blocks [] (inner s !! id)) (with_inner (<[id := st]> (inner s)) s))).

(** [zeroize_in_place] and the drop that follows it: what is left in a zeroized cache
    owns no block. *)
Definition zeroize_in_place (st : SessionState) : prog unit :=
  atomic (fun s => (tt, free (kv st ≫= fun c => snd (zeroize c)) s)).

(** ** The methods *)

(** [SessionCheckout::drop] of an armed guard. *)
Definition drop_checkout (g : SessionCheckout) : prog unit := in_flight_remove_if (c_id g) (token g).

Definition take (id : string) : prog (option (SessionState * SessionCheckout)) :=
  dead ← tombstones_contains id;
  if dead : bool then Ret None else
  t ← next_checkout_fetch_add;
  vacant ← in_flight_insert_vacant id t;
  if negb vacant then Ret None else
  let guard := {| c_id := id; token := t |} in
  removed ← inner_remove id;
  match removed with
  | Some state =>
      dead ← tombstones_contains id;
      if dead : bool then zeroize_in_place state ≫= fun _ => drop_checkout guard ≫= fun _ => Ret None
      else Ret (Some (state, guard))
  | None => drop_checkout guard ≫= fun _ => Ret None
  end.

(** [guard.id == id && in_flight.get(&id).map(|v| *v == token).unwrap_or(false)]. *)
Definition owns_marker (id : string) (g : SessionCheckout) : prog bool :=
  if decide (c_id g = id)
  then v ← in_flight_get id; Ret (bool_decide (v = Some (token g)))
  else Ret false.

Definition put_tail (id : string) (state : SessionState) (was_checked_out : bool) (now : N) : prog unit :=
  dead ← tombstones_contains id;
  if dead : bool then
    (if was_checked_out then tombstones_remove id else Ret tt) ≫= fun _ => zeroize_in_place state
  else inner_insert id {| kv := kv state; position := position state; pending_token := pending_token state;
                          last_used := now |}.

Definition put (id : string) (state : SessionState) (checkout : option SessionCheckout) (now : N) : prog unit :=
  match checkout with
  | Some guard =>
      owns ← owns_marker id guard;
      if negb owns then zeroize_in_place state ≫= fun _ => drop_checkout guard
      else in_flight_remove id ≫= fun _ => put_tail id state true now
  | None => put_tail id state false now
  end.

Definition delete_session (id : string) : prog bool :=
  removed ← inner_remove id;
  match removed with
  | Some state => zeroize_in_place state ≫= fun _ => tombstones_remove id ≫= fun _ => Ret true
  | None =>
      flying ← in_flight_contains id;
      if flying : bool then tombstones_insert id ≫= fun _ => Ret true else Ret false
  end.

(** Idle for longer than [ttl]; [duration_since] saturates. *)
Definition is_expired (ttl now : N) (st : SessionState) : bool := ttl <? now - last_used st.

Definition inner_remove_if_expired (id : string) (ttl now : N) : prog (option SessionState) :=
  atomic (fun s => match inner s !! id with
                   | Some st => if is_expired ttl now st then (Some st, with_inner (delete id (inner s)) s) else (None, s)
                   | None => (None, s) end).

(** The removal loop, over the keys the scan found. *)
Fixpoint evict_keys (ids : list string) (ttl now removed : N) : prog N :=
  match ids with
  | [] => Ret removed
  | id :: ids' =>
      st ← inner_remove_if_expired id ttl now;
      match st with
      | Some st => zeroize_in_place st ≫= fun _ => evict_keys ids' ttl now (removed + 1)
      | None => evict_keys ids' ttl now removed
      end
  end.

(** The scan of the map for expired keys, in its iteration order. *)
Definition expired_keys (ttl now : N) (s : SessionStore) : list string :=
  (List.filter (fun p => is_expired ttl now (snd p)) (map_to_list (inner s))).*1.

Definition evict_expired (ttl now : N) : prog N :=
  if ttl =? 0 then Ret 0 else
  ids ← atomic (fun s => (expired_keys ttl now s, s));
  evict_keys ids ttl now 0.

(** ** Threads *)

(** A thread holds armed guards and may be inside a call, which ends with the guards
    it hands back. *)
Record thread := { held : list SessionCheckout; pending : option (prog (list SessionCheckout)) }.
Definition idle (gs : list SessionCheckout) : thread := {| held := gs; pending := None |}.

Definition returns {A} (p : prog A) (gs : A -> list SessionCheckout) : prog (list SessionCheckout) :=
  p ≫= fun a => Ret (gs a).
Definition checkout_of (r : option (SessionState * SessionCheckout)) : list SessionCheckout :=
  match r with Some (_, g) => [g] | None => [] end.

(** The calls a client makes, and the guards each consumes.  A call with a guard
    takes it by value. *)
Inductive call : list SessionCheckout -> prog (list SessionCheckout) -> Prop :=
| CallTake id : call [] (returns (take id) checkout_of)
| CallPut id st now : call [] (returns (put id st None now) (fun _ => []))
| CallPutBack id st g now : call [g] (returns (put id st (Some g) now) (fun _ => []))
| CallDrop g : call [g] (returns (drop_checkout g) (fun _ => []))
| CallDelete id : call [] (returns (delete_session id) (fun _ => []))
| CallEvict ttl now : call [] (returns (evict_expired ttl now) (fun _ => []))
| CallEvictScan ids ttl now : call [] (returns (evict_keys ids ttl now 0) (fun _ => [])).

Inductive thread_step : SessionStore -> thread -> SessionStore -> thread -> Prop :=
| StepCall s gs gs' used p :
    gs ≡ₚ used ++ gs' -> call used p ->
    thread_step s (idle gs) s {| held := gs'; pending := Some p |}
| StepAtomic s gs R (f : SessionStore -> R * SessionStore) k :
    thread_step s {| held := gs; pending := Some (Atomic f k) |}
      (snd (f s)) {| held := gs; pending := Some (k (fst (f s))) |}
| StepReturn s gs gs' :
    thread_step s {| held := gs; pending := Some (Ret gs') |} s (idle (gs ++ gs')).

Definition world : Type := SessionStore * list thread.
Inductive world_step : world -> world -> Prop :=
| WorldStep s ts i t s' t' :
    ts !! i = Some t -> thread_step s t s' t' -> world_step (s, ts) (s', <[i := t']> ts).

(** ** Rely-guarantee: which guards are alive *)

(** Every live guard owns its marker, and no two share an id. *)
Definition markers (s : SessionStore) (gs : list SessionCheckout) : Prop :=
  Forall (fun g => in_flight s !! c_id g = Some (token g)) gs /\ NoDup (c_id <$> gs).

(** A program that starts with the guards [gs] to itself: whatever the other threads
    own, each of its operations keeps the markers, and it returns what it still
    owns. *)
Fixpoint obeys (gs : list SessionCheckout) (p : prog (list SessionCheckout)) : Prop :=
  match p with
  | Ret gs' => gs' ≡ₚ gs
  | Atomic f k => forall s others, markers s (gs ++ others) ->
      exists gs', markers (snd (f s)) (gs' ++ others) /\ obeys gs' (k (fst (f s)))
  end.

Arguments obeys : simpl never.
Lemma obeys_ret gs : obeys gs (Ret gs).
Proof. unfold obeys. done. Qed.
#[local] Hint Resolve obeys_ret : core.

#[export] Instance markers_proper s : Proper ((≡ₚ) ==> iff) (markers s).
Proof. intros l k H. unfold markers. by rewrite H. Qed.

Lemma markers_in_flight s s' gs : in_flight s' = in_flight s -> markers s gs -> markers s' gs.
Proof. unfold markers. by intros ->. Qed.

(** The shape of a step that leaves the markers alone. *)
Lemma obeys_atomic {R} gs (f : SessionStore -> R * SessionStore) k :
  (forall s, in_flight (snd (f s)) = in_flight s) -> (forall r, obeys gs (k r)) -> obeys gs (Atomic f k).
Proof.
  intros Hf Hk s others Hm. exists gs. split; [apply (markers_in_flight s); [apply Hf|done]|apply Hk].
Qed.

Lemma obeys_remove (g : SessionCheckout) f k :
  (forall s, in_flight s !! c_id g = Some (token g) -> f s = (tt, with_in_flight (delete (c_id g) (in_flight s)) s)) ->
  obeys [] (k tt) -> obeys [g] (Atomic f k).
Proof.
  intros Hf Hk s others [Hg Hnd]. exists []. simpl in *. apply Forall_cons_1 in Hg as [Hg Ho].
  rewrite Hf by done. split; [|done]. apply NoDup_cons in Hnd as [Hn Hnd]. split; [|done].
  apply Forall_forall. intros g' Hg'. rewrite Forall_forall in Ho. simpl. rewrite lookup_delete_ne; [by apply Ho|].
  intros E. apply Hn. rewrite E. apply list_elem_of_fmap. eauto.
Qed.

Ltac silent := apply obeys_atomic; [done|intros].

Lemma obeys_drop g k : obeys [] (k tt) -> obeys [g] (prog_bind k (drop_checkout g)).
Proof. intros Hk. simpl. apply obeys_remove; [|done]. intros s Hs. cbn beta. by rewrite decide_True. Qed.

Lemma obeys_take id : obeys [] (returns (take id) checkout_of).
Proof.
  unfold returns, take. simpl. silent. destruct r; [done|]. silent. intros s others [Hg Hnd].
  destruct (in_flight s !! id) as [t|] eqn:E; simpl; [by exists []|].
  exists [{| c_id := id; token := r |}]. split.
  - simpl. split.
    + constructor; [apply lookup_insert_eq|]. eapply Forall_impl; [exact Hg|]. intros g Hg'.
      simpl in *. rewrite lookup_insert_ne; [done|congruence].
    + csimpl. constructor; [|done]. intros (g & -> & Hin)%list_elem_of_fmap.
      rewrite Forall_forall in Hg. specialize (Hg g Hin). congruence.
  - silent. destruct r0 as [st|]; simpl.
    + silent. destruct r0; [|done]. simpl. silent. apply (obeys_drop {| c_id := id; token := r |}). done.
    + apply (obeys_drop {| c_id := id; token := r |}). done.
Qed.

Lemma obeys_put_tail id st b now : obeys [] (returns (put_tail id st b now) (fun _ => [])).
Proof. unfold returns, put_tail. simpl. silent. destruct r, b; simpl; repeat silent; done. Qed.

Lemma obeys_put_back id st g now : obeys [g] (returns (put id st (Some g) now) (fun _ => [])).
Proof.
  unfold returns, put, owns_marker. case_decide as Hid; simpl.
  - intros s others Hm. exists [g]. split; [done|]. destruct Hm as [Hg _]. simpl in Hg.
    apply Forall_cons_1 in Hg as [Hg _]. rewrite <-Hid, Hg, bool_decide_true by done. simpl.
    apply obeys_remove; [by rewrite Hid|]. rewrite Hid. apply (obeys_put_tail id st true now).
  - silent. apply obeys_drop. done.
Qed.

Lemma obeys_evict ids ttl now removed : obeys [] (returns (evict_keys ids ttl now removed) (fun _ => [])).
Proof.
  unfold returns. revert removed. induction ids as [|id ids IH]; intros removed; [done|]. simpl.
  apply obeys_atomic; [intros s; by repeat case_match|]. intros [st|]; simpl; [silent|]; apply IH.
Qed.

Lemma call_obeys used p : call used p -> obeys used p.
Proof.
  destruct 1.
  - apply obeys_take.
  - apply obeys_put_tail.
  - apply obeys_put_back.
  - by apply (obeys_drop g (fun _ => Ret [])).
  - unfold returns, delete_session. simpl. silent. destruct r; simpl; silent; [by silent|].
    destruct r; simpl; [by silent|done].
  - unfold returns, evict_expired. destruct (ttl =? 0); [done|]. simpl. silent. apply obeys_evict.
  - apply obeys_evict.
Qed.

(** The guards of a thread: those it holds, and those its call owns. *)
Definition thread_ok (t : thread) (gs : list SessionCheckout) : Prop :=
  exists own, gs = held t ++ own /\ match pending t with None => own = [] | Some p => obeys own p end.

Definition world_ok (w : world) : Prop :=
  exists owns, Forall2 thread_ok (snd w) owns /\ markers (fst w) (concat owns).

Lemma concat_insert {A} (ll : list (list A)) i l l' :
  ll !! i = Some l -> exists rest, concat ll ≡ₚ l ++ rest /\ concat (<[i := l']> ll) ≡ₚ l' ++ rest.
Proof.
  intros Hi. exists (concat (firstn i ll) ++ concat (drop (S i) ll)).
  rewrite insert_take_drop by (by eapply lookup_lt_Some). rewrite <-(take_drop_middle ll i l Hi) at 1.
  rewrite !concat_app. simpl. split; solve_Permutation.
Qed.

Lemma thread_step_ok s t gs rest s' t' :
  thread_step s t s' t' -> thread_ok t gs -> markers s (gs ++ rest) ->
  exists gs', thread_ok t' gs' /\ markers s' (gs' ++ rest).
Proof.
  intros Hst (own & -> & Hown) Hm. destruct Hst as [s gs gs' used p Hp Hc|s gs R f k|s gs gs']; simpl in *.
  - subst own. exists (gs' ++ used). split; [exists used; split; [done|by apply call_obeys]|].
    rewrite app_nil_r, Hp in Hm. by rewrite (Permutation_app_comm gs' used).
  - destruct (Hown s (gs ++ rest)) as (own' & Hm' & Hk).
    { assert (own ++ gs ++ rest ≡ₚ (gs ++ own) ++ rest) as -> by solve_Permutation. exact Hm. }
    exists (gs ++ own'). split; [by exists own'|].
    assert ((gs ++ own') ++ rest ≡ₚ own' ++ gs ++ rest) as -> by solve_Permutation. exact Hm'.
  - exists (gs ++ gs'). split; [exists []; by rewrite app_nil_r|]. by rewrite Hown.
Qed.

Lemma world_step_ok w w' : world_ok w -> world_step w w' -> world_ok w'.
Proof.
  intros (owns & Hts & Hm) Hst. destruct Hst as [s ts i t s' t' Hi Hst]. simpl in *.
  destruct (Forall2_lookup_l _ _ _ _ _ Hts Hi) as (gs & Hgs & Hok).
  destruct (concat_insert owns i gs [] Hgs) as (rest & Hp & _). rewrite Hp in Hm.
  destruct (thread_step_ok s t gs rest s' t' Hst Hok Hm) as (gs' & Hok' & Hm').
  exists (<[i := gs']> owns). split; [by apply Forall2_insert|]. simpl.
  destruct (concat_insert owns i gs gs' Hgs) as (rest' & Hp1 & Hp2). rewrite Hp2.
  assert (Hrr : rest ≡ₚ rest') by (apply (Permutation_app_inv_l gs); by rewrite <-Hp, <-Hp1). by rewrite <-Hrr.
Qed.

(** C33. Checkouts are exclusive, in every interleaving.  However the atomic operations
    of takes, puts, deletes, guard drops and evictions of any number of threads
    interleave, the guards held are for pairwise distinct sessions and each owns the
    in-flight marker of its session: two requests never work on one session's
    state. *)
Theorem checkouts_are_exclusive n w :
  rtc world_step (store_new, replicate n (idle [])) w ->
  let guards := snd w ≫= held in
  NoDup (c_id <$> guards) /\ Forall (fun g => in_flight (fst w) !! c_id g = Some (token g)) guards.
Proof.
  intros Hr. assert (Hok : world_ok w).
  { assert (H0 : world_ok (store_new, replicate n (idle []))).
    { exists (replicate n []). split; simpl.
      - apply Forall2_replicate. by exists [].
      - assert (concat (replicate n (@nil SessionCheckout)) = []) as -> by (clear; induction n; simpl; auto). split; constructor. }
    revert H0. induction Hr as [|w1 w2 w3 Hst _ IH]; [done|]. intros H0. by eapply IH, world_step_ok. }
  destruct Hok as (owns & Hts & Hm & Hnd). destruct w as [s ts]. simpl in *.
  assert (Hsub : (ts ≫= held) ⊆+ concat owns).
  { clear Hm Hnd Hr. induction Hts as [|t gs ts owns Ht _ IH]; [done|]. cbn [mbind list_bind concat].
    destruct Ht as (own & -> & _). rewrite <-app_assoc. apply submseteq_app; [done|]. by apply submseteq_inserts_l. }
  split.
  - apply submseteq_Permutation in Hsub as [k Hk]. rewrite Hk, fmap_app in Hnd. by apply NoDup_app in Hnd as [? _].
  - apply Forall_forall. intros g Hg. rewrite Forall_forall in Hm. apply Hm. by apply (elem_of_submseteq _ _ _ Hg).
Qed.

(** ** Histories of whole calls *)

(** Requests against the store, one call at a time; [RPutBack] and [RDrop] use the
    [i]-th guard held. *)
Inductive req :=
| RTake (id : string)
| RPut (id : string) (st : SessionState) (now : N)
| RPutBack (i : nat) (id : string) (st : SessionState) (now : N)
| RDrop (i : nat)
| RDelete (id : string)
| REvict (ttl now : N).

Definition history : Type := SessionStore * list SessionCheckout.

(** What a request hands out, and the history after. *)
Definition serve (r : req) (h : history) : option (string * SessionState) * history :=
  let '(s, gs) := h in
  match r with
  | RTake id =>
      match run (take id) s with
      | (Some (st, g), s') => (Some (id, st), (s', gs ++ [g]))
      | (None, s') => (None, (s', gs))
      end
  | RPut id st now => (None, (snd (run (put id st None now) s), gs))
  | RPutBack i id st now =>
      match gs !! i with
      | Some g => (None, (snd (run (put id st (Some g) now) s), delete i gs))
      | None => (None, h)
      end
  | RDrop i =>
      match gs !! i with
      | Some g => (None, (snd (run (drop_checkout g) s), delete i gs))
      | None => (None, h)
      end
  | RDelete id => (None, (snd (run (delete_session id) s), gs))
  | REvict ttl now => (None, (snd (run (evict_expired ttl now) s), gs))
  end.

(** The sessions handed out by a sequence of requests. *)
Fixpoint serve_all (rs : list req) (h : history) : list (string * SessionState) * history :=
  match rs with
  | [] => ([], h)
  | r :: rs' =>
      let '(o, h) := serve r h in
      let '(os, h) := serve_all rs' h in
      (option_list o ++ os, h)
  end.

Definition new_history : history := (store_new, []).

(** Running a program alone keeps the markers too. *)
Lemma obeys_run gs p s others :
  obeys gs p -> markers s (gs ++ others) -> let '(gs', s') := run p s in markers s' (gs' ++ others).
Proof.
  revert gs s. induction p as [gs'|R f k IH]; intros gs s Hp Hm; simpl.
  - unfold obeys in Hp. by rewrite Hp.
  - destruct (Hp s others Hm) as (gs1 & Hm1 & Hk). destruct (f s) as [r s1]. simpl in *. by apply (IH r gs1 s1).
Qed.

Lemma run_bind {A B} (p : prog A) (f : A -> prog B) s :
  run (p ≫= f) s = let '(a, s') := run p s in run (f a) s'.
Proof. revert s. induction p as [a|R op k IH]; intros s; simpl; [done|]. destruct (op s). apply IH. Qed.

Lemma run_returns {A} (p : prog A) gs s :
  run (returns p gs) s = (gs (fst (run p s)), snd (run p s)).
Proof. unfold returns. rewrite run_bind. by destruct (run p s). Qed.

Lemma obeys_run_returns {A} (p : prog A) (gs : A -> list SessionCheckout) used s others :
  obeys used (returns p gs) -> markers s (used ++ others) ->
  markers (snd (run p s)) (gs (fst (run p s)) ++ others).
Proof. intros Hp Hm. pose proof (obeys_run _ _ _ _ Hp Hm) as H. by rewrite run_returns in H. Qed.

Lemma serve_markers r s gs : markers s gs -> let '(s', gs') := snd (serve r (s, gs)) in markers s' gs'.
Proof.
  intros Hm. destruct r as [id|id st now|i id st now|i|id|ttl now]; cbn [serve].
  - pose proof (obeys_run_returns _ checkout_of [] s gs (obeys_take id) Hm) as H.
    destruct (run (take id) s) as [[[st g]|] s']; simpl in *; [|done]. by rewrite (Permutation_app_comm gs).
  - by apply (obeys_run_returns _ _ _ s gs (call_obeys _ _ (CallPut id st now))).
  - destruct (gs !! i) as [g|] eqn:Hg; [|done]. rewrite (delete_Permutation _ _ _ Hg) in Hm.
    by apply (obeys_run_returns _ _ _ s _ (call_obeys _ _ (CallPutBack id st g now))).
  - destruct (gs !! i) as [g|] eqn:Hg; [|done]. rewrite (delete_Permutation _ _ _ Hg) in Hm.
    by apply (obeys_run_returns _ _ _ s _ (call_obeys _ _ (CallDrop g))).
  - by apply (obeys_run_returns _ _ _ s gs (call_obeys _ _ (CallDelete id))).
  - by apply (obeys_run_returns _ _ _ s gs (call_obeys _ _ (CallEvict ttl now))).
Qed.

(** A session that cannot come back: not resident, and any checkout of it condemned. *)
Definition gone (id : string) (s : SessionStore) : Prop :=
  inner s !! id = None /\ (in_flight s !! id = None \/ id ∈ tombstones s).

Arguments with_inner _ _ /.
Arguments with_in_flight _ _ /.
Arguments with_tombstones _ _ /.
Arguments free _ _ /.

(** Split a run into the cases of its operations. *)
Ltac simp :=
  repeat first
    [ progress cbn | rewrite lookup_insert_eq | rewrite lookup_delete_eq
    | rewrite lookup_insert_ne by congruence | rewrite lookup_delete_ne by congruence
    | match goal with H : _ !! _ = _ |- _ => rewrite H end ].
Ltac cases :=
  simp;
  repeat (match goal with
    | |- context [bool_decide ?P] => destruct (bool_decide_reflect P)
    | |- context [decide ?P] => destruct (decide P)
    | |- context [match ?m !! ?i with _ => _ end] => destruct (m !! i) eqn:?
    | |- context [if ?b then _ else _] => is_var b; destruct b
    end; simp); subst; simplify_eq; try done.

Lemma take_gone id id' s :
  gone id s -> gone id (snd (run (take id') s)) /\ (id' = id -> fst (run (take id') s) = None).
Proof.
  unfold gone. intros [Hi Hf]. destruct (decide (id' = id)) as [->|Hne]; cases; set_solver.
Qed.

Lemma put_fresh_gone id id' st now s : id' <> id -> gone id s -> gone id (snd (run (put id' st None now) s)).
Proof. unfold gone. intros Hne [Hi Hf]. cases; set_solver. Qed.

Lemma put_back_gone id id' st g now s :
  in_flight s !! c_id g = Some (token g) -> gone id s -> gone id (snd (run (put id' st (Some g) now) s)).
Proof.
  unfold gone. intros Hg [Hi Hf]. unfold put, owns_marker.
  destruct (decide (id' = id)) as [->|Hne]; destruct (decide (c_id g = id)) as [<-|Hne']; cases; set_solver.
Qed.

Lemma drop_gone id g s : gone id s -> gone id (snd (run (drop_checkout g) s)).
Proof. unfold gone. intros [Hi Hf]. destruct (decide (c_id g = id)) as [<-|]; cases; set_solver. Qed.

Lemma delete_gone id id' s : gone id s -> gone id (snd (run (delete_session id') s)).
Proof. unfold gone. intros [Hi Hf]. destruct (decide (id' = id)) as [->|]; cases; set_solver. Qed.

Lemma evict_keys_gone id ids ttl now n s : gone id s -> gone id (snd (run (evict_keys ids ttl now n) s)).
Proof.
  revert n s. induction ids as [|id' ids IH]; intros n s Hs; [done|].
  cbn [evict_keys]. rewrite run_bind. unfold inner_remove_if_expired, atomic. cbn [run].
  destruct (inner s !! id') as [st|] eqn:E; [|by apply IH]. destruct (is_expired ttl now st); [|by apply IH].
  rewrite run_bind. cbn [run zeroize_in_place atomic]. apply IH. unfold gone in *. simpl. destruct Hs as [Hi Hf].
  split; [|done]. destruct (decide (id' = id)) as [->|]; [congruence|by rewrite lookup_delete_ne].
Qed.

Lemma evict_expired_gone id ttl now s : gone id s -> gone id (snd (run (evict_expired ttl now) s)).
Proof.
  intros Hs. unfold evict_expired. destruct (ttl =? 0); [done|]. rewrite run_bind. cbn [run atomic].
  by apply evict_keys_gone.
Qed.

(** A deletion that answers [true] leaves nothing to come back, unless the session was
    both resident and checked out. *)
Lemma deleted_gone id s :
  fst (run (delete_session id) s) = true -> inner s !! id = None \/ in_flight s !! id = None ->
  gone id (snd (run (delete_session id) s)).
Proof.
  unfold gone. intros Ht Hor. revert Ht. unfold delete_session. rewrite run_bind. cbn [run inner_remove atomic].
  destruct (inner s !! id) as [st|] eqn:Hi.
  - intros _. destruct Hor as [|Hf]; [done|]. cbn. rewrite lookup_delete_eq. auto.
  - rewrite run_bind. cbn [run in_flight_contains atomic]. case_bool_decide; cbn; [|done].
    intros _. rewrite lookup_delete_eq. set_solver.
Qed.

Lemma serve_gone id r s gs :
  markers s gs -> gone id s -> (forall st now, r <> RPut id st now) ->
  gone id (fst (snd (serve r (s, gs)))) /\ forall st, fst (serve r (s, gs)) <> Some (id, st).
Proof.
  intros [Hg _] Hgone Hr. destruct r as [id'|id' st now|i id' st now|i|id'|ttl now]; cbn [serve].
  - destruct (take_gone id id' s Hgone) as [H1 H2]. destruct (run (take id') s) as [[[st g]|] s']; simpl in *.
    + split; [done|]. intros st' [= -> ->]. by specialize (H2 eq_refl).
    + by split.
  - split; [|done]. apply put_fresh_gone; [|done]. intros ->. by eapply Hr.
  - destruct (gs !! i) as [g|] eqn:Hi; [|by split]. split; [|done].
    apply put_back_gone; [|done]. exact (Forall_lookup_1 _ _ _ _ Hg Hi).
  - destruct (gs !! i) as [g|] eqn:Hi; [|by split]. split; [|done]. by apply drop_gone.
  - split; [|done]. by apply delete_gone.
  - split; [|done]. by apply evict_expired_gone.
Qed.

Lemma serve_all_gone id rs s gs :
  markers s gs -> gone id s -> Forall (fun r => forall st now, r <> RPut id st now) rs ->
  gone id (fst (snd (serve_all rs (s, gs)))) /\ Forall (fun o => fst o <> id) (fst (serve_all rs (s, gs))).
Proof.
  intros Hm Hg Hrs. revert s gs Hm Hg. induction Hrs as [|r rs Hr _ IH]; intros s gs Hm Hg; [by split|]. cbn [serve_all].
  destruct (serve_gone id r s gs Hm Hg Hr) as [Hg' Ho]. pose proof (serve_markers r s gs Hm) as Hm'.
  destruct (serve r (s, gs)) as [o [s' gs']]. cbn [fst snd] in *.
  destruct (IH s' gs' Hm' Hg') as [Hg'' Hos]. destruct (serve_all rs (s', gs')) as [os h']. cbn [fst snd] in *.
  split; [done|]. apply Forall_app. split; [|done]. destruct o as [[id' st]|]; repeat constructor.
  simpl. intros ->. by eapply Ho.
Qed.

Lemma serve_all_markers rs s gs : markers s gs -> let '(s', gs') := snd (serve_all rs (s, gs)) in markers s' gs'.
Proof.
  revert s gs. induction rs as [|r rs IH]; intros s gs Hm; cbn [serve_all]; [done|].
  pose proof (serve_markers r s gs Hm) as Hm'. destruct (serve r (s, gs)) as [o [s' gs']]. cbn [snd] in *.
  specialize (IH s' gs' Hm'). destruct (serve_all rs (s', gs')) as [os [s'' gs'']]. exact IH.
Qed.

(** C34. A deleted session does not come back.  After any requests, when a deletion
    answers that the session existed, and it was not both resident and checked out,
    then whatever requests follow, checkouts returned late included, no request is
    handed the session's state and it is never resident again, until a client
    stores a fresh state under that id. *)
Theorem deleted_session_never_resumed rs id rs' before s gs s' handed_out s'' gs'' :
  serve_all rs new_history = (before, (s, gs)) ->
  run (delete_session id) s = (true, s') ->
  inner s !! id = None \/ in_flight s !! id = None ->
  Forall (fun r => forall st now, r <> RPut id st now) rs' ->
  serve_all rs' (s', gs) = (handed_out, (s'', gs'')) ->
  inner s'' !! id = None /\ Forall (fun o => fst o <> id) handed_out.
Proof.
  intros Hrs E Hor Hrs' Hafter.
  pose proof (serve_all_markers rs store_new [] ltac:(split; constructor)) as Hm.
  unfold new_history in Hrs. rewrite Hrs in Hm. cbn [snd] in Hm.
  pose proof (deleted_gone id s ltac:(by rewrite E) Hor) as Hg.
  pose proof (serve_markers (RDelete id) s gs Hm) as Hm'. cbn [serve snd] in Hm'. rewrite E in Hg, Hm'. cbn [snd] in *.
  destruct (serve_all_gone id rs' s' gs Hm' Hg Hrs') as [[Hi _] Ho]. rewrite Hafter in Hi, Ho. done.
Qed.

(** ** Eviction *)

Lemma zeroized_blocks st : (kv st ≫= fun c => snd (zeroize c)) = zeroize_block <$> state_blocks st.
Proof.
  unfold state_blocks. induction (kv st) as [|c cs IH]; [done|]. cbn [mbind list_bind]. rewrite fmap_app.
  pose proof (zeroize_spec c) as Hz. destruct (zeroize c) as [c' fz]. destruct Hz as (_ & -> & _). cbn [snd].
  f_equal. exact IH.
Qed.

Lemma run_evict_keys ids ttl now n s :
  NoDup ids -> Forall (fun id => exists st, inner s !! id = Some st /\ is_expired ttl now st = true) ids ->
  exists s', run (evict_keys ids ttl now n) s = (n + N.of_nat (length ids), s') /\
    (forall id, inner s' !! id = if decide (id ∈ ids) then None else inner s !! id) /\
    in_flight s' = in_flight s /\ tombstones s' = tombstones s /\
    (size (inner s) = length ids + size (inner s'))%nat /\
    freed s' = freed s ++ (ids ≫= fun id => zeroize_block <$> from_option state_blocks [] (inner s !! id)).
Proof.
  revert n s. induction ids as [|id ids IH]; intros n s Hnd Hall.
  { exists s. cbn. rewrite app_nil_r, N.add_0_r. done. }
  apply NoDup_cons in Hnd as [Hid Hnd]. apply Forall_cons_1 in Hall as [(st & Hst & Hex) Hall].
  cbn [evict_keys]. rewrite run_bind. unfold inner_remove_if_expired, atomic. cbn [run]. rewrite Hst, Hex.
  rewrite run_bind. cbn [run zeroize_in_place atomic].
  set (s1 := free _ _). assert (Hs1 : forall id', id' ≠ id -> inner s1 !! id' = inner s !! id').
  { intros id' Hne. subst s1. cbn. by rewrite lookup_delete_ne. }
  destruct (IH (n + 1) s1 Hnd) as (s' & -> & Hin & Hfl & Ht & Hsz & Hfr).
  { eapply Forall_impl; [|intros x Hx; exact Hx]. rewrite Forall_forall in Hall |- *. intros x Hx.
    rewrite Hs1; [by apply Hall|]. by intros ->. }
  exists s'. split_and!; [f_equal; simpl; lia| |by rewrite Hfl|by rewrite Ht| |].
  - intros id'. rewrite Hin. destruct (decide (id' = id)) as [->|Hne].
    + rewrite (decide_True (P := id ∈ id :: ids)) by left. rewrite decide_False by done. subst s1. cbn. apply lookup_delete_eq.
    + rewrite Hs1 by done. destruct (decide (id' ∈ ids)).
      * by rewrite decide_True by by right.
      * rewrite decide_False; [done|]. by intros [?|?]%elem_of_cons.
  - subst s1. cbn in Hsz. rewrite map_size_delete_Some in Hsz by eauto.
    assert (size (inner s) ≠ 0)%nat by (intros E; apply map_size_empty_iff in E; rewrite E in Hst; by rewrite lookup_empty in Hst).
    simpl. lia.
  - rewrite Hfr. subst s1. cbn [mbind list_bind]. rewrite Hst. cbn [from_option]. unfold free, with_inner. cbn [freed].
    rewrite <-app_assoc. f_equal. f_equal.
    + apply zeroized_blocks.
    + apply Forall_bind_ext, Forall_forall. intros x Hx. cbn. rewrite lookup_delete_ne; [done|]. by intros ->.
Qed.

(** Expiry removes exactly the sessions idle for longer than the TTL, and counts
    them; every other session, and what is checked out, is untouched; and what it
    gives back to the allocator is the KV blocks of the removed sessions, each
    overwritten with zeros in full.  A zero TTL disables it. *)
Theorem evict_expired_spec ttl now s :
  let '(n, s') := run (evict_expired ttl now) s in
  (forall id st, inner s' !! id = Some st <-> inner s !! id = Some st /\ (ttl <> 0 -> is_expired ttl now st = false)) /\
  in_flight s' = in_flight s /\ tombstones s' = tombstones s /\
  N.of_nat (size (inner s)) = n + N.of_nat (size (inner s')) /\
  exists bs, freed s' = freed s ++ bs /\ Forall scrubbed bs /\
    (ttl <> 0 -> bs ≡ₚ (expired_keys ttl now s ≫= fun id => zeroize_block <$> from_option state_blocks [] (inner s !! id))).
Proof.
  unfold evict_expired. destruct (N.eqb_spec ttl 0) as [->|Httl].
  { cbn [run]. split_and!; try done; [intros id st; split; [by split|by intros [? _]]|].
    exists []. rewrite app_nil_r. split_and!; try done; constructor. }
  rewrite run_bind. cbn [run atomic].
  assert (Hk : forall id, id ∈ expired_keys ttl now s <-> exists st, inner s !! id = Some st /\ is_expired ttl now st = true).
  { intros id. unfold expired_keys. rewrite list_elem_of_fmap. split.
    - intros ([id' st] & -> & Hin). apply list_elem_of_In, List.filter_In in Hin as [Hin He].
      apply list_elem_of_In, elem_of_map_to_list in Hin. eauto.
    - intros (st & Hst & He). exists (id, st). split; [done|]. apply list_elem_of_In, List.filter_In.
      split; [|done]. by apply list_elem_of_In, elem_of_map_to_list. }
  assert (Hnd : NoDup (expired_keys ttl now s)).
  { unfold expired_keys. pose proof (NoDup_fst_map_to_list (inner s)) as Hnd. revert Hnd.
    induction (map_to_list (inner s)) as [|[id st] l IH]; [done|]. cbn. intros [Hn Hnd]%NoDup_cons.
    destruct (is_expired ttl now st); [|by apply IH]. cbn. constructor; [|by apply IH].
    intros (p & -> & Hin)%list_elem_of_fmap. apply Hn. apply list_elem_of_fmap. exists p. split; [done|].
    apply list_elem_of_In, List.filter_In in Hin as [Hin _]. by apply list_elem_of_In. }
  destruct (run_evict_keys (expired_keys ttl now s) ttl now 0 s Hnd) as (s' & -> & Hin & Hfl & Ht & Hsz & Hfr).
  { apply Forall_forall. intros id. by rewrite Hk. }
  split_and!; try done.
  - intros id st. rewrite Hin. case_decide as Hd; rewrite Hk in Hd.
    + split; [done|]. intros [Hst Hne]. destruct Hd as (st' & Hst' & He). specialize (Hne Httl). congruence.
    + split; [|by intros [? _]]. intros Hst. split; [done|]. intros _.
      destruct (is_expired ttl now st) eqn:E; [|done]. exfalso. apply Hd. eauto.
  - lia.
  - eexists. split; [exact Hfr|]. split; [|done]. apply Forall_bind, Forall_forall. intros id _.
    apply Forall_fmap, Forall_true. intros b. apply zeroize_block_scrubbed.
Qed.

(** ** What can go wrong *)

Module Witness.

Definition st (n : N) : SessionState :=
  {| kv := [{| keys_blocks := [[n]]; values_blocks := [[n]]; free_keys := []; free_values := [];
               evicted_blocks := 0; seq_len := 1; kv_dim := 1; v_dim := 1 |}];
     position := 1; pending_token := None; last_used := 0 |}.

Definition handed_out (rs : list req) : list (string * N) :=
  (fun o => (fst o, from_option (fun c => from_option (fun b => from_option id 0 (head b)) 0 (head (keys_blocks c))) 0
                      (head (kv (snd o))))) <$> fst (serve_all rs new_history).

(** A second request of the same session starts from scratch and stores its state
    while the first is in flight; a deletion then finds and removes that state, and
    leaves the first checkout unmarked: when it is returned, the state from before
    the deletion is resident again and handed to the next request. *)
Definition resurrecting : list req :=
  [RPut "s" (st 1) 0; RTake "s"; RTake "s"; RPut "s" (st 2) 0; RDelete "s"; RPutBack 0 "s" (st 1) 0; RTake "s"].
Example deletion_can_be_undone :
  handed_out resurrecting = [("s", 1); ("s", 1)] /\
  fst (run (delete_session "s") (fst (snd (serve_all (firstn 4 resurrecting) new_history)))) = true.
Proof. split; vm_compute; reflexivity. Qed.

(** A session deleted while checked out by a request that is then cancelled: its
    tombstone stays, and whatever a client stores under that id is discarded. *)
Definition poisoned : list req :=
  [RPut "s" (st 1) 0; RTake "s"; RDelete "s"; RDrop 0].
Lemma tombstone_stays id (s : SessionStore) :
  id ∈ tombstones s -> inner s !! id = None -> in_flight s !! id = None ->
  forall st now, inner (snd (run (put id st None now) s)) !! id = None /\ id ∈ tombstones (snd (run (put id st None now) s)) /\
    in_flight (snd (run (put id st None now) s)) !! id = None.
Proof. intros Ht Hi Hf st0 now. cases. Qed.
Example cancelled_deletion_poisons_the_id :
  let s := fst (snd (serve_all poisoned new_history)) in
  "s" ∈ tombstones s /\ inner s !! "s" = None /\ in_flight s !! "s" = None /\
  handed_out (poisoned ++ [RPut "s" (st 2) 0; RTake "s"; RDelete "s"; RPut "s" (st 3) 0; RTake "s"]) = [("s", 1)].
Proof. vm_compute. repeat split. Qed.

(** Runs of the threads: thread [i] starts a call with the program [p], which takes no
    guard, does its next operation, or returns. *)
Inductive move := MCall (i : nat) (p : prog (list SessionCheckout)) | MStep (i : nat).
Definition move_of (m : move) (w : world) : option world :=
  let '(i, called) := match m with MCall i p => (i, Some p) | MStep i => (i, None) end in
  t ← snd w !! i;
  match called, pending t with
  | Some p, None => Some (fst w, <[i := {| held := held t; pending := Some p |}]> (snd w))
  | None, Some (Atomic f k) =>
      Some (snd (f (fst w)), <[i := {| held := held t; pending := Some (k (fst (f (fst w)))) |}]> (snd w))
  | None, Some (Ret gs) => Some (fst w, <[i := idle (held t ++ gs)]> (snd w))
  | _, _ => None
  end.
Definition legal (m : move) : Prop := match m with MCall _ p => call [] p | MStep _ => True end.
Fixpoint moves_of (ms : list move) (w : world) : option world :=
  match ms with [] => Some w | m :: ms => w ← move_of m w; moves_of ms w end.

Lemma move_of_step m w w' : legal m -> move_of m w = Some w' -> world_step w w'.
Proof.
  destruct w as [s ts]. intros Hl H. unfold move_of in H. destruct m as [i p|i]; cbn [fst snd] in H.
  all: destruct (ts !! i) as [[gs [q|]]|] eqn:Ht; cbn in H; try done.
  - injection H as <-. eapply WorldStep; [exact Ht|]. by apply (StepCall s gs gs []).
  - destruct q as [gs'|R f k]; injection H as <-; (eapply WorldStep; [exact Ht|]); [apply StepReturn|apply StepAtomic].
Qed.

Lemma moves_of_rtc ms w w' : Forall legal ms -> moves_of ms w = Some w' -> rtc world_step w w'.
Proof.
  intros Hl. revert w. induction Hl as [|m ms Hm _ IH]; intros w; simpl; [intros [= ->]; apply rtc_refl|].
  destruct (move_of m w) as [w1|] eqn:E; [|done]. simpl. intros H. eapply rtc_l; [by eapply move_of_step|by apply IH].
Qed.

(** Three requests, of the sessions [a], [a] and [b]: both sessions are stored, and the
    two requests of [a] interleave; the first gets [a], the second nothing, the third
    [b]. *)
Definition contended : list move :=
  [MCall 0 (returns (put "a" (st 1) None 0) (fun _ => [])); MStep 0; MStep 0; MStep 0;
   MCall 1 (returns (put "b" (st 2) None 0) (fun _ => [])); MStep 1; MStep 1; MStep 1;
   MCall 0 (returns (take "a") checkout_of); MCall 1 (returns (take "a") checkout_of);
   MCall 2 (returns (take "b") checkout_of);
   MStep 0; MStep 1; MStep 2; MStep 1; MStep 0; MStep 0; MStep 1; MStep 2; MStep 2;
   MStep 0; MStep 2; MStep 0; MStep 2; MStep 0; MStep 1; MStep 2].

Lemma contended_legal : Forall legal contended.
Proof. repeat constructor. Qed.

Lemma checkouts_are_exclusive_witness :
  exists w, rtc world_step (store_new, replicate 3 (idle [])) w /\
  let guards := snd w ≫= held in
  guards = [{| c_id := "a"; token := 2 |}; {| c_id := "b"; token := 3 |}] /\ (pending <$> snd w) = [None; None; None] /\
  NoDup (c_id <$> guards) /\ Forall (fun g => in_flight (fst w) !! c_id g = Some (token g)) guards.
Proof.
  assert (H : exists w, moves_of contended (store_new, replicate 3 (idle [])) = Some w /\
    (snd w ≫= held) = [{| c_id := "a"; token := 2 |}; {| c_id := "b"; token := 3 |}] /\
    (pending <$> snd w) = [None; None; None]).
  { eexists. split; [vm_compute; reflexivity|]. split; vm_compute; reflexivity. }
  destruct H as (w & Hw & Hg & Hp). exists w.
  assert (Hr := moves_of_rtc contended _ w contended_legal Hw). split; [exact Hr|].
  split; [exact Hg|]. split; [exact Hp|]. exact (checkouts_are_exclusive 3 w Hr).
Defined.

Lemma deleted_session_never_resumed_witness :
  let h := snd (serve_all [RPut "s" (st 1) 0; RTake "s"] new_history) in
  let h' := (snd (run (delete_session "s") (fst h)), snd h) in
  let out := serve_all [RTake "s"; RPutBack 0 "s" (st 1) 0; RTake "s"] h' in
  inner (fst (snd out)) !! "s"%string = None /\ Forall (fun o => fst o <> "s"%string) (fst out).
Proof.
  eapply (deleted_session_never_resumed [RPut "s" (st 1) 0; RTake "s"] "s" [RTake "s"; RPutBack 0 "s" (st 1) 0; RTake "s"]).
  - vm_compute. reflexivity.
  - vm_compute. reflexivity.
  - left. vm_compute. reflexivity.
  - repeat constructor; done.
  - vm_compute. reflexivity.
Defined.

End Witness.
