(* ===== verification/Rpc.v ===== *)
(** The sharded expert RPC ([src/rust-engine/src/rpc.rs]): shard assignment, the
    request and response frames, and the f16 words they carry.

    Frames are byte lists.  The [usize] arithmetic of the decoders is unchecked in
    the source and wraps; a slice out of range and a failed [assert_eq!] are
    [None]. *)
From S2P Require Import Prelude.
Local Open Scope N_scope.

(** ** Shards *)

Definition shard_for_expert (id num_workers : N) : option N :=
  if num_workers =? 0 then None else Some (id mod num_workers).

(** [buckets[s].push(id)]. *)
Definition push_bucket (num_workers : N) (buckets : list (list N)) (id : N) : list (list N) :=
  alter (fun ids => ids ++ [id]) (N.to_nat (id mod num_workers)) buckets.

Definition group_top_k_by_shard (top_k : list N) (num_workers : N) : list (N * list N) :=
  if num_workers =? 0 then [] else
  let buckets := foldl (push_bucket num_workers) (replicate (N.to_nat num_workers) []) top_k in
  List.filter (fun b => match snd b with [] => false | _ => true end)
    (imap (fun i ids => (N.of_nat i, ids)) buckets).

(** ** Frames *)

Record RouteExpertsRequest := {
  request_id : N;
  layer_idx : N;
  d_model : N;
  expert_ids : list N;
  hidden_state_f16 : list N;
}.

Record RouteExpertsResponse := {
  resp_request_id : N;
  resp_d_model : N;
  resp_expert_ids : list N;
  ffn_out_f16 : list N;
}.

(** The loop of [extend_from_slice(&x.to_le_bytes())] over [w]-byte words. *)
Definition put_words (w : nat) (xs : list N) : list byte := xs ≫= le_bytes w.

Definition encode_request (r : RouteExpertsRequest) : option (list byte) :=
  let k := N.of_nat (length (expert_ids r)) in
  let d := N.of_nat (length (hidden_state_f16 r)) in
  if negb (d =? d_model r) then None else
  Some (le_bytes 8 (request_id r) ++ le_bytes 4 (layer_idx r) ++ le_bytes 4 (d_model r) ++ le_bytes 4 k
        ++ put_words 4 (expert_ids r) ++ put_words 2 (hidden_state_f16 r)).

Definition encode_response (r : RouteExpertsResponse) : option (list byte) :=
  let k := N.of_nat (length (resp_expert_ids r)) in
  let d := resp_d_model r in
  if negb (N.of_nat (length (ffn_out_f16 r)) =? wrap_mul usize_max k d) then None else
  Some (le_bytes 8 (resp_request_id r) ++ le_bytes 4 (resp_d_model r) ++ le_bytes 4 k
        ++ put_words 4 (resp_expert_ids r) ++ put_words 2 (ffn_out_f16 r)).

(** [from_le_bytes(buf[off..off + w])]. *)
Definition get_word (w : nat) (off : N) (buf : list byte) : option N :=
  if off + N.of_nat w <=? N.of_nat (length buf) then Some (le_val (slice (N.to_nat off) w buf)) else None.

(** The loop [for i in 0..k { .. buf[off + w * i ..] .. }]. *)
Definition get_words (w : nat) (off k : N) (buf : list byte) : option (list N) :=
  mapM (fun i => get_word w (off + N.of_nat w * i) buf) (rangeN k).

(** [Err] is [UnexpectedEof], with the number of bytes needed. *)
Definition decode_request (buf : list byte) : option (result N RouteExpertsRequest) :=
  if N.of_nat (length buf) <? 20 then Some (Err 20) else
  request_id ← get_word 8 0 buf;
  layer_idx ← get_word 4 8 buf;
  d_model ← get_word 4 12 buf;
  k ← get_word 4 16 buf;
  let expert_off := 20 in
  let hidden_off := wrap_add usize_max expert_off (wrap_mul usize_max 4 k) in
  let hidden_end := wrap_add usize_max hidden_off (wrap_mul usize_max 2 d_model) in
  if N.of_nat (length buf) <? hidden_end then Some (Err hidden_end) else
  expert_ids ← get_words 4 expert_off k buf;
  hidden_state_f16 ← get_words 2 hidden_off d_model buf;
  Some (Ok {| request_id := request_id; layer_idx := layer_idx; d_model := d_model;
              expert_ids := expert_ids; hidden_state_f16 := hidden_state_f16 |}).

Definition decode_response (buf : list byte) : option (result N RouteExpertsResponse) :=
  if N.of_nat (length buf) <? 16 then Some (Err 16) else
  request_id ← get_word 8 0 buf;
  d_model ← get_word 4 8 buf;
  k ← get_word 4 12 buf;
  let ids_off := 16 in
  let ffn_off := wrap_add usize_max ids_off (wrap_mul usize_max 4 k) in
  let ffn_end := wrap_add usize_max ffn_off (wrap_mul usize_max (wrap_mul usize_max 2 d_model) k) in
  if N.of_nat (length buf) <? ffn_end then Some (Err ffn_end) else
  expert_ids ← get_words 4 ids_off k buf;
  ffn_out_f16 ← get_words 2 ffn_off (wrap_mul usize_max d_model k) buf;
  Some (Ok {| resp_request_id := request_id; resp_d_model := d_model; resp_expert_ids := expert_ids;
              ffn_out_f16 := ffn_out_f16 |}).

(** ** f16 words *)

(** [f32_to_f16_bits], of [x.to_bits()].  The shifted [u16]s are at most 16 bits. *)
Definition f32_to_f16_bits (bits : N) : N :=
  let sign := N.land (N.shiftr bits 31) 1 in
  let exp := Z.of_N (N.land (N.shiftr bits 23) 255) in
  let mant := N.land bits 8388607 in
  if (exp =? 255)%Z then
    N.lor (N.lor (N.shiftl sign 15) (N.shiftl 31 10)) (if negb (mant =? 0) then 512 else 0)
  else
  let new_exp := (exp - 127 + 15)%Z in
  if (31 <=? new_exp)%Z then N.lor (N.shiftl sign 15) (N.shiftl 31 10) else
  if (new_exp <=? 0)%Z then N.shiftl sign 15 else
  let round_bit := N.land (N.shiftr mant 12) 1 in
  let sticky := negb (N.land mant 4095 =? 0) in
  let mant16 := N.shiftr mant 13 in
  if (round_bit =? 1) && (sticky || (N.land mant16 1 =? 1)) then
    let out_mant := mant16 + 1 in
    if out_mant =? 1024 then N.lor (N.shiftl sign 15) (N.shiftl (Z.to_N (new_exp + 1)) 10)
    else N.lor (N.lor (N.shiftl sign 15) (N.shiftl (Z.to_N new_exp) 10)) (N.land out_mant 1023)
  else N.lor (N.lor (N.shiftl sign 15) (N.shiftl (Z.to_N new_exp) 10)) (N.land mant16 1023).

(** [f16_bits_to_f32], as [to_bits()]. *)
Definition f16_bits_to_f32 (bits : N) : N :=
  let sign := N.land (N.shiftr bits 15) 1 in
  let exp := N.land (N.shiftr bits 10) 31 in
  let mant := N.land bits 1023 in
  if exp =? 0 then N.shiftl sign 31 else
  if exp =? 31 then
    N.lor (N.lor (N.shiftl sign 31) (N.shiftl 255 23))
      (if negb (mant =? 0) then N.lor (N.shiftl mant 13) 4194304 else 0)
  else N.lor (N.lor (N.shiftl sign 31) (N.shiftl (Z.to_N (Z.of_N exp - 15 + 127)) 23)) (N.shiftl mant 13).

Definition pack_hidden_state (hidden_f32 : list N) : list N := f32_to_f16_bits <$> hidden_f32.
Definition unpack_hidden_state (hidden_f16 : list N) : list N := f16_bits_to_f32 <$> hidden_f16.

(** ** Words in a frame *)

Lemma length_put_words w xs : length (put_words w xs) = (w * length xs)%nat.
Proof.
  unfold put_words. induction xs as [|x xs IH]; [simpl; lia|].
  cbn [mbind list_bind]. rewrite length_app, length_le_bytes, IH. simpl. lia.
Qed.

Lemma get_word_at w pre x rest :
  x < 256 ^ N.of_nat w -> get_word w (N.of_nat (length pre)) (pre ++ le_bytes w x ++ rest) = Some x.
Proof.
  intros Hx. unfold get_word. rewrite !length_app, length_le_bytes. case_N; [|lia].
  rewrite Nat2N.id, slice_app_r, Nat.sub_diag by lia. rewrite slice_app_l by apply length_le_bytes.
  by rewrite le_val_le_bytes_small.
Qed.

Lemma get_words_at w pre xs rest :
  Forall (fun x => x < 256 ^ N.of_nat w) xs ->
  get_words w (N.of_nat (length pre)) (N.of_nat (length xs)) (pre ++ put_words w xs ++ rest) = Some xs.
Proof.
  intros Hxs. unfold get_words, rangeN. rewrite Nat2N.id. apply mapM_Some. apply Forall2_same_length_lookup_2.
  { by rewrite length_fmap, length_seq. }
  intros i j x Hi Hx. rewrite list_lookup_fmap in Hi. destruct (seq 0 (length xs) !! i) as [i'|] eqn:Ei; [|done].
  apply lookup_seq in Ei as [-> _]. injection Hi as <-.
  rewrite <-(take_drop_middle xs i x Hx) at 1. unfold put_words. rewrite bind_app. cbn [mbind list_bind].
  change (take i xs ≫= le_bytes w) with (put_words w (take i xs)).
  assert (Hl : N.of_nat (length pre) + N.of_nat w * N.of_nat i = N.of_nat (length (pre ++ put_words w (take i xs)))).
  { rewrite length_app, length_put_words, length_take. apply lookup_lt_Some in Hx. lia. }
  rewrite Hl, <-!app_assoc, app_assoc. apply get_word_at. by eapply (Forall_lookup_1 _ _ _ _ Hxs).
Qed.

(** The same, for a buffer and an offset given by equations. *)
Lemma get_word_eq w off pre x rest buf :
  buf = pre ++ le_bytes w x ++ rest -> off = N.of_nat (length pre) -> x < 256 ^ N.of_nat w ->
  get_word w off buf = Some x.
Proof. intros -> ->. apply get_word_at. Qed.

Lemma get_words_eq w off k pre xs rest buf :
  buf = pre ++ put_words w xs ++ rest -> off = N.of_nat (length pre) -> k = N.of_nat (length xs) ->
  Forall (fun x => x < 256 ^ N.of_nat w) xs -> get_words w off k buf = Some xs.
Proof. intros -> -> ->. apply get_words_at. Qed.

Ltac lengths := rewrite ?length_app, ?length_le_bytes, ?length_put_words; simpl; lia.

(** The frame of a request, whole. *)
Definition request_frame (r : RouteExpertsRequest) : list byte :=
  le_bytes 8 (request_id r) ++ le_bytes 4 (layer_idx r) ++ le_bytes 4 (d_model r)
  ++ le_bytes 4 (N.of_nat (length (expert_ids r)))
  ++ put_words 4 (expert_ids r) ++ put_words 2 (hidden_state_f16 r).

Definition response_frame (r : RouteExpertsResponse) : list byte :=
  le_bytes 8 (resp_request_id r) ++ le_bytes 4 (resp_d_model r)
  ++ le_bytes 4 (N.of_nat (length (resp_expert_ids r)))
  ++ put_words 4 (resp_expert_ids r) ++ put_words 2 (ffn_out_f16 r).

(** Read the word [x] of a frame after the prefix [pre]. *)
Tactic Notation "reads" constr(w) constr(off) uconstr(pre) uconstr(x) :=
  erewrite (get_word_eq w off pre x);
    [|unfold request_frame, response_frame; rewrite <-!app_assoc; reflexivity|lengths|done];
  cbn [mbind option_bind].

(** Reading words in range, and what was read. *)
Lemma get_word_spec w off buf :
  off + N.of_nat w <= N.of_nat (length buf) ->
  exists x, get_word w off buf = Some x /\ x < 256 ^ N.of_nat w /\ le_bytes w x = slice (N.to_nat off) w buf.
Proof.
  intros Hb. unfold get_word. case_N; [|lia]. eexists. split; [done|].
  assert (Hl : length (slice (N.to_nat off) w buf) = w).
  { unfold slice. rewrite length_take, length_drop. lia. }
  split.
  - rewrite <-Hl at 2. apply le_val_bound.
  - rewrite <-Hl at 1. apply le_bytes_le_val.
Qed.

Lemma slice_slice {A} off n m (l : list A) : slice off (n + m) l = slice off n l ++ slice (off + n) m l.
Proof. unfold slice. by rewrite <-drop_drop, take_take_drop. Qed.

Lemma get_words_spec w off k buf :
  off + N.of_nat w * k <= N.of_nat (length buf) ->
  exists xs, get_words w off k buf = Some xs /\ N.of_nat (length xs) = k /\
    Forall (fun x => x < 256 ^ N.of_nat w) xs /\
    put_words w xs = slice (N.to_nat off) (w * N.to_nat k) buf.
Proof.
  intros Hb.
  assert (Hw : forall i, i < k -> exists x, get_word w (off + N.of_nat w * i) buf = Some x /\
    x < 256 ^ N.of_nat w /\ le_bytes w x = slice (N.to_nat (off + N.of_nat w * i)) w buf).
  { intros i Hi. apply get_word_spec. assert (N.of_nat w * (i + 1) <= N.of_nat w * k) by (apply N.mul_le_mono_l; lia). lia. }
  destruct (proj2 (mapM_is_Some (fun i => get_word w (off + N.of_nat w * i) buf) (rangeN k))) as [xs Hxs].
  { apply Forall_forall. intros i Hi. apply elem_of_rangeN in Hi. simpl.
    destruct (Hw i Hi) as (x & -> & _). eauto. }
  exists xs. split; [done|]. apply mapM_Some in Hxs.
  pose proof (Forall2_length _ _ _ Hxs) as Hlen. pose proof (length_rangeN k) as Hk.
  assert (Hx : forall i x, xs !! i = Some x -> x < 256 ^ N.of_nat w /\
    le_bytes w x = slice (N.to_nat (off + N.of_nat w * N.of_nat i)) w buf).
  { intros i x Hi. destruct (Forall2_lookup_r _ _ _ _ _ Hxs Hi) as (j & Hj & Hg).
    unfold rangeN in Hj. rewrite list_lookup_fmap in Hj. destruct (seq 0 (N.to_nat k) !! i) as [i'|] eqn:Ei; [|done].
    apply lookup_seq in Ei as [-> Hi']. injection Hj as <-.
    destruct (Hw (N.of_nat i)) as (x' & Hx' & ? & ?); [lia|]. change (0 + i)%nat with i in Hg. naive_solver congruence. }
  split; [lia|]. split; [apply Forall_lookup; intros i x Hi; by apply (Hx i x)|].
  assert (Hpre : forall n, (n <= length xs)%nat -> put_words w (take n xs) = slice (N.to_nat off) (w * n) buf).
  { induction n as [|n IH]; intros Hn; [by rewrite Nat.mul_0_r|].
    destruct (lookup_lt_is_Some_2 xs n) as [x Hi]; [lia|].
    rewrite (take_S_r _ _ _ Hi). unfold put_words in *. rewrite bind_app, IH by lia. cbn [mbind list_bind].
    rewrite app_nil_r, Nat.mul_succ_r, slice_slice. f_equal. destruct (Hx n x Hi) as [_ ->]. f_equal. lia. }
  replace (N.to_nat k) with (length xs) by lia. rewrite <-Hpre by lia. by rewrite firstn_all.
Qed.

(** ** Round trips *)

Record request_wf (r : RouteExpertsRequest) : Prop := {
  rq_id : request_id r < 2 ^ 64;
  rq_layer : layer_idx r < 2 ^ 32;
  rq_model : d_model r = N.of_nat (length (hidden_state_f16 r)) /\ d_model r < 2 ^ 32;
  rq_ids : Forall (fun x => x < 2 ^ 32) (expert_ids r) /\ N.of_nat (length (expert_ids r)) < 2 ^ 32;
  rq_hidden : Forall (fun x => x < 2 ^ 16) (hidden_state_f16 r);
}.

Lemma length_request_frame r :
  length (request_frame r) = (20 + 4 * length (expert_ids r) + 2 * length (hidden_state_f16 r))%nat.
Proof. unfold request_frame. rewrite !length_app, !length_le_bytes, !length_put_words. lia. Qed.

(** Wrapping operations that do not wrap, innermost first. *)
Ltac unwrap :=
  repeat match goal with
  | |- context [wrap_mul usize_max ?a ?b] =>
      lazymatch a with context [wrap_mul] => fail | _ =>
        rewrite (wrap_mul_small usize_max a b) by (unfold usize_max, u64_max in *; lia) end
  | |- context [wrap_add usize_max ?a ?b] =>
      lazymatch a with context [wrap_add] => fail | _ =>
        rewrite (wrap_add_small usize_max a b) by (unfold usize_max, u64_max in *; lia) end
  end.

Lemma decode_request_frame r rest : request_wf r -> decode_request (request_frame r ++ rest) = Some (Ok r).
Proof.
  intros [Hid Hlay [Hd Hd32] [Hids Hk] Hh]. unfold decode_request.
  pose proof (length_request_frame r) as Hl.
  assert (Hlen : N.of_nat (length (request_frame r ++ rest)) =
    20 + 4 * N.of_nat (length (expert_ids r)) + 2 * d_model r + N.of_nat (length rest)) by (rewrite length_app; lia).
  rewrite Hlen. case_N; [lia|].
  reads 8%nat 0 [] (request_id r).
  reads 4%nat 8 (le_bytes 8 (request_id r)) (layer_idx r).
  reads 4%nat 12 (le_bytes 8 (request_id r) ++ le_bytes 4 (layer_idx r)) (d_model r).
  reads 4%nat 16 (le_bytes 8 (request_id r) ++ le_bytes 4 (layer_idx r) ++ le_bytes 4 (d_model r))
    (N.of_nat (length (expert_ids r))).
  unwrap. case_N; [lia|].
  erewrite (get_words_eq 4 20 _ (le_bytes 8 (request_id r) ++ le_bytes 4 (layer_idx r) ++ le_bytes 4 (d_model r)
    ++ le_bytes 4 (N.of_nat (length (expert_ids r)))) (expert_ids r));
    [|unfold request_frame; rewrite <-!app_assoc; reflexivity|lengths|done|done].
  cbn [mbind option_bind].
  rewrite (get_words_eq 2 _ (d_model r) (le_bytes 8 (request_id r) ++ le_bytes 4 (layer_idx r) ++ le_bytes 4 (d_model r)
    ++ le_bytes 4 (N.of_nat (length (expert_ids r))) ++ put_words 4 (expert_ids r)) (hidden_state_f16 r) rest);
    [by destruct r|unfold request_frame; by rewrite <-!app_assoc|lengths|done|done].
Qed.

(** A frame cut into header, ids, payload and what follows. *)
Lemma cut_frame {A} h n m (buf : list A) :
  buf = slice 0 h buf ++ slice h n buf ++ slice (h + n) m buf ++ drop (h + (n + m)) buf.
Proof.
  rewrite (app_assoc (slice h n buf)), <-slice_slice, app_assoc.
  change h with (0 + h)%nat at 2. rewrite <-slice_slice. unfold slice. by rewrite drop_0, take_drop.
Qed.

(** Four header words, the bytes they came from. *)
Lemma header_20 buf : 20 <= N.of_nat (length buf) ->
  exists a b c d, get_word 8 0 buf = Some a /\ get_word 4 8 buf = Some b /\ get_word 4 12 buf = Some c /\
    get_word 4 16 buf = Some d /\ a < 2 ^ 64 /\ b < 2 ^ 32 /\ c < 2 ^ 32 /\ d < 2 ^ 32 /\
    slice 0 20 buf = le_bytes 8 a ++ le_bytes 4 b ++ le_bytes 4 c ++ le_bytes 4 d.
Proof.
  intros Hl. destruct (get_word_spec 8 0 buf) as (a & Ha & Hxa & Hsa); [lia|].
  destruct (get_word_spec 4 8 buf) as (b & Hb & Hxb & Hsb); [lia|].
  destruct (get_word_spec 4 12 buf) as (c & Hc & Hxc & Hsc); [lia|].
  destruct (get_word_spec 4 16 buf) as (d & Hd & Hxd & Hsd); [lia|].
  exists a, b, c, d. split_and!; try done.
  rewrite Hsa, Hsb, Hsc, Hsd. change 20%nat with (8 + (4 + (4 + 4)))%nat. by rewrite !slice_slice.
Qed.

Lemma decode_request_sound buf :
  exists o, decode_request buf = Some o /\
    match o with
    | Ok r => request_wf r /\ exists rest, buf = request_frame r ++ rest
    | Err need => N.of_nat (length buf) < need
    end.
Proof.
  unfold decode_request. destruct (N.ltb_spec (N.of_nat (length buf)) 20) as [|Hl]; [by eexists|].
  destruct (header_20 buf Hl) as (a & b & c & d & -> & -> & -> & -> & Ha & Hb & Hc & Hd & Hs). cbn [mbind option_bind].
  unwrap. destruct (N.ltb_spec (N.of_nat (length buf)) (20 + 4 * d + 2 * c)) as [|Hend]; [by eexists|].
  destruct (get_words_spec 4 20 d buf) as (ids & -> & Hids & Hids32 & Hsi); [lia|].
  destruct (get_words_spec 2 (20 + 4 * d) c buf) as (hs & -> & Hhs & Hhs16 & Hsh); [lia|]. cbn [mbind option_bind].
  eexists. split; [done|]. split; [split; simpl; auto; by rewrite Hids|].
  exists (drop (20 + (4 * N.to_nat d + 2 * N.to_nat c)) buf). unfold request_frame. simpl request_id.
  cbn [layer_idx d_model expert_ids hidden_state_f16]. rewrite Hids, Hsi, Hsh, <-!app_assoc.
  rewrite (cut_frame 20 (4 * N.to_nat d) (2 * N.to_nat c) buf) at 1. rewrite Hs, <-!app_assoc.
  do 5 f_equal. f_equal. f_equal. lia.
Qed.

(** The request frame is a faithful encoding.  Every well-formed request has a
    frame, and decoding it, whatever bytes follow, gives the request back; decoding
    any byte string never panics, refuses it only for being shorter than announced,
    and otherwise yields a well-formed request whose frame is a prefix of the
    input. *)
Theorem request_frames_faithful r rest buf :
  (request_wf r -> exists frame, encode_request r = Some frame /\ decode_request (frame ++ rest) = Some (Ok r)) /\
  exists o, decode_request buf = Some o /\
    match o with
    | Ok r => request_wf r /\ exists frame rest, encode_request r = Some frame /\ buf = frame ++ rest
    | Err need => N.of_nat (length buf) < need
    end.
Proof.
  assert (Henc : forall r, request_wf r -> encode_request r = Some (request_frame r)).
  { intros r' [_ _ [Hd _] _ _]. unfold encode_request. by rewrite <-Hd, N.eqb_refl. }
  split.
  - intros Hr. exists (request_frame r). split; [by apply Henc|by apply decode_request_frame].
  - destruct (decode_request_sound buf) as ([r'|need] & -> & Ho); eexists; (split; [done|]); [|done].
    destruct Ho as (Hwf & rest' & Hb). split; [done|]. exists (request_frame r'), rest'. auto.
Qed.

(** *** Responses *)

Record response_wf (r : RouteExpertsResponse) : Prop := {
  rs_id : resp_request_id r < 2 ^ 64;
  rs_model : resp_d_model r < 2 ^ 32;
  rs_ids : Forall (fun x => x < 2 ^ 32) (resp_expert_ids r) /\ N.of_nat (length (resp_expert_ids r)) < 2 ^ 32;
  rs_out : Forall (fun x => x < 2 ^ 16) (ffn_out_f16 r) /\
    N.of_nat (length (ffn_out_f16 r)) = N.of_nat (length (resp_expert_ids r)) * resp_d_model r;
  rs_fits : N.of_nat (length (response_frame r)) <= usize_max;
}.

Lemma length_response_frame r :
  length (response_frame r) = (16 + 4 * length (resp_expert_ids r) + 2 * length (ffn_out_f16 r))%nat.
Proof. unfold response_frame. rewrite !length_app, !length_le_bytes, !length_put_words. lia. Qed.

Lemma encode_response_frame r : response_wf r -> encode_response r = Some (response_frame r).
Proof.
  intros [Hid Hd [Hids Hk] [Hh Hl] Hfit]. rewrite length_response_frame in Hfit. unfold encode_response.
  rewrite wrap_mul_small by lia. by rewrite Hl, N.eqb_refl.
Qed.

Lemma decode_response_frame r rest : response_wf r -> decode_response (response_frame r ++ rest) = Some (Ok r).
Proof.
  intros [Hid Hd [Hids Hk] [Hh Hlf] Hfit]. unfold decode_response.
  pose proof (length_response_frame r) as Hl. rewrite Hl in Hfit.
  set (k := N.of_nat (length (resp_expert_ids r))) in *. set (d := resp_d_model r) in *.
  assert (Hlen : N.of_nat (length (response_frame r ++ rest)) = 16 + 4 * k + 2 * (k * d) + N.of_nat (length rest))
    by (rewrite length_app; lia).
  rewrite Hlen. case_N; [lia|].
  reads 8%nat 0 [] (resp_request_id r).
  reads 4%nat 8 (le_bytes 8 (resp_request_id r)) (resp_d_model r).
  reads 4%nat 12 (le_bytes 8 (resp_request_id r) ++ le_bytes 4 (resp_d_model r)) k.
  fold d. rewrite (wrap_mul_small usize_max d k) by (unfold usize_max in *; lia).
  rewrite (wrap_mul_small usize_max 2 d) by (unfold usize_max, u64_max; lia).
  rewrite (wrap_mul_small usize_max (2 * d) k) by (unfold usize_max in *; lia). unwrap. case_N; [lia|].
  erewrite (get_words_eq 4 16 _ (le_bytes 8 (resp_request_id r) ++ le_bytes 4 (resp_d_model r) ++ le_bytes 4 k)
    (resp_expert_ids r)); [|unfold response_frame; rewrite <-!app_assoc; reflexivity|lengths|done|done].
  cbn [mbind option_bind].
  rewrite (get_words_eq 2 _ (d * k) (le_bytes 8 (resp_request_id r) ++ le_bytes 4 (resp_d_model r) ++ le_bytes 4 k
    ++ put_words 4 (resp_expert_ids r)) (ffn_out_f16 r) rest);
    [by destruct r|unfold response_frame; by rewrite <-!app_assoc|lengths|lia|done].
Qed.

(** What a response's header announces: the bytes needed. *)
Definition announced (buf : list byte) : N :=
  let d := le_val (slice 8 4 buf) in let k := le_val (slice 12 4 buf) in 16 + 4 * k + 2 * d * k.

Lemma get_word_Some w off buf x : get_word w off buf = Some x -> x = le_val (slice (N.to_nat off) w buf).
Proof. unfold get_word. case_match; congruence. Qed.

Lemma decode_response_sound buf :
  announced buf <= usize_max ->
  exists o, decode_response buf = Some o /\
    match o with
    | Ok r => response_wf r /\ exists rest, buf = response_frame r ++ rest
    | Err need => N.of_nat (length buf) < need
    end.
Proof.
  intros Hann. unfold decode_response. destruct (N.ltb_spec (N.of_nat (length buf)) 16) as [|Hl]; [by eexists|].
  destruct (get_word_spec 8 0 buf) as (a & Ha & Hxa & Hsa); [lia|].
  destruct (get_word_spec 4 8 buf) as (d & Hd & Hxd & Hsd); [lia|].
  destruct (get_word_spec 4 12 buf) as (k & Hk & Hxk & Hsk); [lia|].
  rewrite Ha, Hd, Hk. cbn [mbind option_bind].
  pose proof (get_word_Some _ _ _ _ Hd) as Hd'. pose proof (get_word_Some _ _ _ _ Hk) as Hk'.
  unfold announced in Hann. change (slice 8 4 buf) with (slice (N.to_nat 8) 4 buf) in Hann.
  change (slice 12 4 buf) with (slice (N.to_nat 12) 4 buf) in Hann. rewrite <-Hd', <-Hk' in Hann.
  change (256 ^ N.of_nat 4) with 4294967296 in *. change (256 ^ N.of_nat 8) with 18446744073709551616 in *.
  rewrite (wrap_mul_small usize_max d k) by lia.
  rewrite (wrap_mul_small usize_max 2 d) by (unfold usize_max, u64_max; lia).
  rewrite (wrap_mul_small usize_max (2 * d) k) by lia. unwrap.
  destruct (N.ltb_spec (N.of_nat (length buf)) (16 + 4 * k + 2 * d * k)) as [|Hend]; [by eexists|].
  destruct (get_words_spec 4 16 k buf) as (ids & -> & Hids & Hids32 & Hsi); [lia|].
  destruct (get_words_spec 2 (16 + 4 * k) (d * k) buf) as (hs & -> & Hhs & Hhs16 & Hsh); [lia|]. cbn [mbind option_bind].
  eexists. split; [done|].
  assert (Hfr : N.of_nat (16 + 4 * length ids + 2 * length hs) <= usize_max) by lia.
  split; [split; [exact Hxa|exact Hxd|split; [exact Hids32|simpl; lia]|split; [exact Hhs16|simpl; lia]
    |rewrite length_response_frame; exact Hfr]|].
  exists (drop (16 + (4 * N.to_nat k + 2 * N.to_nat (d * k))) buf). unfold response_frame.
  cbn [resp_request_id resp_d_model resp_expert_ids ffn_out_f16]. rewrite Hids, Hsi, Hsh, <-!app_assoc.
  rewrite (cut_frame 16 (4 * N.to_nat k) (2 * N.to_nat (d * k)) buf) at 1.
  assert (Hs : slice 0 16 buf = le_bytes 8 a ++ le_bytes 4 d ++ le_bytes 4 k).
  { rewrite Hsa, Hsd, Hsk. change 16%nat with (8 + (4 + 4))%nat. by rewrite !slice_slice. }
  rewrite Hs, <-!app_assoc. do 4 f_equal. f_equal. f_equal. lia.
Qed.

(** The response frame is a faithful encoding, as long as the byte count the
    header announces fits a [usize]: every well-formed response has a frame that
    decodes to it, and decoding never panics, refuses only frames shorter than
    announced, and otherwise yields a well-formed response whose frame is a prefix
    of the input. *)
Theorem response_frames_faithful r rest buf :
  (response_wf r -> exists frame, encode_response r = Some frame /\ decode_response (frame ++ rest) = Some (Ok r)) /\
  (announced buf <= usize_max -> exists o, decode_response buf = Some o /\
    match o with
    | Ok r => response_wf r /\ exists frame rest, encode_response r = Some frame /\ buf = frame ++ rest
    | Err need => N.of_nat (length buf) < need
    end).
Proof.
  split.
  - intros Hr. exists (response_frame r). split; [by apply encode_response_frame|by apply decode_response_frame].
  - intros Hann. destruct (decode_response_sound buf Hann) as ([r'|need] & -> & Ho); eexists; (split; [done|]); [|done].
    destruct Ho as (Hwf & rest' & Hb). split; [done|]. exists (response_frame r'), rest'.
    split; [by apply encode_response_frame|done].
Qed.

(** Beyond that range the count wraps: a 16-byte frame that announces 2^31 rows of
    2^32 - 2 words passes the length check, and the read that follows is out of
    range. *)
Definition wrapping_frame : list byte := le_bytes 8 7 ++ le_bytes 4 4294967294 ++ le_bytes 4 2147483648.

Lemma get_words_short w off k buf :
  0 < k -> N.of_nat (length buf) < off + N.of_nat w -> get_words w off k buf = None.
Proof.
  intros Hk Hl. unfold get_words, rangeN. destruct (N.to_nat k) as [|n] eqn:E; [lia|]. cbn [seq].
  rewrite fmap_cons. cbn [mapM mbind option_bind]. unfold get_word. case_N; [lia|done].
Qed.

Example decode_response_panics : decode_response wrapping_frame = None.
Proof.
  unfold decode_response.
  change (N.of_nat (length wrapping_frame) <? 16) with false. cbn [negb].
  change (get_word 8 0 wrapping_frame) with (Some 7). cbn [mbind option_bind].
  change (get_word 4 8 wrapping_frame) with (Some 4294967294). cbn [mbind option_bind].
  change (get_word 4 12 wrapping_frame) with (Some 2147483648). cbn [mbind option_bind].
  set (e := wrap_add usize_max _ (wrap_mul usize_max (wrap_mul _ _ _) _)).
  assert (e = 16) as -> by (vm_compute; reflexivity). change (N.of_nat (length wrapping_frame) <? 16) with false.
  cbn [negb]. by rewrite get_words_short.
Qed.

(** ** Grouping by shard *)

Definition shard_is (num_workers : N) (s : N) (id : N) : bool :=
  bool_decide (shard_for_expert id num_workers = Some s).

Lemma shard_is_eq n s id : n <> 0 -> shard_is n s id = (id mod n =? s).
Proof.
  intros Hn. unfold shard_is, shard_for_expert. apply N.eqb_neq in Hn. rewrite Hn.
  destruct (N.eqb_spec (id mod n) s); [apply bool_decide_true|apply bool_decide_false]; congruence.
Qed.

(** Each bucket collects its ids, in order. *)
Lemma push_buckets n top_k buckets :
  n <> 0 ->
  foldl (push_bucket n) buckets top_k =
  imap (fun i ids => ids ++ List.filter (shard_is n (N.of_nat i)) top_k) buckets.
Proof.
  intros Hn. revert buckets. induction top_k as [|id ids IH]; intros buckets; cbn [foldl List.filter].
  { apply list_eq. intros i. rewrite list_lookup_imap. by destruct (buckets !! i); simpl; rewrite ?app_nil_r. }
  rewrite IH. apply list_eq. intros i. rewrite !list_lookup_imap. unfold push_bucket.
  rewrite shard_is_eq by done. destruct (decide (N.to_nat (id mod n) = i)) as [<-|Hne].
  - rewrite list_lookup_alter_eq, N2Nat.id, N.eqb_refl. destruct (buckets !! _); [|done]. simpl. by rewrite <-app_assoc.
  - rewrite list_lookup_alter_ne by done. destruct (N.eqb_spec (id mod n) (N.of_nat i)); [lia|done].
Qed.

Lemma concat_push n buckets id :
  (N.to_nat (id mod n) < length buckets)%nat -> concat (push_bucket n buckets id) ≡ₚ concat buckets ++ [id].
Proof.
  intros Hi. unfold push_bucket. remember (N.to_nat (id mod n)) as i eqn:E. clear E.
  revert i Hi. induction buckets as [|ids buckets IH]; intros [|i] Hi; simpl in *; try lia.
  - rewrite <-app_assoc. solve_Permutation.
  - change (ids ++ concat (alter (fun ids => ids ++ [id]) i buckets) ≡ₚ (ids ++ concat buckets) ++ [id]).
    rewrite IH by lia. solve_Permutation.
Qed.

Lemma length_push n buckets id : length (push_bucket n buckets id) = length buckets.
Proof. apply length_alter. Qed.

Lemma concat_pushes n top_k buckets :
  n <> 0 -> length buckets = N.to_nat n -> concat (foldl (push_bucket n) buckets top_k) ≡ₚ concat buckets ++ top_k.
Proof.
  intros Hn. revert buckets. induction top_k as [|id ids IH]; intros buckets Hl; simpl; [by rewrite app_nil_r|].
  rewrite IH by (by rewrite length_push). pose proof (N.mod_lt id n Hn).
  rewrite concat_push by lia. solve_Permutation.
Qed.

Lemma concat_nonempty (l : list (N * list N)) :
  concat (List.filter (fun b => match snd b with [] => false | _ => true end) l).*2 = concat l.*2.
Proof. induction l as [|[s ids] l IH]; [done|]. simpl. destruct ids; csimpl; by rewrite IH. Qed.

Lemma imap_numbers (l : list (list N)) :
  (imap (fun i ids => (N.of_nat i, ids)) l).*2 = l.
Proof. rewrite fmap_imap. apply list_eq. intros i. rewrite list_lookup_imap. by destruct (l !! i). Qed.

(** Routing loses no expert.  Grouping a token's experts over [n] workers yields,
    for exactly the workers that own at least one of them, in ascending order, the
    experts that worker owns in their input order; together the groups are the
    experts asked for. *)
Theorem shards_partition top_k n :
  n <> 0 ->
  (forall s ids, (s, ids) ∈ group_top_k_by_shard top_k n <->
     s < n /\ ids = List.filter (shard_is n s) top_k /\ ids <> []) /\
  StronglySorted N.lt (group_top_k_by_shard top_k n).*1 /\
  concat (group_top_k_by_shard top_k n).*2 ≡ₚ top_k.
Proof.
  intros Hn. unfold group_top_k_by_shard. rewrite (proj2 (N.eqb_neq n 0) Hn). split_and!.
  - intros s ids. rewrite push_buckets by done. rewrite list_elem_of_In, List.filter_In, <-list_elem_of_In.
    rewrite list_elem_of_lookup. split.
    + intros [[i Hi] Hne]. rewrite !list_lookup_imap in Hi.
      destruct (replicate (N.to_nat n) [] !! i) as [b|] eqn:Eb; [|done]. apply lookup_replicate in Eb as [-> Hlt].
      injection Hi as <- <-. simpl in *. split; [lia|]. split; [done|]. by destruct (List.filter _ _).
    + intros (Hs & -> & Hne). split; [|simpl; by destruct (List.filter _ _)].
      exists (N.to_nat s). rewrite !list_lookup_imap, lookup_replicate_2 by lia. simpl. by rewrite N2Nat.id.
  - generalize (foldl (push_bucket n) (replicate (N.to_nat n) []) top_k). intros l.
    assert (Hgen : forall k, StronglySorted N.lt
      (List.filter (fun b => match snd b with [] => false | _ => true end)
         (imap (fun i ids => (N.of_nat (k + i), ids)) l)).*1).
    { induction l as [|ids l IH]; intros k; simpl; [constructor|].
      assert (Hshift : imap ((fun i ids => (N.of_nat (k + i), ids)) ∘ S) l = imap (fun i ids => (N.of_nat (S k + i), ids)) l).
      { apply imap_ext. intros. simpl. f_equal. lia. }
      rewrite Hshift. destruct ids; [apply (IH (S k))|]. csimpl. constructor; [apply (IH (S k))|].
      apply Forall_fmap, Forall_forall. intros [s b] Hb. simpl.
      apply list_elem_of_In, List.filter_In in Hb as [Hb _]. apply list_elem_of_In, list_elem_of_lookup in Hb as [i Hi].
      rewrite list_lookup_imap in Hi. destruct (l !! i); [|done]. injection Hi as <- _. lia. }
    apply (Hgen 0%nat).
  - rewrite concat_nonempty, imap_numbers.
    rewrite concat_pushes by (done || by rewrite length_replicate).
    assert (Hnil : forall m, concat (replicate m (@nil N)) = []) by (induction m; done). by rewrite Hnil.
Qed.

(** ** f16 conversion *)

(** The sign bit, the exponent and the mantissa of an f16. *)
Definition f16_word (s e q : N) : N := s * 32768 + e * 1024 + q.

Lemma f16_lor s e q : e * 1024 + q < 32768 -> q < 1024 ->
  N.lor (N.lor (N.shiftl s 15) (N.shiftl e 10)) q = f16_word s e q.
Proof.
  intros Heq Hq. rewrite <-N.lor_assoc, (lor_shiftl e) by exact Hq.
  rewrite lor_shiftl by exact Heq. unfold f16_word. lia.
Qed.

(** The three fields of a word built from its fields. *)
Lemma f32_fields s e m :
  s < 2 -> e < 256 -> m < 8388608 ->
  let bits := s * 2147483648 + e * 8388608 + m in
  N.land bits 8388607 = m /\ N.land (N.shiftr bits 23) 255 = e /\ N.land (N.shiftr bits 31) 1 = s.
Proof.
  intros Hs He Hm bits.
  change 8388607 with (N.ones 23). change 255 with (N.ones 8). change 1 with (N.ones 1).
  rewrite !N.land_ones, !N.shiftr_div_pow2.
  change (2 ^ 23) with 8388608. change (2 ^ 8) with 256. change (2 ^ 31) with 2147483648. change (2 ^ 1) with 2.
  unfold bits. split_and!; symmetry.
  - apply (N.mod_unique _ _ (s * 256 + e)); lia.
  - replace (_ / 8388608) with (s * 256 + e) by (apply (N.div_unique _ _ _ m); lia).
    apply (N.mod_unique _ _ s); lia.
  - replace (_ / 2147483648) with s by (apply (N.div_unique _ _ _ (e * 8388608 + m)); lia).
    by apply (N.mod_unique _ _ 0).
Qed.

(** The kept bits of a mantissa, the first dropped one, and whether the others are
    zero. *)
Lemma mantissa_split q b r :
  q < 1024 -> b < 2 -> r < 4096 ->
  let m := 8192 * q + 4096 * b + r in
  N.shiftr m 13 = q /\ N.land (N.shiftr m 12) 1 = b /\ N.land m 4095 = r.
Proof.
  intros Hq Hb Hr m. change 4095 with (N.ones 12). change 1 with (N.ones 1).
  rewrite !N.land_ones, !N.shiftr_div_pow2.
  change (2 ^ 13) with 8192. change (2 ^ 12) with 4096. change (2 ^ 1) with 2.
  unfold m. split_and!; symmetry.
  - apply (N.div_unique _ _ _ (4096 * b + r)); lia.
  - replace (_ / 4096) with (2 * q + b) by (apply (N.div_unique _ _ _ r); lia).
    apply (N.mod_unique _ _ q); lia.
  - apply (N.mod_unique _ _ (2 * q + b)); lia.
Qed.

Lemma mantissa_parts m :
  m < 8388608 -> exists q b r, q < 1024 /\ b < 2 /\ r < 4096 /\ m = 8192 * q + 4096 * b + r.
Proof.
  intros Hm. exists (m / 8192), (m mod 8192 / 4096), (m mod 8192 mod 4096).
  pose proof (N.div_mod m 8192 ltac:(done)) as H1. pose proof (N.div_mod (m mod 8192) 4096 ltac:(done)) as H2.
  pose proof (N.mod_lt m 8192 ltac:(done)) as H3. pose proof (N.mod_lt (m mod 8192) 4096 ltac:(done)) as H4.
  set (q := m / 8192) in *. set (r := m mod 8192) in *. set (b := r / 4096) in *. set (r' := r mod 4096) in *.
  clearbody q r b r'. split_and!; lia.
Qed.

Lemma land_1 q : N.land q 1 = if N.even q then 0 else 1.
Proof.
  change 1 with (N.ones 1) at 1. rewrite N.land_ones. change (2 ^ 1) with 2.
  rewrite <-N.bit0_mod, N.bit0_odd, <-N.negb_even. by destruct (N.even q).
Qed.

(** Narrowing an f32 whose exponent lies in the f16 range keeps the sign and rounds
    the significand to the nearest multiple of an f16 unit in the last place, ties
    to the even one; a carry moves into the exponent, up to infinity.  [q] is the
    rounded 23-bit mantissa in units of 2^13. *)
Theorem f16_rounds_to_nearest_even s e m :
  s < 2 -> 1 <= e <= 30 -> m < 8388608 ->
  exists q, f32_to_f16_bits (s * 2147483648 + (e + 112) * 8388608 + m) = f16_word s e q /\ q <= 1024 /\
    (2 * m < 16384 * q + 8192 /\ 16384 * q < 2 * m + 8192 \/
     N.even q = true /\ (2 * m = 16384 * q + 8192 \/ 16384 * q = 2 * m + 8192)).
Proof.
  intros Hs He Hm. destruct (f32_fields s (e + 112) m Hs ltac:(lia) Hm) as (Hmant & Hexp & Hsign).
  destruct (mantissa_parts m Hm) as (q & b & r & Hq & Hb & Hr & Em).
  destruct (mantissa_split q b r Hq Hb Hr) as (Hq' & Hround & Hsticky). rewrite <-Em in Hq', Hround, Hsticky.
  unfold f32_to_f16_bits. rewrite Hmant, Hexp, Hsign.
  destruct (Z.eqb_spec (Z.of_N (e + 112)) 255); [lia|].
  destruct (Z.leb_spec 31 (Z.of_N (e + 112) - 127 + 15)); [lia|].
  destruct (Z.leb_spec (Z.of_N (e + 112) - 127 + 15) 0); [lia|].
  replace (Z.to_N (Z.of_N (e + 112) - 127 + 15)) with e by lia.
  replace (Z.to_N (Z.of_N (e + 112) - 127 + 15 + 1)) with (e + 1) by lia.
  rewrite Hq', Hround, Hsticky, land_1.
  assert (Hkeep : forall x, x < 1024 -> N.land x 1023 = x).
  { intros x Hx. change 1023 with (N.ones 10). rewrite N.land_ones. by apply N.mod_small. }
  assert (Hup : (if q + 1 =? 1024 then N.lor (N.shiftl s 15) (N.shiftl (e + 1) 10)
    else N.lor (N.lor (N.shiftl s 15) (N.shiftl e 10)) (N.land (q + 1) 1023)) = f16_word s e (q + 1)).
  { case_N.
    - rewrite (N.shiftl_mul_pow2 (e + 1)). change (2 ^ 10) with 1024.
      rewrite lor_shiftl; change (2 ^ 15) with 32768; [unfold f16_word; lia|clear -He; lia].
    - rewrite Hkeep by lia. apply f16_lor; lia. }
  assert (Hdown : N.lor (N.lor (N.shiftl s 15) (N.shiftl e 10)) (N.land q 1023) = f16_word s e q).
  { rewrite Hkeep by lia. apply f16_lor; lia. }
  destruct (N.eqb_spec b 1) as [->|Hb0]; cbn [andb]; [|exists q; split; [done|]; split; [lia|left; lia]].
  destruct (N.eqb_spec r 0) as [->|Hr0]; cbn [negb orb].
  - destruct (N.even q) eqn:Eq; cbn [N.eqb Pos.eqb]; [exists q; split; [done|]; split; [lia|right; split; [done|left; lia]]|].
    exists (q + 1). split; [done|]. split; [lia|right]. split; [|lia]. by rewrite N.add_1_r, N.even_succ, <-N.negb_even, Eq.
  - exists (q + 1). split; [done|]. split; [lia|left; lia].
Qed.

(** What a trip through an f32 leaves of an f16 word: subnormals become a zero of
    their sign, and every NaN becomes the quiet one of its sign. *)
Definition f16_canonical (h : N) : N :=
  let sign := h / 32768 in
  let exp := h / 1024 mod 32 in
  let mant := h mod 1024 in
  if exp =? 0 then f16_word sign 0 0 else
  if (exp =? 31) && negb (mant =? 0) then f16_word sign 31 512 else h.

Lemma f16_all_canonical :
  forallb (fun a => forallb (fun m => let h := a * 1024 + m in
    f32_to_f16_bits (f16_bits_to_f32 h) =? f16_canonical h) (rangeN 1024)) (rangeN 64) = true.
Proof. vm_compute. reflexivity. Qed.

Lemma f16_survives h : h < 65536 -> f32_to_f16_bits (f16_bits_to_f32 h) = f16_canonical h.
Proof.
  intros Hh. pose proof f16_all_canonical as Hall. rewrite forallb_forall in Hall.
  pose proof (N.div_mod h 1024 ltac:(done)) as Hdm. pose proof (N.mod_lt h 1024 ltac:(done)) as Hm.
  specialize (Hall (h / 1024)). rewrite forallb_forall in Hall.
  rewrite Hdm, N.mul_comm. apply N.eqb_eq, Hall; apply list_elem_of_In, elem_of_rangeN; [|exact Hm].
  apply N.Div0.div_lt_upper_bound. lia.
Qed.

(** Widening a received vector and narrowing it again gives back every f16 word
    that is normal, a zero or an infinity; subnormals flush to a zero and NaNs to
    the quiet NaN, both keeping their sign. *)
Theorem f16_words_survive hidden :
  Forall (fun h => h < 65536) hidden ->
  pack_hidden_state (unpack_hidden_state hidden) = f16_canonical <$> hidden.
Proof.
  intros Hh. unfold pack_hidden_state, unpack_hidden_state. rewrite <-list_fmap_compose.
  apply list_fmap_ext. intros i h Hi. pose proof (Forall_lookup_1 _ _ _ _ Hh Hi) as Hlt. cbn in Hlt.
  by apply f16_survives.
Qed.

Module Witness.

Definition rq : RouteExpertsRequest :=
  {| request_id := 9; layer_idx := 3; d_model := 2; expert_ids := [5; 17; 4294967295]; hidden_state_f16 := [15360; 49152] |}.
Definition rs : RouteExpertsResponse :=
  {| resp_request_id := 9; resp_d_model := 2; resp_expert_ids := [5; 17]; ffn_out_f16 := [1; 2; 3; 65535] |}.

Lemma request_frames_faithful_witness : exists frame,
  encode_request rq = Some frame /\ decode_request (frame ++ [Byte.x2a]) = Some (Ok rq).
Proof.
  apply (request_frames_faithful rq [Byte.x2a] []).
  split; try done; repeat (split || constructor || done).
Defined.

Lemma response_frames_faithful_witness :
  (exists frame, encode_response rs = Some frame /\ decode_response (frame ++ []) = Some (Ok rs)) /\
  exists o, decode_response (response_frame rs) = Some o /\
    match o with
    | Ok r => response_wf r /\ exists frame rest, encode_response r = Some frame /\ response_frame rs = frame ++ rest
    | Err need => N.of_nat (length (response_frame rs)) < need
    end.
Proof.
  split; eapply (response_frames_faithful rs [] (response_frame rs)); [|done].
  split; try done; repeat (split || constructor || done).
Defined.

Lemma shards_partition_witness :
  StronglySorted N.lt (group_top_k_by_shard [5; 4; 9; 8] 4).*1 /\
  concat (group_top_k_by_shard [5; 4; 9; 8] 4).*2 ≡ₚ [5; 4; 9; 8].
Proof. apply (shards_partition [5; 4; 9; 8] 4). done. Defined.

Lemma f16_rounds_to_nearest_even_witness : exists q,
  f32_to_f16_bits (1 * 2147483648 + (15 + 112) * 8388608 + 12288) = f16_word 1 15 q /\ q <= 1024 /\
    (2 * 12288 < 16384 * q + 8192 /\ 16384 * q < 2 * 12288 + 8192 \/
     N.even q = true /\ (2 * 12288 = 16384 * q + 8192 \/ 16384 * q = 2 * 12288 + 8192)).
Proof. apply (f16_rounds_to_nearest_even 1 15 12288); repeat split; done. Defined.

Lemma f16_words_survive_witness :
  pack_hidden_state (unpack_hidden_state [15361; 31744; 32256; 32769]) = f16_canonical <$> [15361; 31744; 32256; 32769].
Proof. apply f16_words_survive. repeat constructor. Defined.

End Witness.
