(* ===== verification/Distributed.v ===== *)
(** Expert placement over a mesh of nodes ([src/rust-engine/src/distributed.rs]): the
    local router, the placement [expert mod nodes] and its router, and the errors of a
    remote fetch.  The transport (the health probe of the [grpc] feature) is a
    parameter. *)
From S2P Require Import Prelude Rpc.
From stdpp Require Import strings.

Inductive ShardInstruction :=
| Local_ (expert : N)
| Remote (expert : N) (node : string) (timeout : N).

Definition expert (i : ShardInstruction) : N := match i with Local_ e | Remote e _ _ => e end.
Definition is_local (i : ShardInstruction) : bool := match i with Local_ _ => true | Remote _ _ _ => false end.

Inductive ShardRouterError :=
| Timeout_ (expert : N) (node : string)
| Unreachable (expert : N) (node : string)
| NotFound (expert : N) (node : string)
| Transport (expert : N) (node : string)
| PartialFailure (node : string) (delivered missing : list N).

Record RpcShardRouter := { placement : gmap N string; default_timeout : N }.

(** One step of the loop over the experts; [None] is the [expect] or an index out of
    range. *)
Definition place (nodes : list string) (self_index : nat) (num_nodes : N)
    (o : option (gmap N string)) (id : N) : option (gmap N string) :=
  m ← o;
  shard ← shard_for_expert id num_nodes;
  if (N.to_nat shard =? self_index)%nat then Some m else
  node ← nodes !! N.to_nat shard;
  Some (<[id := node]> m).

(** [None] also is the [assert!]; [nodes.len() as u32] truncates. *)
Definition from_modulo_placement (nodes : list string) (self_index : nat) (num_experts timeout : N)
  : option RpcShardRouter :=
  if negb (self_index <? length nodes)%nat then None else
  let num_nodes := (N.of_nat (length nodes) mod (u32_max + 1))%N in
  m ← foldl (place nodes self_index num_nodes) (Some ∅) (rangeN num_experts);
  Some {| placement := m; default_timeout := timeout |}.

Definition route_local (id : N) : ShardInstruction := Local_ id.

Definition route_expert (r : RpcShardRouter) (id : N) : ShardInstruction :=
  match placement r !! id with
  | Some node => Remote id node (default_timeout r)
  | None => Local_ id
  end.

(** The [tonic::Status] codes, by name. *)
Definition map_tonic_status (id : N) (node code : string) : ShardRouterError :=
  if (String.eqb code "DeadlineExceeded" || String.eqb code "Cancelled") then Timeout_ id node
  else if String.eqb code "Unavailable" then Unreachable id node
  else if String.eqb code "NotFound" then NotFound id node
  else Transport id node.

(** [probe] is the round trip of the [grpc] feature; without it ([None]) every remote
    fetch is [Unreachable]. *)
Definition fetch_remote (probe : option (N -> string -> N -> result ShardRouterError unit))
    (i : ShardInstruction) : result ShardRouterError unit :=
  match i with
  | Local_ _ => Ok tt
  | Remote e node t => match probe with Some p => p e node t | None => Err (Unreachable e node) end
  end.

(** The body of the trait. *)
Definition default_fetch_remote (i : ShardInstruction) : result ShardRouterError unit :=
  match i with
  | Local_ _ => Ok tt
  | Remote e node _ => Err (NotFound e node)
  end.

(** The trait, and what its users rely on: a router answers about the expert it is asked
    about, and a local instruction needs no transport. *)
Class ShardRouter (R : Type) := {
  route : R -> N -> ShardInstruction;
  fetch : R -> ShardInstruction -> result ShardRouterError unit;
}.

Class ShardRouterLaws (R : Type) `{ShardRouter R} := {
  route_about : forall r id, expert (route r id) = id;
  fetch_local : forall r id, fetch r (Local_ id) = Ok tt;
}.

Inductive LocalShardRouter := LocalShardRouter_.

#[export] Instance local_router : ShardRouter LocalShardRouter :=
  {| route := fun _ => route_local; fetch := fun _ => default_fetch_remote |}.

#[export] Instance local_router_laws : ShardRouterLaws LocalShardRouter.
Proof. by split. Qed.

#[export] Instance rpc_router probe : ShardRouter RpcShardRouter :=
  {| route := route_expert; fetch := fun _ => fetch_remote probe |}.

#[export] Instance rpc_router_laws probe : @ShardRouterLaws RpcShardRouter (rpc_router probe).
Proof. split; [|done]. intros r id. simpl. unfold route_expert. by destruct (placement r !! id). Qed.

(** *** Every expert has one home *)

Lemma place_all nodes self n ids m :
  (0 < n)%N -> n = N.of_nat (length nodes) ->
  exists m', foldl (place nodes self n) (Some m) ids = Some m' /\
    forall id, m' !! id =
      if bool_decide (id ∈ ids) && negb (N.to_nat (id mod n) =? self)%nat
      then nodes !! N.to_nat (id mod n) else m !! id.
Proof.
  intros Hn Hlen. revert m. induction ids as [|k ids IH]; intros m; simpl; [by exists m|].
  unfold shard_for_expert. rewrite (proj2 (N.eqb_neq n 0)) by lia. simpl.
  assert (Hlt : (N.to_nat (k mod n) < length nodes)%nat) by (pose proof (N.mod_lt k n); lia).
  destruct (lookup_lt_is_Some_2 _ _ Hlt) as [node Hnode].
  destruct (N.to_nat (k mod n) =? self)%nat eqn:Hself.
  - destruct (IH m) as (m' & -> & Hm). exists m'. split; [done|]. intros id. rewrite Hm.
    destruct (decide (id = k)) as [->|Hne].
    + rewrite Hself. by rewrite !andb_false_r.
    + by rewrite (bool_decide_ext (id ∈ k :: ids) (id ∈ ids)) by set_solver.
  - rewrite Hnode. simpl. destruct (IH (<[k := node]> m)) as (m' & -> & Hm). exists m'. split; [done|].
    intros id. rewrite Hm. destruct (decide (id = k)) as [->|Hne].
    + rewrite lookup_insert_eq, Hself, (bool_decide_true (k ∈ k :: ids)) by by left. simpl.
      by destruct (bool_decide (k ∈ ids)).
    + rewrite lookup_insert_ne by done. by rewrite (bool_decide_ext (id ∈ k :: ids) (id ∈ ids)) by set_solver.
Qed.

(** The routers of a mesh agree: every expert is local to node [expert mod nodes] and to
    no other, and every other node sends its requests for it there, with the deadline
    of the mesh; building the router never panics. *)
Theorem mesh_places_experts_once nodes num_experts t i :
  (i < length nodes)%nat -> (N.of_nat (length nodes) <= u32_max)%N ->
  exists r, from_modulo_placement nodes i num_experts t = Some r /\
    forall id, (id < num_experts)%N ->
      let home := N.to_nat (id mod N.of_nat (length nodes)) in
      expert (route_expert r id) = id /\
      (home = i -> route_expert r id = Local_ id) /\
      (home <> i -> exists node, nodes !! home = Some node /\ route_expert r id = Remote id node t).
Proof.
  intros Hi Hlen. unfold from_modulo_placement. rewrite (proj2 (Nat.ltb_lt _ _) Hi). simpl.
  rewrite N.mod_small by lia.
  destruct (place_all nodes i (N.of_nat (length nodes)) (rangeN num_experts) ∅) as (m & Hf & Hm); [lia|done|].
  rewrite Hf. eexists. split; [done|]. intros id Hid. unfold route_expert. simpl.
  rewrite Hm, bool_decide_true by by apply elem_of_rangeN. simpl. set (home := N.to_nat _).
  assert (Hh : (home < length nodes)%nat) by (subst home; pose proof (N.mod_lt id (N.of_nat (length nodes))); lia).
  destruct (lookup_lt_is_Some_2 _ _ Hh) as [node Hnode].
  destruct (Nat.eqb_spec home i) as [He|He]; simpl.
  - rewrite lookup_empty. by split_and!.
  - rewrite Hnode. split_and!; [done|done|]. intros _. by exists node.
Qed.

Module Witness.
Definition mesh : list string := ["10.0.0.1:50051"; "10.0.0.2:50051"; "10.0.0.3:50051"]%string.

Lemma mesh_places_experts_once_witness :
  exists r, from_modulo_placement mesh 1 8 250 = Some r /\
    route_expert r 4 = Local_ 4 /\ route_expert r 5 = Remote 5 "10.0.0.3:50051" 250.
Proof.
  destruct (mesh_places_experts_once mesh 8 250 1) as (r & Hr & Hp); [simpl; lia|vm_compute; discriminate|].
  exists r. split; [done|]. split.
  - destruct (Hp 4%N) as (_ & Hl & _); [lia|]. by apply Hl.
  - destruct (Hp 5%N) as (_ & _ & Hn); [lia|]. destruct Hn as (node & Hnode & ->); [by vm_compute|].
    by injection Hnode as <-.
Defined.
End Witness.
