(* ===== verification/ExpertCache.v ===== *)
(** The in-RAM cache of resident experts
    ([src/rust-engine/src/expert_cache.rs], [ExpertResident], [ExpertCache] and
    [ExpertCacheSlotReservation]).

    A resident is shared ([Arc<ExpertResident>]): its immutable fields travel
    in the handle, and the cells the code updates behind the [Arc] (hit counter,
    heat, cached padding) live in a heap indexed by the resident's address.
    Heat scores are IEEE doubles ([SpecFloat] at precision 53); the standard
    library leaves the rounding of [f64::powi] unspecified, so it is a
    parameter.  The LRU order comes from the interface [Lru.LruCache]. *)
From S2P Require Import Prelude Floats Lru TensorHeader BufferPool.

(** ** Residents *)

Record ExpertResident := {
  r_ref : N;                                 (** address behind the [Arc] *)
  r_id : N;
  r_buffer : PooledBuffer;
  qualification_shared_payload : option (list byte);
  payload_offset : N;
  mixed_layout : option Uth2.t;
}.

(** The cells updated behind the [Arc]. *)
Record cells := {
  hits : N;
  q4_0_padded : option (N * list byte);
  heat : f64;
  heat_last_epoch : N;
}.
Definition fresh_cells : cells :=
  {| hits := 0; q4_0_padded := None; heat := f64_zero; heat_last_epoch := 0 |}.

Definition heap : Type := gmap N cells.
Definition cells_of (r : ExpertResident) (h : heap) : cells := default fresh_cells (h !! r_ref r).

Definition DEFAULT_BLOCK_ALIGN : N := 4096.

Definition r_bytes (r : ExpertResident) : list byte := bytes (buffer (r_buffer r)).

(** The process-wide [RESIDENT_EXPERT_BUFFER_BYTES] is the [N] threaded through
    construction and drop. *)
Definition new_with_block_align (ref id : N) (buf : PooledBuffer) (block_align : N)
    (h : heap) (resident_bytes : N) : ExpertResident * heap * N :=
  let raw := bytes (buffer buf) in
  let '(payload, mixed) :=
    match Uth2.strip raw block_align with
    | Some (hd, payload) => (payload, Some hd)
    | None => (snd (Uth1.strip raw block_align), None)
    end in
  ({| r_ref := ref; r_id := id; r_buffer := buf; qualification_shared_payload := None;
      payload_offset := N.of_nat (length raw) - N.of_nat (length payload);
      mixed_layout := mixed |},
   <[ref := fresh_cells]> h, fetch_add resident_bytes (N.of_nat (length raw))).

Definition resident_new (ref id : N) (buf : PooledBuffer) (h : heap) (resident_bytes : N) :=
  new_with_block_align ref id buf DEFAULT_BLOCK_ALIGN h resident_bytes.

Definition new_qualification_shared (ref id : N) (lease : PooledBuffer) (payload : list byte)
    (h : heap) (resident_bytes : N) : option (ExpertResident * heap * N) :=
  if bool_decide (payload = []) then None (* assert! *) else
  Some ({| r_ref := ref; r_id := id; r_buffer := lease;
           qualification_shared_payload := Some payload; payload_offset := 0;
           mixed_layout := None |},
        <[ref := fresh_cells]> h,
        fetch_add resident_bytes (N.of_nat (length (bytes (buffer lease))))).

(** [Drop for ExpertResident]. *)
Definition drop_resident (r : ExpertResident) (resident_bytes : N) : N :=
  fetch_sub resident_bytes (N.of_nat (length (r_bytes r))).

Definition record_hit (r : ExpertResident) (h : heap) : N * heap :=
  let c := cells_of r h in
  let n := wrap_add u64_max (hits c) 1 in
  (n, <[r_ref r := {| hits := n; q4_0_padded := q4_0_padded c; heat := heat c;
                      heat_last_epoch := heat_last_epoch c |}]> h).

Definition is_shadow_backed (r : ExpertResident) : bool := is_shadow (r_buffer r).

Definition buffer_pool_origin (r : ExpertResident) (pool_origin : BufferPoolOrigin)
  : option BufferPoolOrigin :=
  match qualification_shared_payload r with None => Some pool_origin | Some _ => None end.

Definition data (r : ExpertResident) : list byte :=
  match qualification_shared_payload r with
  | Some payload => payload
  | None => drop (N.to_nat (payload_offset r)) (r_bytes r)
  end.

Definition q4_0_padded_payload (r : ExpertResident) (need tolerance : N) (h : heap)
  : option (list byte) * heap :=
  let d := data r in
  let len := N.of_nat (length d) in
  if (need <=? len)%N then (None, h) else
  let shortfall := (need - len)%N in
  if (need <=? tolerance)%N || (tolerance <? shortfall)%N then (None, h) else
  let c := cells_of r h in
  let '(cached_need, cached) :=
    match q4_0_padded c with
    | Some p => p
    | None => (need, d ++ replicate (N.to_nat (need - len)) x00)
    end in
  let h' := <[r_ref r := {| hits := hits c; q4_0_padded := Some (cached_need, cached);
                            heat := heat c; heat_last_epoch := heat_last_epoch c |}]> h in
  (if (cached_need =? need)%N then Some cached else None, h').

(** ** The cache *)

Inductive ExpertCacheReservationError :=
| Capacity | VictimUnavailable | CostAwarePolicy | InvalidExpertId | DuplicateExpertId
| ConcurrentReservationConflict.

(** [COST_AWARE_HEAT_DECAY]: the double nearest to 0.98. *)
Definition COST_AWARE_HEAT_DECAY : f64 := S754_finite false 8827055269646172 (-53).

Section cache.
Context `{!LruCache ExpertResident}.
(** [f64::powi]. *)
Variable powi : f64 -> Z -> f64.

Definition age (epoch last : N) : Z := Z.of_N (N.min (epoch - last) 4096).

Definition bump_heat (r : ExpertResident) (epoch : N) (decay : f64) (h : heap) : heap :=
  let c := cells_of r h in
  let decayed := f64_mul (heat c) (powi decay (age epoch (heat_last_epoch c))) in
  <[r_ref r := {| hits := hits c; q4_0_padded := q4_0_padded c;
                  heat := f64_add decayed f64_one; heat_last_epoch := epoch |}]> h.

Definition decayed_heat (r : ExpertResident) (epoch : N) (decay : f64) (h : heap) : f64 :=
  let c := cells_of r h in f64_mul (heat c) (powi decay (age epoch (heat_last_epoch c))).

Record ExpertCache := {
  inner : lru ExpertResident;
  pinned : gset N;
  capacity : N;
  cost_aware : bool;
  epoch : N;
  reserved_slots : N;
}.

Definition cache_new (capacity : N) : option ExpertCache :=
  if (capacity =? 0)%N then None (* expect *) else
  Some {| inner := lru_new capacity; pinned := ∅; capacity := capacity; cost_aware := false;
          epoch := 0; reserved_slots := 0 |}.

Definition with_inner (l : lru ExpertResident) (c : ExpertCache) : ExpertCache :=
  {| inner := l; pinned := pinned c; capacity := capacity c; cost_aware := cost_aware c;
     epoch := epoch c; reserved_slots := reserved_slots c |}.
Definition with_pinned (p : gset N) (c : ExpertCache) : ExpertCache :=
  {| inner := inner c; pinned := p; capacity := capacity c; cost_aware := cost_aware c;
     epoch := epoch c; reserved_slots := reserved_slots c |}.
Definition set_cost_aware (on : bool) (c : ExpertCache) : ExpertCache :=
  {| inner := inner c; pinned := pinned c; capacity := capacity c; cost_aware := on;
     epoch := epoch c; reserved_slots := reserved_slots c |}.
Definition with_epoch (e : N) (c : ExpertCache) : ExpertCache :=
  {| inner := inner c; pinned := pinned c; capacity := capacity c; cost_aware := cost_aware c;
     epoch := e; reserved_slots := reserved_slots c |}.
Definition with_reserved (n : N) (c : ExpertCache) : ExpertCache :=
  {| inner := inner c; pinned := pinned c; capacity := capacity c; cost_aware := cost_aware c;
     epoch := epoch c; reserved_slots := n |}.

Definition get (id : N) (c : ExpertCache) (h : heap) : option ExpertResident * ExpertCache * heap :=
  let '(resident, l) := lru_get id (inner c) in
  let h' := match resident with
    | Some r => if cost_aware c then bump_heat r (epoch c) COST_AWARE_HEAT_DECAY h else h
    | None => h
    end in
  (resident, with_inner l c, h').

Definition contains (id : N) (c : ExpertCache) : bool :=
  match lru_peek id (inner c) with Some _ => true | None => false end.

(** The cost-aware loop of [select_victim_id], over [iter()]. *)
Definition select_step (pins : gset N) (score : ExpertResident -> f64)
    (best : option (N * f64)) (kv : N * ExpertResident) : option (N * f64) :=
  let '(k, v) := kv in
  if bool_decide (k ∈ pins) then best else
  let s := score v in
  let replace := match best with None => true | Some (_, bs) => f64_leb s bs end in
  if replace then Some (k, s) else best.

Definition select_victim_id (c : ExpertCache) (h : heap) : option N :=
  if cost_aware c then
    let score v := decayed_heat v (epoch c) COST_AWARE_HEAT_DECAY h in
    fst <$> foldl (select_step (pinned c) score) None (lru_iter (inner c))
  else
    last (List.filter (fun k => negb (bool_decide (k ∈ pinned c))) (lru_iter (inner c)).*1).

Definition insert (resident : ExpertResident) (c : ExpertCache) (h : heap)
  : result ExpertResident (option ExpertResident) * ExpertCache * heap :=
  let id := r_id resident in
  let c := if cost_aware c then with_epoch (wrap_add u64_max (epoch c) 1) c else c in
  let effective_len := sat_add usize_max (lru_len (inner c)) (reserved_slots c) in
  let full := (capacity c <=? effective_len)%N &&
              match lru_peek id (inner c) with None => true | Some _ => false end in
  let pre :=
    if full then
      match select_victim_id c h with
      | Some victim => Some (lru_pop victim (inner c))
      | None => None
      end
    else Some (None, inner c) in
  match pre with
  | None => (Err resident, c, h)
  | Some (pre_evicted, l) =>
      let h' := if cost_aware c then bump_heat resident (epoch c) COST_AWARE_HEAT_DECAY h else h in
      let '(push_evicted, l') := lru_push id resident l in
      (Ok (match push_evicted with Some (_, v) => Some v | None => pre_evicted end),
       with_inner l' c, h')
  end.

Definition evict_lru (c : ExpertCache) (h : heap) : option ExpertResident * ExpertCache :=
  if bool_decide (pinned c = ∅) && negb (cost_aware c) then
    let '(o, l) := lru_pop_lru (inner c) in (snd <$> o, with_inner l c)
  else
    match select_victim_id c h with
    | None => (None, c)
    | Some victim => let '(o, l) := lru_pop victim (inner c) in (o, with_inner l c)
    end.

(** The ids [evict_lru_shadow_backed] tries, least recently used first. *)
Fixpoint evict_first_unpinned (ids : list N) (c : ExpertCache) : option ExpertResident * ExpertCache :=
  match ids with
  | [] => (None, c)
  | id :: ids' =>
      if bool_decide (id ∈ pinned c) then evict_first_unpinned ids' c else
      match lru_pop id (inner c) with
      | (Some v, l) => (Some v, with_inner l c)
      | (None, l) => evict_first_unpinned ids' (with_inner l c)
      end
  end.

Definition evict_lru_shadow_backed (c : ExpertCache) : option ExpertResident * ExpertCache :=
  let id_order := (List.filter (fun kv => is_shadow_backed (snd kv)) (lru_iter (inner c))).*1 in
  evict_first_unpinned (reverse id_order) c.

Definition pin (id : N) (c : ExpertCache) : ExpertCache := with_pinned ({[id]} ∪ pinned c) c.
Definition unpin (id : N) (c : ExpertCache) : ExpertCache := with_pinned (pinned c ∖ {[id]}) c.
Definition is_pinned (id : N) (c : ExpertCache) : bool := bool_decide (id ∈ pinned c).
Definition pinned_ids (c : ExpertCache) : list N := sort_by_key (fun k => k) (elements (pinned c)).
Definition pinned_count (c : ExpertCache) : N := N.of_nat (size (pinned c)).
Definition resident_ids (c : ExpertCache) : list N := (lru_iter (inner c)).*1.

(** [ExpertCacheSlotReservation]: a guard is its [remaining] count. *)
Definition reservation_new (count : N) (c : ExpertCache) : N * ExpertCache :=
  (count, with_reserved (wrap_add usize_max (reserved_slots c) count) c).

(** [Err] leaves guard and cache as they were. *)
Definition commit (remaining : N) (resident : ExpertResident) (c : ExpertCache)
  : result ExpertResident (N * ExpertCache) :=
  if (remaining =? 0)%N then Err resident else
  let id := r_id resident in
  let reserved := reserved_slots c in
  if (reserved =? 0)%N
     || match lru_peek id (inner c) with Some _ => true | None => false end
     || (capacity c <? sat_add usize_max (lru_len (inner c)) reserved)%N
  then Err resident
  else
    let c := with_reserved (reserved - 1) c in
    Ok ((remaining - 1)%N, with_inner (snd (lru_push id resident (inner c))) c).

(** [Drop for ExpertCacheSlotReservation]. *)
Definition reservation_drop (remaining : N) (c : ExpertCache) : ExpertCache :=
  if (remaining =? 0)%N then c
  else with_reserved ((reserved_slots c + (usize_max + 1 - remaining)) mod (usize_max + 1)) c.
End cache.
Arguments ExpertCache {_}.

(** ** Reachable states

    A cache shared by its clients: ordinary operations, exact-demand
    transactions that pop unpinned victims and take reservations under the
    lock, and the guards ([tickets]) still outstanding. *)
Section world.
Context `{!LruCache ExpertResident}.
Variable powi : f64 -> Z -> f64.

Record cache_world := {
  cache : ExpertCache;
  residents : heap;
  tickets : list N;
}.

Inductive cache_step : cache_world -> cache_world -> Prop :=
| step_get w id :
    cache_step w {| cache := snd (fst (get powi id (cache w) (residents w)));
                    residents := snd (get powi id (cache w) (residents w));
                    tickets := tickets w |}
| step_insert w r :
    cache_step w {| cache := snd (fst (insert powi r (cache w) (residents w)));
                    residents := snd (insert powi r (cache w) (residents w));
                    tickets := tickets w |}
| step_evict w :
    cache_step w {| cache := snd (evict_lru powi (cache w) (residents w));
                    residents := residents w; tickets := tickets w |}
| step_evict_shadow w :
    cache_step w {| cache := snd (evict_lru_shadow_backed (cache w));
                    residents := residents w; tickets := tickets w |}
| step_pin w id :
    cache_step w {| cache := pin id (cache w); residents := residents w; tickets := tickets w |}
| step_policy w on :
    cache_step w {| cache := set_cost_aware on (cache w);
                    residents := residents w; tickets := tickets w |}
| step_remove_victim w id :
    is_pinned id (cache w) = false ->
    cache_step w {| cache := with_inner (snd (lru_pop id (inner (cache w)))) (cache w);
                    residents := residents w; tickets := tickets w |}
| step_reserve w n :
    (lru_len (inner (cache w)) + reserved_slots (cache w) + n <= capacity (cache w))%N ->
    cache_step w {| cache := snd (reservation_new n (cache w));
                    residents := residents w;
                    tickets := fst (reservation_new n (cache w)) :: tickets w |}
| step_commit w t1 n t2 r n' c' :
    tickets w = t1 ++ n :: t2 ->
    commit n r (cache w) = Ok (n', c') ->
    cache_step w {| cache := c'; residents := residents w; tickets := t1 ++ n' :: t2 |}
| step_release w t1 n t2 :
    tickets w = t1 ++ n :: t2 ->
    cache_step w {| cache := reservation_drop n (cache w);
                    residents := residents w; tickets := t1 ++ t2 |}
| step_hit w r :
    cache_step w {| cache := cache w; residents := snd (record_hit r (residents w));
                    tickets := tickets w |}
| step_unpin w id :
    cache_step w {| cache := unpin id (cache w); residents := residents w; tickets := tickets w |}.
End world.

(** ** Victim selection *)

Lemma last_filter_Some {A} (f : A -> bool) (l : list A) x :
  last (List.filter f l) = Some x ->
  exists l1 l2, l = l1 ++ x :: l2 /\ f x = true /\ Forall (fun y => f y = false) l2.
Proof.
  induction l as [|y l IH] using rev_ind; [done|].
  rewrite List.filter_app. simpl. destruct (f y) eqn:E.
  - rewrite last_snoc. intros [= <-]. by exists l, [].
  - rewrite app_nil_r. intros (l1 & l2 & -> & Hx & Hl)%IH.
    exists l1, (l2 ++ [y]). rewrite <-app_assoc. split_and!; auto.
    rewrite Forall_app. auto.
Qed.

Lemma last_filter_None {A} (f : A -> bool) (l : list A) :
  last (List.filter f l) = None <-> Forall (fun y => f y = false) l.
Proof.
  rewrite last_None. induction l as [|y l IH]; simpl; [done|].
  rewrite Forall_cons. destruct (f y); [naive_solver|]. rewrite IH. tauto.
Qed.

Section select.
Context (pins : gset N) (score : ExpertResident -> f64).
Implicit Types (l : list (N * ExpertResident)).

Definition unpinned (kv : N * ExpertResident) : Prop := fst kv ∉ pins.

(** The loop keeps the unpinned entry of least score, the later one on ties. *)
Lemma select_loop l :
  Forall (fun kv => is_nan (score (snd kv)) = false) l ->
  match foldl (select_step pins score) None l with
  | None => Forall (fun kv => fst kv ∈ pins) l
  | Some (k, s) =>
      exists l1 v l2, l = l1 ++ (k, v) :: l2 /\ s = score v /\ (k ∉ pins) /\
        Forall (fun kv => unpinned kv -> f64_leb (score v) (score (snd kv)) = true) l1 /\
        Forall (fun kv => unpinned kv -> f64_leb (score (snd kv)) (score v) = false) l2
  end.
Proof.
  induction l as [|[k v] l IH] using rev_ind; intros Hn; simpl; [constructor|].
  apply Forall_app in Hn as [Hn [Hv _]%Forall_cons]. specialize (IH Hn). simpl in Hv.
  rewrite foldl_snoc. destruct (foldl _ None l) as [[k0 s0]|] eqn:E; unfold select_step at 1.
  - destruct IH as (l1 & v0 & l2 & -> & -> & Hk0 & Hl1 & Hl2).
    apply Forall_app in Hn as [Hn1 [Hv0 Hn2]%Forall_cons]. simpl in Hv0.
    case_bool_decide as Hk.
    { exists l1, v0, (l2 ++ [(k, v)]). rewrite <-app_assoc. split_and!; auto.
      apply Forall_app. split; [done|]. constructor; [|done]. intros []. done. }
    destruct (f64_leb (score v) (score v0)) eqn:Ev.
    + exists (l1 ++ (k0, v0) :: l2), v, []. split_and!; auto.
      apply Forall_app. split; [|constructor; [done|]].
      * rewrite Forall_forall in Hl1, Hn1 |- *. intros kv Hin Hu.
        eapply f64_leb_trans; [done|exact Hv0|by apply Hn1|done|by apply Hl1].
      * rewrite Forall_forall in Hl2, Hn2 |- *. intros kv Hin Hu.
        eapply f64_leb_trans; [done|exact Hv0|by apply Hn2|done|].
        apply f64_leb_flip; [by apply Hn2|done|by apply Hl2].
    + exists l1, v0, (l2 ++ [(k, v)]). rewrite <-app_assoc. split_and!; auto.
      apply Forall_app. auto.
  - case_bool_decide as Hk.
    + apply Forall_app. auto.
    + exists l, v, []. split_and!; auto.
      eapply Forall_impl; [exact IH|]. intros kv Hin Hu. by destruct Hu.
Qed.

(** Without assumptions on the scores: the loop only answers unpinned entries. *)
Lemma select_loop_sound l k s :
  foldl (select_step pins score) None l = Some (k, s) -> (k ∉ pins) /\ k ∈ l.*1.
Proof.
  revert k s. induction l as [|[k v] l IH] using rev_ind; intros k0 s0; [done|].
  rewrite foldl_snoc, fmap_app, elem_of_app. unfold select_step at 1.
  case_bool_decide as Hk; [intros []%IH; auto|].
  destruct (foldl _ None l) as [[k1 s1]|] eqn:E.
  - destruct (f64_leb _ _); intros [= <- <-]; [set_solver|]. edestruct IH; eauto.
  - intros [= <- <-]. set_solver.
Qed.

Lemma select_loop_none l :
  foldl (select_step pins score) None l = None <-> Forall (fun kv => fst kv ∈ pins) l.
Proof.
  induction l as [|[k v] l IH] using rev_ind; simpl; [done|].
  rewrite foldl_snoc, Forall_app, Forall_singleton, <-IH. unfold select_step at 1.
  case_bool_decide as Hk; simpl; [tauto|].
  destruct (foldl _ None l) as [[k0 s0]|]; [destruct (f64_leb _ _)|]; naive_solver.
Qed.
End select.

(** ** Operations and their specifications *)

Section facts.
Context `{!LruCache ExpertResident, !LruLaws ExpertResident}.
Variable powi : f64 -> Z -> f64.
Implicit Types (c : ExpertCache) (h : heap) (r : ExpertResident).

Abbreviation entries c := (lru_iter (inner c)).

Lemma select_victim_sound c h k :
  select_victim_id powi c h = Some k -> (k ∉ pinned c) /\ k ∈ (entries c).*1.
Proof.
  unfold select_victim_id. destruct (cost_aware c).
  - destruct (foldl _ None _) as [[k' s]|] eqn:E; [|done]. intros [= <-].
    by eapply select_loop_sound.
  - intros (l1 & l2 & Hl & Hk & _)%last_filter_Some.
    apply negb_true_iff, bool_decide_eq_false in Hk. split; [done|].
    rewrite Hl. apply elem_of_app. right. by left.
Qed.

Lemma select_victim_none c h :
  select_victim_id powi c h = None <-> Forall (fun kv => fst kv ∈ pinned c) (entries c).
Proof.
  unfold select_victim_id. destruct (cost_aware c).
  - rewrite fmap_None. apply select_loop_none.
  - rewrite last_filter_None, Forall_fmap. apply Forall_iff. intros [k v]. simpl.
    by rewrite negb_false_iff, bool_decide_eq_true.
Qed.

(** The strict policy: every entry less recently used than the victim is pinned. *)
Lemma select_victim_strict c h k :
  cost_aware c = false -> select_victim_id powi c h = Some k ->
  exists l1 v l2, entries c = l1 ++ (k, v) :: l2 /\ (k ∉ pinned c) /\
    Forall (fun kv => fst kv ∈ pinned c) l2.
Proof.
  unfold select_victim_id. intros -> (k1 & k2 & Hl & Hk & H2)%last_filter_Some.
  apply negb_true_iff, bool_decide_eq_false in Hk.
  apply fmap_app_inv in Hl as (l1 & l2' & -> & Hl2 & ->).
  symmetry in Hl2. apply fmap_cons_inv in Hl2 as ([k' v] & l2 & -> & -> & ->).
  exists l1, v, l2. split_and!; [done..|]. rewrite Forall_fmap in H2.
  eapply Forall_impl; [exact H2|]. intros [k0 v0]. simpl.
  by rewrite negb_false_iff, bool_decide_eq_true.
Qed.

Lemma elem_split c k : k ∈ (entries c).*1 ->
  exists l1 v l2, entries c = l1 ++ (k, v) :: l2 /\
    lru_pop k (inner c) = (Some v, snd (lru_pop k (inner c))) /\
    lru_iter (snd (lru_pop k (inner c))) = l1 ++ l2.
Proof.
  intros ([k' v] & -> & Hin)%list_elem_of_fmap. simpl.
  pose proof (lru_iter_nodup (inner c)) as Hnd.
  destruct (lru_pop_law k' (inner c)) as (Hf & _ & Hi).
  apply list_elem_of_split in Hin as (l1 & l2 & Hl). exists l1, v, l2. rewrite Hl in *.
  rewrite aget_middle in Hf by done. rewrite adel_middle in Hi by done.
  split_and!; [done| |done]. destruct (lru_pop k' (inner c)); simpl in *. congruence.
Qed.

(** [evict_lru]'s fast path agrees with the victim selector. *)
Lemma evict_fast_path c h :
  pinned c = ∅ -> cost_aware c = false ->
  match select_victim_id powi c h with
  | None => entries c = []
  | Some k => exists v l1, entries c = l1 ++ [(k, v)]
  end.
Proof.
  intros Hp Hc. destruct (select_victim_id powi c h) as [k|] eqn:E.
  - apply select_victim_strict in E as (l1 & v & l2 & Hl & _ & H2); [|done].
    destruct l2 as [|kv l2]; [eauto|]. apply Forall_cons in H2 as [H2 _]. rewrite Hp in H2. set_solver.
  - apply select_victim_none in E. destruct (entries c) as [|kv l]; [done|].
    apply Forall_cons in E as [E _]. rewrite Hp in E. set_solver.
Qed.

(** Both paths remove the selected victim, and nothing else. *)
Lemma evict_lru_cases c h :
  match select_victim_id powi c h with
  | None => fst (evict_lru powi c h) = None /\ entries (snd (evict_lru powi c h)) = entries c
  | Some k => exists l1 v l2, entries c = l1 ++ (k, v) :: l2 /\
      fst (evict_lru powi c h) = Some v /\ entries (snd (evict_lru powi c h)) = l1 ++ l2
  end.
Proof.
  unfold evict_lru. destruct (bool_decide (pinned c = ∅) && negb (cost_aware c)) eqn:Hb.
  - apply andb_true_iff in Hb as [Hp%bool_decide_eq_true Hc%negb_true_iff].
    pose proof (evict_fast_path c h Hp Hc) as Hs.
    destruct (lru_pop_lru_law (inner c)) as (Hf & _ & Hi).
    destruct (lru_pop_lru (inner c)) as [o l]. simpl in *. rewrite Hf, Hi.
    destruct (select_victim_id powi c h) as [k|].
    + destruct Hs as (v & l1 & Hl). exists l1, v, []. rewrite Hl, last_snoc, list_removelast_snoc.
      by rewrite app_nil_r.
    + by rewrite Hs.
  - destruct (select_victim_id powi c h) as [k|] eqn:E; [|done].
    apply select_victim_sound in E as [_ Hin].
    destruct (elem_split c k Hin) as (l1 & v & l2 & Hl & Hp & Hi).
    exists l1, v, l2. by rewrite Hp.
Qed.

(** Strict LRU eviction with pinning: without cost-aware mode, [evict_lru]
    removes the least recently used entry that is not pinned (everything less
    recently used than it is pinned), leaves all other entries in their order,
    and answers nothing exactly when every resident is pinned. *)
Theorem evict_lru_strict c h :
  cost_aware c = false ->
  match evict_lru powi c h with
  | (Some v, c') => exists l1 k l2, entries c = l1 ++ (k, v) :: l2 /\ (k ∉ pinned c) /\
      Forall (fun kv => fst kv ∈ pinned c) l2 /\ entries c' = l1 ++ l2
  | (None, c') => entries c' = entries c /\ Forall (fun kv => fst kv ∈ pinned c) (entries c)
  end.
Proof.
  intros Hc. pose proof (evict_lru_cases c h) as He.
  destruct (evict_lru powi c h) as [o c']. simpl in He.
  destruct (select_victim_id powi c h) as [k|] eqn:E.
  - destruct He as (l1 & v & l2 & Hl & -> & Hi).
    apply select_victim_strict in E as (l1' & v' & l2' & Hl' & Hk & H2); [|done].
    pose proof (lru_iter_nodup (inner c)) as Hnd. rewrite Hl in Hl', Hnd.
    destruct (split_key_unique _ _ _ _ _ _ _ Hnd Hl') as [<- Hadel].
    exists l1', k, l2'. rewrite Hl, Hl', Hi. auto.
  - destruct He as [-> ->]. split; [done|]. by apply select_victim_none in E.
Qed.

(** Cost-aware eviction: when no score is NaN, [evict_lru] removes an unpinned
    entry whose decayed heat is minimal among the unpinned ones, the least
    recently used of those on a tie, and refuses only when all are pinned. *)
Theorem evict_lru_cost_aware c h :
  let score v := decayed_heat powi v (epoch c) COST_AWARE_HEAT_DECAY h in
  cost_aware c = true ->
  Forall (fun kv => is_nan (score (snd kv)) = false) (entries c) ->
  match evict_lru powi c h with
  | (Some v, c') => exists l1 k l2, entries c = l1 ++ (k, v) :: l2 /\ (k ∉ pinned c) /\
      Forall (fun kv => fst kv ∉ pinned c -> f64_leb (score v) (score (snd kv)) = true) l1 /\
      Forall (fun kv => fst kv ∉ pinned c -> f64_leb (score (snd kv)) (score v) = false) l2 /\
      entries c' = l1 ++ l2
  | (None, c') => entries c' = entries c /\ Forall (fun kv => fst kv ∈ pinned c) (entries c)
  end.
Proof.
  intros score Hc Hn. pose proof (evict_lru_cases c h) as He.
  destruct (evict_lru powi c h) as [o c']. simpl in He.
  unfold select_victim_id in He. rewrite Hc in He. fold score in He.
  pose proof (select_loop (pinned c) score (entries c) Hn) as Hs.
  destruct (foldl _ None (entries c)) as [[k s]|]; simpl in He.
  - destruct He as (l1 & v & l2 & Hl & -> & Hi).
    destruct Hs as (l1' & v' & l2' & Hl' & _ & Hk & H1 & H2).
    pose proof (lru_iter_nodup (inner c)) as Hnd. rewrite Hl in Hl', Hnd.
    destruct (split_key_unique _ _ _ _ _ _ _ Hnd Hl') as [<- Hadel].
    exists l1', k, l2'. rewrite Hl, Hl', Hi. auto.
  - by destruct He as [-> ->].
Qed.

(** *** Insertion *)

Record cache_inv c : Prop := {
  inv_cap : lru_cap (inner c) = Some (capacity c);
  inv_size : (0 < capacity c <= usize_max)%N;
  inv_keys : Forall (fun kv => fst kv = r_id (snd kv)) (entries c);
  inv_room : (lru_len (inner c) + reserved_slots c <= capacity c)%N;
}.

Definition tick c : ExpertCache :=
  if cost_aware c then with_epoch (wrap_add u64_max (epoch c) 1) c else c.

Lemma tick_fields c :
  inner (tick c) = inner c /\ pinned (tick c) = pinned c /\ capacity (tick c) = capacity c /\
  cost_aware (tick c) = cost_aware c /\ reserved_slots (tick c) = reserved_slots c.
Proof. unfold tick. by destruct (cost_aware c) eqn:E. Qed.

Lemma peek_contains c id :
  match lru_peek id (inner c) with None => true | Some _ => false end = negb (contains id c).
Proof. unfold contains. by destruct (lru_peek id (inner c)). Qed.

Lemma contains_iff c id : contains id c = true <-> id ∈ (entries c).*1.
Proof.
  unfold contains. rewrite lru_peek_law, <-aget_is_Some.
  destruct (aget id (entries c)); simpl; split; intros H; try done; by destruct H.
Qed.

(** The entries that [insert] leaves behind the new one, and what it returns. *)
Definition insert_outcome r c h (o : option ExpertResident) (l : list (N * ExpertResident)) : Prop :=
  let id := r_id r in
  (o = None /\ l = entries c /\ contains id c = false /\
     (lru_len (inner c) + reserved_slots c < capacity c)%N) \/
  exists l1 k v l2, entries c = l1 ++ (k, v) :: l2 /\ o = Some v /\ l = l1 ++ l2 /\
    (k = id \/ (k ∉ pinned c) /\ contains id c = false /\
      (capacity c <= lru_len (inner c) + reserved_slots c)%N /\
      select_victim_id powi (tick c) h = Some k).

Lemma insert_cases r c h :
  cache_inv c ->
  match insert powi r c h with
  | (Err r', c', h') => r' = r /\ c' = tick c /\ h' = h /\ contains (r_id r) c = false /\
      (capacity c <= lru_len (inner c) + reserved_slots c)%N /\
      Forall (fun kv => fst kv ∈ pinned c) (entries c)
  | (Ok o, c', h') => exists l,
      c' = with_inner (inner c') (tick c) /\ lru_cap (inner c') = Some (capacity c) /\
      entries c' = (r_id r, r) :: l /\ insert_outcome r c h o l
  end.
Proof.
  intros [Hcap Hsz Hkeys Hroom]. unfold insert. fold (tick c).
  destruct (tick_fields c) as (Hi & Hp & Hc & Ha & Hr).
  rewrite Hi, Hc, Hr, peek_contains. set (id := r_id r).
  assert (Hfull : (capacity c <=? sat_add usize_max (lru_len (inner c)) (reserved_slots c))%N =
                  (capacity c <=? lru_len (inner c) + reserved_slots c)%N).
  { unfold sat_add. case_N; lia. }
  rewrite Hfull. pose proof (lru_iter_nodup (inner c)) as Hnd.
  destruct (contains id c) eqn:Hin; simpl; rewrite ?andb_false_r, ?andb_true_r.
  - apply contains_iff in Hin.
    destruct (elem_split c id Hin) as (l1 & v & l2 & Hl & _ & _).
    rewrite Hl in Hnd. pose proof (aget_middle _ _ _ _ Hnd) as Hg. rewrite <-Hl in Hg.
    destruct (push_present id r v (inner c) Hg) as [Hf Hpi].
    destruct (lru_push_law id r (inner c)) as (Hpc & _ & _).
    destruct (lru_push id r (inner c)) as [pe l'] eqn:Epush; simpl in *. subst pe.
    exists (l1 ++ l2). rewrite Hpi, Hl, adel_middle by done.
    split_and!; [done|congruence|done|]. right. exists l1, id, v, l2. auto.
  - destruct (N.leb_spec (capacity c) (lru_len (inner c) + reserved_slots c)) as [Hfl|Hfl].
    + destruct (select_victim_id powi (tick c) h) as [k|] eqn:E.
      * pose proof (select_victim_sound _ _ _ E) as [Hk Hkin]. rewrite Hp, Hi in *.
        destruct (elem_split c k Hkin) as (l1 & v & l2 & Hl & Hpop & Hpi).
        destruct (lru_pop_law k (inner c)) as (_ & Hpcap & _).
        rewrite Hpop. set (l := snd (lru_pop k (inner c))) in *.
        destruct (push_absent_room id r l) as [Hf Hpush].
        { rewrite Hpi. apply aget_None. intros Hc'.
          assert (id ∈ (entries c).*1) as Hid%contains_iff by (rewrite Hl; set_solver). congruence. }
        { intros n Hn. assert (n = capacity c) as -> by congruence. unfold lru_len in *.
          rewrite Hpi. rewrite Hl, length_app in Hroom. rewrite length_app. simpl in *. lia. }
        destruct (lru_push_law id r l) as (Hpc & _ & _).
        destruct (lru_push id r l) as [pe l']; simpl in *. subst pe.
        exists (l1 ++ l2). rewrite Hpush, Hpi.
        split_and!; [done|congruence|done|]. right. exists l1, k, v, l2. auto 10.
      * apply select_victim_none in E. rewrite Hp, Hi in E. auto 10.
    + destruct (push_absent_room id r (inner c)) as [Hf Hpush].
      { apply aget_None. intros Hc'%contains_iff. congruence. }
      { intros n Hn. assert (n = capacity c) as -> by congruence. lia. }
      destruct (lru_push_law id r (inner c)) as (Hpc & _ & _).
      destruct (lru_push id r (inner c)) as [pe l']; simpl in *. subst pe.
      exists (entries c). split_and!; [done|congruence|done|]. left. auto.
Qed.

Lemma insert_inv r c h :
  cache_inv c -> cache_inv (snd (fst (insert powi r c h))).
Proof.
  intros Hinv. pose proof (insert_cases r c h Hinv) as Hc.
  destruct Hinv as [Hcap Hsz Hkeys Hroom].
  destruct (tick_fields c) as (Hi & Hp & Hcc & Ha & Hr).
  destruct (insert powi r c h) as [[[o|r'] c'] h']; simpl.
  - destruct Hc as (l & Hc' & Hcap' & Hl & Ho). rewrite Hc'.
    split; simpl; rewrite ?Hcc, ?Hr; [done..| |].
    + rewrite Hl. constructor; [done|].
      destruct Ho as [(_ & -> & _)|(l1 & k & v & l2 & Hs & _ & -> & _)]; [done|].
      rewrite Hs in Hkeys. apply Forall_app in Hkeys as [? [_ ?]%Forall_cons].
      by apply Forall_app.
    + unfold insert_outcome, lru_len in *. rewrite Hl. simpl.
      destruct Ho as [(_ & -> & _ & ?)|(l1 & k & v & l2 & Hs & _ & -> & _)]; [lia|].
      rewrite Hs, length_app in Hroom. rewrite length_app. simpl in *. lia.
  - destruct Hc as (_ & -> & _). split; rewrite ?Hi, ?Hcc, ?Hr; done.
Qed.

(** [insert] on every branch.  It refuses exactly when the id is new, every
    position is occupied or reserved and every resident is pinned, and then
    hands the resident back with the entries untouched.  Otherwise the
    resident becomes the most recently used entry, at most one other entry
    leaves and it is the one returned: the old resident of the same id, or an
    unpinned victim when the cache is full; the bound on occupied plus
    reserved positions is kept. *)
Theorem insert_spec r c h :
  cache_inv c ->
  match insert powi r c h with
  | (Err r', c', h') => r' = r /\ h' = h /\ entries c' = entries c /\
      contains (r_id r) c = false /\
      (lru_len (inner c) + reserved_slots c = capacity c)%N /\
      Forall (fun kv => fst kv ∈ pinned c) (entries c)
  | (Ok o, c', h') => exists l, entries c' = (r_id r, r) :: l /\ cache_inv c' /\
      match o with
      | None => l = entries c /\ contains (r_id r) c = false
      | Some v => exists l1 l2, entries c = l1 ++ (r_id v, v) :: l2 /\ l = l1 ++ l2 /\
          (r_id v = r_id r \/ (r_id v ∉ pinned c) /\ contains (r_id r) c = false)
      end
  end.
Proof.
  intros Hinv. pose proof (insert_cases r c h Hinv) as Hc.
  pose proof (insert_inv r c h Hinv) as Hinv'. destruct Hinv as [Hcap Hsz Hkeys Hroom].
  destruct (tick_fields c) as (Hi & _).
  destruct (insert powi r c h) as [[[o|r'] c'] h']; simpl in Hinv'.
  - destruct Hc as (l & _ & _ & Hl & Ho). exists l. split; [done|]. split; [done|].
    destruct Ho as [(-> & -> & ? & _)|(l1 & k & v & l2 & Hs & -> & -> & Hk)]; [done|].
    exists l1, l2. rewrite Hs in Hkeys. apply Forall_app in Hkeys as [_ [Hkv _]%Forall_cons].
    simpl in Hkv. subst k. split_and!; [done..|].
    destruct Hk as [|(? & ? & _)]; auto.
  - destruct Hc as (-> & -> & -> & ? & ? & ?). rewrite Hi. split_and!; auto. lia.
Qed.

(** *** Reservations *)

Lemma commit_cases n r c :
  cache_inv c ->
  match commit n r c with
  | Ok (n', c') => (0 < n)%N /\ (0 < reserved_slots c)%N /\ n' = (n - 1)%N /\
      contains (r_id r) c = false /\ cache_inv c' /\ pinned c' = pinned c /\
      reserved_slots c' = (reserved_slots c - 1)%N /\
      entries c' = (r_id r, r) :: entries c /\ capacity c' = capacity c
  | Err r' => r' = r /\ (n = 0%N \/ reserved_slots c = 0%N \/ contains (r_id r) c = true)
  end.
Proof.
  intros [Hcap Hsz Hkeys Hroom]. unfold commit.
  destruct (N.eqb_spec n 0) as [->|Hn]; [auto|].
  destruct (N.eqb_spec (reserved_slots c) 0) as [Hz|Hz]; simpl; [auto|].
  unfold contains. destruct (lru_peek (r_id r) (inner c)) eqn:E; simpl; [auto|].
  destruct (N.ltb_spec (capacity c) (sat_add usize_max (lru_len (inner c)) (reserved_slots c)))
    as [Hlt|_]; [unfold sat_add in Hlt; lia|].
  destruct (push_absent_room (r_id r) r (inner c)) as [_ Hpush].
  { by rewrite <-lru_peek_law. }
  { intros m Hm. assert (m = capacity c) as -> by congruence. lia. }
  destruct (lru_push_law (r_id r) r (inner c)) as (Hpc & _ & _).
  split_and!; try done; [lia..|].
  split; simpl; [congruence|done| |].
  - rewrite Hpush. by constructor.
  - unfold lru_len in *. rewrite Hpush. simpl. lia.
Qed.

(** *** The invariant of every interleaving *)

(** [c'] holds a sublist of the entries of [c] and is otherwise [c]. *)
Definition shrinks c c' : Prop :=
  c' = with_inner (inner c') c /\ lru_cap (inner c') = lru_cap (inner c) /\
  entries c' `sublist_of` entries c.

Lemma shrinks_inv c c' : shrinks c c' -> cache_inv c -> cache_inv c'.
Proof.
  intros (-> & Hcap & Hs) [Hc Hsz Hk Hr]. split; simpl in *; [congruence|done| |].
  - rewrite Forall_forall in *. intros kv Hin. apply Hk. by apply (sublist_subseteq _ _ Hs).
  - apply sublist_length in Hs. unfold lru_len in *. lia.
Qed.

Lemma pop_shrinks c id : shrinks c (with_inner (snd (lru_pop id (inner c))) c).
Proof.
  destruct (lru_pop_law id (inner c)) as (_ & Hc & Hi). split_and!; [done|done|].
  simpl. rewrite Hi. apply adel_sublist.
Qed.

Lemma evict_shrinks c h : shrinks c (snd (evict_lru powi c h)).
Proof.
  unfold evict_lru. destruct (bool_decide _ && _).
  - destruct (lru_pop_lru_law (inner c)) as (_ & Hc & Hi).
    destruct (lru_pop_lru (inner c)) as [o l]; simpl in *. split_and!; [done|done|].
    simpl. rewrite Hi. apply ListLru.removelast_sublist.
  - destruct (select_victim_id powi c h) as [k|].
    + pose proof (pop_shrinks c k) as Hs. by destruct (lru_pop k (inner c)).
    + split_and!; [by destruct c|done..].
Qed.

Lemma shadow_shrinks c ids :
  ids ⊆ (entries c).*1 -> shrinks c (snd (evict_first_unpinned ids c)).
Proof.
  induction ids as [|id ids IH]; intros Hin; simpl.
  { split_and!; [by destruct c|done..]. }
  case_bool_decide; [apply IH; set_solver|].
  destruct (elem_split c id ltac:(set_solver)) as (l1 & v & l2 & _ & Hp & _).
  rewrite Hp. apply pop_shrinks.
Qed.

Lemma evict_shadow_shrinks c : shrinks c (snd (evict_lru_shadow_backed c)).
Proof.
  apply shadow_shrinks. intros k Hk. rewrite elem_of_reverse in Hk.
  apply list_elem_of_fmap in Hk as (kv & -> & Hkv).
  apply list_elem_of_fmap_2. apply list_elem_of_In in Hkv. apply list_elem_of_In.
  by apply List.filter_In in Hkv as [Hkv _].
Qed.

Lemma get_fields id c h :
  let c' := snd (fst (get powi id c h)) in
  c' = with_inner (inner c') c /\ lru_cap (inner c') = lru_cap (inner c) /\
  entries c' ≡ₚ entries c.
Proof.
  unfold get. destruct (lru_get_law id (inner c)) as (Hf & Hc & Hi).
  destruct (lru_get id (inner c)) as [o l]; simpl in *. split_and!; [done|done|].
  rewrite Hi. destruct (aget id (entries c)) as [v|] eqn:E; [|done].
  rewrite <-adel_perm; auto. apply lru_iter_nodup.
Qed.

Definition cache_ok (w : cache_world) : Prop :=
  cache_inv (cache w) /\ reserved_slots (cache w) = sumN (tickets w).

Lemma cache_inv_eq c c' :
  inner c' = inner c -> capacity c' = capacity c ->
  (lru_len (inner c) + reserved_slots c' <= capacity c)%N -> cache_inv c -> cache_inv c'.
Proof. intros Hi Hc Hr [? ? ? ?]. split; rewrite ?Hi, ?Hc; done. Qed.

Lemma insert_reserved r c h :
  cache_inv c -> reserved_slots (snd (fst (insert powi r c h))) = reserved_slots c.
Proof.
  intros Hinv. pose proof (insert_cases r c h Hinv) as Hc.
  destruct (tick_fields c) as (_ & _ & _ & _ & Hr).
  destruct (insert powi r c h) as [[[o|r'] c'] h']; simpl.
  - destruct Hc as (l & -> & _). done.
  - destruct Hc as (_ & -> & _). done.
Qed.

Lemma sumN_middle l1 n l2 : sumN (l1 ++ n :: l2) = (n + sumN (l1 ++ l2))%N.
Proof. rewrite !sumN_app. simpl. lia. Qed.

Lemma cache_step_ok w w' : cache_step powi w w' -> cache_ok w -> cache_ok w'.
Proof.
  intros Hs [Hinv Hres]. pose proof Hinv as [Hcap Hsz Hkeys Hroom].
  destruct Hs as [w id|w r|w|w|w id|w on|w id Hp|w n Hn|w t1 n t2 r n' c' Ht Hc|w t1 n t2 Ht|w r|w id];
    unfold cache_ok; simpl.
  - destruct (get_fields id (cache w) (residents w)) as (Heq & Hc & Hp).
    rewrite Heq. split; [|done]. split; simpl; [congruence|done| |].
    + by rewrite Hp.
    + unfold lru_len. by rewrite Hp.
  - split; [by apply insert_inv|]. by rewrite insert_reserved.
  - pose proof (evict_shrinks (cache w) (residents w)) as Hs.
    split; [by eapply shrinks_inv|]. destruct Hs as (-> & _). done.
  - pose proof (evict_shadow_shrinks (cache w)) as Hs.
    split; [by eapply shrinks_inv|]. destruct Hs as (-> & _). done.
  - split; [by apply (cache_inv_eq (cache w))|done].
  - split; [by apply (cache_inv_eq (cache w))|done].
  - split; [|done]. eapply shrinks_inv; [apply pop_shrinks|done].
  - rewrite wrap_add_small by lia. split; [|lia].
    apply (cache_inv_eq (cache w)); simpl; auto. lia.
  - pose proof (commit_cases n r (cache w) Hinv) as Hcc. rewrite Hc in Hcc.
    destruct Hcc as (? & ? & -> & _ & ? & _ & Hr & _). split; [done|].
    rewrite Ht, sumN_middle in Hres. rewrite sumN_middle. lia.
  - rewrite Ht, sumN_middle in Hres. unfold reservation_drop.
    destruct (N.eqb_spec n 0); [split; [done|lia]|].
    assert (Hm : ((reserved_slots (cache w) + (usize_max + 1 - n)) mod (usize_max + 1) =
                  reserved_slots (cache w) - n)%N).
    { replace (reserved_slots (cache w) + (usize_max + 1 - n))%N
        with (reserved_slots (cache w) - n + 1 * (usize_max + 1))%N by lia.
      rewrite N.Div0.mod_add, N.mod_small; lia. }
    split; [apply (cache_inv_eq (cache w)); simpl; auto; rewrite Hm; lia|].
    simpl. rewrite Hm. lia.
  - done.
  - split; [by apply (cache_inv_eq (cache w))|done].
Qed.

Lemma reachable_ok w w' : rtc (cache_step powi) w w' -> cache_ok w -> cache_ok w'.
Proof. induction 1; eauto using cache_step_ok. Qed.

Lemma cache_new_ok n c h :
  (n <= usize_max)%N -> cache_new n = Some c ->
  cache_ok {| cache := c; residents := h; tickets := [] |}.
Proof.
  unfold cache_new. destruct (N.eqb_spec n 0); [done|]. intros ? [= <-].
  destruct (lru_new_iter (V:=ExpertResident) n) as [Hi Hc].
  split; [|done]. split; simpl; [done|lia|by rewrite Hi|]. unfold lru_len. rewrite Hi. simpl. lia.
Qed.

(** C25. Reserved positions are really owned: in every state reachable from a new
    cache, whatever ordinary inserts, evictions and other reservations did
    meanwhile, the occupied and reserved positions fit in the capacity, and a
    guard with a position left can commit any resident not yet cached; the
    commit takes the position without evicting or replacing any entry, and
    the guards' remaining positions again are what is reserved. *)
Theorem reservation_commit_succeeds n c h w t1 m t2 r :
  (n <= usize_max)%N -> cache_new n = Some c ->
  rtc (cache_step powi) {| cache := c; residents := h; tickets := [] |} w ->
  tickets w = t1 ++ m :: t2 -> (0 < m)%N -> contains (r_id r) (cache w) = false ->
  (lru_len (inner (cache w)) + sumN (tickets w) <= capacity (cache w))%N /\
  exists c', commit m r (cache w) = Ok ((m - 1)%N, c') /\
    entries c' = (r_id r, r) :: entries (cache w) /\
    reserved_slots c' = sumN (t1 ++ (m - 1)%N :: t2).
Proof.
  intros Hn Hnew Hr Ht Hm Hc.
  pose proof (reachable_ok _ _ Hr (cache_new_ok n c h Hn Hnew)) as [Hinv Hres].
  split; [rewrite <-Hres; apply Hinv|].
  pose proof (commit_cases m r (cache w) Hinv) as Hcc.
  rewrite Ht, sumN_middle in Hres.
  destruct (commit m r (cache w)) as [[n' c']|r'].
  - destruct Hcc as (_ & _ & -> & _ & _ & _ & Hr' & He & _). exists c'.
    split_and!; [done|done|]. rewrite sumN_middle. lia.
  - destruct Hcc as [_ [?|[?|?]]]; [lia|lia|congruence].
Qed.

Lemma shadow_pinned ids c k :
  k ∈ pinned c -> k ∈ (entries c).*1 ->
  k ∈ (entries (snd (evict_first_unpinned ids c))).*1.
Proof.
  induction ids as [|id ids IH] in c |- *; intros Hp Hin; simpl; [done|].
  case_bool_decide as Hd; [by apply IH|].
  destruct (lru_pop_law id (inner c)) as (_ & _ & Hi).
  assert (Hk : k ∈ (lru_iter (snd (lru_pop id (inner c)))).*1).
  { rewrite Hi. apply aget_is_Some. rewrite aget_adel.
    destruct (N.eqb_spec k id); [by subst|]. by apply aget_is_Some. }
  destruct (lru_pop id (inner c)) as [[v|] l]; simpl in *; [done|]. by apply IH.
Qed.

(** Pinning is respected by every operation of every interleaving: a resident
    whose id is pinned is still cached after any step (a later insert of the
    same id may replace its value, never remove it). *)
Theorem pinned_residents_stay w w' k :
  cache_ok w -> cache_step powi w w' ->
  k ∈ pinned (cache w) -> contains k (cache w) = true -> contains k (cache w') = true.
Proof.
  intros [Hinv _] Hs Hp Hin. apply contains_iff in Hin. apply contains_iff.
  destruct Hs as [w id|w r|w|w|w id|w on|w id Hid|w n Hn|w t1 n t2 r n' c' Ht Hc|w t1 n t2 Ht|w r|w id];
    simpl; try done.
  - destruct (get_fields id (cache w) (residents w)) as (_ & _ & Hperm). by rewrite Hperm.
  - pose proof (insert_cases r (cache w) (residents w) Hinv) as Hc.
    destruct (insert powi r (cache w) (residents w)) as [[[o|r'] c'] h']; simpl.
    + destruct Hc as (l & _ & _ & -> & [(_ & -> & _)|(l1 & k' & v & l2 & Hl & _ & -> & Hk')]);
        [set_solver|]. rewrite Hl in Hin.
      destruct (decide (k = k')) as [->|]; [|set_solver].
      destruct Hk' as [->|[? _]]; [set_solver|done].
    + destruct Hc as (_ & -> & _). destruct (tick_fields (cache w)) as (-> & _). done.
  - pose proof (evict_lru_cases (cache w) (residents w)) as Hc.
    destruct (select_victim_id powi (cache w) (residents w)) as [v|] eqn:E.
    + destruct Hc as (l1 & v' & l2 & Hl & _ & ->). rewrite Hl in Hin.
      apply select_victim_sound in E as [Hv _].
      assert (k <> v) by congruence. set_solver.
    + by destruct Hc as [_ ->].
  - by apply shadow_pinned.
  - destruct (lru_pop_law id (inner (cache w))) as (_ & _ & ->).
    apply bool_decide_eq_false in Hid. apply aget_is_Some. rewrite aget_adel.
    destruct (N.eqb_spec k id); [by subst|]. by apply aget_is_Some.
  - pose proof (commit_cases n r (cache w) Hinv) as Hcc. rewrite Hc in Hcc.
    destruct Hcc as (_ & _ & _ & _ & _ & _ & _ & -> & _). set_solver.
  - unfold reservation_drop. by destruct (n =? 0)%N.
Qed.
End facts.

(** ** Residents *)

(** What a resident exposes: for a blob the writer produced with either header
    and the storage's own block size, [data] is exactly the weight payload and
    the parsed mixed layout is the written one; a blob that carries no header
    is exposed whole.  The fresh resident has no hits and no heat. *)
Theorem resident_data ref id al sl ptr h n payload align :
  let buf bs := {| buffer := {| ptr := ptr; bytes := bs; align := al |}; slot := sl |} in
  let load bs := new_with_block_align ref id (buf bs) align h n in
  (forall hd, Uth1.wf hd -> N.testbit (Uth1.flags hd) 0 = true ->
    let r := fst (fst (load (write_padded (Uth1.to_bytes hd) align [] ++ payload))) in
    data r = payload /\ mixed_layout r = None /\ r_id r = id) /\
  (forall hd, Uth2.fits hd -> N.testbit (Uth2.flags hd) 0 = true ->
    Uth2.validate hd (N.of_nat (length payload)) = Ok tt ->
    let r := fst (fst (load (write_padded (Uth2.to_bytes hd) align [] ++ payload))) in
    data r = payload /\ mixed_layout r = Some hd /\ r_id r = id) /\
  (Uth1.probe payload = None -> Uth2.probe payload = None ->
    let r := fst (fst (load payload)) in
    data r = payload /\ mixed_layout r = None /\ r_id r = id) /\
  (forall bs, cells_of (fst (fst (load bs))) (snd (fst (load bs))) = fresh_cells).
Proof.
  assert (Hdrop : forall hdr : list byte,
    drop (N.to_nat (N.of_nat (length (hdr ++ payload)) - N.of_nat (length payload))) (hdr ++ payload) = payload).
  { intros hdr. rewrite length_app, Nat2N.inj_add, N.add_sub, Nat2N.id. apply drop_app_length. }
  intros buf load. subst load buf. unfold new_with_block_align; cbn [buffer bytes].
  split_and!.
  - intros hd Hwf Hfl. rewrite Uth2_strip_Uth1, Uth1_strip_padded by auto.
    unfold data, r_bytes. cbn [fst snd qualification_shared_payload payload_offset r_buffer buffer bytes mixed_layout r_id].
    by rewrite Hdrop.
  - intros hd Hfit Hfl Hv. rewrite Uth2_strip_padded by auto.
    unfold data, r_bytes. cbn [fst snd qualification_shared_payload payload_offset r_buffer buffer bytes mixed_layout r_id].
    by rewrite Hdrop.
  - intros H1 H2.
    assert (Uth2.strip payload align = None) as -> by (unfold Uth2.strip; by rewrite H2).
    unfold Uth1.strip. rewrite H1.
    unfold data, r_bytes. cbn [fst snd qualification_shared_payload payload_offset r_buffer buffer bytes mixed_layout r_id].
    by rewrite N.sub_diag.
  - intros bs. destruct (Uth2.strip bs align) as [[hd pl]|]; simpl;
      unfold cells_of; simpl; by rewrite (lookup_insert_eq h).
Qed.

(** ** Witnesses *)

Module Witness.
#[local] Existing Instances ListLru.list_lru ListLru.list_lru_laws.

(** Repeated multiplication, one rounding [powi] may have. *)
Definition sample_powi (x : f64) (n : Z) : f64 := Z.iter n (f64_mul x) f64_one.

Definition sample_resident (id : N) : ExpertResident :=
  {| r_ref := 100 + id; r_id := id;
     r_buffer := {| buffer := {| ptr := 4096 * id; bytes := [x01; x02]; align := 4096 |};
                    slot := Primary |};
     qualification_shared_payload := None; payload_offset := 0; mixed_layout := None |}.

Definition sample_insert (id : N) (s : ExpertCache * heap) : ExpertCache * heap :=
  let '(_, c, h) := insert sample_powi (sample_resident id) (fst s) (snd s) in (c, h).

(** Capacity 3 holding 1, 2, 3 (1 least recent), 1 pinned. *)
Definition sample_start : ExpertCache := default (with_pinned ∅
  {| inner := lru_new 1; pinned := ∅; capacity := 1; cost_aware := false; epoch := 0;
     reserved_slots := 0 |}) (cache_new 3).
Definition sample_cache (cost_aware : bool) : ExpertCache * heap :=
  let s := sample_insert 3 (sample_insert 2 (sample_insert 1
             (set_cost_aware cost_aware sample_start, ∅))) in
  (pin 1 (fst s), snd s).

Lemma sample_cache_inv b : cache_inv (fst (sample_cache b)).
Proof.
  destruct b; split; try (vm_compute; reflexivity); try (vm_compute; split; [reflexivity|discriminate]);
    try (vm_compute; discriminate); vm_compute; repeat constructor.
Qed.

Lemma evict_lru_strict_witness :
  exists l1 k l2, lru_iter (inner (fst (sample_cache false))) = l1 ++ (k, sample_resident 2) :: l2 /\
    Forall (fun kv => fst kv ∈ pinned (fst (sample_cache false))) l2.
Proof.
  pose proof (evict_lru_strict sample_powi (fst (sample_cache false)) ∅ eq_refl) as H.
  assert (E : fst (evict_lru sample_powi (fst (sample_cache false)) ∅) = Some (sample_resident 2))
    by (vm_compute; reflexivity).
  destruct (evict_lru sample_powi (fst (sample_cache false)) ∅) as [[v|] c']; [|discriminate E].
  injection E as ->. destruct H as (l1 & k & l2 & Hl & _ & Hp & _). eauto.
Defined.

Lemma evict_lru_cost_aware_witness :
  let s := sample_cache true in
  exists v c', evict_lru sample_powi (fst s) (snd s) = (Some v, c') /\ r_id v = 2%N /\
    exists l1 k l2, lru_iter (inner (fst s)) = l1 ++ (k, v) :: l2.
Proof.
  intros s.
  assert (Hl : lru_iter (inner (fst s)) =
    (fun k => (k, sample_resident k)) <$> [3; 2; 1]%N) by (vm_compute; reflexivity).
  assert (Hn : Forall (fun kv => is_nan (decayed_heat sample_powi (snd kv) (epoch (fst s))
                 COST_AWARE_HEAT_DECAY (snd s)) = false) (lru_iter (inner (fst s)))).
  { rewrite Hl. repeat apply Forall_cons_2; [vm_compute; reflexivity..|apply Forall_nil_2]. }
  pose proof (evict_lru_cost_aware sample_powi (fst s) (snd s) eq_refl Hn) as H. clear Hl.
  assert (E : fst (evict_lru sample_powi (fst s) (snd s)) = Some (sample_resident 2))
    by (vm_compute; reflexivity).
  destruct (evict_lru sample_powi (fst s) (snd s)) as [[v|] c']; [|discriminate E].
  injection E as ->. destruct H as (l1 & k & l2 & Hl & _).
  exists (sample_resident 2), c'. split; [reflexivity|]. split; [reflexivity|]. eauto.
Defined.

(** A full cache with a pinned resident refuses nothing as long as another
    resident is unpinned; the victim is the unpinned 2. *)
Lemma insert_spec_witness :
  let s := sample_cache false in
  exists c', fst (insert sample_powi (sample_resident 9) (fst s) (snd s))
               = (Ok (Some (sample_resident 2)), c') /\ cache_inv c'.
Proof.
  intros s.
  pose proof (insert_spec sample_powi (sample_resident 9) (fst s) (snd s) (sample_cache_inv false)) as H.
  assert (E : fst (fst (insert sample_powi (sample_resident 9) (fst s) (snd s)))
              = Ok (Some (sample_resident 2))) by (vm_compute; reflexivity).
  destruct (insert sample_powi (sample_resident 9) (fst s) (snd s)) as [[o c'] h'].
  simpl in E. subst o. destruct H as (l & _ & Hinv & _). exists c'. split; [reflexivity|exact Hinv].
Defined.

(** One position reserved, then ordinary inserts, then the commit. *)
Definition sample_cache_world : cache_world :=
  let c := snd (reservation_new 1 sample_start) in
  let s := sample_insert 2 (sample_insert 1 (c, ∅)) in
  {| cache := fst s; residents := snd s; tickets := [1%N] |}.

Lemma sample_cache_world_reachable :
  rtc (cache_step sample_powi) {| cache := sample_start; residents := ∅; tickets := [] |}
    sample_cache_world.
Proof.
  eapply rtc_l; [apply (step_reserve _ _ 1); vm_compute; discriminate|].
  eapply rtc_l; [apply (step_insert _ _ (sample_resident 1))|].
  eapply rtc_l; [apply (step_insert _ _ (sample_resident 2))|].
  apply rtc_refl.
Qed.

Lemma reservation_commit_succeeds_witness :
  exists c', commit 1 (sample_resident 7) (cache sample_cache_world) = Ok (0%N, c') /\
    lru_len (inner c') = 3%N.
Proof.
  destruct (reservation_commit_succeeds sample_powi 3 sample_start ∅ sample_cache_world [] 1 []
    (sample_resident 7)) as (_ & c' & Hc & He & _);
    [vm_compute; discriminate|reflexivity|exact sample_cache_world_reachable|reflexivity
    |reflexivity|vm_compute; reflexivity|].
  exists c'. split; [exact Hc|]. unfold lru_len. rewrite He. vm_compute. reflexivity.
Defined.

Lemma pinned_residents_stay_witness :
  let w := {| cache := fst (sample_cache false); residents := snd (sample_cache false); tickets := [] |} in
  contains 1 (snd (fst (insert sample_powi (sample_resident 9) (cache w) (residents w)))) = true.
Proof.
  intros w.
  refine (pinned_residents_stay sample_powi w _ 1 _ (step_insert _ w (sample_resident 9)) _ _).
  - split; [exact (sample_cache_inv false)|reflexivity].
  - vm_compute. reflexivity.
  - vm_compute. reflexivity.
Defined.

Definition sample_header : Uth1.t := Uth1.for_swiglu_expert Layout.Q4_0 4096 14336.

Lemma resident_data_witness :
  let buf := {| buffer := {| ptr := 4096;
                  bytes := write_padded (Uth1.to_bytes sample_header) 512 [] ++ [x01; x02; x03];
                  align := 4096 |}; slot := Shadow |} in
  data (fst (fst (new_with_block_align 1 5 buf 512 ∅ 0))) = [x01; x02; x03].
Proof.
  intros buf.
  destruct (resident_data 1 5 4096 Shadow 4096 ∅ 0 [x01; x02; x03] 512) as [H _].
  exact (proj1 (H sample_header (for_swiglu_expert_wf _ _ _) eq_refl)).
Defined.
End Witness.
