(* ===== verification/GpuExpertCache.v ===== *)
(** The logical GPU-admission cache, the segmented hybrid policy
    ([src/rust-engine/src/expert_cache.rs], [GpuResident] to [GpuExpertCache]).

    An anchor core of permanently admitted experts and a byte-budgeted LRU edge,
    with admission generations, promotion markers and reference-counted
    protection of in-flight demand sets.  Every public operation is one critical
    section of the cache mutex; [None] is a panic ([expect] or [assert]). *)
From S2P Require Import Prelude Floats Lru Layout.

(** ** Residents and admissions *)

Inductive GpuResidentHostPayload :=
| Materialized (bytes : list byte)
| QualificationShared (bytes : list byte)
| QualificationLogicalOnly (charged_bytes : N) (data_accesses : N).

(** [data_accesses] is the address of the shared audit counter. *)
Record GpuResident := { gr_id : N; payload : GpuResidentHostPayload; gr_dtype : WeightDtype }.

Definition GpuResident_new (id : N) (bytes : list byte) : GpuResident :=
  {| gr_id := id; payload := Materialized bytes; gr_dtype := F32 |}.
Definition new_with_dtype (id : N) (bytes : list byte) (d : WeightDtype) : GpuResident :=
  {| gr_id := id; payload := Materialized bytes; gr_dtype := d |}.
Definition new_qualification_shared (id : N) (bytes : list byte) (d : WeightDtype) : GpuResident :=
  {| gr_id := id; payload := QualificationShared bytes; gr_dtype := d |}.
Definition new_qualification_logical_only (id charged : N) (d : WeightDtype) (audit : N)
  : option GpuResident :=
  if (0 <? charged)%N
  then Some {| gr_id := id; payload := QualificationLogicalOnly charged audit; gr_dtype := d |}
  else None.

(** [GpuResident::data]: a logical-only admission counts the access and panics. *)
Definition data (r : GpuResident) (audits : gmap N N) : option (list byte) * gmap N N :=
  match payload r with
  | Materialized bytes => (Some bytes, audits)
  | QualificationShared bytes => (Some bytes, audits)
  | QualificationLogicalOnly _ a =>
      (None, <[a := wrap_add u64_max (default 0%N (audits !! a)) 1]> audits)
  end.

Definition byte_len (r : GpuResident) : N :=
  match payload r with
  | Materialized bytes => N.of_nat (length bytes)
  | QualificationShared bytes => N.of_nat (length bytes)
  | QualificationLogicalOnly charged _ => charged
  end.

Record GpuAdmission := { resident : GpuResident; generation : N }.
Definition adm_bytes (a : GpuAdmission) : N := byte_len (resident a).

Inductive GpuLookup := AnchorHit (a : GpuAdmission) | LruHit (a : GpuAdmission) | Miss.

Definition is_hit (l : GpuLookup) : bool := match l with Miss => false | _ => true end.

Inductive GpuDemandAdmissionError :=
| EmptyPayload
| PayloadExceedsLruCapacity (bytes capacity : N)
| DuplicateDemandExpert (expert_id : N)
| DemandSourceIdentityMismatch (selected_id source_id : N)
| DemandSetExceedsLruCapacity (required_bytes capacity : N)
| ProtectedDemandCapacity (required_bytes protected_bytes capacity : N)
| GenerationExhausted.

Inductive GpuDemandAdmissionPreflight := AlreadyAdmitted | NeedsPayload.

Inductive GpuDemandSetAdmission :=
| Ready (admissions : list GpuAdmission) (newly_admitted : N)
| PayloadRequired (ids : list N).

Inductive GpuHotPromotionOutcome :=
| MovedLruToAnchor | InstalledAnchor | InstalledLru | AlreadyAnchor | AlreadyLruAnchorFull
| HotPayloadRequired | NoCapacity | HotGenerationExhausted.

Definition is_transition (o : GpuHotPromotionOutcome) : bool :=
  match o with MovedLruToAnchor | InstalledAnchor | InstalledLru => true | _ => false end.

(** ** State *)

Section gpu.
Context `{!LruCache GpuAdmission}.

Record GpuExpertCacheInner := {
  anchor : gmap N GpuAdmission;
  anchor_used_bytes : N;
  lru_edge : lru GpuAdmission;
  lru_used_bytes : N;
  next_generation : N;
  promotion_pending : gset N;
  promotion_rearm : gset N;
  demand_protections : gmap N N;
}.

Record GpuExpertCache := {
  inner : GpuExpertCacheInner;
  anchor_capacity_bytes : N;
  lru_capacity_bytes : N;
  promote_after_hits : N;
  promotions : N;
  logical_admitted_bytes : N;
  hits : N;
  misses : N;
}.

Definition new (capacity_bytes : N) (anchor_ratio : f32) (after_hits : N) : GpuExpertCache :=
  let ratio := f32_clamp anchor_ratio f32_zero f32_one in
  let anchor_capacity := float_to_usize (f32_mul (f32_of_N capacity_bytes) ratio) in
  {| inner := {| anchor := ∅; anchor_used_bytes := 0; lru_edge := lru_unbounded;
                 lru_used_bytes := 0; next_generation := 1; promotion_pending := ∅;
                 promotion_rearm := ∅; demand_protections := ∅ |};
     anchor_capacity_bytes := anchor_capacity;
     lru_capacity_bytes := sat_sub capacity_bytes anchor_capacity;
     promote_after_hits := after_hits; promotions := 0; logical_admitted_bytes := 0;
     hits := 0; misses := 0 |}.

Definition capacity_bytes (c : GpuExpertCache) : N :=
  (anchor_capacity_bytes c + lru_capacity_bytes c)%N.

(** *** Field updates *)

Definition with_anchor (a : gmap N GpuAdmission) (used : N) (g : GpuExpertCacheInner) :=
  {| anchor := a; anchor_used_bytes := used; lru_edge := lru_edge g;
     lru_used_bytes := lru_used_bytes g; next_generation := next_generation g;
     promotion_pending := promotion_pending g; promotion_rearm := promotion_rearm g;
     demand_protections := demand_protections g |}.
Definition with_lru (l : lru GpuAdmission) (used : N) (g : GpuExpertCacheInner) :=
  {| anchor := anchor g; anchor_used_bytes := anchor_used_bytes g; lru_edge := l;
     lru_used_bytes := used; next_generation := next_generation g;
     promotion_pending := promotion_pending g; promotion_rearm := promotion_rearm g;
     demand_protections := demand_protections g |}.
Definition with_generation (n : N) (g : GpuExpertCacheInner) :=
  {| anchor := anchor g; anchor_used_bytes := anchor_used_bytes g; lru_edge := lru_edge g;
     lru_used_bytes := lru_used_bytes g; next_generation := n;
     promotion_pending := promotion_pending g; promotion_rearm := promotion_rearm g;
     demand_protections := demand_protections g |}.
Definition with_markers (pending rearm : gset N) (g : GpuExpertCacheInner) :=
  {| anchor := anchor g; anchor_used_bytes := anchor_used_bytes g; lru_edge := lru_edge g;
     lru_used_bytes := lru_used_bytes g; next_generation := next_generation g;
     promotion_pending := pending; promotion_rearm := rearm;
     demand_protections := demand_protections g |}.
Definition with_protections (p : gmap N N) (g : GpuExpertCacheInner) :=
  {| anchor := anchor g; anchor_used_bytes := anchor_used_bytes g; lru_edge := lru_edge g;
     lru_used_bytes := lru_used_bytes g; next_generation := next_generation g;
     promotion_pending := promotion_pending g; promotion_rearm := promotion_rearm g;
     demand_protections := p |}.
Definition with_inner (g : GpuExpertCacheInner) (c : GpuExpertCache) :=
  {| inner := g; anchor_capacity_bytes := anchor_capacity_bytes c;
     lru_capacity_bytes := lru_capacity_bytes c; promote_after_hits := promote_after_hits c;
     promotions := promotions c; logical_admitted_bytes := logical_admitted_bytes c;
     hits := hits c; misses := misses c |}.
Definition with_counters (p h m : N) (c : GpuExpertCache) :=
  {| inner := inner c; anchor_capacity_bytes := anchor_capacity_bytes c;
     lru_capacity_bytes := lru_capacity_bytes c; promote_after_hits := promote_after_hits c;
     promotions := p; logical_admitted_bytes := logical_admitted_bytes c; hits := h; misses := m |}.

(** [promotion_pending.remove(&id); promotion_rearm.remove(&id)]. *)
Definition clear_markers (id : N) (g : GpuExpertCacheInner) :=
  with_markers (promotion_pending g ∖ {[id]}) (promotion_rearm g ∖ {[id]}) g.

Definition count_promotions (n : N) (c : GpuExpertCache) :=
  with_counters (wrap_add u64_max (promotions c) n) (hits c) (misses c) c.

Definition record_hot_transition (o : GpuHotPromotionOutcome) (c : GpuExpertCache) :=
  if is_transition o then count_promotions 1 c else c.

(** [refresh_used_bytes]. *)
Definition refresh_used_bytes (c : GpuExpertCache) : option GpuExpertCache :=
  total ← checked_add usize_max (anchor_used_bytes (inner c)) (lru_used_bytes (inner c));
  Some {| inner := inner c; anchor_capacity_bytes := anchor_capacity_bytes c;
          lru_capacity_bytes := lru_capacity_bytes c; promote_after_hits := promote_after_hits c;
          promotions := promotions c; logical_admitted_bytes := total;
          hits := hits c; misses := misses c |}.

Definition allocate_generation (g : GpuExpertCacheInner) : option (N * GpuExpertCacheInner) :=
  n ← checked_add u64_max (next_generation g) 1;
  Some (next_generation g, with_generation n g).

(** *** Protection *)

Definition logical_lru_is_protected (g : GpuExpertCacheInner) (extra : gset N) (id : N) : bool :=
  bool_decide (id ∈ extra) ||
  match demand_protections g !! id with Some count => (0 <? count)%N | None => false end.

Definition oldest_unprotected_logical_lru (g : GpuExpertCacheInner) (extra : gset N) : option N :=
  fst <$> List.find (fun kv => negb (logical_lru_is_protected g extra (fst kv)))
            (reverse (lru_iter (lru_edge g))).

Definition unprotected_logical_lru_bytes (g : GpuExpertCacheInner) (extra : gset N) : N :=
  sumN ((fun kv => adm_bytes (snd kv)) <$>
    List.filter (fun kv => negb (logical_lru_is_protected g extra (fst kv)))
                (lru_iter (lru_edge g))).

(** The eviction loop the admission paths share: evict the oldest unprotected
    entry until [bytes] more fit.  [sub] is how the path subtracts the victim
    ([checked_sub(..).expect(..)] or [saturating_sub]). *)
Fixpoint evict_until (fuel : nat) (sub : N -> N -> option N) (cap bytes : N) (extra : gset N)
    (g : GpuExpertCacheInner) : option GpuExpertCacheInner :=
  if match checked_add usize_max (lru_used_bytes g) bytes with
     | None => true | Some used => (cap <? used)%N end
  then
    match fuel with
    | O => None
    | S fuel' =>
        id ← oldest_unprotected_logical_lru g extra;
        let '(victim, l) := lru_pop id (lru_edge g) in
        v ← victim;
        used ← sub (lru_used_bytes g) (adm_bytes v);
        evict_until fuel' sub cap bytes extra
          (with_markers (promotion_pending g) ({[id]} ∪ promotion_rearm g) (with_lru l used g))
    end
  else Some g.

(** One iteration per entry, and the final test. *)
Definition evict_fuel (g : GpuExpertCacheInner) : nat := S (length (lru_iter (lru_edge g))).
Definition saturating (a b : N) : option N := Some (sat_sub a b).

(** *** Lookups *)

Definition get (id : N) (c : GpuExpertCache) : GpuLookup * GpuExpertCache :=
  let g := inner c in
  match anchor g !! id with
  | Some r => (AnchorHit r, with_counters (promotions c) (wrap_add u64_max (hits c) 1) (misses c) c)
  | None =>
      let '(o, l) := lru_get id (lru_edge g) in
      let c := with_inner (with_lru l (lru_used_bytes g) g) c in
      match o with
      | Some r => (LruHit r, with_counters (promotions c) (wrap_add u64_max (hits c) 1) (misses c) c)
      | None => (Miss, with_counters (promotions c) (hits c) (wrap_add u64_max (misses c) 1) c)
      end
  end.

(** [g.anchor.get(&id).or_else(|| g.lru.peek(&id))]. *)
Definition lookup_admission (id : N) (g : GpuExpertCacheInner) : option GpuAdmission :=
  match anchor g !! id with Some a => Some a | None => lru_peek id (lru_edge g) end.

Definition current_admission (id : N) (c : GpuExpertCache) : option GpuAdmission :=
  lookup_admission id (inner c).
Definition current_generation (id : N) (c : GpuExpertCache) : option N :=
  generation <$> lookup_admission id (inner c).
Definition contains_generation (id gen : N) (c : GpuExpertCache) : bool :=
  bool_decide (current_generation id c = Some gen).
Definition in_anchor (id : N) (g : GpuExpertCacheInner) : bool :=
  match anchor g !! id with Some _ => true | None => false end.
Definition in_lru (id : N) (g : GpuExpertCacheInner) : bool :=
  match lru_peek id (lru_edge g) with Some _ => true | None => false end.
Definition contains (id : N) (c : GpuExpertCache) : bool :=
  in_anchor id (inner c) || in_lru id (inner c).

(** *** Promotion claims *)

Definition should_promote (ram_hits : N) (c : GpuExpertCache) : bool :=
  (0 <? promote_after_hits c)%N && (promote_after_hits c <=? ram_hits)%N.

Definition claim_promotion (id ram_hits : N) (c : GpuExpertCache) : bool * GpuExpertCache :=
  if negb (should_promote ram_hits c) then (false, c) else
  let g := inner c in
  if in_anchor id g || bool_decide (id ∈ promotion_pending g) then (false, c) else
  let threshold_crossed := (ram_hits =? promote_after_hits c)%N in
  let rearmed_after_eviction := bool_decide (id ∈ promotion_rearm g) in
  let g := with_markers (promotion_pending g) (promotion_rearm g ∖ {[id]}) g in
  if negb threshold_crossed && negb rearmed_after_eviction then (false, with_inner g c) else
  (negb (bool_decide (id ∈ promotion_pending g)),
   with_inner (with_markers ({[id]} ∪ promotion_pending g) (promotion_rearm g) g) c).

Definition cancel_promotion (id : N) (c : GpuExpertCache) : GpuExpertCache :=
  let g := inner c in
  if bool_decide (id ∈ promotion_pending g)
  then with_inner (with_markers (promotion_pending g ∖ {[id]}) ({[id]} ∪ promotion_rearm g) g) c
  else c.

(** *** Hot promotion *)

Definition anchor_has_room (bytes : N) (c : GpuExpertCache) : bool :=
  (bytes <=? anchor_capacity_bytes c)%N &&
  match checked_add usize_max (anchor_used_bytes (inner c)) bytes with
  | Some used => (used <=? anchor_capacity_bytes c)%N | None => false
  end.

(** The outer [option] is the panic, the inner one the [Option] returned. *)
Definition resolve_existing_hot_locked (id : N) (c : GpuExpertCache)
  : option (option GpuHotPromotionOutcome * GpuExpertCache) :=
  let g := inner c in
  if in_anchor id g then Some (Some AlreadyAnchor, with_inner (clear_markers id g) c) else
  match adm_bytes <$> lru_peek id (lru_edge g) with
  | None => Some (None, c)
  | Some bytes =>
      if negb (anchor_has_room bytes c)
      then Some (Some AlreadyLruAnchorFull, with_inner (clear_markers id g) c)
      else
        let '(popped, l) := lru_pop id (lru_edge g) in
        admission ← popped;
        lru_used ← checked_sub (lru_used_bytes g) bytes;
        let g := with_lru l lru_used g in
        anchor_used ← checked_add usize_max (anchor_used_bytes g) bytes;
        let g := with_anchor (<[id := admission]> (anchor g)) anchor_used g in
        Some (Some MovedLruToAnchor, with_inner (clear_markers id g) c)
  end.

Definition promote_hot_existing (id : N) (c : GpuExpertCache)
  : option (GpuHotPromotionOutcome * GpuExpertCache) :=
  '(o, c) ← resolve_existing_hot_locked id c;
  match o with
  | Some outcome => Some (outcome, record_hot_transition outcome c)
  | None => Some (HotPayloadRequired, c)
  end.

(** [bytes_to_evict > unprotected_logical_lru_bytes]. *)
Definition lru_cannot_make_room (bytes : N) (c : GpuExpertCache) : bool :=
  let required := sat_add usize_max (lru_used_bytes (inner c)) bytes in
  (unprotected_logical_lru_bytes (inner c) ∅ <? sat_sub required (lru_capacity_bytes c))%N.

Definition promote_hot_sync (r : GpuResident) (c : GpuExpertCache)
  : option (GpuHotPromotionOutcome * GpuExpertCache) :=
  let id := gr_id r in
  let bytes := byte_len r in
  '(existing, c) ← resolve_existing_hot_locked id c;
  match existing with
  | Some outcome => Some (outcome, record_hot_transition outcome c)
  | None =>
      let g := inner c in
      let refuse o := Some (o, with_inner (clear_markers id g) c) in
      if (bytes =? 0)%N then refuse NoCapacity else
      let use_anchor := anchor_has_room bytes c in
      if negb use_anchor && (lru_capacity_bytes c <? bytes)%N then refuse NoCapacity else
      if negb use_anchor && lru_cannot_make_room bytes c then refuse NoCapacity else
      match allocate_generation g with
      | None => refuse HotGenerationExhausted
      | Some (gen, g) =>
          let admission := {| resident := r; generation := gen |} in
          let g := clear_markers id g in
          '(outcome, g) ←
            (if use_anchor then
               used ← checked_add usize_max (anchor_used_bytes g) bytes;
               Some (InstalledAnchor, with_anchor (<[id := admission]> (anchor g)) used g)
             else
               g ← evict_until (evict_fuel g) checked_sub (lru_capacity_bytes c) bytes ∅ g;
               used ← checked_add usize_max (lru_used_bytes g) bytes;
               Some (InstalledLru, with_lru (snd (lru_put id admission (lru_edge g))) used g));
          c ← refresh_used_bytes (record_hot_transition outcome (with_inner g c));
          Some (outcome, c)
      end
  end.

(** *** Other admissions *)

Definition promote_sync (r : GpuResident) (c : GpuExpertCache) : option (bool * GpuExpertCache) :=
  let id := gr_id r in
  let bytes := byte_len r in
  let g := clear_markers id (inner c) in
  let c := with_inner g c in
  if (bytes =? 0)%N then Some (false, c) else
  if in_anchor id g then Some (true, c) else
  let '(touched, l) := lru_get id (lru_edge g) in
  let g := with_lru l (lru_used_bytes g) g in
  let c := with_inner g c in
  match touched with
  | Some _ => Some (true, c)
  | None =>
      let use_anchor := anchor_has_room bytes c in
      if negb use_anchor && (lru_capacity_bytes c <? bytes)%N then Some (false, c) else
      if negb use_anchor && lru_cannot_make_room bytes c then Some (false, c) else
      match allocate_generation g with
      | None => Some (false, c)
      | Some (gen, g) =>
          let admission := {| resident := r; generation := gen |} in
          g ← (if use_anchor then
                 used ← checked_add usize_max (anchor_used_bytes g) bytes;
                 Some (with_anchor (<[id := admission]> (anchor g)) used g)
               else
                 g ← evict_until (evict_fuel g) saturating (lru_capacity_bytes c) bytes ∅ g;
                 let '(already, l) := lru_put id admission (lru_edge g) in
                 let used := match already with
                   | Some prev => sat_sub (lru_used_bytes g) (adm_bytes prev)
                   | None => lru_used_bytes g end in
                 used ← checked_add usize_max used bytes;
                 Some (with_lru l used g));
          c ← refresh_used_bytes (count_promotions 1 (with_inner g c));
          Some (true, c)
      end
  end.

Definition try_promote_lru_no_evict (r : GpuResident) (c : GpuExpertCache)
  : option (bool * GpuExpertCache) :=
  let id := gr_id r in
  let bytes := byte_len r in
  let g := inner c in
  if (bytes =? 0)%N then Some (false, c) else
  if in_anchor id g || in_lru id g then Some (false, with_inner (clear_markers id g) c) else
  if match checked_add usize_max (lru_used_bytes g) bytes with
     | None => true | Some used => (lru_capacity_bytes c <? used)%N end
  then Some (false, c) else
  match allocate_generation g with
  | None => Some (false, c)
  | Some (gen, g) =>
      let g := clear_markers id g in
      let l := snd (lru_put id {| resident := r; generation := gen |} (lru_edge g)) in
      used ← checked_add usize_max (lru_used_bytes g) bytes;
      c ← refresh_used_bytes (count_promotions 1 (with_inner (with_lru l used g) c));
      Some (true, c)
  end.

Definition demand_admission_preflight (id payload_bytes : N) (c : GpuExpertCache)
  : result GpuDemandAdmissionError GpuDemandAdmissionPreflight :=
  if contains id c then Ok AlreadyAdmitted else
  if (payload_bytes =? 0)%N then Err EmptyPayload else
  if (lru_capacity_bytes c <? payload_bytes)%N
  then Err (PayloadExceedsLruCapacity payload_bytes (lru_capacity_bytes c))
  else Ok NeedsPayload.

Definition demand_admit_lru (r : GpuResident) (c : GpuExpertCache)
  : option (result GpuDemandAdmissionError bool * GpuExpertCache) :=
  let id := gr_id r in
  let bytes := byte_len r in
  let g := inner c in
  let cap := lru_capacity_bytes c in
  if (bytes =? 0)%N then Some (Err EmptyPayload, c) else
  if in_anchor id g || in_lru id g then Some (Ok false, c) else
  if (cap <? bytes)%N then Some (Err (PayloadExceedsLruCapacity bytes cap), c) else
  match checked_add usize_max (lru_used_bytes g) bytes with
  | None => Some (Err (ProtectedDemandCapacity usize_max (lru_used_bytes g) cap), c)
  | Some required =>
      let evictable := unprotected_logical_lru_bytes g ∅ in
      if (evictable <? sat_sub required cap)%N
      then Some (Err (ProtectedDemandCapacity required (sat_sub (lru_used_bytes g) evictable) cap), c)
      else
        match allocate_generation g with
        | None => Some (Err GenerationExhausted, c)
        | Some (gen, g) =>
            g ← evict_until (evict_fuel g) saturating cap bytes ∅ g;
            let g := clear_markers id g in
            let l := snd (lru_put id {| resident := r; generation := gen |} (lru_edge g)) in
            used ← checked_add usize_max (lru_used_bytes g) bytes;
            c ← refresh_used_bytes (count_promotions 1 (with_inner (with_lru l used g) c));
            Some (Ok true, c)
        end
  end.

(** *** Demand sets *)

(** [for id in ids { if !seen.insert(id) { return Err(..) } }]: the first id
    already seen, or the set of ids. *)
Fixpoint insert_distinct (ids : list N) (seen : gset N) : result GpuDemandAdmissionError (gset N) :=
  match ids with
  | [] => Ok seen
  | id :: ids' =>
      if bool_decide (id ∈ seen) then Err (DuplicateDemandExpert id)
      else insert_distinct ids' ({[id]} ∪ seen)
  end.

(** One more reference for each id ([checked_add(1).expect(..)]). *)
Fixpoint add_protections (ids : list N) (p : gmap N N) : option (gmap N N) :=
  match ids with
  | [] => Some p
  | id :: ids' =>
      count ← checked_add usize_max (default 0%N (p !! id)) 1;
      add_protections ids' (<[id := count]> p)
  end.

(** The guard is the list of ids it protects. *)
Definition protect_demand_set (ids : list N) (c : GpuExpertCache)
  : option (result GpuDemandAdmissionError (list N) * GpuExpertCache) :=
  match insert_distinct ids ∅ with
  | Err e => Some (Err e, c)
  | Ok _ =>
      p ← add_protections ids (demand_protections (inner c));
      Some (Ok ids, with_inner (with_protections p (inner c)) c)
  end.

(** [Drop for GpuDemandSetProtection]. *)
Fixpoint release_protections (ids : list N) (p : gmap N N) : option (gmap N N) :=
  match ids with
  | [] => Some p
  | id :: ids' =>
      count ← p !! id;
      count ← checked_sub count 1;
      release_protections ids' (if (count =? 0)%N then delete id p else <[id := count]> p)
  end.

Definition drop_protection (ids : list N) (c : GpuExpertCache) : option GpuExpertCache :=
  p ← release_protections ids (demand_protections (inner c));
  Some (with_inner (with_protections p (inner c)) c).

Record demand_scan := {
  payload_required : list N; new_ids : list N; selected_lru_bytes : N; new_bytes : N;
}.

Definition set_too_large (c : GpuExpertCache) : GpuDemandAdmissionError :=
  DemandSetExceedsLruCapacity usize_max (lru_capacity_bytes c).

(** The body of the validation loop for one selected id. *)
Definition scan_one (c : GpuExpertCache) (sources : gmap N GpuResident) (s : demand_scan) (id : N)
  : result GpuDemandAdmissionError demand_scan :=
  let g := inner c in
  if in_anchor id g then Ok s else
  match lru_peek id (lru_edge g) with
  | Some admission =>
      b ← ok_or (checked_add usize_max (selected_lru_bytes s) (adm_bytes admission)) (set_too_large c);
      Ok {| payload_required := payload_required s; new_ids := new_ids s;
            selected_lru_bytes := b; new_bytes := new_bytes s |}
  | None =>
      match sources !! id with
      | None =>
          Ok {| payload_required := payload_required s ++ [id]; new_ids := new_ids s;
                selected_lru_bytes := selected_lru_bytes s; new_bytes := new_bytes s |}
      | Some source =>
          if negb (gr_id source =? id)%N
          then Err (DemandSourceIdentityMismatch id (gr_id source)) else
          let bytes := byte_len source in
          if (bytes =? 0)%N then Err EmptyPayload else
          if (lru_capacity_bytes c <? bytes)%N
          then Err (PayloadExceedsLruCapacity bytes (lru_capacity_bytes c)) else
          b ← ok_or (checked_add usize_max (selected_lru_bytes s) bytes) (set_too_large c);
          nb ← ok_or (checked_add usize_max (new_bytes s) bytes) (set_too_large c);
          Ok {| payload_required := payload_required s; new_ids := new_ids s ++ [id];
                selected_lru_bytes := b; new_bytes := nb |}
      end
  end.

Fixpoint scan_set (c : GpuExpertCache) (sources : gmap N GpuResident) (ids : list N) (s : demand_scan)
  : result GpuDemandAdmissionError demand_scan :=
  match ids with
  | [] => Ok s
  | id :: ids' => s ← scan_one c sources s id; scan_set c sources ids' s
  end.

(** The installation loop; generations count up from [gen]. *)
Fixpoint install_set (sources : gmap N GpuResident) (ids : list N) (gen : N)
    (g : GpuExpertCacheInner) : option GpuExpertCacheInner :=
  match ids with
  | [] => Some g
  | id :: ids' =>
      source ← sources !! id;
      let g := clear_markers id g in
      let l := snd (lru_put id {| resident := source; generation := gen |} (lru_edge g)) in
      used ← checked_add usize_max (lru_used_bytes g) (byte_len source);
      install_set sources ids' (gen + 1) (with_lru l used g)
  end.

Definition demand_admit_set (ids : list N) (sources : gmap N GpuResident) (c : GpuExpertCache)
  : option (result GpuDemandAdmissionError GpuDemandSetAdmission * GpuExpertCache) :=
  let g := inner c in
  let cap := lru_capacity_bytes c in
  let scanned :=
    selected ← insert_distinct ids ∅;
    s ← scan_set c sources ids
          {| payload_required := []; new_ids := []; selected_lru_bytes := 0; new_bytes := 0 |};
    Ok (selected, s) in
  match scanned with
  | Err e => Some (Err e, c)
  | Ok (selected, s) =>
      if negb (bool_decide (payload_required s = [])) then Some (Ok (PayloadRequired (payload_required s)), c) else
      if (cap <? selected_lru_bytes s)%N
      then Some (Err (DemandSetExceedsLruCapacity (selected_lru_bytes s) cap), c) else
      match checked_add usize_max (lru_used_bytes g) (new_bytes s) with
      | None => Some (Err (ProtectedDemandCapacity usize_max (lru_used_bytes g) cap), c)
      | Some required =>
          let evictable := unprotected_logical_lru_bytes g selected in
          if (evictable <? sat_sub required cap)%N
          then Some (Err (ProtectedDemandCapacity required (sat_sub (lru_used_bytes g) evictable) cap), c)
          else
          match checked_add u64_max (next_generation g) (N.of_nat (length (new_ids s))) with
          | None => Some (Err GenerationExhausted, c)
          | Some next =>
              g ← evict_until (evict_fuel g) checked_sub cap (new_bytes s) selected g;
              let first := next_generation g in
              g ← install_set sources (new_ids s) first (with_generation next g);
              admissions ← mapM (fun id => lookup_admission id g) ids;
              let n := N.of_nat (length (new_ids s)) in
              let c := with_inner g c in
              c ← (if (0 <? n)%N then refresh_used_bytes (count_promotions n c) else Some c);
              Some (Ok (Ready admissions n), c)
          end
      end
  end.

(** *** Clients

    One public operation, as the engine's tasks issue them, over the cache
    and the demand-set guards alive. *)
Inductive op :=
| OpGet (id : N)
| OpClaim (id ram_hits : N)
| OpCancel (id : N)
| OpHotExisting (id : N)
| OpHotSync (r : GpuResident)
| OpPromote (r : GpuResident)
| OpTryLru (r : GpuResident)
| OpDemandLru (r : GpuResident)
| OpDemandSet (ids : list N) (sources : gmap N GpuResident)
| OpProtect (ids : list N)
| OpRelease (guard : nat).

Record world := { cache : GpuExpertCache; guards : list (list N) }.

Definition on_cache (w : world) (c : GpuExpertCache) : world := {| cache := c; guards := guards w |}.

(** [None] is a panic. *)
Definition run (o : op) (w : world) : option world :=
  match o with
  | OpGet id => Some (on_cache w (snd (get id (cache w))))
  | OpClaim id ram_hits => Some (on_cache w (snd (claim_promotion id ram_hits (cache w))))
  | OpCancel id => Some (on_cache w (cancel_promotion id (cache w)))
  | OpHotExisting id => '(_, c) ← promote_hot_existing id (cache w); Some (on_cache w c)
  | OpHotSync r => '(_, c) ← promote_hot_sync r (cache w); Some (on_cache w c)
  | OpPromote r => '(_, c) ← promote_sync r (cache w); Some (on_cache w c)
  | OpTryLru r => '(_, c) ← try_promote_lru_no_evict r (cache w); Some (on_cache w c)
  | OpDemandLru r => '(_, c) ← demand_admit_lru r (cache w); Some (on_cache w c)
  | OpDemandSet ids sources =>
      '(_, c) ← demand_admit_set ids sources (cache w); Some (on_cache w c)
  | OpProtect ids =>
      '(r, c) ← protect_demand_set ids (cache w);
      Some {| cache := c;
              guards := match r with Ok ids => ids :: guards w | Err _ => guards w end |}
  | OpRelease i =>
      match guards w !! i with
      | None => Some w
      | Some ids =>
          c ← drop_protection ids (cache w);
          Some {| cache := c; guards := take i (guards w) ++ drop (S i) (guards w) |}
      end
  end.

Fixpoint run_all (os : list op) (w : world) : option world :=
  match os with
  | [] => Some w
  | o :: os' => w ← run o w; run_all os' w
  end.

Definition fresh (capacity : N) (anchor_ratio : f32) (after_hits : N) : world :=
  {| cache := new capacity anchor_ratio after_hits; guards := [] |}.

(** References an operation adds to the protection registry. *)
Definition op_refs (o : op) : N :=
  match o with OpProtect ids => N.of_nat (length ids) | _ => 0%N end.
Definition refs (w : world) : N := N.of_nat (length (concat (guards w))).
End gpu.
Arguments GpuExpertCacheInner {_}.
Arguments GpuExpertCache {_}.

(** ** Invariant *)

Section inv.
Context `{!LruCache GpuAdmission}.
Implicit Types (g : GpuExpertCacheInner) (c : GpuExpertCache) (a : GpuAdmission).

Abbreviation edge g := (lru_iter (lru_edge g)).

Definition anchor_list g : list GpuAdmission := (map_to_list (anchor g)).*2.
Definition edge_list g : list GpuAdmission := (edge g).*2.
Definition generations g : list N := generation <$> (anchor_list g ++ edge_list g).

(** Each region is keyed by the resident's id, the regions are disjoint, their
    byte counters are exact and within budget, payloads are not empty, and
    generations are pairwise distinct and below [bound], which is at most
    the next generation. *)
Record inner_ok (acap lcap bound : N) g : Prop := {
  ok_anchor : map_Forall (fun k a => gr_id (resident a) = k /\ (0 < adm_bytes a)%N) (anchor g);
  ok_lru_cap : lru_cap (lru_edge g) = None;
  ok_edge : Forall (fun kv => gr_id (resident (snd kv)) = fst kv /\ (0 < adm_bytes (snd kv))%N) (edge g);
  ok_disjoint : forall k, k ∈ (edge g).*1 -> anchor g !! k = None;
  ok_anchor_bytes : anchor_used_bytes g = sumN (adm_bytes <$> anchor_list g);
  ok_anchor_budget : (anchor_used_bytes g <= acap)%N;
  ok_edge_bytes : lru_used_bytes g = sumN (adm_bytes <$> edge_list g);
  ok_edge_budget : (lru_used_bytes g <= lcap)%N;
  ok_gens : NoDup (generations g) /\ Forall (fun n => n < bound)%N (generations g);
  ok_next : (bound <= next_generation g)%N;
}.

(** Budgets up to [2 ^ 62] bytes: the sum of two sizes within the budget is
    then a [usize]. *)
Definition max_budget : N := 4611686018427387904.

Record cache_ok c : Prop := {
  ok_inner : inner_ok (anchor_capacity_bytes c) (lru_capacity_bytes c)
               (next_generation (inner c)) (inner c);
  ok_next_u64 : (next_generation (inner c) <= u64_max)%N;
  ok_capacity : (anchor_capacity_bytes c + lru_capacity_bytes c <= max_budget)%N;
  ok_gauge : logical_admitted_bytes c = (anchor_used_bytes (inner c) + lru_used_bytes (inner c))%N;
}.

Fixpoint occurrences (k : N) (l : list N) : N :=
  match l with [] => 0 | x :: l' => (if (k =? x)%N then 1 else 0) + occurrences k l' end%N.

(** The registry counts the live guards' references. *)
Definition counts_ok (p : gmap N N) (f : N -> N) : Prop :=
  forall k, p !! k = if (f k =? 0)%N then None else Some (f k).

Definition protections_ok (p : gmap N N) (gs : list (list N)) : Prop :=
  counts_ok p (fun k => occurrences k (concat gs)).

Definition world_ok (w : world) : Prop :=
  cache_ok (cache w) /\ protections_ok (demand_protections (inner (cache w))) (guards w).
End inv.

(** ** Primitive steps *)

Section prims.
Context `{!LruCache GpuAdmission, !LruLaws GpuAdmission}.
Implicit Types (g : GpuExpertCacheInner) (c : GpuExpertCache) (a : GpuAdmission).
Abbreviation edge g := (lru_iter (lru_edge g)).

Lemma lookup_admission_eq id g :
  lookup_admission id g = match anchor g !! id with Some a => Some a | None => aget id (edge g) end.
Proof. unfold lookup_admission. by rewrite lru_peek_law. Qed.

Lemma in_lru_iff id g : in_lru id g = true <-> id ∈ (edge g).*1.
Proof.
  unfold in_lru. rewrite lru_peek_law, <-aget_is_Some.
  destruct (aget id (edge g)); split; intros H; try done; by destruct H.
Qed.

Lemma absent_lookup id g :
  in_anchor id g = false -> in_lru id g = false ->
  anchor g !! id = None /\ aget id (edge g) = None.
Proof.
  unfold in_anchor, in_lru. rewrite lru_peek_law.
  by destruct (anchor g !! id), (aget id (edge g)).
Qed.

(** Entering the LRU edge with the next unused generation. *)
Lemma put_edge acap lcap b g id r :
  inner_ok acap lcap b g -> anchor g !! id = None -> aget id (edge g) = None ->
  gr_id r = id -> (0 < byte_len r)%N -> (lru_used_bytes g + byte_len r <= lcap)%N ->
  (b < next_generation g)%N ->
  let a := {| resident := r; generation := b |} in
  let l := snd (lru_put id a (lru_edge g)) in
  let g' := with_lru l (lru_used_bytes g + byte_len r) g in
  inner_ok acap lcap (b + 1) g' /\ lru_iter l = (id, a) :: edge g.
Proof.
  intros [Ha Hc He Hd Hab Habg Hb Hbg [Hnd Hg] Hn] Hna Hne Hid Hpos Hroom Hlt a l g'.
  destruct (put_absent_unbounded id a (lru_edge g) Hne Hc) as [_ Hl].
  destruct (lru_put_law id a (lru_edge g)) as (_ & Hcap & _). fold l in Hl, Hcap.
  split; [|done]. unfold g'. split; simpl.
  - done.
  - congruence.
  - rewrite Hl. constructor; [done|done].
  - intros k Hk. rewrite Hl in Hk. set_solver.
  - done.
  - done.
  - unfold edge_list. simpl. rewrite Hl. csimpl. rewrite Hb. unfold edge_list.
    change (adm_bytes a) with (byte_len r). lia.
  - done.
  - assert (Hp : generations (with_lru l (lru_used_bytes g + byte_len r) g) ≡ₚ b :: generations g).
    { unfold generations, edge_list, anchor_list. simpl. rewrite Hl. csimpl.
      rewrite !fmap_app. csimpl. by rewrite Permutation_middle. }
    rewrite Hp. split; constructor; try done.
    + rewrite Forall_forall in Hg. intros Hin%Hg. lia.
    + lia.
    + eapply Forall_impl; [exact Hg|]. simpl. lia.
  - lia.
Qed.

(** Entering the anchor core. *)
Lemma put_anchor acap lcap b g id r :
  inner_ok acap lcap b g -> anchor g !! id = None -> aget id (edge g) = None ->
  gr_id r = id -> (0 < byte_len r)%N -> (anchor_used_bytes g + byte_len r <= acap)%N ->
  (b < next_generation g)%N ->
  inner_ok acap lcap (b + 1)
    (with_anchor (<[id := {| resident := r; generation := b |}]> (anchor g))
                 (anchor_used_bytes g + byte_len r) g).
Proof.
  intros [Ha Hc He Hd Hab Habg Hb Hbg [Hnd Hg] Hn] Hna Hne Hid Hpos Hroom Hlt.
  set (a := {| resident := r; generation := b |}).
  assert (Hm : anchor_list (with_anchor (<[id := a]> (anchor g)) (anchor_used_bytes g + byte_len r) g)
               ≡ₚ a :: anchor_list g).
  { unfold anchor_list. simpl. by rewrite map_to_list_insert. }
  split; simpl; try done.
  - by apply map_Forall_insert.
  - intros k Hk. rewrite lookup_insert_ne; [by apply Hd|].
    intros <-. apply aget_None in Hne. done.
  - rewrite Hm. csimpl. rewrite Hab.
    change (adm_bytes a) with (byte_len r). lia.
  - assert (Hp : generations (with_anchor (<[id := a]> (anchor g)) (anchor_used_bytes g + byte_len r) g)
                 ≡ₚ b :: generations g).
    { unfold generations. rewrite Hm. done. }
    rewrite Hp. split; constructor; try done.
    + rewrite Forall_forall in Hg. intros Hin%Hg. lia.
    + lia.
    + eapply Forall_impl; [exact Hg|]. simpl. lia.
  - lia.
Qed.

Lemma key_middle (l1 l2 : list (N * GpuAdmission)) id a : id ∈ (l1 ++ (id, a) :: l2).*1.
Proof. rewrite fmap_app. apply elem_of_app. right. by left. Qed.

(** Leaving the LRU edge. *)
Lemma pop_at id a l1 l2 g :
  edge g = l1 ++ (id, a) :: l2 ->
  lru_pop id (lru_edge g) = (Some a, snd (lru_pop id (lru_edge g))) /\
  lru_iter (snd (lru_pop id (lru_edge g))) = l1 ++ l2 /\
  lru_cap (snd (lru_pop id (lru_edge g))) = lru_cap (lru_edge g).
Proof.
  intros Hl. pose proof (lru_iter_nodup (lru_edge g)) as Hnd.
  destruct (lru_pop_law id (lru_edge g)) as (Hf & Hc & Hi).
  rewrite Hl in *. rewrite aget_middle in Hf by done. rewrite adel_middle in Hi by done.
  split_and!; auto. destruct (lru_pop id (lru_edge g)); simpl in *. congruence.
Qed.

Lemma edge_split id g a :
  aget id (edge g) = Some a -> exists l1 l2, edge g = l1 ++ (id, a) :: l2.
Proof. intros Hin%aget_Some_elem. by apply list_elem_of_split. Qed.

Lemma sum_middle (l1 l2 : list (N * GpuAdmission)) id a :
  sumN (adm_bytes <$> (l1 ++ (id, a) :: l2).*2) =
  (adm_bytes a + sumN (adm_bytes <$> (l1 ++ l2).*2))%N.
Proof. rewrite !fmap_app, !sumN_app. csimpl. lia. Qed.

Lemma pop_edge acap lcap b g id a l1 l2 l :
  inner_ok acap lcap b g -> edge g = l1 ++ (id, a) :: l2 ->
  lru_iter l = l1 ++ l2 -> lru_cap l = lru_cap (lru_edge g) ->
  (adm_bytes a <= lru_used_bytes g)%N /\
  inner_ok acap lcap b (with_lru l (lru_used_bytes g - adm_bytes a) g).
Proof.
  intros [Ha Hc He Hd Hab Habg Hb Hbg [Hnd Hg] Hn] Hl Hl' Hcap.
  unfold edge_list in Hb. rewrite Hl, sum_middle in Hb. split; [lia|].
  split; simpl; try done.
  - congruence.
  - rewrite Hl'. rewrite Hl in He. apply Forall_app in He as [? [_ ?]%Forall_cons]. by apply Forall_app.
  - intros k Hk. apply Hd. rewrite Hl. rewrite Hl' in Hk. set_solver.
  - unfold edge_list; simpl. rewrite Hl', Hb. lia.
  - lia.
  - assert (Hp : generations g ≡ₚ
                 generation a :: generations (with_lru l (lru_used_bytes g - adm_bytes a) g)).
    { unfold generations, edge_list, anchor_list. simpl. rewrite Hl, Hl', !fmap_app. csimpl.
      solve_Permutation. }
    rewrite Hp in Hnd, Hg. apply NoDup_cons in Hnd as [_ Hnd]. apply Forall_cons in Hg as [_ Hg]. done.
Qed.

(** Graduating from the edge to the anchor core keeps the admission. *)
Lemma move_to_anchor acap lcap b g id a l1 l2 l :
  inner_ok acap lcap b g -> edge g = l1 ++ (id, a) :: l2 ->
  lru_iter l = l1 ++ l2 -> lru_cap l = lru_cap (lru_edge g) ->
  (anchor_used_bytes g + adm_bytes a <= acap)%N ->
  inner_ok acap lcap b
    (with_anchor (<[id := a]> (anchor g)) (anchor_used_bytes g + adm_bytes a)
       (with_lru l (lru_used_bytes g - adm_bytes a) g)).
Proof.
  intros Hok Hl Hl' Hcap Hroom.
  pose proof (lru_iter_nodup (lru_edge g)) as Hnd0. rewrite Hl in Hnd0.
  destruct (pop_edge _ _ _ _ _ _ _ _ _ Hok Hl Hl' Hcap) as [_ Hok'].
  destruct Hok as [Ha Hc He Hd Hab Habg Hb Hbg [Hnd Hg] Hn].
  assert (Hna : anchor g !! id = None) by (apply Hd; rewrite Hl; apply key_middle).
  rewrite Hl in He. apply Forall_app in He as [_ [[Hid Hpos] _]%Forall_cons]. simpl in Hid, Hpos.
  assert (Hni : id ∉ (l1 ++ l2).*1).
  { rewrite fmap_app, fmap_cons in Hnd0. apply NoDup_app in Hnd0 as (_ & H1 & H2).
    apply NoDup_cons in H2 as [H2 _]. rewrite fmap_app. intros [Hin|Hin]%elem_of_app; [|done].
    apply (H1 _ Hin). by left. }
  set (g' := with_anchor _ _ _).
  assert (Hm : anchor_list g' ≡ₚ a :: anchor_list g).
  { unfold anchor_list, g'. simpl. by rewrite map_to_list_insert. }
  destruct Hok'. split; simpl; try done.
  - by apply map_Forall_insert.
  - rewrite Hl'. intros k Hk. rewrite lookup_insert_ne by (by intros <-).
    apply Hd. rewrite Hl. set_solver.
  - rewrite Hm. csimpl. lia.
  - assert (Hp : generations g' ≡ₚ generations g).
    { unfold generations. rewrite Hm. unfold edge_list, g'. simpl. rewrite Hl, Hl', !fmap_app. csimpl.
      solve_Permutation. }
    by rewrite Hp.
Qed.

(** *** The eviction loop *)

Lemma find_reverse_split (f : N * GpuAdmission -> bool) l :
  match List.find f (reverse l) with
  | Some kv => exists l1 l2, l = l1 ++ kv :: l2 /\ f kv = true /\ Forall (fun kv => f kv = false) l2
  | None => Forall (fun kv => f kv = false) l
  end.
Proof.
  induction l as [|x l IH] using rev_ind; [constructor|].
  rewrite reverse_snoc. simpl. destruct (f x) eqn:E.
  - by exists l, [].
  - destruct (List.find f (reverse l)) as [kv|].
    + destruct IH as (l1 & l2 & -> & Hkv & Hl2). exists l1, (l2 ++ [x]).
      rewrite <-app_assoc. split_and!; [done..|]. apply Forall_app. auto.
    + apply Forall_app. auto.
Qed.

Abbreviation protected g extra := (logical_lru_is_protected g extra).
Definition evictable g (extra : gset N) (l : list (N * GpuAdmission)) : N :=
  sumN ((fun kv => adm_bytes (snd kv)) <$> List.filter (fun kv => negb (protected g extra (fst kv))) l).

Lemma evictable_split g extra l1 id a l2 :
  protected g extra id = false ->
  evictable g extra (l1 ++ (id, a) :: l2) = (adm_bytes a + evictable g extra (l1 ++ l2))%N.
Proof.
  intros Hp. unfold evictable. rewrite !List.filter_app. simpl. rewrite Hp. simpl.
  rewrite !fmap_app, !sumN_app. csimpl. lia.
Qed.

Lemma evictable_none g extra l :
  Forall (fun kv => negb (protected g extra (fst kv)) = false) l -> evictable g extra l = 0%N.
Proof.
  unfold evictable. induction 1 as [|kv l Hkv _ IH]; [done|]. simpl. by rewrite Hkv.
Qed.

Lemma room_test used bytes cap : (cap <= usize_max)%N ->
  match checked_add usize_max used bytes with
  | None => true | Some u => (cap <? u)%N end = (cap <? used + bytes)%N.
Proof. intros. unfold checked_add. case_N; lia. Qed.

(** What eviction may do: forget unprotected edge entries, marking them for
    re-promotion. *)
Record evicts (extra : gset N) g g' : Prop := {
  ev_anchor : anchor g' = anchor g /\ anchor_used_bytes g' = anchor_used_bytes g;
  ev_next : next_generation g' = next_generation g;
  ev_prot : demand_protections g' = demand_protections g;
  ev_pending : promotion_pending g' = promotion_pending g;
  ev_rearm : promotion_rearm g ⊆ promotion_rearm g';
  ev_oldest : exists l1 l2, edge g = l1 ++ l2 /\
    edge g' = l1 ++ List.filter (fun kv => protected g extra (fst kv)) l2;
  ev_kept : forall k, k ∈ (edge g).*1 -> k ∈ (edge g').*1 \/
    (protected g extra k = false /\ k ∈ promotion_rearm g');
}.

Lemma evicts_refl extra g : evicts extra g g.
Proof.
  split; auto. exists (edge g), []. simpl. rewrite app_nil_r. auto.
Qed.

(** Removing the oldest unprotected entry first composes. *)
Lemma oldest_compose (f : N * GpuAdmission -> bool) k1 kv k2 l1 l2 :
  f kv = false -> Forall (fun kv => f kv = true) k2 -> k1 ++ k2 = l1 ++ l2 ->
  exists l1' l2', k1 ++ kv :: k2 = l1' ++ l2' /\ l1 ++ List.filter f l2 = l1' ++ List.filter f l2'.
Proof.
  intros Hkv Hk2 [(y & -> & ->)|(x & -> & ->)]%app_eq_inv.
  - exists l1, (y ++ kv :: k2). split; [by rewrite <-app_assoc|].
    rewrite !List.filter_app. simpl. by rewrite Hkv.
  - exists k1, (kv :: x ++ l2). simpl. rewrite Hkv. apply Forall_app in Hk2 as [Hx Hl2].
    rewrite List.filter_app, !filter_id by done. by rewrite <-app_assoc.
Qed.

Lemma evict_until_ok acap lcap b bytes extra sub fuel g :
  (forall x y, y <= x -> sub x y = Some (x - y))%N ->
  (lcap <= usize_max)%N ->
  inner_ok acap lcap b g ->
  (lru_used_bytes g + bytes - lcap <= evictable g extra (edge g))%N ->
  length (edge g) < fuel ->
  exists g', evict_until fuel sub lcap bytes extra g = Some g' /\ inner_ok acap lcap b g' /\
    evicts extra g g' /\ (lru_used_bytes g' + bytes <= lcap)%N.
Proof.
  intros Hsub Hmax. revert g. induction fuel as [|fuel IH]; intros g Hok Hev Hfuel; [lia|].
  cbn [evict_until]. rewrite room_test by done.
  destruct (N.ltb_spec lcap (lru_used_bytes g + bytes)) as [Hfull|Hroom].
  2: { exists g. split_and!; [done|done|apply evicts_refl|lia]. }
  unfold oldest_unprotected_logical_lru.
  pose proof (find_reverse_split (fun kv => negb (protected g extra (fst kv))) (edge g)) as Hf.
  destruct (List.find _ (reverse (edge g))) as [[id a]|].
  2: { apply evictable_none in Hf. lia. }
  destruct Hf as (l1 & l2 & Hl' & Hp & Hk2). apply negb_true_iff in Hp. simpl in Hp.
  destruct (pop_at id a l1 l2 g Hl') as (Hpop & Hi & Hcap).
  cbn [mbind option_bind fmap option_fmap option_map fst]. rewrite Hpop.
  cbn [mbind option_bind].
  set (l := snd (lru_pop id (lru_edge g))) in *.
  destruct (pop_edge _ _ _ _ _ _ _ _ _ Hok Hl' Hi Hcap) as [Hle Hok1].
  rewrite Hsub by done. cbn [mbind option_bind].
  set (g1 := with_markers _ _ (with_lru l _ g)).
  assert (Hok1' : inner_ok acap lcap b g1).
  { destruct Hok1; split; assumption. }
  destruct (IH g1) as (g' & Hr & Hok' & Hev' & Hu).
  - done.
  - change (evictable g1 extra (edge g1)) with (evictable g extra (lru_iter l)).
    rewrite Hi. rewrite Hl', evictable_split in Hev by done.
    change (lru_used_bytes g1) with (lru_used_bytes g - adm_bytes a)%N. lia.
  - change (edge g1) with (lru_iter l). rewrite Hi. rewrite Hl', length_app in Hfuel.
    rewrite length_app. simpl in Hfuel. lia.
  - exists g'. split_and!; [done|done| |done].
    destruct Hev' as [[? ?] ? ? ? Hrearm (m1 & m2 & Hm & Hm') Hkept].
    split; [done..| | |].
    + simpl in Hrearm. set_solver.
    + change (edge g1) with (lru_iter l) in Hm. rewrite Hi in Hm. rewrite Hm', Hl'.
      apply (oldest_compose (fun kv => protected g extra (fst kv)) l1 (id, a) l2 m1 m2); [done| |done].
      eapply Forall_impl; [exact Hk2|]. intros kv. by rewrite negb_false_iff.
    + intros k Hk. destruct (decide (k = id)) as [->|Hne].
      * right. split; [done|]. apply Hrearm. simpl. set_solver.
      * destruct (Hkept k) as [?|[Hpk ?]]; [|by left|by right].
        change (edge g1) with (lru_iter l). rewrite Hi. rewrite Hl' in Hk.
        rewrite fmap_app in Hk |- *. set_solver.
Qed.

Lemma evicts_sub extra g g' : evicts extra g g' -> edge g' `sublist_of` edge g.
Proof.
  intros [_ _ _ _ _ (l1 & l2 & -> & ->) _]. apply sublist_app; [done|].
  clear. induction l2 as [|kv l2 IH]; simpl; [done|]. destruct (protected _ _ _); by constructor.
Qed.

(** *** What an operation guarantees to the other clients

    Anchored admissions stay as they are; an edge admission keeps its
    generation and payload, or is forgotten when nothing protects it and is
    then marked for re-promotion; a new admission has an unused generation. *)
Record stable (extra : gset N) g g' : Prop := {
  st_anchor : anchor g ⊆ anchor g';
  st_kept : forall k a, lookup_admission k g = Some a ->
    lookup_admission k g' = Some a \/
    (lookup_admission k g' = None /\ protected g extra k = false /\ k ∈ promotion_rearm g');
  st_fresh : forall k a, lookup_admission k g' = Some a ->
    lookup_admission k g = Some a \/ (next_generation g <= generation a)%N;
  st_next : (next_generation g <= next_generation g')%N;
  st_prot : demand_protections g' = demand_protections g;
}.

Lemma stable_same extra g g' :
  anchor g ⊆ anchor g' -> (forall k, lookup_admission k g' = lookup_admission k g) ->
  (next_generation g <= next_generation g')%N -> demand_protections g' = demand_protections g ->
  stable extra g g'.
Proof.
  intros Ha Hl Hn Hp. split; [done| | |done|done]; intros k a; rewrite Hl; auto.
Qed.

Lemma evicts_stable extra g g' : evicts extra g g' -> stable extra g g'.
Proof.
  intros He. pose proof (evicts_sub _ _ _ He) as Hsub.
  destruct He as [[Ha _] Hn Hp _ Hr _ Hk].
  pose proof (lru_iter_nodup (lru_edge g)) as Hnd. pose proof (lru_iter_nodup (lru_edge g')) as Hnd'.
  split; [by rewrite Ha| | |lia|done]; intros k a; rewrite !lookup_admission_eq, Ha;
    destruct (anchor g !! k); auto.
  - intros Hg. destruct (Hk k) as [Hin|[Hpk Hrk]]; [apply aget_is_Some; eauto| |].
    + left. apply aget_is_Some in Hin as [a' Hg']. rewrite Hg'. f_equal.
      apply aget_Some_elem in Hg'. apply (sublist_subseteq _ _ Hsub) in Hg'.
      apply (aget_elem _ _ _ Hnd) in Hg'. congruence.
    + destruct (aget k (edge g')) as [a'|] eqn:Hg'; [left|right; auto]. f_equal.
      apply aget_Some_elem in Hg'. apply (sublist_subseteq _ _ Hsub) in Hg'.
      apply (aget_elem _ _ _ Hnd) in Hg'. congruence.
  - intros Hg'. left. apply aget_elem; [done|]. apply (sublist_subseteq _ _ Hsub).
    by apply aget_Some_elem.
Qed.

(** Then admitting one id that was absent. *)
Lemma stable_put extra g g1 g2 id a :
  stable extra g g1 -> lookup_admission id g = None ->
  (forall k, lookup_admission k g2 = if (k =? id)%N then Some a else lookup_admission k g1) ->
  (next_generation g <= generation a)%N -> anchor g1 ⊆ anchor g2 ->
  promotion_rearm g1 ∖ {[id]} ⊆ promotion_rearm g2 ->
  (next_generation g1 <= next_generation g2)%N -> demand_protections g2 = demand_protections g1 ->
  stable extra g g2.
Proof.
  intros [Ha Hk Hf Hn Hp] Hid Hl Hga Ha2 Hr Hn2 Hp2.
  split; [by etransitivity| | |lia|congruence]; intros k a'; rewrite Hl.
  - intros Hg. destruct (N.eqb_spec k id) as [->|Hne]; [congruence|].
    destruct (Hk k a' Hg) as [?|(? & ? & ?)]; [by left|right]. split_and!; [done..|]. set_solver.
  - destruct (N.eqb_spec k id) as [->|Hne]; [intros [= <-]; by right|]. apply Hf.
Qed.

Lemma lookup_put_edge id a l u g k :
  anchor g !! id = None -> lru_iter l = (id, a) :: edge g ->
  lookup_admission k (with_lru l u g) = if (k =? id)%N then Some a else lookup_admission k g.
Proof.
  intros Ha Hl. rewrite !lookup_admission_eq. simpl. rewrite Hl. simpl.
  destruct (N.eqb_spec k id) as [->|]; [|done]. by rewrite Ha.
Qed.

Lemma lookup_put_anchor id a u g k :
  lookup_admission k (with_anchor (<[id := a]> (anchor g)) u g) =
  if (k =? id)%N then Some a else lookup_admission k g.
Proof.
  rewrite !lookup_admission_eq. simpl. destruct (N.eqb_spec k id) as [->|].
  - by rewrite lookup_insert_eq.
  - by rewrite lookup_insert_ne by congruence.
Qed.

Lemma lookup_move id a u v l l1 l2 g k :
  anchor g !! id = None -> edge g = l1 ++ (id, a) :: l2 -> lru_iter l = l1 ++ l2 ->
  lookup_admission k (with_anchor (<[id := a]> (anchor g)) u (with_lru l v g)) = lookup_admission k g.
Proof.
  intros Ha Hl Hl'. rewrite !lookup_admission_eq. simpl.
  pose proof (lru_iter_nodup (lru_edge g)) as Hnd. rewrite Hl in Hnd.
  destruct (decide (k = id)) as [->|Hne].
  - rewrite lookup_insert_eq, Ha, Hl. by rewrite aget_middle.
  - rewrite lookup_insert_ne by done. destruct (anchor g !! k); [done|].
    rewrite Hl', Hl, <-(adel_middle id a l1 l2) by done. rewrite aget_adel.
    by destruct (N.eqb_spec k id).
Qed.
End prims.

(** ** Operations *)

Section ops.
Context `{!LruCache GpuAdmission, !LruLaws GpuAdmission}.
Implicit Types (g : GpuExpertCacheInner) (c : GpuExpertCache) (r : GpuResident).
Abbreviation edge g := (lru_iter (lru_edge g)).
Abbreviation protected g extra := (logical_lru_is_protected g extra).

Record op_ok (extra : gset N) c c' : Prop := {
  op_cache : cache_ok c';
  op_config : anchor_capacity_bytes c' = anchor_capacity_bytes c /\
    lru_capacity_bytes c' = lru_capacity_bytes c /\ promote_after_hits c' = promote_after_hits c;
  op_stable : stable extra (inner c) (inner c');
}.

Lemma inner_ok_eq acap lcap b b' g g' :
  anchor g' = anchor g -> anchor_used_bytes g' = anchor_used_bytes g ->
  lru_edge g' = lru_edge g -> lru_used_bytes g' = lru_used_bytes g ->
  (b <= b' <= next_generation g')%N ->
  inner_ok acap lcap b g -> inner_ok acap lcap b' g'.
Proof.
  intros Ha Hau Hl Hlu [? ?] [? ? ? ? Hab ? Hb ? [? Hg] ?].
  unfold generations, anchor_list, edge_list in *.
  split; unfold generations, anchor_list, edge_list; rewrite ?Ha, ?Hau, ?Hl, ?Hlu; try done.
  split; [done|]. eapply Forall_impl; [exact Hg|]. simpl. lia.
Qed.

Lemma op_ok_refl extra c : cache_ok c -> op_ok extra c c.
Proof. intros. split; [done|done|]. by apply stable_same. Qed.

(** Operations that do not touch the regions. *)
Lemma op_ok_same extra c c' :
  cache_ok c ->
  anchor_capacity_bytes c' = anchor_capacity_bytes c ->
  lru_capacity_bytes c' = lru_capacity_bytes c -> promote_after_hits c' = promote_after_hits c ->
  logical_admitted_bytes c' = logical_admitted_bytes c ->
  anchor (inner c') = anchor (inner c) ->
  anchor_used_bytes (inner c') = anchor_used_bytes (inner c) ->
  lru_edge (inner c') = lru_edge (inner c) -> lru_used_bytes (inner c') = lru_used_bytes (inner c) ->
  next_generation (inner c') = next_generation (inner c) ->
  demand_protections (inner c') = demand_protections (inner c) ->
  op_ok extra c c'.
Proof.
  intros [Hi Hn Hc Hg] Hac Hlc Hph Hla Ha Hau Hl Hlu Hng Hdp. split.
  - split; [|congruence..]. rewrite Hac, Hlc.
    eapply (inner_ok_eq _ _ (next_generation (inner c))); eauto. lia.
  - done.
  - apply stable_same; [by rewrite Ha| |lia|done]. intros k. unfold lookup_admission. by rewrite Ha, Hl.
Qed.

Lemma clear_markers_ok extra c id : cache_ok c -> op_ok extra c (with_inner (clear_markers id (inner c)) c).
Proof. intros. by apply op_ok_same. Qed.

Lemma claim_ok extra c id h : cache_ok c -> op_ok extra c (snd (claim_promotion id h c)).
Proof.
  intros. unfold claim_promotion.
  destruct (negb (should_promote h c)); [by apply op_ok_refl|].
  destruct (in_anchor _ _ || _); [by apply op_ok_refl|].
  destruct (negb _ && negb _); by apply op_ok_same.
Qed.

Lemma cancel_ok extra c id : cache_ok c -> op_ok extra c (cancel_promotion id c).
Proof.
  intros. unfold cancel_promotion. case_bool_decide; [|by apply op_ok_refl]. by apply op_ok_same.
Qed.

(** A touched edge has the same entries. *)
Lemma touch_edge id g : 
  edge (with_lru (snd (lru_get id (lru_edge g))) (lru_used_bytes g) g) ≡ₚ edge g.
Proof.
  simpl. destruct (lru_get_law id (lru_edge g)) as (_ & _ & ->).
  destruct (aget id (edge g)) as [a|] eqn:E; [|done].
  by rewrite <-adel_perm by (done || apply lru_iter_nodup).
Qed.

Lemma aget_perm k (l l' : list (N * GpuAdmission)) :
  NoDup l.*1 -> NoDup l'.*1 -> l ≡ₚ l' -> aget k l = aget k l'.
Proof.
  intros Hl Hl' Hp. destruct (aget k l) as [a|] eqn:E.
  - symmetry. apply aget_elem; [done|]. rewrite <-Hp. by apply aget_Some_elem.
  - symmetry. apply aget_None. rewrite <-Hp. by apply aget_None.
Qed.

Lemma touch_inner_ok acap lcap b id g :
  inner_ok acap lcap b g ->
  inner_ok acap lcap b (with_lru (snd (lru_get id (lru_edge g))) (lru_used_bytes g) g).
Proof.
  intros [Ha Hc He Hd Hab Habg Hb Hbg [Hnd Hg] Hn]. pose proof (touch_edge id g) as Hp.
  set (g' := with_lru _ _ g) in *.
  assert (Hgen : generations g' ≡ₚ generations g).
  { unfold generations, edge_list. by rewrite Hp. }
  split; try done.
  - destruct (lru_get_law id (lru_edge g)) as (_ & Hcap & _). simpl. congruence.
  - by rewrite Hp.
  - intros k. rewrite Hp. apply Hd.
  - unfold edge_list in *. by rewrite Hp.
  - by rewrite Hgen.
Qed.

Lemma touch_lookup id g k :
  lookup_admission k (with_lru (snd (lru_get id (lru_edge g))) (lru_used_bytes g) g) =
  lookup_admission k g.
Proof.
  rewrite !lookup_admission_eq. cbn [anchor with_lru]. destruct (anchor g !! k); [done|].
  apply aget_perm; [apply lru_iter_nodup..|apply touch_edge].
Qed.

Lemma get_ok extra c id : cache_ok c -> op_ok extra c (snd (get id c)).
Proof.
  intros Hok. unfold get. destruct (anchor (inner c) !! id) eqn:E; [by apply op_ok_same|].
  pose proof (touch_inner_ok _ _ _ id _ (ok_inner _ Hok)) as Ht.
  pose proof (touch_lookup id (inner c)) as Hl.
  destruct (lru_get id (lru_edge (inner c))) as [o l]. simpl in Ht, Hl.
  destruct Hok. destruct o; simpl; (split; [by split|done|by apply stable_same]).
Qed.

Lemma publish_ok extra c g' n :
  cache_ok c -> inner_ok (anchor_capacity_bytes c) (lru_capacity_bytes c) (next_generation g') g' ->
  (next_generation g' <= u64_max)%N -> stable extra (inner c) g' ->
  exists c', refresh_used_bytes (count_promotions n (with_inner g' c)) = Some c' /\
    op_ok extra c c' /\ inner c' = g'.
Proof.
  intros [_ _ Hcap _] Hi Hn Hs. unfold refresh_used_bytes. simpl.
  pose proof (ok_anchor_budget _ _ _ _ Hi). pose proof (ok_edge_budget _ _ _ _ Hi).
  unfold checked_add. destruct (N.leb_spec (anchor_used_bytes g' + lru_used_bytes g') usize_max)
    as [_|Hbad]; [|unfold max_budget, usize_max, u64_max in *; lia].
  simpl. eexists. split; [reflexivity|]. split; [|done]. split; [by split|done|done].
Qed.

(** Rewrite the published state, up to conversion. *)
Ltac published Hp :=
  match type of Hp with refresh_used_bytes _ = ?r =>
    match goal with |- context [refresh_used_bytes ?x] =>
      replace (refresh_used_bytes x) with r by (symmetry; exact Hp)
    end
  end.

Lemma anchor_room_ok bytes c :
  cache_ok c -> anchor_has_room bytes c = true ->
  (anchor_used_bytes (inner c) + bytes <= anchor_capacity_bytes c)%N /\
  checked_add usize_max (anchor_used_bytes (inner c)) bytes = Some (anchor_used_bytes (inner c) + bytes)%N.
Proof.
  unfold anchor_has_room. intros _ [_ Hr]%andb_true_iff.
  destruct (checked_add usize_max (anchor_used_bytes (inner c)) bytes) as [u|] eqn:E; [|done].
  apply N.leb_le in Hr. apply checked_add_Some in E as [-> ?]. done.
Qed.

Lemma edge_add_ok lcap used bytes :
  (lcap <= max_budget)%N -> (used + bytes <= lcap)%N ->
  checked_add usize_max used bytes = Some (used + bytes)%N.
Proof. intros. apply checked_add_Some. unfold max_budget, usize_max, u64_max in *. lia. Qed.

Lemma resolve_ok id c :
  cache_ok c ->
  exists o c', resolve_existing_hot_locked id c = Some (o, c') /\ op_ok ∅ c c' /\
    match o with
    | None => c' = c /\ anchor (inner c) !! id = None /\ aget id (edge (inner c)) = None
    | Some _ => is_Some (lookup_admission id (inner c))
    end.
Proof.
  intros Hok. unfold resolve_existing_hot_locked, in_anchor.
  destruct (anchor (inner c) !! id) as [a|] eqn:Ea.
  { do 2 eexists. split; [reflexivity|]. split; [by apply clear_markers_ok|].
    rewrite lookup_admission_eq, Ea. eauto. }
  rewrite lru_peek_law. destruct (aget id (edge (inner c))) as [a|] eqn:El; simpl.
  2: { do 2 eexists. split; [reflexivity|]. split; [by apply op_ok_refl|]. auto. }
  assert (Hsome : is_Some (lookup_admission id (inner c))) by (rewrite lookup_admission_eq, Ea, El; eauto).
  destruct (anchor_has_room (adm_bytes a) c) eqn:Er; simpl.
  2: { do 2 eexists. split; [reflexivity|]. split; [by apply clear_markers_ok|done]. }
  destruct (anchor_room_ok _ _ Hok Er) as [Hroom Hadd].
  destruct (edge_split _ _ _ El) as (l1 & l2 & Hl).
  destruct (pop_at _ _ _ _ _ Hl) as (Hpop & Hi & Hcap). rewrite Hpop. cbn [mbind option_bind].
  destruct (pop_edge _ _ _ _ _ _ _ _ _ (ok_inner _ Hok) Hl Hi Hcap) as [Hle _].
  pose proof (move_to_anchor _ _ _ _ _ _ _ _ _ (ok_inner _ Hok) Hl Hi Hcap Hroom) as Hmv.
  assert (checked_sub (lru_used_bytes (inner c)) (adm_bytes a) =
          Some (lru_used_bytes (inner c) - adm_bytes a)%N) as -> by by apply checked_sub_Some.
  cbn [mbind option_bind with_lru anchor_used_bytes]. rewrite Hadd. cbn [mbind option_bind].
  do 2 eexists. split; [reflexivity|]. split; [|done]. split; [|done|].
  - destruct Hok as [_ Hn Hc Hg]. split; [by destruct Hmv; split|done|done|]. simpl. lia.
  - apply stable_same; [by apply insert_subseteq| |done|done].
    intros k. by eapply lookup_move.
Qed.

Lemma hot_existing_ok id c :
  cache_ok c -> exists o c', promote_hot_existing id c = Some (o, c') /\ op_ok ∅ c c'.
Proof.
  intros Hok. unfold promote_hot_existing.
  destruct (resolve_ok id c Hok) as ([o|] & c' & -> & Hc' & _); cbn [mbind option_bind].
  - do 2 eexists. split; [reflexivity|]. unfold record_hot_transition.
    destruct (is_transition o); [|done].
    destruct Hc' as [[Hi Hn Hc Hg] Hcfg Hs]. split; [by split|done|done].
  - eauto.
Qed.

(** Admission into the anchor core, and into the edge after an eviction. *)
Lemma admit_anchor extra c g1 r :
  let g := inner c in
  let adm := {| resident := r; generation := next_generation g |} in
  cache_ok c -> inner_ok (anchor_capacity_bytes c) (lru_capacity_bytes c) (next_generation g) g1 ->
  stable extra g g1 -> lookup_admission (gr_id r) g = None -> lookup_admission (gr_id r) g1 = None ->
  (0 < byte_len r)%N -> (anchor_used_bytes g1 + byte_len r <= anchor_capacity_bytes c)%N ->
  next_generation g1 = (next_generation g + 1)%N ->
  let g2 := with_anchor (<[gr_id r := adm]> (anchor g1)) (anchor_used_bytes g1 + byte_len r) g1 in
  inner_ok (anchor_capacity_bytes c) (lru_capacity_bytes c) (next_generation g2) g2 /\
  stable extra g g2.
Proof.
  intros g adm Hok Hi Hs Hid Hid1 Hpos Hroom Hn g2.
  rewrite lookup_admission_eq in Hid1. destruct (anchor g1 !! gr_id r) eqn:Ea; [done|].
  split.
  - unfold g2. cbn [with_anchor next_generation]. rewrite Hn. apply put_anchor; auto. lia.
  - eapply (stable_put _ _ g1 g2 (gr_id r) adm); auto; simpl.
    + intros k. apply lookup_put_anchor.
    + by apply insert_subseteq.
    + set_solver.
Qed.

Lemma admit_edge extra c g1 r :
  let g := inner c in
  let adm := {| resident := r; generation := next_generation g |} in
  cache_ok c -> inner_ok (anchor_capacity_bytes c) (lru_capacity_bytes c) (next_generation g) g1 ->
  stable extra g g1 -> lookup_admission (gr_id r) g = None -> lookup_admission (gr_id r) g1 = None ->
  (0 < byte_len r)%N -> (lru_used_bytes g1 + byte_len r <= lru_capacity_bytes c)%N ->
  next_generation g1 = (next_generation g + 1)%N ->
  let g2 := with_lru (snd (lru_put (gr_id r) adm (lru_edge g1))) (lru_used_bytes g1 + byte_len r) g1 in
  inner_ok (anchor_capacity_bytes c) (lru_capacity_bytes c) (next_generation g2) g2 /\
  stable extra g g2 /\ edge g2 = (gr_id r, adm) :: edge g1.
Proof.
  intros g adm Hok Hi Hs Hid Hid1 Hpos Hroom Hn g2.
  rewrite lookup_admission_eq in Hid1. destruct (anchor g1 !! gr_id r) eqn:Ea; [done|].
  destruct (put_edge _ _ _ _ _ r Hi Ea Hid1 eq_refl Hpos Hroom) as [Hok2 Hl]; [lia|].
  split_and!.
  - unfold g2. cbn [with_lru next_generation]. rewrite Hn. done.
  - eapply (stable_put _ _ g1 g2 (gr_id r) adm); auto; simpl.
    + intros k. by apply lookup_put_edge.
    + set_solver.
  - done.
Qed.

Lemma evicts_absent extra acap lcap g g' k :
  inner_ok acap lcap (next_generation g) g' -> evicts extra g g' ->
  lookup_admission k g = None -> lookup_admission k g' = None.
Proof.
  intros Hi He Hk. pose proof (evicts_sub _ _ _ He) as Hsub. destruct He as [[Ha _] _ _ _ _ _ _].
  rewrite lookup_admission_eq in *. rewrite Ha. destruct (anchor g !! k); [done|].
  apply aget_None in Hk. apply aget_None. intros Hin. apply Hk.
  revert Hin. apply sublist_subseteq. by apply fmap_sublist.
Qed.

Lemma stable_pre extra g g0 g1 :
  anchor g0 = anchor g -> (forall k, lookup_admission k g0 = lookup_admission k g) ->
  (next_generation g <= next_generation g0)%N -> demand_protections g0 = demand_protections g ->
  stable extra g0 g1 -> stable extra g g1.
Proof.
  intros Ha Hl Hn Hp [Hsa Hsk Hsf Hsn Hsp]. split.
  - by rewrite <-Ha.
  - intros k a. rewrite <-Hl. intros [?|(? & Hpr & ?)]%Hsk; [by left|right].
    split_and!; [done| |done]. unfold logical_lru_is_protected in *. by rewrite <-Hp.
  - intros k a [?|?]%Hsf; [left; by rewrite <-Hl|right; lia].
  - lia.
  - congruence.
Qed.

(** Evicting for [bytes] after the identity was allocated, in a state that
    differs from the cache only in markers and the generation counter. *)
Lemma evict_after_alloc sub extra c g0 bytes :
  (forall x y, y <= x -> sub x y = Some (x - y))%N ->
  cache_ok c ->
  anchor g0 = anchor (inner c) -> anchor_used_bytes g0 = anchor_used_bytes (inner c) ->
  lru_edge g0 = lru_edge (inner c) -> lru_used_bytes g0 = lru_used_bytes (inner c) ->
  (next_generation (inner c) <= next_generation g0)%N ->
  demand_protections g0 = demand_protections (inner c) ->
  (lru_used_bytes (inner c) + bytes - lru_capacity_bytes c <=
     unprotected_logical_lru_bytes (inner c) extra)%N ->
  exists g1, evict_until (evict_fuel g0) sub (lru_capacity_bytes c) bytes extra g0 = Some g1 /\
    inner_ok (anchor_capacity_bytes c) (lru_capacity_bytes c) (next_generation (inner c)) g1 /\
    evicts extra g0 g1 /\ stable extra (inner c) g1 /\
    (lru_used_bytes g1 + bytes <= lru_capacity_bytes c)%N /\
    (forall k, lookup_admission k (inner c) = None -> lookup_admission k g1 = None).
Proof.
  intros Hsub Hok Ha Hau Hl Hlu Hn Hp Hev. destruct Hok as [Hi Hnu Hcap Hg].
  assert (Hi0 : inner_ok (anchor_capacity_bytes c) (lru_capacity_bytes c) (next_generation (inner c)) g0).
  { by eapply (inner_ok_eq _ _ (next_generation (inner c))). }
  destruct (evict_until_ok (anchor_capacity_bytes c) (lru_capacity_bytes c)
    (next_generation (inner c)) bytes extra sub (evict_fuel g0) g0 Hsub)
    as (g1 & Hr & Hi1 & He & Hroom); [|done| | |].
  - unfold max_budget, usize_max, u64_max in *. lia.
  - rewrite Hlu. etransitivity; [exact Hev|].
    unfold unprotected_logical_lru_bytes, evictable, logical_lru_is_protected. rewrite Hl, Hp. done.
  - unfold evict_fuel. lia.
  - exists g1. split_and!; [done..| | |].
    + eapply stable_pre; [..|by apply evicts_stable]; auto.
      intros k. unfold lookup_admission. by rewrite Ha, Hl.
    + done.
    + intros k Hk. eapply (evicts_absent extra _ _ g0 g1); [|done|].
      * eapply (inner_ok_eq _ _ _ (next_generation g0)); [..|exact Hi1]; auto.
        rewrite (ev_next _ _ _ He). lia.
      * unfold lookup_admission in *. by rewrite Ha, Hl.
Qed.

Lemma alloc_cases g :
  match allocate_generation g with
  | None => (u64_max <= next_generation g)%N
  | Some (gen, g') => gen = next_generation g /\ g' = with_generation (gen + 1) g /\
      (gen + 1 <= u64_max)%N
  end.
Proof.
  unfold allocate_generation. destruct (checked_add u64_max (next_generation g) 1) eqn:E; simpl.
  - apply checked_add_Some in E as [-> ?]. done.
  - apply checked_add_None in E. lia.
Qed.

Lemma saturating_ok x y : (y <= x)%N -> saturating x y = Some (x - y)%N.
Proof. done. Qed.

Lemma checked_sub_ok x y : (y <= x)%N -> checked_sub x y = Some (x - y)%N.
Proof. intros. by apply checked_sub_Some. Qed.

Lemma room_required bytes c :
  cache_ok c -> (bytes <= lru_capacity_bytes c)%N -> lru_cannot_make_room bytes c = false ->
  (lru_used_bytes (inner c) + bytes - lru_capacity_bytes c <=
     unprotected_logical_lru_bytes (inner c) ∅)%N.
Proof.
  intros Hok Hb Hr%N.ltb_ge. unfold sat_add, sat_sub in Hr.
  pose proof (ok_edge_budget _ _ _ _ (ok_inner _ Hok)). pose proof (ok_capacity _ Hok).
  unfold max_budget, usize_max, u64_max in *. lia.
Qed.

Lemma hot_sync_ok r c :
  cache_ok c -> exists o c', promote_hot_sync r c = Some (o, c') /\ op_ok ∅ c c'.
Proof.
  intros Hok. unfold promote_hot_sync.
  destruct (resolve_ok (gr_id r) c Hok) as ([o|] & c1 & -> & Hc1 & Hnone); cbn [mbind option_bind].
  { do 2 eexists. split; [reflexivity|]. unfold record_hot_transition.
    destruct (is_transition o); [|done]. destruct Hc1 as [[Hi Hn Hc Hg] Hcfg Hs]. split; [by split|done|done]. }
  destruct Hnone as (-> & Ha & He).
  assert (Habs : lookup_admission (gr_id r) (inner c) = None) by by rewrite lookup_admission_eq, Ha.
  assert (Hrefuse : forall o : GpuHotPromotionOutcome, exists o' c', Some (o, with_inner (clear_markers (gr_id r) (inner c)) c)
    = Some (o', c') /\ op_ok ∅ c c').
  { intros o. do 2 eexists. split; [reflexivity|]. by apply clear_markers_ok. }
  destruct (N.eqb_spec (byte_len r) 0) as [|Hb]; [apply Hrefuse|].
  destruct (negb (anchor_has_room _ c) && (_ <? _)%N) eqn:E1; [apply Hrefuse|].
  destruct (negb (anchor_has_room _ c) && lru_cannot_make_room _ c) eqn:E2; [apply Hrefuse|].
  pose proof (alloc_cases (inner c)) as Halloc.
  destruct (allocate_generation (inner c)) as [[gen g0]|]; [|apply Hrefuse].
  destruct Halloc as (-> & -> & Hgen).
  destruct (anchor_has_room (byte_len r) c) eqn:Er.
  - destruct (anchor_room_ok _ _ Hok Er) as [Hroom Hadd].
    cbn [anchor_used_bytes clear_markers with_markers with_generation]. rewrite Hadd.
    cbn [mbind option_bind].
    set (g1 := clear_markers _ (with_generation _ _)).
    destruct (admit_anchor ∅ c g1 r) as [Hi2 Hs2]; auto; [|by apply stable_same; simpl; auto; lia|lia|].
    { eapply (inner_ok_eq _ _ (next_generation (inner c))); [..|apply Hok]; auto. simpl. lia. }
    destruct (publish_ok ∅ c _ 1 Hok Hi2) as (c' & Hp & Hok' & _); [done|done|].
    exists InstalledAnchor, c'. split; [|done].
    by published Hp.
  - simpl in E1, E2. apply N.ltb_ge in E1.
    destruct (evict_after_alloc checked_sub ∅ c
      (clear_markers (gr_id r) (with_generation (next_generation (inner c) + 1) (inner c))) (byte_len r))
      as (g1 & Hev & Hi1 & He1 & Hs1 & Hroom & Habs1); auto using checked_sub_ok.
    { simpl. lia. }
    { by apply room_required. }
    rewrite Hev. cbn [mbind option_bind].
    destruct (admit_edge ∅ c g1 r) as (Hi2 & Hs2 & _); auto; [lia|by rewrite (ev_next _ _ _ He1)|].
    rewrite (edge_add_ok (lru_capacity_bytes c)); [|pose proof (ok_capacity _ Hok); lia|done].
    cbn [mbind option_bind].
    destruct (publish_ok ∅ c _ 1 Hok Hi2) as (c' & Hp & Hok' & _); [|done|].
    { simpl. rewrite (ev_next _ _ _ He1). done. }
    exists InstalledLru, c'. split; [|done]. by published Hp.
Qed.

Lemma op_ok_trans extra c c1 c2 :
  anchor (inner c1) = anchor (inner c) ->
  (forall k, lookup_admission k (inner c1) = lookup_admission k (inner c)) ->
  op_ok extra c c1 -> op_ok extra c1 c2 -> op_ok extra c c2.
Proof.
  intros Ha Hl [_ (Hc1 & Hc2 & Hc3) Hs1] [Hok (Hd1 & Hd2 & Hd3) Hs2].
  split; [done|split_and!; congruence|].
  eapply stable_pre; [done|done|apply Hs1|apply Hs1|done].
Qed.

Lemma touch_op_ok extra c id :
  let g := inner c in
  cache_ok c -> op_ok extra c (with_inner (with_lru (snd (lru_get id (lru_edge g))) (lru_used_bytes g) g) c).
Proof.
  intros g Hok. pose proof (touch_inner_ok _ _ _ id _ (ok_inner _ Hok)) as Ht. destruct Hok.
  split; [by split|done|]. apply stable_same; [done|apply touch_lookup|done|done].
Qed.

(** The admission of [promote_sync], once markers and recency are updated. *)
Lemma promote_fresh_ok r c :
  cache_ok c -> lookup_admission (gr_id r) (inner c) = None -> (0 < byte_len r)%N ->
  (anchor_has_room (byte_len r) c = false ->
     byte_len r <= lru_capacity_bytes c /\ lru_cannot_make_room (byte_len r) c = false)%N ->
  (next_generation (inner c) + 1 <= u64_max)%N ->
  let adm := {| resident := r; generation := next_generation (inner c) |} in
  let g := with_generation (next_generation (inner c) + 1) (inner c) in
  exists g2 c',
    (if anchor_has_room (byte_len r) c then
       used ← checked_add usize_max (anchor_used_bytes g) (byte_len r);
       Some (with_anchor (<[gr_id r := adm]> (anchor g)) used g)
     else
       g ← evict_until (evict_fuel g) saturating (lru_capacity_bytes c) (byte_len r) ∅ g;
       let '(already, l) := lru_put (gr_id r) adm (lru_edge g) in
       let used := match already with
         | Some prev => sat_sub (lru_used_bytes g) (adm_bytes prev)
         | None => lru_used_bytes g end in
       used ← checked_add usize_max used (byte_len r);
       Some (with_lru l used g)) = Some g2 /\
    refresh_used_bytes (count_promotions 1 (with_inner g2 c)) = Some c' /\ op_ok ∅ c c'.
Proof.
  intros Hok Habs Hpos Hfit Hgen adm g.
  destruct (anchor_has_room (byte_len r) c) eqn:Er.
  - destruct (anchor_room_ok _ _ Hok Er) as [Hroom Hadd]. cbn [g with_generation anchor_used_bytes].
    rewrite Hadd. cbn [mbind option_bind].
    destruct (admit_anchor ∅ c g r) as [Hi2 Hs2]; auto; [|by apply stable_same; simpl; auto; lia|].
    { eapply (inner_ok_eq _ _ (next_generation (inner c))); [..|apply Hok]; auto. simpl. lia. }
    destruct (publish_ok ∅ c _ 1 Hok Hi2) as (c' & Hp & Hok' & _); [done|done|]. eauto.
  - destruct (Hfit eq_refl) as [Hb Hr].
    destruct (evict_after_alloc saturating ∅ c g (byte_len r))
      as (g1 & Hev & Hi1 & He1 & Hs1 & Hroom & Habs1); auto using saturating_ok.
    { simpl. lia. }
    { by apply room_required. }
    rewrite Hev. cbn [mbind option_bind].
    pose proof (Habs1 _ Habs) as Hx. rewrite lookup_admission_eq in Hx.
    destruct (admit_edge ∅ c g1 r) as (Hi2 & Hs2 & _); auto; [by rewrite (ev_next _ _ _ He1)|].
    destruct (lru_put_law (gr_id r) adm (lru_edge g1)) as (Hput & _ & _).
    unfold adm in *. destruct (lru_put (gr_id r) _ (lru_edge g1)) as [already l].
    simpl in Hput, Hi2, Hs2. destruct (anchor g1 !! gr_id r); [done|]. rewrite Hx in Hput. subst already.
    rewrite (edge_add_ok (lru_capacity_bytes c)); [|pose proof (ok_capacity _ Hok); lia|done].
    cbn [mbind option_bind].
    destruct (publish_ok ∅ c (with_lru l (lru_used_bytes g1 + byte_len r) g1) 1 Hok Hi2) as (c' & Hp & Hok' & _); [|done|].
    { simpl. rewrite (ev_next _ _ _ He1). done. }
    eauto.
Qed.

Lemma promote_sync_ok r c :
  cache_ok c -> exists b c', promote_sync r c = Some (b, c') /\ op_ok ∅ c c'.
Proof.
  intros Hok. unfold promote_sync.
  set (g0 := clear_markers (gr_id r) (inner c)).
  assert (Hc0 : op_ok ∅ c (with_inner g0 c)) by by apply clear_markers_ok.
  destruct (N.eqb_spec (byte_len r) 0) as [|Hb]; [eauto|].
  unfold in_anchor. destruct (anchor g0 !! gr_id r) eqn:Ea; [eauto|].
  pose proof (touch_op_ok ∅ (with_inner g0 c) (gr_id r) (op_cache _ _ _ Hc0)) as Hc1.
  pose proof (touch_lookup (gr_id r) g0) as Htl.
  destruct (lru_get_law (gr_id r) (lru_edge g0)) as (Hget & _ & _).
  cbn [with_inner inner] in Hc1. destruct (lru_get (gr_id r) (lru_edge g0)) as [touched l]. simpl in Hget, Hc1, Htl.
  set (c1 := with_inner (with_lru l (lru_used_bytes g0) g0) (with_inner g0 c)) in *.
  assert (Hpre : forall c', op_ok ∅ c1 c' -> op_ok ∅ c c').
  { intros c' Hc'. apply (op_ok_trans _ _ (with_inner g0 c)); [done|done|done|].
    apply (op_ok_trans _ _ c1); [done|done|done|done]. }
  pose proof (op_cache _ _ _ Hc1) as Hok1.
  assert (Hrefuse : forall b : bool, exists b' c', Some (b, c1) = Some (b', c') /\ op_ok ∅ c c').
  { intros b. do 2 eexists. split; [reflexivity|]. by apply Hpre, op_ok_refl. }
  destruct touched as [a|]; [apply Hrefuse|].
  assert (Habs : lookup_admission (gr_id r) (inner c1) = None).
  { simpl. rewrite Htl, lookup_admission_eq, Ea. done. }
  destruct (negb (anchor_has_room _ c1) && (_ <? _)%N) eqn:E1; [apply Hrefuse|].
  destruct (negb (anchor_has_room _ c1) && lru_cannot_make_room _ c1) eqn:E2; [apply Hrefuse|].
  pose proof (alloc_cases (inner c1)) as Halloc.
  change (with_lru l (lru_used_bytes g0) g0) with (inner c1).
  destruct (allocate_generation (inner c1)) as [[gen g1]|]; [|apply Hrefuse].
  destruct Halloc as (-> & -> & Hgen).
  destruct (promote_fresh_ok r c1) as (g2 & c' & Heq & Hp & Hop); auto; [lia| |].
  { intros Hr. rewrite Hr in E1, E2. simpl in E1, E2. by apply N.ltb_ge in E1. }
  match goal with |- context [@mbind option _ _ _ _ ?x] =>
    replace x with (Some g2) by (symmetry; exact Heq)
  end.
  cbn [mbind option_bind]. exists true, c'. split; [by published Hp|]. auto.
Qed.

(** Entering the edge without eviction. *)
Lemma try_lru_ok r c :
  cache_ok c -> exists b c', try_promote_lru_no_evict r c = Some (b, c') /\ op_ok ∅ c c'.
Proof.
  intros Hok. unfold try_promote_lru_no_evict.
  destruct (N.eqb_spec (byte_len r) 0) as [|Hb]; [eauto using op_ok_refl|].
  destruct (in_anchor (gr_id r) (inner c) || in_lru (gr_id r) (inner c)) eqn:Ein.
  { do 2 eexists. split; [reflexivity|]. by apply clear_markers_ok. }
  apply orb_false_iff in Ein as [Ha He].
  destruct (absent_lookup _ _ Ha He) as [Hna Hne].
  assert (Habs : lookup_admission (gr_id r) (inner c) = None) by by rewrite lookup_admission_eq, Hna.
  pose proof (ok_capacity _ Hok) as Hcap.
  rewrite room_test by (unfold max_budget, usize_max, u64_max in *; lia).
  destruct (N.ltb_spec (lru_capacity_bytes c) (lru_used_bytes (inner c) + byte_len r)) as [|Hroom];
    [eauto using op_ok_refl|].
  pose proof (alloc_cases (inner c)) as Halloc.
  destruct (allocate_generation (inner c)) as [[gen g0]|]; [|eauto using op_ok_refl].
  destruct Halloc as (-> & -> & Hgen).
  set (g1 := clear_markers (gr_id r) (with_generation (next_generation (inner c) + 1) (inner c))).
  destruct (admit_edge ∅ c g1 r) as (Hi2 & Hs2 & _); auto; [|by apply stable_same; simpl; auto; lia|lia|].
  { eapply (inner_ok_eq _ _ (next_generation (inner c))); [..|apply Hok]; auto. simpl. lia. }
  rewrite (edge_add_ok (lru_capacity_bytes c)); [|lia|done].
  cbn [mbind option_bind].
  destruct (publish_ok ∅ c _ 1 Hok Hi2) as (c' & Hp & Hok' & _); [done|done|].
  exists true, c'. split; [|done]. by published Hp.
Qed.

Definition demand_lru_post r c (o : result GpuDemandAdmissionError bool) c' : Prop :=
  match o with
  | Err _ => c' = c
  | Ok false => c' = c /\ is_Some (lookup_admission (gr_id r) (inner c))
  | Ok true => lookup_admission (gr_id r) (inner c) = None /\
      lookup_admission (gr_id r) (inner c') =
        Some {| resident := r; generation := next_generation (inner c) |}
  end.

Lemma demand_lru_ok r c :
  cache_ok c -> exists o c', demand_admit_lru r c = Some (o, c') /\ op_ok ∅ c c' /\
    demand_lru_post r c o c'.
Proof.
  intros Hok. unfold demand_admit_lru.
  assert (Herr : forall e : GpuDemandAdmissionError, exists o c',
    Some (Err e : result GpuDemandAdmissionError bool, c) = Some (o, c') /\ op_ok ∅ c c' /\
    demand_lru_post r c o c').
  { intros e. do 2 eexists. split; [reflexivity|]. split; [by apply op_ok_refl|done]. }
  destruct (N.eqb_spec (byte_len r) 0) as [|Hb]; [apply Herr|].
  destruct (in_anchor (gr_id r) (inner c) || in_lru (gr_id r) (inner c)) eqn:Ein.
  { do 2 eexists. split; [reflexivity|]. split; [by apply op_ok_refl|]. split; [done|].
    unfold in_anchor, in_lru, lookup_admission in *.
    destruct (anchor (inner c) !! gr_id r); [eauto|].
    destruct (lru_peek (gr_id r) (lru_edge (inner c))); [eauto|done]. }
  apply orb_false_iff in Ein as [Ha He].
  destruct (absent_lookup _ _ Ha He) as [Hna Hne].
  assert (Habs : lookup_admission (gr_id r) (inner c) = None) by by rewrite lookup_admission_eq, Hna.
  destruct (N.ltb_spec (lru_capacity_bytes c) (byte_len r)) as [|Hfit]; [apply Herr|].
  destruct (checked_add usize_max (lru_used_bytes (inner c)) (byte_len r)) as [req|] eqn:Ereq; [|apply Herr].
  apply checked_add_Some in Ereq as [-> _].
  destruct (N.ltb_spec (unprotected_logical_lru_bytes (inner c) ∅)
    (sat_sub (lru_used_bytes (inner c) + byte_len r) (lru_capacity_bytes c))) as [|Hev]; [apply Herr|].
  pose proof (alloc_cases (inner c)) as Halloc.
  destruct (allocate_generation (inner c)) as [[gen g0]|]; [|apply Herr].
  destruct Halloc as (-> & -> & Hgen).
  destruct (evict_after_alloc saturating ∅ c (with_generation (next_generation (inner c) + 1) (inner c)) (byte_len r))
      as (g1 & Hr & Hi1 & He1 & Hs1 & Hroom & Habs1); auto using saturating_ok.
  { simpl. lia. }
  rewrite Hr. cbn [mbind option_bind].
  destruct (admit_edge ∅ c (clear_markers (gr_id r) g1) r) as (Hi2 & Hs2 & Hl2); auto.
  { by destruct Hi1; split. }
  { destruct Hs1 as [H1 H2 H3 H4 H5]. split; auto.
    intros k a Hk. destruct (H2 k a Hk) as [?|(? & ? & ?)]; [by left|right]. split_and!; [done..|].
    simpl. assert (k <> gr_id r) by congruence. set_solver. }
  { by apply Habs1. }
  { lia. }
  { simpl. by rewrite (ev_next _ _ _ He1). }
  change (lru_used_bytes (clear_markers (gr_id r) g1)) with (lru_used_bytes g1).
  rewrite (edge_add_ok (lru_capacity_bytes c)); [|pose proof (ok_capacity _ Hok); lia|done].
  cbn [mbind option_bind].
  destruct (publish_ok ∅ c _ 1 Hok Hi2) as (c' & Hp & Hok' & Hin); [|done|].
  { simpl. rewrite (ev_next _ _ _ He1). done. }
  exists (Ok true), c'. split; [by published Hp|]. split; [done|]. split; [done|].
  rewrite Hin, lookup_admission_eq, Hl2. cbn [with_lru anchor aget]. rewrite N.eqb_refl.
  pose proof (Habs1 _ Habs) as Hx. rewrite lookup_admission_eq in Hx.
  cbn [clear_markers with_markers anchor]. by destruct (anchor g1 !! gr_id r).
Qed.

(** *** Demand sets *)

Lemma insert_distinct_ok ids seen sel :
  insert_distinct ids seen = Ok sel ->
  NoDup ids /\ (forall id, id ∈ ids -> id ∉ seen) /\ sel = list_to_set ids ∪ seen.
Proof.
  revert seen. induction ids as [|id ids IH]; intros seen; simpl.
  { intros [= <-]. split_and!; [constructor|set_solver|set_solver]. }
  case_bool_decide as Hs; [done|]. intros (Hnd & Hni & ->)%IH. split_and!.
  - constructor; [|done]. intros Hin. apply (Hni _ Hin). set_solver.
  - intros k [->|Hk]%elem_of_cons; [done|]. specialize (Hni _ Hk). set_solver.
  - set_solver.
Qed.

Definition src_bytes (sources : gmap N GpuResident) (id : N) : N :=
  match sources !! id with Some s => byte_len s | None => 0%N end.

Definition source_ok c (sources : gmap N GpuResident) (id : N) : Prop :=
  lookup_admission id (inner c) = None /\
  exists s, sources !! id = Some s /\ gr_id s = id /\ (0 < byte_len s)%N.

Definition scanned c sources ids (s s' : demand_scan) : Prop :=
  exists ns ps, new_ids s' = new_ids s ++ ns /\ payload_required s' = payload_required s ++ ps /\
    new_bytes s' = (new_bytes s + sumN (src_bytes sources <$> ns))%N /\
    (new_bytes s' - new_bytes s <= selected_lru_bytes s' - selected_lru_bytes s)%N /\
    (selected_lru_bytes s <= selected_lru_bytes s')%N /\
    ns `sublist_of` ids /\ Forall (source_ok c sources) ns /\
    Forall (fun id => id ∈ ids /\ lookup_admission id (inner c) = None /\ sources !! id = None) ps /\
    Forall (fun id => is_Some (lookup_admission id (inner c)) \/ id ∈ ns \/ id ∈ ps) ids.

Lemma scan_one_ok c sources s id s' :
  scan_one c sources s id = Ok s' -> scanned c sources [id] s s'.
Proof.
  unfold scan_one, in_anchor. rewrite lru_peek_law. unfold scanned.
  destruct (anchor (inner c) !! id) as [a|] eqn:Ea.
  { intros [= <-]. exists [], []. rewrite !app_nil_r. simpl. split_and!; auto; try lia.
    - apply sublist_nil_l.
    - constructor; [|done]. left. rewrite lookup_admission_eq, Ea. eauto. }
  destruct (aget id (lru_iter (lru_edge (inner c)))) as [a|] eqn:El.
  { intros (b & Hb%ok_or_ok & [= <-])%result_bind_ok. apply checked_add_Some in Hb as [-> _].
    exists [], []. rewrite !app_nil_r. simpl. split_and!; auto; try lia.
    - apply sublist_nil_l.
    - constructor; [|done]. left. rewrite lookup_admission_eq, Ea, El. eauto. }
  assert (Hn : lookup_admission id (inner c) = None) by by rewrite lookup_admission_eq, Ea.
  destruct (sources !! id) as [src|] eqn:Es.
  2: { intros [= <-]. exists [], [id]. rewrite app_nil_r. simpl. split_and!; auto; try lia.
       - apply sublist_nil_l.
       - constructor; [|done]. split_and!; auto. set_solver.
       - constructor; [|done]. right. right. set_solver. }
  destruct (N.eqb_spec (gr_id src) id) as [Hid|]; [|done]. simpl.
  destruct (N.eqb_spec (byte_len src) 0); [done|].
  destruct (_ <? byte_len src)%N; [done|].
  intros (b & Hb%ok_or_ok & (nb & Hnb%ok_or_ok & [= <-])%result_bind_ok)%result_bind_ok.
  apply checked_add_Some in Hb as [-> _]. apply checked_add_Some in Hnb as [-> _].
  exists [id], []. rewrite app_nil_r. unfold src_bytes. csimpl. rewrite Es.
  split_and!; auto; try lia.
  - constructor; [|done]. split; [done|]. exists src. split_and!; auto. lia.
  - constructor; [|done]. right. left. set_solver.
Qed.

Lemma scan_set_ok c sources ids s s' :
  scan_set c sources ids s = Ok s' -> scanned c sources ids s s'.
Proof.
  revert s. induction ids as [|id ids IH]; intros s; simpl.
  { intros [= <-]. exists [], []. rewrite !app_nil_r. simpl. split_and!; auto; lia. }
  intros (s1 & (ns & ps & Hn & Hp & Hb & Hle & Hm & Hs & Hok & Hps & Hall)%scan_one_ok & H)%result_bind_ok.
  apply IH in H as (ns' & ps' & Hn' & Hp' & Hb' & Hle' & Hm' & Hs' & Hok' & Hps' & Hall').
  exists (ns ++ ns'), (ps ++ ps'). rewrite Hn', Hn, Hp', Hp, !app_assoc.
  rewrite fmap_app, sumN_app. split_and!; auto; try lia.
  - by apply (sublist_app ns [id] ns' ids).
  - by apply Forall_app.
  - apply Forall_app. split; (eapply Forall_impl; [eassumption|]); intros k (? & ? & ?); set_solver.
  - constructor; [|eapply Forall_impl; [exact Hall'|]; intros k; set_solver].
    apply Forall_cons in Hall as [Hall _]. set_solver.
Qed.

Lemma install_set_ok acap lcap extra sources g0 ids b g :
  (lcap <= max_budget)%N ->
  inner_ok acap lcap b g -> stable extra g0 g -> (next_generation g0 <= b)%N ->
  (b + N.of_nat (length ids) <= next_generation g)%N -> NoDup ids ->
  Forall (fun id => lookup_admission id g0 = None /\ lookup_admission id g = None /\
    exists s, sources !! id = Some s /\ gr_id s = id /\ (0 < byte_len s)%N) ids ->
  (lru_used_bytes g + sumN (src_bytes sources <$> ids) <= lcap)%N ->
  exists g', install_set sources ids b g = Some g' /\
    inner_ok acap lcap (b + N.of_nat (length ids)) g' /\ stable extra g0 g' /\
    next_generation g' = next_generation g /\
    (forall k, k ∉ ids -> lookup_admission k g' = lookup_admission k g) /\
    (forall k, k ∈ ids -> exists s n, sources !! k = Some s /\
       lookup_admission k g' = Some {| resident := s; generation := n |} /\ (b <= n)%N).
Proof.
  intros Hmax. revert b g. induction ids as [|id ids IH]; intros b g Hi Hs Hb Hn Hnd Hall Hsum.
  { exists g. simpl in *. rewrite N.add_0_r. split_and!; auto. intros k. set_solver. }
  apply NoDup_cons in Hnd as [Hni Hnd].
  apply Forall_cons in Hall as [(H0 & H1 & src & Hsrc & Hid & Hpos) Hall].
  csimpl in *. unfold src_bytes at 1 in Hsum. rewrite Hsrc in Hsum. simpl.
  rewrite Hsrc. cbn [mbind option_bind].
  set (adm := {| resident := src; generation := b |}).
  set (g1 := clear_markers id g).
  assert (Hi1 : inner_ok acap lcap b g1) by by destruct Hi; split.
  rewrite lookup_admission_eq in H1. destruct (anchor g !! id) eqn:Ea; [done|].
  destruct (put_edge acap lcap b g1 id src Hi1 Ea H1 Hid Hpos) as [Hi2 Hl]; [simpl; lia|simpl; lia|].
  rewrite (edge_add_ok lcap); [|done|simpl; lia]. cbn [mbind option_bind].
  set (g2 := with_lru _ _ g1) in *.
  assert (Hlk : forall k, lookup_admission k g2 = if (k =? id)%N then Some adm else lookup_admission k g).
  { intros k. unfold g2. by rewrite (lookup_put_edge id adm). }
  destruct (IH (b + 1)%N g2) as (g' & Hg' & Hi' & Hs' & Hn' & Hout & Hin); auto.
  - eapply (stable_put _ _ g g2 id adm); auto; simpl; set_solver.
  - lia.
  - simpl. lia.
  - rewrite Forall_forall in Hall |- *. intros k Hk. destruct (Hall k Hk) as (? & ? & ?).
    rewrite Hlk. destruct (N.eqb_spec k id) as [->|]; [done|]. auto.
  - simpl. lia.
  - exists g'. rewrite Hg'. split_and!; auto.
    + replace (b + N.of_nat (S (length ids)))%N with (b + 1 + N.of_nat (length ids))%N by lia. done.
    + intros k [Hne Hk]%not_elem_of_cons. rewrite Hout, Hlk by done.
      by destruct (N.eqb_spec k id).
    + intros k [->|Hk]%elem_of_cons.
      * exists src, b. rewrite Hout, Hlk, N.eqb_refl by done. split_and!; auto.
      * destruct (Hin k Hk) as (s & n & ? & ? & ?). exists s, n. split_and!; auto. lia.
Qed.

Definition demand_set_post c ids (sources : gmap N GpuResident)
    (o : result GpuDemandAdmissionError GpuDemandSetAdmission) c' : Prop :=
  match o with
  | Err _ => c' = c
  | Ok (PayloadRequired l) => c' = c /\ l <> [] /\
      Forall (fun id => id ∈ ids /\ lookup_admission id (inner c) = None /\ sources !! id = None) l
  | Ok (Ready adms n) => NoDup ids /\
      Forall2 (fun id a => lookup_admission id (inner c') = Some a) ids adms /\
      exists new, n = N.of_nat (length new) /\ new `sublist_of` ids /\
        Forall (fun id => if decide (id ∈ new)
          then lookup_admission id (inner c) = None /\ exists s m, sources !! id = Some s /\
                 lookup_admission id (inner c') = Some {| resident := s; generation := m |} /\
                 (next_generation (inner c) <= m)%N
          else exists a, lookup_admission id (inner c) = Some a /\
                 lookup_admission id (inner c') = Some a) ids
  end.

Lemma mapM_lookup ids g :
  Forall (fun id => is_Some (lookup_admission id g)) ids ->
  exists l, mapM (fun id => lookup_admission id g) ids = Some l /\
    Forall2 (fun id a => lookup_admission id g = Some a) ids l.
Proof.
  intros Hall. destruct (mapM (fun id => lookup_admission id g) ids) as [l|] eqn:E.
  - exists l. split; [done|]. by apply mapM_Some.
  - apply mapM_None in E. apply Exists_exists in E as (id & Hin & Hn).
    rewrite Forall_forall in Hall. destruct (Hall id Hin) as [a Ha]. congruence.
Qed.

(** A selected id is never evicted by its own transaction. *)
Lemma selected_kept ids c g' k a :
  stable (list_to_set ids) (inner c) g' -> k ∈ ids ->
  lookup_admission k (inner c) = Some a -> lookup_admission k g' = Some a.
Proof.
  intros Hs Hk Ha. destruct (st_kept _ _ _ Hs k a Ha) as [?|(_ & Hp & _)]; [done|].
  unfold logical_lru_is_protected in Hp. rewrite bool_decide_true in Hp by set_solver. done.
Qed.

Lemma demand_set_ready c ids sources ns :
  let g := inner c in
  cache_ok c -> NoDup ids -> ns `sublist_of` ids -> Forall (source_ok c sources) ns ->
  Forall (fun id => is_Some (lookup_admission id g) \/ id ∈ ns) ids ->
  (lru_used_bytes g + sumN (src_bytes sources <$> ns) - lru_capacity_bytes c <=
     unprotected_logical_lru_bytes g (list_to_set ids))%N ->
  (next_generation g + N.of_nat (length ns) <= u64_max)%N ->
  exists g1 g2 adms,
    evict_until (evict_fuel g) checked_sub (lru_capacity_bytes c) (sumN (src_bytes sources <$> ns))
      (list_to_set ids) g = Some g1 /\
    install_set sources ns (next_generation g1)
      (with_generation (next_generation g + N.of_nat (length ns)) g1) = Some g2 /\
    mapM (fun id => lookup_admission id g2) ids = Some adms /\
    inner_ok (anchor_capacity_bytes c) (lru_capacity_bytes c) (next_generation g2) g2 /\
    next_generation g2 = (next_generation g + N.of_nat (length ns))%N /\
    stable (list_to_set ids) g g2 /\
    forall c', inner c' = g2 ->
      demand_set_post c ids sources (Ok (Ready adms (N.of_nat (length ns)))) c'.
Proof.
  intros g Hok Hnd Hsub Hsrc Hall Hev Hgen.
  destruct (evict_after_alloc checked_sub (list_to_set ids) c g (sumN (src_bytes sources <$> ns)))
    as (g1 & Hr & Hi1 & He1 & Hs1 & Hroom & Habs1); auto using checked_sub_ok.
  set (ga := with_generation (next_generation g + N.of_nat (length ns)) g1).
  destruct (install_set_ok (anchor_capacity_bytes c) (lru_capacity_bytes c) (list_to_set ids) sources g ns
    (next_generation g) ga) as (g2 & Hg2 & Hi2 & Hs2 & Hn2 & Hout & Hin); auto.
  - pose proof (ok_capacity _ Hok). lia.
  - eapply (inner_ok_eq _ _ (next_generation g) _ g1); simpl; auto. lia.
  - destruct Hs1 as [H1 H2 H3 H4 H5]. split; auto. simpl. lia.
  - by eapply sublist_NoDup.
  - eapply Forall_impl; [exact Hsrc|]. intros k [Hk Hs]. split_and!; auto. by apply (Habs1 k).
  - assert (Hns : Forall (fun id => is_Some (lookup_admission id g2)) ids).
    { rewrite Forall_forall in Hall |- *. intros k Hk. destruct (decide (k ∈ ns)) as [Hkn|Hkn].
      - destruct (Hin k Hkn) as (s & n & _ & -> & _). eauto.
      - destruct (Hall k Hk) as [[a Ha]|]; [|done]. rewrite (selected_kept ids c g2 k a); eauto. }
    destruct (mapM_lookup ids g2 Hns) as (adms & Hm & Hf2).
    exists g1, g2, adms. rewrite (ev_next _ _ _ He1). split_and!; auto.
    { rewrite Hn2. exact Hi2. }
    intros c' Hc'. simpl. rewrite Hc'. split; [done|]. split; [done|]. exists ns. split_and!; auto.
    rewrite Forall_forall in Hall |- *. intros k Hk. destruct (decide (k ∈ ns)) as [Hkn|Hkn].
    + rewrite Forall_forall in Hsrc. split; [apply Hsrc, Hkn|]. destruct (Hin k Hkn) as (s & n & ? & ? & ?). eauto.
    + destruct (Hall k Hk) as [[a Ha]|]; [|done]. exists a. split; [done|]. by eapply selected_kept.
Qed.

Lemma evict_none acap b lcap sub extra fuel g :
  inner_ok acap lcap b g -> (lcap <= usize_max)%N ->
  evict_until fuel sub lcap 0 extra g = Some g.
Proof.
  intros Hi Hmax. pose proof (ok_edge_budget _ _ _ _ Hi).
  destruct fuel; cbn [evict_until]; rewrite room_test by done;
    destruct (N.ltb_spec lcap (lru_used_bytes g + 0)); [lia|done|lia|done].
Qed.

Lemma demand_set_ok ids sources c :
  cache_ok c -> exists o c', demand_admit_set ids sources c = Some (o, c') /\
    op_ok (list_to_set ids) c c' /\ demand_set_post c ids sources o c'.
Proof.
  intros Hok. unfold demand_admit_set.
  assert (Hsame : forall o, demand_set_post c ids sources o c -> exists o' c', Some (o, c) = Some (o', c') /\
    op_ok (list_to_set ids) c c' /\ demand_set_post c ids sources o' c').
  { intros o Ho. exists o, c. split; [done|]. split; [by apply op_ok_refl|done]. }
  match goal with |- context [match ?x with Ok _ => _ | Err _ => _ end] =>
    destruct x as [[sel s]|e] eqn:Escan end; [|by apply Hsame].
  apply result_bind_ok in Escan as (sel' & Hsel & (s' & Hscan & [= -> ->])%result_bind_ok).
  apply insert_distinct_ok in Hsel as (Hnd & _ & ->). rewrite union_empty_r_L.
  apply scan_set_ok in Hscan as (ns & ps & Hns & Hps & Hnb & Hle & _ & Hsub & Hsrc & Hreq & Hall).
  cbn [new_ids payload_required new_bytes selected_lru_bytes app] in Hns, Hps, Hnb, Hle. rewrite N.add_0_l in Hnb. rewrite Hns, Hps.
  case_bool_decide as Hpe; [|by apply Hsame]. rewrite Hpe in Hall. cbn [negb].
  destruct (_ <? selected_lru_bytes s)%N eqn:Esel; [by apply Hsame|]. apply N.ltb_ge in Esel.
  destruct (checked_add usize_max (lru_used_bytes (inner c)) (new_bytes s)) as [req|] eqn:Ereq;
    [|by apply Hsame].
  apply checked_add_Some in Ereq as [-> _].
  destruct (N.ltb_spec (unprotected_logical_lru_bytes (inner c) (list_to_set ids))
    (sat_sub (lru_used_bytes (inner c) + new_bytes s) (lru_capacity_bytes c))) as [|Hev]; [by apply Hsame|].
  destruct (checked_add u64_max (next_generation (inner c)) (N.of_nat (length ns))) as [next|] eqn:Enext;
    [|by apply Hsame].
  apply checked_add_Some in Enext as [-> Hnext]. unfold sat_sub in Hev. rewrite Hnb in *.
  destruct (demand_set_ready c ids sources ns) as (g1 & g2 & adms & Hevq & Hins & Hm & Hi & Hn & Hst & Hpost); auto.
  { eapply Forall_impl; [exact Hall|]. intros k [?|[?|[]%not_elem_of_nil]]; [by left|by right]. }
  rewrite Hevq. cbn [mbind option_bind]. rewrite Hins. cbn [mbind option_bind]. rewrite Hm. cbn [mbind option_bind].
  destruct (N.ltb_spec 0 (N.of_nat (length ns))) as [Hpos|Hzero].
  - destruct (publish_ok (list_to_set ids) c g2 (N.of_nat (length ns)) Hok Hi) as (c' & Hp & Hok' & Hc');
      [by rewrite Hn|done|].
    rewrite Hp. cbn [mbind option_bind]. eauto 10.
  - exists (Ok (Ready adms (N.of_nat (length ns)))), (with_inner g2 c). split; [done|].
    split; [|by apply Hpost]. destruct ns; [|simpl in Hzero; lia].
    cbn [install_set] in Hins. change (sumN (src_bytes sources <$> [])) with 0%N in Hevq.
    split; [|done|done]. destruct Hok as [Hio Hnu Hcap Hga].
    split; [done|simpl; rewrite Hn; simpl; lia|done|]. simpl. rewrite Hga.
    rewrite (evict_none (anchor_capacity_bytes c) (next_generation (inner c))) in Hevq; [|done|].
    + injection Hevq as <-. injection Hins as <-. done.
    + unfold max_budget, usize_max, u64_max in *. lia.
Qed.

(** *** Protections *)

Lemma occurrences_app k l1 l2 : occurrences k (l1 ++ l2) = (occurrences k l1 + occurrences k l2)%N.
Proof. induction l1 as [|x l1 IH]; simpl; [done|]. rewrite IH. lia. Qed.

Lemma occurrences_bound k l : (occurrences k l <= N.of_nat (length l))%N.
Proof. induction l as [|x l IH]; simpl; [done|]. destruct (k =? x)%N; lia. Qed.

Lemma counts_ext p f f' : (forall k, f k = f' k) -> counts_ok p f -> counts_ok p f'.
Proof. intros Hf Hp k. by rewrite <-Hf, Hp. Qed.

Lemma add_protections_ok ids p f :
  counts_ok p f -> (forall k, f k + occurrences k ids <= usize_max)%N ->
  exists p', add_protections ids p = Some p' /\ counts_ok p' (fun k => f k + occurrences k ids)%N.
Proof.
  revert p f. induction ids as [|id ids IH]; intros p f Hp Hb; simpl.
  { exists p. split; [done|]. eapply counts_ext; [|done]. simpl. lia. }
  assert (Hd : default 0%N (p !! id) = f id).
  { rewrite Hp. destruct (N.eqb_spec (f id) 0); simpl; congruence. }
  rewrite Hd. unfold checked_add.
  pose proof (Hb id) as Hbi. simpl in Hbi. rewrite N.eqb_refl in Hbi.
  destruct (N.leb_spec (f id + 1) usize_max) as [_|?]; [|lia]. cbn [mbind option_bind].
  destruct (IH (<[id := (f id + 1)%N]> p) (fun k => f k + if k =? id then 1 else 0)%N) as (p' & -> & Hp').
  - intros k. destruct (N.eqb_spec k id) as [->|Hne].
    + rewrite lookup_insert_eq. destruct (N.eqb_spec (f id + 1) 0); [lia|done].
    + rewrite lookup_insert_ne, N.add_0_r by done. apply Hp.
  - intros k. specialize (Hb k). simpl in Hb. lia.
  - exists p'. split; [done|]. eapply counts_ext; [|exact Hp']. simpl. lia.
Qed.

Lemma release_protections_ok ids p f :
  counts_ok p f -> (forall k, occurrences k ids <= f k)%N ->
  exists p', release_protections ids p = Some p' /\ counts_ok p' (fun k => f k - occurrences k ids)%N.
Proof.
  revert p f. induction ids as [|id ids IH]; intros p f Hp Hb; simpl.
  { exists p. split; [done|]. eapply counts_ext; [|done]. simpl. lia. }
  pose proof (Hb id) as Hbi. simpl in Hbi. rewrite N.eqb_refl in Hbi.
  rewrite (Hp id). destruct (N.eqb_spec (f id) 0) as [|Hf]; [lia|]. cbn [mbind option_bind].
  unfold checked_sub. destruct (N.leb_spec 1 (f id)) as [_|?]; [|lia]. cbn [mbind option_bind].
  destruct (IH (if (f id - 1 =? 0)%N then delete id p else <[id := (f id - 1)%N]> p)
    (fun k => f k - if k =? id then 1 else 0)%N) as (p' & -> & Hp').
  - intros k. destruct (N.eqb_spec k id) as [->|Hne].
    + destruct (N.eqb_spec (f id - 1) 0); [apply lookup_delete_eq|apply lookup_insert_eq].
    + rewrite N.sub_0_r. destruct (f id - 1 =? 0)%N; [rewrite lookup_delete_ne|rewrite lookup_insert_ne]; done.
  - intros k. specialize (Hb k). simpl in Hb. destruct (k =? id)%N; lia.
  - exists p'. split; [done|]. eapply counts_ext; [|exact Hp']. simpl. intros k. lia.
Qed.

(** An operation may only drop protected admissions if it is not theirs. *)
Lemma stable_weaken extra g g' : stable extra g g' -> stable ∅ g g'.
Proof.
  intros [H1 H2 H3 H4 H5]. split; auto. intros k a Hk.
  destruct (H2 k a Hk) as [?|(? & Hp & ?)]; [by left|right]. split_and!; auto.
  unfold logical_lru_is_protected in *. apply orb_false_iff in Hp as [_ Hp].
  rewrite Hp. by rewrite bool_decide_false by set_solver.
Qed.

Lemma op_world extra w c' :
  world_ok w -> op_ok extra (cache w) c' -> world_ok (on_cache w c').
Proof.
  intros [_ Hp] [Hok _ Hs]. split; [done|]. simpl. by rewrite (st_prot _ _ _ Hs).
Qed.

Definition retains g g' : Prop :=
  anchor g ⊆ anchor g' /\
  (forall k a, lookup_admission k g = Some a ->
     lookup_admission k g' = Some a \/
     (lookup_admission k g' = None /\ protected g ∅ k = false /\ k ∈ promotion_rearm g')) /\
  (forall k a, lookup_admission k g' = Some a ->
     lookup_admission k g = Some a \/ (next_generation g <= generation a)%N) /\
  (next_generation g <= next_generation g')%N.

Lemma stable_retains extra g g' : stable extra g g' -> retains g g'.
Proof. intros [? ? ? ? ?]%stable_weaken. by split_and!. Qed.

Lemma retains_prot g p : retains g (with_protections p g).
Proof. split_and!; [done| | |done]; auto. Qed.

Lemma protections_world w p gs :
  world_ok w -> protections_ok p gs ->
  world_ok {| cache := with_inner (with_protections p (inner (cache w))) (cache w); guards := gs |}.
Proof.
  intros [[Hi Hn Hc Hg] _] Hp. split; [|done]. split; [by destruct Hi; split|done..].
Qed.

Lemma run_ok o w :
  world_ok w -> (refs w + op_refs o <= usize_max)%N ->
  exists w', run o w = Some w' /\ world_ok w' /\ (refs w' <= refs w + op_refs o)%N /\
    retains (inner (cache w)) (inner (cache w')).
Proof.
  intros Hok Hrefs.
  assert (Hop : forall extra c', op_ok extra (cache w) c' ->
    world_ok (on_cache w c') /\ (refs (on_cache w c') <= refs w + op_refs o)%N /\
    retains (inner (cache w)) (inner (cache (on_cache w c')))).
  { intros extra c' Hc'. split_and!; [by eapply op_world|unfold refs; simpl; lia|].
    apply (stable_retains extra), Hc'. }
  destruct o as [id|id h|id|id|r|r|r|r|ids sources|ids|i]; cbn [run].
  - eexists. split; [reflexivity|]. by apply (Hop ∅), get_ok, Hok.
  - eexists. split; [reflexivity|]. by apply (Hop ∅), claim_ok, Hok.
  - eexists. split; [reflexivity|]. by apply (Hop ∅), cancel_ok, Hok.
  - destruct (hot_existing_ok id (cache w) (proj1 Hok)) as (o & c' & -> & Hc'). cbn. eauto.
  - destruct (hot_sync_ok r (cache w) (proj1 Hok)) as (o & c' & -> & Hc'). cbn. eauto.
  - destruct (promote_sync_ok r (cache w) (proj1 Hok)) as (o & c' & -> & Hc'). cbn. eauto.
  - destruct (try_lru_ok r (cache w) (proj1 Hok)) as (o & c' & -> & Hc'). cbn. eauto.
  - destruct (demand_lru_ok r (cache w) (proj1 Hok)) as (o & c' & -> & Hc' & _). cbn. eauto.
  - destruct (demand_set_ok ids sources (cache w) (proj1 Hok)) as (o & c' & -> & Hc' & _). cbn. eauto.
  - unfold protect_demand_set. destruct (insert_distinct ids ∅) as [sel|e]; cbn.
    2: { eexists. split; [reflexivity|]. apply (Hop ∅ (cache w)), op_ok_refl, Hok. }
    pose proof Hok as [_ Hp]. unfold refs in *. simpl in Hrefs.
    destruct (add_protections_ok ids _ _ Hp) as (p' & -> & Hp').
    { intros k. pose proof (occurrences_bound k (concat (guards w))). pose proof (occurrences_bound k ids). lia. }
    cbn. eexists. split; [reflexivity|].
    split_and!; [|unfold refs; simpl; rewrite length_app; lia|apply retains_prot].
    apply protections_world; [done|]. eapply counts_ext; [|exact Hp'].
    intros k. cbn [concat]. rewrite occurrences_app. lia.
  - destruct (guards w !! i) as [ids|] eqn:Ei.
    2: { eexists. split; [reflexivity|]. destruct w. apply (Hop ∅ _), op_ok_refl, Hok. }
    pose proof (take_drop_middle _ _ _ Ei) as Hg. unfold drop_protection.
    pose proof Hok as [_ Hp].
    assert (Hocc : forall k, occurrences k (concat (guards w)) =
      (occurrences k ids + occurrences k (concat (take i (guards w) ++ drop (S i) (guards w))))%N).
    { intros k. rewrite <-Hg at 1. rewrite !concat_app. cbn [concat]. rewrite !occurrences_app. lia. }
    assert (Hlen : length (concat (guards w)) =
      length ids + length (concat (take i (guards w) ++ drop (S i) (guards w)))).
    { rewrite <-Hg at 1. rewrite !concat_app. cbn [concat]. rewrite !length_app. lia. }
    destruct (release_protections_ok ids _ _ Hp) as (p' & -> & Hp').
    { intros k. rewrite Hocc. lia. }
    cbn. eexists. split; [reflexivity|]. split_and!; [| |apply retains_prot].
    + apply protections_world; [done|]. eapply counts_ext; [|exact Hp'].
      intros k. cbn beta. rewrite Hocc. lia.
    + unfold refs. cbn [guards]. rewrite Hlen. lia.
Qed.

Lemma fresh_ok capacity ratio n :
  (capacity_bytes (new capacity ratio n) <= max_budget)%N -> world_ok (fresh capacity ratio n).
Proof.
  intros Hcap. destruct (lru_unbounded_iter (V:=GpuAdmission)) as [Hi Hc].
  split; [|intros k; apply lookup_empty]. split; simpl; [|done|done|done].
  assert (Hempty : (map_to_list (∅ : gmap N GpuAdmission)) = []) by apply map_to_list_empty.
  split; unfold generations, edge_list, anchor_list; simpl; rewrite ?Hi, ?Hempty; try done; try lia.
  split; constructor.
Qed.

Lemma run_all_ok os w :
  world_ok w -> (refs w + sumN (op_refs <$> os) <= usize_max)%N ->
  exists w', run_all os w = Some w' /\ world_ok w'.
Proof.
  revert w. induction os as [|o os IH]; intros w Hok Hr; [eauto|]. csimpl in *.
  destruct (run_ok o w Hok) as (w1 & -> & Hok1 & Hr1 & _); [lia|]. cbn [mbind option_bind].
  apply IH; [done|lia].
Qed.

(** C8. The cache never panics and keeps its books.  From a fresh cache whose
    budget is at most 2^62 bytes, every sequence of operations (lookups,
    promotion claims, promotions, demand admissions, demand sets, guards
    taken and dropped) runs to completion: no [expect] fires and no eviction
    loop runs out of victims.  In the state reached the two regions are
    disjoint and keyed by id, their byte counters are the exact sums and
    within their budgets, every live generation is unique and the gauge is the
    sum of both regions (provided fewer than 2^64 guard references are
    taken). *)
Theorem gpu_cache_never_panics capacity ratio n os :
  (capacity_bytes (new capacity ratio n) <= max_budget)%N ->
  (sumN (op_refs <$> os) <= usize_max)%N ->
  exists w, run_all os (fresh capacity ratio n) = Some w /\ world_ok w.
Proof. intros Hc Hr. apply run_all_ok; [by apply fresh_ok|]. unfold refs. simpl. lia. Qed.

(** What one client's operation may do to the others' admissions: anchored
    admissions are never evicted nor replaced; an edge admission keeps its
    payload and generation (also when it graduates), or disappears while no
    guard protects it and is then marked for re-promotion; every admission
    that is new carries a generation that was never used before. *)
Theorem gpu_ops_retain o w w' :
  world_ok w -> (refs w + op_refs o <= usize_max)%N -> run o w = Some w' ->
  retains (inner (cache w)) (inner (cache w')).
Proof.
  intros Hok Hr Hrun. destruct (run_ok o w Hok Hr) as (w1 & Hw1 & _ & _ & Hret). congruence.
Qed.

(** A demand set is one atomic transaction: it either leaves the cache exactly
    as it was (every error, and the request for missing payloads, which
    names selected ids that are neither admitted nor supplied), or every
    selected id is admitted, existing admissions unchanged and the others
    installed from their own sources under unused generations. *)
Theorem demand_admit_set_atomic ids sources c :
  cache_ok c ->
  exists o c', demand_admit_set ids sources c = Some (o, c') /\ cache_ok c' /\
    demand_set_post c ids sources o c'.
Proof.
  intros Hok. destruct (demand_set_ok ids sources c Hok) as (o & c' & Hr & Hop & Hp).
  exists o, c'. split; [done|]. split; [apply Hop|done].
Qed.

Definition is_release (o : op) : bool := match o with OpRelease _ => true | _ => false end.

Lemma run_guards o w w' :
  is_release o = false -> run o w = Some w' -> forall ids, ids ∈ guards w -> ids ∈ guards w'.
Proof.
  intros Hnr Hrun ids Hin.
  assert (Hb : forall {A} (m : option A) (f : A -> world), (forall x, guards (f x) = guards w) ->
    (x ← m; Some (f x)) = Some w' -> ids ∈ guards w').
  { intros A [x|] f Hf [= <-]. by rewrite Hf. }
  destruct o; simpl in *; try (by injection Hrun as <-); try done.
  1-6: match type of Hrun with mbind _ ?m = _ => destruct m as [[? ?]|] end;
    [by injection Hrun as <-|done].
  destruct (protect_demand_set _ _) as [[[g|e] c]|]; simpl in Hrun; [..|done];
    injection Hrun as <-; simpl; [by right|done].
Qed.

Lemma guard_protected w ids k :
  world_ok w -> ids ∈ guards w -> k ∈ ids -> protected (inner (cache w)) ∅ k = true.
Proof.
  intros [_ Hp] Hg Hk. unfold logical_lru_is_protected. rewrite (Hp k).
  assert (Hocc : (0 < occurrences k (concat (guards w)))%N).
  { assert (Hin : k ∈ concat (guards w)).
    { apply list_elem_of_split in Hg as (l1 & l2 & ->). rewrite concat_app. cbn [concat]. set_solver. }
    induction (concat (guards w)) as [|x l IH]; [by inversion Hin|]. simpl.
    destruct (N.eqb_spec k x); [lia|]. apply elem_of_cons in Hin as [|Hin]; [done|]. specialize (IH Hin). lia. }
  destruct (N.eqb_spec (occurrences k (concat (guards w))) 0); [lia|].
  destruct (N.ltb_spec 0 (occurrences k (concat (guards w)))); [|lia]. apply orb_true_r.
Qed.

(** A live demand-set guard keeps what it protects: an id it names that is
    admitted stays admitted, with the same payload and generation, through
    every sequence of operations in which no guard is dropped. *)
Theorem guard_keeps_admissions os w w' ids k a :
  world_ok w -> (refs w + sumN (op_refs <$> os) <= usize_max)%N ->
  forallb (fun o => negb (is_release o)) os = true -> run_all os w = Some w' ->
  ids ∈ guards w -> k ∈ ids ->
  current_admission k (cache w) = Some a -> current_admission k (cache w') = Some a.
Proof.
  revert w. induction os as [|o os IH]; intros w Hok Hr Hnr Hrun Hg Hk Ha; csimpl in *.
  { by simplify_eq. }
  apply andb_true_iff in Hnr as [Ho%negb_true_iff Hnr].
  destruct (run_ok o w Hok) as (w1 & Hw1 & Hok1 & Hr1 & _ & Hkept & _); [lia|].
  rewrite Hw1 in Hrun. cbn [mbind option_bind] in Hrun.
  eapply (IH w1); eauto; [lia|by eapply run_guards|].
  destruct (Hkept k a Ha) as [?|(_ & Hp & _)]; [done|].
  rewrite (guard_protected w ids k) in Hp; done.
Qed.

(** Promotion requests are claimed at most once: a claim succeeds only for an
    expert not anchored and not already pending whose hit count just reached
    the threshold or that was re-armed (by an eviction or a cancelled
    request); it then blocks every further claim until the request is
    cancelled, and cancelling re-arms it. *)
Theorem claim_promotion_once id h h' c :
  let '(claimed, c') := claim_promotion id h c in
  (claimed = true <->
     should_promote h c = true /\ in_anchor id (inner c) = false /\
     (id ∉ promotion_pending (inner c)) /\
     (h = promote_after_hits c \/ id ∈ promotion_rearm (inner c))) /\
  (claimed = true ->
     fst (claim_promotion id h' c') = false /\
     (should_promote h' c = true -> fst (claim_promotion id h' (cancel_promotion id c')) = true)) /\
  lru_edge (inner c') = lru_edge (inner c) /\ anchor (inner c') = anchor (inner c).
Proof.
  unfold claim_promotion at 1. destruct (should_promote h c) eqn:Es; simpl; [|naive_solver].
  destruct (in_anchor id (inner c)) eqn:Ea; simpl; [naive_solver|].
  case_bool_decide as Hp; simpl; [naive_solver|].
  destruct (N.eqb_spec h (promote_after_hits c)) as [Hh|Hh]; simpl;
    [|case_bool_decide as Hr; simpl; [|naive_solver]].
  all: split_and!; try done; [naive_solver|].
  all: intros _; unfold claim_promotion, cancel_promotion, should_promote, in_anchor in *; simpl;
    rewrite (bool_decide_true (id ∈ {[id]} ∪ promotion_pending (inner c))) by set_solver.
  all: split; [destruct (negb _); [done|]; by rewrite orb_true_r|].
  all: intros H; simpl; rewrite H; simpl; rewrite Ea, bool_decide_false by set_solver; simpl.
  all: rewrite (bool_decide_true (id ∈ _)) by set_solver; rewrite andb_false_r; simpl.
  all: done.
Qed.
End ops.

(** ** Witnesses *)

Module Witness.
#[local] Existing Instances ListLru.list_lru ListLru.list_lru_laws.

Definition half : f32 := S754_finite false 8388608 (-24).
Definition sized (id : N) (n : nat) : GpuResident := GpuResident_new id (replicate n x07).
Definition sources : gmap N GpuResident := {[2%N := sized 2 2; 3%N := sized 3 2]}.

(** Budget 10, half of it anchored: 1 is anchored, 2 and 3 are a demand set
    under a guard, and a demand for 4 would have to evict one of them. *)
Definition sample_ops : list op :=
  [OpPromote (sized 1 4); OpProtect [2; 3]%N; OpDemandSet [1; 2; 3]%N sources;
   OpDemandLru (sized 4 3); OpHotSync (sized 5 2); OpGet 3].

Definition sample_world : world :=
  default (fresh 0 half 0) (run_all sample_ops (fresh 10 half 2)).

Lemma gpu_cache_never_panics_witness :
  exists w, run_all sample_ops (fresh 10 half 2) = Some w /\ world_ok w.
Proof. apply gpu_cache_never_panics; vm_compute; discriminate. Defined.

(** The second hit claims; the third does not, until the request is cancelled. *)
Lemma claim_promotion_once_witness :
  let c := cache (fresh 10 half 2) in
  fst (claim_promotion 7 2 c) = true /\ fst (claim_promotion 7 3 (snd (claim_promotion 7 2 c))) = false.
Proof.
  intros c. pose proof (claim_promotion_once 7 2 3 c) as H.
  assert (E : fst (claim_promotion 7 2 c) = true) by (vm_compute; reflexivity).
  destruct (claim_promotion 7 2 c) as [b c']. simpl in E. subst b. destruct H as (_ & H & _).
  split; [reflexivity|]. exact (proj1 (H eq_refl)).
Defined.

Lemma sample_ok : world_ok sample_world /\ (refs sample_world = 2)%N.
Proof.
  destruct (run_all_ok sample_ops (fresh 10 half 2)) as (w & Hw & Hok).
  - apply fresh_ok. vm_compute. discriminate.
  - vm_compute. discriminate.
  - split; [|vm_compute; reflexivity]. unfold sample_world. by rewrite Hw.
Qed.

Lemma gpu_ops_retain_witness :
  retains (inner (cache sample_world))
    (inner (cache (default (fresh 0 half 0) (run (OpRelease 0) sample_world)))).
Proof.
  refine (gpu_ops_retain (OpRelease 0) sample_world _ (proj1 sample_ok) _ _).
  - vm_compute. discriminate.
  - vm_compute. reflexivity.
Defined.

Lemma demand_admit_set_atomic_witness :
  exists c', demand_admit_set [7; 1]%N {[7%N := sized 7 3]} (cache sample_world) =
    Some (Err (ProtectedDemandCapacity 7 4 5), c') /\ c' = cache sample_world.
Proof.
  destruct (demand_admit_set_atomic [7; 1]%N {[7%N := sized 7 3]} (cache sample_world)
    (proj1 (proj1 sample_ok))) as (o & c' & Hr & _ & Hp).
  assert (E : fst <$> demand_admit_set [7; 1]%N {[7%N := sized 7 3]} (cache sample_world) =
    Some (Err (ProtectedDemandCapacity 7 4 5))) by (vm_compute; reflexivity).
  rewrite Hr in E. injection E as ->. exists c'. split; [exact Hr|exact Hp].
Defined.

Lemma guard_keeps_admissions_witness :
  exists w', run_all [OpDemandLru (sized 8 5); OpTryLru (sized 9 1)] sample_world = Some w' /\
    current_generation 2 (cache w') = Some 2%N.
Proof.
  destruct (run_all_ok [OpDemandLru (sized 8 5); OpTryLru (sized 9 1)] sample_world (proj1 sample_ok))
    as (w' & Hw & _); [vm_compute; discriminate|].
  assert (Ha : current_admission 2 (cache w') = Some {| resident := sized 2 2; generation := 2 |}).
  { refine (guard_keeps_admissions [OpDemandLru (sized 8 5); OpTryLru (sized 9 1)] sample_world w'
      [2; 3]%N 2 {| resident := sized 2 2; generation := 2 |} (proj1 sample_ok) _ _ Hw _ _ _).
    - vm_compute. discriminate.
    - vm_compute. reflexivity.
    - vm_compute. left.
    - left.
    - vm_compute. reflexivity. }
  exists w'. split; [exact Hw|]. unfold current_generation, current_admission in *. rewrite Ha. reflexivity.
Defined.
End Witness.

(** The split of the budget is computed in [f32]: rounding up, the anchor core alone
    can exceed the configured capacity, and the budget reported with it. *)
Example anchor_budget_exceeds_capacity :
  let _ := ListLru.list_lru GpuAdmission in
  anchor_capacity_bytes (new 33554431 f32_one 1) = 33554432%N /\
  capacity_bytes (new 33554431 f32_one 1) = 33554432%N.
Proof. vm_compute. auto. Qed.
