(* ===== verification/MultiLayerCache.v ===== *)
(** The per-layer expert caches ([src/rust-engine/src/multi_layer_cache.rs]) and
    the exact-demand transaction over them.

    [plan_sequential_victims] predicts, on lists of virtual entries, what
    fetching the requested experts one by one would evict; the transaction
    [try_reserve_exact_demand] removes exactly the resident victims of that plan
    and takes reservations for the requests that survive it.  [fetch_once_cache]
    is the cache part of the engine's sequential miss path
    ([src/rust-engine/src/engine.rs], [fetch_once]). *)
From S2P Require Import Prelude Floats Lru TensorHeader BufferPool ExpertCache.

(** ** Virtual entries and the plan *)

Inductive VirtualCacheEntry :=
| Resident (id : N) (pin : bool)
| OutstandingReservation
| Requested (id : N) (request_index : nat) (pin : bool).

Definition entry_pinned (e : VirtualCacheEntry) : bool :=
  match e with Resident _ p | Requested _ _ p => p | OutstandingReservation => false end.

Record SequentialVictimPlan := {
  eviction_ids : list N;
  resident_victims : list (nat * N);
  request_final_layers : list (option nat);
  final_layer_lengths : list N;
}.

(** [iter().rposition(..)]. *)
Fixpoint rposition {A} (f : A -> bool) (l : list A) : option nat :=
  match l with
  | [] => None
  | x :: l' => match rposition f l' with
               | Some i => Some (S i)
               | None => if f x then Some 0%nat else None
               end
  end.

(** The mutable state of the planning loop. *)
Record plan_state := {
  p_layers : list (list VirtualCacheEntry);
  p_total : N;
  p_evictions : list N;
  p_victims : list (nat * N);
  p_finals : list (option nat);
}.

Definition remove_victim (layer : nat) (s : plan_state)
  : result ExpertCacheReservationError (bool * plan_state) :=
  let entries := p_layers s !!! layer in
  match rposition (fun e => negb (entry_pinned e)) entries with
  | None => Ok (false, s)
  | Some index =>
      let layers := <[layer := delete index entries]> (p_layers s) in
      match entries !! index with
      | Some (Resident id _) =>
          Ok (true, {| p_layers := layers; p_total := p_total s; p_evictions := p_evictions s ++ [id];
                       p_victims := p_victims s ++ [(layer, id)]; p_finals := p_finals s |})
      | Some (Requested id request_index _) =>
          Ok (true, {| p_layers := layers; p_total := p_total s; p_evictions := p_evictions s ++ [id];
                       p_victims := p_victims s; p_finals := <[request_index := None]> (p_finals s) |})
      | _ => Err ConcurrentReservationConflict
      end
  end.

Definition with_total (t : N) (s : plan_state) : plan_state :=
  {| p_layers := p_layers s; p_total := t; p_evictions := p_evictions s;
     p_victims := p_victims s; p_finals := p_finals s |}.

(** The first of the longest non-empty layers. *)
Definition heaviest_step (best : option (nat * N)) (il : nat * N) : option (nat * N) :=
  let '(i, len) := il in
  if (len =? 0)%N then best else
  match best with
  | Some (_, best_len) => if (len <=? best_len)%N then best else Some (i, len)
  | None => Some (i, len)
  end.
Definition heaviest (lens : list N) : option (nat * N) :=
  foldl heaviest_step None (imap (fun i len => (i, len)) lens).

(** [for offset in 0..n { let layer = (start + offset) % n; .. }]. *)
Definition rotation (start n : nat) : list nat := (fun offset => (start + offset) `mod` n)%nat <$> seq 0 n.

Fixpoint remove_from (layers : list nat) (s : plan_state)
  : result ExpertCacheReservationError (bool * plan_state) :=
  match layers with
  | [] => Ok (false, s)
  | layer :: layers' =>
      '(removed, s) ← remove_victim layer s;
      if removed : bool then Ok (true, with_total (p_total s - 1) s) else remove_from layers' s
  end.

Definition layer_lens (s : plan_state) : list N := (fun l => N.of_nat (length l)) <$> p_layers s.

(** The body of the planning loop. *)
Definition plan_one (capacities : list N) (s : plan_state) (request_index : nat) (r : N * nat * bool)
  : result ExpertCacheReservationError plan_state :=
  let '(id, target_layer, pin) := r in
  s ← (if (sumN capacities <=? p_total s)%N then
         '(start, _) ← ok_or (heaviest (layer_lens s)) VictimUnavailable;
         '(removed, s) ← remove_from (rotation start (length (p_layers s))) s;
         if removed : bool then Ok s else Err VictimUnavailable
       else Ok s);
  s ← (if (capacities !!! target_layer <=? N.of_nat (length (p_layers s !!! target_layer)))%N then
         '(removed, s) ← remove_victim target_layer s;
         if removed : bool then Ok (with_total (p_total s - 1) s) else Err VictimUnavailable
       else Ok s);
  Ok {| p_layers := <[target_layer :=
                        Requested id request_index pin :: p_layers s !!! target_layer]> (p_layers s);
        p_total := p_total s + 1; p_evictions := p_evictions s; p_victims := p_victims s;
        p_finals := p_finals s |}.

Fixpoint plan_loop (capacities : list N) (i : nat) (requested : list (N * nat * bool)) (s : plan_state)
  : result ExpertCacheReservationError plan_state :=
  match requested with
  | [] => Ok s
  | r :: requested' => s ← plan_one capacities s i r; plan_loop capacities (S i) requested' s
  end.

Definition plan_sequential_victims (layers : list (list VirtualCacheEntry)) (capacities : list N)
    (requested : list (N * nat * bool)) : result ExpertCacheReservationError SequentialVictimPlan :=
  s ← plan_loop capacities 0 requested
        {| p_layers := layers; p_total := sumN ((fun l => N.of_nat (length l)) <$> layers);
           p_evictions := []; p_victims := []; p_finals := (fun r => Some (r.1.2)) <$> requested |};
  Ok {| eviction_ids := p_evictions s; resident_victims := p_victims s;
        request_final_layers := p_finals s; final_layer_lengths := layer_lens s |}.

(** ** The caches *)

Section multi.
Context `{!LruCache ExpertResident}.
Variable powi : f64 -> Z -> f64.

Record MultiLayerExpertCache := { caches : list ExpertCache; experts_per_layer : N }.

Definition with_caches (l : list ExpertCache) (m : MultiLayerExpertCache) : MultiLayerExpertCache :=
  {| caches := l; experts_per_layer := experts_per_layer m |}.

Definition with_capacities (caps : list N) (per_layer : N) : option MultiLayerExpertCache :=
  if bool_decide (caps = []) then None else
  if negb (0 <? per_layer)%N then None else
  l ← mapM cache_new caps;
  Some {| caches := l; experts_per_layer := per_layer |}.

Definition with_uniform_capacity (num_layers cap per_layer : N) : option MultiLayerExpertCache :=
  if negb (0 <? num_layers)%N then None else
  if negb (0 <? per_layer)%N then None else
  l ← mapM cache_new (replicate (N.to_nat num_layers) cap);
  Some {| caches := l; experts_per_layer := per_layer |}.

Definition single_layer (cap : N) : option MultiLayerExpertCache :=
  c ← cache_new cap; Some {| caches := [c]; experts_per_layer := u32_max |}.

Definition try_layer_idx (id : N) (m : MultiLayerExpertCache) : option nat :=
  let layer := N.to_nat (id / experts_per_layer m) in
  if (layer <? length (caches m))%nat then Some layer else None.

Definition layer_of (id : N) (m : MultiLayerExpertCache) : nat :=
  Nat.min (N.to_nat (id / experts_per_layer m)) (length (caches m) - 1).

Definition capacity_of_layer (layer : nat) (m : MultiLayerExpertCache) : N :=
  match caches m !! layer with Some c => capacity c | None => 0%N end.

(** Apply a cache operation to the layer that owns [id]. *)
Definition at_layer (i : nat) (c : ExpertCache) (m : MultiLayerExpertCache) : MultiLayerExpertCache :=
  with_caches (<[i := c]> (caches m)) m.

Definition get (id : N) (m : MultiLayerExpertCache) (h : heap)
  : option ExpertResident * MultiLayerExpertCache * heap :=
  match i ← try_layer_idx id m; c ← caches m !! i; Some (i, c) with
  | None => (None, m, h)
  | Some (i, c) => let '(r, c', h') := ExpertCache.get powi id c h in (r, at_layer i c' m, h')
  end.

Definition contains (id : N) (m : MultiLayerExpertCache) : bool :=
  match i ← try_layer_idx id m; caches m !! i with
  | None => false
  | Some c => ExpertCache.contains id c
  end.

Definition insert (r : ExpertResident) (m : MultiLayerExpertCache) (h : heap)
  : result ExpertResident (option ExpertResident) * MultiLayerExpertCache * heap :=
  match i ← try_layer_idx (r_id r) m; c ← caches m !! i; Some (i, c) with
  | None => (Err r, m, h)
  | Some (i, c) => let '(o, c', h') := ExpertCache.insert powi r c h in (o, at_layer i c' m, h')
  end.

Definition pin (id : N) (m : MultiLayerExpertCache) : MultiLayerExpertCache :=
  match i ← try_layer_idx id m; c ← caches m !! i; Some (i, c) with
  | None => m | Some (i, c) => at_layer i (ExpertCache.pin id c) m end.
Definition unpin (id : N) (m : MultiLayerExpertCache) : MultiLayerExpertCache :=
  match i ← try_layer_idx id m; c ← caches m !! i; Some (i, c) with
  | None => m | Some (i, c) => at_layer i (ExpertCache.unpin id c) m end.
Definition is_pinned (id : N) (m : MultiLayerExpertCache) : bool :=
  match i ← try_layer_idx id m; caches m !! i with
  | None => false | Some c => ExpertCache.is_pinned id c end.

Definition reserved_slots (m : MultiLayerExpertCache) : N :=
  sumN (ExpertCache.reserved_slots <$> caches m).
Definition set_cost_aware (on : bool) (m : MultiLayerExpertCache) : MultiLayerExpertCache :=
  with_caches (ExpertCache.set_cost_aware on <$> caches m) m.

Definition cache_lens (m : MultiLayerExpertCache) : list N := (fun c => lru_len (inner c)) <$> caches m.
Definition len (m : MultiLayerExpertCache) : N := sumN (cache_lens m).
Definition capacities (m : MultiLayerExpertCache) : list N := capacity <$> caches m.
Definition capacity_of (m : MultiLayerExpertCache) : N := sumN (capacities m).
Definition pinned_count (m : MultiLayerExpertCache) : N := sumN (ExpertCache.pinned_count <$> caches m).
Definition pinned_ids (m : MultiLayerExpertCache) : list N :=
  sort_by_key (fun k => k) (caches m ≫= ExpertCache.pinned_ids).

(** Evict from the first of [layers] that has something to evict. *)
Fixpoint evict_from (evict : ExpertCache -> option ExpertResident * ExpertCache) (layers : list nat)
    (m : MultiLayerExpertCache) : option ExpertResident * MultiLayerExpertCache :=
  match layers with
  | [] => (None, m)
  | i :: layers' =>
      match caches m !! i with
      | None => evict_from evict layers' m
      | Some c =>
          let '(o, c') := evict c in
          let m := at_layer i c' m in
          match o with Some r => (Some r, m) | None => evict_from evict layers' m end
      end
  end.

Definition evict_lru (m : MultiLayerExpertCache) (h : heap)
  : option ExpertResident * MultiLayerExpertCache :=
  match heaviest (cache_lens m) with
  | None => (None, m)
  | Some (start, _) =>
      evict_from (fun c => ExpertCache.evict_lru powi c h) (rotation start (length (caches m))) m
  end.

Definition evict_lru_shadow_backed (m : MultiLayerExpertCache)
  : option ExpertResident * MultiLayerExpertCache :=
  let lens := cache_lens m in
  let order := sort_by_key (fun i => (usize_max - lens !!! i)%N) (seq 0 (length (caches m))) in
  evict_from ExpertCache.evict_lru_shadow_backed order m.

(** *** The exact-demand transaction *)

Fixpoint validate_requests (m : MultiLayerExpertCache) (ids : list N) (seen : gset N)
    (requested_per_layer : list N) (request_layers : list nat)
  : result ExpertCacheReservationError (list nat) :=
  match ids with
  | [] => Ok request_layers
  | id :: ids' =>
      if bool_decide (id ∈ seen) then Err DuplicateExpertId else
      layer ← ok_or (try_layer_idx id m) InvalidExpertId;
      let n := (requested_per_layer !!! layer + 1)%N in
      if (capacity_of_layer layer m <? n)%N then Err Capacity else
      validate_requests m ids' ({[id]} ∪ seen) (<[layer := n]> requested_per_layer)
        (request_layers ++ [layer])
  end.

(** Existing reservations are modelled as most recent positions. *)
Definition virtual_layer (c : ExpertCache) : list VirtualCacheEntry :=
  replicate (N.to_nat (ExpertCache.reserved_slots c)) OutstandingReservation ++
  ((fun kv => Resident (fst kv) (bool_decide (fst kv ∈ pinned c))) <$> lru_iter (inner c)).

Definition request_of (m : MultiLayerExpertCache) (id : N) (layer : nat) : N * nat * bool :=
  (id, layer, match caches m !! layer with Some c => bool_decide (id ∈ pinned c) | None => false end).

(** The [pop]s of the planned victims; [None] is the [expect]. *)
Fixpoint pop_victims (vs : list (nat * N)) (m : MultiLayerExpertCache)
  : option (list ExpertResident * MultiLayerExpertCache) :=
  match vs with
  | [] => Some ([], m)
  | (layer, id) :: vs' =>
      c ← caches m !! layer;
      let '(o, l) := lru_pop id (inner c) in
      v ← o;
      '(rest, m) ← pop_victims vs' (at_layer layer (with_inner l c) m);
      Some (v :: rest, m)
  end.

Definition count_layer (layer : nat) (finals : list (option nat)) : N :=
  N.of_nat (length (List.filter (fun f => bool_decide (f = Some layer)) finals)).

(** [(count > 0).then(|| ExpertCacheSlotReservation::new(cache, count))] per layer. *)
Definition reserve_layer (finals : list (option nat)) (layer : nat) (c : ExpertCache)
  : option N * ExpertCache :=
  let count := count_layer layer finals in
  if (0 <? count)%N then
    let '(guard, c) := reservation_new count c in (Some guard, c)
  else (None, c).

Record MultiLayerCacheReservation := {
  rv_layers : list (option N);
  rv_requests : list (N * option nat);
  next_request : nat;
}.

Record MultiLayerCacheReservationOutcome := {
  reservation : MultiLayerCacheReservation;
  oc_eviction_ids : list N;
  victims : list ExpertResident;
}.

(** Outer [None]: the [expect] of the pop loop; [Err] leaves the caches alone. *)
Definition try_reserve_exact_demand (ids : list N) (m : MultiLayerExpertCache)
  : option (result ExpertCacheReservationError MultiLayerCacheReservationOutcome
            * MultiLayerExpertCache) :=
  let planned :=
    layers ← validate_requests m ids ∅ (replicate (length (caches m)) 0%N) [];
    if existsb cost_aware (caches m) then Err CostAwarePolicy else
    plan_sequential_victims (virtual_layer <$> caches m) (capacities m)
      (zip_with (request_of m) ids layers) in
  match planned with
  | Err e => Some (Err e, m)
  | Ok plan =>
      '(vs, m1) ← pop_victims (resident_victims plan) m;
      let reserved := imap (reserve_layer (request_final_layers plan)) (caches m1) in
      Some (Ok {| reservation :=
                    {| rv_layers := reserved.*1;
                       rv_requests := zip ids (request_final_layers plan);
                       next_request := 0 |};
                  oc_eviction_ids := eviction_ids plan;
                  victims := vs |},
            with_caches reserved.*2 m1)
  end.

(** [MultiLayerCacheReservation::commit]; [Err] leaves everything as it was. *)
Definition commit (r : ExpertResident) (rv : MultiLayerCacheReservation) (m : MultiLayerExpertCache)
  : result ExpertResident (bool * MultiLayerCacheReservation * MultiLayerExpertCache) :=
  match rv_requests rv !! next_request rv with
  | None => Err r
  | Some (expected_id, final_layer) =>
      if negb (r_id r =? expected_id)%N then Err r else
      let advance layers :=
        {| rv_layers := layers; rv_requests := rv_requests rv; next_request := S (next_request rv) |} in
      match final_layer with
      | None => Ok (false, advance (rv_layers rv), m)
      | Some layer =>
          match rv_layers rv !! layer, caches m !! layer with
          | Some (Some remaining), Some c =>
              '(remaining, c) ← ExpertCache.commit remaining r c;
              Ok (true, advance (<[layer := Some remaining]> (rv_layers rv)), at_layer layer c m)
          | _, _ => Err r
          end
      end
  end.

Definition remaining (rv : MultiLayerCacheReservation) : N :=
  sumN (omap (fun o => o) (rv_layers rv)).

(** Dropping the guard drops every layer's reservation. *)
Definition release_layer (rv : MultiLayerCacheReservation) (i : nat) (c : ExpertCache) : ExpertCache :=
  match rv_layers rv !! i with
  | Some (Some n) => reservation_drop n c
  | _ => c
  end.
Definition release (rv : MultiLayerCacheReservation) (m : MultiLayerExpertCache) : MultiLayerExpertCache :=
  with_caches (imap (release_layer rv) (caches m)) m.

(** *** The sequential miss path

    The cache part of the engine's [fetch_once]: evict when the caches are
    full in total, then insert the resident that was read. *)
Definition fetch_once_cache (r : ExpertResident) (m : MultiLayerExpertCache) (h : heap)
  : list N * MultiLayerExpertCache * heap :=
  let '(e1, m) :=
    if (capacity_of m <=? len m)%N then
      let '(o, m) := evict_lru m h in (match o with Some v => [r_id v] | None => [] end, m)
    else ([], m) in
  let '(o, m, h) := insert r m h in
  (e1 ++ match o with Ok (Some v) => [r_id v] | _ => [] end, m, h).

Fixpoint fetch_sequence (rs : list ExpertResident) (m : MultiLayerExpertCache) (h : heap)
  : list N * MultiLayerExpertCache * heap :=
  match rs with
  | [] => ([], m, h)
  | r :: rs' =>
      let '(e, m, h) := fetch_once_cache r m h in
      let '(es, m, h) := fetch_sequence rs' m h in (e ++ es, m, h)
  end.

Fixpoint commit_all (rs : list ExpertResident) (rv : MultiLayerCacheReservation)
    (m : MultiLayerExpertCache)
  : result ExpertResident (list bool * MultiLayerCacheReservation * MultiLayerExpertCache) :=
  match rs with
  | [] => Ok ([], rv, m)
  | r :: rs' =>
      '(b, rv, m) ← commit r rv m;
      '(bs, rv, m) ← commit_all rs' rv m;
      Ok (b :: bs, rv, m)
  end.
End multi.
Arguments MultiLayerExpertCache {_}.

(** ** The last matching position *)

Section rposition.
Context {A B : Type}.
Implicit Types (f : A -> bool) (l : list A).

Lemma rposition_snoc f l x :
  rposition f (l ++ [x]) = if f x then Some (length l) else rposition f l.
Proof.
  induction l as [|y l IH]; simpl; [by destruct (f x)|]. rewrite IH.
  destruct (f x); [done|]. by destruct (rposition f l).
Qed.

Lemma rposition_Some f l i :
  rposition f l = Some i -> exists l1 x l2, l = l1 ++ x :: l2 /\ length l1 = i /\ f x = true /\
    Forall (fun y => f y = false) l2.
Proof.
  induction l as [|y l IH] using rev_ind; [done|]. rewrite rposition_snoc.
  destruct (f y) eqn:E.
  - intros [= <-]. by exists l, y, [].
  - intros (l1 & x & l2 & -> & Hl & Hx & Hf)%IH. exists l1, x, (l2 ++ [y]).
    rewrite <-app_assoc. split_and!; auto. apply Forall_app. auto.
Qed.

Lemma rposition_None f l : rposition f l = None <-> Forall (fun y => f y = false) l.
Proof.
  induction l as [|y l IH] using rev_ind; [done|].
  rewrite rposition_snoc, Forall_app, Forall_singleton, <-IH. destruct (f y); naive_solver.
Qed.

Lemma rposition_app f l1 l2 :
  rposition f (l1 ++ l2) =
  match rposition f l2 with Some i => Some (length l1 + i)%nat | None => rposition f l1 end.
Proof.
  induction l2 as [|x l2 IH] using rev_ind; simpl; [by rewrite app_nil_r|].
  rewrite app_assoc, !rposition_snoc, length_app. destruct (f x); [done|]. apply IH.
Qed.

Lemma rposition_fmap (g : B -> A) f (l : list B) : rposition f (g <$> l) = rposition (fun x => f (g x)) l.
Proof. induction l as [|x l IH]; csimpl; [done|]. by rewrite IH. Qed.

Lemma rposition_ext f f' l :
  Forall (fun x => f x = f' x) l -> rposition f l = rposition f' l.
Proof. induction 1 as [|x l Hx _ IH]; simpl; [done|]. by rewrite IH, Hx. Qed.
End rposition.

(** ** One layer *)

Section layer.
Context `{!LruCache ExpertResident, !LruLaws ExpertResident}.
Variable powi : f64 -> Z -> f64.
Implicit Types (c : ExpertCache) (h : heap) (r : ExpertResident).
Abbreviation entries c := (lru_iter (inner c)).

Definition unpinned_key c (kv : N * ExpertResident) : bool := negb (bool_decide (fst kv ∈ pinned c)).

Lemma select_rposition c h :
  cost_aware c = false ->
  select_victim_id powi c h =
    (i ← rposition (unpinned_key c) (entries c); fst <$> entries c !! i).
Proof.
  intros Hc. unfold select_victim_id. rewrite Hc.
  set (f := fun k => negb (bool_decide (k ∈ pinned c))).
  generalize (entries c). intros l. induction l as [|kv l IH] using rev_ind; [done|].
  rewrite fmap_app, List.filter_app, rposition_snoc. simpl.
  unfold unpinned_key at 1. fold (f (fst kv)). destruct (f (fst kv)) eqn:E.
  - rewrite last_snoc. simpl. by rewrite list_lookup_middle.
  - rewrite app_nil_r, IH. destruct (rposition (unpinned_key c) l) as [i|] eqn:Er; [|done]. simpl.
    apply rposition_Some in Er as (l1 & x & l2 & -> & <- & _).
    rewrite <-app_assoc. simpl. by rewrite !list_lookup_middle.
Qed.

Lemma delete_key (l : list (N * ExpertResident)) l1 l2 k v v' i :
  NoDup l.*1 -> l = l1 ++ (k, v) :: l2 -> l !! i = Some (k, v') -> delete i l = l1 ++ l2 /\ v' = v.
Proof.
  intros Hnd -> Hi.
  assert (i = length l1) as ->.
  { assert (H1 : (l1 ++ (k, v) :: l2).*1 !! i = Some k) by by rewrite list_lookup_fmap, Hi.
    assert (H2 : (l1 ++ (k, v) :: l2).*1 !! length l1 = Some k) by
      by rewrite list_lookup_fmap, list_lookup_middle.
    by eapply NoDup_lookup. }
  rewrite list_lookup_middle in Hi by done. injection Hi as ->. split; [|done]. apply delete_middle.
Qed.

(** Strict-LRU eviction of a layer removes the last unpinned position. *)
Lemma evict_layer c h :
  cost_aware c = false ->
  let '(o, c') := ExpertCache.evict_lru powi c h in
  c' = with_inner (inner c') c /\ lru_cap (inner c') = lru_cap (inner c) /\
  match rposition (unpinned_key c) (entries c) with
  | None => o = None /\ entries c' = entries c
  | Some i => exists k v, entries c !! i = Some (k, v) /\ o = Some v /\ entries c' = delete i (entries c)
  end.
Proof.
  intros Hc. pose proof (evict_lru_cases powi c h) as He. pose proof (evict_shrinks powi c h) as (Hw & Hcap & _).
  rewrite select_rposition in He by done.
  destruct (ExpertCache.evict_lru powi c h) as [o c']; simpl in *. split; [done|]. split; [done|].
  destruct (rposition (unpinned_key c) (entries c)) as [i|] eqn:Er; [|done].
  apply rposition_Some in Er as (l1 & [k v] & l2 & Hl & <- & _). simpl in He.
  assert (Hi : entries c !! length l1 = Some (k, v)) by by rewrite Hl, list_lookup_middle.
  rewrite Hi in He. simpl in He. destruct He as (m1 & v' & m2 & Hm & -> & ->).
  destruct (delete_key _ _ _ _ _ _ _ (lru_iter_nodup (inner c)) Hm Hi) as [Hd ->]. eauto.
Qed.

(** Inserting an id that is not cached. *)
Lemma insert_layer r c h :
  cache_inv c -> cost_aware c = false -> ExpertCache.reserved_slots c = 0%N -> ExpertCache.contains (r_id r) c = false ->
  let '(o, c', h') := ExpertCache.insert powi r c h in
  h' = h /\ c' = with_inner (inner c') c /\ lru_cap (inner c') = lru_cap (inner c) /\
  if (capacity c <=? lru_len (inner c))%N then
    match rposition (unpinned_key c) (entries c) with
    | None => o = Err r /\ entries c' = entries c
    | Some i => exists k v, entries c !! i = Some (k, v) /\ o = Ok (Some v) /\
        entries c' = (r_id r, r) :: delete i (entries c)
    end
  else o = Ok None /\ entries c' = (r_id r, r) :: entries c.
Proof.
  intros Hinv Hc Hres Hcon. pose proof (insert_cases powi r c h Hinv) as Hi.
  assert (Hh : snd (ExpertCache.insert powi r c h) = h).
  { unfold ExpertCache.insert. rewrite Hc. destruct (_ && _); [destruct (select_victim_id _ _ _) as [k|]; [destruct (lru_pop k _)|]|];
      try done; rewrite ?Hc; by destruct (lru_push _ _ _). }
  assert (Htick : tick c = c) by (unfold tick; by rewrite Hc).
  rewrite Htick in Hi. destruct (ExpertCache.insert powi r c h) as [[o c'] h']. simpl in Hh. subst h'.
  split; [done|]. rewrite Hres, N.add_0_r in *. destruct o as [o|r'].
  - destruct Hi as (l & Hw & Hcap & Hl & Ho). rewrite (inv_cap _ Hinv). split; [done|]. split; [done|].
    destruct Ho as [(-> & -> & _ & Hlt)|(l1 & k & v & l2 & Hs & -> & -> & Hk)].
    + rewrite Hres, N.add_0_r in Hlt. destruct (N.leb_spec (capacity c) (lru_len (inner c))); [lia|done].
    + destruct Hk as [->|(_ & _ & Hfull & Hsel)].
      { exfalso. assert (ExpertCache.contains (r_id r) c = true) as Hc2; [|congruence].
        apply contains_iff. rewrite Hs, fmap_app. apply elem_of_app. right. by left. }
      rewrite Hres, N.add_0_r in Hfull. destruct (N.leb_spec (capacity c) (lru_len (inner c))); [|lia].
      rewrite Htick, select_rposition in Hsel by done.
      destruct (rposition (unpinned_key c) (entries c)) as [i|]; [|done]. simpl in Hsel.
      destruct (entries c !! i) as [[k' v']|] eqn:Ei; [|done]. injection Hsel as ->.
      destruct (delete_key _ _ _ _ _ _ _ (lru_iter_nodup (inner c)) Hs Ei) as [Hd ->].
      rewrite Hl, Hd. eauto.
  - destruct Hi as (-> & -> & _ & _ & Hfull & Hall). split; [by destruct c|]. split; [done|].
    destruct (N.leb_spec (capacity c) (lru_len (inner c))); [|lia].
    assert (rposition (unpinned_key c) (entries c) = None) as ->; [|done].
    apply rposition_None. eapply Forall_impl; [exact Hall|]. intros kv Hk. unfold unpinned_key.
    by rewrite bool_decide_true.
Qed.
End layer.

(** ** The planner's invariant *)

Section plan.
Context (V0 : list (list VirtualCacheEntry)) (requested : list (N * nat * bool)).

Definition resident_id (e : VirtualCacheEntry) : option N :=
  match e with Resident id _ => Some id | _ => None end.
Definition is_requested (e : VirtualCacheEntry) : bool :=
  match e with Requested _ _ _ => true | _ => false end.

(** What a layer holds before planning: reservations and distinct residents. *)
Definition initial_layer (V : list VirtualCacheEntry) : Prop :=
  NoDup (omap resident_id V) /\ Forall (fun e => is_requested e = false) V.

Definition req_entry (l : nat) (finals : list (option nat)) (i : nat) : option VirtualCacheEntry :=
  match finals !! i, requested !! i with
  | Some (Some l'), Some (id, _, p) => if decide (l' = l) then Some (Requested id i p) else None
  | _, _ => None
  end.

(** The surviving requests of a layer, latest first, and its surviving residents. *)
Definition req_entries (finals : list (option nat)) (k l : nat) : list VirtualCacheEntry :=
  omap (req_entry l finals) (reverse (seq 0 k)).
Definition survives (vict : list (nat * N)) (l : nat) (e : VirtualCacheEntry) : bool :=
  match e with Resident id _ => negb (bool_decide ((l, id) ∈ vict)) | _ => true end.
Definition res_entries (vict : list (nat * N)) (l : nat) (V : list VirtualCacheEntry) :=
  List.filter (survives vict l) V.

Record plan_inv (k : nat) (s : plan_state) : Prop := {
  pi_len : length (p_layers s) = length V0;
  pi_layers : forall l V, V0 !! l = Some V ->
    p_layers s !! l = Some (req_entries (p_finals s) k l ++ res_entries (p_victims s) l V);
  pi_total : p_total s = sumN (layer_lens s);
  pi_finals : length (p_finals s) = length requested;
  pi_final : forall i r, requested !! i = Some r ->
    p_finals s !! i = Some (Some (r.1.2)) \/ ((i < k)%nat /\ p_finals s !! i = Some None);
  pi_nodup : NoDup (p_victims s);
  pi_victims : forall l id, (l, id) ∈ p_victims s ->
    exists V, V0 !! l = Some V /\ Resident id false ∈ V;
}.

(** *** Removing one entry *)

Lemma filter_delete_resident vict l V W1 id W2 :
  initial_layer V -> res_entries vict l V = W1 ++ Resident id false :: W2 ->
  res_entries (vict ++ [(l, id)]) l V = W1 ++ W2.
Proof.
  intros [Hnd _]. revert W1. induction V as [|e V IH]; intros W1 Hs.
  { unfold res_entries in Hs. simpl in Hs. by destruct W1. }
  unfold res_entries in *. simpl in *.
  assert (Hext : forall V', (forall p, Resident id p ∉ V') ->
    List.filter (survives (vict ++ [(l, id)]) l) V' = List.filter (survives vict l) V').
  { intros V' Hni. apply List.filter_ext_in. intros e' He'%list_elem_of_In.
    destruct e' as [id' p'| |]; simpl; try done. f_equal. apply bool_decide_ext.
    rewrite elem_of_app, list_elem_of_singleton. split; [|by left].
    intros [?|[= ->]]; [done|]. by destruct (Hni p'). }
  assert (Hndt : NoDup (omap resident_id V)).
  { destruct e; simpl in Hnd; [by apply NoDup_cons in Hnd as [_ ?]|done|done]. }
  destruct (survives vict l e) eqn:Es.
  - destruct W1 as [|e1 W1]; simpl in Hs; injection Hs as -> Hs.
    + simpl. rewrite bool_decide_true by (apply elem_of_app; right; set_solver). simpl.
      rewrite Hext; [done|]. intros p Hin. simpl in Hnd. apply NoDup_cons in Hnd as [Hni _].
      apply Hni, list_elem_of_omap. by exists (Resident id p).
    + specialize (IH Hndt W1 Hs). simpl.
      assert (survives (vict ++ [(l, id)]) l e1 = true) as ->; [|by rewrite IH].
      destruct e1 as [id' p'| |]; simpl in *; try done.
      apply negb_true_iff, bool_decide_eq_false in Es. apply negb_true_iff, bool_decide_eq_false.
      rewrite elem_of_app, list_elem_of_singleton. intros [?|[= ->]]; [done|].
      apply NoDup_cons in Hnd as [Hni _]. apply Hni. apply list_elem_of_omap.
      exists (Resident id false). split; [|done].
      assert (Hin : Resident id false ∈ List.filter (survives vict l) V) by (rewrite Hs; set_solver).
      apply list_elem_of_In, List.filter_In in Hin as [Hin _]. by apply list_elem_of_In.
  - specialize (IH Hndt W1 Hs). destruct e as [id' p'| |]; simpl in *; try done.
    apply negb_false_iff, bool_decide_eq_true in Es.
    rewrite bool_decide_true; [done|]. apply elem_of_app. by left.
Qed.

Lemma res_entries_other vict l l' id V :
  l <> l' -> res_entries (vict ++ [(l, id)]) l' V = res_entries vict l' V.
Proof.
  intros Hne. unfold res_entries. apply List.filter_ext. intros [id' p| |]; simpl; try done.
  f_equal. apply bool_decide_ext. rewrite elem_of_app, list_elem_of_singleton. naive_solver.
Qed.

Lemma req_entry_other finals l l' i j :
  finals !! i = Some (Some l) -> l <> l' ->
  req_entry l' (<[i := None]> finals) j = req_entry l' finals j.
Proof.
  intros Hi Hne. unfold req_entry. destruct (decide (i = j)) as [<-|].
  - rewrite list_lookup_insert_eq by by eapply lookup_lt_Some. rewrite Hi.
    destruct (requested !! i) as [[[id l0] p]|]; [|done]. by rewrite decide_False by done.
  - by rewrite list_lookup_insert_ne.
Qed.

Lemma omap_ext {A B} (f g : A -> option B) (l : list A) :
  (forall x, x ∈ l -> f x = g x) -> omap f l = omap g l.
Proof.
  induction l as [|x l IH]; intros H; csimpl; [done|].
  rewrite (H x) by set_solver. rewrite IH; [done|]. set_solver.
Qed.

(** Withdrawing request [i] removes exactly its entry. *)
Lemma req_entries_delete finals k l id i p W1 W2 :
  req_entries finals k l = W1 ++ Requested id i p :: W2 ->
  finals !! i = Some (Some l) /\ req_entries (<[i := None]> finals) k l = W1 ++ W2.
Proof.
  unfold req_entries. intros Hs.
  assert (Hnd : NoDup (reverse (seq 0 k))) by (rewrite reverse_Permutation; apply NoDup_seq).
  revert W1 Hs Hnd. generalize (reverse (seq 0 k)) as js.
  assert (Hentry : forall j e, req_entry l finals j = Some e ->
    finals !! j = Some (Some l) /\ exists id' p', e = Requested id' j p').
  { intros j e. unfold req_entry. destruct (finals !! j) as [[l'|]|]; try done.
    destruct (requested !! j) as [[[id' l0] p']|]; [|done]. case_decide; [|done].
    intros [= <-]. subst. eauto. }
  induction js as [|j js IH]; intros W1 Hs Hnd; csimpl in *.
  { by destruct W1. }
  apply NoDup_cons in Hnd as [Hni Hnd].
  destruct (req_entry l finals j) as [e|] eqn:Ej.
  - destruct (Hentry _ _ Ej) as [Hj (id' & p' & ->)].
    destruct W1 as [|e1 W1]; simpl in Hs.
    + injection Hs as -> -> -> Hs. split; [done|].
      assert (req_entry l (<[i := None]> finals) i = None) as ->.
      { unfold req_entry. by rewrite list_lookup_insert_eq by by eapply lookup_lt_Some. }
      csimpl. rewrite <-Hs. apply omap_ext. intros j Hjin. unfold req_entry.
      rewrite list_lookup_insert_ne; [done|]. by intros <-.
    + injection Hs as <- Hs. destruct (IH W1 Hs Hnd) as [Hi Hr]. split; [done|].
      assert (Hne : i <> j).
      { intros <-. assert (Hin : Requested id i p ∈ omap (req_entry l finals) js) by (rewrite Hs; set_solver).
        apply list_elem_of_omap in Hin as (j & Hjin & Hje).
        destruct (Hentry _ _ Hje) as [_ (? & ? & [= ? ? ?])]. by subst. }
      assert (req_entry l (<[i := None]> finals) j = Some (Requested id' j p')) as ->.
      { rewrite <-Ej. unfold req_entry. by rewrite list_lookup_insert_ne. }
      by rewrite Hr.
  - destruct (IH W1 Hs Hnd) as [Hi Hr]. split; [done|].
    assert (Hne : req_entry l (<[i := None]> finals) j = None).
    { unfold req_entry in *. destruct (decide (i = j)) as [<-|].
      - by rewrite list_lookup_insert_eq by by eapply lookup_lt_Some.
      - by rewrite list_lookup_insert_ne. }
    by rewrite Hne.
Qed.

Definition entry_id (e : VirtualCacheEntry) : option N :=
  match e with Resident id _ | Requested id _ _ => Some id | OutstandingReservation => None end.
Abbreviation unpinned_entry := (fun e => negb (entry_pinned e)).

Lemma layer_lens_insert s l vl vl' :
  p_layers s !! l = Some vl -> forall s', p_layers s' = <[l := vl']> (p_layers s) ->
  (sumN (layer_lens s') + N.of_nat (length vl) = sumN (layer_lens s) + N.of_nat (length vl'))%N.
Proof. intros Hl s' Hs'. unfold layer_lens. rewrite Hs'. by apply (sumN_insert (fun l => N.of_nat (length l))). Qed.

(** One removal, at the structural level. *)
Lemma remove_victim_cases l s b s' :
  remove_victim l s = Ok (b, s') ->
  match rposition unpinned_entry (p_layers s !!! l) with
  | None => b = false /\ s' = s
  | Some i => b = true /\ exists e id W1 W2,
      p_layers s !!! l = W1 ++ e :: W2 /\ length W1 = i /\ entry_pinned e = false /\
      p_layers s' = <[l := W1 ++ W2]> (p_layers s) /\ p_total s' = p_total s /\
      p_evictions s' = p_evictions s ++ [id] /\
      match e with
      | Resident id' _ => id' = id /\ p_victims s' = p_victims s ++ [(l, id)] /\ p_finals s' = p_finals s
      | Requested id' j _ => id' = id /\ p_victims s' = p_victims s /\
          p_finals s' = <[j := None]> (p_finals s)
      | OutstandingReservation => False
      end
  end.
Proof.
  unfold remove_victim. destruct (rposition _ _) as [i|] eqn:Er; [|by intros [= <- <-]].
  apply rposition_Some in Er as (W1 & e & W2 & Hl & <- & He & _). apply negb_true_iff in He.
  rewrite Hl, list_lookup_middle, delete_middle by done.
  destruct e as [id p| |id j p]; intros [= <- <-]; (split; [done|]).
  - exists (Resident id p), id, W1, W2. auto 10.
  - exists (Requested id j p), id, W1, W2. auto 10.
Qed.

Lemma remove_victim_inv k s l b s' :
  Forall initial_layer V0 -> plan_inv k s -> (l < length V0)%nat ->
  remove_victim l s = Ok (b, s') ->
  if b then plan_inv k (with_total (p_total s - 1) s') else s' = s.
Proof.
  intros Hinit [Hlen Hlay Htot Hfl Hfin Hnd Hvict] Hl Hr. apply remove_victim_cases in Hr.
  destruct (lookup_lt_is_Some_2 V0 l Hl) as [V HV]. pose proof (Hlay _ _ HV) as Hvl.
  rewrite (list_lookup_total_correct _ _ _ Hvl) in Hr.
  destruct (rposition _ _) as [i|] eqn:Er; [|by destruct Hr as [-> ->]].
  destruct Hr as (-> & e & id & W1 & W2 & Hs & <- & Hpin & Hlay' & Htot' & Hev & He).
  pose proof (proj1 (Forall_lookup _ _) Hinit _ _ HV) as HiV.
  assert (Htotal : (p_total s - 1 = sumN (layer_lens s'))%N).
  { pose proof (layer_lens_insert s l _ _ Hvl s' Hlay') as Hsum. rewrite Hs, !length_app in Hsum.
    rewrite Htot. simpl in Hsum. lia. }
  rewrite rposition_app in Er.
  assert (Hlay2 : forall l' V', V0 !! l' = Some V' ->
    p_layers s' !! l' = if decide (l = l') then Some (W1 ++ W2) else p_layers s !! l').
  { intros l' V' HV'. rewrite Hlay'. case_decide; subst.
    - apply list_lookup_insert_eq. by eapply lookup_lt_Some.
    - by apply list_lookup_insert_ne. }
  destruct (rposition unpinned_entry (res_entries (p_victims s) l V)) as [j|] eqn:Ej.
  - apply rposition_Some in Ej as (X1 & e' & X2 & HX & <- & _ & _). injection Er as Hlen1.
    rewrite HX, app_assoc in Hs. apply app_inj_1 in Hs as [HW1 [= <- <-]]; [|rewrite length_app; lia].
    assert (Hein : e' ∈ V).
    { assert (Hin : e' ∈ res_entries (p_victims s) l V) by (rewrite HX; set_solver).
      apply list_elem_of_In, List.filter_In in Hin as [Hin _]. by apply list_elem_of_In. }
    destruct e' as [id' p| |id' j p]; [|done|].
    2: { destruct HiV as [_ Hreq]. rewrite Forall_forall in Hreq. by specialize (Hreq _ Hein). }
    destruct He as (-> & Hv' & Hf'). simpl in Hpin. subst p.
    split; simpl; rewrite ?Hv', ?Hf'; auto.
    + by rewrite Hlay', length_insert.
    + intros l' V' HV'. rewrite (Hlay2 _ _ HV'). case_decide; subst.
      * assert (V' = V) as -> by congruence.
        rewrite (filter_delete_resident _ _ _ _ _ _ HiV HX). by rewrite <-app_assoc.
      * rewrite res_entries_other by done. by apply Hlay.
    + apply NoDup_app. split; [done|]. split; [|apply NoDup_singleton].
      intros [l' id'] Hin. rewrite list_elem_of_singleton. intros [= -> ->].
      assert (Hin2 : Resident id false ∈ res_entries (p_victims s) l V) by (rewrite HX; set_solver).
      apply list_elem_of_In, List.filter_In in Hin2 as [_ Hsv]. simpl in Hsv.
      apply negb_true_iff, bool_decide_eq_false in Hsv. done.
    + intros l' id' [?|[= -> ->]%list_elem_of_singleton]%elem_of_app; [by apply Hvict|]. eauto.
  - apply rposition_Some in Er as (X1 & e' & X2 & HX & Hlen1 & _ & _).
    rewrite HX, <-app_assoc in Hs. apply app_inj_1 in Hs as [<- [= <- Hrest]]; [|done].
    assert (Hentry : exists id' j p, e' = Requested id' j p).
    { assert (Hin : e' ∈ req_entries (p_finals s) k l) by (rewrite HX; set_solver).
      apply list_elem_of_omap in Hin as (j & _ & Hj). unfold req_entry in Hj.
      destruct (p_finals s !! j) as [[l'|]|]; try done. destruct (requested !! j) as [[[id' l0] p']|]; [|done].
      case_decide; [|done]. injection Hj as <-. eauto. }
    destruct Hentry as (id' & j & p & ->). destruct He as (-> & Hv' & Hf').
    destruct (req_entries_delete _ _ _ _ _ _ _ _ HX) as [Hj Hreq].
    split; simpl; rewrite ?Hv', ?Hf'; auto.
    + by rewrite Hlay', length_insert.
    + intros l' V' HV'. rewrite (Hlay2 _ _ HV'). case_decide; subst.
      * assert (V' = V) as -> by congruence. rewrite Hreq, <-app_assoc. done.
      * rewrite (Hlay _ _ HV'). f_equal. f_equal. unfold req_entries. apply omap_ext.
        intros j' _. symmetry. by apply req_entry_other with (l := l).
    + by rewrite length_insert.
    + intros j' r Hr. destruct (decide (j = j')) as [<-|].
      * right. split; [|by rewrite list_lookup_insert_eq by by eapply lookup_lt_Some].
        assert (Hin : Requested id j p ∈ req_entries (p_finals s) k l) by (rewrite HX; set_solver).
        apply list_elem_of_omap in Hin as (j' & Hjin & Hj'). unfold req_entry in Hj'.
        destruct (p_finals s !! j') as [[l'|]|]; try done.
        destruct (requested !! j') as [[[id'' l0] p']|]; [|done]. case_decide; [|done]. injection Hj' as -> -> ->.
        rewrite elem_of_reverse, elem_of_seq in Hjin. lia.
      * rewrite list_lookup_insert_ne by done. by apply Hfin.
Qed.

(** Layers may only shrink by evictions. *)
Definition lens_le (caps : list N) (s : plan_state) : Prop :=
  length caps = length (p_layers s) /\
  forall l vl, p_layers s !! l = Some vl -> (N.of_nat (length vl) <= caps !!! l)%N.

Lemma remove_victim_lens caps l s b s' :
  remove_victim l s = Ok (b, s') -> lens_le caps s -> lens_le caps s'.
Proof.
  intros Hr%remove_victim_cases [Hlen Hle].
  destruct (rposition _ _) as [i|]; [|by destruct Hr as [_ ->]].
  destruct Hr as (_ & e & id & W1 & W2 & Hs & _ & _ & Hlay & _).
  split; [by rewrite Hlay, length_insert|]. intros l' vl Hvl. rewrite Hlay in Hvl.
  apply list_lookup_insert_Some in Hvl as [(<- & <- & Hlt)|[_ Hvl]]; [|by apply Hle].
  destruct (lookup_lt_is_Some_2 _ _ Hlt) as [vl Hvl]. specialize (Hle _ _ Hvl).
  rewrite (list_lookup_total_correct _ _ _ Hvl) in Hs. subst vl. rewrite length_app in *. simpl in Hle. lia.
Qed.

Lemma remove_from_inv k ls s b s' caps :
  Forall initial_layer V0 -> Forall (fun l => (l < length V0)%nat) ls ->
  remove_from ls s = Ok (b, s') -> plan_inv k s -> lens_le caps s ->
  plan_inv k s' /\ lens_le caps s'.
Proof.
  intros Hinit. revert s. induction ls as [|l ls IH]; intros s Hls Hr Hp Hle; cbn [remove_from] in Hr.
  { by injection Hr as <- <-. }
  apply Forall_cons in Hls as [Hl Hls].
  apply result_bind_ok in Hr as ([b1 s1] & Hv & Hr).
  pose proof (remove_victim_inv _ _ _ _ _ Hinit Hp Hl Hv) as Hinv.
  pose proof (remove_victim_lens _ _ _ _ _ Hv Hle) as Hle1.
  destruct b1.
  - injection Hr as <- <-. assert (p_total s1 = p_total s) as ->; [|done].
    apply remove_victim_cases in Hv. destruct (rposition _ _); [|naive_solver].
    destruct Hv as (_ & e & id & W1 & W2 & _ & _ & _ & _ & Ht & _). done.
  - subst s1. by eapply IH.
Qed.

Lemma rotation_bound start n : Forall (fun l => (l < n)%nat) (rotation start n).
Proof.
  unfold rotation. apply Forall_fmap, Forall_forall. intros i Hi%elem_of_seq.
  apply Nat.mod_upper_bound. lia.
Qed.

Lemma plan_insert_inv k s id target p :
  (target < length V0)%nat ->
  requested !! k = Some (id, target, p) -> plan_inv k s ->
  plan_inv (S k)
    {| p_layers := <[target := Requested id k p :: p_layers s !!! target]> (p_layers s);
       p_total := p_total s + 1; p_evictions := p_evictions s; p_victims := p_victims s;
       p_finals := p_finals s |}.
Proof.
  intros Ht Hk [Hlen Hlay Htot Hfl Hfin Hnd Hvict].
  assert (Hfk : p_finals s !! k = Some (Some target)).
  { destruct (Hfin _ _ Hk) as [?|[? _]]; [done|lia]. }
  assert (Hrev : reverse (seq 0 (S k)) = k :: reverse (seq 0 k)).
  { by rewrite seq_S, reverse_snoc. }
  destruct (lookup_lt_is_Some_2 V0 target Ht) as [V HV]. pose proof (Hlay _ _ HV) as Hvl.
  split; cbn [p_layers p_total p_victims p_finals]; auto.
  - by rewrite length_insert.
  - intros l V' HV'. unfold req_entries. rewrite Hrev. csimpl.
    unfold req_entry at 1. rewrite Hfk, Hk. destruct (decide (target = l)) as [<-|Hne].
    + rewrite list_lookup_insert_eq by by eapply lookup_lt_Some.
      rewrite (list_lookup_total_correct _ _ _ Hvl). assert (V' = V) as -> by congruence. done.
    + rewrite list_lookup_insert_ne by done. by apply Hlay.
  - pose proof (layer_lens_insert s target _ (Requested id k p :: p_layers s !!! target) Hvl
      {| p_layers := <[target := Requested id k p :: p_layers s !!! target]> (p_layers s);
         p_total := p_total s + 1; p_evictions := p_evictions s; p_victims := p_victims s;
         p_finals := p_finals s |} eq_refl) as Hsum.
    rewrite (list_lookup_total_correct _ _ _ Hvl) in *. cbn [length] in Hsum. lia.
  - intros i r Hr. destruct (Hfin _ _ Hr) as [?|[? ?]]; [by left|right]. auto with lia.
Qed.

Lemma plan_one_inv caps k s id target p s' :
  Forall initial_layer V0 -> (target < length V0)%nat -> Forall (fun c => 0 < c)%N caps ->
  requested !! k = Some (id, target, p) ->
  plan_one caps s k (id, target, p) = Ok s' -> plan_inv k s -> lens_le caps s ->
  plan_inv (S k) s' /\ lens_le caps s'.
Proof.
  intros Hinit Ht Hcaps Hk Hone Hp Hle. unfold plan_one in Hone.
  apply result_bind_ok in Hone as (s1 & H1 & Hone).
  assert (Hs1 : plan_inv k s1 /\ lens_le caps s1).
  { destruct (_ <=? _)%N; [|by injection H1 as <-].
    apply result_bind_ok in H1 as ([start n] & _ & H1).
    apply result_bind_ok in H1 as ([b s2] & Hrf & H1).
    rewrite (pi_len _ _ Hp) in Hrf.
    apply (remove_from_inv k _ _ _ _ caps) in Hrf; auto using rotation_bound.
    destruct b; [|done]. by injection H1 as <-. }
  destruct Hs1 as [Hp1 Hle1]. apply result_bind_ok in Hone as (s2 & H2 & [= <-]).
  assert (Hs2 : plan_inv k s2 /\ lens_le caps s2 /\
    (N.of_nat (length (p_layers s2 !!! target)) + 1 <= caps !!! target)%N).
  { destruct (lookup_lt_is_Some_2 (p_layers s1) target) as [vl Hvl]; [by rewrite (pi_len _ _ Hp1)|].
    destruct Hle1 as [Hcl Hle1]. pose proof (Hle1 _ _ Hvl) as Hb.
    rewrite (list_lookup_total_correct _ _ _ Hvl) in H2.
    destruct (N.leb_spec (caps !!! target) (N.of_nat (length vl))) as [Hfull|Hroom].
    - apply result_bind_ok in H2 as ([b s3] & Hrv & H2). destruct b; [|done]. injection H2 as <-.
      pose proof (remove_victim_lens caps _ _ _ _ Hrv (conj Hcl Hle1)) as Hle3.
      pose proof (remove_victim_inv _ _ _ _ _ Hinit Hp1 Ht Hrv) as Hinv.
      apply remove_victim_cases in Hrv. destruct (rposition _ _); [|naive_solver].
      destruct Hrv as (_ & e & i & W1 & W2 & Hs & _ & _ & Hlay & Htt & _).
      rewrite Htt. split_and!; [done|done|]. simpl. rewrite Hlay, list_lookup_total_insert_eq by by eapply lookup_lt_Some.
      rewrite (list_lookup_total_correct _ _ _ Hvl) in Hs. subst vl. rewrite length_app in *. simpl in *. lia.
    - injection H2 as <-. split_and!; [done|done|]. rewrite (list_lookup_total_correct _ _ _ Hvl). lia. }
  destruct Hs2 as (Hp2 & [Hcl2 Hle2] & Hb2). split; [by apply plan_insert_inv|].
  split; simpl; [by rewrite length_insert|]. intros l vl Hvl.
  apply list_lookup_insert_Some in Hvl as [(<- & <- & _)|[_ Hvl]]; [simpl; lia|by apply Hle2].
Qed.

Lemma plan_loop_inv caps rs k s s' :
  Forall initial_layer V0 -> Forall (fun c => 0 < c)%N caps ->
  Forall (fun r => (r.1.2 < length V0)%nat) requested -> drop k requested = rs ->
  plan_loop caps k rs s = Ok s' -> plan_inv k s -> lens_le caps s ->
  plan_inv (k + length rs) s' /\ lens_le caps s'.
Proof.
  intros Hinit Hcaps Hreq. revert k s. induction rs as [|[[id target] p] rs IH]; intros k s Hd Hl Hp Hle.
  { injection Hl as <-. simpl. by rewrite Nat.add_0_r. }
  cbn [plan_loop] in Hl. apply result_bind_ok in Hl as (s1 & Hone & Hl).
  assert (Hk : requested !! k = Some (id, target, p)).
  { rewrite <-(Nat.add_0_r k), <-lookup_drop, Hd. done. }
  assert (Ht : (target < length V0)%nat) by exact (proj1 (Forall_lookup _ _) Hreq _ _ Hk).
  destruct (plan_one_inv caps k s id target p s1) as [Hp1 Hle1]; auto.
  replace (k + length ((id, target, p) :: rs))%nat with (S k + length rs)%nat by (simpl; lia).
  apply (IH (S k) s1); auto.
  rewrite <-Nat.add_1_r, <-drop_drop, Hd. done.
Qed.
End plan.

(** ** Realising the plan on the caches *)

Section realise.
Context `{!LruCache ExpertResident, !LruLaws ExpertResident}.
Implicit Types (c : ExpertCache) (m : MultiLayerExpertCache) (vs : list (nat * N)).
Abbreviation entries c := (lru_iter (inner c)).

Definition multi_ok m : Prop := Forall cache_inv (caches m).

Lemma adel_filter k (l : list (N * ExpertResident)) :
  adel k l = List.filter (fun kv => negb (fst kv =? k)%N) l.
Proof.
  induction l as [|[k' v] l IH]; simpl; [done|]. rewrite N.eqb_sym, IH. by destruct (k' =? k)%N.
Qed.

Definition kept vs (l : nat) (kv : N * ExpertResident) : bool := negb (bool_decide ((l, fst kv) ∈ vs)).

(** A layer after its planned victims were popped. *)
Definition popped vs (l : nat) c c' : Prop :=
  c' = with_inner (inner c') c /\ lru_cap (inner c') = lru_cap (inner c) /\
  entries c' = List.filter (kept vs l) (entries c).

Lemma pop_victims_ok vs m :
  NoDup vs ->
  (forall l id, (l, id) ∈ vs -> exists c, caches m !! l = Some c /\ id ∈ (entries c).*1) ->
  exists rs m', pop_victims vs m = Some (rs, m') /\ experts_per_layer m' = experts_per_layer m /\
    length (caches m') = length (caches m) /\
    Forall2 (fun '(l, id) v => exists c, caches m !! l = Some c /\ (id, v) ∈ entries c) vs rs /\
    forall l c, caches m !! l = Some c -> exists c', caches m' !! l = Some c' /\ popped vs l c c'.
Proof.
  revert m. induction vs as [|[l id] vs IH]; intros m Hnd Hin; simpl.
  { exists [], m. split_and!; auto. intros l c Hc. exists c. split; [done|]. split_and!; [by destruct c|done|].
    symmetry. apply filter_id, Forall_forall. intros kv _. unfold kept.
    by rewrite bool_decide_false by apply not_elem_of_nil. }
  apply NoDup_cons in Hnd as [Hni Hnd].
  destruct (Hin l id) as (c & Hc & Hid); [by left|]. rewrite Hc. cbn [mbind option_bind].
  destruct (lru_pop_law id (inner c)) as (Hf & Hcap & Hi).
  apply aget_is_Some in Hid as [v Hv]. rewrite Hv in Hf.
  destruct (lru_pop id (inner c)) as [o lr]. simpl in Hf, Hcap, Hi. subst o. cbn [mbind option_bind].
  set (c1 := with_inner lr c). set (m1 := at_layer l c1 m).
  destruct (IH m1 Hnd) as (rs & m' & Hr & Hst & Hlen & Hf2 & Hm').
  { intros l' id' Hin'. destruct (Hin l' id') as (c' & Hc' & Hid'); [by right|].
    unfold m1, at_layer. simpl. destruct (decide (l = l')) as [<-|].
    - exists c1. split; [apply list_lookup_insert_eq; by eapply lookup_lt_Some|].
      simpl. rewrite Hi. assert (c' = c) as -> by congruence. apply aget_is_Some. rewrite aget_adel.
      destruct (N.eqb_spec id' id) as [->|]; [done|]. by apply aget_is_Some.
    - exists c'. by rewrite list_lookup_insert_ne. }
  rewrite Hr. cbn [mbind option_bind]. exists (v :: rs), m'. split_and!; [done|done| | |].
  - rewrite Hlen. unfold m1, at_layer. simpl. apply length_insert.
  - constructor; [exists c; split; [done|by apply aget_Some_elem]|].
    eapply Forall2_impl; [exact Hf2|]. intros [l' id'] v' (c' & Hc' & Hin').
    unfold m1, at_layer in Hc'. simpl in Hc'. destruct (decide (l = l')) as [<-|].
    + rewrite list_lookup_insert_eq in Hc' by by eapply lookup_lt_Some. injection Hc' as <-.
      exists c. split; [done|]. simpl in Hin'. rewrite Hi in Hin'.
      apply (sublist_subseteq _ _ (adel_sublist id (entries c))). done.
    + exists c'. by rewrite list_lookup_insert_ne in Hc'.
  - intros l' c' Hc'. unfold m1, at_layer in Hm'. simpl in Hm'. destruct (decide (l = l')) as [<-|Hne].
    + assert (c' = c) as -> by congruence.
      destruct (Hm' l c1) as (c2 & Hc2 & Hw & Hcap2 & He2).
      { apply list_lookup_insert_eq. by eapply lookup_lt_Some. }
      exists c2. split; [done|]. split_and!; [by rewrite Hw|simpl in Hcap2; congruence|].
      rewrite He2. simpl. rewrite Hi, adel_filter, filter_filter. apply List.filter_ext.
      intros [k kv]. unfold kept. simpl. destruct (N.eqb_spec k id) as [->|]; simpl.
      * rewrite bool_decide_true; [done|by left].
      * f_equal. apply bool_decide_ext. rewrite elem_of_cons. naive_solver.
    + destruct (Hm' l' c') as (c2 & Hc2 & Hw & Hcap2 & He2); [by rewrite list_lookup_insert_ne|].
      exists c2. split; [done|]. split_and!; [done|done|]. rewrite He2. apply List.filter_ext.
      intros kv. unfold kept. f_equal. apply bool_decide_ext. rewrite elem_of_cons. naive_solver.
Qed.

(** *** Starting point *)

Lemma virtual_layer_initial c : initial_layer (virtual_layer c).
Proof.
  unfold virtual_layer. split.
  - rewrite omap_app. assert (omap resident_id (replicate (N.to_nat (ExpertCache.reserved_slots c)) OutstandingReservation) = []) as ->.
    { induction (N.to_nat _); simpl; done. }
    assert (omap resident_id ((fun kv => Resident (fst kv) (bool_decide (fst kv ∈ pinned c))) <$> entries c)
            = (entries c).*1) as ->; [|apply lru_iter_nodup].
    induction (entries c) as [|[k v] l IH]; csimpl; [done|]. by rewrite IH.
  - apply Forall_app. split; [by apply Forall_replicate|]. apply Forall_fmap, Forall_forall. done.
Qed.

Lemma length_virtual_layer c :
  N.of_nat (length (virtual_layer c)) = (ExpertCache.reserved_slots c + lru_len (inner c))%N.
Proof. unfold virtual_layer, lru_len. rewrite length_app, length_replicate, length_fmap. lia. Qed.

Definition plan_start (V0 : list (list VirtualCacheEntry)) (requested : list (N * nat * bool)) : plan_state :=
  {| p_layers := V0; p_total := sumN ((fun l => N.of_nat (length l)) <$> V0);
     p_evictions := []; p_victims := []; p_finals := (fun r => Some (r.1.2)) <$> requested |}.

Lemma plan_start_inv V0 requested : plan_inv V0 requested 0 (plan_start V0 requested).
Proof.
  split; simpl; auto.
  - intros l V HV. rewrite HV. f_equal. unfold req_entries. simpl. unfold res_entries. symmetry.
    apply filter_id, Forall_forall. by intros [id p| |] _.
  - by rewrite length_fmap.
  - intros i r Hr. left. by rewrite list_lookup_fmap, Hr.
  - constructor.
  - intros l id Hin. by apply elem_of_nil in Hin.
Qed.

Lemma lens_start m requested :
  multi_ok m -> lens_le (capacities m) (plan_start (virtual_layer <$> caches m) requested).
Proof.
  intros Hok. split; simpl; [unfold capacities; by rewrite !length_fmap|].
  intros l vl Hvl. rewrite list_lookup_fmap in Hvl. apply fmap_Some in Hvl as (c & Hc & ->).
  rewrite length_virtual_layer. pose proof (proj1 (Forall_lookup _ _) Hok _ _ Hc) as Hinv.
  assert (capacities m !!! l = capacity c) as ->.
  { unfold capacities. apply list_lookup_total_correct. by rewrite list_lookup_fmap, Hc. }
  pose proof (inv_room _ Hinv). lia.
Qed.

(** *** How many positions a layer reserves *)

Lemma length_req_entries (requested : list (N * nat * bool)) finals l :
  length finals = length requested ->
  N.of_nat (length (req_entries requested finals (length requested) l)) = count_layer l finals.
Proof.
  intros Hlen. unfold count_layer. f_equal. unfold req_entries.
  assert (Hperm : forall js, length (omap (req_entry requested l finals) (reverse js)) =
                             length (omap (req_entry requested l finals) js)).
  { intros js. apply Permutation_length. by rewrite reverse_Permutation. }
  rewrite Hperm, <-Hlen.
  assert (Hgen : forall pre fs, finals = pre ++ fs ->
    length (omap (req_entry requested l finals) (seq (length pre) (length fs))) =
    length (List.filter (fun f => bool_decide (f = Some l)) fs)).
  { intros pre fs. revert pre. induction fs as [|f fs IH]; intros pre Hf; [done|]. csimpl.
    assert (Hi : finals !! length pre = Some f) by by rewrite Hf, list_lookup_middle.
    unfold req_entry at 1. rewrite Hi.
    destruct (lookup_lt_is_Some_2 requested (length pre)) as [[[id l0] p] Hr].
    { rewrite <-Hlen. by eapply lookup_lt_Some. }
    rewrite Hr. specialize (IH (pre ++ [f])). rewrite length_app, Nat.add_1_r in IH.
    rewrite <-app_assoc in IH. specialize (IH Hf).
    destruct f as [l'|]; [|by rewrite bool_decide_false by done].
    destruct (decide (l' = l)) as [->|Hne].
    - rewrite bool_decide_true by done. simpl. by rewrite IH.
    - rewrite bool_decide_false by congruence. done. }
  by apply (Hgen [] finals).
Qed.

Lemma length_res_entries vs l c :
  N.of_nat (length (res_entries vs l (virtual_layer c))) =
  (ExpertCache.reserved_slots c + N.of_nat (length (List.filter (kept vs l) (entries c))))%N.
Proof.
  unfold res_entries, virtual_layer. rewrite List.filter_app, length_app, Nat2N.inj_add. f_equal.
  - rewrite filter_id; [rewrite length_replicate; lia|]. by apply Forall_replicate.
  - f_equal. induction (entries c) as [|kv es IH]; csimpl; [done|]. unfold kept at 1. simpl.
    destruct (negb _); simpl; by rewrite IH.
Qed.

Lemma try_layer_idx_bound id m l : try_layer_idx id m = Some l -> (l < length (caches m))%nat.
Proof. unfold try_layer_idx. destruct (Nat.ltb_spec (N.to_nat (id / experts_per_layer m)) (length (caches m))); naive_solver. Qed.

Lemma validate_ok m ids seen per done layers :
  validate_requests m ids seen per done = Ok layers ->
  NoDup ids /\ (forall id, id ∈ ids -> id ∉ seen) /\
  exists ls, layers = done ++ ls /\ Forall2 (fun id l => try_layer_idx id m = Some l) ids ls.
Proof.
  revert seen per done. induction ids as [|id ids IH]; intros seen per done; simpl.
  { intros [= <-]. split_and!; [constructor|set_solver|]. exists []. by rewrite app_nil_r. }
  case_bool_decide as Hs; [done|]. intros (l & Hl%ok_or_ok & H)%result_bind_ok.
  destruct (_ <? _)%N; [done|]. apply IH in H as (Hnd & Hni & ls & -> & Hf).
  split_and!.
  - constructor; [|done]. intros Hin. apply (Hni _ Hin). set_solver.
  - intros k [->|Hk]%elem_of_cons; [done|]. specialize (Hni _ Hk). set_solver.
  - exists (l :: ls). rewrite <-app_assoc. split; [done|]. by constructor.
Qed.

(** Everything a successful plan says about the caches it was made for. *)
Record reserved_from m m' (ids : list N) (layers : list nat) (s : plan_state)
    (oc : MultiLayerCacheReservationOutcome) : Prop := {
  rf_nodup : NoDup ids;
  rf_layers : Forall2 (fun id l => try_layer_idx id m = Some l) ids layers;
  rf_policy : Forall (fun c => cost_aware c = false) (caches m);
  rf_plan : plan_loop (capacities m) 0 (zip_with (request_of m) ids layers)
              (plan_start (virtual_layer <$> caches m) (zip_with (request_of m) ids layers)) = Ok s;
  rf_inv : plan_inv (virtual_layer <$> caches m) (zip_with (request_of m) ids layers) (length ids) s;
  rf_evictions : oc_eviction_ids oc = p_evictions s;
  rf_requests : rv_requests (reservation oc) = zip ids (p_finals s) /\ next_request (reservation oc) = 0%nat;
  rf_victims : Forall2 (fun '(l, id) v => exists c, caches m !! l = Some c /\ (id, v) ∈ entries c)
                 (p_victims s) (victims oc);
  rf_len : length (caches m') = length (caches m) /\ experts_per_layer m' = experts_per_layer m;
  rf_guard : length (rv_layers (reservation oc)) = length (caches m);
  rf_caches : forall l c, caches m !! l = Some c ->
    exists c', caches m' !! l = Some c' /\ cache_inv c' /\ pinned c' = pinned c /\
      capacity c' = capacity c /\ cost_aware c' = cost_aware c /\
      entries c' = List.filter (kept (p_victims s) l) (entries c) /\
      ExpertCache.reserved_slots c' =
        (ExpertCache.reserved_slots c + count_layer l (p_finals s))%N /\
      rv_layers (reservation oc) !! l =
        Some (if (0 <? count_layer l (p_finals s))%N then Some (count_layer l (p_finals s)) else None);
}.

Lemma zip_requests m ids layers :
  length ids = length layers -> length (zip_with (request_of m) ids layers) = length ids.
Proof. intros. rewrite length_zip_with. lia. Qed.

Lemma plan_victim_resident m requested k s l id :
  plan_inv (virtual_layer <$> caches m) requested k s -> (l, id) ∈ p_victims s ->
  exists c, caches m !! l = Some c /\ id ∈ (entries c).*1 /\ id ∉ pinned c.
Proof.
  intros Hp Hin. destruct (pi_victims _ _ _ _ Hp l id Hin) as (V & HV & Hr).
  rewrite list_lookup_fmap in HV. apply fmap_Some in HV as (c & Hc & ->). exists c. split; [done|].
  unfold virtual_layer in Hr. apply elem_of_app in Hr as [Hr|Hr].
  - by apply elem_of_replicate in Hr as [? _].
  - apply list_elem_of_fmap in Hr as ([k' v] & [= -> Hp'] & Hin'). split.
    + by apply (list_elem_of_fmap_2 fst _ (k', v)).
    + symmetry in Hp'. by apply bool_decide_eq_false in Hp'.
Qed.

(** The reserved layer: its invariant, from the planned length. *)
Lemma reserve_layer_ok vs finals l c c' n :
  cache_inv c -> popped vs l c c' ->
  (ExpertCache.reserved_slots c + N.of_nat (length (List.filter (kept vs l) (entries c))) + n <= capacity c)%N ->
  n = count_layer l finals ->
  let '(g, c2) := reserve_layer finals l c' in
  cache_inv c2 /\ pinned c2 = pinned c /\ capacity c2 = capacity c /\ cost_aware c2 = cost_aware c /\
  entries c2 = entries c' /\ ExpertCache.reserved_slots c2 = (ExpertCache.reserved_slots c + n)%N /\
  g = if (0 <? n)%N then Some n else None.
Proof.
  intros Hinv (Hw & Hcap & He) Hroom ->.
  assert (Hsh : shrinks c c').
  { split_and!; [done|done|]. rewrite He. clear. induction (entries c) as [|kv es IH]; simpl; [done|].
    destruct (kept vs l kv); by constructor. }
  pose proof (shrinks_inv _ _ Hsh Hinv) as Hinv'. pose proof (inv_size _ Hinv) as Hsz.
  assert (Hf : pinned c' = pinned c /\ capacity c' = capacity c /\ cost_aware c' = cost_aware c /\
    ExpertCache.reserved_slots c' = ExpertCache.reserved_slots c) by by rewrite Hw.
  destruct Hf as (Hp & Hc & Ha & Hr).
  unfold reserve_layer. destruct (N.ltb_spec 0 (count_layer l finals)) as [Hpos|Hz].
  - unfold reservation_new. rewrite wrap_add_small by lia. simpl. rewrite Hr.
    split_and!; try done. eapply (cache_inv_eq c'); simpl; auto.
    unfold lru_len. rewrite He, Hc. lia.
  - assert (count_layer l finals = 0%N) as -> by lia. rewrite N.add_0_r. done.
Qed.

Lemma try_reserve_structure ids m :
  multi_ok m ->
  exists o m', try_reserve_exact_demand ids m = Some (o, m') /\
    match o with
    | Err _ => m' = m
    | Ok oc => exists layers s, reserved_from m m' ids layers s oc
    end.
Proof.
  intros Hok. unfold try_reserve_exact_demand.
  match goal with |- context [match ?x with Ok _ => _ | Err _ => _ end] =>
    destruct x as [plan|e] eqn:Eplan end; [|by exists (Err e), m].
  apply result_bind_ok in Eplan as (layers & Hval & Eplan).
  apply validate_ok in Hval as (Hnd & _ & ls & Hls & Hf2). simpl in Hls. subst ls.
  destruct (existsb cost_aware (caches m)) eqn:Epol; [done|].
  assert (Hpol : Forall (fun c => cost_aware c = false) (caches m)).
  { apply Forall_forall. intros c Hin. destruct (cost_aware c) eqn:E; [|done].
    assert (existsb cost_aware (caches m) = true); [|congruence].
    apply existsb_exists. exists c. split; [by apply list_elem_of_In|done]. }
  unfold plan_sequential_victims in Eplan. apply result_bind_ok in Eplan as (s & Hloop & [= <-]). simpl.
  set (requested := zip_with (request_of m) ids layers) in *.
  assert (Hlen : length requested = length ids) by (apply zip_requests; by eapply Forall2_length).
  pose proof (proj1 (Forall_lookup _ _) Hok) as Hinvs.
  destruct (plan_loop_inv (virtual_layer <$> caches m) requested (capacities m) requested 0
    (plan_start (virtual_layer <$> caches m) requested) s) as [Hp [Hcl Hle]]; auto.
  { apply Forall_fmap, Forall_forall. intros. apply virtual_layer_initial. }
  { apply Forall_fmap. eapply Forall_impl; [exact Hok|]. intros c Hc. apply (inv_size _ Hc). }
  { apply Forall_lookup. intros i [[id l] p] Hi. apply lookup_zip_with_Some in Hi as (id' & l' & [= -> -> ->] & Hid & Hl).
    simpl. rewrite length_fmap. apply (try_layer_idx_bound id').
    by apply (Forall2_lookup_lr _ _ _ _ _ _ Hf2 Hid Hl). }
  { apply plan_start_inv. }
  { by apply lens_start. }
  rewrite Hlen in Hp. simpl in Hp.
  destruct (pop_victims_ok (p_victims s) m (pi_nodup _ _ _ _ Hp)) as (rs & m1 & Hpop & Hst & Hl1 & Hv & Hm1).
  { intros l id Hin. destruct (plan_victim_resident _ _ _ _ _ _ Hp Hin) as (c & ? & ? & _). eauto. }
  rewrite Hpop. cbn [mbind option_bind].
  do 2 eexists. split; [reflexivity|]. exists layers, s. split; auto.
  { simpl. by rewrite !length_fmap, length_imap. }
  { simpl. by rewrite length_fmap, length_imap. }
  intros l c Hc. destruct (Hm1 l c Hc) as (c' & Hc' & Hpd).
  pose proof (reserve_layer_ok (p_victims s) (p_finals s) l c c' (count_layer l (p_finals s)) (Hinvs _ _ Hc) Hpd) as Hrl.
  assert (Hroom : (ExpertCache.reserved_slots c + N.of_nat (length (List.filter (kept (p_victims s) l) (entries c)))
    + count_layer l (p_finals s) <= capacity c)%N).
  { assert (HV : (virtual_layer <$> caches m) !! l = Some (virtual_layer c)) by by rewrite list_lookup_fmap, Hc.
    pose proof (pi_layers _ _ _ _ Hp _ _ HV) as Hlay. specialize (Hle _ _ Hlay).
    assert (capacities m !!! l = capacity c) as Hcap.
    { unfold capacities. apply list_lookup_total_correct. by rewrite list_lookup_fmap, Hc. }
    rewrite Hcap, length_app, Nat2N.inj_add, <-Hlen, length_req_entries, length_res_entries in Hle;
      [lia|]. by rewrite (pi_finals _ _ _ _ Hp). }
  specialize (Hrl Hroom eq_refl).
  destruct (reserve_layer (p_finals s) l c') as [g c2] eqn:Erl.
  exists c2. simpl. rewrite !list_lookup_fmap, list_lookup_imap, Hc'. simpl. rewrite Erl. simpl.
  destruct Hrl as (? & ? & ? & ? & He2 & ? & Hg). destruct Hpd as (_ & _ & Hec).
  split_and!; try done; congruence.
Qed.

Definition guard_size (oc : MultiLayerCacheReservationOutcome) (l : nat) : N :=
  match rv_layers (reservation oc) !! l with Some (Some n) => n | _ => 0%N end.

(** C2. The exact-demand transaction is safe in the presence of pins and of other
    transactions' reservations.  It never panics (every planned victim is
    where the plan says); an error leaves every cache exactly as it was; on
    success each layer keeps its invariant, gains exactly the reservations of
    its guard on top of the existing ones, keeps its pins, and loses only
    residents that are handed back as victims and were not pinned. *)
Theorem try_reserve_exact_demand_safe ids m :
  multi_ok m ->
  exists o m', try_reserve_exact_demand ids m = Some (o, m') /\ multi_ok m' /\
    match o with
    | Err _ => m' = m
    | Ok oc => length (caches m') = length (caches m) /\
        forall l c, caches m !! l = Some c -> exists c', caches m' !! l = Some c' /\
          pinned c' = pinned c /\ capacity c' = capacity c /\
          ExpertCache.reserved_slots c' = (ExpertCache.reserved_slots c + guard_size oc l)%N /\
          (entries c' `sublist_of` entries c) /\
          forall k v, (k, v) ∈ entries c ->
            (k, v) ∈ entries c' \/ (v ∈ victims oc /\ (k ∉ pinned c) /\ k ∉ (entries c').*1)
    end.
Proof.
  intros Hok. destruct (try_reserve_structure ids m Hok) as (o & m' & Hr & Ho).
  exists o, m'. split; [done|]. destruct o as [oc|e]; [|by subst].
  destruct Ho as (layers & s & [Hnd Hlay Hpol Hplan Hinv Hev Hreq Hv [Hl Hst] _ Hc]).
  assert (Hok' : multi_ok m').
  { apply Forall_lookup. intros l c' Hc'.
    destruct (lookup_lt_is_Some_2 (caches m) l) as [c Hcl]; [rewrite <-Hl; by eapply lookup_lt_Some|].
    destruct (Hc l c Hcl) as (c2 & Hc2 & Hi & _). congruence. }
  split; [done|]. split; [done|]. intros l c Hcl.
  destruct (Hc l c Hcl) as (c' & Hc' & _ & Hp & Hcap & _ & He & Hres & Hg).
  exists c'. split_and!; [done..| | |].
  - rewrite Hres. unfold guard_size. rewrite Hg.
    destruct (N.ltb_spec 0 (count_layer l (p_finals s))); [done|lia].
  - rewrite He. clear. induction (entries c) as [|kv es IH]; simpl; [done|]. destruct (kept _ _ kv); by constructor.
  - intros k v Hin. rewrite He. destruct (decide ((l, k) ∈ p_victims s)) as [Hkv|Hkv].
    + right. split_and!.
      * apply list_elem_of_lookup in Hkv as [i Hi].
        destruct (Forall2_lookup_l _ _ _ _ _ Hv Hi) as (v' & Hv' & c2 & Hc2 & Hin2).
        assert (c2 = c) as -> by congruence. pose proof (lru_iter_nodup (inner c)) as Hnd'.
        apply (aget_elem _ _ _ Hnd') in Hin, Hin2. assert (v' = v) as -> by congruence.
        by eapply list_elem_of_lookup_2.
      * destruct (plan_victim_resident _ _ _ _ _ _ Hinv Hkv) as (c2 & Hc2 & _ & Hnp). congruence.
      * intros ([k2 v2] & -> & Hin2)%list_elem_of_fmap. apply list_elem_of_In, List.filter_In in Hin2 as [_ Hk2].
        unfold kept in Hk2. simpl in *. by rewrite bool_decide_true in Hk2.
    + left. apply list_elem_of_In, List.filter_In. split; [by apply list_elem_of_In|].
      unfold kept. simpl. by rewrite bool_decide_false.
Qed.
End realise.

(** ** The plan simulates sequential fetching *)

Section simulate.
Context `{!LruCache ExpertResident, !LruLaws ExpertResident}.
Variable powi : f64 -> Z -> f64.
Implicit Types (c : ExpertCache) (m : MultiLayerExpertCache) (h : heap).
Abbreviation entries c := (lru_iter (inner c)).
Abbreviation unpinned_entry := (fun e => negb (entry_pinned e)).

Definition dummy_resident : ExpertResident :=
  {| r_ref := 0; r_id := 0;
     r_buffer := {| buffer := {| ptr := 0; bytes := []; align := 0 |}; slot := Primary |};
     qualification_shared_payload := None; payload_offset := 0; mixed_layout := None |}.

Context (m0 : MultiLayerExpertCache) (ids : list N) (layers : list nat) (rs : list ExpertResident).
Context (Hok : multi_ok m0) (Hrs : Forall2 (fun id r => r_id r = id) ids rs).
Context (Hlay : Forall2 (fun id l => try_layer_idx id m0 = Some l) ids layers).
Context (Hnd : NoDup ids) (Habsent : Forall (fun id => contains id m0 = false) ids).

Definition requests : list (N * nat * bool) := zip_with (request_of m0) ids layers.

(** The cache entry a virtual entry of layer [l] stands for. *)
Definition real (l : nat) (e : VirtualCacheEntry) : N * ExpertResident :=
  match e with
  | Resident id _ => (id, default dummy_resident (c ← caches m0 !! l; aget id (entries c)))
  | Requested id j _ => (id, default dummy_resident (rs !! j))
  | OutstandingReservation => (0%N, dummy_resident)
  end.

Definition good_entry (k l : nat) (e : VirtualCacheEntry) : Prop :=
  exists c, caches m0 !! l = Some c /\
  match e with
  | Resident id p => p = bool_decide (id ∈ pinned c) /\ id ∈ (entries c).*1
  | Requested id j p => p = bool_decide (id ∈ pinned c) /\ ids !! j = Some id /\ (j < k)%nat
  | OutstandingReservation => False
  end.

(** A plain cache in the policy the transaction supports, like [c0]. *)
Definition like c0 c : Prop :=
  cache_inv c /\ cost_aware c = false /\ ExpertCache.reserved_slots c = 0%N /\
  pinned c = pinned c0 /\ capacity c = capacity c0.

Record sim (k : nat) (s : plan_state) m : Prop := {
  sim_len : length (p_layers s) = length (caches m0) /\ length (caches m) = length (caches m0);
  sim_stride : experts_per_layer m = experts_per_layer m0;
  sim_layer : forall l c0, caches m0 !! l = Some c0 -> exists c vl,
    caches m !! l = Some c /\ p_layers s !! l = Some vl /\ like c0 c /\
    entries c = real l <$> vl /\ Forall (good_entry k l) vl;
}.

Lemma real_pinned k l c0 e :
  caches m0 !! l = Some c0 -> good_entry k l e ->
  negb (bool_decide (fst (real l e) ∈ pinned c0)) = unpinned_entry e.
Proof.
  intros Hc0 (c & Hc & He). assert (c = c0) as -> by congruence.
  destruct e as [id p| |id j p]; simpl; [by destruct He as [-> _]|done|by destruct He as (-> & _)].
Qed.

Lemma sim_rposition k l c0 c vl :
  caches m0 !! l = Some c0 -> pinned c = pinned c0 -> entries c = real l <$> vl ->
  Forall (good_entry k l) vl ->
  rposition (unpinned_key c) (entries c) = rposition unpinned_entry vl.
Proof.
  intros Hc0 Hp He Hg. rewrite He, rposition_fmap. apply rposition_ext.
  eapply Forall_impl; [exact Hg|]. intros e Hge. unfold unpinned_key. rewrite Hp.
  by apply (real_pinned k).
Qed.

(** Replacing one layer on both sides. *)
Lemma sim_update k k' s s' m l c0 c c' vl vl' :
  sim k s m -> (k <= k')%nat -> caches m0 !! l = Some c0 -> caches m !! l = Some c ->
  p_layers s' = <[l := vl']> (p_layers s) -> p_layers s !! l = Some vl ->
  c' = with_inner (inner c') c -> lru_cap (inner c') = lru_cap (inner c) ->
  entries c' = real l <$> vl' -> Forall (good_entry k' l) vl' ->
  (N.of_nat (length vl') <= capacity c0)%N ->
  sim k' s' (at_layer l c' m).
Proof.
  intros [[Hl1 Hl2] Hst Hsim] Hkk Hc0 Hc Hs' Hvl Hw Hcap He Hg Hlen.
  split; [split; [by rewrite Hs', length_insert|simpl; by rewrite length_insert]|done|].
  intros l' c0' Hc0'. destruct (decide (l = l')) as [<-|Hne].
  - exists c', vl'. simpl. rewrite Hs', !list_lookup_insert_eq by (eapply lookup_lt_Some; eauto).
    assert (c0' = c0) as -> by congruence.
    destruct (Hsim l c0 Hc0) as (c2 & vl2 & Hc2 & Hvl2 & (Hinv & Hpol & Hres & Hp & Hcp) & He2 & _).
    assert (c2 = c) as -> by congruence.
    split_and!; try done. destruct Hinv as [Hi1 Hi2 Hi3 Hi4].
    assert (Hf : capacity c' = capacity c /\ pinned c' = pinned c /\ cost_aware c' = cost_aware c /\
      ExpertCache.reserved_slots c' = ExpertCache.reserved_slots c) by by rewrite Hw.
    destruct Hf as (Hf1 & Hf2 & Hf3 & Hf4).
    split_and!; try congruence. split; rewrite ?Hf1, ?Hf4; try congruence; try done.
    + rewrite He. apply Forall_fmap. eapply Forall_impl; [exact Hg|]. intros e (cx & Hcx & Hge).
      assert (cx = c0) as -> by congruence. simpl.
      destruct e as [id p| |id j p]; simpl; [|done|].
      * rewrite Hc0. simpl. destruct Hge as [_ Hin]. apply aget_is_Some in Hin as [v Hv]. rewrite Hv. simpl.
        pose proof (inv_keys _ (proj1 (Forall_lookup _ _) Hok _ _ Hc0)) as Hkeys.
        rewrite Forall_forall in Hkeys. by apply (Hkeys (id, v)), aget_Some_elem.
      * destruct Hge as (_ & Hj & _). destruct (Forall2_lookup_l _ _ _ _ _ Hrs Hj) as (r & Hr & Hid).
        by rewrite Hr.
    + unfold lru_len. rewrite He, length_fmap. lia.
  - destruct (Hsim l' c0' Hc0') as (c2 & vl2 & Hc2 & Hvl2 & Hlike & He2 & Hg2).
    exists c2, vl2. simpl. rewrite Hs', !list_lookup_insert_ne by done. split_and!; try done.
    eapply Forall_impl; [exact Hg2|]. intros e (cx & Hcx & Hge). exists cx. split; [done|].
    destruct e as [id p| |id j p]; try done. destruct Hge as (? & ? & ?). split_and!; try done. lia.
Qed.

Definition evicted (o : option ExpertResident) : list N :=
  match o with Some v => [r_id v] | None => [] end.

(** A layer's entry list, position by position. *)
Lemma sim_entry k s m l c0 c vl W1 e W2 kk v :
  sim k s m -> caches m0 !! l = Some c0 -> caches m !! l = Some c -> p_layers s !! l = Some vl ->
  vl = W1 ++ e :: W2 -> entries c !! length W1 = Some (kk, v) ->
  delete (length W1) (entries c) = real l <$> (W1 ++ W2) /\
  real l e = (kk, v) /\ r_id v = kk /\
  Forall (good_entry k l) (W1 ++ W2) /\ (N.of_nat (length (W1 ++ W2)) <= capacity c0)%N /\ good_entry k l e.
Proof.
  intros [_ _ Hsim] Hc0 Hc Hvl -> Hi.
  destruct (Hsim l c0 Hc0) as (c2 & vl2 & Hc2 & Hvl2 & (Hinv & _ & _ & _ & Hcp) & He & Hg).
  assert (c2 = c) as -> by congruence. assert (vl2 = W1 ++ e :: W2) as -> by congruence.
  pose proof (inv_keys _ Hinv) as Hkeys. pose proof (inv_room _ Hinv) as Hroom. unfold lru_len in Hroom.
  rewrite He, length_fmap, length_app in Hroom. simpl in Hroom.
  rewrite He, fmap_app in Hi. csimpl in *.
  assert (Hre : real l e = (kk, v)).
  { rewrite <-(length_fmap (real l) W1), list_lookup_middle in Hi by done. congruence. }
  assert (Hkey : kk = r_id v).
  { rewrite He, Forall_forall in Hkeys. apply (Hkeys (kk, v)). rewrite <-Hre.
    apply list_elem_of_fmap_2. set_solver. }
  apply Forall_app in Hg as [? [? ?]%Forall_cons].
  split_and!; auto; [|by apply Forall_app|rewrite length_app; lia].
  rewrite He, !fmap_app. csimpl. rewrite <-(length_fmap (real l) W1). apply delete_middle.
Qed.

Lemma sim_remove k s m l b s' h c0 c :
  sim k s m -> caches m0 !! l = Some c0 -> caches m !! l = Some c -> remove_victim l s = Ok (b, s') ->
  let '(o, c') := ExpertCache.evict_lru powi c h in
  sim k s' (at_layer l c' m) /\ p_evictions s' = p_evictions s ++ evicted o /\
  b = bool_decide (is_Some o).
Proof.
  intros Hs Hc0 Hc Hr%remove_victim_cases.
  destruct (sim_layer _ _ _ Hs l c0 Hc0) as (c2 & vl & Hc2 & Hvl & (Hinv & Hpol & Hres & Hp & Hcp) & He & Hg).
  assert (c2 = c) as -> by congruence. rewrite (list_lookup_total_correct _ _ _ Hvl) in Hr.
  pose proof (evict_layer powi c h Hpol) as Hev.
  rewrite (sim_rposition k l c0 c vl Hc0 Hp He Hg) in Hev.
  destruct (ExpertCache.evict_lru powi c h) as [o c']. destruct Hev as (Hw & Hcap & Hev).
  pose proof (inv_room _ Hinv) as Hroom. unfold lru_len in Hroom. rewrite He, length_fmap in Hroom.
  destruct (rposition unpinned_entry vl) as [i|].
  - destruct Hr as (-> & e & id & W1 & W2 & Hvs & <- & _ & Hlay' & _ & Hevs & Hid).
    destruct Hev as (kk & v & Hi & -> & Hd).
    destruct (sim_entry k s m l c0 c vl W1 e W2 kk v Hs Hc0 Hc Hvl Hvs Hi) as (Hdel & Hre & Hkk & Hg' & Hlen & _).
    split_and!.
    + eapply (sim_update k k s s' m l c0 c c' vl (W1 ++ W2)); eauto. congruence.
    + rewrite Hevs. simpl. do 2 f_equal.
      destruct e as [id' p'| |id' j p']; simpl in Hre; [|done|]; destruct Hid as [<- _]; congruence.
    + done.
  - destruct Hr as [-> ->]. destruct Hev as [-> Hsame]. split_and!; [|by rewrite app_nil_r|done].
    eapply (sim_update k k s s m l c0 c c' vl vl); eauto; [|by rewrite Hsame|].
    + by rewrite list_insert_id.
    + rewrite <-Hcp. lia.
Qed.

Lemma sim_cache k s m l : sim k s m -> (l < length (caches m0))%nat ->
  exists c0 c, caches m0 !! l = Some c0 /\ caches m !! l = Some c.
Proof.
  intros Hs Hl. destruct (lookup_lt_is_Some_2 _ _ Hl) as [c0 Hc0].
  destruct (sim_layer _ _ _ Hs l c0 Hc0) as (c & vl & Hc & _). eauto.
Qed.

Lemma sim_remove_from k ls s m b s' h :
  sim k s m -> Forall (fun l => (l < length (caches m0))%nat) ls ->
  remove_from ls s = Ok (b, s') ->
  let '(o, m') := evict_from (fun c => ExpertCache.evict_lru powi c h) ls m in
  sim k s' m' /\ p_evictions s' = p_evictions s ++ evicted o /\ b = bool_decide (is_Some o).
Proof.
  revert s m. induction ls as [|l ls IH]; intros s m Hs Hls Hr; cbn [remove_from evict_from] in *.
  { injection Hr as <- <-. rewrite app_nil_r. done. }
  apply Forall_cons in Hls as [Hl Hls]. apply result_bind_ok in Hr as ([b1 s1] & Hv & Hr).
  destruct (sim_cache k s m l Hs Hl) as (c0 & c & Hc0 & Hc). rewrite Hc.
  pose proof (sim_remove k s m l b1 s1 h c0 c Hs Hc0 Hc Hv) as Hsr.
  destruct (ExpertCache.evict_lru powi c h) as [o c']. destruct Hsr as (Hs1 & Hev1 & ->).
  destruct o as [v|]; simpl in Hr.
  - injection Hr as <- <-. simpl. split_and!; [|done|done].
    destruct Hs1 as [? ? ?]. by split.
  - assert (Hrec := IH s1 (at_layer l c' m) Hs1 Hls Hr).
    destruct (evict_from _ ls (at_layer l c' m)) as [o' m']. simpl in Hev1. rewrite app_nil_r in Hev1.
    by rewrite <-Hev1.
Qed.

(** Both sides see the same lengths. *)
Lemma sim_lens k s m : sim k s m -> layer_lens s = cache_lens m /\ capacities m = capacities m0.
Proof.
  intros [[Hl1 Hl2] _ Hsim]. split; apply list_eq; intros l.
  - unfold layer_lens, cache_lens. rewrite !list_lookup_fmap.
    destruct (decide (l < length (caches m0))%nat) as [Hl|Hl].
    + destruct (lookup_lt_is_Some_2 _ _ Hl) as [c0 Hc0].
      destruct (Hsim l c0 Hc0) as (c & vl & -> & -> & _ & He & _). simpl. unfold lru_len.
      by rewrite He, length_fmap.
    + rewrite !lookup_ge_None_2; [done|lia..].
  - unfold capacities. rewrite !list_lookup_fmap.
    destruct (decide (l < length (caches m0))%nat) as [Hl|Hl].
    + destruct (lookup_lt_is_Some_2 _ _ Hl) as [c0 Hc0].
      destruct (Hsim l c0 Hc0) as (c & vl & -> & _ & (_ & _ & _ & _ & Hcp) & _). rewrite Hc0. simpl. by rewrite Hcp.
    + rewrite !lookup_ge_None_2; [done|lia..].
Qed.

Lemma try_layer_idx_eq m id :
  length (caches m) = length (caches m0) -> experts_per_layer m = experts_per_layer m0 ->
  try_layer_idx id m = try_layer_idx id m0.
Proof. intros Hl Hst. unfold try_layer_idx. by rewrite Hl, Hst. Qed.

(** A request not yet processed is in no cache. *)
Lemma request_absent k l c0 c vl id :
  ids !! k = Some id -> try_layer_idx id m0 = Some l -> caches m0 !! l = Some c0 ->
  entries c = real l <$> vl -> Forall (good_entry k l) vl ->
  ExpertCache.contains id c = false.
Proof.
  intros Hk Hl Hc0 He Hg. destruct (ExpertCache.contains id c) eqn:E; [|done].
  apply contains_iff in E. rewrite He, <-list_fmap_compose in E.
  apply list_elem_of_fmap in E as (e & Hid & Hin). rewrite Forall_forall in Hg.
  destruct (Hg e Hin) as (cx & Hcx & Hge). assert (cx = c0) as -> by congruence.
  destruct e as [id' p| |id' j p]; simpl in Hid; [|done|]; subst id'.
  - destruct Hge as [_ Hin0]. apply contains_iff in Hin0.
    pose proof (proj1 (Forall_lookup _ _) Habsent _ _ Hk) as Ha. unfold contains in Ha.
    rewrite Hl in Ha. simpl in Ha. rewrite Hc0 in Ha. congruence.
  - destruct Hge as (_ & Hj & Hlt). pose proof (NoDup_lookup _ _ _ _ Hnd Hj Hk). lia.
Qed.

(** The insertion half of a fetch. *)
Lemma sim_insert k s m id target p s2 r h :
  sim k s m -> ids !! k = Some id -> layers !! k = Some target -> rs !! k = Some r ->
  (caches m0 !! target = None \/ exists c0, caches m0 !! target = Some c0 /\ p = bool_decide (id ∈ pinned c0)) ->
  (if (capacities m0 !!! target <=? N.of_nat (length (p_layers s !!! target)))%N then
     '(removed, s) ← remove_victim target s;
     if removed : bool then Ok (with_total (p_total s - 1) s) else Err VictimUnavailable
   else Ok s) = Ok s2 ->
  let s' := {| p_layers := <[target := Requested id k p :: p_layers s2 !!! target]> (p_layers s2);
               p_total := p_total s2 + 1; p_evictions := p_evictions s2; p_victims := p_victims s2;
               p_finals := p_finals s2 |} in
  let '(o, m', h') := insert powi r m h in
  h' = h /\ sim (S k) s' m' /\
  p_evictions s' = p_evictions s ++ match o with Ok (Some v) => [r_id v] | _ => [] end.
Proof.
  intros Hs Hid Htl Hr Hp Hstep s'.
  assert (Hrid : r_id r = id) by exact (Forall2_lookup_lr _ _ _ _ _ _ Hrs Hid Hr).
  assert (Hidx : try_layer_idx id m0 = Some target) by exact (Forall2_lookup_lr _ _ _ _ _ _ Hlay Hid Htl).
  destruct (sim_cache k s m target Hs (try_layer_idx_bound _ _ _ Hidx)) as (c0 & c & Hc0 & Hc).
  destruct (sim_layer _ _ _ Hs target c0 Hc0) as (c2 & vl & Hc2 & Hvl & (Hinv & Hpol & Hres & Hpin & Hcp) & He & Hg).
  assert (c2 = c) as -> by congruence.
  destruct Hp as [?|(cx & Hcx & ->)]; [congruence|]. assert (cx = c0) as -> by congruence.
  pose proof (request_absent k target c0 c vl id Hid Hidx Hc0 He Hg) as Habs.
  unfold insert. rewrite Hrid, (try_layer_idx_eq m) by apply Hs. rewrite Hidx. simpl. rewrite Hc. simpl.
  pose proof (insert_layer powi r c h Hinv Hpol Hres) as Hins. rewrite Hrid in Hins. specialize (Hins Habs).
  rewrite (sim_rposition k target c0 c vl Hc0 Hpin He Hg) in Hins.
  assert (Hcaps : capacities m0 !!! target = capacity c).
  { unfold capacities. rewrite (list_lookup_total_correct _ _ (capacity c0)) by by rewrite list_lookup_fmap, Hc0. done. }
  assert (Hlen : lru_len (inner c) = N.of_nat (length vl)) by (unfold lru_len; by rewrite He, length_fmap).
  rewrite Hcaps, (list_lookup_total_correct _ _ _ Hvl) in Hstep. rewrite Hlen in Hins.
  destruct (ExpertCache.insert powi r c h) as [[o c'] h']. destruct Hins as (-> & Hw & Hcap & Hins).
  split; [done|].
  assert (Hnew : good_entry (S k) target (Requested id k (bool_decide (id ∈ pinned c0)))).
  { exists c0. split; [done|]. split_and!; [done|done|lia]. }
  assert (Hmono : forall W, Forall (good_entry k target) W -> Forall (good_entry (S k) target) W).
  { intros W HW. eapply Forall_impl; [exact HW|]. intros e (cx & Hcx' & Hge). exists cx. split; [done|].
    destruct e as [| |id' j p']; try done. destruct Hge as (? & ? & ?). split_and!; auto. }
  assert (Hreal : forall q, real target (Requested id k q) = (id, r)) by (intros; simpl; by rewrite Hr).
  destruct (N.leb_spec (capacity c) (N.of_nat (length vl))) as [Hfull|Hroom].
  - apply result_bind_ok in Hstep as ([b s3] & Hrv & Hstep). apply remove_victim_cases in Hrv.
    rewrite (list_lookup_total_correct _ _ _ Hvl) in Hrv.
    destruct (rposition unpinned_entry vl) as [i|]; [|by destruct Hrv as [-> _]].
    destruct Hrv as (-> & e & ide & W1 & W2 & Hvs & <- & _ & Hlay' & _ & Hevs & Hide).
    injection Hstep as <-. destruct Hins as (kk & v & Hi & -> & Hent).
    destruct (sim_entry k s m target c0 c vl W1 e W2 kk v Hs Hc0 Hc Hvl Hvs Hi) as (Hdel & Hre & Hkk & Hg' & Hlen' & _).
    assert (Htt : p_layers s' = <[target := Requested id k (bool_decide (id ∈ pinned c0)) :: W1 ++ W2]> (p_layers s)).
    { simpl. rewrite Hlay', list_lookup_total_insert_eq by by eapply lookup_lt_Some. by rewrite list_insert_insert_eq. }
    split.
    + eapply (sim_update k (S k) s s' m target c0 c c' vl); eauto.
      * rewrite Hent, Hdel. csimpl. by rewrite Hr.
      * pose proof (inv_room _ Hinv) as Hrm. rewrite Hlen, Hvs, length_app in Hrm. simpl in *.
        rewrite length_app. rewrite <-Hcp. lia.
    + simpl. rewrite Hevs. do 2 f_equal.
      destruct e as [id' p'| |id' j p']; simpl in Hre; [|done|]; destruct Hide as [<- _]; congruence.
  - injection Hstep as <-. destruct Hins as [-> Hent]. split; [|by rewrite app_nil_r].
    eapply (sim_update k (S k) s s' m target c0 c c' vl (Requested id k (bool_decide (id ∈ pinned c0)) :: vl)); eauto.
    + simpl. by rewrite (list_lookup_total_correct _ _ _ Hvl).
    + rewrite Hent, He. csimpl. by rewrite Hr.
    + simpl. rewrite <-Hcp. lia.
Qed.

Lemma requests_lookup k id target p :
  requests !! k = Some (id, target, p) ->
  ids !! k = Some id /\ layers !! k = Some target /\
  exists r, rs !! k = Some r /\
  (caches m0 !! target = None \/
   exists c0, caches m0 !! target = Some c0 /\ p = bool_decide (id ∈ pinned c0)).
Proof.
  intros (id' & l & Heq & Hid & Hl)%lookup_zip_with_Some. injection Heq as -> -> ->.
  split; [done|]. split; [done|].
  destruct (Forall2_lookup_l _ _ _ _ _ Hrs Hid) as (r & Hr & _). exists r. split; [done|].
  destruct (caches m0 !! l) as [c0|]; [right; eauto|by left].
Qed.

Lemma sim_one k s m id target p s' r h :
  sim k s m -> p_total s = sumN (layer_lens s) ->
  requests !! k = Some (id, target, p) -> rs !! k = Some r ->
  plan_one (capacities m0) s k (id, target, p) = Ok s' ->
  let '(e, m', h') := fetch_once_cache powi r m h in
  h' = h /\ sim (S k) s' m' /\ p_evictions s' = p_evictions s ++ e.
Proof.
  intros Hs Htot Hk Hr Hone. destruct (requests_lookup _ _ _ _ Hk) as (Hid & Htl & r' & Hr' & Hp).
  assert (r' = r) as -> by congruence.
  unfold plan_one in Hone. apply result_bind_ok in Hone as (s1 & H1 & Hone).
  apply result_bind_ok in Hone as (s2 & H2 & [= <-]).
  destruct (sim_lens _ _ _ Hs) as [Hlens Hcaps].
  unfold fetch_once_cache, capacity_of, len. rewrite Hcaps, <-Hlens, <-Htot.
  assert (Hevict : let '(e1, m1) :=
      if (sumN (capacities m0) <=? p_total s)%N then
        let '(o, m1) := evict_lru powi m h in (evicted o, m1) else ([], m) in
    sim k s1 m1 /\ p_evictions s1 = p_evictions s ++ e1).
  { destruct (sumN (capacities m0) <=? p_total s)%N.
    - apply result_bind_ok in H1 as ([start n] & Hheavy%ok_or_ok & H1).
      apply result_bind_ok in H1 as ([b s3] & Hrf & H1). unfold evict_lru.
      rewrite <-Hlens, Hheavy. destruct (sim_len _ _ _ Hs) as [Hl1 Hl2]. rewrite Hl2.
      rewrite Hl1 in Hrf.
      pose proof (sim_remove_from k _ s m b s3 h Hs (rotation_bound start _) Hrf) as Hsr.
      destruct (evict_from _ _ m) as [o m1]. destruct Hsr as (Hs1 & Hev & _).
      destruct b; [|done]. by injection H1 as <-.
    - injection H1 as <-. by rewrite app_nil_r. }
  destruct (sumN (capacities m0) <=? p_total s)%N.
  - destruct (evict_lru powi m h) as [o m1]. destruct Hevict as [Hs1 Hev1].
    pose proof (sim_insert k s1 m1 id target p s2 r h Hs1 Hid Htl Hr Hp H2) as Hins.
    destruct (insert powi r m1 h) as [[oi m2] h']. destruct Hins as (-> & Hs2 & Hev2).
    split; [done|]. split; [done|]. simpl in Hev2. simpl. rewrite Hev2, Hev1, <-app_assoc.
    by destruct oi as [[v|]|].
  - destruct Hevict as [Hs1 Hev1].
    pose proof (sim_insert k s1 m id target p s2 r h Hs1 Hid Htl Hr Hp H2) as Hins.
    destruct (insert powi r m h) as [[oi m2] h']. destruct Hins as (-> & Hs2 & Hev2).
    split; [done|]. split; [done|]. simpl in Hev2. simpl. rewrite Hev2, Hev1, <-app_assoc.
    by destruct oi as [[v|]|].
Qed.

Lemma sim_loop reqs k s m s' h :
  drop k requests = reqs -> Forall (fun r => (r.1.2 < length (caches m0))%nat) requests ->
  sim k s m -> plan_inv (virtual_layer <$> caches m0) requests k s -> lens_le (capacities m0) s ->
  plan_loop (capacities m0) k reqs s = Ok s' ->
  let '(e, m', h') := fetch_sequence powi (drop k rs) m h in
  h' = h /\ sim (k + length reqs) s' m' /\ p_evictions s' = p_evictions s ++ e.
Proof.
  intros Hd Hb. revert k s m Hd. induction reqs as [|[[id target] p] reqs IH]; intros k s m Hd Hs Hp Hle Hl.
  { injection Hl as <-. assert (Hlen : (length rs <= k)%nat).
    { apply (f_equal length) in Hd. rewrite length_drop in Hd. unfold requests in Hd.
      rewrite length_zip_with, <-(Forall2_length _ _ _ Hlay), (Forall2_length _ _ _ Hrs) in Hd. simpl in Hd. lia. }
    rewrite drop_ge by done. simpl. rewrite Nat.add_0_r, app_nil_r. done. }
  cbn [plan_loop] in Hl. apply result_bind_ok in Hl as (s1 & Hone & Hl).
  assert (Hk : requests !! k = Some (id, target, p)).
  { rewrite <-(Nat.add_0_r k), <-lookup_drop, Hd. done. }
  destruct (requests_lookup _ _ _ _ Hk) as (_ & _ & r & Hr & _).
  pose proof (proj1 (Forall_lookup _ _) Hb _ _ Hk) as Ht. simpl in Ht.
  destruct (plan_one_inv (virtual_layer <$> caches m0) requests (capacities m0) k s id target p s1) as [Hp1 Hle1]; auto.
  { apply Forall_fmap, Forall_forall. intros. apply virtual_layer_initial. }
  { by rewrite length_fmap. }
  { apply Forall_fmap. eapply Forall_impl; [exact Hok|]. intros c Hc. apply (inv_size _ Hc). }
  pose proof (sim_one k s m id target p s1 r h Hs (pi_total _ _ _ _ Hp) Hk Hr Hone) as Hso.
  assert (Hdr : drop k rs = r :: drop (S k) rs) by by apply drop_S.
  rewrite Hdr. cbn [fetch_sequence].
  destruct (fetch_once_cache powi r m h) as [[e1 m1] h1]. destruct Hso as (-> & Hs1 & Hev1).
  assert (Hd1 : drop (S k) requests = reqs).
  { rewrite <-Nat.add_1_r, <-drop_drop, Hd. done. }
  pose proof (IH (S k) s1 m1 Hd1 Hs1 Hp1 Hle1 Hl) as Hrec.
  destruct (fetch_sequence powi (drop (S k) rs) m1 h) as [[e2 m2] h2]. destruct Hrec as (-> & Hs2 & Hev2).
  split; [done|]. split; [|by rewrite Hev2, Hev1, app_assoc].
  by replace (k + length ((id, target, p) :: reqs))%nat with (S k + length reqs)%nat by (simpl; lia).
Qed.

Lemma sim_start :
  Forall (fun c => cost_aware c = false /\ ExpertCache.reserved_slots c = 0%N) (caches m0) ->
  sim 0 (plan_start (virtual_layer <$> caches m0) requests) m0.
Proof.
  intros Hpol. split; [by simpl; rewrite length_fmap|done|]. intros l c Hc.
  pose proof (proj1 (Forall_lookup _ _) Hpol _ _ Hc) as [Hp Hr].
  pose proof (proj1 (Forall_lookup _ _) Hok _ _ Hc) as Hinv.
  exists c, (virtual_layer c). simpl. rewrite list_lookup_fmap, Hc. split_and!; try done.
  - unfold virtual_layer. rewrite Hr. simpl. rewrite <-list_fmap_compose.
    rewrite <-(list_fmap_id (entries c)) at 1. apply list_fmap_ext. intros i [k v] Hi. simpl.
    rewrite Hc. simpl. erewrite aget_elem; [done|apply lru_iter_nodup|by eapply list_elem_of_lookup_2].
  - unfold virtual_layer. rewrite Hr. simpl. apply Forall_fmap, Forall_forall. intros [k v] Hin.
    exists c. split; [done|]. split; [done|]. by apply (list_elem_of_fmap_2 fst _ (k, v)).
Qed.

(** *** Committing in request order *)

(** The caches and the guard after the first [k] commits. *)
Record committed (finals : list (option nat)) (vict : list (nat * N)) (k : nat)
    (rv : MultiLayerCacheReservation) m : Prop := {
  cm_len : length (caches m) = length (caches m0);
  cm_requests : rv_requests rv = zip ids finals /\ next_request rv = k;
  cm_guard : length (rv_layers rv) = length (caches m0);
  cm_layer : forall l c0, caches m0 !! l = Some c0 -> exists c,
    caches m !! l = Some c /\ cache_inv c /\ pinned c = pinned c0 /\ capacity c = capacity c0 /\
    entries c = real l <$> (req_entries requests finals k l ++ res_entries vict l (virtual_layer c0)) /\
    ExpertCache.reserved_slots c = count_layer l (drop k finals) /\
    exists o, rv_layers rv !! l = Some o /\
      match o with Some n => n = count_layer l (drop k finals) | None => count_layer l (drop k finals) = 0%N end;
}.

Lemma count_layer_cons l f fs :
  count_layer l (f :: fs) = ((if decide (f = Some l) then 1 else 0) + count_layer l fs)%N.
Proof.
  unfold count_layer. simpl. destruct (decide (f = Some l)) as [E|E].
  - rewrite bool_decide_true by done. simpl. lia.
  - by rewrite bool_decide_false.
Qed.

Lemma good_virtual k l c0 :
  caches m0 !! l = Some c0 -> ExpertCache.reserved_slots c0 = 0%N ->
  Forall (good_entry k l) (virtual_layer c0).
Proof.
  intros Hc0 Hr. unfold virtual_layer. rewrite Hr. simpl. apply Forall_fmap, Forall_forall.
  intros [k' v] Hin. exists c0. split; [done|]. split; [done|]. by apply (list_elem_of_fmap_2 fst _ (k', v)).
Qed.

Lemma good_requested finals k l c0 :
  (forall i q, requests !! i = Some q -> finals !! i = Some (Some (q.1.2)) \/ finals !! i = Some None) ->
  caches m0 !! l = Some c0 -> Forall (good_entry k l) (req_entries requests finals k l).
Proof.
  intros Hfin Hc0. apply Forall_forall. intros e Hin.
  apply list_elem_of_omap in Hin as (j & Hj & Hje).
  rewrite elem_of_reverse, elem_of_seq in Hj. unfold req_entry in Hje.
  destruct (finals !! j) as [[l'|]|] eqn:Ef; try done.
  destruct (requests !! j) as [[[idj lj] pj]|] eqn:Ej; [|done].
  case_decide as El; [|done]. injection Hje as <-. subst l'.
  destruct (requests_lookup _ _ _ _ Ej) as (Hidj & Hlj & _ & _ & Hpj).
  assert (lj = l) as ->.
  { destruct (Hfin _ _ Ej) as [H|H]; simpl in H; congruence. }
  exists c0. split; [done|]. destruct Hpj as [?|(cx & Hcx & ->)]; [congruence|].
  assert (cx = c0) as -> by congruence. split_and!; [done|done|lia].
Qed.

Lemma commit_one finals vict k rv m id r :
  length finals = length ids ->
  (forall i q, requests !! i = Some q -> finals !! i = Some (Some (q.1.2)) \/ finals !! i = Some None) ->
  Forall (fun c => ExpertCache.reserved_slots c = 0%N) (caches m0) ->
  committed finals vict k rv m -> ids !! k = Some id -> rs !! k = Some r ->
  exists b rv' m', commit r rv m = Ok (b, rv', m') /\ committed finals vict (S k) rv' m'.
Proof.
  intros Hlen Hfin Hres0 [Hl [Hreq Hnext] Hgl Hcm] Hid Hr.
  assert (Hrid : r_id r = id) by exact (Forall2_lookup_lr _ _ _ _ _ _ Hrs Hid Hr).
  destruct (Forall2_lookup_l _ _ _ _ _ Hlay Hid) as (target & Htl & Hidx).
  assert (Hk : exists p, requests !! k = Some (id, target, p)).
  { eexists. apply lookup_zip_with_Some. exists id, target. by rewrite Hid, Htl. }
  destruct Hk as [p Hk].
  destruct (lookup_lt_is_Some_2 finals k) as [f Hf]; [rewrite Hlen; by eapply lookup_lt_Some|].
  assert (Hdrop : drop k finals = f :: drop (S k) finals) by by apply drop_S.
  assert (Hrev : reverse (seq 0 (S k)) = k :: reverse (seq 0 k)) by by rewrite seq_S, reverse_snoc.
  assert (Hother : forall l, f <> Some l -> req_entries requests finals (S k) l = req_entries requests finals k l).
  { intros l Hne. unfold req_entries. rewrite Hrev. csimpl. unfold req_entry at 1. rewrite Hf, Hk.
    destruct f as [l'|]; [|done]. by rewrite decide_False by congruence. }
  unfold commit. rewrite Hnext, Hreq, lookup_zip_with, Hid. simpl. rewrite Hf. simpl.
  rewrite Hrid, N.eqb_refl. simpl.
  destruct f as [l|].
  2: { do 3 eexists. split; [reflexivity|]. split; [done|done|done|]. intros l c0 Hc0.
       destruct (Hcm l c0 Hc0) as (c & ? & ? & ? & ? & He & Hrs' & o & Ho & Hval).
       rewrite Hdrop, count_layer_cons in Hrs', Hval. simpl in Hrs', Hval. exists c.
       split_and!; try done; [by rewrite Hother|]. by exists o. }
  assert (l = target) as ->.
  { destruct (Hfin _ _ Hk) as [H|H]; simpl in H; congruence. }
  destruct (lookup_lt_is_Some_2 (caches m0) target) as [c0 Hc0]; [by eapply try_layer_idx_bound|].
  destruct (Hcm target c0 Hc0) as (c & Hc & Hinv & Hp & Hcp & He & Hrsv & o & Ho & Hval).
  rewrite Ho, Hc. rewrite Hdrop, count_layer_cons, decide_True in Hrsv, Hval by done.
  destruct o as [n|]; [|lia].
  assert (Habs : ExpertCache.contains (r_id r) c = false).
  { rewrite Hrid. eapply (request_absent k target c0 c); eauto. apply Forall_app.
    split; [by apply (good_requested _ _ _ c0)|].
    pose proof (good_virtual k target c0 Hc0 (proj1 (Forall_lookup _ _) Hres0 _ _ Hc0)) as Hgv.
    rewrite Forall_forall in Hgv |- *. intros e Hin. apply Hgv.
    apply list_elem_of_In, List.filter_In in Hin as [Hin _]. by apply list_elem_of_In. }
  pose proof (commit_cases n r c Hinv) as Hcc.
  destruct (ExpertCache.commit n r c) as [[n' c']|r'].
  2: { destruct Hcc as [_ [?|[?|?]]]; [lia|lia|congruence]. }
  destruct Hcc as (_ & _ & -> & _ & Hinv' & Hp' & Hr' & He' & Hcp').
  do 3 eexists. split; [reflexivity|]. split; [simpl; by rewrite length_insert|done|simpl; by rewrite length_insert|].
  intros l c0' Hc0'. simpl. destruct (decide (target = l)) as [<-|Hne].
  - assert (c0' = c0) as -> by congruence. exists c'.
    rewrite !list_lookup_insert_eq by by eapply lookup_lt_Some.
    split_and!; try done; [congruence|congruence| | |].
    + rewrite He', He, Hrid. unfold req_entries. rewrite Hrev. csimpl. unfold req_entry at 2.
      rewrite Hf, Hk, decide_True by done. csimpl. by rewrite Hr.
    + lia.
    + exists (Some (n - 1)%N). split; [done|]. lia.
  - rewrite !list_lookup_insert_ne by done.
    destruct (Hcm l c0' Hc0') as (c2 & ? & ? & ? & ? & He2 & Hrs' & o & Ho2 & Hval2).
    rewrite Hdrop, count_layer_cons, decide_False in Hrs', Hval2 by congruence. simpl in Hrs', Hval2.
    exists c2. split_and!; try done; [by rewrite Hother by congruence|]. by exists o.
Qed.

Lemma commit_rest finals vict k rv m :
  length finals = length ids ->
  (forall i q, requests !! i = Some q -> finals !! i = Some (Some (q.1.2)) \/ finals !! i = Some None) ->
  Forall (fun c => ExpertCache.reserved_slots c = 0%N) (caches m0) ->
  committed finals vict k rv m -> (k <= length rs)%nat ->
  exists bs rv' m', commit_all (drop k rs) rv m = Ok (bs, rv', m') /\
    committed finals vict (length rs) rv' m'.
Proof.
  intros Hlen Hfin Hres Hcm Hk. remember (length rs - k)%nat as d eqn:Hd.
  revert k rv m Hcm Hk Hd. induction d as [|d IH]; intros k rv m Hcm Hk Hd.
  { rewrite drop_ge by lia. assert (k = length rs) as -> by lia. simpl. eauto. }
  destruct (lookup_lt_is_Some_2 rs k) as [r Hr]; [lia|].
  destruct (Forall2_lookup_r _ _ _ _ _ Hrs Hr) as (id & Hid & _).
  destruct (commit_one finals vict k rv m id r) as (b & rv1 & m1 & H1 & Hcm1); auto.
  destruct (IH (S k) rv1 m1 Hcm1) as (bs & rv2 & m2 & H2 & Hcm2); [lia|lia|].
  exists (b :: bs), rv2, m2. split; [|done].
  rewrite (drop_S _ r) by done. cbn [commit_all]. rewrite H1. cbn [mbind result_bind]. by rewrite H2.
Qed.
End simulate.

(** ** Equivalence with the sequential miss path *)

Section equivalence.
Context `{!LruCache ExpertResident, !LruLaws ExpertResident}.
Variable powi : f64 -> Z -> f64.
Implicit Types (c : ExpertCache) (m : MultiLayerExpertCache) (h : heap).
Abbreviation entries c := (lru_iter (inner c)).

(** The same residents in the same recency order, the same pins, no reservation left. *)
Definition same_contents m m' : Prop :=
  length (caches m) = length (caches m') /\
  forall l c c', caches m !! l = Some c -> caches m' !! l = Some c' ->
    entries c = entries c' /\ pinned c = pinned c' /\ capacity c = capacity c' /\
    ExpertCache.reserved_slots c = 0%N /\ ExpertCache.reserved_slots c' = 0%N.

Definition no_reservations m : Prop :=
  Forall (fun c => ExpertCache.reserved_slots c = 0%N) (caches m).

Lemma remaining_zero (l : list (option N)) :
  (forall i n, l !! i = Some (Some n) -> n = 0%N) -> sumN (omap (fun o => o) l) = 0%N.
Proof.
  induction l as [|o l IH]; intros H; [done|]. csimpl.
  assert (Hl : forall i n, l !! i = Some (Some n) -> n = 0%N) by (intros i n; apply (H (S i))).
  destruct o as [n|]; [|by apply IH]. simpl. rewrite (H 0%nat n), IH by done. done.
Qed.

(** The state just reserved, before the first commit. *)
Lemma committed_start ids rs m m' oc layers s :
  no_reservations m -> reserved_from m m' ids layers s oc ->
  committed m ids layers rs (p_finals s) (p_victims s) 0 (reservation oc) m'.
Proof.
  intros Hres [_ _ _ _ _ _ [Hreq Hnext] _ [Hl _] Hgl Hc]. split; [done|done|done|]. intros l c0 Hc0.
  destruct (Hc l c0 Hc0) as (c & Hc' & Hi & Hp & Hcap & _ & He & Hr & Hg).
  pose proof (proj1 (Forall_lookup _ _) Hres _ _ Hc0) as Hr0. exists c. split_and!; try done.
  - rewrite He. unfold req_entries. simpl. unfold res_entries, virtual_layer. rewrite Hr0. simpl.
    assert (Haget : forall k v, (k, v) ∈ entries c0 -> real m rs l (Resident k (bool_decide (k ∈ pinned c0))) = (k, v)).
    { intros k v Hin. simpl. rewrite Hc0. simpl. erewrite aget_elem; [done|apply lru_iter_nodup|done]. }
    revert Haget. generalize (entries c0). induction l0 as [|[k v] es' IH]; intros Haget; [done|].
    csimpl. unfold kept at 1. simpl. destruct (negb (bool_decide ((l, k) ∈ p_victims s))); csimpl.
    + rewrite IH; [|intros; apply Haget; by right]. f_equal. symmetry. apply (Haget k v). by left.
    + apply IH. intros. apply Haget. by right.
  - rewrite Hr, Hr0. simpl. by rewrite drop_0.
  - eexists. split; [exact Hg|]. rewrite drop_0. destruct (N.ltb_spec 0 (count_layer l (p_finals s))); [done|lia].
Qed.

(** What the transaction's plan says of its requests. *)
Lemma planned_requests ids m m' oc layers s :
  reserved_from m m' ids layers s oc ->
  let reqs := requests m ids layers in
  length reqs = length ids /\ length (p_finals s) = length ids /\
  (forall i q, reqs !! i = Some q -> p_finals s !! i = Some (Some (q.1.2)) \/ p_finals s !! i = Some None) /\
  Forall (fun r => (r.1.2 < length (caches m))%nat) reqs.
Proof.
  intros [Hnd Hlay Hpol Hplan Hinv _ _ _ _ _ _] reqs.
  assert (Hlen : length reqs = length ids) by (apply zip_requests; by eapply Forall2_length).
  pose proof (pi_finals _ _ _ _ Hinv) as Hfl. split_and!; [done| | |].
  - etrans; [exact Hfl|done].
  - intros i q Hi. destruct (pi_final _ _ _ _ Hinv i q Hi) as [?|[_ ?]]; auto.
  - apply Forall_lookup. intros i [[id l] p] Hi.
    apply lookup_zip_with_Some in Hi as (id' & l' & [= -> -> ->] & Hid & Hl').
    simpl. apply (try_layer_idx_bound id'). by apply (Forall2_lookup_lr _ _ _ _ _ _ Hlay Hid Hl').
Qed.

(** Fetching one by one evicts what was planned and ends in the planned layers. *)
Lemma fetch_follows_plan ids rs m m' oc layers s h :
  multi_ok m -> no_reservations m -> Forall (fun id => contains id m = false) ids ->
  Forall2 (fun id r => r_id r = id) ids rs -> reserved_from m m' ids layers s oc ->
  exists mseq, fetch_sequence powi rs m h = (oc_eviction_ids oc, mseq, h) /\
    sim m ids rs (length ids) s mseq.
Proof.
  intros Hok Hres Habs Hrs Hrf. destruct (planned_requests _ _ _ _ _ _ Hrf) as (Hlen & _ & _ & Hbound).
  destruct Hrf as [Hnd Hlay Hpol Hplan _ Hev _ _ _ _ _].
  set (reqs := requests m ids layers) in *.
  assert (Hplain : Forall (fun c => cost_aware c = false /\ ExpertCache.reserved_slots c = 0%N) (caches m))
    by (apply Forall_and; done).
  pose proof (sim_loop powi m ids layers rs Hok Hrs Hlay Hnd Habs reqs 0
    (plan_start (virtual_layer <$> caches m) reqs) m s h eq_refl Hbound
    (sim_start m ids layers rs Hok Hplain) (plan_start_inv _ _) (lens_start m reqs Hok) Hplan) as Hseq.
  rewrite drop_0 in Hseq. destruct (fetch_sequence powi rs m h) as [[es mseq] h'].
  destruct Hseq as (-> & Hsim & Hes). simpl in Hes. exists mseq. rewrite Hev, Hes, <-Hlen. done.
Qed.

(** After the last commit: the planned layers again, and no position left. *)
Lemma all_committed ids rs m layers s mseq rv mc :
  length (p_finals s) = length ids -> length rs = length ids ->
  plan_inv (virtual_layer <$> caches m) (requests m ids layers) (length ids) s ->
  sim m ids rs (length ids) s mseq ->
  committed m ids layers rs (p_finals s) (p_victims s) (length rs) rv mc ->
  same_contents mseq mc /\ remaining rv = 0%N.
Proof.
  intros Hfl Hlrs Hinv Hsim [Hml _ Hgml Hlayer].
  assert (Hdone : drop (length rs) (p_finals s) = []) by (apply drop_ge; lia).
  destruct Hsim as [[_ Hsl] _ Hsl2]. split.
  - split; [congruence|]. intros l c c' Hlc Hlc'.
    destruct (lookup_lt_is_Some_2 (caches m) l) as [c0 Hc0]; [rewrite <-Hsl; by eapply lookup_lt_Some|].
    destruct (Hsl2 l c0 Hc0) as (c1 & vl & Hc1 & Hvl & (_ & _ & Hr1 & Hp1 & Hcp1) & He1 & _).
    destruct (Hlayer l c0 Hc0) as (c2 & Hc2 & _ & Hp2 & Hcp2 & He2 & Hr2 & _).
    assert (c1 = c) as -> by congruence. assert (c2 = c') as -> by congruence.
    rewrite Hdone in Hr2. split_and!; try congruence; [|by rewrite Hr2].
    assert (HV : (virtual_layer <$> caches m) !! l = Some (virtual_layer c0)) by by rewrite list_lookup_fmap, Hc0.
    pose proof (pi_layers _ _ _ _ Hinv _ _ HV) as Hfinal. rewrite Hvl in Hfinal. injection Hfinal as ->.
    rewrite He1, He2, Hlrs. done.
  - apply remaining_zero. intros l n Hn.
    destruct (decide (l < length (caches m))%nat) as [Hll|Hll].
    + destruct (lookup_lt_is_Some_2 _ _ Hll) as [c0 Hc0].
      destruct (Hlayer l c0 Hc0) as (_ & _ & _ & _ & _ & _ & _ & o & Ho & Hval).
      rewrite Hdone in Hval. assert (o = Some n) as -> by congruence. done.
    + rewrite lookup_ge_None_2 in Hn by lia. done.
Qed.

(** C1. The exact-demand transaction is equivalent to the sequential miss path.
    When it accepts a list of uncached experts (no other transaction being in
    flight), fetching them one after the other evicts exactly the ids it
    announced, in that order; and committing the same residents in request
    order always succeeds and leaves every layer with the same residents in
    the same recency order, every reserved position used. *)
Theorem exact_demand_is_sequential_fetch ids rs m m' oc h :
  multi_ok m -> no_reservations m ->
  Forall (fun id => contains id m = false) ids -> Forall2 (fun id r => r_id r = id) ids rs ->
  try_reserve_exact_demand ids m = Some (Ok oc, m') ->
  exists mseq bs rv mc,
    fetch_sequence powi rs m h = (oc_eviction_ids oc, mseq, h) /\
    commit_all rs (reservation oc) m' = Ok (bs, rv, mc) /\
    same_contents mseq mc /\ remaining rv = 0%N.
Proof.
  intros Hok Hres Habs Hrs Htry.
  destruct (try_reserve_structure ids m Hok) as (o & m2 & Htry' & Ho).
  rewrite Htry in Htry'. injection Htry' as <- <-. destruct Ho as (layers & s & Hrf).
  destruct (planned_requests _ _ _ _ _ _ Hrf) as (_ & Hfl & Hfin & _).
  assert (Hlrs : length rs = length ids) by (symmetry; by eapply Forall2_length).
  destruct (fetch_follows_plan ids rs m m' oc layers s h) as (mseq & Hfetch & Hsim); auto.
  pose proof (committed_start ids rs m m' oc layers s Hres Hrf) as Hcm0.
  destruct Hrf as [Hnd Hlay _ _ Hinv _ _ _ _ _ _].
  destruct (commit_rest m ids layers rs Hrs Hlay Hnd Habs (p_finals s) (p_victims s) 0 (reservation oc) m')
    as (bs & rv & mc & Hcommit & Hcm); auto; [lia|]. rewrite drop_0 in Hcommit.
  exists mseq, bs, rv, mc. split; [done|]. split; [done|]. by eapply all_committed.
Qed.
End equivalence.

Module Witness.
#[local] Existing Instances ListLru.list_lru ListLru.list_lru_laws.

(** Two layers of capacity 2, full but for one position of layer 1; 2 is pinned. *)
Definition sample_multi : MultiLayerExpertCache :=
  let fill id (s : MultiLayerExpertCache * heap) :=
    let '(_, m, h) := insert ExpertCache.Witness.sample_powi (ExpertCache.Witness.sample_resident id) (fst s) (snd s) in (m, h) in
  match with_capacities [2; 2]%N 10 with
  | Some m => pin 2 (fst (fill 11%N (fill 2%N (fill 1%N (m, ∅)))))
  | None => {| caches := []; experts_per_layer := 1 |}
  end.

Lemma sample_multi_ok : multi_ok sample_multi.
Proof.
  repeat apply Forall_cons_2; [| |apply Forall_nil_2];
    (split; [vm_compute; reflexivity|vm_compute; split; [reflexivity|discriminate]
            |vm_compute; repeat constructor|vm_compute; discriminate]).
Qed.

(** The third request evicts the first one again: its commit is cancelled. *)
Lemma try_reserve_exact_demand_safe_witness :
  exists oc m', try_reserve_exact_demand [3; 12; 13]%N sample_multi = Some (Ok oc, m') /\
    multi_ok m' /\ oc_eviction_ids oc = [1; 3; 11]%N.
Proof.
  pose proof (try_reserve_exact_demand_safe [3; 12; 13]%N sample_multi sample_multi_ok) as H.
  assert (E : match try_reserve_exact_demand [3; 12; 13]%N sample_multi with
              | Some (Ok oc, _) => oc_eviction_ids oc = [1; 3; 11]%N | _ => False end)
    by (vm_compute; reflexivity).
  destruct H as (o & m' & Hr & Hok & _). rewrite Hr in E. destruct o as [oc|]; [|destruct E].
  exists oc, m'. split; [exact Hr|]. split; [exact Hok|exact E].
Defined.

Lemma exact_demand_is_sequential_fetch_witness :
  exists mseq, fetch_sequence ExpertCache.Witness.sample_powi (ExpertCache.Witness.sample_resident <$> [3; 12; 13]%N)
                 sample_multi ∅ = ([1; 3; 11]%N, mseq, ∅).
Proof.
  assert (E : match try_reserve_exact_demand [3; 12; 13]%N sample_multi with
              | Some (Ok oc, _) => oc_eviction_ids oc = [1; 3; 11]%N | _ => False end)
    by (vm_compute; reflexivity).
  destruct (try_reserve_exact_demand [3; 12; 13]%N sample_multi) as [[[oc|] m']|] eqn:Hr;
    [|destruct E|destruct E].
  destruct (exact_demand_is_sequential_fetch ExpertCache.Witness.sample_powi [3; 12; 13]%N
    (ExpertCache.Witness.sample_resident <$> [3; 12; 13]%N) sample_multi m' oc ∅) as (mseq & _ & _ & _ & Hf & _).
  - exact sample_multi_ok.
  - repeat apply Forall_cons_2; [vm_compute; reflexivity..|apply Forall_nil_2].
  - repeat apply Forall_cons_2; [vm_compute; reflexivity..|apply Forall_nil_2].
  - repeat apply Forall2_cons_2; [vm_compute; reflexivity..|apply Forall2_nil_2].
  - exact Hr.
  - exists mseq. rewrite <-E. exact Hf.
Defined.
End Witness.
