(* ===== verification/Singleflight.v ===== *)
(** Process-wide singleflight of expert reads ([src/rust-engine/src/engine.rs]:
    [SingleflightLeaderGuard], [MultiIdSingleflightLeadership],
    [fetch_with_retry_inner], [fetch_once], [spawn_prefetch], the foreground source of
    a set of experts, [warm_with]).

    Every caller is a task whose program counter ([code]) names the next access to
    shared state: the RAM cache, the [in_flight] map and the [tokio::sync::Notify]
    objects; [act] performs one such access, so a run ([exec]) is an interleaving of
    the tasks at the granularity the code has.  A task can be cancelled or panic
    before any access ([abort]): its guards drop, one access at a time.

    The RAM cache is the interface [RamCache]; the per-layer caches of
    [MultiLayerCache] implement it ([multi_layer_ram]).  [Notify] is third-party code:
    its documented behaviour is the class [NotifyLaws]. *)
From S2P Require Import Prelude Floats Lru TensorHeader BufferPool ExpertCache MultiLayerCache.

(** ** What the engine needs of the RAM cache

    [ram_new] builds the resident of an expert from the buffer that was read;
    [ram_other] stands for everything else that is done to the cache meanwhile. *)
Class RamCache := {
  ram : Type;
  resident : Type;
  source : Type;
  ticket : Type;
  ram_op : Type;
  res_id : resident -> N;
  ram_get : N -> ram -> option resident * ram;
  ram_contains : N -> ram -> bool;
  ram_full : ram -> bool;
  ram_evict_lru : ram -> ram;
  ram_evict_shadow : ram -> bool * ram;
  ram_new : N -> source -> ram -> resident * ram;
  ram_insert : resident -> ram -> result resident (option resident) * ram;
  ram_reserve : list N -> ram -> option (result ExpertCacheReservationError ticket * ram);
  ram_commit : resident -> ticket -> ram -> result resident (ticket * ram);
  ram_release : ticket -> ram -> ram;
  ram_other : ram_op -> ram -> ram;
  ram_ok : ram -> Prop;
}.

(** The operation keeps [ram_ok] and makes at most the ids of [new] resident. *)
Definition grows `{!RamCache} (new : list N) (m m' : ram) : Prop :=
  (ram_ok m -> ram_ok m') /\
  forall id, ram_contains id m' = true -> id ∈ new \/ ram_contains id m = true.

Class RamLaws `{!RamCache} := {
  get_law id m : grows [] m (snd (ram_get id m));
  get_keeps id m k : ram_contains k (snd (ram_get id m)) = ram_contains k m;
  get_exact id m : fst (ram_get id m) = None <-> ram_contains id m = false;
  get_id id m r : ram_ok m -> fst (ram_get id m) = Some r -> res_id r = id;
  evict_law m : grows [] m (ram_evict_lru m);
  shadow_law m : grows [] m (snd (ram_evict_shadow m));
  new_law id src m : grows [] m (snd (ram_new id src m));
  new_keeps id src m k : ram_contains k (snd (ram_new id src m)) = ram_contains k m;
  new_id id src m : res_id (fst (ram_new id src m)) = id;
  insert_law r m : grows [res_id r] m (snd (ram_insert r m));
  insert_ok r m o : fst (ram_insert r m) = Ok o -> ram_contains (res_id r) (snd (ram_insert r m)) = true;
  insert_rejected r m r' : fst (ram_insert r m) = Err r' -> r' = r /\ grows [] m (snd (ram_insert r m));
  reserve_law ids m o m' : ram_reserve ids m = Some (o, m') -> grows [] m m';
  commit_law r tk m tk' m' : ram_commit r tk m = Ok (tk', m') -> grows [res_id r] m m';
  release_law tk m : grows [] m (ram_release tk m);
  other_law op m : grows [] m (ram_other op m);
}.

(** ** [tokio::sync::Notify]

    [listen] is [notified()] followed by [enable()]; a future completes once
    [notify_waiters] was called after it was created. *)
Class Notify := {
  notify : Type;
  notified : Type;
  notify_new : notify;
  listen : notify -> notified;
  notify_waiters : notify -> notify;
  awakened : notified -> notify -> bool;
}.

Class NotifyLaws `{!Notify} := {
  awakened_law n : awakened (listen n) (notify_waiters n) = true;
  awakened_stays f n : awakened f n = true -> awakened f (notify_waiters n) = true;
}.

(** A concrete instance, for the witnesses: the number of calls so far. *)
Module CountingNotify.
#[export] Instance counting : Notify := {|
  notify := nat; notified := nat; notify_new := 0%nat; listen := fun n => n;
  notify_waiters := S; awakened := fun f n => (f <? n)%nat |}.
#[export] Instance counting_laws : NotifyLaws.
Proof. split; simpl; intros; rewrite ?Nat.ltb_lt in *; lia. Qed.
End CountingNotify.

(** ** Tasks *)

Definition MAX_LEADER_ELECTIONS : nat := 4.
Definition MAX_ATTEMPTS : nat := 3.

(** [SingleflightLeaderGuard]: the slot it owns and the identity of its [Notify]
    ([Arc::ptr_eq]).  Guards exist only armed. *)
Record guard := { g_id : N; g_notify : nat }.

#[export] Instance guard_eq_dec : EqDecision guard.
Proof. solve_decision. Defined.

Inductive FetchOnceError := PoolStarved | Io.

Inductive ExpertReadError :=
| ReadPoolStarved
| ReadIo (attempts : nat).

Inductive GpuNativeDemandResidencyError :=
| SourceRead (e : ExpertReadError)
| ProductionBatchPoolUnavailableAfterReservation
| ProductionBatchReadFailedAfterReservation
| QualificationCompletedReadSetMismatch
| ProductionBatchCommitViolation (global_id : N).

Section tasks.
Context `{!RamCache, !Notify}.
(** The pool's [shadow_capacity()]. *)
Variable shadow_capacity : N.

(** How a task ends. *)
Inductive outcome :=
| Fetched (r : result ExpertReadError resident)
| Sourced (r : result GpuNativeDemandResidencyError (gmap N resident))
| Prefetched
| Cancelled.

(** What a task does once its guards are dropped. *)
Inductive after :=
| Reply (id : N) (r : result ExpertReadError resident)
| ReadSequentially
| EndWith (o : outcome)
| EndReleasing (tk : ticket) (o : outcome).

(** The next access of a task. *)
Inductive code :=
(* [fetch_with_retry_inner] *)
| FastPath (id : N)
| Claim (id : N) (elections : nat)
| Follow (id : N) (elections : nat) (n : nat)
| Recheck (id : N) (elections : nat) (n : nat) (f : notified)
| CheckMap (id : N) (elections : nat) (n : nat) (f : notified)
| Parked (id : N) (elections : nat) (n : nat) (f : notified)
| Woken (id : N) (elections : nat)
| Leading (g : guard)
(* [fetch_once] *)
| Attempt (g : guard) (a : nat)
| Acquiring (g : guard) (a : nat)
| Reading (g : guard) (a : nat)
| Inserting (g : guard) (r : resident)
| Backoff (g : guard) (a : nat)
(* [spawn_prefetch] *)
| SpawnCheck (id : N)
| SpawnAdmit (id : N)
| SpawnStart (id : N)
| SpawnClaim (id : N)
| ShadowBuffer (g : guard)
| PrimaryBuffer (g : guard)
| RecycleShadow (g : guard)
| ShadowRetry (g : guard)
| SpawnReading (g : guard)
| SpawnInserting (g : guard) (r : resident)
(* the foreground source of a set *)
| Sequential (todo : list N)
| Batch
| BatchClaim (unresolved todo : list N) (gs : list guard)
| BatchRecheck (unresolved : list N) (gs : list guard)
| BatchReserve (unresolved : list N) (gs : list guard)
| BatchBuffers (unresolved : list N) (gs : list guard) (tk : ticket)
| BatchReading (unresolved : list N) (gs : list guard) (tk : ticket)
| BatchCommit (gs : list guard) (tk : ticket) (staged : list (N * resident))
(* [Drop for SingleflightLeaderGuard] *)
| Releasing (gs : list guard) (k : after)
| Notifying (g : guard) (gs : list guard) (k : after)
| Finished (o : outcome).

(** The ids of the set a task sources, the residents it has, the ids that remain
    while it fetches one of them ([None]: a fetch of its own), its program counter. *)
Record task := {
  global_ids : list N;
  residents : gmap N resident;
  todo : option (list N);
  pc : code;
}.

Definition goto (c : code) (t : task) : task :=
  {| global_ids := global_ids t; residents := residents t; todo := todo t; pc := c |}.
Definition with_todo (l : option (list N)) (t : task) : task :=
  {| global_ids := global_ids t; residents := residents t; todo := l; pc := pc t |}.
Definition got (id : N) (r : resident) (t : task) : task :=
  {| global_ids := global_ids t; residents := <[id := r]> (residents t); todo := todo t; pc := pc t |}.

(** The state the tasks share: [core.cache], [core.in_flight] and the [Notify]
    objects behind its [Arc]s, by address. *)
Record shared := {
  cache : ram;
  in_flight : gmap N nat;
  notifies : gmap nat notify;
  next_notify : nat;
}.

Definition with_cache (m : ram) (s : shared) : shared :=
  {| cache := m; in_flight := in_flight s; notifies := notifies s; next_notify := next_notify s |}.
Definition notify_at (n : nat) (s : shared) : notify := default notify_new (notifies s !! n).

(** What the environment answers at an access: not yet, or ready with the outcome
    and the buffers of a read. *)
Inductive io := Pending | Ready (ok : bool) (srcs : list source).

(** *** The guard *)

Definition try_claim (id : N) (s : shared) : result nat guard * shared :=
  match in_flight s !! id with
  | Some n => (Err n, s)
  | None =>
      let n := next_notify s in
      (Ok {| g_id := id; g_notify := n |},
       {| cache := cache s; in_flight := <[id := n]> (in_flight s);
          notifies := <[n := notify_new]> (notifies s); next_notify := S n |})
  end.

(** [Drop], first half: remove the entry if it is the guard's own. *)
Definition remove_claim (g : guard) (s : shared) : shared :=
  {| cache := cache s;
     in_flight := if bool_decide (in_flight s !! g_id g = Some (g_notify g))
                  then delete (g_id g) (in_flight s) else in_flight s;
     notifies := notifies s; next_notify := next_notify s |}.

(** Second half. *)
Definition wake_followers (g : guard) (s : shared) : shared :=
  {| cache := cache s; in_flight := in_flight s;
     notifies := <[g_notify g := notify_waiters (notify_at (g_notify g) s)]> (notifies s);
     next_notify := next_notify s |}.

(** *** Control flow *)

(** A fetch returns to its caller: the task itself, or the loop over a set
    ([gpu_native_demand_source]). *)
Definition reply (id : N) (r : result ExpertReadError resident) (t : task) : task :=
  match todo t with
  | None => goto (Finished (Fetched r)) t
  | Some rest =>
      match r with
      | Ok x => with_todo None (goto (Sequential rest) (got id x t))
      | Err e => goto (Finished (Sourced (Err (SourceRead e)))) t
      end
  end.

Definition sequential (t : task) : task := goto (Sequential (global_ids t)) t.

Definition finish (k : after) (t : task) (s : shared) : task * shared :=
  match k with
  | Reply id r => (reply id r t, s)
  | ReadSequentially => (sequential t, s)
  | EndWith o => (goto (Finished o) t, s)
  | EndReleasing tk o => (goto (Finished o) t, with_cache (ram_release tk (cache s)) s)
  end.

(** A lookup in the cache: on a hit the fetch returns through [hit], otherwise it
    goes on. *)
Definition lookup_or (id : N) (hit : resident -> task) (miss : task) (s : shared) : task * shared :=
  let '(r, m) := ram_get id (cache s) in
  (match r with Some r => hit r | None => miss end, with_cache m s).

(** The reaction of [fetch_with_retry_inner] to a failed [fetch_once]. *)
Definition attempt_failed (g : guard) (a : nat) (e : FetchOnceError) (t : task) : task :=
  match e with
  | PoolStarved => goto (Releasing [g] (Reply (g_id g) (Err ReadPoolStarved))) t
  | Io =>
      if (a + 1 <? MAX_ATTEMPTS)%nat then goto (Backoff g a) t
      else goto (Releasing [g] (Reply (g_id g) (Err (ReadIo MAX_ATTEMPTS)))) t
  end.

Definition unresolved_of (t : task) : list N :=
  List.filter (fun id => bool_decide (residents t !! id = None)) (global_ids t).

(** [unresolved.zip(buffers).map(ExpertResident::new_with_block_align)]. *)
Fixpoint build_residents (ids : list N) (srcs : list source) (m : ram) : list (N * resident) * ram :=
  match ids, srcs with
  | id :: ids, src :: srcs =>
      let '(r, m) := ram_new id src m in
      let '(l, m) := build_residents ids srcs m in
      ((id, r) :: l, m)
  | _, _ => ([], m)
  end.

Fixpoint take_completed (order : list N) (completed : gmap N resident)
  : option (list (N * resident) * gmap N resident) :=
  match order with
  | [] => Some ([], completed)
  | id :: order =>
      r ← completed !! id;
      '(l, completed) ← take_completed order (delete id completed);
      Some ((id, r) :: l, completed)
  end.

(** [None] is [QualificationCompletedReadSetMismatch]. *)
Definition qualification_order_completed_residents (order : list N) (completed : gmap N resident)
  : option (list (N * resident)) :=
  if negb (size completed =? length order)%nat
     || existsb (fun id => bool_decide (completed !! id = None)) order then None else
  '(ordered, rest) ← take_completed order completed;
  if bool_decide (rest = ∅) then Some ordered else None.

(** *** Cancellation and panics

    The locals of the task drop in reverse order: the reservation, then the
    guards.  The drops themselves are not interrupted. *)
Definition held (c : code) : list guard :=
  match c with
  | Leading g | Attempt g _ | Acquiring g _ | Reading g _ | Inserting g _ | Backoff g _
  | ShadowBuffer g | PrimaryBuffer g | RecycleShadow g | ShadowRetry g
  | SpawnReading g | SpawnInserting g _ => [g]
  | BatchClaim _ _ gs | BatchRecheck _ gs | BatchReserve _ gs | BatchBuffers _ gs _
  | BatchReading _ gs _ | BatchCommit gs _ _ | Releasing gs _ => gs
  | Notifying g gs _ => g :: gs
  | _ => []
  end.

Definition ticket_of (c : code) : option ticket :=
  match c with
  | BatchBuffers _ _ tk | BatchReading _ _ tk | BatchCommit _ tk _ => Some tk
  | _ => None
  end.

Definition release_ticket (o : option ticket) (s : shared) : shared :=
  match o with Some tk => with_cache (ram_release tk (cache s)) s | None => s end.

Definition uninterruptible (c : code) : bool :=
  match c with Releasing _ _ | Notifying _ _ _ | Finished _ => true | _ => false end.

Definition abort (t : task) (s : shared) : task * shared :=
  if uninterruptible (pc t) then (t, s) else
  (goto (Releasing (held (pc t)) (EndWith Cancelled)) t, release_ticket (ticket_of (pc t)) s).

(** A batch that fails after its reservation: [drop(cache_reservation);
    drop(leadership); return Err(..)]. *)
Definition batch_fails (gs : list guard) (tk : ticket) (e : GpuNativeDemandResidencyError)
    (t : task) (s : shared) : task * shared :=
  (goto (Releasing gs (EndWith (Sourced (Err e)))) t, with_cache (ram_release tk (cache s)) s).

(** *** One access

    Probes that only choose a path, and that the code repeats once it owns the ids,
    are one access ([SpawnCheck], [Batch], [BatchRecheck]); so are the evictions and
    reservations that [MultiLayerCache] performs under its locks. *)

(** [fetch_with_retry_inner]. *)
Definition fetch_act (x : io) (t : task) (s : shared) : task * shared :=
  match pc t with
  | FastPath id =>
      lookup_or id (fun r => reply id (Ok r) t) (goto (Claim id MAX_LEADER_ELECTIONS) t) s
  | Claim id 0 => (reply id (Err (ReadIo MAX_LEADER_ELECTIONS)) t, s)
  | Claim id (S e) =>
      match try_claim id s with
      | (Ok g, s) => (goto (Leading g) t, s)
      | (Err n, s) => (goto (Follow id e n) t, s)
      end
  | Follow id e n => (goto (Recheck id e n (listen (notify_at n s))) t, s)
  | Recheck id e n f => lookup_or id (fun r => reply id (Ok r) t) (goto (CheckMap id e n f) t) s
  | CheckMap id e n f =>
      (goto (match in_flight s !! id with Some _ => Parked id e n f | None => Claim id e end) t, s)
  | Parked id e n f => (if awakened f (notify_at n s) then goto (Woken id e) t else t, s)
  | Woken id e => lookup_or id (fun r => reply id (Ok r) t) (goto (Claim id e) t) s
  | Leading g =>
      lookup_or (g_id g) (fun r => goto (Releasing [g] (Reply (g_id g) (Ok r))) t)
        (goto (Attempt g 0) t) s
  | Backoff g a => match x with Pending => (t, s) | Ready _ _ => (goto (Attempt g (S a)) t, s) end
  | _ => (t, s)
  end.

(** [fetch_once]. *)
Definition once_act (x : io) (t : task) (s : shared) : task * shared :=
  match pc t with
  | Attempt g a =>
      (goto (Acquiring g a) t,
       if ram_full (cache s) then with_cache (ram_evict_lru (cache s)) s else s)
  | Acquiring g a =>
      match x with Pending => (t, s) | Ready _ _ => (goto (Reading g a) t, s) end
  | Reading g a =>
      match x with
      | Pending => (t, s)
      | Ready true (src :: _) =>
          let '(r, m) := ram_new (g_id g) src (cache s) in
          (goto (Inserting g r) t, with_cache m s)
      | Ready _ _ => (attempt_failed g a Io t, s)
      end
  | Inserting g r =>
      let '(o, m) := ram_insert r (cache s) in
      let answer := match o with Ok _ => r | Err rejected => rejected end in
      (goto (Releasing [g] (Reply (g_id g) (Ok answer))) t, with_cache m s)
  | _ => (t, s)
  end.

(** [spawn_prefetch]; [SpawnAdmit] is the governor and the semaphore. *)
Definition prefetch_act (x : io) (t : task) (s : shared) : task * shared :=
  match pc t with
  | SpawnCheck id =>
      (goto (if ram_contains id (cache s) || bool_decide (is_Some (in_flight s !! id))
             then Finished Prefetched else SpawnAdmit id) t, s)
  | SpawnAdmit id =>
      (goto (match x with Ready true _ => SpawnStart id | _ => Finished Prefetched end) t, s)
  | SpawnStart id =>
      (goto (if ram_contains id (cache s) then Finished Prefetched else SpawnClaim id) t, s)
  | SpawnClaim id =>
      match try_claim id s with
      | (Ok g, s) => (goto (ShadowBuffer g) t, s)
      | (Err _, s) => (goto (Finished Prefetched) t, s)
      end
  | ShadowBuffer g =>
      (goto (match x with
             | Ready true _ => SpawnReading g
             | _ => if (shadow_capacity =? 0)%N then PrimaryBuffer g else RecycleShadow g
             end) t, s)
  | PrimaryBuffer g | ShadowRetry g =>
      (goto (match x with
             | Ready true _ => SpawnReading g
             | _ => Releasing [g] (EndWith Prefetched)
             end) t, s)
  | RecycleShadow g =>
      let '(found, m) := ram_evict_shadow (cache s) in
      (goto (if found : bool then ShadowRetry g else Releasing [g] (EndWith Prefetched)) t,
       with_cache m s)
  | SpawnReading g =>
      match x with
      | Pending => (t, s)
      | Ready true (src :: _) =>
          let '(r, m) := ram_new (g_id g) src (cache s) in
          (goto (SpawnInserting g r) t, with_cache m s)
      | Ready _ _ => (goto (Releasing [g] (EndWith Prefetched)) t, s)
      end
  | SpawnInserting g r =>
      (goto (Releasing [g] (EndWith Prefetched)) t, with_cache (snd (ram_insert r (cache s))) s)
  | _ => (t, s)
  end.

(** [gpu_native_sequential_source_physical_missing_set] and
    [gpu_native_production_source_physical_missing_set]. *)
Definition source_act (x : io) (t : task) (s : shared) : task * shared :=
  match pc t with
  | Sequential [] => (goto (Finished (Sourced (Ok (residents t)))) t, s)
  | Sequential (id :: rest) =>
      match residents t !! id with
      | Some _ => (goto (Sequential rest) t, s)
      | None =>
          lookup_or id (fun r => goto (Sequential rest) (got id r t))
            (with_todo (Some rest) (goto (FastPath id) t)) s
      end
  | Batch =>
      let unresolved := unresolved_of t in
      if (length unresolved <=? 1)%nat || existsb (fun id => ram_contains id (cache s)) unresolved
      then (sequential t, s)
      else (goto (BatchClaim unresolved unresolved []) t, s)
  | BatchClaim unresolved [] gs => (goto (BatchRecheck unresolved gs) t, s)
  | BatchClaim unresolved (id :: rest) gs =>
      match try_claim id s with
      | (Ok g, s) => (goto (BatchClaim unresolved rest (gs ++ [g])) t, s)
      | (Err _, s) => (goto (Releasing gs ReadSequentially) t, s)
      end
  | BatchRecheck unresolved gs =>
      (goto (if existsb (fun id => ram_contains id (cache s)) unresolved
             then Releasing gs ReadSequentially else BatchReserve unresolved gs) t, s)
  | BatchReserve unresolved gs =>
      match ram_reserve unresolved (cache s) with
      | None => abort t s
      | Some (Err _, m) => (goto (Releasing gs ReadSequentially) t, with_cache m s)
      | Some (Ok tk, m) => (goto (BatchBuffers unresolved gs tk) t, with_cache m s)
      end
  | BatchBuffers unresolved gs tk =>
      match x with
      | Ready true _ => (goto (BatchReading unresolved gs tk) t, s)
      | _ => batch_fails gs tk ProductionBatchPoolUnavailableAfterReservation t s
      end
  | BatchReading unresolved gs tk =>
      match x with
      | Pending => (t, s)
      | Ready ok srcs =>
          if ok && (length srcs =? length unresolved)%nat then
            let '(built, m) := build_residents unresolved srcs (cache s) in
            match qualification_order_completed_residents unresolved (list_to_map built) with
            | Some staged => (goto (BatchCommit gs tk staged) t, with_cache m s)
            | None => batch_fails gs tk QualificationCompletedReadSetMismatch t (with_cache m s)
            end
          else batch_fails gs tk ProductionBatchReadFailedAfterReservation t s
      end
  | BatchCommit gs tk [] =>
      (goto (Releasing gs (EndReleasing tk (Sourced (Ok (residents t))))) t, s)
  | BatchCommit gs tk ((id, r) :: staged) =>
      match ram_commit r tk (cache s) with
      | Err _ => batch_fails gs tk (ProductionBatchCommitViolation id) t s
      | Ok (tk, m) => (goto (BatchCommit gs tk staged) (got id r t), with_cache m s)
      end
  | _ => (t, s)
  end.

(** The guards drop. *)
Definition drop_act (x : io) (t : task) (s : shared) : task * shared :=
  match pc t with
  | Releasing [] k => finish k t s
  | Releasing (g :: gs) k => (goto (Notifying g gs k) t, remove_claim g s)
  | Notifying g gs k => (goto (Releasing gs k) t, wake_followers g s)
  | _ => (t, s)
  end.

Definition act (x : io) (t : task) (s : shared) : task * shared :=
  match pc t with
  | FastPath _ | Claim _ _ | Follow _ _ _ | Recheck _ _ _ _ | CheckMap _ _ _ _ | Parked _ _ _ _
  | Woken _ _ | Leading _ | Backoff _ _ => fetch_act x t s
  | Attempt _ _ | Acquiring _ _ | Reading _ _ | Inserting _ _ => once_act x t s
  | SpawnCheck _ | SpawnAdmit _ | SpawnStart _ | SpawnClaim _ | ShadowBuffer _ | PrimaryBuffer _
  | RecycleShadow _ | SpawnReading _ | SpawnInserting _ _ | ShadowRetry _ => prefetch_act x t s
  | Sequential _ | Batch | BatchClaim _ _ _ | BatchRecheck _ _ | BatchReserve _ _
  | BatchBuffers _ _ _ | BatchReading _ _ _ | BatchCommit _ _ _ => source_act x t s
  | _ => drop_act x t s
  end.

(** *** Runs *)

(** [SourceSet] carries the residents the caller already has; [control] is the
    qualification arm that always reads one by one. *)
Inductive request :=
| Fetch (id : N)
| Prefetch (id : N)
| SourceSet (control : bool) (ids : list N) (have : gmap N resident).

Definition start (q : request) : task :=
  match q with
  | Fetch id => {| global_ids := [id]; residents := ∅; todo := None; pc := FastPath id |}
  | Prefetch id => {| global_ids := [id]; residents := ∅; todo := None; pc := SpawnCheck id |}
  | SourceSet control ids have =>
      {| global_ids := ids; residents := have; todo := None;
         pc := if control then Sequential ids else Batch |}
  end.

Record world := { tasks : list task; common : shared }.

Inductive event :=
| Spawn (q : request)
| Poll (i : nat) (x : io)
| Cancel (i : nat)
| Other (op : ram_op).

Definition on_task (i : nat) (f : task -> shared -> task * shared) (w : world) : world :=
  match tasks w !! i with
  | None => w
  | Some t => let '(t, s) := f t (common w) in {| tasks := <[i := t]> (tasks w); common := s |}
  end.

Definition exec1 (w : world) (e : event) : world :=
  match e with
  | Spawn q => {| tasks := tasks w ++ [start q]; common := common w |}
  | Poll i x => on_task i (act x) w
  | Cancel i => on_task i abort w
  | Other op => {| tasks := tasks w; common := with_cache (ram_other op (cache (common w))) (common w) |}
  end.

Definition exec (evs : list event) (w : world) : world := foldl exec1 w evs.

(** Before any request. *)
Definition idle (m : ram) : world :=
  {| tasks := []; common := {| cache := m; in_flight := ∅; notifies := ∅; next_notify := 0 |} |}.

Definition is_expert_cached (id : N) (s : shared) : bool := ram_contains id (cache s).

(** The fetches [warm_with] spawns, or its [InvalidInput]. *)
Fixpoint warm_unique (num_experts : N) (ids : list N) (s : shared) (unique : gset N)
  : result unit (gset N) :=
  match ids with
  | [] => Ok unique
  | id :: ids =>
      if (num_experts <=? id)%N then Err tt else
      warm_unique num_experts ids s
        (if ram_contains id (cache s) then unique else {[id]} ∪ unique)
  end.

Definition warm_with (num_experts : N) (ids : list N) (s : shared) : result unit (list request) :=
  unique ← warm_unique num_experts ids s ∅;
  Ok (Fetch <$> elements unique).
End tasks.

(** ** What one access does to the claims *)

Section claims.
Context `{!RamCache, !Notify}.
Variable cap : N.
Implicit Types (t : task) (s : shared) (w : world).

(** The guards whose entry is still in the map. *)
Definition armed (c : code) : list guard :=
  match c with Notifying _ gs _ => gs | _ => held c end.

Definition same_claims s s' : Prop :=
  in_flight s' = in_flight s /\ notifies s' = notifies s /\ next_notify s' = next_notify s.

Inductive effect t s t' s' : Prop :=
| eff_quiet :
    held (pc t') = held (pc t) -> armed (pc t') = armed (pc t) -> same_claims s s' -> effect t s t' s'
| eff_claim g :
    in_flight s !! g_id g = None -> g_notify g = next_notify s ->
    held (pc t') = held (pc t) ++ [g] -> armed (pc t') = armed (pc t) ++ [g] ->
    in_flight s' = <[g_id g := g_notify g]> (in_flight s) ->
    notifies s' = <[g_notify g := notify_new]> (notifies s) -> next_notify s' = S (next_notify s) ->
    effect t s t' s'
| eff_remove g :
    held (pc t') = held (pc t) -> armed (pc t) = g :: armed (pc t') ->
    s' = remove_claim g s -> effect t s t' s'
| eff_notify g :
    held (pc t) = g :: held (pc t') -> armed (pc t') = armed (pc t) ->
    s' = wake_followers g s -> effect t s t' s'.

Lemma same_claims_refl s : same_claims s s.
Proof. done. Qed.

Lemma same_claims_cache s m : same_claims s (with_cache m s).
Proof. done. Qed.

Lemma held_reply id r t : held (pc (reply id r t)) = [] /\ armed (pc (reply id r t)) = [].
Proof. unfold reply. by destruct (todo t), r. Qed.

Lemma lookup_or_cases id hit miss s :
  snd (lookup_or id hit miss s) = with_cache (snd (ram_get id (cache s))) s /\
  match fst (ram_get id (cache s)) with
  | Some r => fst (lookup_or id hit miss s) = hit r
  | None => fst (lookup_or id hit miss s) = miss
  end.
Proof. unfold lookup_or. destruct (ram_get id (cache s)) as [[r|] m]; done. Qed.

Lemma try_claim_inv id s r s' :
  try_claim id s = (r, s') ->
  match r with
  | Err n => s' = s /\ in_flight s !! id = Some n
  | Ok g => g_id g = id /\ g_notify g = next_notify s /\ in_flight s !! id = None /\
      in_flight s' = <[id := next_notify s]> (in_flight s) /\
      notifies s' = <[next_notify s := notify_new]> (notifies s) /\
      next_notify s' = S (next_notify s) /\ cache s' = cache s
  end.
Proof. unfold try_claim. destruct (in_flight s !! id) as [n|] eqn:E; intros [= <- <-]; simpl; auto 10. Qed.

Lemma attempt_failed_claims g a e t :
  held (pc (attempt_failed g a e t)) = [g] /\ armed (pc (attempt_failed g a e t)) = [g].
Proof. unfold attempt_failed. destruct e; simpl; [done|]. by case_match. Qed.

Lemma abort_effect t s t' s' : abort t s = (t', s') -> effect t s t' s'.
Proof.
  unfold abort. destruct (uninterruptible (pc t)) eqn:E; intros [= <- <-].
  - by apply eff_quiet.
  - apply eff_quiet; [done| |by destruct (ticket_of (pc t))].
    by destruct (pc t).
Qed.

Lemma claimed_effect t s t' s' id g :
  try_claim id s = (Ok g, s') ->
  held (pc t') = held (pc t) ++ [g] -> armed (pc t') = armed (pc t) ++ [g] ->
  effect t s t' s'.
Proof. intros (<- & Hn & ? & ? & ? & ? & _)%try_claim_inv ? ?. eapply (eff_claim _ _ _ _ g); rewrite ?Hn; done. Qed.

Lemma finish_effect k t s t' s' : pc t = Releasing [] k -> finish k t s = (t', s') -> effect t s t' s'.
Proof.
  intros E. destruct k as [id r| |o|tk o]; intros [= <- <-];
    apply eff_quiet; rewrite ?E; try apply held_reply; done.
Qed.

Lemma act_effect x t s t' s' : act cap x t s = (t', s') -> effect t s t' s'.
Proof.
  unfold act, fetch_act, once_act, prefetch_act, source_act, drop_act, lookup_or, batch_fails. destruct (pc t) eqn:E; intros Heq;
    try (by apply abort_effect);
    repeat case_match; simplify_eq;
    try match goal with H : try_claim _ _ = (Err _, _) |- _ => apply try_claim_inv in H as [-> _] end;
    try match goal with H : try_claim _ _ = (Ok _, _) |- _ =>
      eapply (claimed_effect _ _ _ _ _ _ H); rewrite ?E; done end;
    first [ by apply eff_quiet; rewrite ?E
          | apply eff_quiet; rewrite ?E; [apply held_reply|apply held_reply|done]
          | apply eff_quiet; rewrite ?E; [apply attempt_failed_claims|apply attempt_failed_claims|done]
          | by apply (eff_remove _ _ _ _ g); rewrite ?E
          | by apply (eff_notify _ _ _ _ g); rewrite ?E
          | by eapply finish_effect
          | by apply abort_effect | idtac ].
Qed.

(** *** The claims of a world *)

Definition holds w (i : nat) (g : guard) : Prop := exists t, tasks w !! i = Some t /\ g ∈ held (pc t).
Definition arms w (i : nat) (g : guard) : Prop := exists t, tasks w !! i = Some t /\ g ∈ armed (pc t).

(** The entries of the map are the armed guards; every guard has a [Notify] of its
    own, which has not been notified. *)
Record claims_ok w : Prop := {
  co_armed i g : arms w i g -> in_flight (common w) !! g_id g = Some (g_notify g);
  co_owner id n : in_flight (common w) !! id = Some n ->
    exists i, arms w i {| g_id := id; g_notify := n |};
  co_unique i j g g' : holds w i g -> holds w j g' -> g_notify g = g_notify g' -> i = j /\ g = g';
  co_nodup i t : tasks w !! i = Some t -> NoDup (held (pc t));
  co_fresh i g : holds w i g -> (g_notify g < next_notify (common w))%nat;
  co_new i g : holds w i g -> notifies (common w) !! g_notify g = Some notify_new;
}.

Lemma armed_sublist c : armed c `sublist_of` held c.
Proof. destruct c; simpl; try done. by constructor. Qed.

Lemma arms_holds w i g : arms w i g -> holds w i g.
Proof. intros (t & ? & ?). exists t. split; [done|]. by eapply sublist_subseteq; [apply armed_sublist|]. Qed.

Section step.
Context w (i : nat) t t' s' (Ht : tasks w !! i = Some t) (Hok : claims_ok w).
Abbreviation w' := {| tasks := <[i := t']> (tasks w); common := s' |}.

Lemma holds_step j g : holds w' j g <-> (j = i /\ g ∈ held (pc t')) \/ (j <> i /\ holds w j g).
Proof.
  unfold holds. simpl. pose proof (lookup_lt_Some _ _ _ Ht). split.
  - intros (u & [(-> & -> & _)|[? ?]]%list_lookup_insert_Some & ?); [by left|right; eauto].
  - intros [[-> ?]|[? (u & ? & ?)]].
    + exists t'. by rewrite list_lookup_insert_eq.
    + exists u. by rewrite list_lookup_insert_ne.
Qed.

Lemma arms_step j g : arms w' j g <-> (j = i /\ g ∈ armed (pc t')) \/ (j <> i /\ arms w j g).
Proof.
  unfold arms. simpl. pose proof (lookup_lt_Some _ _ _ Ht). split.
  - intros (u & [(-> & -> & _)|[? ?]]%list_lookup_insert_Some & ?); [by left|right; eauto].
  - intros [[-> ?]|[? (u & ? & ?)]].
    + exists t'. by rewrite list_lookup_insert_eq.
    + exists u. by rewrite list_lookup_insert_ne.
Qed.

Lemma nodup_step : NoDup (held (pc t')) -> forall j u, tasks w' !! j = Some u -> NoDup (held (pc u)).
Proof.
  intros Hn j u [(-> & -> & _)|[_ Hu]]%list_lookup_insert_Some; [done|]. by apply (co_nodup _ Hok j).
Qed.

(** The guards of the task that moved are held as before, up to a new one. *)
Lemma quiet_step :
  held (pc t') = held (pc t) -> armed (pc t') = armed (pc t) -> same_claims (common w) s' -> claims_ok w'.
Proof.
  intros Hh Ha (Hf & Hn & Hx).
  assert (Hhs : forall j g, holds w' j g -> holds w j g).
  { intros j g [[-> Hg]|[_ Hg]]%holds_step; [|done]. exists t. by rewrite <-Hh. }
  assert (Has : forall j g, arms w' j g <-> arms w j g).
  { intros j g. rewrite arms_step, Ha. destruct (decide (j = i)) as [->|]; [|tauto].
    unfold arms. rewrite Ht. split; [intros [[_ ?]|[? _]]; [eauto|done]|].
    intros (u & [= ->] & ?). auto. }
  split; simpl; rewrite ?Hf, ?Hn, ?Hx.
  - intros j g Hg%Has. by apply (co_armed _ Hok j).
  - intros id n (j & Hj)%(co_owner _ Hok). exists j. by apply Has.
  - intros j k g g' Hj%Hhs Hk%Hhs. by apply (co_unique _ Hok).
  - apply nodup_step. rewrite Hh. by apply (co_nodup _ Hok i).
  - intros j g Hj%Hhs. by apply (co_fresh _ Hok j).
  - intros j g Hj%Hhs. by apply (co_new _ Hok j).
Qed.

Lemma claim_step g :
  in_flight (common w) !! g_id g = None -> g_notify g = next_notify (common w) ->
  held (pc t') = held (pc t) ++ [g] -> armed (pc t') = armed (pc t) ++ [g] ->
  in_flight s' = <[g_id g := g_notify g]> (in_flight (common w)) ->
  notifies s' = <[g_notify g := notify_new]> (notifies (common w)) ->
  next_notify s' = S (next_notify (common w)) -> claims_ok w'.
Proof.
  intros Hnone Hg Hh Ha Hf Hn Hx.
  assert (Hhs : forall j k, holds w' j k -> holds w j k \/ (j = i /\ k = g)).
  { intros j k [[-> Hk]|[_ Hk]]%holds_step; [|by left].
    rewrite Hh in Hk. apply elem_of_app in Hk as [Hk|Hk%list_elem_of_singleton]; [left; by exists t|by right]. }
  assert (Hold : forall j k, holds w j k -> g_notify k <> g_notify g).
  { intros j k Hk%(co_fresh _ Hok). lia. }
  split; simpl; rewrite ?Hf, ?Hn, ?Hx.
  - intros j k Hk. assert (arms w j k \/ k = g) as [Hk'| ->].
    { apply arms_step in Hk as [[-> Hk]|[_ Hk]]; [|by left]. rewrite Ha in Hk.
      apply elem_of_app in Hk as [Hk|Hk%list_elem_of_singleton]; [left; by exists t|by right]. }
    + apply (co_armed _ Hok) in Hk'. rewrite lookup_insert_ne; [done|]. congruence.
    + by rewrite lookup_insert_eq.
  - intros id n [[<- <-]|[Hid (j & Hj)%(co_owner _ Hok)]]%lookup_insert_Some.
    + exists i. apply arms_step. left. rewrite Ha. destruct g. set_solver.
    + exists j. apply arms_step. destruct (decide (j = i)) as [->|]; [left|by right].
      destruct Hj as (u & Hu & Hj). simplify_eq. rewrite Ha. set_solver.
  - intros j k a b [Hj|[-> ->]]%Hhs [Hk|[-> ->]]%Hhs He.
    + by apply (co_unique _ Hok).
    + by apply Hold in Hj.
    + by apply Hold in Hk.
    + done.
  - apply nodup_step. rewrite Hh. apply NoDup_app. split_and!; [by apply (co_nodup _ Hok i)| |apply NoDup_singleton].
    intros k Hk ->%list_elem_of_singleton. by apply (Hold i g); [exists t|].
  - intros j k [Hk%(co_fresh _ Hok)|[-> ->]]%Hhs; lia.
  - intros j k [Hk|[-> ->]]%Hhs; [|by rewrite lookup_insert_eq].
    rewrite lookup_insert_ne; [by apply (co_new _ Hok j)|]. apply Hold in Hk. congruence.
Qed.

Lemma remove_step g :
  held (pc t') = held (pc t) -> armed (pc t) = g :: armed (pc t') ->
  s' = remove_claim g (common w) -> claims_ok w'.
Proof.
  intros Hh Ha Hs'.
  assert (Hg : arms w i g) by (exists t; rewrite Ha; split; [done|by left]).
  pose proof (co_armed _ Hok _ _ Hg) as Hin.
  assert (Hhs : forall j k, holds w' j k -> holds w j k).
  { intros j k [[-> Hk]|[_ Hk]]%holds_step; [|done]. exists t. by rewrite <-Hh. }
  assert (Hnd : NoDup (armed (pc t))) by (eapply sublist_NoDup; [by apply (co_nodup _ Hok i)|apply armed_sublist]).
  assert (Has : forall j k, arms w' j k <-> arms w j k /\ (k <> g)).
  { intros j k. rewrite arms_step. destruct (decide (j = i)) as [->|Hj].
    - rewrite Ha in Hnd. apply NoDup_cons in Hnd as [Hni _]. unfold arms. rewrite Ht. split.
      + intros [[_ Hk]|[? _]]; [|done]. split; [|by intros ->]. exists t. rewrite Ha. split; [done|by right].
      + intros [(u & [= <-] & Hk) Hne]. left. rewrite Ha in Hk. set_solver.
    - split; [|tauto]. intros [[? _]|[_ Hk]]; [done|]. split; [done|]. intros ->.
      destruct (co_unique _ Hok j i g g) as [? _]; auto using arms_holds. }
  split; simpl; rewrite ?Hs'; simpl; rewrite ?bool_decide_true by done.
  - intros j k [Hk Hne]%Has. pose proof (co_armed _ Hok _ _ Hk) as Hk'. rewrite lookup_delete_ne; [done|].
    intros He. apply Hne. rewrite <-He in Hk'. destruct g, k; simpl in *. congruence.
  - intros id n [Hid (j & Hj)%(co_owner _ Hok)]%lookup_delete_Some. exists j. apply Has.
    split; [done|]. intros <-. done.
  - intros j k a b Hj%Hhs Hk%Hhs. by apply (co_unique _ Hok).
  - apply nodup_step. rewrite Hh. by apply (co_nodup _ Hok i).
  - intros j k Hk%Hhs. by apply (co_fresh _ Hok j).
  - intros j k Hk%Hhs. by apply (co_new _ Hok j).
Qed.

Lemma notify_step g :
  held (pc t) = g :: held (pc t') -> armed (pc t') = armed (pc t) ->
  s' = wake_followers g (common w) -> claims_ok w'.
Proof.
  intros Hh Ha Hs'. pose proof (co_nodup _ Hok _ _ Ht) as Hnd. rewrite Hh in Hnd.
  apply NoDup_cons in Hnd as [Hni Hnd].
  assert (Hg : holds w i g) by (exists t; rewrite Hh; split; [done|by left]).
  assert (Hhs : forall j k, holds w' j k -> holds w j k /\ g_notify k <> g_notify g).
  { intros j k Hk. assert (holds w j k) as Hw.
    { apply holds_step in Hk as [[-> Hk]|[_ Hk]]; [|done]. exists t. rewrite Hh. split; [done|by right]. }
    split; [done|]. intros He. destruct (co_unique _ Hok _ _ _ _ Hw Hg He) as [-> ->].
    apply holds_step in Hk as [[_ Hk]|[? _]]; done. }
  assert (Has : forall j k, arms w' j k <-> arms w j k).
  { intros j k. rewrite arms_step, Ha. destruct (decide (j = i)) as [->|]; [|tauto].
    unfold arms. rewrite Ht. split; [intros [[_ ?]|[? _]]; [eauto|done]|].
    intros (u & [= ->] & ?). auto. }
  split; simpl; rewrite ?Hs'; simpl.
  - intros j k Hk%Has. by apply (co_armed _ Hok j).
  - intros id n (j & Hj)%(co_owner _ Hok). exists j. by apply Has.
  - intros j k a b [Hj _]%Hhs [Hk _]%Hhs. by apply (co_unique _ Hok).
  - by apply nodup_step.
  - intros j k [Hk _]%Hhs. by apply (co_fresh _ Hok j).
  - intros j k [Hk Hne]%Hhs. rewrite lookup_insert_ne by done. by apply (co_new _ Hok j).
Qed.

Lemma claims_step : effect t (common w) t' s' -> claims_ok w'.
Proof. intros []; eauto using quiet_step, claim_step, remove_step, notify_step. Qed.
End step.

Lemma on_task_cases i f w :
  (tasks w !! i = None /\ on_task i f w = w) \/
  exists t t' s', tasks w !! i = Some t /\ f t (common w) = (t', s') /\
    on_task i f w = {| tasks := <[i := t']> (tasks w); common := s' |}.
Proof.
  unfold on_task. destruct (tasks w !! i) as [t|] eqn:E; [right|by left].
  destruct (f t (common w)) as [t' s'] eqn:Ef. eauto 10.
Qed.

Lemma start_unarmed q : held (pc (start q)) = [] /\ armed (pc (start q)) = [].
Proof. by destruct q as [| |[]]. Qed.

Lemma exec1_claims w e : claims_ok w -> claims_ok (exec1 cap w e).
Proof.
  intros Hok. destruct e as [q|i x|i|op]; simpl.
  - destruct (start_unarmed q) as [Hh Ha].
    assert (Hs : forall j u, (tasks w ++ [start q]) !! j = Some u -> tasks w !! j = Some u \/ u = start q).
    { intros j u [?|[_ [_ ?]%list_lookup_singleton_Some]]%lookup_app_Some; auto. }
    assert (Hhs : forall j g, holds {| tasks := tasks w ++ [start q]; common := common w |} j g -> holds w j g).
    { intros j g (u & [?| ->]%Hs & Hg); [by exists u|]. rewrite Hh in Hg. by apply elem_of_nil in Hg. }
    split; simpl.
    + intros j g (u & [?| ->]%Hs & Hg); [apply (co_armed _ Hok j); by exists u|].
      rewrite Ha in Hg. by apply elem_of_nil in Hg.
    + intros id n (j & u & Hu & Hg)%(co_owner _ Hok). exists j, u. split; [|done]. by apply lookup_app_l_Some.
    + intros j k a b Hj%Hhs Hk%Hhs. by apply (co_unique _ Hok).
    + intros j u [Hu| ->]%Hs; [by apply (co_nodup _ Hok j)|]. rewrite Hh. constructor.
    + intros j g Hj%Hhs. by apply (co_fresh _ Hok j).
    + intros j g Hj%Hhs. by apply (co_new _ Hok j).
  - destruct (on_task_cases i (act cap x) w) as [[_ ->]|(t & t' & s' & Ht & He & ->)]; [done|].
    eapply claims_step; eauto using act_effect.
  - destruct (on_task_cases i abort w) as [[_ ->]|(t & t' & s' & Ht & He & ->)]; [done|].
    eapply claims_step; eauto using abort_effect.
  - by destruct Hok.
Qed.

Lemma idle_claims m : claims_ok (idle m).
Proof.
  assert (Hh : forall i g, ~ holds (idle m) i g) by (intros i g (t & Ht & _); done).
  split; simpl.
  - intros i g Hg%arms_holds. by apply Hh in Hg.
  - intros id n. by rewrite lookup_empty.
  - intros i j g g' Hi. by apply Hh in Hi.
  - done.
  - intros i g Hi. by apply Hh in Hi.
  - intros i g Hi. by apply Hh in Hi.
Qed.

Lemma exec_claims evs w : claims_ok w -> claims_ok (exec cap evs w).
Proof. revert w. induction evs as [|e evs IH]; intros w Hw; [done|]. apply IH. by apply exec1_claims. Qed.
End claims.

(** ** What a task owes its caller *)

Section answers.
Context `{!RamCache, !RamLaws, !Notify}.
Variable cap : N.
Implicit Types (t : task) (s : shared) (w : world) (m : ram).

(** The expert a task is fetching. *)
Definition fetch_of (c : code) : option N :=
  match c with
  | FastPath id | Claim id _ | Follow id _ _ | Recheck id _ _ _ | CheckMap id _ _ _
  | Parked id _ _ _ | Woken id _ => Some id
  | Leading g | Attempt g _ | Acquiring g _ | Reading g _ | Inserting g _ | Backoff g _ => Some (g_id g)
  | Releasing _ (Reply id _) | Notifying _ _ (Reply id _) => Some id
  | _ => None
  end.

(** What is sourced, or will be once [pending] is. *)
Definition covered t (pending : list N) : Prop :=
  forall k, k ∈ global_ids t -> k ∈ pending \/ is_Some (residents t !! k).

Definition outcome_ok t (o : outcome) : Prop :=
  match o with
  | Fetched (Ok r) => global_ids t = [res_id r]
  | Sourced (Ok m) => m = residents t /\ covered t []
  | Fetched (Err e) | Sourced (Err (SourceRead e)) => e <> ReadPoolStarved
  | _ => True
  end.

Definition after_ok t (k : after) : Prop :=
  match k with
  | Reply id (Ok r) => res_id r = id
  | Reply _ (Err e) => e <> ReadPoolStarved
  | ReadSequentially => todo t = None
  | EndWith o | EndReleasing _ o => outcome_ok t o
  end.

Definition batch_ok t (unresolved : list N) (gs : list guard) (rest : list N) : Prop :=
  todo t = None /\ unresolved = unresolved_of t /\ (g_id <$> gs) ++ rest = unresolved.

Definition pc_ok t : Prop :=
  match pc t with
  | Inserting g r | SpawnInserting g r => res_id r = g_id g
  | Backoff g a => (a + 1 < MAX_ATTEMPTS)%nat
  | Sequential rest => todo t = None /\ covered t rest
  | Batch => todo t = None
  | BatchClaim u rest gs => batch_ok t u gs rest
  | BatchRecheck u gs | BatchReserve u gs | BatchBuffers u gs _ | BatchReading u gs _ => batch_ok t u gs []
  | BatchCommit gs _ staged =>
      todo t = None /\ (exists committed, g_id <$> gs = committed ++ staged.*1) /\
      Forall (fun p => res_id p.2 = p.1) staged /\ covered t staged.*1
  | Releasing _ k | Notifying _ _ k => after_ok t k
  | Finished o => outcome_ok t o
  | _ => True
  end.

Record task_ok t : Prop := {
  ok_residents : map_Forall (fun id r => res_id r = id) (residents t);
  ok_fetch id : fetch_of (pc t) = Some id ->
    match todo t with None => global_ids t = [id] | Some rest => covered t (id :: rest) end;
  ok_pc : pc_ok t;
}.

Lemma unresolved_spec t k : k ∈ unresolved_of t <-> k ∈ global_ids t /\ residents t !! k = None.
Proof.
  unfold unresolved_of. rewrite list_elem_of_In, List.filter_In, <-list_elem_of_In. by rewrite bool_decide_eq_true.
Qed.

Lemma covered_got t id r c rest :
  covered t (id :: rest) -> covered (goto c (got id r t)) rest.
Proof.
  intros Hc k Hk. simpl in *. destruct (decide (k = id)) as [->|].
  - right. by rewrite lookup_insert_eq.
  - rewrite lookup_insert_ne by done. destruct (Hc k Hk) as [?|?]; [left; set_solver|by right].
Qed.

Lemma reply_ok id r t :
  task_ok t -> fetch_of (pc t) = Some id -> match r with Ok x => res_id x = id | Err e => e <> ReadPoolStarved end ->
  task_ok (reply id r t).
Proof.
  intros [Hr Hf _] Hfe Hx. specialize (Hf _ Hfe). unfold reply.
  destruct (todo t) as [rest|] eqn:Et; destruct r as [x|e]; simpl in *.
  - split; simpl; [by apply map_Forall_insert_2|done|]. split; [done|]. by apply (covered_got _ _ _ (pc t)).
  - by split.
  - split; [done|done|]. unfold pc_ok. simpl. by rewrite Hf, Hx.
  - by split.
Qed.

Lemma goto_ok t c :
  task_ok t -> fetch_of c = fetch_of (pc t) -> pc_ok (goto c t) -> task_ok (goto c t).
Proof. intros [Hr Hf _] Hc Hp. split; simpl; [done| |done]. rewrite Hc. apply Hf. Qed.

Lemma goto_ok_none t c :
  task_ok t -> fetch_of c = None -> pc_ok (goto c t) -> task_ok (goto c t).
Proof. intros [Hr Hf _] Hc Hp. split; simpl; [done| |done]. by rewrite Hc. Qed.

Lemma sequential_ok t : task_ok t -> todo t = None -> task_ok (sequential t).
Proof. intros Ht Hn. apply goto_ok_none; [done|done|]. split; [done|]. intros k Hk. by left. Qed.

(** *** Staging a batch *)

Lemma build_residents_spec ids srcs m :
  length srcs = length ids ->
  (fst (build_residents ids srcs m)).*1 = ids /\
  Forall (fun p => res_id p.2 = p.1) (fst (build_residents ids srcs m)) /\
  grows [] m (snd (build_residents ids srcs m)).
Proof.
  revert srcs m. induction ids as [|id ids IH]; intros [|src srcs] m; simpl; try done.
  { intros _. split_and!; [done|constructor|]. split; auto. }
  intros [= Hl]. pose proof (new_law id src m) as [Hg1 Hg2]. pose proof (new_id id src m) as Hi.
  destruct (ram_new id src m) as [r m1]; simpl in *.
  destruct (IH srcs m1 Hl) as (Hk1 & Hk2 & [Hk3 Hk4]).
  destruct (build_residents ids srcs m1) as [l m2]; simpl in *. split_and!.
  - by f_equal.
  - by constructor.
  - split; [auto|]. intros k [?|?]%Hk4; auto.
Qed.

Lemma take_completed_all (l : list (N * resident)) :
  NoDup l.*1 -> take_completed l.*1 (list_to_map l) = Some (l, ∅).
Proof.
  induction l as [|[id r] l IH]; csimpl; [done|]. intros [Hni Hnd]%NoDup_cons.
  rewrite lookup_insert_eq. csimpl. rewrite delete_insert_id by by apply not_elem_of_list_to_map_1.
  by rewrite IH.
Qed.

(** A complete batch is staged in request order. *)
Lemma ordered_residents (l : list (N * resident)) :
  NoDup l.*1 -> qualification_order_completed_residents l.*1 (list_to_map l) = Some l.
Proof.
  intros Hnd. unfold qualification_order_completed_residents.
  rewrite map_size_list_to_map, length_fmap, Nat.eqb_refl by done. simpl.
  destruct (existsb _ _) eqn:E.
  - apply existsb_exists in E as (id & Hin & Hn%bool_decide_eq_true).
    apply list_elem_of_In in Hin. by apply not_elem_of_list_to_map_2 in Hn.
  - by rewrite take_completed_all.
Qed.

Lemma take_completed_keys order : forall (m m' : gmap N resident) l,
  take_completed order m = Some (l, m') -> l.*1 = order /\ Forall (fun p => m !! p.1 = Some p.2) l.
Proof.
  induction order as [|id order IH]; simpl; intros m m' l.
  { intros [= <- <-]. split; [done|constructor]. }
  destruct (m !! id) as [r|] eqn:Er; simpl; [|done].
  destruct (take_completed order (delete id m)) as [[l' m1]|] eqn:E; simpl; [|done].
  intros [= <- <-]. apply IH in E as [<- Hf]. split; [done|]. constructor; [done|].
  eapply Forall_impl; [exact Hf|]. intros [k x]. simpl. by intros [_ ?]%lookup_delete_Some.
Qed.

Lemma staged_residents order (l staged : list (N * resident)) :
  Forall (fun p => res_id p.2 = p.1) l ->
  qualification_order_completed_residents order (list_to_map l) = Some staged ->
  staged.*1 = order /\ Forall (fun p => res_id p.2 = p.1) staged.
Proof.
  unfold qualification_order_completed_residents. intros Hl. case_match; [done|].
  destruct (take_completed order (list_to_map l)) as [[l' m']|] eqn:E; simpl; [|done].
  case_bool_decide; [|done]. intros [= ->]. apply take_completed_keys in E as [Ho Hf]. split; [done|].
  eapply Forall_impl; [exact Hf|]. intros [k x] Hk%elem_of_list_to_map_2.
  rewrite Forall_forall in Hl. by apply (Hl (k, x)).
Qed.

(** *** Every access keeps the obligations *)

Lemma lookup_ok id hit miss s t' s' :
  lookup_or id hit miss s = (t', s') -> ram_ok (cache s) ->
  (forall r, res_id r = id -> task_ok (hit r)) -> task_ok miss -> task_ok t'.
Proof.
  intros Hl Hr Hh Hm. unfold lookup_or in Hl. pose proof (get_id id (cache s)) as Hi.
  destruct (ram_get id (cache s)) as [[r|] m]; simplify_eq; [|done]. apply Hh. by apply Hi.
Qed.

Lemma attempt_failed_ok g a t :
  task_ok t -> fetch_of (pc t) = Some (g_id g) -> task_ok (attempt_failed g a Io t).
Proof.
  intros Ht Hf. unfold attempt_failed.
  destruct (Nat.ltb_spec (a + 1) MAX_ATTEMPTS); apply goto_ok; done.
Qed.

Lemma task_finish_ok k t s t' s' : pc t = Releasing [] k -> finish k t s = (t', s') -> task_ok t -> task_ok t'.
Proof.
  intros E Hk Ht. pose proof (ok_pc _ Ht) as Hp. unfold pc_ok in Hp. rewrite E in Hp.
  destruct k as [id r| |o|tk o]; simpl in *; simplify_eq.
  - apply reply_ok; [done|by rewrite E|by destruct r].
  - by apply sequential_ok.
  - by apply goto_ok_none.
  - by apply goto_ok_none.
Qed.

Lemma abort_ok t s t' s' : abort t s = (t', s') -> task_ok t -> task_ok t'.
Proof.
  unfold abort. case_match; intros [= <- <-] Ht; [done|]. by apply goto_ok_none.
Qed.

Lemma act_ok x t s t' s' :
  act cap x t s = (t', s') -> ram_ok (cache s) -> task_ok t -> task_ok t'.
Proof.
  intros Ha Hm Ht. pose proof (ok_pc _ Ht) as Hp.
  unfold pc_ok in Hp. unfold act, fetch_act, once_act, prefetch_act, source_act, drop_act, batch_fails in Ha. destruct (pc t) eqn:E;
    try (by eapply abort_ok); try (by eapply task_finish_ok);
    try (eapply lookup_ok; [exact Ha|done|intros|]).
  all: repeat case_match; simplify_eq; try done.
  all: try (apply reply_ok; [done|by rewrite E|done]).
  all: try (apply attempt_failed_ok; [done|by rewrite E]).
  all: try (apply goto_ok; rewrite ?E; done).
  all: try (apply goto_ok_none; done).
  all: try match goal with H : try_claim _ _ = (Ok _, _) |- _ =>
    apply try_claim_inv in H as (Hid & _) end.
  all: try match goal with H : ram_new ?id ?src ?m = _ |- _ =>
    pose proof (new_id id src m) as Hnew; rewrite H in Hnew end.
  - apply goto_ok; rewrite ?E; simpl; [done|by f_equal|done].
  - by apply goto_ok; rewrite ?E.
  - match goal with H : ram_insert ?r ?m = _ |- _ =>
      destruct (insert_rejected r m e) as [-> _]; [by rewrite H|] end.
    by apply goto_ok; rewrite ?E.
  - by apply goto_ok_none.
  - apply goto_ok_none; [done|done|]. by destruct Hp.
  - destruct Hp as [Hn Hc]. apply goto_ok_none; [done|done|]. split; [done|].
    intros k Hk. destruct (Hc k Hk) as [[->|?]%elem_of_cons|?]; eauto.
  - destruct Hp as [Hn Hc]. eapply lookup_ok; [exact Ha|done| |].
    + intros r Hr. split; simpl; [|done|].
      * apply map_Forall_insert_2; [done|apply Ht].
      * split; [done|]. by apply (covered_got _ _ _ (pc t)).
    + split; simpl; [apply Ht|by intros ? [= ->]|done].
  - by apply sequential_ok.
  - destruct Hp as (? & ? & Hgs). apply goto_ok_none; [done|done|]. split_and!; [done..|].
    rewrite fmap_app, <-app_assoc. simpl. by rewrite Hid.
  - apply goto_ok_none; [done|done|]. apply Hp.
  - apply goto_ok_none; [done|done|]. apply Hp.
  - apply goto_ok_none; [done|done|]. apply Hp.
  - by eapply abort_ok.
  - match goal with H : build_residents _ ?srcs _ = _, Hl : _ && (length ?srcs =? _)%nat = true |- _ =>
      apply andb_prop in Hl as [_ Hl%Nat.eqb_eq];
      destruct (build_residents_spec unresolved srcs (cache s) Hl) as (Hids & Hb & _); rewrite H in Hb end.
    match goal with H : qualification_order_completed_residents _ _ = Some _ |- _ =>
      destruct (staged_residents _ _ _ Hb H) as [Hst Hf] end.
    destruct Hp as (Hn & Hu & Hgs). apply goto_ok_none; [done|done|]. split_and!; [done| |done|].
    + exists []. rewrite Hst, <-Hgs. by rewrite app_nil_r.
    + intros k Hk. rewrite Hst, Hu. simpl. destruct (residents t !! k) eqn:Er; [by right|left].
      by apply unresolved_spec.
  - destruct Hp as (Hn & _ & _ & Hc). apply goto_ok_none; [done|done|]. done.
  - destruct Hp as (Hn & (l1 & Hl) & [Hr Hf]%Forall_cons & Hc). split; simpl; [|done|].
    + apply map_Forall_insert_2; [done|apply Ht].
    + split_and!; [done| |done|].
      * exists (l1 ++ [n]). by rewrite Hl, <-app_assoc.
      * by apply (covered_got _ _ _ (pc t)).
  - by eapply task_finish_ok.
Qed.
End answers.

(** ** What one access does to the cache *)

Section contents.
Context `{!RamCache, !RamLaws, !Notify}.
Variable cap : N.
Implicit Types (t : task) (s : shared) (w : world) (m : ram).

(** The experts a task has read and not handed to the cache yet. *)
Definition in_hand (c : code) : list N :=
  match c with
  | Inserting g _ | SpawnInserting g _ => [g_id g]
  | BatchCommit _ _ staged => staged.*1
  | _ => []
  end.

(** The experts a foreground leader has found missing and is bringing. *)
Definition seeks (c : code) : list N :=
  match c with
  | Attempt g _ | Acquiring g _ | Reading g _ | Backoff g _ => [g_id g]
  | BatchReserve u _ | BatchBuffers u _ _ | BatchReading u _ _ => u
  | _ => []
  end.

(** The experts a task is reading from the device. *)
Definition reading (c : code) : list N :=
  match c with
  | Reading g _ | SpawnReading g => [g_id g]
  | BatchReading u _ _ => u
  | _ => []
  end.

Lemma grows_refl l m : grows l m m.
Proof. split; auto. Qed.

Lemma grows_nil l m m' : grows [] m m' -> grows l m m'.
Proof. intros [? Hg]. split; [done|]. intros id [Hid|?]%Hg; [by apply elem_of_nil in Hid|by right]. Qed.

Lemma grows_trans m1 m2 m3 : grows [] m1 m2 -> grows [] m2 m3 -> grows [] m1 m3.
Proof. intros [? H12] [? H23]. split; [auto|]. intros id [?|?%H12]%H23; auto. Qed.

Lemma lookup_grows id hit miss s t' s' :
  lookup_or id hit miss s = (t', s') -> grows [] (cache s) (cache s').
Proof.
  unfold lookup_or. pose proof (get_law id (cache s)) as Hg.
  destruct (ram_get id (cache s)) as [r m]. by intros [= _ <-].
Qed.

Lemma abort_grows t s t' s' : abort t s = (t', s') -> grows [] (cache s) (cache s').
Proof.
  unfold abort. case_match; intros [= _ <-]; [apply grows_refl|].
  destruct (ticket_of (pc t)); [apply release_law|apply grows_refl].
Qed.

Lemma finish_grows k t s t' s' : finish k t s = (t', s') -> grows [] (cache s) (cache s').
Proof. destruct k; intros [= _ <-]; try apply grows_refl. apply release_law. Qed.

Lemma batch_fails_grows gs tk e t s t' s' :
  batch_fails gs tk e t s = (t', s') -> grows [] (cache s) (cache s').
Proof. intros [= _ <-]. apply release_law. Qed.

Lemma claim_grows l id r s s' : try_claim id s = (r, s') -> grows l (cache s) (cache s').
Proof.
  intros Hc%try_claim_inv.
  destruct r; [destruct Hc as (_ & _ & _ & _ & _ & _ & ->)|destruct Hc as [-> _]]; apply grows_refl.
Qed.

Lemma insert_grows g r s : res_id r = g_id g -> grows [g_id g] (cache s) (snd (ram_insert r (cache s))).
Proof. intros <-. apply insert_law. Qed.

Lemma build_grows u srcs s : grows [] (cache s) (snd (build_residents u srcs (cache s))).
Proof.
  generalize (cache s). revert srcs. induction u as [|id u IH]; intros [|src srcs] m; simpl; try apply grows_refl.
  pose proof (new_law id src m) as Hg. destruct (ram_new id src m) as [r m1].
  specialize (IH srcs m1). destruct (build_residents u srcs m1) as [l m2]. by eapply grows_trans.
Qed.

(** Only experts in hand become resident. *)
Lemma act_grows x t s t' s' :
  act cap x t s = (t', s') -> task_ok t -> grows (in_hand (pc t)) (cache s) (cache s').
Proof.
  intros Ha Ht. pose proof (ok_pc _ Ht) as Hp. unfold pc_ok in Hp. unfold act, fetch_act, once_act, prefetch_act, source_act, drop_act in Ha.
  destruct (pc t) eqn:E; simpl in *;
    try (apply grows_nil; first [by eapply lookup_grows|by eapply finish_grows]).
  all: repeat match goal with H : context [match ram_insert ?r ?m with _ => _ end] |- _ =>
    rewrite (surjective_pairing (ram_insert r m)) in H end.
  all: repeat case_match; simplify_eq; try apply grows_refl;
    try (apply grows_nil; first [by eapply lookup_grows|by eapply abort_grows|by eapply batch_fails_grows]);
    try (by eapply claim_grows); try (by apply insert_grows).
  all: repeat match goal with
    | H : ram_new ?id ?src ?m = _ |- _ => pose proof (new_law id src m) as Hg; rewrite H in Hg; clear H
    | H : ram_evict_shadow ?m = _ |- _ => pose proof (shadow_law m) as Hg; rewrite H in Hg; clear H
    | H : ram_reserve _ _ = Some _ |- _ => pose proof (reserve_law _ _ _ _ H) as Hg; clear H
    | H : build_residents ?u ?srcs _ = _ |- _ => pose proof (build_grows u srcs s) as Hg; rewrite H in Hg; clear H
    end; simpl in *; try done; try (by apply grows_nil).
  - apply evict_law.
  - eapply grows_trans; [exact Hg|]. by eapply (batch_fails_grows _ _ _ _ (with_cache r s)).
  - match goal with H : ram_commit _ _ _ = Ok _ |- _ => destruct (commit_law _ _ _ _ _ H) as [Hk Hc] end.
    destruct Hp as (_ & _ & [Hr _]%Forall_cons & _). simpl in Hr. split; [done|].
    intros id [->%list_elem_of_singleton|?]%Hc; [left; rewrite Hr; by left|by right].
  - by eapply finish_grows.
Qed.

Lemma reply_idle id r t :
  seeks (pc (reply id r t)) = [] /\ in_hand (pc (reply id r t)) = [] /\ reading (pc (reply id r t)) = [].
Proof. unfold reply. by destruct (todo t), r. Qed.

Lemma finish_idle k t s :
  seeks (pc (fst (finish k t s))) = [] /\ in_hand (pc (fst (finish k t s))) = [] /\
  reading (pc (fst (finish k t s))) = [].
Proof. destruct k; try done. apply reply_idle. Qed.

Lemma abort_idle t s :
  seeks (pc (fst (abort t s))) = [] /\ in_hand (pc (fst (abort t s))) = [] /\
  reading (pc (fst (abort t s))) = [].
Proof.
  unfold abort. destruct (uninterruptible (pc t)) eqn:E; [|split_and!; reflexivity].
  simpl. by destruct (pc t).
Qed.

Lemma lookup_idle (f : code -> list N) id hit miss s t' s' :
  lookup_or id hit miss s = (t', s') ->
  (forall r, f (pc (hit r)) = []) -> f (pc miss) = [] -> f (pc t') = [].
Proof. unfold lookup_or. destruct (ram_get id (cache s)) as [[r|] m]; intros; simplify_eq; auto. Qed.

Lemma attempt_failed_seeks g a e t : seeks (pc (attempt_failed g a e t)) ⊆ [g_id g].
Proof. unfold attempt_failed. destruct e; simpl; [set_solver|]. by case_match; simpl; set_solver. Qed.

(** What a task seeks after an access, it sought before, or has just found missing. *)
Lemma act_seeks_cases x t s t' s' id :
  act cap x t s = (t', s') -> id ∈ seeks (pc t') ->
  in_hand (pc t) = [] /\ (id ∈ seeks (pc t) \/ ram_contains id (cache s) = false).
Proof.
  intros Ha Hid. unfold act, fetch_act, once_act, prefetch_act, source_act, drop_act in Ha. destruct (pc t) eqn:E; simpl;
    try (exfalso; assert (Hi : seeks (pc t') = []);
      [ by eapply (lookup_idle seeks); [exact Ha|intros; apply reply_idle|]
      | rewrite Hi in Hid; by apply elem_of_nil in Hid ]).
  all: try (pose proof (get_exact (g_id g) (cache s)) as Hget; unfold lookup_or in Ha).
  all: repeat case_match; simplify_eq; rewrite ?E in Hid;
    try (by apply attempt_failed_seeks in Hid; auto); simpl in Hid;
    try (by apply elem_of_nil in Hid); try (by auto).
  all: try (rewrite ?(proj1 (reply_idle _ _ _)) in Hid; by apply elem_of_nil in Hid).
  all: try (exfalso; assert (Hi : seeks (pc t') = []);
    [ first [ pose proof (abort_idle t s) as Hi; rewrite Ha in Hi; apply Hi
            | match type of Ha with finish ?k _ _ = _ => pose proof (finish_idle k t s) as Hi end;
              rewrite Ha in Hi; apply Hi
            | by unfold batch_fails in Ha; simplify_eq
            | by eapply (lookup_idle seeks); [exact Ha|intros|] ]
    | rewrite Hi in Hid; by apply elem_of_nil in Hid ]).
  - apply list_elem_of_singleton in Hid as ->. split; [done|right]. by apply Hget.
  - split; [done|right]. match goal with H : existsb _ _ = false |- _ => rename H into Hex end.
    apply not_true_is_false. intros Hc. apply not_true_iff_false in Hex. apply Hex, existsb_exists.
    exists id. split; [by apply list_elem_of_In|done].
Qed.

(** A foreground leader only brings an expert it found missing. *)
Lemma act_seeks x t s t' s' id :
  act cap x t s = (t', s') -> task_ok t ->
  (id ∈ seeks (pc t) -> ram_contains id (cache s) = false) ->
  id ∈ seeks (pc t') -> ram_contains id (cache s') = false.
Proof.
  intros Ha Ht Hold Hid. destruct (ram_contains id (cache s')) eqn:Hc; [|done]. exfalso.
  destruct (act_seeks_cases _ _ _ _ _ _ Ha Hid) as [Hh Hs].
  apply (act_grows _ _ _ _ _ Ha Ht) in Hc as [Hc|Hc].
  - rewrite Hh in Hc. by apply elem_of_nil in Hc.
  - destruct Hs as [Hs|Hs]; [apply Hold in Hs|]; congruence.
Qed.

(** *** The invariant of a world *)

Record world_ok w : Prop := {
  w_claims : claims_ok w;
  w_ram : ram_ok (cache (common w));
  w_tasks : forall i t, tasks w !! i = Some t -> task_ok t;
  w_missing : forall i t id, tasks w !! i = Some t -> id ∈ seeks (pc t) ->
    ram_contains id (cache (common w)) = false;
}.

(** The experts a task brings are those of guards whose entries are in the map. *)
Lemma brings_armed t id :
  task_ok t -> id ∈ in_hand (pc t) \/ id ∈ seeks (pc t) \/ id ∈ reading (pc t) ->
  exists g, g ∈ armed (pc t) /\ g_id g = id.
Proof.
  intros Ht. pose proof (ok_pc _ Ht) as Hp. unfold pc_ok in Hp.
  destruct (pc t); simpl; rewrite ?elem_of_nil, ?list_elem_of_singleton;
    try (by intros [?|[?|?]]);
    try (intros Hid; exists g; split; [by left|naive_solver]);
    intros Hid.
  all: first [destruct Hp as (_ & (l1 & Hl) & _) | destruct Hp as (_ & _ & Hu); rewrite app_nil_r in Hu].
  all: assert (Hg : id ∈ g_id <$> gs) by (rewrite ?Hu, ?Hl; set_solver).
  all: by apply list_elem_of_fmap in Hg as (g & -> & Hg); exists g.
Qed.

Lemma brought_once w i j ti tj id :
  world_ok w -> tasks w !! i = Some ti -> tasks w !! j = Some tj ->
  id ∈ in_hand (pc ti) \/ id ∈ seeks (pc ti) \/ id ∈ reading (pc ti) ->
  id ∈ in_hand (pc tj) \/ id ∈ seeks (pc tj) \/ id ∈ reading (pc tj) -> i = j.
Proof.
  intros Hw Hi Hj Hbi Hbj.
  apply brings_armed in Hbi as (gi & Hgi & <-); [|by apply (w_tasks _ Hw i)].
  apply brings_armed in Hbj as (gj & Hgj & He); [|by apply (w_tasks _ Hw j)].
  assert (Ai : arms w i gi) by by exists ti. assert (Aj : arms w j gj) by by exists tj.
  pose proof (co_armed _ (w_claims _ Hw) _ _ Ai) as Fi. pose proof (co_armed _ (w_claims _ Hw) _ _ Aj) as Fj.
  rewrite He in Fj. apply (co_unique _ (w_claims _ Hw) i j gi gj); auto using arms_holds. congruence.
Qed.

Lemma step_ok w i t t' s' :
  world_ok w -> tasks w !! i = Some t -> effect t (common w) t' s' -> task_ok t' ->
  grows (in_hand (pc t)) (cache (common w)) (cache s') ->
  (forall id, id ∈ seeks (pc t') -> ram_contains id (cache s') = false) ->
  world_ok {| tasks := <[i := t']> (tasks w); common := s' |}.
Proof.
  intros Hw Hi He Ht' [Hram Hg] Hs. split; simpl.
  - by eapply claims_step; [exact Hi|apply Hw|].
  - apply Hram, Hw.
  - intros j u [(_ & -> & _)|[_ Hu]]%list_lookup_insert_Some; [done|by apply (w_tasks _ Hw j)].
  - intros j u id [(-> & -> & _)|[Hne Hu]]%list_lookup_insert_Some Hid; [by apply Hs|].
    destruct (ram_contains id (cache s')) eqn:Hc; [|done]. apply Hg in Hc as [Hc|Hc].
    + exfalso. apply Hne. eapply (brought_once w i j); eauto.
    + rewrite <-Hc. by apply (w_missing _ Hw j u).
Qed.

(** Requests bring residents under their own ids. *)
Definition request_ok (q : request) : Prop :=
  match q with
  | SourceSet _ _ have => map_Forall (fun id r => res_id r = id) have
  | _ => True
  end.
Definition event_ok (e : event) : Prop := match e with Spawn q => request_ok q | _ => True end.

Lemma start_ok q : request_ok q -> task_ok (start q).
Proof.
  intros Hq. destruct q as [id|id|[] ids have]; split; simpl; try done.
  - by intros ? [= ->].
  - split; [done|]. intros k Hk. by left.
Qed.

Lemma exec1_ok w e : event_ok e -> world_ok w -> world_ok (exec1 cap w e).
Proof.
  intros He Hw. pose proof (exec1_claims cap w e (w_claims _ Hw)) as Hcl.
  destruct e as [q|i x|i|op]; simpl in *.
  - split; simpl; [done|apply Hw| |].
    + intros j u [?|[_ [_ <-]%list_lookup_singleton_Some]]%lookup_app_Some; [by apply (w_tasks _ Hw j)|by apply start_ok].
    + intros j u id [?|[_ [_ <-]%list_lookup_singleton_Some]]%lookup_app_Some Hid; [by apply (w_missing _ Hw j u)|].
      by destruct q as [| |[]]; apply elem_of_nil in Hid.
  - destruct (on_task_cases i (act cap x) w) as [[_ ->]|(t & t' & s' & Ht & Ha & ->)]; [done|].
    pose proof (w_tasks _ Hw _ _ Ht) as Hok.
    eapply step_ok; eauto using act_effect, act_grows; [eapply act_ok; eauto; apply Hw|].
    intros id Hid. eapply act_seeks; eauto. intros. by apply (w_missing _ Hw i t).
  - destruct (on_task_cases i abort w) as [[_ ->]|(t & t' & s' & Ht & Ha & ->)]; [done|].
    pose proof (w_tasks _ Hw _ _ Ht) as Hok.
    eapply step_ok; eauto using abort_effect, abort_ok; [apply grows_nil; by eapply abort_grows|].
    intros id Hid. pose proof (abort_idle t (common w)) as (Hi & _). rewrite Ha in Hi. simpl in Hi.
    rewrite Hi in Hid. by apply elem_of_nil in Hid.
  - destruct (other_law op (cache (common w))) as [Hr Hg]. split; simpl; [done|apply Hr, Hw|apply Hw|].
    intros i t id Ht Hid. pose proof (w_missing _ Hw _ _ _ Ht Hid) as Hm.
    destruct (ram_contains id (ram_other op (cache (common w)))) eqn:Hc; [|done].
    apply Hg in Hc as [Hc|Hc]; [by apply elem_of_nil in Hc|congruence].
Qed.

Lemma idle_ok m : ram_ok m -> world_ok (idle m).
Proof. intros Hm. split; [apply idle_claims|done|done|done]. Qed.

Lemma exec_ok evs w : Forall event_ok evs -> world_ok w -> world_ok (exec cap evs w).
Proof. intros He. revert w. induction He as [|e evs He _ IH]; intros w Hw; [done|]. apply IH. by apply exec1_ok. Qed.
End contents.

(** ** Counting device reads *)

Section reads.
Context `{!RamCache, !RamLaws, !Notify}.
Variable cap : N.
Implicit Types (t : task) (s : shared) (w : world) (m : ram) (id : N).

(** The experts that a foreground leader's read delivers at this access. *)
Definition reads_of (x : io) (c : code) : list N :=
  match c, x with
  | Reading g _, Ready true (_ :: _) => [g_id g]
  | BatchReading u _ _, Ready true srcs => if (length srcs =? length u)%nat then u else []
  | _, _ => []
  end.

Definition reads_at (e : event) w : list N :=
  match e with
  | Poll i x => match tasks w !! i with Some t => reads_of x (pc t) | None => [] end
  | _ => []
  end.

(** The expert is in memory: resident, or read and about to be inserted. *)
Definition has id w : bool :=
  ram_contains id (cache (common w)) ||
  existsb (fun t => bool_decide (id ∈ in_hand (pc t))) (tasks w).

Fixpoint reads id (evs : list event) w : nat :=
  match evs with
  | [] => 0
  | e :: evs => (if bool_decide (id ∈ reads_at e w) then 1 else 0) + reads id evs (exec1 cap w e)
  end.

(** How often the expert stopped being in memory. *)
Fixpoint losses id (evs : list event) w : nat :=
  match evs with
  | [] => 0
  | e :: evs => (if has id w && negb (has id (exec1 cap w e)) then 1 else 0) + losses id evs (exec1 cap w e)
  end.

Lemma has_spec id w :
  has id w = true <->
  ram_contains id (cache (common w)) = true \/
  exists i t, tasks w !! i = Some t /\ id ∈ in_hand (pc t).
Proof.
  unfold has. rewrite orb_true_iff, existsb_exists. split.
  - intros [?|(t & Ht & Hb%bool_decide_eq_true)]; [by left|right].
    apply list_elem_of_In, list_elem_of_lookup in Ht as [i Hi]. eauto.
  - intros [?|(i & t & Hi & Hb)]; [by left|right]. exists t.
    split; [apply list_elem_of_In; by eapply list_elem_of_lookup_2|by apply bool_decide_eq_true].
Qed.

Lemma claimed_nodup w i t gs :
  world_ok w -> tasks w !! i = Some t -> armed (pc t) = gs -> NoDup (g_id <$> gs).
Proof.
  intros Hw Hi <-. assert (Hnd : NoDup (armed (pc t))).
  { eapply sublist_NoDup; [by apply (co_nodup _ (w_claims _ Hw) i)|apply armed_sublist]. }
  apply NoDup_fmap_2_strong; [|done]. intros g g' Hg Hg' He.
  assert (Ag : arms w i g) by by exists t. assert (Ag' : arms w i g') by by exists t.
  pose proof (co_armed _ (w_claims _ Hw) _ _ Ag) as Fg. pose proof (co_armed _ (w_claims _ Hw) _ _ Ag') as Fg'.
  rewrite He in Fg. apply (co_unique _ (w_claims _ Hw) i i g g'); auto using arms_holds. congruence.
Qed.

(** A delivered read is in the hand of its leader, which had nothing before. *)
Lemma read_lands w i x t t' s' id :
  world_ok w -> tasks w !! i = Some t -> act cap x t (common w) = (t', s') ->
  id ∈ reads_of x (pc t) -> id ∈ in_hand (pc t') /\ id ∈ seeks (pc t).
Proof.
  intros Hw Hi Ha Hid. pose proof (w_tasks _ Hw _ _ Hi) as Hok. apply ok_pc in Hok. unfold pc_ok in Hok.
  unfold act, fetch_act, once_act, prefetch_act, source_act, drop_act in Ha. destruct (pc t) eqn:E; simpl in Hid; try by apply elem_of_nil in Hid.
  - destruct x as [|[] [|src srcs]]; try by apply elem_of_nil in Hid.
    destruct (ram_new (g_id g) src (cache (common w))). by simplify_eq.
  - destruct x as [|[] srcs]; try by apply elem_of_nil in Hid.
    simpl in Ha. destruct (Nat.eqb_spec (length srcs) (length unresolved)) as [Hl|]; [|by apply elem_of_nil in Hid].
    destruct (build_residents_spec unresolved srcs (cache (common w)) Hl) as (Hids & _ & _).
    destruct (build_residents unresolved srcs (cache (common w))) as [built m]; simpl in *.
    destruct Hok as (_ & _ & Hu). rewrite app_nil_r in Hu.
    assert (Hnd : NoDup built.*1).
    { rewrite Hids, <-Hu. eapply claimed_nodup; eauto. by rewrite E. }
    rewrite <-Hids, ordered_residents in Ha by done. simplify_eq. simpl. rewrite Hids. done.
Qed.

Lemma reads_are_fresh w e id :
  world_ok w -> id ∈ reads_at e w -> has id w = false /\ has id (exec1 cap w e) = true.
Proof.
  intros Hw Hid. destruct e as [q|i x|i|op]; simpl in Hid; try by apply elem_of_nil in Hid.
  destruct (tasks w !! i) as [t|] eqn:Hi; [|by apply elem_of_nil in Hid].
  destruct (act cap x t (common w)) as [t' s'] eqn:Ha.
  destruct (read_lands _ _ _ _ _ _ _ Hw Hi Ha Hid) as [Hh Hs]. split.
  - apply not_true_is_false. intros [Hc|(j & u & Hj & Hu)]%has_spec.
    + apply (w_missing _ Hw _ _ _ Hi) in Hs. congruence.
    + assert (j = i) as -> by (eapply (brought_once w j i); eauto). assert (u = t) as -> by congruence.
      by destruct (pc t); apply elem_of_nil in Hid || apply elem_of_nil in Hu.
  - apply has_spec. right. exists i, t'. simpl. unfold on_task. rewrite Hi, Ha. simpl.
    split; [|done]. by apply list_lookup_insert_eq, (lookup_lt_Some _ _ t).
Qed.

(** C4. Reads are deduplicated: under every interleaving of fetches, prefetches,
    sourced sets, cancellations, panics and evictions, a read by a foreground leader
    (of one expert or of a batch) delivers an expert that was not in memory, neither
    resident nor in the hand of any other task.  So the expert is read by foreground
    leaders at most once, and once more for every time it was evicted, dropped or
    refused by the cache after that. *)
Theorem reads_follow_losses m evs id :
  ram_ok m -> Forall event_ok evs ->
  (reads id evs (idle m) + (if ram_contains id m then 1 else 0) <=
   losses id evs (idle m) + (if has id (exec cap evs (idle m)) then 1 else 0))%nat.
Proof.
  intros Hm He. assert (Hw : world_ok (idle m)) by by apply idle_ok.
  assert (Hh : has id (idle m) = ram_contains id m) by apply orb_false_r.
  rewrite <-Hh. clear Hh. revert Hw. generalize (idle m).
  induction He as [|e evs He _ IH]; intros w Hw; simpl; [lia|].
  specialize (IH _ (exec1_ok cap _ _ He Hw)). case_bool_decide as Hr.
  - destruct (reads_are_fresh _ _ _ Hw Hr) as [H1' H2']. rewrite H1', H2' in *. simpl in *. lia.
  - destruct (has id w), (has id (exec1 cap w e)); simpl in *; lia.
Qed.

(** C15. An expert is in at most one reader's hands: under every interleaving no two
    tasks, prefetches included, read the same expert at the same time, an expert that
    a foreground leader is bringing is not resident meanwhile, and the map of
    in-flight reads is exactly the set of the guards alive: every entry belongs to a
    task that still holds its guard, so when all guards are gone (also after
    cancellations and panics) the map is empty. *)
Theorem one_reader_per_expert m evs :
  ram_ok m -> Forall event_ok evs ->
  let w := exec cap evs (idle m) in
  (forall i j ti tj id, tasks w !! i = Some ti -> tasks w !! j = Some tj ->
     id ∈ reading (pc ti) -> id ∈ reading (pc tj) -> i = j) /\
  (forall i t id, tasks w !! i = Some t -> id ∈ seeks (pc t) ->
     ram_contains id (cache (common w)) = false) /\
  (forall id n, in_flight (common w) !! id = Some n <->
     exists i, arms w i {| g_id := id; g_notify := n |}) /\
  (Forall (fun t => held (pc t) = []) (tasks w) -> in_flight (common w) = ∅).
Proof.
  intros Hm He w. assert (Hw : world_ok w) by (apply exec_ok; [done|by apply idle_ok]).
  assert (Hown := co_owner _ (w_claims _ Hw)). split_and!.
  - intros i j ti tj id Hi Hj Hri Hrj. eapply (brought_once w i j); eauto.
  - intros i t id Hi Hid. by apply (w_missing _ Hw i t).
  - intros id n. split; [apply Hown|]. intros [i Hi]. by apply (co_armed _ (w_claims _ Hw) _ _ Hi).
  - intros Hall. apply map_eq. intros id. rewrite lookup_empty.
    destruct (in_flight (common w) !! id) as [n|] eqn:Hf; [|done].
    apply Hown in Hf as (i & t & Hi & Hg). apply (sublist_subseteq _ _ (armed_sublist _)) in Hg.
    rewrite Forall_lookup in Hall. rewrite (Hall _ _ Hi) in Hg. by apply elem_of_nil in Hg.
Qed.

(** *** Answers *)

(** The requests spawned so far, in order. *)
Definition spawned (evs : list event) : list request :=
  omap (fun e => match e with Spawn q => Some q | _ => None end) evs.

(** What a caller may get: its expert, or a resident for every expert of its set; a
    failed read is an I/O error, never a starved pool. *)
Definition answers (q : request) (o : outcome) : Prop :=
  match o with
  | Fetched (Ok r) => global_ids (start q) = [res_id r]
  | Sourced (Ok got) =>
      forall id, id ∈ global_ids (start q) -> exists r, got !! id = Some r /\ res_id r = id
  | Fetched (Err e) | Sourced (Err (SourceRead e)) => exists attempts, e = ReadIo attempts
  | _ => True
  end.

Lemma reply_ids id r t : global_ids (reply id r t) = global_ids t.
Proof. unfold reply. by destruct (todo t), r. Qed.

Lemma act_ids x t s : global_ids (fst (act cap x t s)) = global_ids t.
Proof.
  unfold act, fetch_act, once_act, prefetch_act, source_act, drop_act, lookup_or, batch_fails, abort, finish, attempt_failed.
  destruct (pc t); repeat case_match; simplify_eq; simpl; try done; apply reply_ids.
Qed.

Lemma exec_ids evs w qs :
  global_ids <$> tasks w = global_ids ∘ start <$> qs ->
  global_ids <$> tasks (exec cap evs w) = global_ids ∘ start <$> qs ++ spawned evs.
Proof.
  revert w qs. induction evs as [|e evs IH]; intros w qs Hq; simpl; [by rewrite app_nil_r|].
  assert (Hf : forall i f, (forall t s, global_ids (fst (f t s)) = global_ids t) ->
    global_ids <$> tasks (on_task i f w) = global_ids <$> tasks w).
  { intros i f Hf. destruct (on_task_cases i f w) as [[_ ->]|(t & t' & s' & Ht & Hft & ->)]; [done|].
    simpl. specialize (Hf t (common w)). rewrite Hft in Hf. simpl in Hf.
    rewrite list_fmap_insert, Hf. apply list_insert_id. by rewrite list_lookup_fmap, Ht. }
  destruct e as [q|i x|i|op]; simpl.
  - rewrite (IH _ (qs ++ [q])); [by rewrite <-app_assoc|]. simpl. by rewrite !fmap_app, Hq.
  - apply IH. rewrite Hf; [done|]. apply act_ids.
  - apply IH. rewrite Hf; [done|]. intros t s. unfold abort. by case_match.
  - by apply IH.
Qed.

(** C5. A request gets what it asked for: whatever the interleaving, a fetch that
    returns a resident returns the one of its expert, and a set that is sourced has a
    resident for each of its experts, under that expert's id, whether it came from the
    caller, from the cache, from the fetch of its own or another task, or from a
    batch.  A read that fails is reported as an I/O error. *)
Theorem requests_get_their_experts m evs i q t o :
  ram_ok m -> Forall event_ok evs ->
  spawned evs !! i = Some q -> tasks (exec cap evs (idle m)) !! i = Some t ->
  pc t = Finished o -> answers q o.
Proof.
  intros Hm He Hq Ht Ho. assert (Hw : world_ok (exec cap evs (idle m))) by (apply exec_ok; [done|by apply idle_ok]).
  assert (Hg : global_ids t = global_ids (start q)).
  { assert (Hl := exec_ids evs (idle m) [] eq_refl). apply (f_equal (fun l => l !! i)) in Hl.
    rewrite !list_lookup_fmap, Ht in Hl. simpl in Hl. rewrite Hq in Hl. by injection Hl. }
  destruct (w_tasks _ Hw _ _ Ht) as [Hr _ Hp]. unfold pc_ok in Hp. rewrite Ho in Hp.
  destruct o as [[r|[|a]]|[got|[[|a]| | | |]]| |]; simpl in *; try done; try by exists a.
  - by rewrite <-Hg.
  - destruct Hp as [-> Hc]. intros id Hid. rewrite <-Hg in Hid.
    destruct (Hc id Hid) as [Hn|[r Hr']]; [by apply elem_of_nil in Hn|]. exists r. split; [done|]. by apply Hr.
Qed.
End reads.
(** ** Termination *)

Section termination.
Context `{!RamCache, !RamLaws, !Notify}.
Variable cap : N.
Implicit Types (t : task) (s : shared) (w : world) (m : ram) (id : N).

(** A task that cannot go on: for the pool, the device or the backoff, or parked. *)
Definition waits (x : io) t s : bool :=
  match pc t with
  | Acquiring _ _ | Reading _ _ | Backoff _ _ | SpawnReading _ | BatchReading _ _ _ =>
      match x with Pending => true | Ready _ _ => false end
  | Parked _ _ n f => negb (awakened f (notify_at n s))
  | Finished _ => true
  | _ => false
  end.

Definition seq_rank (n : nat) : nat := 60 * n + 1.
Definition tail_rank t : nat := match todo t with Some rest => seq_rank (length rest) | None => 0 end.
Definition after_rank t (k : after) : nat :=
  match k with
  | Reply _ _ => tail_rank t
  | ReadSequentially => seq_rank (length (global_ids t))
  | EndWith _ | EndReleasing _ _ => 0
  end.

(** A bound on the accesses a task has left. *)
Definition rank t : nat :=
  let whole := seq_rank (length (global_ids t)) in
  match pc t with
  | FastPath _ => 54 + tail_rank t
  | Claim _ e => 7 * e + 25 + tail_rank t
  | Follow _ e _ => 7 * e + 31 + tail_rank t
  | Recheck _ e _ _ => 7 * e + 30 + tail_rank t
  | CheckMap _ e _ _ => 7 * e + 29 + tail_rank t
  | Parked _ e _ _ => 7 * e + 28 + tail_rank t
  | Woken _ e => 7 * e + 27 + tail_rank t
  | Leading _ => 23 + tail_rank t
  | Attempt _ a => 4 * (3 - a) + 10 + tail_rank t
  | Acquiring _ a => 4 * (3 - a) + 9 + tail_rank t
  | Reading _ a => 4 * (3 - a) + 8 + tail_rank t
  | Backoff _ a => 4 * (3 - a) + 7 + tail_rank t
  | Inserting _ _ => 7 + tail_rank t
  | SpawnCheck _ => 14 | SpawnAdmit _ => 13 | SpawnStart _ => 12 | SpawnClaim _ => 11
  | ShadowBuffer _ => 10 | PrimaryBuffer _ => 8 | RecycleShadow _ => 9 | ShadowRetry _ => 8
  | SpawnReading _ => 7 | SpawnInserting _ _ => 6
  | Sequential rest => seq_rank (length rest)
  | Batch => whole + 5 * length (global_ids t) + 20
  | BatchClaim u rest gs => whole + 2 * length gs + 3 * length rest + length u + 12
  | BatchRecheck u gs => whole + 2 * length gs + length u + 11
  | BatchReserve u gs => whole + 2 * length gs + length u + 10
  | BatchBuffers u gs _ => whole + 2 * length gs + length u + 9
  | BatchReading u gs _ => whole + 2 * length gs + length u + 8
  | BatchCommit gs _ staged => 2 * length gs + length staged + 2
  | Releasing gs k => 2 * length gs + 1 + after_rank t k
  | Notifying _ gs k => 2 * length gs + 2 + after_rank t k
  | Finished _ => 0
  end.

Lemma reply_rank id r t : (rank (reply id r t) <= tail_rank t)%nat.
Proof. unfold reply, rank, tail_rank. destruct (todo t), r; simpl; lia. Qed.

Lemma attempt_failed_rank g a t :
  (rank (attempt_failed g a Io t) < 4 * (3 - a) + 8 + tail_rank t)%nat.
Proof.
  unfold attempt_failed, rank, MAX_ATTEMPTS. destruct (Nat.ltb_spec (a + 1) 3); simpl; unfold tail_rank; simpl; lia.
Qed.

Lemma lookup_rank id hit miss s t' s' n :
  lookup_or id hit miss s = (t', s') ->
  (forall r, rank (hit r) < n)%nat -> (rank miss < n)%nat -> (rank t' < n)%nat.
Proof. unfold lookup_or. destruct (ram_get id (cache s)) as [[r|] m]; intros; simplify_eq; auto. Qed.

Lemma abort_rank t s : (rank (fst (abort t s)) <= rank t)%nat.
Proof.
  unfold abort, rank. destruct (uninterruptible (pc t)) eqn:E; simpl; [done|].
  destruct (pc t); simpl in *; try done; unfold seq_rank; lia.
Qed.

Lemma unresolved_length t : (length (unresolved_of t) <= length (global_ids t))%nat.
Proof. apply List.filter_length_le. Qed.

Lemma finish_rank k t s t' s' : finish k t s = (t', s') -> (rank t' < 1 + after_rank t k)%nat.
Proof.
  destruct k as [id r| |o|tk o]; simpl; intros; simplify_eq;
    [pose proof (reply_rank id r t); lia|unfold rank; simpl; lia..].
Qed.

Lemma batch_fails_rank gs tk e t s t' s' :
  batch_fails gs tk e t s = (t', s') -> (rank t' <= 2 * length gs + 1)%nat.
Proof. unfold batch_fails. intros. simplify_eq. unfold rank. simpl. lia. Qed.

Lemma act_rank x t s t' s' :
  task_ok t -> act cap x t s = (t', s') ->
  if waits x t s then t' = t /\ s' = s else (rank t' < rank t)%nat.
Proof.
  intros Ht Ha. pose proof (ok_pc _ Ht) as Hp. unfold pc_ok in Hp.
  unfold act, fetch_act, once_act, prefetch_act, source_act, drop_act in Ha. unfold waits. destruct (pc t) eqn:E; simpl.
  all: unfold rank at 2 || idtac; rewrite ?E; cbn -[Nat.mul Nat.add].
  all: try (eapply lookup_rank; [exact Ha|intros r; first [pose proof (reply_rank id (Ok r) t); lia|idtac]|]).
  all: try (by eapply finish_rank).
  all: repeat case_match; simplify_eq; try done.
  all: try (match goal with |- context [attempt_failed ?g ?a Io ?t] => pose proof (attempt_failed_rank g a t) end; lia).
  all: try (match goal with |- context [reply ?id ?r ?u] => pose proof (reply_rank id r u) end; lia).
  all: try (match goal with H : batch_fails ?gs _ _ _ _ = _ |- _ => apply batch_fails_rank in H end; lia).
  all: try match goal with u : task |- _ => pose proof (unresolved_length u) end.
  all: try (unfold rank, after_rank, tail_rank, seq_rank; simpl; rewrite ?length_app; simpl; lia).
  - unfold rank, tail_rank, MAX_ATTEMPTS in *. simpl. lia.
  - eapply lookup_rank; [exact Ha|intros r|]; unfold rank, tail_rank, seq_rank; simpl; lia.
  - unfold abort in Ha. rewrite E in Ha. simpl in Ha. simplify_eq. unfold rank. simpl. lia.
  - match goal with H : build_residents _ ?srcs _ = _, Hl : _ && (length ?srcs =? _)%nat = true |- _ =>
      apply andb_prop in Hl as [_ Hl%Nat.eqb_eq];
      destruct (build_residents_spec unresolved srcs (cache s) Hl) as (Hids & Hb & _); rewrite H in Hb end.
    match goal with H : qualification_order_completed_residents _ _ = Some _ |- _ =>
      destruct (staged_residents _ _ _ Hb H) as [Hst _] end.
    apply (f_equal length) in Hst. rewrite length_fmap in Hst. unfold rank. simpl. lia.
  - apply finish_rank in Ha. simpl. lia.
Qed.

(** The accesses of task [i] that were not waits. *)
Fixpoint moves (i : nat) (evs : list event) w : nat :=
  match evs with
  | [] => 0
  | e :: evs =>
      (match e with
       | Poll j x =>
           if bool_decide (j = i) then
             match tasks w !! i with Some t => if waits x t (common w) then 0 else 1 | None => 0 end
           else 0
       | _ => 0
       end) + moves i evs (exec1 cap w e)
  end.

Definition cost (q : request) : nat := rank (start q).

(** What task [i] still has to do, spawned or not. *)
Definition left_of (i : nat) (evs : list event) w : nat :=
  match tasks w !! i with
  | Some t => rank t
  | None => match spawned evs !! (i - length (tasks w))%nat with Some q => cost q | None => 0 end
  end.

Lemma on_task_left i j f evs w n :
  (forall t t' s', tasks w !! j = Some t -> f t (common w) = (t', s') ->
     (if bool_decide (j = i) then n else 0) + rank t' <= rank t)%nat ->
  (tasks w !! j = None -> i = j -> n = 0) ->
  ((if bool_decide (j = i) then n else 0) + left_of i evs (on_task j f w) <= left_of i evs w)%nat.
Proof.
  intros Hf Hn. destruct (on_task_cases j f w) as [[Hj ->]|(t & t' & s' & Hj & Ha & ->)].
  { case_bool_decide; [rewrite Hn by done|]; lia. }
  specialize (Hf _ _ _ Hj Ha). unfold left_of. simpl. case_bool_decide as Hi.
  - subst j. rewrite list_lookup_insert_eq by by eapply lookup_lt_Some. rewrite Hj. done.
  - rewrite list_lookup_insert_ne, length_insert by done. lia.
Qed.

Lemma moves_bound i evs w :
  world_ok w -> Forall event_ok evs -> (moves i evs w + left_of i [] (exec cap evs w) <= left_of i evs w)%nat.
Proof.
  intros Hw He. revert w Hw. induction He as [|e evs He _ IH]; intros w Hw; [done|].
  specialize (IH _ (exec1_ok cap _ _ He Hw)). cbn [exec foldl moves] in *. fold (exec cap evs (exec1 cap w e)).
  revert IH. generalize (left_of i [] (exec cap evs (exec1 cap w e))). intros after IH.
  destruct e as [q|j x|j|op]; simpl in *.
  - unfold left_of in *. simpl in *. rewrite length_app in IH. simpl in IH.
    destruct (decide (i < length (tasks w))%nat) as [Hlt|Hge].
    + rewrite lookup_app_l in IH by done. destruct (lookup_lt_is_Some_2 _ _ Hlt) as [t Ht]. by rewrite Ht in *.
    + rewrite lookup_app_r in IH by lia. rewrite (lookup_ge_None_2 (tasks w)) by lia.
      destruct (i - length (tasks w))%nat as [|k] eqn:Hk; simpl in *; [done|].
      replace (i - (length (tasks w) + 1))%nat with k in IH by lia. done.
  - set (n := match tasks w !! i with Some t => if waits x t (common w) then 0%nat else 1%nat | None => 0%nat end).
    assert (Hl : ((if bool_decide (j = i) then n else 0) + left_of i evs (on_task j (act cap x) w) <= left_of i evs w)%nat).
    { apply on_task_left; subst n.
      - intros t t' s' Ht Ha. pose proof (act_rank _ _ _ _ _ (w_tasks _ Hw _ _ Ht) Ha) as Hr.
        case_bool_decide as Hi; [subst j; rewrite Ht|]; destruct (waits x t (common w)); try lia;
          destruct Hr as [-> _]; lia.
      - intros Hj ->. by rewrite Hj. }
    change (left_of i (Poll j x :: evs) w) with (left_of i evs w). lia.
  - assert (Hl : ((if bool_decide (j = i) then 0 else 0) + left_of i evs (on_task j abort w) <= left_of i evs w)%nat).
    { apply on_task_left; [|done]. intros t t' s' Ht Ha. pose proof (abort_rank t (common w)) as Hr.
      rewrite Ha in Hr. simpl in Hr. case_bool_decide; lia. }
    change (left_of i (Cancel j :: evs) w) with (left_of i evs w). case_bool_decide; lia.
  - exact IH.
Qed.

(** A task that no answer moves: it is finished, or parked on a notification that has
    not come. *)
Definition stuck t s : Prop :=
  (exists o, pc t = Finished o) \/
  exists id e n f, pc t = Parked id e n f /\ awakened f (notify_at n s) = false.

Lemma waits_stuck x t s : waits x t s = true -> x = Pending \/ stuck t s.
Proof.
  unfold waits, stuck. destruct (pc t) eqn:E; try done; try (destruct x; by auto).
  - intros Hn%negb_true_iff. right. right. by do 4 eexists.
  - right. left. by eexists.
Qed.

Lemma stuck_waits x t s : stuck t s -> waits x t s = true.
Proof. unfold waits. intros [(o & ->)|(id & e & n & f & -> & ->)]; done. Qed.

(** A poll of a task that waits. *)
Lemma poll_waits i x w t :
  world_ok w -> tasks w !! i = Some t -> waits x t (common w) = true -> exec1 cap w (Poll i x) = w.
Proof.
  intros Hw Ht Hwait. simpl. unfold on_task. rewrite Ht. destruct (act cap x t (common w)) as [t' s'] eqn:Ha.
  pose proof (act_rank _ _ _ _ _ (w_tasks _ Hw _ _ Ht) Ha) as Hr. rewrite Hwait in Hr.
  destruct Hr as [-> ->]. destruct w as [ts s]; simpl in *. f_equal. by apply list_insert_id.
Qed.

Lemma stuck_polls i xs w t :
  world_ok w -> tasks w !! i = Some t -> stuck t (common w) -> exec cap (Poll i <$> xs) w = w.
Proof.
  intros Hw Ht Hs. induction xs as [|x xs IH]; [done|]. rewrite fmap_cons. cbn [exec foldl].
  fold (exec cap (Poll i <$> xs) (exec1 cap w (Poll i x))). by rewrite (poll_waits i x w t) by (done || by apply stuck_waits).
Qed.

(** A task that is polled for as many accesses as it has left, every poll answered. *)
Lemma answered_polls i xs w t :
  world_ok w -> tasks w !! i = Some t -> Pending ∉ xs -> (rank t <= length xs)%nat ->
  exists t', tasks (exec cap (Poll i <$> xs) w) !! i = Some t' /\ stuck t' (common (exec cap (Poll i <$> xs) w)).
Proof.
  revert w t. induction xs as [|x xs IH]; intros w t Hw Ht Hx Hr.
  - exists t. split; [done|]. destruct (act cap (Ready true []) t (common w)) as [t' s'] eqn:Ha.
    pose proof (act_rank _ _ _ _ _ (w_tasks _ Hw _ _ Ht) Ha) as Hn. simpl in Hr.
    destruct (waits _ t (common w)) eqn:E; [|lia]. apply waits_stuck in E as [|]; done.
  - apply not_elem_of_cons in Hx as [Hne Hx]. rewrite fmap_cons. cbn [exec foldl].
    fold (exec cap (Poll i <$> xs) (exec1 cap w (Poll i x))).
    assert (Hw' : world_ok (exec1 cap w (Poll i x))) by by apply exec1_ok.
    destruct (waits x t (common w)) eqn:E.
    + rewrite (poll_waits i x w t) by done. apply waits_stuck in E as [?|Hs]; [by subst|].
      exists t. by rewrite (stuck_polls i xs w t).
    + destruct (act cap x t (common w)) as [t' s'] eqn:Ha.
      pose proof (act_rank _ _ _ _ _ (w_tasks _ Hw _ _ Ht) Ha) as Hn. rewrite E in Hn.
      eapply (IH _ t'); [done| |done|simpl in Hr; lia].
      simpl. unfold on_task. rewrite Ht, Ha. by apply list_lookup_insert_eq, (lookup_lt_Some _ _ t).
Qed.

(** C13. A request makes a bounded number of accesses, and only a wait keeps it from its
    end.  Whatever the interleaving, a fetch makes at most 54 accesses (four elections,
    three attempts), a prefetch 14, a set of [n] experts at most [65 n + 21].  Any other
    poll changes nothing, and finds the task finished, parked on a notification that has
    not come, or without an answer from the pool, the device or its backoff.  In every
    reachable state, a request that is polled for the accesses it has left, each with an
    answer, is finished or parked like that.  (A follower that registers late can stay
    parked for ever: [late_follower_waits_forever].) *)
Theorem requests_take_bounded_steps m evs i q :
  ram_ok m -> Forall event_ok evs -> spawned evs !! i = Some q ->
  let bound := match q with
               | Fetch _ => 54
               | Prefetch _ => 14
               | SourceSet _ ids _ => 65 * length ids + 21
               end%nat in
  let w := exec cap evs (idle m) in
  (moves i evs (idle m) <= bound)%nat /\
  (forall x t, tasks w !! i = Some t -> waits x t (common w) = true ->
     exec1 cap w (Poll i x) = w /\ (x = Pending \/ stuck t (common w))) /\
  (forall xs, Pending ∉ xs -> (bound <= moves i evs (idle m) + length xs)%nat ->
     let w' := exec cap (Poll i <$> xs) w in
     exists t, tasks w' !! i = Some t /\ stuck t (common w')).
Proof.
  intros Hm He Hq bound w. assert (Hw : world_ok w) by (apply exec_ok; [done|by apply idle_ok]).
  pose proof (moves_bound i evs (idle m) (idle_ok _ Hm) He) as Hb. fold w in Hb.
  assert (Hl : (left_of i evs (idle m) <= bound)%nat).
  { unfold left_of. simpl. rewrite Nat.sub_0_r, Hq. unfold cost, rank, tail_rank, seq_rank, bound.
    destruct q as [id|id|[] ids have]; simpl in *; lia. }
  split_and!; [lia| |].
  - intros x t Ht Hwait. split; [by eapply poll_waits|by apply waits_stuck].
  - intros xs Hx Hlen w'.
    assert (Hex : is_Some (tasks w !! i)).
    { apply lookup_lt_is_Some. apply lookup_lt_Some in Hq.
      pose proof (f_equal length (exec_ids cap evs (idle m) [] eq_refl)) as E.
      rewrite !length_fmap in E. simpl in E. fold w in E. lia. }
    destruct Hex as [t Ht]. apply (answered_polls i xs w t); [done..|].
    unfold left_of in Hb at 1. rewrite Ht in Hb. lia.
Qed.
End termination.

(** ** Parked followers *)

Section followers.
Context `{!RamCache, !RamLaws, !Notify, !NotifyLaws}.
Variable cap : N.
Implicit Types (t : task) (s : shared) (w : world) (m : ram) (id : N).

(** The [Notify] at [n] is that of a guard still alive. *)
Definition alive w (n : nat) : Prop := exists j g, holds w j g /\ g_notify g = n.

(** What a step does to the [Notify] at [n]. *)
Inductive notify_moves w w' (n : nat) : Prop :=
| nm_same : notify_at n (common w') = notify_at n (common w) -> (alive w' n <-> alive w n) -> notify_moves w w' n
| nm_fired : alive w n -> ~ alive w' n ->
    notify_at n (common w') = notify_waiters (notify_at n (common w)) -> notify_moves w w' n.

Lemma notify_step_cases w i t t' s' n :
  claims_ok w -> tasks w !! i = Some t -> effect t (common w) t' s' ->
  (n < next_notify (common w))%nat ->
  notify_moves w {| tasks := <[i := t']> (tasks w); common := s' |} n.
Proof.
  intros Hw Hi He Hn. set (w' := {| tasks := <[i := t']> (tasks w); common := s' |}).
  assert (Hh : forall j g, holds w' j g <-> (j = i /\ g ∈ held (pc t')) \/ (j <> i /\ holds w j g)).
  { intros j g. by apply (holds_step w i t t' s' Hi). }
  assert (Hsame : held (pc t') = held (pc t) -> alive w' n <-> alive w n).
  { intros He'. split; intros (j & g & Hg & Hgn); exists j, g; (split; [|done]).
    - apply Hh in Hg as [[-> Hg]|[_ Hg]]; [|done]. exists t. by rewrite <-He'.
    - apply Hh. destruct (decide (j = i)) as [->|]; [left|by right].
      destruct Hg as (u & Hu & Hg). rewrite He'. split; [done|]. by simplify_eq. }
  destruct He as [Hhe _ (_ & Hno & _)|g _ Hg Hhe _ _ Hno _|g Hhe _ ->|g Hhe _ ->].
  - apply nm_same; [|by apply Hsame]. unfold notify_at. simpl. by rewrite Hno.
  - apply nm_same.
    + unfold notify_at. simpl. rewrite Hno, lookup_insert_ne; [done|lia].
    + split; intros (j & k & Hk & Hkn); exists j, k; (split; [|done]).
      * apply Hh in Hk as [[-> Hk]|[_ Hk]]; [|done]. exists t. split; [done|].
        rewrite Hhe in Hk. apply elem_of_app in Hk as [?| ->%list_elem_of_singleton]; [done|lia].
      * apply Hh. destruct (decide (j = i)) as [->|]; [left|by right].
        destruct Hk as (u & Hu & Hk). simplify_eq. rewrite Hhe. split; [done|]. set_solver.
  - apply nm_same; [done|by apply Hsame].
  - assert (Hgi : holds w i g) by (exists t; rewrite Hhe; split; [done|by left]).
    pose proof (co_nodup _ Hw _ _ Hi) as Hnd. rewrite Hhe in Hnd. apply NoDup_cons in Hnd as [Hni _].
    destruct (decide (g_notify g = n)) as [Hgn|Hgn].
    + apply nm_fired; [by exists i, g| |].
      * intros (j & k & Hk & Hkn). apply Hh in Hk as [[-> Hk]|[Hne Hk]].
        -- assert (Hk' : holds w i k) by (exists t; rewrite Hhe; split; [done|by right]).
           destruct (co_unique _ Hw _ _ _ _ Hk' Hgi) as [_ ->]; [congruence|done].
        -- destruct (co_unique _ Hw _ _ _ _ Hk Hgi) as [-> _]; [congruence|done].
      * unfold notify_at at 1. simpl. by rewrite Hgn, lookup_insert_eq.
    + apply nm_same; [unfold notify_at; simpl; by rewrite lookup_insert_ne|].
      split; intros (j & k & Hk & Hkn); exists j, k; (split; [|done]).
      * apply Hh in Hk as [[-> Hk]|[_ Hk]]; [|done]. exists t. rewrite Hhe. split; [done|by right].
      * apply Hh. destruct (decide (j = i)) as [->|]; [left|by right].
        destruct Hk as (u & Hu & Hk). simplify_eq. rewrite Hhe in Hk.
        apply elem_of_cons in Hk as [->|?]; [done|]. done.
Qed.

Lemma notify_moves_exec1 w e n :
  claims_ok w -> (n < next_notify (common w))%nat ->
  notify_moves w (exec1 cap w e) n /\ (n < next_notify (common (exec1 cap w e)))%nat.
Proof.
  intros Hw Hn.
  assert (Heff : forall i f, (forall t s t' s', f t s = (t', s') -> effect t s t' s') ->
    notify_moves w (on_task i f w) n /\ (n < next_notify (common (on_task i f w)))%nat).
  { intros i f Hf. destruct (on_task_cases i f w) as [[_ ->]|(t & t' & s' & Hi & Ha & ->)].
    { split; [by apply nm_same|done]. }
    pose proof (Hf _ _ _ _ Ha) as He. split; [by eapply notify_step_cases|]. simpl.
    destruct He as [_ _ (_ & _ & ->)|g _ _ _ _ _ _ ->|g _ _ ->|g _ _ ->]; simpl; lia. }
  destruct e as [q|i x|i|op]; simpl.
  - split; [|done]. apply nm_same; [done|]. destruct (start_unarmed q) as [Hq _].
    split; intros (j & g & (t & Hj & Hg) & Hgn); exists j, g; (split; [|done]); exists t; (split; [|done]).
    + apply lookup_app_Some in Hj as [?|[_ [_ <-]%list_lookup_singleton_Some]]; [done|].
      rewrite Hq in Hg. by apply elem_of_nil in Hg.
    + by apply lookup_app_l_Some.
  - apply Heff. intros. by eapply act_effect.
  - apply Heff. intros. by eapply abort_effect.
  - split; [|done]. by apply nm_same.
Qed.

(** A follower registered with [n] while its leader was there. *)
Definition timely w (n : nat) (f : notified) : Prop :=
  (n < next_notify (common w))%nat /\
  (awakened f (notify_at n (common w)) = true \/ (alive w n /\ f = listen (notify_at n (common w)))).

Lemma timely_exec1 w e n f : claims_ok w -> timely w n f -> timely (exec1 cap w e) n f.
Proof.
  intros Hw [Hn Ht]. destruct (notify_moves_exec1 w e n Hw Hn) as [Hm Hn']. split; [done|].
  destruct Hm as [Hno Ha|_ _ Hno]; rewrite Hno.
  - destruct Ht as [?|[? ->]]; [by left|right]. by rewrite Ha.
  - left. destruct Ht as [?|[_ ->]]; [by apply awakened_stays|apply awakened_law].
Qed.

Lemma timely_exec evs w n f : claims_ok w -> timely w n f -> timely (exec cap evs w) n f.
Proof.
  revert w. induction evs as [|e evs IH]; intros w Hw Ht; [done|].
  apply IH; [by apply exec1_claims|by apply timely_exec1].
Qed.

(** C16. No wakeup is lost to a follower that registers before its leader's
    notification.  When a task executes [notified()] and [enable()] on the [Notify] it
    got from the map while the guard of that [Notify] is alive, then from there on,
    whatever the interleaving, wherever the task may be parked on it, the guard is
    still alive or the task is awake: in particular a follower parked when all guards
    are gone is awake, and its next poll moves it to its second look at the cache. *)
Theorem timely_followers_are_woken m evs1 evs2 i id e n x t f :
  ram_ok m ->
  let w1 := exec cap evs1 (idle m) in
  let w2 := exec cap (Poll i x :: evs2) w1 in
  (exists u, tasks w1 !! i = Some u /\ pc u = Follow id e n) -> alive w1 n ->
  f = listen (notify_at n (common w1)) ->
  tasks w2 !! i = Some t -> pc t = Parked id e n f ->
  alive w2 n \/
  (awakened f (notify_at n (common w2)) = true /\
   forall y, exists u, tasks (exec1 cap w2 (Poll i y)) !! i = Some u /\ pc u = Woken id e).
Proof.
  intros Hm w1 w2 _ Ha Hf Ht Hp. assert (Hw1 : claims_ok w1) by apply exec_claims, idle_claims.
  assert (Hn : (n < next_notify (common w1))%nat).
  { destruct Ha as (j & g & Hg & <-). by apply (co_fresh _ Hw1 j). }
  assert (Hti : timely w2 n f) by (apply timely_exec; [done|split; auto]).
  destruct Hti as [_ [Hwake|[? _]]]; [right|by left]. split; [done|].
  intros y. simpl. unfold on_task. rewrite Ht. unfold act, fetch_act, once_act, prefetch_act, source_act, drop_act. rewrite Hp, Hwake.
  eexists. split; [by apply list_lookup_insert_eq, (lookup_lt_Some _ _ t)|done].
Qed.

(** A follower that registers after the notification, and finds the slot of another
    leader when it looks at the map, parks on a [Notify] that nobody will ever call:
    unless it is cancelled it stays parked forever. *)
Theorem late_follower_waits_forever m evs1 evs2 i t id e n f :
  let w := exec cap evs1 (idle m) in
  tasks w !! i = Some t -> pc t = Parked id e n f ->
  awakened f (notify_at n (common w)) = false -> ~ alive w n -> (n < next_notify (common w))%nat ->
  Cancel i ∉ evs2 ->
  tasks (exec cap evs2 w) !! i = Some t /\ awakened f (notify_at n (common (exec cap evs2 w))) = false.
Proof.
  intros w Ht Hp. assert (Hw : claims_ok w) by apply exec_claims, idle_claims. clearbody w.
  revert w Hw Ht. induction evs2 as [|ev evs IH]; intros w Hw Ht Hno Hdead Hn Hc; [done|].
  apply not_elem_of_cons in Hc as [Hne Hc]. simpl.
  destruct (notify_moves_exec1 w ev n Hw Hn) as [[Hsame Hal|Hal _ _] Hn']; [|done].
  apply IH; auto; [by apply exec1_claims| |by rewrite Hsame|by rewrite Hal].
  assert (Hkeep : forall j f', j <> i \/ f' t (common w) = (t, common w) -> tasks (on_task j f' w) !! i = Some t).
  { intros j f' Hj. destruct (on_task_cases j f' w) as [[_ ->]|(u & t' & s' & Hu & Hf & ->)]; [done|]. simpl.
    destruct (decide (j = i)) as [->|]; [|by rewrite list_lookup_insert_ne].
    destruct Hj as [?|Hj]; [done|]. assert (u = t) as -> by congruence. rewrite Hj in Hf. simplify_eq.
    by apply list_lookup_insert_eq, (lookup_lt_Some _ _ t'). }
  destruct ev as [q|j x|j|op]; simpl.
  - by apply lookup_app_l_Some.
  - apply Hkeep. right. unfold act, fetch_act, once_act, prefetch_act, source_act, drop_act. by rewrite Hp, Hno.
  - apply Hkeep. left. congruence.
  - done.
Qed.
End followers.

(** ** The per-layer caches implement the interface *)

Section multi_layer.
Context `{!LruCache ExpertResident, !LruLaws ExpertResident}.
Variable powi : f64 -> Z -> f64.
Variable block_align : N.
Implicit Types (c : ExpertCache) (m : MultiLayerExpertCache).
Abbreviation entries c := (lru_iter (inner c)).

(** The caches, the cells of the residents, [RESIDENT_EXPERT_BUFFER_BYTES]. *)
Record ram_state := { layers : MultiLayerExpertCache; cells_heap : heap; resident_bytes : N }.

Definition with_layers m (s : ram_state) : ram_state :=
  {| layers := m; cells_heap := cells_heap s; resident_bytes := resident_bytes s |}.

(** What the rest of the engine does to the caches meanwhile. *)
Inductive cache_op :=
| OpPin (id : N) | OpUnpin (id : N) | OpPolicy (cost_aware : bool) | OpEvict | OpEvictShadow
| OpGet (id : N) | OpHit (r : ExpertResident).

Definition run_op (op : cache_op) (s : ram_state) : ram_state :=
  match op with
  | OpPin id => with_layers (pin id (layers s)) s
  | OpUnpin id => with_layers (unpin id (layers s)) s
  | OpPolicy on => with_layers (set_cost_aware on (layers s)) s
  | OpEvict => with_layers (snd (evict_lru powi (layers s) (cells_heap s))) s
  | OpEvictShadow => with_layers (snd (evict_lru_shadow_backed (layers s))) s
  | OpGet id =>
      let '(_, m, h) := get powi id (layers s) (cells_heap s) in
      {| layers := m; cells_heap := h; resident_bytes := resident_bytes s |}
  | OpHit r => {| layers := layers s; cells_heap := snd (record_hit r (cells_heap s)); resident_bytes := resident_bytes s |}
  end.

Definition keyed c : Prop := Forall (fun kv => fst kv = r_id (snd kv)) (entries c).

#[export] Instance multi_layer_ram : RamCache := {|
  ram := ram_state;
  resident := ExpertResident;
  source := N * PooledBuffer;
  ticket := MultiLayerCacheReservation;
  ram_op := cache_op;
  res_id := r_id;
  ram_get id s :=
    let '(r, m, h) := get powi id (layers s) (cells_heap s) in
    (r, {| layers := m; cells_heap := h; resident_bytes := resident_bytes s |});
  ram_contains id s := contains id (layers s);
  ram_full s := (capacity_of (layers s) <=? len (layers s))%N;
  ram_evict_lru s := with_layers (snd (evict_lru powi (layers s) (cells_heap s))) s;
  ram_evict_shadow s :=
    let '(o, m) := evict_lru_shadow_backed (layers s) in
    (match o with Some _ => true | None => false end, with_layers m s);
  ram_new id src s :=
    let '(r, h, n) := new_with_block_align src.1 id src.2 block_align (cells_heap s) (resident_bytes s) in
    (r, {| layers := layers s; cells_heap := h; resident_bytes := n |});
  ram_insert r s :=
    let '(o, m, h) := insert powi r (layers s) (cells_heap s) in
    (o, {| layers := m; cells_heap := h; resident_bytes := resident_bytes s |});
  ram_reserve ids s :=
    '(o, m) ← try_reserve_exact_demand ids (layers s);
    Some (oc ← o; Ok (reservation oc), with_layers m s);
  ram_commit r rv s :=
    '(_, rv, m) ← commit r rv (layers s);
    Ok (rv, with_layers m s);
  ram_release rv s := with_layers (release rv (layers s)) s;
  ram_other := run_op;
  ram_ok s := Forall keyed (caches (layers s));
|}.

(** The entries of [c'] are entries of [c] or new ones under their own ids. *)
Definition cache_grows (new : list N) c c' : Prop :=
  forall kv, kv ∈ entries c' -> (kv.1 ∈ new /\ kv.1 = r_id kv.2) \/ kv ∈ entries c.

Definition layers_grow (new : list N) m m' : Prop :=
  experts_per_layer m' = experts_per_layer m /\ Forall2 (cache_grows new) (caches m) (caches m').

Lemma cache_grows_same new c c' : entries c' = entries c -> cache_grows new c c'.
Proof. intros He kv. rewrite He. by right. Qed.

Lemma shrinks_grows new c c' : shrinks c c' -> cache_grows new c c'.
Proof. intros (_ & _ & Hs) kv Hkv. right. by apply (sublist_subseteq _ _ Hs). Qed.

Lemma layers_grow_refl new m : layers_grow new m m.
Proof. split; [done|]. apply Forall2_same_length_lookup_2; [done|]. intros i c c' Hc Hc'. simplify_eq. by apply cache_grows_same. Qed.

Lemma at_layer_grows new m i c c' :
  caches m !! i = Some c -> cache_grows new c c' -> layers_grow new m (at_layer i c' m).
Proof.
  intros Hi Hg. split; [done|]. simpl. apply Forall2_same_length_lookup_2; [by rewrite length_insert|].
  intros j d d' Hd [(-> & -> & _)|[_ Hd']]%list_lookup_insert_Some; simplify_eq; [done|by apply cache_grows_same].
Qed.

Lemma layers_grow_trans m1 m2 m3 : layers_grow [] m1 m2 -> layers_grow [] m2 m3 -> layers_grow [] m1 m3.
Proof.
  intros [He1 Hf1] [He2 Hf2]. split; [congruence|].
  apply Forall2_same_length_lookup_2; [by rewrite (Forall2_length _ _ _ Hf1), (Forall2_length _ _ _ Hf2)|].
  intros i c1 c3 Hc1 Hc3. destruct (Forall2_lookup_l _ _ _ _ _ Hf1 Hc1) as (c2 & Hc2 & H12).
  pose proof (Forall2_lookup_lr _ _ _ _ _ _ Hf2 Hc2 Hc3) as H23.
  intros kv [[Hk _]|Hk]%H23; [by apply elem_of_nil in Hk|auto].
Qed.

Lemma grow_law new s m h n :
  layers_grow new (layers s) m -> grows new s {| layers := m; cells_heap := h; resident_bytes := n |}.
Proof.
  intros [He Hf]. split; simpl.
  - rewrite !Forall_lookup. intros Hk i c' Hc'. destruct (Forall2_lookup_r _ _ _ _ _ Hf Hc') as (c & Hc & Hg).
    apply Forall_forall. intros kv [[_ ?]|Hkv]%Hg; [done|]. specialize (Hk _ _ Hc).
    unfold keyed in Hk. rewrite Forall_forall in Hk. by apply Hk.
  - intros id. unfold contains, try_layer_idx. rewrite He, <-(Forall2_length _ _ _ Hf).
    destruct (_ <? _)%nat; simpl; [|done]. destruct (caches m !! _) as [c'|] eqn:Hc'; [|done].
    destruct (Forall2_lookup_r _ _ _ _ _ Hf Hc') as (c & -> & Hg). rewrite !contains_iff.
    intros (kv & -> & [[? _]|Hkv]%Hg)%list_elem_of_fmap; [by left|right]. by apply list_elem_of_fmap_2.
Qed.

(** *** One layer *)

Lemma get_cache_grows new id c h : cache_grows new c (snd (fst (ExpertCache.get powi id c h))).
Proof. destruct (get_fields powi id c h) as (_ & _ & Hp). intros kv. rewrite Hp. by right. Qed.

Lemma push_grows k (r : ExpertResident) l kv :
  kv ∈ lru_iter (snd (lru_push k r l)) -> kv = (k, r) \/ kv ∈ lru_iter l.
Proof.
  destruct (lru_push_law k r l) as (_ & _ & ->). unfold push_spec.
  destruct (aget k (lru_iter l)); [|destruct (lru_cap l) as [n|]; [case_match|]]; simpl;
    intros [->|Hkv]%elem_of_cons; auto; right.
  - by apply (sublist_subseteq _ _ (adel_sublist k _)).
  - by apply (sublist_subseteq _ _ (ListLru.removelast_sublist _)).
Qed.

Lemma push_holds k (r : ExpertResident) l : (k, r) ∈ lru_iter (snd (lru_push k r l)).
Proof.
  destruct (lru_push_law k r l) as (_ & _ & ->). unfold push_spec.
  destruct (aget k (lru_iter l)); [|destruct (lru_cap l) as [n|]; [case_match|]]; simpl; by left.
Qed.

Lemma insert_cache_grows r c h :
  cache_grows [r_id r] c (snd (fst (ExpertCache.insert powi r c h))) /\
  match fst (fst (ExpertCache.insert powi r c h)) with
  | Ok _ => ExpertCache.contains (r_id r) (snd (fst (ExpertCache.insert powi r c h))) = true
  | Err r' => r' = r /\ cache_grows [] c (snd (fst (ExpertCache.insert powi r c h)))
  end.
Proof.
  unfold ExpertCache.insert. fold (tick c). destruct (tick_fields c) as (Hi & _). rewrite Hi.
  match goal with |- context [match ?x with None => _ | Some _ => _ end] => destruct x as [[pre l]|] eqn:E end.
  - destruct (lru_push (r_id r) r l) as [pe l'] eqn:Ep.
    assert (Hl : forall kv, kv ∈ lru_iter l' -> kv = (r_id r, r) \/ kv ∈ entries c).
    { intros kv Hkv. replace l' with (snd (lru_push (r_id r) r l)) in Hkv by by rewrite Ep.
      apply push_grows in Hkv as [?|Hkv]; [by left|right].
      destruct (_ && _); [|by simplify_eq]. destruct (select_victim_id _ _ _) as [k|]; [|done].
      injection E as E. destruct (lru_pop_law k (inner c)) as (_ & _ & Hpi). rewrite E in Hpi. simpl in Hpi.
      rewrite Hpi in Hkv. by apply (sublist_subseteq _ _ (adel_sublist _ _)) in Hkv. }
    simpl. split.
    + intros kv [->|?]%Hl; [left; split; [by left|done]|by right].
    + apply contains_iff. simpl. replace l' with (snd (lru_push (r_id r) r l)) by by rewrite Ep.
      apply list_elem_of_fmap. exists (r_id r, r). split; [done|]. apply push_holds.
  - simpl. split; [|split; [done|]]; apply cache_grows_same; by rewrite Hi.
Qed.

Lemma commit_cache_grows n r c n' c' :
  ExpertCache.commit n r c = Ok (n', c') -> cache_grows [r_id r] c c'.
Proof.
  unfold ExpertCache.commit. destruct (n =? 0)%N; [done|]. destruct (_ || _ || _); [done|].
  intros [= _ <-] kv Hkv. simpl in Hkv. apply push_grows in Hkv as [->|?]; [left; split; [by left|done]|by right].
Qed.

Lemma pop_victims_grow vs m rs m' : pop_victims vs m = Some (rs, m') -> layers_grow [] m m'.
Proof.
  revert m rs m'. induction vs as [|[l id] vs IH]; simpl; intros m rs m'.
  { intros [= _ <-]. apply layers_grow_refl. }
  destruct (caches m !! l) as [c|] eqn:Hc; simpl; [|done].
  destruct (lru_pop id (inner c)) as [[v|] lr] eqn:Ep; simpl; [|done].
  destruct (pop_victims vs _) as [[rest m1]|] eqn:Ev; simpl; [|done]. intros [= _ <-].
  apply IH in Ev. eapply layers_grow_trans; [|exact Ev]. eapply at_layer_grows; [exact Hc|].
  apply shrinks_grows. pose proof (pop_shrinks c id) as Hs. by rewrite Ep in Hs.
Qed.

Lemma imap_layers_grow new f m :
  (forall i c, entries (f i c) = entries c) -> layers_grow new m (with_caches (imap f (caches m)) m).
Proof.
  intros Hf. split; [done|]. apply Forall2_same_length_lookup_2; [simpl; by rewrite length_imap|].
  intros i c c' Hc Hc'. simpl in Hc'. rewrite list_lookup_imap, Hc in Hc'. simplify_eq/=. by apply cache_grows_same.
Qed.

Lemma evict_from_grows (evict : ExpertCache -> option ExpertResident * ExpertCache) ls m :
  (forall c, shrinks c (snd (evict c))) -> layers_grow [] m (snd (evict_from evict ls m)).
Proof.
  intros He. revert m. induction ls as [|i ls IH]; intros m; simpl; [apply layers_grow_refl|].
  destruct (caches m !! i) as [c|] eqn:Hc; [|apply IH]. specialize (He c).
  destruct (evict c) as [[r|] c']; simpl in *.
  - eapply at_layer_grows; [done|]. by apply shrinks_grows.
  - eapply layers_grow_trans; [|apply IH]. eapply at_layer_grows; [done|]. by apply shrinks_grows.
Qed.

Lemma evict_lru_grows m h : layers_grow [] m (snd (evict_lru powi m h)).
Proof.
  unfold evict_lru. destruct (heaviest (cache_lens m)) as [[st n]|]; [|apply layers_grow_refl].
  apply evict_from_grows. intros c. apply evict_shrinks.
Qed.

Lemma evict_shadow_grows m : layers_grow [] m (snd (evict_lru_shadow_backed m)).
Proof. apply evict_from_grows. intros c. apply evict_shadow_shrinks. Qed.

Lemma get_grows id m h : layers_grow [] m (snd (fst (get powi id m h))).
Proof.
  unfold get. destruct (try_layer_idx id m) as [i|]; simpl; [|apply layers_grow_refl].
  destruct (caches m !! i) as [c|] eqn:Hc; simpl; [|apply layers_grow_refl].
  pose proof (get_cache_grows [] id c h) as Hg.
  destruct (ExpertCache.get powi id c h) as [[o c'] h']; simpl in *. by eapply at_layer_grows.
Qed.

Lemma get_keeps_multi id m h k : contains k (snd (fst (get powi id m h))) = contains k m.
Proof.
  apply eq_true_iff_eq. unfold get. destruct (try_layer_idx id m) as [i|] eqn:Ei; simpl; [|done].
  destruct (caches m !! i) as [c|] eqn:Hc; simpl; [|done].
  destruct (get_fields powi id c h) as (_ & _ & Hp).
  destruct (ExpertCache.get powi id c h) as [[o c'] h']; simpl in *.
  unfold contains, try_layer_idx. simpl. rewrite length_insert. destruct (_ <? _)%nat; simpl; [|done].
  destruct (decide (N.to_nat (k / experts_per_layer m) = i)) as [He|He].
  - rewrite He, list_lookup_insert_eq, Hc by by eapply lookup_lt_Some.
    rewrite !contains_iff. by rewrite Hp.
  - by rewrite list_lookup_insert_ne.
Qed.

Lemma get_lookup id m h :
  fst (fst (get powi id m h)) =
  match i ← try_layer_idx id m; caches m !! i with Some c => aget id (entries c) | None => None end.
Proof.
  unfold get. destruct (try_layer_idx id m) as [i|]; simpl; [|done].
  destruct (caches m !! i) as [c|]; simpl; [|done]. unfold ExpertCache.get.
  destruct (lru_get_law id (inner c)) as (Hf & _ & _). destruct (lru_get id (inner c)) as [o l]. by simpl in *.
Qed.

Lemma insert_multi r m h :
  layers_grow [r_id r] m (snd (fst (insert powi r m h))) /\
  match fst (fst (insert powi r m h)) with
  | Ok _ => contains (r_id r) (snd (fst (insert powi r m h))) = true
  | Err r' => r' = r /\ layers_grow [] m (snd (fst (insert powi r m h)))
  end.
Proof.
  unfold insert. destruct (try_layer_idx (r_id r) m) as [i|] eqn:Ei; simpl; [|split; [|split; [done|]]; apply layers_grow_refl].
  destruct (caches m !! i) as [c|] eqn:Hc; simpl; [|split; [|split; [done|]]; apply layers_grow_refl].
  destruct (insert_cache_grows r c h) as [Hg Ho].
  destruct (ExpertCache.insert powi r c h) as [[o c'] h']; simpl in *. split; [by eapply at_layer_grows|].
  destruct o as [o|r']; [|destruct Ho as [-> Ho]; split; [done|by eapply at_layer_grows]].
  unfold contains. unfold try_layer_idx in *. simpl. rewrite length_insert. case_match; [|done].
  simplify_eq. simpl. by rewrite list_lookup_insert_eq by by eapply lookup_lt_Some.
Qed.

Lemma commit_multi r rv m b rv' m' :
  commit r rv m = Ok (b, rv', m') -> layers_grow [r_id r] m m'.
Proof.
  unfold commit. destruct (rv_requests rv !! next_request rv) as [[k fl]|]; [|done].
  destruct (negb _); [done|]. destruct fl as [l|]; [|intros [= _ _ <-]; apply layers_grow_refl].
  destruct (rv_layers rv !! l) as [[n|]|]; try done. destruct (caches m !! l) as [c|] eqn:Hc; [|done].
  intros ([n' c'] & Hco & [= _ _ <-])%result_bind_ok. eapply at_layer_grows; [done|]. by eapply commit_cache_grows.
Qed.

Lemma reserve_multi ids m o m' :
  try_reserve_exact_demand ids m = Some (o, m') -> layers_grow [] m m'.
Proof.
  unfold try_reserve_exact_demand.
  match goal with |- context [match ?x with Ok _ => _ | Err _ => _ end] => destruct x as [plan|e] end;
    [|intros [= _ <-]; apply layers_grow_refl].
  destruct (pop_victims (resident_victims plan) m) as [[vs m1]|] eqn:Ep; simpl; [|done]. intros [= _ <-].
  apply pop_victims_grow in Ep. eapply layers_grow_trans; [exact Ep|]. rewrite fmap_imap.
  apply (imap_layers_grow _ (fun i c => snd (reserve_layer (request_final_layers plan) i c))).
  intros i c. unfold reserve_layer. by case_match.
Qed.

Lemma op_multi op s : grows [] s (run_op op s).
Proof.
  assert (Hat : forall i c c', caches (layers s) !! i = Some c -> entries c' = entries c ->
    layers_grow [] (layers s) (at_layer i c' (layers s))).
  { intros i c c' Hc He. eapply at_layer_grows; [done|]. by apply cache_grows_same. }
  destruct op as [id|id|on| | |id|r]; simpl.
  - apply grow_law. unfold pin. destruct (try_layer_idx id (layers s)) as [i|]; simpl; [|apply layers_grow_refl].
    destruct (caches (layers s) !! i) as [c|] eqn:Hc; simpl; [by eapply Hat|apply layers_grow_refl].
  - apply grow_law. unfold unpin. destruct (try_layer_idx id (layers s)) as [i|]; simpl; [|apply layers_grow_refl].
    destruct (caches (layers s) !! i) as [c|] eqn:Hc; simpl; [by eapply Hat|apply layers_grow_refl].
  - apply grow_law. split; [done|]. simpl. apply Forall2_same_length_lookup_2; [by rewrite length_fmap|].
    intros i c c' Hc Hc'. rewrite list_lookup_fmap, Hc in Hc'. simplify_eq/=. by apply cache_grows_same.
  - apply grow_law, evict_lru_grows.
  - apply grow_law, evict_shadow_grows.
  - pose proof (get_grows id (layers s) (cells_heap s)) as Hg.
    destruct (get powi id (layers s) (cells_heap s)) as [[r m] h]. by apply grow_law.
  - apply grow_law, layers_grow_refl.
Qed.

#[export] Instance multi_layer_laws : RamLaws.
Proof.
  split; simpl.
  - intros id s. pose proof (get_grows id (layers s) (cells_heap s)) as Hg.
    destruct (get powi id (layers s) (cells_heap s)) as [[r m] h]. by apply grow_law.
  - intros id s k. pose proof (get_keeps_multi id (layers s) (cells_heap s) k) as Hg.
    by destruct (get powi id (layers s) (cells_heap s)) as [[r m] h].
  - intros id s. pose proof (get_lookup id (layers s) (cells_heap s)) as Hg.
    destruct (get powi id (layers s) (cells_heap s)) as [[r m] h]. simpl in *. rewrite Hg. unfold contains.
    destruct (try_layer_idx id (layers s) ≫= _) as [c|]; [|done]. rewrite aget_None, <-not_true_iff_false.
    by rewrite contains_iff.
  - intros id s r Hk. pose proof (get_lookup id (layers s) (cells_heap s)) as Hg.
    destruct (get powi id (layers s) (cells_heap s)) as [[r' m] h]. simpl in *. intros ->.
    destruct (try_layer_idx id (layers s)) as [i|]; simpl in *; [|done].
    destruct (caches (layers s) !! i) as [c|] eqn:Hc; [|done]. symmetry in Hg. apply aget_Some_elem in Hg.
    rewrite Forall_lookup in Hk. specialize (Hk _ _ Hc). unfold keyed in Hk. rewrite Forall_forall in Hk.
    symmetry. by apply (Hk (id, r)).
  - intros s. apply grow_law, evict_lru_grows.
  - intros s. pose proof (evict_shadow_grows (layers s)) as Hg.
    destruct (evict_lru_shadow_backed (layers s)) as [o m]. by apply grow_law.
  - intros id [ref buf] s. simpl. destruct (new_with_block_align _ _ _ _ _ _) as [[r h] n].
    apply grow_law, layers_grow_refl.
  - intros id [ref buf] s k. simpl. by destruct (new_with_block_align _ _ _ _ _ _) as [[r h] n].
  - intros id [ref buf] s. unfold new_with_block_align. simpl. by repeat case_match; simplify_eq.
  - intros r s. destruct (insert_multi r (layers s) (cells_heap s)) as [Hg _].
    destruct (insert powi r (layers s) (cells_heap s)) as [[o m] h]. by apply grow_law.
  - intros r s o. destruct (insert_multi r (layers s) (cells_heap s)) as [_ Ho].
    destruct (insert powi r (layers s) (cells_heap s)) as [[o' m] h]. simpl in *. by intros ->.
  - intros r s r'. destruct (insert_multi r (layers s) (cells_heap s)) as [_ Ho].
    destruct (insert powi r (layers s) (cells_heap s)) as [[o' m] h]. simpl in *. intros ->.
    destruct Ho as [? Hg]. split; [done|]. by apply grow_law.
  - intros ids s o s'. destruct (try_reserve_exact_demand ids (layers s)) as [[oc m]|] eqn:E; simpl; [|done].
    intros [= _ <-]. apply grow_law. by eapply reserve_multi.
  - intros r rv s rv' s' ([[b rv1] m] & Hc & [= _ <-])%result_bind_ok. apply grow_law. by eapply commit_multi.
  - intros rv s. apply grow_law. apply imap_layers_grow. intros i c. unfold release_layer, reservation_drop.
    by repeat case_match.
  - apply op_multi.
Qed.
End multi_layer.

(** *** [warm_with] *)

Section warm.
Context `{!RamCache, !Notify}.

Lemma warm_unique_spec n ids (s : shared) u :
  match warm_unique n ids s u with
  | Ok u' => Forall (fun id => (id < n)%N) ids /\
      forall id, id ∈ u' <-> id ∈ u \/ (id ∈ ids /\ ram_contains id (cache s) = false)
  | Err _ => Exists (fun id => (n <= id)%N) ids
  end.
Proof.
  revert u. induction ids as [|id ids IH]; intros u; simpl; [split; [constructor|set_solver]|].
  destruct (N.leb_spec n id); [by left|].
  match goal with |- context [warm_unique n ids s ?v] => specialize (IH v) end.
  destruct (warm_unique n ids s _) as [u'|]; [|by right]. destruct IH as [Hf Hu].
  split; [by constructor|]. intros k. rewrite Hu, elem_of_cons.
  destruct (ram_contains id (cache s)) eqn:Hc; [|set_solver].
  split; [tauto|]. intros [?|[[->|?] ?]]; auto. congruence.
Qed.

(** [warm_with] spawns one fetch for each distinct expert of its set that is not
    resident, and refuses the set when an id is out of range. *)
Theorem warm_with_spec n ids (s : shared) :
  match warm_with n ids s with
  | Ok qs => exists l, qs = Fetch <$> l /\ NoDup l /\ Forall (fun id => (id < n)%N) ids /\
      forall id, id ∈ l <-> id ∈ ids /\ is_expert_cached id s = false
  | Err _ => Exists (fun id => (n <= id)%N) ids
  end.
Proof.
  unfold warm_with. pose proof (warm_unique_spec n ids s ∅) as Hu.
  destruct (warm_unique n ids s ∅) as [u|]; simpl; [|done]. destruct Hu as [Hf Hu].
  exists (elements u). split_and!; [done|apply NoDup_elements|done|].
  intros id. rewrite elem_of_elements, Hu. set_solver.
Qed.
End warm.

Module Witness.
#[local] Existing Instances ListLru.list_lru ListLru.list_lru_laws.
#[local] Instance sample_ram : RamCache := multi_layer_ram ExpertCache.Witness.sample_powi 4096.
#[local] Instance sample_laws : RamLaws := multi_layer_laws ExpertCache.Witness.sample_powi 4096.
#[local] Existing Instances CountingNotify.counting CountingNotify.counting_laws.

(** Layer 0 holds 1 and 2, layer 1 holds 11 and has room for one more. *)
Definition sample_state : ram :=
  {| layers := MultiLayerCache.Witness.sample_multi; cells_heap := ∅; resident_bytes := 0 |} : ram_state.

Lemma sample_state_ok : ram_ok sample_state.
Proof. vm_compute. repeat constructor. Qed.

Definition sample_source (n : N) : N * PooledBuffer :=
  (n, {| buffer := {| ptr := 4096 * n; bytes := [x01; x02]; align := 4096 |}; slot := Primary |}).

Definition polls (i : nat) (xs : list io) : list event := Poll i <$> xs.
Definition ticks (n : nat) : list io := replicate n Pending.
Definition go : io := Ready true [].
Definition delivered (n : N) : io := Ready true [sample_source n].
Definition failed : io := Ready false [].

(** The rest of a leader's fetch, from its recheck of the cache to its answer. *)
Definition lead_ok (i : nat) (n : N) : list event := polls i (ticks 2 ++ [go; delivered n] ++ ticks 4).
Definition lead_failing (i : nat) : list event :=
  polls i (ticks 2 ++ [go; failed; go; Pending; go; failed; go; Pending; go; failed] ++ ticks 3).

Definition pc_of (i : nat) (w : world) : option code := pc <$> tasks w !! i.

Lemma pc_of_check i w (f : code -> bool) :
  match pc_of i w with Some c => f c | None => false end = true ->
  exists t, tasks w !! i = Some t /\ f (pc t) = true.
Proof. unfold pc_of. destruct (tasks w !! i) as [t|]; [|done]. intros E. by exists t. Qed.

Lemma all_tasks_check w (f : code -> bool) :
  forallb (fun t => f (pc t)) (tasks w) = true -> Forall (fun t => f (pc t) = true) (tasks w).
Proof. rewrite forallb_forall. intros E. apply Forall_forall. intros t Ht. apply E. by apply list_elem_of_In. Qed.

Definition unguarded (c : code) : bool := bool_decide (held c = []).

Definition done_with (f : outcome -> bool) (c : option code) : bool :=
  match c with Some (Finished o) => f o | _ => false end.
Definition fetched (id : N) (o : outcome) : bool :=
  match o with Fetched (Ok r) => (r_id r =? id)%N | _ => false end.
Definition parked_asleep (i : nat) (w : world) : bool :=
  match pc_of i w with
  | Some (Parked _ _ n f) => negb (awakened f (notify_at n (common w)))
  | _ => false
  end.

(** A follower gets the [Notify] of a leader, the leader fails and notifies, another
    leader takes the slot, and only then does the follower register: it finds a slot
    in the map and parks on the [Notify] of the leader that is gone.  When everybody
    else has finished and the expert is resident it is still asleep. *)
Definition lost_run : list event :=
  [Spawn (Fetch 12); Spawn (Fetch 12); Spawn (Fetch 12)] ++
  polls 0 (ticks 2) ++ polls 1 (ticks 2) ++ lead_failing 0 ++
  polls 2 (ticks 2) ++ polls 1 (ticks 3) ++ lead_ok 2 7 ++ polls 1 (ticks 3).

Definition lost_world : world := exec 0 lost_run (idle sample_state).

Lemma lost_wakeup :
  parked_asleep 1 lost_world &&
  done_with (fun o => match o with Fetched (Err _) => true | _ => false end) (pc_of 0 lost_world) &&
  done_with (fetched 12) (pc_of 2 lost_world) &&
  bool_decide (in_flight (common lost_world) = ∅) &&
  is_expert_cached 12 (common lost_world) = true.
Proof. vm_compute. reflexivity. Qed.

(** Every slot of layer 0 is pinned, so the cache refuses expert 3: each of four
    leaders in a row reads it successfully, and the follower that loses the four
    elections is told that the read failed. *)
Definition pinned_state : ram :=
  {| layers := pin 1 MultiLayerCache.Witness.sample_multi; cells_heap := ∅; resident_bytes := 0 |} : ram_state.

Definition election_round (i : nat) : list event :=
  [Spawn (Fetch 3)] ++ polls i (ticks 2) ++ polls 0 (ticks 4) ++ lead_ok i (N.of_nat i) ++ polls 0 (ticks 2).

Definition election_run : list event :=
  [Spawn (Fetch 3)] ++ polls 0 (ticks 1) ++
  election_round 1 ++ election_round 2 ++ election_round 3 ++ election_round 4 ++ polls 0 (ticks 1).

Definition election_world : world := exec 0 election_run (idle pinned_state).

Lemma successful_leaders_exhaust_the_budget :
  done_with (fun o => match o with Fetched (Err (ReadIo 4)) => true | _ => false end) (pc_of 0 election_world) &&
  forallb (fun i => done_with (fetched 3) (pc_of i election_world)) [1; 2; 3; 4]%nat &&
  (reads 0 3 election_run (idle pinned_state) =? 4)%nat = true.
Proof. vm_compute. reflexivity. Qed.

(** A prefetch looks at the cache before it claims the slot and not after: when a
    fetch lands in between, it reads an expert that is resident. *)
Definition stale_prefetch_run : list event :=
  [Spawn (Prefetch 12); Spawn (Fetch 12)] ++ polls 0 [Pending; go; Pending] ++
  polls 1 (ticks 2) ++ lead_ok 1 7 ++ polls 0 [Pending; go].

Lemma prefetch_reads_a_resident_expert :
  let w := exec 0 stale_prefetch_run (idle sample_state) in
  match pc_of 0 w with Some c => bool_decide (reading c = [12%N]) | None => false end &&
  is_expert_cached 12 (common w) = true.
Proof. vm_compute. reflexivity. Qed.

(** Two fetches of one expert and a sourced pair, with a cancelled task: *)
Definition busy_run : list event :=
  [Spawn (Fetch 12); Spawn (Fetch 12); Spawn (SourceSet false [3; 4]%N ∅); Spawn (Fetch 4)] ++
  polls 0 (ticks 2) ++ polls 1 (ticks 5) ++ lead_ok 0 7 ++ polls 1 (ticks 2) ++
  polls 2 (ticks 4) ++ polls 3 (ticks 2) ++ [Cancel 3] ++
  polls 2 (ticks 2 ++ [go; Ready true [sample_source 8; sample_source 9]] ++ ticks 8).

Lemma busy_run_ok : Forall event_ok busy_run.
Proof. repeat constructor. apply map_Forall_empty. Qed.

Abbreviation busy_world := (exec 0 busy_run (idle sample_state)).

Lemma sourced_code (c : code) :
  done_with (fun o => match o with Sourced (Ok _) => true | _ => false end) (Some c) = true ->
  exists got, c = Finished (Sourced (Ok got)).
Proof. destruct c; try done. destruct o as [|[got|]| |]; try done. by exists got. Qed.

Lemma busy_set_done :
  exists t got, tasks busy_world !! 2%nat = Some t /\ pc t = Finished (Sourced (Ok got)).
Proof.
  destruct (pc_of_check 2 busy_world (fun c => done_with
    (fun o => match o with Sourced (Ok _) => true | _ => false end) (Some c))) as (t & Ht & E);
    [vm_compute; reflexivity|].
  apply sourced_code in E as [got E]. exists t, got. exact (conj Ht E).
Qed.

Lemma one_loss (r l b : nat) (h : bool) :
  (r + b <= l + (if h then 1 else 0))%nat -> r = 1%nat -> h = false -> (1 <= l)%nat.
Proof. intros H -> ->. lia. Qed.

Lemma reads_follow_losses_witness :
  reads 0 3 busy_run (idle sample_state) = 1%nat /\ (1 <= losses 0 3 busy_run (idle sample_state))%nat.
Proof.
  assert (E1 : reads 0 3 busy_run (idle sample_state) = 1%nat) by (vm_compute; reflexivity).
  assert (E2 : has 3 (exec 0 busy_run (idle sample_state)) = false) by (vm_compute; reflexivity).
  split; [exact E1|].
  pose proof (reads_follow_losses 0 sample_state busy_run 3 sample_state_ok busy_run_ok) as H.
  match type of H with (?r + ?b <= ?l + (if ?h then _ else _))%nat => exact (one_loss r l b h H E1 E2) end.
Defined.

Lemma one_reader_per_expert_witness :
  bool_decide (in_flight (common (exec 0 (take 10 busy_run) (idle sample_state))) = ∅) = false /\
  in_flight (common busy_world) = ∅.
Proof.
  destruct (one_reader_per_expert 0 sample_state busy_run sample_state_ok busy_run_ok) as (_ & _ & _ & H).
  split; [vm_compute; reflexivity|]. apply H.
  eapply Forall_impl; [apply (all_tasks_check _ unguarded); vm_compute; reflexivity|].
  intros t E. by apply bool_decide_eq_true in E.
Defined.

Lemma requests_get_their_experts_witness :
  exists got, (exists t, tasks busy_world !! 2%nat = Some t /\ pc t = Finished (Sourced (Ok got))) /\
    forall id, id ∈ [3; 4]%N -> exists r, got !! id = Some r /\ res_id r = id.
Proof.
  destruct busy_set_done as (t & got & Ht & Hp). exists got. split; [exact (ex_intro _ t (conj Ht Hp))|].
  exact (requests_get_their_experts 0 sample_state busy_run 2 (SourceSet false [3; 4]%N ∅) t (Sourced (Ok got))
           sample_state_ok busy_run_ok eq_refl Ht Hp).
Defined.

(** A follower whose leader does not move, polled for the accesses it has left. *)
Definition followed : list event :=
  [Spawn (Fetch 12); Spawn (Fetch 12)] ++ polls 0 (ticks 2) ++ polls 1 (ticks 5).

Lemma followed_ok : Forall event_ok followed.
Proof. repeat constructor. Qed.

Lemma requests_take_bounded_steps_witness :
  let w := exec 0 (Poll 1 <$> replicate 50 (Ready true [sample_source 7])) (exec 0 followed (idle sample_state)) in
  moves 0 1 followed (idle sample_state) = 5%nat /\
  (exists t, tasks w !! 1%nat = Some t /\ stuck t (common w)) /\
  match pc <$> tasks w !! 1%nat with Some (Parked 12 _ _ _) => True | _ => False end.
Proof.
  assert (E : moves 0 1 followed (idle sample_state) = 5%nat) by (vm_compute; reflexivity).
  pose proof (requests_take_bounded_steps 0 sample_state followed 1 (Fetch 12) sample_state_ok followed_ok eq_refl) as H.
  cbv zeta in H. destruct H as (_ & _ & H). rewrite E in H.
  split; [exact E|]. split; [|vm_compute; exact I].
  apply H; [by intros [? _]%elem_of_replicate|]. rewrite length_replicate. lia.
Defined.

(** The follower of [busy_run], from its registration to its wakeup. *)
Definition before_listen : list event :=
  [Spawn (Fetch 12); Spawn (Fetch 12)] ++ polls 0 (ticks 2) ++ polls 1 (ticks 2).
Definition after_listen : list event := polls 1 (ticks 2) ++ lead_ok 0 7.
Abbreviation listened_world := (exec 0 before_listen (idle sample_state)).
Abbreviation parked_world := (exec 0 (Poll 1 Pending :: after_listen) listened_world).

Definition is_follow (c : code) : bool :=
  match c with Follow id e n => (id =? 12)%N && (e =? 3)%nat && (n =? 0)%nat | _ => false end.
(** A future created before any call. *)
Definition first_listener : notified := 0%nat.

Definition is_parked (c : code) : bool :=
  match c with
  | Parked id e n f => (id =? 12)%N && (e =? 3)%nat && (n =? 0)%nat && ((f : nat) =? 0)%nat
  | _ => false
  end.

Lemma follow_code c : is_follow c = true -> c = Follow 12 3 0.
Proof.
  destruct c; try done. intros [[E1%N.eqb_eq E2%Nat.eqb_eq]%andb_prop E3%Nat.eqb_eq]%andb_prop. by subst.
Qed.

Lemma parked_code c : is_parked c = true -> c = Parked 12 3 0 first_listener.
Proof.
  destruct c; try done.
  intros [[[E1%N.eqb_eq E2%Nat.eqb_eq]%andb_prop E3%Nat.eqb_eq]%andb_prop E4%Nat.eqb_eq]%andb_prop.
  simpl in E4. by subst.
Qed.

Lemma listened : exists u, tasks listened_world !! 1%nat = Some u /\ pc u = Follow 12 3 0.
Proof.
  destruct (pc_of_check 1 listened_world is_follow) as (u & Hu & E); [vm_compute; reflexivity|].
  exists u. exact (conj Hu (follow_code _ E)).
Qed.

Lemma leader_alive : alive listened_world 0.
Proof.
  destruct (pc_of_check 0 listened_world (fun c => bool_decide ({| g_id := 12; g_notify := 0 |} ∈ held c)))
    as (u & Hu & E); [vm_compute; reflexivity|].
  apply bool_decide_eq_true in E.
  exact (ex_intro _ 0%nat (ex_intro _ {| g_id := 12; g_notify := 0 |} (conj (ex_intro _ u (conj Hu E)) eq_refl))).
Qed.

Lemma no_guards w n : Forall (fun t => unguarded (pc t) = true) (tasks w) -> ~ alive w n.
Proof.
  rewrite Forall_lookup. intros E (j & g & (u & Hu & Hg) & _).
  apply E, bool_decide_eq_true in Hu. rewrite Hu in Hg. by apply elem_of_nil in Hg.
Qed.

Lemma leader_gone : ~ alive parked_world 0.
Proof. apply no_guards, (all_tasks_check _ unguarded). vm_compute. reflexivity. Qed.

Lemma parked : exists t, tasks parked_world !! 1%nat = Some t /\ pc t = Parked 12 3 0 first_listener.
Proof.
  destruct (pc_of_check 1 parked_world is_parked) as (t & Ht & E); [vm_compute; reflexivity|].
  exists t. exact (conj Ht (parked_code _ E)).
Qed.

Lemma timely_followers_are_woken_witness :
  exists t, tasks parked_world !! 1%nat = Some t /\ pc t = Parked 12 3 0 first_listener /\
    awakened first_listener (notify_at 0 (common parked_world)) = true.
Proof.
  destruct parked as (t & Ht & Hp).
  destruct (timely_followers_are_woken 0 sample_state before_listen after_listen 1 12 3 0 Pending t first_listener
    sample_state_ok listened leader_alive) as [H|[H _]];
    [vm_compute; reflexivity|exact Ht|exact Hp|destruct (leader_gone H)|].
  exists t. exact (conj Ht (conj Hp H)).
Defined.
End Witness.
