(* ===== verification/Tokenizer.v ===== *)
(** The tokenizer and its incremental decoder (src/rust-engine/src/tokenizer.rs): the
    byte-level tokenizer, the back-end tokenizer of the [tokenizer] feature as a
    parameter, and [StreamDecoder], which turns a stream of token ids into text
    deltas through a bounded look-behind window.

    A [String] is its list of bytes.  Slicing a [str] panics off a character
    boundary: [str_slice] answers [None] there, and a computation that may panic
    has an [option] around its result.  A window is a list, its length a [nat]. *)
From S2P Require Import Prelude Utf8.

(** ** Strings *)

(** [str::is_char_boundary]. *)
Definition is_char_boundary (s : list byte) (i : nat) : bool :=
  (i =? 0)%nat || match s !! i with Some b => negb (is_cont b) | None => (i =? length s)%nat end.

(** [s[i..j]]. *)
Definition str_slice (s : list byte) (i j : nat) : option (list byte) :=
  if (i <=? j)%nat && is_char_boundary s i && is_char_boundary s j then Some (take (j - i) (drop i s)) else None.

(** [s.starts_with(p)]. *)
Fixpoint starts_with (s p : list byte) {struct p} : bool :=
  match p, s with
  | [], _ => true
  | _, [] => false
  | x :: p, y :: s => bool_decide (x = y) && starts_with s p
  end.

(** [s.chars()], each character as the bytes that encode it. *)
Definition chars (s : list byte) : list (list byte) := (chunks s).*2.

Definition is_replacement (c : list byte) : bool := bool_decide (c = REPLACEMENT).

(** [s.contains(char::REPLACEMENT_CHARACTER)]. *)
Definition contains_replacement (s : list byte) : bool := existsb is_replacement (chars s).

(** The bytes of the leading run of replacement characters of a list of characters:
    the loop of [trailing_replacement_len], which runs over [s.chars().rev()]. *)
Fixpoint replacement_run (cs : list (list byte)) : nat :=
  match cs with
  | [] => 0
  | c :: cs => if is_replacement c then length c + replacement_run cs else 0
  end.

Definition trailing_replacement_len (s : list byte) : nat := replacement_run (reverse (chars s)).

(** The number of leading positions at which two byte strings agree. *)
Fixpoint common_count (a b : list byte) : nat :=
  match a, b with
  | x :: a, y :: b => if bool_decide (x = y) then S (common_count a b) else 0
  | _, _ => 0
  end.

(** [while n > 0 && !a.is_char_boundary(n) { n -= 1 }]. *)
Fixpoint back_off (a : list byte) (n : nat) : nat :=
  match n with
  | O => O
  | S m => if is_char_boundary a n then n else back_off a m
  end.

Definition common_prefix_boundary (a b : list byte) : nat := back_off a (common_count a b).

(** ** Tokenizers *)

Inductive tokenizer_error := Io | Backend.

(** What the server asks of the [tokenizers] crate, which is not part of the
    repository: the sizes and ids of its vocabulary, and its two translations. *)
Class HfBackend (Hf : Type) := {
  get_vocab_size : Hf -> N;
  get_vocab_ids : Hf -> list N;
  hf_encode : Hf -> list byte -> result tokenizer_error (list N);
  hf_decode : Hf -> list N -> result tokenizer_error (list byte)
}.

(** Its [decode] returns a Rust [String], hence well-formed UTF-8, and it encodes into
    ids of its vocabulary. *)
Class HfLaws (Hf : Type) `{!HfBackend Hf} := {
  hf_decode_utf8 (t : Hf) ids s : hf_decode t ids = Ok s -> is_utf8 s = true;
  hf_encode_vocab (t : Hf) s ids : hf_encode t s = Ok ids -> Forall (.∈ get_vocab_ids t) ids
}.

Inductive Tokenizer (Hf : Type) :=
| Bytes
| HfTok (t : Hf).
Arguments Bytes {Hf}.
Arguments HfTok {Hf} t.

(** A later delta goes behind an earlier one. *)
Definition behind (a : list byte) (r : result tokenizer_error (list byte)) : result tokenizer_error (list byte) :=
  match r with Ok b => Ok (a ++ b) | Err e => Err e end.

Section tokenizer.
Context {Hf : Type} `{!HfBackend Hf}.

Definition vocab_size (t : Tokenizer Hf) : N :=
  match t with Bytes => 256%N | HfTok t => get_vocab_size t end.

Definition max_token_id (t : Tokenizer Hf) : N :=
  match t with Bytes => 255%N | HfTok t => foldr N.max 0%N (get_vocab_ids t) end.

Definition validate_vocab_compat (t : Tokenizer Hf) (model_vocab_size : N) : result tokenizer_error unit :=
  if (model_vocab_size <=? max_token_id t)%N then Err Backend else Ok tt.

Definition encode (t : Tokenizer Hf) (input : list byte) : result tokenizer_error (list N) :=
  match t with Bytes => Ok (Byte.to_N <$> input) | HfTok t => hf_encode t input end.

(** [(id & 0xFF) as u8]. *)
Definition byte_of_id (id : N) : byte := byte_of_N (N.land id 255).

Definition decode (t : Tokenizer Hf) (ids : list N) : result tokenizer_error (list byte) :=
  match t with
  | Bytes => Ok (from_utf8_lossy (byte_of_id <$> ids))
  | HfTok t => hf_decode t ids
  end.

(** ** The incremental decoder *)

Record StreamDecoder := MkStream {
  ids : list N;            (** the look-behind window *)
  emitted : list byte      (** the prefix of its decoding that has been emitted *)
}.

Definition MAX_LOOKBEHIND_TOKENS : nat := 64.
Definition new : StreamDecoder := MkStream [] [].
Definition lookbehind_len (d : StreamDecoder) : nat := length (ids d).

(** The delta of [push] and the text emitted from the window after it, from the
    window's decoding [s] and the end of its stable part. *)
Definition push_delta (s emitted : list byte) (safe_end : nat) : option (list byte * list byte) :=
  if (length emitted <=? safe_end)%nat && starts_with s emitted then
    d ← str_slice s (length emitted) safe_end; e ← str_slice s 0 safe_end; Some (d, e)
  else
    stable ← str_slice s 0 safe_end;
    if starts_with emitted stable then Some ([], emitted)
    else
      let lcp := (common_prefix_boundary s emitted `min` safe_end)%nat in
      d ← str_slice s lcp safe_end; e ← str_slice s 0 safe_end; Some (d, e).

(** The window after the delta is out. *)
Definition trim (t : Tokenizer Hf) (id : N) (force : bool) (hold : nat) (d : StreamDecoder)
    : result tokenizer_error unit * StreamDecoder :=
  if force then (Ok tt, MkStream [] [])
  else if (hold =? 0)%nat && (1 <? length (ids d))%nat then
    match decode t [id] with
    | Err e => (Err e, d)
    | Ok last_alone =>
        if contains_replacement last_alone then (Ok tt, d)
        else match decode t [id] with
             | Err e => (Err e, MkStream [id] (emitted d))
             | Ok e => (Ok tt, MkStream [id] e)
             end
    end
  else (Ok tt, d).

Definition push (t : Tokenizer Hf) (id : N) (d : StreamDecoder)
    : option (result tokenizer_error (list byte) * StreamDecoder) :=
  let ids := ids d ++ [id] in
  match decode t ids with
  | Err e => Some (Err e, MkStream ids (emitted d))
  | Ok s =>
      let force := (MAX_LOOKBEHIND_TOKENS <=? length ids)%nat in
      let hold := if force then 0 else trailing_replacement_len s in
      '(delta, emitted) ← push_delta s (emitted d) (length s - hold);
      Some (let '(r, d) := trim t id force hold (MkStream ids emitted) in
            ((fun _ => delta) <$> r, d))
  end.

Definition finish (t : Tokenizer Hf) (d : StreamDecoder)
    : option (result tokenizer_error (list byte) * StreamDecoder) :=
  match ids d with
  | [] => Some (Ok [], MkStream [] [])
  | _ =>
      match decode t (ids d) with
      | Err e => Some (Err e, d)
      | Ok s =>
          delta ← if (length (emitted d) <=? length s)%nat && starts_with s (emitted d) then
                    str_slice s (length (emitted d)) (length s)
                  else if starts_with (emitted d) s then Some []
                  else str_slice s (common_prefix_boundary s (emitted d)) (length s);
          Some (Ok delta, MkStream [] [])
      end
  end.

(** A completion: every id is pushed and the decoder finished, as [stream_tokens]
    of the server does; the result is the text of the deltas, in order, and the
    first error ends it. *)
Fixpoint push_all (t : Tokenizer Hf) (l : list N) (d : StreamDecoder)
    : option (result tokenizer_error (list byte) * StreamDecoder) :=
  match l with
  | [] => Some (Ok [], d)
  | id :: l =>
      '(r, d) ← push t id d;
      match r with
      | Err e => Some (Err e, d)
      | Ok a => '(r, d) ← push_all t l d; Some (behind a r, d)
      end
  end.

Definition stream_all (t : Tokenizer Hf) (l : list N) : option (result tokenizer_error (list byte)) :=
  '(r, d) ← push_all t l new;
  match r with
  | Err e => Some (Err e)
  | Ok a => '(r, _) ← finish t d; Some (behind a r)
  end.

End tokenizer.

#[local] Arguments MAX_LOOKBEHIND_TOKENS : simpl never.

(** ** Character boundaries of well-formed text *)

Lemma starts_with_app p k : starts_with (p ++ k) p = true.
Proof. induction p as [|x p IH]; [done|]. simpl. by rewrite bool_decide_true, IH. Qed.

Lemma starts_with_inv s p : starts_with s p = true -> exists k, s = p ++ k.
Proof.
  revert s. induction p as [|x p IH]; intros s H; [by exists s|].
  destruct s as [|y s]; [done|]. simpl in H. apply andb_prop in H as [H1 H2]. apply bool_decide_eq_true in H1 as ->.
  apply IH in H2 as (k & ->). by exists k.
Qed.

(** The bytes of a well-formed sequence behind the first are continuation bytes, and
    the first is not. *)
Lemma second_is_cont b n f x : lead b = Some (n, f) -> f x = true -> is_cont x = true.
Proof.
  unfold lead, is_cont, in_range. intros H. repeat case_match; simplify_eq; intros Hf;
  apply andb_prop in Hf as [?%N.leb_le ?%N.leb_le]; apply andb_true_intro; split; apply N.leb_le; lia.
Qed.

Lemma lead_not_cont b : is_cont b = true -> lead b = None.
Proof.
  unfold lead, is_cont, in_range. intros [?%N.leb_le ?%N.leb_le]%andb_prop.
  repeat case_match; try done; exfalso; repeat match goal with
  | H : _ && _ = true |- _ => apply andb_prop in H as [?%N.leb_le ?%N.leb_le]
  | H : _ || _ = true |- _ => apply orb_prop in H as [H|H]
  end; lia.
Qed.

Lemma first_sequence_cont b rest n i x :
  first_sequence b rest = (true, n) -> (0 < i < n)%nat -> (b :: rest) !! i = Some x -> is_cont x = true.
Proof.
  unfold first_sequence. intros H Hi Hx.
  destruct (lead b) as [[m f]|] eqn:El; [|done].
  destruct rest as [|b1 [|b2 [|b3 rest]]]; repeat (case_match; simplify_eq/=); try lia;
  repeat match goal with H : negb _ = false |- _ => apply negb_false_iff in H end;
  destruct i as [|[|[|[|i]]]]; simplify_eq/=; try lia; try done; by eapply second_is_cont.
Qed.

Lemma utf8_first_not_cont b rest : is_utf8 (b :: rest) = true -> is_cont b = false.
Proof.
  intros H. destruct (is_cont b) eqn:E; [|done]. unfold is_utf8 in H. rewrite chunks_cons in H.
  unfold first_sequence in H. by rewrite (lead_not_cont _ E) in H.
Qed.

Lemma boundary_app p k : is_utf8 k = true -> is_char_boundary (p ++ k) (length p) = true.
Proof.
  intros H. unfold is_char_boundary. apply orb_true_intro. right.
  rewrite lookup_app_r, Nat.sub_diag by done. destruct k as [|b k]; simpl.
  - rewrite app_nil_r. apply Nat.eqb_refl.
  - by rewrite (utf8_first_not_cont _ _ H).
Qed.

Lemma boundary_take s n :
  is_utf8 s = true -> is_char_boundary s n = true -> is_utf8 (take n s) = true /\ is_utf8 (drop n s) = true.
Proof.
  revert n. induction s as [s IH] using (induction_ltof1 _ (@length byte)). unfold ltof in IH. intros n H Hb.
  destruct s as [|b rest]; [by rewrite take_nil, drop_nil|]. destruct (decide (n = 0%nat)) as [->|Hn]; [done|].
  pose proof (first_sequence_len b rest) as Hl. destruct (first_sequence b rest) as [ok m] eqn:E.
  assert (Hd : ok = true /\ is_utf8 (drop m (b :: rest)) = true).
  { revert H. unfold is_utf8. rewrite chunks_cons, E. simpl. intros [-> ?]%andb_prop. done. }
  destruct Hd as [-> Hd]. destruct (decide (n < m)%nat).
  { exfalso. unfold is_char_boundary in Hb. rewrite (proj2 (Nat.eqb_neq n 0)) in Hb by done. simpl in Hb.
    destruct ((b :: rest) !! n) as [x|] eqn:Ex.
    - rewrite (first_sequence_cont _ _ _ n x E) in Hb by (done || lia). done.
    - apply lookup_ge_None in Ex. simpl in Ex. lia. }
  rewrite <-(take_drop m (b :: rest)) at 1. rewrite <-(take_drop m (b :: rest)) at 3.
  rewrite take_app_ge, drop_app_ge by (rewrite length_take; lia).
  rewrite !length_take, Nat.min_l by (simpl; lia).
  rewrite is_utf8_app by (by eapply first_sequence_take). apply IH; [rewrite length_drop; simpl; lia|done|].
  revert Hb. unfold is_char_boundary. rewrite lookup_drop, length_drop. replace (m + (n - m))%nat with n by lia.
  destruct (n =? 0)%nat eqn:E0; [apply Nat.eqb_eq in E0; lia|].
  destruct (Nat.eqb_spec (n - m) 0); [done|]. simpl orb.
  destruct ((b :: rest) !! n) eqn:En; [done|]. rewrite !Nat.eqb_eq. lia.
Qed.

(** ** Lossy decoding of a growing input *)

Definition is_ascii (b : byte) : bool := in_range 0 127 b.

Lemma ascii_first b rest : is_ascii b = true -> first_sequence b rest = (true, 1%nat).
Proof. unfold is_ascii, first_sequence, lead. by intros ->. Qed.

Lemma ascii_not_cont b : is_ascii b = true -> is_cont b = false.
Proof.
  unfold is_ascii, is_cont, in_range. intros [? ?%N.leb_le]%andb_prop.
  destruct (128 <=? _)%N eqn:E; [|done]. apply N.leb_le in E. lia.
Qed.

Lemma ascii_not_second b n f x : is_ascii x = true -> lead b = Some (n, f) -> f x = false.
Proof.
  intros Hx H. destruct (f x) eqn:E; [|done]. rewrite <-(ascii_not_cont _ Hx). symmetry. by eapply second_is_cont.
Qed.

(** An ill-formed sequence stays the same when bytes follow, unless it ended with the
    input. *)
Lemma first_sequence_ill b rest k n :
  first_sequence b rest = (false, n) -> first_sequence b (rest ++ k) = (false, n) \/ n = S (length rest).
Proof.
  unfold first_sequence. intros H.
  destruct rest as [|b1 [|b2 [|b3 rest]]]; simpl in *; repeat (case_match; simplify_eq/=); auto.
Qed.

(** An ASCII byte always starts a sequence of its own. *)
Lemma first_sequence_ascii b rest a k :
  is_ascii a = true -> first_sequence b (rest ++ a :: k) = first_sequence b rest.
Proof.
  intros Ha. unfold first_sequence. destruct (lead b) as [[m f]|] eqn:El; [|done].
  pose proof (ascii_not_second _ _ _ _ Ha El) as Hs. pose proof (ascii_not_cont _ Ha) as Hc.
  destruct rest as [|b1 [|b2 [|b3 rest]]]; simpl; repeat (case_match; simplify_eq/=); try done;
  rewrite ?Hs, ?Hc in *; done.
Qed.

Lemma chunks_app_ascii w a k : is_ascii a = true -> chunks (w ++ a :: k) = chunks w ++ chunks (a :: k).
Proof.
  intros Ha. induction w as [w IH] using (induction_ltof1 _ (@length byte)). unfold ltof in IH.
  destruct w as [|b rest]; [done|]. cbn [app]. rewrite !(chunks_cons b).
  rewrite first_sequence_ascii by done. pose proof (first_sequence_len b rest) as Hn.
  destruct (first_sequence b rest) as [ok n]. rewrite !app_comm_cons, take_app_le, drop_app_le by (simpl; lia).
  simpl. f_equal. apply IH. rewrite length_drop. simpl. lia.
Qed.

(** What follows changes at most the last chunk, and only an ill-formed one. *)
Lemma chunks_extend w k :
  exists cs t rest, chunks w = cs ++ t /\ chunks (w ++ k) = cs ++ rest /\ (t = [] \/ exists c, t = [(false, c)]).
Proof.
  induction w as [w IH] using (induction_ltof1 _ (@length byte)). unfold ltof in IH.
  destruct w as [|b rest]; [exists [], [], (chunks k); auto|]. cbn [app]. rewrite !(chunks_cons b).
  pose proof (first_sequence_len b rest) as Hn. destruct (first_sequence b rest) as [ok n] eqn:E.
  assert (Hc : first_sequence b (rest ++ k) = (ok, n) \/ (ok = false /\ n = S (length rest))).
  { destruct ok; [left; by apply first_sequence_app|]. destruct (first_sequence_ill _ _ k _ E); auto. }
  destruct Hc as [Hc|[-> ->]].
  - rewrite Hc, !app_comm_cons, take_app_le, drop_app_le by (simpl; lia).
    destruct (IH (drop n (b :: rest))) as (cs & t & rest' & -> & -> & Ht); [rewrite length_drop; simpl; lia|].
    exists ((ok, take n (b :: rest)) :: cs), t, rest'. auto.
  - rewrite (drop_ge (b :: rest)) by (simpl; lia). eexists [], _, _. repeat split. right. by eexists.
Qed.

(** The characters of a lossy decoding. *)
Definition lossy_char (c : bool * list byte) : list byte := if fst c then snd c else REPLACEMENT.

Lemma lossy_concat w : from_utf8_lossy w = concat (lossy_char <$> chunks w).
Proof. unfold from_utf8_lossy. induction (chunks w) as [|c cs IH]; [done|]. csimpl. by rewrite <-IH. Qed.

Lemma chunks_char c k : c <> [] -> first_sequence (default x00 (head c)) (tail c) = (true, length c) ->
  chunks (c ++ k) = (true, c) :: chunks k.
Proof.
  destruct c as [|b rest]; [done|]. intros _ H. simpl in H. cbn [app].
  rewrite chunks_cons, (first_sequence_app _ _ _ _ H). simpl. by rewrite take_app_length, drop_app_length.
Qed.

Lemma first_sequence_self b rest n :
  first_sequence b rest = (true, n) -> first_sequence b (take (n - 1) rest) = (true, n).
Proof.
  unfold first_sequence. intros E.
  destruct rest as [|b1 [|b2 [|b3 rest]]]; simpl in *; repeat case_match; simplify_eq/=; try done; congruence.
Qed.

Lemma chars_lossy w : chars (from_utf8_lossy w) = lossy_char <$> chunks w.
Proof.
  unfold chars. rewrite lossy_concat. induction w as [w IH] using (induction_ltof1 _ (@length byte)). unfold ltof in IH.
  destruct w as [|b rest]; [done|]. rewrite chunks_cons.
  pose proof (first_sequence_len b rest) as Hn. destruct (first_sequence b rest) as [ok n] eqn:E.
  assert (IH' := IH (drop n (b :: rest))). rewrite length_drop in IH'. specialize (IH' ltac:(simpl; lia)).
  csimpl. destruct ok; simpl lossy_char.
  - rewrite chunks_char; [csimpl; by rewrite IH'|by destruct n; [lia|]|].
    destruct n as [|n]; [lia|]. simpl. rewrite length_take, Nat.min_l by lia.
    apply first_sequence_self in E. simpl in E. by rewrite Nat.sub_0_r in E.
  - rewrite (chunks_char REPLACEMENT) by done. csimpl. by rewrite IH'.
Qed.

(** ** The stable part of a text: all but its trailing replacement characters *)

Fixpoint drop_run (cs : list (list byte)) : list (list byte) :=
  match cs with
  | [] => []
  | c :: cs' => if is_replacement c then drop_run cs' else cs
  end.

Definition strip (cs : list (list byte)) : list (list byte) := reverse (drop_run (reverse cs)).

Definition stable (s : list byte) : list byte := concat (strip (chars s)).

Lemma strip_snoc cs c : strip (cs ++ [c]) = if is_replacement c then strip cs else cs ++ [c].
Proof.
  unfold strip. rewrite reverse_app. simpl. destruct (is_replacement c); [done|].
  change (reverse [c] ++ reverse cs) with (reverse [c] ++ reverse cs). by rewrite reverse_cons, reverse_involutive.
Qed.

Lemma strip_split cs :
  exists k, cs = strip cs ++ replicate k REPLACEMENT /\ replacement_run (reverse cs) = (3 * k)%nat.
Proof.
  induction cs as [|c cs (k & IH & Hr)] using rev_ind; [by exists 0%nat|].
  rewrite strip_snoc, reverse_app. simpl. destruct (is_replacement c) eqn:E.
  - apply bool_decide_eq_true in E as ->. exists (S k). split; [|simpl length; lia].
    rewrite IH at 1. by rewrite <-app_assoc, <-replicate_cons_app.
  - exists 0%nat. by rewrite app_nil_r.
Qed.

Lemma strip_app cs x : exists y, strip (cs ++ x) = strip cs ++ y.
Proof.
  induction x as [|c x (y & IH)] using rev_ind; [exists []; by rewrite !app_nil_r|].
  rewrite app_assoc, strip_snoc. destruct (is_replacement c); [by exists y|].
  destruct (strip_split cs) as (k & Hk & _). exists (replicate k REPLACEMENT ++ x ++ [c]).
  rewrite Hk at 1. by rewrite <-!app_assoc.
Qed.

Lemma stable_split s :
  exists k, s = stable s ++ concat (replicate k REPLACEMENT) /\ trailing_replacement_len s = (3 * k)%nat.
Proof.
  destruct (strip_split (chars s)) as (k & Hk & Hr). exists k. split; [|done].
  unfold stable. rewrite <-concat_app, <-Hk. symmetry. apply concat_chunks.
Qed.

Lemma replacements_utf8 k : is_utf8 (concat (replicate k REPLACEMENT)) = true.
Proof. induction k as [|k IH]; [done|]. change (is_utf8 (REPLACEMENT ++ concat (replicate k REPLACEMENT)) = true). by rewrite is_utf8_app. Qed.

Lemma length_replacements k : length (concat (replicate k REPLACEMENT)) = (3 * k)%nat.
Proof. induction k as [|k IH]; [done|]. simpl. rewrite IH. lia. Qed.

Lemma trailing_le s : (trailing_replacement_len s <= length s)%nat.
Proof.
  destruct (stable_split s) as (k & Hs & ->). rewrite Hs, length_app, length_replacements. lia.
Qed.

Lemma safe_end_stable s :
  (length s - trailing_replacement_len s)%nat = length (stable s) /\ take (length (stable s)) s = stable s.
Proof.
  destruct (stable_split s) as (k & Hs & Hr). rewrite Hr. split.
  - rewrite Hs at 1. rewrite length_app, length_replacements. lia.
  - rewrite Hs at 2. apply take_app_length.
Qed.

Lemma boundary_stable s : is_char_boundary s (length (stable s)) = true.
Proof.
  destruct (stable_split s) as (k & Hs & Hr). rewrite Hs at 1. apply boundary_app, replacements_utf8.
Qed.

Lemma no_hold_stable s : trailing_replacement_len s = 0%nat -> stable s = s.
Proof.
  destruct (stable_split s) as (k & Hs & ->). intros Hk. assert (k = 0%nat) as -> by lia.
  rewrite Hs at 2. by rewrite app_nil_r.
Qed.

(** More input only adds to the stable part of its lossy decoding. *)
Lemma stable_grows w k : exists d, stable (from_utf8_lossy (w ++ k)) = stable (from_utf8_lossy w) ++ d.
Proof.
  unfold stable. rewrite !chars_lossy.
  destruct (chunks_extend w k) as (cs & t & rest & -> & -> & Ht). rewrite !fmap_app.
  destruct (strip_app (lossy_char <$> cs) (lossy_char <$> rest)) as (y & ->). exists (concat y).
  rewrite concat_app. f_equal. f_equal. destruct Ht as [->|(c & ->)]; csimpl; [by rewrite app_nil_r|].
  by rewrite strip_snoc.
Qed.

Lemma stable_prefix w k : exists d, from_utf8_lossy (w ++ k) = stable (from_utf8_lossy w) ++ d.
Proof.
  destruct (stable_grows w k) as (d & Hd). destruct (stable_split (from_utf8_lossy (w ++ k))) as (n & Hn & _).
  rewrite Hn, Hd, <-app_assoc. by eexists.
Qed.

Lemma lossy_app_ascii w a k :
  is_ascii a = true -> from_utf8_lossy (w ++ a :: k) = from_utf8_lossy w ++ from_utf8_lossy (a :: k).
Proof. intros Ha. unfold from_utf8_lossy at 1. by rewrite chunks_app_ascii, bind_app by done. Qed.

Lemma lossy_ascii a k : is_ascii a = true -> from_utf8_lossy (a :: k) = a :: from_utf8_lossy k.
Proof. intros Ha. unfold from_utf8_lossy. by rewrite chunks_cons, ascii_first. Qed.

Lemma ascii_no_hold w a : is_ascii a = true -> trailing_replacement_len (from_utf8_lossy (w ++ [a])) = 0%nat.
Proof.
  intros Ha. unfold trailing_replacement_len. rewrite chars_lossy, chunks_app_ascii by done.
  rewrite chunks_cons, ascii_first by done. rewrite fmap_app, reverse_app. csimpl. simpl.
  unfold is_replacement. case_bool_decide; [|done]. by simplify_eq.
Qed.

(** ** Slices of well-formed text *)

Lemma boundary_le s n : is_char_boundary s n = true -> (n <= length s)%nat.
Proof.
  unfold is_char_boundary. intros [H|H]%orb_prop; [apply Nat.eqb_eq in H; lia|].
  destruct (s !! n) eqn:E; [apply lookup_lt_Some in E; lia|]. apply Nat.eqb_eq in H. lia.
Qed.

Lemma boundary_length s : is_char_boundary s (length s) = true.
Proof. unfold is_char_boundary. rewrite lookup_ge_None_2, Nat.eqb_refl by done. apply orb_true_r. Qed.

Lemma str_slice_utf8 s i j :
  is_utf8 s = true -> (i <= j)%nat -> is_char_boundary s i = true -> is_char_boundary s j = true ->
  str_slice s i j = Some (take (j - i) (drop i s)) /\ is_utf8 (take (j - i) (drop i s)) = true.
Proof.
  intros Hs Hij Hi Hj. unfold str_slice. rewrite Hi, Hj, (proj2 (Nat.leb_le i j) Hij). split; [done|].
  destruct (boundary_take s i Hs Hi) as [Hti _]. destruct (boundary_take s j Hs Hj) as [Htj _].
  apply boundary_le in Hi, Hj. rewrite take_drop_commute. replace (i + (j - i))%nat with j by lia.
  rewrite <-(is_utf8_app (take i s)) by done.
  replace (take i s) with (take i (take j s)) by (rewrite take_take; f_equal; lia). by rewrite take_drop.
Qed.

Lemma str_slice_prefix s j :
  is_utf8 s = true -> is_char_boundary s j = true -> str_slice s 0 j = Some (take j s) /\ is_utf8 (take j s) = true.
Proof.
  intros Hs Hj. pose proof (str_slice_utf8 s 0 j Hs ltac:(lia) eq_refl Hj) as H.
  by rewrite Nat.sub_0_r, drop_0 in H.
Qed.

Lemma back_off_boundary a n : is_char_boundary a (back_off a n) = true.
Proof. induction n as [|n IH]; [done|]. cbn [back_off]. by case_match. Qed.

Lemma min_boundary s i j :
  is_char_boundary s i = true -> is_char_boundary s j = true -> is_char_boundary s (i `min` j) = true.
Proof. intros. by destruct (Nat.min_spec i j) as [[_ ->]|[_ ->]]. Qed.

(** The delta of a push is a slice at character boundaries, whatever was emitted. *)
Lemma push_delta_utf8 s em n :
  is_utf8 s = true -> is_utf8 em = true -> is_char_boundary s n = true ->
  exists d e, push_delta s em n = Some (d, e) /\ is_utf8 d = true /\ is_utf8 e = true.
Proof.
  intros Hs He Hn. destruct (str_slice_prefix s n Hs Hn) as [Hp Hpu]. unfold push_delta. rewrite Hp. cbn.
  destruct ((length em <=? n)%nat && starts_with s em) eqn:E.
  - apply andb_prop in E as [Hle%Nat.leb_le (k & ->)%starts_with_inv].
    rewrite is_utf8_app in Hs by done.
    destruct (str_slice_utf8 (em ++ k) (length em) n) as [-> Hd]; [by rewrite is_utf8_app|done|by apply boundary_app|done|].
    cbn. eauto 6.
  - destruct (starts_with em (take n s)); [eauto 6|].
    destruct (str_slice_utf8 s (common_prefix_boundary s em `min` n) n) as [-> Hd];
      [done|lia|apply min_boundary; [apply back_off_boundary|done]|done|].
    cbn. eauto 6.
Qed.

(** Text that extends what was emitted is emitted from there. *)
Lemma push_delta_extends em d rest :
  is_utf8 (em ++ d ++ rest) = true -> is_utf8 em = true ->
  is_char_boundary (em ++ d ++ rest) (length (em ++ d)) = true ->
  push_delta (em ++ d ++ rest) em (length (em ++ d)) = Some (d, em ++ d).
Proof.
  intros Hs He Hb. destruct (str_slice_prefix _ _ Hs Hb) as [Hp _]. unfold push_delta.
  rewrite starts_with_app, (proj2 (Nat.leb_le (length em) _)) by (rewrite length_app; lia). cbn.
  destruct (str_slice_utf8 (em ++ d ++ rest) (length em) (length (em ++ d))) as [Hd _];
    [done|rewrite length_app; lia|apply boundary_app; by rewrite is_utf8_app in Hs|done|].
  rewrite Hd, Hp. cbn. rewrite drop_app_length, length_app.
  replace (length em + length d - length em)%nat with (length d) by lia.
  rewrite take_app_length. do 3 f_equal. rewrite app_assoc, <-length_app. apply take_app_length.
Qed.

(** ** Every tokenizer: no panic, well-formed deltas, a bounded window *)

Section any_tokenizer.
Context {Hf : Type} `{!HfBackend Hf, !HfLaws Hf}.
Implicit Types (t : Tokenizer Hf) (d : StreamDecoder).

Lemma decode_utf8 t l s : decode t l = Ok s -> is_utf8 s = true.
Proof. destruct t as [|t]; simpl; [intros [= <-]; apply lossy_is_utf8|apply hf_decode_utf8]. Qed.

Definition stream_ok d : Prop := is_utf8 (emitted d) = true /\ (length (ids d) < MAX_LOOKBEHIND_TOKENS)%nat.

Lemma trim_ok t id force hold d r d' :
  trim t id force hold d = (r, d') -> is_utf8 (emitted d) = true ->
  (force = false -> length (ids d) < MAX_LOOKBEHIND_TOKENS)%nat -> stream_ok d'.
Proof.
  unfold trim, stream_ok, MAX_LOOKBEHIND_TOKENS. intros H He Hl.
  destruct force; [simplify_eq; simpl; split; [done|lia]|].
  repeat case_match; simplify_eq/=; auto; (split; [|lia]); try done. by eapply decode_utf8.
Qed.

Lemma stream_push_ok t id d :
  stream_ok d -> exists r d', push t id d = Some (r, d') /\
    match r with Ok a => is_utf8 a = true /\ stream_ok d' | Err _ => is_utf8 (emitted d') = true end.
Proof.
  intros [He Hl]. unfold push. destruct (decode t (ids d ++ [id])) as [s|e] eqn:Ed; [|eauto].
  apply decode_utf8 in Ed. set (force := (MAX_LOOKBEHIND_TOKENS <=? _)%nat).
  destruct (push_delta_utf8 s (emitted d) (length s - (if force then 0 else trailing_replacement_len s))) as (a & e & -> & Ha & Hu);
    [done|done| |].
  { destruct force; [rewrite Nat.sub_0_r; apply boundary_length|].
    rewrite (proj1 (safe_end_stable s)). apply boundary_stable. }
  cbn. destruct (trim _ _ _ _ _) as [r d'] eqn:Et. apply trim_ok in Et; [|done|].
  - eexists _, d'. split; [done|]. destruct r; cbn; [done|apply Et].
  - intros Hc. simpl. by apply Nat.leb_gt in Hc.
Qed.

Lemma push_all_ok t l d :
  stream_ok d -> exists r d', push_all t l d = Some (r, d') /\ match r with Ok a => is_utf8 a = true /\ stream_ok d' | Err _ => True end.
Proof.
  revert d. induction l as [|id l IH]; intros d Hd; [exists (Ok []), d; auto|].
  cbn [push_all]. destruct (stream_push_ok t id d Hd) as (r & d1 & -> & Hr). cbn.
  destruct r as [a|e]; [|by exists (Err e), d1].
  destruct Hr as [Ha Hd1]. destruct (IH d1 Hd1) as (r & d2 & -> & Hr2). cbn.
  eexists _, _. split; [done|]. destruct r as [b|e]; cbn; [|done]. split; [|apply Hr2].
  rewrite is_utf8_app by done. apply Hr2.
Qed.

Lemma finish_ok t d :
  stream_ok d -> exists r d', finish t d = Some (r, d') /\ match r with Ok a => is_utf8 a = true /\ d' = new | Err _ => d' = d end.
Proof.
  intros [He Hl]. unfold finish. destruct (ids d) as [|i l] eqn:Ei; [by exists (Ok []), new|].
  destruct (decode t (i :: l)) as [s|e] eqn:Ed; [|by exists (Err e), d]. apply decode_utf8 in Ed.
  destruct ((length (emitted d) <=? length s)%nat && starts_with s (emitted d)) eqn:E.
  - apply andb_prop in E as [Hle%Nat.leb_le (k & ->)%starts_with_inv]. pose proof Ed as Hk. rewrite is_utf8_app in Hk by done.
    destruct (str_slice_utf8 _ _ _ Ed Hle (boundary_app _ _ Hk) (boundary_length _)) as [-> H].
    cbn. by eexists (Ok _), new.
  - destruct (starts_with (emitted d) s); [by exists (Ok []), new|].
    destruct (str_slice_utf8 s (common_prefix_boundary s (emitted d)) (length s)) as [-> H];
      [done|apply boundary_le, back_off_boundary|apply back_off_boundary|apply boundary_length|].
    cbn. by eexists (Ok _), new.
Qed.
End any_tokenizer.

(** C40. For every tokenizer whose decodings are strings and every sequence of token ids,
    the incremental decoder never slices off a character boundary, so a completion never
    panics; what it emits is well-formed UTF-8 or a tokenizer error; and after every
    push that returned text the look-behind window holds fewer than 64 ids. *)
Theorem stream_emits_text {Hf : Type} `{!HfBackend Hf, !HfLaws Hf} (t : Tokenizer Hf) (l : list N) :
  (exists r, stream_all t l = Some r /\ forall a, r = Ok a -> is_utf8 a = true) /\
  (forall a d, push_all t l new = Some (Ok a, d) -> (lookbehind_len d < MAX_LOOKBEHIND_TOKENS)%nat).
Proof.
  assert (Hn : stream_ok new) by (unfold stream_ok, MAX_LOOKBEHIND_TOKENS; simpl; split; [done|lia]).
  destruct (push_all_ok t l new Hn) as (r & d & Hp & Hr). split.
  - unfold stream_all. rewrite Hp. cbn. destruct r as [a|e]; [|by eexists]. destruct Hr as [Ha Hd].
    destruct (finish_ok t d Hd) as (r & d' & -> & Hfin). cbn. eexists. split; [done|].
    destruct r as [b|e]; cbn; [|done]. intros c [= <-]. rewrite is_utf8_app by done. apply Hfin.
  - intros a d' H. rewrite H in Hp. simplify_eq. apply Hr.
Qed.

(** ** The byte tokenizer: the stream is the one-shot decoding *)

(** The runs of bytes outside ASCII are shorter than the window: at most [m] of them in
    a row, [k] more in the current one. *)
Fixpoint runs_within (m k : nat) (bs : list byte) : bool :=
  match bs with
  | [] => true
  | b :: bs =>
      if is_ascii b then runs_within m m bs
      else match k with O => false | S k => runs_within m k bs end
  end.

Definition MAX_RUN : nat := 62.

Section bytes_tokenizer.
Context {Hf : Type} `{!HfBackend Hf}.
Definition window (d : StreamDecoder) : list byte := byte_of_id <$> ids d.

(** [d] has emitted the stable part of its window's text; what was emitted before the
    window, [pre], is final: it stays the beginning of the text of the input [inp] read
    so far, whatever follows. *)
Definition in_step (inp : list byte) (d : StreamDecoder) (out : list byte) : Prop :=
  exists pre, (forall k, from_utf8_lossy (inp ++ k) = pre ++ from_utf8_lossy (window d ++ k)) /\
    emitted d = stable (from_utf8_lossy (window d)) /\ out = pre ++ emitted d.

Lemma stable_utf8 s : is_utf8 s = true -> is_utf8 (stable s) = true.
Proof. intros H. rewrite <-(proj2 (safe_end_stable s)). by apply boundary_take, boundary_stable. Qed.

Lemma push_delta_stable w b :
  exists d, push_delta (from_utf8_lossy (w ++ [b])) (stable (from_utf8_lossy w))
      (length (stable (from_utf8_lossy (w ++ [b])))) = Some (d, stable (from_utf8_lossy (w ++ [b]))) /\
    stable (from_utf8_lossy (w ++ [b])) = stable (from_utf8_lossy w) ++ d.
Proof.
  destruct (stable_grows w [b]) as (d & Hd). exists d. split; [|done].
  destruct (stable_split (from_utf8_lossy (w ++ [b]))) as (k & Hk & _). rewrite Hd, <-app_assoc in Hk.
  pose proof (push_delta_extends (stable (from_utf8_lossy w)) d (concat (replicate k REPLACEMENT))) as H.
  rewrite <-Hk, <-Hd in H. apply H; [apply lossy_is_utf8|apply stable_utf8, lossy_is_utf8|apply boundary_stable].
Qed.

Lemma last_clean b : contains_replacement (from_utf8_lossy [b]) = negb (is_ascii b).
Proof.
  unfold contains_replacement. rewrite chars_lossy, chunks_cons. destruct (is_ascii b) eqn:E.
  - rewrite ascii_first by done. cbn. rewrite orb_false_r. unfold is_replacement. by rewrite bool_decide_false.
  - unfold first_sequence. destruct (lead b) as [[n f]|] eqn:El; [|done].
    destruct n as [|[|n]]; [done| |done]. exfalso. revert El E. unfold lead, is_ascii.
    intros El E. rewrite E in El. repeat case_match; simplify_eq.
Qed.

(** The window after a push: kept whole, or, behind an ASCII byte, cut to that byte or
    emptied. *)
Lemma step_keep inp d out id a :
  in_step inp d out ->
  stable (from_utf8_lossy (window d ++ [byte_of_id id])) = stable (from_utf8_lossy (window d)) ++ a ->
  in_step (inp ++ [byte_of_id id]) (MkStream (ids d ++ [id]) (stable (from_utf8_lossy (window d ++ [byte_of_id id]))))
    (out ++ a).
Proof.
  intros (pre & Hpre & He & ->) Hst. exists pre. unfold window in *. cbn. rewrite fmap_app. split_and!; [|done|].
  - intros k. rewrite <-!app_assoc. apply Hpre.
  - by rewrite Hst, He, app_assoc.
Qed.

Lemma step_cut inp d out id a l :
  in_step inp d out -> is_ascii (byte_of_id id) = true -> l = [] \/ l = [id] ->
  stable (from_utf8_lossy (window d ++ [byte_of_id id])) = stable (from_utf8_lossy (window d)) ++ a ->
  in_step (inp ++ [byte_of_id id]) (MkStream l (from_utf8_lossy (byte_of_id <$> l))) (out ++ a).
Proof.
  intros (pre & Hpre & He & ->) Hb Hl Hst. rewrite no_hold_stable in Hst by by apply ascii_no_hold.
  rewrite lossy_app_ascii, lossy_ascii in Hst by done. set (b := byte_of_id id) in *.
  assert (Hk : forall k, from_utf8_lossy ((inp ++ [b]) ++ k) = pre ++ from_utf8_lossy (window d) ++ b :: from_utf8_lossy k).
  { intros k. rewrite <-app_assoc, Hpre. cbn [app]. by rewrite lossy_app_ascii, lossy_ascii. }
  rewrite <-app_assoc, He, <-Hst. destruct Hl as [->| ->].
  - exists (pre ++ from_utf8_lossy (window d) ++ [b]). split_and!; [|done|].
    + intros k. rewrite Hk. cbn. by rewrite <-!app_assoc.
    + cbn. by rewrite app_nil_r.
  - exists (pre ++ from_utf8_lossy (window d)). unfold window. cbn -[from_utf8_lossy]. fold b.
    rewrite (lossy_ascii b []) by done. split_and!.
    + intros k. rewrite Hk. rewrite (lossy_ascii b k) by done. by rewrite <-!app_assoc.
    + pose proof (no_hold_stable _ (ascii_no_hold [] b Hb)) as H. cbn [app] in H. by rewrite (lossy_ascii b []) in H.
    + by rewrite <-!app_assoc.
Qed.

(** A push that does not force a flush inside a run. *)
Lemma push_step inp d out id :
  in_step inp d out -> (length (ids d) + 1 < MAX_LOOKBEHIND_TOKENS)%nat \/ is_ascii (byte_of_id id) = true ->
  exists a d', push (Hf:=Hf) Bytes id d = Some (Ok a, d') /\ in_step (inp ++ [byte_of_id id]) d' (out ++ a) /\
    (length (ids d') <= if is_ascii (byte_of_id id) then 1 else length (ids d) + 1)%nat.
Proof.
  intros Hi Hc. pose proof Hi as (_ & _ & He & _). set (b := byte_of_id id) in *.
  destruct (push_delta_stable (window d) b) as (a & Hpd & Hst).
  assert (Hw : byte_of_id <$> ids d ++ [id] = window d ++ [b]) by (unfold window; by rewrite fmap_app).
  pose proof (step_keep inp d out id a Hi Hst) as Hkeep. pose proof (step_cut inp d out id a) as Hcut. fold b in Hkeep, Hcut.
  unfold push. cbn [decode]. rewrite Hw, He.
  set (L := from_utf8_lossy (window d ++ [b])) in *.
  assert (Hhold : is_ascii b = true -> trailing_replacement_len L = 0%nat) by apply ascii_no_hold.
  set (force := (MAX_LOOKBEHIND_TOKENS <=? length (ids d ++ [id]))%nat).
  assert (Hlen : length (ids d ++ [id]) = (length (ids d) + 1)%nat) by by rewrite length_app.
  assert (Hforce : force = true -> is_ascii b = true).
  { intros Ef%Nat.leb_le. destruct Hc; [lia|done]. }
  assert (Hend : (length L - (if force then 0 else trailing_replacement_len L) = length (stable L))%nat).
  { rewrite <-(proj1 (safe_end_stable L)). destruct force; [|done]. by rewrite Hhold by auto. }
  rewrite Hend, Hpd. cbn [mbind option_bind]. unfold trim. cbn [ids emitted decode fmap list_fmap]. fold b. rewrite last_clean.
  destruct (is_ascii b) eqn:Eb.
  - rewrite Hhold by done. destruct force; cbn [Nat.eqb andb negb].
    + exists a, (MkStream [] []). split_and!; [done| |cbn; lia]. by apply (Hcut []); auto.
    + destruct (Nat.ltb_spec 1 (length (ids d ++ [id]))) as [Hl|Hl].
      * exists a, (MkStream [id] (from_utf8_lossy [b])). split_and!; [done| |cbn; lia]. by apply (Hcut [id]); auto.
      * exists a. eexists. split_and!; [done|exact Hkeep|cbn; lia].
  - exists a. eexists. split_and!; [|exact Hkeep|cbn; lia].
    destruct force; [by specialize (Hforce eq_refl)|]. cbn [negb]. by destruct (_ && _).
Qed.

Lemma run_step l : forall k inp d out,
  in_step inp d out -> (length (ids d) + k <= 63)%nat -> runs_within MAX_RUN k (byte_of_id <$> l) = true ->
  exists a d', push_all (Hf:=Hf) Bytes l d = Some (Ok a, d') /\ in_step (inp ++ (byte_of_id <$> l)) d' (out ++ a).
Proof.
  induction l as [|id l IH]; intros k inp d out Hi Hk Hr.
  { exists [], d. csimpl. by rewrite !app_nil_r. }
  cbn [fmap list_fmap runs_within] in Hr. set (b := byte_of_id id) in *.
  assert (Hs : exists k', runs_within MAX_RUN k' (byte_of_id <$> l) = true /\
    (if is_ascii b then k' = MAX_RUN else k = S k')).
  { destruct (is_ascii b); [by exists MAX_RUN|]. destruct k as [|k]; [done|]. by exists k. }
  destruct Hs as (k' & Hr' & Hk'). clear Hr.
  destruct (push_step inp d out id Hi) as (a & d1 & Hp & Hi1 & Hl1).
  { fold b. unfold MAX_LOOKBEHIND_TOKENS. destruct (is_ascii b); [auto|]. left. lia. }
  fold b in Hi1, Hl1. destruct (IH k' _ _ _ Hi1) as (a2 & d2 & Hp2 & Hi2); [|done|].
  { unfold MAX_RUN in Hk'. destruct (is_ascii b); lia. }
  exists (a ++ a2), d2. cbn [push_all]. rewrite Hp. cbn. rewrite Hp2. cbn. split; [done|].
  csimpl. fold b. by rewrite <-!app_assoc in Hi2.
Qed.

Lemma finish_step inp d out :
  in_step inp d out -> exists a, finish (Hf:=Hf) Bytes d = Some (Ok a, new) /\ out ++ a = from_utf8_lossy inp.
Proof.
  intros (pre & Hpre & He & ->). specialize (Hpre []). rewrite !app_nil_r in Hpre. rewrite Hpre. unfold finish.
  unfold window in *. destruct (ids d) as [|i l] eqn:Ei; [exists []; rewrite He; split; [done|by rewrite app_nil_r]|].
  cbn [decode]. assert (Hu : is_utf8 (from_utf8_lossy (byte_of_id <$> i :: l)) = true) by apply lossy_is_utf8.
  rewrite He. clear Hpre He. generalize dependent (from_utf8_lossy (byte_of_id <$> i :: l)). intros L Hu.
  destruct (stable_split L) as (k & Hk & _). exists (concat (replicate k REPLACEMENT)).
  assert (Hle : (length (stable L) <= length L)%nat) by (rewrite Hk at 2; rewrite length_app; lia).
  assert (Hst : starts_with L (stable L) = true) by (rewrite Hk at 1; apply starts_with_app).
  destruct (str_slice_utf8 L (length (stable L)) (length L)) as [Hsl _];
    [done|done|apply boundary_stable|apply boundary_length|].
  rewrite Hst, (proj2 (Nat.leb_le _ _) Hle), Hsl. cbn. split; [|by rewrite <-app_assoc, <-Hk].
  do 3 f_equal. rewrite take_ge by (rewrite length_drop; lia). rewrite Hk at 2. apply drop_app_length.
Qed.

Lemma stream_all_bytes l :
  runs_within MAX_RUN MAX_RUN (byte_of_id <$> l) = true -> stream_all (Hf:=Hf) Bytes l = Some (decode Bytes l).
Proof.
  intros Hr. assert (Hn : in_step [] new []) by (exists []; done).
  destruct (run_step l MAX_RUN [] new [] Hn) as (a & d & Hp & Hi); [unfold MAX_RUN; simpl; lia|done|].
  destruct (finish_step _ _ _ Hi) as (c & Hfin & Hc). unfold stream_all. rewrite Hp. cbn. rewrite Hfin. cbn.
  cbn in Hc. by rewrite Hc.
Qed.
End bytes_tokenizer.

(** C39. With the byte tokenizer, whatever the token ids and however torn their bytes, the
    concatenation of the deltas and of the final flush is the one-shot decoding of the
    whole completion, as long as at most 62 bytes outside ASCII follow one another. *)
Theorem stream_is_one_shot_decode {Hf : Type} `{!HfBackend Hf} (l : list N) :
  runs_within MAX_RUN MAX_RUN (byte_of_id <$> l) = true ->
  stream_all (Hf:=Hf) Bytes l = Some (decode Bytes l).
Proof. apply stream_all_bytes. Qed.

(** Text survives the byte tokenizer: a text that is encoded and streamed back token by
    token is the text again, as long as at most 62 bytes outside ASCII follow one
    another. *)
Theorem text_streams_back {Hf : Type} `{!HfBackend Hf} (text : list byte) :
  is_utf8 text = true -> runs_within MAX_RUN MAX_RUN text = true ->
  exists l, encode (Hf:=Hf) Bytes text = Ok l /\ stream_all (Hf:=Hf) Bytes l = Some (Ok text).
Proof.
  intros Hu Hr. eexists. split; [done|].
  assert (E : byte_of_id <$> (Byte.to_N <$> text) = text).
  { rewrite <-list_fmap_compose. transitivity (id <$> text); [|apply list_fmap_id]. apply list_fmap_ext. intros _ b _.
    cbn. unfold byte_of_id. change 255%N with (N.ones 8). rewrite N.land_ones.
    rewrite N.mod_small by (pose proof (byte_to_N_lt b); lia). apply byte_of_to_N. }
  rewrite stream_all_bytes by by rewrite E. cbn [decode]. rewrite E, lossy_id; done.
Qed.

(** When a tokenizer passes [validate_vocab_compat], every id of every prompt it encodes
    addresses a row of the model's embedding table. *)
Theorem compatible_ids_fit {Hf : Type} `{!HfBackend Hf, !HfLaws Hf} (t : Tokenizer Hf) (n : N) (s : list byte) (l : list N) :
  validate_vocab_compat t n = Ok tt -> encode t s = Ok l -> Forall (fun id => id < n)%N l.
Proof.
  unfold validate_vocab_compat. destruct (N.leb_spec n (max_token_id t)) as [|Hn]; [done|]. intros _ He.
  apply Forall_forall. intros id Hid. apply N.le_lt_trans with (max_token_id t); [|done]. clear Hn.
  destruct t as [|t]; simpl in *.
  - simplify_eq. apply list_elem_of_fmap in Hid as (b & -> & _). pose proof (byte_to_N_lt b). lia.
  - eapply Forall_forall in Hid; [|by eapply hf_encode_vocab]. induction Hid; simpl; lia.
Qed.

Module Witness.

(** A back end of three pieces: ["he"], ["llo"] and ["€"]. *)
Definition pieces : list (list byte) := [[x68; x65]; [x6c; x6c; x6f]; [xe2; x82; xac]].

Definition piece_decode (ids : list N) : result tokenizer_error (list byte) :=
  if forallb (fun id => id <? 3)%N ids then Ok (ids ≫= fun id => default [] (pieces !! N.to_nat id)) else Err Backend.

#[export] Instance piece_backend : HfBackend unit := {|
  get_vocab_size _ := 3%N;
  get_vocab_ids _ := [0; 1; 2]%N;
  hf_encode _ s := if bool_decide (s = [x68; x65; x6c; x6c; x6f]) then Ok [0; 1]%N else Err Backend;
  hf_decode _ := piece_decode
|}.

#[export] Instance piece_laws : HfLaws unit.
Proof.
  split; intros ?; simpl.
  - intros ids s. unfold piece_decode. case_match eqn:E; [|done]. intros [= <-]. clear E.
    induction ids as [|i ids IH]; [done|]. cbn [mbind list_bind]. rewrite is_utf8_app; [done|].
    destruct (N.to_nat i) as [|[|[|n]]]; done.
  - intros s ids. case_bool_decide; [|done]. intros [= <-]. repeat constructor; set_solver.
Qed.

Lemma stream_emits_text_witness :
  (exists r, stream_all (HfTok tt) [0; 1; 2]%N = Some r /\ forall a, r = Ok a -> is_utf8 a = true) /\
  stream_all (HfTok tt) [0; 1; 2]%N = Some (Ok [x68; x65; x6c; x6c; x6f; xe2; x82; xac]) /\
  stream_all (HfTok tt) [0; 7]%N = Some (Err Backend).
Proof. split; [apply (stream_emits_text (HfTok tt) [0; 1; 2]%N)|split; vm_compute; reflexivity]. Defined.

(** ["a€"], a stray continuation byte, ["b"] and a torn euro sign. *)
Definition torn_ids : list N := [97; 226; 130; 172; 169; 98; 226; 130]%N.

Lemma stream_is_one_shot_decode_witness :
  runs_within MAX_RUN MAX_RUN (byte_of_id <$> torn_ids) = true /\
  stream_all (Hf:=unit) Bytes torn_ids = Some (decode Bytes torn_ids).
Proof. split; [vm_compute; reflexivity|apply (stream_is_one_shot_decode torn_ids); vm_compute; reflexivity]. Defined.

Definition euro : list byte := [xe2; x82; xac].

Lemma text_streams_back_witness :
  exists l, encode (Hf:=unit) Bytes (concat (replicate 20 euro)) = Ok l /\
    stream_all (Hf:=unit) Bytes l = Some (Ok (concat (replicate 20 euro))).
Proof. apply (text_streams_back (concat (replicate 20 euro))); vm_compute; reflexivity. Defined.

Lemma compatible_ids_fit_witness : Forall (fun id => id < 3)%N [0; 1]%N.
Proof. apply (compatible_ids_fit (HfTok tt) 3 [x68; x65; x6c; x6c; x6f]); vm_compute; reflexivity. Defined.

End Witness.

(** A run of 22 euro signs, which is well-formed text, reaches the cap of 64 ids inside its
    last character: the forced flush emits its first byte as a replacement character and
    drops the window, and the two bytes that complete it follow as two more.  The documentation of
    [StreamDecoder] says that multi-byte characters are never emitted torn, and that the
    cap is only reached by streams that never resolve. *)
Theorem long_run_is_torn {Hf : Type} `{!HfBackend Hf} :
  let text := concat (replicate 22 Witness.euro) in
  is_utf8 text = true /\
  exists l, encode (Hf:=Hf) Bytes text = Ok l /\
    stream_all (Hf:=Hf) Bytes l = Some (Ok (concat (replicate 21 Witness.euro) ++ REPLACEMENT ++ REPLACEMENT ++ REPLACEMENT)).
Proof. split; [vm_compute; reflexivity|]. eexists. split; [reflexivity|vm_compute; reflexivity]. Qed.
