(* ===== verification/Sampling.v ===== *)
(** Token sampling ([src/rust-engine/src/sampling.rs]): the seed of a step, the greedy
    choice and the draw with temperature, top-k and nucleus truncation.

    [f32::exp] and [sort_unstable_by] come from the standard library without a
    definition of their result on every input: [exp] is a parameter without laws, the
    sort returns some sorted permutation.  Floating-point sums start from a zero whose
    sign plays no part. *)
From S2P Require Import Prelude Floats.

Record SamplingParams := { temperature : f32; top_p : f32; top_k : N; seed : N }.

Definition default_params : SamplingParams :=
  {| temperature := f32_one; top_p := f32_one; top_k := 0; seed := 0 |}.

Definition greedy : SamplingParams :=
  {| temperature := f32_zero; top_p := f32_one; top_k := 0; seed := 0 |}.

Definition is_greedy (p : SamplingParams) : bool := negb (SFltb f32_zero (temperature p)).

(** ** The seed of a step *)

(** [wrapping_mul]. *)
Definition mul64 (a b : N) : N := ((a * b) mod 2 ^ 64)%N.

Definition step_seed (position : N) (p : SamplingParams) : N :=
  let z := ((seed p + 11400714819323198485) mod 2 ^ 64)%N in
  let z := ((z + mul64 position 13787848793156543929) mod 2 ^ 64)%N in
  let z := mul64 (N.lxor z (N.shiftr z 30)) 13787848793156543929 in
  let z := mul64 (N.lxor z (N.shiftr z 27)) 10723151780598845931 in
  N.lxor z (N.shiftr z 31).

(** ** The greedy choice *)

Fixpoint argmax_from (i best : N) (best_v : f32) (logits : list f32) : N :=
  match logits with
  | [] => best
  | v :: logits =>
      if SFltb best_v v then argmax_from (i + 1) (i mod (u32_max + 1))%N v logits
      else argmax_from (i + 1) best best_v logits
  end.

Definition argmax (logits : list f32) : N := argmax_from 0 0 (S754_infinity true) logits.

(** ** The order of probabilities *)

(** [to_bits], without the sign. *)
Definition f32_magnitude (x : f32) : Z :=
  match x with
  | S754_zero _ => 0
  | S754_infinity _ => 255 * 2 ^ 23
  | S754_nan => 255 * 2 ^ 23 + 2 ^ 22
  | S754_finite _ m e => if (Zpos m <? 2 ^ 23)%Z then Zpos m else (e + 150) * 2 ^ 23 + (Zpos m - 2 ^ 23)
  end%Z.

(** [total_cmp] compares these. *)
Definition total_key (x : f32) : Z :=
  match x with
  | S754_zero true | S754_infinity true | S754_finite true _ _ => - f32_magnitude x - 1
  | _ => f32_magnitude x
  end%Z.

(** ** The draw *)

Definition f32_sum (l : list f32) : f32 := foldl f32_add f32_zero l.

Section sample.
Variable exp : f32 -> f32.
(** [sort_unstable_by(|a, b| key(b).cmp(key(a)))]. *)
Variable sort_desc : (N -> Z) -> list N -> list N.

Definition scaled_max (t : f32) (logits : list f32) : f32 :=
  foldl (fun mx v => let s := f32_div v t in if SFltb mx s then s else mx) (S754_infinity true) logits.

(** [1e-6]. *)
Definition tiny : f32 := Eval vm_compute in f32_div f32_one (f32_of_N 1000000).

Definition weights (p : SamplingParams) (logits : list f32) : list f32 :=
  let t := f32_max (temperature p) tiny in
  let mx := scaled_max t logits in
  (fun v => exp (f32_sub (f32_div v t) mx)) <$> logits.

Definition probabilities (p : SamplingParams) (logits : list f32) : list f32 :=
  let raw := weights p logits in
  let sum := f32_sum raw in
  (fun q => f32_div q sum) <$> raw.

Definition prob (probs : list f32) (i : N) : f32 := default f32_zero (probs !! N.to_nat i).

Definition k_cut (p : SamplingParams) (n : nat) : nat :=
  if (top_k p =? 0)%N then n else Nat.min (N.to_nat (top_k p)) n.

(** The loop over the sorted prefix: how many tokens it keeps. *)
Fixpoint nucleus (target cum : f32) (probs : list f32) (l : list N) : nat :=
  match l with
  | [] => 0
  | o :: l =>
      let cum := f32_add cum (prob probs o) in
      if SFleb target cum then 1 else S (nucleus target cum probs l)
  end.

Definition p_cut (p : SamplingParams) (probs : list f32) (order : list N) : nat :=
  let k := k_cut p (length order) in
  if negb (SFltb f32_zero (top_p p) && SFltb (top_p p) f32_one) then k
  else Nat.min (nucleus (f32_clamp (top_p p) tiny f32_one) f32_zero probs (take k order)) k.

Definition ranking (probs : list f32) : list N :=
  sort_desc (fun i => total_key (prob probs i)) (rangeN (N.of_nat (length probs))).

(** Inverse CDF; the last token catches what rounding leaves. *)
Fixpoint draw (u acc : f32) (probs : list f32) (final : N) (kept : list N) : N :=
  match kept with
  | [] => final
  | i :: kept =>
      let acc := f32_add acc (prob probs i) in
      if SFleb u acc then i else draw u acc probs final kept
  end.

Definition sample (logits : list f32) (p : SamplingParams) (position : N) : N :=
  match logits with
  | [] => 0%N
  | _ =>
      if is_greedy p then argmax logits else
      if negb (SFltb f32_zero (f32_sum (weights p logits))) then argmax logits else
      let probs := probabilities p logits in
      let order := ranking probs in
      let kept := take (p_cut p probs order) order in
      let kept_sum := f32_sum (prob probs <$> kept) in
      if negb (SFltb f32_zero kept_sum) then argmax logits else
      let bits := step_seed position p in
      let u := f32_mul (f32_div (f32_of_N (N.shiftr bits 40 mod (u32_max + 1))) (f32_of_N (2 ^ 24))) kept_sum in
      (draw u f32_zero probs (default 0%N (last kept)) kept mod (u32_max + 1))%N
  end.
End sample.

(** ** Distinct positions have distinct seeds *)

Lemma xor_shift_inj k a b : (0 < k)%N -> N.lxor a (N.shiftr a k) = N.lxor b (N.shiftr b k) -> a = b.
Proof.
  intros Hk He. apply N.lxor_eq. set (d := N.lxor a b).
  assert (Hd : N.shiftr d k = d).
  { unfold d. rewrite N.shiftr_lxor. apply N.lxor_eq.
    replace (N.lxor (N.lxor (N.shiftr a k) (N.shiftr b k)) (N.lxor a b))
      with (N.lxor (N.lxor a (N.shiftr a k)) (N.lxor b (N.shiftr b k))).
    - by rewrite He, N.lxor_nilpotent.
    - apply N.bits_inj. intros i. rewrite !N.lxor_spec.
      by destruct (N.testbit a i), (N.testbit b i), (N.testbit (N.shiftr a k) i), (N.testbit (N.shiftr b k) i). }
  rewrite N.shiftr_div_pow2 in Hd. destruct (decide (d = 0%N)) as [|Hn]; [done|exfalso].
  assert (d / 2 ^ k < d)%N; [|lia]. apply N.div_lt; [lia|]. apply N.pow_gt_1; lia.
Qed.

Lemma mul64_inj c inv a b :
  ((c * inv) mod 2 ^ 64 = 1)%N -> (a < 2 ^ 64)%N -> (b < 2 ^ 64)%N -> mul64 a c = mul64 b c -> a = b.
Proof.
  intros Hi Ha Hb He.
  assert (Hback : forall x, (x < 2 ^ 64)%N -> ((mul64 x c * inv) mod 2 ^ 64 = x)%N).
  { intros x Hx. unfold mul64. rewrite N.Div0.mul_mod_idemp_l, <-N.mul_assoc, <-N.Div0.mul_mod_idemp_r, Hi, N.mul_1_r.
    by apply N.mod_small. }
  rewrite <-(Hback a Ha), <-(Hback b Hb). by rewrite He.
Qed.

Lemma lt_xor_shift z k : (z < 2 ^ 64)%N -> (N.lxor z (N.shiftr z k) < 2 ^ 64)%N.
Proof.
  intros Hz. destruct (decide (N.lxor z (N.shiftr z k) = 0%N)) as [->|Hn]; [lia|].
  apply N.log2_lt_pow2; [lia|]. eapply N.le_lt_trans; [apply N.log2_lxor|].
  destruct (decide (z = 0%N)) as [->|Hz0]; [by rewrite N.shiftr_0_l|].
  assert (N.log2 z < 64)%N by (apply N.log2_lt_pow2; lia).
  rewrite N.shiftr_div_pow2. pose proof (N.log2_le_mono (z / 2 ^ k) z).
  assert (z / 2 ^ k <= z)%N by (apply N.Div0.div_le_upper_bound; pose proof (N.pow_nonzero 2 k); nia). lia.
Qed.

Lemma add_mod_inj m a b c : (b < m)%N -> (c < m)%N -> ((a + b) mod m = (a + c) mod m)%N -> b = c.
Proof.
  intros Hb Hc He. pose proof (N.div_mod (a + b) m) as H1. pose proof (N.div_mod (a + c) m) as H2.
  assert (m <> 0)%N by lia. specialize (H1 ltac:(done)). specialize (H2 ltac:(done)).
  rewrite He in H1. destruct (N.lt_total ((a + b) / m) ((a + c) / m)) as [|[|]]; nia.
Qed.

(** The steps of a request draw from pairwise different seeds: for a given seed,
    [step_seed] is injective in the position. *)
Theorem step_seeds_are_distinct (p : SamplingParams) (a b : N) :
  (a <= u64_max)%N -> (b <= u64_max)%N -> step_seed a p = step_seed b p -> a = b.
Proof.
  unfold step_seed. intros Ha Hb He. change u64_max with (2 ^ 64 - 1)%N in Ha, Hb.
  assert (Hm : forall x y, (mul64 x y < 2 ^ 64)%N) by (intros; by apply N.mod_lt).
  apply xor_shift_inj in He; [|lia].
  apply (mul64_inj _ 3573116690164977347) in He; [|done|by apply lt_xor_shift..]. apply xor_shift_inj in He; [|lia].
  apply (mul64_inj _ 10871156337175269513) in He; [|done|apply lt_xor_shift; by apply N.mod_lt..].
  apply xor_shift_inj in He; [|lia]. apply add_mod_inj in He; [|done..].
  apply (mul64_inj 13787848793156543929 10871156337175269513); [done|lia|lia|done].
Qed.

(** ** The greedy choice is the first maximum *)

Lemma ltb_trans x y z : SFltb x y = true -> SFltb y z = true -> SFltb x z = true.
Proof.
  intros Hxy Hyz.
  assert (Hn : is_nan x = false /\ is_nan y = false /\ is_nan z = false) by (by destruct x, y, z).
  destruct Hn as (Hx & Hy & Hz). rewrite f64_ltb_leb in * by done.
  apply negb_true_iff in Hxy, Hyz. apply negb_true_iff, not_true_is_false. intros Hzx.
  assert (Hyx : f64_leb y x = true).
  { apply (f64_leb_trans y z x); auto. by apply f64_leb_flip. }
  unfold f64_leb in Hyx. congruence.
Qed.

Lemma ltb_le_trans x y z : is_nan z = false -> SFltb x y = true -> SFltb z y = false -> SFltb x z = true.
Proof.
  intros Hz Hxy Hzy. assert (Hn : is_nan x = false /\ is_nan y = false) by (by destruct x, y). destruct Hn as [Hx Hy].
  rewrite f64_ltb_leb in * by done. apply negb_true_iff in Hxy. apply negb_false_iff in Hzy.
  apply negb_true_iff, not_true_is_false. intros Hzx.
  assert (Hyx : f64_leb y x = true) by (by apply (f64_leb_trans y z x)). unfold f64_leb in Hyx. congruence.
Qed.

Lemma ltb_irrefl x : SFltb x x = false.
Proof.
  destruct (is_nan x) eqn:Hn; [by destruct x|]. rewrite f64_ltb_leb by done.
  apply negb_false_iff. by apply f64_leb_refl.
Qed.

(** What the loop knows of the logits it has seen. *)
Definition leads (seen : list f32) (best : N) (best_v : f32) : Prop :=
  (forall w, w ∈ seen -> SFltb best_v w = false) /\
  (best = 0%N /\ best_v = S754_infinity true \/
   SFltb (S754_infinity true) best_v = true /\ seen !! N.to_nat best = Some best_v /\
   forall j w, (j < N.to_nat best)%nat -> seen !! j = Some w -> is_nan w = false -> SFltb w best_v = true).

Lemma leads_snoc seen best best_v v :
  leads seen best best_v -> SFltb best_v v = false -> leads (seen ++ [v]) best best_v.
Proof.
  intros [Hmax Hor] Hv. split.
  - intros w [Hw| ->%list_elem_of_singleton]%elem_of_app; auto.
  - destruct Hor as [Hz|(Hlt & Hb & Hbefore)]; [by left|right]. split_and!; [done|by apply lookup_app_l_Some|].
    intros j w Hj Hw. apply (Hbefore j w Hj). apply lookup_lt_Some in Hb.
    rewrite lookup_app_l in Hw by (eapply Nat.lt_trans; eauto). done.
Qed.

Lemma leads_new seen best best_v v :
  leads seen best best_v -> SFltb best_v v = true -> leads (seen ++ [v]) (N.of_nat (length seen)) v.
Proof.
  intros [Hmax Hor] Hv. assert (Hnv : is_nan v = false) by (by destruct best_v, v).
  assert (Hinf : SFltb (S754_infinity true) v = true).
  { destruct Hor as [[_ ->]|[Hlt _]]; [done|by eapply ltb_trans]. }
  split.
  - intros w [Hw| ->%list_elem_of_singleton]%elem_of_app; [|apply ltb_irrefl].
    apply not_true_is_false. intros Hvw. specialize (Hmax w Hw).
    rewrite (ltb_trans best_v v w) in Hmax; done.
  - right. rewrite Nat2N.id. split_and!; [done|by rewrite lookup_app_r, Nat.sub_diag by lia|].
    intros j w Hj Hw Hn. rewrite lookup_app_l in Hw by done.
    apply list_elem_of_lookup_2 in Hw. specialize (Hmax w Hw).
    rewrite f64_ltb_leb in Hmax |- * by (done || by destruct best_v, v).
    apply negb_false_iff in Hmax. apply negb_true_iff, not_true_is_false. intros Hvw.
    assert (Hb : is_nan best_v = false) by (by destruct best_v, v).
    assert (Hvb : f64_leb v best_v = true) by (by apply (f64_leb_trans v w best_v)).
    rewrite f64_ltb_leb in Hv by done. unfold f64_leb in Hvb. rewrite Hvb in Hv. done.
Qed.

Lemma argmax_leads rest : forall seen best best_v,
  (N.of_nat (length (seen ++ rest)) <= u32_max + 1)%N -> leads seen best best_v ->
  exists v, leads (seen ++ rest) (argmax_from (N.of_nat (length seen)) best best_v rest) v.
Proof.
  induction rest as [|v rest IH]; intros seen best best_v Hlen Hl; simpl.
  { rewrite app_nil_r. by exists best_v. }
  rewrite length_app in Hlen. simpl in Hlen.
  assert (Hn : (N.of_nat (length seen) + 1)%N = N.of_nat (length (seen ++ [v]))) by (rewrite length_app; simpl; lia).
  rewrite (N.mod_small (N.of_nat (length seen))), Hn by lia.
  replace (seen ++ v :: rest) with ((seen ++ [v]) ++ rest) by (by rewrite <-app_assoc).
  destruct (SFltb best_v v) eqn:Hv; apply IH;
    first [rewrite !length_app; simpl; lia|by eapply leads_new|by apply leads_snoc].
Qed.

(** The greedy choice is the first of the largest logits: no logit is larger than
    the one chosen, and every earlier logit that is a number is smaller, unless all
    logits are NaN or minus infinity, when token 0 is chosen. *)
Theorem argmax_is_first_maximum (logits : list f32) :
  logits <> [] -> (N.of_nat (length logits) <= u32_max + 1)%N ->
  exists v, logits !! N.to_nat (argmax logits) = Some v /\
    (forall w, w ∈ logits -> SFltb v w = false) /\
    (if SFltb (S754_infinity true) v
     then forall j w, (j < N.to_nat (argmax logits))%nat -> logits !! j = Some w -> is_nan w = false -> SFltb w v = true
     else argmax logits = 0%N).
Proof.
  intros Hne Hlen. destruct (argmax_leads logits [] 0 (S754_infinity true)) as (v & Hmax & Hor); [done|split; [|by left]|].
  { intros w Hw. by apply elem_of_nil in Hw. }
  change (argmax_from (N.of_nat (length [])) 0 (S754_infinity true) logits) with (argmax logits) in Hor.
  rewrite app_nil_l in *. generalize dependent (argmax logits). intros best Hor.
  destruct Hor as [[-> ->]|(Hlt & Hv & Hbefore)].
  - destruct logits as [|v logits]; [done|]. exists v.
    assert (Hall : forall w, w ∈ v :: logits -> w = S754_nan \/ w = S754_infinity true).
    { intros w Hw. specialize (Hmax w Hw). destruct w as [[]|[]| |[] ? ?]; auto; discriminate. }
    split; [done|]. split.
    + intros w Hw. destruct (Hall v) as [-> | ->]; [by left|..]; destruct (Hall w Hw) as [-> | ->]; done.
    + destruct (Hall v) as [-> | ->]; [by left|..]; done.
  - exists v. rewrite Hlt. by split_and!.
Qed.

(** ** The draw respects the truncations *)

Lemma draw_in u probs final kept : forall acc, kept <> [] -> final ∈ kept -> draw u acc probs final kept ∈ kept.
Proof.
  assert (Hgen : forall acc l, draw u acc probs final l = final \/ draw u acc probs final l ∈ l).
  { intros acc l. revert acc. induction l as [|i l IH]; intros acc; simpl; [by left|].
    destruct (SFleb _ _); [right; by left|]. destruct (IH (f32_add acc (prob probs i))); [by left|right; by right]. }
  intros acc _ Hf. by destruct (Hgen acc kept) as [->|].
Qed.

Lemma nucleus_short target probs l : forall cum j,
  (0 < j < nucleus target cum probs l)%nat ->
  SFleb target (foldl f32_add cum (prob probs <$> take j l)) = false.
Proof.
  induction l as [|o l IH]; intros cum j Hj; simpl in *; [lia|].
  destruct (SFleb target (f32_add cum (prob probs o))) eqn:He; [lia|].
  destruct j as [|[|j]]; [lia|done|]. apply (IH _ (S j)). lia.
Qed.

(** Fewer elements come strictly before the one at a rank than its rank. *)
Lemma none_larger (key : N -> Z) l m :
  Forall (fun b => key b <= m)%Z l -> List.filter (fun i => m <? key i)%Z l = [].
Proof. induction 1 as [|b l Hb _ IH]; simpl; [done|]. by rewrite (proj2 (Z.ltb_ge _ _)) by lia. Qed.

Lemma larger_before (key : N -> Z) l rank r :
  StronglySorted (fun a b => key b <= key a)%Z l -> l !! rank = Some r ->
  (length (List.filter (fun i => key r <? key i)%Z l) <= rank)%nat.
Proof.
  intros Hs. revert rank. induction Hs as [|a l _ IH Hall]; intros rank Hr; [done|].
  destruct rank as [|rank]; simpl in *.
  - injection Hr as ->. by rewrite (proj2 (Z.ltb_ge _ _)), (none_larger key l) by (done || lia).
  - specialize (IH rank Hr). destruct (_ <? _)%Z; simpl; lia.
Qed.

Lemma argmax_in_range logits :
  logits <> [] -> (N.of_nat (length logits) <= u32_max + 1)%N -> (N.to_nat (argmax logits) < length logits)%nat.
Proof.
  intros Hne Hlen. destruct (argmax_leads logits [] 0 (S754_infinity true)) as (v & _ & Hor); [done|split; [|by left]|].
  { intros w Hw. by apply elem_of_nil in Hw. }
  change (argmax_from (N.of_nat (length [])) 0 (S754_infinity true) logits) with (argmax logits) in Hor.
  destruct Hor as [[-> _]|(_ & Hv & _)]; [destruct logits; simpl; [done|lia]|by eapply lookup_lt_Some].
Qed.

Section truncation.
Variable exp : f32 -> f32.
Variable sort_desc : (N -> Z) -> list N -> list N.
Hypothesis sort_perm : forall key l, sort_desc key l ≡ₚ l.
Hypothesis sort_sorted : forall key l, StronglySorted (fun a b => key b <= key a)%Z (sort_desc key l).

(** The tokens that are kept. *)
Definition kept_of (p : SamplingParams) (logits : list f32) : list N :=
  let probs := probabilities exp p logits in
  let order := ranking sort_desc probs in
  take (p_cut p probs order) order.

(** When a token is drawn at all: the request is not greedy, the weights add up to a
    positive number, and so do the probabilities of the tokens that are kept. *)
Definition draws (p : SamplingParams) (logits : list f32) : bool :=
  negb (is_greedy p) && SFltb f32_zero (f32_sum (weights exp p logits)) &&
  SFltb f32_zero (f32_sum (prob (probabilities exp p logits) <$> kept_of p logits)).

(** A token that is kept, or the greedy choice when none is drawn. *)
Lemma sample_cases logits p position :
  logits <> [] ->
  let r := sample exp sort_desc logits p position in
  if draws p logits then exists i, i ∈ kept_of p logits /\ r = (i mod (u32_max + 1))%N
  else r = argmax logits.
Proof.
  intros Hne r. unfold r, sample, draws, kept_of. destruct logits as [|v logits]; [done|].
  destruct (is_greedy p); [done|]. cbn [negb andb]. destruct (SFltb f32_zero (f32_sum (weights _ _ _))); [|done].
  cbn [negb andb]. set (kept := take _ _). destruct (SFltb _ _) eqn:Hk; [|done]. cbn [negb].
  assert (Hkn : kept <> []) by (intros E; rewrite E in Hk; done).
  eexists. split; [|done]. apply draw_in; [done|].
  destruct (last kept) as [x|] eqn:Hx; [by apply last_Some_elem_of in Hx|by apply last_None in Hx].
Qed.

(** C18. Whatever the logits (infinities and NaN included) and the parameters, a token of
    the vocabulary is sampled and no index is out of range.  A greedy request, and one
    whose weights, or whose kept probabilities, do not add up to a positive number, gets
    the first maximum.  Every other request gets a token the truncations keep: with
    top-k fewer than k tokens are strictly more probable than the one sampled, and with
    nucleus truncation the tokens ranked before it do not yet reach the mass asked for. *)
Theorem sample_respects_truncation (logits : list f32) (p : SamplingParams) (position : N) :
  logits <> [] -> (N.of_nat (length logits) <= u32_max + 1)%N ->
  let r := sample exp sort_desc logits p position in
  let probs := probabilities exp p logits in
  (N.to_nat r < length logits)%nat /\ Forall (fun i => N.to_nat i < length probs)%nat (ranking sort_desc probs) /\
  (if is_greedy p || negb (SFltb f32_zero (f32_sum (weights exp p logits))) ||
      negb (SFltb f32_zero (f32_sum (prob probs <$> kept_of p logits)))
   then r = argmax logits
   else
   r ∈ kept_of p logits /\
   (top_k p <> 0%N ->
    N.of_nat (length (List.filter (fun i => total_key (prob probs r) <? total_key (prob probs i))%Z
      (rangeN (N.of_nat (length probs))))) < top_k p)%N /\
   (SFltb f32_zero (top_p p) && SFltb (top_p p) f32_one = true ->
    exists rank, ranking sort_desc probs !! rank = Some r /\
      (rank = 0%nat \/ SFleb (f32_clamp (top_p p) tiny f32_one)
         (f32_sum (prob probs <$> take rank (ranking sort_desc probs))) = false))).
Proof.
  intros Hne Hlen r probs.
  assert (Hpl : length probs = length logits) by (unfold probs, probabilities, weights; by rewrite !length_fmap).
  assert (Hlt : forall i, i ∈ ranking sort_desc probs -> (N.to_nat i < length probs)%nat).
  { intros i. unfold ranking. rewrite sort_perm, elem_of_rangeN. lia. }
  assert (Htake : forall k i (l : list N), i ∈ take k l -> i ∈ l)
    by (intros k i l Hi; rewrite <-(take_drop k l); apply elem_of_app; by left).
  assert (Ha : (N.to_nat (argmax logits) < length logits)%nat) by (by apply argmax_in_range).
  pose proof (sample_cases logits p position Hne) as Hcase. unfold draws in Hcase. fold r probs in Hcase.
  destruct (is_greedy p), (SFltb f32_zero (f32_sum (weights exp p logits))), (SFltb f32_zero (f32_sum (prob probs <$> _)));
    cbn [negb andb orb] in *; try (rewrite Hcase; split_and!; [done|by apply Forall_forall|done]).
  destruct Hcase as (i & Hi & Hr).
  assert (Hin : i ∈ ranking sort_desc probs) by (by apply Htake in Hi).
  rewrite N.mod_small in Hr by (specialize (Hlt i Hin); lia). subst i. clearbody r.
  split; [by rewrite <-Hpl; apply Hlt|split; [by apply Forall_forall|split; [done|]]].
  unfold kept_of in Hi. fold probs in Hi. apply list_elem_of_lookup in Hi as [rank Hrank]. apply lookup_take_Some in Hrank as [Hrank Hcut].
  split.
  - intros Hk. assert (Hle : (rank < N.to_nat (top_k p))%nat).
    { unfold p_cut, k_cut in Hcut. rewrite (proj2 (N.eqb_neq _ _)) in Hcut by done.
      destruct (negb _); lia. }
    assert (Hbefore : (length (List.filter (fun i => total_key (prob probs r) <? total_key (prob probs i))%Z
      (ranking sort_desc probs)) <= rank)%nat) by (exact (larger_before (fun i => total_key (prob probs i)) _ _ _ (sort_sorted _ _) Hrank)).
    assert (Hp : List.filter (fun i => total_key (prob probs r) <? total_key (prob probs i))%Z (ranking sort_desc probs) ≡ₚ
      List.filter (fun i => total_key (prob probs r) <? total_key (prob probs i))%Z (rangeN (N.of_nat (length probs)))).
    { apply filter_perm, sort_perm. }
    rewrite <-Hp. lia.
  - intros Hnuc. exists rank. split; [done|]. destruct rank as [|rank]; [by left|right].
    unfold p_cut in Hcut. rewrite Hnuc in Hcut. simpl in Hcut.
    set (k := k_cut p (length (ranking sort_desc probs))) in *.
    pose proof (nucleus_short (f32_clamp (top_p p) tiny f32_one) probs (take k (ranking sort_desc probs)) f32_zero (S rank)) as Hn.
    rewrite take_take, Nat.min_l in Hn by lia. apply Hn. lia.
Qed.
End truncation.

(** A nucleus mass of 0, or a negative one, keeps every token, like 1 does. *)
Theorem zero_mass_disables_truncation (probs : list f32) (order : list N) (t : f32) (k s : N) :
  p_cut {| temperature := t; top_p := f32_zero; top_k := k; seed := s |} probs order =
  k_cut {| temperature := t; top_p := f32_zero; top_k := k; seed := s |} (length order).
Proof. done. Qed.

Module Witness.
Definition desc (key : N -> Z) (a b : N) : Prop := (key b <= key a)%Z.
#[local] Instance desc_dec key : RelDecision (desc key).
Proof. intros a b. unfold desc. apply _. Defined.
#[local] Instance desc_trans key : Transitive (desc key).
Proof. unfold desc. intros a b c. lia. Qed.
#[local] Instance desc_total key : Total (desc key).
Proof. unfold desc. intros a b. lia. Qed.

Definition sort_key (key : N -> Z) (l : list N) : list N := merge_sort (desc key) l.

(** A stand-in for the exponential: 1 at 0 and above, a quarter below. *)
Definition step_exp (x : f32) : f32 :=
  if SFltb x f32_zero then f32_div f32_one (f32_of_N 4) else f32_one.

Definition sample_logits : list f32 := [f32_one; f32_of_N 3; S754_infinity true; f32_of_N 3].
Definition nucleus_params : SamplingParams :=
  {| temperature := f32_one; top_p := f32_div f32_one (f32_of_N 2); top_k := 2; seed := 7 |}.

(** Tokens 1 and 3 have two fifths each; both are needed for one half. *)
Lemma sample_respects_truncation_witness :
  kept_of step_exp sort_key nucleus_params sample_logits ≡ₚ [1; 3]%N /\
  sample step_exp sort_key sample_logits nucleus_params 5 ∈ kept_of step_exp sort_key nucleus_params sample_logits /\
  (N.to_nat (sample step_exp sort_key sample_logits nucleus_params 5) < 4)%nat.
Proof.
  split; [vm_compute; (reflexivity || apply perm_swap)|].
  pose proof (sample_respects_truncation step_exp sort_key (fun key l => merge_sort_Permutation (desc key) l)
    (fun key l => StronglySorted_merge_sort (desc key) l) sample_logits nucleus_params 5 ltac:(discriminate)
    ltac:(vm_compute; discriminate)) as H.
  cbv zeta in H. destruct H as (Hr & _ & H).
  replace (is_greedy nucleus_params || _ || _) with false in H by (vm_compute; reflexivity).
  split; [exact (proj1 H)|exact Hr].
Defined.

Lemma argmax_is_first_maximum_witness :
  argmax sample_logits = 1%N /\ exists v, sample_logits !! 1%nat = Some v /\ forall w, w ∈ sample_logits -> SFltb v w = false.
Proof.
  assert (E : argmax sample_logits = 1%N) by (vm_compute; reflexivity). split; [exact E|].
  destruct (argmax_is_first_maximum sample_logits) as (v & Hv & Hmax & _); [done|vm_compute; discriminate|].
  rewrite E in Hv. exact (ex_intro _ v (conj Hv Hmax)).
Defined.

Lemma step_seeds_are_distinct_witness :
  step_seed 0 default_params <> step_seed 1 default_params.
Proof.
  intros He. assert (H : 0%N = 1%N); [|discriminate H].
  apply (step_seeds_are_distinct default_params); [vm_compute; discriminate..|exact He].
Defined.
End Witness.
