(* ===== verification/Router.v ===== *)
(** The predictors of the router that count (src/rust-engine/src/router.rs): the
    [LocalityMonitor]'s sliding window of expert ids, the co-occurrence matrix
    [ExpertAffinity] and its per-layer form, the disk neighbours of an expert, and the
    [SpeculationController], whose window follows the SSD stall.

    Indexing a [Vec] out of range panics: an operation that indexes answers [None]
    there.  Each method takes a lock or touches one atomic cell at a time; it is modelled
    as one step. *)
From S2P Require Import Prelude Floats.
Local Open Scope N_scope.

(** ** The locality monitor *)

Record LocalityMonitor := MkMonitor {
  num_experts : N;
  capacity : N;
  window : list N;       (** the deque, oldest first *)
  counts : list N;       (** the heat of every expert *)
  total : N
}.

Definition monitor_new (num_experts window : N) : LocalityMonitor :=
  MkMonitor num_experts (N.max window 1) [] (replicate (N.to_nat num_experts) 0) 0.

Definition monitor_len (m : LocalityMonitor) : N := N.of_nat (length (window m)).

(** Drop the oldest observation of a full window. *)
Definition drop_oldest (m : LocalityMonitor) : option (list N * list N) :=
  if monitor_len m =? capacity m then
    match window m with
    | old :: rest =>
        slot ← counts m !! N.to_nat old;
        Some (rest, <[N.to_nat old := if 0 <? slot then slot - 1 else slot]> (counts m))
    | [] => Some ([], counts m)
    end
  else Some (window m, counts m).

Definition observe_one (id : N) (m : LocalityMonitor) : option LocalityMonitor :=
  if num_experts m <=? id then Some m
  else
    '(w, c) ← drop_oldest m;
    slot ← c !! N.to_nat id;
    Some (MkMonitor (num_experts m) (capacity m) (w ++ [id]) (<[N.to_nat id := sat_add u32_max slot 1]> c)
      (sat_add u64_max (total m) 1)).

Fixpoint observe (ids : list N) (m : LocalityMonitor) : option LocalityMonitor :=
  match ids with
  | [] => Some m
  | id :: ids => m ← observe_one id m; observe ids m
  end.

Definition heat (id : N) (m : LocalityMonitor) : option N :=
  if num_experts m <=? id then Some 0 else counts m !! N.to_nat id.

Definition is_hot (id : N) (threshold_pct : f32) (m : LocalityMonitor) : option bool :=
  if num_experts m <=? id then Some false
  else if monitor_len m =? 0 then Some false
  else
    c ← counts m !! N.to_nat id;
    let count := f32_of_N c in
    let cutoff := f32_mul (f32_max threshold_pct f32_zero) (f32_of_N (monitor_len m)) in
    Some (SFltb f32_zero count && SFleb cutoff count).

(** The order of [sort_by(|a, b| b.1.cmp(&a.1).then_with(|| a.0.cmp(&b.0)))] on pairs of an
    id and a count of 32 bits: the count descending, then the id. *)
Definition heat_key (p : N * N) : N := (u32_max - snd p) * (u32_max + 1) + fst p.

(** The entries of a vector of counts that pass a test, with their index. *)
Definition scored (keep : N -> N -> bool) (c : list N) : list (N * N) :=
  filter (fun p => keep (fst p) (snd p) = true) (imap (fun i x => (N.of_nat i, x)) c).

Definition hot_set (threshold_pct : f32) (m : LocalityMonitor) : list N :=
  if monitor_len m =? 0 then []
  else
    let cutoff := f32_max (f32_mul (f32_max threshold_pct f32_zero) (f32_of_N (monitor_len m))) f32_one in
    (sort_by_key heat_key (scored (fun _ c => SFleb cutoff (f32_of_N c)) (counts m))).*1.

Definition monitor_clear (m : LocalityMonitor) : LocalityMonitor :=
  MkMonitor (num_experts m) (capacity m) [] (replicate (length (counts m)) 0) 0.

(** ** The affinity matrix *)

Record ExpertAffinity := MkAffinity {
  experts_count : N;
  cells : list N;          (** the [N * N] counters, row after row *)
  observations : N
}.

(** Construction asserts that there is an expert. *)
Definition affinity_new (n : N) : option ExpertAffinity :=
  if 0 <? n then Some (MkAffinity n (replicate (N.to_nat (n * n)) 0) 0) else None.

Definition cell (n a b : N) : nat := N.to_nat (a * n + b).

(** [sat_add] on the cell at [i]. *)
Definition bump (i : nat) (c : list N) : option (list N) :=
  x ← c !! i; Some (<[i := if x =? u32_max then x else x + 1]> c).

(** The inner loop of [observe_layer]: [a] with each of the experts behind it. *)
Fixpoint observe_behind (n a : N) (rest : list N) (c : list N) : option (list N) :=
  match rest with
  | [] => Some c
  | b :: rest =>
      if (n <=? b) || (a =? b) then observe_behind n a rest c
      else c ← bump (cell n a b) c; c ← bump (cell n b a) c; observe_behind n a rest c
  end.

Fixpoint observe_pairs (n : N) (experts : list N) (c : list N) : option (list N) :=
  match experts with
  | [] => Some c
  | a :: rest =>
      c ← (if n <=? a then Some c else observe_behind n a rest c);
      observe_pairs n rest c
  end.

Definition observe_layer (experts : list N) (m : ExpertAffinity) : option ExpertAffinity :=
  if (length experts <? 2)%nat then Some m
  else
    c ← observe_pairs (experts_count m) experts (cells m);
    Some (MkAffinity (experts_count m) c (wrap_add u64_max (observations m) 1)).

Definition affinity (a b : N) (m : ExpertAffinity) : option N :=
  if a =? b then Some 0
  else if (experts_count m <=? a) || (experts_count m <=? b) then Some 0
  else cells m !! cell (experts_count m) a b.

(** Row [id] of the matrix; the code indexes [counts[row_start + j]]. *)
Definition row (id : N) (m : ExpertAffinity) : option (list N) :=
  let n := experts_count m in
  if (N.to_nat (id * n + n) <=? length (cells m))%nat
  then Some (take (N.to_nat n) (drop (N.to_nat (id * n)) (cells m))) else None.

Definition neighbors (id : N) (k : nat) (m : ExpertAffinity) : option (list N) :=
  if (experts_count m <=? id) || (k =? 0)%nat then Some []
  else
    r ← row id m;
    Some (take k (sort_by_key heat_key (scored (fun j c => negb (j =? id) && negb (c =? 0)) r))).*1.

Definition affinity_clear (m : ExpertAffinity) : ExpertAffinity :=
  MkAffinity (experts_count m) (replicate (length (cells m)) 0) 0.

(** [cur >> bits]: a release build takes the shift modulo 32. *)
Definition decay (bits : N) (m : ExpertAffinity) : ExpertAffinity :=
  if bits =? 0 then m
  else MkAffinity (experts_count m) ((fun x => N.shiftr x (bits mod 32)) <$> cells m) (observations m).

(** One matrix per layer. *)
Record LayeredExpertAffinity := MkLayered {
  layers : list ExpertAffinity;
  layered_num_experts : N
}.

Definition layered_new (num_layers num_experts : N) : option LayeredExpertAffinity :=
  if (0 <? num_layers) && (0 <? num_experts)
  then a ← affinity_new num_experts; Some (MkLayered (replicate (N.to_nat num_layers) a) num_experts)
  else None.

Definition layered_observe_layer (layer_idx : N) (experts : list N) (m : LayeredExpertAffinity) : option LayeredExpertAffinity :=
  match layers m !! N.to_nat layer_idx with
  | None => Some m
  | Some layer =>
      layer ← observe_layer experts layer;
      Some (MkLayered (<[N.to_nat layer_idx := layer]> (layers m)) (layered_num_experts m))
  end.

Definition layered_neighbors (layer_idx id : N) (k : nat) (m : LayeredExpertAffinity) : option (list N) :=
  match layers m !! N.to_nat layer_idx with Some l => neighbors id k l | None => Some [] end.

Definition layered_affinity (layer_idx a b : N) (m : LayeredExpertAffinity) : option N :=
  match layers m !! N.to_nat layer_idx with Some l => affinity a b l | None => Some 0 end.

Definition layered_decay (bits : N) (m : LayeredExpertAffinity) : LayeredExpertAffinity :=
  MkLayered (decay bits <$> layers m) (layered_num_experts m).

(** The sum wraps in a release build. *)
Definition layered_total_observations (m : LayeredExpertAffinity) : N :=
  foldl (wrap_add u64_max) 0 (observations <$> layers m).

(** One round of the decay worker: [last_seen] is what it saw when it last decayed. *)
Definition decay_round (epoch_threshold bits last_seen : N) (m : LayeredExpertAffinity) : N * LayeredExpertAffinity :=
  let now := layered_total_observations m in
  if epoch_threshold <=? now - last_seen then (now, layered_decay bits m) else (last_seen, m).

(** ** Disk neighbours *)

(** The loop of [spatial_neighbors]: every round that its condition lets through pushes at
    least one id, so [k] rounds of fuel are enough. *)
Fixpoint spatial_loop (fuel k : nat) (n lft rgt : Z) (out : list N) : list N :=
  match fuel with
  | O => out
  | S fuel =>
      if ((length out <? k)%nat && ((0 <=? lft)%Z || (rgt <? n)%Z))%bool then
        let '(lft, out) := if (0 <=? lft)%Z then ((lft - 1)%Z, out ++ [Z.to_N lft]) else (lft, out) in
        if (k <=? length out)%nat then out
        else
          let '(rgt, out) := if (rgt <? n)%Z then ((rgt + 1)%Z, out ++ [Z.to_N rgt]) else (rgt, out) in
          spatial_loop fuel k n lft rgt out
      else out
  end.

Definition spatial_neighbors (id num_experts : N) (k : nat) : list N :=
  if (k =? 0)%nat || (num_experts =? 0) || (num_experts <=? id) then []
  else spatial_loop k k (Z.of_N num_experts) (Z.of_N id - 1) (Z.of_N id + 1) [].

(** ** The speculation controller *)

Definition MAX_LATENCY_BUMP : N := 2.
Definition STALL_RISING_THRESHOLD_US : N := 1000.

Record SpeculationController := MkSpec {
  base_depth : N;
  current_depth : N;
  saved_depth : N;          (** [usize::MAX]: not suspended *)
  last_stall_us : N;
  calm_streak : N
}.

Definition controller_new (base : N) : SpeculationController := MkSpec base base usize_max 0 0.

Definition is_suspended (c : SpeculationController) : bool := negb (saved_depth c =? usize_max).

Definition update_from_stall (cumulative : N) (c : SpeculationController) : N * SpeculationController :=
  if is_suspended c then
    (current_depth c, MkSpec (base_depth c) (current_depth c) (saved_depth c) cumulative (calm_streak c))
  else
    let delta := cumulative - last_stall_us c in
    let depth := current_depth c in
    let max_depth := wrap_add usize_max (base_depth c) MAX_LATENCY_BUMP in
    let '(depth, streak) :=
      if STALL_RISING_THRESHOLD_US <=? delta then (if depth <? max_depth then depth + 1 else depth, 0)
      else if wrap_mul u64_max delta 2 <=? STALL_RISING_THRESHOLD_US then
        let streak := wrap_add u64_max (calm_streak c) 1 in
        if (2 <=? streak) && (base_depth c <? depth) then (depth - 1, 0) else (depth, streak)
      else (depth, calm_streak c) in
    (depth, MkSpec (base_depth c) depth (saved_depth c) cumulative streak).

Definition suspend (c : SpeculationController) : SpeculationController :=
  let saved := if saved_depth c =? usize_max then current_depth c else saved_depth c in
  MkSpec (base_depth c) 0 saved (last_stall_us c) (calm_streak c).

Definition resume (c : SpeculationController) : SpeculationController :=
  let cur := if saved_depth c =? usize_max then current_depth c else saved_depth c in
  MkSpec (base_depth c) cur usize_max (last_stall_us c) (calm_streak c).

(** ** The window of the monitor *)

(** The last [k] elements of a list. *)
Definition lastn {A} (k : nat) (l : list A) : list A := drop (length l - k) l.

Lemma lastn_all {A} k (l : list A) : (length l <= k)%nat -> lastn k l = l.
Proof. intros H. unfold lastn. by replace (length l - k)%nat with 0%nat by lia. Qed.

Lemma lastn_snoc {A} k (l : list A) x : (0 < k)%nat -> lastn k (l ++ [x]) = lastn k (lastn k l ++ [x]).
Proof.
  intros Hk. unfold lastn. rewrite !length_app, length_drop. simpl.
  destruct (Nat.le_gt_cases (length l + 1) k) as [H|H].
  - replace (length l + 1 - k)%nat with 0%nat by lia. replace (length l - k)%nat with 0%nat by lia.
    rewrite !drop_0, Nat.sub_0_r. by replace (length l + 1 - k)%nat with 0%nat by lia.
  - rewrite (drop_app_le l) by lia. rewrite (drop_app_le (drop _ l)) by (rewrite length_drop; lia).
    rewrite drop_drop. do 2 f_equal. lia.
Qed.

(** How often an id occurs in a list. *)
Definition occurrences (id : N) (l : list N) : N := N.of_nat (count_occ N.eq_dec l id).

Lemma occurrences_cons id x l : occurrences id (x :: l) = (if x =? id then 1 else 0) + occurrences id l.
Proof. unfold occurrences. simpl. destruct (N.eq_dec x id), (N.eqb_spec x id); try done; lia. Qed.

Lemma window_occurrences_app id l k : occurrences id (l ++ k) = occurrences id l + occurrences id k.
Proof. unfold occurrences. rewrite count_occ_app. lia. Qed.

Lemma occurrences_le id l : occurrences id l <= N.of_nat (length l).
Proof. unfold occurrences. pose proof (count_occ_bound N.eq_dec id l). lia. Qed.

(** The counts are the occurrences in the window, which is never longer than the
    capacity. *)
Record monitor_ok (n cap : N) (m : LocalityMonitor) : Prop := {
  mo_experts : num_experts m = n;
  mo_capacity : capacity m = cap;
  mo_window : monitor_len m <= cap;
  mo_ids : Forall (fun id => id < n) (window m);
  mo_length : length (counts m) = N.to_nat n;
  mo_counts : forall id, id < n -> counts m !! N.to_nat id = Some (occurrences id (window m))
}.

Lemma monitor_new_ok n w : monitor_ok n (N.max w 1) (monitor_new n w).
Proof.
  split; simpl; try done; [unfold monitor_len; simpl; lia|apply length_replicate|].
  intros id Hid. apply lookup_replicate. split; [done|lia].
Qed.

Lemma drop_oldest_ok n cap m :
  monitor_ok n cap m -> 0 < cap ->
  exists w c, drop_oldest m = Some (w, c) /\ w = lastn (N.to_nat cap - 1) (window m) /\ length c = N.to_nat n /\
    forall id, id < n -> c !! N.to_nat id = Some (occurrences id w).
Proof.
  intros [_ Hcap Hlen Hids Hl Hc] Hpos. unfold drop_oldest, monitor_len in *. rewrite Hcap.
  destruct (N.eqb_spec (N.of_nat (length (window m))) cap) as [E|E].
  - destruct (window m) as [|old rest] eqn:Ew; [simpl in *; lia|].
    apply Forall_cons in Hids as [Hold _]. rewrite (Hc old Hold). cbn. eexists _, _. split_and!; [done| | |].
    + unfold lastn. simpl in *. by replace (S (length rest) - (N.to_nat cap - 1))%nat with 1%nat by lia.
    + by rewrite length_insert.
    + intros id Hid. specialize (Hc id Hid). rewrite occurrences_cons in *. rewrite N.eqb_refl.
      destruct (N.eqb_spec old id) as [->|Hne].
      * rewrite list_lookup_insert_eq by lia. f_equal. destruct (N.ltb_spec 0 (1 + occurrences id rest)); lia.
      * rewrite list_lookup_insert_ne by lia. by rewrite Hc.
  - exists (window m), (counts m). split_and!; try done. symmetry. apply lastn_all. lia.
Qed.

Lemma lastn_pred_snoc {A} k (l : list A) x : (0 < k)%nat -> lastn (k - 1) l ++ [x] = lastn k (l ++ [x]).
Proof.
  intros Hk. unfold lastn. rewrite length_app. simpl. rewrite drop_app_le by lia. do 2 f_equal. lia.
Qed.

Lemma observe_one_ok n cap m id :
  monitor_ok n cap m -> 0 < cap -> cap <= u32_max ->
  exists m', observe_one id m = Some m' /\ monitor_ok n cap m' /\
    window m' = (if id <? n then lastn (N.to_nat cap) (window m ++ [id]) else window m) /\
    total m' = (if id <? n then sat_add u64_max (total m) 1 else total m).
Proof.
  intros Hm Hpos Hmax. unfold observe_one. rewrite (mo_experts _ _ _ Hm).
  destruct (N.ltb_spec id n) as [Hid|Hid]; [|rewrite (proj2 (N.leb_le n id)) by lia; by exists m].
  rewrite (proj2 (N.leb_gt n id)) by lia.
  destruct (drop_oldest_ok n cap m Hm Hpos) as (w & c & -> & Hw & Hl & Hc). cbn. rewrite (Hc id Hid). cbn.
  eexists. split; [done|].
  assert (Hwin : w ++ [id] = lastn (N.to_nat cap) (window m ++ [id])).
  { rewrite Hw. apply lastn_pred_snoc. lia. }
  assert (Hlw : (length w < N.to_nat cap)%nat).
  { rewrite Hw. unfold lastn. rewrite length_drop. lia. }
  split; [|by rewrite Hwin]. split; simpl; try done; try apply Hm.
  - unfold monitor_len. simpl. rewrite length_app. simpl. lia.
  - apply Forall_app. split; [|by constructor]. rewrite Hw. apply Forall_drop. apply Hm.
  - by rewrite length_insert.
  - intros id' Hid'. rewrite window_occurrences_app, occurrences_cons. unfold occurrences at 3. simpl count_occ.
    destruct (N.eqb_spec id id') as [<-|Hne].
    + rewrite list_lookup_insert_eq by lia. f_equal. unfold sat_add. pose proof (occurrences_le id w). lia.
    + rewrite list_lookup_insert_ne, Hc by lia. f_equal. lia.
Qed.

Lemma observe_app l k m : observe (l ++ k) m = observe l m ≫= observe k.
Proof. revert m. induction l as [|x l IH]; intros m; [done|]. simpl. by destruct (observe_one x m); simpl. Qed.

(** The locality monitor, after any sequence of observed ids, holds the last [window]
    ids that are in range, in order, and the heat of every expert is the number of its
    occurrences among them; no id is out of range and no count saturates. *)
Theorem monitor_counts_the_window (n w : N) (l : list N) :
  w <= u32_max ->
  exists m, observe l (monitor_new n w) = Some m /\
    window m = lastn (N.to_nat (N.max w 1)) (filter (fun id => id < n) l) /\
    (forall id, heat id m = Some (occurrences id (window m))) /\
    total m = N.min u64_max (N.of_nat (length (filter (fun id => id < n) l))).
Proof.
  intros Hw. set (cap := N.max w 1).
  enough (H : exists m, observe l (monitor_new n w) = Some m /\ monitor_ok n cap m /\
    window m = lastn (N.to_nat cap) (filter (fun id => id < n) l) /\
    total m = N.min u64_max (N.of_nat (length (filter (fun id => id < n) l)))).
  { destruct H as (m & Ho & Hm & Hwin & Ht). exists m. split_and!; try done. intros id. unfold heat.
    rewrite (mo_experts _ _ _ Hm). destruct (N.leb_spec n id) as [Hid|Hid]; [|by apply Hm].
    f_equal. symmetry. unfold occurrences. rewrite (proj1 (count_occ_not_In N.eq_dec _ _)); [done|].
    intros Hin%list_elem_of_In. pose proof (mo_ids _ _ _ Hm) as Hids. rewrite Forall_forall in Hids.
    specialize (Hids id Hin). lia. }
  induction l as [|id l IH] using rev_ind.
  - exists (monitor_new n w). split_and!; [done|apply monitor_new_ok|done|done].
  - destruct IH as (m & Ho & Hm & Hwin & Ht).
    destruct (observe_one_ok n cap m id Hm) as (m' & Ho' & Hm' & Hwin' & Ht'); [unfold cap; lia|unfold cap, u32_max in *; lia|].
    exists m'. split_and!; [|done| |].
    + by rewrite observe_app, Ho; simpl; rewrite Ho'.
    + rewrite filter_app, Hwin', Hwin. destruct (N.ltb_spec id n).
      * rewrite filter_cons_True, filter_nil by done. rewrite <-lastn_snoc by (unfold cap; lia). done.
      * rewrite filter_cons_False, filter_nil, app_nil_r by lia. done.
    + rewrite filter_app, length_app, Ht', Ht. destruct (N.ltb_spec id n).
      * rewrite filter_cons_True, filter_nil by done. unfold sat_add. simpl. lia.
      * rewrite filter_cons_False, filter_nil by lia. simpl. f_equal. lia.
Qed.

(** ** The affinity matrix *)

Lemma cell_lt n a b : a < n -> b < n -> (cell n a b < N.to_nat (n * n))%nat.
Proof. unfold cell. intros. assert (a * n + b < n * n) by nia. lia. Qed.

Lemma cell_inj n a b x y : b < n -> y < n -> cell n a b = cell n x y <-> a = x /\ b = y.
Proof.
  intros Hb Hy. unfold cell. split; [|by intros [-> ->]]. intros E%N2Nat.inj.
  apply (N.div_mod_unique n); [done|done|lia].
Qed.

Lemma cell_eqb n a b x y : b < n -> y < n -> bool_decide (cell n a b = cell n x y) = (a =? x) && (b =? y).
Proof.
  intros Hb Hy. apply eq_true_iff_eq. rewrite bool_decide_eq_true, cell_inj by done.
  by rewrite andb_true_iff, !N.eqb_eq.
Qed.

(** A table of [n * n] counters of 32 bits, read as a function of two ids. *)
Record table (n : N) (c : list N) (f : N -> N -> N) : Prop := {
  t_length : length c = N.to_nat (n * n);
  t_get : forall x y, x < n -> y < n -> c !! cell n x y = Some (f x y);
  t_max : forall x y, f x y <= u32_max
}.

(** What the counter at [(a, b)] is after a bump. *)
Definition plus_at (a b : N) (f : N -> N -> N) (x y : N) : N :=
  N.min u32_max (f x y + (if (a =? x) && (b =? y) then 1 else 0)).

Lemma bump_ok n c f a b :
  table n c f -> a < n -> b < n -> exists c', bump (cell n a b) c = Some c' /\ table n c' (plus_at a b f).
Proof.
  intros [Hl Hg Hm] Ha Hb. unfold bump. rewrite Hg by done. cbn. eexists. split; [done|]. split.
  - by rewrite length_insert.
  - intros x y Hx Hy. unfold plus_at. pose proof (Hm x y). pose proof (cell_eqb n a b x y Hb Hy) as E.
    destruct ((a =? x) && (b =? y)) eqn:Exy.
    + apply andb_prop in Exy as [->%N.eqb_eq ->%N.eqb_eq].
      rewrite list_lookup_insert_eq by (rewrite Hl; by apply cell_lt).
      f_equal. destruct (N.eqb_spec (f x y) u32_max); lia.
    + apply bool_decide_eq_false in E. rewrite list_lookup_insert_ne by done. rewrite Hg by done. f_equal. lia.
  - intros x y. unfold plus_at. lia.
Qed.

(** How often [a] with a later expert of [rest] makes the pair of [x] and [y]. *)
Definition behind (a : N) (rest : list N) (x y : N) : N :=
  (if a =? x then occurrences y rest else 0) + (if a =? y then occurrences x rest else 0).

(** The pairs of positions of [experts] whose experts are [x] and [y], in either order. *)
Fixpoint co_fired (experts : list N) (x y : N) : N :=
  match experts with
  | [] => 0
  | a :: rest => behind a rest x y + co_fired rest x y
  end.

(** [f] with the counters of the pairs [p] counts added, up to the maximum. *)
Definition plus (p : N -> N -> N) (f : N -> N -> N) (x y : N) : N := N.min u32_max (f x y + p x y).

(** A table off its diagonal. *)
Definition off_diagonal (n : N) (c : list N) (f : N -> N -> N) : Prop :=
  table n c (fun x y => if x =? y then 0 else f x y).

Lemma table_ext n c f g :
  table n c f -> (forall x y, x < n -> y < n -> f x y = g x y) -> (forall x y, g x y <= u32_max) -> table n c g.
Proof. intros [Hl Hg Hm] H Hmg. split; [done| |done]. intros x y Hx Hy. by rewrite Hg, H. Qed.

Lemma observe_behind_ok n a rest c f :
  off_diagonal n c f -> a < n ->
  exists c', observe_behind n a rest c = Some c' /\ off_diagonal n c' (plus (behind a rest) f).
Proof.
  revert c f. induction rest as [|b rest IH]; intros c f Hc Ha; cbn [observe_behind].
  - eexists. split; [done|]. eapply table_ext; [exact Hc| |].
    + intros x y _ _. cbv beta; destruct (N.eqb_spec x y) as [|Hne]; [done|]. pose proof (t_max _ _ _ Hc x y) as Hm. simpl in Hm.
      rewrite (proj2 (N.eqb_neq x y)) in Hm by done. unfold plus, behind, occurrences. simpl.
      destruct (a =? x), (a =? y); lia.
    + intros x y. destruct (x =? y); unfold plus; lia.
  - destruct ((n <=? b) || (a =? b)) eqn:E.
    + destruct (IH c f Hc Ha) as (c' & Ho & Hc'). exists c'. split; [done|].
      eapply table_ext; [exact Hc'| |intros x y; cbv beta; destruct (x =? y); unfold plus; lia].
      intros x y Hx Hy. cbv beta; destruct (N.eqb_spec x y); [done|]. unfold plus, behind. rewrite !occurrences_cons.
      apply orb_true_iff in E as [E%N.leb_le|E%N.eqb_eq]; case_N; subst; try lia; f_equal; lia.
    + apply orb_false_iff in E as [E1%N.leb_gt E2%N.eqb_neq].
      destruct (bump_ok n c _ a b Hc Ha E1) as (c1 & -> & Hc1). cbn.
      destruct (bump_ok n c1 _ b a Hc1 E1 Ha) as (c2 & -> & Hc2). cbn.
      destruct (IH c2 (plus (fun x y => (if (a =? x) && (b =? y) then 1 else 0) + (if (b =? x) && (a =? y) then 1 else 0)) f))
        as (c' & Ho & Hc'); [|done|].
      { eapply table_ext; [exact Hc2| |intros x y; cbv beta; destruct (x =? y); unfold plus; lia].
        intros x y Hx Hy. unfold plus_at, plus. cbv beta; destruct (N.eqb_spec x y); case_N; subst; simpl; try lia; congruence. }
      exists c'. split; [done|].
      eapply table_ext; [exact Hc'| |intros x y; cbv beta; destruct (x =? y); unfold plus; lia].
      intros x y Hx Hy. cbv beta; destruct (N.eqb_spec x y); [done|]. unfold plus, behind. rewrite !occurrences_cons.
      case_N; subst; simpl; try lia; congruence.
Qed.

Lemma observe_pairs_ok n experts c f :
  off_diagonal n c f ->
  exists c', observe_pairs n experts c = Some c' /\ off_diagonal n c' (plus (co_fired experts) f).
Proof.
  revert c f. induction experts as [|a rest IH]; intros c f Hc; cbn [observe_pairs].
  - eexists. split; [done|]. eapply table_ext; [exact Hc| |intros x y; cbv beta; destruct (x =? y); unfold plus; lia].
    intros x y _ _. cbv beta; destruct (N.eqb_spec x y) as [|Hne]; [done|]. pose proof (t_max _ _ _ Hc x y) as Hm. simpl in Hm.
    rewrite (proj2 (N.eqb_neq x y)) in Hm by done. unfold plus. simpl. lia.
  - destruct (N.leb_spec n a) as [Ha|Ha]; cbn.
    + destruct (IH c f Hc) as (c' & Ho & Hc'). exists c'. split; [done|].
      eapply table_ext; [exact Hc'| |intros x y; cbv beta; destruct (x =? y); unfold plus; lia].
      intros x y Hx Hy. cbv beta; destruct (N.eqb_spec x y); [done|]. unfold plus, behind. simpl. unfold behind. case_N; lia.
    + destruct (observe_behind_ok n a rest c f Hc Ha) as (c1 & -> & Hc1). cbn.
      destruct (IH c1 _ Hc1) as (c' & Ho & Hc'). exists c'. split; [done|].
      eapply table_ext; [exact Hc'| |intros x y; cbv beta; destruct (x =? y); unfold plus; lia].
      intros x y Hx Hy. cbv beta; destruct (N.eqb_spec x y); [done|]. unfold plus. simpl. lia.
Qed.

(** The operations on a matrix. *)
Inductive affinity_op := Observe (experts : list N) | Decay (bits : N) | Clear.

Definition affinity_step (o : affinity_op) (m : ExpertAffinity) : option ExpertAffinity :=
  match o with
  | Observe experts => observe_layer experts m
  | Decay bits => Some (decay bits m)
  | Clear => Some (affinity_clear m)
  end.

Fixpoint affinity_run (os : list affinity_op) (m : ExpertAffinity) : option ExpertAffinity :=
  match os with
  | [] => Some m
  | o :: os => m ← affinity_step o m; affinity_run os m
  end.

(** What the operations make of the counter of the pair of [x] and [y]. *)
Definition pair_step (x y v : N) (o : affinity_op) : N :=
  match o with
  | Observe experts => N.min u32_max (v + co_fired experts x y)
  | Decay bits => if bits =? 0 then v else N.shiftr v (bits mod 32)
  | Clear => 0
  end.

Definition pair_count (os : list affinity_op) (x y : N) : N := foldl (pair_step x y) 0 os.

Lemma shiftr_le v k : N.shiftr v k <= v.
Proof. rewrite N.shiftr_div_pow2. apply N.Div0.div_le_upper_bound. pose proof (N.pow_nonzero 2 k). nia. Qed.

Lemma affinity_step_ok n o m f :
  experts_count m = n -> off_diagonal n (cells m) f ->
  exists m', affinity_step o m = Some m' /\ experts_count m' = n /\
    off_diagonal n (cells m') (fun x y => pair_step x y (f x y) o).
Proof.
  intros Hn Hc. destruct o as [experts|bits|]; cbn [affinity_step].
  - unfold observe_layer. rewrite Hn. destruct (Nat.ltb_spec (length experts) 2) as [Hl|Hl].
    + exists m. split_and!; [done..|]. eapply table_ext; [exact Hc| |intros x y; cbv beta; destruct (x =? y); simpl; lia].
      intros x y _ _. cbv beta. destruct (N.eqb_spec x y) as [|Hne]; [done|]. pose proof (t_max _ _ _ Hc x y) as Hm. simpl in Hm.
      rewrite (proj2 (N.eqb_neq x y)) in Hm by done.
      destruct experts as [|a [|b experts]]; simpl in *; try lia. unfold behind, occurrences. simpl. destruct (a =? x), (a =? y); lia.
    + destruct (observe_pairs_ok n experts (cells m) f Hc) as (c & -> & Hc'). cbn. eexists. by split_and!.
  - unfold decay. destruct (N.eqb_spec bits 0) as [Hb|Hb].
    + exists m. split_and!; [done..|]. eapply table_ext; [exact Hc| |]; cbv beta; simpl; rewrite Hb; [done|apply Hc].
    + eexists. split_and!; [done..|]. destruct Hc as [Hl Hg Hm]. split; simpl.
      * by rewrite length_fmap.
      * intros x y Hx Hy. rewrite list_lookup_fmap, Hg by done. simpl. f_equal. rewrite (proj2 (N.eqb_neq bits 0)) by done.
        destruct (x =? y); [apply N.shiftr_0_l|done].
      * intros x y. specialize (Hm x y). simpl in Hm. rewrite (proj2 (N.eqb_neq bits 0)) by done.
        destruct (x =? y); [done|]. pose proof (shiftr_le (f x y) (bits mod 32)). lia.
  - eexists. split_and!; [done..|]. destruct Hc as [Hl Hg Hm]. split; simpl.
    + by rewrite length_replicate.
    + intros x y Hx Hy. rewrite Hl. destruct (x =? y); apply lookup_replicate; (split; [done|by apply cell_lt]).
    + intros x y. destruct (x =? y); lia.
Qed.

Lemma affinity_run_ok n os m f :
  experts_count m = n -> off_diagonal n (cells m) f ->
  exists m', affinity_run os m = Some m' /\ experts_count m' = n /\
    off_diagonal n (cells m') (fun x y => foldl (pair_step x y) (f x y) os).
Proof.
  revert m f. induction os as [|o os IH]; intros m f Hn Hc; [by exists m|]. cbn [affinity_run].
  destruct (affinity_step_ok n o m f Hn Hc) as (m1 & -> & Hn1 & Hc1). cbn. by apply (IH m1 _ Hn1 Hc1).
Qed.

Lemma affinity_new_ok n : 0 < n ->
  exists m, affinity_new n = Some m /\ experts_count m = n /\ off_diagonal n (cells m) (fun _ _ => 0).
Proof.
  intros Hn. unfold affinity_new. rewrite (proj2 (N.ltb_lt 0 n)) by done. eexists. split_and!; [done..|]. split; simpl.
  - apply length_replicate.
  - intros x y Hx Hy. destruct (x =? y); apply lookup_replicate; (split; [done|by apply cell_lt]).
  - intros x y. destruct (x =? y); lia.
Qed.

Lemma co_fired_comm experts x y : co_fired experts x y = co_fired experts y x.
Proof. induction experts as [|a rest IH]; [done|]. simpl. rewrite IH. unfold behind. lia. Qed.

Lemma pair_count_comm os x y : pair_count os x y = pair_count os y x.
Proof.
  unfold pair_count. generalize 0. induction os as [|o os IH]; intros v; [done|]. simpl. rewrite IH. f_equal.
  destruct o; simpl; try done. by rewrite co_fired_comm.
Qed.

Lemma occurrences_nodup x l : NoDup l -> occurrences x l = if bool_decide (x ∈ l) then 1 else 0.
Proof.
  induction 1 as [|a l Ha Hl IH]; [done|]. rewrite occurrences_cons, IH.
  repeat case_bool_decide; destruct (N.eqb_spec a x); set_solver by lia.
Qed.

(** Experts that are distinct, as the selection of a token is, fire each of their pairs
    once. *)
Lemma co_fired_nodup experts x y :
  NoDup experts -> x <> y -> co_fired experts x y = if bool_decide (x ∈ experts /\ y ∈ experts) then 1 else 0.
Proof.
  intros Hd Hxy. induction Hd as [|a l Ha Hl IH]; [done|]. simpl. rewrite IH. unfold behind.
  rewrite !occurrences_nodup by done. destruct (N.eqb_spec a x), (N.eqb_spec a y); subst; try done;
    repeat case_bool_decide; try lia; exfalso; set_solver.
Qed.

Lemma affinity_read n m f a b :
  experts_count m = n -> off_diagonal n (cells m) f ->
  affinity a b m = Some (if (a =? b) || (n <=? a) || (n <=? b) then 0 else f a b).
Proof.
  intros Hn [Hl Hg Hm]. unfold affinity. rewrite Hn. destruct (N.eqb_spec a b); [done|]. simpl.
  destruct (N.leb_spec n a); [done|]. destruct (N.leb_spec n b); [done|]. simpl.
  rewrite Hg by done. by rewrite (proj2 (N.eqb_neq a b)).
Qed.

(** The affinity matrix never indexes out of range, whatever layers are observed, decayed
    or cleared, and the affinity of two distinct experts in range is the number of position
    pairs in which they fired together, saturated at 32 bits and shifted by every decay; it is
    symmetric, and 0 on the diagonal and out of range.  A layer of distinct experts counts
    once for every pair of them. *)
Theorem affinity_counts_pairs (n : N) (os : list affinity_op) (m0 : ExpertAffinity) :
  affinity_new n = Some m0 ->
  exists m, affinity_run os m0 = Some m /\
    (forall a b, affinity a b m = Some (if (a =? b) || (n <=? a) || (n <=? b) then 0 else pair_count os a b)) /\
    (forall a b, affinity a b m = affinity b a m) /\
    (forall experts a b, NoDup experts -> a <> b -> a ∈ experts -> b ∈ experts -> co_fired experts a b = 1).
Proof.
  intros H0. assert (Hn : 0 < n) by (unfold affinity_new in H0; by destruct (N.ltb_spec 0 n)).
  destruct (affinity_new_ok n Hn) as (m1 & E & Hn1 & Hc1). simplify_eq.
  destruct (affinity_run_ok _ os m1 _ eq_refl Hc1) as (m & Hr & Hm & Hc). exists m. split_and!; [done| | |].
  - intros a b. by apply affinity_read.
  - intros a b. rewrite !(affinity_read _ m _ _ _ Hm Hc). f_equal. rewrite (N.eqb_sym b a).
    change (foldl (pair_step ?x ?y) 0 os) with (pair_count os x y).
    destruct (N.leb_spec (experts_count m1) a), (N.leb_spec (experts_count m1) b); rewrite ?orb_true_r; try done.
    destruct (a =? b); [done|]. apply pair_count_comm.
  - intros experts a b Hd Hab Ha Hb. rewrite co_fired_nodup, bool_decide_true by done. done.
Qed.

(** ** Ranked lists *)

Lemma elem_of_scored keep c p :
  p ∈ scored keep c <-> c !! N.to_nat (fst p) = Some (snd p) /\ keep (fst p) (snd p) = true.
Proof.
  unfold scored. rewrite list_elem_of_filter, elem_of_lookup_imap. split.
  - intros (Hk & i & y & -> & Hi). simpl in *. by rewrite Nat2N.id.
  - intros [Hc Hk]. split; [done|]. exists (N.to_nat (fst p)), (snd p). rewrite N2Nat.id. by destruct p.
Qed.

Lemma imap_ids (c : list N) k : (imap (fun i x => (N.of_nat (k + i), x)) c).*1 = N.of_nat <$> seq k (length c).
Proof.
  revert k. induction c as [|x c IH]; intros k; [done|]. simpl. rewrite Nat.add_0_r. f_equal.
  rewrite <-IH. f_equal. apply imap_ext. intros i y _. simpl. by rewrite Nat.add_succ_r.
Qed.

Lemma NoDup_scored keep c : NoDup (scored keep c).*1.
Proof.
  unfold scored. eapply sublist_NoDup; [|apply fmap_sublist, sublist_filter].
  change (NoDup (imap (fun i x => (N.of_nat (0 + i), x)) c).*1). rewrite imap_ids.
  apply NoDup_fmap_2; [apply _|apply NoDup_seq].
Qed.

(** The order of the ranking: more often first, then the smaller id. *)
Definition before (p q : N * N) : Prop := snd q < snd p \/ snd p = snd q /\ fst p < fst q.

Lemma heat_key_before p q :
  fst p <= u32_max -> fst q <= u32_max -> snd p <= u32_max -> snd q <= u32_max ->
  fst p <> fst q -> key_le heat_key p q -> before p q.
Proof. unfold key_le, heat_key, before, u32_max. destruct p as [i c], q as [j d]. simpl. intros. nia. Qed.

(** The first [k] of a ranking. *)
Lemma ranked_take k keep c :
  N.of_nat (length c) <= u32_max -> Forall (fun x => x <= u32_max) c ->
  let l := take k (sort_by_key heat_key (scored keep c)) in
  NoDup l.*1 /\ (length l <= k)%nat /\ StronglySorted before l /\
  (forall p, p ∈ l -> p ∈ scored keep c) /\
  (forall p, p ∈ scored keep c -> p ∉ l -> length l = k /\ forall q, q ∈ l -> before q p).
Proof.
  intros Hn Hc l. set (s := sort_by_key heat_key (scored keep c)) in *.
  assert (Hp : s ≡ₚ scored keep c) by apply sort_by_key_perm.
  assert (Hd : NoDup s.*1) by (rewrite Hp; apply NoDup_scored).
  assert (Hb : forall p, p ∈ s -> fst p <= u32_max /\ snd p <= u32_max).
  { intros p. rewrite Hp, elem_of_scored. intros [Hl _]. split; [apply lookup_lt_Some in Hl; lia|].
    by eapply (Forall_lookup_1 (fun x => x <= u32_max)) in Hl. }
  assert (Hs : StronglySorted before s).
  { pose proof (sort_by_key_sorted heat_key (scored keep c)) as Hs. fold s in Hs. clearbody s. clear l Hp.
    induction Hs as [|p s Hs IH Hf]; [constructor|]. apply NoDup_cons in Hd as [Hd1 Hd2].
    constructor; [apply IH; [done|]; intros; apply Hb; by constructor|].
    rewrite Forall_forall in *. intros q Hq. apply heat_key_before; try (apply Hb; by constructor); auto.
    intros E. apply Hd1. rewrite E. by apply list_elem_of_fmap_2. }
  rewrite <-(take_drop k s) in Hs, Hd. fold l in Hs, Hd. apply StronglySorted_app in Hs as (Hx & Hs1 & _).
  rewrite fmap_app in Hd. apply NoDup_app in Hd as (Hd & _ & _). split_and!; [done|subst l; rewrite length_take; lia|done| |].
  - intros p Hin. rewrite <-Hp, <-(take_drop k s). apply elem_of_app. by left.
  - intros p Hin Hnot. rewrite <-Hp, <-(take_drop k s) in Hin. apply elem_of_app in Hin as [|Hin]; [done|].
    split; [|intros q Hq; by apply Hx].
    subst l. rewrite length_take. apply Nat.min_l. destruct (Nat.le_gt_cases k (length s)); [done|].
    rewrite drop_ge in Hin by lia. set_solver.
Qed.

Lemma neighbors_ok n m f id k :
  experts_count m = n -> off_diagonal n (cells m) f -> n <= u32_max -> id < n ->
  exists l, neighbors id k m = Some l.*1 /\ NoDup l.*1 /\ (length l <= k)%nat /\ StronglySorted before l /\
    (forall j c, (j, c) ∈ l -> j <> id /\ j < n /\ c = f id j /\ 0 < c) /\
    (forall j, j <> id -> j < n -> 0 < f id j -> (j, f id j) ∉ l -> length l = k /\ forall q, q ∈ l -> before q (j, f id j)).
Proof.
  intros Hn [Hl Hg Hm] Hmax Hid. unfold neighbors. rewrite Hn. rewrite (proj2 (N.leb_gt n id)) by done.
  destruct (Nat.eqb_spec k 0) as [->|Hk]; cbn [orb].
  { exists []. split_and!; try done; [constructor|constructor|set_solver|set_solver]. }
  assert (Hrow : (N.to_nat (id * n + n) <= length (cells m))%nat) by (rewrite Hl; nia).
  unfold row. rewrite Hn, (proj2 (Nat.leb_le _ _) Hrow). cbn [mbind option_bind].
  set (r := take (N.to_nat n) (drop (N.to_nat (id * n)) (cells m))).
  assert (Hr : forall j, j < n -> r !! N.to_nat j = Some (if id =? j then 0 else f id j)).
  { intros j Hj. unfold r. rewrite lookup_take_lt, lookup_drop by lia. rewrite <-(Hg id j Hid Hj). f_equal. unfold cell. lia. }
  assert (Hlr : length r = N.to_nat n) by (unfold r; rewrite length_take, length_drop; lia).
  set (keep := fun j c : N => negb (j =? id) && negb (c =? 0)).
  assert (Hin : forall j c, (j, c) ∈ scored keep r <-> j <> id /\ j < n /\ c = f id j /\ 0 < c).
  { intros j c. rewrite elem_of_scored. simpl. unfold keep. rewrite andb_true_iff, !negb_true_iff, !N.eqb_neq. split.
    - intros (Hc & Hj & H0). assert (Hjn : j < n) by (apply lookup_lt_Some in Hc; lia).
      rewrite Hr in Hc by done. rewrite (proj2 (N.eqb_neq id j)) in Hc by done. simplify_eq. split_and!; try done. lia.
    - intros (Hj & Hjn & -> & H0). rewrite Hr by done. rewrite (proj2 (N.eqb_neq id j)) by done. split_and!; try done. lia. }
  destruct (ranked_take k keep r) as (Hd & Hlen & Hs & Hsub & Hrest).
  - rewrite Hlr. lia.
  - apply Forall_lookup_2. intros i c Hc. assert (Hi : N.of_nat i < n) by (apply lookup_lt_Some in Hc; lia).
    rewrite <-(Nat2N.id i), Hr in Hc by done. injection Hc as <-. apply (Hm id (N.of_nat i)).
  - eexists. split; [done|]. split_and!; try done.
    + intros j c H. by apply Hin, Hsub.
    + intros j Hj Hjn H0 Hnot. apply Hrest; [|done]. by apply Hin.
Qed.

(** The neighbours of an expert are its [k] strongest partners: distinct experts in range
    that fired with it, ranked by how often, ties by id, and every partner left out ranks
    behind all of a full list. *)
Theorem neighbors_are_the_strongest (n : N) (os : list affinity_op) (m0 m : ExpertAffinity) (id : N) (k : nat) :
  affinity_new n = Some m0 -> affinity_run os m0 = Some m -> n <= u32_max -> id < n ->
  exists l, neighbors id k m = Some l.*1 /\ NoDup l.*1 /\ (length l <= k)%nat /\ StronglySorted before l /\
    (forall j c, (j, c) ∈ l -> j <> id /\ j < n /\ c = pair_count os id j /\ 0 < c) /\
    (forall j, j <> id -> j < n -> 0 < pair_count os id j -> (j, pair_count os id j) ∉ l ->
       length l = k /\ forall q, q ∈ l -> before q (j, pair_count os id j)).
Proof.
  intros H0 Hr Hmax Hid. destruct (affinity_new_ok n) as (m1 & E & Hn1 & Hc1); [lia|]. simplify_eq.
  destruct (affinity_run_ok _ os m1 _ eq_refl Hc1) as (m' & Hr' & Hm & Hc). simplify_eq.
  by apply (neighbors_ok (experts_count m1) m (pair_count os)).
Qed.

(** ** Disk neighbours *)

(** The distance on disk, a left neighbour before the right one at the same distance. *)
Definition disk_key (id j : N) : N := if j <? id then 2 * (id - j) else 2 * (j - id) + 1.

(** The experts not yet pushed. *)
Definition unvisited (n : N) (lft rgt : Z) : list N :=
  filter (fun j => Z.of_N j <= lft \/ rgt <= Z.of_N j)%Z (rangeN n).

Lemma elem_of_unvisited n lft rgt j : j ∈ unvisited n lft rgt <-> (Z.of_N j <= lft \/ rgt <= Z.of_N j)%Z /\ j < n.
Proof. unfold unvisited. by rewrite list_elem_of_filter, elem_of_rangeN. Qed.

Lemma NoDup_unvisited n lft rgt : NoDup (unvisited n lft rgt).
Proof. apply NoDup_filter, NoDup_rangeN. Qed.

Lemma sort_unique {A} (key : A -> N) (l k : list A) :
  (forall x y, key x = key y -> x = y) -> StronglySorted (key_le key) k -> l ≡ₚ k -> sort_by_key key l = k.
Proof.
  intros Hinj Hk Hp. assert (AntiSymm eq (key_le key)).
  { intros x y. unfold key_le. intros. apply Hinj. lia. }
  apply (StronglySorted_unique (key_le key)); [apply sort_by_key_sorted|done|]. by rewrite sort_by_key_perm.
Qed.

Lemma disk_key_inj id x y : disk_key id x = disk_key id y -> x = y.
Proof. unfold disk_key. case_N; lia. Qed.

(** The nearest unvisited expert comes first. *)
Lemma visit_nearest id n lft rgt lft' rgt' x :
  x ∈ unvisited n lft rgt ->
  (forall j, j ∈ unvisited n lft' rgt' <-> j ∈ unvisited n lft rgt /\ j <> x) ->
  (forall j, j ∈ unvisited n lft rgt -> disk_key id x <= disk_key id j) ->
  sort_by_key (disk_key id) (unvisited n lft rgt) = x :: sort_by_key (disk_key id) (unvisited n lft' rgt').
Proof.
  intros Hx Hset Hmin. apply sort_unique; [apply disk_key_inj| |].
  - constructor; [apply sort_by_key_sorted|]. apply Forall_forall. intros j. rewrite sort_by_key_perm, Hset. intros [Hj _]. by apply Hmin.
  - rewrite sort_by_key_perm. apply NoDup_Permutation; [apply NoDup_unvisited| |].
    + apply NoDup_cons. split; [rewrite Hset; tauto|apply NoDup_unvisited].
    + intros j. rewrite elem_of_cons, Hset. destruct (decide (j = x)) as [->|]; tauto.
Qed.

Lemma take_app_snoc {A} k (l : list A) x l' : k = (length l + 1)%nat -> take k (l ++ x :: l') = l ++ [x].
Proof.
  intros ->. rewrite take_app_ge by lia. by replace (length l + 1 - length l)%nat with 1%nat by lia.
Qed.

Lemma spatial_loop_ok id n k fuel : forall lft rgt out all,
  all = out ++ sort_by_key (disk_key id) (unvisited n lft rgt) ->
  (-1 <= lft < Z.of_N id /\ Z.of_N id < rgt)%Z -> id < n ->
  (0 <= lft -> rgt < Z.of_N n -> rgt - Z.of_N id = Z.of_N id - lft)%Z ->
  (length out <= k)%nat -> (k <= length out + fuel)%nat ->
  spatial_loop fuel k (Z.of_N n) lft rgt out = take k all.
Proof.
  induction fuel as [|fuel IH]; intros lft rgt out all -> Hb Hid Hbal Hk Hf; cbn [spatial_loop].
  { rewrite take_app_ge by lia. replace (k - length out)%nat with 0%nat by lia. by rewrite take_0, app_nil_r. }
  destruct (Nat.ltb_spec (length out) k) as [Hlt|Hge]; cbn [andb].
  2:{ rewrite take_app_ge by lia. replace (k - length out)%nat with 0%nat by lia. by rewrite take_0, app_nil_r. }
  destruct (Z.leb_spec 0 lft) as [Hl|Hl], (Z.ltb_spec rgt (Z.of_N n)) as [Hr|Hr]; cbn [orb].
  - rewrite (visit_nearest id n lft rgt (lft - 1) rgt (Z.to_N lft)).
    2:{ apply elem_of_unvisited. lia. }
    2:{ intros j. rewrite !elem_of_unvisited. lia. }
    2:{ intros j. rewrite elem_of_unvisited. unfold disk_key. case_N; lia. }
    destruct (Nat.leb_spec k (length (out ++ [Z.to_N lft]))) as [Hk'|Hk']; rewrite length_app in Hk'; simpl in Hk'.
    { symmetry. apply take_app_snoc. lia. }
    rewrite (visit_nearest id n (lft - 1) rgt (lft - 1) (rgt + 1) (Z.to_N rgt)).
    2:{ apply elem_of_unvisited. lia. }
    2:{ intros j. rewrite !elem_of_unvisited. lia. }
    2:{ intros j. rewrite elem_of_unvisited. unfold disk_key. case_N; lia. }
    apply IH; rewrite ?length_app; simpl; try lia. by rewrite <-!app_assoc.
  - rewrite (visit_nearest id n lft rgt (lft - 1) rgt (Z.to_N lft)).
    2:{ apply elem_of_unvisited. lia. }
    2:{ intros j. rewrite !elem_of_unvisited. lia. }
    2:{ intros j. rewrite elem_of_unvisited. unfold disk_key. case_N; lia. }
    destruct (Nat.leb_spec k (length (out ++ [Z.to_N lft]))) as [Hk'|Hk']; rewrite length_app in Hk'; simpl in Hk'.
    { symmetry. apply take_app_snoc. lia. }
    apply IH; rewrite ?length_app; simpl; try lia. by rewrite <-!app_assoc.
  - rewrite (proj2 (Nat.leb_gt k (length out))) by lia.
    rewrite (visit_nearest id n lft rgt lft (rgt + 1) (Z.to_N rgt)).
    2:{ apply elem_of_unvisited. lia. }
    2:{ intros j. rewrite !elem_of_unvisited. lia. }
    2:{ intros j. rewrite elem_of_unvisited. unfold disk_key. case_N; lia. }
    apply IH; rewrite ?length_app; simpl; try lia. by rewrite <-!app_assoc.
  - assert (unvisited n lft rgt = []) as ->.
    { destruct (unvisited n lft rgt) as [|j l] eqn:E; [done|]. assert (Hj : j ∈ unvisited n lft rgt) by (rewrite E; constructor).
      apply elem_of_unvisited in Hj. lia. }
    cbn. rewrite app_nil_r, take_ge by lia. done.
Qed.

(** The disk neighbours of an expert are the [k] experts nearest to it on disk, in the order
    of their distance, the left one first: the loop computes the sort it stands for. *)
Theorem spatial_neighbors_are_nearest (id n : N) (k : nat) :
  spatial_neighbors id n k =
  if id <? n then take k (sort_by_key (disk_key id) (filter (fun j => j <> id) (rangeN n))) else [].
Proof.
  unfold spatial_neighbors. destruct (N.ltb_spec id n) as [Hid|Hid].
  - rewrite (proj2 (N.leb_gt n id)), (proj2 (N.eqb_neq n 0)), !orb_false_r by lia.
    destruct (Nat.eqb_spec k 0) as [->|Hk]; [done|].
    apply (spatial_loop_ok id); simpl; try lia.
    apply sort_unique; [apply disk_key_inj|apply sort_by_key_sorted|]. rewrite sort_by_key_perm.
    apply NoDup_Permutation; [apply NoDup_filter, NoDup_rangeN|apply NoDup_unvisited|].
    intros j. rewrite elem_of_unvisited, list_elem_of_filter, elem_of_rangeN. lia.
  - rewrite (proj2 (N.leb_le n id)) by done. by rewrite orb_true_r.
Qed.

(** ** The hot set *)

(** The hot set ranks the experts whose heat reaches the cutoff, most observed first, ties by
    id, each once. *)
Theorem hot_set_ranked (n w : N) (l : list N) (t : f32) (m : LocalityMonitor) :
  n <= u32_max -> w <= u32_max -> observe l (monitor_new n w) = Some m -> 0 < monitor_len m ->
  let cutoff := f32_max (f32_mul (f32_max t f32_zero) (f32_of_N (monitor_len m))) f32_one in
  exists r, hot_set t m = r.*1 /\ NoDup r.*1 /\ StronglySorted before r /\
    (forall id c, (id, c) ∈ r <-> id < n /\ c = occurrences id (window m) /\ SFleb cutoff (f32_of_N c) = true).
Proof.
  intros Hn Hw Ho Hlen cutoff.
  assert (Hm : monitor_ok n (N.max w 1) m).
  { clear Hlen cutoff. revert m Ho. induction l as [|id l IH] using rev_ind; intros m Ho.
    - simpl in Ho. simplify_eq. apply monitor_new_ok.
    - rewrite observe_app in Ho. destruct (observe l (monitor_new n w)) as [m1|] eqn:E; [|done]. simpl in Ho.
      destruct (observe_one_ok n (N.max w 1) m1 id) as (m2 & Ho2 & Hm2 & _); [by apply IH|lia|unfold u32_max in *; lia|].
      rewrite Ho2 in Ho. by simplify_eq/=. }
  destruct Hm as [_ _ Hwin Hids Hl Hc]. unfold hot_set. rewrite (proj2 (N.eqb_neq (monitor_len m) 0)) by lia. fold cutoff.
  set (keep := fun _ c : N => SFleb cutoff (f32_of_N c)).
  destruct (ranked_take (length (scored keep (counts m))) keep (counts m)) as (Hd & _ & Hs & Hsub & Hall).
  - rewrite Hl. lia.
  - apply Forall_lookup_2. intros i c Hi. assert (Hin : N.of_nat i < n) by (apply lookup_lt_Some in Hi; lia).
    rewrite <-(Nat2N.id i), Hc in Hi by done. injection Hi as <-.
    pose proof (occurrences_le (N.of_nat i) (window m)). unfold monitor_len, u32_max in *. lia.
  - rewrite take_ge in * by by rewrite (Permutation_length (sort_by_key_perm heat_key _)).
    eexists. split_and!; [done..|]. intros id c. rewrite sort_by_key_perm, elem_of_scored. simpl. split.
    + intros [Hi Hk]. assert (Hid : id < n) by (apply lookup_lt_Some in Hi; lia). rewrite Hc in Hi by done. by simplify_eq.
    + intros (Hid & -> & Hk). by rewrite Hc.
Qed.

(** ** Layers *)

(** What one layer observes is invisible to the others. *)
Theorem layers_are_separate (i j : N) (experts : list N) (m m' : LayeredExpertAffinity) :
  layered_observe_layer i experts m = Some m' -> i <> j ->
  (forall a b, layered_affinity j a b m' = layered_affinity j a b m) /\
  (forall id k, layered_neighbors j id k m' = layered_neighbors j id k m).
Proof.
  unfold layered_observe_layer. destruct (layers m !! N.to_nat i) as [l|]; [|by intros [= <-]].
  destruct (observe_layer experts l) as [l'|]; [|done]. intros [= <-] Hij.
  unfold layered_affinity, layered_neighbors. simpl. by rewrite list_lookup_insert_ne by lia.
Qed.

(** ** The speculation controller *)

Inductive controller_op := Update (cumulative : N) | Suspend | Resume.

Definition controller_step (o : controller_op) (c : SpeculationController) : SpeculationController :=
  match o with
  | Update s => snd (update_from_stall s c)
  | Suspend => suspend c
  | Resume => resume c
  end.

Definition controller_run (os : list controller_op) (c : SpeculationController) : SpeculationController :=
  foldl (fun c o => controller_step o c) c os.

Definition in_bounds (base depth : N) : Prop := base <= depth <= base + MAX_LATENCY_BUMP.

Record controller_ok (base : N) (c : SpeculationController) : Prop := {
  co_base : base_depth c = base;
  co_running : is_suspended c = false -> in_bounds base (current_depth c);
  co_suspended : is_suspended c = true -> current_depth c = 0 /\ in_bounds base (saved_depth c)
}.

Lemma is_suspended_spec c : is_suspended c = true <-> saved_depth c <> usize_max.
Proof. unfold is_suspended. by rewrite negb_true_iff, N.eqb_neq. Qed.

Lemma is_running_spec c : is_suspended c = false <-> saved_depth c = usize_max.
Proof. unfold is_suspended. by rewrite negb_false_iff, N.eqb_eq. Qed.

Lemma update_running s c :
  is_suspended c = false ->
  let '(d, c') := update_from_stall s c in
  d = current_depth c' /\ base_depth c' = base_depth c /\ saved_depth c' = saved_depth c /\
  (d = current_depth c \/
   d = current_depth c + 1 /\ current_depth c < wrap_add usize_max (base_depth c) MAX_LATENCY_BUMP \/
   d = current_depth c - 1 /\ base_depth c < current_depth c).
Proof.
  intros Hr. unfold update_from_stall. rewrite Hr. case_N; cbn [andb];
    repeat (case_match; simplify_eq/=); split_and!; try done; auto; lia.
Qed.

Lemma controller_step_ok base o c :
  base + MAX_LATENCY_BUMP < usize_max -> controller_ok base c -> controller_ok base (controller_step o c).
Proof.
  intros Hb [Hbase Hrun Hsus]. destruct o as [s| |]; cbn [controller_step].
  - destruct (is_suspended c) eqn:E.
    + specialize (Hsus eq_refl). unfold update_from_stall. rewrite E. cbn. split; cbn; [done| |done].
      intros H. exfalso. apply is_suspended_spec in E. apply is_running_spec in H. by apply E.
    + pose proof (update_running s c E) as H. destruct (update_from_stall s c) as [d c']. cbn.
      destruct H as (-> & Hb' & Hs' & Hd). specialize (Hrun eq_refl). rewrite Hbase in *.
      rewrite wrap_add_small in Hd by lia.
      split; [done| |].
      * intros _. unfold in_bounds in *. lia.
      * intros H. apply is_suspended_spec in H. apply is_running_spec in E. congruence.
  - destruct (is_suspended c) eqn:E.
    + destruct (Hsus eq_refl). pose proof E as E'. apply is_suspended_spec in E'. unfold suspend.
      rewrite (proj2 (N.eqb_neq _ _)) by done. split; cbn; [done| |done].
      intros H1. apply is_running_spec in H1. done.
    + specialize (Hrun eq_refl). apply is_running_spec in E. unfold suspend. rewrite E, N.eqb_refl. split; cbn; [done| |done].
      intros H1. apply is_running_spec in H1. simpl in H1. unfold in_bounds in Hrun. lia.
  - unfold resume. split; cbn; [done| |discriminate].
    intros _. destruct (N.eqb_spec (saved_depth c) usize_max) as [E|E].
    + by apply Hrun, is_running_spec.
    + by apply Hsus, is_suspended_spec.
Qed.

Lemma foldl_ind {A B} (P : A -> Prop) (f : A -> B -> A) l a :
  P a -> (forall a b, P a -> P (f a b)) -> P (foldl f a l).
Proof. revert a. induction l as [|b l IH]; intros a Ha Hf; simpl; auto. Qed.

(** Whatever the controller is told, its depth is 0 while it is suspended and within
    [base_depth, base_depth + MAX_LATENCY_BUMP] otherwise; what a resume gives is in that
    range too; and suspending, feeding any stall telemetry and suspending again leaves the
    depth from before to the resume. *)
Theorem speculation_depth_is_bounded (base : N) (os : list controller_op) (samples : list N) :
  base + MAX_LATENCY_BUMP < usize_max ->
  let c := controller_run os (controller_new base) in
  (if is_suspended c then current_depth c = 0 else in_bounds base (current_depth c)) /\
  in_bounds base (current_depth (resume c)) /\
  (is_suspended c = false ->
   current_depth (resume (suspend (controller_run (Update <$> samples) (suspend c)))) = current_depth c).
Proof.
  intros Hb c.
  assert (Hc : controller_ok base c).
  { unfold c, controller_run. apply (foldl_ind (controller_ok base)); [|by intros; apply controller_step_ok].
    split; cbn; [done|unfold in_bounds; lia|discriminate]. }
  split_and!.
  - destruct (is_suspended c) eqn:E; by apply Hc.
  - pose proof (controller_step_ok base Resume c Hb Hc) as Hr. apply (co_running _ _ Hr). by apply is_running_spec.
  - intros E. assert (Hd : current_depth c <> usize_max) by (pose proof (co_running _ _ Hc E); unfold in_bounds in *; lia).
    apply is_running_spec in E. clearbody c. clear Hc.
    assert (H : saved_depth (controller_run (Update <$> samples) (suspend c)) = current_depth c).
    { unfold controller_run. assert (H0 : saved_depth (suspend c) = current_depth c) by (unfold suspend; cbn; by rewrite E, N.eqb_refl).
      revert H0. generalize (suspend c). induction samples as [|s l IH]; intros c' H0; [done|]. simpl. apply IH.
      unfold update_from_stall. rewrite (proj2 (is_suspended_spec c')) by by rewrite H0. done. }
    set (d := controller_run _ _) in *. clearbody d.
    unfold suspend, resume. cbn. rewrite H. rewrite (proj2 (N.eqb_neq (current_depth c) usize_max)) by done. cbn.
    by rewrite (proj2 (N.eqb_neq (current_depth c) usize_max)).
Qed.

(** The controller shrinks after two calm samples that are not consecutive: a sample between
    half the threshold and the threshold leaves the streak as it is, while the
    documentation asks for two consecutive updates below half of it. *)
Theorem calm_samples_need_not_be_consecutive :
  let c := controller_run [Update 1000; Update 1100; Update 1800] (controller_new 4) in
  current_depth c = 5 /\ last_stall_us c = 1800 /\ current_depth (controller_step (Update 1900) c) = 4.
Proof. vm_compute. done. Qed.

Module Witness.

Lemma monitor_counts_the_window_witness :
  exists m, observe [3; 1; 9; 1; 2; 1] (monitor_new 4 3) = Some m /\ window m = [1; 2; 1] /\ heat 1 m = Some 2.
Proof.
  destruct (monitor_counts_the_window 4 3 [3; 1; 9; 1; 2; 1]) as (m & Ho & Hw & Hh & _); [vm_compute; discriminate|].
  exists m. split; [exact Ho|]. split; [rewrite Hw; vm_compute; reflexivity|].
  rewrite Hh, Hw. vm_compute. reflexivity.
Defined.

Definition matrix : ExpertAffinity := default (MkAffinity 1 [] 0) (affinity_new 4).
Definition layers_seen : list affinity_op := [Observe [0; 2]; Observe [2; 0; 3]; Observe [1]; Decay 1; Observe [3; 0]].

Lemma affinity_counts_pairs_witness :
  exists m, affinity_run layers_seen matrix = Some m /\ affinity 0 2 m = Some 1 /\ affinity 3 0 m = Some 1.
Proof.
  destruct (affinity_counts_pairs 4 layers_seen matrix) as (m & Hr & Ha & _); [vm_compute; reflexivity|].
  exists m. split; [exact Hr|]. rewrite !Ha. vm_compute. split; reflexivity.
Defined.

Lemma neighbors_are_the_strongest_witness :
  exists m (l : list (N * N)), affinity_run layers_seen matrix = Some m /\ neighbors 0 1 m = Some l.*1 /\ (length l <= 1)%nat.
Proof.
  destruct (affinity_counts_pairs 4 layers_seen matrix) as (m & Hr & _); [vm_compute; reflexivity|].
  destruct (neighbors_are_the_strongest 4 layers_seen matrix m 0 1) as (l & Hl & _ & Hk & _);
    [vm_compute; reflexivity|exact Hr|vm_compute; discriminate|vm_compute; reflexivity|].
  exists m, l. split; [exact Hr|]. split; [exact Hl|exact Hk].
Defined.

Lemma speculation_depth_is_bounded_witness :
  in_bounds 4 (current_depth (resume (controller_run [Update 2000; Update 4000; Suspend; Update 9000] (controller_new 4)))).
Proof.
  apply (speculation_depth_is_bounded 4 [Update 2000; Update 4000; Suspend; Update 9000] []).
  vm_compute. reflexivity.
Defined.

Lemma hot_set_ranked_witness :
  exists m (r : list (N * N)), observe [1; 2; 1] (monitor_new 4 3) = Some m /\ hot_set f32_zero m = r.*1 /\ hot_set f32_zero m = [1; 2].
Proof.
  destruct (monitor_counts_the_window 4 3 [1; 2; 1]) as (m & Ho & Hw & _); [vm_compute; discriminate|].
  destruct (hot_set_ranked 4 3 [1; 2; 1] f32_zero m) as (r & Hr & _);
    [vm_compute; discriminate|vm_compute; discriminate|exact Ho|unfold monitor_len; rewrite Hw; vm_compute; reflexivity|].
  exists m, r. split; [exact Ho|]. split; [exact Hr|]. vm_compute in Ho. injection Ho as <-. vm_compute. reflexivity.
Defined.

Lemma layers_are_separate_witness :
  exists m, layered_observe_layer 0 [0; 1] (MkLayered [matrix; matrix] 4) = Some m /\ layered_affinity 1 0 1 m = Some 0 /\
    layered_affinity 0 0 1 m = Some 1.
Proof.
  destruct (layered_observe_layer 0 [0; 1] (MkLayered [matrix; matrix] 4)) as [m|] eqn:E; [|vm_compute in E; discriminate].
  exists m. split; [reflexivity|]. destruct (layers_are_separate 0 1 [0; 1] _ m E) as [Ha _]; [discriminate|].
  split; [rewrite Ha; vm_compute; reflexivity|]. vm_compute in E. injection E as <-. vm_compute. reflexivity.
Defined.

End Witness.
