(* ===== verification/BatchScheduler.v ===== *)
(** Continuous batching ([src/rust-engine/src/batch_scheduler.rs]).

    [poll] is the part of [scheduler_loop] that forms a batch, one receive at a time,
    so that senders run between any two receives; [run_task] is one access of the task
    that advances one request of a batch, interleaved with the other tasks and with
    the HTTP side ([register_with_class], [release]).  The model's step is a
    parameter: it may answer, fail or panic, and always leaves some KV cache behind.
    The pressure ladder, the pre-pass and its gate are functions of what the loop
    reads.

    A batch carries, for the statements only, the channel each request came from. *)
From S2P Require Import Prelude Floats BlockPool Rpc Singleflight Router.

(** ** Service classes *)

Inductive SessionClass := Interactive | Audit.

#[export] Instance SessionClass_eq_dec : EqDecision SessionClass.
Proof. solve_decision. Defined.

Definition class_eqb (c c' : SessionClass) : bool :=
  match c, c' with Interactive, Interactive | Audit, Audit => true | _, _ => false end.

Definition weight (c : SessionClass) : nat := match c with Interactive => 4 | Audit => 1 end.

(** [resp] is the address of the caller's oneshot channel. *)
Inductive StepMode := Decode | ForwardHidden.

Record StepRequest := {
  id : N;
  token_id : N;
  pos : N;
  mode : StepMode;
  resp : N;
}.

(** ** Forming a batch *)

Section admission.
(** [cfg.max_batch_size] and [cfg.batch_timeout.is_zero()]. *)
Variable max_batch_size : nat.
Variable timeout_is_zero : bool.

Definition tagged : Type := SessionClass * StepRequest.

(** Where the loop is: the first receive, on both channels or on the one that is left;
    the weighted drain (the class being drained, the receives left in its turn, and
    whether the cycle made progress); waiting for late arrivals; the batch formed;
    returned. *)
Inductive phase :=
| Idle
| IdleOn (c : SessionClass)
| Draining (b : list tagged) (c : SessionClass) (k : nat) (made_progress : bool)
| Joining (b : list tagged) (deadline_passed : bool)
| Formed (b : list tagged)
| Returned.

(** [batches]: the batches handed over so far, for the statements. *)
Record intake := {
  at_phase : phase;
  interactive : list StepRequest;
  audit : list StepRequest;
  closed_interactive : bool;
  closed_audit : bool;
  batches : list (list tagged);
}.

Definition queue (c : SessionClass) (s : intake) : list StepRequest :=
  match c with Interactive => interactive s | Audit => audit s end.
Definition closed (c : SessionClass) (s : intake) : bool :=
  match c with Interactive => closed_interactive s | Audit => closed_audit s end.

Definition to_phase (p : phase) (s : intake) : intake :=
  {| at_phase := p; interactive := interactive s; audit := audit s;
     closed_interactive := closed_interactive s; closed_audit := closed_audit s;
     batches := batches s |}.
Definition set_queue (c : SessionClass) (q : list StepRequest) (s : intake) : intake :=
  {| at_phase := at_phase s;
     interactive := match c with Interactive => q | Audit => interactive s end;
     audit := match c with Interactive => audit s | Audit => q end;
     closed_interactive := closed_interactive s; closed_audit := closed_audit s;
     batches := batches s |}.

Definition full (b : list tagged) : bool := (max_batch_size <=? length b)%nat.

(** A new batch starts its first drain cycle. *)
Definition begin_drain (c : SessionClass) (r : StepRequest) (q : list StepRequest) (s : intake) : intake :=
  to_phase (Draining [(c, r)] Interactive (weight Interactive) false) (set_queue c q s).

Definition end_drain (b : list tagged) : phase :=
  if negb (full b) && negb timeout_is_zero then Joining b false else Formed b.

(** The turn of a class is over. *)
Definition next_turn (b : list tagged) (c : SessionClass) (made_progress : bool) : phase :=
  match c with
  | Interactive => Draining b Audit (weight Audit) made_progress
  | Audit => if made_progress then Draining b Interactive (weight Interactive) false else end_drain b
  end.

#[local] Arguments next_turn : simpl never.
#[local] Arguments end_drain : simpl never.

(** One poll of the loop; unchanged when it waits. *)
Definition poll (s : intake) : intake :=
  match at_phase s with
  | Idle =>
      match interactive s with
      | r :: q => begin_drain Interactive r q s
      | [] =>
          if closed_interactive s then to_phase (IdleOn Audit) s else
          match audit s with
          | r :: q => begin_drain Audit r q s
          | [] => if closed_audit s then to_phase (IdleOn Interactive) s else s
          end
      end
  | IdleOn c =>
      match queue c s with
      | r :: q => begin_drain c r q s
      | [] => if closed c s then to_phase Returned s else s
      end
  | Draining b c k p =>
      if full b then to_phase (end_drain b) s else
      match k, queue c s with
      | S k, r :: q => to_phase (Draining (b ++ [(c, r)]) c k true) (set_queue c q s)
      | _, _ => to_phase (next_turn b c p) s
      end
  | Joining b late =>
      if full b then to_phase (Formed b) s else
      match interactive s with
      | r :: q => to_phase (Joining (b ++ [(Interactive, r)]) late) (set_queue Interactive q s)
      | [] =>
          if closed_interactive s || late then to_phase (Formed b) s else
          match audit s with
          | r :: q => to_phase (Joining (b ++ [(Audit, r)]) late) (set_queue Audit q s)
          | [] => if closed_audit s then to_phase (Formed b) s else s
          end
      end
  | Formed _ | Returned => s
  end.

(** What happens around the loop: a request is sent on its channel, the senders are
    dropped, the deadline passes, the loop is polled, the formed batch is taken and
    executed and the loop starts over. *)
Inductive intake_event :=
| Sent (c : SessionClass) (r : StepRequest)
| SendersDropped (c : SessionClass)
| DeadlinePassed
| Polled
| Executed.

Definition channel_depth : nat := Nat.max (max_batch_size * 4) 8.

(** A send to a closed or full channel does not happen (the sender waits or fails). *)
Definition intake_step (s : intake) (e : intake_event) : intake :=
  match e with
  | Sent c r =>
      if closed c s || (channel_depth <=? length (queue c s))%nat then s
      else set_queue c (queue c s ++ [r]) s
  | SendersDropped c =>
      {| at_phase := at_phase s; interactive := interactive s; audit := audit s;
         closed_interactive := closed_interactive s || class_eqb c Interactive;
         closed_audit := closed_audit s || class_eqb c Audit; batches := batches s |}
  | DeadlinePassed => match at_phase s with Joining b _ => to_phase (Joining b true) s | _ => s end
  | Polled => poll s
  | Executed =>
      match at_phase s with
      | Formed b =>
          {| at_phase := Idle; interactive := interactive s; audit := audit s;
             closed_interactive := closed_interactive s; closed_audit := closed_audit s;
             batches := batches s ++ [b] |}
      | _ => s
      end
  end.

Definition intake_run (evs : list intake_event) (s : intake) : intake := foldl intake_step s evs.

Definition fresh_intake : intake :=
  {| at_phase := Idle; interactive := []; audit := []; closed_interactive := false;
     closed_audit := false; batches := [] |}.

(** The batch under construction. *)
Definition carried (p : phase) : list tagged :=
  match p with Draining b _ _ _ | Joining b _ | Formed b => b | _ => [] end.
Definition current (s : intake) : list tagged := carried (at_phase s).

(** The requests of a class in a list, in order. *)
Definition of_class (c : SessionClass) (l : list tagged) : list StepRequest :=
  omap (fun x => if class_eqb x.1 c then Some x.2 else None) l.

(** The requests of a class the channel has accepted, in order. *)
Fixpoint accepted (c : SessionClass) (evs : list intake_event) (s : intake) : list StepRequest :=
  match evs with
  | [] => []
  | e :: evs =>
      match e with
      | Sent c' r =>
          if class_eqb c' c && negb (closed c s || (channel_depth <=? length (queue c s))%nat)
          then [r] else []
      | _ => []
      end ++ accepted c evs (intake_step s e)
  end.

(** *** FIFO, nothing lost, nothing twice *)

Definition handed (s : intake) : list tagged := concat (batches s) ++ current s.

Lemma of_class_app c l k : of_class c (l ++ k) = of_class c l ++ of_class c k.
Proof. apply omap_app. Qed.

Lemma of_class_snoc c l c' r :
  of_class c (l ++ [(c', r)]) = of_class c l ++ (if class_eqb c' c then [r] else []).
Proof. rewrite of_class_app. by destruct c, c'. Qed.

Lemma carried_end_drain b : carried (end_drain b) = b.
Proof. unfold end_drain. by case_match. Qed.

Lemma carried_next_turn b c p : carried (next_turn b c p) = b.
Proof. destruct c, p; try done. apply carried_end_drain. Qed.

(** A poll moves the head of a queue to the batch, or moves nothing. *)
Lemma poll_moves s :
  batches (poll s) = batches s /\
  forall c, of_class c (current (poll s)) ++ queue c (poll s) = of_class c (current s) ++ queue c s.
Proof.
  destruct s as [p qi qa ci ca bs]. unfold poll, current, queue. simpl.
  destruct p as [|c0|b c0 k p|b late|b|]; simpl.
  - destruct qi as [|r qi]; [destruct ci; [|destruct qa as [|r qa]; [destruct ca|]]|];
      (split; [done|]); by intros [].
  - destruct c0; [destruct qi; [destruct ci|]|destruct qa; [destruct ca|]]; (split; [done|]); by intros [].
  - destruct (full b); [simpl; rewrite carried_end_drain; by split|].
    destruct k as [|k]; [simpl; rewrite carried_next_turn; by split|].
    destruct c0; [destruct qi|destruct qa]; simpl; rewrite ?carried_next_turn; (split; [done|]);
      intros []; simpl; rewrite ?of_class_snoc; simpl; rewrite ?app_nil_r, <-?app_assoc; done.
  - destruct (full b); [by split|].
    destruct qi as [|r qi]; [destruct (ci || late); [|destruct qa as [|r qa]; [destruct ca|]]|]; simpl;
      (split; [done|]); intros []; simpl; rewrite ?of_class_snoc; simpl; rewrite ?app_nil_r, <-?app_assoc; done.
  - by split.
  - by split.
Qed.

Lemma intake_step_fifo e s c :
  of_class c (handed (intake_step s e)) ++ queue c (intake_step s e) =
  of_class c (handed s) ++ queue c s ++ accepted c [e] s.
Proof.
  unfold handed. destruct e as [c' r|c'| | |]; simpl; rewrite ?app_nil_r.
  - destruct (closed c' s || _) eqn:E.
    + destruct c, c'; simpl in *; rewrite ?app_nil_r; try done; by rewrite E, app_nil_r.
    + destruct c, c'; simpl in *; rewrite ?app_nil_r; try done; by rewrite E.
  - by destruct c.
  - destruct s as [[] ? ? ? ? ?]; by destruct c.
  - destruct (poll_moves s) as [Hb Hq]. rewrite Hb, !of_class_app, <-!app_assoc. f_equal. apply Hq.
  - destruct s as [[] ? ? ? ? ?]; simpl; try by destruct c. unfold current. simpl.
    rewrite concat_app. simpl. rewrite !app_nil_r. by destruct c.
Qed.

Lemma accepted_cons c e evs s : accepted c (e :: evs) s = accepted c [e] s ++ accepted c evs (intake_step s e).
Proof. simpl. by rewrite app_nil_r. Qed.

Lemma intake_run_fifo evs s c :
  of_class c (handed (intake_run evs s)) ++ queue c (intake_run evs s) =
  of_class c (handed s) ++ queue c s ++ accepted c evs s.
Proof.
  revert s. induction evs as [|e evs IH]; intros s; [simpl; by rewrite app_nil_r|].
  change (intake_run (e :: evs) s) with (intake_run evs (intake_step s e)).
  rewrite IH, accepted_cons, !(app_assoc (of_class _ _)), intake_step_fifo, <-!app_assoc. done.
Qed.

(** *** Sizes *)

Definition size_ok (p : phase) : Prop :=
  match p with
  | Draining b _ _ _ | Joining b _ | Formed b => (1 <= length b <= Nat.max 1 max_batch_size)%nat
  | _ => True
  end.

Definition sizes_ok (s : intake) : Prop :=
  size_ok (at_phase s) /\ Forall (fun b => 1 <= length b <= Nat.max 1 max_batch_size)%nat (batches s).

Lemma size_end_drain b : size_ok (Formed b) -> size_ok (end_drain b).
Proof. unfold end_drain. by case_match. Qed.

Lemma size_next_turn b c p : size_ok (Formed b) -> size_ok (next_turn b c p).
Proof. intros. destruct c, p; try done. by apply size_end_drain. Qed.

Lemma size_push b x : full b = false -> (1 <= length (b ++ [x]) <= Nat.max 1 max_batch_size)%nat.
Proof. unfold full. intros Hf%Nat.leb_gt. rewrite length_app. simpl. lia. Qed.

Lemma poll_sizes s : sizes_ok s -> sizes_ok (poll s).
Proof.
  intros [Hp Hb]. split; [|by rewrite (proj1 (poll_moves s))].
  destruct s as [p qi qa ci ca bs]. unfold poll, queue. simpl in *.
  destruct p as [|c0|b c0 k p|b late|b|]; simpl in *; try done.
  - repeat case_match; simpl; try done; lia.
  - repeat case_match; simpl; try done; lia.
  - destruct (full b) eqn:Hf; [by apply size_end_drain|].
    destruct k as [|k]; [by apply size_next_turn|].
    destruct c0; [destruct qi|destruct qa]; simpl; try done; try (by apply size_next_turn); by apply size_push.
  - destruct (full b) eqn:Hf; [done|]. repeat case_match; simpl; try done; by apply size_push.
Qed.

Lemma intake_step_sizes e s : sizes_ok s -> sizes_ok (intake_step s e).
Proof.
  intros Hs. destruct e as [c r|c| | |]; simpl.
  - case_match; [done|]. by destruct c.
  - done.
  - destruct s as [[] ? ? ? ? ?]; done.
  - by apply poll_sizes.
  - destruct s as [[] ? ? ? ? ?]; try done. destruct Hs as [Hp Hb]. split; [done|].
    apply Forall_app. by split; [|constructor].
Qed.

Lemma intake_run_sizes evs s : sizes_ok s -> sizes_ok (intake_run evs s).
Proof. revert s. induction evs as [|e evs IH]; intros s Hs; [done|]. by apply IH, intake_step_sizes. Qed.

(** C14. Admission loses and repeats nothing and is first come, first served within a
    class: whatever the interleaving of senders, deadlines and receives, the requests a
    channel has accepted are, in order, those of the batches handed over, then those of
    the batch being formed, then those still queued; and every batch has at least one
    request and at most [max_batch_size] (one, when that is 0). *)
Theorem batches_are_fifo evs :
  let s := intake_run evs fresh_intake in
  (forall c, accepted c evs fresh_intake =
     of_class c (concat (batches s)) ++ of_class c (current s) ++ queue c s) /\
  Forall (fun b => 1 <= length b <= Nat.max 1 max_batch_size)%nat (batches s) /\
  (length (current s) <= Nat.max 1 max_batch_size)%nat.
Proof.
  intros s. destruct (intake_run_sizes evs fresh_intake) as [Hp Hb]; [by split|]. split_and!; [|done|].
  - intros c. pose proof (intake_run_fifo evs fresh_intake c) as Hf. unfold handed in Hf.
    rewrite of_class_app, <-app_assoc in Hf. subst s. rewrite Hf. by destruct c.
  - unfold current. subst s. destruct (at_phase (intake_run evs fresh_intake)); simpl in *; lia.
Qed.

(** *** Audit requests are served *)

Definition audits (l : list tagged) : nat := length (of_class Audit l).

Lemma audits_app l k : audits (l ++ k) = (audits l + audits k)%nat.
Proof. unfold audits. by rewrite of_class_app, length_app. Qed.

Lemma audits_one c r : audits [(c, r)] = if class_eqb c Audit then 1%nat else 0%nat.
Proof. by destruct c. Qed.

(** The drain has not had its first turn on the Audit channel yet. *)
Definition early (p : phase) : Prop :=
  match p with
  | Draining b Interactive k _ => (length b + k <= 5)%nat
  | Draining b Audit k _ => k = 1%nat /\ (length b <= 5)%nat
  | _ => False
  end.

(** In a batch under construction: the goal is met, or the turn is still to come. *)
Definition on_track (goal taken : nat) (p : phase) : Prop :=
  match p with
  | Draining _ _ _ _ | Joining _ _ | Formed _ => (goal <= taken)%nat \/ early p
  | _ => True
  end.

Lemma on_track_end goal taken b : (goal <= taken)%nat -> on_track goal taken (end_drain b).
Proof. intros. unfold end_drain. case_match; by left. Qed.

Lemma on_track_next goal taken b c p :
  (goal <= taken)%nat \/ (c = Interactive /\ (length b <= 5)%nat) -> on_track goal taken (next_turn b c p).
Proof.
  intros Hg. destruct c.
  - destruct Hg as [?|[_ ?]]; [by left|by right].
  - destruct Hg as [Hg|[? _]]; [|done]. destruct p; [by left|by apply on_track_end].
Qed.

(** Since [n0] batches and [t0] admitted Audit requests, when [a] were waiting. *)
Record served (n0 t0 a : nat) (s : intake) : Prop := {
  sv_batches : (n0 <= length (batches s))%nat;
  sv_queue : (t0 + a <= audits (handed s) + length (audit s))%nat;
  sv_least : (t0 + Nat.min (length (batches s) - n0) a <= audits (handed s))%nat;
  sv_now : on_track (t0 + Nat.min (S (length (batches s) - n0)) a) (audits (handed s)) (at_phase s);
}.

Lemma poll_track goal s :
  (6 <= max_batch_size)%nat ->
  (goal <= S (audits (handed s)))%nat -> (audit s = [] -> goal <= audits (handed s))%nat ->
  on_track goal (audits (handed s)) (at_phase s) ->
  (audits (handed s) <= audits (handed (poll s)))%nat /\
  on_track goal (audits (handed (poll s))) (at_phase (poll s)).
Proof.
  intros Hmax Hg Hq Hp. destruct s as [p qi qa ci ca bs]. unfold poll, handed, current, queue in *. simpl in *.
  rewrite audits_app in *.
  assert (Hfull : forall b, (length b <= 5)%nat -> full b = false) by (intros b Hb; apply Nat.leb_gt; lia).
  destruct p as [|c0|b c0 k p|b late|b|]; simpl in *.
  - destruct qi as [|r qi]; [destruct ci; [|destruct qa as [|r qa]; [destruct ca|]]|]; simpl;
      rewrite audits_app, ?audits_one; simpl; unfold audits in *; simpl in *; (split; [lia|]); first [done|left; lia|right; simpl; lia].
  - destruct c0; [destruct qi as [|r qi]; [destruct ci|]|destruct qa as [|r qa]; [destruct ca|]]; simpl;
      rewrite audits_app, ?audits_one; simpl; unfold audits in *; simpl in *; (split; [lia|]); first [done|left; lia|right; simpl; lia].
  - destruct (full b) eqn:Hf.
    { simpl. rewrite audits_app, carried_end_drain. split; [done|]. apply on_track_end.
      destruct Hp as [?|He]; [done|]. simpl in He. destruct c0; rewrite Hfull in Hf; [done|lia|done|lia]. }
    assert (Hnext : (goal <= audits (concat bs) + audits b)%nat \/ (c0 = Interactive /\ (length b <= 5)%nat) ->
      (audits (concat bs) + audits b <= audits (concat bs ++ carried (next_turn b c0 p)))%nat /\
      on_track goal (audits (concat bs ++ carried (next_turn b c0 p))) (next_turn b c0 p)).
    { intros Hn. rewrite carried_next_turn, audits_app. split; [done|]. by apply on_track_next. }
    destruct k as [|k].
    { apply Hnext. destruct Hp as [?|He]; [by left|]. simpl in He. destruct c0; [right; split; [done|lia]|lia]. }
    destruct c0.
    + destruct qi as [|r qi].
      * apply Hnext. destruct Hp as [?|He]; [by left|]. simpl in He. right. split; [done|lia].
      * simpl. rewrite !audits_app, audits_one. simpl. split; [lia|].
        destruct Hp as [?|He]; [left; lia|right]. simpl in *. rewrite length_app. simpl. lia.
    + destruct qa as [|r qa].
      * apply Hnext. left. by apply Hq.
      * simpl. rewrite !audits_app, audits_one. simpl. split; [lia|]. left. lia.
  - destruct Hp as [Hp|[]]. destruct (full b); [simpl; rewrite audits_app; split; [done|by left]|].
    destruct qi as [|r qi]; [destruct (ci || late); [|destruct qa as [|r qa]; [destruct ca|]]|]; simpl;
      rewrite ?audits_app, ?audits_one; simpl; (split; [lia|]); left; lia.
  - rewrite audits_app. by split.
  - rewrite audits_app. by split.
Qed.

Lemma served_step n0 t0 a e s : (6 <= max_batch_size)%nat -> served n0 t0 a s -> served n0 t0 a (intake_step s e).
Proof.
  intros Hmax [Hn Hq Hl Hp].
  assert (Hq' : (t0 + a <= audits (handed (intake_step s e)) + length (audit (intake_step s e)))%nat).
  { pose proof (f_equal length (intake_step_fifo e s Audit)) as Hf. rewrite !length_app in Hf.
    unfold audits in *. simpl in Hf. lia. }
  destruct e as [c r|c| | |]; simpl in *.
  - case_match; [by split|]. destruct c; by split.
  - by split.
  - destruct s as [[] ? ? ? ? ?]; by split.
  - destruct (poll_moves s) as [Hb _].
    destruct (poll_track (t0 + Nat.min (S (length (batches s) - n0)) a) s Hmax) as [Hmono Ht]; [lia| |done|].
    { intros Hnil. rewrite Hnil in Hq. simpl in Hq. lia. }
    split; rewrite ?Hb; [done|done|lia|done].
  - destruct s as [[] ? ? ? ? ?]; simpl in *; try by split.
    destruct Hp as [Hp|[]]. unfold handed, current in *. simpl in *.
    rewrite concat_app in Hq'. simpl in Hq'. rewrite !app_nil_r in Hq'.
    split; unfold handed, current; simpl; rewrite ?length_app, ?concat_app; simpl; rewrite ?app_nil_r; simpl; try done; destruct a; lia.
Qed.

(** C17. Audit requests are not starved by Interactive ones when batches can hold six
    requests: from any moment at which the loop is about to start a batch, whatever is
    sent meanwhile, every batch formed admits at least one of the Audit requests that
    were waiting, until all of them are admitted.  With first come, first served, the
    request in position [k] of the Audit channel is in one of the next [k + 1]
    batches. *)
Theorem audit_requests_are_served evs s :
  (6 <= max_batch_size)%nat -> at_phase s = Idle ->
  let s' := intake_run evs s in
  (audits (handed s) + Nat.min (length (batches s') - length (batches s)) (length (audit s)) <=
   audits (handed s'))%nat.
Proof.
  intros Hmax Hidle s'.
  assert (Hs : served (length (batches s)) (audits (handed s)) (length (audit s)) s).
  { split; [done|done|rewrite Nat.sub_diag; simpl; lia|by rewrite Hidle]. }
  assert (Hrun : forall evs u, served (length (batches s)) (audits (handed s)) (length (audit s)) u ->
    served (length (batches s)) (audits (handed s)) (length (audit s)) (intake_run evs u)).
  { clear -Hmax. induction evs as [|e evs IH]; intros u Hu; [done|]. by apply IH, served_step. }
  apply (sv_least _ _ _ _ (Hrun evs s Hs)).
Qed.

(** Not so with smaller batches: a batch of at most five that is started while
    [max_batch_size] Interactive requests are queued admits no Audit request. *)
Definition interactive_only (s : intake) : Prop :=
  match at_phase s with
  | Idle => (1 <= max_batch_size <= length (interactive s))%nat
  | Draining b Interactive k _ =>
      audits b = 0%nat /\ (5 <= length b + k)%nat /\ (max_batch_size <= length b + length (interactive s))%nat
  | Formed b => audits b = 0%nat
  | _ => False
  end.

Lemma small_batches_skip_audit evs s :
  (max_batch_size <= 5)%nat -> at_phase s = Idle -> (1 <= max_batch_size <= length (interactive s))%nat ->
  Executed ∉ evs -> audits (current (intake_run evs s)) = 0%nat.
Proof.
  intros Hmax Hidle Hlen. assert (Hs : interactive_only s) by (unfold interactive_only; by rewrite Hidle).
  clear Hidle Hlen. revert s Hs. induction evs as [|e evs IH]; intros s Hs Hev.
  { unfold interactive_only, current in *. simpl. destruct (at_phase s) as [| |b [] k p| | |]; try done; by destruct Hs. }
  apply not_elem_of_cons in Hev as [He Hev]. apply IH; [|done].
  destruct s as [p qi qa ci ca bs]. unfold interactive_only in *. destruct e as [c r|c| | |]; simpl in *; try done.
  - destruct (_ || _); simpl; [done|]. destruct c; simpl; [|done].
    destruct p as [| |b [] k p| | |]; simpl in *; try done; rewrite ?length_app; simpl; lia.
  - by destruct p as [| |b [] k p| | |].
  - unfold poll. destruct p as [| |b [] k p| | |]; simpl in *; try done.
    + destruct qi as [|r qi]; simpl in *; [lia|]. split_and!; [done|lia|lia].
    + destruct Hs as (Ha & Hk & Hq). unfold full. destruct (Nat.leb_spec max_batch_size (length b)) as [Hf|Hf]; simpl.
      { unfold end_drain, full. by rewrite (proj2 (Nat.leb_le _ _) Hf). }
      destruct k as [|k]; [lia|]. destruct qi as [|r qi]; simpl in *; [lia|].
      rewrite audits_app, audits_one, Ha, length_app. simpl. split_and!; [done|lia|lia].
Qed.
End admission.
Arguments Sent _ _ : clear implicits.

(** ** The registry of requests *)

Section registry.
(** The KV caches of a request, what a step returns, and what the engine, the model
    and the sampler add to a step. *)
Context {KV answer engine : Type}.

Inductive BatchError := SchedulerClosed | NotRegistered | Inference.

(** [decode_step] or [forward_token_hidden], by [mode]: the answer or an error, and the
    caches as the step leaves them; a panic also leaves them in some state. *)
Inductive step_result := Answered (a : answer) | Failed | Panicked.
Variable model_step : StepRequest -> engine -> KV -> step_result * KV.

(** An [Arc<Mutex<Vec<KvCache>>>]: the clones that tasks hold (the table's own is
    [listed]), whether it is locked; [initial] and [applied] record, for the
    statements, where the caches come from. *)
Record entry := {
  kv : KV;
  clones : nat;
  listed : bool;
  locked : bool;
  owner : N;
  initial : KV;
  applied : list (StepRequest * engine);
}.

Record RequestRegistry := {
  next : N;
  table : gmap N nat;
  entries : gmap nat entry;
  next_entry : nat;
}.

Definition put_entry (a : nat) (e : entry) (g : RequestRegistry) : RequestRegistry :=
  {| next := next g; table := table g; entries := <[a := e]> (entries g); next_entry := next_entry g |}.

Definition register (caches : KV) (g : RequestRegistry) : N * RequestRegistry :=
  let id := next g in
  (id, {| next := wrap_add u64_max id 1; table := <[id := next_entry g]> (table g);
          entries := <[next_entry g := {| kv := caches; clones := 0; listed := true; locked := false;
                                          owner := id; initial := caches; applied := [] |}]> (entries g);
          next_entry := S (next_entry g) |}).

(** [get]: the clone is counted. *)
Definition with_clones (n : nat) (l : bool) (e : entry) : entry :=
  {| kv := kv e; clones := n; listed := l; locked := locked e; owner := owner e;
     initial := initial e; applied := applied e |}.
Definition with_locked (b : bool) (e : entry) : entry :=
  {| kv := kv e; clones := clones e; listed := listed e; locked := b; owner := owner e;
     initial := initial e; applied := applied e |}.

Definition get (id : N) (g : RequestRegistry) : option nat * RequestRegistry :=
  match table g !! id with
  | None => (None, g)
  | Some a => (Some a, match entries g !! a with
                       | Some e => put_entry a (with_clones (S (clones e)) (listed e) e) g
                       | None => g
                       end)
  end.

(** [try_unwrap] succeeds when the table's was the only reference; otherwise the entry
    lives on until the tasks (and the detached one that waits for them) let go. *)
Definition release (id : N) (g : RequestRegistry) : option KV * RequestRegistry :=
  match table g !! id with
  | None => (None, g)
  | Some a =>
      let g := {| next := next g; table := delete id (table g); entries := entries g;
                  next_entry := next_entry g |} in
      match entries g !! a with
      | None => (None, g)
      | Some e =>
          if (clones e =? 0)%nat
          then (Some (kv e), {| next := next g; table := table g; entries := delete a (entries g);
                                next_entry := next_entry g |})
          else (None, put_entry a (with_clones (clones e) false e) g)
      end
  end.

Definition registry_len (g : RequestRegistry) : nat := size (table g).

(** ** The tasks of a batch *)

Inductive task_code :=
| Lookup (q : StepRequest)
| Locking (q : StepRequest) (a : nat)
| Stepping (q : StepRequest) (a : nat)
| Dropping (q : StepRequest) (a : nat) (r : result BatchError answer)
| Unwinding (q : StepRequest) (a : nat)
| Replying (q : StepRequest) (r : result BatchError answer)
| Done (q : StepRequest).

(** [replies]: what was sent on the oneshots, most recent first. *)
Record store := {
  reg : RequestRegistry;
  running : list task_code;
  replies : list (StepRequest * result BatchError answer);
}.

(** A task lets go; the last reference frees the caches. *)
Definition drop_clone (a : nat) (g : RequestRegistry) : RequestRegistry :=
  match entries g !! a with
  | None => g
  | Some e =>
      if (clones e =? 1)%nat && negb (listed e)
      then {| next := next g; table := table g; entries := delete a (entries g); next_entry := next_entry g |}
      else put_entry a (with_clones (clones e - 1) (listed e) e) g
  end.

Definition step_entry (q : StepRequest) (x : engine) (caches : KV) (e : entry) : entry :=
  {| kv := caches; clones := clones e; listed := listed e; locked := false; owner := owner e;
     initial := initial e; applied := applied e ++ [(q, x)] |}.

Definition run_task (x : engine) (t : task_code) (s : store) : task_code * store :=
  let with_reg g := {| reg := g; running := running s; replies := replies s |} in
  match t with
  | Lookup q =>
      match get (id q) (reg s) with
      | (None, _) => (Replying q (Err NotRegistered), s)
      | (Some a, g) => (Locking q a, with_reg g)
      end
  | Locking q a =>
      match entries (reg s) !! a with
      | Some e => if locked e then (t, s) else (Stepping q a, with_reg (put_entry a (with_locked true e) (reg s)))
      | None => (t, s)
      end
  | Stepping q a =>
      match entries (reg s) !! a with
      | None => (t, s)
      | Some e =>
          let '(r, caches) := model_step q x (kv e) in
          let g := put_entry a (step_entry q x caches e) (reg s) in
          match r with
          | Answered out => (Dropping q a (Ok out), with_reg g)
          | Failed => (Dropping q a (Err Inference), with_reg g)
          | Panicked => (Unwinding q a, with_reg g)
          end
      end
  | Dropping q a r => (Replying q r, with_reg (drop_clone a (reg s)))
  | Unwinding q a => (Done q, with_reg (drop_clone a (reg s)))
  | Replying q r => (Done q, {| reg := reg s; running := running s; replies := (q, r) :: replies s |})
  | Done q => (t, s)
  end.

Inductive store_event :=
| Registered (caches : KV)
| Released (id : N)
| Started (batch : list StepRequest)
| Ran (i : nat) (x : engine).

Definition store_step (s : store) (e : store_event) : store :=
  match e with
  | Registered caches =>
      {| reg := snd (register caches (reg s)); running := running s; replies := replies s |}
  | Released id => {| reg := snd (release id (reg s)); running := running s; replies := replies s |}
  | Started batch => {| reg := reg s; running := running s ++ (Lookup <$> batch); replies := replies s |}
  | Ran i x =>
      match running s !! i with
      | None => s
      | Some t =>
          let '(t, s) := run_task x t s in
          {| reg := reg s; running := <[i := t]> (running s); replies := replies s |}
      end
  end.

Definition store_run (evs : list store_event) (s : store) : store := foldl store_step s evs.

Definition empty_store : store :=
  {| reg := {| next := 0; table := ∅; entries := ∅; next_entry := 0 |}; running := []; replies := [] |}.

(** *** One request, alone

    What its caches are after a sequence of steps, and what each step answered. *)
Fixpoint replay (caches : KV) (l : list (StepRequest * engine)) : list (StepRequest * step_result) * KV :=
  match l with
  | [] => ([], caches)
  | (q, x) :: l =>
      let '(r, caches) := model_step q x caches in
      let '(rs, caches) := replay caches l in
      ((q, r) :: rs, caches)
  end.

Lemma replay_app caches l k :
  replay caches (l ++ k) =
  (fst (replay caches l) ++ fst (replay (snd (replay caches l)) k), snd (replay (snd (replay caches l)) k)).
Proof.
  revert caches. induction l as [|[q x] l IH]; intros caches; simpl; [by destruct (replay caches k)|].
  destruct (model_step q x caches) as [r c]. rewrite IH.
  destruct (replay c l) as [rs c']. simpl. by destruct (replay c' k).
Qed.

(** *** The tasks that refer to an entry *)

Definition refers (a : nat) (t : task_code) : nat :=
  match t with
  | Locking _ b | Stepping _ b | Dropping _ b _ | Unwinding _ b => if (b =? a)%nat then 1 else 0
  | _ => 0
  end.
Definition steps_on (a : nat) (t : task_code) : nat :=
  match t with Stepping _ b => if (b =? a)%nat then 1 else 0 | _ => 0 end.
Definition total (f : task_code -> nat) (l : list task_code) : nat := foldr (fun t n => f t + n)%nat 0%nat l.

Definition request_of (t : task_code) : StepRequest :=
  match t with
  | Lookup q | Locking q _ | Stepping q _ | Dropping q _ _ | Unwinding q _ | Replying q _ | Done q => q
  end.

(** The outcome a task is about to send. *)
Definition outcome_of (t : task_code) : list (StepRequest * result BatchError answer) :=
  match t with Dropping q _ r | Replying q r => [(q, r)] | _ => [] end.

(** The outcomes of the steps of request [i], sent or about to be. *)
Definition of_request (i : N) (l : list (StepRequest * result BatchError answer)) :=
  List.filter (fun p => (id p.1 =? i)%N && match p.2 with Err NotRegistered => false | _ => true end) l.
Definition outcomes (i : N) (s : store) : list (StepRequest * result BatchError answer) :=
  of_request i (concat (outcome_of <$> running s) ++ replies s).

(** What the steps of an entry sent: nothing for a step that panicked. *)
Definition sent (rs : list (StepRequest * step_result)) : list (StepRequest * result BatchError answer) :=
  omap (fun p => match p.2 with
                 | Answered out => Some (p.1, Ok out)
                 | Failed => Some (p.1, Err Inference)
                 | Panicked => None
                 end) rs.

Record entry_ok (s : store) (a : nat) (e : entry) : Prop := {
  en_kv : kv e = snd (replay (initial e) (applied e));
  en_own : Forall (fun p => id p.1 = owner e) (applied e);
  en_sent : outcomes (owner e) s ≡ₚ sent (fst (replay (initial e) (applied e)));
  en_clones : clones e = total (refers a) (running s);
  en_locked : total (steps_on a) (running s) = if locked e then 1%nat else 0%nat;
  en_live : listed e = true \/ (0 < clones e)%nat;
  en_listed : listed e = true -> table (reg s) !! owner e = Some a;
  en_fresh : (owner e < next (reg s))%N;
}.

Record store_ok (s : store) : Prop := {
  so_entries a e : entries (reg s) !! a = Some e -> entry_ok s a e;
  so_table i a : table (reg s) !! i = Some a ->
    exists e, entries (reg s) !! a = Some e /\ listed e = true /\ owner e = i;
  so_tasks t a : t ∈ running s -> (0 < refers a t)%nat ->
    exists e, entries (reg s) !! a = Some e /\ owner e = id (request_of t);
  so_owners a b e e' : entries (reg s) !! a = Some e -> entries (reg s) !! b = Some e' ->
    owner e = owner e' -> a = b;
  so_addr a e : entries (reg s) !! a = Some e -> (a < next_entry (reg s))%nat;
  so_outcomes i : (next (reg s) <= i)%N -> outcomes i s = [];
  so_next : (next (reg s) <= u64_max)%N;
}.

Lemma total_app f l k : total f (l ++ k) = (total f l + total f k)%nat.
Proof. induction l as [|t l IH]; simpl; [done|]. rewrite IH. lia. Qed.

Lemma total_0 f l : (forall t, t ∈ l -> f t = 0%nat) -> total f l = 0%nat.
Proof.
  induction l as [|t l IH]; intros Hf; [done|]. simpl. rewrite (Hf t) by by left.
  apply IH. intros u Hu. apply Hf. by right.
Qed.

Lemma total_elem f l t : t ∈ l -> (f t <= total f l)%nat.
Proof. induction 1; simpl; lia. Qed.

Lemma of_request_app i l k : of_request i (l ++ k) = of_request i l ++ of_request i k.
Proof. apply List.filter_app. Qed.

(** The task that runs, and the rest of the batch. *)
Lemma split_running (l : list task_code) i t : l !! i = Some t ->
  exists l1 l2, l = l1 ++ t :: l2 /\ forall t', <[i := t']> l = l1 ++ t' :: l2.
Proof.
  intros Hi. exists (take i l), (drop (S i) l). split; [by rewrite take_drop_middle|].
  intros t'. rewrite insert_take_drop; [done|]. by eapply lookup_lt_Some.
Qed.

Lemma middle_elem {A} (l1 l2 : list A) x y z :
  z ∈ l1 ++ y :: l2 -> z = y \/ z ∈ l1 ++ x :: l2.
Proof. set_solver. Qed.

Lemma total_middle f l1 t l2 t' :
  (total f (l1 ++ t' :: l2) + f t = total f (l1 ++ t :: l2) + f t')%nat.
Proof. rewrite !total_app. simpl. lia. Qed.

(** The task rewrites its entry. *)
Lemma ran_put s l1 t l2 t' a e e' rs :
  let s' := {| reg := put_entry a e' (reg s); running := l1 ++ t' :: l2; replies := rs |} in
  store_ok s -> running s = l1 ++ t :: l2 -> entries (reg s) !! a = Some e ->
  owner e' = owner e -> listed e' = listed e ->
  kv e' = snd (replay (initial e') (applied e')) -> Forall (fun p => id p.1 = owner e) (applied e') ->
  (clones e' + refers a t = clones e + refers a t')%nat ->
  ((if locked e' then 1 else 0) + steps_on a t = (if locked e then 1 else 0) + steps_on a t')%nat ->
  (listed e = true \/ (0 < clones e')%nat) ->
  (forall b, b <> a -> refers b t' = refers b t /\ steps_on b t' = steps_on b t) ->
  request_of t' = request_of t -> ((0 < refers a t')%nat -> owner e = id (request_of t)) ->
  (forall i, i <> owner e -> outcomes i s' ≡ₚ outcomes i s) ->
  outcomes (owner e) s' ≡ₚ sent (fst (replay (initial e') (applied e'))) ->
  store_ok s'.
Proof.
  intros s' Hok Hrun Ha Ho Hl Hkv Hown Hcl Hlk Hlive Hother Hreq Hrt Hout Houte.
  pose proof (so_entries _ Hok _ _ Ha) as He. split; simpl.
  - intros b f [[<- <-]|[Hne Hb]]%lookup_insert_Some.
    + split; rewrite ?Ho; simpl; auto.
      * pose proof (total_middle (refers a) l1 t l2 t') as Ht. rewrite <-Hrun, <-(en_clones _ _ _ He) in Ht. lia.
      * pose proof (total_middle (steps_on a) l1 t l2 t') as Ht. rewrite <-Hrun, (en_locked _ _ _ He) in Ht. lia.
      * rewrite Hl. destruct Hlive; auto.
      * rewrite Hl. apply (en_listed _ _ _ He).
      * apply (en_fresh _ _ _ He).
    + destruct (so_entries _ Hok _ _ Hb) as [H1 H2 H3 H4 H5 H6 H7 H8].
      destruct (Hother b) as [Hr Hs]; [done|]. split; simpl; auto.
      * rewrite Hout; [done|]. intros Heq. apply Hne. symmetry. by eapply (so_owners _ Hok b a).
      * pose proof (total_middle (refers b) l1 t l2 t') as Ht. rewrite <-Hrun, <-H4 in Ht. lia.
      * pose proof (total_middle (steps_on b) l1 t l2 t') as Ht. rewrite <-Hrun, H5 in Ht. lia.
  - intros i b (f & Hf & Hfl & Hfo)%(so_table _ Hok). destruct (decide (b = a)) as [->|].
    + exists e'. rewrite lookup_insert_eq. simplify_eq. by rewrite Hl, Ho.
    + exists f. by rewrite lookup_insert_ne.
  - intros u b Hu Hb. apply (middle_elem _ _ t) in Hu as [->|Hu].
    + destruct (decide (b = a)) as [->|Hne].
      * exists e'. rewrite lookup_insert_eq, Ho, Hreq. split; [done|]. by apply Hrt.
      * rewrite lookup_insert_ne by done. destruct (Hother b Hne) as [Hr _].
        rewrite Hreq. apply (so_tasks _ Hok); [|lia]. rewrite Hrun. set_solver.
    + rewrite <-Hrun in Hu. destruct (so_tasks _ Hok _ _ Hu Hb) as (f & Hf & Hfo).
      destruct (decide (b = a)) as [->|]; [|exists f; by rewrite lookup_insert_ne].
      exists e'. rewrite lookup_insert_eq, Ho. split; [done|]. congruence.
  - intros b c f f' [[<- <-]|[Hb1 Hb]]%lookup_insert_Some [[<- <-]|[Hc1 Hc]]%lookup_insert_Some; rewrite ?Ho.
    + done.
    + intros Hff. by apply (so_owners _ Hok a c e f').
    + intros Hff. by apply (so_owners _ Hok b a f e).
    + by apply (so_owners _ Hok).
  - intros b f [[<- <-]|[_ Hb]]%lookup_insert_Some; [by eapply (so_addr _ Hok)|by eapply (so_addr _ Hok)].
  - intros i Hi. apply Permutation_nil. symmetry. rewrite Hout; [by rewrite (so_outcomes _ Hok)|].
    intros ->. pose proof (en_fresh _ _ _ He). lia.
  - apply (so_next _ Hok).
Qed.

(** The task touches no entry. *)
Lemma ran_same s l1 t l2 t' rs :
  let s' := {| reg := reg s; running := l1 ++ t' :: l2; replies := rs |} in
  store_ok s -> running s = l1 ++ t :: l2 ->
  (forall b, refers b t' = refers b t /\ steps_on b t' = steps_on b t) ->
  request_of t' = request_of t ->
  (forall i, outcomes i s' ≡ₚ outcomes i s) ->
  store_ok s'.
Proof.
  intros s' Hok Hrun Hother Hreq Hout. split; simpl; try apply Hok.
  - intros b f Hb. destruct (so_entries _ Hok _ _ Hb) as [H1 H2 H3 H4 H5 H6 H7 H8].
    destruct (Hother b) as [Hr Hs]. split; simpl; auto.
    + by rewrite Hout.
    + pose proof (total_middle (refers b) l1 t l2 t') as Ht. rewrite <-Hrun, <-H4 in Ht. lia.
    + pose proof (total_middle (steps_on b) l1 t l2 t') as Ht. rewrite <-Hrun, H5 in Ht. lia.
  - intros u b Hu Hb. apply (middle_elem _ _ t) in Hu as [->|Hu].
    + destruct (Hother b) as [Hr _]. rewrite Hreq. apply (so_tasks _ Hok); [|lia]. rewrite Hrun. set_solver.
    + rewrite <-Hrun in Hu. by apply (so_tasks _ Hok).
  - intros i Hi. apply Permutation_nil. symmetry. rewrite Hout. by rewrite (so_outcomes _ Hok).
Qed.

(** The task frees its entry: it held the last reference. *)
Lemma ran_free s l1 t l2 t' a e rs :
  let s' := {| reg := {| next := next (reg s); table := table (reg s); entries := delete a (entries (reg s));
                         next_entry := next_entry (reg s) |};
               running := l1 ++ t' :: l2; replies := rs |} in
  store_ok s -> running s = l1 ++ t :: l2 -> entries (reg s) !! a = Some e ->
  clones e = 1%nat -> listed e = false -> refers a t = 1%nat -> refers a t' = 0%nat ->
  (forall b, b <> a -> refers b t' = refers b t /\ steps_on b t' = steps_on b t) ->
  request_of t' = request_of t ->
  (forall i, outcomes i s' ≡ₚ outcomes i s) ->
  store_ok s'.
Proof.
  intros s' Hok Hrun Ha Hc Hl Hr1 Hr0 Hother Hreq Hout.
  pose proof (so_entries _ Hok _ _ Ha) as He.
  pose proof (total_middle (refers a) l1 t l2 t') as Ht. rewrite <-Hrun, <-(en_clones _ _ _ He) in Ht.
  split; simpl; try apply Hok.
  - intros b f [Hne Hb]%lookup_delete_Some. destruct (so_entries _ Hok _ _ Hb) as [H1 H2 H3 H4 H5 H6 H7 H8].
    destruct (Hother b) as [Hr Hs]; [done|]. split; simpl; auto.
    + by rewrite Hout.
    + pose proof (total_middle (refers b) l1 t l2 t') as Ht'. rewrite <-Hrun, <-H4 in Ht'. lia.
    + pose proof (total_middle (steps_on b) l1 t l2 t') as Ht'. rewrite <-Hrun, H5 in Ht'. lia.
  - intros i b (f & Hf & Hfl & Hfo)%(so_table _ Hok). exists f. rewrite lookup_delete_ne; [done|].
    intros <-. congruence.
  - intros u b Hu Hb. destruct (decide (b = a)) as [->|Hne].
    { pose proof (total_elem (refers a) _ _ Hu). lia. }
    rewrite lookup_delete_ne by done. apply (middle_elem _ _ t) in Hu as [->|Hu].
    + destruct (Hother b Hne) as [Hr _]. rewrite Hreq. apply (so_tasks _ Hok); [|lia]. rewrite Hrun. set_solver.
    + rewrite <-Hrun in Hu. by apply (so_tasks _ Hok).
  - intros b c f f' [_ Hb]%lookup_delete_Some [_ Hc']%lookup_delete_Some. by apply (so_owners _ Hok).
  - intros b f [_ Hb]%lookup_delete_Some. by eapply (so_addr _ Hok).
  - intros i Hi. apply Permutation_nil. symmetry. rewrite Hout. by rewrite (so_outcomes _ Hok).
Qed.

Lemma outcomes_split i g l1 t l2 rs :
  outcomes i {| reg := g; running := l1 ++ t :: l2; replies := rs |} ≡ₚ
  of_request i (outcome_of t ++ rs) ++ of_request i (concat (outcome_of <$> l1 ++ l2)).
Proof.
  unfold outcomes. simpl. rewrite !fmap_app, fmap_cons, !concat_app. simpl. rewrite !of_request_app.
  rewrite !app_assoc. solve_Permutation.
Qed.

Lemma of_request_one i q r :
  of_request i [(q, r)] =
  if (id q =? i)%N && match r with Err NotRegistered => false | _ => true end then [(q, r)] else [].
Proof. done. Qed.

(** *** Every event *)

Lemma registered_ok s caches :
  store_ok s -> (next (reg s) < u64_max)%N -> store_ok (store_step s (Registered caches)).
Proof.
  intros Hok Hlt. unfold register. simpl.
  assert (Hw : wrap_add u64_max (next (reg s)) 1 = (next (reg s) + 1)%N) by (apply wrap_add_small; lia).
  assert (Hfree : entries (reg s) !! next_entry (reg s) = None).
  { destruct (entries (reg s) !! next_entry (reg s)) as [e|] eqn:E; [|done]. apply (so_addr _ Hok) in E. lia. }
  assert (Hnone : forall f, (forall t, f t <= refers (next_entry (reg s)) t)%nat -> total f (running s) = 0%nat).
  { intros f Hf. apply total_0. intros t Ht. destruct (decide (f t = 0%nat)) as [|Hz]; [done|].
    destruct (so_tasks _ Hok t (next_entry (reg s)) Ht) as (e & He & _); [specialize (Hf t); lia|congruence]. }
  split; simpl.
  - intros a e [[<- <-]|[Hne Ha]]%lookup_insert_Some.
    + split; simpl; auto.
      * change (outcomes (next (reg s)) s ≡ₚ []). by rewrite (so_outcomes _ Hok).
      * by rewrite Hnone.
      * apply Hnone. intros []; simpl; lia.
      * by rewrite lookup_insert_eq.
      * rewrite Hw. lia.
    + destruct (so_entries _ Hok _ _ Ha) as [H1 H2 H3 H4 H5 H6 H7 H8]. split; simpl; auto; [|lia].
      intros Hl. rewrite lookup_insert_ne by lia. by apply H7.
  - intros i a [[<- <-]|[Hne Ha]]%lookup_insert_Some.
    + eexists. by rewrite lookup_insert_eq.
    + destruct (so_table _ Hok _ _ Ha) as (e & He & Hl & Ho). exists e. rewrite lookup_insert_ne; [done|]. congruence.
  - intros t a Ht Hr. destruct (so_tasks _ Hok _ _ Ht Hr) as (e & He & Ho). exists e.
    rewrite lookup_insert_ne; [done|]. congruence.
  - intros a b e e' [[<- <-]|[Ha1 Ha]]%lookup_insert_Some [[<- <-]|[Hb1 Hb]]%lookup_insert_Some; simpl.
    + done.
    + intros Heq. pose proof (en_fresh _ _ _ (so_entries _ Hok _ _ Hb)). lia.
    + intros Heq. pose proof (en_fresh _ _ _ (so_entries _ Hok _ _ Ha)). lia.
    + by apply (so_owners _ Hok).
  - intros a e [[<- <-]|[_ Ha]]%lookup_insert_Some; [lia|]. apply (so_addr _ Hok) in Ha. lia.
  - intros i Hi. rewrite Hw in Hi. change (outcomes i s = []). apply (so_outcomes _ Hok). lia.
  - rewrite Hw. lia.
Qed.

Lemma release_entry i s a e :
  store_ok s -> table (reg s) !! i = Some a -> entries (reg s) !! a = Some e ->
  snd (release i (reg s)) =
  {| next := next (reg s); table := delete i (table (reg s));
     entries := if (clones e =? 0)%nat then delete a (entries (reg s))
                else <[a := with_clones (clones e) false e]> (entries (reg s));
     next_entry := next_entry (reg s) |}.
Proof. intros Hok Hi Ha. unfold release, put_entry. rewrite Hi. simpl. rewrite Ha. by destruct (clones e =? 0)%nat. Qed.

Lemma released_ok s i : store_ok s -> store_ok (store_step s (Released i)).
Proof.
  intros Hok. simpl. destruct (table (reg s) !! i) as [a|] eqn:Hi;
    [|unfold release; rewrite Hi; simpl; by destruct s].
  destruct (so_table _ Hok _ _ Hi) as (e & Ha & Hl & Ho). rewrite (release_entry _ _ _ _ Hok Hi Ha).
  pose proof (so_entries _ Hok _ _ Ha) as He.
  set (es := if (clones e =? 0)%nat then delete a (entries (reg s)) else _).
  assert (Hes : forall b f, es !! b = Some f ->
    (b <> a /\ entries (reg s) !! b = Some f) \/
    (b = a /\ f = with_clones (clones e) false e /\ (0 < clones e)%nat)).
  { subst es. intros b f. destruct (Nat.eqb_spec (clones e) 0).
    - intros [? ?]%lookup_delete_Some. left. split; [congruence|done].
    - intros [[<- <-]|[? ?]]%lookup_insert_Some; [right; split_and!; [done|done|lia]|left]. split; [congruence|done]. }
  assert (Hkeep : forall b f, entries (reg s) !! b = Some f -> b <> a -> es !! b = Some f).
  { subst es. intros b f Hb Hne. by destruct (_ =? _)%nat; rewrite ?lookup_delete_ne, ?lookup_insert_ne by congruence. }
  split; simpl.
  - intros b f [[Hne Hb]|(-> & -> & Hpos)]%Hes.
    + destruct (so_entries _ Hok _ _ Hb) as [H1 H2 H3 H4 H5 H6 H7 H8]. split; simpl; auto.
      intros Hlf. rewrite lookup_delete_ne; [by apply H7|]. intros Heq. apply Hne.
      apply (so_owners _ Hok b a f e); congruence.
    + destruct He as [H1 H2 H3 H4 H5 H6 H7 H8]. split; simpl; auto. done.
  - intros k b [Hne Hb]%lookup_delete_Some. destruct (so_table _ Hok _ _ Hb) as (f & Hf & Hlf & Hof).
    exists f. split; [|done]. apply Hkeep; [done|]. intros ->. congruence.
  - intros t b Ht Hr. destruct (so_tasks _ Hok _ _ Ht Hr) as (f & Hf & Hof).
    destruct (decide (b = a)) as [->|Hne]; [|exists f; split; [by apply Hkeep|done]].
    assert (Hpos : (0 < clones e)%nat).
    { rewrite (en_clones _ _ _ He). pose proof (total_elem (refers a) _ _ Ht). lia. }
    exists (with_clones (clones e) false e). split; [|simpl; congruence]. subst es.
    destruct (Nat.eqb_spec (clones e) 0); [lia|]. by rewrite lookup_insert_eq.
  - intros b c f f' [[Hb1 Hb]|(-> & -> & _)]%Hes [[Hc1 Hc]|(-> & -> & _)]%Hes; simpl.
    + by apply (so_owners _ Hok).
    + by apply (so_owners _ Hok).
    + by apply (so_owners _ Hok).
    + done.
  - intros b f [[_ Hb]|(-> & -> & _)]%Hes; by eapply (so_addr _ Hok).
  - apply (so_outcomes _ Hok).
  - apply (so_next _ Hok).
Qed.

Lemma started_ok s batch : store_ok s -> store_ok (store_step s (Started batch)).
Proof.
  intros Hok. simpl.
  assert (Ht : forall f, (forall q, f (Lookup q) = 0%nat) ->
    total f (running s ++ (Lookup <$> batch)) = total f (running s)).
  { intros f Hf. rewrite total_app, (total_0 f (Lookup <$> batch)); [lia|].
    intros t (q & -> & _)%list_elem_of_fmap. apply Hf. }
  assert (Ho : forall i, outcomes i {| reg := reg s; running := running s ++ (Lookup <$> batch); replies := replies s |} =
    outcomes i s).
  { intros i. unfold outcomes. simpl. rewrite fmap_app, concat_app.
    assert (Hn : concat (outcome_of <$> (Lookup <$> batch)) = []) by (clear; induction batch; simpl; auto).
    by rewrite Hn, app_nil_r. }
  split; simpl; try apply Hok.
  - intros a e Ha. destruct (so_entries _ Hok _ _ Ha) as [H1 H2 H3 H4 H5 H6 H7 H8].
    split; simpl; auto; rewrite ?Ho, ?Ht; done.
  - intros t a [Hin|(q & -> & _)%list_elem_of_fmap]%elem_of_app Hr; [by apply (so_tasks _ Hok)|simpl in Hr; lia].
  - intros i Hi. rewrite Ho. by apply (so_outcomes _ Hok).
Qed.

Lemma refers_other a b q : b <> a -> refers b (Locking q a) = 0%nat.
Proof. intros. simpl. by rewrite (proj2 (Nat.eqb_neq a b)). Qed.

(** Solves [refers] and [steps_on] of concrete tasks. *)
Ltac counts :=
  simpl; repeat match goal with
  | |- context [(?a =? ?a)%nat] => rewrite Nat.eqb_refl
  | H : ?b <> ?a |- context [(?a =? ?b)%nat] => rewrite (proj2 (Nat.eqb_neq a b)) by congruence
  end; try lia; try done.

Lemma clone_dropped_ok s l1 t l2 t' a rs :
  store_ok s -> running s = l1 ++ t :: l2 ->
  refers a t = 1%nat -> refers a t' = 0%nat -> steps_on a t = 0%nat -> steps_on a t' = 0%nat ->
  (forall b, b <> a -> refers b t' = refers b t /\ steps_on b t' = steps_on b t) ->
  request_of t' = request_of t ->
  (forall i g, outcomes i {| reg := g; running := l1 ++ t' :: l2; replies := rs |} ≡ₚ outcomes i s) ->
  store_ok {| reg := drop_clone a (reg s); running := l1 ++ t' :: l2; replies := rs |}.
Proof.
  intros Hok Hrun H1t H0t' Hs Hs' Hother Hreq Hout.
  assert (Hin : t ∈ running s) by (rewrite Hrun; set_solver).
  destruct (so_tasks _ Hok t a Hin) as (e & Ha & Ho); [lia|].
  pose proof (so_entries _ Hok _ _ Ha) as He.
  assert (Hpos : (1 <= clones e)%nat) by (rewrite (en_clones _ _ _ He); pose proof (total_elem (refers a) _ _ Hin); lia).
  unfold drop_clone. rewrite Ha.
  destruct (Nat.eqb_spec (clones e) 1) as [H1|Hn1]; [destruct (listed e) eqn:Hl|]; simpl.
  - eapply (ran_put s l1 t l2 t' a e); eauto; simpl; try apply He; try lia; try (by left);
      try (rewrite Hout; apply He).
  - eapply (ran_free s l1 t l2 t' a e); eauto.
  - eapply (ran_put s l1 t l2 t' a e); eauto; simpl; try apply He; try lia; try (rewrite Hout; apply He).
Qed.

Lemma ran_ok s i x : store_ok s -> store_ok (store_step s (Ran i x)).
Proof.
  intros Hok. simpl. destruct (running s !! i) as [t|] eqn:Hi; [|done].
  destruct (split_running _ _ _ Hi) as (l1 & l2 & Hrun & Hins).
  assert (Hin : t ∈ running s) by (rewrite Hrun; set_solver).
  assert (Hid : store_ok {| reg := reg s; running := <[i := t]> (running s); replies := replies s |}).
  { rewrite list_insert_id by done. by destruct s. }
  assert (Hsplit : forall k, outcomes k s ≡ₚ of_request k (outcome_of t ++ replies s) ++
    of_request k (concat (outcome_of <$> l1 ++ l2))).
  { intros k. rewrite <-(outcomes_split k (reg s)), <-Hrun. by destruct s. }
  destruct t as [q|q a|q a|q a r|q a|q r|q]; simpl.
  - destruct (get (id q) (reg s)) as [[a|] g] eqn:Eg; unfold get in Eg;
      destruct (table (reg s) !! id q) as [a'|] eqn:Et; simplify_eq/=; rewrite Hins.
    + destruct (so_table _ Hok _ _ Et) as (e & Ha & Hl & Ho). rewrite Ha.
      pose proof (so_entries _ Hok _ _ Ha) as He.
      assert (Hout : forall k, outcomes k {| reg := put_entry a (with_clones (S (clones e)) (listed e) e) (reg s);
        running := l1 ++ Locking q a :: l2; replies := replies s |} ≡ₚ outcomes k s)
        by (intros k; by rewrite outcomes_split, Hsplit).
      eapply (ran_put s l1 (Lookup q) l2 (Locking q a) a e); eauto; simpl; try apply He; counts.
      * intros b Hb. counts.
      * rewrite Hout. apply He.
    + eapply ran_same; eauto. intros k. rewrite outcomes_split, Hsplit. simpl.
      by rewrite andb_false_r.
  - destruct (so_tasks _ Hok _ a Hin) as (e & Ha & Ho); [counts|]. rewrite Ha.
    destruct (locked e) eqn:Hlk; [done|]. rewrite Hins. pose proof (so_entries _ Hok _ _ Ha) as He.
    assert (Hout : forall k, outcomes k {| reg := put_entry a (with_locked true e) (reg s);
      running := l1 ++ Stepping q a :: l2; replies := replies s |} ≡ₚ outcomes k s)
      by (intros k; by rewrite outcomes_split, Hsplit).
    eapply (ran_put s l1 (Locking q a) l2 (Stepping q a) a e); eauto; simpl; try apply He; counts.
    + by rewrite Hlk.
    + intros b Hb. counts.
    + rewrite Hout. apply He.
  - destruct (so_tasks _ Hok _ a Hin) as (e & Ha & Ho); [counts|]. rewrite Ha.
    simpl in Ho. destruct (model_step q x (kv e)) as [r caches] eqn:Em. pose proof (so_entries _ Hok _ _ Ha) as He.
    assert (Hlk : locked e = true).
    { pose proof (en_locked _ _ _ He) as Hl. pose proof (total_elem (steps_on a) _ _ Hin) as Hle. simpl in Hle.
      rewrite Nat.eqb_refl in Hle. destruct (locked e); [done|lia]. }
    assert (Hre : replay (initial e) (applied e ++ [(q, x)]) = (fst (replay (initial e) (applied e)) ++ [(q, r)], caches)).
    { rewrite replay_app, <-(en_kv _ _ _ He). simpl. by rewrite Em. }
    assert (Hnew : forall t', outcome_of t' = sent [(q, r)] -> refers a t' = 1%nat -> steps_on a t' = 0%nat ->
      (forall b, b <> a -> refers b t' = refers b (Stepping q a) /\ steps_on b t' = steps_on b (Stepping q a)) ->
      request_of t' = q ->
      store_ok {| reg := put_entry a (step_entry q x caches e) (reg s); running := <[i := t']> (running s);
                  replies := replies s |}).
    { intros t' Hsent Hr Hs Hother Hreq. rewrite Hins.
      eapply (ran_put s l1 (Stepping q a) l2 t' a e); eauto; simpl; rewrite ?Hre, ?Hr, ?Hs; simpl; counts.
      - apply Forall_app. split; [apply He|]. by repeat constructor.
      - by rewrite Hlk.
      - destruct (en_live _ _ _ He); auto.
      - intros k Hk. rewrite outcomes_split, Hsplit, Hsent, !of_request_app. simpl.
        assert (Hne : (id q =? k)%N = false) by (apply N.eqb_neq; congruence).
        destruct r; simpl; rewrite ?Hne; done.
      - rewrite outcomes_split, Hsent. unfold sent at 2. rewrite omap_app. fold (sent [(q, r)]).
        change (omap _ (fst (replay (initial e) (applied e)))) with (sent (fst (replay (initial e) (applied e)))).
        rewrite <-(en_sent _ _ _ He), Hsplit, !of_request_app. simpl.
        destruct r; simpl; rewrite ?Ho, ?N.eqb_refl; simpl; rewrite ?app_nil_r; solve_Permutation. }
    destruct r; apply Hnew; counts; intros b Hb; counts.
  - rewrite Hins. eapply (clone_dropped_ok s l1 (Dropping q a r) l2 (Replying q r) a); eauto; counts.
    + intros b Hb. counts.
    + intros k g. by rewrite outcomes_split, Hsplit.
  - rewrite Hins. eapply (clone_dropped_ok s l1 (Unwinding q a) l2 (Done q) a); eauto; counts.
    + intros b Hb. counts.
    + intros k g. by rewrite outcomes_split, Hsplit.
  - rewrite Hins. eapply (ran_same s l1 (Replying q r) l2 (Done q)); eauto.
    intros k. by rewrite outcomes_split, Hsplit.
  - done.
Qed.

(** The caches registered so far: request [i] is the [i]-th. *)
Definition registrations (evs : list store_event) : list KV :=
  omap (fun e => match e with Registered caches => Some caches | _ => None end) evs.

(** The entries keep the caches their request was registered with. *)
Definition from_registrations (regs : list KV) (g : RequestRegistry) : Prop :=
  next g = N.of_nat (length regs) /\
  forall a e, entries g !! a = Some e -> regs !! N.to_nat (owner e) = Some (initial e).

Lemma from_put regs g a e e' :
  from_registrations regs g -> entries g !! a = Some e -> owner e' = owner e -> initial e' = initial e ->
  from_registrations regs (put_entry a e' g).
Proof.
  intros [Hn Hf] Ha Ho Hi. split; [done|]. simpl.
  intros b f [[<- <-]|[_ Hb]]%lookup_insert_Some; [|by apply (Hf b)].
  rewrite Ho, Hi. by apply (Hf a).
Qed.

Lemma from_fewer regs g g' :
  from_registrations regs g -> next g' = next g ->
  (forall a e, entries g' !! a = Some e -> entries g !! a = Some e) -> from_registrations regs g'.
Proof. intros [Hn Hf] Hne Hsub. split; [congruence|]. intros a e Ha. by apply (Hf a), Hsub. Qed.

Lemma from_drop regs g a : from_registrations regs g -> from_registrations regs (drop_clone a g).
Proof.
  intros Hf. unfold drop_clone. destruct (entries g !! a) as [e|] eqn:Ha; [|done].
  case_match; [|by eapply from_put]. eapply from_fewer; [done|done|]. simpl. by intros b f [_ ?]%lookup_delete_Some.
Qed.

Lemma step_registrations regs e s :
  (N.of_nat (length regs) < u64_max)%N -> from_registrations regs (reg s) ->
  from_registrations (regs ++ registrations [e]) (reg (store_step s e)).
Proof.
  intros Hlt Hf. destruct e as [caches|i|batch|i x]; simpl; rewrite ?app_nil_r; try done.
  - destruct Hf as [Hn Hf]. split; simpl.
    + rewrite wrap_add_small by lia. rewrite length_app. simpl. lia.
    + intros a e [[<- <-]|[_ Ha]]%lookup_insert_Some; simpl.
      * by rewrite Hn, Nat2N.id, lookup_app_r, Nat.sub_diag by lia.
      * apply lookup_app_l_Some. by apply (Hf a).
  - unfold release. destruct (table (reg s) !! i) as [a|]; simpl; [|done].
    destruct (entries (reg s) !! a) as [e|] eqn:Ha; simpl; [|by eapply from_fewer].
    destruct (_ =? _)%nat; simpl.
    + eapply from_fewer; [done|done|]. simpl. by intros b f [_ ?]%lookup_delete_Some.
    + eapply (from_put _ {| next := next (reg s); table := delete i (table (reg s)); entries := entries (reg s);
        next_entry := next_entry (reg s) |} a e); [by eapply from_fewer|done..].
  - destruct (running s !! i) as [t|]; [|done].
    destruct t as [q|q a|q a|q a r|q a|q r|q]; simpl; try done; try by apply from_drop.
    + unfold get. destruct (table (reg s) !! id q) as [a|]; simpl; [|done].
      destruct (entries (reg s) !! a) as [e|] eqn:Ha; [by eapply from_put|done].
    + destruct (entries (reg s) !! a) as [e|] eqn:Ha; [|done]. destruct (locked e); [done|by eapply from_put].
    + destruct (entries (reg s) !! a) as [e|] eqn:Ha; [|done].
      destruct (model_step q x (kv e)) as [[] caches]; by eapply from_put.
Qed.

Lemma store_step_ok e s :
  store_ok s -> (next (reg s) < u64_max)%N -> store_ok (store_step s e).
Proof.
  intros Hok Hlt. destruct e; [by apply registered_ok|by apply released_ok|by apply started_ok|by apply ran_ok].
Qed.

Lemma store_run_ok evs : forall s regs,
  store_ok s -> from_registrations regs (reg s) ->
  (N.of_nat (length regs) + N.of_nat (length evs) <= u64_max)%N ->
  store_ok (store_run evs s) /\ from_registrations (regs ++ registrations evs) (reg (store_run evs s)).
Proof.
  induction evs as [|e evs IH]; intros s regs Hok Hf Hlen; [by rewrite app_nil_r|].
  change (store_run (e :: evs) s) with (store_run evs (store_step s e)). simpl in Hlen.
  assert (Hr : registrations (e :: evs) = registrations [e] ++ registrations evs) by by destruct e.
  rewrite Hr, app_assoc. apply IH.
  - apply store_step_ok; [done|]. destruct Hf as [-> _]. lia.
  - apply step_registrations; [lia|done].
  - assert (length (registrations [e]) <= 1)%nat by (destruct e; simpl; lia). rewrite length_app. lia.
Qed.

Lemma empty_ok : store_ok empty_store /\ from_registrations [] (reg empty_store).
Proof.
  split; [|by split].
  split; simpl; try done. intros t a Ht. by apply elem_of_nil in Ht.
Qed.

(** C12. Requests of a batch do not see each other.  Whatever the interleaving of
    registrations, releases and the tasks of the batches, and with failing and
    panicking steps: [release] hands back the caches the request was registered with
    after the request's own steps, one after the other, as if it had run alone; every
    answer sent for the request is that of exactly one of these steps, and each step
    that did not panic is answered once; [release] returns nothing only when the id is
    not registered or a task of the request still holds the caches; and caches that are
    neither registered nor held by a task are freed. *)
Theorem requests_run_alone evs i :
  (N.of_nat (length evs) <= u64_max)%N ->
  let s := store_run evs empty_store in
  match fst (release i (reg s)) with
  | Some caches => exists init steps,
      registrations evs !! N.to_nat i = Some init /\ Forall (fun p => id p.1 = i) steps /\
      caches = snd (replay init steps) /\ outcomes i s ≡ₚ sent (fst (replay init steps))
  | None => table (reg s) !! i = None \/
      exists t a, t ∈ running s /\ table (reg s) !! i = Some a /\ refers a t = 1%nat /\ id (request_of t) = i
  end /\
  (forall a e, entries (reg s) !! a = Some e ->
     table (reg s) !! owner e = Some a \/ exists t, t ∈ running s /\ refers a t = 1%nat).
Proof.
  intros Hlen s. destruct empty_ok as [Hok0 Hf0].
  destruct (store_run_ok evs empty_store [] Hok0 Hf0) as [Hok [_ Hf]]; [done|]. fold s in Hok, Hf.
  assert (Hheld : forall a e, entries (reg s) !! a = Some e -> (0 < clones e)%nat ->
    exists t, t ∈ running s /\ refers a t = 1%nat).
  { intros a e Ha Hc. rewrite (en_clones _ _ _ (so_entries _ Hok _ _ Ha)) in Hc. revert Hc. clear.
    induction (running s) as [|t l IH]; simpl; [lia|]. intros Hc. destruct (refers a t) as [|n] eqn:Hr.
    - destruct IH as (u & Hu & Hru); [lia|]. exists u. split; [by right|done].
    - exists t. split; [by left|]. unfold refers in *. repeat case_match; lia. }
  split.
  - unfold release. destruct (table (reg s) !! i) as [a|] eqn:Hi; simpl; [|by left].
    destruct (so_table _ Hok _ _ Hi) as (e & Ha & Hl & Ho). rewrite Ha. pose proof (so_entries _ Hok _ _ Ha) as He.
    destruct (Nat.eqb_spec (clones e) 0) as [Hz|Hnz]; simpl.
    + exists (initial e), (applied e). subst i. split_and!; [by apply (Hf a)|apply He|apply He|apply He].
    + right. destruct (Hheld a e Ha) as (t & Ht & Hr); [lia|]. exists t, a. split_and!; try done.
      destruct (so_tasks _ Hok t a Ht) as (f & Hfe & Hof); [lia|]. congruence.
  - intros a e Ha. pose proof (so_entries _ Hok _ _ Ha) as He.
    destruct (en_live _ _ _ He) as [Hl|Hc]; [left; by apply (en_listed _ _ _ He)|right; by eapply Hheld].
Qed.
End registry.

Module Witness.
Definition step (i t : N) : StepRequest :=
  {| id := i; token_id := t; pos := 0; mode := Decode; resp := t |}.

(** Full queues for a scheduler with batches of [n]. *)
Definition backlog (n : nat) : list intake_event :=
  ((fun k => Sent Interactive (step 1 (N.of_nat k))) <$> seq 0 (n * 4)) ++
  ((fun k => Sent Audit (step 2 (N.of_nat k))) <$> seq 0 (n * 4)).

Definition flooded (n : nat) : intake := intake_run n true (backlog n) fresh_intake.
Definition classes_of (bs : list (list tagged)) : list (list SessionClass) := (fun b => b.*1) <$> bs.

(** With the default of eight requests a batch has seven Interactive requests for one
    Audit request: the first receive takes an Interactive request before the weighted
    drain starts, and only one cycle and a half fit. *)
Example default_share_is_seven_to_one :
  classes_of (batches (intake_run 8 true (replicate 14 Polled ++ [Executed]) (flooded 8))) =
  [[Interactive; Interactive; Interactive; Interactive; Interactive; Audit; Interactive; Interactive]].
Proof. by vm_compute. Qed.

(** A batch of at most five never reaches the Audit channel. *)
Example audit_starves_in_small_batches :
  classes_of (batches (intake_run 5 true (replicate 6 Polled ++ [Executed]) (flooded 5))) =
    [replicate 5 Interactive] /\
  (forall evs, Executed ∉ evs -> audits (current (intake_run 5 true evs (flooded 5))) = 0%nat).
Proof.
  split; [by vm_compute|]. intros evs Hev.
  apply small_batches_skip_audit; [lia|by vm_compute|vm_compute; lia|done].
Qed.

Definition served_twice : list intake_event :=
  replicate 14 Polled ++ [Executed] ++ replicate 14 Polled ++ [Executed].

Lemma audit_requests_are_served_witness :
  (audits (handed (flooded 8)) + 2 <= audits (handed (intake_run 8 true served_twice (flooded 8))))%nat.
Proof.
  assert (Hi : at_phase (flooded 8) = Idle) by (vm_compute; reflexivity).
  pose proof (audit_requests_are_served 8 true served_twice (flooded 8) ltac:(lia) Hi) as H. cbv zeta in H.
  assert (Hn : Nat.min (length (batches (intake_run 8 true served_twice (flooded 8))) - length (batches (flooded 8)))
    (length (audit (flooded 8))) = 2%nat) by (vm_compute; reflexivity).
  rewrite Hn in H. exact H.
Defined.

(** A model that counts the tokens it has seen and panics on token 9. *)
Definition count_tokens (q : StepRequest) (_ : unit) (seen : list N) : step_result * list N :=
  if (token_id q =? 9)%N then (Panicked, seen)
  else (Answered (length seen), seen ++ [token_id q]).

(** Two requests in one batch, then a second batch with a panic, and a release that comes
    while the panicking task still holds the caches of request 0. *)
Definition two_requests : list (store_event (KV := list N) (engine := unit)) :=
  [Registered [7]; Registered [8]; Started [step 0 1; step 1 2]; Ran 1 tt; Ran 0 tt; Ran 0 tt; Ran 1 tt;
   Ran 1 tt; Ran 0 tt; Ran 0 tt; Ran 1 tt; Ran 0 tt; Ran 1 tt; Started [step 0 9; step 1 3]; Ran 2 tt;
   Ran 3 tt; Ran 2 tt; Ran 2 tt; Ran 3 tt; Ran 3 tt; Ran 3 tt; Ran 3 tt]%N.

Abbreviation after_two := (store_run count_tokens two_requests empty_store).

Lemma requests_run_alone_witness :
  fst (release 1 (reg after_two)) = Some [8; 2; 3]%N /\
  (exists init steps, registrations two_requests !! 1%nat = Some init /\
     [8; 2; 3]%N = snd (replay count_tokens init steps)) /\
  fst (release 0 (reg after_two)) = None.
Proof.
  assert (Hlen : (N.of_nat (length two_requests) <= u64_max)%N) by (vm_compute; discriminate).
  pose proof (requests_run_alone count_tokens two_requests 1 Hlen) as [H _].
  assert (E : fst (release 1 (reg after_two)) = Some [8; 2; 3]%N) by (vm_compute; reflexivity).
  rewrite E in H. destruct H as (init & steps & Hi & _ & Hs & _).
  split; [exact E|]. split; [exists init, steps; exact (conj Hi Hs)|vm_compute; reflexivity].
Defined.
End Witness.
