(* ===== verification/Scheduler.v ===== *)
(** What the scheduler keeps and decides around its batches
    ([src/rust-engine/src/batch_scheduler.rs]): the sessions and their service classes,
    idle eviction, the memory-pressure ladder with the speculation controller, the
    profitability gate of the pre-pass and the pre-pass itself.

    The HTTP handlers and the loop act on [scheduler] one operation at a time
    ([sched_step]); the clock, the stall counter of the engine and what the handlers do
    to the block pool are part of the events.  The pre-pass is proved against the
    interfaces of the shard router and of the RAM cache. *)
From S2P Require Import Prelude Floats BlockPool Rpc Distributed Singleflight Router BatchScheduler.
From stdpp Require Import strings.

(** ** Sessions *)

Record SessionMeta := {
  session_class : SessionClass;
  last_activity_us : N;
  block_manager : option BlockManager;
}.

Definition session_new (c : SessionClass) (now : N) : SessionMeta :=
  {| session_class := c; last_activity_us := now; block_manager := None |}.

Definition touch (now : N) (m : SessionMeta) : SessionMeta :=
  {| session_class := session_class m; last_activity_us := now; block_manager := block_manager m |}.

Definition idle_for_us (now : N) (m : SessionMeta) : N := sat_sub now (last_activity_us m).

(** [block_manager.lock().take()]. *)
Definition without_manager (m : SessionMeta) : SessionMeta :=
  {| session_class := session_class m; last_activity_us := last_activity_us m; block_manager := None |}.

(** ** Idle eviction *)

Section eviction.
Variables threshold now : N.

(** [threshold.as_micros() as u64]. *)
Definition evictable (m : SessionMeta) : bool :=
  (threshold mod (u64_max + 1) <=? idle_for_us now m)%N && bool_decide (is_Some (block_manager m)).

(** The comparator: Audit first, then the longest idle. *)
Definition eviction_key (c : N * SessionMeta) : N :=
  (match session_class c.2 with Audit => 0 | Interactive => u64_max + 1 end +
   (u64_max - idle_for_us now c.2))%N.

Definition candidates (sessions : gmap N SessionMeta) : list (N * SessionMeta) :=
  sort_by_key eviction_key (List.filter (fun c => evictable c.2) (map_to_list sessions)).

(** A dropped manager gives its blocks back. *)
Definition evict_one (st : N * gmap N SessionMeta * BlockPool) (c : N * SessionMeta) :=
  let '(reclaimed, sessions, p) := st in
  match sessions !! c.1 with
  | Some m =>
      match block_manager m with
      | Some mg => ((reclaimed + 1)%N, <[c.1 := without_manager m]> sessions, snd (release_all mg p))
      | None => st
      end
  | None => st
  end.

Definition run_idle_eviction (sessions : gmap N SessionMeta) (p : BlockPool)
  : N * gmap N SessionMeta * BlockPool :=
  foldl evict_one (0%N, sessions, p) (candidates sessions).
End eviction.

(** ** The scheduler *)

Section scheduler.
Context {KV answer engine : Type}.
#[local] Abbreviation registry := (@RequestRegistry KV engine).

Record scheduler := {
  requests : registry;
  sessions : gmap N SessionMeta;
  block_pool : option BlockPool;
  speculation : SpeculationController;
  registrations_total : N;
  releases_total : N;
  overflow_requests : N;
  overflow_warned : bool;
  idle_evictions : N;
}.

(** [spawn]; [pool] is the pool the configuration asks for. *)
Definition spawn (base_depth : N) (pool : option BlockPool) : scheduler :=
  {| requests := {| next := 0; table := ∅; entries := ∅; next_entry := 0 |};
     sessions := ∅; block_pool := pool; speculation := controller_new base_depth;
     registrations_total := 0; releases_total := 0; overflow_requests := 0;
     overflow_warned := false; idle_evictions := 0 |}.

Definition with_sessions (ss : gmap N SessionMeta) (p : option BlockPool) (evictions : N) (s : scheduler)
  : scheduler :=
  {| requests := requests s; sessions := ss; block_pool := p; speculation := speculation s;
     registrations_total := registrations_total s; releases_total := releases_total s;
     overflow_requests := overflow_requests s; overflow_warned := overflow_warned s;
     idle_evictions := evictions |}.

Definition with_speculation (c : SpeculationController) (s : scheduler) : scheduler :=
  {| requests := requests s; sessions := sessions s; block_pool := block_pool s; speculation := c;
     registrations_total := registrations_total s; releases_total := releases_total s;
     overflow_requests := overflow_requests s; overflow_warned := overflow_warned s;
     idle_evictions := idle_evictions s |}.

Definition active_requests (s : scheduler) : nat := registry_len (requests s).

Definition register_with_class (caches : KV) (c : SessionClass) (now : N) (s : scheduler) : N * scheduler :=
  let '(id, g) := BatchScheduler.register caches (requests s) in
  (id, {| requests := g; sessions := <[id := session_new c now]> (sessions s);
          block_pool := block_pool s; speculation := speculation s;
          registrations_total := wrap_add u64_max (registrations_total s) 1;
          releases_total := releases_total s; overflow_requests := overflow_requests s;
          overflow_warned := overflow_warned s; idle_evictions := idle_evictions s |}).

Definition maybe_warn_overflow (s : scheduler) : scheduler :=
  match block_pool s with
  | Some p =>
      if (0 <? overflow_in_use p)%N then
        {| requests := requests s; sessions := sessions s; block_pool := block_pool s;
           speculation := speculation s; registrations_total := registrations_total s;
           releases_total := releases_total s;
           overflow_requests := wrap_add usize_max (overflow_requests s) 1;
           overflow_warned := true; idle_evictions := idle_evictions s |}
      else s
  | None => s
  end.

Definition release_session (id : N) (s : scheduler) : option KV * scheduler :=
  let '(caches, g) := BatchScheduler.release id (requests s) in
  let gone := sessions s !! id in
  let s := {| requests := g; sessions := delete id (sessions s);
              block_pool := match gone ≫= block_manager, block_pool s with
                            | Some mg, Some p => Some (snd (release_all mg p))
                            | _, p => p
                            end;
              speculation := speculation s; registrations_total := registrations_total s;
              releases_total := if gone is Some _ then wrap_add u64_max (releases_total s) 1 else releases_total s;
              overflow_requests := overflow_requests s; overflow_warned := overflow_warned s;
              idle_evictions := idle_evictions s |} in
  (caches, maybe_warn_overflow s).

(** The channel [step_registered] and [forward_registered] send to. *)
Definition class_of (id : N) (s : scheduler) : SessionClass :=
  match sessions s !! id with Some m => session_class m | None => Interactive end.

Definition touch_session (id now : N) (s : scheduler) : scheduler :=
  with_sessions (alter (touch now) id (sessions s)) (block_pool s) (idle_evictions s) s.

(** ** The memory-pressure ladder *)

Definition evict_idle (threshold now : N) (p : BlockPool) (s : scheduler) : scheduler :=
  let '(reclaimed, ss, p) := run_idle_eviction threshold now (sessions s) p in
  with_sessions ss (Some p)
    (if (0 <? reclaimed)%N then wrap_add u64_max (idle_evictions s) 1 else idle_evictions s) s.

Definition pressure_ladder (threshold now cum_stall : N) (s : scheduler) : scheduler :=
  let s :=
    match block_pool s with
    | None => s
    | Some p =>
        match pressure_level p with
        | Critical => evict_idle threshold now p (with_speculation (suspend (speculation s)) s)
        | High => evict_idle threshold now p s
        | Normal =>
            if is_suspended (speculation s) then with_speculation (resume (speculation s)) s else s
        end
    end in
  with_speculation (snd (update_from_stall cum_stall (speculation s))) s.

(** What happens to a scheduler: the handlers register, release and use the block pool
    (its state becomes any other), the tasks touch, the loop runs the ladder. *)
Inductive sched_event :=
| Register (caches : KV) (c : SessionClass) (now : N)
| Release (id : N)
| Touch (id now : N)
| PoolUsed (p : BlockPool)
| Ladder (now cum_stall : N).

Definition sched_step (threshold : N) (s : scheduler) (e : sched_event) : scheduler :=
  match e with
  | Register caches c now => snd (register_with_class caches c now s)
  | Release id => snd (release_session id s)
  | Touch id now => touch_session id now s
  | PoolUsed p => with_sessions (sessions s) (if block_pool s is Some _ then Some p else None) (idle_evictions s) s
  | Ladder now cum => pressure_ladder threshold now cum s
  end.

Definition sched_run (threshold : N) (evs : list sched_event) (s : scheduler) : scheduler :=
  foldl (sched_step threshold) s evs.
End scheduler.

(** ** The gate of the pre-pass *)

Definition EST_AVOIDED_MISS_NS : f64 := f64_of_N 200000.
Definition ALPHA : f64 := Eval vm_compute in SFdiv 53 1024 f64_one (f64_of_N 4).
Definition PROBE_INTERVAL : N := 32.

Record PrepassGate := { ema_net_ns : f64; batches_since_probe : N }.

Definition gate_new : PrepassGate := {| ema_net_ns := f64_zero; batches_since_probe := 0 |}.

Definition should_run (g : PrepassGate) : bool * PrepassGate :=
  if f64_leb f64_zero (ema_net_ns g) then (true, g) else
  let n := wrap_add u32_max (batches_since_probe g) 1 in
  if (PROBE_INTERVAL <=? n)%N then (true, {| ema_net_ns := ema_net_ns g; batches_since_probe := 0 |})
  else (false, {| ema_net_ns := ema_net_ns g; batches_since_probe := n |}).

Definition record (useful_fetches prepass_ns : N) (g : PrepassGate) : PrepassGate :=
  let net := f64_sub (f64_mul (f64_of_N useful_fetches) EST_AVOIDED_MISS_NS) (f64_of_N prepass_ns) in
  {| ema_net_ns := f64_add (f64_mul ALPHA net) (f64_mul (f64_sub f64_one ALPHA) (ema_net_ns g));
     batches_since_probe := batches_since_probe g |}.

(** ** The pre-pass *)

Record PrepassStats := {
  runs_total : N;
  singleton_skips_total : N;
  gate_skips_total : N;
  time_ns_total : N;
  predicted_experts_total : N;
  requested_experts_total : N;
  useful_warm_experts_total : N;
  cached_predictions_total : N;
  local_warm_failures_total : N;
}.

Definition no_stats : PrepassStats :=
  {| runs_total := 0; singleton_skips_total := 0; gate_skips_total := 0; time_ns_total := 0;
     predicted_experts_total := 0; requested_experts_total := 0; useful_warm_experts_total := 0;
     cached_predictions_total := 0; local_warm_failures_total := 0 |}.

(** [fetch_add] of what one batch counts. *)
Definition add_stats (a b : PrepassStats) : PrepassStats :=
  let add f := wrap_add u64_max (f a) (f b) in
  {| runs_total := add runs_total; singleton_skips_total := add singleton_skips_total;
     gate_skips_total := add gate_skips_total; time_ns_total := add time_ns_total;
     predicted_experts_total := add predicted_experts_total;
     requested_experts_total := add requested_experts_total;
     useful_warm_experts_total := add useful_warm_experts_total;
     cached_predictions_total := add cached_predictions_total;
     local_warm_failures_total := add local_warm_failures_total |}.

Definition prefetch_precision (s : PrepassStats) : f64 :=
  if (predicted_experts_total s =? 0)%N then f64_zero
  else SFdiv 53 1024 (f64_of_N (requested_experts_total s)) (f64_of_N (predicted_experts_total s)).

Section prepass.
Context {R : Type} `{!ShardRouter R}.
Variable router : R.

(** What the rest of the engine answers: the experts [peek_experts] predicts for a
    token, whether an expert is resident when the loop looks, whether [warm_with]
    succeeds, and the nanoseconds that passed. *)
Variable peek_experts : N -> list N.
Variable is_cached : N -> bool.
Variable warm_ok : list N -> bool.
Variable prepass_ns : N.




End prepass.

(** ** Idle eviction, in the pool *)

(** The managers the sessions hold. *)
Definition managers_of (ss : gmap N SessionMeta) : gmap N BlockManager := omap block_manager ss.

Lemma managers_without ss id m :
  ss !! id = Some m -> managers_of (<[id := without_manager m]> ss) = delete id (managers_of ss).
Proof.
  intros Hid. apply map_eq. intros i. unfold managers_of. rewrite lookup_omap.
  destruct (decide (i = id)) as [->|Hne].
  - by rewrite lookup_insert_eq, lookup_delete_eq.
  - by rewrite lookup_insert_ne, lookup_delete_ne, lookup_omap by done.
Qed.

Section evicting.
Variables threshold now : N.

Definition idle_session (ss : gmap N SessionMeta) (id : N) : bool :=
  if ss !! id is Some m then evictable threshold now m else false.

Lemma candidates_perm ss :
  candidates threshold now ss ≡ₚ List.filter (fun c => evictable threshold now c.2) (map_to_list ss).
Proof. apply sort_by_key_perm. Qed.

Lemma elem_of_candidates ss c :
  c ∈ candidates threshold now ss <-> ss !! c.1 = Some c.2 /\ evictable threshold now c.2 = true.
Proof.
  rewrite candidates_perm, list_elem_of_In, List.filter_In, <-list_elem_of_In. destruct c as [id m].
  by rewrite elem_of_map_to_list.
Qed.

Lemma NoDup_candidates ss : NoDup (candidates threshold now ss).*1.
Proof.
  rewrite candidates_perm. refine (sublist_NoDup _ _ (NoDup_fst_map_to_list ss) _).
  induction (map_to_list ss) as [|c l IH]; simpl; [done|]. case_match; by constructor.
Qed.

Lemma sorted_before {A} (R : A -> A -> Prop) l i j a b :
  StronglySorted R l -> (i < j)%nat -> l !! i = Some a -> l !! j = Some b -> R a b.
Proof.
  intros Hs. revert i j. induction Hs as [|x l _ IH Hall]; intros i j Hij Ha Hb; [done|].
  destruct j as [|j]; [lia|]. destruct i as [|i]; simpl in *; [|by apply (IH i j); [lia|..]].
  simplify_eq. rewrite Forall_forall in Hall. by apply Hall, (list_elem_of_lookup_2 _ j).
Qed.

Lemma evict_all l : forall n ss p,
  NoDup l.*1 -> (forall c, c ∈ l -> ss !! c.1 = Some c.2 /\ is_Some (block_manager c.2)) ->
  let '(n', ss', p') := foldl evict_one (n, ss, p) l in
  n' = (n + N.of_nat (length l))%N /\
  (forall id, ss' !! id = if bool_decide (id ∈ l.*1) then without_manager <$> ss !! id else ss !! id) /\
  (forall s, BlockPool.world_ok {| pool := p; managers := managers_of ss |} s ->
     exists s', BlockPool.world_ok {| pool := p'; managers := managers_of ss' |} s' /\
       forall id, s' !! id = if bool_decide (id ∈ l.*1) then None else s !! id).
Proof.
  induction l as [|[k m] l IH]; intros n ss p Hnd Hl.
  { simpl. split_and!; [lia|done|]. intros s Hw. by exists s. }
  rewrite fmap_cons in *. cbn [foldl evict_one fst snd length] in *.
  destruct (Hl (k, m)) as [Hk [mg Hmg]]; [by left|]. simpl in Hk, Hmg. rewrite Hk, Hmg.
  apply NoDup_cons in Hnd as [Hnin Hnd].
  specialize (IH (n + 1)%N (<[k := without_manager m]> ss) (snd (release_all mg p)) Hnd).
  destruct (foldl _ _ l) as [[n' ss'] p']. destruct IH as (-> & Hss & Hw).
  { intros c Hc. rewrite lookup_insert_ne; [apply Hl; by right|].
    intros ->. apply Hnin. by apply list_elem_of_fmap_2. }
  split_and!; [lia| |].
  - intros id. rewrite Hss. destruct (decide (id = k)) as [->|Hne].
    + rewrite lookup_insert_eq, Hk, (bool_decide_false _ Hnin), bool_decide_true by by left. done.
    + rewrite lookup_insert_ne by done. by rewrite (bool_decide_ext (id ∈ k :: l.*1) (id ∈ l.*1)) by set_solver.
  - intros s Hok. destruct (world_ok_drop _ _ k Hok) as (Hdrop & _).
    assert (Hmk : managers_of ss !! k = Some mg) by (unfold managers_of; by rewrite lookup_omap, Hk).
    unfold BlockPool.drop_manager in Hdrop. simpl in Hdrop. rewrite Hmk in Hdrop.
    destruct (Hw (delete k s)) as (s' & Hok' & Hs'); [by rewrite (managers_without ss k m)|].
    exists s'. split; [done|]. intros id. rewrite Hs'. destruct (decide (id = k)) as [->|Hne].
    + rewrite lookup_delete_eq, (bool_decide_true (k ∈ k :: l.*1)) by by left. by case_match.
    + rewrite lookup_delete_ne by done. by rewrite (bool_decide_ext (id ∈ k :: l.*1) (id ∈ l.*1)) by set_solver.
Qed.

(** Idle eviction takes exactly the block managers of the sessions that have been
    idle for the threshold: it counts them, leaves every other session alone, and gives
    their blocks back to the pool, where the sessions that stay still read what they
    appended; Audit sessions go first, and within a class the one idle for longest. *)
Theorem idle_eviction_frees_idle_sessions ss p s :
  BlockPool.world_ok {| pool := p; managers := managers_of ss |} s ->
  let '(reclaimed, ss', p') := run_idle_eviction threshold now ss p in
  reclaimed = N.of_nat (length (candidates threshold now ss)) /\
  (forall id, ss' !! id = if idle_session ss id then without_manager <$> ss !! id else ss !! id) /\
  (exists s', BlockPool.world_ok {| pool := p'; managers := managers_of ss' |} s' /\
     forall id, s' !! id = if idle_session ss id then None else s !! id) /\
  (forall i j a b, (i < j)%nat -> candidates threshold now ss !! i = Some a ->
     candidates threshold now ss !! j = Some b ->
     (session_class a.2 = Audit \/ session_class b.2 = Interactive) /\
     (session_class a.2 = session_class b.2 -> (N.min u64_max (idle_for_us now b.2) <= idle_for_us now a.2)%N)).
Proof.
  intros Hw. unfold run_idle_eviction.
  pose proof (evict_all (candidates threshold now ss) 0 ss p (NoDup_candidates ss)) as He.
  destruct (foldl _ _ _) as [[n ss'] p']. destruct He as (-> & Hss & Hp).
  { intros c [Hc Hev]%elem_of_candidates. split; [done|]. unfold evictable in Hev.
    by apply andb_true_iff in Hev as [_ ?%bool_decide_eq_true]. }
  assert (Hin : forall id, bool_decide (id ∈ (candidates threshold now ss).*1) = idle_session ss id).
  { intros id. unfold idle_session. apply eq_bool_prop_intro. rewrite bool_decide_spec. split.
    - intros (c & -> & [Hc Hev]%elem_of_candidates)%list_elem_of_fmap. by rewrite Hc, Hev.
    - destruct (ss !! id) as [m|] eqn:Hm; [|done]. intros Hev%Is_true_true. apply list_elem_of_fmap.
      exists (id, m). split; [done|]. by apply elem_of_candidates. }
  split_and!; [lia| | |].
  - intros id. by rewrite Hss, Hin.
  - destruct (Hp s Hw) as (s' & Hok & Hs'). exists s'. split; [done|]. intros id. by rewrite Hs', Hin.
  - intros i j a b Hij Ha Hb.
    pose proof (sort_by_key_sorted (eviction_key now) (List.filter (fun c => evictable threshold now c.2) (map_to_list ss))) as Hs.
    assert (Hle : (eviction_key now a <= eviction_key now b)%N).
    { revert Hs. fold (candidates threshold now ss). intros Hs.
      apply (sorted_before _ _ i j a b Hs Hij Ha Hb). }
    unfold eviction_key in Hle. destruct (session_class a.2), (session_class b.2); split; auto; intros; try done; lia.
Qed.
End evicting.

(** ** Sessions and requests *)

Section running.
Context {KV answer engine : Type}.
Variable threshold : N.
#[local] Abbreviation state := (@scheduler KV engine).
#[local] Abbreviation events := (list (@sched_event KV)).

(** The service classes requested so far: request [i] has the [i]-th. *)
Definition classes (evs : events) : list SessionClass :=
  omap (fun e => match e with Register _ c _ => Some c | _ => None end) evs.

Record sessions_ok (cs : list SessionClass) (s : state) : Prop := {
  ss_next : next (requests s) = N.of_nat (length cs);
  ss_dom : forall id, is_Some (table (requests s) !! id) <-> is_Some (sessions s !! id);
  ss_class : forall id m, sessions s !! id = Some m -> cs !! N.to_nat id = Some (session_class m);
  ss_none : forall id m, sessions s !! id = Some m -> block_manager m = None;
  ss_counts : registrations_total s = (releases_total s + N.of_nat (size (sessions s)))%N;
  ss_total : registrations_total s = N.of_nat (length cs);
  ss_evictions : idle_evictions s = 0%N;
}.

Lemma no_candidates now (ss : gmap N SessionMeta) :
  (forall id m, ss !! id = Some m -> block_manager m = None) -> candidates threshold now ss = [].
Proof.
  intros Hn. destruct (candidates threshold now ss) as [|c l] eqn:E; [done|exfalso].
  assert (Hc : c ∈ candidates threshold now ss) by (rewrite E; by left).
  apply elem_of_candidates in Hc as [Hc Hev]. unfold evictable in Hev. rewrite (Hn _ _ Hc) in Hev.
  apply andb_true_iff in Hev as [_ Hb%bool_decide_eq_true]. by destruct Hb.
Qed.

Lemma evict_idle_none now p (s : state) :
  (forall id m, sessions s !! id = Some m -> block_manager m = None) ->
  evict_idle threshold now p s = with_sessions (sessions s) (Some p) (idle_evictions s) s.
Proof. intros Hn. unfold evict_idle, run_idle_eviction. by rewrite no_candidates. Qed.

Lemma with_same (s : state) : with_sessions (sessions s) (block_pool s) (idle_evictions s) s = s.
Proof. by destruct s. Qed.

(** What the ladder does to the speculation controller. *)
Definition ladder_speculation (l : option PressureLevel) (cum : N) (c : SpeculationController) :=
  snd (update_from_stall cum (match l with
    | Some Critical => suspend c
    | Some Normal => if is_suspended c then resume c else c
    | _ => c
    end)).

(** As long as no session holds a block manager the ladder only steers speculation. *)
Lemma pressure_ladder_steers now cum (s : state) :
  (forall id m, sessions s !! id = Some m -> block_manager m = None) ->
  pressure_ladder threshold now cum s =
  with_speculation (ladder_speculation (pressure_level <$> block_pool s) cum (speculation s)) s.
Proof.
  intros Hn. unfold pressure_ladder, ladder_speculation. destruct (block_pool s) as [p|] eqn:Hp; [|done]. simpl.
  destruct (pressure_level p).
  - by destruct (is_suspended (speculation s)).
  - rewrite evict_idle_none by done. rewrite <-Hp, with_same. done.
  - rewrite evict_idle_none by done. unfold with_sessions, with_speculation. simpl. by rewrite <-Hp.
Qed.

Lemma table_release i g : table (snd (@BatchScheduler.release KV engine i g)) = delete i (table g).
Proof.
  unfold BatchScheduler.release. destruct (table g !! i) eqn:E; simpl; [|by rewrite delete_id].
  repeat case_match; done.
Qed.

Lemma next_release i g : next (snd (@BatchScheduler.release KV engine i g)) = next g.
Proof. unfold BatchScheduler.release. repeat case_match; done. Qed.

Lemma warn_keeps (s : state) :
  requests (maybe_warn_overflow s) = requests s /\ sessions (maybe_warn_overflow s) = sessions s /\
  registrations_total (maybe_warn_overflow s) = registrations_total s /\
  releases_total (maybe_warn_overflow s) = releases_total s /\
  idle_evictions (maybe_warn_overflow s) = idle_evictions s /\
  block_pool (maybe_warn_overflow s) = block_pool s /\ speculation (maybe_warn_overflow s) = speculation s.
Proof. unfold maybe_warn_overflow. repeat case_match; done. Qed.

Lemma register_sessions_ok cs caches c now (s : state) :
  (N.of_nat (length cs) < u64_max)%N -> sessions_ok cs s ->
  sessions_ok (cs ++ [c]) (snd (register_with_class caches c now s)).
Proof.
  intros Hlt [Hn Hd Hc Hb Hct Ht He]. unfold register_with_class. simpl.
  assert (Hfresh : sessions s !! next (requests s) = None).
  { destruct (sessions s !! next (requests s)) as [m|] eqn:E; [|done]. apply Hc in E.
    apply lookup_lt_Some in E. rewrite Hn in E. lia. }
  split; simpl; try done.
  - rewrite Hn, wrap_add_small, length_app by lia. simpl. lia.
  - intros id. rewrite !lookup_insert_is_Some'. by rewrite Hd.
  - intros id m [[<- <-]|[_ Hm]]%lookup_insert_Some; simpl.
    + by rewrite Hn, Nat2N.id, lookup_app_r, Nat.sub_diag by lia.
    + apply lookup_app_l_Some. by apply Hc.
  - intros id m [[<- <-]|[_ Hm]]%lookup_insert_Some; [done|]. by eapply Hb.
  - rewrite map_size_insert_None, wrap_add_small by (done || lia). lia.
  - rewrite wrap_add_small, length_app by lia. simpl. lia.
Qed.

Lemma release_sessions_ok cs id (s : state) :
  (N.of_nat (length cs) <= u64_max)%N -> sessions_ok cs s ->
  sessions_ok cs (snd (release_session id s)).
Proof.
  intros Hlt [Hn Hd Hc Hb Hct Ht He]. unfold release_session.
  destruct (BatchScheduler.release id (requests s)) as [caches g] eqn:Er.
  assert (Hg : table g = delete id (table (requests s)) /\ next g = next (requests s))
    by (pose proof (table_release id (requests s)); pose proof (next_release id (requests s)); by rewrite Er in *).
  destruct Hg as [Htab Hnx]. simpl.
  match goal with |- sessions_ok _ (maybe_warn_overflow ?x) => set (s' := x) end.
  split; destruct (warn_keeps s') as (Hq & Hs' & Hr & Hl & Hi & _ & _); rewrite ?Hq, ?Hs', ?Hr, ?Hl, ?Hi; simpl; try done.
  - by rewrite Hnx.
  - intros i. rewrite Htab, !lookup_delete_is_Some. by rewrite Hd.
  - intros i m [_ Hm]%lookup_delete_Some. by apply Hc.
  - intros i m [_ Hm]%lookup_delete_Some. by eapply Hb.
  - destruct (sessions s !! id) as [m|] eqn:Hm.
    + assert (size (sessions s) <> 0)%nat by (intros Hz%map_size_empty_inv; by rewrite Hz, lookup_empty in Hm).
      rewrite map_size_delete_Some by eauto. rewrite wrap_add_small by lia. lia.
    + rewrite map_size_delete_None by done. lia.
Qed.

Lemma step_sessions_ok cs e (s : state) :
  (N.of_nat (length cs) < u64_max)%N -> sessions_ok cs s ->
  sessions_ok (cs ++ classes [e]) (sched_step threshold s e).
Proof.
  intros Hlt Hok. destruct e as [caches c now|id|id now|p|now cum]; simpl; rewrite ?app_nil_r.
  - by apply register_sessions_ok.
  - apply release_sessions_ok; [lia|done].
  - destruct Hok as [Hn Hd Hc Hb Hct Ht He]. split; simpl; try done.
    + intros i. rewrite lookup_alter_is_Some. apply Hd.
    + intros i m. rewrite lookup_alter. case_decide as Hi; [subst i|apply Hc].
      intros (m0 & Hm & ->)%fmap_Some. simpl. by apply Hc.
    + intros i m. rewrite lookup_alter. case_decide as Hi; [subst i|apply Hb].
      intros (m0 & Hm & ->)%fmap_Some. simpl. by eapply Hb.
    + by rewrite <-size_dom, dom_alter, size_dom.
  - destruct Hok. by split.
  - rewrite pressure_ladder_steers by apply Hok. destruct Hok. by split.
Qed.

Lemma run_sessions_ok evs : forall cs (s : state),
  (N.of_nat (length cs) + N.of_nat (length evs) <= u64_max)%N -> sessions_ok cs s ->
  sessions_ok (cs ++ classes evs) (sched_run threshold evs s).
Proof.
  induction evs as [|e evs IH]; intros cs s Hlen Hok; [by rewrite app_nil_r|]. simpl in Hlen.
  change (sched_run threshold (e :: evs) s) with (sched_run threshold evs (sched_step threshold s e)).
  assert (Hc : classes (e :: evs) = classes [e] ++ classes evs) by by destruct e.
  rewrite Hc, app_assoc. apply IH; [|apply step_sessions_ok; [lia|done]].
  assert (length (classes [e]) <= 1)%nat by (destruct e; simpl; lia). rewrite length_app. lia.
Qed.

Lemma spawn_sessions_ok base pool : sessions_ok [] (spawn base pool : state).
Proof. split; simpl; try done. intros id. by rewrite !lookup_empty. Qed.

(** Sessions follow requests.  Whatever handlers and tasks do, the sessions are
    exactly the requests in the registry; a step of a registered request goes to the
    channel of the class it was registered with, and a step of any other id to the
    Interactive one; and the counters of registrations and releases differ by the number
    of active requests. *)
Theorem sessions_follow_requests (evs : events) base pool :
  (N.of_nat (length evs) <= u64_max)%N ->
  let s := sched_run threshold evs (spawn base pool) : state in
  (forall id, is_Some (sessions s !! id) <-> is_Some (table (requests s) !! id)) /\
  (forall id, match table (requests s) !! id with
              | Some _ => classes evs !! N.to_nat id = Some (class_of id s)
              | None => class_of id s = Interactive
              end) /\
  registrations_total s = N.of_nat (length (classes evs)) /\
  registrations_total s = (releases_total s + N.of_nat (active_requests s))%N.
Proof.
  intros Hlen s. destruct (run_sessions_ok evs [] (spawn base pool) Hlen (spawn_sessions_ok base pool))
    as [_ Hd Hc _ Hct Ht _].
  fold s in Hd, Hc, Hct, Ht. simpl in Hc, Ht. split_and!; [by intros id; rewrite Hd| |done|].
  - intros id. unfold class_of. destruct (table (requests s) !! id) as [a|] eqn:E.
    + destruct (Hd id) as [[m Hm] _]; [by eauto|]. rewrite Hm. by apply Hc.
    + destruct (sessions s !! id) as [m|] eqn:Hm; [|done].
      destruct (Hd id) as [_ [a Ha]]; [by eauto|congruence].
  - rewrite Hct. unfold active_requests, registry_len. do 2 f_equal. rewrite <-!size_dom. f_equal.
    apply set_eq. intros id. by rewrite !elem_of_dom, Hd.
Qed.

(** No session ever holds a block manager, so idle eviction has nothing to reclaim,
    whatever the pressure. *)
Theorem idle_eviction_reclaims_nothing (evs : events) base pool now p :
  (N.of_nat (length evs) <= u64_max)%N ->
  let s := sched_run threshold evs (spawn base pool) : state in
  run_idle_eviction threshold now (sessions s) p = (0%N, sessions s, p) /\ idle_evictions s = 0%N.
Proof.
  intros Hlen s. destruct (run_sessions_ok evs [] (spawn base pool) Hlen (spawn_sessions_ok base pool))
    as [_ _ _ Hb _ _ He]. split; [|done]. unfold run_idle_eviction. by rewrite no_candidates.
Qed.

(** ** Speculation follows pressure *)

(** The pressure the ladder has seen so far. *)
Fixpoint seen (evs : events) (s : state) : list PressureLevel :=
  match evs with
  | [] => []
  | e :: evs =>
      match e, block_pool s with Ladder _ _, Some p => [pressure_level p] | _, _ => [] end ++
      seen evs (sched_step threshold s e)
  end.

(** The last reading that was not [High]. *)
Definition decisive (l : list PressureLevel) (d : PressureLevel) : PressureLevel :=
  foldl (fun d x => match x with High => d | _ => x end) d l.

Definition steered (base : N) (d : PressureLevel) (s : state) : Prop :=
  controller_ok base (speculation s) /\
  (d <> High) /\ is_suspended (speculation s) = match d with Critical => true | _ => false end.

Lemma ladder_suspends base l cum c :
  (base + MAX_LATENCY_BUMP < usize_max)%N -> controller_ok base c ->
  controller_ok base (ladder_speculation l cum c) /\
  is_suspended (ladder_speculation l cum c) =
    match l with Some Critical => true | Some Normal => false | _ => is_suspended c end.
Proof.
  intros Hb Hok.
  assert (Hu : forall c, is_suspended (snd (update_from_stall cum c)) = is_suspended c).
  { intros c'. destruct (is_suspended c') eqn:E.
    - unfold update_from_stall. by rewrite E.
    - pose proof (update_running cum c' E) as Hr. destruct (update_from_stall cum c') as [d c2].
      destruct Hr as (_ & _ & Hs & _). simpl. apply is_running_spec. apply is_running_spec in E. congruence. }
  assert (Hupd : forall c, controller_ok base c -> controller_ok base (snd (update_from_stall cum c)))
    by (intros c' Hc; by apply (controller_step_ok base (Update cum))).
  pose proof (controller_step_ok base Suspend c Hb Hok) as Hsus.
  pose proof (controller_step_ok base Resume c Hb Hok) as Hres. simpl in Hsus, Hres.
  unfold ladder_speculation. rewrite Hu. destruct l as [[]|].
  - destruct (is_suspended c) eqn:E; split; auto.
  - auto.
  - split; [by apply Hupd|]. apply is_suspended_spec. unfold suspend. simpl.
    destruct (N.eqb_spec (saved_depth c) usize_max) as [E|E]; [|done].
    pose proof (co_running _ _ Hok (proj2 (is_running_spec c) E)) as Hi. unfold in_bounds in Hi. lia.
  - auto.
Qed.

Lemma step_steered base d cs e (s : state) :
  (base + MAX_LATENCY_BUMP < usize_max)%N -> sessions_ok cs s -> steered base d s ->
  steered base (decisive (seen [e] s) d) (sched_step threshold s e).
Proof.
  intros Hb Hok (Hc & Hd & Hs). destruct e as [caches c now|id|id now|p|now cum]; simpl; try by split.
  - unfold release_session. destruct (BatchScheduler.release _ _) as [? ?]. simpl.
    match goal with |- steered _ _ (maybe_warn_overflow ?x) => destruct (warn_keeps x) as (_ & _ & _ & _ & _ & _ & Hw) end.
    unfold steered. rewrite Hw. by split.
  - rewrite app_nil_r, pressure_ladder_steers by apply Hok.
    destruct (ladder_suspends base (pressure_level <$> block_pool s) cum (speculation s) Hb Hc) as [Hc' Hs'].
    unfold steered. simpl. split; [done|]. rewrite Hs'.
    destruct (block_pool s) as [p|]; simpl; [destruct (pressure_level p)|]; by auto.
Qed.

Lemma run_steered base evs : forall cs d (s : state),
  (base + MAX_LATENCY_BUMP < usize_max)%N ->
  (N.of_nat (length cs) + N.of_nat (length evs) <= u64_max)%N -> sessions_ok cs s -> steered base d s ->
  steered base (decisive (seen evs s) d) (sched_run threshold evs s).
Proof.
  induction evs as [|e evs IH]; intros cs d s Hb Hlen Hok Hs; [done|]. simpl in Hlen.
  change (sched_run threshold (e :: evs) s) with (sched_run threshold evs (sched_step threshold s e)).
  assert (Hd : decisive (seen (e :: evs) s) d =
    decisive (seen evs (sched_step threshold s e)) (decisive (seen [e] s) d)).
  { simpl. rewrite app_nil_r. unfold decisive. by rewrite foldl_app. }
  rewrite Hd. apply (IH (cs ++ classes [e])); [done| | |].
  - assert (length (classes [e]) <= 1)%nat by (destruct e; simpl; lia). rewrite length_app. lia.
  - apply step_sessions_ok; [lia|done].
  - by eapply step_steered.
Qed.

(** Speculation follows the pressure on the block pool: it is suspended, at depth 0,
    exactly when the last batch that did not see high pressure saw critical pressure, and
    otherwise its depth is within MAX_LATENCY_BUMP of the configured one; high pressure
    alone neither suspends nor resumes it, and without a pool it is never suspended. *)
Theorem speculation_follows_pressure (evs : events) base pool :
  (base + MAX_LATENCY_BUMP < usize_max)%N -> (N.of_nat (length evs) <= u64_max)%N ->
  let s := sched_run threshold evs (spawn base pool) : state in
  match decisive (seen evs (spawn base pool)) Normal with
  | Critical => is_suspended (speculation s) = true /\ current_depth (speculation s) = 0%N
  | _ => is_suspended (speculation s) = false /\ in_bounds base (current_depth (speculation s))
  end.
Proof.
  intros Hb Hlen s.
  destruct (run_steered base evs [] Normal (spawn base pool) Hb Hlen (spawn_sessions_ok base pool)) as (Hc & Hd & Hs).
  - split; [|by split]. split; cbn; [done|unfold in_bounds; lia|discriminate].
  - fold s in Hc, Hs.
    destruct (decisive _ _); try done; (split; [done|]); by apply Hc.
Qed.
End running.

(** ** The gate keeps probing *)

(** One batch that wants the pre-pass; [o] is what a run measures. *)
Definition gate_batch (o : N * N) (g : PrepassGate) : bool * PrepassGate :=
  let '(run, g) := should_run g in (run, if run then record o.1 o.2 g else g).

Fixpoint gate_runs (os : list (N * N)) (g : PrepassGate) : list bool * PrepassGate :=
  match os with
  | [] => ([], g)
  | o :: os => let '(b, g) := gate_batch o g in let '(bs, g) := gate_runs os g in (b :: bs, g)
  end.

Lemma should_run_counts g :
  (batches_since_probe g < PROBE_INTERVAL)%N ->
  let '(run, g') := should_run g in
  (batches_since_probe g' < PROBE_INTERVAL)%N /\
  (run = false -> batches_since_probe g' = (batches_since_probe g + 1)%N).
Proof.
  unfold PROBE_INTERVAL, should_run. intros Hg. rewrite wrap_add_small by (unfold u32_max; lia).
  destruct (f64_leb _ _); [done|]. unfold PROBE_INTERVAL.
  destruct (N.leb_spec 32 (batches_since_probe g + 1)); simpl; [by split|split; [lia|done]].
Qed.

Lemma gate_batch_counts o g :
  (batches_since_probe g < PROBE_INTERVAL)%N ->
  (batches_since_probe (snd (gate_batch o g)) < PROBE_INTERVAL)%N /\
  (fst (gate_batch o g) = false ->
   batches_since_probe (snd (gate_batch o g)) = (batches_since_probe g + 1)%N).
Proof.
  intros Hg. pose proof (should_run_counts g Hg) as H. unfold gate_batch.
  destruct (should_run g) as [[] g']; simpl; naive_solver.
Qed.

Lemma gate_runs_counts os : forall g,
  (batches_since_probe g < PROBE_INTERVAL)%N ->
  (batches_since_probe (snd (gate_runs os g)) < PROBE_INTERVAL)%N /\
  (true ∈ fst (gate_runs os g) \/
   batches_since_probe (snd (gate_runs os g)) = (batches_since_probe g + N.of_nat (length os))%N).
Proof.
  induction os as [|o os IH]; intros g Hg; simpl; [split; [done|right; lia]|].
  pose proof (gate_batch_counts o g Hg) as [Hlt Hstep]. destruct (gate_batch o g) as [b g1]. simpl in *.
  destruct (IH g1 Hlt) as [Hlt' Hor]. destruct (gate_runs os g1) as [bs g2]. simpl in *. split; [done|].
  destruct b; [left; by left|]. destruct Hor as [Hin|Heq]; [left; by right|right]. rewrite Heq, Hstep by done. lia.
Qed.

(** The gate never stays shut: however unprofitable the pre-pass has been, and
    whatever its average has become (negative, infinite or NaN), one of any 32 batches
    in a row that want the pre-pass runs it; while the average is not negative, every
    one does. *)
Theorem prepass_is_probed (before next : list (N * N)) :
  length next = 32%nat ->
  let g := snd (gate_runs before gate_new) in
  true ∈ fst (gate_runs next g) /\
  (f64_leb f64_zero (ema_net_ns g) = true -> fst (should_run g) = true).
Proof.
  intros Hlen g. destruct (gate_runs_counts before gate_new) as [Hg _]; [done|]. fold g in Hg. split.
  - destruct (gate_runs_counts next g Hg) as [Hlt [Hin|Heq]]; [done|].
    rewrite Hlen in Heq. unfold PROBE_INTERVAL in *. lia.
  - intros Hopen. unfold should_run. by rewrite Hopen.
Qed.

(** ** The pre-pass *)


Section covering.
Context {R : Type} `{!ShardRouter R, !ShardRouterLaws R}.


Context `{!RamCache, !Notify}.

End covering.

Module Witness.
#[local] Existing Instances Lru.ListLru.list_lru Lru.ListLru.list_lru_laws.
(** Two sessions that hold the block managers of a pool, an Audit one idle since 0 and an
    Interactive one active at 90. *)
Definition holding (id : N) (mg : BlockManager) : SessionMeta :=
  {| session_class := if (id =? 1)%N then Audit else Interactive;
     last_activity_us := if (id =? 1)%N then 0 else 90; block_manager := Some mg |}.

Definition sample_sessions : gmap N SessionMeta :=
  map_imap (fun id mg => Some (holding id mg)) (managers BlockPool.Witness.sample_world).

Lemma sample_managers : managers_of sample_sessions = managers BlockPool.Witness.sample_world.
Proof.
  apply map_eq. intros i. unfold managers_of, sample_sessions. rewrite lookup_omap, map_lookup_imap.
  by destruct (managers _ !! i).
Qed.

Lemma sample_world_holds : exists s, BlockPool.world_ok
  {| pool := pool BlockPool.Witness.sample_world; managers := managers_of sample_sessions |} s.
Proof.
  destruct BlockPool.Witness.sample_run_reaches as (p & Hp & Hrun).
  destruct (BlockPool.reaches_ok _ _ _ p _ BlockPool.Witness.sample_admissible Hp) as (r & w & Hw & Hok).
  rewrite Hrun in Hw. injection Hw as <- <-. rewrite sample_managers. eexists. exact Hok.
Qed.

Lemma idle_eviction_frees_idle_sessions_witness :
  fst (fst (run_idle_eviction 50 100 sample_sessions (pool BlockPool.Witness.sample_world))) = 1%N /\
  length (candidates 50 100 sample_sessions) = 1%nat.
Proof.
  destruct sample_world_holds as [s Hs].
  pose proof (idle_eviction_frees_idle_sessions 50 100 _ _ s Hs) as H.
  assert (E : length (candidates 50 100 sample_sessions) = 1%nat) by (vm_compute; reflexivity).
  destruct (run_idle_eviction _ _ _ _) as [[n ss] p]. destruct H as (-> & _). simpl. rewrite E. done.
Defined.

Definition critical_pool : BlockPool := pool BlockPool.Witness.sample_world.

(** An Audit session, then a batch under critical pressure, then a release. *)
Definition sample_events : list (sched_event (KV := list N)) :=
  [Register [1] Interactive 0; Register [2] Audit 5; Ladder 10 500; PoolUsed critical_pool;
   Ladder 20 900; Touch 1 30; Release 0]%N.

Abbreviation spawned := (spawn 4 (Some BlockPool.Witness.sample_pool) : scheduler (KV := list N) (engine := unit)).

Lemma sessions_follow_requests_witness :
  let s := sched_run 50 sample_events spawned in
  class_of 1 s = Audit /\ class_of 0 s = Interactive /\ active_requests s = 1%nat /\ registrations_total s = 2%N.
Proof.
  assert (Hlen : (N.of_nat (length sample_events) <= u64_max)%N) by (vm_compute; discriminate).
  destruct (sessions_follow_requests (engine := unit) 50 sample_events 4 (Some BlockPool.Witness.sample_pool) Hlen)
    as (_ & Hc & Ht & _).
  split; [|split; [vm_compute; reflexivity|split; [vm_compute; reflexivity|]]].
  - specialize (Hc 1%N).
    assert (E : exists a, table (requests (sched_run 50 sample_events spawned)) !! 1%N = Some a)
      by (eexists; vm_compute; reflexivity).
    destruct E as [a E]. rewrite E in Hc.
    assert (Ec : classes sample_events !! N.to_nat 1 = Some Audit) by reflexivity. rewrite Ec in Hc.
    revert Hc. generalize (class_of 1 (sched_run 50 sample_events spawned)). intros c [= <-]. reflexivity.
  - exact Ht.
Defined.

Lemma speculation_follows_pressure_witness :
  let s := sched_run 50 sample_events spawned in
  is_suspended (speculation s) = true /\ current_depth (speculation s) = 0%N.
Proof.
  assert (Hlen : (N.of_nat (length sample_events) <= u64_max)%N) by (vm_compute; discriminate).
  pose proof (speculation_follows_pressure (engine := unit) 50 sample_events 4 (Some BlockPool.Witness.sample_pool)
    ltac:(vm_compute; reflexivity) Hlen) as H. cbv zeta in H.
  assert (E : decisive (seen 50 sample_events spawned) Normal = Critical) by (vm_compute; reflexivity).
  rewrite E in H. exact H.
Defined.

(** A run that took a second shuts the gate for 31 batches. *)
Lemma prepass_is_probed_witness :
  let g := snd (gate_runs [(0, 1000000000)] gate_new)%N in
  fst (gate_runs (replicate 32 (0, 1000)%N) g) = replicate 31 false ++ [true] /\
  true ∈ fst (gate_runs (replicate 32 (0, 1000)%N) g).
Proof.
  split; [vm_compute; reflexivity|].
  apply (prepass_is_probed [(0, 1000000000)%N] (replicate 32 (0, 1000)%N)). reflexivity.
Defined.

End Witness.
