(* ===== verification/Pregate.v ===== *)
(** The per-layer pre-gate predictor ([src/rust-engine/src/pregate.rs]): the transition
    tables it learns from consecutive layers, and the prediction of the next layer's
    experts.  Calls are one after the other, as in sequential decoding. *)
From S2P Require Import Prelude Floats.
Local Open Scope N_scope.

Record LastStep := { layer : N; routed : list N; predicted_next : list N }.

Record PerLayerPreGate := {
  transitions : list (gmap N (gmap N N));
  top_n : nat;
  last : option LastStep;
  hits : N;
  misses : N;
}.

Definition pregate_new (num_layers : N) (top_n : nat) : PerLayerPreGate :=
  {| transitions := replicate (N.to_nat (N.max num_layers 1)) ∅; top_n := Nat.max top_n 1;
     last := None; hits := 0; misses := 0 |}.

Definition with_transitions (t : list (gmap N (gmap N N))) (g : PerLayerPreGate) : PerLayerPreGate :=
  {| transitions := t; top_n := top_n g; last := last g; hits := hits g; misses := misses g |}.

(** [*table.entry(b).or_insert(0) += 1], which wraps. *)
Definition bump_target (table : gmap N N) (b : N) : gmap N N :=
  <[b := wrap_add u64_max (default 0 (table !! b)) 1]> table.

Definition record_source (target_set : list N) (layer_map : gmap N (gmap N N)) (a : N) : gmap N (gmap N N) :=
  <[a := foldl bump_target (default ∅ (layer_map !! a)) target_set]> layer_map.

Definition record_transition (src_layer : N) (source_set target_set : list N) (g : PerLayerPreGate)
  : PerLayerPreGate :=
  match transitions g !! N.to_nat src_layer with
  | None => g
  | Some layer_map =>
      with_transitions (<[N.to_nat src_layer := foldl (record_source target_set) layer_map source_set]> (transitions g)) g
  end.

(** [*scores.entry(b).or_insert(0) += c] over the table of one source, in the order of the
    map. *)
Definition add_scores (scores : gmap N N) (table : gmap N N) : gmap N N :=
  foldl (fun s p => <[p.1 := wrap_add u64_max (default 0 (s !! p.1)) p.2]> s) scores (map_to_list table).

Definition scores_of (layer_map : gmap N (gmap N N)) (routed : list N) : gmap N N :=
  foldl (fun s a => match layer_map !! a with Some table => add_scores s table | None => s end) ∅ routed.

(** Highest score first, then the smallest id. *)
Definition rank_key (p : N * N) : N := (u64_max - p.2) * (u32_max + 1) + p.1.

Definition predict (layer : N) (routed : list N) (g : PerLayerPreGate) : list N :=
  match transitions g !! N.to_nat layer with
  | None => []
  | Some layer_map =>
      (take (top_n g) (sort_by_key rank_key (map_to_list (scores_of layer_map routed)))).*1
  end.

Definition score_prediction (predicted actual : list N) (g : PerLayerPreGate) : PerLayerPreGate :=
  if bool_decide (predicted = []) then g else
  let hit := existsb (fun p => bool_decide (p ∈ actual)) predicted in
  {| transitions := transitions g; top_n := top_n g; last := last g;
     hits := if hit then wrap_add u64_max (hits g) 1 else hits g;
     misses := if hit then misses g else wrap_add u64_max (misses g) 1 |}.

Definition observe_and_predict (l : N) (now : list N) (g : PerLayerPreGate) : list N * PerLayerPreGate :=
  let g :=
    match last g with
    | Some prev =>
        if negb (layer prev =? u32_max) && (l =? wrap_add u32_max (layer prev) 1)
        then score_prediction (predicted_next prev) now (record_transition (layer prev) (routed prev) now g)
        else g
    | None => g
    end in
  let predicted := predict l now g in
  (predicted,
   {| transitions := transitions g; top_n := top_n g;
      last := Some {| layer := l; routed := now; predicted_next := predicted |};
      hits := hits g; misses := misses g |}).

Definition accuracy (g : PerLayerPreGate) : f64 :=
  let total := wrap_add u64_max (hits g) (misses g) in
  if total =? 0 then f64_zero else f64_div (f64_of_N (hits g)) (f64_of_N total).

(** ** What the tables count *)

Definition observe (g : PerLayerPreGate) (c : N * list N) : PerLayerPreGate := snd (observe_and_predict c.1 c.2 g).
Definition observe_all (cs : list (N * list N)) (g : PerLayerPreGate) : PerLayerPreGate := foldl observe g cs.

Definition times (x : N) (l : list N) : N := N.of_nat (length (List.filter (fun y => y =? x) l)).

(** How often expert [b] was routed right after expert [a] was, in consecutive calls for
    layers [l] and [l + 1]. *)
Fixpoint follows (l a b : N) (cs : list (N * list N)) : N :=
  match cs with
  | (l1, r1) :: ((l2, r2) :: _) as cs' =>
      (if (l1 =? l) && (l2 =? l1 + 1) then times a r1 * times b r2 else 0) + follows l a b cs'
  | _ => 0
  end.

Definition learned (g : PerLayerPreGate) (l a b : N) : option N :=
  layer_map ← transitions g !! N.to_nat l;
  table ← (layer_map : gmap N (gmap N N)) !! a;
  table !! b.

(** A count, and whether it is there. *)
Definition counts (o : option N) (n : N) : Prop :=
  n < u64_max /\ o = if n =? 0 then None else Some n.

Lemma times_cons x y l : times x (y :: l) = (if y =? x then 1 else 0) + times x l.
Proof. unfold times. simpl. destruct (y =? x); simpl; lia. Qed.

Lemma bump_targets b targets : forall (table : gmap N N) n,
  n + times b targets < u64_max -> counts (table !! b) n ->
  counts (foldl bump_target table targets !! b) (n + times b targets).
Proof.
  induction targets as [|x targets IH]; intros table n Hn Hc; [by rewrite N.add_0_r|].
  rewrite times_cons in *. cbn [foldl]. destruct (N.eqb_spec x b) as [->|Hne].
  - rewrite N.add_assoc. apply IH; [lia|]. destruct Hc as [_ Ht]. split; [lia|]. unfold bump_target.
    rewrite lookup_insert_eq, Ht, (proj2 (N.eqb_neq (n + 1) 0)) by lia.
    destruct (N.eqb_spec n 0) as [->|]; simpl; by rewrite wrap_add_small by lia.
  - apply IH; [lia|]. unfold bump_target. by rewrite lookup_insert_ne.
Qed.

Definition target_count (layer_map : gmap N (gmap N N)) (a b : N) : option N :=
  table ← layer_map !! a; table !! b.

Lemma record_sources targets a b sources : forall (layer_map : gmap N (gmap N N)) n,
  n + times a sources * times b targets < u64_max -> counts (target_count layer_map a b) n ->
  counts (target_count (foldl (record_source targets) layer_map sources) a b) (n + times a sources * times b targets).
Proof.
  induction sources as [|x sources IH]; intros layer_map n Hn Hc; [by rewrite N.add_0_r|].
  rewrite times_cons in *. cbn [foldl]. destruct (N.eqb_spec x a) as [->|Hne].
  - rewrite N.mul_add_distr_r, N.mul_1_l, N.add_assoc in *. apply IH; [done|].
    unfold target_count, record_source. rewrite lookup_insert_eq. cbn [mbind option_bind].
    apply bump_targets; [lia|]. unfold target_count in Hc.
    destruct (layer_map !! a); simpl in *; [done|]. by rewrite lookup_empty.
  - apply IH; [done|]. unfold target_count, record_source. by rewrite lookup_insert_ne.
Qed.

Lemma learned_target g l layer_map a b :
  transitions g !! N.to_nat l = Some layer_map -> learned g l a b = target_count layer_map a b.
Proof. intros E. unfold learned. by rewrite E. Qed.

Lemma record_transition_other l src sources targets g a b :
  l <> src -> learned (record_transition src sources targets g) l a b = learned g l a b.
Proof.
  intros Hne. unfold record_transition. destruct (transitions g !! N.to_nat src); [|done].
  unfold learned. simpl. rewrite list_lookup_insert_ne by lia. done.
Qed.

Lemma record_transition_counts l sources targets g a b n :
  (N.to_nat l < length (transitions g))%nat -> n + times a sources * times b targets < u64_max ->
  counts (learned g l a b) n ->
  counts (learned (record_transition l sources targets g) l a b) (n + times a sources * times b targets).
Proof.
  intros Hl Hn Hc. destruct (lookup_lt_is_Some_2 _ _ Hl) as [m E].
  rewrite (learned_target _ _ _ _ _ E) in Hc. unfold record_transition. rewrite E.
  rewrite (learned_target _ _ (foldl (record_source targets) m sources)); [by apply record_sources|].
  simpl. by rewrite list_lookup_insert_eq.
Qed.

Lemma length_record_transition l sources targets g :
  length (transitions (record_transition l sources targets g)) = length (transitions g).
Proof. unfold record_transition. destruct (_ !! _); [|done]. apply length_insert. Qed.

Lemma score_prediction_tables p now g : transitions (score_prediction p now g) = transitions g.
Proof. unfold score_prediction. by case_bool_decide. Qed.

(** What one call leaves behind. *)
Lemma observe_state g l now :
  exists p, last (observe g (l, now)) = Some {| layer := l; routed := now; predicted_next := p |} /\
    top_n (observe g (l, now)) = top_n g /\ length (transitions (observe g (l, now))) = length (transitions g).
Proof.
  unfold observe, observe_and_predict. simpl. eexists. split; [reflexivity|].
  destruct (last g) as [prev|]; [|done]. destruct (_ && _); [|done].
  rewrite score_prediction_tables, length_record_transition. split; [|done].
  unfold score_prediction, record_transition. case_bool_decide; by destruct (_ !! _).
Qed.

Lemma observe_first g l now l' a b : last g = None -> learned (observe g (l, now)) l' a b = learned g l' a b.
Proof. intros E. unfold observe, observe_and_predict. by rewrite E. Qed.

Lemma observe_counts g l0 r0 p0 l1 r1 l a b n :
  last g = Some {| layer := l0; routed := r0; predicted_next := p0 |} -> l0 <= u32_max -> l1 <= u32_max ->
  (N.to_nat l < length (transitions g))%nat -> n + follows l a b [(l0, r0); (l1, r1)] < u64_max ->
  counts (learned g l a b) n ->
  counts (learned (observe g (l1, r1)) l a b) (n + follows l a b [(l0, r0); (l1, r1)]).
Proof.
  intros E Hl0 Hl1 Hl Hn Hc. unfold observe, observe_and_predict, learned. rewrite E.
  cbn [layer routed predicted_next fst snd transitions follows] in *.
  assert (Hg : (negb (l0 =? u32_max) && (l1 =? wrap_add u32_max l0 1)) = (l1 =? l0 + 1)).
  { destruct (N.eqb_spec l0 u32_max) as [->|]; simpl; [|by rewrite wrap_add_small by lia].
    symmetry. apply N.eqb_neq. unfold u32_max in *. lia. }
  rewrite Hg. destruct (l1 =? l0 + 1); rewrite ?andb_true_r, ?andb_false_r, ?N.add_0_r in *; [|done].
  rewrite score_prediction_tables. destruct (N.eqb_spec l0 l) as [->|Hne].
  - by apply record_transition_counts.
  - rewrite N.add_0_r. pose proof (record_transition_other l l0 r0 r1 g a b) as Ho. unfold learned in Ho.
    rewrite Ho by congruence. done.
Qed.

Lemma follows_cons l a b c1 c2 cs : follows l a b (c1 :: c2 :: cs) = follows l a b [c1; c2] + follows l a b (c2 :: cs).
Proof. destruct c1, c2. simpl. by rewrite N.add_0_r. Qed.

Lemma observe_all_counts l a b cs : forall g l0 r0 p0 n,
  last g = Some {| layer := l0; routed := r0; predicted_next := p0 |} -> Forall (fun c => c.1 <= u32_max) ((l0, r0) :: cs) ->
  (N.to_nat l < length (transitions g))%nat -> n + follows l a b ((l0, r0) :: cs) < u64_max -> counts (learned g l a b) n ->
  counts (learned (observe_all cs g) l a b) (n + follows l a b ((l0, r0) :: cs)).
Proof.
  induction cs as [|[l1 r1] cs IH]; intros g l0 r0 p0 n Hlast Hall Hl Hn Hc; [by rewrite N.add_0_r|].
  rewrite follows_cons, N.add_assoc in *. destruct (observe_state g l1 r1) as (p & Hp & _ & Hlen).
  inversion Hall as [|? ? H0 Hall']; subst. inversion Hall' as [|? ? H1 _]; subst. cbn [observe_all foldl].
  eapply IH; [exact Hp|done|by rewrite Hlen|done|].
  eapply observe_counts; [exact Hlast|done|done|done| |done]. eapply N.le_lt_trans; [|exact Hn]. apply N.le_add_r.
Qed.

Lemma learned_new num_layers k l a b : learned (pregate_new num_layers k) l a b = None.
Proof.
  unfold learned, pregate_new. simpl. destruct (replicate _ _ !! _) eqn:E; [|done].
  apply lookup_replicate in E as [-> _]. simpl. by rewrite lookup_empty.
Qed.

(** The tables of a predictor after any calls. *)
Lemma tables_count num_layers k cs l a b :
  l < N.max num_layers 1 -> Forall (fun c => c.1 <= u32_max) cs -> follows l a b cs < u64_max ->
  counts (learned (observe_all cs (pregate_new num_layers k)) l a b) (follows l a b cs).
Proof.
  intros Hl Hall Hn. assert (H0 : counts (learned (pregate_new num_layers k) l a b) 0) by (by rewrite learned_new).
  destruct cs as [|[l0 r0] cs]; [done|]. cbn [observe_all foldl].
  destruct (observe_state (pregate_new num_layers k) l0 r0) as (p & Hp & _ & Hlen).
  rewrite <-(N.add_0_l (follows _ _ _ _)). eapply observe_all_counts; [exact Hp|done| |done|by rewrite observe_first].
  rewrite Hlen. simpl. rewrite length_replicate. lia.
Qed.

(** ** What is predicted *)

Definition nonzero (o : option N) (n : N) : Prop := o = if n =? 0 then None else Some n.

Lemma add_score_list b (l : list (N * N)) : forall (s : gmap N N) n,
  NoDup l.*1 -> (forall p, p ∈ l -> p.2 <> 0) -> nonzero (s !! b) n ->
  n + default 0 ((list_to_map l : gmap N N) !! b) <= u64_max ->
  nonzero (foldl (fun s p => <[p.1 := wrap_add u64_max (default 0 (s !! p.1)) p.2]> s) s l !! b)
    (n + default 0 ((list_to_map l : gmap N N) !! b)).
Proof.
  induction l as [|[x c] l IH]; intros s n Hnd Hpos Hs Hn;
    [simpl; rewrite lookup_empty; simpl; by rewrite N.add_0_r|].
  inversion Hnd as [|? ? Hx Hnd']; subst. simpl in Hx.
  assert (Hc : c <> 0) by (apply (Hpos (x, c)); apply list_elem_of_here).
  assert (Hrest : forall p, p ∈ l -> p.2 <> 0) by (intros; apply Hpos; by apply list_elem_of_further).
  cbn [foldl list_to_map fst snd] in *. destruct (decide (x = b)) as [->|Hne].
  - change (list_to_map ((b, c) :: l) : gmap N N) with (<[b:=c]> (list_to_map l : gmap N N)) in *. rewrite lookup_insert_eq in *. simpl in *.
    assert (E : (list_to_map l : gmap N N) !! b = None) by (by apply not_elem_of_list_to_map_1).
    specialize (IH (<[b := wrap_add u64_max (default 0 (s !! b)) c]> s) (n + c)). rewrite E in IH. simpl in IH.
    rewrite N.add_0_r in IH. apply IH; [done..| |done].
    rewrite lookup_insert_eq. unfold nonzero in *. rewrite Hs, (proj2 (N.eqb_neq (n + c) 0)) by lia.
    destruct (N.eqb_spec n 0) as [->|]; simpl; by rewrite wrap_add_small by lia.
  - change (list_to_map ((x, c) :: l) : gmap N N) with (<[x:=c]> (list_to_map l : gmap N N)) in *. rewrite lookup_insert_ne in * by done.
    apply IH; [done..| |done]. unfold nonzero. by rewrite lookup_insert_ne.
Qed.

Lemma add_scores_sum b (s table : gmap N N) n :
  (forall x c, table !! x = Some c -> c <> 0) -> nonzero (s !! b) n -> n + default 0 (table !! b) <= u64_max ->
  nonzero (add_scores s table !! b) (n + default 0 (table !! b)).
Proof.
  intros Hpos Hs Hn. pose proof (add_score_list b (map_to_list table) s n) as H.
  rewrite list_to_map_to_list in H. apply H; [apply NoDup_fst_map_to_list| |done|done].
  intros [x c] Hin. apply elem_of_map_to_list in Hin. simpl. eauto.
Qed.

(** The evidence for expert [b] after the experts [routed]: how often it followed each. *)
Definition evidence (l : N) (routed : list N) (cs : list (N * list N)) (b : N) : N :=
  foldr (fun a n => follows l a b cs + n) 0 routed.

Lemma length_observe_all cs : forall g,
  top_n (observe_all cs g) = top_n g /\ length (transitions (observe_all cs g)) = length (transitions g).
Proof.
  induction cs as [|[l r] cs IH]; intros g; [done|]. cbn [observe_all foldl].
  destruct (observe_state g l r) as (p & _ & E & E'). destruct (IH (observe g (l, r))) as [H H'].
  unfold observe_all in *. by rewrite H, H'.
Qed.

Lemma follows_snoc l a b r cs : follows l a b (cs ++ [(l, r)]) = follows l a b cs.
Proof.
  induction cs as [|[l1 r1] cs IH]; [done|]. destruct cs as [|[l2 r2] cs].
  - simpl. destruct (N.eqb_spec l1 l) as [->|]; [|done]. simpl. by rewrite (proj2 (N.eqb_neq l (l + 1))) by lia.
  - change ((?x :: ?y :: ?l) ++ ?k) with (x :: y :: (l ++ k)). 
    rewrite (follows_cons _ _ _ (l1, r1) (l2, r2) (cs ++ _)), (follows_cons _ _ _ (l1, r1) (l2, r2) cs). f_equal. exact IH.
Qed.

Lemma times_elem x l : 0 < times x l -> x ∈ l.
Proof.
  induction l as [|y l IH]; [unfold times; simpl; lia|]. rewrite times_cons. intros H.
  destruct (N.eqb_spec y x) as [->|]; [apply list_elem_of_here|]. apply list_elem_of_further, IH. lia.
Qed.

Lemma follows_elem l a b cs : 0 < follows l a b cs -> exists c, c ∈ cs /\ b ∈ c.2.
Proof.
  induction cs as [|[l1 r1] cs IH]; [simpl; lia|]. destruct cs as [|[l2 r2] cs]; [simpl; lia|].
  rewrite follows_cons. intros H. destruct (N.eq_dec (follows l a b ((l2, r2) :: cs)) 0) as [E|E].
  - exists (l2, r2). split; [apply list_elem_of_further, list_elem_of_here|]. rewrite E in H. simpl in H.
    apply times_elem. destruct (_ && _); [|lia].
    destruct (N.eq_dec (times b r2) 0) as [E0|Hne].
    + rewrite E0, N.mul_0_r in H. lia.
    + simpl. lia.
  - destruct IH as (c & Hc & Hb); [clear -E; lia|]. exists c. split; [by apply list_elem_of_further|done].
Qed.

Lemma evidence_elem l routed cs b : 0 < evidence l routed cs b -> exists c, c ∈ cs /\ b ∈ c.2.
Proof.
  induction routed as [|a routed IH]; simpl; [lia|]. intros H.
  destruct (N.eq_dec (follows l a b cs) 0); [apply IH|apply (follows_elem l a)]; lia.
Qed.

Lemma evidence_snoc l r routed cs b : evidence l routed (cs ++ [(l, r)]) b = evidence l routed cs b.
Proof. induction routed as [|a routed IH]; [done|]. simpl. by rewrite follows_snoc, IH. Qed.

(** A bound on the counts: the product of the lengths of the calls. *)
Fixpoint follow_bound (cs : list (N * list N)) : N :=
  match cs with
  | c1 :: (c2 :: _) as cs' => N.of_nat (length c1.2) * N.of_nat (length c2.2) + follow_bound cs'
  | _ => 0
  end.

Lemma times_le x l : times x l <= N.of_nat (length l).
Proof. induction l as [|y l IH]; [done|]. rewrite times_cons. simpl length. destruct (y =? x); lia. Qed.

Lemma follows_le l a b cs : follows l a b cs <= follow_bound cs.
Proof.
  induction cs as [|[l1 r1] cs IH]; [done|]. destruct cs as [|[l2 r2] cs]; [done|].
  rewrite follows_cons. cbn [follow_bound snd]. apply N.add_le_mono; [|exact IH].
  cbn [follows]. rewrite N.add_0_r. destruct (_ && _); [|apply N.le_0_l].
  apply N.mul_le_mono; apply times_le.
Qed.

(** The prediction is made from the tables the call leaves. *)
Lemma predict_after l now g : fst (observe_and_predict l now g) = predict l now (observe g (l, now)).
Proof. reflexivity. Qed.

(** The widths of the arguments of a call. *)
Definition call_ok (c : N * list N) : Prop := c.1 <= u32_max /\ Forall (fun e => e <= u32_max) c.2.

Lemma rank_key_le b n c m :
  b <= u32_max -> c <= u32_max -> n <= u64_max -> m <= u64_max -> b <> c ->
  rank_key (b, n) <= rank_key (c, m) -> m < n \/ m = n /\ b < c.
Proof. unfold rank_key, u32_max. cbn [fst snd]. lia. Qed.

Section predictions.
Context (num_layers : N) (k : nat) (cs : list (N * list N)) (l : N) (routed : list N).
Context (Hl : l < N.max num_layers 1) (Hids : Forall call_ok cs).
Context (Hcount : forall a b, follows l a b cs < u64_max) (Hsum : forall b, evidence l routed cs b <= u64_max).

Let g := observe_all cs (pregate_new num_layers k).

Lemma learned_counts a b : counts (learned g l a b) (follows l a b cs).
Proof. apply tables_count; [done| |done]. eapply Forall_impl; [exact Hids|]. by intros c [? _]. Qed.

Lemma scores_are_evidence layer_map b : transitions g !! N.to_nat l = Some layer_map ->
  nonzero (scores_of layer_map routed !! b) (evidence l routed cs b).
Proof.
  intros E. unfold scores_of. rewrite <-(N.add_0_l (evidence _ _ _ _)). generalize (Hsum b). rewrite <-(N.add_0_l (evidence _ _ _ _)) at 1.
  assert (H0 : nonzero ((∅ : gmap N N) !! b) 0) by (by rewrite lookup_empty). revert H0. generalize (∅ : gmap N N) 0. clear Hsum.
  assert (Hat : forall a x, target_count layer_map a x = if follows l a x cs =? 0 then None else Some (follows l a x cs)).
  { intros a x. rewrite <-(learned_target g l layer_map) by done. apply learned_counts. }
  induction routed as [|a rs IH]; intros s n Hs Hn; simpl in *; [by rewrite N.add_0_r|].
  rewrite N.add_assoc in *. unfold target_count in Hat. specialize (Hat a) as Ha. simpl in Ha.
  destruct (layer_map !! a) as [table|]; simpl in Ha.
  - assert (Ht : default 0 (table !! b) = follows l a b cs) by (rewrite Ha; destruct (N.eqb_spec (follows l a b cs) 0); simpl; lia).
    apply IH; [|done]. rewrite <-Ht in *. apply add_scores_sum; [|done|lia].
    intros x c Hx. rewrite Ha in Hx. destruct (N.eqb_spec (follows l a x cs) 0); congruence.
  - specialize (Ha b). destruct (N.eqb_spec (follows l a b cs) 0) as [E0|]; [|done]. rewrite E0, N.add_0_r in *. by apply IH.
Qed.

Lemma predict_top :
  exists r, predict l routed g = r.*1 /\ NoDup r.*1 /\ (length r <= Nat.max k 1)%nat /\
    (forall p, p ∈ r -> p.2 = evidence l routed cs p.1 /\ 0 < p.2) /\
    (forall p b, p ∈ r -> 0 < evidence l routed cs b -> b ∉ r.*1 ->
       evidence l routed cs b < p.2 \/ evidence l routed cs b = p.2 /\ p.1 < b) /\
    ((length r < Nat.max k 1)%nat -> forall b, 0 < evidence l routed cs b -> b ∈ r.*1).
Proof.
  destruct (length_observe_all cs (pregate_new num_layers k)) as [Htop Hlen].
  destruct (lookup_lt_is_Some_2 (transitions g) (N.to_nat l)) as [m E].
  { unfold g. rewrite Hlen. simpl. rewrite length_replicate. lia. }
  unfold predict. rewrite E. fold g in Htop. rewrite Htop. cbn [top_n pregate_new].
  set (sc := map_to_list (scores_of m routed)).
  assert (Hsc : forall b n, (b, n) ∈ sc <-> n = evidence l routed cs b /\ 0 < n).
  { intros b n. unfold sc. rewrite elem_of_map_to_list. rewrite (scores_are_evidence m b E).
    generalize (evidence l routed cs b). intros e. destruct (N.eqb_spec e 0); split; [done|lia|intros [= ->]; lia|by intros [-> _]]. }
  destruct (top_of_sort rank_key sc (Nat.max k 1)) as (Ht & Hnd & Hin & _ & Hbest & Hall).
  set (r := take (Nat.max k 1) (sort_by_key rank_key sc)) in *. clearbody r.
  assert (Hev : forall b, 0 < evidence l routed cs b -> b ∉ r.*1 -> (b, evidence l routed cs b) ∈ sc /\ (b, evidence l routed cs b) ∉ r).
  { intros b Hb Hn. split; [by apply Hsc|]. intros H. apply Hn. apply list_elem_of_fmap. by exists (b, evidence l routed cs b). }
  exists r. split; [done|]. split_and!.
  - apply NoDup_fmap_fst; [|apply Hnd, NoDup_map_to_list]. intros b x y Hx Hy.
    apply Hin, Hsc in Hx as [-> _]. by apply Hin, Hsc in Hy as [-> _].
  - rewrite Ht. lia.
  - intros [b n] Hp. by apply Hin, Hsc in Hp.
  - intros [b n] c Hp Hc Hn. destruct (Hev c Hc Hn) as [H1 H2]. pose proof (Hin _ Hp) as Hp'. apply Hsc in Hp' as [Hbn H0].
    apply (rank_key_le b n c); [| |by rewrite Hbn|done|by intros ->; apply Hn, (list_elem_of_fmap_2 fst r (c, n))|by apply Hbest].
    + rewrite Hbn in H0. apply evidence_elem in H0 as (q & Hq & Hb). rewrite Forall_forall in Hids.
      destruct (Hids q Hq) as [_ Hf]. rewrite Forall_forall in Hf. auto.
    + apply evidence_elem in Hc as (q & Hq & Hb). rewrite Forall_forall in Hids.
      destruct (Hids q Hq) as [_ Hf]. rewrite Forall_forall in Hf. auto.
  - intros Hlt b Hb. destruct (decide (b ∈ r.*1)) as [|Hn]; [done|]. destruct (Hev b Hb Hn) as [H1 H2]. exfalso. apply H2.
    by rewrite (Hall Hlt).
Qed.
End predictions.

(** C20. What a call returns.  After any calls, a call for layer [l] returns at most [top_n]
    (and at least one is allowed) distinct experts, each of which was routed at layer [l + 1]
    right after one of the experts now routed; an expert that is left out has less evidence
    than every expert returned, or as much and a larger id; and nothing with evidence is left
    out when there is room.  The evidence is the number of times the history itself shows the
    expert in the call for [l + 1] that follows a call for [l]. *)
Theorem predictions_have_the_most_evidence (num_layers : N) (k : nat) (cs : list (N * list N)) (l : N) (routed : list N) :
  l < N.max num_layers 1 -> Forall call_ok (cs ++ [(l, routed)]) ->
  (forall a b, follows l a b cs < u64_max) -> (forall b, evidence l routed cs b <= u64_max) ->
  let p := fst (observe_and_predict l routed (observe_all cs (pregate_new num_layers k))) in
  let seen := evidence l routed cs in
  NoDup p /\ (length p <= Nat.max k 1)%nat /\ (forall b, b ∈ p -> 0 < seen b) /\
  (forall b c, b ∈ p -> 0 < seen c -> c ∉ p -> seen c < seen b \/ seen c = seen b /\ b < c) /\
  ((length p < Nat.max k 1)%nat -> forall b, 0 < seen b -> b ∈ p).
Proof.
  intros Hl Hids Hc Hs p seen.
  assert (Hf : forall a b, follows l a b (cs ++ [(l, routed)]) = follows l a b cs) by (intros; apply follows_snoc).
  assert (He : forall b, evidence l routed (cs ++ [(l, routed)]) b = seen b) by (intros; apply evidence_snoc).
  destruct (predict_top num_layers k (cs ++ [(l, routed)]) l routed) as (r & Hr & Hnd & Hlen & Hin & Hbest & Hall);
    [done|done|intros; rewrite Hf; apply Hc|intros; rewrite He; apply Hs|].
  assert (Hp : p = r.*1) by (rewrite <-Hr; unfold observe_all; rewrite foldl_app; apply predict_after).
  rewrite Hp. split_and!; [done|by rewrite length_fmap| | |].
  - intros b Hb. apply list_elem_of_fmap in Hb as (q & -> & Hq). destruct (Hin q Hq) as [E Hpos]. by rewrite He in E; rewrite <-E.
  - intros b c Hb Hc0 Hn. apply list_elem_of_fmap in Hb as (q & -> & Hq). destruct (Hin q Hq) as [E _].
    specialize (Hbest q c Hq). rewrite E, !He in Hbest. by apply Hbest.
  - rewrite length_fmap. intros Hlt b Hb. apply Hall; [done|by rewrite He].
Qed.

(** ** Sample runs *)

Definition two_passes : list (N * list N) :=
  [(0, [0; 1]); (1, [10; 11]); (2, [20]); (0, [0; 1]); (1, [10; 12]); (2, [20]); (0, [1])].

Example first_pass_predicts_nothing : fst (observe_and_predict 0 [0; 1] (pregate_new 3 2)) = [].
Proof. vm_compute. reflexivity. Qed.

Example second_pass_predicts :
  fst (observe_and_predict 0 [0; 1] (observe_all (take 3 two_passes) (pregate_new 3 2))) = [10; 11] /\
  fst (observe_and_predict 1 [10] (observe_all (take 4 two_passes) (pregate_new 3 2))) = [20].
Proof. split; vm_compute; reflexivity. Qed.

(** A call that skips a layer links nothing. *)
Example skipped_layer_links_nothing :
  fst (observe_and_predict 0 [1; 2] (observe_all [(0, [1; 2]); (2, [5; 6])] (pregate_new 4 2))) = [].
Proof. vm_compute. reflexivity. Qed.

(** Predictions are scored against the next layer. *)
Example scored_predictions :
  let g := observe_all [(0, [0]); (1, [9]); (0, [0]); (1, [9])] (pregate_new 2 2) in
  (hits g, misses g, accuracy g) = (1, 0, f64_one).
Proof. vm_compute. reflexivity. Qed.

Module Witness.

Lemma predictions_have_the_most_evidence_witness :
  let p := fst (observe_and_predict 0 [1] (observe_all (take 6 two_passes) (pregate_new 3 2))) in
  NoDup p /\ p = [10; 11].
Proof.
  destruct (predictions_have_the_most_evidence 3 2 (take 6 two_passes) 0 [1]) as (Hn & _).
  - vm_compute. reflexivity.
  - repeat (constructor; [split; [vm_compute; discriminate|repeat (constructor; [vm_compute; discriminate|]); constructor]|]).
    constructor.
  - intros a b. pose proof (follows_le 0 a b (take 6 two_passes)) as H.
    eapply N.le_lt_trans; [exact H|vm_compute; reflexivity].
  - intros b. cbn [evidence foldr]. pose proof (follows_le 0 1 b (take 6 two_passes)) as H.
    rewrite N.add_0_r. eapply N.le_trans; [exact H|vm_compute; discriminate].
  - split; [exact Hn|vm_compute; reflexivity].
Defined.
End Witness.
