(* ===== verification/Residency.v ===== *)
(** Static residency ([src/rust-engine/src/residency.rs]): popularity profiles and the
    hot set they rank.  Reading and writing a profile as JSON are not modelled. *)
From S2P Require Import Prelude Floats Pregate.
Local Open Scope N_scope.

(** [ResidencyProfile]: observation counts by expert id. *)
Abbreviation ResidencyProfile := (gmap N N).

Definition profile_get (id : N) (p : ResidencyProfile) : N := default 0 (p !! id).

Definition profile_observe (id : N) (p : ResidencyProfile) : ResidencyProfile :=
  <[id := wrap_add u64_max (default 0 (p !! id)) 1]> p.

(** [x.ceil() as usize]. *)
Definition ceil_to_usize (x : f64) : N :=
  match x with
  | S754_finite false m e =>
      N.min usize_max (Z.to_N (if (0 <=? e)%Z then Zpos m * 2 ^ e else - (- Zpos m / 2 ^ (- e))))
  | S754_infinity false => usize_max
  | _ => 0
  end.

(** The number of experts [fraction] pins. *)
Definition pin_budget (fraction : f64) (namespace : N) : N :=
  ceil_to_usize (f64_mul (f64_of_N namespace) (f64_clamp fraction f64_zero f64_one)).

(** Experts outside the namespace are left out; the most observed first, then the smallest
    id. *)
Definition hot_set (fraction : f64) (namespace : N) (p : ResidencyProfile) : list N :=
  let frac := f64_clamp fraction f64_zero f64_one in
  if SFeqb frac f64_zero || (namespace =? 0) || bool_decide (p = ∅) then [] else
  let budget := ceil_to_usize (f64_mul (f64_of_N namespace) frac) in
  if budget =? 0 then [] else
  (take (N.to_nat budget)
     (sort_by_key rank_key (List.filter (fun kv => kv.1 <? namespace) (map_to_list p)))).*1.

(** [StaticResidencyState], without its latch. *)
Record StaticResidencyState := {
  fraction : f64;
  warmup_tokens : N;
  namespace : N;
  profile : option ResidencyProfile;
}.

Definition is_online (sr : StaticResidencyState) : bool := if profile sr is Some _ then false else true.

(** The order of the ranking. *)
Definition hotter (p : ResidencyProfile) (a b : N) : Prop :=
  profile_get b p < profile_get a p \/ profile_get b p = profile_get a p /\ a < b.

Definition profile_ok (p : ResidencyProfile) : Prop := forall id n, p !! id = Some n -> id <= u32_max /\ n <= u64_max.

Lemma hot_set_nil f ns p :
  SFeqb (f64_clamp f f64_zero f64_one) f64_zero || (ns =? 0) || bool_decide (p = ∅) = false ->
  hot_set f ns p = (take (N.to_nat (pin_budget f ns))
     (sort_by_key rank_key (List.filter (fun kv => kv.1 <? ns) (map_to_list p)))).*1.
Proof.
  intros E. unfold hot_set. rewrite E. fold (pin_budget f ns).
  destruct (N.eqb_spec (pin_budget f ns) 0) as [E0|]; [by rewrite E0|done].
Qed.

(** The hot set.  It is empty for a zero fraction, an empty namespace or an empty
    profile, and otherwise the experts pinned are distinct experts of the namespace that
    have been observed, as many as the budget asks for if there are that many; and an
    observed expert of the namespace that is not pinned is less popular than every
    expert that is (or as popular, with a larger id). *)
Theorem hot_set_is_most_popular (f : f64) (ns : N) (p : ResidencyProfile) :
  profile_ok p ->
  let h := hot_set f ns p in
  let eligible id := id < ns /\ is_Some (p !! id) in
  if SFeqb (f64_clamp f f64_zero f64_one) f64_zero || (ns =? 0) || bool_decide (p = ∅) then h = [] else
  NoDup h /\ (N.of_nat (length h) <= pin_budget f ns) /\ (forall id, id ∈ h -> eligible id) /\
  (forall a b, a ∈ h -> eligible b -> b ∉ h -> hotter p a b) /\
  (N.of_nat (length h) < pin_budget f ns -> forall id, eligible id -> id ∈ h).
Proof.
  intros Hp h eligible. destruct (_ || _ || _) eqn:E; [by unfold h, hot_set; rewrite E|].
  assert (Hh := hot_set_nil f ns p E). fold h in Hh. revert Hh.
  set (l := List.filter (fun kv => kv.1 <? ns) (map_to_list p)).
  assert (Hl : forall id n, (id, n) ∈ l <-> p !! id = Some n /\ id < ns).
  { intros id n. unfold l. rewrite list_elem_of_In, filter_In, <-list_elem_of_In, elem_of_map_to_list, N.ltb_lt. done. }
  destruct (top_of_sort rank_key l (N.to_nat (pin_budget f ns))) as (Ht & Hnd & Hin & _ & Hbest & Hall).
  set (r := take _ _) in *. clearbody r. intros ->.
  assert (Hmem : forall id, id ∈ r.*1 <-> exists n, (id, n) ∈ r).
  { intros id. rewrite list_elem_of_fmap. split; [intros ([? n] & -> & ?); eauto|intros (n & ?); by exists (id, n)]. }
  assert (Hget : forall id n, (id, n) ∈ r -> p !! id = Some n /\ id < ns /\ profile_get id p = n).
  { intros id n Hr. apply Hin, Hl in Hr as [Hr ?]. unfold profile_get. by rewrite Hr. }
  rewrite length_fmap. split_and!.
  - apply NoDup_fmap_fst; [intros id x y Hx%Hget Hy%Hget; naive_solver congruence|].
    apply Hnd. unfold l. apply NoDup_ListNoDup, List.NoDup_filter, NoDup_ListNoDup, NoDup_map_to_list.
  - rewrite Ht. lia.
  - intros id (n & Hr)%Hmem. apply Hget in Hr as (? & ? & _). split; [done|by eexists].
  - intros a b (n & Ha)%Hmem [Hb [m Hm]] Hnb. assert (Hbl : (b, m) ∈ l) by by apply Hl.
    assert (Hbr : (b, m) ∉ r) by (intros ?; apply Hnb, Hmem; eauto).
    pose proof (Hbest _ _ Ha Hbl Hbr) as Hk. destruct (Hget _ _ Ha) as (Ha' & _ & Hga).
    destruct (Hp a n Ha'), (Hp b m Hm). unfold hotter. rewrite Hga. unfold profile_get. rewrite Hm. simpl.
    apply rank_key_le; try done. intros ->. apply Hnb, Hmem. by exists n.
  - intros Hlt id [Hid [n Hn]]. apply Hmem. exists n. rewrite (Hall ltac:(lia)). by apply Hl.
Qed.

(** ** Sample profiles *)

Definition counted_profile (l : list N) : ResidencyProfile := foldl (fun p id => profile_observe id p) ∅ l.

(** A fifth of ten experts: the two hottest.  Budgets round up. *)
Example hot_set_samples :
  let tenth := f64_div f64_one (f64_of_N 10) in
  (hot_set (f64_add tenth tenth) 10 (list_to_map ((fun i => (i, i + 1)) <$> rangeN 10)),
   length (hot_set tenth 3 (counted_profile [0; 1; 2])),
   hot_set (f64_div f64_one (f64_of_N 4)) 8 (counted_profile [99; 2; 99; 5; 99; 2]))
  = ([9; 8], 1%nat, [2; 5]).
Proof. vm_compute. reflexivity. Qed.

(** A half of four experts, all as popular. *)
Example ties_go_to_small_ids : hot_set (f64_div f64_one (f64_of_N 2)) 4 (counted_profile [7; 3; 9; 1]) = [1; 3].
Proof. vm_compute. reflexivity. Qed.

Module Witness.
Lemma hot_set_is_most_popular_witness :
  let p := counted_profile [99; 2; 99; 5; 99; 2] in
  profile_ok p /\ hotter p 2 5.
Proof.
  intros p.
  assert (Hp : profile_ok p).
  { assert (H : map_Forall (fun id n => id <= u32_max /\ n <= u64_max) (p : gmap N N)) by (apply (bool_decide_eq_true_1 _); vm_compute; reflexivity).
    intros id n E. exact (H id n E). }
  split; [exact Hp|].
  pose proof (hot_set_is_most_popular (f64_div f64_one (f64_of_N 8)) 8 p Hp) as H. cbv zeta in H.
  match type of H with if ?b then _ else _ => assert (E : b = false) by (vm_compute; reflexivity); rewrite E in H end.
  destruct H as (_ & _ & _ & Hbest & _). apply Hbest.
  - apply (bool_decide_eq_true_1 _). vm_compute. reflexivity.
  - split; [vm_compute; reflexivity|]. apply (bool_decide_eq_true_1 _). vm_compute. reflexivity.
  - apply (bool_decide_eq_true_1 _). vm_compute. reflexivity.
Defined.
End Witness.
