(* ===== verification/Pinning.v ===== *)
(** Which experts the engine pins in its RAM cache
    ([locality_observe_and_reconcile], [bump_route_observations] and
    [maybe_apply_static_residency] of [src/rust-engine/src/engine.rs]), as the accesses of
    any number of tokens that interleave.

    A task is one routed token: it reconciles the pins with the hot set of the locality
    monitor, then counts its experts and pins those that cross the threshold, then applies
    the static hot set if nobody has.  The mutex around the locality pins is held across
    the accesses of a reconciliation; everything else is one access at a time.  Iteration
    over a hash set follows [elements], and the popularity snapshot is one access. *)
From S2P Require Import Prelude Floats Lru ExpertCache MultiLayerCache Router Residency.
Local Open Scope N_scope.

Section pinning.
Context `{!LruCache ExpertResident}.

Record engine := {
  cache : MultiLayerExpertCache;
  locality : option LocalityMonitor;
  locality_pinned : gset N;
  locality_holder : option nat;  (** the task that holds the mutex of [locality_pinned] *)
  static_pinned : gset N;
  applied : bool;
  route_observations : gmap N N;
  route_observation_tokens : N;
}.

Definition with_cache (m : MultiLayerExpertCache) (s : engine) : engine :=
  {| cache := m; locality := locality s; locality_pinned := locality_pinned s;
     locality_holder := locality_holder s; static_pinned := static_pinned s; applied := applied s;
     route_observations := route_observations s; route_observation_tokens := route_observation_tokens s |}.
Definition with_monitor (l : LocalityMonitor) (s : engine) : engine :=
  {| cache := cache s; locality := Some l; locality_pinned := locality_pinned s;
     locality_holder := locality_holder s; static_pinned := static_pinned s; applied := applied s;
     route_observations := route_observations s; route_observation_tokens := route_observation_tokens s |}.
Definition with_locality (p : gset N) (h : option nat) (s : engine) : engine :=
  {| cache := cache s; locality := locality s; locality_pinned := p;
     locality_holder := h; static_pinned := static_pinned s; applied := applied s;
     route_observations := route_observations s; route_observation_tokens := route_observation_tokens s |}.
Definition with_static (p : gset N) (a : bool) (s : engine) : engine :=
  {| cache := cache s; locality := locality s; locality_pinned := locality_pinned s;
     locality_holder := locality_holder s; static_pinned := p; applied := a;
     route_observations := route_observations s; route_observation_tokens := route_observation_tokens s |}.
Definition with_counts (o : gmap N N) (t : N) (s : engine) : engine :=
  {| cache := cache s; locality := locality s; locality_pinned := locality_pinned s;
     locality_holder := locality_holder s; static_pinned := static_pinned s; applied := applied s;
     route_observations := o; route_observation_tokens := t |}.

(** ** The budget of locality pins *)

(** The ids of the ranking that fit, hottest first: one slot of each layer stays free. *)
Fixpoint budgeted_hot (m : MultiLayerExpertCache) (ranked : list N) (pins_per_layer : gmap nat N) (new_hot : gset N)
  : gset N :=
  match ranked with
  | [] => new_hot
  | id :: ranked =>
      let layer := layer_of id m in
      let budget := sat_sub (capacity_of_layer layer m) 1 in
      let used := default 0 (pins_per_layer !! layer) in
      if used <? budget then budgeted_hot m ranked (<[layer := used + 1]> pins_per_layer) ({[id]} ∪ new_hot)
      else budgeted_hot m ranked pins_per_layer new_hot
  end.

(** The threshold for the geometry of the ids. *)
Definition effective_locality_threshold (pct : f32) (num_experts_per_layer : option N) (num_experts : N) : f32 :=
  match num_experts_per_layer with
  | Some per_layer =>
      if 0 <? per_layer
      then f32_div pct (f32_of_N (N.max ((num_experts + per_layer - 1) / per_layer) 1)) else pct
  | None => pct
  end.

(** [with_static_residency]: a fraction that is not positive leaves the feature off. *)
Definition with_static_residency (fraction : f64) (warmup namespace : N) (profile : option ResidencyProfile)
  : option StaticResidencyState :=
  if SFleb fraction f64_zero then None else
  Some {| Residency.fraction := if SFltb f64_one fraction then f64_one else if is_nan fraction then f64_one else fraction;
          warmup_tokens := warmup; namespace := namespace; profile := profile |}.

(** ** A token *)

(** Where the task of a token is. *)
Inductive code :=
| Observe (target : list N)
| Rank (target : list N)
| Lock (hot : gset N) (target : list N)
| PinNew (todo : list N) (hot : gset N) (target : list N)
| CheckOld (todo : list N) (hot : gset N) (target : list N)
| UnpinOld (id : N) (todo : list N) (hot : gset N) (target : list N)
| Count (target : list N)
| Bump (todo : list N)
| PinHot (id : N) (todo : list N)
| Apply
| Latch (hot : list N)
| PinStatic (todo hot : list N)
| Done
| Panicked.

(** The effective threshold, [pin_after_observations], [collect_route_profile], and the
    static-residency controller. *)
Variables (threshold : f32) (pin_after : N) (collect : bool) (static_residency : option StaticResidencyState).

Definition static_residency_needs_counts (s : engine) : bool :=
  match static_residency with Some sr => is_online sr && negb (applied s) | None => false end.

(** The ids [maybe_apply_static_residency] is about to pin; [None]: not yet. *)
Definition static_hot (s : engine) : option (list N) :=
  sr ← static_residency;
  if applied s then None else
  match profile sr with
  | Some p => Some (Residency.hot_set (Residency.fraction sr) (namespace sr) p)
  | None =>
      if route_observation_tokens s <? warmup_tokens sr then None
      else Some (Residency.hot_set (Residency.fraction sr) (namespace sr) (route_observations s))
  end.

(** One access of task [i]; the last component lists the experts pinned by their count. *)
Definition act (i : nat) (c : code) (s : engine) : engine * code * list N :=
  match c with
  | Observe target =>
      match locality s with
      | None => (s, Count target, [])
      | Some l => match Router.observe target l with
                  | Some l => (with_monitor l s, Rank target, [])
                  | None => (s, Panicked, [])
                  end
      end
  | Rank target =>
      match locality s with
      | None => (s, Count target, [])
      | Some l => (s, Lock (budgeted_hot (cache s) (Router.hot_set threshold l) ∅ ∅) target, [])
      end
  | Lock hot target =>
      match locality_holder s with
      | Some _ => (s, c, [])
      | None => (with_locality (locality_pinned s) (Some i) s, PinNew (elements (hot ∖ locality_pinned s)) hot target, [])
      end
  | PinNew (id :: todo) hot target => (with_cache (pin id (cache s)) s, PinNew todo hot target, [])
  | PinNew [] hot target => (s, CheckOld (elements (locality_pinned s ∖ hot)) hot target, [])
  | CheckOld (id :: todo) hot target =>
      (s, if bool_decide (id ∈ static_pinned s) then CheckOld todo hot target else UnpinOld id todo hot target, [])
  | UnpinOld id todo hot target => (with_cache (unpin id (cache s)) s, CheckOld todo hot target, [])
  | CheckOld [] hot target => (with_locality hot None s, Count target, [])
  | Count target =>
      if (0 <? pin_after) || collect || static_residency_needs_counts s
      then (with_counts (route_observations s) (wrap_add u64_max (route_observation_tokens s) 1) s, Bump target, [])
      else (s, Apply, [])
  | Bump (id :: todo) =>
      let prev := default 0 (route_observations s !! id) in
      let next := wrap_add u64_max prev 1 in
      (with_counts (<[id := next]> (route_observations s)) (route_observation_tokens s) s,
       if next =? pin_after then PinHot id todo else Bump todo, [])
  | Bump [] => (s, Apply, [])
  | PinHot id todo => (with_cache (pin id (cache s)) s, Bump todo, [id])
  | Apply => (s, match static_hot s with Some (id :: hot) => Latch (id :: hot) | _ => Done end, [])
  | Latch hot => if applied s then (s, Done, []) else (with_static (static_pinned s) true s, PinStatic hot hot, [])
  | PinStatic (id :: todo) hot => (with_cache (pin id (cache s)) s, PinStatic todo hot, [])
  | PinStatic [] hot => (with_static (list_to_set hot ∪ static_pinned s) (applied s) s, Done, [])
  | Done | Panicked => (s, c, [])
  end.

(** ** Interleavings *)

(** [frequency_pins] is only there for the statements. *)
Record world := { shared : engine; tasks : list code; frequency_pins : list N }.

(** What the rest of the engine leaves alone when it looks up, inserts and evicts. *)
Definition pin_view (m : MultiLayerExpertCache) : N * list (gset N * N) :=
  (experts_per_layer m, (fun c => (pinned c, ExpertCache.capacity c)) <$> caches m).

(** A token is routed; a task makes an access; another part of the engine changes what is
    resident. *)
Inductive event := Routed (target : list N) | Step (i : nat) | Elsewhere (m : MultiLayerExpertCache).

Definition exec1 (w : world) (e : event) : world :=
  match e with
  | Routed target => {| shared := shared w; tasks := tasks w ++ [Observe target]; frequency_pins := frequency_pins w |}
  | Step i =>
      match tasks w !! i with
      | None => w
      | Some c =>
          let '(s, c', pins) := act i c (shared w) in
          {| shared := s; tasks := <[i := c']> (tasks w); frequency_pins := pins ++ frequency_pins w |}
      end
  | Elsewhere m =>
      if bool_decide (pin_view m = pin_view (cache (shared w)))
      then {| shared := with_cache m (shared w); tasks := tasks w; frequency_pins := frequency_pins w |} else w
  end.

Definition exec (evs : list event) (w : world) : world := foldl exec1 w evs.

(** An engine that has routed nothing. *)
Definition started (m : MultiLayerExpertCache) (l : option LocalityMonitor) : world :=
  {| shared := {| cache := m; locality := l; locality_pinned := ∅; locality_holder := None; static_pinned := ∅;
                  applied := false; route_observations := ∅; route_observation_tokens := 0 |};
     tasks := []; frequency_pins := [] |}.

(** ** Pins, layer by layer *)

Definition layout (m : MultiLayerExpertCache) : N * list N :=
  (experts_per_layer m, ExpertCache.capacity <$> caches m).
Definition has_layer (id : N) (m : MultiLayerExpertCache) : Prop := is_Some (try_layer_idx id m).
Definition pinned_in (m : MultiLayerExpertCache) (id : N) : Prop := is_pinned id m = true.

(** Every layer only pins its own experts. *)
Definition at_home (m : MultiLayerExpertCache) : Prop :=
  forall i c id, caches m !! i = Some c -> id ∈ pinned c -> try_layer_idx id m = Some i.

Lemma layout_length m m' : layout m = layout m' -> length (caches m) = length (caches m').
Proof. intros [= _ H%(f_equal length)]. by rewrite !length_fmap in H. Qed.

Lemma layout_layer m m' id : layout m = layout m' -> try_layer_idx id m = try_layer_idx id m'.
Proof. intros H. pose proof (layout_length _ _ H). injection H as H _. unfold try_layer_idx. by rewrite H, H0. Qed.

Lemma layout_layer_of m m' id : layout m = layout m' -> layer_of id m = layer_of id m'.
Proof. intros H. pose proof (layout_length _ _ H). injection H as H _. unfold layer_of. by rewrite H, H0. Qed.

Lemma layout_capacity m m' i : layout m = layout m' -> capacity_of_layer i m = capacity_of_layer i m'.
Proof.
  intros H. injection H as _ H. apply (f_equal (fun l => l !! i)) in H. rewrite !list_lookup_fmap in H.
  unfold capacity_of_layer. destruct (caches m !! i), (caches m' !! i); simpl in H; congruence.
Qed.

Lemma layer_cache id m i : try_layer_idx id m = Some i -> is_Some (caches m !! i).
Proof. intros H%try_layer_idx_bound. by apply lookup_lt_is_Some_2. Qed.

Lemma pinned_in_spec m id :
  pinned_in m id <-> exists i c, try_layer_idx id m = Some i /\ caches m !! i = Some c /\ id ∈ pinned c.
Proof.
  unfold pinned_in, is_pinned. destruct (try_layer_idx id m) as [i|]; cbn [mbind option_bind]; [|naive_solver].
  destruct (caches m !! i) as [c|] eqn:E; [|naive_solver]. unfold ExpertCache.is_pinned. rewrite bool_decide_eq_true. naive_solver.
Qed.

(** [pin] and [unpin] change the pins of one layer. *)
Lemma at_layer_pins i c m p :
  caches m !! i = Some c -> layout (at_layer i (with_pinned p c) m) = layout m.
Proof.
  intros Hc. unfold layout, at_layer. simpl. f_equal. rewrite list_fmap_insert. apply list_insert_id.
  by rewrite list_lookup_fmap, Hc.
Qed.

Lemma pin_unpin_cases j m :
  (try_layer_idx j m = None /\ pin j m = m /\ unpin j m = m) \/
  exists i c, try_layer_idx j m = Some i /\ caches m !! i = Some c /\
    pin j m = at_layer i (with_pinned ({[j]} ∪ pinned c) c) m /\ unpin j m = at_layer i (with_pinned (pinned c ∖ {[j]}) c) m.
Proof.
  unfold pin, unpin. destruct (try_layer_idx j m) as [i|] eqn:E; [|by left].
  destruct (layer_cache _ _ _ E) as [c Hc]. cbn [mbind option_bind]. rewrite Hc. right. by exists i, c.
Qed.

Lemma layout_pin j m : layout (pin j m) = layout m /\ layout (unpin j m) = layout m.
Proof.
  destruct (pin_unpin_cases j m) as [(_ & -> & ->)|(i & c & _ & Hc & -> & ->)]; [done|].
  by split; apply at_layer_pins.
Qed.

Lemma pinned_at_layer m i c p id :
  caches m !! i = Some c ->
  pinned_in (at_layer i (with_pinned p c) m) id <->
  (try_layer_idx id m = Some i /\ id ∈ p) \/ (try_layer_idx id m <> Some i /\ pinned_in m id).
Proof.
  intros Hc. rewrite !pinned_in_spec. rewrite (layout_layer _ m) by by apply at_layer_pins.
  assert (Hi : (i < length (caches m))%nat) by by apply lookup_lt_Some in Hc.
  unfold at_layer. cbn [caches with_caches]. split.
  - intros (k & d & Hk & Hd & Hin). destruct (decide (k = i)) as [->|Hne].
    + rewrite list_lookup_insert_eq in Hd by done. injection Hd as <-. by left.
    + rewrite list_lookup_insert_ne in Hd by done. right. split; [congruence|by exists k, d].
  - intros [[Hk Hin]|[Hne (k & d & Hk & Hd & Hin)]].
    + exists i, (with_pinned p c). by rewrite list_lookup_insert_eq.
    + exists k, d. rewrite list_lookup_insert_ne by congruence. done.
Qed.

Lemma pinned_pin j m id : pinned_in (pin j m) id <-> pinned_in m id \/ (id = j /\ has_layer id m).
Proof.
  destruct (pin_unpin_cases j m) as [(Hn & -> & _)|(i & c & Hi & Hc & -> & _)].
  { split; [by left|]. intros [?|[-> [? ?]]]; [done|congruence]. }
  rewrite pinned_at_layer by done. destruct (decide (try_layer_idx id m = Some i)) as [E|E].
  - assert (Hp : pinned_in m id <-> id ∈ pinned c) by (rewrite pinned_in_spec; naive_solver).
    rewrite Hp. unfold has_layer. rewrite E. set_solver.
  - split; [intros [[? _]|[_ ?]]; [done|by left]|]. intros [?|[-> _]]; [by right|done].
Qed.

Lemma pinned_unpin j m id : pinned_in (unpin j m) id <-> pinned_in m id /\ id <> j.
Proof.
  destruct (pin_unpin_cases j m) as [(Hn & _ & ->)|(i & c & Hi & Hc & _ & ->)].
  { split; [|by intros [? _]]. intros H. split; [done|]. intros ->. apply pinned_in_spec in H as (i & c & ? & _). congruence. }
  rewrite pinned_at_layer by done. destruct (decide (try_layer_idx id m = Some i)) as [E|E].
  - assert (Hp : pinned_in m id <-> id ∈ pinned c) by (rewrite pinned_in_spec; naive_solver).
    rewrite Hp. set_solver.
  - split; [intros [[? _]|[_ ?]]; [done|split; [done|congruence]]|]. intros [? _]. by right.
Qed.

Lemma at_home_layer i c m p :
  at_home m -> caches m !! i = Some c -> (forall id, id ∈ p -> id ∈ pinned c \/ try_layer_idx id m = Some i) ->
  at_home (at_layer i (with_pinned p c) m).
Proof.
  intros Hm Hc Hp k d id Hk Hin. rewrite (layout_layer _ m) by by apply at_layer_pins.
  unfold at_layer in Hk. cbn [caches with_caches] in Hk. assert (Hi : (i < length (caches m))%nat) by by apply lookup_lt_Some in Hc.
  destruct (decide (k = i)) as [->|Hne].
  - rewrite list_lookup_insert_eq in Hk by done. injection Hk as <-. destruct (Hp id Hin) as [?|?]; [by eapply Hm|done].
  - rewrite list_lookup_insert_ne in Hk by done. by eapply Hm.
Qed.

Lemma at_home_pin j m : at_home m -> at_home (pin j m) /\ at_home (unpin j m).
Proof.
  intros Hm. destruct (pin_unpin_cases j m) as [(_ & -> & ->)|(i & c & Hi & Hc & -> & ->)]; [done|].
  split; apply at_home_layer; try done; set_solver.
Qed.

(** Changes elsewhere. *)
Lemma pin_view_layout m m' : pin_view m = pin_view m' -> layout m = layout m'.
Proof.
  intros [= H1 H2]. unfold layout. f_equal; [done|]. apply (f_equal (fmap snd)) in H2.
  by rewrite <-!list_fmap_compose in H2.
Qed.

Lemma pin_view_caches m m' i c :
  pin_view m = pin_view m' -> caches m !! i = Some c -> exists c', caches m' !! i = Some c' /\ pinned c' = pinned c.
Proof.
  intros [= _ H] Hc. apply (f_equal (fun l => l !! i)) in H. rewrite !list_lookup_fmap, Hc in H. simpl in H.
  destruct (caches m' !! i) as [c'|]; simplify_eq/=. eauto.
Qed.

Lemma pin_view_pinned m m' id : pin_view m = pin_view m' -> pinned_in m id -> pinned_in m' id.
Proof.
  intros H. rewrite !pinned_in_spec. intros (i & c & Hi & Hc & Hin). destruct (pin_view_caches _ _ _ _ H Hc) as (c' & Hc' & Hp).
  exists i, c'. rewrite <-(layout_layer m) by by apply pin_view_layout. by rewrite Hp.
Qed.

Lemma pin_view_home m m' : pin_view m = pin_view m' -> at_home m -> at_home m'.
Proof.
  intros H Hm i c id Hc Hin. rewrite <-(layout_layer m) by by apply pin_view_layout.
  destruct (pin_view_caches m' m i c) as (c' & Hc' & Hp); [done|done|]. eapply Hm; [done|by rewrite Hp].
Qed.

(** ** The budget *)

(** The experts of layer [i] in a set. *)
Definition of_layer (m : MultiLayerExpertCache) (i : nat) (ids : gset N) : gset N := filter (fun id => layer_of id m = i) ids.

(** A set that leaves a slot free in every layer. *)
Definition leaves_room (m : MultiLayerExpertCache) (ids : gset N) : Prop :=
  forall i, N.of_nat (size (of_layer m i ids)) <= capacity_of_layer i m - 1.

Lemma size_of_layer_empty m i : N.of_nat (size (of_layer m i ∅)) = 0.
Proof.
  assert (E : of_layer m i ∅ = ∅); [|by rewrite E, size_empty].
  apply set_eq. intros id. unfold of_layer. rewrite elem_of_filter. set_solver.
Qed.

Lemma size_of_layer_add m i id ids :
  (size (of_layer m i ({[id]} ∪ ids)) <= size (of_layer m i ids) + (if decide (layer_of id m = i) then 1 else 0))%nat.
Proof.
  destruct (decide _) as [E|E].
  - assert (Hsub : of_layer m i ({[id]} ∪ ids) ⊆ {[id]} ∪ of_layer m i ids).
    { intros x. unfold of_layer. rewrite elem_of_union, !elem_of_filter. set_solver. }
    apply subseteq_size in Hsub. rewrite size_union_alt, size_singleton in Hsub.
    assert (Hd : of_layer m i ids ∖ {[id]} ⊆ of_layer m i ids) by set_solver. apply subseteq_size in Hd. lia.
  - rewrite Nat.add_0_r. apply subseteq_size. intros x. unfold of_layer. rewrite !elem_of_filter. set_solver.
Qed.

Lemma budgeted_hot_ok m ranked : forall used hot,
  (forall i, N.of_nat (size (of_layer m i hot)) <= default 0 (used !! i) /\ default 0 (used !! i) <= capacity_of_layer i m - 1) ->
  leaves_room m (budgeted_hot m ranked used hot).
Proof.
  induction ranked as [|id ranked IH]; intros used hot Hinv; simpl; [intros i; destruct (Hinv i); lia|].
  destruct (N.ltb_spec (default 0 (used !! layer_of id m)) (sat_sub (capacity_of_layer (layer_of id m) m) 1)) as [Hlt|]; [|by apply IH].
  apply IH. intros i. destruct (Hinv i) as [H1 H2]. pose proof (size_of_layer_add m i id hot) as Hs.
  destruct (decide (layer_of id m = i)) as [<-|Hne].
  - rewrite lookup_insert_eq. unfold sat_sub in Hlt. simpl. lia.
  - rewrite lookup_insert_ne by done. lia.
Qed.

Lemma leaves_room_layout m m' ids : layout m = layout m' -> leaves_room m ids -> leaves_room m' ids.
Proof.
  intros H Hr i. specialize (Hr i). rewrite (layout_capacity m m') in Hr by done.
  assert (E : of_layer m' i ids = of_layer m i ids); [|by rewrite E].
  apply set_eq. intros id. unfold of_layer. by rewrite !elem_of_filter, (layout_layer_of m m').
Qed.

(** ** What is known at each point *)

Definition reconciling (c : code) : bool :=
  match c with PinNew _ _ _ | CheckOld _ _ _ | UnpinOld _ _ _ _ => true | _ => false end.

Definition applying (c : code) : gset N := match c with PinStatic _ hot => list_to_set hot | _ => ∅ end.

(** The experts pinned for another reason than their locality. *)
Definition others (w : world) : gset N :=
  static_pinned (shared w) ∪ list_to_set (frequency_pins w) ∪ ⋃ (applying <$> tasks w).

Lemma elem_of_others w id :
  id ∈ others w <-> id ∈ static_pinned (shared w) \/ id ∈ frequency_pins w \/
    exists i c, tasks w !! i = Some c /\ id ∈ applying c.
Proof.
  unfold others. rewrite !elem_of_union, elem_of_list_to_set, elem_of_union_list. setoid_rewrite list_elem_of_fmap.
  split; [intros [[?|?]|(X & (c & -> & Hc) & ?)]|intros [?|[?|(i & c & Hc & ?)]]]; try tauto.
  - right. right. apply list_elem_of_lookup in Hc as [i Hi]. eauto.
  - right. exists (applying c). split; [|done]. exists c. split; [done|]. by eapply list_elem_of_lookup_2.
Qed.

(** The code of the task that holds the mutex. *)
Definition holding (w : world) : option code := i ← locality_holder (shared w); tasks w !! i.

(** The locality pins that are certainly in place, and those that can be. *)
Definition kept (o : option code) (lp : gset N) : gset N :=
  match o with
  | Some (PinNew todo hot _) => lp ∪ (hot ∖ list_to_set todo)
  | Some (CheckOld _ hot _ | UnpinOld _ _ hot _) => hot
  | _ => lp
  end.
Definition claimed (o : option code) (lp : gset N) : gset N :=
  match o with
  | Some (PinNew _ hot _) => lp ∪ hot
  | Some (CheckOld todo hot _) => list_to_set todo ∪ hot
  | Some (UnpinOld id todo hot _) => {[id]} ∪ list_to_set todo ∪ hot
  | _ => lp
  end.

Definition code_ok (m : MultiLayerExpertCache) (c : code) : Prop :=
  match c with
  | Lock hot _ => leaves_room m hot
  | PinNew todo hot _ => leaves_room m hot /\ (forall id, id ∈ todo -> id ∈ hot)
  | CheckOld todo hot _ => leaves_room m hot /\ (forall id, id ∈ todo -> id ∉ hot)
  | UnpinOld id todo hot _ => leaves_room m hot /\ (id ∉ hot) /\ (forall id, id ∈ todo -> id ∉ hot)
  | PinStatic todo hot => forall id, id ∈ todo -> id ∈ hot
  | _ => True
  end.

Lemma code_ok_layout m m' c : layout m = layout m' -> code_ok m c -> code_ok m' c.
Proof. intros H. destruct c; simpl; try done; try (by apply leaves_room_layout); intros (Hr & ?); (split; [by eapply leaves_room_layout|done]). Qed.

Record pins_ok (w : world) : Prop := {
  po_home : at_home (cache (shared w));
  po_codes : Forall (code_ok (cache (shared w))) (tasks w);
  po_holder : forall i c, tasks w !! i = Some c -> (reconciling c = true <-> locality_holder (shared w) = Some i);
  po_live : forall i, locality_holder (shared w) = Some i -> is_Some (tasks w !! i);
  po_room : leaves_room (cache (shared w)) (locality_pinned (shared w));
  po_kept : forall id, id ∈ kept (holding w) (locality_pinned (shared w)) -> has_layer id (cache (shared w)) -> pinned_in (cache (shared w)) id;
  po_claimed : forall id, pinned_in (cache (shared w)) id -> id ∈ claimed (holding w) (locality_pinned (shared w)) \/ id ∈ others w;
}.

(** The world after a step of task [i]. *)
Definition after (w : world) (i : nat) (s : engine) (c : code) (pins : list N) : world :=
  {| shared := s; tasks := <[i := c]> (tasks w); frequency_pins := pins ++ frequency_pins w |}.

Lemma has_layer_layout m m' id : layout m = layout m' -> has_layer id m -> has_layer id m'.
Proof. intros H. unfold has_layer. by rewrite (layout_layer m m'). Qed.

Lemma codes_after w i s c pins :
  Forall (code_ok (cache (shared w))) (tasks w) -> layout (cache s) = layout (cache (shared w)) ->
  code_ok (cache s) c -> Forall (code_ok (cache s)) (tasks (after w i s c pins)).
Proof. intros Hf Hl Hc. apply Forall_insert; [|done]. eapply Forall_impl; [exact Hf|]. intros d. by apply code_ok_layout. Qed.

(** Other tasks than the one that reconciles only add pins, and have their reasons. *)
Lemma quiet_ok w i c s' c' pins :
  pins_ok w -> tasks w !! i = Some c -> reconciling c = false -> reconciling c' = false ->
  layout (cache s') = layout (cache (shared w)) -> at_home (cache s') -> code_ok (cache s') c' ->
  locality_holder s' = locality_holder (shared w) -> locality_pinned s' = locality_pinned (shared w) ->
  (forall id, pinned_in (cache (shared w)) id -> pinned_in (cache s') id) ->
  (forall id, id ∈ others w -> id ∈ others (after w i s' c' pins)) ->
  (forall id, pinned_in (cache s') id -> pinned_in (cache (shared w)) id \/ id ∈ others (after w i s' c' pins)) ->
  pins_ok (after w i s' c' pins).
Proof.
  intros [Hh Hc Hho Hlive Hr Hk Hcl] Hi Hq Hq' Hlay Hh' Hc' Hold Hlp Hgrow Hoth Hnew.
  assert (Hne : locality_holder (shared w) <> Some i) by (rewrite <-(Hho i c Hi); by rewrite Hq).
  assert (Hhold : holding (after w i s' c' pins) = holding w).
  { unfold holding. simpl. rewrite Hold. destruct (locality_holder (shared w)) as [j|]; [|done]. simpl.
    rewrite list_lookup_insert_ne; [done|]. congruence. }
  split; simpl.
  - done.
  - by apply (codes_after w i s' c' pins).
  - intros j d Hj. rewrite Hold. apply list_lookup_insert_Some in Hj as [(<- & <- & _)|(_ & Hj)]; [|by apply Hho].
    rewrite Hq'. split; [done|congruence].
  - intros j Hj. rewrite Hold in Hj. destruct (Hlive j Hj) as [d Hd]. rewrite list_lookup_insert_ne by congruence. by eexists.
  - rewrite Hlp. by eapply leaves_room_layout.
  - rewrite Hhold, Hlp. intros id Hid Hl. apply Hgrow, Hk; [done|]. by eapply has_layer_layout.
  - rewrite Hhold, Hlp. intros id Hp. destruct (Hnew id Hp) as [Ho|]; [|by right]. destruct (Hcl id Ho); auto.
Qed.

(** A step of the task that reconciles, or that begins to. *)
Lemma holder_ok w i c s' c' :
  pins_ok w -> tasks w !! i = Some c -> (reconciling c = true \/ locality_holder (shared w) = None) ->
  applying c = ∅ -> applying c' = ∅ -> static_pinned s' = static_pinned (shared w) ->
  layout (cache s') = layout (cache (shared w)) -> at_home (cache s') -> code_ok (cache s') c' ->
  locality_holder s' = (if reconciling c' then Some i else None) -> leaves_room (cache s') (locality_pinned s') ->
  let o := if reconciling c' then Some c' else None in
  (forall id, id ∈ kept o (locality_pinned s') -> has_layer id (cache s') -> pinned_in (cache s') id) ->
  (forall id, pinned_in (cache s') id -> id ∈ claimed o (locality_pinned s') \/ id ∈ others w) ->
  pins_ok (after w i s' c' []).
Proof.
  intros [Hh Hc Hho Hlive Hr Hk Hcl] Hi Hrec Ha Ha' Hst Hlay Hh' Hc' Hold Hroom o Hkept Hclaimed.
  assert (Hlt : (i < length (tasks w))%nat) by by apply lookup_lt_Some in Hi.
  assert (Hholder : holding (after w i s' c' []) = o).
  { unfold holding, o. simpl. rewrite Hold. destruct (reconciling c'); [|done]. simpl. by rewrite list_lookup_insert_eq. }
  assert (Hothers : forall id, id ∈ others w -> id ∈ others (after w i s' c' [])).
  { intros id. rewrite !elem_of_others. simpl. rewrite Hst. intros [?|[?|(j & d & Hj & Hd)]]; [by left|by right; left|].
    right. right. exists j, d. split; [|done]. rewrite list_lookup_insert_ne; [done|]. intros <-. set_solver. }
  split; simpl.
  - done.
  - by apply (codes_after w i s' c' []).
  - intros j d Hj. rewrite Hold. apply list_lookup_insert_Some in Hj as [(<- & <- & _)|(Hne & Hj)].
    + destruct (reconciling c'); [done|]. by split.
    + destruct (reconciling d) eqn:Hd.
      * apply (Hho j d Hj) in Hd. destruct Hrec as [Hrec|Hrec]; [|congruence].
        apply (Hho i c Hi) in Hrec. congruence.
      * split; [done|]. destruct (reconciling c'); congruence.
  - intros j Hj. rewrite Hold in Hj. destruct (reconciling c'); [|done]. injection Hj as <-.
    rewrite list_lookup_insert_eq by done. by eexists.
  - done.
  - by rewrite Hholder.
  - rewrite Hholder. intros id Hp. destruct (Hclaimed id Hp); auto.
Qed.

Lemma others_after w i c s' c' pins :
  tasks w !! i = Some c -> (forall id, id ∈ static_pinned (shared w) -> id ∈ static_pinned s') ->
  (forall id, id ∈ applying c -> id ∈ static_pinned s' \/ id ∈ applying c') ->
  forall id, id ∈ others w -> id ∈ others (after w i s' c' pins).
Proof.
  intros Hi Hs Ha id. rewrite !elem_of_others. cbn [shared frequency_pins tasks after].
  assert (Hlt : (i < length (tasks w))%nat) by by apply lookup_lt_Some in Hi.
  intros [?|[?|(j & d & Hj & Hd)]]; [left; auto|right; left; apply elem_of_app; by right|].
  destruct (decide (i = j)) as [<-|Hne].
  - assert (d = c) as -> by congruence. destruct (Ha id Hd); [by left|]. right. right. exists i, c'.
    by rewrite list_lookup_insert_eq.
  - right. right. exists j, d. by rewrite list_lookup_insert_ne.
Qed.

(** A step that leaves the cache alone and does not reconcile. *)
Lemma no_pin_ok w i c s' c' :
  pins_ok w -> tasks w !! i = Some c -> reconciling c = false -> reconciling c' = false ->
  cache s' = cache (shared w) -> code_ok (cache (shared w)) c' ->
  locality_holder s' = locality_holder (shared w) -> locality_pinned s' = locality_pinned (shared w) ->
  (forall id, id ∈ static_pinned (shared w) -> id ∈ static_pinned s') ->
  (forall id, id ∈ applying c -> id ∈ static_pinned s' \/ id ∈ applying c') ->
  pins_ok (after w i s' c' []).
Proof.
  intros Hw Hi Hq Hq' Hc Hok Hh Hl Hs Ha. eapply quiet_ok; try done; rewrite ?Hc; try done; [apply Hw| |by left].
  by eapply others_after.
Qed.

(** A step that pins an expert for another reason than its locality. *)
Lemma pin_other_ok w i c id c' pins :
  pins_ok w -> tasks w !! i = Some c -> reconciling c = false -> reconciling c' = false ->
  code_ok (cache (shared w)) c' -> applying c' = applying c -> id ∈ pins ++ elements (applying c) ->
  pins_ok (after w i (with_cache (pin id (cache (shared w))) (shared w)) c' pins).
Proof.
  intros Hw Hi Hq Hq' Hok Ha Hid. destruct (layout_pin id (cache (shared w))) as [Hlay _].
  assert (Hlt : (i < length (tasks w))%nat) by by apply lookup_lt_Some in Hi.
  eapply quiet_ok; try done; cbn [cache with_cache].
  - apply (at_home_pin id), Hw.
  - by eapply code_ok_layout.
  - intros x. rewrite pinned_pin. by left.
  - eapply others_after; [done|done|]. intros x. rewrite Ha. by right.
  - intros x [?|[-> _]]%pinned_pin; [by left|]. right. apply elem_of_others. cbn [shared frequency_pins tasks after].
    apply elem_of_app in Hid as [Hid|Hid%elem_of_elements]; [right; left; apply elem_of_app; by left|].
    right. right. exists i, c'. rewrite list_lookup_insert_eq by done. by rewrite Ha.
Qed.

(** The reconciliation. *)
Lemma reconcile_ok w i c s' c' pins :
  pins_ok w -> tasks w !! i = Some c -> reconciling c = true -> act i c (shared w) = (s', c', pins) ->
  pins_ok (after w i s' c' pins).
Proof.
  intros Hw Hi Hrec Hact. assert (Hh : locality_holder (shared w) = Some i) by by apply (po_holder w Hw i c Hi).
  assert (Hok : code_ok (cache (shared w)) c) by (by eapply Forall_lookup_1; [apply Hw|]).
  assert (Hhold : holding w = Some c) by (unfold holding; rewrite Hh; exact Hi).
  pose proof (po_kept w Hw) as Hk. pose proof (po_claimed w Hw) as Hcl. rewrite Hhold in Hk, Hcl.
  destruct c as [| | |[|id todo] hot t|[|id todo] hot t|id todo hot t| | | | | | | |]; try done; cbn [act code_ok kept claimed] in *; injection Hact as <- <- <-.
  - destruct Hok as [Hr _]. eapply holder_ok; try done; [by left|apply Hw| |apply Hw| |].
    + split; [done|]. intros id. rewrite elem_of_elements. set_solver.
    + intros id Hid. apply Hk. set_solver.
    + intros id Hp. destruct (Hcl id Hp) as [Hid|]; [|by right]. left. cbn [reconciling claimed].
      rewrite list_to_set_elements_L. destruct (decide (id ∈ hot)); set_solver.
  - destruct Hok as [Hr Ht]. destruct (layout_pin id (cache (shared w))) as [Hlay _].
    eapply holder_ok; try done; cbn [cache with_cache locality_pinned locality_holder reconciling]; [by left|apply (at_home_pin id), Hw| | | |].
    + split; [by eapply leaves_room_layout|]. intros x Hx. apply Ht. by apply list_elem_of_further.
    + eapply leaves_room_layout; [done|apply Hw].
    + intros x Hx Hl. apply pinned_pin. destruct (decide (x = id)) as [->|Hne]; [by right; split; [|eapply has_layer_layout]|].
      left. apply Hk; [|by eapply has_layer_layout]. cbn [kept] in Hx. set_solver.
    + intros x [Hp|[-> _]]%pinned_pin; [by apply Hcl|]. left. cbn [claimed]. specialize (Ht id). set_solver.
  - destruct Hok as [Hr _]. eapply holder_ok; try done; [by left|apply Hw|].
    intros id Hp. destruct (Hcl id Hp); [left; set_solver|by right].
  - destruct Hok as [Hr Ht]. assert (Hrest : forall x, x ∈ todo -> x ∉ hot) by (intros; apply Ht; by apply list_elem_of_further).
    case_bool_decide as Hs;
      (eapply holder_ok; [exact Hw|exact Hi|by left|done|done|done|done|apply Hw| |done|apply Hw|exact Hk|]);
      cbn [reconciling claimed code_ok].
    + done.
    + intros x Hp. destruct (Hcl x Hp) as [Hx|]; [|by right]. destruct (decide (x = id)) as [->|]; [|left; set_solver].
      right. apply elem_of_others. by left.
    + split_and!; [done| |done]. apply Ht, list_elem_of_here.
    + intros x Hp. destruct (Hcl x Hp); [left; set_solver|by right].
  - destruct Hok as (Hr & Hid & Ht). destruct (layout_pin id (cache (shared w))) as [_ Hlay].
    eapply holder_ok; try done; cbn [cache with_cache locality_pinned locality_holder reconciling]; [by left|apply (at_home_pin id), Hw| | | |].
    + split; [by eapply leaves_room_layout|done].
    + eapply leaves_room_layout; [done|apply Hw].
    + intros x Hx Hl. apply pinned_unpin. split; [|by intros ->]. apply Hk; [done|]. by eapply has_layer_layout.
    + intros x [Hp Hne]%pinned_unpin. destruct (Hcl x Hp); [left; cbn [claimed]; set_solver|by right].
Qed.

(** Taking the mutex. *)
Lemma lock_ok w i hot t :
  pins_ok w -> tasks w !! i = Some (Lock hot t) -> locality_holder (shared w) = None ->
  pins_ok (after w i (with_locality (locality_pinned (shared w)) (Some i) (shared w))
             (PinNew (elements (hot ∖ locality_pinned (shared w))) hot t) []).
Proof.
  intros Hw Hi Hh. assert (Hok : code_ok (cache (shared w)) (Lock hot t)) by (by eapply Forall_lookup_1; [apply Hw|]).
  assert (Hhold : holding w = None) by (unfold holding; by rewrite Hh).
  pose proof (po_kept w Hw) as Hk. pose proof (po_claimed w Hw) as Hcl. rewrite Hhold in Hk, Hcl.
  eapply holder_ok; [exact Hw|exact Hi|by right|done|done|done|done|apply Hw| |done|apply Hw| |]; cbn [reconciling kept claimed code_ok].
  - split; [done|]. intros id. rewrite elem_of_elements. set_solver.
  - intros id. rewrite list_to_set_elements_L. cbn [with_locality locality_pinned cache]. intros Hid. apply Hk. cbn [kept].
    destruct (decide (id ∈ locality_pinned (shared w))); set_solver.
  - intros id Hp. cbn [with_locality locality_pinned]. destruct (Hcl id Hp) as [Hid|]; [left|by right]. cbn [claimed] in Hid. set_solver.
Qed.

Lemma act_pins_ok w i c s' c' pins :
  pins_ok w -> tasks w !! i = Some c -> act i c (shared w) = (s', c', pins) -> pins_ok (after w i s' c' pins).
Proof.
  intros Hw Hi Hact. destruct (reconciling c) eqn:Hrec; [by eapply reconcile_ok|].
  assert (Hok : code_ok (cache (shared w)) c) by (by eapply Forall_lookup_1; [apply Hw|]).
  destruct c as [t|t|hot t| | | |t|[|id todo]|id todo| |hot|[|id todo] hot| |]; try done; cbn [act] in Hact.
  - repeat case_match; injection Hact as <- <- <-; by apply (no_pin_ok w i (Observe t)).
  - case_match; injection Hact as <- <- <-; apply (no_pin_ok w i (Rank t)); try done. simpl.
    apply budgeted_hot_ok. intros j. rewrite lookup_empty, size_of_layer_empty. simpl. lia.
  - case_match eqn:Hh; injection Hact as <- <- <-; [by apply (no_pin_ok w i (Lock hot t))|by apply lock_ok].
  - case_match; injection Hact as <- <- <-; by apply (no_pin_ok w i (Count t)).
  - injection Hact as <- <- <-. by apply (no_pin_ok w i (Bump [])).
  - injection Hact as <- <- <-. case_match; by apply (no_pin_ok w i (Bump (id :: todo))).
  - injection Hact as <- <- <-. apply (pin_other_ok w i (PinHot id todo)); try done. set_solver.
  - injection Hact as <- <- <-. destruct (static_hot (shared w)) as [[|id hot]|]; by apply (no_pin_ok w i Apply).
  - case_match; injection Hact as <- <- <-; apply (no_pin_ok w i (Latch hot)); try done; simpl; set_solver.
  - injection Hact as <- <- <-. apply (no_pin_ok w i (PinStatic [] hot)); try done; simpl; set_solver.
  - injection Hact as <- <- <-. cbn [code_ok] in Hok.
    apply (pin_other_ok w i (PinStatic (id :: todo) hot)); try done; cbn [code_ok applying].
    + intros x Hx. apply Hok. by apply list_elem_of_further.
    + simpl. apply elem_of_elements, elem_of_list_to_set, Hok, list_elem_of_here.
  - injection Hact as <- <- <-. by apply (no_pin_ok w i Done).
  - injection Hact as <- <- <-. by apply (no_pin_ok w i Panicked).
Qed.

Lemma exec1_pins_ok w e : pins_ok w -> pins_ok (exec1 w e).
Proof.
  intros Hw. destruct e as [t|i|m]; simpl.
  - destruct Hw as [Hh Hc Hho Hlive Hr Hk Hcl].
    assert (Hold : forall j c, (tasks w ++ [Observe t]) !! j = Some c -> tasks w !! j = Some c \/ (j = length (tasks w) /\ c = Observe t)).
    { intros j c Hj. apply lookup_snoc_Some in Hj as [[_ Hj]|[-> <-]]; [by left|by right]. }
    assert (Hkeep : holding {| shared := shared w; tasks := tasks w ++ [Observe t]; frequency_pins := frequency_pins w |} = holding w).
    { unfold holding. simpl. destruct (locality_holder (shared w)) as [j|] eqn:E; [|done]. simpl.
      destruct (Hlive j eq_refl) as [c Hj]. rewrite Hj. by apply lookup_app_l_Some. }
    split; simpl; rewrite ?Hkeep; try done.
    + apply Forall_app. by repeat constructor.
    + intros j c Hj. destruct (Hold j c Hj) as [Hj'|[-> ->]]; [by apply Hho|]. split; [done|]. intros E.
      destruct (Hlive _ E) as [d Hd]. apply lookup_lt_Some in Hd. lia.
    + intros j Hj. destruct (Hlive j Hj) as [c Hc']. exists c. by apply lookup_app_l_Some.
    + intros id Hp. destruct (Hcl id Hp) as [|Ho]; [by left|]. right. apply elem_of_others in Ho. apply elem_of_others. simpl.
      destruct Ho as [?|[?|(j & c & Hj & ?)]]; [by left|by right; left|]. right. right. exists j, c. split; [by apply lookup_app_l_Some|done].
  - destruct (tasks w !! i) as [c|] eqn:Hi; [|done]. destruct (act i c (shared w)) as [[s' c'] pins] eqn:E. by eapply (act_pins_ok w i c).
  - case_bool_decide as Hv; [|done]. assert (Hlay := pin_view_layout _ _ Hv). destruct Hw as [Hh Hc Hho Hlive Hr Hk Hcl].
    split; simpl; try done.
    + by eapply pin_view_home.
    + eapply Forall_impl; [exact Hc|]. intros d. by apply code_ok_layout.
    + by eapply leaves_room_layout.
    + intros id Hid Hl. eapply pin_view_pinned; [done|]. apply Hk; [done|]. by eapply has_layer_layout.
    + intros id Hp. apply Hcl. by eapply pin_view_pinned.
Qed.

Lemma exec_pins_ok evs : forall w, pins_ok w -> pins_ok (exec evs w).
Proof. induction evs as [|e evs IH]; intros w Hw; [done|]. apply IH. by apply exec1_pins_ok. Qed.

Definition unpinned (m : MultiLayerExpertCache) : Prop := forall c, c ∈ caches m -> pinned c = ∅.

Lemma started_pins_ok m l : unpinned m -> pins_ok (started m l).
Proof.
  intros Hm. assert (Hno : forall i c, caches m !! i = Some c -> pinned c = ∅) by (intros i c Hc; by eapply Hm, list_elem_of_lookup_2).
  split; simpl; try done.
  - intros i c id Hc Hid. rewrite (Hno i c Hc) in Hid. set_solver.
  - intros i. rewrite size_of_layer_empty. lia.
  - intros id Hid%pinned_in_spec. destruct Hid as (i & c & _ & Hc & Hid). rewrite (Hno i c Hc) in Hid. set_solver.
Qed.

(** C10. Pins follow their reasons.  Whatever the interleaving of tokens, of the static
    application and of the rest of the engine, when no reconciliation is under way every
    expert of the last hot set is pinned in its layer; an expert is pinned only because
    of the hot set, of its count, or of static residency; and the pins of a layer that
    have no other reason than locality leave at least one slot of it evictable. *)
Theorem pins_have_a_reason (evs : list event) (m : MultiLayerExpertCache) (l : option LocalityMonitor) :
  unpinned m ->
  let w := exec evs (started m l) in
  let s := shared w in
  locality_holder s = None ->
  (forall id, id ∈ locality_pinned s -> has_layer id (cache s) -> pinned_in (cache s) id) /\
  (forall id, pinned_in (cache s) id -> id ∈ locality_pinned s \/ id ∈ others w) /\
  (forall i c, caches (cache s) !! i = Some c -> N.of_nat (size (pinned c ∖ others w)) <= ExpertCache.capacity c - 1).
Proof.
  intros Hm w s Hfree. assert (Hw : pins_ok w) by (by apply exec_pins_ok, started_pins_ok).
  assert (Hh : holding w = None) by (unfold holding; fold s; by rewrite Hfree).
  pose proof (po_kept w Hw) as Hk. pose proof (po_claimed w Hw) as Hcl. rewrite Hh in Hk, Hcl. cbn [kept claimed] in Hk, Hcl.
  split_and!; [done|done|]. intros i c Hc. pose proof (po_room w Hw i) as Hr. unfold capacity_of_layer in Hr.
  fold s in Hr. rewrite Hc in Hr. eapply N.le_trans; [|exact Hr].
  assert (Hsub : pinned c ∖ others w ⊆ of_layer (cache s) i (locality_pinned s)); [|apply subseteq_size in Hsub; lia].
  intros id [Hin Hno]%elem_of_difference. assert (Hhome : try_layer_idx id (cache s) = Some i) by (by eapply (po_home w Hw)).
  assert (Hp : pinned_in (cache s) id) by (apply pinned_in_spec; by exists i, c).
  destruct (Hcl id Hp) as [Hlp|]; [|done]. unfold of_layer. apply elem_of_filter. split; [|done].
  revert Hhome. unfold try_layer_idx, layer_of. destruct (Nat.ltb_spec (N.to_nat (id / experts_per_layer (cache s))) (length (caches (cache s)))); [|done].
  intros [= <-]. lia.
Qed.

(** ** Pins by count *)

Definition occurrences (id : N) (l : list N) : N := sumN ((fun x => if x =? id then 1 else 0) <$> l).
Definition awaits (id : N) (c : code) : N := match c with PinHot x _ => if x =? id then 1 else 0 | _ => 0 end.
Definition observed (w : world) (id : N) : N := default 0 (route_observations (shared w) !! id).

(** The pins of [id] that its count has issued, or is about to. *)
Definition issued (w : world) (id : N) : N := occurrences id (frequency_pins w) + sumN (awaits id <$> tasks w).

Definition counted (n : N) (w : world) : Prop :=
  forall id, observed w id <= n /\ issued w id = if (0 <? pin_after) && (pin_after <=? observed w id) then 1 else 0.

Lemma issued_after w i c s c' pins id :
  tasks w !! i = Some c ->
  issued (after w i s c' pins) id + awaits id c = issued w id + occurrences id pins + awaits id c'.
Proof.
  intros Hi. unfold issued, occurrences, after. cbn [frequency_pins tasks]. rewrite fmap_app, sumN_app.
  pose proof (sumN_insert (awaits id) (tasks w) i c c' Hi). lia.
Qed.

(** Most steps neither count nor pin by count. *)
Lemma uncounted w i c s c' pins n :
  counted n w -> tasks w !! i = Some c -> route_observations s = route_observations (shared w) ->
  (forall id, occurrences id pins + awaits id c' = awaits id c) -> counted n (after w i s c' pins).
Proof.
  intros Hn Hi Ho Ha id. destruct (Hn id) as [H1 H2]. pose proof (issued_after w i c s c' pins id Hi) as H. specialize (Ha id).
  unfold observed in *. cbn [shared after]. rewrite Ho. split; [done|]. rewrite <-H2. lia.
Qed.

Lemma bump_counted w i id0 todo n :
  counted n w -> tasks w !! i = Some (Bump (id0 :: todo)) -> n < u64_max ->
  let next := wrap_add u64_max (observed w id0) 1 in
  counted (n + 1) (after w i (with_counts (<[id0 := next]> (route_observations (shared w))) (route_observation_tokens (shared w)) (shared w))
    (if next =? pin_after then PinHot id0 todo else Bump todo) []).
Proof.
  intros Hn Hi Hlt next id. destruct (Hn id) as [H1 H2].
  assert (Hnext : next = observed w id0 + 1) by (apply wrap_add_small; destruct (Hn id0); lia).
  pose proof (issued_after w i _ (with_counts (<[id0 := next]> (route_observations (shared w))) (route_observation_tokens (shared w)) (shared w))
    (if next =? pin_after then PinHot id0 todo else Bump todo) [] id Hi) as H.
  change (awaits id (Bump (id0 :: todo))) with 0 in H. change (occurrences id []) with 0 in H.
  assert (Ho : observed (after w i (with_counts (<[id0 := next]> (route_observations (shared w))) (route_observation_tokens (shared w)) (shared w))
    (if next =? pin_after then PinHot id0 todo else Bump todo) []) id = if decide (id = id0) then observed w id0 + 1 else observed w id).
  { unfold observed. simpl. destruct (decide (id = id0)) as [->|]; [by rewrite lookup_insert_eq|by rewrite lookup_insert_ne]. }
  rewrite Ho. destruct (decide (id = id0)) as [->|Hne].
  - split; [lia|]. rewrite N.add_0_r in H. rewrite H, H2, Hnext. clear H H2.
    destruct (N.eqb_spec (observed w id0 + 1) pin_after) as [<-|Hp]; cbn [awaits].
    + rewrite N.eqb_refl, (proj2 (N.leb_gt _ _)), andb_false_r, (proj2 (N.leb_le _ _)), (proj2 (N.ltb_lt _ _)) by lia. done.
    + destruct (N.ltb_spec 0 pin_after); [|done]. simpl.
      destruct (N.leb_spec pin_after (observed w id0)), (N.leb_spec pin_after (observed w id0 + 1)); lia.
  - split; [lia|]. rewrite <-H2. destruct (next =? pin_after); cbn [awaits] in H; [|lia].
    rewrite (proj2 (N.eqb_neq id0 id)) in H by congruence. lia.
Qed.

Lemma counted_mono n n' w : counted n w -> n <= n' -> counted n' w.
Proof. intros H Hle id. destruct (H id). split; [lia|done]. Qed.

Lemma act_counted w i c s' c' pins n :
  counted n w -> tasks w !! i = Some c -> act i c (shared w) = (s', c', pins) -> n < u64_max ->
  counted (n + 1) (after w i s' c' pins).
Proof.
  intros Hn Hi Hact Hlt.
  assert (Hfew : (forall id, occurrences id pins + awaits id c' = awaits id c) -> route_observations s' = route_observations (shared w) ->
    counted (n + 1) (after w i s' c' pins)).
  { intros Ha Ho. eapply counted_mono; [by eapply uncounted|lia]. }
  destruct c as [t|t|hot t|[|id todo] hot t|[|id todo] hot t|id todo hot t|t|[|id todo]|id todo| |hot|[|id todo] hot| |]; cbn [act] in Hact.
  11: { injection Hact as <- <- <-. by apply bump_counted. }
  all: repeat case_match; injection Hact as <- <- <-; apply Hfew; try done.
  intros x. unfold occurrences. simpl. lia.
Qed.

Lemma exec_counted evs : forall w n,
  counted n w -> n + N.of_nat (length evs) <= u64_max -> counted (n + N.of_nat (length evs)) (exec evs w).
Proof.
  induction evs as [|e evs IH]; intros w n Hn Hlen; [by rewrite N.add_0_r|]. cbn [length] in *.
  replace (n + N.of_nat (S (length evs))) with (n + 1 + N.of_nat (length evs)) by lia.
  apply IH; [|lia]. destruct e as [t|i|m]; simpl.
  - intros id. destruct (Hn id) as [H1 H2]. unfold observed, issued in *. cbn [shared frequency_pins tasks] in *.
    rewrite fmap_app, sumN_app. simpl. split; [lia|]. rewrite <-H2. lia.
  - destruct (tasks w !! i) as [c|] eqn:Hi; [|eapply counted_mono; [done|lia]].
    destruct (act i c (shared w)) as [[s' c'] pins] eqn:E. eapply (act_counted w i c); [done|done|done|lia].
  - case_bool_decide; eapply counted_mono; first [exact Hn|lia].
Qed.

(** Pins by count are issued exactly once.  Whatever the interleaving, the pins an
    expert's count has issued (or whose access is the next one of some task) are one when
    its count has reached [pin_after_observations], and none before, or when that is 0. *)
Theorem frequency_pins_once (evs : list event) (m : MultiLayerExpertCache) (l : option LocalityMonitor) (id : N) :
  N.of_nat (length evs) <= u64_max ->
  let w := exec evs (started m l) in
  occurrences id (frequency_pins w) + sumN (awaits id <$> tasks w) =
  if (0 <? pin_after) && (pin_after <=? default 0 (route_observations (shared w) !! id)) then 1 else 0.
Proof.
  intros Hlen w. assert (H0 : counted 0 (started m l)).
  { intros x. unfold observed, issued. simpl. rewrite lookup_empty. simpl. split; [done|]. by destruct pin_after. }
  destruct (exec_counted evs _ 0 H0 ltac:(lia) id) as [_ H]. exact H.
Qed.

(** ** Static pins *)

(** [id] is pinned for good: in the set reconciliations respect, pinned, and no
    reconciliation has already decided to unpin it. *)
Definition pinned_for_good (id : N) (w : world) : Prop :=
  id ∈ static_pinned (shared w) /\ pinned_in (cache (shared w)) id /\
  Forall (fun c => match c with UnpinOld x _ _ _ => x <> id | _ => True end) (tasks w).

Lemma act_keeps_static w i c s' c' pins id :
  pinned_for_good id w -> tasks w !! i = Some c -> act i c (shared w) = (s', c', pins) ->
  pinned_for_good id (after w i s' c' pins).
Proof.
  intros (Hs & Hp & Hf) Hi Hact.
  assert (Hc : match c with UnpinOld x _ _ _ => x <> id | _ => True end) by (by eapply (Forall_lookup_1 _ _ _ _ Hf)).
  assert (Hres : id ∈ static_pinned s' /\ pinned_in (cache s') id /\ match c' with UnpinOld x _ _ _ => x <> id | _ => True end).
  { destruct c as [t|t|hot t|[|x todo] hot t|[|x todo] hot t|x todo hot t|t|[|x todo]|x todo| |hot|[|x todo] hot| |]; cbn [act] in Hact;
      repeat match type of Hact with context [match ?x with _ => _ end] => destruct x eqn:? end;
      injection Hact as <- <- <-; cbn [static_pinned cache with_cache with_locality with_monitor with_static with_counts];
      rewrite ?pinned_pin, ?pinned_unpin; try done; try (split_and!; auto; fail).
    all: try (split_and!; [set_solver|done|done]).
    all: split_and!; try done. all: try (intros ->; by case_bool_decide). }
  destruct Hres as (? & ? & ?). split_and!; [done|done|]. by apply Forall_insert.
Qed.

(** C11. Static pins survive.  Once static residency has recorded an expert among its pins,
    the expert is pinned, and no reconciliation has already decided to unpin it, it stays
    pinned and recorded whatever is routed, reconciled, evicted and inserted afterwards. *)
Theorem static_pins_survive (evs : list event) (w : world) (id : N) :
  id ∈ static_pinned (shared w) -> pinned_in (cache (shared w)) id ->
  Forall (fun c => match c with UnpinOld x _ _ _ => x <> id | _ => True end) (tasks w) ->
  id ∈ static_pinned (shared (exec evs w)) /\ pinned_in (cache (shared (exec evs w))) id.
Proof.
  intros Hs Hp Hf. assert (H : pinned_for_good id (exec evs w)); [|by destruct H as (? & ? & _)].
  assert (H0 : pinned_for_good id w) by done. clear Hs Hp Hf. revert w H0.
  induction evs as [|e evs IH]; intros w H0; [done|]. apply IH. destruct e as [t|i|m]; simpl.
  - destruct H0 as (? & ? & ?). split_and!; [done|done|]. apply Forall_app. by repeat constructor.
  - destruct (tasks w !! i) as [c|] eqn:Hi; [|done]. destruct (act i c (shared w)) as [[s' c'] pins] eqn:E. by eapply (act_keeps_static w i c).
  - case_bool_decide as Hv; [|done]. destruct H0 as (? & ? & ?). split_and!; [done| |done]. by eapply pin_view_pinned.
Qed.
End pinning.

(** ** What the rest of the engine does to the cache *)

Section elsewhere.
Context `{!LruCache ExpertResident}.
Variable powi : f64 -> Z -> f64.

Definition same_pins (c c' : ExpertCache) : Prop := pinned c' = pinned c /\ ExpertCache.capacity c' = ExpertCache.capacity c.

Lemma at_layer_view i c c' m :
  caches m !! i = Some c -> same_pins c c' -> pin_view (at_layer i c' m) = pin_view m.
Proof.
  intros Hc [Hp Hcap]. unfold pin_view, at_layer. simpl. f_equal. rewrite list_fmap_insert. apply list_insert_id.
  by rewrite list_lookup_fmap, Hc, Hp, Hcap.
Qed.

Lemma insert_same_pins r c h : same_pins c (ExpertCache.insert powi r c h).1.2.
Proof. unfold ExpertCache.insert. repeat case_match; simplify_eq/=; done. Qed.

Lemma evict_same_pins c h : same_pins c (ExpertCache.evict_lru powi c h).2.
Proof. unfold ExpertCache.evict_lru. repeat case_match; simplify_eq/=; done. Qed.

Lemma evict_first_same_pins ids : forall c, same_pins c (evict_first_unpinned ids c).2.
Proof.
  induction ids as [|id ids IH]; intros c; simpl; [done|]. case_bool_decide; [done|].
  destruct (lru_pop id (inner c)) as [[v|] l]; [done|]. apply (IH (with_inner l c)).
Qed.

Lemma evict_from_view evict layers : (forall c, same_pins c (evict c).2) ->
  forall m, pin_view (evict_from evict layers m).2 = pin_view m.
Proof.
  intros He. induction layers as [|i layers IH]; intros m; simpl; [done|].
  destruct (caches m !! i) as [c|] eqn:Hc; [|by rewrite IH].
  specialize (He c). destruct (evict c) as [[v|] c']; simpl in *; [|rewrite IH]; by eapply at_layer_view.
Qed.

(** Looking up, inserting and evicting are steps of the rest of the engine. *)
Lemma operations_are_elsewhere m h id r :
  pin_view (MultiLayerCache.get powi id m h).1.2 = pin_view m /\
  pin_view (MultiLayerCache.insert powi r m h).1.2 = pin_view m /\
  pin_view (MultiLayerCache.evict_lru powi m h).2 = pin_view m /\
  pin_view (MultiLayerCache.evict_lru_shadow_backed m).2 = pin_view m.
Proof.
  split_and!.
  - unfold MultiLayerCache.get. destruct (_ ≫= _) as [[i c]|] eqn:E; [|done].
    apply bind_Some in E as (k & _ & E). apply bind_Some in E as (d & Hd & [= -> ->]).
    unfold ExpertCache.get. destruct (lru_get id (inner c)) as [o l]. by eapply at_layer_view.
  - unfold MultiLayerCache.insert. destruct (_ ≫= _) as [[i c]|] eqn:E; [|done].
    apply bind_Some in E as (k & _ & E). apply bind_Some in E as (d & Hd & [= -> ->]).
    pose proof (insert_same_pins r c h) as H. destruct (ExpertCache.insert powi r c h) as [[o c'] h']. by eapply at_layer_view.
  - unfold MultiLayerCache.evict_lru. destruct (heaviest _) as [[start n]|]; [|done]. apply evict_from_view. intros c. apply evict_same_pins.
  - unfold MultiLayerCache.evict_lru_shadow_backed. apply evict_from_view. intros c. apply evict_first_same_pins.
Qed.
End elsewhere.

(** ** Sample runs: two layers of four experts, two slots each *)

Module Witness.

#[local] Existing Instance ListLru.list_lru.

Definition two_layers : MultiLayerExpertCache :=
  match with_capacities [2; 2] 4 with Some m => m | None => {| MultiLayerCache.caches := []; experts_per_layer := 4 |} end.

Definition half : f32 := f32_div f32_one (f32_of_N 2).

(** A window of one activation: the last expert is the hot set. *)
Definition monitor : LocalityMonitor := monitor_new 8 1.

Definition steps (i n : nat) : list event := replicate n (Step i).

(** Expert 1 is the whole profile. *)
Definition profile1 : ResidencyProfile := {[1 := 5]}.
Definition static1 : option StaticResidencyState := with_static_residency (f64_div f64_one (f64_of_N 8)) 100 8 (Some profile1).

Definition run (pin_after : N) (sr : option StaticResidencyState) (evs : list event) : world :=
  exec half pin_after false sr evs (started two_layers (Some monitor)).

Definition pins (w : world) (id : N) : bool := is_pinned id (cache (shared w)).
Definition all_done (w : world) : bool := forallb (fun c => match c with Done => true | _ => false end) (tasks w).

(** Reconciling alone: the pin moves with the hot set. *)
Example pins_follow_the_window :
  let w := run 0 None ([Routed [1]] ++ steps 0 8) in
  let w' := run 0 None ([Routed [1]] ++ steps 0 8 ++ [Routed [6]] ++ steps 1 12) in
  (pins w 1, all_done w, pins w' 1, pins w' 6, all_done w') = (true, true, false, true, true).
Proof. vm_compute. reflexivity. Qed.

(** A reconciliation has seen that expert 1 is not a static pin when static residency
    pins it and records it; then it unpins it.  Static residency is not applied again. *)
Example static_pin_is_lost :
  let w := run 0 static1 ([Routed [1]] ++ steps 0 7 ++ [Routed [0]] ++ steps 1 6 ++ steps 0 4 ++ steps 1 6) in
  (pins w 1, bool_decide (1 ∈ static_pinned (shared w)), applied (shared w), all_done w) = (false, true, true, true).
Proof. vm_compute. reflexivity. Qed.

(** An expert pinned by its count, which the comments call monotonic, is unpinned when it
    leaves the hot set. *)
Example frequency_pin_is_undone :
  let w := run 1 None ([Routed [1]] ++ steps 0 12 ++ [Routed [6]] ++ steps 1 16) in
  (pins w 1, bool_decide (1 ∈ frequency_pins w), all_done w) = (false, true, true).
Proof. vm_compute. reflexivity. Qed.

(** Static pins are not counted against the slots of a layer: here every slot of layer 0
    is pinned, and the cache refuses every other expert of the layer. *)
Example static_pins_fill_a_layer :
  let sr := with_static_residency f64_one 100 8 (Some {[0 := 5; 1 := 5]}) in
  let w := run 0 sr ([Routed [0]] ++ steps 0 14) in
  (pins w 0, pins w 1, all_done w, (fun c => (size (pinned c), ExpertCache.capacity c)) <$> MultiLayerCache.caches (cache (shared w)))
  = (true, true, true, [(2%nat, 2); (0%nat, 2)]).
Proof. vm_compute. reflexivity. Qed.

(** The sample cache has no pins. *)
Lemma caches_unpinned : unpinned two_layers.
Proof. intros c. revert c. apply (Forall_forall (fun c => pinned c = ∅)). vm_compute. repeat constructor. Qed.

Lemma pins_have_a_reason_witness :
  let w := run 0 None ([Routed [1]] ++ steps 0 8) in
  pinned_in (cache (shared w)) 1 /\ (1 ∈ locality_pinned (shared w) \/ 1 ∈ others w).
Proof.
  destruct (pins_have_a_reason half 0 false None ([Routed [1]] ++ steps 0 8) two_layers (Some monitor)) as (_ & H & _).
  - exact caches_unpinned.
  - vm_compute. reflexivity.
  - assert (Hp : pinned_in (cache (shared (run 0 None ([Routed [1]] ++ steps 0 8)))) 1) by (vm_compute; reflexivity).
    split; [exact Hp|exact (H 1 Hp)].
Defined.

Lemma frequency_pins_once_witness :
  let w := run 1 None ([Routed [1]] ++ steps 0 12) in
  occurrences 1 (frequency_pins w) + sumN (awaits 1 <$> tasks w) = 1.
Proof.
  intros w. etransitivity.
  - apply (frequency_pins_once half 1 false None ([Routed [1]] ++ steps 0 12) two_layers (Some monitor) 1). vm_compute. discriminate.
  - vm_compute. reflexivity.
Defined.

Lemma static_pins_survive_witness :
  let w := run 0 static1 ([Routed [1]] ++ steps 0 12) in
  pinned_in (cache (shared (exec half 0 false static1 ([Routed [6]] ++ steps 1 12) w))) 1.
Proof.
  apply (static_pins_survive half 0 false static1 ([Routed [6]] ++ steps 1 12)
           (run 0 static1 ([Routed [1]] ++ steps 0 12)) 1).
  - apply (bool_decide_eq_true_1 _). vm_compute. reflexivity.
  - vm_compute. reflexivity.
  - vm_compute. repeat constructor.
Defined.
End Witness.
