(* ===== verification/Admission.v ===== *)
(** The HTTP middleware ([src/rust-engine/src/middleware.rs]): the API-key gate, the
    token-bucket rate limiter, the admission controller and their order
    ([build_router] of [server.rs]).

    The admission counter is an atomic: [step] is one access of a request that is being
    admitted, so that any number of requests, and the drops of their tickets,
    interleave.  When a ticket is dropped is up to the HTTP framework, and an event of
    the model. *)
From S2P Require Import Prelude Floats.
From stdpp Require Import strings.

(** ** The API-key gate *)

(** The headers the middleware reads, when they are text. *)
Record headers := { authorization : option string; x_api_key : option string }.

Definition strip_prefix (prefix s : string) : option string :=
  if String.prefix prefix s
  then Some (String.substring (String.length prefix) (String.length s - String.length prefix) s) else None.

Definition gate_enabled (keys : gset string) : bool := negb (bool_decide (keys = ∅)).

Definition bearer (v : string) : option string :=
  match strip_prefix "Bearer " v with Some t => Some t | None => strip_prefix "bearer " v end.

Definition match_token (keys : gset string) (h : headers) : option string :=
  let candidate := match authorization h ≫= bearer with Some t => Some t | None => x_api_key h end in
  c ← candidate;
  if bool_decide (c ∈ keys) then Some c else None.

(** ** The rate limiter *)

Record Bucket := { tokens : f64; last_refill : N }.

Record RateLimiter := { rps : N; burst : N; buckets : gmap string Bucket }.

Definition limiter_new (rps burst : N) : RateLimiter :=
  {| rps := rps; burst := if (burst =? 0)%N then rps else burst; buckets := ∅ |}.

Definition limiter_enabled (r : RateLimiter) : bool := (0 <? rps r)%N.

(** [Duration::as_secs_f64] of nanoseconds; [duration_since] saturates. *)
Definition as_secs_f64 (ns : N) : f64 :=
  f64_add (f64_of_N (ns / 1000000000)) (f64_div (f64_of_N (ns mod 1000000000)) (f64_of_N 1000000000)).

Definition f64_min (x y : f64) : f64 :=
  if is_nan x then y else if is_nan y then x else if SFltb y x then y else x.

(** [now] is read before the bucket is locked. *)
Definition allow (key : string) (now : N) (r : RateLimiter) : bool * RateLimiter :=
  if negb (limiter_enabled r) then (true, r) else
  let b := default {| tokens := f64_of_N (burst r); last_refill := now |} (buckets r !! key) in
  let elapsed := as_secs_f64 (sat_sub now (last_refill b)) in
  let filled := f64_min (f64_add (tokens b) (f64_mul elapsed (f64_of_N (rps r)))) (f64_of_N (burst r)) in
  let ok := SFleb f64_one filled in
  let b := {| tokens := if ok then f64_sub filled f64_one else filled; last_refill := now |} in
  (ok, {| rps := rps r; burst := burst r; buckets := <[key := b]> (buckets r) |}).

(** ** The order of the layers *)

Inductive verdict := Unauthorized | TooManyRequests | ToAdmission.

Definition rate_limit_layer (keys : gset string) (h : headers) (now : N) (r : RateLimiter)
  : verdict * RateLimiter :=
  if negb (limiter_enabled r) then (ToAdmission, r) else
  let key := default "anonymous"%string (match_token keys h) in
  let '(ok, r) := allow key now r in
  (if ok then ToAdmission else TooManyRequests, r).

Definition api_key_layer (keys : gset string) (h : headers) (now : N) (r : RateLimiter)
  : verdict * RateLimiter :=
  if negb (gate_enabled keys) then rate_limit_layer keys h now r else
  match match_token keys h with
  | Some _ => rate_limit_layer keys h now r
  | None => (Unauthorized, r)
  end.

(** ** Admission *)

Section admission.
(** The configuration; [has_probe] is whether a block pool is configured. *)
Variables (max_concurrent min_free_blocks : N) (has_probe : bool).

(** Where a request is in [try_admit], or what became of it; [counted]: it holds a
    slot. *)
Inductive code :=
| Loading
| Trying (cur : N)
| Probing (counted : bool)
| GivingBack
| HasTicket (counted : bool)
| RefusedFull
| RefusedBlocks
| Gone.

(** [peak]: the largest value the counter has had, for the statements. *)
Record world := { in_flight : N; peak : N; threads : list code }.

Definition count (n : N) (c : code) (w : world) (i : nat) : world :=
  {| in_flight := n; peak := N.max (peak w) n; threads := <[i := c]> (threads w) |}.

(** One access; [weak] is a spurious failure of [compare_exchange_weak], [free] what
    the probe answers. *)
Definition step (weak : bool) (free : N) (i : nat) (w : world) : world :=
  match threads w !! i with
  | None => w
  | Some Loading =>
      count (in_flight w) (if (0 <? max_concurrent)%N then Trying (in_flight w) else Probing false) w i
  | Some (Trying cur) =>
      if (max_concurrent <=? cur)%N then count (in_flight w) RefusedFull w i else
      if (in_flight w =? cur)%N && negb weak
      then count (wrap_add usize_max cur 1) (Probing true) w i
      else count (in_flight w) (Trying (in_flight w)) w i
  | Some (Probing c) =>
      count (in_flight w)
        (if (0 <? min_free_blocks)%N && has_probe && (free <? min_free_blocks)%N
         then (if (0 <? max_concurrent)%N then GivingBack else RefusedBlocks) else HasTicket c) w i
  | Some GivingBack => count (wrap_add usize_max (in_flight w) usize_max) RefusedBlocks w i
  | Some _ => w
  end.

(** [Drop for AdmissionGuard]; [fetch_sub] wraps. *)
Definition drop_ticket (i : nat) (w : world) : world :=
  match threads w !! i with
  | Some (HasTicket c) =>
      count (if c : bool then wrap_add usize_max (in_flight w) usize_max else in_flight w) Gone w i
  | _ => w
  end.

Inductive event := Arrives | Steps (i : nat) (weak : bool) (free : N) | Dropped (i : nat).

Definition exec1 (w : world) (e : event) : world :=
  match e with
  | Arrives => {| in_flight := in_flight w; peak := peak w; threads := threads w ++ [Loading] |}
  | Steps i weak free => step weak free i w
  | Dropped i => drop_ticket i w
  end.

Definition exec (evs : list event) (w : world) : world := foldl exec1 w evs.
Definition empty_world : world := {| in_flight := 0; peak := 0; threads := [] |}.

(** *** The slots *)

Definition holds_slot (c : code) : bool :=
  match c with Probing c | HasTicket c => c | GivingBack => true | _ => false end.
Definition holders (l : list code) : nat := length (List.filter holds_slot l).

Lemma holders_insert l i c c' :
  l !! i = Some c ->
  (holders (<[i := c']> l) + (if holds_slot c then 1 else 0) = holders l + (if holds_slot c' then 1 else 0))%nat.
Proof.
  unfold holders. revert i. induction l as [|x l IH]; intros [|i] Hi; simplify_eq/=.
  - destruct (holds_slot c), (holds_slot c'); simpl; lia.
  - specialize (IH i Hi). destruct (holds_slot x); simpl; lia.
Qed.

(** What is known of a request: it can only be counted, or be trying, when there is a
    limit, and what it has read of the counter the counter has been. *)
Definition code_ok (top : N) (c : code) : Prop :=
  match c with
  | Trying cur => (0 < max_concurrent)%N /\ (cur <= top)%N
  | Probing true | HasTicket true | GivingBack => (0 < max_concurrent)%N
  | Probing false => max_concurrent = 0%N
  | RefusedFull => (0 < max_concurrent)%N /\ (max_concurrent <= top)%N
  | _ => True
  end.

Record world_ok (w : world) : Prop := {
  wo_count : in_flight w = N.of_nat (holders (threads w));
  wo_peak : (in_flight w <= peak w <= max_concurrent)%N;
  wo_codes : Forall (code_ok (peak w)) (threads w);
}.

Lemma code_ok_mono top top' c : (top <= top')%N -> code_ok top c -> code_ok top' c.
Proof. destruct c; simpl; try done; lia. Qed.

Lemma count_slots_ok w i c c' n :
  world_ok w -> threads w !! i = Some c -> (n <= max_concurrent)%N ->
  (n + (if holds_slot c then 1 else 0) = in_flight w + (if holds_slot c' then 1 else 0))%N ->
  code_ok (N.max (peak w) n) c' -> world_ok (count n c' w i).
Proof.
  intros [Hc Hp Hf] Hi Hn Hcount Hok. pose proof (holders_insert _ _ _ c' Hi) as Hh. split; simpl.
  - destruct (holds_slot c), (holds_slot c'); lia.
  - lia.
  - apply Forall_insert; [|done]. eapply Forall_impl; [done|]. intros x. apply code_ok_mono. lia.
Qed.

Hypothesis max_small : (max_concurrent <= usize_max)%N.

Lemma wrap_pred n : (0 < n <= usize_max)%N -> wrap_add usize_max n usize_max = (n - 1)%N.
Proof.
  intros Hn. unfold wrap_add. replace (n + usize_max)%N with ((n - 1) + 1 * (usize_max + 1))%N by lia.
  rewrite N.Div0.mod_add. apply N.mod_small. lia.
Qed.

Lemma holder_counted w i c :
  world_ok w -> threads w !! i = Some c -> holds_slot c = true -> (0 < in_flight w)%N.
Proof.
  intros [Hc _ _] Hi Hh. rewrite Hc. pose proof (holders_insert _ _ _ Gone Hi) as He. rewrite Hh in He. simpl in He. lia.
Qed.

Ltac counted := eapply count_slots_ok; [eassumption|eassumption|..]; simpl in *; lia.

Lemma access_ok weak free i w : world_ok w -> world_ok (step weak free i w).
Proof.
  intros Hw. unfold step. destruct (threads w !! i) as [c|] eqn:Hi; [|done].
  pose proof (wo_peak _ Hw) as Hp. assert (Hok : code_ok (peak w) c) by (eapply Forall_lookup_1; [apply Hw|done]).
  destruct c as [|cur|c| |c| | |]; simpl in Hok; try done.
  - destruct (N.ltb_spec 0 max_concurrent); counted.
  - destruct (N.leb_spec max_concurrent cur); [counted|].
    destruct (in_flight w =? cur)%N eqn:E; destruct weak; simpl; try counted.
    apply N.eqb_eq in E. rewrite wrap_add_small by lia. counted.
  - destruct (_ && _ && _); [destruct (N.ltb_spec 0 max_concurrent)|]; destruct c; counted.
  - pose proof (holder_counted _ _ _ Hw Hi eq_refl). rewrite wrap_pred by lia. counted.
Qed.

Lemma drop_ticket_ok i w : world_ok w -> world_ok (drop_ticket i w).
Proof.
  intros Hw. unfold drop_ticket. destruct (threads w !! i) as [c|] eqn:Hi; [|done].
  pose proof (wo_peak _ Hw). destruct c as [|cur|c| |c| | |]; try done. destruct c.
  - pose proof (holder_counted _ _ _ Hw Hi eq_refl). rewrite wrap_pred by lia. counted.
  - counted.
Qed.

Lemma run_slots_ok evs : forall w, world_ok w -> world_ok (exec evs w).
Proof.
  induction evs as [|e evs IH]; intros w Hw; [done|]. apply IH. destruct e as [|i weak free|i]; simpl.
  - destruct Hw as [Hc Hp Hf]. split; simpl; [|done|].
    + unfold holders in *. rewrite List.filter_app, length_app. simpl. lia.
    + apply Forall_app. by repeat constructor.
  - by apply access_ok.
  - by apply drop_ticket_ok.
Qed.

(** The peak was reached at some point of the run. *)
Lemma peak_reached evs : forall w,
  peak w = in_flight w ->
  exists evs1 evs2, evs = evs1 ++ evs2 /\ in_flight (exec evs1 w) = peak (exec evs w).
Proof.
  induction evs as [|e evs IH] using rev_ind; intros w Hw; [by exists [], []|].
  destruct (IH w Hw) as (evs1 & evs2 & He & Hpk).
  assert (Hlast : exec (evs ++ [e]) w = exec1 (exec evs w) e) by (unfold exec; by rewrite foldl_app).
  assert (Hcase : peak (exec1 (exec evs w) e) = peak (exec evs w) \/
    peak (exec1 (exec evs w) e) = in_flight (exec1 (exec evs w) e)).
  { destruct e as [|i weak free|i]; simpl; [by left| |]; unfold step, drop_ticket; repeat case_match; simpl; auto; lia. }
  rewrite Hlast. destruct Hcase as [Hsame|Hnew].
  - exists evs1, (evs2 ++ [e]). rewrite Hsame. split; [|done]. by rewrite He, <-app_assoc.
  - exists (evs ++ [e]), []. rewrite app_nil_r. split; [done|]. by rewrite Hlast.
Qed.

(** C19. Admission never exceeds its limit and leaks nothing.  Whatever the interleaving of
    requests and dropped tickets and however often the weak exchange fails, the counter
    is the number of requests that hold a slot, at most [max_concurrent], and back to 0
    when none does; without a limit it stays 0; and a request is turned away as "full"
    only if the counter has been at the limit. *)
Theorem slots_are_counted evs :
  let w := exec evs empty_world in
  in_flight w = N.of_nat (holders (threads w)) /\ (in_flight w <= max_concurrent)%N /\
  (Forall (fun c => holds_slot c = false) (threads w) -> in_flight w = 0%N) /\
  (RefusedFull ∈ threads w -> peak w = max_concurrent /\ exists evs1 evs2, evs = evs1 ++ evs2 /\
     in_flight (exec evs1 empty_world) = max_concurrent).
Proof.
  intros w.
  assert (H0 : world_ok empty_world) by (split; simpl; [done|lia|done]).
  pose proof (run_slots_ok evs empty_world H0) as Hw. fold w in Hw. destruct Hw as [Hc Hp Hf].
  split_and!; [done|lia| |].
  - intros Hnone. rewrite Hc. unfold holders. clear Hc Hf. induction Hnone as [|c l Hh _ IH]; simpl; [done|].
    by rewrite Hh.
  - intros Hr. rewrite Forall_forall in Hf. specialize (Hf _ Hr). simpl in Hf. split; [lia|].
    destruct (peak_reached evs empty_world) as (evs1 & evs2 & He & Hpk); [done|].
    fold w in Hpk. exists evs1, evs2. split; [done|]. lia.
Qed.

(** *** A request on its own *)

(** The access of a request that sees the counter at [n] and succeeds in its exchange:
    the counter and the place afterwards. *)
Definition advance (free n : N) (c : code) : N * code :=
  match c with
  | Loading => (n, if (0 <? max_concurrent)%N then Trying n else Probing false)
  | Trying cur =>
      if (max_concurrent <=? cur)%N then (n, RefusedFull)
      else if (n =? cur)%N then (wrap_add usize_max cur 1, Probing true) else (n, Trying n)
  | Probing c =>
      (n, if (0 <? min_free_blocks)%N && has_probe && (free <? min_free_blocks)%N
          then (if (0 <? max_concurrent)%N then GivingBack else RefusedBlocks) else HasTicket c)
  | GivingBack => (wrap_add usize_max n usize_max, RefusedBlocks)
  | c => (n, c)
  end.

Lemma step_advances free w l c :
  threads w = l ++ [c] ->
  threads (step false free (length l) w) = l ++ [snd (advance free (in_flight w) c)] /\
  in_flight (step false free (length l) w) = fst (advance free (in_flight w) c).
Proof.
  intros Hl. unfold step. rewrite Hl, lookup_app_r, Nat.sub_diag by lia. simpl.
  assert (Hi : forall c', <[length l := c']> (l ++ [c]) = l ++ [c'])
    by (intros; by rewrite insert_app_r_alt, Nat.sub_diag by lia).
  destruct c as [|cur|c| |c| | |]; simpl; rewrite ?Hl, ?Hi; try done.
  rewrite andb_true_r. destruct (max_concurrent <=? cur)%N; [|destruct (in_flight w =? cur)%N]; simpl; by rewrite Hl, Hi.
Qed.

Lemma steps_advance free l k : forall w c,
  threads w = l ++ [c] ->
  let '(n, c') := Nat.iter k (fun p => advance free p.1 p.2) (in_flight w, c) in
  threads (exec (replicate k (Steps (length l) false free)) w) = l ++ [c'] /\
  in_flight (exec (replicate k (Steps (length l) false free)) w) = n.
Proof.
  induction k as [|k IH]; intros w c Hl; [done|]. rewrite Nat.iter_succ_r. cbn [replicate exec foldl exec1 fst snd].
  destruct (step_advances free w l c Hl) as [Ht Hn].
  specialize (IH _ _ Ht). rewrite Hn, <-surjective_pairing in IH. exact IH.
Qed.

(** A request that nothing interferes with gets the answer the configuration asks
    for in at most four accesses: it is admitted exactly when the counter is below the
    limit (if there is one) and enough blocks are free (if that is asked for), and holds
    a slot exactly then. *)
Theorem try_admit_alone free w :
  world_ok w ->
  let w' := exec (Arrives :: replicate 4 (Steps (length (threads w)) false free)) w in
  let room := (max_concurrent =? 0)%N || (in_flight w <? max_concurrent)%N in
  let blocks := negb ((0 <? min_free_blocks)%N && has_probe && (free <? min_free_blocks)%N) in
  threads w' = threads w ++ [if negb room then RefusedFull
    else if blocks then HasTicket (0 <? max_concurrent)%N else RefusedBlocks] /\
  in_flight w' = (in_flight w + (if room && blocks && (0 <? max_concurrent)%N then 1 else 0))%N.
Proof.
  intros Hw w' room blocks. pose proof (wo_peak _ Hw) as Hp.
  pose proof (steps_advance free (threads w) 4
    {| in_flight := in_flight w; peak := peak w; threads := threads w ++ [Loading] |} Loading eq_refl) as H.
  change (exec (replicate 4 _) _) with w' in H. cbn [in_flight] in H.
  destruct (Nat.iter 4 _ _) as [n c] eqn:E. destruct H as [-> ->]. revert E. unfold room, blocks. clear w' room blocks.
  cbn [Nat.iter nat_rect fst snd advance]. destruct (N.ltb_spec 0 max_concurrent) as [Hm|Hm]; cbn [fst snd advance].
  - rewrite (proj2 (N.eqb_neq max_concurrent 0)) by lia. rewrite N.ltb_antisym, N.eqb_refl.
    destruct (N.leb_spec max_concurrent (in_flight w)); cbn [fst snd advance orb negb andb]; [by intros [= <- <-]; rewrite N.add_0_r|].
    rewrite (proj2 (N.ltb_lt 0 max_concurrent)), wrap_add_small by lia.
    destruct (_ && _ && _); cbn [fst snd advance orb negb andb]; intros [= <- <-]; [|done].
    rewrite wrap_pred by lia. split; [done|lia].
  - assert (max_concurrent = 0%N) as -> by lia. simpl.
    destruct (_ && _ && _); simpl; intros [= <- <-]; by rewrite N.add_0_r.
Qed.
End admission.

(** ** What a refusal costs *)

(** A request that is refused early costs nothing: one without a valid key is refused
    exactly when keys are configured, and touches no bucket; the limiter charges only the
    bucket of the key the request presented (the anonymous one without keys), and does
    not run at all for a rate of 0. *)
Theorem refusals_cost_nothing (keys : gset string) (h : headers) (now : N) (r : RateLimiter) :
  let '(v, r') := api_key_layer keys h now r in
  (v = Unauthorized <-> keys <> ∅ /\ match_token keys h = None) /\
  (v = Unauthorized \/ rps r = 0%N -> r' = r) /\
  (v = TooManyRequests -> rps r <> 0%N /\ fst (allow (default "anonymous"%string (match_token keys h)) now r) = false) /\
  (forall k, k <> default "anonymous"%string (match_token keys h) -> buckets r' !! k = buckets r !! k).
Proof.
  assert (Hrate : let '(v, r') := rate_limit_layer keys h now r in
    v <> Unauthorized /\ (rps r = 0%N -> r' = r) /\
    (v = TooManyRequests -> rps r <> 0%N /\ fst (allow (default "anonymous"%string (match_token keys h)) now r) = false) /\
    forall k, k <> default "anonymous"%string (match_token keys h) -> buckets r' !! k = buckets r !! k).
  { unfold rate_limit_layer, allow, limiter_enabled. destruct (N.ltb_spec 0 (rps r)); simpl; [|done].
    destruct (SFleb _ _); simpl; split_and!; try done; try lia;
      (split; [lia|done]) || (intros k Hk; by rewrite lookup_insert_ne by done). }
  unfold api_key_layer, gate_enabled. rewrite negb_involutive. case_bool_decide as Hk.
  - destruct (rate_limit_layer keys h now r) as [v r']. destruct Hrate as (Hv & Hz & Ht & Hb).
    split_and!; [|by intros [?|?]; auto|done|done]. split; [done|by intros [? _]].
  - destruct (match_token keys h) as [key|].
    + destruct (rate_limit_layer keys h now r) as [v r']. destruct Hrate as (Hv & Hz & Ht & Hb).
      split_and!; [|by intros [?|?]; auto|done|done]. split; [done|by intros [_ ?]].
    + split_and!; done.
Qed.

(** A foreign bearer token hides a valid key in the other header. *)
Example bearer_hides_the_other_header :
  let keys := {["secret"%string]} : gset string in
  match_token keys {| authorization := None; x_api_key := Some "secret"%string |} = Some "secret"%string /\
  match_token keys {| authorization := Some "Bearer other"%string; x_api_key := Some "secret"%string |} = None.
Proof. split; by vm_compute. Qed.

(** Calls of [allow] on one bucket, in the order they lock it. *)
Fixpoint allow_all (times : list N) (r : RateLimiter) : list bool :=
  match times with
  | [] => []
  | now :: times => let '(ok, r) := allow "k" now r in ok :: allow_all times r
  end.

(** A bucket of three starts full and refills with time. *)
Example burst_then_rate :
  allow_all [0; 0; 0; 0; 1000000000; 1000000000]%N (limiter_new 1 3) = [true; true; true; false; true; false].
Proof. by vm_compute. Qed.

(** A call that read the clock before another one but locks the bucket after it turns the
    bucket's clock back: the second between them is credited twice. *)
Example late_lock_refills_twice :
  allow_all [0; 1000000000; 0; 1000000000]%N (limiter_new 1 1) = [true; true; false; true].
Proof. by vm_compute. Qed.

Module Witness.
(** A limit of one: the second request is refused, the first loses its slot to the probe. *)
Definition race : list event :=
  [Arrives; Arrives; Steps 0 false 0; Steps 1 false 0; Steps 0 false 0; Steps 1 false 0; Steps 1 false 0]%N.

Lemma slots_are_counted_witness :
  let w := exec 1 4 true race empty_world in
  threads w = [Probing true; RefusedFull] /\ in_flight w = 1%N /\
  exists evs1 evs2, race = evs1 ++ evs2 /\ in_flight (exec 1 4 true evs1 empty_world) = 1%N.
Proof.
  destruct (slots_are_counted 1 4 true ltac:(vm_compute; discriminate) race) as (_ & _ & _ & Hfull).
  split; [vm_compute; reflexivity|split; [vm_compute; reflexivity|]].
  apply Hfull. vm_compute. repeat constructor.
Defined.

Lemma try_admit_alone_witness :
  threads (exec 1 4 true (Arrives :: replicate 4 (Steps 0 false 9)) empty_world) = [HasTicket true].
Proof.
  assert (Hw : world_ok 1 empty_world) by (split; simpl; [done|lia|done]).
  exact (proj1 (try_admit_alone 1 4 true ltac:(vm_compute; discriminate) 9 empty_world Hw)).
Defined.
End Witness.
